(* ===== verification/_CoqProject ===== *)
-Q . S2P
Prelude.v
Machine.v
Order.v
Timestamp.v
Search.v
LeanVec.v
Sort.v
Quicksort.v
Consolidation.v
Trie.v
Leaf.v
Layer.v
LayerSpec.v
Fueled.v
Cursors.v
Tuples.v
PipelineTypes.v
PipelineDb.v
PipelineInvariant.v
PipelineFrame.v
PipelineAutomaton.v
PipelineRunner.v
PipelineCompiler.v
PipelineErrors.v
PipelineTheorems.v
Fxp.v
FxpU256.v
FxpFixed.v
FxpSpec.v
FxpText.v
FxpDynamic.v
FxpTheorems.v
Scheduler.v
SchedulerSpec.v
SchedulerTheorems.v
SchedulerPrepare.v
CircuitBuilder.v
CircuitSpec.v
CircuitRun.v
CircuitTheorems.v
IndexSet.v
MergeCursor.v
ListMerger.v
ListMergerSpec.v
ListMergerStep.v
ListMergerLoops.v
ListMergerKeys.v
ListMergerWork.v
ListMergerTheorems.v
Batch.v
BatchSpec.v
BatchBuild.v
VecLayers.v
VecWSet.v
VecIndexedWSet.v
VecKeyBatch.v
VecValBatch.v
CursorList.v
CursorListSpec.v
CursorListMoves.v
CursorListTheorems.v
MergeSorter.v
MergeSorterSpec.v
MergeBatcher.v
BatchTheorems.v
