(* ===== verification/Prelude.v ===== *)
(** * Feldera: data structures, circuits and schedulers of the engine, decimal numbers and the life cycle of pipelines

    Feldera runs SQL programs as incremental computations.  The development covers four of its
    parts: the data structures of DBSP, the engine that runs in every pipeline, its circuits and
    their scheduler, the decimal numbers of SQL, and the pipeline manager, the control plane that compiles, starts and stops
    pipelines.

    DBSP is the incremental computation engine (crates/dbsp).  A computation is
    a circuit of operators that exchange Z-sets, collections of tuples with integer
    weights.  A Z-set is stored as an immutable batch, a trie of sorted vectors; batches
    are built from unsorted tuples by consolidation, added by merging, and read through
    cursors; a trace is a collection of batches that are merged in the background, in
    steps bounded by fuel.  Tuples may carry logical times, which are partially ordered.

    The first files model this core, bottom up, and prove that every layer computes
    the Z-set it should.

    The pipeline manager (crates/pipeline-manager) keeps one table of pipelines in a database.
    The API server changes it for users, the compiler servers compile programs and store the
    results in it, and for every pipeline the runner has an automaton that reads the row in
    cycles and drives the deployment towards the desired status.  The parties
    interact only through transactions on this table.  The later files model the table, its
    transactions and the automaton, and prove what holds in every order of requests.

    SQL's DECIMAL is a decimal number with fixed precision and scale (crates/fxp), stored as a
    128-bit integer; products and dividends are formed in 256 bits.  A second type has a scale of
    its own and a canonical form.  Files named Fxp model the arithmetic at its machine width and
    prove it exact up to one rounding, and where it is not.

    A circuit (circuit/circuit_builder.rs) is a graph of nodes that evaluate an operator on the values
    of their input streams and put the result on their output stream.  The dynamic scheduler
    (circuit/schedule/dynamic_scheduler.rs) runs a step: every node is evaluated once, as a task of its
    own, when its predecessors have been; operators that wait for other workers announce by
    notifications that they are ready.  A transaction is a sequence of steps, at its end operators are
    flushed in the order of the graph.  The last files model the scheduler as a state machine over the
    events it may receive, the construction of circuits and the evaluation of nodes, and compose the
    three: whatever the order of events, a step computes what evaluating the nodes one after the other
    computes.

    A trace is kept small by merging its batches.  The list merger (trace/spine_async/list_merger.rs)
    merges up to 64 batches at once, in calls bounded by fuel, and advances times that are no longer
    distinguished; it reads batches through merge cursors and writes with a builder, which are traits.
    The files after those on circuits model the traits as classes with specifications, the merger against
    these classes, the functions on batches that are written with them (trace.rs), and the four kinds of
    batches in memory, which keep the specifications.  Operators read the batches of a trace through one cursor
    over all of them, and make batches of tuples in any order with a batcher, which sorts them run by run; both
    are modelled on the same classes.

    Each definition is a translation of the Rust function that has
    its name; panics are [None], loops are recursive functions with a bound on the number of
    iterations that the theorems show to be sufficient.

    ** Files

    - Prelude: notation for panics, total orders ([Ord]), commutative monoids of weights
      ([MonoidValue]), the weight [wt] that a list of tuples gives to a key, and canonical
      lists (keys strictly increasing, no zero weight), which are determined by their
      weights.
    - Machine: fixed-width integers with wrapping and checked operations.
    - Order: [PartialOrder], [Lattice] and [Antichain] (algebra/order.rs,
      algebra/lattice.rs, time/antichain.rs).  Insertion keeps an antichain and
      the set it covers, construction gives the minimal elements, equality and order
      decide the covered sets, join and meet are lattice operations, and [advance_by]
      gives canonical representatives relative to a frontier.
    - Timestamp: [Timestamp] and nested clocks [Product] (time.rs, time/product.rs).
      Advancing, receding and epochs, with the overflow of the u32 clock.
    - Search: exponential search, typed and type-erased (utils/advance_retreat.rs,
      dynamic/vec.rs).  Every search returns the boundary of the predicate.
    - LeanVec: in-place deduplication and filtering (dynamic/lean_vec.rs,
      utils/consolidation/utils.rs).  They compute the reference functions.
    - Sort: the stable merge sort with natural runs (utils/sort.rs).  It returns the
      unique stable sorted arrangement, within the bounds of slice and buffer.
    - Quicksort: the paired pattern-defeating quicksort (utils/consolidation/quicksort.rs).
      Keys ascend, every payload stays at its key.
    - Consolidation: summing the weights of equal keys and dropping zeros
      (utils/consolidation.rs), against the interface [PairSorter] that both sorts
      implement.  The result is the canonical list with the same weights.
    - Trie: the traits of the layers (trace/layers.rs) as the class [TrieOps], the reference
      merge of sorted lists of entries, the interface [TrieSpec] that a layer promises
      the layer above it, and the correctness of [merge] against this interface.
    - Leaf: keys and weights (trace/layers/leaf.rs); implements [TrieSpec]; merging two leaves.
    - Layer: keys, offsets and a layer of values (trace/layers/layer.rs), its builders and
      cursor.
    - LayerSpec: a layer over any [TrieSpec] is a [TrieSpec], so tries of any depth are.
      Merging whole layers, with mapped times and filtered keys.
    - Fueled: merging in steps bounded by fuel.  What one call does, that
      resumed calls amount to one unbounded merge, filters on keys and values, and the
      fuel bound of copying.
    - Cursors: where the cursors of both layers land, and that the cursor of a
      layer keeps its child on the values of the current key.
    - Tuples: the interface [TupleSpec] of tuple builders and its implementations.
      Building a trie from tuples is a round trip.
    - PipelineTypes: the statuses, their texts, the permitted transitions, names, combined
      statuses and errors of the pipeline manager (db/types, db/error.rs,
      feldera-types/runtime_status.rs).
    - PipelineDb: the pipeline table, the operations on it and the transactions of the storage
      interface (db/operations/pipeline.rs, db/storage_postgres.rs).
    - PipelineInvariant: the requests of users, the compiler and runners as a step relation,
      and the invariant of the reachable states.
    - PipelineFrame: what the requests of users and of the compiler leave unchanged of a
      pipeline that is deployed.
    - PipelineAutomaton: the pipeline automaton (runner/pipeline_automata.rs).
    - PipelineRunner: which decisions the automaton takes, that they can be stored under
      interference, and what cycles amount to.
    - PipelineCompiler: versions, the assignment of pipelines to compiler workers and their
      recovery after a restart.
    - PipelineErrors: which errors user requests can meet.
    - PipelineTheorems: the theorems on the pipeline manager, with an example.  The table
      invariant; deployed pipelines are frozen and version guards are sound; the automaton
      never panics, its cycles succeed under interference, it stops pipelines
      within two cycles and starts them within three; users are only refused with errors of
      the client; interrupted compilations are recovered; a start while storage is
      being cleared is stuck.
    - Fxp: powers of ten, rounding and division of 128-bit integers (fxp/lib.rs).
    - FxpU256: 256-bit integers as pairs of words (fxp/u256.rs): schoolbook multiplication, the
      division of Hacker's Delight, the recursive square root, and that they are exact.
    - FxpFixed: the operations of [Fixed] (fxp/fixed.rs).
    - FxpSpec: what these operations compute.
    - FxpText: printing, displaying and parsing decimal numbers (fxp/lib.rs), and that parsing
      inverts printing.
    - FxpDynamic: decimal numbers in canonical form (fxp/dynamic.rs).
    - FxpTheorems: the theorems on decimal numbers.  Exact wide integers, fixed-point
      arithmetic, rounding, order and encoding, round trips through text, the canonical form and
      its arithmetic, and the inputs on which the code departs from its documentation.
    - Scheduler: the state and the operations of the dynamic scheduler, ownership constraints,
      transactions and their progress (circuit/schedule/dynamic_scheduler.rs, circuit/schedule.rs).
    - SchedulerSpec: the invariant of a step and that every event keeps it.
    - SchedulerTheorems: a step is safe and ends, commits progress and complete.
    - SchedulerPrepare: what preparation establishes, the notification that is lost, examples.
    - CircuitBuilder: streams with their consumer tokens, the nodes, the operations that build a
      circuit, the evaluation of a node as the two halves around its suspension
      (circuit/circuit_builder.rs); [Operator] is the interface to operators
      (circuit/operator_traits.rs).
    - CircuitSpec, CircuitRun: well-formed circuits, and that overlapping evaluations amount to
      sequential ones; which consumer owns the value of a stream.
    - CircuitTheorems: the builder keeps circuits well formed, and the composition of builder,
      scheduler and evaluation.
    - IndexSet: sets of cursors as 64-bit words (trace/spine_async/index_set.rs), and that every
      operation is the one on sorted lists of indexes.
    - MergeCursor: the traits [MergeCursor] and [Builder] (trace/cursor.rs, trace.rs), what they
      promise ([MergeCursorSpec], [BuilderSpec]) as operations on sorted sequences of tuples, and the
      cursor that filters keys and values.
    - ListMerger: the list merger (trace/spine_async/list_merger.rs).
    - ListMergerSpec, ListMergerStep, ListMergerLoops, ListMergerKeys, ListMergerWork: its
      invariant, that a value, the values of a key, a key and a call keep it, and what a call spends.
    - ListMergerTheorems: a merge in the background, cut into calls in any way, ends and is the sum of the
      batches up to advancing times; a merge at once is their sum.
    - Batch: the traits [Cursor], [BatchReader] and [Batch], the merge cursor that filters nothing, the
      choice between these cursors, and [merge_batches] and [merge_batches_by_reference] (trace.rs).
    - BatchSpec: what batches promise ([BatchSpec]) and what merging many of them computes.
    - BatchBuild: [TupleBuilder], copying from a cursor, filtering and comparing batches (trace.rs).
    - VecLayers: what the batches use of leaves and layers: construction from vectors, and where their
      cursors are.
    - VecWSet, VecIndexedWSet: weighted sets and indexed weighted sets (trace/ord/vec), their cursors,
      builders and consuming cursors; instances of the specifications.
    - VecKeyBatch, VecValBatch: their counterparts with times.
    - CursorList: the cursor over several batches (trace/cursor/cursor_list.rs), with all its movements.
    - CursorListSpec, CursorListMoves: the merge of sequences of keys and of values, the loops over the
      cursors, and that moving forward stays on the merge without the values whose weights cancel, so that a
      [CursorList] is a cursor.
    - CursorListTheorems: reading it to the end gives every key and value once with the sum of its weights, or
      with all its times.
    - MergeSorter: the sorter of batchers (trace/ord/merge_batcher/merge_sorter.rs), with the capacities of
      its buffers (dynamic/lean_vec.rs).
    - MergeSorterSpec: its queue holds the weights that were pushed, and its loops end.
    - MergeBatcher: batches from tuples in any order (trace/ord/merge_batcher.rs).
    - BatchTheorems: merging, building, filtering and comparing batches, with examples.

    ** Bounds and fuel

    Every loop has an iteration bound computed from its inputs (lengths of slices, sums of
    remaining ranges, logarithms for the searches and the recursion of the
    sorts), and the theorems state that the result is [Some]: the bound suffices and no
    index is out of range.  Lengths and offsets are natural numbers: vectors are bounded
    by memory, so sums of lengths do not overflow a usize.  Integers whose overflow
    the code handles (clocks, random numbers of the quicksort, positions
    before the first element of a cursor) are kept at their width.  The amount of
    fuel of a fueled merge is the code's own parameter, an integer.  Versions and counters
    of pipelines are bigints: a statement that would leave their range fails.  Decimal numbers are
    128-bit integers; a flag says whether the build checks plain operators for overflow, and the
    theorems hold for both.  The loops of the decimal code have constant bounds: 3 corrections
    of a digit, 65 levels of the square root, 39 digits, 32 bits of an exponent.  A step of the
    scheduler consumes a list of events; that at most three events per node end it is a theorem.  The loops
    of the list merger are bounded by the number of keys and values of its batches, for which a batch's
    [key_count] and [len] are enough; its fuel is the code's parameter, [isize::MAX] where a merge is done
    at once, so that a merge of that many values is excluded.  The loops of the merge sorter are bounded by the
    tuples of the two runs and by the length of its queue, those of a cursor over several batches by the number
    of keys and of values of the batches.

    Zero-sized key types are covered: [zst_ok] says that a type of size 0 has one value.

    ** Assumptions

    Key types implement [Ord] lawfully and weights are a commutative monoid; both are
    type-class arguments with laws, instantiated at concrete types in the witnesses.
    Functions that the code receives (filters, mapping of times) are arbitrary functions.

    JSON values, configurations and their (de)serialisers, and the messages of pipelines are
    parameters of the pipeline manager's model (the classes [Externals] and [RunnerExternals]);
    the answers of the executor and of a pipeline in a cycle of the automaton are an arbitrary
    [World].  A transaction is one step: the database runs transactions serialised, and one
    that fails has no effect.  An identifier that is generated is an argument of the
    request.

    The topological sort of the scheduler is a library function: a parameter, of which its
    documentation is assumed (an order of the nodes in which edges lead forward, or an error).
    Operators are arbitrary ([Operator]); [OperatorLaws] says that owned and borrowed arguments give
    the same result.  The agreement of the workers that a transaction is complete is a parameter of
    the step.

    ** Not modelled

    Memory management (raw vectors, [unsafe] casts of the type-erased containers, capacities except where the
    merge sorter depends on them), formatting, serialisation and random sampling.  Of the trace, its levels and
    the thread that merges in the background, the batches on disk, and cursors over a pair of batches.  The
    movements of a cursor over several batches other than forward steps are defined and tried on an example, without a
    theorem.  Of decimal numbers, the operators
    that unwrap a checked operation, conversions from and to floating point, the width of
    formatted text and debug assertions.  Of the pipeline manager, the
    HTTP endpoints, the processes of the compiler, the executors, API keys, support bundles and
    database migrations, which are input and output around the storage interface.  Of circuits, nested
    circuits with their executors, exports, replay, checkpoints and metadata, and the worker threads.
    Other parts of the system: operators, storage, adapters, the SQL runtime
    library, the SQL compiler and the clients.

    ** Plan

    Next are seeking and backward movement of the cursors over several batches and the cursor over a pair
    (trace/cursor), the levels of the spine (trace/spine_async.rs), the concrete weights
    (algebra/checked_int.rs, algebra/present.rs), then operators over batches (distinct, join,
    aggregation, integration) and nested circuits. *)
From stdpp Require Export base tactics list numbers option sets.
From Stdlib Require Export ZArith Lia.
From Stdlib Require Import Sorting.Sorted.

#[global] Generalizable All Variables.

(** ** Tactics *)

(** Turns boolean hypotheses into the propositions they decide. *)
Ltac bool_simpl :=
  repeat match goal with
  | H : _ && _ = true |- _ => apply andb_true_iff in H as [? ?]
  | H : _ || _ = false |- _ => apply orb_false_iff in H as [? ?]
  | H : negb _ = true |- _ => apply negb_true_iff in H
  | H : negb _ = false |- _ => apply negb_false_iff in H
  | H : bool_decide _ = true |- _ => apply bool_decide_eq_true in H
  | H : bool_decide _ = false |- _ => apply bool_decide_eq_false in H
  | H : (_ <? _)%Z = true |- _ => apply Z.ltb_lt in H
  | H : (_ <? _)%Z = false |- _ => apply Z.ltb_ge in H
  | H : (_ <=? _)%Z = true |- _ => apply Z.leb_le in H
  | H : (_ <=? _)%Z = false |- _ => apply Z.leb_gt in H
  | H : (_ =? _)%Z = true |- _ => apply Z.eqb_eq in H
  | H : (_ =? _)%Z = false |- _ => apply Z.eqb_neq in H
  end.

(** ** Panics

    Rust code that may panic (out-of-range indexing, [unwrap] on [None],
    overflow when overflow checks are on, a failed [assert!]) is modelled in
    the [option] monad with stdpp's bind [x ← e; k]: [None] is the panic. *)
Declare Scope dbsp_scope.
Delimit Scope dbsp_scope with dbsp.
#[global] Open Scope dbsp_scope.
Notation "'assert!' b 'in' k" := (if (b : bool) then k else None)
  (at level 10, b at level 100, k at level 200) : dbsp_scope.

(** ** Total orders: the contract of Rust's [Ord] *)
Class Ord (K : Type) := {
  cmp : K → K → comparison;
  cmp_eq : ∀ x y, cmp x y = Eq ↔ x = y;
  cmp_antisym : ∀ x y, cmp y x = CompOpp (cmp x y);
  cmp_lt_trans : ∀ x y z, cmp x y = Lt → cmp y z = Lt → cmp x z = Lt }.

Definition klt `{Ord K} (x y : K) : Prop := cmp x y = Lt.
Definition kltb `{Ord K} (x y : K) : bool := match cmp x y with Lt => true | _ => false end.
Definition kgtb `{Ord K} (x y : K) : bool := match cmp x y with Gt => true | _ => false end.
Infix "≺" := klt (at level 70) : dbsp_scope.

Section ord.
Context `{Ord K}.
Implicit Types x y z : K.

Lemma cmp_refl x : cmp x x = Eq.
Proof. by apply cmp_eq. Qed.

Lemma cmp_gt x y : cmp x y = Gt ↔ y ≺ x.
Proof. unfold klt. rewrite (cmp_antisym x y). by destruct (cmp x y). Qed.

Lemma klt_irrefl x : ¬ x ≺ x.
Proof. unfold klt. rewrite cmp_refl. discriminate. Qed.

#[global] Instance klt_trans : Transitive (klt (K:=K)).
Proof. intros x y z. apply cmp_lt_trans. Qed.

Lemma klt_neq x y : x ≺ y → x ≠ y.
Proof. intros Hlt ->. by apply klt_irrefl in Hlt. Qed.

Lemma klt_asym x y : x ≺ y → ¬ y ≺ x.
Proof. intros H1 H2. apply (klt_irrefl x). by transitivity y. Qed.

Lemma klt_trichotomy x y : x ≺ y ∨ x = y ∨ y ≺ x.
Proof.
  destruct (cmp x y) eqn:E; [right; left; by apply cmp_eq | by left |].
  right; right. by apply cmp_gt.
Qed.

Lemma kltb_spec x y : kltb x y = true ↔ x ≺ y.
Proof. unfold kltb, klt. by destruct (cmp x y). Qed.

Lemma kltb_false x y : kltb x y = false ↔ ¬ x ≺ y.
Proof. rewrite <- kltb_spec. by destruct (kltb x y). Qed.

Lemma kgtb_spec x y : kgtb x y = true ↔ y ≺ x.
Proof. rewrite <- cmp_gt. unfold kgtb. by destruct (cmp x y). Qed.

#[global] Instance ord_eq_dec : EqDecision K.
Proof.
  intros x y. destruct (cmp x y) eqn:E; [left; by apply cmp_eq | right | right];
    intros ->; by rewrite cmp_refl in E.
Defined.
End ord.

(** ** Commutative monoids: Rust's [MonoidValue]

    [HasZero] ([zero]/[is_zero]) and [AddByRef] with the laws every weight type
    of the engine satisfies. *)
Class MonoidValue (R : Type) := {
  mzero : R;
  madd : R → R → R;
  m_eq_dec :: EqDecision R;
  madd_assoc : ∀ x y z, madd x (madd y z) = madd (madd x y) z;
  madd_comm : ∀ x y, madd x y = madd y x;
  madd_0_l : ∀ x, madd mzero x = x }.

Definition is_zero `{MonoidValue R} (x : R) : bool := bool_decide (x = mzero).
Infix "⊕" := madd (at level 50, left associativity) : dbsp_scope.

Section monoid.
Context `{MonoidValue R}.
Implicit Types x y z : R.

Lemma madd_0_r x : x ⊕ mzero = x.
Proof. by rewrite madd_comm, madd_0_l. Qed.

Lemma is_zero_true x : is_zero x = true ↔ x = mzero.
Proof. unfold is_zero. apply bool_decide_eq_true. Qed.

Lemma is_zero_false x : is_zero x = false ↔ x ≠ mzero.
Proof. unfold is_zero. apply bool_decide_eq_false. Qed.

Lemma is_zero_mzero : is_zero (mzero : R) = true.
Proof. by apply is_zero_true. Qed.

Lemma madd_swap x y z : x ⊕ (y ⊕ z) = y ⊕ (x ⊕ z).
Proof. by rewrite madd_assoc, (madd_comm x), <- madd_assoc. Qed.
End monoid.

(** ** Sorted association lists and the weights they denote *)
Section weighted.
Context `{Ord K} `{MonoidValue R}.
Implicit Types (k : K) (r : R) (l : list (K * R)).

(** The weight a list of (key, weight) pairs gives to a key: the sum over all
    its occurrences.  Two lists denote the same Z-set when they agree on it. *)
Fixpoint wt l k : R :=
  match l with
  | [] => mzero
  | (k', r) :: l' => if decide (k' = k) then r ⊕ wt l' k else wt l' k
  end.

Definition keys_sorted l : Prop := StronglySorted klt l.*1.
Definition nonzero l : Prop := Forall (λ p, p.2 ≠ mzero) l.
(** A consolidated list: keys strictly increasing, no zero weight. *)
Definition canonical l : Prop := keys_sorted l ∧ nonzero l.

Lemma wt_app l1 l2 k : wt (l1 ++ l2) k = wt l1 k ⊕ wt l2 k.
Proof.
  induction l1 as [|[k' r] l1 IH]; simpl; [by rewrite madd_0_l|].
  case_decide; rewrite IH; [by rewrite madd_assoc | done].
Qed.

#[global] Instance wt_perm : Proper ((≡ₚ) ==> (=) ==> (=)) wt.
Proof.
  intros l1 l2 Hp k ? <-. induction Hp as [|[k' r] ? ? _ IH|[k1 r1] [k2 r2] ?|]; simpl.
  - done.
  - by rewrite IH.
  - repeat case_decide; try done. apply madd_swap.
  - congruence.
Qed.

Lemma wt_notin l k : k ∉ l.*1 → wt l k = mzero.
Proof.
  induction l as [|[k' r] l IH]; simpl; [done|].
  rewrite not_elem_of_cons. intros [Hk Hl]. rewrite decide_False by congruence. auto.
Qed.

Lemma wt_singleton k r k' : wt [(k, r)] k' = if decide (k = k') then r else mzero.
Proof. simpl. case_decide; [apply madd_0_r | done]. Qed.

Lemma wt_cons_eq k r l : wt ((k, r) :: l) k = r ⊕ wt l k.
Proof. simpl. by rewrite decide_True. Qed.

Lemma wt_cons_ne k k' r l : k' ≠ k → wt ((k', r) :: l) k = wt l k.
Proof. intros. simpl. by rewrite decide_False. Qed.
End weighted.

Section sorted.
Context {A : Type} (lt : relation A).
Implicit Types (x y : A) (l : list A).

Lemma StronglySorted_app l1 l2 :
  StronglySorted lt (l1 ++ l2) ↔
  StronglySorted lt l1 ∧ StronglySorted lt l2 ∧ (∀ x y, x ∈ l1 → y ∈ l2 → lt x y).
Proof.
  induction l1 as [|x l1 IH]; simpl.
  - split; [intros; split_and!; [constructor | done | set_solver] | naive_solver].
  - split.
    + intros Hs. inv Hs. apply IH in H1 as (?&?&?). rewrite Forall_app in H2. destruct H2.
      split_and!; [by constructor | done |]. intros a b [->|]%elem_of_cons Hb; [|eauto].
      by eapply Forall_forall.
    + intros (Hs1&Hs2&Hc). inv Hs1. constructor.
      * apply IH. split_and!; [done | done |]. intros. apply Hc; [by right | done].
      * apply Forall_app. split; [done|]. apply Forall_forall. intros. apply Hc; [left | done].
Qed.

Lemma StronglySorted_lookup l i j x y :
  StronglySorted lt l → l !! i = Some x → l !! j = Some y → (i < j)%nat → lt x y.
Proof.
  intros Hs. revert i j. induction Hs as [|z l Hs IH Hz]; intros i j Hi Hj Hij; [done|].
  destruct j as [|j]; [lia|]. destruct i as [|i]; simpl in *.
  - simplify_eq. eapply Forall_lookup_1; eauto.
  - eapply IH; eauto. lia.
Qed.

Lemma StronglySorted_take l n : StronglySorted lt l → StronglySorted lt (take n l).
Proof. intros Hs. rewrite <- (take_drop n l) in Hs. by apply StronglySorted_app in Hs as []. Qed.

Lemma StronglySorted_drop l n : StronglySorted lt l → StronglySorted lt (drop n l).
Proof. intros Hs. rewrite <- (take_drop n l) in Hs. by apply StronglySorted_app in Hs as (?&?&?). Qed.
End sorted.

Lemma StronglySorted_mono {A} (P Q : A → A → Prop) l :
  (∀ x y, P x y → Q x y) → StronglySorted P l → StronglySorted Q l.
Proof. intros HPQ. induction 1; constructor; eauto using Forall_impl. Qed.

Section canonical.
Context `{Ord K} `{MonoidValue R}.
Implicit Types (k : K) (r : R) (l : list (K * R)).

Lemma canonical_nil : canonical ([] : list (K * R)).
Proof. split; constructor. Qed.

Lemma canonical_cons_inv k r l :
  canonical ((k, r) :: l) →
  canonical l ∧ r ≠ mzero ∧ (∀ k', k' ∈ l.*1 → k ≺ k').
Proof.
  intros [Hs Hz]. inv Hs. inv Hz. split_and!; [by split | done |].
  intros. by eapply Forall_forall.
Qed.

Lemma canonical_cons k r l :
  canonical l → r ≠ mzero → (∀ k', k' ∈ l.*1 → k ≺ k') → canonical ((k, r) :: l).
Proof.
  intros [Hs Hz] Hr Hk. split; constructor; auto. by apply Forall_forall.
Qed.

Lemma canonical_app l1 l2 :
  canonical (l1 ++ l2) ↔
  canonical l1 ∧ canonical l2 ∧ (∀ k1 k2, k1 ∈ l1.*1 → k2 ∈ l2.*1 → k1 ≺ k2).
Proof.
  unfold canonical, keys_sorted, nonzero. rewrite fmap_app, StronglySorted_app, Forall_app.
  naive_solver.
Qed.

(** In a canonical list a key is present exactly when its weight is nonzero. *)
Lemma canonical_elem l k : canonical l → k ∈ l.*1 ↔ wt l k ≠ mzero.
Proof.
  induction l as [|[k' r] l IH]; intros Hc; [simpl; set_solver|].
  apply canonical_cons_inv in Hc as (Hc&Hr&Hk). simpl. rewrite elem_of_cons. case_decide as E.
  - subst k'. assert (wt l k = mzero) as ->.
    { apply wt_notin. intros Hin. by apply Hk, klt_irrefl in Hin. }
    rewrite madd_0_r. naive_solver.
  - rewrite <- (IH Hc). naive_solver.
Qed.

(** Canonical lists are determined by the weights they denote. *)
Lemma canonical_unique l1 l2 :
  canonical l1 → canonical l2 → (∀ k, wt l1 k = wt l2 k) → l1 = l2.
Proof.
  revert l2. induction l1 as [|[k1 r1] l1 IH]; intros [|[k2 r2] l2] Hc1 Hc2 Hw; [done | | |].
  - exfalso. assert (k2 ∈ ((k2, r2) :: l2).*1) as Hk by left.
    rewrite (canonical_elem _ _ Hc2), <- Hw in Hk. done.
  - exfalso. assert (k1 ∈ ((k1, r1) :: l1).*1) as Hk by left.
    rewrite (canonical_elem _ _ Hc1), Hw in Hk. done.
  - pose proof (λ k, canonical_elem _ k Hc1) as He1.
    pose proof (λ k, canonical_elem _ k Hc2) as He2.
    apply canonical_cons_inv in Hc1 as (Hc1&Hr1&Hk1).
    apply canonical_cons_inv in Hc2 as (Hc2&Hr2&Hk2).
    assert (k1 = k2) as <-.
    { assert (k1 ∈ k2 :: l2.*1) as Hin1 by (apply He2; rewrite <- Hw; apply He1; left).
      assert (k2 ∈ k1 :: l1.*1) as Hin2 by (apply He1; rewrite Hw; apply He2; left).
      apply elem_of_cons in Hin1 as [|Hin1]; [done|].
      apply elem_of_cons in Hin2 as [|Hin2]; [done|].
      destruct (klt_asym k1 k2); auto. }
    assert (wt l1 k1 = mzero) as Hz1.
    { apply wt_notin. intros Hin. by apply Hk1, klt_irrefl in Hin. }
    assert (wt l2 k1 = mzero) as Hz2.
    { apply wt_notin. intros Hin. by apply Hk2, klt_irrefl in Hin. }
    pose proof (Hw k1) as Hwk. rewrite !wt_cons_eq, Hz1, Hz2, !madd_0_r in Hwk. subst r2.
    f_equal. apply IH; [done..|]. intros k. destruct (decide (k1 = k)) as [<-|Hne]; [congruence|].
    specialize (Hw k). by rewrite !wt_cons_ne in Hw.
Qed.
End canonical.

Create HintDb dbsp.
#[export] Hint Resolve canonical_nil klt_neq cmp_refl : dbsp.
