(* ===== verification/Machine.v ===== *)
(** Rust's fixed-width integers: ranges, wrap-around, the [checked_*] methods and
    the plain operators, whose behaviour on overflow depends on the build
    ([overflow-checks] is on in debug builds and off in release builds). *)
From S2P Require Import Prelude.
#[local] Open Scope Z_scope.

(** An integer type, by signedness and width. *)
Record int_ty := IntTy { signed : bool; bits : Z }.

Definition i8 := IntTy true 8.
Definition i16 := IntTy true 16.
Definition i32 := IntTy true 32.
Definition i64 := IntTy true 64.
Definition i128 := IntTy true 128.
Definition u8 := IntTy false 8.
Definition u16 := IntTy false 16.
Definition u32 := IntTy false 32.
Definition u64 := IntTy false 64.
Definition u128 := IntTy false 128.

Definition MIN (t : int_ty) : Z := if signed t then - 2 ^ (bits t - 1) else 0.
Definition MAX (t : int_ty) : Z := if signed t then 2 ^ (bits t - 1) - 1 else 2 ^ bits t - 1.
Definition in_range (t : int_ty) (x : Z) : bool := (MIN t <=? x) && (x <=? MAX t).

(** Two's-complement wrap-around into the range of [t]. *)
Definition wrap (t : int_ty) (x : Z) : Z :=
  if signed t then (x + 2 ^ (bits t - 1)) mod 2 ^ bits t - 2 ^ (bits t - 1)
  else x mod 2 ^ bits t.

(** [checked_add] and friends: [None] on overflow, a value and not a panic. *)
Definition checked (t : int_ty) (x : Z) : option Z := if in_range t x then Some x else None.

(** The operators [+], [-], [*] and unary [-]: [oc] says whether the build checks
    for overflow.  [None] is the panic. *)
Definition arith (oc : bool) (t : int_ty) (x : Z) : option Z :=
  if in_range t x then Some x else if oc then None else Some (wrap t x).

Section laws.
Context (t : int_ty) (Hbits : 0 < bits t).

Lemma pow_split : 2 ^ bits t = 2 * 2 ^ (bits t - 1).
Proof. rewrite <- Z.pow_succ_r by lia. f_equal. lia. Qed.

Lemma in_range_spec x : in_range t x = true ↔ MIN t ≤ x ≤ MAX t.
Proof. unfold in_range. rewrite andb_true_iff, !Z.leb_le. lia. Qed.

Lemma wrap_in_range x : in_range t (wrap t x) = true.
Proof.
  apply in_range_spec. unfold MIN, MAX, wrap. pose proof pow_split as Hp.
  assert (0 < 2 ^ bits t) by (apply Z.pow_pos_nonneg; lia).
  destruct (signed t).
  - pose proof (Z.mod_pos_bound (x + 2 ^ (bits t - 1)) (2 ^ bits t)). lia.
  - pose proof (Z.mod_pos_bound x (2 ^ bits t)). lia.
Qed.

Lemma wrap_id x : in_range t x = true → wrap t x = x.
Proof.
  intros Hr%in_range_spec. unfold MIN, MAX, wrap in *. pose proof pow_split as Hp.
  destruct (signed t); rewrite Z.mod_small; lia.
Qed.

(** Wrap-around only changes a value by a multiple of the modulus. *)
Lemma wrap_mod x : (wrap t x) mod 2 ^ bits t = x mod 2 ^ bits t.
Proof.
  unfold wrap. destruct (signed t).
  - rewrite Zminus_mod_idemp_l. f_equal. lia.
  - apply Zmod_mod.
Qed.

Lemma wrap_eq x y : x mod 2 ^ bits t = y mod 2 ^ bits t → wrap t x = wrap t y.
Proof.
  intros Hm. unfold wrap. destruct (signed t); [|done]. f_equal.
  rewrite <- (Zplus_mod_idemp_l x), Hm. apply Zplus_mod_idemp_l.
Qed.

Lemma wrap_add_l x y : wrap t (wrap t x + y) = wrap t (x + y).
Proof. apply wrap_eq. by rewrite <- Zplus_mod_idemp_l, wrap_mod, Zplus_mod_idemp_l. Qed.

Lemma wrap_mul_l x y : wrap t (wrap t x * y) = wrap t (x * y).
Proof. apply wrap_eq. by rewrite <- Zmult_mod_idemp_l, wrap_mod, Zmult_mod_idemp_l. Qed.

Lemma arith_ok oc x : in_range t x = true → arith oc t x = Some x.
Proof. unfold arith. by intros ->. Qed.
End laws.
