(* ===== verification/Order.v ===== *)
(** Partial orders, lattices and antichains of logical times
    (crates/dbsp/src/algebra/order.rs, algebra/lattice.rs, time/antichain.rs).

    The Rust traits are operational classes ([PartialOrder], [Lattice]); the
    contract their documentation states is a separate class of laws
    ([PartialOrderLaws], [LatticeLaws]), so that the antichain code is verified
    against the interface and each time type discharges it. *)
From S2P Require Import Prelude.
#[local] Open Scope nat_scope.

(** ** The traits *)

(** trait [PartialOrder : Eq]; [eqb] is the [==] of the supertrait. *)
Class PartialOrder (T : Type) := {
  eqb : T → T → bool;
  less_than : T → T → bool;
  less_equal : T → T → bool }.

(** The provided method [PartialOrder::less_than]. *)
Definition default_less_than {T} (eqb less_equal : T → T → bool) (x y : T) : bool :=
  negb (eqb x y) && less_equal x y.

Class PartialOrderLaws (T : Type) `{PartialOrder T} : Prop := {
  eqb_eq : ∀ x y : T, eqb x y = true ↔ x = y;
  less_equal_refl : ∀ x : T, less_equal x x = true;
  less_equal_trans : ∀ x y z : T,
    less_equal x y = true → less_equal y z = true → less_equal x z = true;
  less_equal_antisym : ∀ x y : T, less_equal x y = true → less_equal y x = true → x = y;
  less_than_spec : ∀ x y : T, less_than x y = default_less_than eqb less_equal x y }.

(** trait [Lattice : PartialOrder]. *)
Class Lattice (T : Type) `{PartialOrder T} := {
  join : T → T → T;
  meet : T → T → T }.

Class LatticeLaws (T : Type) `{Lattice T} : Prop := {
  lattice_order :: PartialOrderLaws T;
  join_ub_l : ∀ x y : T, less_equal x (join x y) = true;
  join_ub_r : ∀ x y : T, less_equal y (join x y) = true;
  join_least : ∀ x y z : T,
    less_equal x z = true → less_equal y z = true → less_equal (join x y) z = true;
  meet_lb_l : ∀ x y : T, less_equal (meet x y) x = true;
  meet_lb_r : ∀ x y : T, less_equal (meet x y) y = true;
  meet_greatest : ∀ x y z : T,
    less_equal z x = true → less_equal z y = true → less_equal z (meet x y) = true }.

(** Provided methods of [Lattice]; the assigning ones return the new [self]. *)
Definition join_assign `{Lattice T} (self other : T) : T := join self other.
Definition meet_assign `{Lattice T} (self other : T) : T := meet self other.

(** [Lattice::advance_by]: the loop over the rest of the frontier. *)
Definition advance_by `{Lattice T} (self : T) (frontier : list T) : T :=
  match frontier with
  | [] => self
  | first :: iter =>
    foldl (λ result f, meet_assign result (join self f)) (join self first) iter
  end.

(** ** The primitive instances ([impl_order!], [implement_lattice!]) *)
Module IntOrder.
Definition int_less_than (x y : Z) : bool := (x <? y)%Z.
Definition int_less_equal (x y : Z) : bool := (x <=? y)%Z.
Definition int_join (x y : Z) : Z := Z.max x y.
Definition int_meet (x y : Z) : Z := Z.min x y.
End IntOrder.
Import IntOrder.

#[export] Instance int_order : PartialOrder Z :=
  {| eqb := Z.eqb; less_than := int_less_than; less_equal := int_less_equal |}.
#[export] Instance int_lattice : Lattice Z := {| join := int_join; meet := int_meet |}.

#[export] Instance int_order_laws : PartialOrderLaws Z.
Proof.
  split; cbn; unfold int_less_than, int_less_equal, default_less_than.
  - apply Z.eqb_eq.
  - lia.
  - lia.
  - lia.
  - intros x y. destruct (x <? y)%Z eqn:E1, (x =? y)%Z eqn:E2, (x <=? y)%Z eqn:E3; simpl; lia.
Qed.

#[export] Instance int_lattice_laws : LatticeLaws Z.
Proof.
  split; [apply _ | ..]; cbn; unfold int_less_equal, int_join, int_meet; lia.
Qed.

#[export] Instance unit_order : PartialOrder unit :=
  {| eqb := λ _ _, true; less_than := λ _ _, false; less_equal := λ _ _, true |}.
#[export] Instance unit_lattice : Lattice unit := {| join := λ _ _, tt; meet := λ _ _, tt |}.

#[export] Instance unit_order_laws : PartialOrderLaws unit.
Proof. split; cbn; repeat intros []; done. Qed.
#[export] Instance unit_lattice_laws : LatticeLaws unit.
Proof. split; [apply _ | ..]; done. Qed.

(** ** Antichains *)
Record Antichain (T : Type) := mkAntichain { elements : list T }.
Arguments mkAntichain {T} _.
Arguments elements {T} _.

Module Antichain.
Section ops.
Context {T : Type}.

Definition new : Antichain T := mkAntichain [].
Definition from_elem (element : T) : Antichain T := mkAntichain [element].
Definition clear (_ : Antichain T) : Antichain T := mkAntichain [].
Definition as_slice (self : Antichain T) : list T := elements self.
Definition len (self : Antichain T) : nat := length (elements self).

Context `{PartialOrder T}.

(** [insert]: the updated antichain and the returned flag. *)
Definition insert (self : Antichain T) (element : T) : Antichain T * bool :=
  if negb (existsb (λ x, less_equal x element) (elements self)) then
    (mkAntichain
       (List.filter (λ x, negb (less_equal element x)) (elements self) ++ [element]), true)
  else (self, false).

Definition extend (self : Antichain T) (iterator : list T) : Antichain T * bool :=
  foldl (λ '(a, added) element, let '(a', b) := insert a element in (a', added || b))
    (self, false) iterator.

Definition less_than (self : Antichain T) (time : T) : bool :=
  existsb (λ x, Order.less_than x time) (elements self).
Definition less_equal (self : Antichain T) (time : T) : bool :=
  existsb (λ x, Order.less_equal x time) (elements self).

(** [into_option]/[as_option]; [dbg] says whether [debug_assert!] is compiled in. *)
Definition into_option (dbg : bool) (self : Antichain T) : option (option T) :=
  assert! (negb dbg || (len self <=? 1)) in Some (last (elements self)).

(** impl [PartialEq]. *)
Definition eq (self other : Antichain T) : bool :=
  (len self =? len other) &&
  (forallb (λ '(t1, t2), eqb t1 t2) (zip (elements self) (elements other))
   || forallb (λ t1, existsb (λ t2, eqb t1 t2) (elements other)) (elements self)).

(** impl [PartialOrder] for antichains. *)
Definition le (self other : Antichain T) : bool :=
  forallb (λ t2, existsb (λ t1, Order.less_equal t1 t2) (elements self)) (elements other).

(** impl [From<Vec<T>>] and [FromIterator]. *)
Definition from (vec : list T) : Antichain T :=
  foldl (λ temp elem, (insert temp elem).1) new vec.
Definition from_iter (iterator : list T) : Antichain T := (extend new iterator).1.
End ops.

Section lattice.
Context `{Lattice T}.

(** impl [Lattice] for antichains. *)
Definition join (self other : Antichain T) : Antichain T :=
  foldl (λ upper time1,
    foldl (λ upper time2, (insert upper (Order.join time1 time2)).1) upper (elements other))
    new (elements self).

Definition meet (self other : Antichain T) : Antichain T :=
  let upper := foldl (λ upper time1, (insert upper time1).1) new (elements self) in
  foldl (λ upper time2, (insert upper time2).1) upper (elements other).
End lattice.
End Antichain.

#[export] Instance antichain_order `{PartialOrder T} : PartialOrder (Antichain T) :=
  {| eqb := Antichain.eq;
     less_than := default_less_than Antichain.eq Antichain.le;
     less_equal := Antichain.le |}.
#[export] Instance antichain_lattice `{Lattice T} : Lattice (Antichain T) :=
  {| join := Antichain.join; meet := Antichain.meet |}.

(** ** Theory *)
Section theory.
Context `{PartialOrderLaws T}.
Implicit Types (x y t e : T) (a b : Antichain T) (l : list T).

(** The invariant of the type: elements pairwise incomparable (hence distinct). *)
Definition incomparable (l : list T) : Prop :=
  ∀ i j x y, l !! i = Some x → l !! j = Some y → less_equal x y = true → i = j.
Definition is_antichain (a : Antichain T) : Prop := incomparable (elements a).

(** [x] is a minimal element of [l]. *)
Definition minimal (l : list T) (x : T) : Prop :=
  x ∈ l ∧ ∀ y, y ∈ l → less_equal y x = true → y = x.

Lemma existsb_elem (f : T → bool) l : existsb f l = true ↔ ∃ x, x ∈ l ∧ f x = true.
Proof. rewrite existsb_exists. by setoid_rewrite <- list_elem_of_In. Qed.

Lemma existsb_none (f : T → bool) l : existsb f l = false ↔ ∀ x, x ∈ l → f x = false.
Proof.
  split.
  - intros He x Hx. destruct (f x) eqn:E; [|done].
    assert (existsb f l = true) by (apply existsb_elem; eauto). congruence.
  - intros Hn. destruct (existsb f l) eqn:E; [|done].
    apply existsb_elem in E as (x&Hx&Hf). by rewrite Hn in Hf.
Qed.

Lemma filter_elem (f : T → bool) l x : x ∈ List.filter f l ↔ x ∈ l ∧ f x = true.
Proof. by rewrite !list_elem_of_In, filter_In. Qed.

Lemma incomparable_elem l x y :
  incomparable l → x ∈ l → y ∈ l → less_equal x y = true → x = y.
Proof.
  intros Hi [i Hx]%list_elem_of_lookup [j Hy]%list_elem_of_lookup Hle.
  pose proof (Hi _ _ _ _ Hx Hy Hle). subst. congruence.
Qed.

Lemma incomparable_NoDup l : incomparable l → NoDup l.
Proof.
  intros Hi. apply NoDup_alt. intros i j x Hx Hy.
  eapply Hi; eauto using less_equal_refl.
Qed.

(** An antichain is a duplicate-free list in which comparable means equal. *)
Lemma incomparable_alt l :
  incomparable l ↔
  NoDup l ∧ ∀ x y, x ∈ l → y ∈ l → less_equal x y = true → x = y.
Proof.
  split.
  - intros Hi. split; [by apply incomparable_NoDup|]. eauto using incomparable_elem.
  - intros [Hd Hi] i j x y Hx Hy Hle. eapply NoDup_lookup; [done..|].
    rewrite (Hi x y); eauto using list_elem_of_lookup_2.
Qed.

Lemma filter_NoDup (f : T → bool) l : NoDup l → NoDup (List.filter f l).
Proof.
  induction 1 as [|x l Hx Hl IH]; simpl; [constructor|]. destruct (f x); [|done].
  constructor; [rewrite filter_elem; naive_solver | done].
Qed.

Lemma antichain_less_equal_spec a t :
  Antichain.less_equal a t = true ↔ ∃ x, x ∈ elements a ∧ less_equal x t = true.
Proof. apply existsb_elem. Qed.

Lemma insert_elem a e x :
  is_antichain a →
  x ∈ elements (Antichain.insert a e).1 ↔ minimal (elements a ++ [e]) x.
Proof.
  intros Ha. unfold Antichain.insert, minimal.
  destruct (existsb _ _) eqn:Eb; simpl; setoid_rewrite elem_of_app.
  - apply existsb_elem in Eb as (z&Hz&Hle). split.
    + intros Hx. split; [by left|]. intros y [Hy| ->%list_elem_of_singleton] Hyx.
      * eapply incomparable_elem; eauto.
      * assert (z = x) as -> by (eapply incomparable_elem; eauto using less_equal_trans).
        by apply less_equal_antisym.
    + intros [[Hx| ->%list_elem_of_singleton] Hm]; [done|].
      by rewrite <- (Hm z (or_introl Hz) Hle).
  - rewrite existsb_none in Eb. setoid_rewrite filter_elem. split.
    + intros [[Hx Hn]| ->%list_elem_of_singleton].
      * split; [by left|]. intros y [Hy| ->%list_elem_of_singleton] Hyx.
        -- eapply incomparable_elem; eauto.
        -- by rewrite Hyx in Hn.
      * split; [set_solver|]. intros y [Hy| ->%list_elem_of_singleton] Hyx; [|done].
        by rewrite Eb in Hyx.
    + intros [[Hx| ->%list_elem_of_singleton] Hm]; [|set_solver].
      left. split; [done|]. destruct (less_equal e x) eqn:E; [|done].
      assert (e = x) as -> by (apply Hm; [set_solver | done]).
      by rewrite (Eb x Hx) in E.
Qed.

Lemma insert_antichain a e : is_antichain a → is_antichain (Antichain.insert a e).1.
Proof.
  intros Ha. apply incomparable_alt. split.
  - unfold Antichain.insert. destruct (existsb _ _) eqn:Eb; simpl;
      [by apply incomparable_NoDup|].
    apply NoDup_app. split_and!; [by apply filter_NoDup, incomparable_NoDup| |apply NoDup_singleton].
    intros x [_ Hn]%filter_elem ->%list_elem_of_singleton. by rewrite less_equal_refl in Hn.
  - intros x y. rewrite !insert_elem by done. intros [Hx Hmx] [Hy Hmy] Hle. auto.
Qed.

Lemma insert_less_equal a e t :
  Antichain.less_equal (Antichain.insert a e).1 t = Antichain.less_equal a t || less_equal e t.
Proof.
  unfold Antichain.insert, Antichain.less_equal.
  destruct (existsb (λ x, less_equal x e) _) eqn:Eb; simpl.
  - apply existsb_elem in Eb as (z&Hz&Hle). destruct (less_equal e t) eqn:Et.
    + rewrite orb_true_r. apply existsb_elem. exists z. eauto using less_equal_trans.
    + by rewrite orb_false_r.
  - rewrite existsb_app. simpl. rewrite orb_false_r. destruct (less_equal e t) eqn:Et.
    + by rewrite !orb_true_r.
    + rewrite !orb_false_r. apply eq_iff_eq_true. rewrite !existsb_elem.
      setoid_rewrite filter_elem. split; [naive_solver|]. intros (x&Hx&Hle). exists x.
      split_and!; [done | | done]. destruct (less_equal e x) eqn:E; [|done].
      rewrite (less_equal_trans e x t) in Et; done.
Qed.

Lemma insert_flag a e :
  (Antichain.insert a e).2 = negb (Antichain.less_equal a e).
Proof. unfold Antichain.insert, Antichain.less_equal. by destruct (existsb _ _). Qed.

Definition insert_all (a : Antichain T) (l : list T) : Antichain T :=
  foldl (λ upper e, (Antichain.insert upper e).1) a l.

Lemma insert_all_antichain a l : is_antichain a → is_antichain (insert_all a l).
Proof.
  revert a. induction l as [|e l IH]; intros a Ha; simpl; [done|].
  by apply IH, insert_antichain.
Qed.

Lemma insert_all_less_equal a l t :
  Antichain.less_equal (insert_all a l) t
  = Antichain.less_equal a t || existsb (λ e, less_equal e t) l.
Proof.
  revert a. induction l as [|e l IH]; intros a; simpl; [by rewrite orb_false_r|].
  fold (insert_all (Antichain.insert a e).1 l). by rewrite IH, insert_less_equal, orb_assoc.
Qed.

Lemma new_antichain : is_antichain (Antichain.new (T:=T)).
Proof. intros i j x y Hx. by destruct i. Qed.

Lemma singleton_antichain x : is_antichain (mkAntichain [x]).
Proof. intros [|[]] [|[]] y z Hy Hz; done. Qed.

(** Every element of an antichain is the minimal element of its upper set. *)
Lemma antichain_elem_minimal a x :
  is_antichain a →
  x ∈ elements a ↔
  Antichain.less_equal a x = true ∧
  ∀ y, Antichain.less_equal a y = true → less_equal y x = true → y = x.
Proof.
  intros Ha. setoid_rewrite antichain_less_equal_spec. split.
  - intros Hx. split; [eauto using less_equal_refl|]. intros y (z&Hz&Hzy) Hyx.
    assert (z = x) as -> by (eapply incomparable_elem; eauto using less_equal_trans).
    by apply less_equal_antisym.
  - intros [(z&Hz&Hzx) Hm]. by rewrite <- (Hm z (ex_intro _ z (conj Hz (less_equal_refl z))) Hzx).
Qed.

Lemma antichain_le_spec a b :
  Antichain.le a b = true ↔
  ∀ t, Antichain.less_equal b t = true → Antichain.less_equal a t = true.
Proof.
  unfold Antichain.le. rewrite forallb_forall.
  setoid_rewrite <- list_elem_of_In. setoid_rewrite antichain_less_equal_spec. split.
  - intros Hle t (y&Hy&Hyt). destruct (Hle y Hy) as (x&Hx&Hxy).
    eauto using less_equal_trans.
  - intros Hle y Hy. apply Hle. eauto using less_equal_refl.
Qed.

Lemma antichain_eq_elements a b :
  is_antichain a → is_antichain b →
  Antichain.eq a b = true ↔ ∀ x, x ∈ elements a ↔ x ∈ elements b.
Proof.
  intros Ha%incomparable_NoDup Hb%incomparable_NoDup. unfold Antichain.eq, Antichain.len.
  rewrite andb_true_iff, Nat.eqb_eq, orb_true_iff.
  set (l := elements a) in *. set (m := elements b) in *. clearbody l m.
  assert (∀ l', forallb (λ t1, existsb (λ t2, eqb t1 t2) l') l = true ↔ l ⊆ l') as Hsub.
  { intros l'. rewrite forallb_forall. setoid_rewrite <- list_elem_of_In.
    setoid_rewrite existsb_elem. setoid_rewrite eqb_eq. set_solver. }
  split.
  - intros [Hlen Heq]. assert (l ⊆ m) as Hlm.
    { destruct Heq as [Heq|Heq]; [|by apply Hsub].
      enough (l = m) as -> by done. clear Ha Hb Hsub. revert m Hlen Heq.
      induction l as [|x l IH]; intros [|y m] Hlen Heq; simpl in *; try done.
      apply andb_true_iff in Heq as [->%eqb_eq Heq]. f_equal. apply IH; [lia | done]. }
    assert (l ≡ₚ m) as Hp
      by (apply submseteq_length_Permutation; [by apply NoDup_submseteq | lia]).
    intros x. by rewrite Hp.
  - intros Hx. split.
    + apply Permutation_length. by apply NoDup_Permutation.
    + right. apply Hsub. intros x. apply Hx.
Qed.

Lemma antichain_ext a b :
  is_antichain a → is_antichain b →
  (∀ t, Antichain.less_equal a t = Antichain.less_equal b t) →
  ∀ x, x ∈ elements a ↔ x ∈ elements b.
Proof.
  intros Ha Hb Hle x. rewrite !antichain_elem_minimal by done.
  setoid_rewrite Hle. done.
Qed.

Lemma extend_insert_all a l : (Antichain.extend a l).1 = insert_all a l.
Proof.
  unfold Antichain.extend. generalize false.
  revert a. induction l as [|e l IH]; intros a b0; simpl; [done|].
  fold (insert_all (Antichain.insert a e).1 l). destruct (Antichain.insert a e); simpl. apply IH.
Qed.

Lemma minimal_above (l : list T) t :
  existsb (λ e, less_equal e t) l = true → ∃ x, minimal l x ∧ less_equal x t = true.
Proof.
  set (a := insert_all Antichain.new l). intros Hex.
  assert (Antichain.less_equal a t = true) as (x&Hx&Hxt)%antichain_less_equal_spec.
  { unfold a. by rewrite insert_all_less_equal, Hex, orb_true_r. }
  exists x. split; [|done]. assert (is_antichain a) as Ha
    by apply insert_all_antichain, new_antichain.
  apply antichain_elem_minimal in Hx as [Hx Hm]; [|done]. unfold a in Hx, Hm.
  setoid_rewrite insert_all_less_equal in Hm. rewrite insert_all_less_equal in Hx. simpl in *.
  apply existsb_elem in Hx as (y&Hy&Hyx).
  assert (y = x) as ->.
  { apply Hm; [|done]. apply existsb_elem. eauto using less_equal_refl. }
  split; [done|]. intros z Hz Hzx. apply Hm; [|done]. apply existsb_elem.
  eauto using less_equal_refl.
Qed.

Lemma insert_all_new_elem l x :
  x ∈ elements (insert_all Antichain.new l) ↔ minimal l x.
Proof.
  rewrite antichain_elem_minimal by apply insert_all_antichain, new_antichain.
  setoid_rewrite insert_all_less_equal. simpl. split.
  - intros [Hx Hm]. destruct (minimal_above l x Hx) as (y&[Hy Hmy]&Hyx).
    assert (y = x) as -> by (apply Hm; [apply existsb_elem; eauto using less_equal_refl|done]).
    done.
  - intros [Hx Hm]. split; [apply existsb_elem; eauto using less_equal_refl|].
    intros y (z&Hz&Hzy)%existsb_elem Hyx.
    assert (z = x) as -> by (apply Hm; eauto using less_equal_trans).
    by apply less_equal_antisym.
Qed.
End theory.

Section lattice_theory.
Context `{LatticeLaws T}.
Implicit Types (x y t f : T) (a b : Antichain T) (l : list T).

(** The elements [join] inserts, in the order of the two nested loops. *)
Definition pairwise_joins (l m : list T) : list T := x ← l; (join x) <$> m.

Lemma antichain_join_insert_all a b :
  Antichain.join a b = insert_all Antichain.new (pairwise_joins (elements a) (elements b)).
Proof.
  unfold Antichain.join. generalize (Antichain.new (T:=T)) as c.
  induction (elements a) as [|x l IH]; intros c; simpl; [done|].
  rewrite IH. unfold insert_all, pairwise_joins. cbn. rewrite foldl_app. f_equal.
  generalize (elements b) as m. clear. intros m. revert c.
  induction m as [|y m IH]; intros c; simpl; [done|]. apply IH.
Qed.

Lemma antichain_meet_insert_all a b :
  Antichain.meet a b = insert_all Antichain.new (elements a ++ elements b).
Proof. unfold Antichain.meet, insert_all. by rewrite foldl_app. Qed.

Lemma less_equal_join x y t :
  less_equal (join x y) t = less_equal x t && less_equal y t.
Proof.
  apply eq_iff_eq_true. rewrite andb_true_iff. split.
  - intros Hj. split; (eapply less_equal_trans; [|exact Hj]); [apply join_ub_l | apply join_ub_r].
  - intros []. by apply join_least.
Qed.

Lemma less_equal_meet x y t :
  less_equal t (meet x y) = less_equal t x && less_equal t y.
Proof.
  apply eq_iff_eq_true. rewrite andb_true_iff. split.
  - intros Hj. split; (eapply less_equal_trans; [exact Hj|]); [apply meet_lb_l | apply meet_lb_r].
  - intros []. by apply meet_greatest.
Qed.

Lemma antichain_join_less_equal a b t :
  Antichain.less_equal (Antichain.join a b) t
  = Antichain.less_equal a t && Antichain.less_equal b t.
Proof.
  rewrite antichain_join_insert_all, insert_all_less_equal. simpl. apply eq_iff_eq_true.
  rewrite andb_true_iff, existsb_elem, !antichain_less_equal_spec. unfold pairwise_joins. split.
  - intros (z&(x&(y&->&Hy)%list_elem_of_fmap&Hx)%list_elem_of_bind&Hle).
    rewrite less_equal_join in Hle. apply andb_true_iff in Hle as []. naive_solver.
  - intros [(x&Hx&Hxt) (y&Hy&Hyt)]. exists (join x y). rewrite less_equal_join, Hxt, Hyt.
    split; [|done]. apply list_elem_of_bind. exists x. split; [|done].
    apply list_elem_of_fmap. eauto.
Qed.

Lemma antichain_meet_less_equal a b t :
  Antichain.less_equal (Antichain.meet a b) t
  = Antichain.less_equal a t || Antichain.less_equal b t.
Proof. by rewrite antichain_meet_insert_all, insert_all_less_equal, existsb_app. Qed.

(** [advance_by] on a non-empty frontier is the meet of the joins. *)
Lemma advance_by_lower t f l s :
  less_equal s (advance_by t (f :: l)) = forallb (λ g, less_equal s (join t g)) (f :: l).
Proof.
  simpl. generalize (join t f) as r. induction l as [|g l IH]; intros r; simpl.
  - by rewrite andb_true_r.
  - rewrite IH. unfold meet_assign. by rewrite less_equal_meet, andb_assoc.
Qed.
End lattice_theory.

(** ** Properties *)

(** [Antichain::insert] keeps the elements pairwise incomparable, leaves exactly
    the minimal elements of the old elements and the new one, returns [true]
    exactly when the new element was not already dominated, and extends the
    upper set of the antichain by the upper set of the element. *)
Theorem antichain_insert_spec `{PartialOrderLaws T} (a : Antichain T) (e : T) :
  is_antichain a →
  let '(a', added) := Antichain.insert a e in
  is_antichain a' ∧
  (∀ x, x ∈ elements a' ↔ minimal (elements a ++ [e]) x) ∧
  added = negb (Antichain.less_equal a e) ∧
  (∀ t, Antichain.less_equal a' t = Antichain.less_equal a t || less_equal e t).
Proof.
  intros Ha. rewrite (surjective_pairing (Antichain.insert a e)). split_and!.
  - by apply insert_antichain.
  - intros x. by apply insert_elem.
  - apply insert_flag.
  - apply insert_less_equal.
Qed.

Lemma antichain_insert_witness :
  Antichain.insert (mkAntichain [5%Z]) 3%Z = (mkAntichain [3%Z], true) ∧
  is_antichain (Antichain.insert (mkAntichain [5%Z]) 3%Z).1.
Proof.
  split; [reflexivity|].
  exact (proj1 (antichain_insert_spec (mkAntichain [5%Z]) 3%Z (singleton_antichain 5%Z))).
Defined.

(** Building a frontier from any vector of times ([From<Vec>], [FromIterator],
    [extend]) yields an antichain whose elements are exactly the minimal times
    of the vector, whatever their order and multiplicity. *)
Theorem antichain_from_spec `{PartialOrderLaws T} (vec : list T) :
  is_antichain (Antichain.from vec) ∧
  (∀ x, x ∈ elements (Antichain.from vec) ↔ minimal vec x) ∧
  Antichain.from_iter vec = Antichain.from vec.
Proof.
  split_and!.
  - apply insert_all_antichain, new_antichain.
  - apply insert_all_new_elem.
  - apply extend_insert_all.
Qed.

Lemma antichain_from_witness :
  elements (Antichain.from [4; 2; 7; 2]%Z) = [2]%Z ∧ minimal [4; 2; 7; 2]%Z 2%Z.
Proof.
  split; [reflexivity|].
  apply (proj1 (proj2 (antichain_from_spec [4; 2; 7; 2]%Z)) 2%Z). vm_compute. constructor.
Defined.

(** On antichains the hand-written [PartialEq] (length test, then position-wise
    or quadratic search) decides equality of the element sets, which is the
    same as domination in both directions: [less_equal] is antisymmetric up
    to [==]. *)
Theorem antichain_eq_spec `{PartialOrderLaws T} (a b : Antichain T) :
  is_antichain a → is_antichain b →
  (Antichain.eq a b = true ↔ ∀ x, x ∈ elements a ↔ x ∈ elements b) ∧
  (Antichain.eq a b = true ↔ Antichain.le a b = true ∧ Antichain.le b a = true).
Proof.
  intros Ha Hb. pose proof (antichain_eq_elements a b Ha Hb) as Heq. split; [done|].
  rewrite Heq, !antichain_le_spec. setoid_rewrite antichain_less_equal_spec. split.
  - intros Hx. setoid_rewrite Hx. done.
  - intros [Hab Hba]. apply antichain_ext; [done..|]. intros t. apply eq_iff_eq_true.
    rewrite !antichain_less_equal_spec. naive_solver.
Qed.

Lemma antichain_eq_witness :
  Antichain.eq (mkAntichain [3%Z]) (mkAntichain [3%Z]) = true ∧
  Antichain.eq (mkAntichain [3%Z]) (mkAntichain [4%Z]) = false.
Proof.
  split; [|reflexivity].
  apply (antichain_eq_spec (mkAntichain [3%Z]) (mkAntichain [3%Z])
    (singleton_antichain 3%Z) (singleton_antichain 3%Z)).
  split; reflexivity.
Defined.

(** The [Lattice] instance of antichains is a lattice for [less_equal]: [join]
    and [meet] of any two antichains are antichains, [join] is their least
    upper bound and [meet] their greatest lower bound. *)
Theorem antichain_lattice_spec `{LatticeLaws T} (a b : Antichain T) :
  (is_antichain (Antichain.join a b) ∧ is_antichain (Antichain.meet a b)) ∧
  (∀ c, Antichain.le (Antichain.join a b) c = Antichain.le a c && Antichain.le b c) ∧
  (∀ c, Antichain.le c (Antichain.meet a b) = Antichain.le c a && Antichain.le c b).
Proof.
  split_and!.
  - rewrite antichain_join_insert_all. apply insert_all_antichain, new_antichain.
  - rewrite antichain_meet_insert_all. apply insert_all_antichain, new_antichain.
  - intros c. apply eq_iff_eq_true. rewrite andb_true_iff, !antichain_le_spec.
    setoid_rewrite antichain_join_less_equal. setoid_rewrite andb_true_iff. naive_solver.
  - intros c. apply eq_iff_eq_true. rewrite andb_true_iff, !antichain_le_spec.
    setoid_rewrite antichain_meet_less_equal. setoid_rewrite orb_true_iff. naive_solver.
Qed.

Lemma antichain_lattice_witness :
  elements (Antichain.join (mkAntichain [3]) (mkAntichain [5]))%Z = [5]%Z ∧
  Antichain.le (Antichain.join (mkAntichain [3]) (mkAntichain [5]))%Z (mkAntichain [6%Z]) = true.
Proof.
  split; [reflexivity|].
  rewrite (proj1 (proj2 (antichain_lattice_spec (mkAntichain [3%Z]) (mkAntichain [5%Z])))).
  reflexivity.
Defined.

(** [advance_by] is what its documentation promises: the result and the
    original time are indistinguishable to every time at or above the frontier,
    and the result is the largest time with that property. *)
Theorem advance_by_spec `{LatticeLaws T} (t : T) (frontier : list T) :
  frontier ≠ [] →
  (∀ s, Antichain.less_equal (mkAntichain frontier) s = true →
        less_equal (advance_by t frontier) s = less_equal t s) ∧
  (∀ t', (∀ s, Antichain.less_equal (mkAntichain frontier) s = true →
               less_equal t' s = less_equal t s) →
         less_equal t' (advance_by t frontier) = true).
Proof.
  intros Hne. destruct frontier as [|f l]; [done|]. split.
  - intros s (g&Hg&Hgs)%antichain_less_equal_spec. apply eq_iff_eq_true. split.
    + apply less_equal_trans. rewrite advance_by_lower. apply forallb_forall.
      intros. apply join_ub_l.
    + intros Hts. eapply less_equal_trans; [|by apply (join_least t g s)].
      pose proof (less_equal_refl (advance_by t (f :: l))) as Hr.
      rewrite advance_by_lower, forallb_forall in Hr. by apply Hr, list_elem_of_In.
  - intros t' Ht'. rewrite advance_by_lower. apply forallb_forall. intros g Hg%list_elem_of_In.
    rewrite Ht'; [apply join_ub_l|]. apply antichain_less_equal_spec.
    exists g. split; [done | apply join_ub_r].
Qed.

Lemma advance_by_witness :
  advance_by 3%Z [5; 4]%Z = 4%Z ∧ less_equal (advance_by 3%Z [5; 4]%Z) 6%Z = less_equal 3%Z 6%Z.
Proof.
  split; [reflexivity|].
  apply (proj1 (advance_by_spec 3%Z [5; 4]%Z ltac:(discriminate))). reflexivity.
Defined.
