(* ===== verification/Timestamp.v ===== *)
(** Logical clocks (crates/dbsp/src/time.rs, time/product.rs): the [Timestamp]
    trait, its implementations for [UnitTimestamp], [()], [u32] and nested
    [Product] clocks, and their refinement to vectors of clock readings. *)
From S2P Require Import Prelude Machine Order.
#[local] Open Scope Z_scope.

(** trait [Timestamp].  [advance] and [recede] may overflow: their first argument says
    whether the build checks for overflow, and [None] is a panic. [checked_recede]
    returns Rust's [Option]. *)
Class Timestamp (T : Type) `{Lattice T} := {
  NESTING_DEPTH : nat;
  minimum : T;
  clock_start : T;
  advance : bool → T → nat → option T;
  recede : bool → T → nat → option T;
  checked_recede : T → nat → option T;
  epoch_start : T → nat → T;
  epoch_end : T → nat → T }.

(** The provided [Timestamp::recede]: [self.checked_recede(scope).unwrap()]. *)
Definition default_recede {T} (checked_recede : T → nat → option T)
  (self : T) (scope : nat) : option T :=
  checked_recede self scope.

(** ** [UnitTimestamp] *)
Inductive UnitTimestamp := UnitTs.

#[export] Instance unit_ts_order : PartialOrder UnitTimestamp :=
  {| eqb := λ _ _, true; less_than := default_less_than (λ _ _, true) (λ _ _, true);
     less_equal := λ _ _, true |}.
#[export] Instance unit_ts_lattice : Lattice UnitTimestamp :=
  {| join := λ _ _, UnitTs; meet := λ _ _, UnitTs |}.
#[export] Instance unit_ts_timestamp : Timestamp UnitTimestamp :=
  {| NESTING_DEPTH := 0; minimum := UnitTs; clock_start := UnitTs;
     advance := λ _ _ _, Some UnitTs; recede := λ _ _ _, Some UnitTs;
     checked_recede := λ _ _, None;
     epoch_start := λ _ _, UnitTs; epoch_end := λ _ _, UnitTs |}.

(** ** [()] *)
#[export] Instance nil_timestamp : Timestamp unit :=
  {| NESTING_DEPTH := 0; minimum := tt; clock_start := tt;
     advance := λ _ _ _, Some tt; recede := λ _ _ _, Some tt;
     checked_recede := λ _ _, Some tt;
     epoch_start := λ _ _, tt; epoch_end := λ _ _, tt |}.

(** ** [u32] *)
Module U32Time.
Definition advance (oc : bool) (self : Z) (_scope : nat) : option Z := arith oc u32 (self + 1).
Definition recede (oc : bool) (self : Z) (_scope : nat) : option Z := arith oc u32 (self - 1).
Definition checked_recede (self : Z) (_scope : nat) : option Z := checked u32 (self - 1).
Definition epoch_start (self : Z) (_scope : nat) : Z := 0.
Definition epoch_end (self : Z) (_scope : nat) : Z := MAX u32.
End U32Time.

#[export] Instance u32_timestamp : Timestamp Z :=
  {| NESTING_DEPTH := 0; minimum := 0; clock_start := 0;
     advance := U32Time.advance; recede := U32Time.recede;
     checked_recede := U32Time.checked_recede;
     epoch_start := U32Time.epoch_start; epoch_end := U32Time.epoch_end |}.

(** ** [Product] *)
Record Product (TOuter TInner : Type) := mkProduct { outer : TOuter; inner : TInner }.
Arguments mkProduct {TOuter TInner} _ _.
Arguments outer {TOuter TInner} _.
Arguments inner {TOuter TInner} _.

Module Product.
Section order.
Context `{PartialOrder A} `{PartialOrder B}.
(** derived [PartialEq] *)
Definition eq (self other : Product A B) : bool :=
  eqb (outer self) (outer other) && eqb (inner self) (inner other).
Definition less_equal (self other : Product A B) : bool :=
  Order.less_equal (outer self) (outer other) && Order.less_equal (inner self) (inner other).
End order.

Section lattice.
Context `{Lattice A} `{Lattice B}.
Definition join (self other : Product A B) : Product A B :=
  mkProduct (Order.join (outer self) (outer other)) (Order.join (inner self) (inner other)).
Definition meet (self other : Product A B) : Product A B :=
  mkProduct (Order.meet (outer self) (outer other)) (Order.meet (inner self) (inner other)).
End lattice.

Section timestamp.
Context `{Timestamp A} `{Timestamp B}.

Definition minimum : Product A B := mkProduct Timestamp.minimum Timestamp.minimum.
Definition clock_start : Product A B := mkProduct Timestamp.clock_start Timestamp.clock_start.

Definition advance (oc : bool) (self : Product A B) (scope : nat) : option (Product A B) :=
  if (scope =? 0)%nat then
    i ← Timestamp.advance oc (inner self) 0; Some (mkProduct (outer self) i)
  else
    o ← Timestamp.advance oc (outer self) (scope - 1); Some (mkProduct o Timestamp.minimum).

Definition recede (oc : bool) (self : Product A B) (scope : nat) : option (Product A B) :=
  if (scope =? 0)%nat then
    i ← Timestamp.recede oc (inner self) 0; Some (mkProduct (outer self) i)
  else
    o ← Timestamp.recede oc (outer self) (scope - 1); Some (mkProduct o (inner self)).

Definition checked_recede (self : Product A B) (scope : nat) : option (Product A B) :=
  if (scope =? 0)%nat then
    (λ inner, mkProduct (outer self) inner) <$> Timestamp.checked_recede (inner self) 0
  else
    (λ outer, mkProduct outer (inner self)) <$> Timestamp.checked_recede (outer self) (scope - 1).

Definition epoch_start (self : Product A B) (scope : nat) : Product A B :=
  if (scope =? 0)%nat then mkProduct (outer self) Timestamp.minimum
  else mkProduct (Timestamp.epoch_start (outer self) (scope - 1)) Timestamp.minimum.

Definition epoch_end (self : Product A B) (scope : nat) : Product A B :=
  if (scope =? 0)%nat then mkProduct (outer self) (Timestamp.epoch_end (inner self) 0)
  else mkProduct (Timestamp.epoch_end (outer self) (scope - 1))
         (Timestamp.epoch_end (inner self) 0).
End timestamp.
End Product.

#[export] Instance product_order `{PartialOrder A} `{PartialOrder B} : PartialOrder (Product A B) :=
  {| eqb := Product.eq; less_than := default_less_than Product.eq Product.less_equal;
     less_equal := Product.less_equal |}.
#[export] Instance product_lattice `{Lattice A} `{Lattice B} : Lattice (Product A B) :=
  {| join := Product.join; meet := Product.meet |}.
#[export] Instance product_timestamp `{Timestamp A} `{Timestamp B} : Timestamp (Product A B) :=
  {| NESTING_DEPTH := S (NESTING_DEPTH (T:=A));
     minimum := Product.minimum; clock_start := Product.clock_start;
     advance := Product.advance; recede := Product.recede;
     checked_recede := Product.checked_recede;
     epoch_start := Product.epoch_start; epoch_end := Product.epoch_end |}.

(** ** Laws of the product order *)
#[export] Instance product_order_laws `{PartialOrderLaws A} `{PartialOrderLaws B} :
  PartialOrderLaws (Product A B).
Proof.
  split; cbn; unfold Product.eq, Product.less_equal.
  - intros [o i] [o' i']; cbn. rewrite andb_true_iff, !eqb_eq. naive_solver.
  - intros [o i]; cbn. by rewrite !less_equal_refl.
  - intros [] [] []; cbn. rewrite !andb_true_iff.
    intros [] []; split; by eapply less_equal_trans.
  - intros [] []; cbn. rewrite !andb_true_iff.
    intros [] []; f_equal; by apply less_equal_antisym.
  - done.
Qed.

#[export] Instance product_lattice_laws `{LatticeLaws A} `{LatticeLaws B} :
  LatticeLaws (Product A B).
Proof.
  split; [apply _ | ..]; cbn; unfold Product.less_equal, Product.join, Product.meet; cbn;
    intros; rewrite ?andb_true_iff in *;
    eauto using join_ub_l, join_ub_r, join_least, meet_lb_l, meet_lb_r, meet_greatest.
  - split; naive_solver eauto using join_least.
  - split; naive_solver eauto using meet_greatest.
Qed.

(** ** Clocks as vectors of readings

    [Clock n] is the time type of a circuit nested [n] levels below a clocked
    top-level circuit: [u32], [Product<u32, u32>],
    [Product<Product<u32, u32>, u32>], ... (the [Nested] associated types). *)
Fixpoint Clock (n : nat) : Type :=
  match n with O => Z | S n => Product (Clock n) Z end.

Fixpoint clock_order (n : nat) : PartialOrder (Clock n) :=
  match n with O => int_order | S n => @product_order _ (clock_order n) _ _ end.
#[export] Existing Instance clock_order.
Fixpoint clock_lattice (n : nat) : Lattice (Clock n) :=
  match n with O => int_lattice | S n => @product_lattice _ _ (clock_lattice n) _ _ _ end.
#[export] Existing Instance clock_lattice.
Fixpoint clock_timestamp (n : nat) : Timestamp (Clock n) :=
  match n with O => u32_timestamp | S n => @product_timestamp _ _ _ (clock_timestamp n) _ _ _ _ end.
#[export] Existing Instance clock_timestamp.

#[export] Instance clock_lattice_laws n : LatticeLaws (Clock n).
Proof. induction n as [|n IH]; [apply int_lattice_laws | exact (@product_lattice_laws _ _ _ IH _ _ _ _)]. Qed.

(** The readings, innermost clock first: index [scope] is the clock that
    [advance(scope)] ticks. *)
Fixpoint coords {n : nat} : Clock n → list Z :=
  match n with
  | O => λ t, [t]
  | S n => λ t, inner t :: coords (outer t)
  end.

Definition clock_ok {n} (t : Clock n) : Prop := Forall (λ x, 0 ≤ x ≤ MAX u32) (coords t).

Lemma coords_length n (t : Clock n) : length (coords t) = S n.
Proof. induction n as [|n IH]; simpl; [done | by rewrite IH]. Qed.

Lemma coords_inj n (t u : Clock n) : coords t = coords u → t = u.
Proof.
  induction n as [|n IH]; simpl; [congruence|].
  destruct t as [o i], u as [o' i']; simpl. intros [= -> ?]. f_equal. auto.
Qed.

Lemma clock_less_equal n (t u : Clock n) :
  less_equal t u = true ↔ Forall2 Z.le (coords t) (coords u).
Proof.
  induction n as [|n IH]; simpl in *.
  - unfold IntOrder.int_less_equal. rewrite Z.leb_le, Forall2_cons. naive_solver.
  - unfold Product.less_equal. rewrite andb_true_iff, IH, Forall2_cons. simpl.
    unfold IntOrder.int_less_equal. rewrite Z.leb_le. tauto.
Qed.

Lemma u32_succ oc x : 0 ≤ x < MAX u32 → arith oc u32 (x + 1) = Some (x + 1).
Proof. intros. apply arith_ok, in_range_spec. change (MIN u32) with 0. lia. Qed.

Lemma clock_advance oc n (t : Clock n) s x :
  coords t !! s = Some x → 0 ≤ x < MAX u32 →
  ∃ t', advance oc t s = Some t' ∧
        coords t' = replicate s 0 ++ (x + 1) :: drop (S s) (coords t).
Proof.
  revert s. induction n as [|n IH]; intros s Hs Hx; simpl in *.
  - destruct s as [|s]; [|done]. simplify_eq/=. unfold U32Time.advance.
    rewrite u32_succ by done. eauto.
  - unfold Product.advance. destruct s as [|s]; simpl in *.
    + simplify_eq/=. unfold U32Time.advance. rewrite u32_succ by done. simpl. eauto.
    + rewrite Nat.sub_0_r. destruct (IH (outer t) s Hs Hx) as (o&Ho&Hc). rewrite Ho. simpl.
      eexists. split; [done|]. simpl. by rewrite Hc.
Qed.

Lemma u32_checked_pred y :
  0 ≤ y ≤ MAX u32 → checked u32 (y - 1) = if y =? 0 then None else Some (y - 1).
Proof.
  intros Hy. unfold checked. destruct (Z.eqb_spec y 0) as [->|Hne]; [done|].
  assert (in_range u32 (y - 1) = true) as ->; [|done].
  apply in_range_spec. change (MIN u32) with 0. lia.
Qed.

Lemma clock_checked_recede n (t : Clock n) s x :
  coords t !! s = Some x → 0 ≤ x ≤ MAX u32 →
  coords <$> checked_recede t s = (if x =? 0 then None else Some (<[s := x - 1]> (coords t))).
Proof.
  revert s. induction n as [|n IH]; intros s Hs Hx; simpl in *.
  - destruct s as [|s]; [|done]. simplify_eq/=. unfold U32Time.checked_recede.
    rewrite u32_checked_pred by done. by destruct (_ =? 0).
  - unfold Product.checked_recede. destruct s as [|s]; simpl in *.
    + simplify_eq/=. unfold U32Time.checked_recede. rewrite u32_checked_pred by done.
      by destruct (_ =? 0).
    + rewrite Nat.sub_0_r. specialize (IH (outer t) s Hs Hx).
      transitivity (cons (inner t) <$> (coords <$> checked_recede (outer t) s)).
      * by destruct (checked_recede (outer t) s).
      * rewrite IH. by destruct (x =? 0).
Qed.

Lemma clock_epoch n (t : Clock n) s :
  (s < S n)%nat →
  coords (epoch_start t s) = replicate (S s) 0 ++ drop (S s) (coords t) ∧
  coords (epoch_end t s) = replicate (S s) (MAX u32) ++ drop (S s) (coords t).
Proof.
  revert s. induction n as [|n IH]; intros s Hs.
  - destruct s as [|s]; [|lia]. done.
  - destruct s as [|s]; [done|]. destruct (IH (outer t) s) as [Hst Hen]; [lia|].
    change (epoch_start t (S s)) with (mkProduct (epoch_start (outer t) (S s - 1)) 0 : Clock (S n)).
    change (epoch_end t (S s))
      with (mkProduct (epoch_end (outer t) (S s - 1)) (MAX u32) : Clock (S n)).
    rewrite Nat.sub_succ, Nat.sub_0_r.
    split; [exact (f_equal (cons 0) Hst) | exact (f_equal (cons (MAX u32)) Hen)].
Qed.

Lemma clock_recede oc n (t : Clock n) s x :
  coords t !! s = Some x →
  coords <$> recede oc t s = (λ y, <[s := y]> (coords t)) <$> arith oc u32 (x - 1).
Proof.
  revert s. induction n as [|n IH]; intros s Hs; simpl in *.
  - destruct s as [|s]; [|done]. simplify_eq/=. unfold U32Time.recede. by destruct (arith _ _ _).
  - unfold Product.recede. destruct s as [|s]; simpl in *.
    + simplify_eq/=. unfold U32Time.recede. by destruct (arith _ _ _).
    + rewrite Nat.sub_0_r. specialize (IH (outer t) s Hs).
      transitivity (cons (inner t) <$> (coords <$> recede oc (outer t) s)).
      * by destruct (recede oc (outer t) s).
      * rewrite IH. by destruct (arith _ _ _).
Qed.

(** In every nested clock, a tick at [scope] (with room to count) increments the
    reading of that scope, resets every deeper clock to 0 and leaves the
    enclosing ones alone, in debug and release builds; stepping back then
    gives the first time of the epoch the tick ended. *)
Theorem clock_advance_spec oc n (t : Clock n) (scope : nat) (x : Z) :
  clock_ok t → coords t !! scope = Some x → x < MAX u32 →
  ∃ t', advance oc t scope = Some t' ∧ clock_ok t' ∧
        coords t' = replicate scope 0 ++ (x + 1) :: drop (S scope) (coords t) ∧
        coords <$> checked_recede t' scope
        = Some (replicate scope 0 ++ x :: drop (S scope) (coords t)).
Proof.
  intros Hok Hx Hlt. assert (0 ≤ x) as Hge by (by eapply Forall_lookup_1 in Hok as []).
  destruct (clock_advance oc n t scope x Hx (conj Hge Hlt)) as (t'&Ht'&Hc). exists t'.
  assert (coords t' !! scope = Some (x + 1)) as Hx'.
  { rewrite Hc, lookup_app_r; rewrite length_replicate; [|done]. by rewrite Nat.sub_diag. }
  split_and!; [done | | done |].
  - unfold clock_ok. rewrite Hc, Forall_app, Forall_cons. split; [|split; [lia|]].
    + apply Forall_replicate. change (MAX u32) with 4294967295. lia.
    + by apply Forall_drop.
  - rewrite (clock_checked_recede _ _ _ _ Hx') by lia. destruct (Z.eqb_spec (x + 1) 0); [lia|].
    rewrite Hc, insert_app_r_alt; rewrite length_replicate; [|done]. rewrite Nat.sub_diag. simpl.
    do 3 f_equal. lia.
Qed.

(** The time (2, 3) of the trait's documentation: [advance(0)] gives (2, 4) and
    [advance(1)] gives (3, 0). *)
Lemma clock_advance_witness :
  advance true (mkProduct 2 3 : Clock 1) 0 = Some (mkProduct 2 4) ∧
  ∃ t', advance false (mkProduct 2 3 : Clock 1) 1 = Some t' ∧ coords t' = [0; 3].
Proof.
  split; [reflexivity|].
  destruct (clock_advance_spec false 1 (mkProduct 2 3) 1 2) as (t'&Ht'&_&Hc&_).
  - repeat constructor; vm_compute; discriminate.
  - reflexivity.
  - reflexivity.
  - exists t'. split; [exact Ht' | exact Hc].
Defined.

(** [epoch_start] and [epoch_end] bound the epoch: the times that agree with [t]
    on every clock enclosing [scope] are exactly those between them. *)
Theorem clock_epoch_spec n (t u : Clock n) (scope : nat) :
  clock_ok t → clock_ok u → (scope < S n)%nat →
  less_equal (epoch_start t scope) u && less_equal u (epoch_end t scope) = true ↔
  drop (S scope) (coords u) = drop (S scope) (coords t).
Proof.
  intros Ht Hu Hs. destruct (clock_epoch n t scope Hs) as [Hst Hen].
  rewrite andb_true_iff, !clock_less_equal, Hst, Hen.
  pose proof (coords_length n u) as Hlen.
  rewrite <- (take_drop (S scope) (coords u)) at 1 2.
  assert (length (take (S scope) (coords u)) = S scope) as Hlt
    by (rewrite length_take; lia).
  split.
  - intros [H1 H2]. apply Forall2_app_inv in H1 as [_ H1]; [|by rewrite length_replicate].
    apply Forall2_app_inv in H2 as [_ H2]; [|by rewrite length_replicate].
    revert H1 H2. generalize (drop (S scope) (coords u)) (drop (S scope) (coords t)).
    intros l m H1 H2. induction H1 as [|a b l m Hab _ IH]; [done|].
    apply Forall2_cons in H2 as [Hba H2]. f_equal; [lia | auto].
  - intros ->. assert (Forall (λ x, 0 ≤ x ≤ MAX u32) (take (S scope) (coords u))) as Htk
      by by apply Forall_take.
    split; (apply Forall2_app; [|reflexivity]).
    + apply Forall2_replicate_l; [done|]. eapply Forall_impl; [done|]. simpl. lia.
    + apply Forall2_replicate_r; [done|]. eapply Forall_impl; [done|]. simpl. lia.
Qed.

Lemma clock_epoch_witness :
  less_equal (epoch_start (mkProduct 2 3 : Clock 1) 0) (mkProduct 2 9 : Clock 1) &&
  less_equal (mkProduct 2 9 : Clock 1) (epoch_end (mkProduct 2 3 : Clock 1) 0) = true.
Proof.
  apply (clock_epoch_spec 1 (mkProduct 2 3) (mkProduct 2 9) 0).
  - repeat constructor; vm_compute; discriminate.
  - repeat constructor; vm_compute; discriminate.
  - lia.
  - reflexivity.
Defined.

(** [recede] steps a running clock back in every build; at reading 0 a build with
    overflow checks panics, as the trait documents, but one without (the
    release profile) silently wraps the clock to [u32::MAX]. *)
Theorem clock_recede_spec n (t : Clock n) (scope : nat) (x : Z) :
  clock_ok t → coords t !! scope = Some x →
  (∀ oc, 0 < x → coords <$> recede oc t scope = Some (<[scope := x - 1]> (coords t))) ∧
  (x = 0 → recede true t scope = None ∧ checked_recede t scope = None ∧
           coords <$> recede false t scope = Some (<[scope := MAX u32]> (coords t))).
Proof.
  intros Hok Hx. assert (0 ≤ x ≤ MAX u32) as Hr by by eapply Forall_lookup_1 in Hok. split.
  - intros oc Hpos. rewrite (clock_recede _ _ _ _ x Hx), arith_ok; [done|].
    apply in_range_spec. change (MIN u32) with 0. lia.
  - intros ->. split_and!.
    + apply (fmap_None coords). by rewrite (clock_recede _ _ _ _ 0 Hx).
    + apply (fmap_None coords). by rewrite (clock_checked_recede _ _ _ 0 Hx) by lia.
    + by rewrite (clock_recede _ _ _ _ 0 Hx).
Qed.

Lemma clock_recede_witness :
  recede true (mkProduct 0 3 : Clock 1) 1 = None ∧
  coords <$> recede false (mkProduct 0 3 : Clock 1) 1 = Some [3; 4294967295].
Proof.
  destruct (clock_recede_spec 1 (mkProduct 0 3) 1 0) as [_ H0].
  - repeat constructor; vm_compute; discriminate.
  - reflexivity.
  - destruct (H0 eq_refl) as (H1&_&H2). split; [exact H1 | exact H2].
Defined.
