(* ===== verification/Search.v ===== *)
(** Exponential search in sorted slices (crates/dbsp/src/utils/advance_retreat.rs)
    and the [DynVec] wrappers the layers use (crates/dbsp/src/dynamic/vec.rs).

    The typed searches ([advance_raw], [retreat_raw]) index a list; the erased
    ones ([advance_erased], [retreat_erased]) work on a byte slice, where the
    predicate receives the byte offset of the element.  All four share the two
    loops [grow] (steps 1, 2, 4, ...) and [shrink] (halving steps). *)
From S2P Require Import Prelude.
#[local] Open Scope nat_scope.

(** ** The loops, over the test [i < len && function(slice[i])] *)

(** [while index + step < len && f(index + step) { index += step; step <<= 1 }].
    [None] only when the fuel runs out. *)
Fixpoint grow (fuel len : nat) (f : nat → bool) (index step : nat) : option (nat * nat) :=
  match fuel with
  | O => None
  | S fuel =>
    if (index + step <? len) && f (index + step)
    then grow fuel len f (index + step) (2 * step)
    else Some (index, step)
  end.

(** [while step > 0 { if index + step < len && f(index + step) { index += step }; step >>= 1 }]. *)
Fixpoint shrink (fuel len : nat) (f : nat → bool) (index step : nat) : option nat :=
  match fuel with
  | O => None
  | S fuel =>
    if step =? 0 then Some index
    else
      let index := if (index + step <? len) && f (index + step) then index + step else index in
      shrink fuel len f index (step / 2)
  end.

(** The exponential branch, from [let mut index = SMALL_LIMIT + 1] on. *)
Definition exponential (len : nat) (f : nat → bool) (SMALL_LIMIT : nat) : option nat :=
  let index := SMALL_LIMIT + 1 in
  if (index <? len) && f index then
    '(index, step) ← grow len len f index 1;
    index ← shrink (S step) len f index (step / 2);
    Some (index + 1)
  else Some index.

Definition DEFAULT_SMALL_LIMIT : nat := 8.

(** [Iterator::position]. *)
Fixpoint position {T} (p : T → bool) (l : list T) : option nat :=
  match l with
  | [] => None
  | x :: l => if p x then Some 0 else S <$> position p l
  end.

(** [slice[i]] under a predicate; the callers test [i < slice.len()] first. *)
Definition at_index {T} (slice : list T) (function : T → bool) (i : nat) : bool :=
  match slice !! i with Some x => function x | None => false end.

Section typed.
Context {T : Type}.
Implicit Types (slice : list T) (function : T → bool).

Definition advance_raw (SMALL_LIMIT : nat) slice function : option nat :=
  let len := length slice in
  if (SMALL_LIMIT <? len) && at_index slice function SMALL_LIMIT then
    exponential len (at_index slice function) SMALL_LIMIT
  else
    let limit := Nat.min len SMALL_LIMIT in
    Some (default limit (position (λ x, negb (function x)) (take limit slice))).

Definition advance slice function : option nat :=
  advance_raw DEFAULT_SMALL_LIMIT slice function.

Definition retreat_raw (SMALL_LIMIT : nat) slice function : option nat :=
  match slice with
  | [] => Some 0
  | _ =>
    let len := length slice in
    let last_index := len - 1 in
    if (SMALL_LIMIT <? len) && at_index slice function (last_index - SMALL_LIMIT) then
      exponential len (λ i, at_index slice function (last_index - i)) SMALL_LIMIT
    else
      let limit := Nat.min last_index SMALL_LIMIT in
      Some (default (limit + 1)
        (position (λ x, negb (function x)) (reverse (drop (last_index - limit) slice))))
  end.

Definition retreat slice function : option nat :=
  retreat_raw DEFAULT_SMALL_LIMIT slice function.
End typed.

(** ** Erased searches *)
Record SlicePtr := mkSlicePtr { sp_elements : nat; element_size : nat }.

Module SlicePtr.
(** [SlicePtr::new] on a byte slice of [bytes] bytes. *)
Definition new (bytes size : nat) : SlicePtr := mkSlicePtr (bytes / size) size.
Definition len (s : SlicePtr) : nat := sp_elements s.
(** [ptr.add(idx * element_size)], as an offset from [ptr]. *)
Definition get_unchecked (s : SlicePtr) (idx : nat) : nat := idx * element_size s.
End SlicePtr.

(** [for offset in 0..limit { if !f(offset) { return offset } }; limit]. *)
Fixpoint linear (n : nat) (f : nat → bool) (offset : nat) : nat :=
  match n with
  | O => offset
  | S n => if negb (f offset) then offset else linear n f (S offset)
  end.

Definition advance_erased (bytes size : nat) (function : nat → bool) : option nat :=
  if size =? 0 then Some 0
  else
    let slice := SlicePtr.new bytes size in
    let f i := function (SlicePtr.get_unchecked slice i) in
    if (DEFAULT_SMALL_LIMIT <? SlicePtr.len slice) && f DEFAULT_SMALL_LIMIT then
      exponential (SlicePtr.len slice) f DEFAULT_SMALL_LIMIT
    else Some (linear (Nat.min (SlicePtr.len slice) DEFAULT_SMALL_LIMIT) f 0).

Definition retreat_erased (bytes size : nat) (function : nat → bool) : option nat :=
  if size =? 0 then Some 0
  else if bytes =? 0 then Some 0
  else
    let slice := SlicePtr.new bytes size in
    let last_index := SlicePtr.len slice - 1 in
    let f i := function (SlicePtr.get_unchecked slice (last_index - i)) in
    if (DEFAULT_SMALL_LIMIT <? SlicePtr.len slice) && f DEFAULT_SMALL_LIMIT then
      exponential (SlicePtr.len slice) f DEFAULT_SMALL_LIMIT
    else Some (linear (Nat.min last_index DEFAULT_SMALL_LIMIT + 1) f 0).

(** [bytes_of] and the pointer casts of the callers: element [i] of a slice of
    [size]-byte elements lives at byte offset [i * size]. *)
Definition deref {T} (size : nat) (slice : list T) (function : T → bool) (off : nat) : bool :=
  at_index slice function (off / size).

Definition dyn_advance {T} (size : nat) (slice : list T) (function : T → bool) : option nat :=
  advance_erased (length slice * size) size (deref size slice function).
Definition dyn_retreat {T} (size : nat) (slice : list T) (function : T → bool) : option nat :=
  retreat_erased (length slice * size) size (deref size slice function).

(** ** [DynVec] searches over a range; [size] is [size_of::<T>()] *)

(** [self[from..to]]: panics unless [from <= to <= len]. *)
Definition range {T} (v : list T) (from to : nat) : option (list T) :=
  assert! ((from <=? to) && (to <=? length v)) in Some (take (to - from) (drop from v)).

Section dynvec.
Context {T : Type} (size : nat).
Implicit Types (v : list T) (p : T → bool).

Definition advance_while v (from to : nat) p : option nat :=
  s ← range v from to; dyn_advance size s p.
Definition advance_until v (from to : nat) p : option nat :=
  s ← range v from to; dyn_advance size s (λ x, negb (p x)).
Definition retreat_while v (from to : nat) p : option nat :=
  s ← range v from (to + 1); dyn_retreat size s p.
Definition retreat_until v (from to : nat) p : option nat :=
  s ← range v from (to + 1); dyn_retreat size s (λ x, negb (p x)).

Context `{Ord T}.
Definition advance_to v (from to : nat) (val : T) : option nat :=
  s ← range v from to; dyn_advance size s (λ x, kltb x val).
Definition retreat_to v (from to : nat) (val : T) : option nat :=
  s ← range v from (to + 1); dyn_retreat size s (λ x, kgtb x val).
End dynvec.

(** ** The reference: the length of the longest satisfying prefix *)
Fixpoint prefix_len {T} (f : T → bool) (l : list T) : nat :=
  match l with
  | [] => 0
  | x :: l => if f x then S (prefix_len f l) else 0
  end.

(** The documented precondition: once false, the predicate stays false. *)
Definition stays_false {T} (f : T → bool) (l : list T) : Prop :=
  ∀ i j x y, i ≤ j → l !! i = Some x → l !! j = Some y → f y = true → f x = true.

Section loops.
Context (len : nat) (f : nat → bool).
(** [sat i] is the test of the loops. *)
Definition sat (i : nat) : bool := (i <? len) && f i.
Definition downward : Prop := ∀ i j, i ≤ j → sat j = true → sat i = true.

Lemma sat_lt i : sat i = true → i < len.
Proof. unfold sat. intros [Hi _]%andb_true_iff. by apply Nat.ltb_lt. Qed.

Lemma grow_spec fuel index k :
  len ≤ fuel + index → sat index = true →
  ∃ index' k', grow fuel len f index (2 ^ k) = Some (index', 2 ^ k') ∧
    sat index' = true ∧ sat (index' + 2 ^ k') = false.
Proof.
  revert index k. induction fuel as [|fuel IH]; intros index k Hf Hs.
  - apply sat_lt in Hs. lia.
  - simpl. fold (sat (index + 2 ^ k)). pose proof (Nat.pow_nonzero 2 k ltac:(lia)).
    destruct (sat (index + 2 ^ k)) eqn:E.
    + destruct (IH (index + 2 ^ k) (S k)) as (i'&k'&Hg&?&?); [lia | done |].
      by exists i', k'.
    + exists index, k. done.
Qed.

(** [shrink] halves a step [2 ^ k] down to nothing, closing in on the last
    index that satisfies the test. *)
Lemma shrink_spec fuel index k :
  k < fuel → sat index = true → sat (index + 2 ^ k) = false →
  ∃ index', shrink fuel len f index (2 ^ k / 2) = Some index' ∧
    sat index' = true ∧ sat (index' + 1) = false.
Proof.
  revert fuel index. induction k as [|k IH]; intros fuel index Hk Hs Hn.
  - exists index. destruct fuel; [lia | done].
  - destruct fuel as [|fuel]; [lia|].
    assert (2 ^ S k / 2 = 2 ^ k) as -> by (rewrite Nat.pow_succ_r', Nat.mul_comm; by apply Nat.div_mul).
    cbn [shrink]. pose proof (Nat.pow_nonzero 2 k ltac:(lia)) as Hp.
    destruct (Nat.eqb_spec (2 ^ k) 0) as [|_]; [lia|]. fold (sat (index + 2 ^ k)).
    destruct (sat (index + 2 ^ k)) eqn:E; apply IH; try done; try lia.
    rewrite <- Hn. f_equal. simpl. lia.
Qed.

Lemma pow2_lt k : k < 2 ^ k.
Proof. apply Nat.pow_gt_lin_r. lia. Qed.

(** The exponential branch returns the least index past the small limit that
    fails the test. *)
Lemma exponential_spec limit :
  sat limit = true →
  ∃ n, exponential len f limit = Some (n + 1) ∧ sat n = true ∧ sat (n + 1) = false.
Proof.
  intros Hl. unfold exponential. fold (sat (limit + 1)).
  destruct (sat (limit + 1)) eqn:E; [|by exists limit].
  destruct (grow_spec len (limit + 1) 0) as (i&k&Hg&Hi&Hk); [lia | done |].
  rewrite Nat.pow_0_r in Hg. rewrite Hg. cbn [mbind option_bind].
  destruct (shrink_spec (S (2 ^ k)) i k) as (n&Hs&Hn&Hn');
    [pose proof (pow2_lt k); lia | done | done |].
  rewrite Hs. exists n. done.
Qed.
End loops.

Section prefix.
Context {T : Type}.
Implicit Types (l : list T) (f : T → bool).

Lemma prefix_len_le f l : prefix_len f l ≤ length l.
Proof. induction l as [|x l IH]; simpl; [lia|]. destruct (f x); lia. Qed.

Lemma prefix_len_sat f l i x : i < prefix_len f l → l !! i = Some x → f x = true.
Proof.
  revert i. induction l as [|y l IH]; intros i Hi Hx; [done|]. simpl in *.
  destruct (f y) eqn:E; [|lia]. destruct i; simplify_eq/=; [done|]. eapply IH; [|done]. lia.
Qed.

Lemma prefix_len_stop f l x : l !! prefix_len f l = Some x → f x = false.
Proof. induction l as [|y l IH]; simpl; [done|]. destruct (f y) eqn:E; naive_solver. Qed.

(** Under the precondition the prefix length is the boundary of the predicate. *)
Lemma prefix_len_unique f l n :
  stays_false f l → n ≤ length l →
  (∀ i x, i < n → l !! i = Some x → f x = true) →
  (∀ x, l !! n = Some x → f x = false) →
  n = prefix_len f l.
Proof.
  intros Hm Hn Hlt Hstop. pose proof (prefix_len_le f l) as Hle.
  destruct (Nat.lt_trichotomy n (prefix_len f l)) as [Hc|[Hc|Hc]]; [|done|].
  - destruct (lookup_lt_is_Some_2 l n) as [x Hx]; [lia|].
    pose proof (prefix_len_sat f l n x Hc Hx). rewrite (Hstop x Hx) in *. done.
  - destruct (lookup_lt_is_Some_2 l (prefix_len f l)) as [x Hx]; [lia|].
    pose proof (prefix_len_stop f l x Hx). rewrite (Hlt _ _ Hc Hx) in *. done.
Qed.

Lemma position_prefix f l :
  default (length l) (position (λ x, negb (f x)) l) = prefix_len f l.
Proof.
  induction l as [|x l IH]; simpl; [done|]. destruct (f x); simpl; [|done].
  rewrite <- IH. by destruct (position _ l).
Qed.

Lemma prefix_len_take f l n :
  prefix_len f (take n l) = Nat.min n (prefix_len f l).
Proof.
  revert n. induction l as [|x l IH]; intros [|n]; simpl; try done.
  destruct (f x); [|done]. by rewrite IH.
Qed.

Lemma at_index_sat f l i : sat (length l) (at_index l f) i = at_index l f i.
Proof.
  unfold sat, at_index. destruct (Nat.ltb_spec i (length l)); simpl; [done|].
  by rewrite lookup_ge_None_2.
Qed.

Lemma at_index_prefix f l i : stays_false f l → at_index l f i = (i <? prefix_len f l).
Proof.
  intros Hm. unfold at_index. destruct (l !! i) as [x|] eqn:Hx.
  - destruct (Nat.ltb_spec i (prefix_len f l)) as [Hlt|Hge].
    + by eapply prefix_len_sat.
    + destruct (f x) eqn:Hf; [|done].
      destruct (lookup_lt_is_Some_2 l (prefix_len f l)) as [y Hy];
        [apply lookup_lt_Some in Hx; lia|].
      pose proof (prefix_len_stop f l y Hy).
      rewrite (Hm (prefix_len f l) i y x) in *; done.
  - apply lookup_ge_None_1 in Hx. pose proof (prefix_len_le f l).
    symmetry. apply Nat.ltb_ge. lia.
Qed.
End prefix.

(** ** The searches compute the prefix length *)
Section correct.
Context {T : Type}.
Implicit Types (l : list T) (f : T → bool).

(** Any test that is the boundary test of [p ≤ len] gives [p]. *)
Lemma exponential_boundary len (test : nat → bool) p limit :
  (∀ i, (i <? len) && test i = (i <? p)) → limit < p →
  exponential len test limit = Some p.
Proof.
  intros Ht Hl. destruct (exponential_spec len test limit) as (n&->&Hn&Hn').
  { unfold sat. rewrite Ht. by apply Nat.ltb_lt. }
  unfold sat in *. rewrite Ht in *. apply Nat.ltb_lt in Hn. apply Nat.ltb_ge in Hn'.
  f_equal. lia.
Qed.

Lemma linear_boundary n (test : nat → bool) p offset :
  (∀ i, i < offset + n → test i = (i <? p)) → offset ≤ p →
  linear n test offset = Nat.min (offset + n) p.
Proof.
  revert offset. induction n as [|n IH]; intros offset Ht Hp; simpl; [lia|].
  rewrite Ht by lia. destruct (Nat.ltb_spec offset p); simpl; [|lia].
  rewrite IH; [f_equal; lia | intros; apply Ht; lia | lia].
Qed.

Lemma advance_raw_prefix limit l f :
  stays_false f l → advance_raw limit l f = Some (prefix_len f l).
Proof.
  intros Hm. unfold advance_raw. rewrite at_index_prefix by done.
  destruct (Nat.ltb_spec limit (prefix_len f l)) as [Hl|Hl].
  - pose proof (prefix_len_le f l). destruct (Nat.ltb_spec limit (length l)); [|lia]. simpl.
    apply exponential_boundary; [|done]. intros i. fold (sat (length l) (at_index l f) i).
    by rewrite at_index_sat, at_index_prefix.
  - rewrite andb_false_r. f_equal.
    pose proof (position_prefix f (take (Nat.min (length l) limit) l)) as Hp.
    rewrite length_take, prefix_len_take in Hp. pose proof (prefix_len_le f l).
    rewrite <- (Nat.min_l (Nat.min (length l) limit) (length l)) at 1 by lia.
    rewrite Hp. lia.
Qed.

Lemma reverse_lookup_sub l i :
  i < length l → reverse l !! i = l !! (length l - 1 - i).
Proof. intros Hi. rewrite reverse_lookup by done. f_equal. lia. Qed.

Lemma at_index_reverse l f i :
  i < length l → at_index l f (length l - 1 - i) = at_index (reverse l) f i.
Proof. intros Hi. unfold at_index. by rewrite reverse_lookup_sub. Qed.

Lemma retreat_test l f i :
  stays_false f (reverse l) →
  (i <? length l) && at_index l f (length l - 1 - i) = (i <? prefix_len f (reverse l)).
Proof.
  intros Hm. destruct (Nat.ltb_spec i (length l)) as [Hi|Hi]; simpl.
  - by rewrite at_index_reverse, at_index_prefix.
  - pose proof (prefix_len_le f (reverse l)). rewrite length_reverse in *.
    symmetry. apply Nat.ltb_ge. lia.
Qed.

Lemma retreat_raw_prefix limit l f :
  stays_false f (reverse l) → retreat_raw limit l f = Some (prefix_len f (reverse l)).
Proof.
  intros Hm. unfold retreat_raw. destruct l as [|x l']; [done|].
  set (l := x :: l') in *. assert (0 < length l) as Hpos by (simpl; lia). clearbody l.
  pose proof (prefix_len_le f (reverse l)) as Hle. rewrite length_reverse in Hle.
  rewrite retreat_test by done.
  destruct (Nat.ltb_spec limit (prefix_len f (reverse l))) as [Hl|Hl].
  - apply exponential_boundary; [|done]. intros i. by apply retreat_test.
  - f_equal. set (lim := Nat.min (length l - 1) limit).
    assert (reverse (drop (length l - 1 - lim) l) = take (lim + 1) (reverse l)) as ->.
    { set (n := length l - 1 - lim).
      replace (reverse l) with (reverse (take n l ++ drop n l)) by by rewrite take_drop.
      rewrite reverse_app.
      rewrite take_app_le by (rewrite length_reverse, length_drop; unfold n, lim; lia).
      rewrite take_ge by (rewrite length_reverse, length_drop; unfold n, lim; lia). done. }
    pose proof (position_prefix f (take (lim + 1) (reverse l))) as Hp.
    rewrite length_take, length_reverse, prefix_len_take in Hp.
    rewrite <- (Nat.min_l (lim + 1) (length l)) at 1 by lia. rewrite Hp. lia.
Qed.

Lemma deref_index size l f i :
  size ≠ 0 → deref size l f (i * size) = at_index l f i.
Proof. intros Hs. unfold deref. by rewrite Nat.div_mul. Qed.

Lemma dyn_advance_prefix size l f :
  size ≠ 0 → stays_false f l → dyn_advance size l f = Some (prefix_len f l).
Proof.
  intros Hs Hm. unfold dyn_advance, advance_erased, SlicePtr.new, SlicePtr.len. simpl.
  destruct (Nat.eqb_spec size 0) as [|_]; [done|]. rewrite Nat.div_mul by done.
  unfold SlicePtr.get_unchecked. cbn [element_size].
  assert (∀ i, deref size l f (i * size) = (i <? prefix_len f l)) as Ht.
  { intros i. by rewrite deref_index, at_index_prefix. }
  assert (∀ i, (i <? length l) && deref size l f (i * size) = (i <? prefix_len f l)) as Ht'.
  { intros i. rewrite Ht. pose proof (prefix_len_le f l).
    destruct (Nat.ltb_spec i (length l)), (Nat.ltb_spec i (prefix_len f l)); simpl; done || lia. }
  rewrite Ht'. destruct (Nat.ltb_spec DEFAULT_SMALL_LIMIT (prefix_len f l)) as [Hl|Hl].
  - by apply exponential_boundary.
  - f_equal. rewrite (linear_boundary _ _ (prefix_len f l)); [|by intros|lia].
    pose proof (prefix_len_le f l). lia.
Qed.

Lemma dyn_retreat_prefix size l f :
  size ≠ 0 → stays_false f (reverse l) →
  dyn_retreat size l f = Some (prefix_len f (reverse l)).
Proof.
  intros Hs Hm. unfold dyn_retreat, retreat_erased, SlicePtr.new, SlicePtr.len. cbn [sp_elements].
  destruct (Nat.eqb_spec size 0) as [|_]; [done|].
  destruct (Nat.eqb_spec (length l * size) 0) as [Hz|Hz].
  { assert (length l = 0) as ->%nil_length_inv by nia. done. }
  assert (0 < length l) as Hpos by nia. rewrite Nat.div_mul by done.
  unfold SlicePtr.get_unchecked. cbn [element_size].
  assert (∀ i, (i <? length l) && deref size l f ((length l - 1 - i) * size)
               = (i <? prefix_len f (reverse l))) as Ht.
  { intros i. rewrite deref_index by done. by apply retreat_test. }
  rewrite Ht. pose proof (prefix_len_le f (reverse l)) as Hle. rewrite length_reverse in Hle.
  destruct (Nat.ltb_spec DEFAULT_SMALL_LIMIT (prefix_len f (reverse l))) as [Hl|Hl].
  - by apply exponential_boundary.
  - f_equal. rewrite (linear_boundary _ _ (prefix_len f (reverse l))); [lia| |lia].
    intros i Hi. rewrite <- Ht. destruct (Nat.ltb_spec i (length l)); [done|lia].
Qed.
End correct.

(** All four exponential searches terminate and return the length of the longest
    satisfying prefix (suffix, for [retreat]) whenever the predicate stays
    false once false, for every linear-search limit and every non-zero
    element size: the erased searches agree with the typed ones. *)
Theorem search_spec {T} (slice : list T) (function : T → bool) (limit size : nat) :
  size ≠ 0 →
  (stays_false function slice →
   advance_raw limit slice function = Some (prefix_len function slice) ∧
   dyn_advance size slice function = Some (prefix_len function slice)) ∧
  (stays_false function (reverse slice) →
   retreat_raw limit slice function = Some (prefix_len function (reverse slice)) ∧
   dyn_retreat size slice function = Some (prefix_len function (reverse slice))).
Proof.
  intros Hs. split; intros Hm; split;
    auto using advance_raw_prefix, dyn_advance_prefix, retreat_raw_prefix, dyn_retreat_prefix.
Qed.

(** A list whose satisfying elements come first meets the precondition. *)
Lemma stays_false_app {T} (f : T → bool) l1 l2 :
  forallb f l1 = true → forallb (λ x, negb (f x)) l2 = true → stays_false f (l1 ++ l2).
Proof.
  rewrite !forallb_forall. setoid_rewrite <- list_elem_of_In. intros H1 H2 i j x y Hij Hx Hy Hf.
  destruct (decide (j < length l1)) as [Hj|Hj].
  - rewrite lookup_app_l in Hx by lia. eauto using list_elem_of_lookup_2.
  - rewrite lookup_app_r in Hy by lia. apply list_elem_of_lookup_2, H2 in Hy. by rewrite Hf in Hy.
Qed.

Lemma search_witness :
  advance_raw 8 (replicate 10 1 ++ replicate 2 0) (λ x, x =? 1) = Some 10 ∧
  dyn_retreat 4 [0; 0; 1; 1] (λ x, x =? 1) = Some 2.
Proof.
  split.
  - apply (proj1 (search_spec (replicate 10 1 ++ replicate 2 0) (λ x, x =? 1) 8 4 ltac:(lia))).
    apply stays_false_app; reflexivity.
  - apply (proj2 (search_spec [0; 0; 1; 1] (λ x, x =? 1) 8 4 ltac:(lia))).
    apply (stays_false_app (λ x, x =? 1) [1; 1] [0; 0]); reflexivity.
Defined.

(** On zero-sized elements the erased searches return 0 whatever the predicate,
    although the typed ones count the satisfying elements. *)
Remark search_zero_sized {T} (slice : list T) (function : T → bool) :
  dyn_advance 0 slice function = Some 0 ∧ dyn_retreat 0 slice function = Some 0 ∧
  advance [tt; tt] (λ _, true) = Some 2.
Proof. done. Qed.
