(* ===== verification/LeanVec.v ===== *)
(** In-place deduplication and filtering of vectors
    (crates/dbsp/src/dynamic/lean_vec.rs and the paired-slice versions of
    crates/dbsp/src/utils/consolidation/utils.rs).

    The code moves elements with raw pointers and two cursors; the model keeps
    the whole buffer, including the slots that hold moved-out or dropped
    elements, and only [set_len] truncates it.  The paired versions move a key
    and its payload with the same indices, so a pair of vectors of equal length
    is one list of pairs. *)
From S2P Require Import Prelude.
#[local] Open Scope nat_scope.

Section ops.
Context {T : Type}.
Implicit Types (v : list T) (x y : T).

(** A [FnMut(&mut T, &mut T) -> bool]: the answer and the new values of the two
    elements, the read one first. *)
Definition bucket := T → T → bool * (T * T).

(** The [while gap.read < len] loop of [dedup_starting_at]. *)
Fixpoint dedup_loop (same_bucket : bucket) (fuel len : nat) (v : list T) (read write : nat) :
  option (list T * nat) :=
  match fuel with
  | O => None
  | S fuel =>
    if read <? len then
      x ← v !! read;
      p ← v !! (write - 1);
      let '(same, (x', p')) := same_bucket x p in
      let v := <[write - 1 := p']> (<[read := x']> v) in
      if same then dedup_loop same_bucket fuel len v (read + 1) write
      else dedup_loop same_bucket fuel len (<[write := x']> v) (read + 1) (write + 1)
    else Some (v, write)
  end.

(** [RawVec::dedup_starting_at]. *)
Definition dedup_starting_at (same_bucket : bucket) (starting_point : nat) (v : list T) :
  option (list T) :=
  let len := length v in
  if (len <=? 1) || (len <=? starting_point + 1) then Some v
  else
    '(v, write) ← dedup_loop same_bucket (S len) len v (starting_point + 1) (starting_point + 1);
    Some (take write v).

Definition dedup_by (same_bucket : bucket) (v : list T) : option (list T) :=
  dedup_starting_at same_bucket 0 v.

(** [process_loop::<DELETED>] of [retain_starting_at]: state is the buffer,
    [processed_len] and [deleted_cnt]. *)
Fixpoint process_loop (DELETED : bool) (f : T → bool) (fuel original_len : nat)
  (v : list T) (processed_len deleted_cnt : nat) : option (list T * nat * nat) :=
  match fuel with
  | O => None
  | S fuel =>
    if processed_len =? original_len then Some (v, processed_len, deleted_cnt)
    else
      cur ← v !! processed_len;
      if negb (f cur) then
        if DELETED
        then process_loop DELETED f fuel original_len v (processed_len + 1) (deleted_cnt + 1)
        else Some (v, processed_len + 1, deleted_cnt + 1)
      else
        let v := if DELETED then <[processed_len - deleted_cnt := cur]> v else v in
        process_loop DELETED f fuel original_len v (processed_len + 1) deleted_cnt
  end.

(** The drop guard [BackshiftOnDrop]: shifts the unprocessed tail over the holes. *)
Definition backshift (v : list T) (processed_len deleted_cnt original_len : nat) : list T :=
  let v := if 0 <? deleted_cnt
           then take (processed_len - deleted_cnt) v ++ drop processed_len v else v in
  take (original_len - deleted_cnt) v.

(** [RawVec::retain_starting_at]. *)
Definition retain_starting_at (retain : T → bool) (starting_point : nat) (v : list T) :
  option (list T) :=
  let original_len := length v in
  if (original_len =? 0) || (original_len <=? starting_point) then Some v
  else
    '(v, p, d) ← process_loop false retain (S original_len) original_len v starting_point 0;
    '(v, p, d) ← process_loop true retain (S original_len) original_len v p d;
    Some (backshift v p d original_len).

Definition retain (f : T → bool) (v : list T) : option (list T) := retain_starting_at f 0 v.

Definition truncate (v : list T) (len : nat) : list T := take len v.
End ops.
Arguments bucket : clear implicits.

(** ** Paired versions: [keys] and [payload] of the same length *)
Section paired.
Context {K P : Type}.

Definition zip_same (keys : list K) (payload : list P) : option (list (K * P)) :=
  assert! (length payload =? length keys) in Some (zip keys payload).

(** [dedup_payload_starting_at]. *)
Definition dedup_payload_starting_at (keys : list K) (payload : list P)
  (starting_point : nat) (same_bucket : bucket (K * P)) : option (list K * list P) :=
  v ← zip_same keys payload;
  v ← dedup_starting_at same_bucket starting_point v;
  Some (v.*1, v.*2).

(** [retain_payload_starting_at]. *)
Definition retain_payload_starting_at (keys : list K) (payload : list P)
  (starting_point : nat) (f : K → P → bool) : option (list K * list P) :=
  v ← zip_same keys payload;
  v ← retain_starting_at (uncurry f) starting_point v;
  Some (v.*1, v.*2).
End paired.

(** ** Reference functions *)
Section reference.
Context {T : Type} (same_bucket : bucket T).

(** Folds a run into its first element; [p] is the last element written. *)
Fixpoint dedup_from (p : T) (l : list T) : list T :=
  match l with
  | [] => [p]
  | x :: l =>
    let '(same, (x', p')) := same_bucket x p in
    if same then dedup_from p' l else p' :: dedup_from x' l
  end.

Definition dedup_ref (l : list T) : list T :=
  match l with [] => [] | p :: l => dedup_from p l end.
End reference.

Section theory.
Context {T : Type}.
Implicit Types (v l : list T) (x y : T).

Lemma split_at_lookup v i x : v !! i = Some x → v = take i v ++ x :: drop (S i) v.
Proof. intros Hx. symmetry. by apply take_drop_middle. Qed.

Lemma insert_take_S v i x : i < length v → take (S i) (<[i := x]> v) = take i v ++ [x].
Proof.
  intros Hi. rewrite (take_S_r _ _ x) by by apply list_lookup_insert_eq.
  by rewrite take_insert_ge by lia.
Qed.

(** The loop invariant: everything before [write - 1] is final, [v !! (write - 1)]
    is the pending element and everything from [read] on is untouched. *)
Lemma dedup_loop_spec sb fuel v read write p :
  length v < fuel + read → write ≤ read → read ≤ length v → 0 < write →
  v !! (write - 1) = Some p →
  ∃ v' write', dedup_loop sb fuel (length v) v read write = Some (v', write') ∧
    take write' v' = take (write - 1) v ++ dedup_from sb p (drop read v).
Proof.
  remember (length v) as n eqn:Hn.
  revert v read write p Hn. induction fuel as [|fuel IH]; intros v read write p -> Hf Hwr Hr Hw Hp;
    [lia|].
  cbn [dedup_loop]. destruct (Nat.ltb_spec read (length v)) as [Hlt|Hge].
  - destruct (lookup_lt_is_Some_2 v read Hlt) as [x Hx]. rewrite Hx, Hp. cbn.
    rewrite (drop_S v x read Hx). cbn. destruct (sb x p) as [same [x' p']] eqn:Esb.
    set (v1 := <[write - 1 := p']> (<[read := x']> v)).
    assert (length v1 = length v) as Hlen1 by (unfold v1; by rewrite !length_insert).
    assert (drop (read + 1) v1 = drop (S read) v) as Hdrop1.
    { unfold v1. rewrite !drop_insert_lt by lia. f_equal. lia. }
    assert (take (write - 1) v1 = take (write - 1) v) as Htake1.
    { unfold v1. by rewrite !take_insert_ge by lia. }
    assert (v1 !! (write - 1) = Some p') as Hp1.
    { unfold v1. apply list_lookup_insert_eq. rewrite length_insert. lia. }
    destruct same.
    + destruct (IH v1 (read + 1) write p') as (v'&w'&Hl&Ht); [done|lia..|done|].
      rewrite Hl. exists v', w'. split; [done|]. by rewrite Ht, Htake1, Hdrop1.
    + set (v2 := <[write := x']> v1).
      assert (length v2 = length v) as Hlen2 by (unfold v2; by rewrite length_insert).
      destruct (IH v2 (read + 1) (write + 1) x') as (v'&w'&Hl&Ht); [done|lia..| |].
      { rewrite Nat.add_sub. unfold v2. apply list_lookup_insert_eq. lia. }
      rewrite Hl. exists v', w'. split; [done|]. rewrite Ht, Nat.add_sub.
      assert (take write v2 = take (write - 1) v ++ [p']) as ->.
      { unfold v2. rewrite take_insert_ge by lia.
        replace write with (S (write - 1)) at 1 by lia.
        by rewrite (take_S_r _ _ p') by done; rewrite Htake1. }
      rewrite <- app_assoc. simpl. do 2 f_equal. f_equal. unfold v2.
      by rewrite drop_insert_lt by lia.
  - exists v, write. split; [done|]. rewrite drop_ge by lia. cbn.
    replace write with (S (write - 1)) at 1 by lia. by rewrite (take_S_r _ _ p).
Qed.

Lemma dedup_starting_at_ref sb start v :
  start ≤ length v →
  dedup_starting_at sb start v = Some (take start v ++ dedup_ref sb (drop start v)).
Proof.
  intros Hs. unfold dedup_starting_at.
  destruct ((length v <=? 1) || (length v <=? start + 1)) eqn:E.
  - f_equal. assert (length (drop start v) ≤ 1) as Hl.
    { rewrite length_drop. apply orb_true_iff in E as [E%Nat.leb_le|E%Nat.leb_le]; lia. }
    rewrite <- (take_drop start v) at 1. f_equal.
    destruct (drop start v) as [|x [|]]; simpl in *; [done|done|lia].
  - apply orb_false_iff in E as [E1%Nat.leb_gt E2%Nat.leb_gt].
    destruct (lookup_lt_is_Some_2 v start) as [p Hp]; [lia|].
    destruct (dedup_loop_spec sb (S (length v)) v (start + 1) (start + 1) p) as (v'&w&Hl&Ht);
      [lia..| by rewrite Nat.add_sub |].
    rewrite Hl. cbn [mbind option_bind]. rewrite Ht, Nat.add_sub. rewrite (drop_S v p start Hp).
    cbn. by rewrite Nat.add_1_r.
Qed.

(** The invariant of both stages of [retain]: the kept prefix holds what the
    filter keeps of the processed elements, the rest is untouched. *)
Definition retain_inv (f : T → bool) (start : nat) (v0 v : list T) (p d : nat) : Prop :=
  length v = length v0 ∧ start ≤ p ≤ length v0 ∧ d ≤ p - start ∧
  take (p - d) v = take start v0 ++ List.filter f (take (p - start) (drop start v0)) ∧
  drop p v = drop p v0.

Lemma retain_inv_step f start v0 v p d x :
  retain_inv f start v0 v p d → v !! p = Some x →
  p < length v0 ∧ take (S p - start) (drop start v0) = take (p - start) (drop start v0) ++ [x] ∧
  drop (S p) v = drop (S p) v0.
Proof.
  intros (Hlen&Hp&Hd&Ht&Hdr) Hx. pose proof (lookup_lt_Some _ _ _ Hx).
  assert (v0 !! p = Some x) as Hx0.
  { rewrite <- (Nat.add_0_r p) in Hx |- *. by rewrite <- lookup_drop, <- Hdr, lookup_drop. }
  split_and!; [lia | |].
  - rewrite Nat.sub_succ_l by lia. apply take_S_r. rewrite lookup_drop.
    by replace (start + (p - start)) with p by lia.
  - rewrite (drop_S v x p Hx), (drop_S v0 x p Hx0) in Hdr. congruence.
Qed.

Lemma process_loop_spec b f fuel start v0 v p d :
  length v0 < fuel + p → (b = false → d = 0) → retain_inv f start v0 v p d →
  ∃ v' p' d', process_loop b f fuel (length v0) v p d = Some (v', p', d') ∧
    retain_inv f start v0 v' p' d' ∧ (b = true → p' = length v0).
Proof.
  revert v p d. induction fuel as [|fuel IH]; intros v p d Hf Hb Hinv.
  { destruct Hinv as (?&?&_). lia. }
  cbn [process_loop]. destruct (Nat.eqb_spec p (length v0)) as [->|Hne].
  { exists v, (length v0), d. done. }
  pose proof Hinv as (Hlen&Hp&Hd&Ht&Hdr).
  destruct (lookup_lt_is_Some_2 v p) as [x Hx]; [lia|]. rewrite Hx. cbn [mbind option_bind].
  destruct (retain_inv_step _ _ _ _ _ _ _ Hinv Hx) as (Hlt&Htk&Hdr').
  destruct (f x) eqn:Hfx; simpl.
  - set (v1 := if b then <[p - d := x]> v else v).
    assert (v1 = <[p - d := x]> v) as Hv1.
    { unfold v1. destruct b; [done|]. rewrite (Hb eq_refl), Nat.sub_0_r.
      symmetry. by apply list_insert_id. }
    apply IH; [lia | done |]. rewrite Hv1. unfold retain_inv.
    rewrite length_insert, Nat.add_1_r. split_and!; [done | lia | lia | lia | |].
    + rewrite Nat.sub_succ_l by lia. rewrite insert_take_S by lia. rewrite Ht, Htk.
      rewrite List.filter_app. simpl. rewrite Hfx. by rewrite app_assoc.
    + rewrite drop_insert_lt by lia. done.
  - assert (retain_inv f start v0 v (p + 1) (d + 1)) as Hinv'.
    { unfold retain_inv. rewrite Nat.add_1_r. split_and!; [done | lia | lia | lia | | done].
      replace (S p - (d + 1)) with (p - d) by lia. rewrite Ht, Htk, List.filter_app. simpl.
      rewrite Hfx. by rewrite app_nil_r. }
    destruct b; [apply IH; [lia | done | done]|]. exists v, (p + 1), (d + 1). done.
Qed.

Lemma retain_starting_at_filter f start v :
  start ≤ length v →
  retain_starting_at f start v = Some (take start v ++ List.filter f (drop start v)).
Proof.
  intros Hs. unfold retain_starting_at.
  destruct ((length v =? 0) || (length v <=? start)) eqn:E.
  - assert (start = length v) as ->.
    { apply orb_true_iff in E as [E%Nat.eqb_eq|E%Nat.leb_le]; lia. }
    rewrite drop_all, take_ge by done. by rewrite app_nil_r.
  - destruct (process_loop_spec false f (S (length v)) start v v start 0) as (v1&p1&d1&->&Hi1&_).
    { lia. } { done. }
    { unfold retain_inv. rewrite Nat.sub_0_r, Nat.sub_diag, app_nil_r. split_and!; done || lia. }
    cbn [mbind option_bind].
    destruct (process_loop_spec true f (S (length v)) start v v1 p1 d1) as (v2&p2&d2&->&Hi2&Hp2).
    { lia. } { done. } { done. }
    cbn [mbind option_bind]. rewrite (Hp2 eq_refl) in *. destruct Hi2 as (Hlen&_&Hd&Ht&_).
    f_equal. unfold backshift. rewrite <- (firstn_all (drop start v)), length_drop, <- Ht.
    destruct (Nat.ltb_spec 0 d2); [|done].
    rewrite drop_ge, app_nil_r, take_take by lia. by rewrite Nat.min_id.
Qed.

Lemma dedup_by_ref sb v : dedup_by sb v = Some (dedup_ref sb v).
Proof. unfold dedup_by. by rewrite dedup_starting_at_ref by lia. Qed.

Lemma retain_filter f v : retain f v = Some (List.filter f v).
Proof. unfold retain. by rewrite retain_starting_at_filter by lia. Qed.
End theory.

(** The in-place, two-cursor [dedup_starting_at] and the two-stage
    [retain_starting_at] never read out of range, terminate, leave the prefix
    before the starting point alone and compute, on the rest, the run-folding
    deduplication and the order-preserving filter. *)
Theorem leanvec_inplace_spec {T} (same_bucket : bucket T) (f : T → bool) (start : nat) (v : list T) :
  start ≤ length v →
  dedup_starting_at same_bucket start v = Some (take start v ++ dedup_ref same_bucket (drop start v)) ∧
  retain_starting_at f start v = Some (take start v ++ List.filter f (drop start v)).
Proof. auto using dedup_starting_at_ref, retain_starting_at_filter. Qed.

Lemma leanvec_inplace_witness :
  dedup_starting_at (λ x p, (x =? p, (x, p))) 1 [1; 1; 1; 2; 2; 1] = Some [1; 1; 2; 1] ∧
  retain_starting_at (λ x, x =? 1) 1 [2; 1; 2; 1] = Some [2; 1; 1].
Proof.
  split.
  - exact (proj1 (leanvec_inplace_spec (λ x p, (x =? p, (x, p))) (λ x, x =? 1) 1
                    [1; 1; 1; 2; 2; 1] ltac:(simpl; lia))).
  - exact (proj2 (leanvec_inplace_spec (λ x p, (x =? p, (x, p))) (λ x, x =? 1) 1
                    [2; 1; 2; 1] ltac:(simpl; lia))).
Defined.
