(* ===== verification/Sort.v ===== *)
(** The stable merge sort behind every sorted vector
    (crates/dbsp/src/utils/sort.rs; [unstable_sort_by] in utils.rs forwards to it).

    The code sorts a byte slice of [val_size]-byte elements through raw
    pointers, a scratch slot and a buffer for half of the elements.  The model
    works on the list of elements with the same indices, holes and buffer:
    reading or copying out of range is [None], and so is a merge that would
    overrun the buffer. *)
From Stdlib Require Import Sorting.Sorted.
From S2P Require Import Prelude.
#[local] Open Scope nat_scope.

Section code.
Context {T : Type} (is_less : T → T → bool).
Implicit Types (v buf : list T) (x : T).

(** [v[lo..hi]] passed by mutable reference to [f]. *)
Definition with_slice v (lo hi : nat) (f : list T → option (list T)) : option (list T) :=
  assert! ((lo <=? hi) && (hi <=? length v)) in
  w ← f (take (hi - lo) (drop lo v));
  Some (take lo v ++ w ++ drop hi v).

(** [vec_reverse]: swaps the outer pairs inwards. *)
Definition swap v (i j : nat) : option (list T) :=
  x ← v !! i; y ← v !! j; Some (<[j := x]> (<[i := y]> v)).

Fixpoint vec_reverse_loop (n i : nat) v : option (list T) :=
  match n with
  | O => Some v
  | S n => v ← swap v i (length v - (1 + i)); vec_reverse_loop n (i + 1) v
  end.
Definition vec_reverse v : option (list T) := vec_reverse_loop (length v / 2) 0 v.

(** [for j in (0..(i - 1)).rev()] of [insert_tail]; the hole is at [dest]. *)
Fixpoint insert_tail_loop (scratch : T) (j : nat) v (dest : nat) : option (list T * nat) :=
  match j with
  | O => Some (v, dest)
  | S j =>
    x ← v !! j;
    if negb (is_less scratch x) then Some (v, dest)
    else insert_tail_loop scratch j (<[dest := x]> v) j
  end.

Definition insert_tail v : option (list T) :=
  let i := length v - 1 in
  x ← v !! i;
  p ← v !! (i - 1);
  if is_less x p then
    '(v, dest) ← insert_tail_loop x (i - 1) (<[i := p]> v) (i - 1);
    Some (<[dest := x]> v)
  else Some v.

Fixpoint insertion_loop (n i : nat) v : option (list T) :=
  match n with
  | O => Some v
  | S n => v ← with_slice v 0 (i + 1) insert_tail; insertion_loop n (i + 1) v
  end.
Definition insertion_sort_shift_left v (offset : nat) : option (list T) :=
  assert! (negb (offset =? 0) && (offset <=? length v)) in
  insertion_loop (length v - offset) offset v.

(** The forward loop of [merge]: [left_] indexes [buf] (a copy of the left run),
    [right_] and [out] index [v].  The result is [v] and the hole. *)
Fixpoint merge_lo (fuel : nat) buf v (left_ right_ out : nat) : option (list T * nat * nat) :=
  match fuel with
  | O => None
  | S fuel =>
    if (left_ <? length buf) && (right_ <? length v) then
      r ← v !! right_;
      l ← buf !! left_;
      let is_l := is_less r l in
      let v := <[out := if is_l then r else l]> v in
      merge_lo fuel buf v (if is_l then left_ else left_ + 1)
        (if is_l then right_ + 1 else right_) (out + 1)
    else Some (v, left_, out)
  end.

(** The backward loop: [left_] indexes [v], [right_] indexes [buf] (a copy of the
    right run), both one past the element under consideration. *)
Fixpoint merge_hi (fuel : nat) buf v (left_ right_ out : nat) : option (list T * nat * nat) :=
  match fuel with
  | O => None
  | S fuel =>
    if (0 <? left_) && (0 <? right_) then
      r ← buf !! (right_ - 1);
      l ← v !! (left_ - 1);
      let is_l := is_less r l in
      let left_ := if is_l then left_ - 1 else left_ in
      let right_ := if is_l then right_ else right_ - 1 in
      to_copy ← (if is_l then v !! left_ else buf !! right_);
      merge_hi fuel buf (<[out - 1 := to_copy]> v) left_ right_ (out - 1)
    else Some (v, left_, right_)
  end.

(** [ptr::copy_nonoverlapping(src, v[dest..])]. *)
Definition copy_into v (dest : nat) (src : list T) : option (list T) :=
  assert! (dest + length src <=? length v) in
  Some (take dest v ++ src ++ drop (dest + length src) v).

(** [merge] with a buffer for [cap] elements; the last copy is the drop of
    [MergeHole]. *)
Definition merge (cap : nat) v (mid : nat) : option (list T) :=
  let len := length v in
  if mid <=? len - mid then
    assert! (mid <=? cap) in
    let buf := take mid v in
    '(v, left_, out) ← merge_lo (S len) buf v 0 mid 0;
    copy_into v out (drop left_ buf)
  else
    assert! (len - mid <=? cap) in
    let buf := drop mid v in
    '(v, left_, right_) ← merge_hi (S len) buf v mid (len - mid) len;
    copy_into v left_ (take right_ buf).

(** [find_streak]: the loops extending a descending or ascending streak. *)
Fixpoint streak_loop (n : nat) (descending : bool) v (end_ : nat) : option nat :=
  match n with
  | O => Some end_
  | S n =>
    if end_ <? length v then
      x ← v !! end_;
      p ← v !! (end_ - 1);
      if eqb (is_less x p) descending then streak_loop n descending v (end_ + 1)
      else Some end_
    else Some end_
  end.

Definition find_streak v : option (nat * bool) :=
  if length v <? 2 then Some (length v, false)
  else
    x ← v !! 1;
    p ← v !! 0;
    let assume_reverse := is_less x p in
    end_ ← streak_loop (length v) assume_reverse v 2;
    Some (end_, assume_reverse).

Definition MIN_INSERTION_RUN : nat := 10.

(** [provide_sorted_batch]: the new [v] and [end]. *)
Definition provide_sorted_batch v (start end_ : nat) : option (list T * nat) :=
  let len := length v in
  assert! ((start <=? end_) && (end_ <=? len)) in
  let start_end_diff := end_ - start in
  if (start_end_diff <? MIN_INSERTION_RUN) && (end_ <? len) then
    let end_ := Nat.min (start + MIN_INSERTION_RUN) len in
    let presorted_start := Nat.max start_end_diff 1 in
    v ← with_slice v start end_ (λ w, insertion_sort_shift_left w presorted_start);
    Some (v, end_)
  else Some (v, end_).
End code.

(** ** The stack of runs *)
Record TimSortRun := mkRun { run_start : nat; run_len : nat }.

(** [collapse]: [runs[n - k]] is the [k]-th run from the top of the stack. *)
Definition collapse (runs : list TimSortRun) (stop : nat) : option nat :=
  let n := length runs in
  let rlen k := default 0 (run_len <$> runs !! (n - k)) in
  let rstart k := default 0 (run_start <$> runs !! (n - k)) in
  if (2 <=? n) &&
     ((rstart 1 + rlen 1 =? stop)
      || (rlen 2 <=? rlen 1)
      || ((3 <=? n) && (rlen 3 <=? rlen 2 + rlen 1))
      || ((4 <=? n) && (rlen 4 <=? rlen 3 + rlen 2)))
  then if (3 <=? n) && (rlen 3 <? rlen 1) then Some (n - 3) else Some (n - 2)
  else None.

Section merge_sort.
Context {T : Type} (is_less : T → T → bool).
Implicit Types (v : list T) (runs : list TimSortRun).

(** [RunVec::remove]. *)
Definition run_remove runs (i : nat) : list TimSortRun := take i runs ++ drop (i + 1) runs.

(** [while let Some(r) = collapse(runs, len)]. *)
Fixpoint collapse_loop (fuel cap len : nat) v runs : option (list T * list TimSortRun) :=
  match fuel with
  | O => None
  | S fuel =>
    match collapse runs len with
    | None => Some (v, runs)
    | Some r =>
      left_ ← runs !! r;
      right_ ← runs !! (r + 1);
      v ← with_slice v (run_start left_) (run_start right_ + run_len right_)
            (λ w, merge is_less cap w (run_len left_));
      let runs := <[r + 1 := mkRun (run_start left_) (run_len left_ + run_len right_)]> runs in
      collapse_loop fuel cap len v (run_remove runs r)
    end
  end.

(** [while end < len]; [start = end] whenever the condition is tested. *)
Fixpoint sort_loop (fuel cap : nat) v (end_ : nat) runs : option (list T) :=
  match fuel with
  | O => None
  | S fuel =>
    let len := length v in
    if end_ <? len then
      let start := end_ in
      '(streak_end, was_reversed) ← find_streak is_less (drop start v);
      let end_ := end_ + streak_end in
      v ← (if (was_reversed : bool) then with_slice v start end_ vec_reverse else Some v);
      '(v, end_) ← provide_sorted_batch is_less v start end_;
      let runs := runs ++ [mkRun start (end_ - start)] in
      '(v, runs) ← collapse_loop (S (length runs)) cap len v runs;
      sort_loop fuel cap v end_ runs
    else Some v
  end.

Definition MAX_INSERTION : nat := 20.

Definition merge_sort (val_size : nat) v : option (list T) :=
  if val_size =? 0 then Some v
  else
    let len := length v in
    if len <=? MAX_INSERTION then
      if 2 <=? len then insertion_sort_shift_left is_less v 1 else Some v
    else sort_loop (S len) (len / 2) v 0 [].
End merge_sort.

(** [stable_sort_by]; [size] is [size_of::<T>()]. *)
Definition stable_sort_by {T} (size : nat) (cmp : T → T → comparison) (slice : list T) :
  option (list T) :=
  merge_sort (λ x y, match cmp x y with Lt => true | _ => false end) size slice.

Definition stable_sort `{Ord T} (size : nat) (slice : list T) : option (list T) :=
  stable_sort_by size cmp slice.

(** [unstable_sort_by] and [unstable_sort] of utils.rs. *)
Definition unstable_sort_by {T} (size : nat) (cmp : T → T → comparison) (slice : list T) :
  option (list T) := stable_sort_by size cmp slice.

(** ** Specification: sorted and stable *)

(** What a comparison must satisfy: a strict weak order. *)
Class StrictWeakOrder {T} (less : T → T → bool) : Prop := {
  less_irrefl : ∀ x, less x x = false;
  less_trans : ∀ x y z, less x y = true → less y z = true → less x z = true;
  less_neg_trans : ∀ x y z, less y x = false → less z y = false → less z x = false }.

Section spec.
Context {T : Type} (less : T → T → bool).

(** [x] may precede [y]. *)
Definition le (x y : T) : Prop := less y x = false.
(** Neither precedes the other strictly. *)
Definition eqv (x y : T) : bool := negb (less x y) && negb (less y x).
Definition sorted (l : list T) : Prop := StronglySorted le l.
(** Same elements, and equivalent elements in the same order. *)
Definition stable (l l' : list T) : Prop :=
  ∀ x, List.filter (eqv x) l = List.filter (eqv x) l'.

#[global] Instance stable_equiv : Equivalence stable.
Proof. split; [by intros l x | by intros l l' H x | intros l l' l'' H1 H2 x; congruence]. Qed.

#[global] Instance stable_app : Proper (stable ==> stable ==> stable) app.
Proof. intros l1 l1' H1 l2 l2' H2 x. by rewrite !List.filter_app, H1, H2. Qed.
End spec.

Section theory.
Context {T : Type} (less : T → T → bool) `{!StrictWeakOrder less}.
Implicit Types (l v w : list T) (x y z : T).
Notation "x ≼ y" := (le less x y) (at level 70).
Notation "l ≈ l'" := (stable less l l') (at level 70).

#[global] Instance le_refl : Reflexive (le less).
Proof. intros x. apply less_irrefl. Qed.
#[global] Instance le_trans : Transitive (le less).
Proof. intros x y z. unfold le. intros. by eapply less_neg_trans. Qed.

Lemma less_le x y : less x y = true → x ≼ y.
Proof.
  intros Hxy. unfold le. destruct (less y x) eqn:E; [|done].
  pose proof (less_trans _ _ _ Hxy E) as Hxx. by rewrite (less_irrefl x) in Hxx.
Qed.

Lemma less_le_trans x y z : less x y = true → y ≼ z → less x z = true.
Proof.
  intros Hxy Hyz. destruct (less x z) eqn:E; [done|].
  assert (less x y = false) by (by eapply (less_neg_trans y z x)). congruence.
Qed.

Lemma le_less_trans x y z : x ≼ y → less y z = true → less x z = true.
Proof.
  intros Hxy Hyz. destruct (less x z) eqn:E; [done|].
  assert (less y z = false) by (by eapply (less_neg_trans z x y)). congruence.
Qed.

Lemma less_not_eqv x y : less x y = true → eqv less x y = false ∧ eqv less y x = false.
Proof. intros E. unfold eqv. rewrite E. simpl. by rewrite andb_false_r. Qed.

Lemma eqv_refl x : eqv less x x = true.
Proof. unfold eqv. by rewrite (less_irrefl x). Qed.

Lemma eqv_trans x y z : eqv less x y = true → eqv less x z = true → eqv less y z = true.
Proof.
  unfold eqv. intros [H1 H2]%andb_true_iff [H3 H4]%andb_true_iff.
  rewrite !negb_true_iff in *. apply andb_true_iff. rewrite !negb_true_iff.
  split; eapply less_neg_trans; eassumption.
Qed.

(** Moving an element past elements that are not equivalent to it is stable. *)
Lemma stable_move x l : (∀ y, y ∈ l → eqv less x y = false) → x :: l ≈ l ++ [x].
Proof.
  intros Hl z. rewrite List.filter_app. simpl. destruct (eqv less z x) eqn:E;
    [|by rewrite app_nil_r].
  assert (List.filter (eqv less z) l = []) as ->; [|done].
  induction l as [|y l IH]; simpl; [done|]. destruct (eqv less z y) eqn:Ey.
  - assert (eqv less x y = true) as Exy by (by eapply eqv_trans).
    rewrite Hl in Exy by left. done.
  - apply IH. intros. apply Hl. by right.
Qed.

Lemma stable_nil_inv l : [] ≈ l → l = [].
Proof.
  intros Hs. destruct l as [|x l]; [done|]. specialize (Hs x). simpl in Hs.
  by rewrite eqv_refl in Hs.
Qed.

Lemma filter_cons_split (f : T → bool) l x m :
  List.filter f l = x :: m →
  ∃ l1 l2, l = l1 ++ x :: l2 ∧ List.filter f l1 = [] ∧ List.filter f l2 = m.
Proof.
  induction l as [|y l IH]; simpl; [done|]. destruct (f y) eqn:E.
  - intros [= -> <-]. by exists [], l.
  - intros (l1&l2&->&H1&H2)%IH. exists (y :: l1), l2. simpl. rewrite E. done.
Qed.

(** A stable rearrangement is a permutation. *)
Lemma stable_perm l l' : l ≈ l' → l ≡ₚ l'.
Proof.
  revert l'. induction l as [|x l IH]; intros l' Hs.
  - by rewrite (stable_nil_inv _ Hs).
  - pose proof (Hs x) as Hx. simpl in Hx.
    rewrite eqv_refl in Hx. symmetry in Hx.
    apply filter_cons_split in Hx as (l1&l2&->&H1&H2).
    rewrite <- Permutation_middle. constructor. apply IH. intros z.
    specialize (Hs z). simpl in Hs. rewrite List.filter_app in *. simpl in Hs.
    destruct (eqv less z x) eqn:E; [|done].
    assert (List.filter (eqv less z) l1 = []) as Hz.
    { clear -H1 E StrictWeakOrder0. induction l1 as [|y l1 IH]; simpl in *; [done|].
      destruct (eqv less x y) eqn:Ey; [done|].
      destruct (eqv less z y) eqn:Ezy; [|auto].
      by rewrite (eqv_trans z x y) in Ey. }
    rewrite Hz in *. simpl in *. congruence.
Qed.

Lemma sorted_nil : sorted less [].
Proof. constructor. Qed.
Lemma sorted_singleton x : sorted less [x].
Proof. repeat constructor. Qed.

Lemma sorted_app l1 l2 :
  sorted less (l1 ++ l2) ↔
  sorted less l1 ∧ sorted less l2 ∧ (∀ x y, x ∈ l1 → y ∈ l2 → x ≼ y).
Proof. apply StronglySorted_app. Qed.

Lemma sorted_cons x l : sorted less (x :: l) ↔ sorted less l ∧ (∀ y, y ∈ l → x ≼ y).
Proof.
  unfold sorted. split.
  - intros Hs. inv Hs. split; [done|]. intros. by eapply Forall_forall.
  - intros []. constructor; [done|]. by apply Forall_forall.
Qed.

Lemma sorted_snoc l x : sorted less (l ++ [x]) ↔ sorted less l ∧ (∀ y, y ∈ l → y ≼ x).
Proof.
  rewrite sorted_app. split.
  - intros (?&_&Hc). split; [done|]. intros. apply Hc; [done | left].
  - intros []. split_and!; [done | apply sorted_singleton |].
    intros a b Ha ->%list_elem_of_singleton. auto.
Qed.

(** *** Slices *)
Lemma with_slice_spec v lo hi f w :
  lo ≤ hi → hi ≤ length v → f (take (hi - lo) (drop lo v)) = Some w →
  with_slice v lo hi f = Some (take lo v ++ w ++ drop hi v).
Proof.
  intros H1 H2 Hf. unfold with_slice.
  rewrite (proj2 (Nat.leb_le lo hi)), (proj2 (Nat.leb_le hi _)) by done. simpl. by rewrite Hf.
Qed.

Lemma slice_split v lo hi :
  lo ≤ hi → take lo v ++ take (hi - lo) (drop lo v) ++ drop hi v = v.
Proof.
  intros Hle. rewrite <- (take_drop lo v) at 4. f_equal.
  rewrite <- (take_drop (hi - lo) (drop lo v)) at 2. f_equal.
  rewrite drop_drop. f_equal. lia.
Qed.

(** *** Reversal *)
Lemma swap_spec v i j x y :
  v !! i = Some x → v !! j = Some y → swap v i j = Some (<[j := x]> (<[i := y]> v)).
Proof. intros Hx Hy. unfold swap. by rewrite Hx; simpl; rewrite Hy. Qed.

Lemma vec_reverse_loop_spec n l m r :
  n = length m / 2 → length l = length r →
  vec_reverse_loop n (length l) (l ++ m ++ r) = Some (l ++ reverse m ++ r).
Proof.
  revert l m r. induction n as [|n IH]; intros l m r Hn Hlr.
  - destruct m as [|x [|y m]]; [done | done |]. exfalso. simpl length in Hn.
    pose proof (Nat.Div0.div_le_mono 2 (S (S (length m))) 2 ltac:(lia)) as Hd.
    change (2 / 2) with 1 in Hd. lia.
  - destruct m as [|x m]; [done|].
    destruct m as [|y m' _] using rev_ind; [done|].
    assert (n = length m' / 2) as Hn'.
    { simpl length in Hn. rewrite length_app in Hn. simpl length in Hn.
      replace (S (length m' + 1)) with (length m' + 1 * 2) in Hn by lia.
      rewrite Nat.div_add in Hn by lia. lia. }
    cbn [vec_reverse_loop].
    replace (length (l ++ (x :: m' ++ [y]) ++ r) - (1 + length l)) with (length l + S (length m'))
      by (rewrite !length_app; simpl; rewrite length_app; simpl; lia).
    erewrite swap_spec; cycle 1.
    { by apply list_lookup_middle. }
    { simpl. rewrite lookup_app_r by lia.
      replace (length l + S (length m') - length l) with (S (length m')) by lia. simpl.
      rewrite <- app_assoc. by apply list_lookup_middle. }
    simpl.
    replace (<[length l + S (length m'):=x]> (<[length l:=y]> (l ++ x :: (m' ++ [y]) ++ r)))
      with ((l ++ [y]) ++ m' ++ ([x] ++ r)).
    + replace (length l + 1) with (length (l ++ [y])) by (rewrite length_app; simpl; lia).
      rewrite IH; [|done | rewrite length_app; simpl; lia].
      f_equal. rewrite <- !app_assoc. simpl. f_equal.
      rewrite reverse_cons, reverse_app. simpl. by rewrite <- app_assoc.
    + rewrite insert_app_r_alt by lia. rewrite Nat.sub_diag. simpl.
      rewrite insert_app_r_alt by lia.
      replace (length l + S (length m') - length l) with (S (length m')) by lia. simpl.
      rewrite <- !app_assoc. simpl. do 2 f_equal.
      rewrite insert_app_r_alt by lia. by rewrite Nat.sub_diag.
Qed.

Lemma vec_reverse_spec v : vec_reverse v = Some (reverse v).
Proof.
  unfold vec_reverse. pose proof (vec_reverse_loop_spec (length v / 2) [] v [] eq_refl eq_refl) as H.
  simpl in H. by rewrite !app_nil_r in H.
Qed.

(** *** Insertion *)
(** The hole invariant: [v] without slot [dest] is the original list. *)
Lemma insert_tail_loop_spec x j v l :
  j < length v → take j v ++ drop (S j) v = l →
  (∀ y, y ∈ drop (S j) v → less x y = true) → sorted less l →
  ∃ v' dest, insert_tail_loop less x j v j = Some (v', dest) ∧ dest < length v' ∧
    take dest v' ++ drop (S dest) v' = l ∧
    (∀ y, y ∈ drop (S dest) v' → less x y = true) ∧
    (∀ y, y ∈ take dest v' → y ≼ x).
Proof.
  revert v. induction j as [|j IH]; intros v Hj Hl Hlt Hs; simpl.
  { exists v, 0. split_and!; [done | done | done | done |]. simpl. set_solver. }
  destruct (lookup_lt_is_Some_2 v j) as [y Hy]; [lia|]. rewrite Hy. cbn [mbind option_bind].
  destruct (less x y) eqn:E; simpl.
  - assert (drop (S j) (<[S j := y]> v) = y :: drop (S (S j)) v) as Hd.
    { rewrite drop_insert_ge by lia. rewrite Nat.sub_diag.
      destruct (lookup_lt_is_Some_2 v (S j)) as [z Hz]; [lia|].
      by rewrite (drop_S v z (S j) Hz). }
    apply IH.
    + rewrite length_insert. lia.
    + rewrite take_insert_ge by lia. rewrite Hd, <- Hl. rewrite (take_S_r _ _ _ Hy).
      by rewrite <- app_assoc.
    + intros z. rewrite Hd. intros [->|Hz]%elem_of_cons; auto.
    + done.
  - exists v, (S j). split_and!; [done | done | done | done |].
    intros z Hz. rewrite (take_S_r _ _ _ Hy) in *.
    rewrite <- Hl in Hs. apply sorted_app in Hs as (Hs&_&_). apply sorted_snoc in Hs as [_ Hs].
    apply elem_of_app in Hz as [Hz| ->%list_elem_of_singleton]; [|done].
    transitivity y; [auto | done].
Qed.

Lemma insert_tail_spec l x :
  l ≠ [] → sorted less l →
  ∃ w, insert_tail less (l ++ [x]) = Some w ∧ sorted less w ∧ w ≈ l ++ [x].
Proof.
  intros Hne Hs. destruct l as [|p l _] using rev_ind; [done|]. unfold insert_tail.
  assert (length ((l ++ [p]) ++ [x]) - 1 = S (length l)) as ->
    by (rewrite !length_app; simpl; lia).
  assert (((l ++ [p]) ++ [x]) !! S (length l) = Some x) as ->.
  { apply list_lookup_middle. rewrite length_app. simpl. lia. }
  assert (((l ++ [p]) ++ [x]) !! (S (length l) - 1) = Some p) as ->.
  { rewrite <- app_assoc. apply list_lookup_middle. lia. }
  cbn [mbind option_bind]. replace (S (length l) - 1) with (length l) by lia.
  destruct (less x p) eqn:E.
  - assert (<[S (length l) := p]> ((l ++ [p]) ++ [x]) = l ++ [p; p]) as ->.
    { rewrite insert_app_r_alt by (rewrite length_app; simpl; lia).
      replace (S (length l) - length (l ++ [p])) with 0 by (rewrite length_app; simpl; lia).
      simpl. by rewrite <- app_assoc. }
    assert (drop (S (length l)) (l ++ [p; p]) = [p]) as Hd.
    { rewrite drop_app_ge by lia. by replace (S (length l) - length l) with 1 by lia. }
    destruct (insert_tail_loop_spec x (length l) (l ++ [p; p]) (l ++ [p]))
      as (v'&dest&Hl&Hdest&Heq&Hlt&Hle).
    { rewrite length_app. simpl. lia. }
    { by rewrite Hd, take_app_length. }
    { intros y. rewrite Hd. by intros ->%list_elem_of_singleton. }
    { done. }
    rewrite Hl. cbn [mbind option_bind]. eexists. split; [done|].
    rewrite insert_take_drop by done. rewrite <- Heq in Hs |- *.
    apply sorted_app in Hs as (Hs1&Hs2&Hs12). split.
    + apply sorted_app. split_and!; [done | |].
      * apply sorted_cons. split; [done|]. intros. by apply less_le, Hlt.
      * intros a b Ha [->|Hb]%elem_of_cons; auto.
    + rewrite <- app_assoc. apply stable_app; [done|]. apply stable_move.
      intros y Hy. by destruct (less_not_eqv x y (Hlt y Hy)).
  - eexists. split; [done|]. split; [|done]. apply sorted_snoc. split; [done|].
    apply sorted_snoc in Hs as [_ Hs].
    intros y [Hy| ->%list_elem_of_singleton]%elem_of_app; [|done]. transitivity p; [auto|done].
Qed.

Lemma insertion_loop_spec n i v :
  0 < i → i + n = length v → sorted less (take i v) →
  ∃ w, insertion_loop less n i v = Some w ∧ sorted less w ∧ w ≈ v.
Proof.
  revert i v. induction n as [|n IH]; intros i v Hi Hlen Hs; simpl.
  { exists v. split_and!; [done | | done]. by rewrite take_ge in Hs by lia. }
  destruct (lookup_lt_is_Some_2 v i) as [x Hx]; [lia|].
  destruct (insert_tail_spec (take i v) x) as (w&Hw&Hsw&Hst).
  { intros Hn%(f_equal length). rewrite length_take in Hn. simpl in Hn. lia. }
  { done. }
  rewrite <- (take_S_r _ _ _ Hx) in Hw, Hst.
  rewrite (with_slice_spec v 0 (i + 1) _ w); [|lia|lia|].
  2: { rewrite Nat.sub_0_r, drop_0, Nat.add_1_r. done. }
  cbn [mbind option_bind]. rewrite take_0. simpl.
  assert (length w = i + 1) as Hlw.
  { rewrite (Permutation_length (stable_perm _ _ Hst)), length_take. lia. }
  destruct (IH (i + 1) (w ++ drop (i + 1) v)) as (w'&Hw'&Hs'&Hst').
  { lia. } { rewrite length_app, length_drop. lia. }
  { rewrite take_app_le by lia. by rewrite take_ge by lia. }
  exists w'. split_and!; [done | done |]. rewrite Hst', Hst.
  by rewrite Nat.add_1_r, take_drop.
Qed.

Lemma insertion_sort_shift_left_spec v offset :
  0 < offset → offset ≤ length v → sorted less (take offset v) →
  ∃ w, insertion_sort_shift_left less v offset = Some w ∧ sorted less w ∧ w ≈ v.
Proof.
  intros H1 H2 Hs. unfold insertion_sort_shift_left.
  destruct (Nat.eqb_spec offset 0) as [|_]; [lia|].
  rewrite (proj2 (Nat.leb_le _ _) H2). simpl. apply insertion_loop_spec; [done | lia | done].
Qed.

(** *** Merging *)
(** Three consecutive segments in order, of which the outer one ([p], done) bounds
    the two still to be merged, and a stable rearrangement of [l0]. *)
Definition merging (l0 p l r : list T) : Prop :=
  sorted less p ∧ sorted less l ∧ sorted less r ∧
  (∀ x y, x ∈ p → y ∈ l ++ r → x ≼ y) ∧ p ++ l ++ r ≈ l0.

Lemma merging_left l0 p x l y r :
  merging l0 p (x :: l) (y :: r) → less y x = false → merging l0 (p ++ [x]) l (y :: r).
Proof.
  intros (Hp&Hl&Hr&Hb&Hst) E. apply sorted_cons in Hl as [Hl Hxl].
  pose proof (proj1 (sorted_cons _ _) Hr) as [_ Hyr].
  split_and!; [| done | done | | by rewrite <- app_assoc].
  - apply sorted_snoc. split; [done|]. intros. apply Hb; [done|]. left.
  - intros a b [Ha| ->%list_elem_of_singleton]%elem_of_app Hb'.
    + apply Hb; [done|]. right. done.
    + apply elem_of_app in Hb' as [Hb'|[->|Hb']%elem_of_cons]; [auto | done |].
      transitivity y; [done | auto].
Qed.

Lemma merging_right l0 p x l y r :
  merging l0 p (x :: l) (y :: r) → less y x = true → merging l0 (p ++ [y]) (x :: l) r.
Proof.
  intros (Hp&Hl&Hr&Hb&Hst) E. apply sorted_cons in Hr as [Hr Hyr].
  pose proof (proj1 (sorted_cons _ _) Hl) as [_ Hxl].
  assert (∀ z, z ∈ x :: l → less y z = true) as Hlt.
  { intros z [->|Hz]%elem_of_cons; [done|]. eapply less_le_trans; [done | auto]. }
  split_and!; [| done | done | |].
  - apply sorted_snoc. split; [done|]. intros. apply Hb; [done|]. set_solver.
  - intros a b [Ha| ->%list_elem_of_singleton]%elem_of_app Hb'.
    + apply Hb; [done|]. set_solver.
    + apply elem_of_app in Hb' as [Hb'|Hb']; [by apply less_le, Hlt | auto].
  - rewrite <- Hst, <- app_assoc. apply stable_app; [done|].
    change (y :: r) with ([y] ++ r). rewrite !app_assoc. apply stable_app; [|done].
    apply (stable_move y (x :: l)). intros z Hz. by destruct (less_not_eqv y z (Hlt z Hz)).
Qed.

Lemma merging_done l0 p l r :
  merging l0 p l r → l = [] ∨ r = [] → sorted less (p ++ l ++ r) ∧ p ++ l ++ r ≈ l0.
Proof.
  intros (Hp&Hl&Hr&Hb&Hst) He. split; [|done]. apply sorted_app. split_and!; [done | | done].
  destruct He as [-> | ->]; simpl; [done | by rewrite app_nil_r].
Qed.

Lemma merge_lo_spec fuel l0 buf v left_ right_ out :
  length buf + length v < fuel + left_ + right_ →
  length buf ≤ right_ ≤ length v → left_ ≤ length buf → out = left_ + (right_ - length buf) →
  merging l0 (take out v) (drop left_ buf) (drop right_ v) →
  ∃ v' left' out' w, merge_lo less fuel buf v left_ right_ out = Some (v', left', out') ∧
    copy_into v' out' (drop left' buf) = Some w ∧ sorted less w ∧ w ≈ l0.
Proof.
  revert v left_ right_ out. induction fuel as [|fuel IH]; intros v lft rgt out Hf Hr Hl -> Hm; [lia|].
  cbn [merge_lo]. set (out := lft + (rgt - length buf)) in *.
  destruct ((lft <? length buf) && (rgt <? length v)) eqn:E.
  - apply andb_true_iff in E as [E1%Nat.ltb_lt E2%Nat.ltb_lt].
    destruct (lookup_lt_is_Some_2 v rgt E2) as [y Hy].
    destruct (lookup_lt_is_Some_2 buf lft E1) as [x Hx]. rewrite Hy, Hx. cbn [mbind option_bind].
    rewrite (drop_S _ _ _ Hx), (drop_S _ _ _ Hy) in Hm.
    assert (out < rgt) as Hout by (unfold out; lia).
    destruct (less y x) eqn:Eyx.
    + apply merging_right in Hm; [|done]. apply IH; rewrite ?length_insert; [lia.. | unfold out; lia |].
      rewrite Nat.add_1_r, (take_S_r _ _ y) by (apply list_lookup_insert_eq; lia).
      rewrite take_insert_ge by lia. rewrite drop_insert_lt by lia. rewrite Nat.add_1_r.
      by rewrite (drop_S _ _ _ Hx).
    + apply merging_left in Hm; [|done]. apply IH; rewrite ?length_insert; [lia.. | unfold out; lia |].
      rewrite Nat.add_1_r, (take_S_r _ _ x) by (apply list_lookup_insert_eq; lia).
      rewrite take_insert_ge by lia. rewrite drop_insert_lt by lia.
      by rewrite Nat.add_1_r, (drop_S _ _ _ Hy).
  - exists v, lft, out, (take out v ++ drop lft buf ++ drop rgt v).
    split; [done|]. unfold copy_into. rewrite length_drop.
    replace (out + (length buf - lft)) with rgt by (unfold out; lia).
    rewrite (proj2 (Nat.leb_le _ _)) by lia. split; [done|]. apply merging_done; [done|].
    apply andb_false_iff in E as [E%Nat.ltb_ge|E%Nat.ltb_ge];
      [left | right]; by apply drop_ge.
Qed.

(** The mirror image of [merging]: the segment done is on the right. *)
Definition merging_back (l0 l r q : list T) : Prop :=
  sorted less l ∧ sorted less r ∧ sorted less q ∧
  (∀ x y, x ∈ l ++ r → y ∈ q → x ≼ y) ∧ l ++ r ++ q ≈ l0.

Lemma merging_back_left l0 l x r y q :
  merging_back l0 (l ++ [x]) (r ++ [y]) q → less y x = true →
  merging_back l0 l (r ++ [y]) (x :: q).
Proof.
  intros (Hl&Hr&Hq&Hb&Hst) E. apply sorted_snoc in Hl as [Hl Hlx].
  pose proof (proj1 (sorted_snoc _ _) Hr) as [_ Hry].
  assert (∀ z, z ∈ r ++ [y] → less z x = true) as Hlt.
  { intros z [Hz| ->%list_elem_of_singleton]%elem_of_app; [|done].
    eapply le_less_trans; [by apply Hry | done]. }
  split_and!; [done | done | | |].
  - apply sorted_cons. split; [done|]. intros. apply Hb; [|done]. set_solver.
  - intros a b Ha [->|Hb']%elem_of_cons.
    + apply elem_of_app in Ha as [Ha|Ha]; [auto | by apply less_le, Hlt].
    + apply Hb; [|done]. set_solver.
  - rewrite <- Hst, <- (app_assoc l [x]). apply stable_app; [done|].
    change (x :: q) with ([x] ++ q). rewrite !app_assoc. apply stable_app; [|done].
    symmetry. apply (stable_move x (r ++ [y])).
    intros z Hz. by destruct (less_not_eqv z x (Hlt z Hz)).
Qed.

Lemma merging_back_right l0 l x r y q :
  merging_back l0 (l ++ [x]) (r ++ [y]) q → less y x = false →
  merging_back l0 (l ++ [x]) r (y :: q).
Proof.
  intros (Hl&Hr&Hq&Hb&Hst) E. apply sorted_snoc in Hr as [Hr Hry].
  pose proof (proj1 (sorted_snoc _ _) Hl) as [_ Hlx].
  split_and!; [done | done | | | by rewrite <- (app_assoc r [y] q) in Hst].
  - apply sorted_cons. split; [done|]. intros. apply Hb; [|done]. set_solver.
  - intros a b Ha [->|Hb']%elem_of_cons; [|apply Hb; [set_solver | done]].
    apply elem_of_app in Ha as [[Ha| ->%list_elem_of_singleton]%elem_of_app|Ha];
      [|done|auto]. transitivity x; [auto | done].
Qed.

Lemma merging_back_done l0 l r q :
  merging_back l0 l r q → l = [] ∨ r = [] → sorted less (l ++ r ++ q) ∧ l ++ r ++ q ≈ l0.
Proof.
  intros (Hl&Hr&Hq&Hb&Hst) He. split; [|done]. rewrite app_assoc. apply sorted_app.
  split_and!; [|done|done]. destruct He as [-> | ->]; simpl; [done | by rewrite app_nil_r].
Qed.

Lemma take_pred (l : list T) n x : l !! (n - 1) = Some x → 0 < n → take n l = take (n - 1) l ++ [x].
Proof.
  intros Hx Hn. replace n with (S (n - 1)) at 1 by lia. by apply take_S_r.
Qed.

Lemma merge_hi_spec fuel l0 buf v left_ right_ out :
  left_ + right_ < fuel → out = left_ + right_ → right_ ≤ length buf → out ≤ length v →
  merging_back l0 (take left_ v) (take right_ buf) (drop out v) →
  ∃ v' left' right' w, merge_hi less fuel buf v left_ right_ out = Some (v', left', right') ∧
    copy_into v' left' (take right' buf) = Some w ∧ sorted less w ∧ w ≈ l0.
Proof.
  revert v left_ right_ out. induction fuel as [|fuel IH]; intros v lft rgt out Hf -> Hr Hv Hm; [lia|].
  cbn [merge_hi]. destruct ((0 <? lft) && (0 <? rgt)) eqn:E.
  - apply andb_true_iff in E as [E1%Nat.ltb_lt E2%Nat.ltb_lt].
    destruct (lookup_lt_is_Some_2 buf (rgt - 1)) as [y Hy]; [lia|].
    destruct (lookup_lt_is_Some_2 v (lft - 1)) as [x Hx]; [lia|].
    rewrite Hy, Hx. cbn [mbind option_bind].
    rewrite (take_pred v lft x), (take_pred buf rgt y) in Hm by done.
    assert (∀ z, drop (lft + rgt - 1) (<[lft + rgt - 1 := z]> v) = z :: drop (lft + rgt) v) as Hd.
    { intros z. rewrite (drop_S _ z) by (apply list_lookup_insert_eq; lia).
      rewrite drop_insert_lt by lia. do 2 f_equal. lia. }
    destruct (less y x) eqn:Eyx.
    + apply merging_back_left in Hm; [|done]. rewrite Hx. cbn [mbind option_bind].
      apply IH; rewrite ?length_insert; [lia.. |].
      rewrite Hd, take_insert_ge by lia. by rewrite (take_pred buf rgt y).
    + apply merging_back_right in Hm; [|done]. rewrite Hy. cbn [mbind option_bind].
      apply IH; rewrite ?length_insert; [lia.. |].
      rewrite Hd, take_insert_ge by lia. by rewrite (take_pred v lft x).
  - exists v, lft, rgt, (take lft v ++ take rgt buf ++ drop (lft + rgt) v).
    split; [done|]. unfold copy_into. rewrite length_take, Nat.min_l by done.
    rewrite (proj2 (Nat.leb_le _ _)) by lia. split; [done|]. apply merging_back_done; [done|].
    apply andb_false_iff in E as [E%Nat.ltb_ge|E%Nat.ltb_ge]; [left | right].
    + by replace lft with 0 by lia.
    + by replace rgt with 0 by lia.
Qed.

Lemma merge_spec cap l r :
  Nat.min (length l) (length r) ≤ cap → sorted less l → sorted less r →
  ∃ w, merge less cap (l ++ r) (length l) = Some w ∧ sorted less w ∧ w ≈ l ++ r.
Proof.
  intros Hcap Hl Hr. unfold merge. rewrite length_app.
  replace (length l + length r - length l) with (length r) by lia.
  rewrite take_app_length, drop_app_length.
  destruct (Nat.leb_spec (length l) (length r)) as [Hle|Hlt].
  - rewrite (proj2 (Nat.leb_le _ _)) by lia.
    destruct (merge_lo_spec (S (length l + length r)) (l ++ r) l (l ++ r) 0 (length l) 0)
      as (v'&lft&out&w&Hm&Hc&Hw); rewrite ?length_app; [lia.. | |].
    { rewrite take_0, drop_0, drop_app_length. split_and!; [apply sorted_nil|done|done| |done].
      set_solver. }
    rewrite Hm. cbn [mbind option_bind]. eauto.
  - rewrite (proj2 (Nat.leb_le _ _)) by lia.
    destruct (merge_hi_spec (S (length l + length r)) (l ++ r) r (l ++ r)
      (length l) (length r) (length l + length r))
      as (v'&lft&rgt&w&Hm&Hc&Hw); rewrite ?length_app; [lia.. | |].
    { rewrite take_app_length, firstn_all, drop_ge by (rewrite length_app; lia).
      split_and!; [done|done|apply sorted_nil|set_solver|by rewrite app_nil_r]. }
    rewrite Hm. cbn [mbind option_bind]. eauto.
Qed.
(** *** Natural runs *)
(** Every element is ([d]) or is not strictly below all the earlier ones. *)
Definition streak (d : bool) l : Prop := StronglySorted (λ x y, less y x = d) l.

Lemma streak_snoc d l p x :
  streak d (l ++ [p]) → less x p = d → streak d ((l ++ [p]) ++ [x]).
Proof.
  intros Hs Hx. pose proof Hs as (Hl&_&Hlp)%StronglySorted_app. apply StronglySorted_app.
  split_and!; [done | repeat constructor |].
  intros a b [Ha| ->%list_elem_of_singleton]%elem_of_app ->%list_elem_of_singleton; [|done].
  assert (less p a = d) as Hp by (apply Hlp; [done | left]).
  destruct d; [by eapply less_trans | by eapply (less_neg_trans a p x)].
Qed.

Lemma streak_take_snoc d v e x p :
  0 < e → v !! e = Some x → v !! (e - 1) = Some p → less x p = d →
  streak d (take e v) → streak d (take (e + 1) v).
Proof.
  intros He Hx Hp Hd Hs. rewrite Nat.add_1_r, (take_S_r _ _ _ Hx).
  rewrite (take_pred v e p) in * by done. by apply streak_snoc.
Qed.

Lemma streak_loop_spec n d v e :
  0 < e ≤ length v → streak d (take e v) →
  ∃ e', streak_loop less n d v e = Some e' ∧ e ≤ e' ≤ length v ∧ streak d (take e' v).
Proof.
  revert e. induction n as [|n IH]; intros e He Hs; simpl.
  { exists e. split_and!; [done | lia | lia | done]. }
  destruct (Nat.ltb_spec e (length v)) as [Hlt|Hge].
  2: { exists e. split_and!; [done | lia | lia | done]. }
  destruct (lookup_lt_is_Some_2 v e) as [x Hx]; [lia|].
  destruct (lookup_lt_is_Some_2 v (e - 1)) as [p Hp]; [lia|].
  rewrite Hx, Hp. cbn [mbind option_bind]. destruct (eqb (less x p) d) eqn:E.
  - apply eqb_prop in E. destruct (IH (e + 1)) as (e'&He'&Hle&Hs'); [lia| |].
    { by eapply streak_take_snoc; [lia|..]. }
    exists e'. split_and!; [done | lia | lia | done].
  - exists e. split_and!; [done | lia | lia | done].
Qed.

Lemma find_streak_spec v :
  v ≠ [] →
  ∃ e d, find_streak less v = Some (e, d) ∧ 0 < e ≤ length v ∧ streak d (take e v).
Proof.
  intros Hne. destruct v as [|x [|y v]]; [done | |].
  { exists 1, false. unfold find_streak. simpl. split_and!; [done | lia | lia | repeat constructor]. }
  unfold find_streak. rewrite (proj2 (Nat.ltb_ge _ _)) by (simpl; lia).
  cbn [lookup list_lookup mbind option_bind].
  destruct (streak_loop_spec (length (x :: y :: v)) (less y x) (x :: y :: v) 2) as (e&He&Hle&Hs).
  { simpl. lia. }
  { simpl. repeat constructor. }
  rewrite He. cbn [mbind option_bind]. exists e, (less y x). split_and!; [done | lia | lia | done].
Qed.

(** A descending streak is strict, so that reversing it is stable. *)
Lemma streak_reverse l : streak true l → sorted less (reverse l) ∧ reverse l ≈ l.
Proof.
  induction 1 as [|x l Hs [IH1 IH2] Hx]; [split; [apply sorted_nil | done]|].
  rewrite Forall_forall in Hx. rewrite reverse_cons. split.
  - apply sorted_snoc. split; [done|]. intros y Hy. rewrite elem_of_reverse in Hy. by apply less_le, Hx.
  - rewrite IH2. symmetry. apply stable_move. intros y Hy.
    by destruct (less_not_eqv y x (Hx y Hy)).
Qed.

(** *** Runs *)
Fixpoint runs_of (start : nat) (segs : list (list T)) : list TimSortRun :=
  match segs with
  | [] => []
  | s :: segs => mkRun start (length s) :: runs_of (start + length s) segs
  end.

Lemma length_runs_of start segs : length (runs_of start segs) = length segs.
Proof. revert start. induction segs; intros; simpl; auto. Qed.

Lemma runs_of_app start s1 s2 :
  runs_of start (s1 ++ s2) = runs_of start s1 ++ runs_of (start + length (concat s1)) s2.
Proof.
  revert start. induction s1 as [|s s1 IH]; intros start; simpl; [by rewrite Nat.add_0_r|].
  rewrite IH, length_app. do 3 f_equal. lia.
Qed.

Lemma collapse_lt runs stop r : collapse runs stop = Some r → r + 1 < length runs.
Proof.
  unfold collapse. set (n := length runs). intros E.
  destruct (Nat.leb_spec 2 n), (Nat.leb_spec 3 n); cbn [andb] in E;
    repeat case_match; simplify_eq; lia.
Qed.

Lemma collapse_top runs stop t :
  2 ≤ length runs → runs !! (length runs - 1) = Some t → run_start t + run_len t = stop →
  collapse runs stop ≠ None.
Proof.
  unfold collapse. intros H2 -> <-. cbn [fmap option_fmap option_map default from_option id].
  rewrite (proj2 (Nat.leb_le _ _) H2), Nat.eqb_refl. cbn [andb orb]. by case_match.
Qed.

(** When the top run ends at the end of the slice the stack collapses to one run. *)
Lemma collapse_none segs :
  collapse (runs_of 0 segs) (length (concat segs)) = None → length segs ≤ 1.
Proof.
  destruct segs as [|s segs _] using rev_ind; [simpl; lia|]. intros Hc.
  destruct (Nat.leb_spec (length (segs ++ [s])) 1) as [|H2]; [done|].
  exfalso. eapply collapse_top; [by rewrite length_runs_of | | |exact Hc].
  - rewrite length_runs_of, runs_of_app. simpl.
    apply list_lookup_middle. rewrite length_app, length_runs_of. simpl. lia.
  - rewrite concat_app, length_app. simpl. by rewrite app_nil_r.
Qed.

Lemma run_remove_middle (l : list TimSortRun) a b r :
  run_remove (<[length l + 1 := b]> (l ++ a :: r)) (length l) = l ++ <[0 := b]> r.
Proof.
  unfold run_remove. rewrite insert_app_r_alt by lia.
  replace (length l + 1 - length l) with 1 by lia. simpl.
  rewrite take_app_length, drop_app_ge by lia. by replace (length l + 1 - length l) with 1 by lia.
Qed.

Definition good_runs (segs : list (list T)) : Prop := Forall (sorted less) segs.

Lemma with_slice_app (p m r w : list T) f lo hi :
  lo = length p → hi = length p + length m → f m = Some w →
  with_slice (p ++ m ++ r) lo hi f = Some (p ++ w ++ r).
Proof.
  intros -> -> Hf. rewrite (with_slice_spec _ _ _ _ w); [|lia|rewrite !length_app; lia|].
  - rewrite take_app_length. do 3 f_equal. rewrite app_assoc, drop_app_ge; rewrite length_app; [|lia].
    by rewrite Nat.sub_diag.
  - rewrite drop_app_length. replace (length p + length m - length p) with (length m) by lia.
    by rewrite take_app_length.
Qed.

Lemma split_two {A} (l : list A) r :
  r + 1 < length l → ∃ (l1 : list A) (a b : A) (l2 : list A), l = l1 ++ a :: b :: l2 ∧ r = length l1.
Proof.
  intros Hr. destruct (lookup_lt_is_Some_2 l r) as [a Ha]; [lia|].
  destruct (lookup_lt_is_Some_2 l (S r)) as [b Hb]; [lia|].
  exists (take r l), a, b, (drop (S (S r)) l). rewrite length_take, Nat.min_l by lia. split; [|done].
  by rewrite <- (drop_S _ _ _ Hb), <- (drop_S _ _ _ Ha), take_drop.
Qed.

(** The runs around two neighbours, and the two themselves as the stack has them. *)
Lemma runs_of_two (s1 s2 : list (list T)) (a b : list T) :
  let st := length (concat s1) in
  let runs := runs_of 0 (s1 ++ a :: b :: s2) in
  runs = runs_of 0 s1 ++ mkRun st (length a) :: mkRun (st + length a) (length b)
           :: runs_of (st + length a + length b) s2 ∧
  runs !! length s1 = Some (mkRun st (length a)) ∧
  runs !! (length s1 + 1) = Some (mkRun (st + length a) (length b)).
Proof.
  intros st runs. assert (runs = runs_of 0 s1 ++ mkRun st (length a) :: mkRun (st + length a) (length b)
    :: runs_of (st + length a + length b) s2) as -> by (unfold runs; by rewrite runs_of_app).
  split; [done|]. split; [apply list_lookup_middle; by rewrite length_runs_of|].
  rewrite (cons_middle (mkRun st (length a))), app_assoc. apply list_lookup_middle.
  rewrite length_app, length_runs_of. simpl. lia.
Qed.

(** Merging two neighbouring runs in place. *)
Lemma merge_runs_spec v (s1 s2 : list (list T)) (a b rest : list T) :
  v = concat (s1 ++ a :: b :: s2) ++ rest → sorted less a → sorted less b →
  let st := length (concat s1) in
  ∃ w, with_slice v st (st + length a + length b) (λ w, merge less (length v / 2) w (length a))
         = Some (concat (s1 ++ w :: s2) ++ rest) ∧
    sorted less w ∧ w ≈ a ++ b ∧ length w = length a + length b.
Proof.
  intros Hv Ha Hb st.
  assert (v = concat s1 ++ (a ++ b) ++ concat s2 ++ rest) as Hv'
    by (rewrite Hv, concat_app; simpl; by rewrite <- !app_assoc).
  assert (length v = st + (length a + length b) + length (concat s2 ++ rest)) as Hlen
    by (rewrite Hv'; rewrite !length_app; unfold st; lia).
  destruct (merge_spec (length v / 2) a b) as (w&Hw&Hsw&Hst); [|done..|].
  { pose proof (Nat.Div0.div_le_mono (Nat.min (length a) (length b) * 2) (length v) 2 ltac:(lia)).
    by rewrite Nat.div_mul in * by lia. }
  assert (length w = length a + length b) as Hlw
    by (rewrite (Permutation_length (stable_perm _ _ Hst)), length_app; done).
  exists w. split_and!; [|done..]. rewrite Hv' at 1.
  rewrite <- Nat.add_assoc, <- (length_app a b). unfold st.
  rewrite (with_slice_app _ _ _ w); [|done..].
  rewrite concat_app. simpl. by rewrite <- !app_assoc.
Qed.

Lemma collapse_loop_spec fuel v segs rest :
  v = concat segs ++ rest → length segs < fuel → good_runs segs →
  ∃ segs', collapse_loop less fuel (length v / 2) (length v) v (runs_of 0 segs)
             = Some (concat segs' ++ rest, runs_of 0 segs') ∧
    good_runs segs' ∧ concat segs' ≈ concat segs ∧
    collapse (runs_of 0 segs') (length v) = None.
Proof.
  revert v segs. induction fuel as [|fuel IH]; intros v segs Hv Hf Hg; [lia|].
  cbn [collapse_loop]. destruct (collapse _ _) as [r|] eqn:Ec.
  2: { exists segs. rewrite <- Hv. split_and!; try done. }
  apply collapse_lt in Ec. rewrite length_runs_of in Ec.
  destruct (split_two segs r Ec) as (s1&a&b&s2&->&->).
  apply Forall_app in Hg as [Hg1 [Ha [Hb Hg2]%Forall_cons]%Forall_cons].
  destruct (runs_of_two s1 s2 a b) as (Hruns&->&->). cbn [mbind option_bind run_start run_len].
  destruct (merge_runs_spec v s1 s2 a b rest Hv Ha Hb) as (w&->&Hsw&Hst&Hlw). cbn [mbind option_bind].
  rewrite Hruns, <- (length_runs_of 0 s1), run_remove_middle. cbn [insert list_insert].
  assert (length (concat (s1 ++ w :: s2) ++ rest) = length v) as Hl2
    by (rewrite Hv, !concat_app; simpl; rewrite !length_app; lia).
  destruct (IH _ (s1 ++ w :: s2) eq_refl) as (segs'&Hc&Hg'&Hst'&Hn).
  { rewrite !length_app in *. simpl in *. lia. }
  { apply Forall_app. split; [done|]. by constructor. }
  rewrite Hl2 in Hc, Hn. exists segs'. split_and!; [|done| |done].
  - rewrite <- Hc. f_equal. rewrite runs_of_app. simpl. rewrite Hlw. do 3 f_equal. lia.
  - rewrite Hst', !concat_app. simpl. apply stable_app; [done|]. rewrite app_assoc.
    by apply stable_app.
Qed.

(** A run that is too short is extended by insertion. *)
Lemma provide_sorted_batch_spec (p m r : list T) :
  m ≠ [] → sorted less m →
  ∃ m' r', provide_sorted_batch less (p ++ m ++ r) (length p) (length p + length m)
             = Some (p ++ m' ++ r', length p + length m') ∧
    sorted less m' ∧ m' ++ r' ≈ m ++ r ∧ length m ≤ length m'.
Proof.
  intros Hne Hs. unfold provide_sorted_batch.
  assert (0 < length m) as Hm by (destruct m; simpl; [done | lia]).
  rewrite !(length_app p), (length_app m).
  rewrite (proj2 (Nat.leb_le (length p) _)), (proj2 (Nat.leb_le (length p + length m) _)) by lia.
  cbn [andb]. replace (length p + length m - length p) with (length m) by lia.
  destruct ((length m <? MIN_INSERTION_RUN) && _) eqn:E; [|by exists m, r].
  apply andb_true_iff in E as [E1%Nat.ltb_lt E2%Nat.ltb_lt].
  set (n := Nat.min (MIN_INSERTION_RUN - length m) (length r)).
  destruct (insertion_sort_shift_left_spec (m ++ take n r) (Nat.max (length m) 1))
    as (w&Hw&Hsw&Hst); [lia | rewrite length_app; lia | |].
  { rewrite Nat.max_l by lia. by rewrite take_app_length. }
  assert (length w = length m + n) as Hlw.
  { rewrite (Permutation_length (stable_perm _ _ Hst)), length_app, length_take. unfold n. lia. }
  exists w, (drop n r). rewrite <- (take_drop n r) at 1. rewrite (app_assoc m).
  rewrite (with_slice_app _ _ _ w); [|done| |done].
  2: { rewrite length_app, length_take. unfold n. lia. }
  cbn [mbind option_bind]. split_and!; [|done| |lia].
  - do 2 f_equal. unfold n in Hlw. lia.
  - rewrite Hst, <- app_assoc. by rewrite take_drop.
Qed.

(** The streak found is reversed in place when it is descending. *)
Lemma reverse_streak_spec (p rest : list T) e (d : bool) :
  e ≤ length rest → streak d (take e rest) →
  ∃ m, (if d then with_slice (p ++ rest) (length p) (length p + e) vec_reverse else Some (p ++ rest))
       = Some (p ++ m ++ drop e rest) ∧ sorted less m ∧ m ≈ take e rest ∧ length m = e.
Proof.
  intros He Hs.
  assert (∃ m, (if d then with_slice (p ++ rest) (length p) (length p + e) vec_reverse else Some (p ++ rest))
       = Some (p ++ m ++ drop e rest) ∧ sorted less m ∧ m ≈ take e rest) as (m&?&?&Hst).
  { destruct d.
    - apply streak_reverse in Hs as [Hs1 Hs2]. exists (reverse (take e rest)).
      split_and!; [|done..]. rewrite <- (take_drop e rest) at 1.
      apply with_slice_app; [done | rewrite length_take; lia | apply vec_reverse_spec].
    - exists (take e rest). by rewrite take_drop. }
  exists m. split_and!; [done..|]. rewrite (Permutation_length (stable_perm _ _ Hst)), length_take. lia.
Qed.

Lemma sort_loop_spec fuel segs rest :
  length rest < fuel → good_runs segs → (rest = [] → length segs ≤ 1) →
  ∃ w, sort_loop less fuel (length (concat segs ++ rest) / 2) (concat segs ++ rest)
         (length (concat segs)) (runs_of 0 segs) = Some w ∧
    sorted less w ∧ w ≈ concat segs ++ rest.
Proof.
  revert segs rest. induction fuel as [|fuel IH]; intros segs rest Hf Hg Hone; [lia|].
  cbn [sort_loop]. destruct (Nat.ltb_spec (length (concat segs)) (length (concat segs ++ rest)))
    as [Hlt|Hge]; rewrite length_app in *.
  2: { assert (rest = []) as -> by (destruct rest; [done | simpl in *; lia]).
       exists (concat segs ++ []). split_and!; [done| |done]. rewrite app_nil_r.
       specialize (Hone eq_refl). destruct segs as [|s [|]]; [constructor | | simpl in *; lia].
       simpl. rewrite app_nil_r. by inv Hg. }
  rewrite drop_app_length.
  destruct (find_streak_spec rest) as (e&d&He&Hle&Hs); [intros ->; simpl in *; lia|].
  rewrite He. cbn [mbind option_bind].
  destruct (reverse_streak_spec (concat segs) rest e d) as (m&Hm&Hsm&Hstm&Hlm); [lia | done |].
  rewrite Hm. cbn [mbind option_bind].
  replace (length (concat segs) + e) with (length (concat segs) + length m) by lia.
  destruct (provide_sorted_batch_spec (concat segs) m (drop e rest)) as (m'&r'&Hp&Hs'&Hst'&Hl');
    [intros ->; simpl in *; lia | done |].
  rewrite Hp. cbn [mbind option_bind].
  replace (length (concat segs) + length m' - length (concat segs)) with (length m') by lia.
  replace (runs_of 0 segs ++ _) with (runs_of 0 (segs ++ [m'])) by (by rewrite runs_of_app).
  assert (m' ++ r' ≈ rest) as Hrest by (rewrite Hst', Hstm; by rewrite take_drop).
  pose proof (Permutation_length (stable_perm _ _ Hrest)) as Hlr. rewrite length_app in Hlr.
  assert (concat (segs ++ [m']) = concat segs ++ m') as Hcc
    by (rewrite concat_app; simpl; by rewrite app_nil_r).
  destruct (collapse_loop_spec (S (length (runs_of 0 (segs ++ [m']))))
    (concat segs ++ m' ++ r') (segs ++ [m']) r') as (segs'&Hc&Hg'&Hsts&Hnone).
  { by rewrite Hcc, <- app_assoc. }
  { rewrite length_runs_of. lia. }
  { apply Forall_app. split; [done | by constructor]. }
  rewrite !length_app, Hlr in Hc. rewrite Hc. cbn [mbind option_bind].
  pose proof (Permutation_length (stable_perm _ _ Hsts)) as Hls.
  rewrite Hcc, length_app in Hls. rewrite <- Hls.
  destruct (IH segs' r') as (w&Hw&Hsw&Hstw); [lia | done | |].
  - intros ->. rewrite app_nil_r, <- Hcc in Hnone. apply collapse_none.
    rewrite <- Hnone. f_equal. rewrite Hls, Hcc, length_app. done.
  - exists w. split_and!; [|done|].
    + rewrite <- Hw. f_equal. rewrite length_app. f_equal. lia.
    + rewrite Hstw, Hsts, Hcc, <- app_assoc. by apply stable_app.
Qed.

Lemma merge_sort_spec val_size v :
  val_size ≠ 0 → ∃ w, merge_sort less val_size v = Some w ∧ sorted less w ∧ w ≈ v.
Proof.
  intros Hsz. unfold merge_sort. rewrite (proj2 (Nat.eqb_neq _ _) Hsz).
  destruct (Nat.leb_spec (length v) MAX_INSERTION) as [Hle|Hlt].
  - destruct (Nat.leb_spec 2 (length v)).
    + apply insertion_sort_shift_left_spec; [lia..|].
      destruct v; [simpl in *; lia|]. simpl. repeat constructor.
    + exists v. split_and!; [done | | done]. destruct v as [|x [|]]; [apply sorted_nil |
        apply sorted_singleton | simpl in *; lia].
  - apply (sort_loop_spec (S (length v)) [] v); [lia | constructor | simpl; lia].
Qed.

(** Sortedness and stability leave no choice. *)
Lemma sorted_stable_unique l l' : sorted less l → sorted less l' → l ≈ l' → l = l'.
Proof.
  revert l'. induction l as [|x l IH]; intros l' Hs Hs' Hst.
  { by rewrite (stable_nil_inv _ Hst). }
  pose proof (stable_perm _ _ Hst) as Hp.
  destruct l' as [|y l']; [by apply Permutation_nil_r in Hp|].
  assert (eqv less x y = true) as Hxy.
  { assert (y ∈ x :: l) as Hy by (rewrite Hp; left).
    assert (x ∈ y :: l') as Hx by (rewrite <- Hp; left).
    unfold eqv. apply andb_true_iff. rewrite !negb_true_iff.
    apply sorted_cons in Hs as [_ Hs], Hs' as [_ Hs'].
    apply elem_of_cons in Hy as [->|Hy]; [by rewrite (less_irrefl x)|].
    apply elem_of_cons in Hx as [->|Hx]; [by rewrite (less_irrefl y)|].
    split; [apply (Hs' x Hx) | apply (Hs y Hy)]. }
  assert (x = y) as <-.
  { specialize (Hst x). simpl in Hst. rewrite eqv_refl, Hxy in Hst. congruence. }
  f_equal. apply sorted_cons in Hs as [Hs _], Hs' as [Hs' _]. apply IH; [done..|].
  intros z. specialize (Hst z). simpl in Hst. destruct (eqv less z x); congruence.
Qed.
End theory.

(** *** The comparisons the callers use *)
#[global] Instance cmp_strict_weak `{Ord K} {T} (key : T → K) :
  StrictWeakOrder (λ x y, match cmp (key x) (key y) with Lt => true | _ => false end).
Proof.
  assert (∀ a b : K, (match cmp a b with Lt => true | _ => false end) = false ↔ ¬ a ≺ b) as Hn
    by (intros a b; unfold klt; destruct (cmp a b); naive_solver).
  split.
  - intros x. by rewrite cmp_refl.
  - intros x y z. destruct (cmp (key x) (key y)) eqn:E1, (cmp (key y) (key z)) eqn:E2; try done.
    by rewrite (cmp_lt_trans _ _ _ E1 E2).
  - intros x y z. rewrite !Hn. intros Hyx Hzy Hzx.
    destruct (klt_trichotomy (key y) (key x)) as [?|[E|Hxy]]; [done| |].
    + by rewrite E in Hzy.
    + apply Hzy. by etrans.
Qed.

(** C11. [stable_sort_by] (and [unstable_sort_by], which forwards to it) returns for every
    slice of elements of non-zero size: no index leaves the slice or the current run, no
    merge overruns the buffer of [len / 2] elements, and every loop ends, the stack of runs
    collapsing to one run.  The result is sorted, is a permutation of the input in which
    equivalent elements keep their order, and is the only such list. *)
Theorem stable_sort_by_spec {T} (size : nat) (cmp : T → T → comparison)
    (less := λ x y, match cmp x y with Lt => true | _ => false end)
    `{!StrictWeakOrder less} (slice : list T) :
  size ≠ 0 →
  ∃ w, stable_sort_by size cmp slice = Some w ∧ unstable_sort_by size cmp slice = Some w ∧
    sorted less w ∧ w ≡ₚ slice ∧ stable less w slice ∧
    (∀ w', sorted less w' → stable less w' slice → w' = w).
Proof.
  intros Hsz. destruct (merge_sort_spec less size slice Hsz) as (w&Hw&Hs&Hst).
  exists w. split_and!; [done | done | done | by apply (stable_perm less) | done |].
  intros w' Hs' Hst'. apply (sorted_stable_unique less); [done..|]. by rewrite Hst, Hst'.
Qed.

#[global] Instance Ord_nat : Ord nat.
Proof.
  refine {| cmp := Nat.compare |}; [apply Nat.compare_eq_iff | intros; apply Nat.compare_antisym |].
  intros x y z. rewrite !Nat.compare_lt_iff. lia.
Defined.

(** Pairs sorted by their first component; 25 elements take the run-merging path. *)
Definition sort_example : list (nat * nat) :=
  zip [5;3;3;9;1;0;7;7;2;8;6;4;5;5;9;1;3;2;2;0;8;7;6;5;4] (seq 0 25).

Lemma stable_sort_by_witness :
  8 ≠ 0 ∧ ∃ w, stable_sort_by 8 (λ x y : nat * nat, cmp x.1 y.1) sort_example = Some w ∧
    w ≡ₚ sort_example ∧ w !! 0 = Some (0, 5) ∧ w !! 1 = Some (0, 19) ∧ w !! 24 = Some (9, 14).
Proof.
  split; [lia|].
  destruct (@stable_sort_by_spec _ 8 (λ x y : nat * nat, cmp x.1 y.1)
    (cmp_strict_weak (K:=nat) fst) sort_example) as (w&Hw&_&_&Hp&_); [lia|].
  exists w. split; [exact Hw|]. split; [exact Hp|].
  vm_compute in Hw. injection Hw as <-. repeat split; reflexivity.
Defined.
