(* ===== verification/Quicksort.v ===== *)
(** The pattern-defeating quicksort that arranges a payload along with its keys
    (crates/dbsp/src/utils/consolidation/quicksort.rs).

    The code keeps two slices of the same length and moves [v[i]] and [v2[i]]
    together; the model works on the list of pairs, with the code's indices.  A read
    or write out of range, a subtraction below zero and a write past the block of
    offsets are [None], so that a theorem that a routine returns also says that its
    unchecked accesses are in bounds. *)
From Stdlib Require Import Sorting.Sorted.
From S2P Require Import Prelude Machine Sort.
#[local] Open Scope nat_scope.

(** *** Breaking patterns *)
(** [gen_u32]: Marsaglia's xorshift; [gen_usize] on a 64-bit target. *)
Definition gen_u32 (random : Z) : Z :=
  let random := Z.lxor random (wrap u32 (Z.shiftl random 13)) in
  let random := Z.lxor random (Z.shiftr random 17) in
  Z.lxor random (wrap u32 (Z.shiftl random 5)).
Definition gen_usize (random : Z) : Z * Z :=
  let hi := gen_u32 random in
  let lo := gen_u32 hi in
  (Z.lor (Z.shiftl hi 32) lo, lo).
Definition next_power_of_two (n : Z) : Z := 2 ^ Z.log2_up n.

Fixpoint break_loop {A} (n i : nat) (v : list A) (pos : nat) (random : Z) : option (list A) :=
  match n with
  | O => Some v
  | S n =>
    let len := length v in
    let '(g, random) := gen_usize random in
    let other := Z.to_nat (Z.land g (next_power_of_two (Z.of_nat len) - 1)) in
    let other := if len <=? other then other - len else other in
    v ← swap v (pos - 1 + i) other;
    break_loop n (i + 1) v pos random
  end.
Definition break_patterns {A} (v : list A) : option (list A) :=
  let len := length v in
  if 8 <=? len then break_loop 3 0 v (len / 4 * 2) (wrap u32 (Z.of_nat len)) else Some v.

Section code.
Context {T R : Type} (is_less : T → T → bool).
Implicit Types (v : list (T * R)) (x tmp : T * R) (pivot : T).

(** [is_less] on the keys of two slots. *)
Definition less (x y : T * R) : bool := is_less x.1 y.1.

(** The loop of [shift_head]; the hole is at [dest]. *)
Fixpoint shift_head_loop tmp (n i : nat) v (dest : nat) : option (list (T * R) * nat) :=
  match n with
  | O => Some (v, dest)
  | S n =>
    x ← v !! i;
    if negb (less x tmp) then Some (v, dest)
    else shift_head_loop tmp n (i + 1) (<[i - 1 := x]> v) i
  end.

Definition shift_head v : option (list (T * R)) :=
  let len := length v in
  if 2 <=? len then
    x1 ← v !! 1;
    x0 ← v !! 0;
    if less x1 x0 then
      '(v, dest) ← shift_head_loop x0 (len - 2) 2 (<[0 := x1]> v) 1;
      Some (<[dest := x0]> v)
    else Some v
  else Some v.

(** [shift_tail]: the same moves as [insert_tail] of utils/sort.rs, on both slices. *)
Definition shift_tail v : option (list (T * R)) :=
  if 2 <=? length v then insert_tail less v else Some v.

Definition MAX_STEPS : nat := 5.
Definition SHORTEST_SHIFTING : nat := 50.

(** [while i < len && !is_less(v[i], v[i - 1])]. *)
Fixpoint skip_ordered (n : nat) v (i : nat) : option nat :=
  match n with
  | O => Some i
  | S n =>
    if i <? length v then
      x ← v !! i;
      p ← v !! (i - 1);
      if negb (less x p) then skip_ordered n v (i + 1) else Some i
    else Some i
  end.

Fixpoint partial_insertion_loop (steps : nat) v (i : nat) : option (list (T * R) * bool) :=
  match steps with
  | O => Some (v, false)
  | S steps =>
    let len := length v in
    i ← skip_ordered (len - i) v i;
    if i =? len then Some (v, true)
    else if len <? SHORTEST_SHIFTING then Some (v, false)
    else
      v ← swap v (i - 1) i;
      v ← with_slice v 0 i shift_tail;
      v ← with_slice v i len shift_head;
      partial_insertion_loop steps v i
  end.
Definition partial_insertion_sort v : option (list (T * R) * bool) :=
  partial_insertion_loop MAX_STEPS v 1.

Fixpoint insertion_sort_loop (n i : nat) v : option (list (T * R)) :=
  match n with
  | O => Some v
  | S n => v ← with_slice v 0 (i + 1) shift_tail; insertion_sort_loop n (i + 1) v
  end.
Definition insertion_sort v : option (list (T * R)) := insertion_sort_loop (length v - 1) 1 v.

(** *** Heapsort *)
Fixpoint sift_down (fuel : nat) v (node : nat) : option (list (T * R)) :=
  match fuel with
  | O => None
  | S fuel =>
    let child := 2 * node + 1 in
    if length v <=? child then Some v
    else
      child ← (if child + 1 <? length v then
                 x ← v !! child; y ← v !! (child + 1);
                 Some (child + (if less x y then 1 else 0))
               else Some child);
      x ← v !! node;
      y ← v !! child;
      if negb (less x y) then Some v
      else v ← swap v node child; sift_down fuel v child
  end.

(** [for i in (0..v.len() / 2).rev()]. *)
Fixpoint heapify (n : nat) v : option (list (T * R)) :=
  match n with
  | O => Some v
  | S i => v ← sift_down (S (length v)) v i; heapify i v
  end.

(** [for i in (1..v.len()).rev()]. *)
Fixpoint pop_all (n : nat) v : option (list (T * R)) :=
  match n with
  | S ((S _) as i) =>
    v ← swap v 0 i;
    v ← with_slice v 0 i (λ w, sift_down (S (length w)) w 0);
    pop_all i v
  | _ => Some v
  end.

Definition heapsort v : option (list (T * R)) :=
  v ← heapify (length v / 2) v;
  pop_all (length v) v.

(** *** Partitioning by blocks *)
Definition BLOCK : nat := 128.
(** [i as u8]. *)
Definition as_u8 (i : nat) : nat := i mod 256.

(** Tracing a block: the offsets collected between [start] and [end].  The slot at
    [end] is written in every iteration, so that it must be inside the array. *)
Fixpoint trace_l pivot v (n i elem : nat) (offsets : list nat) : option (list nat) :=
  match n with
  | O => Some offsets
  | S n =>
    assert! (length offsets <? BLOCK) in
    x ← v !! elem;
    trace_l pivot v n (i + 1) (elem + 1)
      (if negb (is_less x.1 pivot) then offsets ++ [as_u8 i] else offsets)
  end.
Fixpoint trace_r pivot v (n i elem : nat) (offsets : list nat) : option (list nat) :=
  match n with
  | O => Some offsets
  | S n =>
    assert! (0 <? elem) in
    assert! (length offsets <? BLOCK) in
    x ← v !! (elem - 1);
    trace_r pivot v n (i + 1) (elem - 1)
      (if is_less x.1 pivot then offsets ++ [as_u8 i] else offsets)
  end.

(** [left!()] and [right!()]. *)
Definition left_at (l : nat) (start_l : list nat) : option nat := o ← head start_l; Some (l + o).
Definition right_at (r : nat) (start_r : list nat) : option nat :=
  o ← head start_r; assert! (o + 1 <=? r) in Some (r - (o + 1)).
(** [ptr::copy_nonoverlapping(src, dst, 1)]. *)
Definition copy1 v (src dst : nat) : option (list (T * R)) :=
  x ← v !! src; assert! ((dst <? length v) && negb (src =? dst)) in Some (<[dst := x]> v).

(** The cyclic permutation: [for _ in 1..count] and the steps around it. *)
Fixpoint cycle_loop (n : nat) v (l r : nat) (start_l start_r : list nat) :
  option (list (T * R) * list nat * list nat) :=
  match n with
  | O => Some (v, start_l, start_r)
  | S n =>
    let start_l := tail start_l in
    a ← left_at l start_l; b ← right_at r start_r;
    v ← copy1 v a b;
    let start_r := tail start_r in
    b ← right_at r start_r;
    v ← copy1 v b a;
    cycle_loop n v l r start_l start_r
  end.
Definition cycle (count : nat) v (l r : nat) (start_l start_r : list nat) :
  option (list (T * R) * list nat * list nat) :=
  if 0 <? count then
    a ← left_at l start_l; b ← right_at r start_r;
    tmp ← v !! a;
    v ← copy1 v b a;
    '(v, start_l, start_r) ← cycle_loop (count - 1) v l r start_l start_r;
    b ← right_at r start_r;
    Some (<[b := tmp]> v, tail start_l, tail start_r)
  else Some (v, start_l, start_r).

Definition nonempty (l : list nat) : bool := match l with [] => false | _ => true end.

(** The sizes of the last blocks. *)
Definition last_blocks (l r block_l block_r : nat) (ol or : list nat) : option (nat * nat) :=
  let rem := r - l in
  rem ← (if nonempty ol || nonempty or then assert! (BLOCK <=? rem) in Some (rem - BLOCK)
         else Some rem);
  Some (if nonempty ol then (block_l, rem)
        else if nonempty or then (rem, block_r)
        else (rem / 2, rem - rem / 2)).

(** The loop over blocks; [ol] and [or] are the offsets from [start] to [end]. *)
Fixpoint blocks_loop (fuel : nat) pivot v (l r block_l block_r : nat) (ol or : list nat) :
  option (list (T * R) * nat * nat * list nat * list nat) :=
  match fuel with
  | O => None
  | S fuel =>
    let is_done := r - l <=? 2 * BLOCK in
    '(block_l, block_r) ← (if is_done then last_blocks l r block_l block_r ol or
                           else Some (block_l, block_r));
    ol ← (if nonempty ol then Some ol else trace_l pivot v block_l 0 l []);
    or ← (if nonempty or then Some or else trace_r pivot v block_r 0 r []);
    let count := Nat.min (length ol) (length or) in
    '(v, ol, or) ← cycle count v l r ol or;
    let l := if nonempty ol then l else l + block_l in
    r ← (if nonempty or then Some r else assert! (block_r <=? r) in Some (r - block_r));
    if is_done then Some (v, l, r, ol, or)
    else blocks_loop fuel pivot v l r block_l block_r ol or
  end.

(** The offsets that remain in the left block, from [end_l] down. *)
Fixpoint finish_left (n : nat) v (l r : nat) (ol : list nat) : option (list (T * R) * nat) :=
  match n with
  | O => Some (v, r)
  | S n =>
    o ← last ol;
    assert! (1 <=? r) in
    v ← swap v (l + o) (r - 1);
    finish_left n v l (r - 1) (take (length ol - 1) ol)
  end.
Fixpoint finish_right (n : nat) v (l r : nat) (or : list nat) : option (list (T * R) * nat) :=
  match n with
  | O => Some (v, l)
  | S n =>
    o ← last or;
    assert! (o + 1 <=? r) in
    v ← swap v l (r - (o + 1));
    finish_right n v (l + 1) r (take (length or - 1) or)
  end.

Definition partition_in_blocks v pivot : option (list (T * R) * nat) :=
  '(v, l, r, ol, or) ← blocks_loop (S (length v)) pivot v 0 (length v) BLOCK BLOCK [] [];
  if nonempty ol then finish_left (length ol) v l r ol
  else if nonempty or then finish_right (length or) v l r or
  else Some (v, l).

(** *** Partitioning around a pivot *)
(** [while l < r && is_less(v[l], pivot)]; [p] is the condition on the key. *)
Fixpoint scan_up (n : nat) (p : T → bool) v (l r : nat) : option nat :=
  match n with
  | O => Some l
  | S n =>
    if l <? r then
      x ← v !! l;
      if p x.1 then scan_up n p v (l + 1) r else Some l
    else Some l
  end.
Fixpoint scan_down (n : nat) (p : T → bool) v (l r : nat) : option nat :=
  match n with
  | O => Some r
  | S n =>
    if l <? r then
      x ← v !! (r - 1);
      if p x.1 then scan_down n p v l (r - 1) else Some r
    else Some r
  end.

(** [partition]: the slice, the position of the pivot, and whether it was partitioned. *)
Definition partition v (pivot : nat) : option (list (T * R) * nat * bool) :=
  v ← swap v 0 pivot;
  '(x, w) ← (match v with [] => None | x :: w => Some (x, w) end);
  let pivot := x.1 in
  l ← scan_up (length w) (λ k, is_less k pivot) w 0 (length w);
  r ← scan_down (length w) (λ k, negb (is_less k pivot)) w l (length w);
  assert! ((l <=? r) && (r <=? length w)) in
  '(s, m) ← partition_in_blocks (take (r - l) (drop l w)) pivot;
  let w := take l w ++ s ++ drop r w in
  let mid := l + m in
  v ← swap (x :: w) 0 mid;
  Some (v, mid, r <=? l).

Fixpoint partition_equal_loop (fuel : nat) pivot v (l r : nat) : option (list (T * R) * nat) :=
  match fuel with
  | O => None
  | S fuel =>
    l ← scan_up (length v) (λ k, negb (is_less pivot k)) v l r;
    r ← scan_down (length v) (λ k, is_less pivot k) v l r;
    if r <=? l then Some (v, l)
    else
      let r := r - 1 in
      v ← swap v l r;
      partition_equal_loop fuel pivot v (l + 1) r
  end.
Definition partition_equal v (pivot : nat) : option (list (T * R) * nat) :=
  v ← swap v 0 pivot;
  '(x, w) ← (match v with [] => None | x :: w => Some (x, w) end);
  '(w, l) ← partition_equal_loop (S (length w)) x.1 w 0 (length w);
  Some (x :: w, l + 1).

(** *** Choosing the pivot *)
(** [sort2], [sort3] and [sort_adjacent] sort indices and count the swaps. *)
Definition sort2 v (a b swaps : nat) : option (nat * nat * nat) :=
  y ← v !! b;
  x ← v !! a;
  Some (if less y x then (b, a, swaps + 1) else (a, b, swaps)).
Definition sort3 v (a b c swaps : nat) : option (nat * nat * nat * nat) :=
  '(a, b, swaps) ← sort2 v a b swaps;
  '(b, c, swaps) ← sort2 v b c swaps;
  '(a, b, swaps) ← sort2 v a b swaps;
  Some (a, b, c, swaps).
Definition sort_adjacent v (a swaps : nat) : option (nat * nat) :=
  assert! (1 <=? a) in
  '(_, a, _, swaps) ← sort3 v (a - 1) a (a + 1) swaps;
  Some (a, swaps).

Definition SHORTEST_MEDIAN_OF_MEDIANS : nat := 50.
Definition MAX_SWAPS : nat := 4 * 3.

(** [choose_pivot]: the slice (possibly reversed), the index, and the guess. *)
Definition choose_pivot v : option (list (T * R) * nat * bool) :=
  let len := length v in
  let a := len / 4 in
  let b := len / 4 * 2 in
  let c := len / 4 * 3 in
  '(b, swaps) ←
    (if 8 <=? len then
       '(a, b, c, swaps) ←
         (if SHORTEST_MEDIAN_OF_MEDIANS <=? len then
            '(a, swaps) ← sort_adjacent v a 0;
            '(b, swaps) ← sort_adjacent v b swaps;
            '(c, swaps) ← sort_adjacent v c swaps;
            Some (a, b, c, swaps)
          else Some (a, b, c, 0));
       '(_, b, _, swaps) ← sort3 v a b c swaps;
       Some (b, swaps)
     else Some (b, 0));
  if swaps <? MAX_SWAPS then Some (v, b, swaps =? 0)
  else assert! (1 + b <=? len) in Some (reverse v, len - 1 - b, true).

(** *** The main loop *)
Definition QUICK_MAX_INSERTION : nat := 20.

(** [recurse]: one call is one iteration of its loop, with the loop's variables; a
    [continue] is the call on the rest of the slice. *)
Fixpoint recurse (fuel : nat) v (pred : option T) (limit : nat)
    (was_balanced was_partitioned : bool) : option (list (T * R)) :=
  match fuel with
  | O => None
  | S fuel =>
    let len := length v in
    if len <=? QUICK_MAX_INSERTION then insertion_sort v
    else if limit =? 0 then heapsort v
    else
      '(v, limit) ← (if negb was_balanced then v ← break_patterns v; Some (v, limit - 1)
                     else Some (v, limit));
      '(v, pivot, likely_sorted) ← choose_pivot v;
      '(v, done) ← (if was_balanced && was_partitioned && likely_sorted
                    then partial_insertion_sort v else Some (v, false));
      if (done : bool) then Some v
      else
        x ← v !! pivot;
        if match pred with Some p => negb (is_less p x.1) | None => false end then
          '(v, mid) ← partition_equal v pivot;
          assert! (mid <=? length v) in
          w ← recurse fuel (drop mid v) pred limit was_balanced was_partitioned;
          Some (take mid v ++ w)
        else
          '(v, mid, was_p) ← partition v pivot;
          assert! (mid <=? len) in
          let was_balanced := len / 8 <=? Nat.min mid (len - mid) in
          pivot ← v !! mid;
          let left_ := take mid v in
          let right_ := drop (mid + 1) v in
          if length left_ <? length right_ then
            left_ ← recurse fuel left_ pred limit true true;
            right_ ← recurse fuel right_ (Some pivot.1) limit was_balanced was_p;
            Some (left_ ++ pivot :: right_)
          else
            right_ ← recurse fuel right_ (Some pivot.1) limit true true;
            left_ ← recurse fuel left_ pred limit was_balanced was_p;
            Some (left_ ++ pivot :: right_)
  end.
End code.

(** [quicksort]; [size_t] and [size_r] are the sizes of the key and payload types.  On a
    zero-sized payload the keys go through the standard library's [sort_unstable]: the
    ascending arrangement, which is unique as equal keys are identical. *)
Definition quicksort `{Ord T} {R} (size_t size_r : nat) (v : list T) (v2 : list R) :
  option (list T * list R) :=
  assert! (length v =? length v2) in
  if size_t =? 0 then Some (v, v2)
  else if size_r =? 0 then
    v ← stable_sort size_t v; Some (v, v2)
  else
    let limit := Z.to_nat (if decide (length v = 0) then 0 else Z.log2 (Z.of_nat (length v)) + 1) in
    w ← recurse kltb (S (length v)) (zip v v2) None limit true true;
    Some (w.*1, w.*2).

(** ** Swaps and slices as permutations *)
Section perm.
Context {A : Type}.
Implicit Types (v w : list A) (x y : A).

Lemma swap_some v i j :
  i < length v → j < length v → ∃ v', swap v i j = Some v' ∧ v' ≡ₚ v ∧ length v' = length v.
Proof.
  intros Hi Hj. destruct (lookup_lt_is_Some_2 v i Hi) as [x Hx].
  destruct (lookup_lt_is_Some_2 v j Hj) as [y Hy].
  eexists. split; [by apply swap_spec|]. split; [by apply Permutation_insert_swap|].
  by rewrite !length_insert.
Qed.

Lemma swap_lookup v v' i j k :
  swap v i j = Some v' →
  v' !! k = if decide (k = i) then v !! j else if decide (k = j) then v !! i else v !! k.
Proof.
  unfold swap. destruct (v !! i) as [x|] eqn:Hx; cbn [mbind option_bind]; [|done].
  destruct (v !! j) as [y|] eqn:Hy; cbn [mbind option_bind]; [|done]. intros [= <-].
  pose proof (lookup_lt_Some _ _ _ Hx). pose proof (lookup_lt_Some _ _ _ Hy).
  destruct (decide (k = i)) as [->|Hki].
  - destruct (decide (i = j)) as [->|Hij].
    + rewrite list_lookup_insert_eq by (rewrite length_insert; done). congruence.
    + rewrite list_lookup_insert_ne by done. by rewrite list_lookup_insert_eq.
  - destruct (decide (k = j)) as [->|Hkj].
    + by rewrite list_lookup_insert_eq by (rewrite length_insert; done).
    + by rewrite !list_lookup_insert_ne by done.
Qed.

(** A slice rearranged in place rearranges the whole. *)
Lemma with_slice_perm v lo hi f w :
  lo ≤ hi → hi ≤ length v → f (take (hi - lo) (drop lo v)) = Some w →
  w ≡ₚ take (hi - lo) (drop lo v) →
  ∃ v', with_slice v lo hi f = Some v' ∧ v' = take lo v ++ w ++ drop hi v ∧
    v' ≡ₚ v ∧ length v' = length v.
Proof.
  intros H1 H2 Hf Hp. eexists. split; [by apply with_slice_spec|]. split; [done|].
  assert (take lo v ++ w ++ drop hi v ≡ₚ v) as Hv.
  { rewrite Hp. by rewrite slice_split. }
  split; [done | by apply Permutation_length].
Qed.

(** Filling the hole of [v] at [dest] with [tmp]. *)
Lemma hole_move v v0 tmp i j x :
  <[i := tmp]> v ≡ₚ v0 → i < length v → v !! j = Some x → i ≠ j →
  <[j := tmp]> (<[i := x]> v) ≡ₚ v0.
Proof.
  intros Hp Hi Hx Hij. rewrite <- Hp.
  rewrite <- (Permutation_insert_swap (<[i := tmp]> v) i j tmp x).
  - by rewrite list_insert_insert_eq.
  - by apply list_lookup_insert_eq.
  - by rewrite list_lookup_insert_ne.
Qed.
End perm.

Section theory.
Context {T R : Type} (is_less : T → T → bool) `{!StrictWeakOrder is_less}.
Implicit Types (v w : list (T * R)) (x y tmp : T * R).
Abbreviation less := (less (R:=R) is_less).
Notation "x ≼ y" := (le less x y) (at level 70).

#[global] Instance less_strict_weak : StrictWeakOrder less.
Proof.
  split; unfold Quicksort.less; intros; [apply less_irrefl | by eapply less_trans |
    by eapply (less_neg_trans (T:=T))].
Qed.

(** *** Insertion *)
Lemma shift_head_loop_spec v0 tmp n i v :
  0 < i → i + n = length v → <[i - 1 := tmp]> v ≡ₚ v0 →
  ∃ v' dest, shift_head_loop is_less tmp n i v (i - 1) = Some (v', dest) ∧ <[dest := tmp]> v' ≡ₚ v0.
Proof.
  revert i v. induction n as [|n IH]; intros i v Hi Hn Hp; cbn [shift_head_loop]; [eauto|].
  destruct (lookup_lt_is_Some_2 v i) as [x Hx]; [lia|]. rewrite Hx. cbn [mbind option_bind].
  destruct (negb _); [eauto|].
  destruct (IH (i + 1) (<[i - 1 := x]> v)) as (v'&dest&Hl&Hp'); [lia | rewrite length_insert; lia | |].
  - replace (i + 1 - 1) with i by lia. eapply hole_move; [done | lia | done | lia].
  - exists v', dest. replace (i + 1 - 1) with i in Hl by lia. done.
Qed.

Lemma shift_head_spec v : ∃ w, shift_head is_less v = Some w ∧ w ≡ₚ v.
Proof.
  unfold shift_head. destruct (Nat.leb_spec 2 (length v)); [|by exists v].
  destruct v as [|x0 [|x1 v]]; [simpl in *; lia..|]. cbn [lookup list_lookup mbind option_bind].
  destruct (Quicksort.less is_less x1 x0); [|by eexists].
  destruct (shift_head_loop_spec (x0 :: x1 :: v) x0 (length (x0 :: x1 :: v) - 2) 2 (x1 :: x1 :: v))
    as (v'&dest&Hl&Hp); [lia | simpl; lia | apply Permutation_swap |].
  cbn [insert list_insert Nat.sub] in *. rewrite Hl. cbn [mbind option_bind]. by eexists.
Qed.

Lemma shift_tail_spec v x :
  sorted less v → ∃ w, shift_tail is_less (v ++ [x]) = Some w ∧ sorted less w ∧ w ≡ₚ v ++ [x].
Proof.
  intros Hs. unfold shift_tail. destruct (Nat.leb_spec 2 (length (v ++ [x]))) as [Hl|Hl].
  - destruct (insert_tail_spec less v x) as (w&Hw&Hsw&Hst); [|done|].
    { intros ->. simpl in *. lia. }
    exists w. split_and!; [done | done | by apply (stable_perm less)].
  - exists (v ++ [x]). destruct v; [|rewrite length_app in Hl; simpl in *; lia].
    split_and!; [done | apply sorted_singleton | done].
Qed.

Lemma insertion_sort_spec v : ∃ w, insertion_sort is_less v = Some w ∧ sorted less w ∧ w ≡ₚ v.
Proof.
  assert (∀ n i v, 0 < i → insertion_sort_loop is_less n i v = insertion_loop less n i v) as Heq.
  { induction n as [|n IH]; intros i u Hi; [done|]. simpl.
    assert (with_slice u 0 (i + 1) (shift_tail is_less)
      = with_slice u 0 (i + 1) (insert_tail less)) as ->.
    { unfold with_slice. destruct (Nat.leb_spec (i + 1) (length u)); [|by rewrite andb_false_r].
      unfold shift_tail. rewrite (proj2 (Nat.leb_le 2 _)); [done|].
      rewrite length_take, length_drop. lia. }
    destruct (with_slice _ _ _ _); cbn [mbind option_bind]; [apply IH; lia | done]. }
  unfold insertion_sort. rewrite Heq by lia.
  destruct v as [|x v].
  { exists []. split_and!; [done | apply sorted_nil | done]. }
  destruct (insertion_loop_spec less (length (x :: v) - 1) 1 (x :: v)) as (w&Hw&Hs&Hst);
    [lia | simpl; lia | simpl; apply sorted_singleton |].
  exists w. split_and!; [done | done | by apply (stable_perm less)].
Qed.

Lemma skip_ordered_spec n v i :
  0 < i → i + n = length v → sorted less (take i v) →
  ∃ j, skip_ordered is_less n v i = Some j ∧ i ≤ j ≤ length v ∧ sorted less (take j v).
Proof.
  revert i. induction n as [|n IH]; intros i Hi Hn Hs; simpl.
  { exists i. split_and!; [done | lia.. | done]. }
  rewrite (proj2 (Nat.ltb_lt i (length v))) by lia.
  destruct (lookup_lt_is_Some_2 v i) as [x Hx]; [lia|].
  destruct (lookup_lt_is_Some_2 v (i - 1)) as [p Hp]; [lia|].
  rewrite Hx, Hp. cbn [mbind option_bind]. destruct (Quicksort.less is_less x p) eqn:E; simpl.
  { exists i. split_and!; [done | lia.. | done]. }
  destruct (IH (i + 1)) as (j&Hj&Hle&Hsj); [lia.. | |].
  - by apply (streak_take_snoc less false v i x p).
  - exists j. split_and!; [done | lia.. | done].
Qed.

Lemma partial_insertion_loop_spec steps v i :
  0 < i ≤ length v → sorted less (take i v) →
  ∃ w b, partial_insertion_loop is_less steps v i = Some (w, b) ∧ w ≡ₚ v ∧
    (b = true → sorted less w).
Proof.
  revert v i. induction steps as [|steps IH]; intros v i Hi Hs; [by exists v, false|].
  cbn [partial_insertion_loop].
  destruct (skip_ordered_spec (length v - i) v i) as (j&Hj&Hle&Hsj); [lia.. | done |].
  rewrite Hj. cbn [mbind option_bind]. destruct (Nat.eqb_spec j (length v)) as [->|Hne].
  { exists v, true. rewrite firstn_all in Hsj. done. }
  destruct (_ <? SHORTEST_SHIFTING); [by exists v, false|].
  destruct (swap_some v (j - 1) j) as (v1&Hsw&Hp1&Hl1); [lia..|]. rewrite Hsw. cbn [mbind option_bind].
  assert (take (j - 1) v1 = take (j - 1) v) as Ht.
  { apply list_eq_same_length with (n := j - 1); rewrite ?length_take; [lia..|].
    intros k a b Hk. rewrite !lookup_take_lt by lia. rewrite (swap_lookup _ _ _ _ _ Hsw).
    rewrite !decide_False by lia. congruence. }
  destruct (lookup_lt_is_Some_2 v1 (j - 1)) as [x Hx]; [lia|].
  destruct (shift_tail_spec (take (j - 1) v1) x) as (t&Ht1&Ht2&Ht3).
  { rewrite Ht. destruct (lookup_lt_is_Some_2 v (j - 1)) as [p Hp]; [lia|].
    rewrite (take_pred v j p) in Hsj by (done || lia). by apply sorted_snoc in Hsj as [? _]. }
  rewrite <- (take_pred v1 j x) in Ht1, Ht3 by (done || lia).
  destruct (with_slice_perm v1 0 j (shift_tail is_less) t) as (v2&Hv2&Hv2e&Hp2&Hl2);
    [lia.. | by rewrite Nat.sub_0_r, drop_0 | by rewrite Nat.sub_0_r, drop_0 |].
  rewrite Hv2. cbn [mbind option_bind].
  destruct (shift_head_spec (take (length v - j) (drop j v2))) as (h&Hh&Hph).
  destruct (with_slice_perm v2 j (length v) (shift_head is_less) h) as (v3&Hv3&Hv3e&Hp3&Hl3);
    [lia.. | done | done |].
  rewrite Hv3. cbn [mbind option_bind].
  destruct (IH v3 j) as (w&b&Hw&Hpw&Hb); [lia | |].
  - rewrite Hv3e, take_app_le by (rewrite length_take; lia). rewrite take_take, Nat.min_id, Hv2e.
    rewrite take_0, app_nil_l.
    assert (length t = j) as <- by (rewrite (Permutation_length Ht3), length_take; lia).
    by rewrite take_app_length.
  - exists w, b. split_and!; [done | by rewrite Hpw, Hp3, Hp2, Hp1 | done].
Qed.

Lemma partial_insertion_sort_spec v :
  v ≠ [] → ∃ w b, partial_insertion_sort is_less v = Some (w, b) ∧ w ≡ₚ v ∧ (b = true → sorted less w).
Proof.
  intros Hv. apply partial_insertion_loop_spec; destruct v; try done; simpl; [lia|].
  apply sorted_singleton.
Qed.

(** *** Heaps *)
Definition child (p c : nat) : Prop := c = 2 * p + 1 ∨ c = 2 * p + 2.
Definition ordered v (p c : nat) : Prop := ∀ x y, v !! c = Some x → v !! p = Some y → x ≼ y.
(** The parent bounds its children, for parents from [k] on. *)
Definition heap (k : nat) v : Prop := ∀ p c, child p c → k ≤ p → ordered v p c.
(** A heap, except below [node], whose children are bounded by its parent. *)
Definition sifting (k node : nat) v : Prop :=
  (∀ p c, child p c → k ≤ p → p ≠ node → ordered v p c) ∧
  (∀ p c, child p node → child node c → k ≤ p → ordered v p c).

Lemma sifting_stop k node m v x y :
  sifting k node v → v !! node = Some x → v !! m = Some y → y ≼ x →
  (∀ c z, child node c → v !! c = Some z → z ≼ y) → heap k v.
Proof.
  intros [Ha _] Hx Hy Hyx Hm p c Hc Hk a b Hca Hpb. destruct (decide (p = node)) as [->|Hne].
  - simplify_eq. transitivity y; [eauto | done].
  - by eapply Ha.
Qed.

Lemma sifting_step k node m v v' x y :
  k ≤ node → sifting k node v → swap v node m = Some v' → child node m →
  v !! node = Some x → v !! m = Some y → less x y = true →
  (∀ c z, child node c → v !! c = Some z → z ≼ y) → sifting k m v'.
Proof.
  unfold sifting, ordered, child. intros Hk [Ha Hb] Hsw Hm Hx Hy Hlt Hmax.
  assert (∀ i, i ≠ node → i ≠ m → v' !! i = v !! i) as Hoth.
  { intros i H1 H2. rewrite (swap_lookup _ _ _ _ _ Hsw). by rewrite !decide_False. }
  assert (v' !! node = Some y) as Hn'.
  { rewrite (swap_lookup _ _ _ _ _ Hsw). by rewrite decide_True. }
  assert (v' !! m = Some x) as Hm'.
  { rewrite (swap_lookup _ _ _ _ _ Hsw). rewrite decide_False by lia. by rewrite decide_True. }
  split.
  - intros p c Hc Hkp Hpm a b Hca Hpb. destruct (decide (p = node)) as [->|Hpn].
    + assert (b = y) as -> by congruence. destruct (decide (c = m)) as [->|Hcm].
      * assert (a = x) as -> by congruence. by apply (less_le less).
      * rewrite Hoth in Hca by lia. by apply (Hmax c).
    + rewrite (Hoth p) in Hpb by lia. destruct (decide (c = node)) as [->|Hcn].
      * assert (a = y) as -> by congruence. by apply (Hb p m).
      * rewrite Hoth in Hca by lia. by apply (Ha p c).
  - intros p c Hp Hc Hkp a b Hca Hpb. assert (p = node) as -> by lia.
    assert (b = y) as -> by congruence. rewrite Hoth in Hca by lia. apply (Ha m c); [lia..|done|done].
Qed.

Lemma sift_down_spec k fuel v node :
  0 < fuel → length v < fuel + node → k ≤ node → sifting k node v →
  ∃ w, sift_down is_less fuel v node = Some w ∧ w ≡ₚ v ∧ heap k w.
Proof.
  revert v node. induction fuel as [|fuel IH]; intros v node Hf0 Hf Hk Hs; [lia|].
  cbn [sift_down].
  destruct (Nat.leb_spec (length v) (2 * node + 1)) as [Hle|Hlt].
  { exists v. split_and!; [done..|]. intros p c Hc Hp a b Ha Hb. destruct (decide (p = node)) as [->|].
    - apply lookup_lt_Some in Ha. unfold child in Hc. lia.
    - by apply (proj1 Hs p c). }
  destruct (lookup_lt_is_Some_2 v (2 * node + 1) Hlt) as [x1 Hx1].
  destruct (lookup_lt_is_Some_2 v node) as [x Hx]; [lia|].
  assert (∃ m y, (if 2 * node + 1 + 1 <? length v then
                 x ← v !! (2 * node + 1); y ← v !! (2 * node + 1 + 1);
                 Some (2 * node + 1 + (if Quicksort.less is_less x y then 1 else 0))
               else Some (2 * node + 1)) = Some m ∧ child node m ∧ v !! m = Some y ∧
    (∀ c z, child node c → v !! c = Some z → z ≼ y)) as (m&y&Hm&Hc&Hy&Hmax).
  { destruct (Nat.ltb_spec (2 * node + 1 + 1) (length v)) as [H2|H2].
    - destruct (lookup_lt_is_Some_2 v _ H2) as [x2 Hx2]. rewrite Hx1, Hx2. cbn [mbind option_bind].
      replace (2 * node + 1 + 1) with (2 * node + 2) in Hx2 by lia.
      destruct (Quicksort.less is_less x1 x2) eqn:E.
      + exists (2 * node + 2), x2. split_and!; [f_equal; lia | by right | done |].
        intros c z [-> | ->] Hz; simplify_eq; [by apply (less_le less) | done].
      + exists (2 * node + 1), x1. split_and!; [f_equal; lia | by left | done |].
        intros c z [-> | ->] Hz; simplify_eq; done.
    - exists (2 * node + 1), x1. split_and!; [done | by left | done |].
      intros c z [-> | ->] Hz; [by simplify_eq|]. apply lookup_lt_Some in Hz. lia. }
  rewrite Hm. cbn [mbind option_bind]. rewrite Hx, Hy. cbn [mbind option_bind].
  destruct (Quicksort.less is_less x y) eqn:E; cbn [negb].
  - assert (m < length v) by (by eapply lookup_lt_Some).
    destruct (swap_some v node m) as (v'&Hsw&Hp&Hl); [lia|done|]. rewrite Hsw. cbn [mbind option_bind].
    assert (node < m) by (unfold child in Hc; lia).
    destruct (IH v' m) as (w&Hw&Hpw&Hh); [lia.. | by eapply sifting_step |].
    exists w. split_and!; [done | by rewrite Hpw | done].
  - exists v. split_and!; [done..|]. by eapply sifting_stop.
Qed.

Lemma heapify_spec n v :
  heap n v → ∃ w, heapify is_less n v = Some w ∧ w ≡ₚ v ∧ heap 0 w.
Proof.
  revert v. induction n as [|n IH]; intros v Hh; [by exists v|]. cbn [heapify].
  destruct (sift_down_spec n (S (length v)) v n) as (w&Hw&Hp&Hhw); [lia.. | |].
  { split; intros p c; intros.
    - apply Hh; [done | lia].
    - unfold child in *. lia. }
  rewrite Hw. cbn [mbind option_bind]. destruct (IH w Hhw) as (w'&Hw'&Hp'&Hh').
  exists w'. split_and!; [done | by rewrite Hp' | done].
Qed.

Lemma heap_root_max v j x r : heap 0 v → v !! j = Some x → v !! 0 = Some r → x ≼ r.
Proof.
  intros Hh. revert x. induction j as [j IH] using lt_wf_ind; intros x Hx Hr.
  destruct (decide (j = 0)) as [->|Hj]; [by simplify_eq|].
  assert (∃ p, child p j) as [p Hp].
  { unfold child. destruct (Nat.Even_or_Odd j) as [[k ->]|[k ->]]; [exists (k - 1) | exists k]; lia. }
  assert (p < j) by (unfold child in Hp; lia).
  destruct (lookup_lt_is_Some_2 v p) as [y Hy].
  { apply lookup_lt_Some in Hx. lia. }
  transitivity y; [by eapply Hh; [|lia|..] | by eapply IH].
Qed.

Lemma heap_take k v n : heap k v → heap k (take n v).
Proof.
  intros Hh p c Hc Hk x y [Hx _]%lookup_take_Some [Hy _]%lookup_take_Some. by eapply Hh.
Qed.

(** Swapping the root with the last element of the heap. *)
Lemma swap_root_spec v v1 i r :
  i < length v → 0 < i → v !! 0 = Some r → swap v 0 i = Some v1 → heap 0 (take (S i) v) →
  v1 !! i = Some r ∧ drop (S i) v1 = drop (S i) v ∧ take i v1 ++ [r] ≡ₚ take (S i) v ∧
  sifting 0 0 (take i v1).
Proof.
  intros Hi Hpos Hr Hsw Hh.
  assert (v1 !! i = Some r) as Hir.
  { rewrite (swap_lookup _ _ _ _ _ Hsw), decide_False by lia. by rewrite decide_True. }
  assert (drop (S i) v1 = drop (S i) v) as Hd.
  { apply list_eq. intros k. rewrite !lookup_drop, (swap_lookup _ _ _ _ _ Hsw).
    by rewrite !decide_False by lia. }
  destruct (swap_some v 0 i) as (v1'&Hsw'&Hp1&_); [lia..|]. simplify_eq.
  split_and!; [done | done | |].
  - rewrite <- (take_S_r _ _ _ Hir). apply (Permutation_app_inv_r (drop (S i) v)).
    rewrite <- Hd at 1. by rewrite !take_drop.
  - split; intros p c.
    + intros Hc _ Hp x y [Hx ?]%lookup_take_Some [Hy ?]%lookup_take_Some.
      rewrite (swap_lookup _ _ _ _ _ Hsw), !decide_False in Hx by (unfold child in Hc; lia).
      rewrite (swap_lookup _ _ _ _ _ Hsw), !decide_False in Hy by lia.
      eapply (Hh p c); [done | lia |..]; rewrite lookup_take_lt by lia; done.
    + unfold child. lia.
Qed.

Lemma pop_all_spec n v :
  n ≤ length v → heap 0 (take n v) → sorted less (drop n v) →
  (∀ x y, x ∈ take n v → y ∈ drop n v → x ≼ y) →
  ∃ w, pop_all is_less n v = Some w ∧ sorted less w ∧ w ≡ₚ v.
Proof.
  revert v. induction n as [|n IH]; intros v Hn Hh Hs Hb.
  { exists v. rewrite drop_0 in Hs. done. }
  destruct n as [|n].
  { exists v. split_and!; [done| |done]. destruct v as [|x v]; [done|].
    change (sorted less ([x] ++ v)). apply sorted_app. split_and!; [apply sorted_singleton | done..]. }
  cbn [pop_all]. set (i := S n) in *.
  destruct (swap_some v 0 i) as (v1&Hsw&Hp1&Hl1); [lia..|]. rewrite Hsw. cbn [mbind option_bind].
  destruct (lookup_lt_is_Some_2 v 0) as [r Hr]; [lia|].
  destruct (swap_root_spec v v1 i r) as (Hi&Hd&Hpt&Hsift); [lia | unfold i; lia | done.. |].
  assert (∀ x, x ∈ take (S i) v → x ≼ r) as Hmax.
  { intros x [k Hk]%list_elem_of_lookup. eapply heap_root_max; [done..|].
    rewrite lookup_take_lt by lia. done. }
  destruct (sift_down_spec 0 (S (length (take i v1))) (take i v1) 0) as (w&Hw&Hpw&Hhw); [lia.. | done |].
  assert (length w = i) as Hlw by (rewrite (Permutation_length Hpw), length_take; lia).
  destruct (with_slice_perm v1 0 i (λ w, sift_down is_less (S (length w)) w 0) w)
    as (v2&Hv2&Hv2e&Hp2&Hl2); [lia.. | by rewrite Nat.sub_0_r, drop_0 |
    by rewrite Nat.sub_0_r, drop_0 |].
  rewrite Hv2. cbn [mbind option_bind]. rewrite take_0, app_nil_l in Hv2e.
  assert (take i v2 = w) as Ht2 by (rewrite Hv2e, <- Hlw; apply take_app_length).
  assert (drop i v2 = r :: drop (S i) v) as Hd2.
  { rewrite Hv2e. rewrite <- Hlw at 1. rewrite drop_app_length. by rewrite (drop_S _ _ _ Hi), Hd. }
  destruct (IH v2) as (w'&Hw'&Hsw'&Hpw'); [lia | by rewrite Ht2 | | |].
  - rewrite Hd2. apply sorted_cons. split; [done|]. intros y Hy. apply Hb; [|done].
    rewrite <- Hpt. set_solver.
  - rewrite Ht2, Hd2. intros x y. rewrite Hpw. intros Hx [->|Hy]%elem_of_cons.
    + apply Hmax. rewrite <- Hpt. set_solver.
    + apply Hb; [|done]. rewrite <- Hpt. set_solver.
  - exists w'. split_and!; [done | done | by rewrite Hpw', Hp2, Hp1].
Qed.

Lemma heapsort_spec v : ∃ w, heapsort is_less v = Some w ∧ sorted less w ∧ w ≡ₚ v.
Proof.
  unfold heapsort. destruct (heapify_spec (length v / 2) v) as (w&Hw&Hp&Hh).
  { intros p c Hc Hp x y Hx%lookup_lt_Some. pose proof (Nat.div_mod_eq (length v) 2).
    pose proof (Nat.mod_upper_bound (length v) 2). unfold child in Hc. lia. }
  rewrite Hw. cbn [mbind option_bind].
  destruct (pop_all_spec (length w) w) as (w'&Hw'&Hs&Hp'); [done | by apply heap_take | | |].
  - rewrite drop_ge by done. apply sorted_nil.
  - rewrite drop_ge by done. set_solver.
  - exists w'. split_and!; [done | done | by rewrite Hp'].
Qed.
End theory.

(** *** Partitioning by blocks *)
Section blocks.
Context {T R : Type} (is_less : T → T → bool) (pivot : T).
Implicit Types (v w : list (T * R)) (ol or : list nat).

(** The element at [i] belongs to the left, or to the right, of the pivot. *)
Definition lo v (i : nat) : Prop := ∃ x, v !! i = Some x ∧ is_less x.1 pivot = true.
Definition hi v (i : nat) : Prop := ∃ x, v !! i = Some x ∧ is_less x.1 pivot = false.

Lemma lo_hi v i : lo v i → hi v i → False.
Proof. intros (x&Hx&H1) (y&Hy&H2). congruence. Qed.

Definition ascending (ol : list nat) : Prop := StronglySorted lt ol.
(** [ol]: the misplaced offsets of the block of [n] elements that starts at [l]. *)
Definition traced_l v (l n : nat) ol : Prop :=
  ascending ol ∧ (∀ o, o ∈ ol → o < n ∧ hi v (l + o)) ∧ (∀ o, o < n → o ∉ ol → lo v (l + o)).
(** [or]: those of the block of [n] elements that ends at [r], from its end. *)
Definition traced_r v (r n : nat) or : Prop :=
  ascending or ∧ (∀ o, o ∈ or → o < n ∧ lo v (r - (o + 1))) ∧
  (∀ o, o < n → o ∉ or → hi v (r - (o + 1))).
(** What lies outside [l..r] is in place. *)
Definition outer v (l r : nat) : Prop :=
  (∀ i, i < l → lo v i) ∧ (∀ i, r ≤ i → i < length v → hi v i).
Definition blocked v (l r bl br : nat) ol or : Prop :=
  l + bl + br ≤ r ∧ r ≤ length v ∧ outer v l r ∧ traced_l v l bl ol ∧ traced_r v r br or.

Lemma ascending_snoc ol n : ascending ol → (∀ o, o ∈ ol → o < n) → ascending (ol ++ [n]).
Proof.
  intros Hs Hn. apply StronglySorted_app. split_and!; [done | repeat constructor |].
  intros x y Hx ->%list_elem_of_singleton. auto.
Qed.

Lemma as_u8_small i : i < BLOCK → as_u8 i = i.
Proof. unfold as_u8, BLOCK. intros. apply Nat.mod_small. lia. Qed.

Lemma trace_l_spec v l n i ol :
  i + n ≤ BLOCK → l + i + n ≤ length v → length ol ≤ i → traced_l v l i ol →
  ∃ ol', trace_l is_less pivot v n i (l + i) ol = Some ol' ∧ traced_l v l (i + n) ol'.
Proof.
  revert i ol. induction n as [|n IH]; intros i ol Hi Hv Hl Ht; cbn [trace_l].
  { exists ol. by rewrite Nat.add_0_r. }
  rewrite (proj2 (Nat.ltb_lt _ _)) by lia.
  destruct (lookup_lt_is_Some_2 v (l + i)) as [x Hx]; [lia|]. rewrite Hx. cbn [mbind option_bind].
  rewrite as_u8_small by lia. destruct Ht as (Hs&Hin&Hout).
  replace (i + S n) with (i + 1 + n) by lia. replace (l + i + 1) with (l + (i + 1)) by lia.
  apply IH; [lia | lia | |].
  { destruct (negb _); rewrite ?length_app; simpl; lia. }
  destruct (is_less x.1 pivot) eqn:E; cbn [negb].
  - split_and!; [done | |].
    + intros o Ho. destruct (Hin o Ho). split; [lia | done].
    + intros o Ho Hn. destruct (decide (o = i)) as [->|]; [by exists x | apply Hout; [lia|done]].
  - split_and!.
    + apply ascending_snoc; [done|]. intros o Ho. by apply Hin.
    + intros o [Ho| ->%list_elem_of_singleton]%elem_of_app.
      * destruct (Hin o Ho). split; [lia | done].
      * split; [lia | by exists x].
    + intros o Ho [Hn1 Hn2]%not_elem_of_app. rewrite list_elem_of_singleton in Hn2.
      apply Hout; [lia | done].
Qed.

Lemma trace_r_spec v r n i or :
  i + n ≤ BLOCK → i + n ≤ r → r ≤ length v → length or ≤ i → traced_r v r i or →
  ∃ or', trace_r is_less pivot v n i (r - i) or = Some or' ∧ traced_r v r (i + n) or'.
Proof.
  revert i or. induction n as [|n IH]; intros i or Hi Hr Hv Hl Ht; cbn [trace_r].
  { exists or. by rewrite Nat.add_0_r. }
  rewrite (proj2 (Nat.ltb_lt _ _)) by lia. rewrite (proj2 (Nat.ltb_lt _ BLOCK)) by lia.
  destruct (lookup_lt_is_Some_2 v (r - i - 1)) as [x Hx]; [lia|]. rewrite Hx. cbn [mbind option_bind].
  replace (r - i - 1) with (r - (i + 1)) in * by lia.
  rewrite as_u8_small by lia. destruct Ht as (Hs&Hin&Hout).
  replace (i + S n) with (i + 1 + n) by lia.
  apply IH; [lia | lia | lia | |].
  { destruct (is_less _ _); rewrite ?length_app; simpl; lia. }
  destruct (is_less x.1 pivot) eqn:E.
  - split_and!.
    + apply ascending_snoc; [done|]. intros o Ho. by apply Hin.
    + intros o [Ho| ->%list_elem_of_singleton]%elem_of_app.
      * destruct (Hin o Ho). split; [lia | done].
      * split; [lia | by exists x].
    + intros o Ho [Hn1 Hn2]%not_elem_of_app. rewrite list_elem_of_singleton in Hn2.
      apply Hout; [lia | done].
  - split_and!; [done | |].
    + intros o Ho. destruct (Hin o Ho). split; [lia | done].
    + intros o Ho Hn. destruct (decide (o = i)) as [->|]; [by exists x | apply Hout; [lia|done]].
Qed.

Lemma ascending_head o ol : ascending (o :: ol) → ascending ol ∧ o ∉ ol.
Proof.
  intros Hs. inv Hs as [|?? Hs' Hf]. split; [done|]. intros Ho. rewrite Forall_forall in Hf.
  apply Hf in Ho. lia.
Qed.

(** Exchanging the first misplaced elements of the two blocks puts both in place; the
    elements that already are may move among themselves. *)
Lemma blocked_step v w l r bl br o ol q or :
  blocked v l r bl br (o :: ol) (q :: or) → length w = length v →
  lo w (l + o) → hi w (r - (q + 1)) →
  (∀ i, i ≠ l + o → i ≠ r - (q + 1) → (lo v i → lo w i) ∧ (hi v i → hi w i)) →
  blocked w l r bl br ol or.
Proof.
  intros (H1&H2&[Ho1 Ho2]&(Hs&Hin&Hout)&(Hs'&Hin'&Hout')) Hl Hlo Hhi Hoth.
  apply ascending_head in Hs as [Hs Hno], Hs' as [Hs' Hnq].
  pose proof (proj1 (Hin o ltac:(left))) as Ho. pose proof (proj1 (Hin' q ltac:(left))) as Hq.
  unfold blocked, outer, traced_l, traced_r. rewrite Hl. split_and!; [done | done | | | done | | | done | |].
  - intros i Hi. apply Hoth; [lia | lia | auto].
  - intros i Hi Hi'. apply Hoth; [lia | lia | auto].
  - intros o' Ho'. destruct (Hin o' ltac:(by right)) as [Hlt Hh]. split; [done|].
    assert (o' ≠ o) by (by intros ->). apply Hoth; [lia | lia | done].
  - intros o' Ho' Hn. destruct (decide (o' = o)) as [->|]; [done|].
    apply Hoth; [lia | lia |]. apply Hout; [done|]. rewrite not_elem_of_cons. done.
  - intros o' Ho'. destruct (Hin' o' ltac:(by right)) as [Hlt Hh]. split; [done|].
    assert (o' ≠ q) by (by intros ->). apply Hoth; [lia | lia | done].
  - intros o' Ho' Hn. destruct (decide (o' = q)) as [->|]; [done|].
    apply Hoth; [lia | lia |]. apply Hout'; [done|]. rewrite not_elem_of_cons. done.
Qed.

Lemma class_insert v w i :
  v !! i = w !! i → (lo v i → lo w i) ∧ (hi v i → hi w i).
Proof. unfold lo, hi. by intros ->. Qed.

Lemma copy1_some v src dst x :
  v !! src = Some x → dst < length v → src ≠ dst → copy1 v src dst = Some (<[dst := x]> v).
Proof.
  intros Hx Hd Hne. unfold copy1. rewrite Hx. cbn [mbind option_bind].
  by rewrite (proj2 (Nat.ltb_lt _ _) Hd), (proj2 (Nat.eqb_neq _ _) Hne).
Qed.

Lemma right_at_some r q or : q + 1 ≤ r → right_at r (q :: or) = Some (r - (q + 1)).
Proof. intros Hq. unfold right_at. cbn [head mbind option_bind]. by rewrite (proj2 (Nat.leb_le _ _) Hq). Qed.

Lemma blocked_heads v l r bl br o ol q or :
  blocked v l r bl br (o :: ol) (q :: or) →
  l + o < r - (q + 1) ∧ r - (q + 1) < length v ∧ q < br ∧ q + 1 ≤ r ∧ (q ∉ or) ∧
  (∃ x, v !! (l + o) = Some x ∧ is_less x.1 pivot = false) ∧
  (∃ y, v !! (r - (q + 1)) = Some y ∧ is_less y.1 pivot = true).
Proof.
  intros (H1&H2&_&(_&Hin&_)&(Hs&Hin'&_)). destruct (Hin o ltac:(left)) as [Ho Hx].
  destruct (Hin' q ltac:(left)) as [Hq Hy]. apply ascending_head in Hs as [_ Hs].
  split_and!; [lia.. | done | done | done].
Qed.

Lemma cycle_loop_spec v0 tmp l r bl br n v o ol q or :
  n ≤ length ol → n ≤ length or → q < br → q ∉ or →
  is_less tmp.1 pivot = false → <[r - (q + 1) := tmp]> v ≡ₚ v0 →
  blocked (<[r - (q + 1) := tmp]> v) l r bl br ol or →
  ∃ v' o' ol' q' or',
    cycle_loop n v l r (o :: ol) (q :: or) = Some (v', o' :: ol', q' :: or') ∧
    ol' = drop n ol ∧ or' = drop n or ∧ q' + 1 ≤ r ∧
    <[r - (q' + 1) := tmp]> v' ≡ₚ v0 ∧ blocked (<[r - (q' + 1) := tmp]> v') l r bl br ol' or'.
Proof.
  revert v o ol q or. induction n as [|n IH]; intros v o ol q or Hnl Hnr Hq Hqn Htmp Hp Hb.
  { exists v, o, ol, q, or. rewrite !drop_0. split_and!; try done. destruct Hb. lia. }
  destruct ol as [|o2 ol]; [simpl in *; lia|]. destruct or as [|q2 or]; [simpl in *; lia|].
  destruct (blocked_heads _ _ _ _ _ _ _ _ _ Hb) as (H1&H2&H3&H4&Hq2&(x&Hx&Hxh)&(y&Hy&Hyl)).
  rewrite length_insert in H2. rewrite not_elem_of_cons in Hqn. destruct Hqn as [Hqq Hqn].
  assert (l + bl + br ≤ r) as Hw by apply Hb.
  assert (l + o2 < l + bl) as Ho2 by (apply Nat.add_lt_mono_l, Hb; left).
  assert (r ≤ length v) as Hrv by (rewrite <- (length_insert v (r - (q + 1)) tmp); apply Hb).
  set (a := l + o2) in *. set (b := r - (q + 1)) in *. set (b2 := r - (q2 + 1)) in *.
  assert (a ≠ b ∧ b ≠ b2 ∧ b < length v) as (Hab&Hbb&Hbv) by (unfold b, b2; lia).
  rewrite list_lookup_insert_ne in Hx, Hy by done.
  cbn [cycle_loop tail]. unfold left_at. rewrite (right_at_some r q (q2 :: or)) by lia.
  cbn [head mbind option_bind]. fold a b.
  rewrite (copy1_some v a b x) by done. cbn [mbind option_bind].
  rewrite (right_at_some r q2 or) by lia. cbn [mbind option_bind]. fold b2.
  rewrite (copy1_some _ b2 a y) by (rewrite ?length_insert, ?list_lookup_insert_ne; done || lia).
  cbn [mbind option_bind].
  apply (IH (<[a:=y]> (<[b:=x]> v)) o2 ol q2 or); [simpl in *; lia.. | done | done | |]; fold b2.
  - apply hole_move; [|rewrite length_insert; lia | by rewrite list_lookup_insert_ne | lia].
    by apply hole_move.
  - eapply blocked_step; [exact Hb | by rewrite !length_insert | | |]; fold a b2.
    + exists y. rewrite list_lookup_insert_ne by lia. split; [|done].
      apply list_lookup_insert_eq. rewrite length_insert. lia.
    + exists tmp. split; [|done]. apply list_lookup_insert_eq. rewrite !length_insert. lia.
    + intros i Hia Hib. destruct (decide (i = b)) as [->|].
      * assert (hi (<[b:=tmp]> v) b) as Hh by (exists tmp; by rewrite list_lookup_insert_eq).
        split; [intros Hl; by destruct (lo_hi _ _ Hl Hh)|]. intros _. exists x.
        rewrite !(list_lookup_insert_ne _ _ b) by done. by rewrite list_lookup_insert_eq.
      * apply class_insert. by rewrite !list_lookup_insert_ne by done.
Qed.

Lemma cycle_spec v l r bl br ol or :
  blocked v l r bl br ol or →
  ∃ v' ol' or', cycle (Nat.min (length ol) (length or)) v l r ol or = Some (v', ol', or') ∧
    v' ≡ₚ v ∧ blocked v' l r bl br ol' or' ∧ (ol' = [] ∨ or' = []).
Proof.
  intros Hb. unfold cycle.
  destruct ol as [|o ol]; [exists v, [], or; simpl; by auto|].
  destruct or as [|q or]; [exists v, (o :: ol), []; simpl; by auto|].
  destruct (blocked_heads _ _ _ _ _ _ _ _ _ Hb) as (H1&H2&H3&H4&Hq2&(x&Hx&Hxh)&(y&Hy&Hyl)).
  set (a := l + o) in *. set (b := r - (q + 1)) in *.
  cbn [length Nat.min Nat.ltb Nat.leb]. unfold left_at. rewrite (right_at_some r q or) by lia.
  cbn [head mbind option_bind]. fold a b. rewrite Hx.
  cbn [mbind option_bind]. rewrite (copy1_some v b a y) by (done || lia). cbn [mbind option_bind].
  replace (S (Nat.min (length ol) (length or)) - 1) with (Nat.min (length ol) (length or)) by lia.
  destruct (cycle_loop_spec v x l r bl br (Nat.min (length ol) (length or)) (<[a:=y]> v) o ol q or)
    as (v'&o'&ol'&q'&or'&Hc&Hol&Hor&Hq'&Hp&Hb'); [lia.. | done | done | | |]; fold b.
  - by apply Permutation_insert_swap.
  - eapply blocked_step; [exact Hb | by rewrite !length_insert | | |]; fold a b.
    + exists y. rewrite list_lookup_insert_ne by lia. split; [|done]. apply list_lookup_insert_eq. lia.
    + exists x. split; [|done]. apply list_lookup_insert_eq. rewrite length_insert. lia.
    + intros i Hia Hib. apply class_insert. by rewrite !list_lookup_insert_ne by done.
  - rewrite Hc. cbn [mbind option_bind]. rewrite (right_at_some r q' or') by lia.
    cbn [mbind option_bind tail].
    eexists _, ol', or'. split_and!; [done | done | done |]. rewrite Hol, Hor.
    destruct (Nat.min_spec (length ol) (length or)) as [[_ ->]|[_ ->]]; [left | right];
      by apply drop_ge.
Qed.

(** The elements before [mid] are below the pivot, the others are not. *)
Definition split_at v (mid : nat) : Prop := outer v mid mid.

Lemma finish_left_spec n v l r ol :
  n = length ol → l ≤ r ≤ length v → outer v l r → traced_l v l (r - l) ol →
  ∃ v' mid, finish_left n v l r ol = Some (v', mid) ∧ v' ≡ₚ v ∧ mid ≤ length v ∧ split_at v' mid.
Proof.
  revert v r ol. induction n as [|n IH]; intros v r ol Hn Hr [Ho1 Ho2] (Hs&Hin&Hout).
  { destruct ol; [|done]. exists v, r. split_and!; [done | done | lia |]. split; [|done].
    intros i Hi. destruct (decide (i < l)); [auto|]. replace i with (l + (i - l)) by lia.
    apply Hout; [lia | set_solver]. }
  destruct ol as [|o ol _] using rev_ind; [done|]. cbn [finish_left].
  rewrite length_app in *. simpl length in *. rewrite last_snoc. cbn [mbind option_bind].
  destruct (Hin o ltac:(set_solver)) as [Hor Hh].
  rewrite (proj2 (Nat.leb_le 1 r)) by lia.
  destruct (swap_some v (l + o) (r - 1)) as (v1&Hsw&Hp&Hl); [lia..|]. rewrite Hsw.
  cbn [mbind option_bind]. replace (length ol + 1 - 1) with (length ol) by lia.
  rewrite take_app_length. apply StronglySorted_app in Hs as (Hs&_&Hlast).
  assert (∀ o', o' ∈ ol → o' < o) as Hlt by (intros; apply Hlast; [done | left]).
  assert (∀ i, i ≠ l + o → i ≠ r - 1 → (lo v i → lo v1 i) ∧ (hi v i → hi v1 i)) as Hoth.
  { intros i H1 H2. apply class_insert. by rewrite (swap_lookup _ _ _ _ _ Hsw), !decide_False. }
  destruct (IH v1 (r - 1) ol) as (v'&mid&Hf&Hp'&Hm&Hsp); [lia | lia | | |].
  - split.
    + intros i Hi. apply Hoth; [lia | lia | auto].
    + intros i Hi Hiv. destruct (decide (i = r - 1)) as [->|]; [|apply Hoth; [lia | lia | apply Ho2; lia]].
      destruct Hh as (x&Hx&Hxh). exists x. split; [|done].
      rewrite (swap_lookup _ _ _ _ _ Hsw). case_decide as E; [by rewrite E|]. by rewrite decide_True.
  - split_and!; [done | |].
    + intros o' Ho'. specialize (Hlt o' Ho'). split; [lia|].
      apply Hoth; [lia | lia | apply Hin; set_solver].
    + intros o' Ho' Hn'. destruct (decide (o' = o)) as [->|].
      * assert (lo v (l + (r - 1 - l))) as (x&Hx&Hxl).
        { apply Hout; [lia|]. intros [H1%Hlt|H1%list_elem_of_singleton]%elem_of_app; lia. }
        exists x. split; [|done]. rewrite (swap_lookup _ _ _ _ _ Hsw), decide_True by done.
        rewrite <- Hx. f_equal. lia.
      * apply Hoth; [lia | lia |]. apply Hout; [lia|].
        rewrite not_elem_of_app, list_elem_of_singleton. done.
  - exists v', mid. split_and!; [done | by rewrite Hp' | lia | done].
Qed.

Lemma finish_right_spec n v l r or :
  n = length or → l ≤ r ≤ length v → outer v l r → traced_r v r (r - l) or →
  ∃ v' mid, finish_right n v l r or = Some (v', mid) ∧ v' ≡ₚ v ∧ mid ≤ length v ∧ split_at v' mid.
Proof.
  revert v l or. induction n as [|n IH]; intros v l or Hn Hr [Ho1 Ho2] (Hs&Hin&Hout).
  { destruct or; [|done]. exists v, l. split_and!; [done | done | lia |]. split; [done|].
    intros i Hi Hiv. destruct (decide (r ≤ i)); [auto|]. replace i with (r - ((r - i - 1) + 1)) by lia.
    apply Hout; [lia | set_solver]. }
  destruct or as [|o or _] using rev_ind; [done|]. cbn [finish_right].
  rewrite length_app in *. simpl length in *. rewrite last_snoc. cbn [mbind option_bind].
  destruct (Hin o ltac:(set_solver)) as [Hor Hh].
  rewrite (proj2 (Nat.leb_le (o + 1) r)) by lia.
  destruct (swap_some v l (r - (o + 1))) as (v1&Hsw&Hp&Hl); [lia..|]. rewrite Hsw.
  cbn [mbind option_bind]. replace (length or + 1 - 1) with (length or) by lia.
  rewrite take_app_length. apply StronglySorted_app in Hs as (Hs&_&Hlast).
  assert (∀ o', o' ∈ or → o' < o) as Hlt by (intros; apply Hlast; [done | left]).
  assert (∀ i, i ≠ l → i ≠ r - (o + 1) → (lo v i → lo v1 i) ∧ (hi v i → hi v1 i)) as Hoth.
  { intros i H1 H2. apply class_insert. by rewrite (swap_lookup _ _ _ _ _ Hsw), !decide_False. }
  destruct (IH v1 (l + 1) or) as (v'&mid&Hf&Hp'&Hm&Hsp); [lia | lia | | |].
  - split.
    + intros i Hi. destruct (decide (i = l)) as [->|]; [|apply Hoth; [lia | lia | apply Ho1; lia]].
      destruct Hh as (x&Hx&Hxh). exists x. split; [|done].
      rewrite (swap_lookup _ _ _ _ _ Hsw). by rewrite decide_True.
    + intros i Hi Hiv. apply Hoth; [lia | lia | apply Ho2; lia].
  - split_and!; [done | |].
    + intros o' Ho'. specialize (Hlt o' Ho'). split; [lia|].
      apply Hoth; [lia | lia | apply Hin; set_solver].
    + intros o' Ho' Hn'. destruct (decide (o' = o)) as [->|].
      * assert (hi v (r - ((r - l - 1) + 1))) as (x&Hx&Hxl).
        { apply Hout; [lia|]. intros [H1%Hlt|H1%list_elem_of_singleton]%elem_of_app; lia. }
        exists x. split; [|done]. rewrite (swap_lookup _ _ _ _ _ Hsw), decide_False by lia.
        rewrite decide_True by done. rewrite <- Hx. f_equal. lia.
      * apply Hoth; [lia | lia |]. apply Hout; [lia|].
        rewrite not_elem_of_app, list_elem_of_singleton. done.
  - exists v', mid. split_and!; [done | by rewrite Hp' | lia | done].
Qed.

(** The state at the head of the loop over blocks: at most one block is pending. *)
Definition pending v (l r : nat) ol or : Prop :=
  l ≤ r ≤ length v ∧ outer v l r ∧ (ol = [] ∨ or = []) ∧
  (ol ≠ [] → l + BLOCK ≤ r ∧ traced_l v l BLOCK ol) ∧
  (or ≠ [] → l + BLOCK ≤ r ∧ traced_r v r BLOCK or).
(** The state at its end: the pending block is all that remains. *)
Definition final v (l r : nat) ol or : Prop :=
  l ≤ r ≤ length v ∧ outer v l r ∧ (ol = [] ∨ or = []) ∧
  (ol ≠ [] → traced_l v l (r - l) ol) ∧ (or ≠ [] → traced_r v r (r - l) or) ∧
  (ol = [] → or = [] → l = r).

Lemma nonempty_spec (ol : list nat) : nonempty ol = true ↔ ol ≠ [].
Proof. by destruct ol. Qed.

Lemma block_sizes v l r ol or :
  pending v l r ol or →
  ∃ bl br, (if r - l <=? 2 * BLOCK then last_blocks l r BLOCK BLOCK ol or else Some (BLOCK, BLOCK))
      = Some (bl, br) ∧
    bl ≤ BLOCK ∧ br ≤ BLOCK ∧ l + bl + br ≤ r ∧ (ol ≠ [] → bl = BLOCK) ∧ (or ≠ [] → br = BLOCK) ∧
    (r - l ≤ 2 * BLOCK → l + bl + br = r) ∧ (2 * BLOCK < r - l → bl = BLOCK ∧ br = BLOCK).
Proof.
  intros (Hr&_&Hone&Hol&Hor). destruct (Nat.leb_spec (r - l) (2 * BLOCK)) as [Hle|Hlt].
  2: { exists BLOCK, BLOCK. split_and!; [done | lia.. | done | done | lia | done]. }
  unfold last_blocks. pose proof (Nat.div_mod_eq (r - l) 2).
  pose proof (Nat.mod_upper_bound (r - l) 2).
  destruct ol as [|o ol], or as [|q or]; cbn [nonempty orb].
  - eexists _, _. split; [done|]. split_and!; try done; lia.
  - destruct (Hor ltac:(done)) as [Hw _]. rewrite (proj2 (Nat.leb_le _ _)) by lia.
    eexists _, _. split; [done|]. split_and!; try done; lia.
  - destruct (Hol ltac:(done)) as [Hw _]. rewrite (proj2 (Nat.leb_le _ _)) by lia.
    eexists _, _. split; [done|]. split_and!; try done; lia.
  - by destruct Hone.
Qed.

Lemma trace_both v l r bl br ol or :
  pending v l r ol or → bl ≤ BLOCK → br ≤ BLOCK → l + bl + br ≤ r →
  (ol ≠ [] → bl = BLOCK) → (or ≠ [] → br = BLOCK) →
  ∃ ol' or', (if nonempty ol then Some ol else trace_l is_less pivot v bl 0 l []) = Some ol' ∧
    (if nonempty or then Some or else trace_r is_less pivot v br 0 r []) = Some or' ∧
    blocked v l r bl br ol' or'.
Proof.
  intros (Hr&Ho&_&Hol&Hor) Hbl Hbr Hw Hl1 Hr1.
  assert (∃ ol', (if nonempty ol then Some ol else trace_l is_less pivot v bl 0 l []) = Some ol' ∧
    traced_l v l bl ol') as (ol'&Hol'&Htl).
  { destruct ol as [|o ol].
    - pose proof (trace_l_spec v l bl 0 []) as Ht. rewrite Nat.add_0_r in Ht.
      apply Ht; [lia | lia | simpl; lia |]. split_and!; [constructor | set_solver | lia].
    - eexists. split; [done|]. rewrite Hl1 by done. by apply Hol. }
  assert (∃ or', (if nonempty or then Some or else trace_r is_less pivot v br 0 r []) = Some or' ∧
    traced_r v r br or') as (or'&Hor'&Htr).
  { destruct or as [|o or].
    - pose proof (trace_r_spec v r br 0 []) as Ht. rewrite Nat.sub_0_r in Ht.
      apply Ht; [lia | lia | lia | simpl; lia |]. split_and!; [constructor | set_solver | lia].
    - eexists. split; [done|]. rewrite Hr1 by done. by apply Hor. }
  exists ol', or'. split_and!; [done..|]. split_and!; [done | lia | done | done | done].
Qed.

(** A block with nothing pending is in place. *)
Lemma blocked_advance v l r bl br ol or :
  blocked v l r bl br ol or →
  let l' := if nonempty ol then l else l + bl in
  let r' := if nonempty or then r else r - br in
  outer v l' r' ∧ l' ≤ r' ≤ length v.
Proof.
  intros (Hw&Hr&[Ho1 Ho2]&(_&_&Htl)&(_&_&Htr)). simpl. split; [split|].
  - intros i Hi. destruct ol as [|o ol]; cbn [nonempty] in Hi; [|auto].
    destruct (decide (i < l)); [auto|]. replace i with (l + (i - l)) by lia.
    apply Htl; [lia | set_solver].
  - intros i Hi Hiv. destruct or as [|o or]; cbn [nonempty] in Hi; [|auto].
    destruct (decide (r ≤ i)); [auto|]. replace i with (r - ((r - i - 1) + 1)) by lia.
    apply Htr; [lia | set_solver].
  - destruct (nonempty ol), (nonempty or); lia.
Qed.

Lemma blocks_loop_spec fuel v l r ol or :
  r - l < fuel → pending v l r ol or →
  ∃ v' l' r' ol' or',
    blocks_loop is_less fuel pivot v l r BLOCK BLOCK ol or = Some (v', l', r', ol', or') ∧
    v' ≡ₚ v ∧ final v' l' r' ol' or'.
Proof.
  revert v l r ol or. induction fuel as [|fuel IH]; intros v l r ol or Hf Hpend; [lia|].
  cbn [blocks_loop].
  destruct (block_sizes v l r ol or Hpend) as (bl&br&Hbs&H1&H2&H3&H4&H5&H6&H7). rewrite Hbs.
  cbn [mbind option_bind].
  destruct (trace_both v l r bl br ol or) as (ol1&or1&Hol&Hor&Hb); [done..|].
  rewrite Hol. cbn [mbind option_bind]. rewrite Hor. cbn [mbind option_bind].
  destruct (cycle_spec v l r bl br ol1 or1 Hb) as (v1&ol2&or2&Hc&Hp&Hb1&Hone). rewrite Hc.
  cbn [mbind option_bind].
  pose proof (blocked_advance v1 l r bl br ol2 or2 Hb1) as [Hout Hle].
  assert ((if nonempty or2 then Some r else if br <=? r then Some (r - br) else None)
    = Some (if nonempty or2 then r else r - br)) as ->.
  { destruct (nonempty or2); [done|]. by rewrite (proj2 (Nat.leb_le _ _)) by lia. }
  cbn [mbind option_bind]. destruct Hb1 as (_&_&_&Htl&Htr).
  destruct (Nat.leb_spec (r - l) (2 * BLOCK)) as [Hd|Hd].
  - eexists v1, _, _, ol2, or2. split_and!; [done | done |]. specialize (H6 Hd).
    split_and!; [lia | lia | done | done | | |].
    + intros Hn. destruct Hone as [| ->]; [done|]. destruct ol2; [done|]. cbn [nonempty].
      by replace (r - br - l) with bl by lia.
    + intros Hn. destruct Hone as [-> |]; [|done]. destruct or2; [done|]. cbn [nonempty].
      by replace (r - (l + bl)) with br by lia.
    + intros -> ->. cbn [nonempty]. lia.
  - destruct (H7 Hd) as [-> ->]. set (l' := if nonempty ol2 then l else l + BLOCK) in *.
    set (r' := if nonempty or2 then r else r - BLOCK) in *.
    assert (0 < BLOCK) as HB by (unfold BLOCK; lia).
    destruct (IH v1 l' r' ol2 or2) as (v'&l2&r2&ol3&or3&He&Hp'&Hfin).
    + unfold l', r'. destruct Hone as [-> | ->]; cbn [nonempty]; [destruct (nonempty or2) | destruct (nonempty ol2)]; lia.
    + split_and!; [lia | lia | done | done | |].
      * intros Hn. destruct Hone as [|Hn2]; [done|]. unfold l', r'. rewrite Hn2.
        rewrite (proj2 (nonempty_spec ol2) Hn). cbn [nonempty]. split; [lia | done].
      * intros Hn. destruct Hone as [Hn2|]; [|done]. unfold l', r'. rewrite Hn2.
        rewrite (proj2 (nonempty_spec or2) Hn). cbn [nonempty]. split; [lia | done].
    + exists v', l2, r2, ol3, or3. split_and!; [done | by rewrite Hp' | done].
Qed.

Lemma partition_in_blocks_spec v :
  ∃ v' mid, partition_in_blocks is_less v pivot = Some (v', mid) ∧ v' ≡ₚ v ∧
    mid ≤ length v ∧ split_at v' mid.
Proof.
  unfold partition_in_blocks.
  destruct (blocks_loop_spec (S (length v)) v 0 (length v) [] [])
    as (v1&l&r&ol&or&Hl&Hp&(Hr&Ho&Hone&Htl&Htr&He)); [lia | |].
  { split_and!; [lia | lia | split; lia | by left | done | done]. }
  rewrite Hl. cbn [mbind option_bind]. rewrite <- (Permutation_length Hp).
  destruct (nonempty ol) eqn:Eo; [|destruct (nonempty or) eqn:Er].
  - destruct (finish_left_spec (length ol) v1 l r ol) as (v'&mid&Hf&Hp'&Hm);
      [done | done | done | by apply Htl, nonempty_spec |].
    exists v', mid. split_and!; [done | by rewrite Hp' | by apply Hm | by apply Hm].
  - destruct (finish_right_spec (length or) v1 l r or) as (v'&mid&Hf&Hp'&Hm);
      [done | done | done | by apply Htr, nonempty_spec |].
    exists v', mid. split_and!; [done | by rewrite Hp' | by apply Hm | by apply Hm].
  - destruct ol, or; try done. exists v1, l. split_and!; [done | done | lia |].
    specialize (He eq_refl eq_refl) as ->. done.
Qed.
End blocks.

Section scans.
Context {T R : Type}.
Implicit Types (v w : list (T * R)) (p : T → bool).

(** The key at [i] satisfies, or falsifies, [p]. *)
Definition key_is (b : bool) p v (i : nat) : Prop := ∃ x, v !! i = Some x ∧ p x.1 = b.

Lemma scan_up_spec n p v l r :
  l ≤ r ≤ length v → r - l ≤ n →
  ∃ l', scan_up n p v l r = Some l' ∧ l ≤ l' ≤ r ∧ (∀ i, l ≤ i < l' → key_is true p v i) ∧
    (l' < r → key_is false p v l').
Proof.
  revert l. induction n as [|n IH]; intros l Hl Hn; cbn [scan_up].
  { exists l. split_and!; [done | lia.. |]. lia. }
  destruct (Nat.ltb_spec l r) as [Hlt|Hge].
  2: { exists l. split_and!; [done | lia..]. }
  destruct (lookup_lt_is_Some_2 v l) as [x Hx]; [lia|]. rewrite Hx. cbn [mbind option_bind].
  destruct (p x.1) eqn:E.
  - destruct (IH (l + 1)) as (l'&Hl'&Hle&Hin&Hout); [lia | lia |].
    exists l'. split_and!; [done | lia.. | | done].
    intros i Hi. destruct (decide (i = l)) as [->|]; [by exists x | apply Hin; lia].
  - exists l. split_and!; [done | lia.. |]. intros _. by exists x.
Qed.

Lemma scan_down_spec n p v l r :
  l ≤ r ≤ length v → r - l ≤ n →
  ∃ r', scan_down n p v l r = Some r' ∧ l ≤ r' ≤ r ∧ (∀ i, r' ≤ i < r → key_is true p v i) ∧
    (l < r' → key_is false p v (r' - 1)).
Proof.
  revert r. induction n as [|n IH]; intros r Hl Hn; cbn [scan_down].
  { exists r. split_and!; [done | lia.. |]. lia. }
  destruct (Nat.ltb_spec l r) as [Hlt|Hge].
  2: { exists r. split_and!; [done | lia..]. }
  destruct (lookup_lt_is_Some_2 v (r - 1)) as [x Hx]; [lia|]. rewrite Hx. cbn [mbind option_bind].
  destruct (p x.1) eqn:E.
  - destruct (IH (r - 1)) as (r'&Hr'&Hle&Hin&Hout); [lia | lia |].
    exists r'. split_and!; [done | lia.. | | done].
    intros i Hi. destruct (decide (i = r - 1)) as [->|]; [by exists x | apply Hin; lia].
  - exists r. split_and!; [done | lia.. |]. intros _. by exists x.
Qed.
End scans.

Section pivoting.
Context {T R : Type} (is_less : T → T → bool).
Implicit Types (v w : list (T * R)) (x : T * R).

(** The slice with the pivot moved to the front. *)
Lemma swap_front v pivot x :
  v !! pivot = Some x → ∃ w, swap v 0 pivot = Some (x :: w) ∧ x :: w ≡ₚ v.
Proof.
  intros Hx. pose proof (lookup_lt_Some _ _ _ Hx).
  destruct (swap_some v 0 pivot) as (v1&Hsw&Hp&Hl); [lia..|].
  destruct v1 as [|y w]; [simpl in *; lia|]. exists w.
  pose proof (swap_lookup _ _ _ _ 0 Hsw) as H0. rewrite decide_True in H0 by done. simpl in H0.
  rewrite Hx in H0. injection H0 as ->. done.
Qed.

(** Both ends of the slice are already in place after the two scans. *)
Lemma split_middle pivot w l r s m :
  l ≤ r ≤ length w → length s = r - l → m ≤ length s →
  (∀ i, i < l → lo is_less pivot w i) → (∀ i, r ≤ i → i < length w → hi is_less pivot w i) →
  split_at is_less pivot s m →
  split_at is_less pivot (take l w ++ s ++ drop r w) (l + m).
Proof.
  intros Hr Hs Hm Hlo Hhi [Hs1 Hs2]. set (w' := take l w ++ s ++ drop r w).
  assert (length (take l w) = l) as Hl by (rewrite length_take; lia).
  assert (∀ i, w' !! i = if decide (i < l) then w !! i else if decide (i < r) then s !! (i - l) else w !! i)
    as Hw'.
  { intros i. unfold w'. case_decide.
    - rewrite lookup_app_l by lia. by apply lookup_take_lt.
    - rewrite lookup_app_r by lia. rewrite Hl. case_decide.
      + by rewrite lookup_app_l by lia.
      + rewrite lookup_app_r by lia. rewrite lookup_drop. f_equal. lia. }
  split; unfold lo, hi in *.
  - intros i Hi. rewrite Hw'. case_decide; [auto|]. rewrite decide_True by lia. apply Hs1. lia.
  - intros i Hi Hiv. rewrite Hw', decide_False by lia. case_decide; [apply Hs2; lia|].
    apply Hhi; [lia|]. unfold w' in Hiv. rewrite !length_app, length_drop in Hiv. lia.
Qed.

(** The pivot [x] swapped from the front to position [mid]. *)
Lemma swap_pivot_lookup x (w v' : list (T * R)) mid i :
  swap (x :: w) 0 mid = Some v' →
  v' !! i = if decide (i = mid) then Some x else if decide (i = 0) then w !! (mid - 1) else w !! (i - 1).
Proof.
  intros Hsw. rewrite (swap_lookup _ _ _ _ _ Hsw). destruct (decide (i = mid)) as [->|].
  - destruct (decide (mid = 0)) as [E|]; [by rewrite E|]. done.
  - destruct (decide (i = 0)) as [->|]; by rewrite lookup_cons_ne_0 by lia; rewrite Nat.sub_1_r.
Qed.

Lemma partition_spec v pivot x :
  v !! pivot = Some x →
  ∃ v' mid b, partition is_less v pivot = Some (v', mid, b) ∧ v' ≡ₚ v ∧ mid < length v ∧
    v' !! mid = Some x ∧ (∀ y, y ∈ take mid v' → less is_less y x = true) ∧
    (∀ y, y ∈ drop (mid + 1) v' → less is_less y x = false).
Proof.
  intros Hx. unfold partition. destruct (swap_front v pivot x Hx) as (w&Hsw&Hp). rewrite Hsw.
  cbn [mbind option_bind].
  destruct (scan_up_spec (length w) (λ k, is_less k x.1) w 0 (length w)) as (l&Hl&Hle&Hlin&_); [lia..|].
  rewrite Hl. cbn [mbind option_bind].
  destruct (scan_down_spec (length w) (λ k, negb (is_less k x.1)) w l (length w))
    as (r&Hr&Hre&Hrin&_); [lia..|].
  rewrite Hr. cbn [mbind option_bind].
  rewrite (proj2 (Nat.leb_le l r)), (proj2 (Nat.leb_le r _)) by lia. cbn [andb].
  destruct (partition_in_blocks_spec is_less x.1 (take (r - l) (drop l w))) as (s&m&Hs&Hps&Hm&Hsp).
  rewrite Hs. cbn [mbind option_bind]. pose proof (Permutation_length Hps) as Hls.
  rewrite length_take, length_drop in Hls. rewrite length_take, length_drop in Hm.
  assert (split_at is_less x.1 (take l w ++ s ++ drop r w) (l + m)) as [Hlo Hhi].
  { apply split_middle; [lia | lia | lia | | | done].
    - intros i Hi. apply Hlin. lia.
    - intros i Hi Hiv. destruct (Hrin i) as (y&Hy&Hyn); [lia|]. exists y. split; [done|].
      by apply negb_true_iff. }
  set (w' := take l w ++ s ++ drop r w) in *.
  assert (w' ≡ₚ w) as Hpw by (unfold w'; rewrite Hps; by rewrite slice_split by lia).
  pose proof (Permutation_length Hpw) as Hlw.
  destruct (swap_some (x :: w') 0 (l + m)) as (v'&Hsw'&Hp'&Hl'); [simpl; lia..|]. rewrite Hsw'.
  cbn [mbind option_bind]. eexists v', (l + m), _. split; [done|].
  pose proof (λ i, swap_pivot_lookup x w' v' (l + m) i Hsw') as Hv'.
  split_and!.
  - by rewrite Hp', Hpw.
  - rewrite <- (Permutation_length Hp). simpl. lia.
  - rewrite Hv'. by rewrite decide_True.
  - intros y [i [Hi Hlt]%lookup_take_Some]%list_elem_of_lookup.
    rewrite Hv', decide_False in Hi by lia.
    destruct (decide (i = 0)); [destruct (Hlo (l + m - 1)) as (z&Hz&?) |
      destruct (Hlo (i - 1)) as (z&Hz&?)]; try lia; by simplify_eq.
  - intros y [i Hi]%list_elem_of_lookup. rewrite lookup_drop in Hi.
    pose proof (lookup_lt_Some _ _ _ Hi) as Hiv. simpl in Hl'.
    rewrite Hv', !decide_False in Hi by lia.
    destruct (Hhi (l + m + 1 + i - 1)) as (z&Hz&?); [lia | lia |]. by simplify_eq.
Qed.

Lemma partition_equal_loop_spec fuel k v l r :
  r - l < fuel → l ≤ r ≤ length v →
  (∀ i, i < l → key_is false (is_less k) v i) →
  (∀ i, r ≤ i → i < length v → key_is true (is_less k) v i) →
  ∃ v' l', partition_equal_loop is_less fuel k v l r = Some (v', l') ∧ v' ≡ₚ v ∧
    l' ≤ length v ∧ (∀ i, i < l' → key_is false (is_less k) v' i) ∧
    (∀ i, l' ≤ i → i < length v → key_is true (is_less k) v' i).
Proof.
  revert v l r. induction fuel as [|fuel IH]; intros v l r Hf Hr Hlo Hhi; [lia|].
  cbn [partition_equal_loop].
  destruct (scan_up_spec (length v) (λ z : T, negb (is_less k z)) v l r) as (l1&Hl1&Hle1&Hin1&Hout1); [lia..|].
  rewrite Hl1. cbn [mbind option_bind].
  destruct (scan_down_spec (length v) (λ z : T, is_less k z) v l1 r) as (r1&Hr1&Hre1&Hin2&Hout2); [lia..|].
  rewrite Hr1. cbn [mbind option_bind].
  assert (∀ i, i < l1 → key_is false (is_less k) v i) as Hlo1.
  { intros i Hi. destruct (decide (i < l)); [auto|]. destruct (Hin1 i) as (x&Hx&Hn); [lia|].
    exists x. split; [done | by apply negb_true_iff]. }
  assert (∀ i, r1 ≤ i → i < length v → key_is true (is_less k) v i) as Hhi1.
  { intros i Hi Hiv. destruct (decide (r ≤ i)); [auto|]. apply Hin2. lia. }
  destruct (Nat.leb_spec r1 l1) as [Hge|Hlt].
  { exists v, l1. assert (l1 = r1) as -> by lia. split_and!; [done | done | lia | done | done]. }
  destruct (Hout1 ltac:(lia)) as (x&Hx&Hxk%negb_false_iff). destruct (Hout2 Hlt) as (y&Hy&Hyk).
  assert (l1 ≠ r1 - 1) as Hne by (intros E; rewrite E in Hx; congruence).
  destruct (swap_some v l1 (r1 - 1)) as (v1&Hsw&Hp&Hl); [lia..|]. rewrite Hsw. cbn [mbind option_bind].
  pose proof (λ i, swap_lookup _ _ _ _ i Hsw) as Hlk.
  destruct (IH v1 (l1 + 1) (r1 - 1)) as (v'&l'&He&Hp'&Hl'&Hlo'&Hhi'); [lia | lia | | |].
  - intros i Hi. unfold key_is. rewrite Hlk. case_decide; [by exists y|].
    rewrite decide_False by lia. apply Hlo1. lia.
  - intros i Hi Hiv. unfold key_is. rewrite Hlk, decide_False by lia. case_decide; [by exists x|].
    apply Hhi1; lia.
  - rewrite Hl in *. exists v', l'. split_and!; [done | by rewrite Hp' | done | done | done].
Qed.

Lemma partition_equal_spec v pivot x :
  less is_less x x = false → v !! pivot = Some x →
  ∃ v' mid, partition_equal is_less v pivot = Some (v', mid) ∧ v' ≡ₚ v ∧ 0 < mid ≤ length v ∧
    (∀ y, y ∈ take mid v' → less is_less x y = false) ∧
    (∀ y, y ∈ drop mid v' → less is_less x y = true).
Proof.
  intros Hirr Hx. unfold partition_equal. destruct (swap_front v pivot x Hx) as (w&Hsw&Hp). rewrite Hsw.
  cbn [mbind option_bind].
  destruct (partition_equal_loop_spec (S (length w)) x.1 w 0 (length w))
    as (w'&l&Hl&Hpw&Hle&Hlo&Hhi); [lia..|].
  rewrite Hl. cbn [mbind option_bind]. exists (x :: w'), (l + 1).
  rewrite <- (Permutation_length Hp). rewrite Nat.add_1_r. simpl.
  split_and!; [done | by rewrite Hpw | lia | lia | |].
  - intros y [->|[i [Hi Hlt]%lookup_take_Some]%list_elem_of_lookup]%elem_of_cons; [done|].
    destruct (Hlo i Hlt) as (z&Hz&?). by simplify_eq.
  - intros y [i Hi]%list_elem_of_lookup. rewrite lookup_drop in Hi.
    pose proof (lookup_lt_Some _ _ _ Hi) as Hiv. rewrite (Permutation_length Hpw) in Hiv.
    destruct (Hhi (l + i)) as (z&Hz&?); [lia..|]. by simplify_eq.
Qed.

(** *** Choosing a pivot *)
Lemma sort2_spec v a b n :
  a < length v → b < length v →
  ∃ a' b' n', sort2 is_less v a b n = Some (a', b', n') ∧ a' < length v ∧ b' < length v.
Proof.
  intros Ha Hb. unfold sort2. destruct (lookup_lt_is_Some_2 v a Ha) as [x ->].
  destruct (lookup_lt_is_Some_2 v b Hb) as [y ->]. cbn [mbind option_bind].
  destruct (less _ _ _); eexists _, _, _; done.
Qed.

Lemma sort3_spec v a b c n :
  a < length v → b < length v → c < length v →
  ∃ a' b' c' n', sort3 is_less v a b c n = Some (a', b', c', n') ∧
    a' < length v ∧ b' < length v ∧ c' < length v.
Proof.
  intros Ha Hb Hc. unfold sort3.
  destruct (sort2_spec v a b n) as (a1&b1&n1&->&Ha1&Hb1); [done..|]. cbn [mbind option_bind].
  destruct (sort2_spec v b1 c n1) as (b2&c2&n2&->&Hb2&Hc2); [done..|]. cbn [mbind option_bind].
  destruct (sort2_spec v a1 b2 n2) as (a3&b3&n3&->&Ha3&Hb3); [done..|]. cbn [mbind option_bind].
  eexists _, _, _, _. done.
Qed.

Lemma sort_adjacent_spec v a n :
  1 ≤ a → a + 1 < length v → ∃ a' n', sort_adjacent is_less v a n = Some (a', n') ∧ a' < length v.
Proof.
  intros H1 H2. unfold sort_adjacent. rewrite (proj2 (Nat.leb_le _ _) H1).
  destruct (sort3_spec v (a - 1) a (a + 1) n) as (a'&b'&c'&n'&->&_&Hb&_); [lia..|].
  eexists _, _. done.
Qed.

Lemma choose_pivot_spec v :
  8 ≤ length v →
  ∃ w b s, choose_pivot is_less v = Some (w, b, s) ∧ w ≡ₚ v ∧ b < length v.
Proof.
  intros Hl. unfold choose_pivot. rewrite (proj2 (Nat.leb_le _ _) Hl).
  pose proof (Nat.div_mod_eq (length v) 4). pose proof (Nat.mod_upper_bound (length v) 4).
  set (q := length v / 4) in *.
  assert (∃ a b c n, (if SHORTEST_MEDIAN_OF_MEDIANS <=? length v then
            '(a, swaps) ← sort_adjacent is_less v q 0;
            '(b, swaps) ← sort_adjacent is_less v (q * 2) swaps;
            '(c, swaps) ← sort_adjacent is_less v (q * 3) swaps;
            Some (a, b, c, swaps)
          else Some (q, q * 2, q * 3, 0)) = Some (a, b, c, n) ∧
    a < length v ∧ b < length v ∧ c < length v) as (a&b&c&n&->&Ha&Hb&Hc).
  { destruct (_ <=? length v).
    - destruct (sort_adjacent_spec v q 0) as (a&n1&->&Ha); [lia..|]. cbn [mbind option_bind].
      destruct (sort_adjacent_spec v (q * 2) n1) as (b&n2&->&Hb); [lia..|]. cbn [mbind option_bind].
      destruct (sort_adjacent_spec v (q * 3) n2) as (c&n3&->&Hc); [lia..|]. cbn [mbind option_bind].
      eexists _, _, _, _. done.
    - eexists _, _, _, _. split; [done|]. lia. }
  cbn [mbind option_bind].
  destruct (sort3_spec v a b c n) as (a'&b'&c'&n'&->&_&Hb'&_); [done..|]. cbn [mbind option_bind].
  destruct (_ <? _); [by eexists _, _, _|]. rewrite (proj2 (Nat.leb_le _ _)) by lia.
  eexists _, _, _. split; [done|]. split; [apply reverse_Permutation | lia].
Qed.
End pivoting.

(** *** Breaking patterns *)
Section breaking.
Context {A : Type}.
Implicit Types v : list A.

Lemma gen_u32_nonneg z : (0 ≤ z → 0 ≤ gen_u32 z)%Z.
Proof.
  intros Hz. unfold gen_u32. assert (∀ x, 0 ≤ wrap u32 x)%Z as Hw.
  { intros x. unfold wrap. simpl. apply Z.mod_pos_bound. lia. }
  repeat (apply Z.lxor_nonneg; split; intros _); rewrite ?Z.shiftr_nonneg; auto;
    apply Z.lxor_nonneg; split; auto.
Qed.

Lemma other_index len g :
  8 ≤ len → (0 ≤ g)%Z →
  let other := Z.to_nat (Z.land g (next_power_of_two (Z.of_nat len) - 1)) in
  (if len <=? other then other - len else other) < len.
Proof.
  intros Hl Hg. simpl. unfold next_power_of_two.
  pose proof (Z.log2_up_spec (Z.of_nat len) ltac:(lia)) as [Hlo _].
  pose proof (Z.log2_up_pos (Z.of_nat len) ltac:(lia)) as Hpos.
  assert (2 ^ Z.log2_up (Z.of_nat len) < 2 * Z.of_nat len)%Z as Hpow.
  { replace (Z.log2_up (Z.of_nat len)) with (Z.succ (Z.pred (Z.log2_up (Z.of_nat len)))) at 1 by lia.
    rewrite Z.pow_succ_r by lia. lia. }
  replace (2 ^ Z.log2_up (Z.of_nat len) - 1)%Z
    with (Z.ones (Z.log2_up (Z.of_nat len))) by (rewrite Z.ones_equiv; lia).
  rewrite Z.land_ones by lia.
  pose proof (Z.mod_pos_bound g (2 ^ Z.log2_up (Z.of_nat len)) ltac:(apply Z.pow_pos_nonneg; lia)).
  destruct (Nat.leb_spec len (Z.to_nat (g mod 2 ^ Z.log2_up (Z.of_nat len)))); lia.
Qed.

Lemma break_loop_spec n i v pos z :
  8 ≤ length v → (0 ≤ z)%Z → pos - 1 + i + n ≤ length v →
  ∃ w, break_loop n i v pos z = Some w ∧ w ≡ₚ v.
Proof.
  revert i v z. induction n as [|n IH]; intros i v z Hl Hz Hi; [by exists v|].
  cbn [break_loop gen_usize].
  pose proof (gen_u32_nonneg z Hz) as H1. pose proof (gen_u32_nonneg _ H1) as H2.
  pose proof (other_index (length v) (Z.lor (Z.shiftl (gen_u32 z) 32) (gen_u32 (gen_u32 z))) Hl) as Ho.
  destruct (swap_some v (pos - 1 + i) _ ltac:(lia) (Ho ltac:(apply Z.lor_nonneg; split;
    [by apply Z.shiftl_nonneg | done]))) as (v1&Hsw&Hp&Hl1).
  unfold gen_usize. rewrite Hsw. cbn [mbind option_bind].
  destruct (IH (i + 1) v1 (gen_u32 (gen_u32 z))) as (w&Hw&Hpw); [lia | done | lia |].
  exists w. split; [done | by rewrite Hpw].
Qed.

Lemma break_patterns_spec v : ∃ w, break_patterns v = Some w ∧ w ≡ₚ v.
Proof.
  unfold break_patterns. destruct (Nat.leb_spec 8 (length v)); [|by exists v].
  pose proof (Nat.div_mod_eq (length v) 4). apply break_loop_spec; [done | | lia].
  unfold wrap. simpl. apply Z.mod_pos_bound. lia.
Qed.
End breaking.

Section sorting.
Context {T R : Type} (is_less : T → T → bool) `{!StrictWeakOrder is_less}.
Implicit Types (v w : list (T * R)).
Abbreviation less := (less (R:=R) is_less).

(** [pred] is a lower bound of the slice. *)
Definition above (pred : option T) v : Prop :=
  ∀ p x, pred = Some p → x ∈ v → is_less x.1 p = false.

(** The slice around a pivot in its place. *)
Lemma sorted_around (l1 l2 : list (T * R)) x :
  sorted less l1 → sorted less l2 → (∀ y, y ∈ l1 → less y x = true) →
  (∀ y, y ∈ l2 → less y x = false) → sorted less (l1 ++ x :: l2).
Proof.
  intros H1 H2 Hlo Hhi. apply sorted_app. split_and!; [done | by apply sorted_cons |].
  intros a b Ha [->|Hb]%elem_of_cons; [by apply (less_le less), Hlo|].
  transitivity x; [by apply (less_le less), Hlo | by apply Hhi].
Qed.

(** A slice whose elements are all equivalent to the pivot. *)
Lemma sorted_equal (l1 : list (T * R)) x :
  (∀ y, y ∈ l1 → less x y = false ∧ less y x = false) → sorted less l1.
Proof.
  induction l1 as [|y l IH]; intros Hx; [apply sorted_nil|]. apply sorted_cons. split.
  - apply IH. intros. apply Hx. by right.
  - intros z Hz. transitivity x; unfold le; apply Hx; [left | by right].
Qed.

(** The optional steps before partitioning permute the slice. *)
Lemma rebalance_spec v (wb : bool) limit :
  ∃ v1 lim, (if negb wb then v ← break_patterns v; Some (v, limit - 1) else Some (v, limit))
    = Some (v1, lim) ∧ v1 ≡ₚ v.
Proof.
  destruct wb; simpl; [by exists v, limit|]. destruct (break_patterns_spec v) as (w&->&Hp). by eexists _, _.
Qed.

Lemma try_insertion_spec v (c : bool) :
  v ≠ [] →
  ∃ v' b, (if c then partial_insertion_sort is_less v else Some (v, false)) = Some (v', b) ∧
    v' ≡ₚ v ∧ (b = true → sorted less v').
Proof. intros Hne. destruct c; [|by exists v, false]. by apply partial_insertion_sort_spec. Qed.

(** Keys equal to the pivot, then the sorted rest. *)
Lemma equal_then_sorted v mid x p w :
  (∀ y, y ∈ v → is_less y.1 p = false) → is_less p x.1 = false →
  (∀ y, y ∈ take mid v → le less y x) → (∀ y, y ∈ drop mid v → less x y = true) →
  sorted less w → w ≡ₚ drop mid v →
  sorted less (take mid v ++ w) ∧ take mid v ++ w ≡ₚ v.
Proof.
  intros Hv Hp Hlo Hhi Hs Hw. split; [|by rewrite Hw, take_drop].
  apply sorted_app. split_and!; [|done|].
  - apply (sorted_equal _ x). intros y Hy. split; [by apply Hlo|].
    apply (less_neg_trans x.1 p y.1); [done|]. apply Hv. rewrite <- (take_drop mid v). set_solver.
  - intros a b Hta. rewrite Hw. intros Hdb. transitivity x; [by apply Hlo|]. by apply (less_le less), Hhi.
Qed.

(** The pivot between two sorted sides. *)
Lemma around_pivot v mid x (l1 l2 : list (T * R)) :
  v !! mid = Some x → (∀ y, y ∈ take mid v → less y x = true) → (∀ y, y ∈ drop (mid + 1) v → less y x = false) →
  sorted less l1 → l1 ≡ₚ take mid v → sorted less l2 → l2 ≡ₚ drop (mid + 1) v →
  sorted less (l1 ++ x :: l2) ∧ l1 ++ x :: l2 ≡ₚ v.
Proof.
  intros Hm Hlo Hhi Hs1 Hq1 Hs2 Hq2. split.
  - apply sorted_around; [done | done | |]; intros y; rewrite ?Hq1, ?Hq2; [apply Hlo | apply Hhi].
  - by rewrite Hq1, Hq2, Nat.add_1_r, <- (drop_S _ _ _ Hm), take_drop.
Qed.

Lemma above_perm pred v (w : list (T * R)) : above pred v → (∀ y, y ∈ w → y ∈ v) → above pred w.
Proof. intros Ha Hw p y Hp Hy. eapply Ha; eauto. Qed.

(** Sorting both sides of a partition, in either order, sorts the slice. *)
Lemma both_sides_spec v4 mid x pred fuel lim (c wb wp : bool) :
  v4 !! mid = Some x → (∀ y, y ∈ take mid v4 → less y x = true) → (∀ y, y ∈ drop (mid + 1) v4 → less y x = false) →
  (∀ b1 b2, ∃ w, recurse is_less fuel (take mid v4) pred lim b1 b2 = Some w ∧ sorted less w ∧ w ≡ₚ take mid v4) →
  (∀ b1 b2, ∃ w, recurse is_less fuel (drop (mid + 1) v4) (Some x.1) lim b1 b2 = Some w ∧ sorted less w ∧
     w ≡ₚ drop (mid + 1) v4) →
  ∃ w, (if c then
          left_ ← recurse is_less fuel (take mid v4) pred lim true true;
          right_ ← recurse is_less fuel (drop (mid + 1) v4) (Some x.1) lim wb wp;
          Some (left_ ++ x :: right_)
        else
          right_ ← recurse is_less fuel (drop (mid + 1) v4) (Some x.1) lim true true;
          left_ ← recurse is_less fuel (take mid v4) pred lim wb wp;
          Some (left_ ++ x :: right_)) = Some w ∧ sorted less w ∧ w ≡ₚ v4.
Proof.
  intros Hm Hlo Hhi IHl IHr. destruct c.
  - destruct (IHl true true) as (w1&->&Hs1&Hq1). cbn [mbind option_bind].
    destruct (IHr wb wp) as (w2&->&Hs2&Hq2). cbn [mbind option_bind]. eexists. split; [done|].
    by apply (around_pivot v4 mid).
  - destruct (IHr true true) as (w2&->&Hs2&Hq2). cbn [mbind option_bind].
    destruct (IHl wb wp) as (w1&->&Hs1&Hq1). cbn [mbind option_bind]. eexists. split; [done|].
    by apply (around_pivot v4 mid).
Qed.

Lemma recurse_spec fuel v pred limit wb wp :
  length v < fuel → above pred v →
  ∃ w, recurse is_less fuel v pred limit wb wp = Some w ∧ sorted less w ∧ w ≡ₚ v.
Proof.
  revert v pred limit wb wp. induction fuel as [|fuel IH]; intros v pred limit wb wp Hf Ha; [lia|].
  cbn [recurse]. destruct (Nat.leb_spec (length v) QUICK_MAX_INSERTION) as [|Hlen];
    [by apply insertion_sort_spec|].
  destruct (limit =? 0); [by apply heapsort_spec|].
  destruct (rebalance_spec v wb limit) as (v1&lim&->&Hp1).
  cbn [mbind option_bind]. unfold QUICK_MAX_INSERTION in Hlen.
  destruct (choose_pivot_spec is_less v1) as (v2&pivot&ls&->&Hp2&Hpv);
    [rewrite (Permutation_length Hp1); lia|].
  cbn [mbind option_bind].
  destruct (try_insertion_spec v2 (wb && wp && ls)) as (v3&b&->&Hp3&Hb).
  { intros ->. rewrite <- (Permutation_length Hp2) in Hpv. simpl in Hpv. lia. }
  cbn [mbind option_bind]. assert (v3 ≡ₚ v) as Hp by (by rewrite Hp3, Hp2).
  destruct b; [by exists v3; auto|]. clear Hb ls. pose proof (Permutation_length Hp) as Hlp.
  destruct (lookup_lt_is_Some_2 v3 pivot) as [x Hx].
  { rewrite Hlp, <- (Permutation_length Hp1). done. }
  rewrite Hx. cbn [mbind option_bind].
  destruct (match pred with Some p => negb (is_less p x.1) | None => false end) eqn:Epred.
  - destruct pred as [p|]; [|done]. apply negb_true_iff in Epred.
    destruct (partition_equal_spec is_less v3 pivot x) as (v4&mid&->&Hp4&Hmid&Hlo&Hhi);
      [apply less_irrefl | done |].
    cbn [mbind option_bind]. rewrite (Permutation_length Hp4), (proj2 (Nat.leb_le _ _)) by lia.
    pose proof (Permutation_length Hp4) as Hl4.
    assert (∀ y, y ∈ v4 → is_less y.1 p = false) as Hy4.
    { intros y Hy. apply (Ha p y eq_refl). by rewrite <- Hp, <- Hp4. }
    destruct (IH (drop mid v4) (Some p) lim wb wp) as (w&->&Hsw&Hpw).
    { rewrite length_drop. lia. }
    { intros p' y [= <-] Hy. apply Hy4. rewrite <- (take_drop mid v4). set_solver. }
    cbn [mbind option_bind]. eexists. split; [done|]. rewrite <- Hp, <- Hp4.
    by apply (equal_then_sorted v4 mid x p w).
  - destruct (partition_spec is_less v3 pivot x Hx) as (v4&mid&bp&->&Hp4&Hmid&Hm&Hlo&Hhi).
    cbn [mbind option_bind]. rewrite (proj2 (Nat.leb_le _ _)) by lia. rewrite Hm. cbn [mbind option_bind].
    pose proof (Permutation_length Hp4) as Hl4.
    rewrite <- Hp4 in Hp.
    destruct (both_sides_spec v4 mid x pred fuel lim (length (take mid v4) <? length (drop (mid + 1) v4))
      (length v / 8 <=? Nat.min mid (length v - mid)) bp Hm Hlo Hhi) as (w&Hw&Hsw&Hpw).
    + intros b1 b2. apply IH; [rewrite length_take; lia|].
      apply (above_perm _ v); [done|]. intros y Hy. rewrite <- Hp, <- (take_drop mid v4). set_solver.
    + intros b1 b2. apply IH; [rewrite length_drop; lia|]. intros p y [= <-] Hy. by apply Hhi.
    + exists w. split; [exact Hw|]. split; [done|]. by rewrite Hpw.
Qed.
End sorting.

#[global] Instance kltb_strict_weak `{Ord T} : StrictWeakOrder (kltb (K:=T)) :=
  cmp_strict_weak (λ x, x).

(** Keys in ascending order, equal keys allowed. *)
Definition keys_ascending `{Ord T} (l : list T) : Prop := StronglySorted (λ x y, ¬ y ≺ x) l.

Section keys.
Context `{Ord T} {R : Type}.

Lemma sorted_keys (l : list (T * R)) : sorted (less kltb) l ↔ keys_ascending l.*1.
Proof.
  unfold sorted, keys_ascending. split.
  - induction 1 as [|x l _ IH Hf]; [constructor|]. cbn. constructor; [done|].
    apply Forall_fmap. eapply Forall_impl; [exact Hf|]. intros y. apply kltb_false.
  - induction l as [|x l IH]; intros Hs; [constructor|]. inv Hs as [|?? Hs' Hf].
    constructor; [auto|]. rewrite Forall_fmap in Hf. eapply Forall_impl; [exact Hf|].
    intros y. apply kltb_false.
Qed.

(** A zero-sized type has one value. *)
Lemma zip_singleton (w v : list T) (v2 : list R) :
  (∀ x y : R, x = y) → w ≡ₚ v → length v = length v2 → zip w v2 ≡ₚ zip v v2.
Proof.
  intros Hone Hp Hl. destruct v2 as [|r v2].
  { destruct v; [|done]. apply Permutation_nil_r in Hp as ->. done. }
  assert (∀ l : list T, length l = length (r :: v2) → zip l (r :: v2) = (λ x, (x, r)) <$> l) as Hz.
  { generalize (r :: v2). intros u l. revert u. induction l as [|x l IH]; intros [|a u] Hlu; try done.
    cbn. f_equal; [by rewrite (Hone a r)|]. apply IH. simpl in Hlu. lia. }
  rewrite !Hz by (rewrite ?(Permutation_length Hp); done). by apply fmap_Permutation.
Qed.

Lemma keys_ascending_singleton (l : list T) : (∀ x y : T, x = y) → keys_ascending l.
Proof.
  intros Hone. induction l as [|x l IH]; constructor; [done|].
  apply Forall_forall. intros y _. rewrite (Hone y x). apply klt_irrefl.
Qed.
End keys.

Lemma quicksort_sorts `{Ord T} {R} (size_t size_r : nat) (v : list T) (v2 : list R) :
  length v = length v2 → (size_t = 0 → ∀ x y : T, x = y) → (size_r = 0 → ∀ x y : R, x = y) →
  ∃ w w2, quicksort size_t size_r v v2 = Some (w, w2) ∧ length w = length w2 ∧
    keys_ascending w ∧ zip w w2 ≡ₚ zip v v2.
Proof.
  intros Hl Ht Hr. unfold quicksort. rewrite (proj2 (Nat.eqb_eq _ _) Hl).
  destruct (Nat.eqb_spec size_t 0) as [Hz|Hz].
  { exists v, v2. split_and!; [done | done | | done]. by apply keys_ascending_singleton, Ht. }
  destruct (Nat.eqb_spec size_r 0) as [Hzr|Hzr].
  { destruct (merge_sort_spec kltb size_t v Hz) as (w&Hw&Hs&Hst%(stable_perm kltb)).
    unfold stable_sort, stable_sort_by. fold (kltb (K:=T)). rewrite Hw. cbn [mbind option_bind].
    exists w, v2. split_and!; [done | by rewrite (Permutation_length Hst) | | by apply zip_singleton; auto].
    eapply StronglySorted_mono; [|exact Hs]. intros x y. apply kltb_false. }
  destruct (recurse_spec kltb (S (length v)) (zip v v2) None
    (Z.to_nat (if decide (length v = 0) then 0 else Z.log2 (Z.of_nat (length v)) + 1)) true true)
    as (w&->&Hs&Hp).
  { rewrite length_zip. lia. }
  { intros p x [=]. }
  cbn [mbind option_bind]. exists w.*1, w.*2. split_and!; [done | by rewrite !length_fmap | |].
  - by apply sorted_keys.
  - by rewrite zip_fst_snd.
Qed.


