(* ===== verification/Consolidation.v ===== *)
(** Consolidation: the routines that turn a list of (key, weight) pairs into the
    canonical representation of the Z-set it denotes
    (crates/dbsp/src/utils/consolidation.rs).

    All of them sort by key, add up the weights of equal keys and drop the keys
    whose weight is zero.  They differ in the sort they use, in the routine that
    folds the runs, and in what they return (a shortened vector, or the length of
    the valid prefix of a slice). *)
From Stdlib Require Import Sorting.Sorted.
From S2P Require Import Prelude Machine Sort Quicksort LeanVec.
#[local] Open Scope nat_scope.

Section code.
Context `{Ord K} `{MonoidValue R}.
Implicit Types (vec slice : list (K * R)) (keys : list K) (diffs : list R).

(** The closure given to [dedup_by]: the current pair, then the last one kept. *)
Definition same_key : bucket (K * R) := λ '(key1, data1) '(key2, data2),
  if bool_decide (key1 = key2) then (true, ((key1, mzero), (key2, data2 ⊕ data1)))
  else (false, ((key1, data1), (key2, data2))).
Definition keep : K * R → bool := λ '(_, data), negb (is_zero data).
Definition by_key (x y : K * R) : comparison := cmp x.1 y.1.

(** [consolidate]; [size] is the size of [Tup2<T, R>]. *)
Definition consolidate (size : nat) vec : option (list (K * R)) :=
  match vec with
  | [] => Some vec
  | _ =>
    vec ← unstable_sort_by size by_key vec;
    vec ← dedup_by same_key vec;
    retain keep vec
  end.

(** [consolidate_from]: [vec[offset..]] panics when [offset] is past the end. *)
Definition consolidate_from (size : nat) vec (offset : nat) : option (list (K * R)) :=
  assert! (offset <=? length vec) in
  match drop offset vec with
  | [] => Some vec
  | _ =>
    vec ← with_slice vec offset (length vec) (unstable_sort_by size by_key);
    vec ← dedup_starting_at same_key offset vec;
    retain_starting_at keep offset vec
  end.
End code.

(** [consolidate_slice_inner]: the slice and the length of its valid prefix. *)
Section inner.
Context {T : Type} (are_equal : T → T → bool) (merge : T → T → T) (is_zero : T → bool).

Fixpoint slice_loop (n index : nat) (slice : list T) (offset : nat) : option (list T * nat) :=
  match n with
  | O => Some (slice, offset)
  | S n =>
    p ← slice !! offset;
    x ← slice !! index;
    if are_equal p x then slice_loop n (index + 1) (<[offset := merge p x]> slice) offset
    else
      let offset := if negb (is_zero p) then offset + 1 else offset in
      slice ← swap slice offset index;
      slice_loop n (index + 1) slice offset
  end.

Definition consolidate_slice_inner (slice : list T) : option (list T * nat) :=
  let slice_len := length slice in
  '(slice, offset) ← slice_loop (slice_len - 1) 1 slice 0;
  if offset <? slice_len then
    p ← slice !! offset;
    Some (slice, if negb (is_zero p) then offset + 1 else offset)
  else Some (slice, offset).
End inner.

Section slices.
Context `{Ord K} `{MonoidValue R}.
Implicit Types (slice : list (K * R)) (keys : list K) (diffs : list R).

Definition same_key_slice (x y : K * R) : bool := bool_decide (x.1 = y.1).
Definition add_diff (x y : K * R) : K * R := (x.1, x.2 ⊕ y.2).
Definition zero_diff (x : K * R) : bool := is_zero x.2.

Definition consolidate_slice (size : nat) slice : option (list (K * R) * nat) :=
  match slice with
  | [] => Some (slice, 0)
  | _ =>
    slice ← unstable_sort_by size by_key slice;
    consolidate_slice_inner same_key_slice add_diff zero_diff slice
  end.

(** [consolidate_payload_from]. *)
Definition consolidate_payload_from (size_t size_r : nat) keys diffs (offset : nat) :
  option (list K * list R) :=
  assert! (length keys =? length diffs) in
  assert! (offset <=? length keys) in
  match drop offset keys with
  | [] => Some (keys, diffs)
  | _ =>
    '(ks, ds) ← quicksort size_t size_r (drop offset keys) (drop offset diffs);
    '(keys, diffs) ← dedup_payload_starting_at (take offset keys ++ ks) (take offset diffs ++ ds)
      offset same_key;
    retain_payload_starting_at keys diffs offset (λ _ diff, negb (is_zero diff))
  end.

(** The loop of [compact_paired_slices] that adds all diffs to the first. *)
Definition sum_diffs (sum : R) diffs : R := foldl madd sum diffs.

(** [compact_paired_slices]; the last loop moves [keys] and [diffs] together. *)
Definition compact_paired_slices (size_t size_r : nat) keys diffs :
  option (list K * list R * nat) :=
  if size_t =? 0 then
    match diffs with
    | [] => None
    | sum :: diffs =>
      let sum := sum_diffs sum diffs in
      Some (keys, sum :: diffs, if negb (is_zero sum) then 1 else 0)
    end
  else if size_r =? 0 then
    d ← diffs !! 0;
    Some (keys, diffs, if negb (is_zero d) then 1 else 0)
  else
    '(w, n) ← consolidate_slice_inner same_key_slice add_diff zero_diff (zip keys diffs);
    Some (w.*1, w.*2, n).

Definition consolidate_paired_slices (size_t size_r : nat) keys diffs :
  option (list K * list R * nat) :=
  assert! (length keys =? length diffs) in
  match keys with
  | [] => Some (keys, diffs, 0)
  | _ =>
    '(keys, diffs) ← quicksort size_t size_r keys diffs;
    compact_paired_slices size_t size_r keys diffs
  end.

(** [ConsolidatePairedSlicesImpl::consolidate_paired_slices]: on ranges of two vectors. *)
Definition consolidate_paired_ranges (size_t size_r : nat) keys (from1 to1 : nat)
    diffs (from2 to2 : nat) : option (list K * list R * nat) :=
  assert! ((from1 <=? to1) && (to1 <=? length keys)) in
  assert! ((from2 <=? to2) && (to2 <=? length diffs)) in
  '(ks, ds, n) ← consolidate_paired_slices size_t size_r
    (take (to1 - from1) (drop from1 keys)) (take (to2 - from2) (drop from2 diffs));
  Some (take from1 keys ++ ks ++ drop to1 keys, take from2 diffs ++ ds ++ drop to2 diffs, n).
End slices.

(** ** The sort, as an interface *)
(** What consolidation needs of a sort: it returns, ascending by key, the same pairs. *)
Class PairSorter `{Ord K} {R} (sort : list (K * R) → option (list (K * R))) : Prop :=
  pair_sort : ∀ l, ∃ w, sort l = Some w ∧ keys_ascending w.*1 ∧ w ≡ₚ l.

(** A zero-sized type has a single value. *)
Definition zst_ok (A : Type) (size : nat) : Prop := size = 0 → ∀ x y : A, x = y.

Lemma by_key_sorted `{Ord K} {R} (l : list (K * R)) :
  sorted (λ x y, match by_key x y with Lt => true | _ => false end) l → keys_ascending l.*1.
Proof. apply sorted_keys. Qed.

#[global] Instance unstable_sort_sorter `{Ord K} {R} size (Hz : zst_ok (K * R) size) :
  PairSorter (R:=R) (unstable_sort_by size by_key).
Proof.
  intros l. destruct (decide (size = 0)) as [->|Hne].
  - exists l. split_and!; [done | | done]. specialize (Hz eq_refl).
    induction l as [|x l IH]; cbn; constructor; [done|]. apply Forall_fmap, Forall_forall.
    intros y _. cbn. rewrite (Hz y x). apply klt_irrefl.
  - destruct (merge_sort_spec _ size l Hne (StrictWeakOrder0 := cmp_strict_weak fst)) as (w&Hw&Hs&Hst).
    exists w. split_and!; [done | by apply by_key_sorted |].
    by apply (stable_perm _ (StrictWeakOrder0 := cmp_strict_weak fst)).
Qed.

#[global] Instance quicksort_sorter `{Ord K} {R} size_t size_r
    (Ht : zst_ok K size_t) (Hr : zst_ok R size_r) :
  PairSorter (R:=R) (λ l, '(k, d) ← quicksort size_t size_r l.*1 l.*2; Some (zip k d)).
Proof.
  intros l. destruct (quicksort_sorts size_t size_r l.*1 l.*2) as (w&w2&Hq&Hl&Hs&Hp);
    [by rewrite !length_fmap | done | done |].
  rewrite Hq. cbn [mbind option_bind]. exists (zip w w2). split_and!; [done | |].
  - by rewrite fst_zip by lia.
  - by rewrite zip_fst_snd in Hp.
Qed.

(** ** Folding the runs of a sorted list *)
Section fold.
Context `{Ord K} `{MonoidValue R}.
Implicit Types (l : list (K * R)) (p x : K * R).

(** The consolidated list, from the sorted one. *)
Definition fold_runs l : list (K * R) := List.filter keep (dedup_ref same_key l).

Lemma keep_spec p : keep p = true ↔ p.2 ≠ mzero.
Proof. destruct p. unfold keep. by rewrite negb_true_iff, is_zero_false. Qed.

Lemma wt_filter_keep l k : wt (List.filter keep l) k = wt l k.
Proof.
  induction l as [|[k' r] l IH]; [done|]. cbn [List.filter]. destruct (keep (k', r)) eqn:E; cbn [wt].
  - by rewrite IH.
  - rewrite IH. cbn in E. apply negb_false_iff, is_zero_true in E as ->. case_decide; [|done].
    by rewrite madd_0_l.
Qed.

Lemma keys_sorted_filter f l : keys_sorted l → keys_sorted (List.filter f l).
Proof.
  unfold keys_sorted. induction l as [|x l IH]; cbn; intros Hs; [done|].
  inv Hs as [|?? Hs' Hf]. destruct (f x); [|auto]. cbn. constructor; [auto|].
  rewrite Forall_forall in *. intros y (z&->&Hz)%list_elem_of_fmap. apply Hf.
  apply list_elem_of_fmap. exists z. split; [done|].
  apply list_elem_of_In in Hz. apply filter_In in Hz as [Hz _]. by apply list_elem_of_In.
Qed.

Lemma dedup_from_cons k2 d2 k1 d1 l :
  dedup_from same_key (k2, d2) ((k1, d1) :: l) =
  if bool_decide (k1 = k2) then dedup_from same_key (k2, d2 ⊕ d1) l
  else (k2, d2) :: dedup_from same_key (k1, d1) l.
Proof. cbn [dedup_from]. unfold same_key at 1. by case_bool_decide. Qed.

Lemma dedup_from_spec p l :
  keys_ascending (p.1 :: l.*1) →
  let r := dedup_from same_key p l in
  keys_sorted r ∧ (∀ k, k ∈ r.*1 → ¬ k ≺ p.1) ∧ (∀ k, wt r k = wt (p :: l) k).
Proof.
  revert p. induction l as [|[k1 d1] l IH]; intros [k2 d2] Hs; cbv zeta.
  - split_and!; [repeat constructor | | done]. intros k ->%list_elem_of_singleton. apply klt_irrefl.
  - inv Hs as [|?? Hs' Hf0]. cbn in Hs', Hf0. inv Hf0 as [|?? Hle Hf].
    rewrite dedup_from_cons. case_bool_decide as E.
    + subst k1. destruct (IH (k2, d2 ⊕ d1)) as (H1&H2&H3).
      { constructor; [by inv Hs' | done]. }
      split_and!; [done | done |]. intros k. rewrite H3. cbn [wt]. repeat case_decide; [|done].
      by rewrite madd_assoc.
    + destruct (IH (k1, d1) Hs') as (H1&H2&H3).
      assert (k2 ≺ k1) as Hlt by (destruct (klt_trichotomy k2 k1) as [|[|]]; congruence || done).
      split_and!.
      * constructor; [done|]. apply Forall_forall. intros k Hk%H2. cbn in *.
        destruct (klt_trichotomy k k1) as [|[->|]]; [done | done | by transitivity k1].
      * cbn. intros k [->|Hk]%elem_of_cons; [apply klt_irrefl|]. apply H2 in Hk. cbn in Hk.
        intros Hk'. apply Hk. by transitivity k2.
      * intros k. cbn [wt]. rewrite H3. done.
Qed.

Lemma fold_runs_spec l :
  keys_ascending l.*1 → canonical (fold_runs l) ∧ ∀ k, wt (fold_runs l) k = wt l k.
Proof.
  intros Hs. unfold fold_runs. split.
  - split.
    + apply keys_sorted_filter. destruct l as [|p l]; [constructor|]. by apply dedup_from_spec.
    + apply Forall_forall. intros p Hp. apply list_elem_of_In, filter_In in Hp as [_ Hp].
      by apply keep_spec.
  - intros k. rewrite wt_filter_keep. destruct l as [|p l]; [done|].
    by apply dedup_from_spec.
Qed.

(** The indexed loop over a slice folds the same runs: [offset] is the pending pair. *)
Lemma slice_loop_spec n index v offset p :
  offset < index → index + n = length v → v !! offset = Some p →
  ∃ v' off q, slice_loop same_key_slice add_diff zero_diff n index v offset = Some (v', off) ∧
    length v' = length v ∧ v' !! off = Some q ∧
    take offset v ++ List.filter keep (dedup_from same_key p (drop index v))
      = take off v' ++ List.filter keep [q].
Proof.
  revert index v offset p. induction n as [|n IH]; intros index v offset p Hlt Hn Hp; cbn [slice_loop].
  { exists v, offset, p. rewrite drop_ge by lia. done. }
  destruct (lookup_lt_is_Some_2 v index) as [x Hx]; [lia|]. rewrite Hp, Hx. cbn [mbind option_bind].
  rewrite (drop_S _ _ _ Hx). destruct p as [k2 d2], x as [k1 d1]. rewrite dedup_from_cons.
  unfold same_key_slice at 1. cbn [fst snd].
  rewrite (bool_decide_ext (k2 = k1) (k1 = k2)) by (split; congruence).
  case_bool_decide as E.
  - destruct (IH (index + 1) (<[offset := (k2, d2 ⊕ d1)]> v) offset (k2, d2 ⊕ d1))
      as (v'&off&q&Hl&Hlen&Hq&Heq); [lia | rewrite length_insert; lia | apply list_lookup_insert_eq; lia |].
    exists v', off, q. rewrite length_insert in Hlen. split_and!; [done | done | done |].
    rewrite <- Heq, take_insert_ge, drop_insert_lt by lia. by rewrite Nat.add_1_r.
  - set (off1 := if negb (zero_diff (k2, d2)) then offset + 1 else offset).
    assert (off1 ≤ index ∧ offset ≤ off1) as [Ho1 Ho2] by (unfold off1; destruct (negb _); lia).
    destruct (swap_some v off1 index) as (v1&Hsw&_&Hl1); [lia..|]. rewrite Hsw. cbn [mbind option_bind].
    pose proof (λ i, swap_lookup _ _ _ _ i Hsw) as Hlk.
    destruct (IH (index + 1) v1 off1 (k1, d1)) as (v'&off&q&Hl&Hlen&Hq&Heq); [lia | lia | |].
    { rewrite Hlk. by rewrite decide_True. }
    exists v', off, q. split_and!; [done | by rewrite Hlen | done |]. rewrite <- Heq.
    assert (drop (index + 1) v1 = drop (S index) v) as ->.
    { apply list_eq. intros i. rewrite !lookup_drop, Hlk, !decide_False by lia. f_equal. lia. }
    assert (take offset v1 = take offset v) as Ht.
    { apply list_eq. intros i. rewrite !lookup_take. case_decide; [|done].
      rewrite Hlk, !decide_False by lia. done. }
    cbn [List.filter]. unfold keep at 1. unfold off1, zero_diff in *. cbn [snd] in *.
    clear off1. destruct (is_zero d2); cbn [negb] in *; [by rewrite Ht|].
    rewrite Nat.add_1_r, (take_S_r v1 offset (k2, d2)); [by rewrite Ht, <- app_assoc|].
    rewrite Hlk, !decide_False by lia. done.
Qed.

Lemma slice_inner_spec v :
  v ≠ [] →
  ∃ v' n, consolidate_slice_inner same_key_slice add_diff zero_diff v = Some (v', n) ∧
    length v' = length v ∧ n ≤ length v ∧ take n v' = fold_runs v.
Proof.
  intros Hne. destruct v as [|p v]; [done|]. unfold consolidate_slice_inner.
  destruct (slice_loop_spec (length (p :: v) - 1) 1 (p :: v) 0 p) as (v'&off&q&Hl&Hlen&Hq&Heq);
    [lia | simpl; lia | done |].
  rewrite Hl. cbn [mbind option_bind]. pose proof (lookup_lt_Some _ _ _ Hq) as Hoff.
  rewrite <- Hlen, (proj2 (Nat.ltb_lt _ _) Hoff), Hq. cbn [mbind option_bind].
  eexists v', _. split; [done|]. split; [done|].
  assert (fold_runs (p :: v) = take off v' ++ List.filter keep [q]) as ->
    by (by rewrite <- Heq).
  destruct q as [k d]. cbn [List.filter keep]. unfold zero_diff. cbn [snd].
  destruct (is_zero d); cbn [negb].
  - split; [lia | by rewrite app_nil_r].
  - split; [lia|]. rewrite Nat.add_1_r. by apply take_S_r.
Qed.

(** [w] is the canonical form of the Z-set that [l] denotes. *)
Definition consolidated l (w : list (K * R)) : Prop := canonical w ∧ ∀ k, wt w k = wt l k.

Lemma consolidated_unique l w w' : consolidated l w → consolidated l w' → w = w'.
Proof. intros [H1 H2] [H3 H4]. apply canonical_unique; [done..|]. intros k. by rewrite H2, H4. Qed.

Lemma fold_sorted l w : keys_ascending w.*1 → w ≡ₚ l → consolidated l (fold_runs w).
Proof.
  intros Hs Hp. destruct (fold_runs_spec w Hs) as [Hc Hw]. split; [done|]. intros k.
  by rewrite Hw, Hp.
Qed.

Lemma fold_runs_nil l : l ≡ₚ [] → fold_runs l = [].
Proof. by intros ->%Permutation_nil_r. Qed.

(** *** Vectors *)
Lemma consolidate_sorts size l :
  zst_ok (K * R) size → ∃ w, consolidate size l = Some w ∧ consolidated l w.
Proof.
  intros Hz. destruct (pair_sort (PairSorter := unstable_sort_sorter size Hz) l) as (w&Hw&Hs&Hp).
  exists (fold_runs w). split; [|by apply fold_sorted]. unfold consolidate. destruct l as [|x l].
  - by rewrite fold_runs_nil.
  - rewrite Hw. cbn [mbind option_bind]. rewrite dedup_by_ref. cbn [mbind option_bind].
    by rewrite retain_filter.
Qed.

Lemma consolidate_from_sorts size l offset :
  zst_ok (K * R) size → offset ≤ length l →
  ∃ w, consolidate_from size l offset = Some (take offset l ++ w) ∧ consolidated (drop offset l) w.
Proof.
  intros Hz Ho. unfold consolidate_from. rewrite (proj2 (Nat.leb_le _ _) Ho).
  destruct (pair_sort (PairSorter := unstable_sort_sorter size Hz) (drop offset l)) as (w&Hw&Hs&Hp).
  exists (fold_runs w). split; [|by apply fold_sorted].
  destruct (drop offset l) as [|x r] eqn:Hd.
  - rewrite fold_runs_nil by done. rewrite app_nil_r. rewrite <- (take_drop offset l) at 1.
    by rewrite Hd, app_nil_r.
  - rewrite (with_slice_spec l offset (length l) _ w); [|done|done|].
    2: { rewrite Hd, take_ge; [done|]. rewrite <- Hd, length_drop. lia. }
    cbn [mbind option_bind]. rewrite (drop_ge l (length l)), app_nil_r by done.
    assert (length (take offset l) = offset) as Hl by (rewrite length_take; lia).
    rewrite dedup_starting_at_ref by (rewrite length_app; lia). cbn [mbind option_bind].
    rewrite take_app_le, drop_app_ge, Hl, Nat.sub_diag, drop_0, take_ge by lia.
    rewrite retain_starting_at_filter by (rewrite length_app; lia).
    by rewrite take_app_le, drop_app_ge, Hl, Nat.sub_diag, drop_0, take_ge by lia.
Qed.

(** *** Slices *)
Lemma consolidate_slice_sorts size l :
  zst_ok (K * R) size →
  ∃ v n, consolidate_slice size l = Some (v, n) ∧ length v = length l ∧ n ≤ length l ∧
    consolidated l (take n v).
Proof.
  intros Hz. destruct (pair_sort (PairSorter := unstable_sort_sorter size Hz) l) as (w&Hw&Hs&Hp).
  unfold consolidate_slice. destruct l as [|x l].
  - exists [], 0. split_and!; [done..|]. split; [apply canonical_nil | done].
  - rewrite Hw. cbn [mbind option_bind]. rewrite <- (Permutation_length Hp).
    destruct (slice_inner_spec w) as (v&n&Hin&Hl&Hn&Ht).
    { intros ->. by apply Permutation_nil_l in Hp. }
    exists v, n. split_and!; [done..|]. rewrite Ht. by apply fold_sorted.
Qed.
End fold.

Section paired.
Context `{Ord K} `{MonoidValue R} (size_t size_r : nat)
  (Ht : zst_ok K size_t) (Hr : zst_ok R size_r).
Implicit Types (keys : list K) (diffs : list R).

Lemma consolidate_payload_sorts keys diffs offset :
  length keys = length diffs → offset ≤ length keys →
  ∃ w, consolidate_payload_from size_t size_r keys diffs offset
         = Some (take offset keys ++ w.*1, take offset diffs ++ w.*2) ∧
    consolidated (zip (drop offset keys) (drop offset diffs)) w.
Proof.
  intros Hl Ho. unfold consolidate_payload_from.
  rewrite (proj2 (Nat.eqb_eq _ _) Hl), (proj2 (Nat.leb_le _ _) Ho).
  destruct (quicksort_sorts size_t size_r (drop offset keys) (drop offset diffs))
    as (ks&ds&Hq&Hlq&Hs&Hp); [rewrite !length_drop; lia | done | done |].
  exists (fold_runs (zip ks ds)). split; [|apply fold_sorted; [by rewrite fst_zip by lia | done]].
  destruct (drop offset keys) as [|k kr] eqn:Hd.
  - rewrite fold_runs_nil by (by rewrite Hp). cbn [fmap list_fmap]. rewrite !app_nil_r.
    assert (offset = length keys) as ->.
    { apply (f_equal length) in Hd. rewrite length_drop in Hd. simpl in Hd. lia. }
    by rewrite !take_ge by lia.
  - rewrite Hq. cbn [mbind option_bind]. unfold dedup_payload_starting_at, zip_same.
    pose proof (Permutation_length Hp) as Hlp. rewrite <- Hd in Hlp.
    rewrite !length_zip, !length_drop in Hlp.
    rewrite (proj2 (Nat.eqb_eq _ _)) by (rewrite !length_app, !length_take; lia).
    cbn [mbind option_bind].
    assert (length (take offset keys) = offset) as Hlk by (rewrite length_take; lia).
    rewrite zip_with_app by (rewrite !length_take; lia).
    set (pre := zip (take offset keys) (take offset diffs)).
    assert (length pre = offset) as Hpre by (unfold pre; rewrite length_zip, !length_take; lia).
    rewrite dedup_starting_at_ref by (rewrite length_app; lia). cbn [mbind option_bind].
    rewrite take_app_le, drop_app_ge, Hpre, Nat.sub_diag, drop_0, take_ge by lia.
    unfold retain_payload_starting_at, zip_same. rewrite !length_fmap, Nat.eqb_refl.
    cbn [mbind option_bind]. rewrite zip_fst_snd.
    rewrite retain_starting_at_filter by (rewrite length_app; lia). cbn [mbind option_bind].
    rewrite take_app_le, drop_app_ge, Hpre, Nat.sub_diag, drop_0, take_ge by lia.
    rewrite !fmap_app. unfold pre. rewrite fst_zip, snd_zip by (rewrite !length_take; lia).
    do 2 f_equal; f_equal; unfold fold_runs; do 2 f_equal; apply List.filter_ext; by intros [].
Qed.

Lemma wt_zst (l : list (K * R)) k : (∀ x y : R, x = y) → wt l k = mzero.
Proof. intros Hone. apply Hone. Qed.

(** Keys of a zero-sized type are all equal: the sum is the weight of the only key. *)
Lemma wt_unit_keys keys diffs sum k0 :
  (∀ x y : K, x = y) → length keys = length diffs →
  wt (zip (k0 :: keys) (sum :: diffs)) k0 = sum_diffs sum diffs.
Proof.
  intros Hone. revert diffs sum. induction keys as [|k1 keys IH]; intros [|d diffs] sum Hl; try done.
  - cbn. rewrite decide_True by done. apply madd_0_r.
  - change (sum_diffs sum (d :: diffs)) with (sum_diffs (sum ⊕ d) diffs). rewrite <- (IH diffs (sum ⊕ d)) by (simpl in Hl; lia).
    cbn. rewrite !decide_True by apply Hone. by rewrite madd_assoc.
Qed.

Lemma compact_paired_spec keys diffs :
  length keys = length diffs → keys ≠ [] → keys_ascending keys →
  ∃ ks ds n, compact_paired_slices size_t size_r keys diffs = Some (ks, ds, n) ∧
    length ks = length keys ∧ length ds = length diffs ∧ n ≤ length keys ∧
    consolidated (zip keys diffs) (zip (take n ks) (take n ds)).
Proof.
  intros Hl Hne Hs. unfold compact_paired_slices.
  destruct keys as [|k keys]; [done|]. destruct diffs as [|d diffs]; [done|]. clear Hne.
  destruct (Nat.eqb_spec size_t 0) as [Hz|Hz].
  { specialize (Ht Hz). set (sum := sum_diffs d diffs).
    eexists _, _, _. split; [done|]. split_and!; [done | done | destruct (negb _); simpl; lia |].
    split.
    - destruct (is_zero sum) eqn:E; cbn; [apply canonical_nil|].
      apply canonical_cons; [apply canonical_nil | by apply is_zero_false | set_solver].
    - intros k'. rewrite (Ht k' k), wt_unit_keys by (done || (simpl in Hl; lia)). fold sum.
      destruct (is_zero sum) eqn:E; cbn; [symmetry; by apply is_zero_true|].
      rewrite decide_True by done. apply madd_0_r. }
  destruct (Nat.eqb_spec size_r 0) as [Hzr|Hzr].
  { specialize (Hr Hzr). cbn [lookup list_lookup mbind option_bind].
    assert (is_zero d = true) as -> by (apply is_zero_true, Hr).
    eexists _, _, _. split; [done|]. split_and!; [done | done | simpl; lia |].
    split; [apply canonical_nil|]. intros k'. apply Hr. }
  destruct (slice_inner_spec (zip (k :: keys) (d :: diffs))) as (v&n&Hin&Hlv&Hn&Htk); [done|].
  rewrite Hin. cbn [mbind option_bind]. rewrite length_zip in Hlv, Hn.
  exists v.*1, v.*2, n. rewrite !length_fmap. split_and!; [done | lia.. |].
  rewrite <- !fmap_take, zip_fst_snd, Htk. apply fold_sorted; [by rewrite fst_zip by lia | done].
Qed.

Lemma consolidate_paired_sorts keys diffs :
  length keys = length diffs →
  ∃ ks ds n, consolidate_paired_slices size_t size_r keys diffs = Some (ks, ds, n) ∧
    length ks = length keys ∧ length ds = length diffs ∧ n ≤ length keys ∧
    consolidated (zip keys diffs) (zip (take n ks) (take n ds)).
Proof.
  intros Hl. unfold consolidate_paired_slices. rewrite (proj2 (Nat.eqb_eq _ _) Hl).
  destruct (quicksort_sorts size_t size_r keys diffs) as (ks&ds&Hq&Hlq&Hs&Hp); [done..|].
  destruct keys as [|k keys].
  { exists [], diffs, 0. split_and!; [done..|]. split; [apply canonical_nil | done]. }
  rewrite Hq. cbn [mbind option_bind]. pose proof (Permutation_length Hp) as Hlp.
  rewrite !length_zip in Hlp.
  destruct (compact_paired_spec ks ds) as (ks'&ds'&n&Hc&H1&H2&H3&[H4 H5]); [done | | done |].
  { intros ->. cbn [length] in *. lia. }
  exists ks', ds', n. split_and!; [done | lia.. |]. split; [done|]. intros. by rewrite H5, Hp.
Qed.
End paired.

(** [consolidate] and [consolidate_from] never panic and end: the result is the
    canonical list (keys strictly ascending, no zero weight) with the weights of the
    input; [consolidate_from] does this to the vector from [offset] on and leaves the
    elements before it alone. *)
Theorem consolidate_vec_spec `{Ord K} `{MonoidValue R} (size : nat) (vec : list (K * R)) (offset : nat) :
  zst_ok (K * R) size → offset ≤ length vec →
  (∃ w, consolidate size vec = Some w ∧ canonical w ∧ ∀ k, wt w k = wt vec k) ∧
  (∃ w, consolidate_from size vec offset = Some (take offset vec ++ w) ∧ canonical w ∧
     ∀ k, wt w k = wt (drop offset vec) k).
Proof.
  intros Hz Ho. split; [by apply consolidate_sorts | by apply consolidate_from_sorts].
Qed.

(** [consolidate_slice], which folds the runs with indices and swaps and returns the
    length of the valid prefix, keeps the length of the slice, returns a length within it,
    and leaves in that prefix exactly the vector that [consolidate] returns. *)
Theorem consolidate_slice_spec `{Ord K} `{MonoidValue R} (size : nat) (slice : list (K * R)) :
  zst_ok (K * R) size →
  ∃ v n, consolidate_slice size slice = Some (v, n) ∧ length v = length slice ∧
    n ≤ length slice ∧ consolidate size slice = Some (take n v) ∧
    canonical (take n v) ∧ ∀ k, wt (take n v) k = wt slice k.
Proof.
  intros Hz. destruct (consolidate_slice_sorts size slice Hz) as (v&n&Hv&Hl&Hn&Hc).
  destruct (consolidate_sorts size slice Hz) as (w&Hw&Hcw).
  rewrite (consolidated_unique _ _ _ Hcw Hc) in Hw. exists v, n. split_and!; try done; apply Hc.
Qed.


(** *** Concrete inputs: natural keys, integer weights *)
#[global] Instance Z_monoid : MonoidValue Z.
Proof. refine {| mzero := 0%Z; madd := Z.add |}; intros; lia. Defined.

Lemma zst_ok_pos A n : zst_ok A (S n).
Proof. done. Qed.

Definition pairs_example : list (nat * Z) := [(3, 1%Z); (1, 2%Z); (3, (-1)%Z); (1, 1%Z); (2, 5%Z)].

Lemma consolidate_vec_witness :
  consolidate 16 pairs_example = Some [(1, 3%Z); (2, 5%Z)] ∧
  (∀ k, wt [(1, 3%Z); (2, 5%Z)] k = wt pairs_example k) ∧
  consolidate_from 16 pairs_example 2 = Some [(3, 1%Z); (1, 2%Z); (1, 1%Z); (2, 5%Z); (3, (-1)%Z)].
Proof.
  destruct (consolidate_vec_spec 16 pairs_example 2 (zst_ok_pos _ _) ltac:(simpl; lia))
    as [(w&Hw&_&Hwt) (w'&Hw'&_)].
  vm_compute in Hw. injection Hw as <-. split; [reflexivity|]. split; [exact Hwt|].
  vm_compute in Hw'. injection Hw' as <-. reflexivity.
Defined.

Lemma consolidate_slice_witness :
  ∃ v, consolidate_slice 16 pairs_example = Some (v, 2) ∧ take 2 v = [(1, 3%Z); (2, 5%Z)].
Proof.
  destruct (consolidate_slice_spec 16 pairs_example (zst_ok_pos _ _)) as (v&n&Hv&_&_&Hc&_).
  exists v. vm_compute in Hv. injection Hv as <- <-. split; [reflexivity|].
  vm_compute in Hc. reflexivity.
Defined.

Definition keys_example : list nat := [3; 1; 3; 1; 2].
Definition diffs_example : list Z := [1; 2; -1; 1; 5]%Z.

