(* ===== verification/Trie.v ===== *)
(** Tries: the interface between the layers of a batch
    (crates/dbsp/src/trace/layers.rs) and the reference merge.

    A trie is a list of entries, one per key; an entry of a leaf is a key with its
    weight, an entry of an inner layer a key with the entries of the layer below.
    [TrieOps] are the operations of the traits [Trie], [Builder] and [MergeBuilder],
    [TrieSpec] what a layer promises the layer above it, in terms of entries and of
    the weights they denote. *)
From Stdlib Require Import Sorting.Sorted.
From S2P Require Import Prelude Sort Quicksort Search LeanVec Consolidation.
#[local] Open Scope nat_scope.

(** ** The operations *)
(** [L] the trie, [B] its merge builder, [C] its cursor, [K] its keys and [LK] the keys of
    its leaves; of the cursor, only what the layer above calls.  A panic is [None]; [reserve] only affects capacity. *)
Class TrieOps (L B C K LK : Type) := {
  t_keys : L → nat;
  t_tuples : L → nat;
  cursor_from : L → nat → nat → option C;
  c_position : C → Z;
  c_reposition : C → nat → nat → option C;
  b_with_capacity : L → L → B;
  b_keys : B → nat;
  boundary : B → option (B * nat);
  b_done : B → option L;
  copy_range : B → L → nat → nat → option (LK → LK) → option B;
  copy_range_retain_keys : B → L → nat → nat → (K → bool) → option (LK → LK) → option B;
  push_merge : B → C → C → option (LK → LK) → option B;
  push_merge_retain_keys : B → C → C → (K → bool) → option (LK → LK) → option B }.

(** [TupleBuilder], beyond [Builder]: [T] is an item, by value or by reference. *)
Class TupleOps (B T : Type) := {
  tb_new : B;
  tb_tuples : B → nat;
  tb_push_tuple : B → T → option B;
  tb_push_refs : B → T → option B }.

(** [TupleBuilder::extend_tuples]. *)
Fixpoint extend_tuples `{TupleOps B T} (self : B) (tuples : list T) : option B :=
  match tuples with
  | [] => Some self
  | tuple :: tuples => self ← tb_push_tuple self tuple; extend_tuples self tuples
  end.

Section trie.
Context `{TrieOps L B C K LK}.

(** [Trie::is_empty], [Trie::cursor] and [Trie::merge]. *)
Definition t_is_empty (self : L) : bool := t_keys self =? 0.
Definition cursor (self : L) : option C := cursor_from self 0 (t_keys self).
Definition trie_merge (self other : L) : option L :=
  c1 ← cursor self;
  c2 ← cursor other;
  merger ← push_merge (b_with_capacity self other) c1 c2 None;
  b_done merger.
(** [AddByRef] and [AddAssignByRef] of both layers. *)
Definition add_by_ref (self rhs : L) : option L := trie_merge self rhs.
Definition add_assign_by_ref (self other : L) : option L :=
  if negb (t_is_empty other) then trie_merge self other else Some self.
End trie.

(** The elements from [lo] up to [hi]. *)
Definition sub {A} (l : list A) (lo hi : nat) : list A := take (hi - lo) (drop lo l).

(** Applies [f] to the items of weighted tuples. *)
Definition remap {J R} (f : J → J) (l : list (J * R)) : list (J * R) := (λ '(i, r), (f i, r)) <$> l.

Lemma remap_app {J R} (f : J → J) (l1 l2 : list (J * R)) :
  remap f (l1 ++ l2) = remap f l1 ++ remap f l2.
Proof. apply fmap_app. Qed.

(** ** The reference merge of two lists of entries *)
Section keyed.
Context `{Ord K} {P : Type} (pcopy : P → option P) (pmerge : P → P → option P).
Implicit Types (l : list (K * P)) (k : K) (p : P).

Definition emit k (o : option P) : list (K * P) :=
  match o with Some p => [(k, p)] | None => [] end.

Definition keyed_copy l : list (K * P) := l ≫= λ '(k, p), emit k (pcopy p).

(** Entries of one side are copied, entries with the same key merged. *)
Fixpoint keyed_merge l1 : list (K * P) → list (K * P) :=
  match l1 with
  | [] => keyed_copy
  | (k1, p1) :: l1' =>
    fix aux l2 :=
      match l2 with
      | [] => keyed_copy ((k1, p1) :: l1')
      | (k2, p2) :: l2' =>
        match cmp k1 k2 with
        | Lt => emit k1 (pcopy p1) ++ keyed_merge l1' l2
        | Eq => emit k1 (pmerge p1 p2) ++ keyed_merge l1' l2'
        | Gt => emit k2 (pcopy p2) ++ aux l2'
        end
      end
  end.

Lemma keyed_merge_nil_r l : keyed_merge l [] = keyed_copy l.
Proof. by destruct l as [|[k p] l]. Qed.

Lemma keyed_copy_app l1 l2 : keyed_copy (l1 ++ l2) = keyed_copy l1 ++ keyed_copy l2.
Proof. apply bind_app. Qed.

Lemma keyed_merge_cons k1 p1 l1 k2 p2 l2 :
  keyed_merge ((k1, p1) :: l1) ((k2, p2) :: l2) =
  match cmp k1 k2 with
  | Lt => emit k1 (pcopy p1) ++ keyed_merge l1 ((k2, p2) :: l2)
  | Eq => emit k1 (pmerge p1 p2) ++ keyed_merge l1 l2
  | Gt => emit k2 (pcopy p2) ++ keyed_merge ((k1, p1) :: l1) l2
  end.
Proof. done. Qed.

(** Merging can be cut at any key. *)
Lemma keyed_merge_app a1 b1 a2 b2 :
  (∀ k k', k ∈ a1.*1 ++ a2.*1 → k' ∈ b1.*1 ++ b2.*1 → k ≺ k') →
  keyed_merge (a1 ++ b1) (a2 ++ b2) = keyed_merge a1 a2 ++ keyed_merge b1 b2.
Proof.
  revert a2. induction a1 as [|[k1 p1] a1 IH1]; intros a2 Hlt.
  - simpl app. induction a2 as [|[k2 p2] a2 IH2]; simpl app; [done|].
    assert (keyed_merge b1 (((k2, p2) :: a2) ++ b2) = emit k2 (pcopy p2) ++ keyed_merge b1 (a2 ++ b2))
      as Heq.
    { destruct b1 as [|[k p] b1]; [done|]. simpl app. rewrite keyed_merge_cons.
      assert (k2 ≺ k) as Hk by (apply Hlt; set_solver).
      apply cmp_gt in Hk. by rewrite Hk. }
    simpl app in Heq. rewrite Heq, IH2 by (intros; apply Hlt; set_solver).
    change (keyed_merge [] ((k2, p2) :: a2)) with (emit k2 (pcopy p2) ++ keyed_merge [] a2).
    by rewrite app_assoc.
  - induction a2 as [|[k2 p2] a2 IH2].
    + rewrite keyed_merge_nil_r. cbn [keyed_copy mbind list_bind].
      assert (keyed_merge (((k1, p1) :: a1) ++ b1) ([] ++ b2)
        = emit k1 (pcopy p1) ++ keyed_merge (a1 ++ b1) b2) as ->.
      { destruct b2 as [|[k p] b2]; simpl app.
        - by rewrite !keyed_merge_nil_r.
        - rewrite keyed_merge_cons. assert (k1 ≺ k) as -> by (apply Hlt; set_solver). done. }
      specialize (IH1 []). simpl app in IH1. rewrite IH1 by (intros; apply Hlt; set_solver).
      rewrite keyed_merge_nil_r. by rewrite app_assoc.
    + simpl app. rewrite !keyed_merge_cons. destruct (cmp k1 k2) eqn:E.
      * rewrite IH1 by (intros; apply Hlt; set_solver). by rewrite app_assoc.
      * specialize (IH1 ((k2, p2) :: a2)). simpl app in IH1.
        rewrite IH1 by (intros; apply Hlt; set_solver). by rewrite app_assoc.
      * simpl app in IH2. rewrite IH2 by (intros; apply Hlt; set_solver). by rewrite app_assoc.
Qed.

(** A run of keys below the other side's next key is copied; the code may stop early. *)
Lemma keyed_merge_run l1 k2 p2 l2 n :
  keys_sorted l1 → keys_sorted ((k2, p2) :: l2) →
  n ≤ prefix_len (λ k, kltb k k2) l1.*1 →
  keyed_merge l1 ((k2, p2) :: l2) = keyed_copy (take n l1) ++ keyed_merge (drop n l1) ((k2, p2) :: l2).
Proof.
  intros Hs1 Hs2 Hn. rewrite <- (take_drop n l1) at 1.
  change ((k2, p2) :: l2) with ([] ++ (k2, p2) :: l2) at 1.
  rewrite keyed_merge_app; [by rewrite keyed_merge_nil_r|].
  intros k k' Hk Hk'. rewrite app_nil_r in Hk.
  assert (k ≺ k2) as Hk2.
  { rewrite fmap_take in Hk. apply list_elem_of_lookup in Hk as [i [Hi Hlt]%lookup_take_Some].
    apply kltb_spec. eapply (prefix_len_sat (λ k, kltb k k2)); [|exact Hi]. lia. }
  apply elem_of_app in Hk' as [Hk'|Hk'].
  - unfold keys_sorted in Hs1. rewrite <- (take_drop n l1), fmap_app in Hs1.
    apply StronglySorted_app in Hs1 as (_&_&Hs1). by apply Hs1.
  - unfold keys_sorted in Hs2. cbn in Hs2, Hk'. inv Hs2 as [|?? _ Hf].
    apply elem_of_cons in Hk' as [->|Hk']; [done|]. transitivity k2; [done|].
    rewrite Forall_forall in Hf. by apply Hf.
Qed.

(** The same with the sides exchanged. *)
Lemma keyed_merge_run_r k1 p1 l1 l2 n :
  keys_sorted ((k1, p1) :: l1) → keys_sorted l2 →
  n ≤ prefix_len (λ k, kltb k k1) l2.*1 →
  keyed_merge ((k1, p1) :: l1) l2 = keyed_copy (take n l2) ++ keyed_merge ((k1, p1) :: l1) (drop n l2).
Proof.
  intros Hs1 Hs2 Hn. rewrite <- (take_drop n l2) at 1.
  change ((k1, p1) :: l1) with ([] ++ (k1, p1) :: l1) at 1.
  rewrite keyed_merge_app; [done|].
  intros k k' Hk Hk'. simpl in Hk.
  assert (k ≺ k1) as Hk1.
  { rewrite fmap_take in Hk. apply list_elem_of_lookup in Hk as [i [Hi Hlt]%lookup_take_Some].
    apply kltb_spec. eapply (prefix_len_sat (λ k, kltb k k1)); [|exact Hi]. lia. }
  apply elem_of_app in Hk' as [Hk'|Hk'].
  - unfold keys_sorted in Hs1. cbn in Hs1, Hk'. inv Hs1 as [|?? _ Hf].
    apply elem_of_cons in Hk' as [->|Hk']; [done|]. transitivity k1; [done|].
    rewrite Forall_forall in Hf. by apply Hf.
  - unfold keys_sorted in Hs2. rewrite <- (take_drop n l2), fmap_app in Hs2.
    apply StronglySorted_app in Hs2 as (_&_&Hs2). by apply Hs2.
Qed.

Lemma emit_keys k o : ∀ k', k' ∈ (emit k o).*1 → k' = k.
Proof. destruct o; cbn; intros k'; [by intros ->%list_elem_of_singleton | by intros ?%elem_of_nil]. Qed.

Lemma keyed_copy_keys l k : k ∈ (keyed_copy l).*1 → k ∈ l.*1.
Proof.
  induction l as [|[k1 p1] l IH]; [done|]. cbn. rewrite fmap_app, elem_of_app.
  intros [->%emit_keys|Hk]; [left | right; auto].
Qed.

Lemma keyed_merge_keys l1 l2 k : k ∈ (keyed_merge l1 l2).*1 → k ∈ l1.*1 ∨ k ∈ l2.*1.
Proof.
  revert l2. induction l1 as [|[k1 p1] l1 IH1]; intros l2.
  { intros Hk. right. by apply keyed_copy_keys. }
  induction l2 as [|[k2 p2] l2 IH2].
  { rewrite keyed_merge_nil_r. intros Hk. left. by apply keyed_copy_keys. }
  rewrite keyed_merge_cons. destruct (cmp k1 k2) eqn:E; rewrite fmap_app, elem_of_app;
    (intros [->%emit_keys|Hk]; [cbn; set_solver|]).
  - apply IH1 in Hk. cbn. set_solver.
  - apply IH1 in Hk. cbn. set_solver.
  - apply IH2 in Hk. cbn. set_solver.
Qed.

Lemma keys_sorted_cons k p l : keys_sorted ((k, p) :: l) ↔ keys_sorted l ∧ (∀ k', k' ∈ l.*1 → k ≺ k').
Proof.
  unfold keys_sorted. cbn. split.
  - intros Hs. inv Hs as [|?? Hs' Hf]. rewrite Forall_forall in Hf. done.
  - intros [Hs Hf]. constructor; [done|]. by apply Forall_forall.
Qed.

Lemma keys_sorted_emit k o l :
  keys_sorted l → (∀ k', k' ∈ l.*1 → k ≺ k') → keys_sorted (emit k o ++ l).
Proof. intros Hs Hk. destruct o; [by apply keys_sorted_cons | done]. Qed.

Lemma keyed_copy_sorted l : keys_sorted l → keys_sorted (keyed_copy l).
Proof.
  induction l as [|[k1 p1] l IH]; [done|]. intros [Hs Hk]%keys_sorted_cons.
  apply keys_sorted_emit; [auto|]. intros k' Hk'%keyed_copy_keys. auto.
Qed.

Lemma keyed_merge_sorted l1 l2 : keys_sorted l1 → keys_sorted l2 → keys_sorted (keyed_merge l1 l2).
Proof.
  revert l2. induction l1 as [|[k1 p1] l1 IH1]; intros l2; [by intros _; apply keyed_copy_sorted|].
  induction l2 as [|[k2 p2] l2 IH2]; intros Hs1 Hs2.
  { rewrite keyed_merge_nil_r. by apply keyed_copy_sorted. }
  pose proof (proj1 (keys_sorted_cons _ _ _) Hs1) as [Hs1' Hk1].
  pose proof (proj1 (keys_sorted_cons _ _ _) Hs2) as [Hs2' Hk2].
  rewrite keyed_merge_cons. destruct (cmp k1 k2) eqn:E; apply keys_sorted_emit; auto.
  - apply cmp_eq in E as ->. intros k' [Hk'|Hk']%keyed_merge_keys; auto.
  - intros k' [Hk'|Hk']%keyed_merge_keys; [auto|]. cbn in Hk'.
    apply elem_of_cons in Hk' as [->|Hk']; [done|]. transitivity k2; [done | auto].
  - apply cmp_gt in E. intros k' [Hk'|Hk']%keyed_merge_keys; [|auto]. cbn in Hk'.
    apply elem_of_cons in Hk' as [->|Hk']; [done|]. transitivity k1; [done | auto].
Qed.

(** A property of payloads that copying and merging establish. *)
Section payloads.
Context (V W : P → Prop) (Hcopy : ∀ p q, V p → pcopy p = Some q → W q)
  (Hmerge : ∀ p q r, V p → V q → pmerge p q = Some r → W r).

Lemma emit_valid k o l : (∀ p, o = Some p → W p) → Forall W l.*2 → Forall W (emit k o ++ l).*2.
Proof. intros Ho Hl. destruct o; [constructor; auto | done]. Qed.

Lemma keyed_copy_valid l : Forall V l.*2 → Forall W (keyed_copy l).*2.
Proof.
  induction l as [|[k p] l IH]; [done|]. cbn. intros [Hp Hl]%Forall_cons.
  apply emit_valid; [eauto | auto].
Qed.

Lemma keyed_merge_valid l1 l2 : Forall V l1.*2 → Forall V l2.*2 → Forall W (keyed_merge l1 l2).*2.
Proof.
  revert l2. induction l1 as [|[k1 p1] l1 IH1]; intros l2; [by intros _; apply keyed_copy_valid|].
  induction l2 as [|[k2 p2] l2 IH2]; intros Hv1 Hv2.
  { rewrite keyed_merge_nil_r. by apply keyed_copy_valid. }
  pose proof Hv1 as [Hp1 Hl1]%Forall_cons. pose proof Hv2 as [Hp2 Hl2]%Forall_cons.
  rewrite keyed_merge_cons. destruct (cmp k1 k2); apply emit_valid; eauto.
Qed.
End payloads.

(** The weights of the merge are the sum of the weights, when this holds entry by entry. *)
Section weights.
Context `{Ord J} `{MonoidValue R} (tup : K * P → list (J * R)) (f : J → J) (V : P → Prop).
Context (Hcopy : ∀ k p i, V p → wt (emit k (pcopy p) ≫= tup) i = wt (remap f (tup (k, p))) i)
  (Hmerge : ∀ k p q i, V p → V q →
     wt (emit k (pmerge p q) ≫= tup) i = wt (remap f (tup (k, p) ++ tup (k, q))) i).

Lemma keyed_copy_wt l i : Forall V l.*2 → wt (keyed_copy l ≫= tup) i = wt (remap f (l ≫= tup)) i.
Proof.
  induction l as [|[k p] l IH]; [done|]. cbn [fmap list_fmap snd]. intros [Hp Hl]%Forall_cons.
  change (keyed_copy ((k, p) :: l)) with (emit k (pcopy p) ++ keyed_copy l).
  rewrite bind_app, wt_app, Hcopy, IH by done. cbn [mbind list_bind].
  by rewrite remap_app, wt_app.
Qed.

Lemma keyed_merge_wt l1 l2 i :
  Forall V l1.*2 → Forall V l2.*2 →
  wt (keyed_merge l1 l2 ≫= tup) i = wt (remap f (l1 ≫= tup) ++ remap f (l2 ≫= tup)) i.
Proof.
  rewrite wt_app. revert l2. induction l1 as [|[k1 p1] l1 IH1]; intros l2.
  { intros _ Hl. cbn [mbind list_bind remap fmap list_fmap wt]. rewrite madd_0_l.
    by apply keyed_copy_wt. }
  induction l2 as [|[k2 p2] l2 IH2]; intros Hv1 Hv2.
  { rewrite keyed_merge_nil_r, keyed_copy_wt by done. symmetry. apply madd_0_r. }
  pose proof Hv1 as [Hp1 Hl1]%Forall_cons. pose proof Hv2 as [Hp2 Hl2]%Forall_cons. cbn in Hp1, Hp2.
  rewrite keyed_merge_cons. destruct (cmp k1 k2) eqn:E; rewrite bind_app, wt_app.
  - apply cmp_eq in E as ->. rewrite Hmerge, IH1 by done. cbn [mbind list_bind].
    rewrite !remap_app, !wt_app. rewrite <- !madd_assoc. f_equal. apply madd_swap.
  - rewrite Hcopy, IH1 by done. cbn [mbind list_bind]. by rewrite !remap_app, !wt_app, !madd_assoc.
  - rewrite Hcopy, IH2, madd_swap by done. f_equal. cbn [mbind list_bind].
    by rewrite remap_app, wt_app.
Qed.
End weights.
End keyed.

(** Payload operations that preprocess their arguments. *)
Lemma keyed_merge_map `{Ord K} {P} (pcopy : P → option P) (pmerge : P → P → option P) (h : P → P)
    (l1 l2 : list (K * P)) :
  keyed_merge (λ p, pcopy (h p)) (λ p q, pmerge (h p) (h q)) l1 l2
  = keyed_merge pcopy pmerge (prod_map id h <$> l1) (prod_map id h <$> l2).
Proof.
  assert (∀ l : list (K * P), keyed_copy (λ p, pcopy (h p)) l = keyed_copy pcopy (prod_map id h <$> l)) as Hc.
  { induction l as [|[k p] l IH]; [done|]. cbn. f_equal. exact IH. }
  revert l2. induction l1 as [|[k1 p1] l1 IH1]; intros l2; [apply Hc|].
  induction l2 as [|[k2 p2] l2 IH2]; [rewrite !keyed_merge_nil_r; apply Hc|].
  cbn [fmap list_fmap prod_map fst snd id] in *. rewrite !keyed_merge_cons.
  destruct (cmp k1 k2); f_equal; [apply IH1 | apply (IH1 ((k2, p2) :: l2)) | apply IH2].
Qed.

(** ** What a layer promises *)
(** [E] is an entry, [J] the tuple of keys on a path to a leaf, [R] the weight.  The
    operations are specified by what they append to the entries of the builder. *)
Class TrieSpec (L B C K LK E J R : Type) {OPS : TrieOps L B C K LK}
    {OK : Ord K} {OJ : Ord J} {MR : MonoidValue R} := {
  ents : L → list E;
  b_ents : B → list E;
  wf_trie : L → Prop;
  wf_builder : B → Prop;
  (** the cursor is one over this trie, at any position *)
  c_of : C → L → Prop;
  ekey : E → K;
  tups : E → list (J * R);
  imap : (LK → LK) → J → J;
  (** entries in order, at every level, with no empty sub-trie and no zero weight *)
  asorted : list E → Prop;
  a_copy : option (LK → LK) → list E → list E;
  a_merge : option (LK → LK) → list E → list E → list E;
  (** a leaf filters without mapping *)
  retain_map_ok : option (LK → LK) → Prop;

  keys_ok : ∀ l, wf_trie l → t_keys l = length (ents l);
  bkeys_ok : ∀ b, wf_builder b → b_keys b = length (b_ents b);
  capacity_ok : ∀ l1 l2, wf_builder (b_with_capacity l1 l2) ∧ b_ents (b_with_capacity l1 l2) = [];
  boundary_ok : ∀ b, wf_builder b →
    ∃ b', boundary b = Some (b', b_keys b) ∧ wf_builder b' ∧ b_ents b' = b_ents b;
  done_ok : ∀ b, wf_builder b → ∃ l, b_done b = Some l ∧ wf_trie l ∧ ents l = b_ents b;
  copy_ok : ∀ b l lo hi m, wf_builder b → wf_trie l → lo < hi → hi ≤ length (ents l) →
    ∃ b', copy_range b l lo hi m = Some b' ∧ wf_builder b' ∧
      b_ents b' = b_ents b ++ a_copy m (sub (ents l) lo hi);
  copy_retain_ok : ∀ b l lo hi f m, wf_builder b → wf_trie l → lo < hi → hi ≤ length (ents l) →
    retain_map_ok m →
    ∃ b', copy_range_retain_keys b l lo hi f m = Some b' ∧ wf_builder b' ∧
      b_ents b' = b_ents b ++ a_copy m (List.filter (λ e, f (ekey e)) (sub (ents l) lo hi));
  merge_ok : ∀ b l1 lo1 hi1 l2 lo2 hi2 m, wf_builder b → wf_trie l1 → wf_trie l2 →
    lo1 ≤ hi1 → hi1 ≤ length (ents l1) → lo2 ≤ hi2 → hi2 ≤ length (ents l2) →
    asorted (sub (ents l1) lo1 hi1) → asorted (sub (ents l2) lo2 hi2) →
    ∃ c1 c2 b', cursor_from l1 lo1 hi1 = Some c1 ∧ cursor_from l2 lo2 hi2 = Some c2 ∧
      push_merge b c1 c2 m = Some b' ∧ wf_builder b' ∧
      b_ents b' = b_ents b ++ a_merge m (sub (ents l1) lo1 hi1) (sub (ents l2) lo2 hi2);
  merge_retain_ok : ∀ b l1 lo1 hi1 l2 lo2 hi2 f m, wf_builder b → wf_trie l1 → wf_trie l2 →
    lo1 ≤ hi1 → hi1 ≤ length (ents l1) → lo2 ≤ hi2 → hi2 ≤ length (ents l2) →
    asorted (sub (ents l1) lo1 hi1) → asorted (sub (ents l2) lo2 hi2) → retain_map_ok m →
    ∃ c1 c2 b', cursor_from l1 lo1 hi1 = Some c1 ∧ cursor_from l2 lo2 hi2 = Some c2 ∧
      push_merge_retain_keys b c1 c2 f m = Some b' ∧ wf_builder b' ∧
      b_ents b' = b_ents b ++ a_merge m (List.filter (λ e, f (ekey e)) (sub (ents l1) lo1 hi1))
        (List.filter (λ e, f (ekey e)) (sub (ents l2) lo2 hi2));

  cursor_ok : ∀ l lo hi, wf_trie l → lo ≤ hi → hi ≤ length (ents l) → is_Some (cursor_from l lo hi);
  cursor_of : ∀ l lo hi c, cursor_from l lo hi = Some c → c_of c l;
  reposition_ok : ∀ l c lo hi, wf_trie l → c_of c l →
    lo < hi → hi ≤ length (ents l) → c_reposition c lo hi = cursor_from l lo hi;
  position_ok : ∀ l lo hi c, cursor_from l lo hi = Some c → lo < hi → c_position c = Z.of_nat lo;
  asorted_nil : asorted [];
  asorted_app : ∀ l1 l2, asorted (l1 ++ l2) → asorted l1 ∧ asorted l2;
  asorted_filter : ∀ f l, asorted l → asorted (List.filter f l);
  asorted_canonical : ∀ l, asorted l → canonical (l ≫= tups);
  tups_nonempty : ∀ l, asorted l → l ≠ [] → l ≫= tups ≠ [];
  a_copy_none : ∀ l, a_copy None l = l;
  a_copy_sorted : ∀ m l, asorted l → asorted (a_copy m l);
  a_copy_wt : ∀ m l i, asorted l →
    wt (a_copy m l ≫= tups) i = wt (remap (match m with Some f => imap f | None => id end) (l ≫= tups)) i;
  a_merge_sorted : ∀ m l1 l2, asorted l1 → asorted l2 → asorted (a_merge m l1 l2);
  a_merge_wt : ∀ m l1 l2 i, asorted l1 → asorted l2 →
    wt (a_merge m l1 l2 ≫= tups) i =
    wt (remap (match m with Some f => imap f | None => id end) ((l1 ≫= tups) ++ (l2 ≫= tups))) i }.

Section sub.
Context {A : Type}.
Implicit Types l : list A.

Lemma sub_all l : sub l 0 (length l) = l.
Proof. unfold sub. by rewrite drop_0, take_ge by lia. Qed.

Lemma sub_split l lo mid hi : lo ≤ mid ≤ hi → sub l lo hi = sub l lo mid ++ sub l mid hi.
Proof.
  intros Hm. unfold sub. rewrite <- (take_drop (mid - lo) (take (hi - lo) (drop lo l))).
  rewrite take_take, Nat.min_l by lia. f_equal. rewrite skipn_firstn_comm, drop_drop. f_equal; [lia|].
  f_equal. lia.
Qed.

Lemma sub_length l lo hi : lo ≤ hi ≤ length l → length (sub l lo hi) = hi - lo.
Proof. intros. unfold sub. rewrite length_take, length_drop. lia. Qed.

Lemma sub_nil l lo : sub l lo lo = [].
Proof. unfold sub. by rewrite Nat.sub_diag. Qed.

Lemma sub_cons l lo hi x : l !! lo = Some x → lo < hi → sub l lo hi = x :: sub l (S lo) hi.
Proof.
  intros Hx Hlt. unfold sub. rewrite (drop_S _ _ _ Hx).
  replace (hi - lo) with (S (hi - S lo)) by lia. done.
Qed.

Lemma sub_fmap {B} (f : A → B) l lo hi : f <$> sub l lo hi = sub (f <$> l) lo hi.
Proof. unfold sub. by rewrite fmap_take, fmap_drop. Qed.

Lemma sub_app_l l1 l2 lo hi : hi ≤ length l1 → sub (l1 ++ l2) lo hi = sub l1 lo hi.
Proof.
  intros Hh. unfold sub. destruct (decide (lo ≤ length l1)).
  - rewrite drop_app_le by lia. rewrite take_app_le; [done|]. rewrite length_drop. lia.
  - replace (hi - lo) with 0 by lia. done.
Qed.
End sub.

Lemma sub_take {A} (l : list A) lo hi n : lo + n ≤ hi → take n (sub l lo hi) = sub l lo (lo + n).
Proof. intros. unfold sub. rewrite take_take. f_equal. lia. Qed.

Lemma sub_drop {A} (l : list A) lo hi n : drop n (sub l lo hi) = sub l (lo + n) hi.
Proof. unfold sub. rewrite skipn_firstn_comm, drop_drop. f_equal. lia. Qed.

(** ** One step of a merge *)
Section steps.
Context `{Ord K} {P : Type}.
Implicit Types (l es : list (K * P)).

(** All keys of [a] are below all keys of [b]. *)
Definition before (a b : list (K * P)) : Prop := ∀ k k', k ∈ a.*1 → k' ∈ b.*1 → k ≺ k'.

Lemma before_nil_l b : before [] b.
Proof. by intros k k' ?%elem_of_nil. Qed.

Lemma before_filter f g a b : before a b → before (List.filter f a) (List.filter g b).
Proof.
  intros Hb k k' (x&->&Hx)%list_elem_of_fmap (y&->&Hy)%list_elem_of_fmap.
  rewrite list_elem_of_In, filter_In, <- list_elem_of_In in Hx, Hy.
  apply Hb; apply list_elem_of_fmap; [exists x | exists y]; tauto.
Qed.

Lemma keyed_merge_before pcopy pmerge a1 b1 a2 b2 :
  before a1 b1 → before a1 b2 → before a2 b1 → before a2 b2 →
  keyed_merge pcopy pmerge (a1 ++ b1) (a2 ++ b2)
    = keyed_merge pcopy pmerge a1 a2 ++ keyed_merge pcopy pmerge b1 b2.
Proof.
  intros H1 H2 H3 H4. apply keyed_merge_app.
  intros k k' [Hk|Hk]%elem_of_app [Hk'|Hk']%elem_of_app; eauto.
Qed.

Lemma keys_sorted_app l1 l2 :
  keys_sorted (l1 ++ l2) ↔ keys_sorted l1 ∧ keys_sorted l2 ∧ before l1 l2.
Proof. unfold keys_sorted, before. by rewrite fmap_app, StronglySorted_app. Qed.

Lemma keys_sorted_sub es lo mid hi :
  lo ≤ mid ≤ hi → keys_sorted (sub es lo hi) →
  keys_sorted (sub es lo mid) ∧ keys_sorted (sub es mid hi) ∧ before (sub es lo mid) (sub es mid hi).
Proof. intros Hm. rewrite (sub_split es lo mid hi Hm). apply keys_sorted_app. Qed.

(** Keys below the other side's next key come before everything else. *)
Lemma run_before es1 (l1 u1 : nat) es2 (l2 u2 : nat) k1 p1 k2 p2 n :
  es1 !! l1 = Some (k1, p1) → es2 !! l2 = Some (k2, p2) → l1 < u1 → u1 ≤ length es1 → l2 < u2 →
  keys_sorted (sub es1 l1 u1) → keys_sorted (sub es2 l2 u2) → k1 ≺ k2 →
  n ≤ 1 + prefix_len (λ k, kltb k k2) (sub es1.*1 (l1 + 1) u1) →
  l1 + n ≤ u1 ∧ before (sub es1 l1 (l1 + n)) (sub es1 (l1 + n) u1) ∧
  before (sub es1 l1 (l1 + n)) (sub es2 l2 u2) ∧ keys_sorted (sub es1 (l1 + n) u1).
Proof.
  intros He1 He2 Hlt1 Hu1 Hlt2 Hs1 Hs2 Hk Hn.
  pose proof (prefix_len_le (λ k, kltb k k2) (sub es1.*1 (l1 + 1) u1)) as Hle.
  rewrite sub_length in Hle by (rewrite length_fmap; lia).
  assert (l1 + n ≤ u1) as Hb by lia.
  destruct (keys_sorted_sub es1 l1 (l1 + n) u1 ltac:(lia) Hs1) as (_&Hs1b&Hbef).
  split_and!; [done | done | | done]. intros k k' Hk1 Hk2.
  assert (k ≺ k2) as Hkk2.
  { rewrite sub_fmap in Hk1. unfold sub in Hk1. replace (l1 + n - l1) with n in Hk1 by lia.
    apply list_elem_of_lookup in Hk1 as [i [Hi Hin]%lookup_take_Some]. rewrite lookup_drop in Hi.
    destruct i as [|i].
    - rewrite Nat.add_0_r, list_lookup_fmap, He1 in Hi. cbn in Hi. congruence.
    - apply kltb_spec. eapply (prefix_len_sat (λ k, kltb k k2) (sub es1.*1 (l1 + 1) u1) i); [lia|].
      unfold sub. rewrite lookup_take_lt by lia. rewrite lookup_drop. rewrite <- Hi. f_equal. lia. }
  rewrite (sub_cons _ _ _ _ He2 Hlt2) in Hk2, Hs2. apply keys_sorted_cons in Hs2 as [_ Hs2].
  cbn in Hk2. apply elem_of_cons in Hk2 as [->|Hk2]; [done|]. transitivity k2; [done | auto].
Qed.

Lemma head_before es lo hi k p :
  es !! lo = Some (k, p) → lo < hi → keys_sorted (sub es lo hi) →
  sub es lo hi = (k, p) :: sub es (lo + 1) hi ∧ before [(k, p)] (sub es (lo + 1) hi) ∧
  keys_sorted (sub es (lo + 1) hi).
Proof.
  intros He Hlt Hs. rewrite Nat.add_1_r. rewrite (sub_cons _ _ _ _ He Hlt) in Hs |- *.
  apply keys_sorted_cons in Hs as [Hs Hk]. split_and!; [done | | done].
  intros a b ->%list_elem_of_singleton. apply Hk.
Qed.
End steps.

Lemma remap_id {J R} (l : list (J * R)) : remap id l = l.
Proof. unfold remap. rewrite <- (list_fmap_id l) at 2. apply list_fmap_ext. by intros ? [] ?. Qed.

Section merge.
Context `{SP : TrieSpec L B C K LK E J R}.
Implicit Types l : L.

(** The Z-set a trie denotes. *)
Definition denote l : list (J * R) := ents l ≫= tups.

(** The tuples after the mapping function was applied to their times. *)
Definition mapped (m : option (LK → LK)) (ts : list (J * R)) : list (J * R) :=
  remap (match m with Some f => imap f | None => id end) ts.
Definition retained (f : K → bool) l : list (J * R) := List.filter (λ e, f (ekey e)) (ents l) ≫= tups.

(** Merging two whole tries into a new builder. *)
Lemma merge_into_correct m l1 l2 :
  wf_trie l1 → wf_trie l2 → asorted (ents l1) → asorted (ents l2) →
  ∃ c1 c2 b l, cursor l1 = Some c1 ∧ cursor l2 = Some c2 ∧
    push_merge (b_with_capacity l1 l2) c1 c2 m = Some b ∧ b_done b = Some l ∧ wf_trie l ∧
    asorted (ents l) ∧ consolidated (mapped m (denote l1 ++ denote l2)) (denote l).
Proof.
  intros Hw1 Hw2 Hs1 Hs2. destruct (capacity_ok l1 l2) as [Hwb Hbe].
  destruct (merge_ok (b_with_capacity l1 l2) l1 0 (length (ents l1)) l2 0 (length (ents l2)) m)
    as (c1&c2&b&Hc1&Hc2&Hb&Hwb'&Heb); rewrite ?sub_all; [done || lia..|].
  destruct (done_ok b Hwb') as (l&Hd&Hwl&Hel).
  exists c1, c2, b, l. unfold cursor. rewrite (keys_ok l1 Hw1), (keys_ok l2 Hw2).
  rewrite Hbe, !sub_all in Heb. simpl in Heb. rewrite Heb in Hel.
  assert (asorted (ents l)) as Hsl by (rewrite Hel; by apply a_merge_sorted).
  split_and!; [done..|]. split; [by apply asorted_canonical|].
  intros i. unfold denote. by rewrite Hel, a_merge_wt.
Qed.

(** The same, keeping only keys that pass a filter. *)
Lemma merge_retain_correct f m l1 l2 :
  wf_trie l1 → wf_trie l2 → asorted (ents l1) → asorted (ents l2) → retain_map_ok m →
  ∃ c1 c2 b l, cursor l1 = Some c1 ∧ cursor l2 = Some c2 ∧
    push_merge_retain_keys (b_with_capacity l1 l2) c1 c2 f m = Some b ∧ b_done b = Some l ∧ wf_trie l ∧
    asorted (ents l) ∧ consolidated (mapped m (retained f l1 ++ retained f l2)) (denote l).
Proof.
  intros Hw1 Hw2 Hs1 Hs2 Hm. destruct (capacity_ok l1 l2) as [Hwb Hbe].
  destruct (merge_retain_ok (b_with_capacity l1 l2) l1 0 (length (ents l1)) l2 0 (length (ents l2)) f m)
    as (c1&c2&b&Hc1&Hc2&Hb&Hwb'&Heb); rewrite ?sub_all; [done || lia..|].
  destruct (done_ok b Hwb') as (l&Hd&Hwl&Hel).
  exists c1, c2, b, l. unfold cursor. rewrite (keys_ok l1 Hw1), (keys_ok l2 Hw2).
  rewrite Hbe, !sub_all in Heb. simpl in Heb. rewrite Heb in Hel.
  pose proof (asorted_filter (λ e, f (ekey e)) _ Hs1) as Hf1. pose proof (asorted_filter (λ e, f (ekey e)) _ Hs2) as Hf2.
  assert (asorted (ents l)) as Hsl by (rewrite Hel; by apply a_merge_sorted).
  split_and!; [done..|]. split; [by apply asorted_canonical|].
  intros i. unfold denote. by rewrite Hel, a_merge_wt.
Qed.

Lemma trie_merge_correct l1 l2 :
  wf_trie l1 → wf_trie l2 → asorted (ents l1) → asorted (ents l2) →
  ∃ l, trie_merge l1 l2 = Some l ∧ wf_trie l ∧ asorted (ents l) ∧
    consolidated (denote l1 ++ denote l2) (denote l).
Proof.
  intros Hw1 Hw2 Hs1 Hs2. destruct (merge_into_correct None l1 l2) as (c1&c2&b&l&Hc1&Hc2&Hb&Hd&Hw&Hs&Hc); [done..|].
  exists l. unfold trie_merge. rewrite Hc1, Hc2. cbn [mbind option_bind]. rewrite Hb. cbn [mbind option_bind].
  unfold mapped in Hc. by rewrite remap_id in Hc.
Qed.

(** [AddByRef] and [AddAssignByRef]. *)
Lemma trie_add_correct l1 l2 :
  wf_trie l1 → wf_trie l2 → asorted (ents l1) → asorted (ents l2) →
  (∃ l, add_by_ref l1 l2 = Some l ∧ wf_trie l ∧ asorted (ents l) ∧
    consolidated (denote l1 ++ denote l2) (denote l)) ∧
  (∃ l, add_assign_by_ref l1 l2 = Some l ∧ wf_trie l ∧ asorted (ents l) ∧
    consolidated (denote l1 ++ denote l2) (denote l)).
Proof.
  intros Hw1 Hw2 Hs1 Hs2. split; [by apply trie_merge_correct|]. unfold add_assign_by_ref, t_is_empty.
  destruct (Nat.eqb_spec (t_keys l2) 0) as [Hz|]; cbn [negb]; [|by apply trie_merge_correct].
  exists l1. rewrite (keys_ok l2 Hw2) in Hz. apply nil_length_inv in Hz. split_and!; [done..|].
  unfold denote. rewrite Hz. cbn. rewrite app_nil_r. split; [by apply asorted_canonical | done].
Qed.
End merge.
