(* ===== verification/Leaf.v ===== *)
(** The leaf layer: a vector of keys and a vector of weights
    (crates/dbsp/src/trace/layers/leaf.rs).

    Keys and weights are the two vectors of the code.  [sk] and [sr] are the sizes of
    the key and weight types, which the exponential search and consolidation look at.
    Capacities ([reserve], [with_capacity], [shrink_to_fit]) are not modelled. *)
From Stdlib Require Import Sorting.Sorted.
From S2P Require Import Prelude Sort Quicksort Search LeanVec Consolidation Trie.
#[local] Open Scope nat_scope.

Record Leaf (K R : Type) := mkLeaf { leaf_keys : list K; leaf_diffs : list R }.
Arguments mkLeaf {K R}.
Arguments leaf_keys {K R}.
Arguments leaf_diffs {K R}.

(** [LeafBuilder] is the layer under construction. *)
Record LeafBuilder (K R : Type) := mkLeafBuilder { layer : Leaf K R }.
Arguments mkLeafBuilder {K R}.
Arguments layer {K R}.

Record LeafCursor (K R : Type) :=
  mkLeafCursor { lc_pos : Z; lc_storage : Leaf K R; lc_bounds : nat * nat }.
Arguments mkLeafCursor {K R}.
Arguments lc_pos {K R}.
Arguments lc_storage {K R}.
Arguments lc_bounds {K R}.

Module Leaf.
Section ops.
Context `{Ord K} `{MonoidValue R} (sk sr : nat).
Implicit Types (self source lhs rhs : Leaf K R).

Definition new : Leaf K R := mkLeaf [] [].
Definition len self : nat := length (leaf_keys self).
Definition is_empty self : bool := len self =? 0.

Definition extend_from_range self source (lower upper : nat) : option (Leaf K R) :=
  if lower =? upper then Some self
  else
    ks ← range (leaf_keys source) lower upper;
    ds ← range (leaf_diffs source) lower upper;
    Some (mkLeaf (leaf_keys self ++ ks) (leaf_diffs self ++ ds)).

Definition truncate self (length : nat) : Leaf K R :=
  mkLeaf (LeanVec.truncate (leaf_keys self) length) (LeanVec.truncate (leaf_diffs self) length).

(** [for i in base..end { f(&mut self.keys[i]) }]. *)
Definition map_keys (f : K → K) self (base end_ : nat) : Leaf K R :=
  mkLeaf (take base (leaf_keys self) ++ (f <$> sub (leaf_keys self) base end_)
          ++ drop end_ (leaf_keys self)) (leaf_diffs self).

(** Consolidates the keys and weights from [base] on. *)
Definition consolidate_tail self (base end_ : nat) : option (Leaf K R) :=
  '(ks, ds, n) ← consolidate_paired_ranges sk sr (leaf_keys self) base end_ (leaf_diffs self) base end_;
  Some (truncate (mkLeaf ks ds) (base + n)).

Definition map_keys_and_extend_from_range self source (lower upper : nat) (map_func : K → K) :
  option (Leaf K R) :=
  let base := len self in
  self ← extend_from_range self source lower upper;
  let end_ := len self in
  consolidate_tail (map_keys map_func self base end_) base end_.

Definition push_vals self (key : K) (diff : R) : Leaf K R :=
  mkLeaf (leaf_keys self ++ [key]) (leaf_diffs self ++ [diff]).
Definition push_refs self (key : K) (diff : R) : Leaf K R := push_vals self key diff.

(** [while lower1 < upper1 && lower2 < upper2] of [push_merge]. *)
Fixpoint merge_loop (fuel : nat) self lhs (lower1 upper1 : nat) rhs (lower2 upper2 : nat) :
  option (Leaf K R * nat * nat) :=
  match fuel with
  | O => None
  | S fuel =>
    if (lower1 <? upper1) && (lower2 <? upper2) then
      k1 ← leaf_keys lhs !! lower1;
      k2 ← leaf_keys rhs !! lower2;
      match cmp k1 k2 with
      | Lt =>
        n ← advance_to sk (leaf_keys lhs) (lower1 + 1) upper1 k2;
        let step := 1 + n in
        self ← extend_from_range self lhs lower1 (lower1 + step);
        merge_loop fuel self lhs (lower1 + step) upper1 rhs lower2 upper2
      | Eq =>
        d1 ← leaf_diffs lhs !! lower1;
        d2 ← leaf_diffs rhs !! lower2;
        let diff := d1 ⊕ d2 in
        let self := if negb (is_zero diff) then push_refs self k1 diff else self in
        merge_loop fuel self lhs (lower1 + 1) upper1 rhs (lower2 + 1) upper2
      | Gt =>
        n ← advance_to sk (leaf_keys rhs) (lower2 + 1) upper2 k1;
        let step := 1 + n in
        self ← extend_from_range self rhs lower2 (lower2 + step);
        merge_loop fuel self lhs lower1 upper1 rhs (lower2 + step) upper2
      end
    else Some (self, lower1, lower2)
  end.

(** [Leaf::push_merge]; [upper - lower] is the checked subtraction of the capacity. *)
Definition push_merge self lhs (bounds1 : nat * nat) rhs (bounds2 : nat * nat) : option (Leaf K R) :=
  let '(lower1, upper1) := bounds1 in
  let '(lower2, upper2) := bounds2 in
  assert! ((lower1 <=? upper1) && (lower2 <=? upper2)) in
  '(self, lower1, lower2) ← merge_loop (S ((upper1 - lower1) + (upper2 - lower2)))
     self lhs lower1 upper1 rhs lower2 upper2;
  self ← (if lower1 <? upper1 then extend_from_range self lhs lower1 upper1 else Some self);
  if lower2 <? upper2 then extend_from_range self rhs lower2 upper2 else Some self.

Definition map_keys_and_push_merge self lhs (bounds1 : nat * nat) rhs (bounds2 : nat * nat)
    (f : K → K) : option (Leaf K R) :=
  let '(lower1, upper1) := bounds1 in
  let '(lower2, upper2) := bounds2 in
  assert! ((lower1 <=? upper1) && (lower2 <=? upper2)) in
  let base := len self in
  self ← extend_from_range self lhs lower1 upper1;
  self ← extend_from_range self rhs lower2 upper2;
  let end_ := len self in
  consolidate_tail (map_keys f self base end_) base end_.

(** [NegByRef] and [Neg]; [neg] is the weight's negation. *)
Definition neg_by_ref (neg : R → R) self : Leaf K R := mkLeaf (leaf_keys self) (neg <$> leaf_diffs self).
End ops.
End Leaf.

Module LeafCursor.
Section ops.
Context `{Ord K} `{MonoidValue R} (sk : nat).
Implicit Types (self : LeafCursor K R) (key : K) (p : K → bool).
#[local] Open Scope Z_scope.

Definition new (pos : nat) (storage : Leaf K R) (bounds : nat * nat) : LeafCursor K R :=
  mkLeafCursor (Z.of_nat pos) storage bounds.
Definition at_pos self (pos : Z) : LeafCursor K R := mkLeafCursor pos (lc_storage self) (lc_bounds self).

Definition keys self : nat := ((lc_bounds self).2 - (lc_bounds self).1)%nat.
Definition valid self : bool :=
  (Z.of_nat (lc_bounds self).1 <=? lc_pos self) && (lc_pos self <? Z.of_nat (lc_bounds self).2).
(** [self.pos as usize], as an index (for valid cursors) and as the value itself, which
    wraps around for the position before the first. *)
Definition index self : nat := Z.to_nat (lc_pos self).
Definition position self : Z := if lc_pos self <? 0 then lc_pos self + 2 ^ 64 else lc_pos self.

(** [item]: [None] is the panic of [cursor_position_oob]. *)
Definition item self : option (K * R) :=
  if (Z.of_nat (length (leaf_keys (lc_storage self))) <=? lc_pos self) || (lc_pos self <? 0) then None
  else
    k ← leaf_keys (lc_storage self) !! index self;
    d ← leaf_diffs (lc_storage self) !! index self;
    Some (k, d).

Definition step self : LeafCursor K R :=
  let self := at_pos self (lc_pos self + 1) in
  if negb (valid self) then at_pos self (Z.of_nat (lc_bounds self).2) else self.
Definition step_reverse self : LeafCursor K R :=
  let self := at_pos self (lc_pos self - 1) in
  if lc_pos self <? Z.of_nat (lc_bounds self).1
  then at_pos self (Z.of_nat (lc_bounds self).1 - 1) else self.

Definition seek_key_with self p : option (LeafCursor K R) :=
  if valid self then
    n ← advance_until sk (leaf_keys (lc_storage self)) (index self) (lc_bounds self).2 p;
    Some (at_pos self (lc_pos self + Z.of_nat n))
  else Some self.
Definition seek_key_with_reverse self p : option (LeafCursor K R) :=
  if valid self then
    n ← retreat_until sk (leaf_keys (lc_storage self)) (lc_bounds self).1 (index self) p;
    Some (at_pos self (lc_pos self - Z.of_nat n))
  else Some self.
Definition seek self key : option (LeafCursor K R) :=
  if valid self then
    n ← advance_to sk (leaf_keys (lc_storage self)) (index self) (lc_bounds self).2 key;
    Some (at_pos self (lc_pos self + Z.of_nat n))
  else Some self.
Definition seek_reverse self key : option (LeafCursor K R) :=
  if valid self then
    n ← retreat_to sk (leaf_keys (lc_storage self)) (lc_bounds self).1 (index self) key;
    Some (at_pos self (lc_pos self - Z.of_nat n))
  else Some self.

Definition rewind self : LeafCursor K R := at_pos self (Z.of_nat (lc_bounds self).1).
Definition fast_forward self : LeafCursor K R := at_pos self (Z.of_nat (lc_bounds self).2 - 1).
Definition reposition self (lower upper : nat) : LeafCursor K R :=
  mkLeafCursor (Z.of_nat lower) (lc_storage self) (lower, upper).

(** [position()], where it is the start of a merge: a position past the upper bound makes
    the subtraction that computes the capacity fail. *)
Definition start self : option nat :=
  assert! (position self <=? Z.of_nat (lc_bounds self).2) in Some (Z.to_nat (position self)).
End ops.
End LeafCursor.

Module LeafBuilder.
Section ops.
Context `{Ord K} `{MonoidValue R} (sk sr : nat).
Implicit Types (self : LeafBuilder K R) (other : Leaf K R) (c : LeafCursor K R).

Definition boundary self : nat := Leaf.len (layer self).
Definition done self : Leaf K R := layer self.
Definition keys self : nat := length (leaf_keys (layer self)).

Definition copy_range self other (lower upper : nat) (map_func : option (K → K)) :
  option (LeafBuilder K R) :=
  l ← match map_func with
      | Some f => Leaf.map_keys_and_extend_from_range sk sr (layer self) other lower upper f
      | None => Leaf.extend_from_range (layer self) other lower upper
      end;
  Some (mkLeafBuilder l).

(** [for index in lower..upper]. *)
Fixpoint retain_loop (n index : nat) (l : Leaf K R) other (filter : K → bool) : option (Leaf K R) :=
  match n with
  | O => Some l
  | S n =>
    k ← leaf_keys other !! index;
    if filter k then
      d ← leaf_diffs other !! index;
      retain_loop n (index + 1) (Leaf.push_refs l k d) other filter
    else retain_loop n (index + 1) l other filter
  end.

(** The mapping function is not used here (the code asserts that there is none). *)
Definition copy_range_retain_keys self other (lower upper : nat) (filter : K → bool)
    (_map_func : option (K → K)) : option (LeafBuilder K R) :=
  assert! ((lower <=? Leaf.len other) && (upper <=? Leaf.len other)) in
  assert! (lower <=? upper) in
  l ← retain_loop (upper - lower) lower (layer self) other filter;
  Some (mkLeafBuilder l).

Definition push_merge self (lhs_cursor rhs_cursor : LeafCursor K R) (map_func : option (K → K)) :
  option (LeafBuilder K R) :=
  lower1 ← LeafCursor.start lhs_cursor;
  lower2 ← LeafCursor.start rhs_cursor;
  let lhs_bounds := (lower1, (lc_bounds lhs_cursor).2) in
  let rhs_bounds := (lower2, (lc_bounds rhs_cursor).2) in
  let lhs := lc_storage lhs_cursor in
  let rhs := lc_storage rhs_cursor in
  l ← match map_func with
      | Some f => Leaf.map_keys_and_push_merge sk sr (layer self) lhs lhs_bounds rhs rhs_bounds f
      | None => Leaf.push_merge sk (layer self) lhs lhs_bounds rhs rhs_bounds
      end;
  Some (mkLeafBuilder l).

Fixpoint merge_retain_loop (fuel : nat) self (trie1 : Leaf K R) (lower1 upper1 : nat)
    (trie2 : Leaf K R) (lower2 upper2 : nat) (filter : K → bool) :
  option (LeafBuilder K R * nat * nat) :=
  match fuel with
  | O => None
  | S fuel =>
    if (lower1 <? upper1) && (lower2 <? upper2) then
      k1 ← leaf_keys trie1 !! lower1;
      k2 ← leaf_keys trie2 !! lower2;
      match cmp k1 k2 with
      | Lt =>
        n ← advance_to sk (leaf_keys trie1) (1 + lower1) upper1 k2;
        let step := Nat.min (1 + n) 1000 in
        self ← copy_range_retain_keys self trie1 lower1 (lower1 + step) filter None;
        merge_retain_loop fuel self trie1 (lower1 + step) upper1 trie2 lower2 upper2 filter
      | Eq =>
        self ← (if filter k1 then
                  d1 ← leaf_diffs trie1 !! lower1;
                  d2 ← leaf_diffs trie2 !! lower2;
                  let diff := d1 ⊕ d2 in
                  Some (if negb (is_zero diff)
                        then mkLeafBuilder (Leaf.push_refs (layer self) k1 diff) else self)
                else Some self);
        merge_retain_loop fuel self trie1 (lower1 + 1) upper1 trie2 (lower2 + 1) upper2 filter
      | Gt =>
        n ← advance_to sk (leaf_keys trie2) (1 + lower2) upper2 k1;
        let step := Nat.min (1 + n) 1000 in
        self ← copy_range_retain_keys self trie2 lower2 (lower2 + step) filter None;
        merge_retain_loop fuel self trie1 lower1 upper1 trie2 (lower2 + step) upper2 filter
      end
    else Some (self, lower1, lower2)
  end.

Definition push_merge_retain_keys self (cursor1 cursor2 : LeafCursor K R) (filter : K → bool)
    (_map_func : option (K → K)) : option (LeafBuilder K R) :=
  let trie1 := lc_storage cursor1 in
  let trie2 := lc_storage cursor2 in
  let upper1 := (lc_bounds cursor1).2 in
  lower1 ← LeafCursor.start cursor1;
  let upper2 := (lc_bounds cursor2).2 in
  lower2 ← LeafCursor.start cursor2;
  '(self, lower1, lower2) ← merge_retain_loop (S ((upper1 - lower1) + (upper2 - lower2)))
     self trie1 lower1 upper1 trie2 lower2 upper2 filter;
  self ← (if lower1 <? upper1 then copy_range_retain_keys self trie1 lower1 upper1 filter None
          else Some self);
  if lower2 <? upper2 then copy_range_retain_keys self trie2 lower2 upper2 filter None
  else Some self.

(** [TupleBuilder]. *)
Definition new : LeafBuilder K R := mkLeafBuilder Leaf.new.
Definition tuples self : nat := Leaf.len (layer self).
Definition push_tuple self (tuple : K * R) : LeafBuilder K R :=
  mkLeafBuilder (Leaf.push_vals (layer self) tuple.1 tuple.2).
Definition push_refs self (tuple : K * R) : LeafBuilder K R :=
  mkLeafBuilder (Leaf.push_refs (layer self) tuple.1 tuple.2).
End ops.
End LeafBuilder.

(** [Trie for Leaf] and [MergeBuilder for LeafBuilder]. *)
#[global] Instance leaf_ops `{Ord K} `{MonoidValue R} (sk sr : nat) :
  TrieOps (Leaf K R) (LeafBuilder K R) (LeafCursor K R) K K := {|
  t_keys := Leaf.len;
  t_tuples := Leaf.len;
  cursor_from l lower upper := Some (LeafCursor.new lower l (lower, upper));
  c_position := LeafCursor.position;
  c_reposition c lower upper := Some (LeafCursor.reposition c lower upper);
  b_with_capacity _ _ := LeafBuilder.new;
  b_keys := LeafBuilder.keys;
  boundary b := Some (b, LeafBuilder.boundary b);
  b_done b := Some (LeafBuilder.done b);
  copy_range := LeafBuilder.copy_range sk sr;
  copy_range_retain_keys := LeafBuilder.copy_range_retain_keys;
  Trie.push_merge := LeafBuilder.push_merge sk sr;
  Trie.push_merge_retain_keys := LeafBuilder.push_merge_retain_keys sk |}.

(** [TupleBuilder for LeafBuilder]. *)
#[global] Instance leaf_tuple_ops {K R} : TupleOps (LeafBuilder K R) (K * R) := {|
  tb_new := LeafBuilder.new;
  tb_tuples := LeafBuilder.tuples;
  tb_push_tuple b t := Some (LeafBuilder.push_tuple b t);
  tb_push_refs b t := Some (LeafBuilder.push_refs b t) |}.

(** ** The leaf implements the trie interface *)
Section theory.
Context `{Ord K} `{MonoidValue R} (sk sr : nat) (Hsk : zst_ok K sk) (Hsr : zst_ok R sr).
Implicit Types (self source lhs rhs l : Leaf K R) (b : LeafBuilder K R).

Definition leaf_ents l : list (K * R) := zip (leaf_keys l) (leaf_diffs l).
Definition leaf_wf l : Prop := length (leaf_keys l) = length (leaf_diffs l).

Lemma leaf_ents_length l : leaf_wf l → length (leaf_ents l) = Leaf.len l.
Proof. unfold leaf_wf, leaf_ents, Leaf.len. intros Hw. rewrite length_zip. lia. Qed.

Lemma leaf_ents_keys l : leaf_wf l → (leaf_ents l).*1 = leaf_keys l.
Proof. unfold leaf_wf. intros. apply fst_zip. lia. Qed.

Lemma leaf_lookup l i k d :
  leaf_keys l !! i = Some k → leaf_diffs l !! i = Some d → leaf_ents l !! i = Some (k, d).
Proof. intros Hk Hd. unfold leaf_ents. rewrite lookup_zip_with, Hk. simpl. by rewrite Hd. Qed.

Lemma leaf_lookup_some l i :
  leaf_wf l → i < Leaf.len l → ∃ k d, leaf_keys l !! i = Some k ∧ leaf_diffs l !! i = Some d ∧
    leaf_ents l !! i = Some (k, d).
Proof.
  unfold leaf_wf, Leaf.len. intros Hw Hi. destruct (lookup_lt_is_Some_2 (leaf_keys l) i) as [k Hk]; [lia|].
  destruct (lookup_lt_is_Some_2 (leaf_diffs l) i) as [d Hd]; [lia|].
  exists k, d. eauto using leaf_lookup.
Qed.

Lemma range_some {A} (v : list A) lo hi : lo ≤ hi → hi ≤ length v → range v lo hi = Some (sub v lo hi).
Proof. intros H1 H2. unfold range. by rewrite !(proj2 (Nat.leb_le _ _)) by lia. Qed.

Lemma sub_zip {A B} (l1 : list A) (l2 : list B) lo hi :
  sub (zip l1 l2) lo hi = zip (sub l1 lo hi) (sub l2 lo hi).
Proof. unfold sub. by rewrite zip_with_drop, zip_with_take. Qed.

Lemma zip_app_same {A B} (a1 a2 : list A) (b1 b2 : list B) :
  length a1 = length b1 → zip (a1 ++ a2) (b1 ++ b2) = zip a1 b1 ++ zip a2 b2.
Proof. intros. by apply zip_with_app. Qed.

Lemma extend_spec self source lo hi :
  leaf_wf self → leaf_wf source → lo ≤ hi → hi ≤ Leaf.len source →
  ∃ l, Leaf.extend_from_range self source lo hi = Some l ∧ leaf_wf l ∧
    leaf_ents l = leaf_ents self ++ sub (leaf_ents source) lo hi.
Proof.
  intros Hw1 Hw2 Hlo Hhi. unfold Leaf.extend_from_range. destruct (Nat.eqb_spec lo hi) as [->|Hne].
  { exists self. rewrite sub_nil, app_nil_r. done. }
  unfold leaf_wf, Leaf.len in *.
  rewrite !range_some by lia. cbn [mbind option_bind]. eexists. split; [done|]. split.
  - cbn. rewrite !length_app, !sub_length by lia. lia.
  - unfold leaf_ents. cbn. rewrite sub_zip. by apply zip_app_same.
Qed.

Lemma push_spec self k d :
  leaf_wf self → leaf_wf (Leaf.push_refs self k d) ∧
  leaf_ents (Leaf.push_refs self k d) = leaf_ents self ++ [(k, d)].
Proof.
  unfold leaf_wf, leaf_ents. cbn. intros Hw. rewrite !length_app. split; [simpl; lia|].
  by rewrite zip_app_same.
Qed.

(** Searching for a key in an ascending range, zero-sized keys included. *)
Lemma sorted_stays_false (v : list K) k : StronglySorted klt v → stays_false (λ x, kltb x k) v.
Proof.
  intros Hs i j x y Hij Hx Hy Hlt. destruct (decide (i = j)) as [->|Hne]; [congruence|].
  apply kltb_spec. apply kltb_spec in Hlt. transitivity y; [|done].
  eapply StronglySorted_lookup; [done | exact Hx | exact Hy | lia].
Qed.

Lemma advance_to_spec (v : list K) lo hi k :
  lo ≤ hi → hi ≤ length v → StronglySorted klt (sub v lo hi) →
  advance_to sk v lo hi k = Some (prefix_len (λ x, kltb x k) (sub v lo hi)).
Proof.
  intros H1 H2 Hs. unfold advance_to. rewrite range_some by done. cbn [mbind option_bind].
  destruct (decide (sk = 0)) as [Hz|Hz].
  - rewrite Hz. unfold dyn_advance, advance_erased. cbn [Nat.eqb]. f_equal.
    destruct (sub v lo hi) as [|x w]; [done|]. cbn.
    assert (kltb x k = false) as ->; [|done]. rewrite (Hsk Hz x k). apply kltb_false, klt_irrefl.
  - apply dyn_advance_prefix; [done | by apply sorted_stays_false].
Qed.

(** *** Merging *)
Definition leaf_pmerge (p q : R) : option R := if is_zero (p ⊕ q) then None else Some (p ⊕ q).
Definition leaf_merge : list (K * R) → list (K * R) → list (K * R) := keyed_merge Some leaf_pmerge.

Lemma keyed_copy_some (l : list (K * R)) : keyed_copy Some l = l.
Proof.
  induction l as [|[k d] l IH]; [done|].
  change (keyed_copy Some ((k, d) :: l)) with ((k, d) :: keyed_copy Some l). by rewrite IH.
Qed.

(** [sorted_ents l lo hi]: a range that a cursor may denote. *)
Definition leaf_range l (lo hi : nat) : Prop :=
  leaf_wf l ∧ lo ≤ hi ∧ hi ≤ Leaf.len l ∧ keys_sorted (sub (leaf_ents l) lo hi).

Lemma leaf_advance l lo hi k :
  leaf_range l lo hi → lo < hi →
  advance_to sk (leaf_keys l) (lo + 1) hi k
    = Some (prefix_len (λ x, kltb x k) (sub (leaf_ents l).*1 (lo + 1) hi)).
Proof.
  intros (Hw&_&Hhi&Hs) Hlt. rewrite leaf_ents_keys by done.
  apply advance_to_spec; [lia | done |].
  apply (keys_sorted_sub _ lo (lo + 1) hi) in Hs as (_&Hs&_); [|lia].
  unfold keys_sorted in Hs. by rewrite sub_fmap, leaf_ents_keys in Hs.
Qed.

Definition flt (f : K → bool) (l : list (K * R)) : list (K * R) := List.filter (λ e, f e.1) l.

Lemma flt_true (l : list (K * R)) : flt (λ _, true) l = l.
Proof. induction l as [|e l IH]; cbn; [done|]. by f_equal. Qed.

(** A run of keys below the other side's next key leaves the merge unchanged, on either side. *)
Lemma leaf_run f lhs (l1 u1 : nat) rhs (l2 u2 : nat) k1 d1 k2 d2 n :
  leaf_range lhs l1 u1 → leaf_range rhs l2 u2 → l1 < u1 → l2 < u2 →
  leaf_ents lhs !! l1 = Some (k1, d1) → leaf_ents rhs !! l2 = Some (k2, d2) → k1 ≺ k2 →
  n ≤ 1 + prefix_len (λ k, kltb k k2) (sub (leaf_ents lhs).*1 (l1 + 1) u1) →
  let es1 lo hi := flt f (sub (leaf_ents lhs) lo hi) in
  let es2 lo hi := flt f (sub (leaf_ents rhs) lo hi) in
  l1 + n ≤ u1 ∧ leaf_range lhs (l1 + n) u1 ∧
  leaf_merge (es1 l1 u1) (es2 l2 u2) = es1 l1 (l1 + n) ++ leaf_merge (es1 (l1 + n) u1) (es2 l2 u2) ∧
  leaf_merge (es2 l2 u2) (es1 l1 u1) = es1 l1 (l1 + n) ++ leaf_merge (es2 l2 u2) (es1 (l1 + n) u1).
Proof.
  intros (Hw1&Hle1&Hu1&Hs1) (Hw2&Hle2&Hu2&Hs2) Hlt1 Hlt2 He1 He2 Hk Hn es1 es2.
  destruct (run_before (leaf_ents lhs) l1 u1 (leaf_ents rhs) l2 u2 k1 d1 k2 d2 n)
    as (Hb&Hb1&Hb2&Hs'); [done | done | lia | rewrite leaf_ents_length by done; lia | lia | done.. |].
  assert (es1 l1 u1 = es1 l1 (l1 + n) ++ es1 (l1 + n) u1) as Heq.
  { unfold es1, flt. rewrite (sub_split _ l1 (l1 + n) u1) by lia. apply List.filter_app. }
  split_and!; [done | by split_and! | |]; rewrite Heq; rewrite <- (app_nil_l (es2 l2 u2)) at 1;
    unfold leaf_merge; rewrite keyed_merge_before by (apply before_nil_l || by apply before_filter).
  - by rewrite keyed_merge_nil_r, keyed_copy_some.
  - by rewrite <- (keyed_copy_some (es1 l1 (l1 + n))) at 2.
Qed.

(** Equal keys: their entries merge. *)
Lemma leaf_heads f lhs (l1 u1 : nat) rhs (l2 u2 : nat) k d1 d2 :
  leaf_range lhs l1 u1 → leaf_range rhs l2 u2 → l1 < u1 → l2 < u2 →
  leaf_ents lhs !! l1 = Some (k, d1) → leaf_ents rhs !! l2 = Some (k, d2) →
  let es1 lo hi := flt f (sub (leaf_ents lhs) lo hi) in
  let es2 lo hi := flt f (sub (leaf_ents rhs) lo hi) in
  leaf_range lhs (l1 + 1) u1 ∧ leaf_range rhs (l2 + 1) u2 ∧
  leaf_merge (es1 l1 u1) (es2 l2 u2)
    = (if f k then emit k (leaf_pmerge d1 d2) else []) ++ leaf_merge (es1 (l1 + 1) u1) (es2 (l2 + 1) u2).
Proof.
  intros (Hw1&Hle1&Hu1&Hs1) (Hw2&Hle2&Hu2&Hs2) Hlt1 Hlt2 He1 He2 es1 es2.
  destruct (head_before _ _ _ _ _ He1 Hlt1 Hs1) as (Hh1&_&Hs1').
  destruct (head_before _ _ _ _ _ He2 Hlt2 Hs2) as (Hh2&_&Hs2').
  split_and!; [split_and!; [done | lia | done | done] | split_and!; [done | lia | done | done] |].
  unfold es1, es2. rewrite Hh1, Hh2. unfold flt. cbn [List.filter fst]. destruct (f k); [|done].
  unfold leaf_merge. by rewrite keyed_merge_cons, cmp_refl.
Qed.

(** Pushing the sum of two weights, unless it is zero. *)
Lemma push_sum_spec self k d1 d2 :
  leaf_wf self →
  let self1 := if negb (is_zero (d1 ⊕ d2)) then Leaf.push_refs self k (d1 ⊕ d2) else self in
  leaf_wf self1 ∧ leaf_ents self1 = leaf_ents self ++ emit k (leaf_pmerge d1 d2).
Proof.
  intros Hw. unfold leaf_pmerge. destruct (is_zero (d1 ⊕ d2)); cbn [negb emit];
    [by rewrite app_nil_r | by apply push_spec].
Qed.

Lemma merge_loop_spec fuel self lhs (l1 u1 : nat) rhs (l2 u2 : nat) :
  (u1 - l1) + (u2 - l2) < fuel → leaf_wf self → leaf_range lhs l1 u1 → leaf_range rhs l2 u2 →
  ∃ self' (l1' l2' : nat), Leaf.merge_loop sk fuel self lhs l1 u1 rhs l2 u2 = Some (self', l1', l2') ∧
    leaf_wf self' ∧ l1' ≤ u1 ∧ l2' ≤ u2 ∧ (l1' = u1 ∨ l2' = u2) ∧
    leaf_ents self' ++ leaf_merge (sub (leaf_ents lhs) l1' u1) (sub (leaf_ents rhs) l2' u2)
      = leaf_ents self ++ leaf_merge (sub (leaf_ents lhs) l1 u1) (sub (leaf_ents rhs) l2 u2).
Proof.
  revert self l1 l2. induction fuel as [|fuel IH]; intros self l1 l2 Hf Hw Hr1 Hr2; [lia|].
  cbn [Leaf.merge_loop]. pose proof Hr1 as (Hw1&Hle1&Hu1&_). pose proof Hr2 as (Hw2&Hle2&Hu2&_).
  destruct ((l1 <? u1) && (l2 <? u2)) eqn:E.
  2: { exists self, l1, l2. split_and!; [done.. | | done].
       apply andb_false_iff in E as [E%Nat.ltb_ge|E%Nat.ltb_ge]; lia. }
  apply andb_true_iff in E as [Hlt1%Nat.ltb_lt Hlt2%Nat.ltb_lt].
  destruct (leaf_lookup_some lhs l1 Hw1 ltac:(lia)) as (k1&d1&Hk1&Hd1&He1).
  destruct (leaf_lookup_some rhs l2 Hw2 ltac:(lia)) as (k2&d2&Hk2&Hd2&He2).
  rewrite Hk1, Hk2. cbn [mbind option_bind]. destruct (cmp k1 k2) eqn:Ec.
  - apply cmp_eq in Ec as <-. rewrite Hd1, Hd2. cbn [mbind option_bind].
    destruct (leaf_heads (λ _, true) lhs l1 u1 rhs l2 u2 k1 d1 d2) as (Hr1'&Hr2'&Hm); [done..|].
    destruct (push_sum_spec self k1 d1 d2 Hw) as [Hw' He']. rewrite !flt_true in Hm.
    destruct (IH _ (l1 + 1) (l2 + 1) ltac:(lia) Hw' Hr1' Hr2') as (s'&l1'&l2'&?&?&?&?&?&Heq).
    exists s', l1', l2'. split_and!; [done..|]. by rewrite Heq, He', Hm, <- app_assoc.
  - rewrite leaf_advance by done. cbn [mbind option_bind]. set (n := 1 + prefix_len _ _).
    destruct (leaf_run (λ _, true) lhs l1 u1 rhs l2 u2 k1 d1 k2 d2 n) as (Hb&Hr'&Hm&_); [done..|].
    rewrite !flt_true in Hm.
    destruct (extend_spec self lhs l1 (l1 + n)) as (self1&->&Hw'&He'); [done | done | lia | lia |].
    cbn [mbind option_bind].
    destruct (IH self1 (l1 + n) l2 ltac:(unfold n in *; lia) Hw' Hr' Hr2) as (s'&l1'&l2'&?&?&?&?&?&Heq).
    exists s', l1', l2'. split_and!; [done..|]. by rewrite Heq, He', Hm, <- app_assoc.
  - apply cmp_gt in Ec. rewrite leaf_advance by done. cbn [mbind option_bind]. set (n := 1 + prefix_len _ _).
    destruct (leaf_run (λ _, true) rhs l2 u2 lhs l1 u1 k2 d2 k1 d1 n) as (Hb&Hr'&_&Hm); [done..|].
    rewrite !flt_true in Hm.
    destruct (extend_spec self rhs l2 (l2 + n)) as (self1&->&Hw'&He'); [done | done | lia | lia |].
    cbn [mbind option_bind].
    destruct (IH self1 l1 (l2 + n) ltac:(unfold n in *; lia) Hw' Hr1 Hr') as (s'&l1'&l2'&?&?&?&?&?&Heq).
    exists s', l1', l2'. split_and!; [done..|]. by rewrite Heq, He', Hm, <- app_assoc.
Qed.

Lemma push_merge_spec self lhs (l1 u1 : nat) rhs (l2 u2 : nat) :
  leaf_wf self → leaf_range lhs l1 u1 → leaf_range rhs l2 u2 →
  ∃ l, Leaf.push_merge sk self lhs (l1, u1) rhs (l2, u2) = Some l ∧ leaf_wf l ∧
    leaf_ents l = leaf_ents self ++ leaf_merge (sub (leaf_ents lhs) l1 u1) (sub (leaf_ents rhs) l2 u2).
Proof.
  intros Hw Hr1 Hr2. unfold Leaf.push_merge. pose proof Hr1 as (Hw1&Hle1&Hu1&_).
  pose proof Hr2 as (Hw2&Hle2&Hu2&_). rewrite !(proj2 (Nat.leb_le _ _)) by lia. cbn [andb].
  destruct (merge_loop_spec (S ((u1 - l1) + (u2 - l2))) self lhs l1 u1 rhs l2 u2)
    as (s'&l1'&l2'&Hl&Hws&H1&H2&H3&Heq); [lia | done..|].
  rewrite Hl. cbn [mbind option_bind]. rewrite <- Heq. clear Heq Hl.
  assert (∃ s1, (if l1' <? u1 then Leaf.extend_from_range s' lhs l1' u1 else Some s') = Some s1 ∧
    leaf_wf s1 ∧ leaf_ents s1 = leaf_ents s' ++ sub (leaf_ents lhs) l1' u1) as (s1&->&Hws1&Hes1).
  { destruct (Nat.ltb_spec l1' u1); [by apply extend_spec; try lia|].
    assert (l1' = u1) as -> by lia. exists s'. by rewrite sub_nil, app_nil_r. }
  cbn [mbind option_bind].
  assert (∃ s2, (if l2' <? u2 then Leaf.extend_from_range s1 rhs l2' u2 else Some s1) = Some s2 ∧
    leaf_wf s2 ∧ leaf_ents s2 = leaf_ents s1 ++ sub (leaf_ents rhs) l2' u2) as (s2&->&Hws2&Hes2).
  { destruct (Nat.ltb_spec l2' u2); [by apply extend_spec; try lia|].
    assert (l2' = u2) as -> by lia. exists s1. by rewrite sub_nil, app_nil_r. }
  exists s2. split_and!; [done..|]. rewrite Hes2, Hes1, <- app_assoc. f_equal.
  unfold leaf_merge. destruct H3 as [-> | ->]; rewrite sub_nil.
  - symmetry. apply keyed_copy_some.
  - by rewrite keyed_merge_nil_r, keyed_copy_some, app_nil_r.
Qed.

(** *** Mapping keys *)
(** The canonical form, as a function. *)
Definition canon (l : list (K * R)) : list (K * R) := default [] (consolidate 1 l).

Lemma canon_spec (l : list (K * R)) : consolidated l (canon l).
Proof. unfold canon. by destruct (consolidate_sorts 1 l) as (w&->&Hw). Qed.

Lemma consolidate_tail_spec self base :
  leaf_wf self → base ≤ Leaf.len self →
  ∃ l, Leaf.consolidate_tail sk sr self base (Leaf.len self) = Some l ∧ leaf_wf l ∧
    leaf_ents l = take base (leaf_ents self) ++ canon (drop base (leaf_ents self)).
Proof.
  intros Hw Hb. unfold Leaf.consolidate_tail, consolidate_paired_ranges, Leaf.len in *.
  unfold leaf_wf in Hw. rewrite !(proj2 (Nat.leb_le _ _)) by lia. cbn [andb].
  fold (sub (leaf_keys self) base (length (leaf_keys self))).
  fold (sub (leaf_diffs self) base (length (leaf_keys self))).
  destruct (consolidate_paired_sorts sk sr Hsk Hsr
    (sub (leaf_keys self) base (length (leaf_keys self)))
    (sub (leaf_diffs self) base (length (leaf_keys self)))) as (ks&ds&n&Hc&Hlk&Hld&Hn&Hcons).
  { rewrite !sub_length by lia. done. }
  rewrite Hc. cbn [mbind option_bind]. rewrite !drop_ge, !app_nil_r by lia.
  rewrite sub_length in Hlk by lia. rewrite sub_length in Hn by lia. rewrite (sub_length (leaf_diffs self)) in Hld by lia.
  assert (∀ A (u v : list A), length u = base → take (base + n) (u ++ v) = u ++ take n v) as Ht.
  { intros A u v Hu. rewrite take_app_ge by lia. do 2 f_equal. lia. }
  eexists. split; [done|]. unfold Leaf.truncate, LeanVec.truncate. cbn [leaf_keys leaf_diffs].
  rewrite !Ht by (rewrite length_take; lia). split.
  - unfold leaf_wf. cbn. rewrite !length_app, !length_take. lia.
  - unfold leaf_ents at 1. cbn. rewrite zip_app_same by (rewrite !length_take; lia).
    unfold leaf_ents. rewrite zip_with_take. f_equal. eapply consolidated_unique; [done|].
    rewrite <- sub_zip. unfold sub. rewrite take_ge by (rewrite length_drop, length_zip; lia).
    apply canon_spec.
Qed.

Lemma map_keys_spec f self base :
  leaf_wf self → base ≤ Leaf.len self →
  leaf_wf (Leaf.map_keys f self base (Leaf.len self)) ∧
  Leaf.len (Leaf.map_keys f self base (Leaf.len self)) = Leaf.len self ∧
  leaf_ents (Leaf.map_keys f self base (Leaf.len self))
    = take base (leaf_ents self) ++ remap f (drop base (leaf_ents self)).
Proof.
  intros Hw Hb. unfold leaf_wf, Leaf.len, leaf_ents in *.
  unfold Leaf.map_keys. cbn [leaf_keys leaf_diffs].
  rewrite (drop_ge _ (length (leaf_keys self))), app_nil_r by lia.
  unfold sub. rewrite (take_ge (drop base (leaf_keys self))) by (rewrite length_drop; lia).
  assert (length (take base (leaf_keys self) ++ (f <$> drop base (leaf_keys self)))
    = length (leaf_keys self)) as Hl by (rewrite length_app, length_fmap, length_take, length_drop; lia).
  split_and!; [lia | done |]. rewrite <- (take_drop base (leaf_diffs self)) at 1.
  rewrite zip_app_same by (rewrite !length_take; lia). rewrite zip_with_take, zip_with_drop. f_equal.
  generalize (drop base (leaf_keys self)) (drop base (leaf_diffs self)).
  intros ks. induction ks as [|k ks IH]; intros [|d ds]; cbn; [done..|]. f_equal. apply IH.
Qed.

Lemma map_extend_spec self source lo hi f :
  leaf_wf self → leaf_wf source → lo ≤ hi → hi ≤ Leaf.len source →
  ∃ l, Leaf.map_keys_and_extend_from_range sk sr self source lo hi f = Some l ∧ leaf_wf l ∧
    leaf_ents l = leaf_ents self ++ canon (remap f (sub (leaf_ents source) lo hi)).
Proof.
  intros Hw1 Hw2 Hlo Hhi. unfold Leaf.map_keys_and_extend_from_range.
  destruct (extend_spec self source lo hi) as (l1&Hx&Hwl1&Hel1); [done..|].
  rewrite Hx. cbn [mbind option_bind].
  assert (Leaf.len self ≤ Leaf.len l1) as Hb.
  { rewrite <- !leaf_ents_length, Hel1, length_app by done. lia. }
  destruct (map_keys_spec f l1 (Leaf.len self) Hwl1 Hb) as (Hwm&Hlm&Hem).
  destruct (consolidate_tail_spec _ (Leaf.len self) Hwm) as (l2&Hc&Hw'&He').
  { by rewrite Hlm. }
  rewrite Hlm in Hc.
  exists l2. split_and!; [done | done |]. rewrite He', Hem, Hel1.
  rewrite <- (leaf_ents_length self Hw1).
  rewrite (take_app_length (leaf_ents self)), (drop_app_length (leaf_ents self)).
  by rewrite take_app_length, drop_app_length.
Qed.

Lemma map_merge_spec self lhs (l1 u1 : nat) rhs (l2 u2 : nat) f :
  leaf_wf self → leaf_wf lhs → leaf_wf rhs → l1 ≤ u1 → u1 ≤ Leaf.len lhs → l2 ≤ u2 → u2 ≤ Leaf.len rhs →
  ∃ l, Leaf.map_keys_and_push_merge sk sr self lhs (l1, u1) rhs (l2, u2) f = Some l ∧ leaf_wf l ∧
    leaf_ents l = leaf_ents self ++
      canon (remap f (sub (leaf_ents lhs) l1 u1 ++ sub (leaf_ents rhs) l2 u2)).
Proof.
  intros Hw Hw1 Hw2 H1 H2 H3 H4. unfold Leaf.map_keys_and_push_merge.
  rewrite !(proj2 (Nat.leb_le _ _)) by done. cbn [andb].
  destruct (extend_spec self lhs l1 u1) as (s1&->&Hws1&Hes1); [done..|]. cbn [mbind option_bind].
  destruct (extend_spec s1 rhs l2 u2) as (s2&->&Hws2&Hes2); [done..|]. cbn [mbind option_bind].
  rewrite Hes1, <- app_assoc in Hes2.
  assert (Leaf.len self ≤ Leaf.len s2) as Hb.
  { rewrite <- !leaf_ents_length, Hes2, length_app by done. lia. }
  destruct (map_keys_spec f s2 (Leaf.len self) Hws2 Hb) as (Hwm&Hlm&Hem).
  destruct (consolidate_tail_spec _ (Leaf.len self) Hwm) as (s3&Hc&Hw'&He').
  { by rewrite Hlm. }
  rewrite Hlm in Hc.
  exists s3. split_and!; [done | done |]. rewrite He', Hem, Hes2.
  rewrite <- (leaf_ents_length self Hw).
  rewrite (take_app_length (leaf_ents self)), (drop_app_length (leaf_ents self)).
  by rewrite take_app_length, drop_app_length.
Qed.

(** *** Filtering keys *)
Lemma retain_loop_spec n i l other f :
  leaf_wf l → leaf_wf other → i + n ≤ Leaf.len other →
  ∃ l', LeafBuilder.retain_loop n i l other f = Some l' ∧ leaf_wf l' ∧
    leaf_ents l' = leaf_ents l ++ flt f (sub (leaf_ents other) i (i + n)).
Proof.
  revert i l. induction n as [|n IH]; intros i l Hw Hwo Hn; cbn [LeafBuilder.retain_loop].
  { exists l. by rewrite Nat.add_0_r, sub_nil, app_nil_r. }
  destruct (leaf_lookup_some other i Hwo ltac:(lia)) as (k&d&Hk&Hd&He). rewrite Hk. cbn [mbind option_bind].
  rewrite (sub_cons _ _ _ _ He) by lia. replace (i + S n) with (i + 1 + n) by lia.
  replace (S i) with (i + 1) by lia. unfold flt. cbn [List.filter fst].
  fold (flt f (sub (leaf_ents other) (i + 1) (i + 1 + n))). destruct (f k) eqn:Ef.
  - rewrite Hd. cbn [mbind option_bind]. destruct (push_spec l k d Hw) as [Hw' He'].
    destruct (IH (i + 1) (Leaf.push_refs l k d)) as (l'&Hl&Hwl&Hel); [done | done | lia |].
    exists l'. split_and!; [done | done |]. rewrite Hel, He'. by rewrite <- app_assoc.
  - apply IH; [done | done | lia].
Qed.

Lemma copy_retain_spec b other lo hi f m :
  leaf_wf (layer b) → leaf_wf other → lo ≤ hi → hi ≤ Leaf.len other →
  ∃ b', LeafBuilder.copy_range_retain_keys b other lo hi f m = Some b' ∧ leaf_wf (layer b') ∧
    leaf_ents (layer b') = leaf_ents (layer b) ++ flt f (sub (leaf_ents other) lo hi).
Proof.
  intros Hw Hwo Hlo Hhi. unfold LeafBuilder.copy_range_retain_keys.
  rewrite !(proj2 (Nat.leb_le _ _)) by lia. cbn [andb].
  destruct (retain_loop_spec (hi - lo) lo (layer b) other f) as (l'&->&Hwl&Hel); [done | done | lia |].
  cbn [mbind option_bind]. eexists. split; [done|]. split; [done|]. cbn.
  rewrite Hel. by replace (lo + (hi - lo)) with hi by lia.
Qed.

Lemma push_sum_retain_spec (f : K → bool) b k d1 d2 :
  leaf_wf (layer b) →
  ∃ b1, (if f k then Some (if negb (is_zero (d1 ⊕ d2))
           then mkLeafBuilder (Leaf.push_refs (layer b) k (d1 ⊕ d2)) else b) else Some b) = Some b1 ∧
    leaf_wf (layer b1) ∧
    leaf_ents (layer b1) = leaf_ents (layer b) ++ (if f k then emit k (leaf_pmerge d1 d2) else []).
Proof.
  intros Hw. destruct (f k); [|exists b; by rewrite app_nil_r]. eexists. split; [done|].
  destruct (push_sum_spec (layer b) k d1 d2 Hw) as [Hw' He']. by destruct (negb _).
Qed.

Lemma merge_retain_loop_spec f fuel b lhs (l1 u1 : nat) rhs (l2 u2 : nat) :
  (u1 - l1) + (u2 - l2) < fuel → leaf_wf (layer b) → leaf_range lhs l1 u1 → leaf_range rhs l2 u2 →
  ∃ b' (l1' l2' : nat),
    LeafBuilder.merge_retain_loop sk fuel b lhs l1 u1 rhs l2 u2 f = Some (b', l1', l2') ∧
    leaf_wf (layer b') ∧ l1' ≤ u1 ∧ l2' ≤ u2 ∧ (l1' = u1 ∨ l2' = u2) ∧
    leaf_ents (layer b') ++
      leaf_merge (flt f (sub (leaf_ents lhs) l1' u1)) (flt f (sub (leaf_ents rhs) l2' u2))
    = leaf_ents (layer b) ++
      leaf_merge (flt f (sub (leaf_ents lhs) l1 u1)) (flt f (sub (leaf_ents rhs) l2 u2)).
Proof.
  revert b l1 l2. induction fuel as [|fuel IH]; intros b l1 l2 Hf Hw Hr1 Hr2; [lia|].
  cbn [LeafBuilder.merge_retain_loop]. pose proof Hr1 as (Hw1&Hle1&Hu1&_). pose proof Hr2 as (Hw2&Hle2&Hu2&_).
  destruct ((l1 <? u1) && (l2 <? u2)) eqn:E.
  2: { exists b, l1, l2. split_and!; [done.. | | done].
       apply andb_false_iff in E as [E%Nat.ltb_ge|E%Nat.ltb_ge]; lia. }
  apply andb_true_iff in E as [Hlt1%Nat.ltb_lt Hlt2%Nat.ltb_lt].
  destruct (leaf_lookup_some lhs l1 Hw1 ltac:(lia)) as (k1&d1&Hk1&Hd1&He1).
  destruct (leaf_lookup_some rhs l2 Hw2 ltac:(lia)) as (k2&d2&Hk2&Hd2&He2).
  rewrite Hk1, Hk2. cbn [mbind option_bind]. destruct (cmp k1 k2) eqn:Ec.
  - apply cmp_eq in Ec as <-. rewrite Hd1, Hd2. cbn [mbind option_bind].
    destruct (leaf_heads f lhs l1 u1 rhs l2 u2 k1 d1 d2) as (Hr1'&Hr2'&Hm); [done..|].
    destruct (push_sum_retain_spec f b k1 d1 d2 Hw) as (b1&->&Hw'&He'). cbn [mbind option_bind].
    destruct (IH b1 (l1 + 1) (l2 + 1) ltac:(lia) Hw' Hr1' Hr2') as (s'&l1'&l2'&?&?&?&?&?&Heq).
    exists s', l1', l2'. split_and!; [done..|]. by rewrite Heq, He', Hm, <- app_assoc.
  - rewrite (Nat.add_comm 1 l1), leaf_advance by done. cbn [mbind option_bind].
    set (n := Nat.min (1 + prefix_len _ _) 1000).
    destruct (leaf_run f lhs l1 u1 rhs l2 u2 k1 d1 k2 d2 n) as (Hb&Hr'&Hm&_); [done.. | apply Nat.le_min_l |].
    destruct (copy_retain_spec b lhs l1 (l1 + n) f None) as (b1&->&Hw'&He'); [done | done | lia | lia |].
    cbn [mbind option_bind].
    destruct (IH b1 (l1 + n) l2 ltac:(unfold n in *; lia) Hw' Hr' Hr2) as (s'&l1'&l2'&?&?&?&?&?&Heq).
    exists s', l1', l2'. split_and!; [done..|]. by rewrite Heq, He', Hm, <- app_assoc.
  - apply cmp_gt in Ec. rewrite (Nat.add_comm 1 l2), leaf_advance by done. cbn [mbind option_bind].
    set (n := Nat.min (1 + prefix_len _ _) 1000).
    destruct (leaf_run f rhs l2 u2 lhs l1 u1 k2 d2 k1 d1 n) as (Hb&Hr'&_&Hm); [done.. | apply Nat.le_min_l |].
    destruct (copy_retain_spec b rhs l2 (l2 + n) f None) as (b1&->&Hw'&He'); [done | done | lia | lia |].
    cbn [mbind option_bind].
    destruct (IH b1 l1 (l2 + n) ltac:(unfold n in *; lia) Hw' Hr1 Hr') as (s'&l1'&l2'&?&?&?&?&?&Heq).
    exists s', l1', l2'. split_and!; [done..|]. by rewrite Heq, He', Hm, <- app_assoc.
Qed.

Lemma leaf_start l lo hi : lo ≤ hi → LeafCursor.start (LeafCursor.new lo l (lo, hi)) = Some lo.
Proof.
  intros Hle. unfold LeafCursor.start, LeafCursor.position. cbn [lc_pos lc_bounds LeafCursor.new snd].
  destruct (Z.ltb_spec (Z.of_nat lo) 0); [lia|]. rewrite (proj2 (Z.leb_le _ _)) by lia.
  by rewrite Nat2Z.id.
Qed.

Lemma push_merge_retain_spec f m b lhs (l1 u1 : nat) rhs (l2 u2 : nat) :
  leaf_wf (layer b) → leaf_range lhs l1 u1 → leaf_range rhs l2 u2 →
  ∃ b', LeafBuilder.push_merge_retain_keys sk b (LeafCursor.new l1 lhs (l1, u1))
          (LeafCursor.new l2 rhs (l2, u2)) f m = Some b' ∧ leaf_wf (layer b') ∧
    leaf_ents (layer b') = leaf_ents (layer b) ++
      leaf_merge (flt f (sub (leaf_ents lhs) l1 u1)) (flt f (sub (leaf_ents rhs) l2 u2)).
Proof.
  intros Hw Hr1 Hr2. pose proof Hr1 as (Hw1&Hle1&Hu1&_). pose proof Hr2 as (Hw2&Hle2&Hu2&_).
  unfold LeafBuilder.push_merge_retain_keys. rewrite !leaf_start by done. cbn [mbind option_bind].
  cbn [lc_storage lc_bounds LeafCursor.new snd].
  destruct (merge_retain_loop_spec f (S ((u1 - l1) + (u2 - l2))) b lhs l1 u1 rhs l2 u2)
    as (s'&l1'&l2'&Hl&Hws&H1&H2&H3&Heq); [lia | done..|].
  rewrite Hl. cbn [mbind option_bind]. rewrite <- Heq. clear Heq Hl.
  assert (∃ s1, (if l1' <? u1 then LeafBuilder.copy_range_retain_keys s' lhs l1' u1 f None else Some s')
      = Some s1 ∧ leaf_wf (layer s1) ∧
    leaf_ents (layer s1) = leaf_ents (layer s') ++ flt f (sub (leaf_ents lhs) l1' u1)) as (s1&->&Hws1&Hes1).
  { destruct (Nat.ltb_spec l1' u1); [by apply copy_retain_spec; try lia|].
    assert (l1' = u1) as -> by lia. exists s'. rewrite sub_nil. by rewrite app_nil_r. }
  cbn [mbind option_bind].
  assert (∃ s2, (if l2' <? u2 then LeafBuilder.copy_range_retain_keys s1 rhs l2' u2 f None else Some s1)
      = Some s2 ∧ leaf_wf (layer s2) ∧
    leaf_ents (layer s2) = leaf_ents (layer s1) ++ flt f (sub (leaf_ents rhs) l2' u2)) as (s2&->&Hws2&Hes2).
  { destruct (Nat.ltb_spec l2' u2); [by apply copy_retain_spec; try lia|].
    assert (l2' = u2) as -> by lia. exists s1. rewrite sub_nil. by rewrite app_nil_r. }
  exists s2. split_and!; [done..|]. rewrite Hes2, Hes1, <- app_assoc. f_equal.
  unfold leaf_merge. destruct H3 as [-> | ->]; rewrite sub_nil; change (flt f []) with (@nil (K * R)).
  - symmetry. apply keyed_copy_some.
  - rewrite keyed_merge_nil_r, keyed_copy_some. apply app_nil_r.
Qed.

(** *** The weights *)
Definition leaf_tups (e : K * R) : list (K * R) := [e].

Lemma leaf_flat (l : list (K * R)) : l ≫= leaf_tups = l.
Proof. induction l as [|e l IH]; [done|]. cbn. f_equal. exact IH. Qed.

Lemma leaf_merge_canonical (l1 l2 : list (K * R)) :
  canonical l1 → canonical l2 → canonical (leaf_merge l1 l2).
Proof.
  intros [Hs1 Hz1] [Hs2 Hz2]. split; [by apply keyed_merge_sorted|].
  assert (∀ l : list (K * R), nonzero l ↔ Forall (λ r, r ≠ mzero) l.*2) as Hnz
    by (intros l; unfold nonzero; by rewrite Forall_fmap).
  rewrite Hnz in *. apply (keyed_merge_valid Some leaf_pmerge (λ r, r ≠ mzero) (λ r, r ≠ mzero)); [| |done|done].
  - by intros p q ? [= <-].
  - intros p q r _ _. unfold leaf_pmerge. destruct (is_zero (p ⊕ q)) eqn:E; [done|].
    intros [= <-]. by apply is_zero_false.
Qed.

Lemma leaf_merge_wt (l1 l2 : list (K * R)) k :
  wt (leaf_merge l1 l2) k = wt (l1 ++ l2) k.
Proof.
  rewrite <- (leaf_flat (leaf_merge l1 l2)), <- (remap_id (l1 ++ l2)), remap_app.
  rewrite <- (leaf_flat l1) at 2. rewrite <- (leaf_flat l2) at 2.
  apply (keyed_merge_wt Some leaf_pmerge leaf_tups id (λ _, True)).
  - intros k' p i _. done.
  - intros k' p q i _ _. unfold leaf_pmerge. destruct (is_zero (p ⊕ q)) eqn:E; cbn.
    + apply is_zero_true in E. case_decide; [|done]. by rewrite madd_0_r, E.
    + case_decide; [|done]. by rewrite madd_0_r, madd_0_r.
  - by apply Forall_true.
  - by apply Forall_true.
Qed.

Lemma canonical_filter f (l : list (K * R)) : canonical l → canonical (List.filter f l).
Proof.
  intros [Hs Hz]. split; [by apply keys_sorted_filter|]. unfold nonzero in *.
  rewrite Forall_forall in *. intros x Hx. apply Hz.
  apply list_elem_of_In, filter_In in Hx as [Hx _]. by apply list_elem_of_In.
Qed.

Definition leaf_copy (m : option (K → K)) (l : list (K * R)) : list (K * R) :=
  match m with None => l | Some f => canon (remap f l) end.
Definition leaf_a_merge (m : option (K → K)) (l1 l2 : list (K * R)) : list (K * R) :=
  match m with None => leaf_merge l1 l2 | Some f => canon (remap f (l1 ++ l2)) end.

#[global] Program Instance leaf_spec :
  TrieSpec (Leaf K R) (LeafBuilder K R) (LeafCursor K R) K K (K * R) K R (OPS := leaf_ops sk sr) := {|
  ents := leaf_ents; b_ents b := leaf_ents (layer b); wf_trie := leaf_wf; wf_builder b := leaf_wf (layer b);
  c_of c l := lc_storage c = l; ekey := fst; tups := leaf_tups; imap f := f; asorted := canonical;
  a_copy := leaf_copy; a_merge := leaf_a_merge; retain_map_ok m := m = None |}.
Next Obligation. intros l Hw. symmetry. by apply leaf_ents_length. Qed.
Next Obligation. intros b Hw. symmetry. by apply leaf_ents_length. Qed.
Next Obligation. done. Qed.
Next Obligation. intros b Hw. by exists b. Qed.
Next Obligation. intros b Hw. by exists (layer b). Qed.
Next Obligation.
  intros b l lo hi m Hb Hl Hlt Hhi. rewrite leaf_ents_length in Hhi by done.
  cbn. unfold LeafBuilder.copy_range. destruct m as [f|]; cbn [leaf_copy].
  - destruct (map_extend_spec (layer b) l lo hi f) as (l'&->&Hw&He); [done | done | lia | done |].
    by exists (mkLeafBuilder l').
  - destruct (extend_spec (layer b) l lo hi) as (l'&->&Hw&He); [done | done | lia | done |].
    by exists (mkLeafBuilder l').
Qed.
Next Obligation.
  intros b l lo hi f m Hb Hl Hlt Hhi ->. rewrite leaf_ents_length in Hhi by done.
  cbn. destruct (copy_retain_spec b l lo hi f None) as (b'&->&Hw&He); [done | done | lia | done |].
  by exists b'.
Qed.
Next Obligation.
  intros b l1 lo1 hi1 l2 lo2 hi2 m Hb Hl1 Hl2 H1 H2 H3 H4 Hs1 Hs2.
  rewrite leaf_ents_length in H2, H4 by done.
  exists (LeafCursor.new lo1 l1 (lo1, hi1)), (LeafCursor.new lo2 l2 (lo2, hi2)). cbn [cursor_from Trie.push_merge Trie.push_merge_retain_keys leaf_ops].
  unfold LeafBuilder.push_merge. rewrite !leaf_start by done. cbn [mbind option_bind lc_storage lc_bounds LeafCursor.new snd].
  destruct m as [f|]; cbn [leaf_a_merge].
  - destruct (map_merge_spec (layer b) l1 lo1 hi1 l2 lo2 hi2 f) as (l'&->&Hw&He); [done..|].
    by exists (mkLeafBuilder l').
  - destruct (push_merge_spec (layer b) l1 lo1 hi1 l2 lo2 hi2) as (l'&->&Hw&He);
      [done | split_and!; try done; apply Hs1 | split_and!; try done; apply Hs2 |].
    by exists (mkLeafBuilder l').
Qed.
Next Obligation.
  intros b l1 lo1 hi1 l2 lo2 hi2 f m Hb Hl1 Hl2 H1 H2 H3 H4 Hs1 Hs2 ->.
  rewrite leaf_ents_length in H2, H4 by done.
  exists (LeafCursor.new lo1 l1 (lo1, hi1)), (LeafCursor.new lo2 l2 (lo2, hi2)). cbn [cursor_from Trie.push_merge Trie.push_merge_retain_keys leaf_ops].
  destruct (push_merge_retain_spec f None b l1 lo1 hi1 l2 lo2 hi2) as (b'&->&Hw&He);
    [done | split_and!; try done; apply Hs1 | split_and!; try done; apply Hs2 |].
  by exists b'.
Qed.
Next Obligation. intros l lo hi _ _ _. by eexists. Qed.
Next Obligation. by intros l lo hi c [= <-]. Qed.
Next Obligation. by intros l c lo hi _ <-. Qed.
Next Obligation.
  intros l lo hi c [= <-] _. cbn. unfold LeafCursor.position. cbn.
  destruct (Z.ltb_spec (Z.of_nat lo) 0); lia.
Qed.
Next Obligation. apply canonical_nil. Qed.
Next Obligation. intros l1 l2 Hc. apply canonical_app in Hc. tauto. Qed.
Next Obligation. intros f l. apply canonical_filter. Qed.
Next Obligation. intros l Hc. by rewrite leaf_flat. Qed.
Next Obligation. intros l _. by rewrite leaf_flat. Qed.
Next Obligation. done. Qed.
Next Obligation. intros [f|] l Hc; [apply canon_spec | done]. Qed.
Next Obligation.
  intros [f|] l i Hc; rewrite !leaf_flat; [apply canon_spec | by rewrite remap_id].
Qed.
Next Obligation. intros [f|] l1 l2 Hc1 Hc2; [apply canon_spec | by apply leaf_merge_canonical]. Qed.
Next Obligation.
  intros [f|] l1 l2 i Hc1 Hc2; rewrite !leaf_flat; [apply canon_spec |].
  rewrite remap_id. apply leaf_merge_wt.
Qed.

End theory.

Section properties.
Context `{Ord K} `{MonoidValue R} (sk sr : nat).

(** Leaves are added ([merge]), merged under a function on their keys, and merged with
    a filter, without panics; the result has strictly increasing keys and no zero weight,
    and denotes the sum of the two Z-sets, under the mapping, of the retained keys. *)
Theorem leaf_merge_spec (l1 l2 : Leaf K R) (f : K → K) (g : K → bool) :
  zst_ok K sk → zst_ok R sr → leaf_wf l1 → leaf_wf l2 → canonical (leaf_ents l1) → canonical (leaf_ents l2) →
  let c1 := LeafCursor.new 0 l1 (0, Leaf.len l1) in
  let c2 := LeafCursor.new 0 l2 (0, Leaf.len l2) in
  (∃ l, trie_merge (H := leaf_ops sk sr) l1 l2 = Some l ∧ leaf_wf l ∧
     consolidated (leaf_ents l1 ++ leaf_ents l2) (leaf_ents l)) ∧
  (∃ b, LeafBuilder.push_merge sk sr LeafBuilder.new c1 c2 (Some f) = Some b ∧ leaf_wf (LeafBuilder.done b) ∧
     consolidated (remap f (leaf_ents l1 ++ leaf_ents l2)) (leaf_ents (LeafBuilder.done b))) ∧
  (∃ b, LeafBuilder.push_merge_retain_keys sk LeafBuilder.new c1 c2 g None = Some b ∧
     leaf_wf (LeafBuilder.done b) ∧
     consolidated (flt g (leaf_ents l1) ++ flt g (leaf_ents l2)) (leaf_ents (LeafBuilder.done b))).
Proof.
  intros Hsk Hsr Hw1 Hw2 Hc1 Hc2 c1 c2. set (SP := leaf_spec sk sr Hsk Hsr). split_and!.
  - destruct (trie_merge_correct (SP := SP) l1 l2 Hw1 Hw2 Hc1 Hc2) as (l&Hl&Hw&_&Hc). exists l.
    unfold denote in Hc. cbn in Hc. by rewrite !leaf_flat in Hc.
  - destruct (merge_into_correct (SP := SP) (Some f) l1 l2 Hw1 Hw2 Hc1 Hc2)
      as (?&?&b&l&[= <-]&[= <-]&Hb&[= <-]&Hw&_&Hc). exists b.
    unfold denote in Hc. cbn in Hc. by rewrite !leaf_flat in Hc.
  - destruct (merge_retain_correct (SP := SP) g None l1 l2 Hw1 Hw2 Hc1 Hc2 eq_refl)
      as (?&?&b&l&[= <-]&[= <-]&Hb&[= <-]&Hw&_&Hc). exists b.
    unfold denote, retained, mapped in Hc. rewrite remap_id in Hc. cbn in Hc. by rewrite !leaf_flat in Hc.
Qed.
End properties.

Definition leaf_example1 : Leaf nat Z := mkLeaf [1; 3; 5; 7] [1; -1; 2; 4]%Z.
Definition leaf_example2 : Leaf nat Z := mkLeaf [2; 3; 7] [5; 1; 1]%Z.

Lemma leaf_merge_witness :
  trie_merge (H := leaf_ops 8 8) leaf_example1 leaf_example2 = Some (mkLeaf [1; 2; 5; 7] [1; 5; 2; 5]%Z) ∧
  (∃ b, LeafBuilder.push_merge 8 8 LeafBuilder.new (LeafCursor.new 0 leaf_example1 (0, 4))
          (LeafCursor.new 0 leaf_example2 (0, 3)) (Some (λ k, k / 4)) = Some b ∧
     layer b = mkLeaf [0; 1] [6; 7]%Z) ∧
  (∃ b, LeafBuilder.push_merge_retain_keys 8 LeafBuilder.new (LeafCursor.new 0 leaf_example1 (0, 4))
          (LeafCursor.new 0 leaf_example2 (0, 3)) (λ k, k <? 6) None = Some b ∧
     layer b = mkLeaf [1; 2; 5] [1; 5; 2]%Z).
Proof.
  destruct (leaf_merge_spec 8 8 leaf_example1 leaf_example2 (λ k, k / 4) (λ k, k <? 6)
    (zst_ok_pos _ _) (zst_ok_pos _ _) eq_refl eq_refl)
    as ((l&Hl&_)&(b1&Hb1&_)&(b2&Hb2&_)); [split; repeat constructor; discriminate..|].
  split_and!; [reflexivity | exists b1 | exists b2].
  - split; [exact Hb1|]. vm_compute in Hb1. injection Hb1 as <-. reflexivity.
  - split; [exact Hb2|]. vm_compute in Hb2. injection Hb2 as <-. reflexivity.
Defined.
