(* ===== verification/Layer.v ===== *)
(** The inner layer: keys, offsets and the layer of values below
    (crates/dbsp/src/trace/layers/layer.rs).

    The values of key [i] are the keys [offs[i]..offs[i + 1]] of the layer below, which
    is any trie.  Offsets are [usize] (the default of the type parameter [O]); [isize]
    and [usize] amounts of fuel are integers.  [sk] is the size of the key type. *)
From Stdlib Require Import Sorting.Sorted.
From S2P Require Import Prelude Sort Quicksort Search LeanVec Consolidation Trie.
#[local] Open Scope nat_scope.

(** [usize::MAX]. *)
Definition USIZE_MAX : Z := 2 ^ 64 - 1.

Record Layer (K L : Type) := mkLayer { l_keys : list K; l_offs : list nat; l_vals : L }.
Arguments mkLayer {K L}.
Arguments l_keys {K L}.
Arguments l_offs {K L}.
Arguments l_vals {K L}.

Record LayerBuilder (K B : Type) := mkLayerBuilder { lb_keys : list K; lb_offs : list nat; lb_vals : B }.
Arguments mkLayerBuilder {K B}.
Arguments lb_keys {K B}.
Arguments lb_offs {K B}.
Arguments lb_vals {K B}.

Record LayerCursor (K L C : Type) := mkLayerCursor {
  ly_storage : Layer K L; ly_pos : Z; ly_bounds : nat * nat; ly_child : C }.
Arguments mkLayerCursor {K L C}.
Arguments ly_storage {K L C}.
Arguments ly_pos {K L C}.
Arguments ly_bounds {K L C}.
Arguments ly_child {K L C}.

Module Layer.
Section ops.
Context `{Ord K} `{TrieOps L B C V LK}.
Implicit Types self : Layer K L.

Definition keys self : nat := length (l_keys self).
Definition tuples self : nat := t_tuples (l_vals self).

Definition cursor_from self (lower upper : nat) : option (LayerCursor K L C) :=
  if lower <? upper then
    child_lower ← l_offs self !! lower;
    child_upper ← l_offs self !! (lower + 1);
    child ← Trie.cursor_from (l_vals self) child_lower child_upper;
    Some (mkLayerCursor self (Z.of_nat lower) (lower, upper) child)
  else
    child ← Trie.cursor_from (l_vals self) 0 0;
    Some (mkLayerCursor self 0 (0, 0) child).

(** [NegByRef] and [Neg]: the offsets stay, the values are negated. *)
Definition neg_by_ref (neg : L → L) self : Layer K L := mkLayer (l_keys self) (l_offs self) (neg (l_vals self)).
End ops.
End Layer.

Module LayerBuilder.
Section ops.
Context `{Ord K} `{TrieOps L B C V LK} (sk : nat).
Implicit Types (self : LayerBuilder K B) (other : Layer K L) (map_func : option (LK → LK)).

Definition with_capacity (other1 other2 : Layer K L) : LayerBuilder K B :=
  mkLayerBuilder [] [0] (b_with_capacity (l_vals other1) (l_vals other2)).
Definition keys self : nat := length (lb_keys self).

(** [self.offs[self.keys.len()] = O::from_usize(self.vals.boundary())]. *)
Definition set_last_off self : option (LayerBuilder K B) :=
  '(vals, n) ← Trie.boundary (lb_vals self);
  assert! (length (lb_keys self) <? length (lb_offs self)) in
  Some (mkLayerBuilder (lb_keys self) (<[length (lb_keys self) := n]> (lb_offs self)) vals).
Definition boundary self : option (LayerBuilder K B * nat) :=
  self ← set_last_off self;
  Some (self, length (lb_keys self)).
Definition done self : option (Layer K L) :=
  self ← (if 0 <? length (lb_keys self) then
            o ← lb_offs self !! length (lb_keys self);
            if o =? 0 then set_last_off self else Some self
          else Some self);
  vals ← b_done (lb_vals self);
  Some (mkLayer (lb_keys self) (lb_offs self) vals).

(** [self.keys.push_ref(key); self.offs.push(off)]. *)
Definition push_key self (key : K) (off : nat) : LayerBuilder K B :=
  mkLayerBuilder (lb_keys self ++ [key]) (lb_offs self ++ [off]) (lb_vals self).
Definition with_vals self (vals : B) : LayerBuilder K B :=
  mkLayerBuilder (lb_keys self) (lb_offs self) vals.

Definition map_times_and_copy_key self other (index : nat) (map_func : LK → LK) :
  option (LayerBuilder K B) :=
  let val_start := b_keys (lb_vals self) in
  lo ← l_offs other !! index;
  hi ← l_offs other !! (index + 1);
  vals ← Trie.copy_range (lb_vals self) (l_vals other) lo hi (Some map_func);
  let self := with_vals self vals in
  let val_end := b_keys (lb_vals self) in
  if val_start <? val_end then
    k ← l_keys other !! index;
    Some (push_key self k val_end)
  else Some self.

Fixpoint map_copy_loop (n index : nat) self other (map_func : LK → LK) : option (LayerBuilder K B) :=
  match n with
  | O => Some self
  | S n => self ← map_times_and_copy_key self other index map_func;
           map_copy_loop n (index + 1) self other map_func
  end.

(** [self.offs.push((other.offs[index + 1] + self_basis) - other_basis)]. *)
Fixpoint push_offs (n index : nat) (offs other_offs : list nat) (self_basis other_basis : nat) :
  option (list nat) :=
  match n with
  | O => Some offs
  | S n =>
    o ← other_offs !! (index + 1);
    assert! (other_basis <=? o + self_basis) in
    push_offs n (index + 1) (offs ++ [(o + self_basis) - other_basis]) other_offs self_basis other_basis
  end.

(** The body that [copy_range] and [copy_range_fueled] share. *)
Definition copy_keys self other (lower upper : nat) map_func : option (LayerBuilder K B) :=
  other_basis ← l_offs other !! lower;
  let self_basis := default 0 (last (lb_offs self)) in
  match map_func with
  | Some f => map_copy_loop (upper - lower) lower self other f
  | None =>
    ks ← range (l_keys other) lower upper;
    offs ← push_offs (upper - lower) lower (lb_offs self) (l_offs other) self_basis other_basis;
    hi ← l_offs other !! upper;
    vals ← Trie.copy_range (lb_vals self) (l_vals other) other_basis hi None;
    Some (mkLayerBuilder (lb_keys self ++ ks) offs vals)
  end.

(** [assert!(lower < upper && lower < other.offs.len() && upper < other.offs.len())]. *)
Definition range_ok other (lower upper : nat) : bool :=
  (lower <? upper) && (lower <? length (l_offs other)) && (upper <? length (l_offs other)).

Definition copy_range self other (lower upper : nat) map_func : option (LayerBuilder K B) :=
  assert! (range_ok other lower upper) in copy_keys self other lower upper map_func.

Fixpoint retain_loop (n index : nat) self other (filter : K → bool) map_func : option (LayerBuilder K B) :=
  match n with
  | O => Some self
  | S n =>
    k ← l_keys other !! index;
    self ← (if filter k then
              match map_func with
              | Some f => map_times_and_copy_key self other index f
              | None =>
                lo ← l_offs other !! index;
                hi ← l_offs other !! (index + 1);
                vals ← Trie.copy_range (lb_vals self) (l_vals other) lo hi None;
                Some (push_key (with_vals self vals) k (b_keys vals))
              end
            else Some self);
    retain_loop n (index + 1) self other filter map_func
  end.
Definition copy_range_retain_keys self other (lower upper : nat) (filter : K → bool) map_func :
  option (LayerBuilder K B) :=
  assert! (range_ok other lower upper) in retain_loop (upper - lower) lower self other filter map_func.

(** The values of the keys at [lower1] and [lower2], merged by [push], and the key if any
    value was pushed. *)
Definition merge_values self (trie1 : Layer K L) (lower1 : nat) (trie2 : Layer K L) (lower2 : nat)
    (push : B → C → C → option B) (k : K) (vals : B) (lower : nat) : option (LayerBuilder K B) :=
  lo1 ← l_offs trie1 !! lower1;
  hi1 ← l_offs trie1 !! (lower1 + 1);
  lo2 ← l_offs trie2 !! lower2;
  hi2 ← l_offs trie2 !! (lower2 + 1);
  c1 ← Trie.cursor_from (l_vals trie1) lo1 hi1;
  c2 ← Trie.cursor_from (l_vals trie2) lo2 hi2;
  vals ← push vals c1 c2;
  let self := with_vals self vals in
  if lower <? b_keys vals then Some (push_key self k (b_keys vals)) else Some self.

(** [merge_step]: the builder and the new [lower1] and [lower2]. *)
Definition merge_step self (trie1 : Layer K L) (lower1 upper1 : nat) (trie2 : Layer K L) (lower2 upper2 : nat) map_func :
  option (LayerBuilder K B * nat * nat) :=
  k1 ← l_keys trie1 !! lower1;
  k2 ← l_keys trie2 !! lower2;
  match cmp k1 k2 with
  | Lt =>
    n ← advance_to sk (l_keys trie1) (1 + lower1) upper1 k2;
    let step := Nat.min (1 + n) 1000 in
    self ← copy_range self trie1 lower1 (lower1 + step) map_func;
    Some (self, lower1 + step, lower2)
  | Eq =>
    '(vals, lower) ← Trie.boundary (lb_vals self);
    self ← merge_values self trie1 lower1 trie2 lower2
             (λ b c1 c2, Trie.push_merge b c1 c2 map_func) k1 vals lower;
    Some (self, lower1 + 1, lower2 + 1)
  | Gt =>
    n ← advance_to sk (l_keys trie2) (1 + lower2) upper2 k1;
    let step := Nat.min (1 + n) 1000 in
    self ← copy_range self trie2 lower2 (lower2 + step) map_func;
    Some (self, lower1, lower2 + step)
  end.

Definition merge_step_retain_keys self (trie1 : Layer K L) (lower1 upper1 : nat) (trie2 : Layer K L) (lower2 upper2 : nat)
    (filter : K → bool) map_func : option (LayerBuilder K B * nat * nat) :=
  k1 ← l_keys trie1 !! lower1;
  k2 ← l_keys trie2 !! lower2;
  match cmp k1 k2 with
  | Lt =>
    n ← advance_to sk (l_keys trie1) (1 + lower1) upper1 k2;
    let step := Nat.min (1 + n) 1000 in
    self ← copy_range_retain_keys self trie1 lower1 (lower1 + step) filter map_func;
    Some (self, lower1 + step, lower2)
  | Eq =>
    '(vals, lower) ← Trie.boundary (lb_vals self);
    self ← (if filter k1 then
              merge_values self trie1 lower1 trie2 lower2
                (λ b c1 c2, Trie.push_merge b c1 c2 map_func) k1 vals lower
            else Some (with_vals self vals));
    Some (self, lower1 + 1, lower2 + 1)
  | Gt =>
    n ← advance_to sk (l_keys trie2) (1 + lower2) upper2 k1;
    let step := Nat.min (1 + n) 1000 in
    self ← copy_range_retain_keys self trie2 lower2 (lower2 + step) filter map_func;
    Some (self, lower1, lower2 + step)
  end.

(** [while lower1 < upper1 && lower2 < upper2] around a merge step. *)
Definition step_fn : Type := LayerBuilder K B → nat → nat → option (LayerBuilder K B * nat * nat).
Fixpoint merge_loop (step : step_fn) (gas : nat) self (lower1 upper1 lower2 upper2 : nat) :
  option (LayerBuilder K B * nat * nat) :=
  match gas with
  | O => None
  | S gas =>
    if (lower1 <? upper1) && (lower2 <? upper2) then
      '(self, lower1, lower2) ← step self lower1 lower2;
      merge_loop step gas self lower1 upper1 lower2 upper2
    else Some (self, lower1, lower2)
  end.

(** [push_merge] and [push_merge_retain_keys]: the loop, then what remains of either side. *)
Definition push_merge self (cursor1 cursor2 : LayerCursor K L C) map_func : option (LayerBuilder K B) :=
  let '(lower1, upper1) := ly_bounds cursor1 in
  let '(lower2, upper2) := ly_bounds cursor2 in
  let trie1 := ly_storage cursor1 in
  let trie2 := ly_storage cursor2 in
  assert! ((lower1 <=? upper1) && (lower2 <=? upper2)) in
  '(self, lower1, lower2) ← merge_loop
     (λ b l1 l2, merge_step b trie1 l1 upper1 trie2 l2 upper2 map_func)
     (S ((upper1 - lower1) + (upper2 - lower2))) self lower1 upper1 lower2 upper2;
  self ← (if lower1 <? upper1 then copy_range self trie1 lower1 upper1 map_func else Some self);
  if lower2 <? upper2 then copy_range self trie2 lower2 upper2 map_func else Some self.

Definition push_merge_retain_keys self (cursor1 cursor2 : LayerCursor K L C) (filter : K → bool)
    map_func : option (LayerBuilder K B) :=
  let '(lower1, upper1) := ly_bounds cursor1 in
  let '(lower2, upper2) := ly_bounds cursor2 in
  let trie1 := ly_storage cursor1 in
  let trie2 := ly_storage cursor2 in
  assert! ((lower1 <=? upper1) && (lower2 <=? upper2)) in
  '(self, lower1, lower2) ← merge_loop
     (λ b l1 l2, merge_step_retain_keys b trie1 l1 upper1 trie2 l2 upper2 filter map_func)
     (S ((upper1 - lower1) + (upper2 - lower2))) self lower1 upper1 lower2 upper2;
  self ← (if lower1 <? upper1 then copy_range_retain_keys self trie1 lower1 upper1 filter map_func
          else Some self);
  if lower2 <? upper2 then copy_range_retain_keys self trie2 lower2 upper2 filter map_func
  else Some self.
(** *** Merging with fuel

    The effort is measured in values of the inputs: [spent] is
    [(source1.offs[lower1] + source2.offs[lower2] - starting_updates) as isize]. *)
Definition spent (source1 source2 : Layer K L) (lower1 lower2 starting_updates : nat) : option Z :=
  o1 ← l_offs source1 !! lower1;
  o2 ← l_offs source2 !! lower2;
  assert! (starting_updates <=? o1 + o2) in Some (Z.of_nat (o1 + o2 - starting_updates)).

(** [while *lower1 < upper1 && *lower2 < upper2 && effort < *fuel]. *)
Fixpoint fueled_loop (step : step_fn) (effort_at : nat → nat → option Z) (gas : nat) self
    (lower1 upper1 lower2 upper2 : nat) (effort fuel : Z) : option (LayerBuilder K B * nat * nat * Z) :=
  match gas with
  | O => None
  | S gas =>
    if (lower1 <? upper1) && (lower2 <? upper2) && (effort <? fuel)%Z then
      '(self, lower1, lower2) ← step self lower1 lower2;
      effort ← effort_at lower1 lower2;
      fueled_loop step effort_at gas self lower1 upper1 lower2 upper2 effort fuel
    else Some (self, lower1, lower2, effort)
  end.

(** [if remaining_fuel < 1_000 { remaining_fuel = 1_000; }]. *)
Definition at_least_1000 (remaining_fuel : Z) : Z :=
  if (remaining_fuel <? 1000)%Z then 1000%Z else remaining_fuel.

(** The body that the three fueled merges share, around their own step and copy; the
    result is the builder, the new lower bounds and the fuel left. *)
Definition copy_fn : Type := LayerBuilder K B → Layer K L → nat → nat → Z → option (LayerBuilder K B * nat).
(** Merging is complete; only copying remains, limited by the remaining fuel. *)
Definition copy_remaining (copy : copy_fn) self (source1 : Layer K L) (lower1 upper1 : nat)
    (source2 : Layer K L) (lower2 upper2 : nat) (remaining_fuel : Z) : option (LayerBuilder K B * nat * nat) :=
  if (lower1 =? upper1) || (lower2 =? upper2) then
    if (0 <? remaining_fuel)%Z then
      '(self, lower1, remaining_fuel) ←
        (if lower1 <? upper1 then
           let remaining_fuel := at_least_1000 remaining_fuel in
           '(self, lower1) ← copy self source1 lower1 upper1 remaining_fuel;
           Some (self, lower1, remaining_fuel)
         else Some (self, lower1, remaining_fuel));
      if lower2 <? upper2 then
        let remaining_fuel := at_least_1000 remaining_fuel in
        '(self, lower2) ← copy self source2 lower2 upper2 remaining_fuel;
        Some (self, lower1, lower2)
      else Some (self, lower1, lower2)
    else Some (self, lower1, lower2)
  else Some (self, lower1, lower2).

Definition fueled_merge (step : step_fn) (copy : copy_fn) self
    (source1 : Layer K L) (lower1 upper1 : nat) (source2 : Layer K L) (lower2 upper2 : nat) (fuel : Z) :
  option (LayerBuilder K B * nat * nat * Z) :=
  s1 ← l_offs source1 !! lower1;
  s2 ← l_offs source2 !! lower2;
  let starting_updates := s1 + s2 in
  '(self, lower1, lower2, effort) ← fueled_loop step
     (λ l1 l2, spent source1 source2 l1 l2 starting_updates)
     (S ((upper1 - lower1) + (upper2 - lower2))) self lower1 upper1 lower2 upper2 0%Z fuel;
  '(self, lower1, lower2) ←
    copy_remaining copy self source1 lower1 upper1 source2 lower2 upper2 (fuel - effort)%Z;
  effort ← spent source1 source2 lower1 lower2 starting_updates;
  Some (self, lower1, lower2, (fuel - effort)%Z).

(** [advance(&other.offs[lower..upper], |offset| offset - other_basis <= fuel)]; the
    subtraction cannot fail on increasing offsets. *)
Definition affordable_keys other (lower upper : nat) (fuel : Z) : option nat :=
  other_basis ← l_offs other !! lower;
  offs ← range (l_offs other) lower upper;
  advance offs (λ offset, (Z.of_nat (offset - other_basis) <=? fuel)%Z).

Definition copy_range_fueled self other (lower upper : nat) map_func (fuel : Z) :
  option (LayerBuilder K B * nat) :=
  assert! (range_ok other lower upper) in
  keys ← affordable_keys other lower upper fuel;
  let upper := lower + keys in
  self ← copy_keys self other lower upper map_func;
  Some (self, upper).

Definition copy_range_retain_keys_fueled self other (lower upper : nat) (filter : K → bool) map_func
    (fuel : Z) : option (LayerBuilder K B * nat) :=
  assert! (range_ok other lower upper) in
  keys ← affordable_keys other lower upper fuel;
  let upper := lower + keys in
  self ← copy_range_retain_keys self other lower upper filter map_func;
  Some (self, upper).

Definition push_merge_fueled self (source1 : Layer K L) (lower1 upper1 : nat)
    (source2 : Layer K L) (lower2 upper2 : nat) map_func (fuel : Z) :
  option (LayerBuilder K B * nat * nat * Z) :=
  fueled_merge (λ b l1 l2, merge_step b source1 l1 upper1 source2 l2 upper2 map_func)
    (λ b other lo hi fuel, copy_range_fueled b other lo hi map_func fuel)
    self source1 lower1 upper1 source2 lower2 upper2 fuel.

Definition push_merge_retain_keys_fueled self (source1 : Layer K L) (lower1 upper1 : nat)
    (source2 : Layer K L) (lower2 upper2 : nat) (filter : K → bool) map_func (fuel : Z) :
  option (LayerBuilder K B * nat * nat * Z) :=
  fueled_merge (λ b l1 l2, merge_step_retain_keys b source1 l1 upper1 source2 l2 upper2 filter map_func)
    (λ b other lo hi fuel, copy_range_retain_keys_fueled b other lo hi filter map_func fuel)
    self source1 lower1 upper1 source2 lower2 upper2 fuel.

(** [for index in lower..upper] of [copy_range_retain_values_fueled]; the early return
    when the values copied reach [fuel] is the inner [if]. *)
Fixpoint retain_values_loop (n index : nat) self other (key_filter : K → bool) (value_filter : V → bool)
    map_func (other_start : nat) (fuel : Z) : option (LayerBuilder K B * nat) :=
  match n with
  | O => Some (self, index)
  | S n =>
    k ← l_keys other !! index;
    if key_filter k then
      '(vals, self_basis) ← Trie.boundary (lb_vals self);
      other_end ← l_offs other !! (index + 1);
      lo ← l_offs other !! index;
      cursor ← Trie.cursor_from (l_vals other) lo other_end;
      let other_basis := c_position cursor in
      self ← (if (other_basis <? Z.of_nat other_end)%Z then
                vals ← Trie.copy_range_retain_keys vals (l_vals other) (Z.to_nat other_basis) other_end
                         value_filter map_func;
                Some (if self_basis <? b_keys vals
                      then push_key (with_vals self vals) k (b_keys vals) else with_vals self vals)
              else Some (with_vals self vals));
      assert! (other_start <=? other_end) in
      if (fuel <=? Z.of_nat (other_end - other_start))%Z then Some (self, index + 1)
      else retain_values_loop n (index + 1) self other key_filter value_filter map_func other_start fuel
    else retain_values_loop n (index + 1) self other key_filter value_filter map_func other_start fuel
  end.
Definition copy_range_retain_values_fueled self other (lower upper : nat) (key_filter : K → bool)
    (value_filter : V → bool) map_func (fuel : Z) : option (LayerBuilder K B * nat) :=
  assert! (range_ok other lower upper) in
  other_start ← l_offs other !! lower;
  retain_values_loop (upper - lower) lower self other key_filter value_filter map_func other_start fuel.

Definition merge_step_retain_values_fueled self (trie1 : Layer K L) (lower1 upper1 : nat)
    (trie2 : Layer K L) (lower2 upper2 : nat) (key_filter : K → bool) (value_filter : V → bool)
    map_func (fuel : Z) : option (LayerBuilder K B * nat * nat) :=
  k1 ← l_keys trie1 !! lower1;
  k2 ← l_keys trie2 !! lower2;
  match cmp k1 k2 with
  | Lt =>
    n ← advance_to sk (l_keys trie1) (1 + lower1) upper1 k2;
    let step := Nat.min (1 + n) 1000 in
    '(self, lower1) ← copy_range_retain_values_fueled self trie1 lower1 (lower1 + step)
                        key_filter value_filter map_func fuel;
    Some (self, lower1, lower2)
  | Eq =>
    '(vals, lower) ← Trie.boundary (lb_vals self);
    lo1 ← l_offs trie1 !! lower1;
    hi1 ← l_offs trie1 !! (lower1 + 1);
    cursor1 ← Trie.cursor_from (l_vals trie1) lo1 hi1;
    lo2 ← l_offs trie2 !! lower2;
    hi2 ← l_offs trie2 !! (lower2 + 1);
    cursor2 ← Trie.cursor_from (l_vals trie2) lo2 hi2;
    self ← (if key_filter k1 then
              vals ← Trie.push_merge_retain_keys vals cursor1 cursor2 value_filter map_func;
              Some (if lower <? b_keys vals
                    then push_key (with_vals self vals) k1 (b_keys vals) else with_vals self vals)
            else Some (with_vals self vals));
    Some (self, lower1 + 1, lower2 + 1)
  | Gt =>
    n ← advance_to sk (l_keys trie2) (1 + lower2) upper2 k1;
    let step := Nat.min (1 + n) 1000 in
    '(self, lower2) ← copy_range_retain_values_fueled self trie2 lower2 (lower2 + step)
                        key_filter value_filter map_func fuel;
    Some (self, lower1, lower2)
  end.

Definition push_merge_retain_values_fueled self (source1 : Layer K L) (lower1 upper1 : nat)
    (source2 : Layer K L) (lower2 upper2 : nat) (key_filter : K → bool) (value_filter : V → bool)
    map_func (fuel : Z) : option (LayerBuilder K B * nat * nat * Z) :=
  fueled_merge (λ b l1 l2, merge_step_retain_values_fueled b source1 l1 upper1 source2 l2 upper2
                             key_filter value_filter map_func USIZE_MAX)
    (λ b other lo hi fuel, copy_range_retain_values_fueled b other lo hi key_filter value_filter map_func fuel)
    self source1 lower1 upper1 source2 lower2 upper2 fuel.

(** *** [TupleBuilder] *)
Context `{TupleOps B T}.

Definition new : LayerBuilder K B := mkLayerBuilder [] [0] tb_new.
Definition tuples self : nat := tb_tuples (lb_vals self).

(** [!self.keys.is_empty() && self.offs[self.keys.len()].is_zero()]: the last key is unfinished. *)
Definition unfinished self : option bool :=
  if length (lb_keys self) =? 0 then Some false
  else o ← lb_offs self !! length (lb_keys self); Some (o =? 0).

(** First element, prior element finished, or different element: finish the prior key if need
    be and push the new one, with offset 0 that marks it unfinished. *)
Definition start_key self (key : K) : option (LayerBuilder K B) :=
  open ← unfinished self;
  same ← (if open : bool then
            last ← lb_keys self !! (length (lb_keys self) - 1);
            Some (bool_decide (last = key))
          else Some false);
  if same : bool then Some self
  else
    self ← (if open : bool then set_last_off self else Some self);
    Some (push_key self key 0).

Definition push_tuple self (tuple : K * T) : option (LayerBuilder K B) :=
  let '(key, val) := tuple in
  self ← start_key self key;
  vals ← tb_push_tuple (lb_vals self) val;
  Some (with_vals self vals).
Definition push_refs self (tuple : K * T) : option (LayerBuilder K B) :=
  let '(key, val) := tuple in
  self ← start_key self key;
  vals ← tb_push_refs (lb_vals self) val;
  Some (with_vals self vals).
End ops.
End LayerBuilder.

Module LayerCursor.
Section ops.
Context `{Ord K} `{TrieOps L B C V LK} (sk : nat).
Implicit Types (self : LayerCursor K L C) (key : K) (p : K → bool).
#[local] Open Scope Z_scope.

Definition keys self : nat := ((ly_bounds self).2 - (ly_bounds self).1)%nat.
Definition valid self : bool :=
  (Z.of_nat (ly_bounds self).1 <=? ly_pos self) && (ly_pos self <? Z.of_nat (ly_bounds self).2).
(** [self.pos as usize], which wraps around for the position before the first. *)
Definition position self : Z := if ly_pos self <? 0 then ly_pos self + 2 ^ 64 else ly_pos self.
(** Indexing with [self.pos as usize]. *)
Definition at_index {A} (l : list A) (i : Z) : option A := if i <? 0 then None else l !! Z.to_nat i.
Definition at_pos self (pos : Z) : LayerCursor K L C :=
  mkLayerCursor (ly_storage self) pos (ly_bounds self) (ly_child self).

Definition item self : option K := at_index (l_keys (ly_storage self)) (ly_pos self).

Definition values self : option C :=
  if valid self then
    lo ← at_index (l_offs (ly_storage self)) (ly_pos self);
    hi ← at_index (l_offs (ly_storage self)) (ly_pos self + 1);
    Trie.cursor_from (l_vals (ly_storage self)) lo hi
  else Trie.cursor_from (l_vals (ly_storage self)) 0 0.

(** [self.child.reposition(self.storage.offs[self.pos], self.storage.offs[self.pos + 1])]. *)
Definition child_reposition self : option (LayerCursor K L C) :=
  lo ← at_index (l_offs (ly_storage self)) (ly_pos self);
  hi ← at_index (l_offs (ly_storage self)) (ly_pos self + 1);
  child ← c_reposition (ly_child self) lo hi;
  Some (mkLayerCursor (ly_storage self) (ly_pos self) (ly_bounds self) child).
Definition reposition_if_valid self : option (LayerCursor K L C) :=
  if valid self then child_reposition self else Some self.

Definition step self : option (LayerCursor K L C) :=
  let self := at_pos self (ly_pos self + 1) in
  if ly_pos self <? Z.of_nat (ly_bounds self).2 then child_reposition self
  else Some (at_pos self (Z.of_nat (ly_bounds self).2)).
Definition step_reverse self : option (LayerCursor K L C) :=
  let self := at_pos self (ly_pos self - 1) in
  if Z.of_nat (ly_bounds self).1 <=? ly_pos self then child_reposition self
  else Some (at_pos self (Z.of_nat (ly_bounds self).1 - 1)).

Definition seek_with self p : option (LayerCursor K L C) :=
  self ← (if valid self then
            n ← advance_until sk (l_keys (ly_storage self)) (Z.to_nat (ly_pos self)) (ly_bounds self).2 p;
            Some (at_pos self (ly_pos self + Z.of_nat n))
          else Some self);
  reposition_if_valid self.
Definition seek_with_reverse self p : option (LayerCursor K L C) :=
  self ← (if valid self then
            n ← retreat_until sk (l_keys (ly_storage self)) (ly_bounds self).1 (Z.to_nat (ly_pos self)) p;
            Some (at_pos self (ly_pos self - Z.of_nat n))
          else Some self);
  reposition_if_valid self.
Definition seek self key : option (LayerCursor K L C) :=
  self ← (if valid self then
            n ← advance_to sk (l_keys (ly_storage self)) (Z.to_nat (ly_pos self)) (ly_bounds self).2 key;
            Some (at_pos self (ly_pos self + Z.of_nat n))
          else Some self);
  reposition_if_valid self.
Definition seek_reverse self key : option (LayerCursor K L C) :=
  self ← (if valid self then
            n ← retreat_to sk (l_keys (ly_storage self)) (ly_bounds self).1 (Z.to_nat (ly_pos self)) key;
            Some (at_pos self (ly_pos self - Z.of_nat n))
          else Some self);
  reposition_if_valid self.

Definition rewind self : option (LayerCursor K L C) :=
  reposition_if_valid (at_pos self (Z.of_nat (ly_bounds self).1)).
Definition fast_forward self : option (LayerCursor K L C) :=
  reposition_if_valid (at_pos self (Z.of_nat (ly_bounds self).2 - 1)).
Definition reposition self (lower upper : nat) : option (LayerCursor K L C) :=
  reposition_if_valid (mkLayerCursor (ly_storage self) (Z.of_nat lower) (lower, upper) (ly_child self)).
End ops.
End LayerCursor.

(** [Trie for Layer] and [MergeBuilder for LayerBuilder]. *)
#[global] Instance layer_ops `{Ord K} `{TrieOps L B C V LK} (sk : nat) :
  TrieOps (Layer K L) (LayerBuilder K B) (LayerCursor K L C) K LK := {|
  t_keys := Layer.keys;
  t_tuples := Layer.tuples;
  cursor_from := Layer.cursor_from;
  c_position := LayerCursor.position;
  c_reposition := LayerCursor.reposition;
  b_with_capacity := LayerBuilder.with_capacity;
  b_keys := LayerBuilder.keys;
  boundary := LayerBuilder.boundary;
  b_done := LayerBuilder.done;
  copy_range := LayerBuilder.copy_range;
  copy_range_retain_keys := LayerBuilder.copy_range_retain_keys;
  Trie.push_merge := LayerBuilder.push_merge sk;
  Trie.push_merge_retain_keys := LayerBuilder.push_merge_retain_keys sk |}.

(** [TupleBuilder for LayerBuilder]. *)
#[global] Instance layer_tuple_ops `{Ord K} `{TrieOps L B C V LK} `{TupleOps B T} :
  TupleOps (LayerBuilder K B) (K * T) := {|
  tb_new := LayerBuilder.new;
  tb_tuples := LayerBuilder.tuples;
  tb_push_tuple := LayerBuilder.push_tuple;
  tb_push_refs := LayerBuilder.push_refs |}.
