(* ===== verification/LayerSpec.v ===== *)
(** The inner layer implements the trie interface.

    A layer is well formed when its offsets start at 0, increase strictly and end at the
    number of entries below; its entries pair every key with the entries of its range.
    All operations of the builder are specified on these entries, and the layer is an
    instance of [TrieSpec] whenever the layer below is one. *)
From Stdlib Require Import Sorting.Sorted.
From S2P Require Import Prelude Sort Quicksort Search LeanVec Consolidation Trie Leaf Layer.
#[local] Open Scope nat_scope.

(** ** Pairs are ordered lexicographically, as the derived [Ord] of tuples *)
Definition pair_cmp `{Ord A} `{Ord B} (x y : A * B) : comparison :=
  match cmp x.1 y.1 with Eq => cmp x.2 y.2 | Lt => Lt | Gt => Gt end.
#[global] Program Instance Ord_pair `{Ord A} `{Ord B} : Ord (A * B) := {| cmp := pair_cmp |}.
Next Obligation.
  intros A OA B OB [a b] [a' b']. unfold pair_cmp. cbn. destruct (cmp a a') eqn:E; split; try congruence.
  - intros Hb%cmp_eq. apply cmp_eq in E. congruence.
  - intros [= <- <-]. by apply cmp_eq.
  - intros [= <- <-]. by rewrite cmp_refl in E.
  - intros [= <- <-]. by rewrite cmp_refl in E.
Qed.
Next Obligation.
  intros A OA B OB [a b] [a' b']. unfold pair_cmp. cbn. rewrite (cmp_antisym a a').
  destruct (cmp a a'); cbn; [apply cmp_antisym | done | done].
Qed.
Next Obligation.
  intros A OA B OB [a b] [a' b'] [a'' b'']. unfold pair_cmp. cbn.
  destruct (cmp a a') eqn:E1; [apply cmp_eq in E1 as -> | | done].
  - destruct (cmp a' a''); [apply cmp_lt_trans | done | done].
  - intros _. destruct (cmp a' a'') eqn:E2; [apply cmp_eq in E2 as -> | | done].
    + by rewrite E1.
    + by rewrite (cmp_lt_trans _ _ _ E1 E2).
Qed.

Lemma klt_pair `{Ord A} `{Ord B} (a a' : A) (b b' : B) :
  (a, b) ≺ (a', b') ↔ a ≺ a' ∨ (a = a' ∧ b ≺ b').
Proof.
  unfold klt. cbn. unfold pair_cmp. cbn. destruct (cmp a a') eqn:E.
  - apply cmp_eq in E as ->. naive_solver.
  - naive_solver.
  - split; [done|]. intros [?|[-> ?]]; [congruence|]. by rewrite cmp_refl in E.
Qed.

(** ** Offsets *)
Section offsets.
Context {E : Type}.
Implicit Types (p : list E) (ps qs : list (list E)).

(** The offsets of consecutive ranges, from [n]. *)
Fixpoint offsets (n : nat) ps : list nat :=
  n :: match ps with [] => [] | p :: ps => offsets (n + length p) ps end.

(** The ranges that consecutive offsets delimit. *)
Fixpoint chunks (offs : list nat) (es : list E) : list (list E) :=
  match offs with
  | o :: ((o' :: _) as offs') => sub es o o' :: chunks offs' es
  | _ => []
  end.

Definition total ps : nat := length (concat ps).
Arguments total : simpl never.

Lemma total_app ps qs : total (ps ++ qs) = total ps + total qs.
Proof. unfold total. by rewrite concat_app, length_app. Qed.

Lemma total_cons p ps : total (p :: ps) = length p + total ps.
Proof. unfold total. cbn. by rewrite length_app. Qed.

Lemma offsets_length n ps : length (offsets n ps) = S (length ps).
Proof. revert n. induction ps as [|p ps IH]; intros n; cbn; [done|]. by rewrite IH. Qed.

Lemma offsets_lookup n ps i : i ≤ length ps → offsets n ps !! i = Some (n + total (take i ps)).
Proof.
  revert n i. induction ps as [|p ps IH]; intros n [|i] Hi; cbn in *; [|lia| |]; try (f_equal; unfold total; cbn; lia).
  rewrite IH by lia. f_equal. rewrite total_cons. lia.
Qed.

Lemma offsets_app n ps qs : offsets n (ps ++ qs) = offsets n ps ++ tail (offsets (n + total ps) qs).
Proof.
  revert n. induction ps as [|p ps IH]; intros n; cbn [app offsets].
  - unfold total. cbn. rewrite Nat.add_0_r. by destruct qs.
  - rewrite IH, total_cons. by rewrite Nat.add_assoc.
Qed.

Lemma offsets_snoc n ps p : offsets n (ps ++ [p]) = offsets n ps ++ [n + total (ps ++ [p])].
Proof. rewrite offsets_app, total_app. cbn. unfold total at 3. cbn. rewrite app_nil_r. by rewrite Nat.add_assoc. Qed.

Lemma offsets_last n ps : last (offsets n ps) = Some (n + total ps).
Proof. rewrite last_lookup, offsets_length. cbn [pred]. rewrite offsets_lookup by done. by rewrite take_ge. Qed.

Lemma take_sub ps i j : i ≤ j → take j ps = take i ps ++ sub ps i j.
Proof.
  intros Hij. unfold sub. rewrite <- skipn_firstn_comm, <- (take_drop i (take j ps)) at 1.
  by rewrite take_take, Nat.min_l by lia.
Qed.

Lemma total_sub ps i j : i ≤ j → total (take j ps) = total (take i ps) + total (sub ps i j).
Proof. intros Hij. by rewrite (take_sub ps i j Hij), total_app. Qed.

Lemma sub_concat ps i j :
  i ≤ j → sub (concat ps) (total (take i ps)) (total (take j ps)) = concat (sub ps i j).
Proof.
  intros Hij. rewrite (total_sub ps i j Hij).
  assert (concat ps = concat (take i ps) ++ concat (sub ps i j) ++ concat (drop j ps)) as ->.
  { rewrite <- !concat_app, app_assoc, <- take_sub by done. by rewrite take_drop. }
  unfold sub at 1, total. rewrite drop_app_length.
  rewrite Nat.add_comm, Nat.add_sub. apply take_app_length.
Qed.

Lemma chunks_offsets n ps pre : n = length pre → chunks (offsets n ps) (pre ++ concat ps) = ps.
Proof.
  revert n pre. induction ps as [|p ps IH]; intros n pre ->; [done|].
  assert (∃ t, offsets (length pre + length p) ps = length pre + length p :: t) as [t Ht]
    by (destruct ps; eauto).
  specialize (IH (length (pre ++ p)) (pre ++ p) eq_refl).
  cbn [offsets concat]. rewrite app_assoc. rewrite length_app, Ht in IH. rewrite Ht.
  change (chunks (length pre :: length pre + length p :: t) ((pre ++ p) ++ concat ps)) with
    (sub ((pre ++ p) ++ concat ps) (length pre) (length pre + length p) ::
     chunks (length pre + length p :: t) ((pre ++ p) ++ concat ps)).
  rewrite IH. f_equal. unfold sub. rewrite <- app_assoc, drop_app_length.
  replace (length pre + length p - length pre) with (length p) by lia. apply take_app_length.
Qed.
End offsets.

Section represent.
Context {K E : Type}.
Implicit Types (keys : list K) (es : list E) (l : list (K * list E)).

(** The invariant of a layer: its keys, its offsets, and the number of entries below. *)
Definition offs_ok keys (offs : list nat) (n : nat) : Prop :=
  length offs = S (length keys) ∧ offs !! 0 = Some 0 ∧ StronglySorted lt offs ∧ last offs = Some n.

Definition nonempties (ps : list (list E)) : Prop := Forall (λ p, p ≠ []) ps.

(** The entries [l] laid out in three vectors. *)
Definition repr l keys (offs : list nat) es : Prop :=
  keys = l.*1 ∧ offs = offsets 0 l.*2 ∧ es = concat l.*2 ∧ nonempties l.*2.

Lemma chunks_spec o offs es :
  StronglySorted lt (o :: offs) → last (o :: offs) = Some (length es) →
  offsets o (chunks (o :: offs) es) = o :: offs ∧ concat (chunks (o :: offs) es) = drop o es ∧
  nonempties (chunks (o :: offs) es) ∧ length (chunks (o :: offs) es) = length offs.
Proof.
  revert o. induction offs as [|o' offs IH]; intros o Hs Hl.
  { cbn in *. simplify_eq. split_and!; [done | | constructor | done]. by rewrite drop_ge. }
  inv Hs as [|?? Hs' Hf]. rewrite last_cons_cons in Hl.
  destruct (IH o' Hs' Hl) as (Ho&Hc&Hn&Hlen). inv Hf as [|?? Hlt _].
  assert (o' ≤ length es) as Hle.
  { rewrite last_lookup in Hl. cbn in Hl. destruct offs as [|o'' offs]; [cbn in Hl; simplify_eq; lia|].
    inv Hs' as [|?? _ Hf]. rewrite Forall_forall in Hf.
    assert (length es ∈ o'' :: offs) by (apply list_elem_of_lookup; by exists (length offs)).
    apply Nat.lt_le_incl. by apply Hf. }
  change (chunks (o :: o' :: offs) es) with (sub es o o' :: chunks (o' :: offs) es).
  assert (length (sub es o o') = o' - o) as Hsub by (apply sub_length; lia).
  cbn [offsets concat]. rewrite Hsub. replace (o + (o' - o)) with o' by lia.
  rewrite Ho, Hc. split_and!; [done | | | cbn [length]; by rewrite Hlen].
  - unfold sub. rewrite <- (take_drop (o' - o) (drop o es)) at 2. f_equal. rewrite drop_drop. f_equal. lia.
  - constructor; [|done]. intros Heq. rewrite Heq in Hsub. cbn in Hsub. lia.
Qed.

Lemma offs_ok_repr keys offs es :
  offs_ok keys offs (length es) → repr (zip keys (chunks offs es)) keys offs es.
Proof.
  intros (Hlen&H0&Hs&Hl). destruct offs as [|o offs]; [done|]. cbn in H0. simplify_eq.
  destruct (chunks_spec 0 offs es Hs Hl) as (Ho&Hc&Hn&Hlc). cbn [length] in Hlen.
  unfold repr. rewrite fst_zip, snd_zip by lia. done.
Qed.

Lemma offsets_ge n (ps : list (list E)) o : o ∈ offsets n ps → n ≤ o.
Proof.
  revert n. induction ps as [|p ps IH]; intros n; cbn.
  - intros ->%list_elem_of_singleton. lia.
  - intros [->|Ho]%elem_of_cons; [lia|]. apply IH in Ho. lia.
Qed.

Lemma offsets_sorted n (ps : list (list E)) : nonempties ps → StronglySorted lt (offsets n ps).
Proof.
  revert n. induction ps as [|p ps IH]; intros n; cbn; [repeat constructor|].
  intros [Hp Hps]%Forall_cons. constructor; [by apply IH|]. apply Forall_forall.
  intros o Ho%offsets_ge. destruct p; [done|]. cbn in *. lia.
Qed.

Lemma repr_offs_ok l keys offs es : repr l keys offs es → offs_ok keys offs (length es).
Proof.
  intros (->&->&->&Hn). split_and!.
  - by rewrite offsets_length, !length_fmap.
  - by destruct l.*2.
  - by apply offsets_sorted.
  - by rewrite offsets_last.
Qed.

Lemma repr_ents l keys offs es : repr l keys offs es → zip keys (chunks offs es) = l.
Proof.
  intros (->&->&->&_). pose proof (chunks_offsets 0 l.*2 [] eq_refl) as Hc. cbn [app] in Hc. rewrite Hc. apply zip_fst_snd.
Qed.

Lemma repr_key l keys offs es i k p : repr l keys offs es → l !! i = Some (k, p) → keys !! i = Some k.
Proof. intros (->&_) Hi. by rewrite list_lookup_fmap, Hi. Qed.

Lemma repr_off l keys offs es i :
  repr l keys offs es → i ≤ length l → offs !! i = Some (total (take i l.*2)).
Proof. intros (_&->&_) Hi. apply (offsets_lookup 0). by rewrite length_fmap. Qed.

Lemma take_snd i l k p : l !! i = Some (k, p) → take (i + 1) l.*2 = take i l.*2 ++ [p].
Proof. intros Hi. rewrite Nat.add_1_r. apply take_S_r. by rewrite list_lookup_fmap, Hi. Qed.

(** The offsets of one key delimit its payload. *)
Lemma repr_payload l keys offs es i k p :
  repr l keys offs es → l !! i = Some (k, p) →
  let lo := total (take i l.*2) in let hi := total (take (i + 1) l.*2) in
  offs !! i = Some lo ∧ offs !! (i + 1) = Some hi ∧ lo < hi ∧ hi ≤ length es ∧
  sub es lo hi = p ∧ p ≠ [].
Proof.
  intros Hr Hi lo hi. pose proof (lookup_lt_Some _ _ _ Hi) as Hlt.
  assert (p ≠ []) as Hp.
  { destruct Hr as (_&_&_&Hn). eapply (Forall_lookup_1 (λ p, p ≠ []) l.*2); [done|]. by rewrite list_lookup_fmap, Hi. }
  assert (hi = lo + length p) as Hhi.
  { unfold hi, lo. rewrite (take_snd _ _ _ _ Hi), total_app. unfold total at 2. cbn. by rewrite app_nil_r. }
  split_and!; [by eapply repr_off; [|lia] | by eapply repr_off; [|lia] | | | | done].
  - destruct p; [done|]. cbn in Hhi. lia.
  - destruct Hr as (_&_&->&_). unfold hi. rewrite <- (take_drop (i + 1) l.*2) at 2.
    fold (total (take (i + 1) l.*2 ++ drop (i + 1) l.*2)). rewrite total_app. lia.
  - destruct Hr as (_&_&->&_). unfold lo, hi. rewrite sub_concat by lia.
    rewrite (sub_cons _ _ _ p); [|by rewrite list_lookup_fmap, Hi | lia].
    rewrite Nat.add_1_r, sub_nil. cbn. apply app_nil_r.
Qed.

Lemma repr_snoc l keys offs es k p :
  repr l keys offs es → p ≠ [] →
  repr (l ++ [(k, p)]) (keys ++ [k]) (offs ++ [length (es ++ p)]) (es ++ p).
Proof.
  intros (->&->&->&Hn) Hp. unfold repr. rewrite !fmap_app. cbn. split_and!.
  - done.
  - rewrite offsets_snoc. unfold total. rewrite concat_app. cbn. by rewrite app_nil_r.
  - rewrite concat_app. cbn. by rewrite app_nil_r.
  - apply Forall_app. by repeat constructor.
Qed.
End represent.

(** ** The operations on entries *)
Definition nonempty {E} (p : list E) : option (list E) := match p with [] => None | _ => Some p end.

Section theory.
Context `{Ord K} `{SP : TrieSpec L B C V LK E J R} (sk : nat) (Hsk : zst_ok K sk).
Implicit Types (l : Layer K L) (b : LayerBuilder K B) (k : K) (p : list E) (es ls : list (K * list E)).
Implicit Types (m : option (LK → LK)) (f : LK → LK) (g : K → bool).

Definition layer_ents l : list (K * list E) := zip (l_keys l) (chunks (l_offs l) (ents (l_vals l))).
Definition layer_wf l : Prop :=
  wf_trie (l_vals l) ∧ offs_ok (l_keys l) (l_offs l) (length (ents (l_vals l))).
Definition lb_ents b : list (K * list E) := zip (lb_keys b) (chunks (lb_offs b) (b_ents (lb_vals b))).
Definition lb_wf b : Prop :=
  wf_builder (lb_vals b) ∧ offs_ok (lb_keys b) (lb_offs b) (length (b_ents (lb_vals b))).

(** Well formed, with the given entries. *)
Definition lrepr es l : Prop := wf_trie (l_vals l) ∧ repr es (l_keys l) (l_offs l) (ents (l_vals l)).
Definition brepr es b : Prop := wf_builder (lb_vals b) ∧ repr es (lb_keys b) (lb_offs b) (b_ents (lb_vals b)).

Lemma layer_wf_repr l : layer_wf l → lrepr (layer_ents l) l.
Proof. intros [Hw Ho]. split; [done|]. by apply offs_ok_repr. Qed.

Lemma lrepr_wf es l : lrepr es l → layer_wf l ∧ layer_ents l = es.
Proof. intros [Hw Hr]. split; [split; [done | by eapply repr_offs_ok] | by eapply repr_ents]. Qed.

Lemma lb_wf_repr b : lb_wf b → brepr (lb_ents b) b.
Proof. intros [Hw Ho]. split; [done|]. by apply offs_ok_repr. Qed.

Lemma brepr_wf es b : brepr es b → lb_wf b ∧ lb_ents b = es.
Proof. intros [Hw Hr]. split; [split; [done | by eapply repr_offs_ok] | by eapply repr_ents]. Qed.

(** The payload operations: copying and merging, dropping what becomes empty. *)
Definition pcopy m p : option (list E) := nonempty (a_copy m p).
Definition pmerge m p (q : list E) : option (list E) := nonempty (a_merge m p q).
Definition layer_copy m es : list (K * list E) := match m with None => es | _ => keyed_copy (pcopy m) es end.
Definition layer_merge m (es1 es2 : list (K * list E)) : list (K * list E) :=
  keyed_merge (pcopy m) (pmerge m) es1 es2.

Lemma pcopy_none p : p ≠ [] → pcopy None p = Some p.
Proof. unfold pcopy. rewrite a_copy_none. by destruct p. Qed.

Lemma keyed_copy_none es : nonempties es.*2 → keyed_copy (pcopy None) es = es.
Proof.
  induction es as [|[k p] es IH]; [done|]. cbn [fmap list_fmap snd]. intros [Hp Hes]%Forall_cons.
  change (keyed_copy (pcopy None) ((k, p) :: es))
    with (emit k (pcopy None p) ++ keyed_copy (pcopy None) es).
  by rewrite pcopy_none, IH.
Qed.

Lemma layer_copy_keyed m es : nonempties es.*2 → layer_copy m es = keyed_copy (pcopy m) es.
Proof. destruct m; [done|]. intros Hn. symmetry. by apply keyed_copy_none. Qed.

(** The new values of a key are appended below, the key if there are any. *)
Definition push_if b k (vals : B) (n : nat) : LayerBuilder K B :=
  if n <? b_keys vals then LayerBuilder.push_key (LayerBuilder.with_vals b vals) k (b_keys vals)
  else LayerBuilder.with_vals b vals.

Lemma brepr_push_key es b k vals q :
  brepr es b → wf_builder vals → b_ents vals = b_ents (lb_vals b) ++ q → q ≠ [] →
  brepr (es ++ [(k, q)]) (LayerBuilder.push_key (LayerBuilder.with_vals b vals) k (b_keys vals)).
Proof.
  intros [Hw Hr] Hwv Hv Hq. rewrite bkeys_ok by done. split; [done|].
  cbn [lb_vals lb_keys lb_offs LayerBuilder.push_key LayerBuilder.with_vals].
  rewrite Hv. by apply repr_snoc.
Qed.

Lemma brepr_push es b k vals q n :
  brepr es b → wf_builder vals → b_ents vals = b_ents (lb_vals b) ++ q → n = b_keys (lb_vals b) →
  brepr (es ++ emit k (nonempty q)) (push_if b k vals n).
Proof.
  intros Hb Hwv Hv ->. pose proof Hb as [Hw Hr].
  pose proof (bkeys_ok _ Hwv) as H1. pose proof (bkeys_ok _ Hw) as H2. rewrite Hv, length_app in H1.
  unfold push_if. destruct q as [|e q]; cbn [nonempty emit].
  - rewrite (proj2 (Nat.ltb_ge _ _)) by (cbn in H1; lia).
    rewrite app_nil_r in Hv |- *. split; cbn; [done|]. by rewrite Hv.
  - rewrite (proj2 (Nat.ltb_lt _ _)) by (cbn in H1; lia). by apply brepr_push_key.
Qed.

Lemma with_vals_repr es b vals :
  brepr es b → wf_builder vals → b_ents vals = b_ents (lb_vals b) →
  brepr es (LayerBuilder.with_vals b vals).
Proof. intros [Hw Hr] Hwv Hv. split; cbn; [done|]. by rewrite Hv. Qed.

Lemma map_key_spec es b ls l i k p f :
  brepr es b → lrepr ls l → ls !! i = Some (k, p) →
  ∃ b', LayerBuilder.map_times_and_copy_key b l i f = Some b' ∧ brepr (es ++ emit k (pcopy (Some f) p)) b'.
Proof.
  intros Hb [Hwl Hl] Hi. unfold LayerBuilder.map_times_and_copy_key.
  destruct (repr_payload _ _ _ _ _ _ _ Hl Hi) as (->&->&Hlt&Hle&Hsub&_). cbn [mbind option_bind].
  destruct (copy_ok (lb_vals b) (l_vals l) _ _ (Some f) (proj1 Hb) Hwl Hlt Hle) as (vals&->&Hw&He).
  cbn [mbind option_bind]. rewrite (repr_key _ _ _ _ _ _ _ Hl Hi). cbn [mbind option_bind].
  rewrite Hsub in He.
  exists (push_if b k vals (b_keys (lb_vals b))). split; [|by apply brepr_push].
  unfold push_if. cbn [lb_vals LayerBuilder.with_vals]. by destruct (_ <? _).
Qed.

Lemma map_copy_loop_spec n i es b ls l f :
  brepr es b → lrepr ls l → i + n ≤ length ls →
  ∃ b', LayerBuilder.map_copy_loop n i b l f = Some b' ∧
    brepr (es ++ keyed_copy (pcopy (Some f)) (sub ls i (i + n))) b'.
Proof.
  intros Hb Hl. revert i es b Hb. induction n as [|n IH]; intros i es b Hb Hn.
  { exists b. by rewrite Nat.add_0_r, sub_nil, app_nil_r. }
  destruct (lookup_lt_is_Some_2 ls i ltac:(lia)) as [[k p] Hi]. cbn [LayerBuilder.map_copy_loop].
  destruct (map_key_spec es b ls l i k p f Hb Hl Hi) as (b1&->&Hb1). cbn [mbind option_bind].
  destruct (IH (i + 1) _ b1 Hb1 ltac:(lia)) as (b'&->&Hb'). exists b'. split; [done|].
  rewrite (sub_cons _ _ _ _ Hi) by lia. replace (i + S n) with (i + 1 + n) by lia.
  replace (S i) with (i + 1) by lia. by rewrite <- app_assoc in Hb'.
Qed.

Lemma push_offs_spec n i (ps : list (list E)) ls keys offs0 vs base :
  repr ls keys offs0 vs → i + n ≤ length ls →
  base ≤ i →
  LayerBuilder.push_offs n i (offsets 0 (ps ++ sub ls.*2 base i)) offs0 (total ps) (total (take base ls.*2))
  = Some (offsets 0 (ps ++ sub ls.*2 base (i + n))).
Proof.
  intros Hr Hn Hb. revert i Hn Hb. induction n as [|n IH]; intros i Hn Hb; cbn [LayerBuilder.push_offs].
  { by rewrite Nat.add_0_r. }
  destruct (lookup_lt_is_Some_2 ls i ltac:(lia)) as [[k p] Hi].
  rewrite (repr_off _ _ _ _ (i + 1) Hr) by lia. cbn [mbind option_bind].
  pose proof (total_sub ls.*2 base (i + 1) ltac:(lia)) as Ht.
  rewrite (proj2 (Nat.leb_le _ _)) by lia. replace (i + S n) with (i + 1 + n) by lia.
  rewrite <- IH by lia. f_equal.
  rewrite (sub_split ls.*2 base i (i + 1)) by lia.
  rewrite (sub_cons ls.*2 i (i + 1) p); [|by rewrite list_lookup_fmap, Hi | lia].
  rewrite Nat.add_1_r, sub_nil, app_assoc, offsets_snoc. f_equal. f_equal.
  rewrite Nat.add_1_r in Ht. rewrite Ht.
  rewrite (sub_split ls.*2 base i (S i)) by lia.
  rewrite (sub_cons ls.*2 i (S i) p); [|by rewrite list_lookup_fmap, Hi | lia]. rewrite sub_nil.
  rewrite <- app_assoc, !total_app. lia.
Qed.

Lemma lrepr_nonempties ls l lo hi : lrepr ls l → nonempties (sub ls lo hi).*2.
Proof.
  intros [_ (_&_&_&Hn)]. rewrite sub_fmap. unfold sub, nonempties. by apply Forall_take, Forall_drop.
Qed.

Lemma copy_keys_spec es b ls l lo hi m :
  brepr es b → lrepr ls l → lo < hi → hi ≤ length ls →
  ∃ b', LayerBuilder.copy_keys b l lo hi m = Some b' ∧
    brepr (es ++ keyed_copy (pcopy m) (sub ls lo hi)) b'.
Proof.
  intros Hb Hl Hlt Hhi. unfold LayerBuilder.copy_keys. pose proof Hl as [Hwl Hr].
  rewrite (repr_off _ _ _ _ lo Hr) by lia. cbn [mbind option_bind]. destruct m as [f|].
  { destruct (map_copy_loop_spec (hi - lo) lo es b ls l f Hb Hl ltac:(lia)) as (b'&->&Hb').
    exists b'. split; [done|]. by replace (lo + (hi - lo)) with hi in Hb' by lia. }
  destruct Hb as [Hwb Hrb]. pose proof Hrb as (Hk&Ho&He&Hn). pose proof Hr as (Hk'&_&He'&_).
  rewrite range_some; [|lia | by rewrite Hk', length_fmap]. cbn [mbind option_bind].
  rewrite Ho, offsets_last. change (default 0 (Some (0 + total es.*2))) with (total es.*2).
  pose proof (push_offs_spec (hi - lo) lo es.*2 ls _ _ _ lo Hr ltac:(lia) ltac:(lia)) as Hp.
  rewrite sub_nil, app_nil_r in Hp. replace (lo + (hi - lo)) with hi in Hp by lia. rewrite Hp.
  cbn [mbind option_bind]. rewrite (repr_off _ _ _ _ hi Hr) by lia. cbn [mbind option_bind].
  assert (total (take lo ls.*2) < total (take hi ls.*2)) as Htl.
  { destruct (lookup_lt_is_Some_2 ls lo ltac:(lia)) as [[k p] Hi].
    destruct (repr_payload _ _ _ _ _ _ _ Hr Hi) as (_&_&Hlt'&_).
    rewrite (total_sub ls.*2 (lo + 1) hi) by lia. lia. }
  assert (total (take hi ls.*2) ≤ length (ents (l_vals l))) as Hth.
  { rewrite He'. fold (total ls.*2). rewrite <- (take_drop hi ls.*2) at 2. rewrite total_app. lia. }
  destruct (copy_ok (lb_vals b) (l_vals l) _ _ None Hwb Hwl Htl Hth) as (vals&->&Hw&Hv).
  cbn [mbind option_bind]. eexists. split; [done|]. split; [done|]. cbn [lb_keys lb_offs lb_vals].
  rewrite keyed_copy_none by (by eapply lrepr_nonempties). rewrite a_copy_none, He', sub_concat in Hv by lia.
  unfold repr. rewrite !fmap_app, sub_fmap, sub_fmap, concat_app, Hv, Hk, Hk', He. split_and!; [done..|].
  apply Forall_app. split; [done|]. rewrite <- sub_fmap. by eapply lrepr_nonempties.
Qed.

Lemma range_ok_true ls l lo hi : lrepr ls l → lo < hi → hi ≤ length ls → LayerBuilder.range_ok l lo hi = true.
Proof.
  intros [_ (_&Ho&_)] Hlt Hhi. unfold LayerBuilder.range_ok. rewrite Ho, offsets_length, length_fmap.
  by rewrite !(proj2 (Nat.ltb_lt _ _)) by lia.
Qed.

Definition keep g es : list (K * list E) := List.filter (λ e, g e.1) es.

Lemma keep_all es : keep (λ _, true) es = es.
Proof. induction es as [|e es IH]; cbn; [done|]. by f_equal. Qed.

Lemma retain_loop_spec' n i es b ls l g m :
  brepr es b → lrepr ls l → i + n ≤ length ls →
  ∃ b', LayerBuilder.retain_loop n i b l g m = Some b' ∧
    brepr (es ++ keyed_copy (pcopy m) (keep g (sub ls i (i + n)))) b'.
Proof.
  intros Hb Hl. revert i es b Hb. induction n as [|n IH]; intros i es b Hb Hn.
  { exists b. by rewrite Nat.add_0_r, sub_nil, app_nil_r. }
  destruct (lookup_lt_is_Some_2 ls i ltac:(lia)) as [[k p] Hi]. cbn [LayerBuilder.retain_loop].
  pose proof Hl as [Hwl Hr]. rewrite (repr_key _ _ _ _ _ _ _ Hr Hi). cbn [mbind option_bind].
  rewrite (sub_cons _ _ _ _ Hi) by lia. replace (i + S n) with (i + 1 + n) by lia.
  replace (S i) with (i + 1) by lia. unfold keep. cbn [List.filter fst].
  fold (keep g (sub ls (i + 1) (i + 1 + n))).
  destruct (g k) eqn:Eg; cbn [mbind option_bind]; [|by apply IH; [|lia]].
  assert (∃ b1, match m with
    | Some f => LayerBuilder.map_times_and_copy_key b l i f
    | None => lo ← l_offs l !! i; hi ← l_offs l !! (i + 1);
        vals ← Trie.copy_range (lb_vals b) (l_vals l) lo hi None;
        Some (LayerBuilder.push_key (LayerBuilder.with_vals b vals) k (b_keys vals))
    end = Some b1 ∧ brepr (es ++ emit k (pcopy m p)) b1) as (b1&->&Hb1).
  { destruct m as [f|]; [by eapply map_key_spec|].
    destruct (repr_payload _ _ _ _ _ _ _ Hr Hi) as (->&->&Hlt&Hle&Hsub&Hp). cbn [mbind option_bind].
    destruct (copy_ok (lb_vals b) (l_vals l) _ _ None (proj1 Hb) Hwl Hlt Hle) as (vals&->&Hw&He).
    cbn [mbind option_bind]. rewrite Hsub, a_copy_none in He. eexists. split; [done|].
    rewrite pcopy_none by done. by apply brepr_push_key. }
  cbn [mbind option_bind]. destruct (IH (i + 1) _ b1 Hb1 ltac:(lia)) as (b'&->&Hb').
  exists b'. split; [done|]. by rewrite <- app_assoc in Hb'.
Qed.

Lemma copy_range_spec es b ls l lo hi m :
  brepr es b → lrepr ls l → lo < hi → hi ≤ length ls →
  ∃ b', LayerBuilder.copy_range b l lo hi m = Some b' ∧
    brepr (es ++ keyed_copy (pcopy m) (sub ls lo hi)) b'.
Proof.
  intros Hb Hl Hlt Hhi. unfold LayerBuilder.copy_range. rewrite (range_ok_true ls) by done.
  by apply copy_keys_spec.
Qed.

Lemma copy_range_retain_spec es b ls l lo hi g m :
  brepr es b → lrepr ls l → lo < hi → hi ≤ length ls →
  ∃ b', LayerBuilder.copy_range_retain_keys b l lo hi g m = Some b' ∧
    brepr (es ++ keyed_copy (pcopy m) (keep g (sub ls lo hi))) b'.
Proof.
  intros Hb Hl Hlt Hhi. unfold LayerBuilder.copy_range_retain_keys. rewrite (range_ok_true ls) by done.
  destruct (retain_loop_spec' (hi - lo) lo es b ls l g m Hb Hl ltac:(lia)) as (b'&->&Hb').
  exists b'. split; [done|]. by replace (lo + (hi - lo)) with hi in Hb' by lia.
Qed.

(** ** The steps of a merge *)
Definition layer_sorted es : Prop := keys_sorted es ∧ Forall (λ p, asorted p ∧ p ≠ []) es.*2.
(** A range of a layer with its entries in order. *)
Definition lrange ls l (lo hi : nat) : Prop :=
  lrepr ls l ∧ lo ≤ hi ∧ hi ≤ length ls ∧ layer_sorted (sub ls lo hi).

Lemma lrange_suffix ls l lo mid hi : lrange ls l lo hi → lo ≤ mid ≤ hi → lrange ls l mid hi.
Proof.
  intros (Hr&Hle&Hhi&Hs&Hp) Hm. split_and!; [done | lia | done | split; [by apply (keys_sorted_sub ls lo mid hi)|]].
  rewrite (sub_split ls lo mid hi Hm), fmap_app in Hp. by apply Forall_app in Hp as [_ ?].
Qed.

Lemma lrange_payload ls l lo hi k p : lrange ls l lo hi → lo < hi → ls !! lo = Some (k, p) → asorted p.
Proof.
  intros (_&_&_&_&Hp) Hlt Hi. rewrite (sub_cons _ _ _ _ Hi Hlt) in Hp. cbn in Hp.
  by apply Forall_cons in Hp as [[? _] _].
Qed.

Section step.
Context (pc : list E → option (list E)) (pm : list E → list E → option (list E)) (g : K → bool).
Context (copy : LayerBuilder K B → Layer K L → nat → nat → option (LayerBuilder K B * nat)).
Context (both : LayerBuilder K B → K → Layer K L → nat → Layer K L → nat → option (LayerBuilder K B)).

(** What copying a range promises; it may stop early, but not at once. *)
Definition copy_spec : Prop := ∀ es b ls l lo hi, brepr es b → lrepr ls l → lo < hi → hi ≤ length ls →
  ∃ b' hi', copy b l lo hi = Some (b', hi') ∧ lo < hi' ≤ hi ∧
    brepr (es ++ keyed_copy pc (keep g (sub ls lo hi'))) b'.
(** What merging the values of a key promises. *)
Definition both_spec : Prop := ∀ es b k ls1 (l1 : Layer K L) i1 p1 ls2 (l2 : Layer K L) i2 p2, brepr es b →
  lrepr ls1 l1 → ls1 !! i1 = Some (k, p1) → asorted p1 → lrepr ls2 l2 → ls2 !! i2 = Some (k, p2) → asorted p2 →
  ∃ b', both b k l1 i1 l2 i2 = Some b' ∧ brepr (es ++ if g k then emit k (pm p1 p2) else []) b'.

(** The shape of the three merge steps. *)
Definition gen_step b (t1 : Layer K L) (lower1 upper1 : nat) (t2 : Layer K L) (lower2 upper2 : nat) :
  option (LayerBuilder K B * nat * nat) :=
  k1 ← l_keys t1 !! lower1;
  k2 ← l_keys t2 !! lower2;
  match cmp k1 k2 with
  | Lt =>
    n ← advance_to sk (l_keys t1) (1 + lower1) upper1 k2;
    '(b, lower1) ← copy b t1 lower1 (lower1 + Nat.min (1 + n) 1000);
    Some (b, lower1, lower2)
  | Eq => b ← both b k1 t1 lower1 t2 lower2; Some (b, lower1 + 1, lower2 + 1)
  | Gt =>
    n ← advance_to sk (l_keys t2) (1 + lower2) upper2 k1;
    '(b, lower2) ← copy b t2 lower2 (lower2 + Nat.min (1 + n) 1000);
    Some (b, lower1, lower2)
  end.

Definition gmerge (es1 es2 : list (K * list E)) : list (K * list E) :=
  keyed_merge pc pm (keep g es1) (keep g es2).

(** A step makes progress and emits what the merge of the two ranges begins with. *)
Definition step_ok (step : LayerBuilder.step_fn (K:=K) (B:=B)) (ls1 : list (K * list E)) (t1 : Layer K L) (u1 : nat)
    (ls2 : list (K * list E)) (t2 : Layer K L) (u2 : nat) : Prop :=
  ∀ es b (l1 l2 : nat), brepr es b → lrange ls1 t1 l1 u1 → lrange ls2 t2 l2 u2 → l1 < u1 → l2 < u2 →
  ∃ b' (l1' l2' : nat) out, step b l1 l2 = Some (b', l1', l2') ∧ brepr (es ++ out) b' ∧
    l1 ≤ l1' ≤ u1 ∧ l2 ≤ l2' ≤ u2 ∧ l1 + l2 < l1' + l2' ∧
    gmerge (sub ls1 l1 u1) (sub ls2 l2 u2) = out ++ gmerge (sub ls1 l1' u1) (sub ls2 l2' u2).

Lemma layer_advance ls l lo hi k :
  lrange ls l lo hi → lo < hi →
  advance_to sk (l_keys l) (1 + lo) hi k = Some (prefix_len (λ x, kltb x k) (sub ls.*1 (lo + 1) hi)).
Proof.
  intros ([_ (->&_)]&Hle&Hhi&Hs&_) Hlt. rewrite (Nat.add_comm 1). apply advance_to_spec; [done | lia | |].
  - by rewrite length_fmap.
  - rewrite <- sub_fmap. by apply (keys_sorted_sub ls lo (lo + 1) hi); [lia|].
Qed.

Lemma keep_app es ls : keep g (es ++ ls) = keep g es ++ keep g ls.
Proof. apply List.filter_app. Qed.

Lemma gen_step_ok ls1 (t1 : Layer K L) (u1 : nat) ls2 (t2 : Layer K L) (u2 : nat) :
  copy_spec → both_spec → step_ok (λ b (l1 l2 : nat), gen_step b t1 l1 u1 t2 l2 u2) ls1 t1 u1 ls2 t2 u2.
Proof.
  intros Hcopy Hboth es b l1 l2 Hb Hr1 Hr2 Hlt1 Hlt2. unfold gen_step.
  pose proof Hr1 as (Hl1&_&Hu1&Hs1&_). pose proof Hr2 as (Hl2&_&Hu2&Hs2&_).
  destruct (lookup_lt_is_Some_2 ls1 l1 ltac:(lia)) as [[k1 p1] Hi1].
  destruct (lookup_lt_is_Some_2 ls2 l2 ltac:(lia)) as [[k2 p2] Hi2].
  rewrite (repr_key _ _ _ _ _ _ _ (proj2 Hl1) Hi1), (repr_key _ _ _ _ _ _ _ (proj2 Hl2) Hi2).
  cbn [mbind option_bind]. unfold gmerge. destruct (cmp k1 k2) eqn:Ec.
  - apply cmp_eq in Ec as <-.
    destruct (Hboth es b k1 ls1 t1 l1 p1 ls2 t2 l2 p2) as (b'&->&Hb'); [done..| | done | done | |];
      [by eapply (lrange_payload ls1) | by eapply (lrange_payload ls2) |]. cbn [mbind option_bind].
    do 4 eexists. split; [done|]. split; [exact Hb'|]. split_and!; [lia..|].
    destruct (head_before _ _ _ _ _ Hi1 Hlt1 Hs1) as (->&_&_).
    destruct (head_before _ _ _ _ _ Hi2 Hlt2 Hs2) as (->&_&_).
    unfold keep. cbn [List.filter fst]. destruct (g k1); [|done]. by rewrite keyed_merge_cons, cmp_refl.
  - rewrite (layer_advance ls1) by done. cbn [mbind option_bind]. set (n := Nat.min (1 + _) 1000).
    destruct (run_before ls1 l1 u1 ls2 l2 u2 k1 p1 k2 p2 n) as (Hn&_);
      [done..| apply Nat.le_min_l |].
    destruct (Hcopy es b ls1 t1 l1 (l1 + n) Hb Hl1) as (b'&l1'&->&Hl1'&Hb'); [unfold n; lia | lia |].
    cbn [mbind option_bind]. do 4 eexists. split; [done|]. split; [exact Hb'|]. split_and!; [lia..|].
    destruct (run_before ls1 l1 u1 ls2 l2 u2 k1 p1 k2 p2 (l1' - l1)) as (_&Hbe1&Hbe2&_);
      [done..| unfold n in Hl1'; lia |]. replace (l1 + (l1' - l1)) with l1' in Hbe1, Hbe2 by lia.
    rewrite (sub_split ls1 l1 l1' u1), keep_app by lia.
    rewrite <- (app_nil_l (keep g (sub ls2 l2 u2))) at 1.
    rewrite keyed_merge_before by (apply before_nil_l || by apply before_filter).
    by rewrite keyed_merge_nil_r.
  - apply cmp_gt in Ec. rewrite (layer_advance ls2) by done. cbn [mbind option_bind].
    set (n := Nat.min (1 + _) 1000).
    destruct (run_before ls2 l2 u2 ls1 l1 u1 k2 p2 k1 p1 n) as (Hn&_);
      [done..| apply Nat.le_min_l |].
    destruct (Hcopy es b ls2 t2 l2 (l2 + n) Hb Hl2) as (b'&l2'&->&Hl2'&Hb'); [unfold n; lia | lia |].
    cbn [mbind option_bind]. do 4 eexists. split; [done|]. split; [exact Hb'|]. split_and!; [lia..|].
    destruct (run_before ls2 l2 u2 ls1 l1 u1 k2 p2 k1 p1 (l2' - l2)) as (_&Hbe1&Hbe2&_);
      [done..| unfold n in Hl2'; lia |]. replace (l2 + (l2' - l2)) with l2' in Hbe1, Hbe2 by lia.
    rewrite (sub_split ls2 l2 l2' u2), keep_app by lia.
    rewrite <- (app_nil_l (keep g (sub ls1 l1 u1))) at 1.
    by rewrite keyed_merge_before by (apply before_nil_l || by apply before_filter).
Qed.

(** The loop consumes one side; what it emits and what is left make up the merge. *)
Lemma merge_loop_ok step ls1 (t1 : Layer K L) (u1 : nat) ls2 (t2 : Layer K L) (u2 : nat) gas es b (l1 l2 : nat) :
  step_ok step ls1 t1 u1 ls2 t2 u2 → brepr es b → lrange ls1 t1 l1 u1 → lrange ls2 t2 l2 u2 →
  (u1 - l1) + (u2 - l2) < gas →
  ∃ b' (l1' l2' : nat) out, LayerBuilder.merge_loop step gas b l1 u1 l2 u2 = Some (b', l1', l2') ∧
    brepr (es ++ out) b' ∧ l1 ≤ l1' ≤ u1 ∧ l2 ≤ l2' ≤ u2 ∧ (l1' = u1 ∨ l2' = u2) ∧
    gmerge (sub ls1 l1 u1) (sub ls2 l2 u2) = out ++ gmerge (sub ls1 l1' u1) (sub ls2 l2' u2).
Proof.
  intros Hstep. revert es b l1 l2. induction gas as [|gas IH]; intros es b l1 l2 Hb Hr1 Hr2 Hg; [lia|].
  cbn [LayerBuilder.merge_loop]. pose proof Hr1 as (_&Hle1&_). pose proof Hr2 as (_&Hle2&_).
  destruct (Nat.ltb_spec l1 u1) as [Hlt1|Hge1]; cbn [andb].
  2: { exists b, l1, l2, []. rewrite app_nil_r. split_and!; [done | done | lia..| done]. }
  destruct (Nat.ltb_spec l2 u2) as [Hlt2|Hge2]; cbn [andb].
  2: { exists b, l1, l2, []. rewrite app_nil_r. split_and!; [done | done | lia..| done]. }
  destruct (Hstep es b l1 l2) as (b1&m1&m2&out&->&Hb1&Hm1&Hm2&Hp&->); [done..|]. cbn [mbind option_bind].
  destruct (IH (es ++ out) b1 m1 m2) as (b'&l1'&l2'&out'&->&Hb'&H1&H2&H3&->);
    [done | eapply lrange_suffix; [done|lia].. | lia |].
  exists b', l1', l2', (out ++ out'). rewrite !app_assoc in *. split_and!; [done | done | lia..| done].
Qed.
End step.

(** ** Complete merges *)
Section complete.
Context (pc : list E → option (list E)) (pm : list E → list E → option (list E)) (g : K → bool).
Context (copy : LayerBuilder K B → Layer K L → nat → nat → option (LayerBuilder K B)).

Definition full_copy_spec : Prop := ∀ es b ls l lo hi, brepr es b → lrepr ls l → lo < hi → hi ≤ length ls →
  ∃ b', copy b l lo hi = Some b' ∧ brepr (es ++ keyed_copy pc (keep g (sub ls lo hi))) b'.

Definition copy_to b l (lo hi : nat) : option (LayerBuilder K B * nat) := b ← copy b l lo hi; Some (b, hi).

Lemma copy_to_spec : full_copy_spec → copy_spec pc g copy_to.
Proof.
  intros Hc es b ls l lo hi Hb Hl Hlt Hhi. destruct (Hc es b ls l lo hi) as (b'&Hb'&?); [done..|].
  exists b', hi. unfold copy_to. rewrite Hb'. split_and!; [done | lia | lia | done].
Qed.

Lemma copy_rest_ok es b ls l lo hi :
  full_copy_spec → brepr es b → lrepr ls l → lo ≤ hi → hi ≤ length ls →
  ∃ b', (if lo <? hi then copy b l lo hi else Some b) = Some b' ∧
    brepr (es ++ keyed_copy pc (keep g (sub ls lo hi))) b'.
Proof.
  intros Hc Hb Hl Hlo Hhi. destruct (Nat.ltb_spec lo hi); [by apply Hc|].
  assert (lo = hi) as -> by lia. exists b. by rewrite sub_nil, app_nil_r.
Qed.

Definition gen_push_merge (step : LayerBuilder.step_fn) b (t1 : Layer K L) (lower1 upper1 : nat)
    (t2 : Layer K L) (lower2 upper2 : nat) : option (LayerBuilder K B) :=
  '(b, lower1, lower2) ← LayerBuilder.merge_loop step (S ((upper1 - lower1) + (upper2 - lower2)))
     b lower1 upper1 lower2 upper2;
  b ← (if lower1 <? upper1 then copy b t1 lower1 upper1 else Some b);
  if lower2 <? upper2 then copy b t2 lower2 upper2 else Some b.

Lemma gen_push_merge_ok step ls1 (t1 : Layer K L) (l1 u1 : nat) ls2 (t2 : Layer K L) (l2 u2 : nat) es b :
  step_ok pc pm g step ls1 t1 u1 ls2 t2 u2 → full_copy_spec →
  brepr es b → lrange ls1 t1 l1 u1 → lrange ls2 t2 l2 u2 →
  ∃ b', gen_push_merge step b t1 l1 u1 t2 l2 u2 = Some b' ∧
    brepr (es ++ gmerge pc pm g (sub ls1 l1 u1) (sub ls2 l2 u2)) b'.
Proof.
  intros Hstep Hc Hb Hr1 Hr2. pose proof Hr1 as (Hl1&_&Hu1&_). pose proof Hr2 as (Hl2&_&Hu2&_).
  unfold gen_push_merge.
  destruct (merge_loop_ok pc pm g step ls1 t1 u1 ls2 t2 u2 (S ((u1 - l1) + (u2 - l2))) es b l1 l2)
    as (b1&l1'&l2'&out&->&Hb1&H1&H2&H3&->); [done..|lia|]. cbn [mbind option_bind].
  destruct (copy_rest_ok _ b1 ls1 t1 l1' u1 Hc Hb1) as (b2&->&Hb2); [done | lia | done |].
  cbn [mbind option_bind].
  destruct (copy_rest_ok _ b2 ls2 t2 l2' u2 Hc Hb2) as (b3&->&Hb3); [done | lia | done |].
  exists b3. split; [done|]. rewrite <- !app_assoc in Hb3. unfold gmerge.
  destruct H3 as [-> | ->]; rewrite sub_nil in *; cbn [keep List.filter] in *.
  - done.
  - by rewrite keyed_merge_nil_r, app_nil_r in *.
Qed.
End complete.

(** The values of one key, merged, after [boundary]. *)
Lemma merge_values_ok m es b k vals ls1 (t1 : Layer K L) i1 p1 ls2 (t2 : Layer K L) i2 p2 :
  brepr es b → lrepr ls1 t1 → ls1 !! i1 = Some (k, p1) → asorted p1 →
  lrepr ls2 t2 → ls2 !! i2 = Some (k, p2) → asorted p2 →
  wf_builder vals → b_ents vals = b_ents (lb_vals b) →
  ∃ b', LayerBuilder.merge_values b t1 i1 t2 i2 (λ v c1 c2, Trie.push_merge v c1 c2 m) k vals
          (b_keys (lb_vals b)) = Some b' ∧ brepr (es ++ emit k (pmerge m p1 p2)) b'.
Proof.
  intros Hb [Hw1 Hl1] Hi1 Hp1 [Hw2 Hl2] Hi2 Hp2 Hwv Hv. unfold LayerBuilder.merge_values.
  destruct (repr_payload _ _ _ _ _ _ _ Hl1 Hi1) as (->&->&Hlt1&Hle1&Hsub1&_).
  destruct (repr_payload _ _ _ _ _ _ _ Hl2 Hi2) as (->&->&Hlt2&Hle2&Hsub2&_).
  cbn [mbind option_bind]. rewrite <- Hsub1 in Hp1. rewrite <- Hsub2 in Hp2.
  destruct (merge_ok vals (l_vals t1) _ _ (l_vals t2) _ _ m Hwv Hw1 Hw2 (Nat.lt_le_incl _ _ Hlt1) Hle1
    (Nat.lt_le_incl _ _ Hlt2) Hle2 Hp1 Hp2) as (c1&c2&vals'&->&->&Hpush&Hw'&He').
  cbn [mbind option_bind]. rewrite Hpush. cbn [mbind option_bind]. rewrite Hv, Hsub1, Hsub2 in He'.
  exists (push_if b k vals' (b_keys (lb_vals b))). split; [|by apply brepr_push].
  unfold push_if. by destruct (_ <? _).
Qed.

Definition both_plain m b k (t1 : Layer K L) (i1 : nat) (t2 : Layer K L) (i2 : nat) :
  option (LayerBuilder K B) :=
  '(vals, lower) ← Trie.boundary (lb_vals b);
  LayerBuilder.merge_values b t1 i1 t2 i2 (λ v c1 c2, Trie.push_merge v c1 c2 m) k vals lower.
Definition both_retain g m b k (t1 : Layer K L) (i1 : nat) (t2 : Layer K L) (i2 : nat) :
  option (LayerBuilder K B) :=
  '(vals, lower) ← Trie.boundary (lb_vals b);
  if g k then LayerBuilder.merge_values b t1 i1 t2 i2 (λ v c1 c2, Trie.push_merge v c1 c2 m) k vals lower
  else Some (LayerBuilder.with_vals b vals).

Lemma both_plain_ok m : both_spec (pmerge m) (λ _, true) (both_plain m).
Proof.
  intros es b k ls1 t1 i1 p1 ls2 t2 i2 p2 Hb ??????. unfold both_plain.
  destruct (boundary_ok (lb_vals b) (proj1 Hb)) as (vals&->&Hw&He). cbn [mbind option_bind].
  by eapply (merge_values_ok m es b k vals ls1 _ _ p1 ls2 _ _ p2).
Qed.

Lemma both_retain_ok g m : both_spec (pmerge m) g (both_retain g m).
Proof.
  intros es b k ls1 t1 i1 p1 ls2 t2 i2 p2 Hb ??????. unfold both_retain.
  destruct (boundary_ok (lb_vals b) (proj1 Hb)) as (vals&->&Hw&He). cbn [mbind option_bind].
  destruct (g k); [by eapply (merge_values_ok m es b k vals ls1 _ _ p1 ls2 _ _ p2)|].
  eexists. split; [done|]. rewrite app_nil_r. by apply with_vals_repr.
Qed.

(** The two merge steps without fuel have the common shape. *)
Lemma merge_step_shape b (t1 : Layer K L) (l1 u1 : nat) (t2 : Layer K L) (l2 u2 : nat) m :
  LayerBuilder.merge_step sk b t1 l1 u1 t2 l2 u2 m =
  gen_step (copy_to (λ b l lo hi, LayerBuilder.copy_range b l lo hi m)) (both_plain m) b t1 l1 u1 t2 l2 u2.
Proof.
  unfold LayerBuilder.merge_step, gen_step, copy_to, both_plain.
  destruct (l_keys t1 !! l1) as [k1|]; [|done]. destruct (l_keys t2 !! l2) as [k2|]; [|done].
  cbn [mbind option_bind]. destruct (cmp k1 k2).
  - by destruct (Trie.boundary (lb_vals b)) as [[v n]|].
  - destruct (advance_to _ _ _ _ _); [|done]. cbn [mbind option_bind]. by destruct (LayerBuilder.copy_range _ _ _ _ _).
  - destruct (advance_to _ _ _ _ _); [|done]. cbn [mbind option_bind]. by destruct (LayerBuilder.copy_range _ _ _ _ _).
Qed.

Lemma merge_step_retain_shape b (t1 : Layer K L) (l1 u1 : nat) (t2 : Layer K L) (l2 u2 : nat) g m :
  LayerBuilder.merge_step_retain_keys sk b t1 l1 u1 t2 l2 u2 g m =
  gen_step (copy_to (λ b l lo hi, LayerBuilder.copy_range_retain_keys b l lo hi g m)) (both_retain g m)
    b t1 l1 u1 t2 l2 u2.
Proof.
  unfold LayerBuilder.merge_step_retain_keys, gen_step, copy_to, both_retain.
  destruct (l_keys t1 !! l1) as [k1|]; [|done]. destruct (l_keys t2 !! l2) as [k2|]; [|done].
  cbn [mbind option_bind]. destruct (cmp k1 k2).
  - by destruct (Trie.boundary (lb_vals b)) as [[v n]|].
  - destruct (advance_to _ _ _ _ _); [|done]. cbn [mbind option_bind].
    by destruct (LayerBuilder.copy_range_retain_keys _ _ _ _ _ _).
  - destruct (advance_to _ _ _ _ _); [|done]. cbn [mbind option_bind].
    by destruct (LayerBuilder.copy_range_retain_keys _ _ _ _ _ _).
Qed.

Lemma full_copy_plain m : full_copy_spec (pcopy m) (λ _, true) (λ b l lo hi, LayerBuilder.copy_range b l lo hi m).
Proof. intros es b ls l lo hi ????. rewrite keep_all. by apply copy_range_spec. Qed.

Lemma full_copy_retain g m :
  full_copy_spec (pcopy m) g (λ b l lo hi, LayerBuilder.copy_range_retain_keys b l lo hi g m).
Proof. intros es b ls l lo hi ????. by apply copy_range_retain_spec. Qed.

Lemma step_ok_ext pc pm g step step' ls1 t1 (u1 : nat) ls2 t2 (u2 : nat) :
  (∀ b (l1 l2 : nat), step b l1 l2 = step' b l1 l2) →
  step_ok pc pm g step' ls1 t1 u1 ls2 t2 u2 → step_ok pc pm g step ls1 t1 u1 ls2 t2 u2.
Proof. intros Heq Hs es b l1 l2. rewrite Heq. apply Hs. Qed.

Lemma merge_step_ok m ls1 (t1 : Layer K L) (u1 : nat) ls2 (t2 : Layer K L) (u2 : nat) :
  step_ok (pcopy m) (pmerge m) (λ _, true)
    (λ b (l1 l2 : nat), LayerBuilder.merge_step sk b t1 l1 u1 t2 l2 u2 m) ls1 t1 u1 ls2 t2 u2.
Proof.
  eapply step_ok_ext; [intros; apply merge_step_shape|].
  apply gen_step_ok; [apply copy_to_spec, full_copy_plain | apply both_plain_ok].
Qed.

Lemma merge_step_retain_ok g m ls1 (t1 : Layer K L) (u1 : nat) ls2 (t2 : Layer K L) (u2 : nat) :
  step_ok (pcopy m) (pmerge m) g
    (λ b (l1 l2 : nat), LayerBuilder.merge_step_retain_keys sk b t1 l1 u1 t2 l2 u2 g m) ls1 t1 u1 ls2 t2 u2.
Proof.
  eapply step_ok_ext; [intros; apply merge_step_retain_shape|].
  apply gen_step_ok; [apply copy_to_spec, full_copy_retain | apply both_retain_ok].
Qed.

Lemma push_merge_ok es b m ls1 (t1 : Layer K L) (l1 u1 : nat) ls2 (t2 : Layer K L) (l2 u2 : nat) :
  brepr es b → lrange ls1 t1 l1 u1 → lrange ls2 t2 l2 u2 →
  ∃ b', gen_push_merge (λ b l lo hi, LayerBuilder.copy_range b l lo hi m)
      (λ b (l1 l2 : nat), LayerBuilder.merge_step sk b t1 l1 u1 t2 l2 u2 m) b t1 l1 u1 t2 l2 u2 = Some b' ∧
    brepr (es ++ layer_merge m (sub ls1 l1 u1) (sub ls2 l2 u2)) b'.
Proof.
  intros Hb Hr1 Hr2.
  destruct (gen_push_merge_ok _ _ _ _ _ ls1 t1 l1 u1 ls2 t2 l2 u2 es b
    (merge_step_ok m ls1 t1 u1 ls2 t2 u2) (full_copy_plain m) Hb Hr1 Hr2) as (b'&?&Hb').
  exists b'. split; [done|]. unfold gmerge in Hb'. by rewrite !keep_all in Hb'.
Qed.

(** ** Weights *)
(** The tuples below a key. *)
Definition prefix k (ts : list (J * R)) : list ((K * J) * R) := (λ '(j, r), ((k, j), r)) <$> ts.
Definition layer_tups (e : K * list E) : list ((K * J) * R) := prefix e.1 (e.2 ≫= tups).
Definition layer_imap f (i : K * J) : K * J := (i.1, imap f i.2).
Definition mapping m : J → J := match m with Some f => imap f | None => id end.

Lemma wt_prefix k k' ts j : wt (prefix k ts) (k', j) = if decide (k = k') then wt ts j else mzero.
Proof.
  induction ts as [|[j' r] ts IH]; cbn; [by case_decide|]. fold (prefix k ts). rewrite IH.
  destruct (decide (k = k')) as [<-|Hk]; [|by rewrite decide_False by congruence].
  destruct (decide (j' = j)) as [<-|Hj]; [by rewrite decide_True | by rewrite decide_False by congruence].
Qed.

Lemma prefix_keys k ts i : i ∈ (prefix k ts).*1 → ∃ j, i = (k, j) ∧ j ∈ ts.*1.
Proof.
  unfold prefix. rewrite <- list_fmap_compose. intros ([j r]&->&Hin)%list_elem_of_fmap.
  exists j. split; [done|]. apply list_elem_of_fmap. by exists (j, r).
Qed.

Lemma canonical_prefix k ts : canonical ts → canonical (prefix k ts).
Proof.
  induction ts as [|[j r] ts IH]; [intros _; apply canonical_nil|]. intros (Hc&Hr&Hj)%canonical_cons_inv. cbn.
  fold (prefix k ts). apply canonical_cons; [auto | done |].
  intros i (j'&->&Hin)%prefix_keys. apply klt_pair. right. auto.
Qed.

Lemma canonical_prefix_inv k ts : canonical (prefix k ts) → canonical ts.
Proof.
  induction ts as [|[j r] ts IH]; [intros _; apply canonical_nil|]. cbn. fold (prefix k ts).
  intros (Hc&Hr&Hj)%canonical_cons_inv. apply canonical_cons; [auto | done |].
  intros j' ([j'' r']&->&Hin)%list_elem_of_fmap. assert ((k, j'') ∈ (prefix k ts).*1) as Hp.
  { unfold prefix. rewrite <- list_fmap_compose. apply list_elem_of_fmap. by exists (j'', r'). }
  apply Hj, klt_pair in Hp as [Hk|[_ ?]]; [|done]. by apply klt_irrefl in Hk.
Qed.

Lemma layer_tups_keys es i : i ∈ (es ≫= layer_tups).*1 → i.1 ∈ es.*1.
Proof.
  induction es as [|[k p] es IH]; [by cbn; intros ?%elem_of_nil|]. cbn [mbind list_bind]. rewrite fmap_app, elem_of_app. cbn.
  intros [(j&->&_)%prefix_keys|Hi]; [left | right; auto].
Qed.

Lemma layer_sorted_canonical es : layer_sorted es → canonical (es ≫= layer_tups).
Proof.
  induction es as [|[k p] es IH]; [intros _; apply canonical_nil|].
  intros [[Hs Hk]%keys_sorted_cons [[Hp _] Hps]%Forall_cons].
  cbn [mbind list_bind]. apply canonical_app. split_and!.
  - by apply canonical_prefix, asorted_canonical.
  - by apply IH.
  - intros i i' (j&->&_)%prefix_keys Hi'%layer_tups_keys. destruct i' as [k' j'].
    apply klt_pair. left. auto.
Qed.

Lemma layer_tups_nonempty es : layer_sorted es → es ≠ [] → es ≫= layer_tups ≠ [].
Proof.
  destruct es as [|[k p] es]; [done|]. intros [_ [[Hp Hne] _]%Forall_cons] _ Heq.
  cbn [mbind list_bind] in Heq. apply app_eq_nil in Heq as [Heq _]. apply fmap_nil_inv in Heq.
  by apply (tups_nonempty p).
Qed.

Lemma remap_prefix m k ts :
  remap (match m with Some f => layer_imap f | None => id end) (prefix k ts) = prefix k (remap (mapping m) ts).
Proof.
  unfold remap, prefix. rewrite <- !list_fmap_compose. apply list_fmap_ext. intros ? [j r] _.
  by destruct m.
Qed.

Lemma emit_nonempty_tups k p : emit k (nonempty p) ≫= layer_tups = prefix k (p ≫= tups).
Proof. destruct p; cbn [nonempty emit mbind list_bind]; [done|]. apply app_nil_r. Qed.

Lemma pcopy_wt m k p i : asorted p →
  wt (emit k (pcopy m p) ≫= layer_tups) i
  = wt (remap (match m with Some f => layer_imap f | None => id end) (layer_tups (k, p))) i.
Proof.
  intros Hp. unfold pcopy, layer_tups at 2. cbn [fst snd]. rewrite emit_nonempty_tups, remap_prefix.
  destruct i as [k' j]. rewrite !wt_prefix. case_decide; [|done]. by apply a_copy_wt.
Qed.

Lemma pmerge_wt m k p q i : asorted p → asorted q →
  wt (emit k (pmerge m p q) ≫= layer_tups) i
  = wt (remap (match m with Some f => layer_imap f | None => id end) (layer_tups (k, p) ++ layer_tups (k, q))) i.
Proof.
  intros Hp Hq. unfold pmerge, layer_tups at 2 3. cbn [fst snd].
  rewrite emit_nonempty_tups, remap_app, !remap_prefix. destruct i as [k' j].
  rewrite wt_app, !wt_prefix. case_decide; [|by rewrite madd_0_l].
  rewrite a_merge_wt by done. by rewrite remap_app, wt_app.
Qed.

Lemma nonempty_valid p q : asorted p → nonempty p = Some q → asorted q ∧ q ≠ [].
Proof. intros Hp Hn. destruct p; [done|]. simplify_eq/=. done. Qed.

Lemma layer_copy_sorted m es : layer_sorted es → layer_sorted (layer_copy m es).
Proof.
  destruct m as [f|]; [|done]. intros [Hs Hp]. split; [by apply keyed_copy_sorted|].
  apply (keyed_copy_valid (pcopy (Some f)) (λ p, asorted p ∧ p ≠ []) (λ p, asorted p ∧ p ≠ [])); [|done].
  intros p q [Hp' _]. apply nonempty_valid. by apply a_copy_sorted.
Qed.

Lemma payloads_sorted es : layer_sorted es → Forall asorted es.*2.
Proof. intros [_ Hp]. eapply Forall_impl; [exact Hp|]. by intros p []. Qed.

(** Empty payloads may come in, none comes out. *)
Lemma layer_merge_payloads m (es1 es2 : list (K * list E)) :
  keys_sorted es1 → Forall asorted es1.*2 → keys_sorted es2 → Forall asorted es2.*2 →
  layer_sorted (layer_merge m es1 es2).
Proof.
  intros Hs1 Hp1 Hs2 Hp2. split; [by apply keyed_merge_sorted|].
  apply (keyed_merge_valid (pcopy m) (pmerge m) asorted (λ p, asorted p ∧ p ≠ [])); [| |done|done].
  - intros p q Hp'. apply nonempty_valid. by apply a_copy_sorted.
  - intros p q r Hp' Hq'. apply nonempty_valid. by apply a_merge_sorted.
Qed.

Lemma layer_merge_sorted m (es1 es2 : list (K * list E)) :
  layer_sorted es1 → layer_sorted es2 → layer_sorted (layer_merge m es1 es2).
Proof.
  intros Hs1 Hs2. apply layer_merge_payloads; by (apply payloads_sorted || apply Hs1 || apply Hs2).
Qed.

Lemma layer_copy_wt m es i : layer_sorted es →
  wt (layer_copy m es ≫= layer_tups) i
  = wt (remap (match m with Some f => layer_imap f | None => id end) (es ≫= layer_tups)) i.
Proof.
  intros Hs%payloads_sorted. destruct m as [f|]; [|by rewrite remap_id].
  apply (keyed_copy_wt (pcopy (Some f)) layer_tups (layer_imap f) asorted); [|done].
  intros k p i' Hp. by apply (pcopy_wt (Some f)).
Qed.

Lemma layer_merge_wt m (es1 es2 : list (K * list E)) i :
  Forall asorted es1.*2 → Forall asorted es2.*2 →
  wt (layer_merge m es1 es2 ≫= layer_tups) i
  = wt (remap (match m with Some f => layer_imap f | None => id end)
          ((es1 ≫= layer_tups) ++ (es2 ≫= layer_tups))) i.
Proof.
  intros Hs1 Hs2. rewrite remap_app.
  apply (keyed_merge_wt (pcopy m) (pmerge m) layer_tups _ asorted); [| |done|done].
  - intros. by apply pcopy_wt.
  - intros. by apply pmerge_wt.
Qed.

Lemma layer_sorted_app (es1 es2 : list (K * list E)) :
  layer_sorted (es1 ++ es2) → layer_sorted es1 ∧ layer_sorted es2.
Proof.
  intros [(Hs1&Hs2&_)%keys_sorted_app Hp]. rewrite fmap_app in Hp. apply Forall_app in Hp as [? ?].
  by repeat split.
Qed.

Lemma layer_sorted_filter (h : K * list E → bool) es : layer_sorted es → layer_sorted (List.filter h es).
Proof.
  intros [Hs Hp]. split; [by apply keys_sorted_filter|]. rewrite Forall_fmap, Forall_forall in *.
  intros e He. apply list_elem_of_In, filter_In in He as [He _]. apply Hp. by apply list_elem_of_In.
Qed.

(** ** The instance *)
Lemma layer_ents_length l : layer_wf l → length (layer_ents l) = length (l_keys l).
Proof. intros Hw%layer_wf_repr. destruct Hw as [_ (->&_)]. by rewrite length_fmap. Qed.

Lemma lb_boundary_ok es b : brepr es b → ∃ b', LayerBuilder.set_last_off b = Some b' ∧ brepr es b' ∧
  lb_keys b' = lb_keys b.
Proof.
  intros [Hw Hr]. unfold LayerBuilder.set_last_off.
  destruct (boundary_ok (lb_vals b) Hw) as (vals&->&Hwv&Hv). cbn [mbind option_bind].
  pose proof Hr as (Hk&Ho&He&Hn).
  assert (length (lb_keys b) < length (lb_offs b)) as Hlt
    by (rewrite Hk, Ho, offsets_length, !length_fmap; lia).
  rewrite (proj2 (Nat.ltb_lt _ _) Hlt). eexists. split; [done|]. split; [|done].
  split; [done|]. cbn [lb_keys lb_offs lb_vals]. rewrite Hv, bkeys_ok by done.
  rewrite list_insert_id; [done|].
  rewrite Hk, length_fmap, (repr_off _ _ _ _ _ Hr) by done. rewrite take_ge by (by rewrite length_fmap).
  by rewrite He.
Qed.

Lemma lb_done_ok es b : brepr es b → ∃ l, LayerBuilder.done b = Some l ∧ lrepr es l.
Proof.
  intros Hb. unfold LayerBuilder.done.
  assert (∃ b1, (if 0 <? length (lb_keys b) then
            o ← lb_offs b !! length (lb_keys b);
            if o =? 0 then LayerBuilder.set_last_off b else Some b
          else Some b) = Some b1 ∧ brepr es b1) as (b1&->&Hb1).
  { destruct (0 <? length (lb_keys b)); [|by exists b]. pose proof Hb as [_ Hr]. pose proof Hr as (Hk&_).
    rewrite Hk, length_fmap, (repr_off _ _ _ _ _ Hr) by done. cbn [mbind option_bind].
    destruct (_ =? 0); [|by exists b]. destruct (lb_boundary_ok es b Hb) as (b1&?&?&_). by exists b1. }
  cbn [mbind option_bind]. destruct Hb1 as [Hw Hr].
  destruct (done_ok (lb_vals b1) Hw) as (v&->&Hwv&Hv). cbn [mbind option_bind].
  eexists. split; [done|]. split; [done|]. cbn. by rewrite Hv.
Qed.

(** A cursor over a nonempty range starts at its first key, over that key's values. *)
Lemma layer_cursor_some ls l lo hi k p :
  lrepr ls l → ls !! lo = Some (k, p) → lo < hi →
  ∃ vlo vhi child, l_offs l !! lo = Some vlo ∧ l_offs l !! (lo + 1) = Some vhi ∧ vlo < vhi ∧
    vhi ≤ length (ents (l_vals l)) ∧ sub (ents (l_vals l)) vlo vhi = p ∧
    Trie.cursor_from (l_vals l) vlo vhi = Some child ∧
    Layer.cursor_from l lo hi = Some (mkLayerCursor l (Z.of_nat lo) (lo, hi) child).
Proof.
  intros [Hw Hr] Hi Hlt. destruct (repr_payload _ _ _ _ _ _ _ Hr Hi) as (Ho1&Ho2&Hlt'&Hle&Hsub&_).
  destruct (cursor_ok (l_vals l) _ _ Hw (Nat.lt_le_incl _ _ Hlt') Hle) as [child Hc].
  do 3 eexists. split_and!; [done..|]. unfold Layer.cursor_from.
  rewrite (proj2 (Nat.ltb_lt _ _) Hlt), Ho1, Ho2. cbn [mbind option_bind]. by rewrite Hc.
Qed.

Lemma layer_cursor_empty l lo : wf_trie (l_vals l) →
  ∃ child, Trie.cursor_from (l_vals l) 0 0 = Some child ∧
    Layer.cursor_from l lo lo = Some (mkLayerCursor l 0 (0, 0) child).
Proof.
  intros Hw. destruct (cursor_ok (l_vals l) 0 0 Hw) as [child Hc]; [lia..|].
  exists child. split; [done|]. unfold Layer.cursor_from. by rewrite Nat.ltb_irrefl, Hc.
Qed.

(** The range a cursor was made for, as the merge reads it back. *)
Lemma layer_cursor_range ls l lo hi :
  lrange ls l lo hi →
  ∃ c lo' hi', Layer.cursor_from l lo hi = Some c ∧ ly_storage c = l ∧ ly_bounds c = (lo', hi') ∧
    lrange ls l lo' hi' ∧ sub ls lo' hi' = sub ls lo hi.
Proof.
  intros Hr. pose proof Hr as (Hl&Hle&Hhi&Hs). destruct (decide (lo = hi)) as [<-|Hne].
  - destruct (layer_cursor_empty l lo (proj1 Hl)) as (child&_&->). do 3 eexists. split_and!; [done..| |].
    + split_and!; [done | lia | lia | split; [constructor | constructor]].
    + by rewrite !sub_nil.
  - destruct (lookup_lt_is_Some_2 ls lo ltac:(lia)) as [[k p] Hi].
    destruct (layer_cursor_some ls l lo hi k p Hl Hi ltac:(lia)) as (?&?&?&_&_&_&_&_&_&->).
    by do 3 eexists.
Qed.

(** A cursor of the layer, with a cursor of the values of this layer. *)
Definition layer_cursor_of (c : LayerCursor K L C) l : Prop := ly_storage c = l ∧ c_of (ly_child c) (l_vals l).

Lemma layer_cursor_from_of l lo hi c : Layer.cursor_from l lo hi = Some c → layer_cursor_of c l.
Proof.
  unfold Layer.cursor_from. destruct (lo <? hi).
  - destruct (l_offs l !! lo); [|done]. destruct (l_offs l !! (lo + 1)); [|done]. cbn [mbind option_bind].
    destruct (Trie.cursor_from (l_vals l) _ _) eqn:Ecur; [|done]. intros [= <-]. split; [done|]. by eapply cursor_of.
  - destruct (Trie.cursor_from (l_vals l) 0 0) eqn:Ecur; [|done]. intros [= <-]. split; [done|]. by eapply cursor_of.
Qed.

(** Repositioning the child on the current key's values makes it the cursor over them. *)
Lemma child_reposition_ok ls l c i k p :
  lrepr ls l → layer_cursor_of c l → ls !! i = Some (k, p) → ly_pos c = Z.of_nat i →
  ∃ vlo vhi child, l_offs l !! i = Some vlo ∧ l_offs l !! (i + 1) = Some vhi ∧
    Trie.cursor_from (l_vals l) vlo vhi = Some child ∧ sub (ents (l_vals l)) vlo vhi = p ∧
    LayerCursor.child_reposition c = Some (mkLayerCursor l (Z.of_nat i) (ly_bounds c) child).
Proof.
  intros [Hw Hr] [Hst Hof] Hi Hpos.
  destruct (repr_payload _ _ _ _ _ _ _ Hr Hi) as (Ho1&Ho2&Hlt&Hle&Hsub&_).
  destruct (cursor_ok (l_vals l) _ _ Hw (Nat.lt_le_incl _ _ Hlt) Hle) as [child Hc].
  do 3 eexists. split_and!; [done..|]. unfold LayerCursor.child_reposition, LayerCursor.at_index.
  rewrite Hst, Hpos, !(proj2 (Z.ltb_ge _ _)), Nat2Z.id, Ho1 by lia.
  replace (Z.to_nat (Z.of_nat i + 1)) with (i + 1) by lia. rewrite Ho2. cbn [mbind option_bind].
  rewrite (reposition_ok (l_vals l) (ly_child c) _ _ Hw Hof Hlt Hle), Hc. done.
Qed.

Lemma layer_reposition ls l c lo hi k p :
  lrepr ls l → ls !! lo = Some (k, p) → lo < hi → layer_cursor_of c l →
  LayerCursor.reposition c lo hi = Layer.cursor_from l lo hi.
Proof.
  intros Hl Hi Hlt [Hst Hof].
  unfold LayerCursor.reposition, LayerCursor.reposition_if_valid, LayerCursor.valid.
  cbn [ly_bounds ly_pos fst snd]. rewrite (proj2 (Z.leb_le _ _)), (proj2 (Z.ltb_lt _ _)) by lia. cbn [andb].
  destruct (child_reposition_ok ls l (mkLayerCursor (ly_storage c) (Z.of_nat lo) (lo, hi) (ly_child c)) lo k p)
    as (vlo&vhi&child&Ho1&Ho2&Hc&_&->); [done | done | done | done |].
  unfold Layer.cursor_from. rewrite (proj2 (Nat.ltb_lt _ _) Hlt), Ho1, Ho2. cbn [mbind option_bind ly_bounds].
  by rewrite Hc.
Qed.

#[global] Program Instance layer_spec :
  TrieSpec (Layer K L) (LayerBuilder K B) (LayerCursor K L C) K LK (K * list E) (K * J) R
    (OPS := layer_ops sk) := {|
  ents := layer_ents; b_ents := lb_ents; wf_trie := layer_wf; wf_builder := lb_wf; c_of := layer_cursor_of;
  ekey := fst; tups := layer_tups; imap := layer_imap; asorted := layer_sorted;
  a_copy := layer_copy; a_merge := layer_merge; retain_map_ok _ := True |}.
Next Obligation. intros l Hw. symmetry. by apply layer_ents_length. Qed.
Next Obligation. intros b [_ (Hk&_)]%lb_wf_repr. cbn. unfold LayerBuilder.keys. by rewrite Hk, length_fmap. Qed.
Next Obligation.
  intros l1 l2. destruct (capacity_ok (l_vals l1) (l_vals l2)) as [Hw He].
  apply brepr_wf. split; [done|]. cbn. rewrite He. by repeat split; constructor.
Qed.
Next Obligation.
  intros b Hw%lb_wf_repr. change (boundary b) with (LayerBuilder.boundary b). unfold LayerBuilder.boundary.
  destruct (lb_boundary_ok _ b Hw) as (b'&->&Hb'&Hk). cbn [mbind option_bind].
  exists b'. unfold LayerBuilder.keys. rewrite Hk. split; [done|]. by apply brepr_wf.
Qed.
Next Obligation.
  intros b Hw%lb_wf_repr. destruct (lb_done_ok _ b Hw) as (l&Hd&Hl). exists l. split; [exact Hd|].
  by apply lrepr_wf.
Qed.
Next Obligation.
  intros b l lo hi m Hb%lb_wf_repr Hl%layer_wf_repr Hlt Hhi.
  destruct (copy_range_spec _ b _ l lo hi m Hb Hl Hlt Hhi) as (b'&Hc&Hb'). exists b'. split; [exact Hc|].
  rewrite layer_copy_keyed by (by eapply lrepr_nonempties). by apply brepr_wf.
Qed.
Next Obligation.
  intros b l lo hi g m Hb%lb_wf_repr Hl%layer_wf_repr Hlt Hhi _.
  destruct (copy_range_retain_spec _ b _ l lo hi g m Hb Hl Hlt Hhi) as (b'&Hc&Hb'). exists b'. split; [exact Hc|].
  rewrite layer_copy_keyed; [by apply brepr_wf|].
  pose proof (lrepr_nonempties _ l lo hi Hl) as Hn. unfold nonempties in *. rewrite Forall_fmap, Forall_forall in *.
  intros e He. apply list_elem_of_In, filter_In in He as [He _]. apply Hn. by apply list_elem_of_In.
Qed.
Next Obligation.
  intros b l1 lo1 hi1 l2 lo2 hi2 m Hb%lb_wf_repr Hl1%layer_wf_repr Hl2%layer_wf_repr H1 H2 H3 H4 Hs1 Hs2.
  destruct (layer_cursor_range _ l1 lo1 hi1 (conj Hl1 (conj H1 (conj H2 Hs1)))) as (c1&a1&z1&?&Hst1&Hbd1&Hr1&<-).
  destruct (layer_cursor_range _ l2 lo2 hi2 (conj Hl2 (conj H3 (conj H4 Hs2)))) as (c2&a2&z2&?&Hst2&Hbd2&Hr2&<-).
  destruct (push_merge_ok _ b m _ l1 a1 z1 _ l2 a2 z2 Hb Hr1 Hr2) as (b'&Hp&Hb').
  exists c1, c2, b'. split; [done|]. split; [done|]. split; [|by apply brepr_wf].
  change (LayerBuilder.push_merge sk b c1 c2 m = Some b'). unfold LayerBuilder.push_merge. rewrite Hst1, Hst2, Hbd1, Hbd2.
  rewrite !(proj2 (Nat.leb_le _ _)) by (apply Hr1 || apply Hr2). exact Hp.
Qed.
Next Obligation.
  intros b l1 lo1 hi1 l2 lo2 hi2 g m Hb%lb_wf_repr Hl1%layer_wf_repr Hl2%layer_wf_repr H1 H2 H3 H4 Hs1 Hs2 _.
  destruct (layer_cursor_range _ l1 lo1 hi1 (conj Hl1 (conj H1 (conj H2 Hs1)))) as (c1&a1&z1&?&Hst1&Hbd1&Hr1&<-).
  destruct (layer_cursor_range _ l2 lo2 hi2 (conj Hl2 (conj H3 (conj H4 Hs2)))) as (c2&a2&z2&?&Hst2&Hbd2&Hr2&<-).
  destruct (gen_push_merge_ok _ _ _ _ _ _ l1 a1 z1 _ l2 a2 z2 _ b
    (merge_step_retain_ok g m _ l1 z1 _ l2 z2) (full_copy_retain g m) Hb Hr1 Hr2) as (b'&Hp&Hb').
  exists c1, c2, b'. split; [done|]. split; [done|]. split; [|by apply brepr_wf].
  change (LayerBuilder.push_merge_retain_keys sk b c1 c2 g m = Some b'). unfold LayerBuilder.push_merge_retain_keys. rewrite Hst1, Hst2, Hbd1, Hbd2.
  rewrite !(proj2 (Nat.leb_le _ _)) by (apply Hr1 || apply Hr2). exact Hp.
Qed.
Next Obligation.
  intros l lo hi Hl%layer_wf_repr Hle Hhi. change (is_Some (Layer.cursor_from l lo hi)). destruct (decide (lo = hi)) as [<-|Hne].
  - destruct (layer_cursor_empty l lo (proj1 Hl)) as (?&_&->). done.
  - destruct (lookup_lt_is_Some_2 (layer_ents l) lo ltac:(lia)) as [[k p] Hi].
    destruct (layer_cursor_some _ l lo hi k p Hl Hi ltac:(lia)) as (?&?&?&_&_&_&_&_&_&->). done.
Qed.
Next Obligation. apply layer_cursor_from_of. Qed.
Next Obligation.
  intros l c lo hi Hl%layer_wf_repr Hc Hlt Hhi.
  destruct (lookup_lt_is_Some_2 (layer_ents l) lo ltac:(lia)) as [[k p] Hi].
  exact (layer_reposition _ l c lo hi k p Hl Hi Hlt Hc).
Qed.
Next Obligation.
  intros l lo hi c Hc Hlt. cbn in *. unfold Layer.cursor_from in Hc.
  rewrite (proj2 (Nat.ltb_lt _ _) Hlt) in Hc.
  destruct (l_offs l !! lo); [|done]. destruct (l_offs l !! (lo + 1)); [|done]. cbn [mbind option_bind] in Hc.
  destruct (Trie.cursor_from (l_vals l) _ _); [|done]. cbn in Hc. simplify_eq.
  unfold LayerCursor.position. cbn. rewrite (proj2 (Z.ltb_ge _ _)) by lia. done.
Qed.
Next Obligation. split; constructor. Qed.
Next Obligation. apply layer_sorted_app. Qed.
Next Obligation. apply layer_sorted_filter. Qed.
Next Obligation. apply layer_sorted_canonical. Qed.
Next Obligation. apply layer_tups_nonempty. Qed.
Next Obligation. done. Qed.
Next Obligation. apply layer_copy_sorted. Qed.
Next Obligation. apply layer_copy_wt. Qed.
Next Obligation. apply layer_merge_sorted. Qed.
Next Obligation. intros m l1 l2 i H1 H2. apply layer_merge_wt; by apply payloads_sorted. Qed.
End theory.

(** ** Merging whole layers *)
Section properties.
Context `{Ord K} `{SP : TrieSpec L B C V LK E J R} (sk : nat).
Implicit Types l : Layer K L.

(** The Z-set of (key, tuple below) a layer denotes. *)
Definition layer_denote l : list ((K * J) * R) := layer_ents l ≫= layer_tups.

(** C1. The sum of two layers over any trie, of any depth ([merge], [+] and [+=]): it does not
    panic, and the result is a well-formed layer that denotes the sum of the two Z-sets,
    with keys in order at every level, no empty range of values and no zero weight. *)
Theorem layer_add_spec (l1 l2 : Layer K L) :
  zst_ok K sk → layer_wf l1 → layer_wf l2 → layer_sorted (layer_ents l1) → layer_sorted (layer_ents l2) →
  (∃ l, add_by_ref (H := layer_ops sk) l1 l2 = Some l ∧ layer_wf l ∧ layer_sorted (layer_ents l) ∧
    consolidated (layer_denote l1 ++ layer_denote l2) (layer_denote l)) ∧
  (∃ l, add_assign_by_ref (H := layer_ops sk) l1 l2 = Some l ∧ layer_wf l ∧ layer_sorted (layer_ents l) ∧
    consolidated (layer_denote l1 ++ layer_denote l2) (layer_denote l)).
Proof. intros Hsk Hw1 Hw2 Hs1 Hs2. exact (trie_add_correct (SP := layer_spec sk Hsk) l1 l2 Hw1 Hw2 Hs1 Hs2). Qed.

(** C27. Merging two layers into a builder, with a function applied to the times at the
    leaves and with a filter on the keys: the result denotes the sum of the (retained)
    tuples under the mapped times, consolidated at every level although the mapping may
    merge times, reorder them and make whole keys vanish. *)
Theorem layer_push_merge_spec (l1 l2 : Layer K L) (m : option (LK → LK)) (g : K → bool) :
  zst_ok K sk → layer_wf l1 → layer_wf l2 → layer_sorted (layer_ents l1) → layer_sorted (layer_ents l2) →
  let img := match m with Some f => layer_imap f | None => id end in
  let kept l := keep g (layer_ents l) ≫= layer_tups in
  (∃ c1 c2 b l, Layer.cursor_from l1 0 (Layer.keys l1) = Some c1 ∧ Layer.cursor_from l2 0 (Layer.keys l2) = Some c2 ∧
    LayerBuilder.push_merge sk (LayerBuilder.with_capacity l1 l2) c1 c2 m = Some b ∧
    LayerBuilder.done b = Some l ∧ layer_wf l ∧ layer_sorted (layer_ents l) ∧
    consolidated (remap img (layer_denote l1 ++ layer_denote l2)) (layer_denote l)) ∧
  (∃ c1 c2 b l, Layer.cursor_from l1 0 (Layer.keys l1) = Some c1 ∧ Layer.cursor_from l2 0 (Layer.keys l2) = Some c2 ∧
    LayerBuilder.push_merge_retain_keys sk (LayerBuilder.with_capacity l1 l2) c1 c2 g m = Some b ∧
    LayerBuilder.done b = Some l ∧ layer_wf l ∧ layer_sorted (layer_ents l) ∧
    consolidated (remap img (kept l1 ++ kept l2)) (layer_denote l)).
Proof.
  intros Hsk Hw1 Hw2 Hs1 Hs2 img kept. split.
  - exact (merge_into_correct (SP := layer_spec sk Hsk) m l1 l2 Hw1 Hw2 Hs1 Hs2).
  - exact (merge_retain_correct (SP := layer_spec sk Hsk) g m l1 l2 Hw1 Hw2 Hs1 Hs2 I).
Qed.
End properties.

(** *** Concrete layers: natural keys and values, integer weights *)
Definition leaf8 : TrieSpec (Leaf nat Z) (LeafBuilder nat Z) (LeafCursor nat Z) nat nat (nat * Z) nat Z :=
  leaf_spec 8 8 (zst_ok_pos _ _) (zst_ok_pos _ _).
Definition layer_example1 : Layer nat (Leaf nat Z) :=
  mkLayer [1; 4; 9] [0; 2; 3; 5] (mkLeaf [10; 20; 5; 7; 8] [1; 2; 3; 4; 5]%Z).
Definition layer_example2 : Layer nat (Leaf nat Z) :=
  mkLayer [2; 4; 9] [0; 1; 2; 4] (mkLeaf [6; 5; 7; 9] [1; -3; -4; 6]%Z).

Ltac sorted_example := repeat first [split | constructor]; try done; try lia.
Lemma layer_example_ok :
  layer_wf (SP := leaf8) layer_example1 ∧ layer_wf (SP := leaf8) layer_example2 ∧
  layer_sorted (SP := leaf8) (layer_ents (SP := leaf8) layer_example1) ∧
  layer_sorted (SP := leaf8) (layer_ents (SP := leaf8) layer_example2).
Proof. vm_compute. sorted_example. Qed.

Lemma layer_add_witness :
  layer_denote (SP := leaf8) layer_example1 ≠ [] ∧
  add_by_ref (H := layer_ops (H0 := leaf_ops 8 8) 8) layer_example1 layer_example2
  = Some (mkLayer [1; 2; 9] [0; 2; 3; 5] (mkLeaf [10; 20; 6; 8; 9] [1; 2; 1; 5; 6]%Z)).
Proof.
  split; [discriminate|]. destruct layer_example_ok as (Hw1&Hw2&Hs1&Hs2).
  destruct (layer_add_spec (SP := leaf8) 8 layer_example1 layer_example2 (zst_ok_pos _ _) Hw1 Hw2 Hs1 Hs2)
    as [(l&Hl&_) _].
  rewrite Hl. vm_compute in Hl. injection Hl as <-. reflexivity.
Defined.

(** With all times mapped to 0, the weights of key 4 cancel; key 9 is filtered out. *)
Lemma layer_push_merge_witness :
  ∃ c1 c2 b, Layer.cursor_from (H0 := leaf_ops 8 8) layer_example1 0 3 = Some c1 ∧
    Layer.cursor_from (H0 := leaf_ops 8 8) layer_example2 0 3 = Some c2 ∧
    LayerBuilder.push_merge_retain_keys (H0 := leaf_ops 8 8) 8
      (LayerBuilder.with_capacity (H0 := leaf_ops 8 8) layer_example1 layer_example2) c1 c2 (λ k, negb (k =? 9)) (Some (λ _, 0)) = Some b ∧
    lb_keys b = [1; 2] ∧ layer (lb_vals b) = mkLeaf [0; 0] [3; 1]%Z.
Proof.
  destruct layer_example_ok as (Hw1&Hw2&Hs1&Hs2).
  destruct (layer_push_merge_spec (SP := leaf8) 8 layer_example1 layer_example2 (Some (λ _, 0)) (λ k, negb (k =? 9))
    (zst_ok_pos _ _) Hw1 Hw2 Hs1 Hs2) as [_ (c1&c2&b&l&Hc1&Hc2&Hb&_)].
  exists c1, c2, b. split_and!; [exact Hc1 | exact Hc2 | exact Hb | |];
    vm_compute in Hc1, Hc2; injection Hc1 as <-; injection Hc2 as <-; vm_compute in Hb; injection Hb as <-; reflexivity.
Defined.
