(* ===== verification/Fueled.v ===== *)
(** Merging an inner layer in fuel-bounded steps (crates/dbsp/src/trace/layers/layer.rs:
    [push_merge_fueled] and its filtering variants).

    A fueled merge consumes a prefix of each input and appends what the merge of these
    prefixes emits; it may be suspended and resumed.  The effort is the number of input
    values consumed. *)
From Stdlib Require Import Sorting.Sorted.
From S2P Require Import Prelude Sort Quicksort Search LeanVec Consolidation Trie Leaf Layer LayerSpec.
#[local] Open Scope nat_scope.

Section fueled.
Context `{Ord K} `{SP : TrieSpec L B C V LK E J R} (sk : nat) (Hsk : zst_ok K sk).
Implicit Types (l : Layer K L) (b : LayerBuilder K B) (k : K) (p : list E) (es ls : list (K * list E)).
Implicit Types (m : option (LK → LK)) (g : K → bool).

(** The number of values of the keys from [lo] up to [hi]. *)
Definition values ls (lo hi : nat) : nat := total (sub ls.*2 lo hi).

Lemma values_split ls lo mid hi : lo ≤ mid ≤ hi → values ls lo hi = values ls lo mid + values ls mid hi.
Proof. intros Hm. unfold values. by rewrite (sub_split _ lo mid hi Hm), total_app. Qed.

Lemma values_nil ls lo : values ls lo lo = 0.
Proof. unfold values. by rewrite sub_nil. Qed.

Lemma values_offs ls lo hi : lo ≤ hi → total (take hi ls.*2) = total (take lo ls.*2) + values ls lo hi.
Proof. apply total_sub. Qed.

Section generic.
Context (pc : list E → option (list E)) (pm : list E → list E → option (list E)) (g : K → bool).

(** Copying with fuel: it stops before the end only when the values copied reach the fuel. *)
Definition fcopy_spec (copy : LayerBuilder.copy_fn (K:=K) (L:=L) (B:=B)) : Prop :=
  ∀ es b ls l lo hi fuel, brepr es b → lrepr ls l → lo < hi → hi ≤ length ls → (0 < fuel)%Z →
  ∃ b' hi', copy b l lo hi fuel = Some (b', hi') ∧ lo < hi' ≤ hi ∧
    brepr (es ++ keyed_copy pc (keep g (sub ls lo hi'))) b' ∧
    (hi' = hi ∨ (fuel ≤ Z.of_nat (values ls lo hi'))%Z).

Context (ls1 : list (K * list E)) (t1 : Layer K L) (u1 : nat).
Context (ls2 : list (K * list E)) (t2 : Layer K L) (u2 : nat).

Lemma spent_ok (l1 l1' l2 l2' : nat) :
  lrepr ls1 t1 → lrepr ls2 t2 → l1 ≤ l1' ≤ length ls1 → l2 ≤ l2' ≤ length ls2 →
  LayerBuilder.spent t1 t2 l1' l2' (total (take l1 ls1.*2) + total (take l2 ls2.*2))
  = Some (Z.of_nat (values ls1 l1 l1' + values ls2 l2 l2')).
Proof.
  intros [_ Hr1] [_ Hr2] Hl1 Hl2. unfold LayerBuilder.spent.
  rewrite (repr_off _ _ _ _ _ Hr1), (repr_off _ _ _ _ _ Hr2) by lia. cbn [mbind option_bind].
  rewrite (values_offs ls1 l1 l1'), (values_offs ls2 l2 l2') by lia.
  rewrite (proj2 (Nat.leb_le _ _)) by lia. do 2 f_equal. lia.
Qed.

(** The state of a suspended merge: what was emitted and what is left make up the merge. *)
Definition suspended (es out : list (K * list E)) b (l1 l2 l1' l2' : nat) : Prop :=
  brepr (es ++ out) b ∧ l1 ≤ l1' ≤ u1 ∧ l2 ≤ l2' ≤ u2 ∧
  gmerge pc pm g (sub ls1 l1 u1) (sub ls2 l2 u2) = out ++ gmerge pc pm g (sub ls1 l1' u1) (sub ls2 l2' u2).

Lemma suspended_refl es b (l1 l2 : nat) :
  brepr es b → l1 ≤ u1 → l2 ≤ u2 → suspended es [] b l1 l2 l1 l2.
Proof. intros. split_and!; try lia; [by rewrite app_nil_r | done]. Qed.

Lemma suspended_trans es (out1 out2 : list (K * list E)) (b1 b2 : LayerBuilder K B)
    (l1 l2 m1 m2 n1 n2 : nat) :
  suspended es out1 b1 l1 l2 m1 m2 → suspended (es ++ out1) out2 b2 m1 m2 n1 n2 →
  suspended es (out1 ++ out2) b2 l1 l2 n1 n2.
Proof.
  intros (_&H1&H2&He1) (Hb&H3&H4&He2). split_and!; [by rewrite app_assoc | lia..|].
  by rewrite He1, He2, app_assoc.
Qed.

Lemma fueled_loop_ok step (fuel : Z) (s1 s2 : nat) gas es b (l1 l2 : nat) :
  step_ok pc pm g step ls1 t1 u1 ls2 t2 u2 → brepr es b → lrange ls1 t1 l1 u1 → lrange ls2 t2 l2 u2 →
  s1 ≤ l1 → s2 ≤ l2 → (u1 - l1) + (u2 - l2) < gas →
  ∃ b' (l1' l2' : nat) out,
    LayerBuilder.fueled_loop step
      (λ a1 a2, LayerBuilder.spent t1 t2 a1 a2 (total (take s1 ls1.*2) + total (take s2 ls2.*2)))
      gas b l1 u1 l2 u2 (Z.of_nat (values ls1 s1 l1 + values ls2 s2 l2)) fuel
    = Some (b', l1', l2', Z.of_nat (values ls1 s1 l1' + values ls2 s2 l2')) ∧
    suspended es out b' l1 l2 l1' l2' ∧
    (l1' = u1 ∨ l2' = u2 ∨ (fuel ≤ Z.of_nat (values ls1 s1 l1' + values ls2 s2 l2'))%Z) ∧
    (l1 < u1 → l2 < u2 → (Z.of_nat (values ls1 s1 l1 + values ls2 s2 l2) < fuel)%Z → l1 + l2 < l1' + l2').
Proof.
  intros Hstep. revert es b l1 l2.
  induction gas as [|gas IH]; intros es b l1 l2 Hb Hr1 Hr2 Hs1 Hs2 Hg; [lia|].
  cbn [LayerBuilder.fueled_loop]. pose proof Hr1 as (Hl1&Hle1&Hu1&_). pose proof Hr2 as (Hl2&Hle2&Hu2&_).
  destruct ((l1 <? u1) && (l2 <? u2) && (_ <? fuel)%Z) eqn:Eg.
  2: { exists b, l1, l2, []. split; [done|]. split; [by apply suspended_refl|].
       destruct (Nat.ltb_spec l1 u1); [|split; [left; lia | lia]].
       destruct (Nat.ltb_spec l2 u2); [|split; [right; left; lia | lia]].
       cbn in Eg. apply Z.ltb_ge in Eg. split; [by right; right | lia]. }
  bool_simpl. rewrite Nat.ltb_lt in *.
  destruct (Hstep es b l1 l2) as (b1&m1&m2&out&->&Hb1&Hm1&Hm2&Hp&Heq); [done..|]. cbn [mbind option_bind].
  rewrite (spent_ok s1 m1 s2 m2) by (done || lia). cbn [mbind option_bind].
  destruct (IH (es ++ out) b1 m1 m2) as (b'&l1'&l2'&out'&->&Hsus&Hend&_);
    [done | eapply lrange_suffix; [done | lia].. | lia | lia | lia |].
  exists b', l1', l2', (out ++ out'). split; [done|]. split.
  - eapply suspended_trans; [|exact Hsus]. split_and!; [done | lia..| done].
  - split; [done|]. intros. destruct Hsus as (_&?&?&_). lia.
Qed.

(** Copying what is left of one side, once the other is exhausted. *)
Lemma suspended_copy_l es b' (l1 l1' : nat) :
  l1 ≤ l1' ≤ u1 → brepr (es ++ keyed_copy pc (keep g (sub ls1 l1 l1'))) b' →
  suspended es (keyed_copy pc (keep g (sub ls1 l1 l1'))) b' l1 u2 l1' u2.
Proof.
  intros Hl Hb. split_and!; [done | lia..|]. unfold gmerge. rewrite sub_nil. cbn [keep List.filter].
  rewrite !keyed_merge_nil_r, (sub_split ls1 l1 l1' u1) by lia. by rewrite keep_app, keyed_copy_app.
Qed.

Lemma suspended_copy_r es b' (l2 l2' : nat) :
  l2 ≤ l2' ≤ u2 → brepr (es ++ keyed_copy pc (keep g (sub ls2 l2 l2'))) b' →
  suspended es (keyed_copy pc (keep g (sub ls2 l2 l2'))) b' u1 l2 u1 l2'.
Proof.
  intros Hl Hb. split_and!; [done | lia..|]. unfold gmerge. rewrite sub_nil. cbn [keep List.filter keyed_merge].
  rewrite (sub_split ls2 l2 l2' u2) by lia. by rewrite keep_app, keyed_copy_app.
Qed.
Lemma at_least_1000_ge fuel : (fuel ≤ LayerBuilder.at_least_1000 fuel)%Z.
Proof. unfold LayerBuilder.at_least_1000. destruct (Z.ltb_spec fuel 1000); lia. Qed.

Lemma copy_remaining_ok copy (fuel : Z) es b (l1 l2 : nat) :
  fcopy_spec copy → brepr es b → lrange ls1 t1 l1 u1 → lrange ls2 t2 l2 u2 →
  ∃ b' (l1' l2' : nat) out,
    LayerBuilder.copy_remaining copy b t1 l1 u1 t2 l2 u2 fuel = Some (b', l1', l2') ∧
    suspended es out b' l1 l2 l1' l2' ∧
    (l1 = u1 ∨ l2 = u2 →
     (l1' = u1 ∧ l2' = u2) ∨ (fuel ≤ Z.of_nat (values ls1 l1 l1' + values ls2 l2 l2'))%Z) ∧
    (l1 = u1 ∨ l2 = u2 → (0 < fuel)%Z → l1 < u1 ∨ l2 < u2 → l1 + l2 < l1' + l2').
Proof.
  intros Hc Hb (Hl1&Hle1&Hu1&_) (Hl2&Hle2&Hu2&_). unfold LayerBuilder.copy_remaining.
  destruct ((l1 =? u1) || (l2 =? u2)) eqn:Eo.
  2: { apply orb_false_iff in Eo as [?%Nat.eqb_neq ?%Nat.eqb_neq]. exists b, l1, l2, [].
       split_and!; [done | by apply suspended_refl | lia | lia]. }
  apply orb_true_iff in Eo. rewrite !Nat.eqb_eq in Eo.
  destruct (Z.ltb_spec 0 fuel) as [Hf|Hf].
  2: { exists b, l1, l2, []. split_and!; [done | by apply suspended_refl | lia | lia]. }
  pose proof (at_least_1000_ge fuel) as Hge.
  destruct (Nat.ltb_spec l1 u1) as [Hlt1|Hge1].
  - assert (l2 = u2) as -> by lia. rewrite Nat.ltb_irrefl.
    destruct (Hc es b ls1 t1 l1 u1 _ Hb Hl1 Hlt1 Hu1 (Z.lt_le_trans _ _ _ Hf Hge))
      as (b'&l1'&->&Hl1'&Hb'&Hend). cbn [mbind option_bind].
    do 4 eexists. split; [done|]. split; [by apply suspended_copy_l; [lia|]|]. rewrite values_nil. lia.
  - assert (l1 = u1) as -> by lia. cbn [mbind option_bind]. destruct (Nat.ltb_spec l2 u2) as [Hlt2|Hge2].
    + destruct (Hc es b ls2 t2 l2 u2 _ Hb Hl2 Hlt2 Hu2 (Z.lt_le_trans _ _ _ Hf Hge))
        as (b'&l2'&->&Hl2'&Hb'&Hend). cbn [mbind option_bind].
      do 4 eexists. split; [done|]. split; [by apply suspended_copy_r; [lia|]|]. rewrite values_nil. lia.
    + exists b, u1, l2, []. split_and!; [done | by apply suspended_refl | lia | lia].
Qed.

(** One call: it consumes a prefix of both inputs, charges the values consumed, completes
    the merge when fuel is left, and makes progress when there is fuel to start with. *)
Lemma fueled_merge_ok step copy (fuel : Z) es b (l1 l2 : nat) :
  step_ok pc pm g step ls1 t1 u1 ls2 t2 u2 → fcopy_spec copy →
  brepr es b → lrange ls1 t1 l1 u1 → lrange ls2 t2 l2 u2 →
  ∃ b' (l1' l2' : nat) fuel' out,
    LayerBuilder.fueled_merge step copy b t1 l1 u1 t2 l2 u2 fuel = Some (b', l1', l2', fuel') ∧
    suspended es out b' l1 l2 l1' l2' ∧
    (fuel' = fuel - Z.of_nat (values ls1 l1 l1' + values ls2 l2 l2'))%Z ∧
    ((0 < fuel')%Z → l1' = u1 ∧ l2' = u2) ∧
    ((0 < fuel)%Z → l1 < u1 ∨ l2 < u2 → l1 + l2 < l1' + l2').
Proof.
  intros Hstep Hc Hb Hr1 Hr2. pose proof Hr1 as (Hl1&Hle1&Hu1&_). pose proof Hr2 as (Hl2&Hle2&Hu2&_).
  unfold LayerBuilder.fueled_merge.
  rewrite (repr_off _ _ _ _ _ (proj2 Hl1)), (repr_off _ _ _ _ _ (proj2 Hl2)) by lia. cbn [mbind option_bind].
  destruct (fueled_loop_ok step fuel l1 l2 (S ((u1 - l1) + (u2 - l2))) es b l1 l2)
    as (b1&m1&m2&out1&Hloop&Hsus1&Hend&Hprog); [done.. | lia |].
  rewrite !values_nil in Hloop, Hprog. change (Z.of_nat (0 + 0)) with 0%Z in Hloop, Hprog. rewrite Hloop. clear Hloop.
  cbn [mbind option_bind]. pose proof Hsus1 as (Hb1&Hm1&Hm2&_).
  destruct (copy_remaining_ok copy (fuel - Z.of_nat (values ls1 l1 m1 + values ls2 l2 m2)) (es ++ out1) b1 m1 m2)
    as (b'&l1'&l2'&out2&->&Hsus2&Hend2&Hprog2); [done | done | by eapply lrange_suffix.. |].
  cbn [mbind option_bind]. pose proof Hsus2 as (_&Hl1'&Hl2'&_).
  rewrite (spent_ok l1 l1' l2 l2') by (done || lia). cbn [mbind option_bind].
  pose proof (values_split ls1 l1 m1 l1' ltac:(lia)). pose proof (values_split ls2 l2 m2 l2' ltac:(lia)).
  do 5 eexists. split; [done|]. split; [by eapply suspended_trans|]. split; [done|]. split.
  - intros Hf. destruct Hend as [Hm|[Hm|Hm]]; [| |lia]; (destruct Hend2 as [?|?]; [lia | lia | lia]).
  - intros Hf Hne. destruct (decide (l1 < u1 ∧ l2 < u2)) as [[? ?]|Hn]; [specialize (Hprog ltac:(lia) ltac:(lia)); lia|].
    assert (m1 = l1 ∧ m2 = l2 ∨ l1 + l2 < m1 + m2) as [[-> ->]|?] by lia; [|lia].
    rewrite !values_nil in Hprog2. apply Hprog2; lia.
Qed.

End generic.

(** ** The keys that the fuel pays for *)
Lemma affordable_keys_ok ls l lo hi (fuel : Z) :
  lrepr ls l → lo < hi → hi ≤ length ls → (0 ≤ fuel)%Z →
  ∃ n, LayerBuilder.affordable_keys l lo hi fuel = Some n ∧ 0 < n ∧ lo + n ≤ hi ∧
    (Z.of_nat (values ls lo (lo + n - 1)) ≤ fuel)%Z ∧
    (lo + n = hi ∨ (fuel < Z.of_nat (values ls lo (lo + n)))%Z).
Proof.
  intros [_ Hr] Hlt Hhi Hf. unfold LayerBuilder.affordable_keys.
  rewrite (repr_off _ _ _ _ lo Hr) by lia. cbn [mbind option_bind].
  assert (length (l_offs l) = S (length ls)) as Hlen
    by (destruct Hr as (_&->&_); rewrite offsets_length; by rewrite length_fmap).
  rewrite range_some by lia. cbn [mbind option_bind]. set (offs := sub (l_offs l) lo hi).
  set (f := λ offset, (Z.of_nat (offset - total (take lo ls.*2)) <=? fuel)%Z).
  assert (∀ i o, offs !! i = Some o → f o = (Z.of_nat (values ls lo (lo + i)) <=? fuel)%Z ∧ lo + i < hi) as Hoff.
  { intros i o Ho. unfold offs, sub in Ho. apply lookup_take_Some in Ho as [Ho Hi]. rewrite lookup_drop in Ho.
    rewrite (repr_off _ _ _ _ _ Hr) in Ho by lia. simplify_eq. unfold f.
    rewrite (values_offs ls lo (lo + i)) by lia. split; [do 2 f_equal; lia | lia]. }
  assert (length offs = hi - lo) as Hlo by (apply sub_length; lia).
  assert (stays_false f offs) as Hst.
  { intros i j x y Hij Hx Hy Hfy. destruct (Hoff _ _ Hx) as [-> _]. destruct (Hoff _ _ Hy) as [Hy' _].
    rewrite Hy' in Hfy. bool_simpl. apply Z.leb_le.
    rewrite (values_split ls lo (lo + i) (lo + j)) in Hfy by lia. lia. }
  unfold advance. rewrite (advance_raw_prefix _ _ _ Hst). exists (prefix_len f offs).
  pose proof (prefix_len_le f offs) as Hle. rewrite Hlo in Hle.
  assert (0 < prefix_len f offs) as Hpos.
  { destruct (lookup_lt_is_Some_2 offs 0 ltac:(lia)) as [o Ho]. destruct (Hoff _ _ Ho) as [Hfo _].
    destruct offs as [|o' offs']; [done|]. cbn in Ho. simplify_eq. cbn.
    rewrite Hfo, Nat.add_0_r, values_nil. rewrite (proj2 (Z.leb_le _ _)); cbn; lia. }
  split_and!; [done | done | lia | |].
  - destruct (lookup_lt_is_Some_2 offs (prefix_len f offs - 1) ltac:(lia)) as [o Ho].
    destruct (Hoff _ _ Ho) as [Hfo _]. rewrite (prefix_len_sat f offs (prefix_len f offs - 1) o ltac:(lia) Ho) in Hfo.
    symmetry in Hfo. bool_simpl. by replace (lo + prefix_len f offs - 1) with (lo + (prefix_len f offs - 1)) by lia.
  - destruct (decide (lo + prefix_len f offs = hi)) as [?|Hne]; [by left | right].
    destruct (lookup_lt_is_Some_2 offs (prefix_len f offs) ltac:(lia)) as [o Ho].
    destruct (Hoff _ _ Ho) as [Hfo _]. rewrite (prefix_len_stop f offs o Ho) in Hfo.
    symmetry in Hfo. by bool_simpl.
Qed.

Lemma fcopy_plain m :
  fcopy_spec (pcopy m) (λ _, true) (λ b l lo hi fuel, LayerBuilder.copy_range_fueled b l lo hi m fuel).
Proof.
  intros es b ls l lo hi fuel Hb Hl Hlt Hhi Hf. unfold LayerBuilder.copy_range_fueled.
  rewrite (range_ok_true ls) by done.
  destruct (affordable_keys_ok ls l lo hi fuel) as (n&->&Hn&Hle&_&Hend); [done..|lia|]. cbn [mbind option_bind].
  destruct (copy_keys_spec es b ls l lo (lo + n) m) as (b'&->&Hb'); [done | done | lia | lia |].
  exists b', (lo + n). rewrite keep_all. split_and!; [done | lia | lia | done | lia].
Qed.

Lemma fcopy_retain g m :
  fcopy_spec (pcopy m) g (λ b l lo hi fuel, LayerBuilder.copy_range_retain_keys_fueled b l lo hi g m fuel).
Proof.
  intros es b ls l lo hi fuel Hb Hl Hlt Hhi Hf. unfold LayerBuilder.copy_range_retain_keys_fueled.
  rewrite (range_ok_true ls) by done.
  destruct (affordable_keys_ok ls l lo hi fuel) as (n&->&Hn&Hle&_&Hend); [done..|lia|]. cbn [mbind option_bind].
  destruct (copy_range_retain_spec es b ls l lo (lo + n) g m) as (b'&->&Hb'); [done | done | lia | lia |].
  exists b', (lo + n). split_and!; [done | lia | lia | done | lia].
Qed.

(** ** Filtering values *)
Section retain_values.
Context (vf : V → bool) (m : option (LK → LK)) (Hm : retain_map_ok m).
Definition vkeep (p : list E) : list E := List.filter (λ e, vf (ekey e)) p.
Definition vcopy p : option (list E) := nonempty (a_copy m (vkeep p)).
Definition vmerge p (q : list E) : option (list E) := nonempty (a_merge m (vkeep p) (vkeep q)).

Lemma retain_values_loop_ok n i es b ls l g (start : nat) (fuel : Z) :
  brepr es b → lrepr ls l → i + n ≤ length ls → start ≤ i →
  ∃ b' hi', LayerBuilder.retain_values_loop n i b l g vf m (total (take start ls.*2)) fuel = Some (b', hi') ∧
    i ≤ hi' ≤ i + n ∧ (0 < n → i < hi') ∧
    brepr (es ++ keyed_copy vcopy (keep g (sub ls i hi'))) b' ∧
    (hi' = i + n ∨ (fuel ≤ Z.of_nat (values ls start hi'))%Z).
Proof.
  intros Hb Hl. revert i es b Hb. induction n as [|n IH]; intros i es b Hb Hn Hs.
  { exists b, i. cbn. rewrite sub_nil, app_nil_r. split_and!; [done | lia | lia | lia | done | lia]. }
  destruct (lookup_lt_is_Some_2 ls i ltac:(lia)) as [[k p] Hi]. cbn [LayerBuilder.retain_values_loop].
  pose proof Hl as [Hwl Hr]. rewrite (repr_key _ _ _ _ _ _ _ Hr Hi). cbn [mbind option_bind].
  assert (∀ b1 hi', i < hi' → brepr (es ++ (if g k then emit k (vcopy p) else [])
      ++ keyed_copy vcopy (keep g (sub ls (i + 1) hi'))) b1 →
    brepr (es ++ keyed_copy vcopy (keep g (sub ls i hi'))) b1) as Hglue.
  { intros b1 hi' Hlt Hb1. rewrite (sub_cons _ _ _ _ Hi Hlt). unfold keep at 1. cbn [List.filter fst].
    rewrite Nat.add_1_r in Hb1. by destruct (g k). }
  destruct (g k) eqn:Eg.
  2: { destruct (IH (i + 1) es b Hb) as (b'&hi'&->&Hh&_&Hb'&Hend); [lia | lia |].
       exists b', hi'. split_and!; [done | lia | lia | lia | apply Hglue; [lia | done] |].
       by replace (i + S n) with (i + 1 + n) by lia. }
  destruct (boundary_ok (lb_vals b) (proj1 Hb)) as (vals&->&Hwv&Hv). cbn [mbind option_bind].
  destruct (repr_payload _ _ _ _ _ _ _ Hr Hi) as (->&->&Hlt&Hle&Hsub&Hp). cbn [mbind option_bind].
  destruct (cursor_ok (l_vals l) _ _ Hwl (Nat.lt_le_incl _ _ Hlt) Hle) as [c Hc]. rewrite Hc.
  cbn [mbind option_bind]. rewrite (position_ok _ _ _ _ Hc Hlt), (proj2 (Z.ltb_lt _ _)), Nat2Z.id by lia.
  destruct (copy_retain_ok vals (l_vals l) _ _ vf m Hwv Hwl Hlt Hle Hm) as (vals'&->&Hw'&He').
  cbn [mbind option_bind]. rewrite Hv, Hsub in He'.
  pose proof (brepr_push es b k vals' _ _ Hb Hw' He' eq_refl) as Hb1. unfold push_if in Hb1. fold (vkeep p) in Hb1.
  fold (vcopy p) in Hb1. set (b1 := if b_keys (lb_vals b) <? b_keys vals' then _ else _) in *.
  rewrite (values_offs ls start (i + 1)), (proj2 (Nat.leb_le _ _)) by lia.
  replace (_ + values ls start (i + 1) - _) with (values ls start (i + 1)) by lia.
  destruct (Z.leb_spec fuel (Z.of_nat (values ls start (i + 1)))) as [Hfu|Hfu].
  - exists b1, (i + 1). split_and!; [done | lia | lia | lia | | by right].
    apply Hglue; [lia|]. by rewrite sub_nil, app_nil_r.
  - destruct (IH (i + 1) _ b1 Hb1) as (b'&hi'&->&Hh&_&Hb'&Hend); [lia | lia |].
    exists b', hi'. split_and!; [done | lia | lia | lia | |].
    + apply Hglue; [lia|]. by rewrite app_assoc.
    + by replace (i + S n) with (i + 1 + n) by lia.
Qed.

Lemma fcopy_values g :
  fcopy_spec vcopy g (λ b l lo hi fuel, LayerBuilder.copy_range_retain_values_fueled b l lo hi g vf m fuel).
Proof.
  intros es b ls l lo hi fuel Hb Hl Hlt Hhi Hf. unfold LayerBuilder.copy_range_retain_values_fueled.
  rewrite (range_ok_true ls) by done. rewrite (repr_off _ _ _ _ lo (proj2 Hl)) by lia. cbn [mbind option_bind].
  destruct (retain_values_loop_ok (hi - lo) lo es b ls l g lo fuel) as (b'&hi'&->&Hh&Hpos&Hb'&Hend);
    [done | done | lia | lia |].
  exists b', hi'. split_and!; [done | lia | lia | done | lia].
Qed.

Definition both_values g b k (t1 : Layer K L) (i1 : nat) (t2 : Layer K L) (i2 : nat) :
  option (LayerBuilder K B) :=
  '(vals, lower) ← Trie.boundary (lb_vals b);
  lo1 ← l_offs t1 !! i1;
  hi1 ← l_offs t1 !! (i1 + 1);
  cursor1 ← Trie.cursor_from (l_vals t1) lo1 hi1;
  lo2 ← l_offs t2 !! i2;
  hi2 ← l_offs t2 !! (i2 + 1);
  cursor2 ← Trie.cursor_from (l_vals t2) lo2 hi2;
  if g k then
    vals ← Trie.push_merge_retain_keys vals cursor1 cursor2 vf m;
    Some (if lower <? b_keys vals
          then LayerBuilder.push_key (LayerBuilder.with_vals b vals) k (b_keys vals)
          else LayerBuilder.with_vals b vals)
  else Some (LayerBuilder.with_vals b vals).

Lemma both_values_ok g : both_spec vmerge g (both_values g).
Proof.
  intros es b k ls1 t1 i1 p1 ls2 t2 i2 p2 Hb [Hw1 Hl1] Hi1 Hp1 [Hw2 Hl2] Hi2 Hp2. unfold both_values.
  destruct (boundary_ok (lb_vals b) (proj1 Hb)) as (vals&->&Hwv&Hv). cbn [mbind option_bind].
  destruct (repr_payload _ _ _ _ _ _ _ Hl1 Hi1) as (->&->&Hlt1&Hle1&Hsub1&_).
  destruct (repr_payload _ _ _ _ _ _ _ Hl2 Hi2) as (->&->&Hlt2&Hle2&Hsub2&_).
  cbn [mbind option_bind]. rewrite <- Hsub1 in Hp1. rewrite <- Hsub2 in Hp2.
  destruct (merge_retain_ok vals (l_vals t1) _ _ (l_vals t2) _ _ vf m Hwv Hw1 Hw2 (Nat.lt_le_incl _ _ Hlt1) Hle1
    (Nat.lt_le_incl _ _ Hlt2) Hle2 Hp1 Hp2 Hm) as (c1&c2&vals'&->&->&Hpush&Hw'&He').
  cbn [mbind option_bind]. destruct (g k).
  - rewrite Hpush. cbn [mbind option_bind]. rewrite Hv, Hsub1, Hsub2 in He'.
    eexists. split; [done|]. exact (brepr_push es b k vals' _ _ Hb Hw' He' eq_refl).
  - eexists. split; [done|]. rewrite app_nil_r. by apply with_vals_repr.
Qed.

Lemma merge_step_values_shape b (t1 : Layer K L) (l1 u1 : nat) (t2 : Layer K L) (l2 u2 : nat) g fuel :
  LayerBuilder.merge_step_retain_values_fueled sk b t1 l1 u1 t2 l2 u2 g vf m fuel =
  gen_step sk (λ b l lo hi, LayerBuilder.copy_range_retain_values_fueled b l lo hi g vf m fuel) (both_values g)
    b t1 l1 u1 t2 l2 u2.
Proof.
  unfold LayerBuilder.merge_step_retain_values_fueled, gen_step, both_values.
  destruct (l_keys t1 !! l1) as [k1|]; [|done]. destruct (l_keys t2 !! l2) as [k2|]; [|done].
  cbn [mbind option_bind]. destruct (cmp k1 k2); [|done | done].
  destruct (Trie.boundary (lb_vals b)) as [[v n]|]; [|done]. cbn [mbind option_bind].
  destruct (l_offs t1 !! l1) as [?|]; [|done]. destruct (l_offs t1 !! (l1 + 1)) as [?|]; [|done].
  cbn [mbind option_bind]. destruct (Trie.cursor_from (l_vals t1) _ _) as [?|]; [|done]. cbn [mbind option_bind].
  destruct (l_offs t2 !! l2) as [?|]; [|done]. destruct (l_offs t2 !! (l2 + 1)) as [?|]; [|done].
  cbn [mbind option_bind]. by destruct (Trie.cursor_from (l_vals t2) _ _) as [?|].
Qed.

Lemma merge_step_values_ok g fuel ls1 (t1 : Layer K L) (u1 : nat) ls2 (t2 : Layer K L) (u2 : nat) :
  (0 < fuel)%Z →
  step_ok vcopy vmerge g
    (λ b (l1 l2 : nat), LayerBuilder.merge_step_retain_values_fueled sk b t1 l1 u1 t2 l2 u2 g vf m fuel)
    ls1 t1 u1 ls2 t2 u2.
Proof.
  intros Hf. eapply step_ok_ext; [intros; apply merge_step_values_shape|].
  apply gen_step_ok; [done | | apply both_values_ok]. intros es b ls l lo hi Hb Hl Hlt Hhi.
  destruct (fcopy_values g es b ls l lo hi fuel Hb Hl Hlt Hhi Hf) as (b'&hi'&?&?&?&_). by exists b', hi'.
Qed.
End retain_values.

(** ** Suspending and resuming *)
(** Successive calls, each with fuel of its own. *)
Fixpoint run_fueled (call : LayerBuilder K B → nat → nat → Z → option (LayerBuilder K B * nat * nat * Z))
    (fuels : list Z) b (lower1 lower2 : nat) : option (LayerBuilder K B * nat * nat) :=
  match fuels with
  | [] => Some (b, lower1, lower2)
  | fuel :: fuels =>
    '(b, lower1, lower2, _) ← call b lower1 lower2 fuel;
    run_fueled call fuels b lower1 lower2
  end.

Lemma run_fueled_ok pc pm g step copy ls1 (t1 : Layer K L) (u1 : nat) ls2 (t2 : Layer K L) (u2 : nat)
    fuels es b (l1 l2 : nat) :
  step_ok pc pm g step ls1 t1 u1 ls2 t2 u2 → fcopy_spec pc g copy →
  brepr es b → lrange ls1 t1 l1 u1 → lrange ls2 t2 l2 u2 →
  Forall (λ fuel, 0 < fuel)%Z fuels → (u1 - l1) + (u2 - l2) ≤ length fuels →
  ∃ b', run_fueled (λ b (l1 l2 : nat) fuel, LayerBuilder.fueled_merge step copy b t1 l1 u1 t2 l2 u2 fuel)
          fuels b l1 l2 = Some (b', u1, u2) ∧
    brepr (es ++ gmerge pc pm g (sub ls1 l1 u1) (sub ls2 l2 u2)) b'.
Proof.
  intros Hstep Hcopy Hb Hr1 Hr2 Hf. revert es b l1 l2 Hb Hr1 Hr2.
  induction Hf as [|fuel fuels Hpos _ IH]; intros es b l1 l2 Hb Hr1 Hr2 Hlen; cbn [run_fueled length] in *.
  - pose proof Hr1 as (_&?&_). pose proof Hr2 as (_&?&_). assert (l1 = u1) as -> by lia.
    assert (l2 = u2) as -> by lia. exists b. split; [done|]. unfold gmerge. rewrite !sub_nil. by rewrite app_nil_r.
  - destruct (fueled_merge_ok pc pm g ls1 t1 u1 ls2 t2 u2 step copy fuel es b l1 l2)
      as (b1&m1&m2&fuel'&out&->&Hsus&_&_&Hprog); [done..|]. cbn [mbind option_bind].
    destruct Hsus as (Hb1&Hm1&Hm2&->). rewrite app_assoc.
    apply IH; [done | by eapply lrange_suffix.. |].
    destruct (decide (l1 < u1 ∨ l2 < u2)) as [Hne|]; [specialize (Hprog Hpos Hne)|]; lia.
Qed.
End fueled.

Section properties.
Context `{Ord K} `{SP : TrieSpec L B C V LK E J R} (sk : nat).
Implicit Types (l : Layer K L) (b : LayerBuilder K B) (m : option (LK → LK)) (g : K → bool).

Lemma layer_lrange l lo : layer_wf l → layer_sorted (layer_ents l) → lo ≤ Layer.keys l →
  lrange (layer_ents l) l lo (Layer.keys l).
Proof.
  intros Hw Hs Hlo. pose proof (layer_ents_length l Hw) as Hlen. unfold Layer.keys in *.
  apply (lrange_suffix _ l 0); [|lia]. split_and!; [by apply layer_wf_repr | lia | lia |].
  by rewrite <- Hlen, sub_all.
Qed.

(** One call of [push_merge_fueled], from any state of a merge: it does not panic,
    consumes a prefix of the keys of each input and appends exactly what the merge of the
    remaining inputs begins with; the fuel left is the fuel less the number of input values
    consumed, fuel left over means that the merge is complete, and a call with fuel on
    an incomplete merge makes progress. *)
Theorem push_merge_fueled_spec (l1 l2 : Layer K L) b (lo1 lo2 : nat) m (fuel : Z) :
  zst_ok K sk → layer_wf l1 → layer_wf l2 → layer_sorted (layer_ents l1) → layer_sorted (layer_ents l2) →
  lb_wf b → lo1 ≤ Layer.keys l1 → lo2 ≤ Layer.keys l2 →
  let rest (i1 i2 : nat) :=
    layer_merge m (sub (layer_ents l1) i1 (Layer.keys l1)) (sub (layer_ents l2) i2 (Layer.keys l2)) in
  ∃ b' lo1' lo2' fuel' out,
    LayerBuilder.push_merge_fueled sk b l1 lo1 (Layer.keys l1) l2 lo2 (Layer.keys l2) m fuel
      = Some (b', lo1', lo2', fuel') ∧
    lb_wf b' ∧ lb_ents b' = lb_ents b ++ out ∧ rest lo1 lo2 = out ++ rest lo1' lo2' ∧
    lo1 ≤ lo1' ≤ Layer.keys l1 ∧ lo2 ≤ lo2' ≤ Layer.keys l2 ∧
    (fuel' = fuel - Z.of_nat (values (layer_ents l1) lo1 lo1' + values (layer_ents l2) lo2 lo2'))%Z ∧
    ((0 < fuel')%Z → lo1' = Layer.keys l1 ∧ lo2' = Layer.keys l2) ∧
    ((0 < fuel)%Z → lo1 < Layer.keys l1 ∨ lo2 < Layer.keys l2 → lo1 + lo2 < lo1' + lo2').
Proof.
  intros Hsk Hw1 Hw2 Hs1 Hs2 Hb%lb_wf_repr Hlo1 Hlo2 rest.
  destruct (fueled_merge_ok _ _ _ _ l1 (Layer.keys l1) _ l2 (Layer.keys l2) _ _ fuel _ b lo1 lo2
    (merge_step_ok sk Hsk m _ _ _ _ _ _) (fcopy_plain m) Hb
    (layer_lrange l1 lo1 Hw1 Hs1 Hlo1) (layer_lrange l2 lo2 Hw2 Hs2 Hlo2))
    as (b'&lo1'&lo2'&fuel'&out&Hf&(Hb'&H1&H2&Heq)&Hfuel&Hend&Hprog).
  apply brepr_wf in Hb' as [Hwb Heb]. exists b', lo1', lo2', fuel', out.
  unfold gmerge in Heq. rewrite !keep_all in Heq. split_and!; done || lia.
Qed.

(** C15. A merge in fuel-bounded calls may be suspended and resumed at will: any sequence of
    calls with positive fuel, as long as it has as many calls as the inputs have
    keys, completes, and builds the same entries as one call of [push_merge]. *)
Theorem push_merge_fueled_resume (l1 l2 : Layer K L) b m (fuels : list Z) :
  zst_ok K sk → layer_wf l1 → layer_wf l2 → layer_sorted (layer_ents l1) → layer_sorted (layer_ents l2) →
  lb_wf b → Forall (λ fuel, 0 < fuel)%Z fuels → Layer.keys l1 + Layer.keys l2 ≤ length fuels →
  ∃ b1 b2 c1 c2,
    run_fueled (λ b i1 i2 fuel, LayerBuilder.push_merge_fueled sk b l1 i1 (Layer.keys l1) l2 i2 (Layer.keys l2) m fuel)
      fuels b 0 0 = Some (b1, Layer.keys l1, Layer.keys l2) ∧
    Layer.cursor_from l1 0 (Layer.keys l1) = Some c1 ∧ Layer.cursor_from l2 0 (Layer.keys l2) = Some c2 ∧
    LayerBuilder.push_merge sk b c1 c2 m = Some b2 ∧ lb_wf b1 ∧ lb_wf b2 ∧ lb_ents b1 = lb_ents b2.
Proof.
  intros Hsk Hw1 Hw2 Hs1 Hs2 Hb Hf Hlen.
  destruct (run_fueled_ok _ _ _ _ _ _ l1 (Layer.keys l1) _ l2 (Layer.keys l2) fuels _ b 0 0
    (merge_step_ok sk Hsk m _ _ _ _ _ _) (fcopy_plain m) (lb_wf_repr b Hb)
    (layer_lrange l1 0 Hw1 Hs1 (Nat.le_0_l _)) (layer_lrange l2 0 Hw2 Hs2 (Nat.le_0_l _)) Hf)
    as (b1&Hrun&Hb1); [lia|].
  apply brepr_wf in Hb1 as [Hwb1 He1].
  pose proof (layer_ents_length l1 Hw1) as Hn1. pose proof (layer_ents_length l2 Hw2) as Hn2.
  fold (Layer.keys l1) in Hn1. fold (Layer.keys l2) in Hn2.
  destruct (merge_ok (TrieSpec := layer_spec sk Hsk) b l1 0 (Layer.keys l1) l2 0 (Layer.keys l2) m Hb Hw1 Hw2)
    as (c1&c2&b2&Hc1&Hc2&Hp&Hwb2&He2); cbn [ents asorted layer_spec]; [lia.. | | |].
  { by rewrite <- Hn1, sub_all. } { by rewrite <- Hn2, sub_all. }
  exists b1, b2, c1, c2. split_and!; [exact Hrun | exact Hc1 | exact Hc2 | exact Hp | done | exact Hwb2 |].
  unfold gmerge in He1. rewrite !keep_all in He1. rewrite He1. symmetry. exact He2.
Qed.

(** The entries whose key passes [g], with the values that pass [vf]. *)
Definition retain_values g (vf : V → bool) l : list (K * list E) :=
  prod_map id (vkeep vf) <$> keep g (layer_ents l).

Lemma retain_values_sorted g vf l : layer_sorted (layer_ents l) →
  keys_sorted (retain_values g vf l) ∧ Forall asorted (retain_values g vf l).*2.
Proof.
  intros Hs%(layer_sorted_filter (λ e, g e.1)). pose proof (payloads_sorted _ Hs) as Hp. destruct Hs as [Hs _].
  unfold retain_values, keys_sorted. rewrite <- !list_fmap_compose. split.
  - by rewrite (list_fmap_ext _ fst) by (by intros ? [] ?).
  - rewrite Forall_fmap in Hp |- *. eapply Forall_impl; [exact Hp|]. intros [k p] Hp'. by apply asorted_filter.
Qed.

(** C35. Merging with filters on keys and values, in fuel-bounded calls: any sequence of
    calls with positive fuel that is long enough completes, and the finished layer
    denotes the sum of the tuples that pass both filters, under the mapping,
    consolidated at every level. *)
Theorem push_merge_retain_values_fueled_spec (l1 l2 : Layer K L) m g (vf : V → bool) (fuels : list Z) :
  zst_ok K sk → layer_wf l1 → layer_wf l2 → layer_sorted (layer_ents l1) → layer_sorted (layer_ents l2) →
  retain_map_ok (TrieSpec := SP) m → Forall (λ fuel, 0 < fuel)%Z fuels → Layer.keys l1 + Layer.keys l2 ≤ length fuels →
  let img := match m with Some f => layer_imap f | None => id end in
  let kept l := retain_values g vf l ≫= layer_tups (SP := SP) in
  ∃ b l,
    run_fueled (λ b i1 i2 fuel, LayerBuilder.push_merge_retain_values_fueled sk b l1 i1 (Layer.keys l1)
                                  l2 i2 (Layer.keys l2) g vf m fuel)
      fuels (LayerBuilder.with_capacity l1 l2) 0 0 = Some (b, Layer.keys l1, Layer.keys l2) ∧
    LayerBuilder.done b = Some l ∧ layer_wf l ∧ layer_sorted (layer_ents l) ∧
    consolidated (remap img (kept l1 ++ kept l2)) (layer_denote l).
Proof.
  intros Hsk Hw1 Hw2 Hs1 Hs2 Hm Hf Hlen img kept.
  destruct (capacity_ok (TrieSpec := layer_spec sk Hsk) l1 l2) as [Hb Hbe].
  pose proof (lb_wf_repr _ Hb) as Hbr. change (lb_ents (LayerBuilder.with_capacity l1 l2) = []) in Hbe.
  change (brepr (lb_ents (LayerBuilder.with_capacity l1 l2)) (LayerBuilder.with_capacity l1 l2)) in Hbr.
  rewrite Hbe in Hbr.
  destruct (run_fueled_ok _ _ _ _ _ _ l1 (Layer.keys l1) _ l2 (Layer.keys l2) fuels _ _ 0 0
    (merge_step_values_ok sk Hsk vf m Hm g USIZE_MAX _ l1 _ _ l2 _ eq_refl) (fcopy_values vf m Hm g) Hbr
    (layer_lrange l1 0 Hw1 Hs1 (Nat.le_0_l _)) (layer_lrange l2 0 Hw2 Hs2 (Nat.le_0_l _)) Hf)
    as (b&Hrun&Hb1); [lia|].
  pose proof (layer_ents_length l1 Hw1) as Hn1. pose proof (layer_ents_length l2 Hw2) as Hn2.
  unfold Layer.keys in Hb1. rewrite <- Hn1, <- Hn2, !sub_all in Hb1. cbn [app] in Hb1.
  assert (gmerge (vcopy vf m) (vmerge vf m) g (layer_ents l1) (layer_ents l2)
    = layer_merge m (retain_values g vf l1) (retain_values g vf l2)) as Hg
    by exact (keyed_merge_map (pcopy m) (pmerge m) (vkeep vf) (keep g (layer_ents l1)) (keep g (layer_ents l2))).
  rewrite Hg in Hb1. destruct (lb_done_ok _ b Hb1) as (l&Hd&[Hwl Hel]%lrepr_wf).
  destruct (retain_values_sorted g vf l1 Hs1) as [Hk1 Hp1]. destruct (retain_values_sorted g vf l2 Hs2) as [Hk2 Hp2].
  assert (layer_sorted (layer_ents l)) as Hsl by (rewrite Hel; by apply layer_merge_payloads).
  exists b, l. split_and!; [exact Hrun | done..|]. split; [by apply layer_sorted_canonical|].
  intros i. unfold layer_denote. rewrite Hel. by apply layer_merge_wt.
Qed.

(** [copy_range_fueled] copies at least one key, at most [fuel] values plus the values
    of one extra key, and the whole range when the fuel covers its values. *)
Theorem copy_range_fueled_spec l b (lo hi : nat) m (fuel : Z) :
  layer_wf l → lb_wf b → lo < hi → hi ≤ Layer.keys l → (0 ≤ fuel)%Z →
  ∃ b' hi', LayerBuilder.copy_range_fueled b l lo hi m fuel = Some (b', hi') ∧ lo < hi' ≤ hi ∧ lb_wf b' ∧
    lb_ents b' = lb_ents b ++ layer_copy m (sub (layer_ents l) lo hi') ∧
    (Z.of_nat (values (layer_ents l) lo (hi' - 1)) ≤ fuel)%Z ∧
    ((Z.of_nat (values (layer_ents l) lo hi) ≤ fuel)%Z → hi' = hi).
Proof.
  intros Hw Hb%lb_wf_repr Hlt Hhi Hf. pose proof (layer_wf_repr l Hw) as Hl.
  unfold Layer.keys in Hhi. rewrite <- (layer_ents_length l Hw) in Hhi.
  unfold LayerBuilder.copy_range_fueled. rewrite (range_ok_true (layer_ents l)) by done.
  destruct (affordable_keys_ok (layer_ents l) l lo hi fuel) as (n&->&Hn&Hle&Hmost&Hend); [done..|].
  cbn [mbind option_bind].
  destruct (copy_keys_spec _ b _ l lo (lo + n) m Hb Hl) as (b'&->&[Hwb Heb]%brepr_wf); [lia | lia |].
  exists b', (lo + n). rewrite layer_copy_keyed by (by eapply lrepr_nonempties).
  split_and!; [done | lia | lia | done | done | done |]. intros Hall. destruct Hend as [?|Hend]; [done|].
  rewrite (values_split _ lo (lo + n) hi) in Hall by lia. lia.
Qed.
End properties.

(** *** Concrete merges *)
Lemma push_merge_fueled_witness :
  ∃ b lo1 lo2 fuel,
    LayerBuilder.push_merge_fueled (H0 := leaf_ops 8 8) 8
      (LayerBuilder.with_capacity (H0 := leaf_ops 8 8) layer_example1 layer_example2)
      layer_example1 0 3 layer_example2 0 3 None 3 = Some (b, lo1, lo2, fuel) ∧
    (lo1, lo2, fuel) = (1, 1, 0%Z) ∧ lb_keys b = [1; 2].
Proof.
  destruct layer_example_ok as (Hw1&Hw2&Hs1&Hs2).
  destruct (capacity_ok (TrieSpec := layer_spec (SP := leaf8) 8 (zst_ok_pos _ _)) layer_example1 layer_example2)
    as [Hb _].
  destruct (push_merge_fueled_spec (SP := leaf8) 8 layer_example1 layer_example2 _ 0 0 None 3 (zst_ok_pos _ _)
    Hw1 Hw2 Hs1 Hs2 Hb ltac:(lia) ltac:(lia)) as (b&lo1&lo2&fuel&out&Hf&_).
  exists b, lo1, lo2, fuel. split; [exact Hf|]. vm_compute in Hf. injection Hf as <- <- <- <-. split; reflexivity.
Defined.

Lemma push_merge_fueled_resume_witness :
  ∃ b, run_fueled (λ b i1 i2 fuel, LayerBuilder.push_merge_fueled (H0 := leaf_ops 8 8) 8 b
                     layer_example1 i1 3 layer_example2 i2 3 None fuel)
         [3; 1; 1; 1; 1; 1]%Z (LayerBuilder.with_capacity (H0 := leaf_ops 8 8) layer_example1 layer_example2) 0 0
       = Some (b, 3, 3) ∧ lb_keys b = [1; 2; 9] ∧ layer (lb_vals b) = mkLeaf [10; 20; 6; 8; 9] [1; 2; 1; 5; 6]%Z.
Proof.
  destruct layer_example_ok as (Hw1&Hw2&Hs1&Hs2).
  destruct (capacity_ok (TrieSpec := layer_spec (SP := leaf8) 8 (zst_ok_pos _ _)) layer_example1 layer_example2)
    as [Hb _].
  destruct (push_merge_fueled_resume (SP := leaf8) 8 layer_example1 layer_example2 _ None [3; 1; 1; 1; 1; 1]%Z
    (zst_ok_pos _ _) Hw1 Hw2 Hs1 Hs2 Hb ltac:(repeat constructor) ltac:(cbn; lia)) as (b1&b2&c1&c2&Hrun&_).
  exists b1. split; [exact Hrun|]. vm_compute in Hrun. injection Hrun as <-. split; reflexivity.
Defined.

Lemma push_merge_retain_values_fueled_witness :
  ∃ b, run_fueled (λ b i1 i2 fuel, LayerBuilder.push_merge_retain_values_fueled (H0 := leaf_ops 8 8) 8 b
                     layer_example1 i1 3 layer_example2 i2 3 (λ k, negb (k =? 2)) (λ v, v <? 10) None fuel)
         [1; 1; 1; 1; 1; 1]%Z (LayerBuilder.with_capacity (H0 := leaf_ops 8 8) layer_example1 layer_example2) 0 0
       = Some (b, 3, 3) ∧ lb_keys b = [9] ∧ layer (lb_vals b) = mkLeaf [8; 9] [5; 6]%Z.
Proof.
  destruct layer_example_ok as (Hw1&Hw2&Hs1&Hs2).
  destruct (push_merge_retain_values_fueled_spec (SP := leaf8) 8 layer_example1 layer_example2 None
    (λ k, negb (k =? 2)) (λ v, v <? 10) [1; 1; 1; 1; 1; 1]%Z
    (zst_ok_pos _ _) Hw1 Hw2 Hs1 Hs2 eq_refl ltac:(repeat constructor) ltac:(cbn; lia)) as (b&l&Hrun&_).
  exists b. split; [exact Hrun|]. vm_compute in Hrun. injection Hrun as <-. split; reflexivity.
Defined.

Lemma copy_range_fueled_witness :
  ∃ b, LayerBuilder.copy_range_fueled (H0 := leaf_ops 8 8)
         (LayerBuilder.with_capacity (H0 := leaf_ops 8 8) layer_example1 layer_example2) layer_example1 0 3 None 2
       = Some (b, 2) ∧ lb_keys b = [1; 4].
Proof.
  destruct layer_example_ok as (Hw1&Hw2&Hs1&Hs2).
  destruct (capacity_ok (TrieSpec := layer_spec (SP := leaf8) 8 (zst_ok_pos _ _)) layer_example1 layer_example2)
    as [Hb _].
  destruct (copy_range_fueled_spec (SP := leaf8) layer_example1 _ 0 3 None 2 Hw1 Hb ltac:(lia) ltac:(cbn; lia) ltac:(lia))
    as (b&hi&Hc&_).
  exists b. vm_compute in Hc. injection Hc as <- <-. split; reflexivity.
Defined.

(** Keys 0 to [n - 1], each with the value 0. *)
Definition singletons (n : nat) : Layer nat (Leaf nat Z) :=
  mkLayer (seq 0 n) (seq 0 (S n)) (mkLeaf (replicate n 0) (replicate n 1%Z)).
Definition single_key (k : nat) : Layer nat (Leaf nat Z) := mkLayer [k] [0; 1] (mkLeaf [0] [1%Z]).

(** The documented bound of [push_merge_fueled], at most [fuel] values plus the values
    of one extra key, does not hold: with fuel 1, one call copies the 1000 values of all keys
    below the other side's first key. *)
Theorem push_merge_fueled_overshoots :
  ∃ b, LayerBuilder.push_merge_fueled (H0 := leaf_ops 8 8) 8
         (LayerBuilder.with_capacity (H0 := leaf_ops 8 8) (singletons 1000) (single_key 5000))
         (singletons 1000) 0 1000 (single_key 5000) 0 1 None 1 = Some (b, 1000, 0, (-999)%Z) ∧
    length (leaf_keys (layer (lb_vals b))) = 1000.
Proof. eexists. split; [vm_compute; reflexivity | vm_compute; reflexivity]. Qed.
