(* ===== verification/Cursors.v ===== *)
(** Cursors over the keys of a layer: seeking forwards and backwards, stepping, and the
    cursor of the values below that an inner layer's cursor carries along
    (crates/dbsp/src/trace/layers/leaf.rs and layer.rs). *)
From Stdlib Require Import Sorting.Sorted.
From S2P Require Import Prelude Sort Quicksort Search LeanVec Consolidation Trie Leaf Layer LayerSpec.
#[local] Open Scope nat_scope.

(** ** Where a search lands *)
Section landing.
Context {K : Type}.
Implicit Types (v : list K) (p : K → bool).

(** [pos'] is the first position from [pos] on, below [hi], where [p] fails, or [hi]. *)
Definition first_from v p (pos hi pos' : nat) : Prop :=
  pos ≤ pos' ≤ hi ∧ (∀ i k, pos ≤ i < pos' → v !! i = Some k → p k = true) ∧
  (∀ k, pos' < hi → v !! pos' = Some k → p k = false).

(** [pos'] is the last position up to [pos], from [lo] on, where [p] fails, or [lo - 1]. *)
Definition last_to v p (lo pos : nat) (pos' : Z) : Prop :=
  (Z.of_nat lo - 1 ≤ pos' ≤ Z.of_nat pos)%Z ∧
  (∀ i k, (pos' < Z.of_nat i ≤ Z.of_nat pos)%Z → v !! i = Some k → p k = true) ∧
  (∀ i k, Z.of_nat i = pos' → lo ≤ i → v !! i = Some k → p k = false).

Lemma sub_lookup v lo hi i : i < hi - lo → sub v lo hi !! i = v !! (lo + i).
Proof. intros Hi. unfold sub. rewrite lookup_take_lt by done. by rewrite lookup_drop. Qed.

Lemma prefix_first v p pos hi :
  pos ≤ hi → hi ≤ length v → first_from v p pos hi (pos + prefix_len p (sub v pos hi)).
Proof.
  intros Hle Hhi. pose proof (prefix_len_le p (sub v pos hi)) as Hl. rewrite sub_length in Hl by lia.
  split_and!; [lia | lia | |].
  - intros i k Hi Hk. apply (prefix_len_sat p (sub v pos hi) (i - pos)); [lia|].
    rewrite sub_lookup by lia. by replace (pos + (i - pos)) with i by lia.
  - intros k Hlt Hk. apply (prefix_len_stop p (sub v pos hi)). by rewrite sub_lookup by lia.
Qed.

Lemma reverse_sub_lookup v lo pos i :
  lo ≤ pos → pos < length v → i ≤ pos - lo → reverse (sub v lo (pos + 1)) !! i = v !! (pos - i).
Proof.
  intros Hlo Hpos Hi. rewrite reverse_lookup by (rewrite sub_length; lia).
  rewrite sub_length, sub_lookup by lia. f_equal. lia.
Qed.

Lemma prefix_last v p lo pos :
  lo ≤ pos → pos < length v →
  last_to v p lo pos (Z.of_nat pos - Z.of_nat (prefix_len p (reverse (sub v lo (pos + 1))))).
Proof.
  intros Hlo Hpos. pose proof (prefix_len_le p (reverse (sub v lo (pos + 1)))) as Hl.
  rewrite length_reverse, sub_length in Hl by lia. split_and!; [lia | lia | |].
  - intros i k Hi Hk. apply (prefix_len_sat p (reverse (sub v lo (pos + 1))) (pos - i)); [lia|].
    rewrite reverse_sub_lookup by lia. by replace (pos - (pos - i)) with i by lia.
  - intros i k Hi Hlo' Hk. apply (prefix_len_stop p (reverse (sub v lo (pos + 1)))).
    rewrite reverse_sub_lookup by lia. rewrite <- Hk. f_equal. lia.
Qed.
End landing.

(** ** Seeking a key *)
Section seek.
Context `{Ord K} (sk : nat) (Hsk : zst_ok K sk).
Implicit Types (v : list K) (key : K).

Lemma sorted_between v lo pos hi :
  lo ≤ pos ≤ hi → StronglySorted klt (sub v lo hi) →
  StronglySorted klt (sub v lo pos) ∧ StronglySorted klt (sub v pos hi).
Proof. intros Hp Hs. rewrite (sub_split v lo pos hi Hp) in Hs. by apply StronglySorted_app in Hs as (?&?&_). Qed.

Lemma advance_to_first v lo pos hi key :
  lo ≤ pos ≤ hi → hi ≤ length v → StronglySorted klt (sub v lo hi) →
  ∃ n, advance_to sk v pos hi key = Some n ∧ first_from v (λ x, kltb x key) pos hi (pos + n).
Proof.
  intros Hp Hhi Hs. destruct (sorted_between v lo pos hi Hp Hs) as [_ Hs2].
  eexists. split; [by apply advance_to_spec; [done | lia..|]|]. apply prefix_first; lia.
Qed.

Lemma reverse_stays_false v key :
  StronglySorted klt v → stays_false (λ x, kgtb x key) (reverse v).
Proof.
  intros Hs i j x y Hij Hx Hy Hgt. destruct (decide (i = j)) as [->|Hne]; [congruence|].
  pose proof (lookup_lt_Some _ _ _ Hx) as Hi. pose proof (lookup_lt_Some _ _ _ Hy) as Hj.
  rewrite length_reverse in Hi, Hj. rewrite reverse_lookup in Hx, Hy by done.
  apply kgtb_spec. apply kgtb_spec in Hgt. transitivity y; [done|].
  eapply StronglySorted_lookup; [exact Hs | exact Hy | exact Hx | lia].
Qed.

Lemma retreat_to_last v lo pos hi key :
  lo ≤ pos < hi → hi ≤ length v → StronglySorted klt (sub v lo hi) →
  ∃ n, retreat_to sk v lo pos key = Some n ∧
    last_to v (λ x, kgtb x key) lo pos (Z.of_nat pos - Z.of_nat n).
Proof.
  intros Hp Hhi Hs. destruct (sorted_between v lo (pos + 1) hi ltac:(lia) Hs) as [Hs1 _].
  exists (prefix_len (λ x, kgtb x key) (reverse (sub v lo (pos + 1)))).
  split; [|apply prefix_last; lia]. unfold retreat_to. rewrite range_some by lia. cbn [mbind option_bind].
  destruct (decide (sk = 0)) as [Hz|Hz].
  - rewrite Hz. unfold dyn_retreat, retreat_erased. cbn [Nat.eqb]. f_equal.
    destruct (reverse _) as [|x w]; [done|]. cbn.
    assert (kgtb x key = false) as ->; [|done]. rewrite (Hsk Hz x key). unfold kgtb. by rewrite cmp_refl.
  - apply dyn_retreat_prefix; [done | by apply reverse_stays_false].
Qed.
End seek.

(** ** The leaf's cursor *)
(** A cursor of a leaf in a consistent state: its bounds are a sorted range, and it is on
    a key of the range, just after it or just before it. *)
Definition leaf_cursor_ok `{Ord K} {R} (c : LeafCursor K R) : Prop :=
  let '(lo, hi) := lc_bounds c in
  leaf_wf (lc_storage c) ∧ lo ≤ hi ∧ hi ≤ Leaf.len (lc_storage c) ∧
  StronglySorted klt (sub (leaf_keys (lc_storage c)) lo hi) ∧
  (Z.of_nat lo - 1 ≤ lc_pos c ≤ Z.of_nat hi)%Z.

Section leaf_cursor.
Context `{Ord K} `{MonoidValue R} (sk : nat) (Hsk : zst_ok K sk).
Implicit Types (c : LeafCursor K R) (key : K).

Lemma at_pos_ok c pos :
  leaf_cursor_ok c →
  (Z.of_nat (lc_bounds c).1 - 1 ≤ pos ≤ Z.of_nat (lc_bounds c).2)%Z → leaf_cursor_ok (LeafCursor.at_pos c pos).
Proof.
  unfold leaf_cursor_ok. cbn. destruct (lc_bounds c) as [lo hi]. cbn. intros (?&?&?&?&?) ?. split_and!; done || lia.
Qed.

Lemma leaf_valid c lo hi :
  lc_bounds c = (lo, hi) → LeafCursor.valid c = true ↔ (Z.of_nat lo ≤ lc_pos c < Z.of_nat hi)%Z.
Proof. intros Hb. unfold LeafCursor.valid. rewrite Hb. cbn. rewrite andb_true_iff. lia. Qed.

Lemma leaf_seek c key :
  leaf_cursor_ok c → LeafCursor.valid c = true →
  ∃ pos', LeafCursor.seek sk c key = Some (LeafCursor.at_pos c (Z.of_nat pos')) ∧
    first_from (leaf_keys (lc_storage c)) (λ x, kltb x key) (Z.to_nat (lc_pos c)) (lc_bounds c).2 pos'.
Proof.
  intros Hok Hv. unfold LeafCursor.seek, LeafCursor.index. rewrite Hv. unfold leaf_cursor_ok in Hok.
  destruct (lc_bounds c) as [lo hi] eqn:Eb. apply (leaf_valid c lo hi Eb) in Hv. destruct Hok as (Hw&Hle&Hhi&Hs&_).
  destruct (advance_to_first sk Hsk _ lo (Z.to_nat (lc_pos c)) hi key ltac:(lia) Hhi Hs) as (n&Hn&Hf).
  cbn [snd]. rewrite Hn. cbn [mbind option_bind]. eexists. split; [|exact Hf]. do 2 f_equal. lia.
Qed.

Lemma leaf_seek_reverse c key :
  leaf_cursor_ok c → LeafCursor.valid c = true →
  ∃ pos', LeafCursor.seek_reverse sk c key = Some (LeafCursor.at_pos c pos') ∧
    last_to (leaf_keys (lc_storage c)) (λ x, kgtb x key) (lc_bounds c).1 (Z.to_nat (lc_pos c)) pos'.
Proof.
  intros Hok Hv. unfold LeafCursor.seek_reverse, LeafCursor.index. rewrite Hv. unfold leaf_cursor_ok in Hok.
  destruct (lc_bounds c) as [lo hi] eqn:Eb. apply (leaf_valid c lo hi Eb) in Hv. destruct Hok as (Hw&Hle&Hhi&Hs&_).
  destruct (retreat_to_last sk Hsk _ lo (Z.to_nat (lc_pos c)) hi key ltac:(lia) Hhi Hs) as (n&Hn&Hf).
  cbn [fst]. rewrite Hn. cbn [mbind option_bind]. eexists. split; [done|].
  replace (lc_pos c) with (Z.of_nat (Z.to_nat (lc_pos c))) by lia. by rewrite Nat2Z.id.
Qed.

Lemma leaf_item c :
  leaf_cursor_ok c → LeafCursor.valid c = true →
  LeafCursor.item c = leaf_ents (lc_storage c) !! Z.to_nat (lc_pos c).
Proof.
  intros Hok Hv. unfold leaf_cursor_ok in Hok. destruct (lc_bounds c) as [lo hi] eqn:Eb.
  apply (leaf_valid c lo hi Eb) in Hv. destruct Hok as (Hw&Hle&Hhi&_).
  destruct (leaf_lookup_some (lc_storage c) (Z.to_nat (lc_pos c)) Hw ltac:(lia)) as (k&d&Hk&Hd&He).
  unfold LeafCursor.item, LeafCursor.index. unfold Leaf.len in Hhi.
  rewrite (proj2 (Z.leb_gt _ _)), (proj2 (Z.ltb_ge _ _)) by lia. cbn [orb]. by rewrite Hk, Hd, He.
Qed.
End leaf_cursor.

(** On a leaf cursor over a sorted range, [seek] moves to the first key at or after
    the current one that is not below the target, [seek_reverse] to the last key at or
    before it that is not above the target (one past the range, or one before it, when
    there is none); neither moves an exhausted cursor.  Every operation keeps the cursor
    consistent, and [item] is the key and weight at the position. *)
Theorem leaf_cursor_spec `{Ord K} `{MonoidValue R} (sk : nat) (c : LeafCursor K R) (key : K) :
  zst_ok K sk → leaf_cursor_ok c →
  let keys := leaf_keys (lc_storage c) in
  let pos := Z.to_nat (lc_pos c) in
  (LeafCursor.valid c = true →
   (∃ pos', LeafCursor.seek sk c key = Some (LeafCursor.at_pos c (Z.of_nat pos')) ∧
      first_from keys (λ x, kltb x key) pos (lc_bounds c).2 pos' ∧
      leaf_cursor_ok (LeafCursor.at_pos c (Z.of_nat pos'))) ∧
   (∃ pos', LeafCursor.seek_reverse sk c key = Some (LeafCursor.at_pos c pos') ∧
      last_to keys (λ x, kgtb x key) (lc_bounds c).1 pos pos' ∧
      leaf_cursor_ok (LeafCursor.at_pos c pos')) ∧
   LeafCursor.item c = leaf_ents (lc_storage c) !! pos ∧
   lc_pos (LeafCursor.step c) = (lc_pos c + 1)%Z ∧
   lc_pos (LeafCursor.step_reverse c) = (lc_pos c - 1)%Z) ∧
  (LeafCursor.valid c = false →
   LeafCursor.seek sk c key = Some c ∧ LeafCursor.seek_reverse sk c key = Some c) ∧
  leaf_cursor_ok (LeafCursor.step c) ∧ leaf_cursor_ok (LeafCursor.step_reverse c) ∧
  leaf_cursor_ok (LeafCursor.rewind c) ∧ leaf_cursor_ok (LeafCursor.fast_forward c).
Proof.
  intros Hsk Hok keys pos. pose proof Hok as Hok'. unfold leaf_cursor_ok in Hok'.
  destruct (lc_bounds c) as [lo hi] eqn:Eb. destruct Hok' as (Hw&Hle&Hhi&Hs&Hp).
  pose proof (leaf_valid c lo hi Eb) as Hval.
  assert (∀ p, (Z.of_nat lo - 1 ≤ p ≤ Z.of_nat hi)%Z → leaf_cursor_ok (LeafCursor.at_pos c p)) as Hat
    by (intros p ?; apply at_pos_ok; [done|]; by rewrite Eb).
  split; [|split].
  - intros Hv. pose proof (proj1 Hval Hv). split_and!.
    + destruct (leaf_seek sk Hsk c key Hok Hv) as (pos'&?&Hf). exists pos'. rewrite Eb in Hf. cbn [snd] in *.
      split_and!; [done | done |]. apply Hat. destruct Hf as [? _]. lia.
    + destruct (leaf_seek_reverse sk Hsk c key Hok Hv) as (pos'&?&Hf). exists pos'. rewrite Eb in Hf.
      split_and!; [done | done |]. apply Hat. destruct Hf as [? _]. cbn [fst] in *. lia.
    + by apply leaf_item.
    + unfold LeafCursor.step, LeafCursor.valid. cbn. rewrite Eb. cbn.
      destruct (_ && _) eqn:E; cbn; [done|]. apply andb_false_iff in E. bool_simpl. destruct E; bool_simpl; lia.
    + unfold LeafCursor.step_reverse. cbn. rewrite Eb. cbn. destruct (Z.ltb_spec (lc_pos c - 1) (Z.of_nat lo)); cbn; lia.
  - intros Hv. unfold LeafCursor.seek, LeafCursor.seek_reverse. by rewrite Hv.
  - unfold LeafCursor.step, LeafCursor.step_reverse, LeafCursor.rewind, LeafCursor.fast_forward, LeafCursor.valid.
    cbn. rewrite Eb. cbn. split_and!.
    + destruct (_ && _) eqn:E; cbn [negb]; [|apply Hat; lia]. bool_simpl. apply Hat. lia.
    + destruct (Z.ltb_spec (lc_pos c - 1) (Z.of_nat lo)); apply Hat; lia.
    + apply Hat. lia.
    + apply Hat. lia.
Qed.

Definition leaf_example : Leaf nat Z := mkLeaf [1; 3; 5; 7] [1; -1; 2; 4]%Z.
Definition leaf_cursor_example : LeafCursor nat Z := LeafCursor.new 1 leaf_example (0, 4).

Lemma leaf_cursor_witness :
  leaf_cursor_ok leaf_cursor_example ∧ LeafCursor.valid leaf_cursor_example = true ∧
  LeafCursor.item leaf_cursor_example = Some (3, (-1)%Z) ∧
  LeafCursor.seek 8 leaf_cursor_example 6 = Some (LeafCursor.new 3 leaf_example (0, 4)) ∧
  LeafCursor.seek_reverse 8 leaf_cursor_example 2 = Some (LeafCursor.new 0 leaf_example (0, 4)).
Proof.
  assert (leaf_cursor_ok leaf_cursor_example) as Hok.
  { unfold leaf_cursor_ok, leaf_wf, Leaf.len. cbn. split_and!; [done | lia | lia | repeat constructor | lia..]. }
  destruct (leaf_cursor_spec 8 leaf_cursor_example 6 (zst_ok_pos _ _) Hok) as [Hv _].
  destruct (Hv eq_refl) as (_&_&Hi&_). split_and!; [done | reflexivity | rewrite Hi; reflexivity | reflexivity..].
Defined.

(** ** The inner layer's cursor *)
Section layer_cursor.
Context `{Ord K} `{SP : TrieSpec L B C V LK E J R} (sk : nat) (Hsk : zst_ok K sk).
Implicit Types (c : LayerCursor K L C) (key : K).
#[local] Open Scope Z_scope.

Definition layer_cursor_ok c : Prop :=
  let '(lo, hi) := ly_bounds c in
  layer_wf (ly_storage c) ∧ c_of (ly_child c) (l_vals (ly_storage c)) ∧
  (lo ≤ hi)%nat ∧ (hi ≤ length (l_keys (ly_storage c)))%nat ∧
  StronglySorted klt (sub (l_keys (ly_storage c)) lo hi) ∧
  Z.of_nat lo - 1 ≤ ly_pos c ≤ Z.of_nat hi.

(** [c'] is [c] moved to [pos], its child repositioned on the values of the key there. *)
Definition moved c (c' : LayerCursor K L C) (pos : Z) : Prop :=
  ly_pos c' = pos ∧ ly_storage c' = ly_storage c ∧ ly_bounds c' = ly_bounds c ∧ layer_cursor_ok c' ∧
  (LayerCursor.valid c' = true → LayerCursor.values c' = Some (ly_child c')).

Lemma layer_valid c lo hi :
  ly_bounds c = (lo, hi) → LayerCursor.valid c = true ↔ Z.of_nat lo ≤ ly_pos c < Z.of_nat hi.
Proof. intros Hb. unfold LayerCursor.valid. rewrite Hb. cbn. rewrite andb_true_iff. lia. Qed.

Lemma layer_entry_at c lo hi i :
  ly_bounds c = (lo, hi) → layer_cursor_ok c → (i < hi)%nat →
  ∃ k p, layer_ents (ly_storage c) !! i = Some (k, p).
Proof.
  intros Hb Hok Hi. unfold layer_cursor_ok in Hok. rewrite Hb in Hok. destruct Hok as (Hw&_&_&Hhi&_).
  destruct (lookup_lt_is_Some_2 (layer_ents (ly_storage c)) i) as [[k p] ?]; [|by eauto].
  rewrite (layer_ents_length _ Hw). lia.
Qed.

Lemma land c lo hi pos :
  layer_cursor_ok c → ly_bounds c = (lo, hi) → Z.of_nat lo - 1 ≤ pos ≤ Z.of_nat hi →
  ∃ c', LayerCursor.reposition_if_valid (LayerCursor.at_pos c pos) = Some c' ∧ moved c c' pos.
Proof.
  intros Hok Hb Hp. pose proof Hok as Hok'. unfold layer_cursor_ok in Hok'. rewrite Hb in Hok'.
  destruct Hok' as (Hw&Hof&Hle&Hhi&Hs&_).
  unfold LayerCursor.reposition_if_valid. destruct (LayerCursor.valid _) eqn:Ev.
  - apply (layer_valid (LayerCursor.at_pos c pos) lo hi Hb) in Ev. cbn [ly_pos LayerCursor.at_pos] in Ev.
    destruct (layer_entry_at c lo hi (Z.to_nat pos) Hb Hok ltac:(lia)) as (k&p&Hi).
    destruct (child_reposition_ok (layer_ents (ly_storage c)) (ly_storage c) (LayerCursor.at_pos c pos) (Z.to_nat pos) k p)
      as (vlo&vhi&child&Ho1&Ho2&Hc&_&Hcr);
      [by apply layer_wf_repr | done | done | cbn; lia |].
    eexists. split; [exact Hcr|]. split_and!; cbn [ly_pos ly_storage ly_bounds ly_child LayerCursor.at_pos]; [lia | done | done | |].
    + unfold layer_cursor_ok. cbn [ly_pos ly_storage ly_bounds ly_child LayerCursor.at_pos]. rewrite Hb.
      split_and!; [done | by eapply cursor_of | done | done | done | lia | lia].
    + intros Hv. unfold LayerCursor.values, LayerCursor.at_index. rewrite Hv.
      cbn [ly_pos ly_storage LayerCursor.at_pos]. rewrite !(proj2 (Z.ltb_ge _ _)), Nat2Z.id, Ho1 by lia.
      replace (Z.to_nat (Z.of_nat (Z.to_nat pos) + 1)) with (Z.to_nat pos + 1)%nat by lia. by rewrite Ho2.
  - eexists. split; [done|]. split_and!; [done | done | done | | by rewrite Ev].
    unfold layer_cursor_ok. cbn [ly_pos ly_storage ly_bounds ly_child LayerCursor.at_pos]. rewrite Hb.
    split_and!; done || lia.
Qed.

Lemma at_pos_self c : LayerCursor.at_pos c (ly_pos c) = c.
Proof. by destruct c. Qed.

Lemma layer_step_shape c lo hi :
  ly_bounds c = (lo, hi) → Z.of_nat lo - 1 ≤ ly_pos c ≤ Z.of_nat hi → (lo ≤ hi)%nat →
  LayerCursor.step c
    = LayerCursor.reposition_if_valid (LayerCursor.at_pos c (Z.min (ly_pos c + 1) (Z.of_nat hi))) ∧
  LayerCursor.step_reverse c
    = LayerCursor.reposition_if_valid (LayerCursor.at_pos c (Z.max (ly_pos c - 1) (Z.of_nat lo - 1))).
Proof.
  intros Hb Hp Hle. unfold LayerCursor.step, LayerCursor.step_reverse, LayerCursor.reposition_if_valid, LayerCursor.valid.
  cbn [ly_pos ly_bounds LayerCursor.at_pos]. rewrite Hb. cbn [fst snd]. split.
  - destruct (Z.ltb_spec (ly_pos c + 1) (Z.of_nat hi)).
    + rewrite Z.min_l, (proj2 (Z.leb_le _ _)), (proj2 (Z.ltb_lt _ _)) by lia. done.
    + rewrite Z.min_r by lia. rewrite Z.ltb_irrefl, andb_false_r. done.
  - destruct (Z.leb_spec (Z.of_nat lo) (ly_pos c - 1)).
    + rewrite Z.max_l, (proj2 (Z.leb_le _ _)), (proj2 (Z.ltb_lt _ _)) by lia. done.
    + rewrite Z.max_r by lia. rewrite (proj2 (Z.leb_gt _ _)) by lia. done.
Qed.

Lemma layer_seek c lo hi key :
  layer_cursor_ok c → ly_bounds c = (lo, hi) → LayerCursor.valid c = true →
  (∃ (pos' : nat) c', LayerCursor.seek sk c key = Some c' ∧ moved c c' (Z.of_nat pos') ∧
    first_from (l_keys (ly_storage c)) (λ x, kltb x key) (Z.to_nat (ly_pos c)) hi pos') ∧
  (∃ pos' c', LayerCursor.seek_reverse sk c key = Some c' ∧ moved c c' pos' ∧
    last_to (l_keys (ly_storage c)) (λ x, kgtb x key) lo (Z.to_nat (ly_pos c)) pos').
Proof.
  intros Hok Hb Hv. pose proof Hok as Hok'. unfold layer_cursor_ok in Hok'. rewrite Hb in Hok'.
  destruct Hok' as (_&_&Hle&Hhi&Hs&_). pose proof (proj1 (layer_valid c lo hi Hb) Hv) as Hpos.
  unfold LayerCursor.seek, LayerCursor.seek_reverse. rewrite Hv, Hb. cbn [fst snd]. split.
  - destruct (advance_to_first sk Hsk _ lo (Z.to_nat (ly_pos c)) hi key ltac:(lia) Hhi Hs) as (n&Hn&Hf).
    rewrite Hn. cbn [mbind option_bind]. pose proof Hf as [Hr _].
    destruct (land c lo hi (ly_pos c + Z.of_nat n) Hok Hb ltac:(lia)) as (c'&Hc&Hm).
    exists (Z.to_nat (ly_pos c) + n)%nat, c'. split_and!; [exact Hc | | exact Hf].
    by replace (Z.of_nat (Z.to_nat (ly_pos c) + n)) with (ly_pos c + Z.of_nat n) by lia.
  - destruct (retreat_to_last sk Hsk _ lo (Z.to_nat (ly_pos c)) hi key ltac:(lia) Hhi Hs) as (n&Hn&Hf).
    rewrite Hn. cbn [mbind option_bind]. pose proof Hf as [Hr _].
    destruct (land c lo hi (ly_pos c - Z.of_nat n) Hok Hb ltac:(lia)) as (c'&Hc&Hm).
    exists (ly_pos c - Z.of_nat n), c'. split_and!; [exact Hc | exact Hm |].
    by replace (ly_pos c - Z.of_nat n) with (Z.of_nat (Z.to_nat (ly_pos c)) - Z.of_nat n) by lia.
Qed.
End layer_cursor.

(** Every movement of an inner layer's cursor lands on the position it should (the
    first key not below the target, the neighbouring key, the ends of the range) and
    repositions the child cursor on the values of the key there, so that the child is
    what [values] returns; this holds also when the child was moved in between. *)
Theorem layer_cursor_spec `{Ord K} `{SP : TrieSpec L B C V LK E J R} (sk : nat)
    (c : LayerCursor K L C) (lo hi : nat) (key : K) :
  zst_ok K sk → layer_cursor_ok c → ly_bounds c = (lo, hi) →
  (LayerCursor.valid c = true →
   (∃ (pos' : nat) c', LayerCursor.seek sk c key = Some c' ∧ moved c c' (Z.of_nat pos') ∧
      first_from (l_keys (ly_storage c)) (λ x, kltb x key) (Z.to_nat (ly_pos c)) hi pos') ∧
   (∃ pos' c', LayerCursor.seek_reverse sk c key = Some c' ∧ moved c c' pos' ∧
      last_to (l_keys (ly_storage c)) (λ x, kgtb x key) lo (Z.to_nat (ly_pos c)) pos')) ∧
  (LayerCursor.valid c = false →
   LayerCursor.seek sk c key = Some c ∧ LayerCursor.seek_reverse sk c key = Some c) ∧
  (∃ c', LayerCursor.step c = Some c' ∧ moved c c' (Z.min (ly_pos c + 1) (Z.of_nat hi))) ∧
  (∃ c', LayerCursor.step_reverse c = Some c' ∧ moved c c' (Z.max (ly_pos c - 1) (Z.of_nat lo - 1))) ∧
  (∃ c', LayerCursor.rewind c = Some c' ∧ moved c c' (Z.of_nat lo)) ∧
  (∃ c', LayerCursor.fast_forward c = Some c' ∧ moved c c' (Z.of_nat hi - 1)).
Proof.
  intros Hsk Hok Hb. pose proof Hok as Hok'. unfold layer_cursor_ok in Hok'. rewrite Hb in Hok'.
  destruct Hok' as (_&_&Hle&_&_&Hp). destruct (layer_step_shape c lo hi Hb Hp Hle) as [-> ->].
  split_and!.
  - by apply layer_seek.
  - intros Hv. unfold LayerCursor.seek, LayerCursor.seek_reverse. rewrite Hv. cbn [mbind option_bind].
    unfold LayerCursor.reposition_if_valid. by rewrite Hv.
  - apply (land c lo hi); [done | done | lia].
  - apply (land c lo hi); [done | done | lia].
  - unfold LayerCursor.rewind. rewrite Hb. apply (land c lo hi); [done | done | cbn; lia].
  - unfold LayerCursor.fast_forward. rewrite Hb. apply (land c lo hi); [done | done | cbn; lia].
Qed.

Definition layer_cursor_example : LayerCursor nat (Leaf nat Z) (LeafCursor nat Z) :=
  mkLayerCursor layer_example1 0 (0, 3)
    (LeafCursor.new 1 (l_vals layer_example1) (0, 2)).

Lemma layer_cursor_witness :
  layer_cursor_ok (SP := leaf8) layer_cursor_example ∧
  (∃ c, LayerCursor.seek (H0 := leaf_ops 8 8) 8 layer_cursor_example 3 = Some c ∧ ly_pos c = 1%Z ∧
     ly_child c = LeafCursor.new 2 (l_vals layer_example1) (2, 3)) ∧
  (∃ c, LayerCursor.fast_forward (H0 := leaf_ops 8 8) layer_cursor_example = Some c ∧
     ly_child c = LeafCursor.new 3 (l_vals layer_example1) (3, 5)).
Proof.
  assert (layer_cursor_ok (SP := leaf8) layer_cursor_example) as Hok by (vm_compute; sorted_example).
  destruct (layer_cursor_spec (SP := leaf8) 8 layer_cursor_example 0 3 3 (zst_ok_pos _ _) Hok eq_refl)
    as (Hv&_&_&_&_&(c2&Hc2&_)).
  destruct (Hv eq_refl) as [(pos&c&Hc&_) _]. split; [exact Hok|]. split.
  - exists c. split; [exact Hc|]. vm_compute in Hc. injection Hc as <-. split; reflexivity.
  - exists c2. split; [exact Hc2|]. vm_compute in Hc2. injection Hc2 as <-. reflexivity.
Defined.
