(* ===== verification/Tuples.v ===== *)
(** Building a trie from tuples (the trait [TupleBuilder] of
    crates/dbsp/src/trace/layers.rs, implemented in leaf.rs and layer.rs).

    A builder holds closed entries, which [boundary] has sealed, and open ones.  Pushing a
    tuple extends the last open entry when the key is the same and opens a new one
    otherwise; a layer marks an open last key by the offset 0.  [TupleSpec] is what a
    layer promises the layer above it. *)
From Stdlib Require Import Sorting.Sorted.
From S2P Require Import Prelude Sort Quicksort Search LeanVec Consolidation Trie Leaf Layer LayerSpec.
#[local] Open Scope nat_scope.

Class TupleSpec (L B C K LK E J R T : Type) {OPS : TrieOps L B C K LK} {OK : Ord K} {OJ : Ord J}
    {MR : MonoidValue R} {SP : TrieSpec L B C K LK E J R} {TB : TupleOps B T} := {
  (** closed and open entries *)
  tb_state : B → list E → list E → Prop;
  tb_tup : T → J * R;
  (** the open entries after a push *)
  a_push : list E → T → list E;
  new_ok : tb_state tb_new [] [];
  push_ok : ∀ b cl op t, tb_state b cl op →
    ∃ b', tb_push_tuple b t = Some b' ∧ tb_push_refs b t = Some b' ∧ tb_state b' cl (a_push op t);
  seal_ok : ∀ b cl op, tb_state b cl op →
    ∃ b', boundary b = Some (b', length (cl ++ op)) ∧ tb_state b' (cl ++ op) [];
  finish_ok : ∀ b cl op, tb_state b cl op → ∃ l, b_done b = Some l ∧ wf_trie l ∧ ents l = cl ++ op;
  a_push_tups : ∀ op t, a_push op t ≫= tups = (op ≫= tups) ++ [tb_tup t];
  a_push_nonempty : ∀ op t, a_push op t ≠ [];
  a_push_sorted : ∀ op t, asorted op → canonical ((op ≫= tups) ++ [tb_tup t]) → asorted (a_push op t) }.

(** ** The leaf *)
#[global] Program Instance leaf_tuple_spec `{Ord K} `{MonoidValue R} (sk sr : nat)
    (Hsk : zst_ok K sk) (Hsr : zst_ok R sr) :
  TupleSpec (Leaf K R) (LeafBuilder K R) (LeafCursor K R) K K (K * R) K R (K * R)
    (SP := leaf_spec sk sr Hsk Hsr) := {|
  tb_state b cl op := leaf_wf (layer b) ∧ leaf_ents (layer b) = cl ++ op;
  tb_tup t := t; a_push op t := op ++ [t] |}.
Next Obligation. done. Qed.
Next Obligation.
  intros K OK R MR sk sr Hsk Hsr b cl op [k r] [Hw He]. eexists. split; [done|]. split; [done|].
  destruct (push_spec (layer b) k r Hw) as [Hw' He']. split; [exact Hw'|]. rewrite app_assoc, <- He. exact He'.
Qed.
Next Obligation.
  intros K OK R MR sk sr Hsk Hsr b cl op [Hw He]. exists b. rewrite app_nil_r, <- He.
  rewrite (leaf_ents_length _ Hw). done.
Qed.
Next Obligation. intros K OK R MR sk sr Hsk Hsr b cl op [Hw He]. by exists (layer b). Qed.
Next Obligation.
  intros K OK R MR sk sr Hsk Hsr op t. cbn. rewrite !leaf_flat. done.
Qed.
Next Obligation. intros K OK R MR sk sr Hsk Hsr op t. apply app_nil_not_nil || by destruct op. Qed.
Next Obligation. intros K OK R MR sk sr Hsk Hsr op t _. cbn. by rewrite leaf_flat. Qed.

(** ** The inner layer *)
Section layer.
Context `{Ord K} `{TS : TupleSpec L B C V LK E J R T}.
Implicit Types (b : LayerBuilder K B) (k : K) (p : list E) (cl op : list (K * list E)).

Definition layer_state b cl op : Prop :=
  nonempties (cl ++ op).*2 ∧ lb_keys b = (cl ++ op).*1 ∧
  ((op = [] ∧ lb_offs b = offsets 0 cl.*2 ∧ tb_state (lb_vals b) (concat cl.*2) []) ∨
   (∃ op' k p, op = op' ++ [(k, p)] ∧ lb_offs b = offsets 0 (cl ++ op').*2 ++ [0] ∧
      tb_state (lb_vals b) (concat (cl ++ op').*2) p)).

Definition layer_push op (t : K * T) : list (K * list E) :=
  match last op with
  | Some (k, p) =>
    if decide (k = t.1) then take (length op - 1) op ++ [(k, a_push p t.2)] else op ++ [(t.1, a_push [] t.2)]
  | None => op ++ [(t.1, a_push [] t.2)]
  end.

Lemma layer_push_snoc op k p (t : K * T) :
  layer_push (op ++ [(k, p)]) t =
  if decide (k = t.1) then op ++ [(k, a_push p t.2)] else (op ++ [(k, p)]) ++ [(t.1, a_push [] t.2)].
Proof.
  unfold layer_push. rewrite last_snoc, length_app. cbn [length]. rewrite Nat.add_sub.
  by rewrite take_app_length.
Qed.

Lemma snd_snoc op k p : (op ++ [(k, p)]).*2 = op.*2 ++ [p].
Proof. by rewrite fmap_app. Qed.

(** Writing the last offset seals the open key. *)
Lemma set_last_off_ok b cl op :
  layer_state b cl op → ∃ b', LayerBuilder.set_last_off b = Some b' ∧ layer_state b' (cl ++ op) [].
Proof.
  intros (Hn&Hk&Hst). unfold LayerBuilder.set_last_off. destruct Hst as [(->&Ho&Hc)|(op'&k&p&->&Ho&Hc)].
  - destruct (seal_ok _ _ _ Hc) as (vals&->&Hv). cbn [mbind option_bind]. rewrite app_nil_r in *.
    rewrite Hk, Ho, length_fmap, offsets_length, length_fmap, (proj2 (Nat.ltb_lt _ _)) by lia.
    eexists. split; [done|]. unfold layer_state. cbn [lb_keys lb_offs lb_vals]. rewrite !app_nil_r.
    split_and!; [done | done | left]. split_and!; [done | | done].
    rewrite list_insert_id; [done|]. rewrite (offsets_lookup 0) by (by rewrite length_fmap).
    rewrite take_ge by (by rewrite length_fmap). done.
  - destruct (seal_ok _ _ _ Hc) as (vals&->&Hv). cbn [mbind option_bind].
    rewrite app_assoc in Hk, Hn |- *. rewrite Hk, Ho.
    rewrite length_fmap, !length_app, offsets_length, length_fmap, length_app. cbn [length].
    rewrite (proj2 (Nat.ltb_lt _ _)) by lia. eexists. split; [done|].
    unfold layer_state. cbn [lb_keys lb_offs lb_vals]. rewrite !app_nil_r.
    split_and!; [done | done | left]. split_and!; [done | | ].
    + rewrite insert_app_r_alt; [|rewrite offsets_length, length_fmap, length_app; lia].
      rewrite offsets_length, length_fmap, length_app.
      replace (length cl + length op' + 1 - S (length cl + length op')) with 0 by lia. cbn.
      rewrite snd_snoc, offsets_snoc. f_equal. f_equal. rewrite total_app. unfold total. cbn.
      by rewrite app_nil_r.
    + rewrite snd_snoc, concat_app. cbn. by rewrite app_nil_r.
Qed.

Lemma unfinished_ok b cl op :
  layer_state b cl op → LayerBuilder.unfinished b = Some (negb (length op =? 0)).
Proof.
  intros (Hn&Hk&Hst). unfold LayerBuilder.unfinished. rewrite Hk, length_fmap.
  destruct Hst as [(->&Ho&_)|(op'&k&p&->&Ho&_)].
  - rewrite app_nil_r in *. cbn. destruct (Nat.eqb_spec (length cl) 0) as [|Hne]; [done|].
    rewrite Ho, (offsets_lookup 0) by (by rewrite length_fmap). cbn [mbind option_bind].
    rewrite take_ge by (by rewrite length_fmap). destruct cl as [|[k p] cl]; [done|].
    cbn in Hn. apply Forall_cons in Hn as [Hp _]. cbn [fmap list_fmap snd]. rewrite total_cons.
    destruct p; [done|]. done.
  - rewrite Ho, !length_app. cbn [length]. rewrite lookup_app_r by (rewrite offsets_length, length_fmap, length_app; lia).
    rewrite offsets_length, length_fmap, length_app.
    replace (length cl + (length op' + 1) - S (length cl + length op')) with 0 by lia. cbn.
    destruct (Nat.eqb_spec (length cl + (length op' + 1)) 0); [lia|].
    destruct (Nat.eqb_spec (length op' + 1) 0); [lia|done].
Qed.

Lemma open_key_ok b cl op k t :
  layer_state b (cl ++ op) [] →
  ∃ vals, tb_push_tuple (lb_vals b) t = Some vals ∧ tb_push_refs (lb_vals b) t = Some vals ∧
    layer_state (LayerBuilder.with_vals (LayerBuilder.push_key b k 0) vals) cl (op ++ [(k, a_push [] t)]).
Proof.
  intros (Hn&Hk&[(_&Ho&Hc)|(op'&?&?&Heq&_)]); [|by destruct op']. rewrite app_nil_r in Hn, Hk.
  destruct (push_ok _ _ _ t Hc) as (vals&?&?&Hv). exists vals. split_and!; [done..|].
  unfold layer_state. cbn [lb_keys lb_offs lb_vals LayerBuilder.with_vals LayerBuilder.push_key].
  rewrite app_assoc. split_and!.
  - rewrite fmap_app. apply Forall_app. split; [done|]. repeat constructor. apply a_push_nonempty.
  - by rewrite Hk, (fmap_app fst (cl ++ op)).
  - right. exists op, k, (a_push [] t). split_and!; [done | by rewrite Ho | done].
Qed.

(** One push, by value or by reference. *)
Lemma start_key_ok b cl op (t : K * T) :
  layer_state b cl op →
  ∃ b1 vals, LayerBuilder.start_key b t.1 = Some b1 ∧
    tb_push_tuple (lb_vals b1) t.2 = Some vals ∧ tb_push_refs (lb_vals b1) t.2 = Some vals ∧
    layer_state (LayerBuilder.with_vals b1 vals) cl (layer_push op t).
Proof.
  intros Hst. unfold LayerBuilder.start_key. rewrite (unfinished_ok b cl op Hst). cbn [mbind option_bind].
  destruct (Nat.eqb_spec (length op) 0) as [Hz|Hz]; cbn [negb mbind option_bind].
  { apply nil_length_inv in Hz as ->. rewrite <- (app_nil_r cl) in Hst at 1.
    destruct (open_key_ok b cl [] t.1 t.2 Hst) as (vals&?&?&Hv). eexists _, vals. split_and!; done. }
  pose proof Hst as (Hn&Hk&[(->&_)|(op'&k&p&->&Ho&Hc)]); [done|].
  assert (lb_keys b !! (length (lb_keys b) - 1) = Some k) as Hlast.
  { rewrite Hk, length_fmap, list_lookup_fmap, app_assoc, length_app. cbn [length]. rewrite Nat.add_sub.
    by rewrite lookup_app_r, Nat.sub_diag by lia. }
  rewrite Hlast. cbn [mbind option_bind]. rewrite layer_push_snoc. case_bool_decide as Heq; cbn [mbind option_bind].
  - rewrite decide_True by done. destruct (push_ok _ _ _ t.2 Hc) as (vals&?&?&Hv).
    exists b, vals. split_and!; [done..|]. unfold layer_state.
    cbn [lb_keys lb_offs lb_vals LayerBuilder.with_vals]. rewrite !app_assoc in *. rewrite fmap_app in Hn. rewrite (fmap_app snd).
    apply Forall_app in Hn as [Hn _]. split_and!.
    + apply Forall_app. split; [done|]. repeat constructor. apply a_push_nonempty.
    + by rewrite Hk, !fmap_app.
    + right. by exists op', k, (a_push p t.2).
  - rewrite decide_False by done. destruct (set_last_off_ok _ _ _ Hst) as (b1&->&Hb1). cbn [mbind option_bind].
    destruct (open_key_ok b1 cl (op' ++ [(k, p)]) t.1 t.2 Hb1) as (vals&?&?&Hv).
    eexists _, vals. split_and!; done.
Qed.

Lemma layer_finish_ok b cl op :
  layer_state b cl op → ∃ l, LayerBuilder.done b = Some l ∧ layer_wf l ∧ layer_ents l = cl ++ op.
Proof.
  intros Hst. unfold LayerBuilder.done. pose proof (unfinished_ok _ _ _ Hst) as Hu. unfold LayerBuilder.unfinished in Hu.
  assert (∃ b1, (if 0 <? length (lb_keys b) then o ← lb_offs b !! length (lb_keys b);
      if o =? 0 then LayerBuilder.set_last_off b else Some b else Some b) = Some b1 ∧
    layer_state b1 (cl ++ op) []) as (b1&->&Hb1).
  { assert (length op = 0 → layer_state b (cl ++ op) []) as Hnil
      by (intros ->%nil_length_inv; by rewrite app_nil_r).
    destruct (Nat.eqb_spec (length (lb_keys b)) 0) as [Hz|Hz].
    - rewrite Hz. cbn. exists b. split; [done|]. apply Hnil. destruct Hst as (_&Hk&_).
      rewrite Hk, length_fmap, length_app in Hz. lia.
    - rewrite (proj2 (Nat.ltb_lt _ _)) by lia. destruct (lb_offs b !! length (lb_keys b)) as [o|]; [|done].
      cbn [mbind option_bind] in *. injection Hu as Hu. rewrite Hu.
      destruct (Nat.eqb_spec (length op) 0); cbn [negb]; [|by apply set_last_off_ok]. exists b. auto. }
  cbn [mbind option_bind]. destruct Hb1 as (Hn&Hk&[(_&Ho&Hc)|(op'&?&?&Heq&_)]); [|by destruct op'].
  rewrite app_nil_r in Hn, Hk. destruct (finish_ok _ _ _ Hc) as (v&->&Hwv&Hv). cbn [mbind option_bind].
  eexists. split; [done|]. apply lrepr_wf. split; [done|]. cbn [l_keys l_offs l_vals].
  rewrite app_nil_r in Hv. by split_and!.
Qed.

Definition layer_tup (t : K * T) : (K * J) * R := ((t.1, (tb_tup t.2).1), (tb_tup t.2).2).

Lemma layer_push_tups op t : layer_push op t ≫= layer_tups = (op ≫= layer_tups) ++ [layer_tup t].
Proof.
  assert (∀ p, prefix t.1 (a_push p t.2 ≫= tups) = prefix t.1 (p ≫= tups) ++ [layer_tup t]) as Hp.
  { intros p. rewrite a_push_tups. unfold prefix. rewrite fmap_app. cbn. unfold layer_tup.
    by destruct (tb_tup t.2). }
  assert (∀ k p, layer_tups (K:=K) (k, p) = prefix k (p ≫= tups)) as Ht by done.
  destruct op as [|[k p] op _] using rev_ind.
  { unfold layer_push. cbn [last mbind list_bind app]. rewrite Ht, Hp, app_nil_r. done. }
  rewrite layer_push_snoc. case_decide as Heq; rewrite !bind_app; cbn [mbind list_bind]; rewrite !app_nil_r, !Ht.
  - subst k. by rewrite Hp, app_assoc.
  - rewrite Hp. done.
Qed.

(** A tuple that follows all tuples of some entries has a key at or after theirs. *)
Lemma keys_le_new op (t : K * T) k :
  layer_sorted op → canonical ((op ≫= layer_tups) ++ [layer_tup t]) → k ∈ op.*1 → k ≺ t.1 ∨ k = t.1.
Proof.
  intros [_ Hp] (_&_&Hcross)%canonical_app ([k' p]&->&Hin)%list_elem_of_fmap. cbn [fst].
  rewrite Forall_fmap, Forall_forall in Hp. destruct (Hp _ Hin) as [Hsp Hne]. cbn in Hsp, Hne.
  destruct (p ≫= tups) as [|[j r] ts] eqn:Et; [by apply tups_nonempty in Et|].
  assert ((k', j) ∈ (op ≫= layer_tups).*1) as Hk.
  { apply list_elem_of_fmap. exists ((k', j), r). split; [done|]. apply list_elem_of_bind. exists (k', p).
    split; [|done]. unfold layer_tups. cbn [fst snd]. rewrite Et. cbn. left. }
  specialize (Hcross _ (layer_tup t).1 Hk ltac:(cbn; left)). unfold layer_tup in Hcross. cbn in Hcross.
  apply klt_pair in Hcross as [?|[? _]]; auto.
Qed.

Lemma layer_push_sorted op t :
  layer_sorted op → canonical ((op ≫= layer_tups) ++ [layer_tup t]) → layer_sorted (layer_push op t).
Proof.
  intros Hs Hc. pose proof (λ k, keys_le_new op t k Hs Hc) as Hle.
  assert (asorted (a_push [] t.2)) as Hnew.
  { apply a_push_sorted; [apply asorted_nil|]. apply canonical_app in Hc as (_&Hc&_).
    apply (canonical_prefix_inv t.1). unfold layer_tup in Hc. cbn. by destruct (tb_tup t.2). }
  assert ((∀ k, k ∈ op.*1 → k ≺ t.1) → layer_sorted (op ++ [(t.1, a_push [] t.2)])) as Hsnoc.
  { intros Hlt. destruct Hs as [Hk Hp]. split.
    - apply keys_sorted_app. split_and!; [done | repeat constructor |].
      intros k k' Hin ->%list_elem_of_singleton. auto.
    - rewrite fmap_app. apply Forall_app. split; [done|]. repeat constructor; [done | apply a_push_nonempty]. }
  destruct op as [|[k p] op _] using rev_ind; [apply Hsnoc; by intros k ?%elem_of_nil|].
  rewrite layer_push_snoc. pose proof Hs as [Hk Hp]. case_decide as Heq.
  - cbn in Heq. subst k. rewrite fmap_app in Hp. apply Forall_app in Hp as [Hp [[Hsp _] _]%Forall_cons].
    split; [unfold keys_sorted in *; by rewrite fmap_app in *|]. rewrite fmap_app. apply Forall_app. split; [done|].
    repeat constructor; [|apply a_push_nonempty]. apply a_push_sorted; [done|].
    rewrite bind_app, <- app_assoc in Hc. apply canonical_app in Hc as (_&Hc&_). cbn [mbind list_bind] in Hc.
    rewrite app_nil_r in Hc. apply (canonical_prefix_inv t.1). unfold prefix. rewrite fmap_app. cbn.
    unfold layer_tup in Hc. by destruct (tb_tup t.2).
  - apply Hsnoc. intros k' Hk'. destruct (Hle k' Hk') as [?|Hkk]; [done|].
    rewrite fmap_app in Hk'. apply keys_sorted_app in Hk as (_&_&Hbef).
    apply elem_of_app in Hk' as [Hk'| ->%list_elem_of_singleton]; [|done].
    destruct (Hle k) as [Hlt|?]; [rewrite fmap_app; apply elem_of_app; right; left | | done].
    transitivity k; [|done]. apply Hbef; [done | left].
Qed.

#[global] Program Instance layer_tuple_spec (sk : nat) (Hsk : zst_ok K sk) :
  TupleSpec (Layer K L) (LayerBuilder K B) (LayerCursor K L C) K LK (K * list E) (K * J) R (K * T)
    (SP := layer_spec sk Hsk) := {|
  tb_state := layer_state; tb_tup := layer_tup; a_push := layer_push |}.
Next Obligation.
  intros sk Hsk. split_and!; [constructor | done | left]. split_and!; [done | done | apply new_ok].
Qed.
Next Obligation.
  intros sk Hsk b cl op [k t] Hst. destruct (start_key_ok b cl op (k, t) Hst) as (b1&vals&H1&H2&H3&Hv).
  cbn [fst snd] in H1, H2, H3. eexists. cbn. unfold LayerBuilder.push_tuple, LayerBuilder.push_refs. rewrite H1. cbn [mbind option_bind].
  rewrite H2, H3. done.
Qed.
Next Obligation.
  intros sk Hsk b cl op Hst. cbn. unfold LayerBuilder.boundary.
  destruct (set_last_off_ok b cl op Hst) as (b'&->&Hb'). cbn [mbind option_bind]. exists b'. split; [|done].
  do 2 f_equal. destruct Hb' as (_&->&_). by rewrite length_fmap, app_nil_r.
Qed.
Next Obligation. intros sk Hsk b cl op Hst. by apply layer_finish_ok. Qed.
Next Obligation. intros sk Hsk. apply layer_push_tups. Qed.
Next Obligation.
  intros sk Hsk op t. cbn. unfold layer_push. destruct (last op) as [[k p]|]; [case_decide|];
    intros Heq; apply app_eq_nil in Heq as [_ ?]; done.
Qed.
Next Obligation. intros sk Hsk. apply layer_push_sorted. Qed.
End layer.

(** ** The round trip *)
Section roundtrip.
Context `{TS : TupleSpec L B C K LK E J R T}.

Lemma extend_tuples_ok (ts : list T) b cl op :
  tb_state b cl op →
  ∃ b', extend_tuples b ts = Some b' ∧ tb_state b' cl (foldl a_push op ts).
Proof.
  revert b op. induction ts as [|t ts IH]; intros b op Hst; cbn; [by exists b|].
  destruct (push_ok b cl op t Hst) as (b1&->&_&Hb1). cbn [mbind option_bind]. by apply IH.
Qed.

Lemma foldl_push_tups (ts : list T) op : foldl a_push op ts ≫= tups = (op ≫= tups) ++ (tb_tup <$> ts).
Proof.
  revert op. induction ts as [|t ts IH]; intros op; cbn; [by rewrite app_nil_r|].
  by rewrite IH, a_push_tups, <- app_assoc.
Qed.

Lemma foldl_push_sorted (ts : list T) op :
  asorted op → canonical ((op ≫= tups) ++ (tb_tup <$> ts)) → asorted (foldl a_push op ts).
Proof.
  revert op. induction ts as [|t ts IH]; intros op Hs Hc; cbn; [done|].
  change (tb_tup <$> t :: ts) with ([tb_tup t] ++ (tb_tup <$> ts)) in Hc. rewrite app_assoc in Hc.
  apply IH; [|by rewrite a_push_tups]. apply a_push_sorted; [done|]. by apply canonical_app in Hc as [? _].
Qed.

Lemma build_correct (ts : list T) :
  ∃ b l, extend_tuples tb_new ts = Some b ∧ b_done b = Some l ∧ wf_trie l ∧ denote l = tb_tup <$> ts ∧
    (canonical (tb_tup <$> ts) → asorted (ents l)).
Proof.
  destruct (extend_tuples_ok ts tb_new [] [] new_ok) as (b&Hb&Hst).
  destruct (finish_ok b _ _ Hst) as (l&Hd&Hw&He). exists b, l. cbn [app] in He.
  split_and!; [done..| |].
  - unfold denote. rewrite He. apply (foldl_push_tups ts []).
  - intros Hc. rewrite He. apply foldl_push_sorted; [apply asorted_nil | exact Hc].
Qed.
End roundtrip.

(** C36. Building a layer, over a trie of any depth, by pushing tuples: no push panics, and
    the finished layer is well formed and denotes exactly the tuples pushed, in their order;
    when these are consolidated (keys strictly increasing, no zero weight) the layer is
    in order at every level, with each key stored once. *)
Theorem layer_build_spec `{Ord K} `{TS : TupleSpec L B C V LK E J R T} (ts : list (K * T)) :
  ∃ b l, extend_tuples (LayerBuilder.new : LayerBuilder K B) ts = Some b ∧ LayerBuilder.done b = Some l ∧
    layer_wf l ∧ layer_denote l = layer_tup <$> ts ∧
    (canonical (layer_tup <$> ts) → layer_sorted (layer_ents l)).
Proof. exact (build_correct (TS := layer_tuple_spec 1 (zst_ok_pos _ _)) ts). Qed.

Definition tuples_example : list (nat * (nat * Z)) := 
  [(1, (10, 1%Z)); (1, (20, 2%Z)); (4, (5, 3%Z)); (9, (7, 4%Z)); (9, (8, 5%Z))].

Lemma layer_build_witness :
  ∃ b, extend_tuples (LayerBuilder.new : LayerBuilder nat (LeafBuilder nat Z))
         (H := layer_tuple_ops (H0 := leaf_ops 8 8)) tuples_example = Some b ∧
    LayerBuilder.done (H0 := leaf_ops 8 8) b = Some layer_example1.
Proof.
  destruct (layer_build_spec (TS := leaf_tuple_spec 8 8 (zst_ok_pos _ _) (zst_ok_pos _ _)) tuples_example)
    as (b&l&Hb&Hl&_).
  exists b. split; [exact Hb|]. vm_compute in Hb. injection Hb as <-. reflexivity.
Defined.
