(* ===== verification/PipelineTypes.v ===== *)
(** The statuses of a pipeline in the pipeline manager (pipeline-manager/src/db/types): the
    resources, storage, program and runtime statuses, their text in the database, the
    permitted transitions, the combined status shown to the user, names, and the errors
    of database operations. *)
From stdpp Require Import strings.
From S2P Require Import Prelude Machine.
#[local] Open Scope string_scope.

(** ** Enumerations *)

Module ResourcesStatus.
Inductive t := Stopped | Provisioning | Provisioned | Stopping.
#[global] Instance eq_dec : EqDecision t.
Proof. solve_decision. Defined.
End ResourcesStatus.

Module ResourcesDesiredStatus.
Inductive t := Stopped | Provisioned.
#[global] Instance eq_dec : EqDecision t.
Proof. solve_decision. Defined.
End ResourcesDesiredStatus.

Module StorageStatus.
Inductive t := Cleared | InUse | Clearing.
#[global] Instance eq_dec : EqDecision t.
Proof. solve_decision. Defined.
End StorageStatus.

Module ProgramStatus.
Inductive t :=
  Pending | CompilingSql | SqlCompiled | CompilingRust | Success | SqlError | RustError | SystemError.
#[global] Instance eq_dec : EqDecision t.
Proof. solve_decision. Defined.
End ProgramStatus.

Module RuntimeStatus.
Inductive t :=
  Unavailable | Standby | Initializing | AwaitingApproval | Bootstrapping | Replaying
| Paused | Running | Suspended.
#[global] Instance eq_dec : EqDecision t.
Proof. solve_decision. Defined.
End RuntimeStatus.

Module RuntimeDesiredStatus.
Inductive t := Unavailable | Standby | Paused | Running | Suspended.
#[global] Instance eq_dec : EqDecision t.
Proof. solve_decision. Defined.

Definition may_transition_to (self target : t) : bool :=
  if bool_decide (self = target) then true else
  match self, target with
  | Standby, (Paused | Running) => true
  | Paused, (Running | Suspended) => true
  | Running, (Paused | Suspended) => true
  | _, _ => false
  end.

Definition may_transition_to_at_startup (self target : t) : bool :=
  match self with
  | Suspended => match target with Paused | Running => true | _ => false end
  | _ => may_transition_to self target
  end.
End RuntimeDesiredStatus.

Module BootstrapPolicy.
Inductive t := Allow | Reject | AwaitApproval.
#[global] Instance eq_dec : EqDecision t.
Proof. solve_decision. Defined.
Definition default : t := AwaitApproval.
End BootstrapPolicy.

(** ** Errors

    [V] is the type of JSON values.  The constructors that are not listed report failures
    of the connection to the database or of serialisation. *)
Definition PipelineId := N.
Definition TenantId := N.
Definition Version := Z.

Inductive ValidationError :=
| DeserializationFailed (error : string)
| EnterpriseFeature (feature : string).

Inductive DBError (V : Type) :=
| PostgresError
| PostgresPoolError
| PostgresMigrationError
| PgEmbedError
| InvalidProgramStatus (status : string)
| InvalidStorageStatus (status : string)
| InvalidJsonData (data error : string)
| InvalidRuntimeConfig (value : V) (error : ValidationError)
| InvalidProgramConfig (value : V) (error : ValidationError)
| InvalidProgramInfo (value : V) (error : ValidationError)
| InvalidDeploymentConfig (value : V) (error : ValidationError)
| InvalidProgramError (value : V) (error : string)
| EditRestrictedToClearedStorage (not_allowed : list string)
| InvalidErrorResponse (value : V) (error : string)
| FailedToSerializeRuntimeConfig (error : string)
| FailedToSerializeProgramConfig (error : string)
| FailedToSerializeProgramError (error : string)
| FailedToSerializeErrorResponse (error : string)
| UniqueKeyViolation (key_constraint : string)
| DuplicateKey
| MissingMigrations (expected actual : Z)
| DuplicateName
| EmptyName
| TooLongName (name : string) (length maximum : nat)
| NameDoesNotMatchPattern (name : string)
| UnknownTenant (tenant_id : TenantId)
| UnknownApiKey (name : string)
| InvalidApiKey
| UnknownPipeline (pipeline_id : PipelineId)
| UnknownPipelineName (pipeline_name : string)
| UpdateRestrictedToStopped
| ProgramStatusUpdateRestrictedToStopped
| DeleteRestrictedToFullyStopped
| DeleteRestrictedToClearedStorage
| CannotRenameNonExistingPipeline
| OutdatedProgramVersion (outdated_version latest_version : Version)
| OutdatedPipelineVersion (outdated_version latest_version : Version)
| StartFailedDueToFailedCompilation (compiler_error : string)
| TransitionRequiresCompiledProgram (current transition_to : ResourcesStatus.t)
| InvalidProgramStatusTransition (current_status new_status : ProgramStatus.t)
| InvalidResourcesStatusTransition (storage_status : StorageStatus.t)
    (current_status new_status : ResourcesStatus.t)
| InvalidStorageStatusTransition (current_status new_status : StorageStatus.t)
| StorageStatusImmutableUnlessStopped (resources_status : ResourcesStatus.t)
    (current_status new_status : StorageStatus.t)
| IllegalPipelineAction (status : ResourcesStatus.t)
    (current_desired_status new_desired_status : ResourcesDesiredStatus.t) (hint : string)
| TlsConnection (hint : string)
| PauseWhileNotProvisioned
| ResumeWhileNotProvisioned
| InvalidResourcesStatus (status : string)
| InvalidResourcesDesiredStatus (status : string)
| InvalidRuntimeStatus (status : string)
| InvalidRuntimeDesiredStatus (status : string)
| InvalidBootstrap (status : string)
| NoRuntimeStatusWhileProvisioned
| PreconditionViolation (info : string)
| InitialImmutableUnlessStopped
| InitialStandbyNotAllowed.

(** The outcome of a fallible function: [Panic] is a failed [assert!] or [expect]. *)
Inductive result (V A : Type) :=
| Ok (a : A)
| Err (e : DBError V)
| Panic.

#[global] Arguments PostgresError {V}.
#[global] Arguments PostgresPoolError {V}.
#[global] Arguments PostgresMigrationError {V}.
#[global] Arguments PgEmbedError {V}.
#[global] Arguments InvalidProgramStatus {V}.
#[global] Arguments InvalidStorageStatus {V}.
#[global] Arguments InvalidJsonData {V}.
#[global] Arguments InvalidRuntimeConfig {V}.
#[global] Arguments InvalidProgramConfig {V}.
#[global] Arguments InvalidProgramInfo {V}.
#[global] Arguments InvalidDeploymentConfig {V}.
#[global] Arguments InvalidProgramError {V}.
#[global] Arguments EditRestrictedToClearedStorage {V}.
#[global] Arguments InvalidErrorResponse {V}.
#[global] Arguments FailedToSerializeRuntimeConfig {V}.
#[global] Arguments FailedToSerializeProgramConfig {V}.
#[global] Arguments FailedToSerializeProgramError {V}.
#[global] Arguments FailedToSerializeErrorResponse {V}.
#[global] Arguments UniqueKeyViolation {V}.
#[global] Arguments DuplicateKey {V}.
#[global] Arguments MissingMigrations {V}.
#[global] Arguments DuplicateName {V}.
#[global] Arguments EmptyName {V}.
#[global] Arguments TooLongName {V}.
#[global] Arguments NameDoesNotMatchPattern {V}.
#[global] Arguments UnknownTenant {V}.
#[global] Arguments UnknownApiKey {V}.
#[global] Arguments InvalidApiKey {V}.
#[global] Arguments UnknownPipeline {V}.
#[global] Arguments UnknownPipelineName {V}.
#[global] Arguments UpdateRestrictedToStopped {V}.
#[global] Arguments ProgramStatusUpdateRestrictedToStopped {V}.
#[global] Arguments DeleteRestrictedToFullyStopped {V}.
#[global] Arguments DeleteRestrictedToClearedStorage {V}.
#[global] Arguments CannotRenameNonExistingPipeline {V}.
#[global] Arguments OutdatedProgramVersion {V}.
#[global] Arguments OutdatedPipelineVersion {V}.
#[global] Arguments StartFailedDueToFailedCompilation {V}.
#[global] Arguments TransitionRequiresCompiledProgram {V}.
#[global] Arguments InvalidProgramStatusTransition {V}.
#[global] Arguments InvalidResourcesStatusTransition {V}.
#[global] Arguments InvalidStorageStatusTransition {V}.
#[global] Arguments StorageStatusImmutableUnlessStopped {V}.
#[global] Arguments IllegalPipelineAction {V}.
#[global] Arguments TlsConnection {V}.
#[global] Arguments PauseWhileNotProvisioned {V}.
#[global] Arguments ResumeWhileNotProvisioned {V}.
#[global] Arguments InvalidResourcesStatus {V}.
#[global] Arguments InvalidResourcesDesiredStatus {V}.
#[global] Arguments InvalidRuntimeStatus {V}.
#[global] Arguments InvalidRuntimeDesiredStatus {V}.
#[global] Arguments InvalidBootstrap {V}.
#[global] Arguments NoRuntimeStatusWhileProvisioned {V}.
#[global] Arguments PreconditionViolation {V}.
#[global] Arguments InitialImmutableUnlessStopped {V}.
#[global] Arguments InitialStandbyNotAllowed {V}.
#[global] Arguments Ok {V A}.
#[global] Arguments Err {V A}.
#[global] Arguments Panic {V A}.

(** The HTTP status with which the API server reports an error. *)
Definition status_code {V} (e : DBError V) : Z :=
  match e with
  | PostgresError => 500
  | PostgresPoolError => 500
  | PostgresMigrationError => 500
  | PgEmbedError => 500
  | InvalidProgramStatus _ => 500
  | InvalidStorageStatus _ => 500
  | InvalidJsonData _ _ => 500
  | InvalidRuntimeConfig _ _ => 400
  | InvalidProgramConfig _ _ => 400
  | InvalidProgramInfo _ _ => 500
  | InvalidDeploymentConfig _ _ => 500
  | InvalidProgramError _ _ => 500
  | EditRestrictedToClearedStorage _ => 400
  | InvalidErrorResponse _ _ => 500
  | FailedToSerializeRuntimeConfig _ => 500
  | FailedToSerializeProgramConfig _ => 500
  | FailedToSerializeProgramError _ => 500
  | FailedToSerializeErrorResponse _ => 500
  | UniqueKeyViolation _ => 500
  | DuplicateKey => 500
  | MissingMigrations _ _ => 500
  | DuplicateName => 409
  | EmptyName => 400
  | TooLongName _ _ _ => 400
  | NameDoesNotMatchPattern _ => 400
  | UnknownTenant _ => 401
  | UnknownApiKey _ => 404
  | InvalidApiKey => 401
  | UnknownPipeline _ => 404
  | UnknownPipelineName _ => 404
  | UpdateRestrictedToStopped => 400
  | ProgramStatusUpdateRestrictedToStopped => 400
  | DeleteRestrictedToFullyStopped => 400
  | DeleteRestrictedToClearedStorage => 400
  | CannotRenameNonExistingPipeline => 400
  | OutdatedProgramVersion _ _ => 409
  | OutdatedPipelineVersion _ _ => 409
  | StartFailedDueToFailedCompilation _ => 400
  | TransitionRequiresCompiledProgram _ _ => 500
  | InvalidProgramStatusTransition _ _ => 500
  | InvalidResourcesStatusTransition _ _ _ => 500
  | InvalidStorageStatusTransition _ _ => 400
  | StorageStatusImmutableUnlessStopped _ _ _ => 400
  | IllegalPipelineAction _ _ _ _ => 400
  | TlsConnection _ => 500
  | PauseWhileNotProvisioned => 400
  | ResumeWhileNotProvisioned => 400
  | InvalidResourcesStatus _ => 500
  | InvalidResourcesDesiredStatus _ => 500
  | InvalidRuntimeStatus _ => 500
  | InvalidRuntimeDesiredStatus _ => 500
  | InvalidBootstrap _ => 500
  | NoRuntimeStatusWhileProvisioned => 500
  | PreconditionViolation _ => 500
  | InitialImmutableUnlessStopped => 400
  | InitialStandbyNotAllowed => 400
  end.

#[global] Instance result_bind {V} : MBind (result V) := λ A B f x,
  match x with Ok a => f a | Err e => Err e | Panic => Panic end.
#[global] Instance result_ret {V} : MRet (result V) := λ A, Ok.
#[global] Instance result_fmap {V} : FMap (result V) := λ A B f x,
  match x with Ok a => Ok (f a) | Err e => Err e | Panic => Panic end.

Definition is_ok {V A} (r : result V A) : bool := match r with Ok _ => true | _ => false end.
Definition is_panic {V A} (r : result V A) : bool := match r with Panic => true | _ => false end.

(** [if cond { return Err(e) }] and [assert!(cond)]. *)
Definition throw_if {V} (cond : bool) (e : DBError V) : result V () := if cond then Err e else Ok ().
Definition assert_ok {V} (cond : bool) : result V () := if cond then Ok () else Panic.

(** ** Text of the statuses

    [StatusText] is what the database layer needs from a status type: parsing
    accepts exactly the text of the constructors. *)
Class StatusText (A : Type) := {
  to_string : A → string;
  try_from : ∀ {V}, string → result V A;
  try_from_to_string : ∀ V (a : A), try_from (V := V) (to_string a) = Ok a;
  to_string_try_from : ∀ V (s : string) (a : A), try_from (V := V) s = Ok a → to_string a = s;
  try_from_no_panic : ∀ V (s : string), is_panic (try_from (V := V) s) = false }.

(** Solves the laws of [StatusText] for an enumeration with the parser [f]. *)
Ltac status_text f :=
  intros V x; first [by destruct x | intros; unfold f in *; repeat case_bool_decide; by simplify_eq/=].

Definition resources_status_to_string (s : ResourcesStatus.t) : string :=
  match s with
  | ResourcesStatus.Stopped => "stopped"
  | ResourcesStatus.Provisioning => "provisioning"
  | ResourcesStatus.Provisioned => "provisioned"
  | ResourcesStatus.Stopping => "stopping"
  end.

Definition resources_status_try_from {V} (value : string) : result V ResourcesStatus.t :=
  if bool_decide (value = "stopped") then Ok ResourcesStatus.Stopped
  else if bool_decide (value = "provisioning") then Ok ResourcesStatus.Provisioning
  else if bool_decide (value = "provisioned") then Ok ResourcesStatus.Provisioned
  else if bool_decide (value = "stopping") then Ok ResourcesStatus.Stopping
  else Err (InvalidResourcesStatus value).

Definition resources_desired_status_to_string (s : ResourcesDesiredStatus.t) : string :=
  match s with
  | ResourcesDesiredStatus.Stopped => "stopped"
  | ResourcesDesiredStatus.Provisioned => "provisioned"
  end.

Definition resources_desired_status_try_from {V} (value : string) : result V ResourcesDesiredStatus.t :=
  if bool_decide (value = "stopped") then Ok ResourcesDesiredStatus.Stopped
  else if bool_decide (value = "provisioned") then Ok ResourcesDesiredStatus.Provisioned
  else Err (InvalidResourcesDesiredStatus value).

Definition storage_status_to_string (s : StorageStatus.t) : string :=
  match s with
  | StorageStatus.Cleared => "cleared"
  | StorageStatus.InUse => "in_use"
  | StorageStatus.Clearing => "clearing"
  end.

Definition storage_status_try_from {V} (value : string) : result V StorageStatus.t :=
  if bool_decide (value = "cleared") then Ok StorageStatus.Cleared
  else if bool_decide (value = "in_use") then Ok StorageStatus.InUse
  else if bool_decide (value = "clearing") then Ok StorageStatus.Clearing
  else Err (InvalidStorageStatus value).

Definition program_status_to_string (s : ProgramStatus.t) : string :=
  match s with
  | ProgramStatus.Pending => "pending"
  | ProgramStatus.CompilingSql => "compiling_sql"
  | ProgramStatus.SqlCompiled => "sql_compiled"
  | ProgramStatus.CompilingRust => "compiling_rust"
  | ProgramStatus.Success => "success"
  | ProgramStatus.SqlError => "sql_error"
  | ProgramStatus.RustError => "rust_error"
  | ProgramStatus.SystemError => "system_error"
  end.

Definition program_status_try_from {V} (value : string) : result V ProgramStatus.t :=
  if bool_decide (value = "pending") then Ok ProgramStatus.Pending
  else if bool_decide (value = "compiling_sql") then Ok ProgramStatus.CompilingSql
  else if bool_decide (value = "sql_compiled") then Ok ProgramStatus.SqlCompiled
  else if bool_decide (value = "compiling_rust") then Ok ProgramStatus.CompilingRust
  else if bool_decide (value = "success") then Ok ProgramStatus.Success
  else if bool_decide (value = "sql_error") then Ok ProgramStatus.SqlError
  else if bool_decide (value = "rust_error") then Ok ProgramStatus.RustError
  else if bool_decide (value = "system_error") then Ok ProgramStatus.SystemError
  else Err (InvalidProgramStatus value).

Definition runtime_status_to_string (s : RuntimeStatus.t) : string :=
  match s with
  | RuntimeStatus.Unavailable => "unavailable"
  | RuntimeStatus.Standby => "standby"
  | RuntimeStatus.AwaitingApproval => "awaiting_approval"
  | RuntimeStatus.Initializing => "initializing"
  | RuntimeStatus.Bootstrapping => "bootstrapping"
  | RuntimeStatus.Replaying => "replaying"
  | RuntimeStatus.Paused => "paused"
  | RuntimeStatus.Running => "running"
  | RuntimeStatus.Suspended => "suspended"
  end.

Definition parse_string_as_runtime_status {V} (s : string) : result V RuntimeStatus.t :=
  if bool_decide (s = "unavailable") then Ok RuntimeStatus.Unavailable
  else if bool_decide (s = "standby") then Ok RuntimeStatus.Standby
  else if bool_decide (s = "awaiting_approval") then Ok RuntimeStatus.AwaitingApproval
  else if bool_decide (s = "initializing") then Ok RuntimeStatus.Initializing
  else if bool_decide (s = "bootstrapping") then Ok RuntimeStatus.Bootstrapping
  else if bool_decide (s = "replaying") then Ok RuntimeStatus.Replaying
  else if bool_decide (s = "paused") then Ok RuntimeStatus.Paused
  else if bool_decide (s = "running") then Ok RuntimeStatus.Running
  else if bool_decide (s = "suspended") then Ok RuntimeStatus.Suspended
  else Err (InvalidRuntimeStatus s).

Definition runtime_desired_status_to_string (s : RuntimeDesiredStatus.t) : string :=
  match s with
  | RuntimeDesiredStatus.Unavailable => "unavailable"
  | RuntimeDesiredStatus.Standby => "standby"
  | RuntimeDesiredStatus.Paused => "paused"
  | RuntimeDesiredStatus.Running => "running"
  | RuntimeDesiredStatus.Suspended => "suspended"
  end.

Definition parse_string_as_runtime_desired_status {V} (s : string) : result V RuntimeDesiredStatus.t :=
  if bool_decide (s = "unavailable") then Ok RuntimeDesiredStatus.Unavailable
  else if bool_decide (s = "standby") then Ok RuntimeDesiredStatus.Standby
  else if bool_decide (s = "paused") then Ok RuntimeDesiredStatus.Paused
  else if bool_decide (s = "running") then Ok RuntimeDesiredStatus.Running
  else if bool_decide (s = "suspended") then Ok RuntimeDesiredStatus.Suspended
  else Err (InvalidRuntimeDesiredStatus s).

Definition bootstrap_policy_to_string (b : BootstrapPolicy.t) : string :=
  match b with
  | BootstrapPolicy.Allow => "allow"
  | BootstrapPolicy.Reject => "reject"
  | BootstrapPolicy.AwaitApproval => "await_approval"
  end.

Definition parse_string_as_bootstrap_policy {V} (s : string) : result V BootstrapPolicy.t :=
  if bool_decide (s = "allow") then Ok BootstrapPolicy.Allow
  else if bool_decide (s = "reject") then Ok BootstrapPolicy.Reject
  else if bool_decide (s = "await_approval") then Ok BootstrapPolicy.AwaitApproval
  else Err (InvalidBootstrap s).

#[global] Instance resources_status_text : StatusText ResourcesStatus.t.
Proof. by refine {| to_string := resources_status_to_string; try_from := @resources_status_try_from |}; status_text @resources_status_try_from. Defined.
#[global] Instance resources_desired_status_text : StatusText ResourcesDesiredStatus.t.
Proof. by refine {| to_string := resources_desired_status_to_string; try_from := @resources_desired_status_try_from |}; status_text @resources_desired_status_try_from. Defined.
#[global] Instance storage_status_text : StatusText StorageStatus.t.
Proof. by refine {| to_string := storage_status_to_string; try_from := @storage_status_try_from |}; status_text @storage_status_try_from. Defined.
#[global] Instance program_status_text : StatusText ProgramStatus.t.
Proof. by refine {| to_string := program_status_to_string; try_from := @program_status_try_from |}; status_text @program_status_try_from. Defined.
#[global] Instance runtime_status_text : StatusText RuntimeStatus.t.
Proof. by refine {| to_string := runtime_status_to_string; try_from := @parse_string_as_runtime_status |}; status_text @parse_string_as_runtime_status. Defined.
#[global] Instance runtime_desired_status_text : StatusText RuntimeDesiredStatus.t.
Proof. by refine {| to_string := runtime_desired_status_to_string; try_from := @parse_string_as_runtime_desired_status |}; status_text @parse_string_as_runtime_desired_status. Defined.
#[global] Instance bootstrap_policy_text : StatusText BootstrapPolicy.t.
Proof. by refine {| to_string := bootstrap_policy_to_string; try_from := @parse_string_as_bootstrap_policy |}; status_text @parse_string_as_bootstrap_policy. Defined.

(** ** Permitted transitions *)

Definition validate_resources_status_transition {V} (storage_status : StorageStatus.t)
    (current_status new_status : ResourcesStatus.t) : result V () :=
  match storage_status, current_status, new_status with
  | (StorageStatus.Cleared | StorageStatus.InUse), ResourcesStatus.Stopped, ResourcesStatus.Provisioning
  | (StorageStatus.Cleared | StorageStatus.InUse), ResourcesStatus.Stopped, ResourcesStatus.Stopping
  | StorageStatus.InUse, ResourcesStatus.Provisioning, ResourcesStatus.Provisioned
  | StorageStatus.InUse, ResourcesStatus.Provisioned, ResourcesStatus.Provisioned
  | StorageStatus.InUse, ResourcesStatus.Provisioning, ResourcesStatus.Stopping
  | StorageStatus.InUse, ResourcesStatus.Provisioned, ResourcesStatus.Stopping
  | (StorageStatus.Cleared | StorageStatus.InUse), ResourcesStatus.Stopping, ResourcesStatus.Stopped =>
      Ok ()
  | _, _, _ => Err (InvalidResourcesStatusTransition storage_status current_status new_status)
  end.

Definition validate_resources_desired_status_transition {V} (status : ResourcesStatus.t)
    (current_desired_status new_desired_status : ResourcesDesiredStatus.t) : result V () :=
  match new_desired_status with
  | ResourcesDesiredStatus.Stopped => Ok ()
  | ResourcesDesiredStatus.Provisioned =>
      if bool_decide (current_desired_status = ResourcesDesiredStatus.Stopped)
         && negb (bool_decide (status = ResourcesStatus.Stopped))
      then Err (IllegalPipelineAction status current_desired_status new_desired_status
        "Cannot restart the pipeline while it is stopping. Wait until it is stopped before starting the pipeline again.")
      else Ok ()
  end.

Definition validate_storage_status_transition {V} (resources_status : ResourcesStatus.t)
    (current_status new_status : StorageStatus.t) : result V () :=
  if negb (bool_decide (resources_status = ResourcesStatus.Stopped))
  then Err (StorageStatusImmutableUnlessStopped resources_status current_status new_status)
  else
  match current_status, new_status with
  | StorageStatus.Cleared, StorageStatus.InUse
  | StorageStatus.InUse, StorageStatus.InUse
  | StorageStatus.InUse, StorageStatus.Clearing
  | StorageStatus.Clearing, StorageStatus.Clearing
  | StorageStatus.Clearing, StorageStatus.Cleared => Ok ()
  | _, _ => Err (InvalidStorageStatusTransition current_status new_status)
  end.

Definition validate_program_status_transition {V} (current_status new_status : ProgramStatus.t)
    : result V () :=
  match current_status, new_status with
  | ProgramStatus.Pending, ProgramStatus.CompilingSql
  | ProgramStatus.Pending, ProgramStatus.SystemError
  | ProgramStatus.CompilingSql, ProgramStatus.Pending
  | ProgramStatus.CompilingSql, ProgramStatus.SqlCompiled
  | ProgramStatus.CompilingSql, ProgramStatus.SqlError
  | ProgramStatus.CompilingSql, ProgramStatus.SystemError
  | ProgramStatus.SqlCompiled, ProgramStatus.Pending
  | ProgramStatus.SqlCompiled, ProgramStatus.CompilingRust
  | ProgramStatus.CompilingRust, ProgramStatus.Pending
  | ProgramStatus.CompilingRust, ProgramStatus.SqlCompiled
  | ProgramStatus.CompilingRust, ProgramStatus.Success
  | ProgramStatus.CompilingRust, ProgramStatus.RustError
  | ProgramStatus.CompilingRust, ProgramStatus.SystemError
  | ProgramStatus.Success, ProgramStatus.Pending
  | ProgramStatus.SqlError, ProgramStatus.Pending
  | ProgramStatus.RustError, ProgramStatus.Pending
  | ProgramStatus.SystemError, ProgramStatus.Pending => Ok ()
  | _, _ => Err (InvalidProgramStatusTransition current_status new_status)
  end.

(** ** Names *)

Definition MAXIMUM_NAME_LENGTH : nat := 100.

(** The pattern [^[a-zA-Z0-9_-]+$]. *)
Definition is_name_char (c : Ascii.ascii) : bool :=
  let n := Ascii.nat_of_ascii c in
  (((97 <=? n) && (n <=? 122)) || ((65 <=? n) && (n <=? 90)) || ((48 <=? n) && (n <=? 57))
   || (n =? 95) || (n =? 45))%nat.

Definition matches_name_pattern (s : string) : bool :=
  negb (bool_decide (s = "")) && forallb is_name_char (String.list_ascii_of_string s).

Definition validate_name {V} (name : string) : result V () :=
  if bool_decide (name = "") then Err EmptyName
  else if (MAXIMUM_NAME_LENGTH <? String.length name)%nat
  then Err (TooLongName name (String.length name) MAXIMUM_NAME_LENGTH)
  else if matches_name_pattern name then Ok () else Err (NameDoesNotMatchPattern name).

(** ** The status shown to the user *)

Module CombinedStatus.
Inductive t :=
  Stopped | Provisioning | Unavailable | Standby | AwaitingApproval | Initializing | Bootstrapping
| Replaying | Paused | Running | Suspended | Stopping.

Definition new (resources_status : ResourcesStatus.t) (runtime_status : option RuntimeStatus.t) : t :=
  match resources_status with
  | ResourcesStatus.Stopped => Stopped
  | ResourcesStatus.Provisioning => Provisioning
  | ResourcesStatus.Provisioned =>
      match runtime_status with
      | Some RuntimeStatus.Unavailable => Unavailable
      | Some RuntimeStatus.AwaitingApproval => AwaitingApproval
      | Some RuntimeStatus.Standby => Standby
      | Some RuntimeStatus.Initializing => Initializing
      | Some RuntimeStatus.Bootstrapping => Bootstrapping
      | Some RuntimeStatus.Replaying => Replaying
      | Some RuntimeStatus.Paused => Paused
      | Some RuntimeStatus.Running => Running
      | Some RuntimeStatus.Suspended => Suspended
      | None => Unavailable
      end
  | ResourcesStatus.Stopping => Stopping
  end.
End CombinedStatus.

Module CombinedDesiredStatus.
Inductive t := Stopped | Unavailable | Standby | Paused | Running | Suspended.

Definition of_runtime_desired (d : RuntimeDesiredStatus.t) : t :=
  match d with
  | RuntimeDesiredStatus.Unavailable => Unavailable
  | RuntimeDesiredStatus.Standby => Standby
  | RuntimeDesiredStatus.Paused => Paused
  | RuntimeDesiredStatus.Running => Running
  | RuntimeDesiredStatus.Suspended => Suspended
  end.

Definition new (resources_desired_status : ResourcesDesiredStatus.t)
    (initial runtime_desired_status : option RuntimeDesiredStatus.t) : t :=
  match resources_desired_status with
  | ResourcesDesiredStatus.Stopped => Stopped
  | ResourcesDesiredStatus.Provisioned =>
      match runtime_desired_status with
      | Some d => of_runtime_desired d
      | None =>
          match initial with
          | Some d => of_runtime_desired d
          | None => Unavailable
          end
      end
  end.
End CombinedDesiredStatus.

Definition combine_since (resources_since : Z) (runtime_since : option Z) : Z :=
  match runtime_since with
  | Some runtime_status_since => Z.max resources_since runtime_status_since
  | None => resources_since
  end.

(** ** Inversion of successful results *)

Section results.
Context {V : Type}.

Lemma bind_Ok {A B} (f : A → result V B) (x : result V A) b :
  x ≫= f = Ok b ↔ ∃ a, x = Ok a ∧ f a = Ok b.
Proof. destruct x; cbn; naive_solver. Qed.

Lemma throw_if_Ok cond (e : DBError V) u : throw_if cond e = Ok u ↔ cond = false.
Proof. destruct u, cond; cbn; naive_solver. Qed.

Lemma assert_ok_Ok cond u : assert_ok (V := V) cond = Ok u ↔ cond = true.
Proof. destruct u, cond; cbn; naive_solver. Qed.

Lemma is_ok_Ok {A} (r : result V A) : is_ok r = true ↔ ∃ a, r = Ok a.
Proof. destruct r; cbn; naive_solver. Qed.
End results.

(** Takes successful results apart into their steps. *)
Ltac res_step :=
  match goal with
  | H : _ ≫= _ = Ok _ |- _ => apply bind_Ok in H as (? & ? & ?)
  | H : throw_if _ _ = Ok _ |- _ => apply throw_if_Ok in H
  | H : assert_ok _ = Ok _ |- _ => apply assert_ok_Ok in H
  | H : Ok _ = Ok _ |- _ => injection H as H
  | H : Err _ = Ok _ |- _ => discriminate H
  | H : Panic = Ok _ |- _ => discriminate H
  | H : (_, _) = (_, _) |- _ => injection H as ? ?
  | H : (let '(_, _) := ?p in _) = Ok _ |- _ => destruct p eqn:?
  | x : _ * _ |- _ => destruct x
  end.
Ltac res_simpl := repeat (res_step; subst).
