(* ===== verification/PipelineDb.v ===== *)
(** The pipeline table of the pipeline manager and the operations on it
    (pipeline-manager/src/db/operations/pipeline.rs), and the storage interface that runs
    each request as one transaction (pipeline-manager/src/db/storage_postgres.rs).

    A row holds the decoded values of its columns: the text of the status columns is
    related to them by [StatusText].  An operation takes the state of the database in
    its transaction and returns the new one; an error rolls the transaction back.
    [now] is the time of the transaction. *)
From stdpp Require Import strings sorting.
From S2P Require Import Prelude Machine PipelineTypes.
#[local] Open Scope string_scope.

(** ** What the manager uses from other code

    JSON values with the accessors of serde_json, the derived (de)serialisers of the
    configuration types, the errors of the executor of pipelines, and the edition
    of the build. *)
Class Externals := {
  Value : Type;
  #[global] Value_eq_dec :: EqDecision Value;
  json_get : Value → string → option Value;
  json_as_str : Value → option string;
  json_is_null : Value → bool;
  json_is_object : Value → bool;
  json_string : string → Value;
  json_empty_object : Value;
  RuntimeConfig : Type;
  ProgramConfig : Type;
  ProgramInfo : Type;
  PipelineConfig : Type;
  SqlCompilerMessage : Type;
  ManagerError : Type;
  runtime_config_from_value : Value → string + RuntimeConfig;
  program_config_from_value : Value → string + ProgramConfig;
  program_info_from_value : Value → string + ProgramInfo;
  deployment_config_from_value : Value → string + PipelineConfig;
  runtime_config_to_value : RuntimeConfig → string + Value;
  program_config_to_value : ProgramConfig → string + Value;
  deployment_config_to_value : PipelineConfig → string + Value;
  fault_tolerance_is_enabled : RuntimeConfig → bool;
  feldera_enterprise : bool }.

Section db.
Context `{EX : Externals}.
Notation result := (result Value).
Notation DBError := (DBError Value).

(** ** Data *)

Record SqlCompilationInfo := { sql_exit_code : Z; sql_messages : list SqlCompilerMessage }.
Record RustCompilationInfo := { rust_exit_code : Z; rust_stdout : string; rust_stderr : string }.

Record ProgramError := {
  sql_compilation : option SqlCompilationInfo;
  rust_compilation : option RustCompilationInfo;
  system_error : option string }.

Definition no_program_error : ProgramError :=
  {| sql_compilation := None; rust_compilation := None; system_error := None |}.

(** The errors with which the runner stops a pipeline. *)
Inductive RunnerError :=
| AutomatonImpossibleDesiredStatus (current_status : ResourcesStatus.t)
    (desired_status : ResourcesDesiredStatus.t)
| AutomatonCannotProvisionUnsupportedPlatformVersion (runner_version pipeline_version : string)
| AutomatonInvalidRuntimeConfig (value : Value) (error : ValidationError)
| AutomatonMissingProgramInfo
| AutomatonInvalidProgramInfo (value : Value) (error : ValidationError)
| AutomatonFailedToSerializeDeploymentConfig (error : string)
| AutomatonMissingDeploymentInitial
| AutomatonMissingDeploymentId
| AutomatonMissingDeploymentConfig
| AutomatonInvalidDeploymentConfig (value : Value) (error : ValidationError)
| AutomatonCannotConstructProgramBinaryUrl (error : string)
| AutomatonProvisioningTimeout (timeout_secs : Z)
| AutomatonMissingDeploymentLocation
| PipelineInteractionInvalidResponse (error : string).

(** An error response is represented by the error it reports, or by the JSON body it was
    received as. *)
Inductive ErrorResponse :=
| of_runner_error (e : RunnerError)
| of_db_error (e : DBError)
| of_manager_error (e : ManagerError)
| of_body (body : Value).

(** The columns of the table, grouped by the statements that write them. *)
Record Description := {
  name : string;
  description : string;
  platform_version : string;
  runtime_config : Value;
  program_code : string;
  udf_rust : string;
  udf_toml : string;
  program_config : Value;
  version : Version }.

Record Program := {
  program_version : Version;
  program_status : ProgramStatus.t;
  program_status_since : Z;
  program_error : ProgramError;
  program_info : option Value;
  program_binary_source_checksum : option string;
  program_binary_integrity_checksum : option string;
  program_info_integrity_checksum : option string }.

Record Deployment := {
  deployment_error : option ErrorResponse;
  deployment_config : option Value;
  deployment_location : option string;
  suspend_info : option Value;
  deployment_id : option N;
  deployment_initial : option RuntimeDesiredStatus.t;
  bootstrap_policy : option BootstrapPolicy.t;
  deployment_resources_status : ResourcesStatus.t;
  deployment_resources_status_since : Z;
  deployment_resources_desired_status : ResourcesDesiredStatus.t;
  deployment_resources_desired_status_since : Z;
  deployment_runtime_status : option RuntimeStatus.t;
  deployment_runtime_status_details : option Value;
  deployment_runtime_status_since : option Z;
  deployment_runtime_desired_status : option RuntimeDesiredStatus.t;
  deployment_runtime_desired_status_since : option Z }.

Record Row := MkRow {
  row_id : PipelineId;
  row_tenant : TenantId;
  created_at : Z;
  descr :> Description;
  prog :> Program;
  depl :> Deployment;
  storage_status : StorageStatus.t;
  refresh_version : Version;
  notify_counter : Z }.

Record Db := { tenants : list TenantId; pipelines : list Row }.

(** ** Statements *)

(** [query_opt]: at most one row. *)
Definition query_opt (txn : Db) (cond : Row → bool) : result (option Row) :=
  match filter (λ r, cond r = true) (pipelines txn) with
  | [] => Ok None
  | [r] => Ok (Some r)
  | _ => Err PostgresError
  end.

(** [UPDATE ... WHERE cond]: the number of affected rows and the new state. *)
Definition execute_update (txn : Db) (cond : Row → bool) (f : Row → Row) : nat * Db :=
  (length (filter (λ r, cond r = true) (pipelines txn)),
   {| tenants := tenants txn;
      pipelines := (λ r, if cond r then f r else r) <$> pipelines txn |}).

Definition by_name (t : TenantId) (n : string) (r : Row) : bool :=
  bool_decide (row_tenant r = t) && bool_decide (name r = n).
Definition by_id (t : TenantId) (i : PipelineId) (r : Row) : bool :=
  bool_decide (row_tenant r = t) && bool_decide (row_id r = i).

Definition with_descr (r : Row) (d : Description) : Row :=
  MkRow (row_id r) (row_tenant r) (created_at r) d (prog r) (depl r) (storage_status r)
    (refresh_version r) (notify_counter r).
Definition with_prog (r : Row) (p : Program) : Row :=
  MkRow (row_id r) (row_tenant r) (created_at r) (descr r) p (depl r) (storage_status r)
    (refresh_version r) (notify_counter r).
Definition with_depl (r : Row) (d : Deployment) : Row :=
  MkRow (row_id r) (row_tenant r) (created_at r) (descr r) (prog r) d (storage_status r)
    (refresh_version r) (notify_counter r).
Definition with_storage (r : Row) (s : StorageStatus.t) : Row :=
  MkRow (row_id r) (row_tenant r) (created_at r) (descr r) (prog r) (depl r) s
    (refresh_version r) (notify_counter r).
Definition with_refresh (r : Row) (v : Version) : Row :=
  MkRow (row_id r) (row_tenant r) (created_at r) (descr r) (prog r) (depl r) (storage_status r)
    v (notify_counter r).
Definition with_notify (r : Row) (n : Z) : Row :=
  MkRow (row_id r) (row_tenant r) (created_at r) (descr r) (prog r) (depl r) (storage_status r)
    (refresh_version r) n.

(** ** Validation of JSON *)

Definition map_err {A B C} (f : A → B) (x : A + C) : B + C :=
  match x with inl a => inl (f a) | inr c => inr c end.

Definition ok_or {A B} (e : A → DBError) (x : A + B) : result B :=
  match x with inl a => Err (e a) | inr b => Ok b end.

Definition validate_runtime_config (value : Value) : ValidationError + RuntimeConfig :=
  match map_err DeserializationFailed (runtime_config_from_value value) with
  | inl e => inl e
  | inr rc =>
      if negb feldera_enterprise && fault_tolerance_is_enabled rc
      then inl (EnterpriseFeature "fault tolerance")
      else inr rc
  end.

Definition validate_program_config (value : Value) : ValidationError + ProgramConfig :=
  map_err DeserializationFailed (program_config_from_value value).
Definition validate_program_info (value : Value) : ValidationError + ProgramInfo :=
  map_err DeserializationFailed (program_info_from_value value).
Definition validate_deployment_config (value : Value) : ValidationError + PipelineConfig :=
  map_err DeserializationFailed (deployment_config_from_value value).

(** The configurations are validated and serialised again, with defaults filled in. *)
Definition normalize_runtime_config (value : Value) : result Value :=
  rc ← ok_or (InvalidRuntimeConfig value) (validate_runtime_config value);
  ok_or FailedToSerializeRuntimeConfig (runtime_config_to_value rc).

Definition normalize_program_config (value : Value) : result Value :=
  pc ← ok_or (InvalidProgramConfig value) (validate_program_config value);
  ok_or FailedToSerializeProgramConfig (program_config_to_value pc).

Definition on_some {A B} (f : A → result B) (o : option A) : result (option B) :=
  match o with
  | None => Ok None
  | Some a => b ← f a; Ok (Some b)
  end.

(** ** Retrieval *)

Definition get_pipeline (txn : Db) (tenant_id : TenantId) (n : string) : result Row :=
  r ← query_opt txn (by_name tenant_id n);
  match r with Some r => Ok r | None => Err (UnknownPipelineName n) end.

Definition get_pipeline_by_id (txn : Db) (tenant_id : TenantId) (i : PipelineId) : result Row :=
  r ← query_opt txn (by_id tenant_id i);
  match r with Some r => Ok r | None => Err (UnknownPipeline i) end.

(** [ORDER BY p.id ASC] *)
Definition id_le (r1 r2 : Row) : Prop := (row_id r1 ≤ row_id r2)%N.
#[global] Instance id_le_dec : RelDecision id_le := λ r1 r2, decide (row_id r1 ≤ row_id r2)%N.

Definition list_pipelines (txn : Db) (tenant_id : TenantId) : list Row :=
  merge_sort id_le (filter (λ r, row_tenant r = tenant_id) (pipelines txn)).

Definition list_pipelines_across_all_tenants_for_monitoring (txn : Db) : list (TenantId * Row) :=
  (λ r, (row_tenant r, r)) <$> merge_sort id_le (pipelines txn).

Definition list_pipeline_ids_across_all_tenants (txn : Db) : list (TenantId * PipelineId) :=
  (λ r, (row_tenant r, row_id r)) <$> merge_sort id_le (pipelines txn).

(** ** Creation *)

Record PipelineDescr := {
  pd_name : string;
  pd_description : string;
  pd_runtime_config : Value;
  pd_program_code : string;
  pd_udf_rust : string;
  pd_udf_toml : string;
  pd_program_config : Value }.

Definition new_row (now : Z) (tenant_id : TenantId) (new_id : N) (pv : string) (p : PipelineDescr)
    (rc pc : Value) : Row :=
  {| row_id := new_id; row_tenant := tenant_id; created_at := now;
     descr := {| name := pd_name p; description := pd_description p; platform_version := pv;
       runtime_config := rc; program_code := pd_program_code p; udf_rust := pd_udf_rust p;
       udf_toml := pd_udf_toml p; program_config := pc; version := 1%Z |};
     prog := {| program_version := 1%Z; program_status := ProgramStatus.Pending;
       program_status_since := now; program_error := no_program_error; program_info := None;
       program_binary_source_checksum := None; program_binary_integrity_checksum := None;
       program_info_integrity_checksum := None |};
     depl := {| deployment_error := None; deployment_config := None; deployment_location := None;
       suspend_info := None; deployment_id := None; deployment_initial := None;
       bootstrap_policy := None;
       deployment_resources_status := ResourcesStatus.Stopped;
       deployment_resources_status_since := now;
       deployment_resources_desired_status := ResourcesDesiredStatus.Stopped;
       deployment_resources_desired_status_since := now;
       deployment_runtime_status := None; deployment_runtime_status_details := None;
       deployment_runtime_status_since := None; deployment_runtime_desired_status := None;
       deployment_runtime_desired_status_since := None |};
     storage_status := StorageStatus.Cleared; refresh_version := 1%Z; notify_counter := 0%Z |}.

(** The constraints of the table: the primary key, the unique name per tenant and the
    reference to the tenant. *)
Definition insert_row (txn : Db) (r : Row) : result Db :=
  if existsb (λ s, bool_decide (row_id s = row_id r)) (pipelines txn)
  then Err (UniqueKeyViolation "pipeline_pkey")
  else if existsb (by_name (row_tenant r) (name r)) (pipelines txn) then Err DuplicateName
  else if negb (existsb (λ t, bool_decide (t = row_tenant r)) (tenants txn))
  then Err (UnknownTenant (row_tenant r))
  else Ok {| tenants := tenants txn; pipelines := pipelines txn ++ [r] |}.

Definition new_pipeline (now : Z) (txn : Db) (tenant_id : TenantId) (new_id : N) (pv : string)
    (p : PipelineDescr) : result ((PipelineId * Version) * Db) :=
  _ ← validate_name (pd_name p);
  rc ← normalize_runtime_config (pd_runtime_config p);
  pc ← normalize_program_config (pd_program_config p);
  txn' ← insert_row txn (new_row now tenant_id new_id pv p rc pc);
  Ok ((new_id, 1%Z), txn').

(** ** Modification *)

(** [v.is_none() || v.is_some_and(|v| *v == current)] and [v.is_some_and(|v| *v != current)]. *)
Definition unchanged `{EqDecision A} (new : option A) (current : A) : bool :=
  match new with None => true | Some v => bool_decide (v = current) end.
Definition changed `{EqDecision A} (new : option A) (current : A) : bool :=
  match new with None => false | Some v => negb (bool_decide (v = current)) end.

(** The optional fields of an update. *)
Record Update := {
  up_name : option string;
  up_description : option string;
  up_runtime_config : option Value;
  up_program_code : option string;
  up_udf_rust : option string;
  up_udf_toml : option string;
  up_program_config : option Value }.

Definition no_update : Update :=
  {| up_name := None; up_description := None; up_runtime_config := None; up_program_code := None;
     up_udf_rust := None; up_udf_toml := None; up_program_config := None |}.

Definition nothing_changes (current : Row) (u : Update) (bump : bool) (pv : string) : bool :=
  unchanged (up_name u) (name current) && unchanged (up_description u) (description current)
  && (negb bump || bool_decide (pv = platform_version current))
  && unchanged (up_runtime_config u) (runtime_config current)
  && unchanged (up_program_code u) (program_code current)
  && unchanged (up_udf_rust u) (udf_rust current) && unchanged (up_udf_toml u) (udf_toml current)
  && unchanged (up_program_config u) (program_config current).

Definition program_changes (current : Row) (u : Update) (bump : bool) (pv : string) : bool :=
  (bump && negb (bool_decide (pv = platform_version current)))
  || changed (up_program_code u) (program_code current)
  || changed (up_udf_rust u) (udf_rust current) || changed (up_udf_toml u) (udf_toml current)
  || changed (up_program_config u) (program_config current).

Definition storage_mb_max (rc : Value) : option (option Value) :=
  (λ v, json_get v "storage_mb_max") <$> json_get rc "resources".

(** The changed fields whose edit requires cleared storage. *)
Definition edits_not_allowed (current : Row) (u : Update) : list string :=
  (if changed (up_name u) (name current) then ["`name`"] else [])
  ++ (if changed (up_description u) (description current) then ["`description`"] else [])
  ++ match up_runtime_config u with
     | None => []
     | Some rc =>
         (if negb (bool_decide (json_get rc "workers" = json_get (runtime_config current) "workers"))
          then ["`runtime_config.workers`"] else [])
         ++ (if negb (bool_decide (json_get rc "fault_tolerance"
                                   = json_get (runtime_config current) "fault_tolerance"))
             then ["`runtime_config.fault_tolerance`"] else [])
         ++ (if negb (bool_decide (storage_mb_max rc = storage_mb_max (runtime_config current)))
             then ["`runtime_config.resources.storage_mb_max`"] else [])
     end.

(** The first statement: coalesced columns and incremented versions, with the unique
    name and the range of a bigint. *)
Definition update_description (u : Update) (pv : option string) (r : Row) : Row :=
  with_refresh (with_descr r
    {| name := default (name r) (up_name u);
       description := default (description r) (up_description u);
       platform_version := default (platform_version r) pv;
       runtime_config := default (runtime_config r) (up_runtime_config u);
       program_code := default (program_code r) (up_program_code u);
       udf_rust := default (udf_rust r) (up_udf_rust u);
       udf_toml := default (udf_toml r) (up_udf_toml u);
       program_config := default (program_config r) (up_program_config u);
       version := (version r + 1)%Z |}) (refresh_version r + 1)%Z.

Definition execute_update_description (txn : Db) (tenant_id : TenantId) (original_name : string)
    (u : Update) (pv : option string) : result (nat * Db) :=
  let new_name := default original_name (up_name u) in
  if negb (bool_decide (new_name = original_name))
     && existsb (by_name tenant_id new_name) (pipelines txn)
  then Err DuplicateName
  else if forallb (λ r, negb (by_name tenant_id original_name r)
                        || in_range i64 (version r + 1)%Z && in_range i64 (refresh_version r + 1)%Z)
            (pipelines txn)
  then Ok (execute_update txn (by_name tenant_id original_name) (update_description u pv))
  else Err PostgresError.

(** The second statement, when the program changed. *)
Definition reset_program (now : Z) (r : Row) : Row :=
  with_prog r
    {| program_version := (program_version r + 1)%Z;
       program_status := ProgramStatus.Pending; program_status_since := now;
       program_error := no_program_error; program_info := None;
       program_binary_source_checksum := None; program_binary_integrity_checksum := None;
       program_info_integrity_checksum := program_info_integrity_checksum r |}.

Definition execute_reset_program (now : Z) (txn : Db) (tenant_id : TenantId) (n : string)
    : result (nat * Db) :=
  if forallb (λ r, negb (by_name tenant_id n r) || in_range i64 (program_version r + 1)%Z)
       (pipelines txn)
  then Ok (execute_update txn (by_name tenant_id n) (reset_program now))
  else Err PostgresError.

(** Updates are allowed when stopped; by the compiler also when about to start. *)
Definition update_allowed (is_compiler_update : bool) (current : Row) : bool :=
  match is_compiler_update, deployment_resources_status current,
        deployment_resources_desired_status current with
  | _, ResourcesStatus.Stopped, ResourcesDesiredStatus.Stopped => true
  | true, ResourcesStatus.Stopped, ResourcesDesiredStatus.Provisioned => true
  | _, _, _ => false
  end.

Definition is_no_update (u : Update) : bool :=
  bool_decide (up_name u = None) && bool_decide (up_description u = None)
  && bool_decide (up_runtime_config u = None) && bool_decide (up_program_code u = None)
  && bool_decide (up_udf_rust u = None) && bool_decide (up_udf_toml u = None)
  && bool_decide (up_program_config u = None).

Definition update_pipeline (now : Z) (txn : Db) (is_compiler_update : bool) (tenant_id : TenantId)
    (original_name : string) (u : Update) (pv : string) (bump : bool) : result (Version * Db) :=
  _ ← on_some validate_name (up_name u);
  rc ← on_some normalize_runtime_config (up_runtime_config u);
  pc ← on_some normalize_program_config (up_program_config u);
  let u := {| up_name := up_name u; up_description := up_description u; up_runtime_config := rc;
              up_program_code := up_program_code u; up_udf_rust := up_udf_rust u;
              up_udf_toml := up_udf_toml u; up_program_config := pc |} in
  current ← get_pipeline txn tenant_id original_name;
  _ ← throw_if (negb (update_allowed is_compiler_update current)) UpdateRestrictedToStopped;
  _ ← assert_ok (negb is_compiler_update || (bump && is_no_update u));
  if nothing_changes current u bump pv then Ok (version current, txn) else
  _ ← throw_if (negb (bool_decide (storage_status current = StorageStatus.Cleared))
                && negb (bool_decide (edits_not_allowed current u = [])))
        (EditRestrictedToClearedStorage (edits_not_allowed current u));
  let program_changed := program_changes current u bump pv in
  let bump := bump || program_changed in
  '(rows_affected, txn) ←
    execute_update_description txn tenant_id original_name u (if bump then Some pv else None);
  _ ← assert_ok (bool_decide (rows_affected = 1));
  txn ←
    (if program_changed then
       '(rows_affected, txn) ←
         execute_reset_program now txn tenant_id (default original_name (up_name u));
       _ ← assert_ok (bool_decide (rows_affected = 1));
       Ok txn
     else Ok txn);
  Ok ((version current + 1)%Z, txn).

Definition delete_pipeline (txn : Db) (tenant_id : TenantId) (n : string)
    : result (PipelineId * Db) :=
  current ← get_pipeline txn tenant_id n;
  _ ← throw_if (negb (bool_decide (deployment_resources_status current = ResourcesStatus.Stopped))
                || negb (bool_decide (deployment_resources_desired_status current
                                      = ResourcesDesiredStatus.Stopped)))
        DeleteRestrictedToFullyStopped;
  _ ← throw_if (negb (bool_decide (storage_status current = StorageStatus.Cleared)))
        DeleteRestrictedToClearedStorage;
  let res := length (filter (λ r, by_name tenant_id n r = true) (pipelines txn)) in
  if (0 <? res)%nat
  then Ok (row_id current,
           {| tenants := tenants txn;
              pipelines := filter (λ r, by_name tenant_id n r = false) (pipelines txn) |})
  else Err (UnknownPipelineName n).

(** ** Program status *)

(** The optional arguments of [set_program_status]. *)
Record ProgramUpdate := {
  new_sql_compilation : option SqlCompilationInfo;
  new_rust_compilation : option RustCompilationInfo;
  new_system_error : option string;
  new_program_info : option Value;
  new_source_checksum : option string;
  new_integrity_checksum : option string;
  new_info_checksum : option string }.

Definition no_program_update : ProgramUpdate :=
  {| new_sql_compilation := None; new_rust_compilation := None; new_system_error := None;
     new_program_info := None; new_source_checksum := None; new_integrity_checksum := None;
     new_info_checksum := None |}.

Definition is_some {A} (o : option A) : bool := match o with Some _ => true | None => false end.

(** Which of the arguments are present, in their order. *)
Definition present (u : ProgramUpdate) : list bool :=
  [is_some (new_sql_compilation u); is_some (new_rust_compilation u); is_some (new_system_error u);
   is_some (new_program_info u); is_some (new_source_checksum u);
   is_some (new_integrity_checksum u); is_some (new_info_checksum u)].

(** The arguments that each new status requires, the final values of the columns, and whether
    the refresh version is incremented. *)
Definition required_arguments (s : ProgramStatus.t) : list bool :=
  match s with
  | ProgramStatus.Pending | ProgramStatus.CompilingSql | ProgramStatus.CompilingRust =>
      [false; false; false; false; false; false; false]
  | ProgramStatus.SqlCompiled => [true; false; false; true; false; false; false]
  | ProgramStatus.Success => [false; true; false; false; true; true; true]
  | ProgramStatus.SqlError => [true; false; false; false; false; false; false]
  | ProgramStatus.RustError => [false; true; false; false; false; false; false]
  | ProgramStatus.SystemError => [false; false; true; false; false; false; false]
  end.

Definition final_columns (current : Row) (s : ProgramStatus.t) (u : ProgramUpdate)
    : ProgramError * option Value * (option string * option string * option string) * bool :=
  let cur := program_error current in
  match s with
  | ProgramStatus.Pending => (no_program_error, None, (None, None, None), true)
  | ProgramStatus.CompilingSql => (no_program_error, None, (None, None, None), false)
  | ProgramStatus.SqlCompiled =>
      ({| sql_compilation := new_sql_compilation u; rust_compilation := None; system_error := None |},
       new_program_info u, (None, None, None), true)
  | ProgramStatus.CompilingRust =>
      ({| sql_compilation := sql_compilation cur; rust_compilation := None; system_error := None |},
       program_info current, (None, None, None), false)
  | ProgramStatus.Success =>
      ({| sql_compilation := sql_compilation cur; rust_compilation := new_rust_compilation u;
          system_error := None |},
       program_info current,
       (new_source_checksum u, new_integrity_checksum u, new_info_checksum u), true)
  | ProgramStatus.SqlError =>
      ({| sql_compilation := new_sql_compilation u; rust_compilation := None; system_error := None |},
       None, (None, None, None), true)
  | ProgramStatus.RustError =>
      ({| sql_compilation := sql_compilation cur; rust_compilation := new_rust_compilation u;
          system_error := None |},
       program_info current, (None, None, None), true)
  | ProgramStatus.SystemError =>
      ({| sql_compilation := sql_compilation cur; rust_compilation := rust_compilation cur;
          system_error := new_system_error u |},
       program_info current, (None, None, None), true)
  end.

Definition validate_info (info : option Value) : result () :=
  match info with
  | None => Ok ()
  | Some v => _ ← ok_or (InvalidProgramInfo v) (validate_program_info v); Ok ()
  end.

(** An UPDATE of one pipeline by its identifier. *)
Definition update_by_id (txn : Db) (tenant_id : TenantId) (i : PipelineId) (f : Row → Row)
    : result Db :=
  let '(rows_affected, txn) := execute_update txn (by_id tenant_id i) f in
  if (0 <? rows_affected)%nat then Ok txn else Err (UnknownPipeline i).

Definition set_program_status (now : Z) (txn : Db) (tenant_id : TenantId) (i : PipelineId)
    (program_version_guard : Version) (s : ProgramStatus.t) (u : ProgramUpdate) : result Db :=
  current ← get_pipeline_by_id txn tenant_id i;
  _ ← throw_if (negb (bool_decide (program_version current = program_version_guard)))
        (OutdatedProgramVersion program_version_guard (program_version current));
  _ ← validate_program_status_transition (program_status current) s;
  _ ← throw_if (negb (bool_decide (deployment_resources_status current = ResourcesStatus.Stopped)))
        ProgramStatusUpdateRestrictedToStopped;
  _ ← assert_ok (bool_decide (present u = required_arguments s));
  let '(final_program_error, final_program_info, (c1, c2, c3), increment_refresh_version) :=
    final_columns current s u in
  _ ← validate_info final_program_info;
  final_refresh_version ←
    (if increment_refresh_version
     then match checked i64 (refresh_version current + 1)%Z with Some v => Ok v | None => Panic end
     else Ok (refresh_version current));
  update_by_id txn tenant_id i (λ r,
    with_refresh (with_prog r
      {| program_version := program_version r; program_status := s; program_status_since := now;
         program_error := final_program_error; program_info := final_program_info;
         program_binary_source_checksum := c1; program_binary_integrity_checksum := c2;
         program_info_integrity_checksum := c3 |}) final_refresh_version).

(** ** Deployment status *)

Definition check_precondition (condition : bool) (info : string) : result () :=
  if condition then Ok () else Err (PreconditionViolation info).

(** The JSON value at the end of a path of object keys. *)
Fixpoint json_path (v : Value) (keys : list string) : option Value :=
  match keys with
  | [] => Some v
  | k :: keys => v ← json_get v k; json_path v keys
  end.

Definition is_file_backend (rc : Value) : bool :=
  match json_path rc ["storage"; "backend"; "name"] with
  | Some v => bool_decide (json_as_str v = Some "file")
  | None => false
  end.

Definition is_sync_configured (rc : Value) : bool :=
  match json_path rc ["storage"; "backend"; "config"; "sync"] with
  | Some v => negb (json_is_null v)
  | None => false
  end.

(** [CASE WHEN column = value THEN since ELSE NOW() END] *)
Definition since `{EqDecision A} (now : Z) (column value : A) (old : Z) : Z :=
  if bool_decide (column = value) then old else now.

(** The same on a nullable column, whose time stamp is NULL with it. *)
Definition since_opt `{EqDecision A} (now : Z) (column value : option A) (old : option Z) : option Z :=
  match value with
  | None => None
  | Some v => if bool_decide (column = Some v) then old else Some now
  end.

Definition set_deployment_resources_desired_status (now : Z) (txn : Db) (tenant_id : TenantId)
    (pipeline_name : string) (new_desired_status : ResourcesDesiredStatus.t)
    (initial_runtime_desired_status : option RuntimeDesiredStatus.t)
    (policy : option BootstrapPolicy.t) : result (PipelineId * Db) :=
  current ← get_pipeline txn tenant_id pipeline_name;
  _ ← validate_resources_desired_status_transition (deployment_resources_status current)
        (deployment_resources_desired_status current) new_desired_status;
  '(final_deployment_initial, final_bootstrap) ←
    match new_desired_status with
    | ResourcesDesiredStatus.Stopped =>
        _ ← check_precondition (negb (is_some initial_runtime_desired_status))
              "initial_runtime_desired_status should be None when becoming desired Stopped";
        Ok (if bool_decide (deployment_resources_status current = ResourcesStatus.Stopped)
            then (None, None) else (deployment_initial current, bootstrap_policy current))
    | ResourcesDesiredStatus.Provisioned =>
        _ ← check_precondition (is_some initial_runtime_desired_status)
              "initial_runtime_desired_status should be Some when becoming desired Provisioned";
        Ok (initial_runtime_desired_status, policy)
    end;
  _ ← throw_if
        match deployment_initial current, final_deployment_initial with
        | Some cur, Some new =>
            negb (bool_decide ((cur, bootstrap_policy current) = (new, final_bootstrap)))
        | _, _ => false
        end InitialImmutableUnlessStopped;
  _ ← throw_if (bool_decide (final_deployment_initial = Some RuntimeDesiredStatus.Standby)
                && (negb (is_file_backend (runtime_config current))
                    || negb (is_sync_configured (runtime_config current))))
        InitialStandbyNotAllowed;
  txn ← update_by_id txn tenant_id (row_id current) (λ r, with_depl r
    {| deployment_error := deployment_error r; deployment_config := deployment_config r;
       deployment_location := deployment_location r; suspend_info := suspend_info r;
       deployment_id := deployment_id r; deployment_initial := final_deployment_initial;
       bootstrap_policy := final_bootstrap;
       deployment_resources_status := deployment_resources_status r;
       deployment_resources_status_since := deployment_resources_status_since r;
       deployment_resources_desired_status := new_desired_status;
       deployment_resources_desired_status_since :=
         since now (deployment_resources_desired_status r) new_desired_status
           (deployment_resources_desired_status_since r);
       deployment_runtime_status := deployment_runtime_status r;
       deployment_runtime_status_details := deployment_runtime_status_details r;
       deployment_runtime_status_since := deployment_runtime_status_since r;
       deployment_runtime_desired_status := deployment_runtime_desired_status r;
       deployment_runtime_desired_status_since := deployment_runtime_desired_status_since r |});
  Ok (row_id current, txn).

(** The optional arguments of [set_deployment_resources_status]. *)
Record StatusUpdate := {
  new_runtime_status : option RuntimeStatus.t;
  new_runtime_status_details : option Value;
  new_runtime_desired_status : option RuntimeDesiredStatus.t;
  new_deployment_error : option ErrorResponse;
  new_deployment_id : option N;
  new_deployment_config : option Value;
  new_deployment_location : option string;
  new_suspend_info : option Value }.

Definition no_status_update : StatusUpdate :=
  {| new_runtime_status := None; new_runtime_status_details := None;
     new_runtime_desired_status := None; new_deployment_error := None; new_deployment_id := None;
     new_deployment_config := None; new_deployment_location := None; new_suspend_info := None |}.

(** Stopping, Stopped to Stopping and back do not require a compiled program. *)
Definition requires_compiled_program (current new : ResourcesStatus.t) : bool :=
  match current, new with
  | ResourcesStatus.Stopped, ResourcesStatus.Stopping
  | ResourcesStatus.Stopping, ResourcesStatus.Stopped => false
  | _, _ => true
  end.

Definition should_be (field : string) (some : bool) (s : ResourcesStatus.t) : string :=
  field ++ " should be " ++ (if some then "Some" else "None") ++ " when becoming "
  ++ resources_status_to_string s.

(** Why the pipeline stopped: reset when it is provisioning again. *)
Definition stopping_information (current : Row) (s : ResourcesStatus.t) (u : StatusUpdate)
    : result (option ErrorResponse * option Value) :=
  match s with
  | ResourcesStatus.Stopped =>
      _ ← check_precondition (negb (is_some (new_deployment_error u)))
            (should_be "new_deployment_error" false s);
      _ ← check_precondition (negb (is_some (new_suspend_info u)))
            (should_be "new_suspend_info" false s);
      Ok (deployment_error current, suspend_info current)
  | ResourcesStatus.Provisioning | ResourcesStatus.Provisioned =>
      _ ← check_precondition (negb (is_some (new_deployment_error u)))
            (should_be "new_deployment_error" false s);
      _ ← check_precondition (negb (is_some (new_suspend_info u)))
            (should_be "new_suspend_info" false s);
      Ok (None, None)
  | ResourcesStatus.Stopping => Ok (new_deployment_error u, new_suspend_info u)
  end.

(** The parameters generated before provisioning: reset when stopping. *)
Definition provisioning_information (current : Row) (s : ResourcesStatus.t) (u : StatusUpdate)
    : result (option N * option Value) :=
  match s with
  | ResourcesStatus.Stopped | ResourcesStatus.Stopping =>
      _ ← check_precondition (negb (is_some (new_deployment_id u)))
            (should_be "new_deployment_id" false s);
      _ ← check_precondition (negb (is_some (new_deployment_config u)))
            (should_be "new_deployment_config" false s);
      Ok (None, None)
  | ResourcesStatus.Provisioning =>
      _ ← check_precondition (is_some (new_deployment_id u)) (should_be "new_deployment_id" true s);
      _ ← check_precondition (is_some (new_deployment_config u))
            (should_be "new_deployment_config" true s);
      Ok (new_deployment_id u, new_deployment_config u)
  | ResourcesStatus.Provisioned =>
      _ ← check_precondition (negb (is_some (new_deployment_id u)))
            (should_be "new_deployment_id" false s);
      _ ← check_precondition (negb (is_some (new_deployment_config u)))
            (should_be "new_deployment_config" false s);
      Ok (deployment_id current, deployment_config current)
  end.

(** What provisioning produced: reset when stopping. *)
Definition provisioned_information (s : ResourcesStatus.t) (u : StatusUpdate)
    : result (option string * option RuntimeStatus.t * option Value * option RuntimeDesiredStatus.t) :=
  match s with
  | ResourcesStatus.Stopped | ResourcesStatus.Provisioning | ResourcesStatus.Stopping =>
      _ ← check_precondition (negb (is_some (new_deployment_location u)))
            (should_be "new_deployment_location" false s);
      _ ← check_precondition (negb (is_some (new_runtime_status u)))
            (should_be "new_deployment_runtime_status" false s);
      _ ← check_precondition (negb (is_some (new_runtime_desired_status u)))
            (should_be "new_deployment_runtime_desired_status" false s);
      Ok (None, None, None, None)
  | ResourcesStatus.Provisioned =>
      _ ← check_precondition (is_some (new_deployment_location u))
            (should_be "new_deployment_location" true s);
      _ ← check_precondition (is_some (new_runtime_status u))
            (should_be "new_deployment_runtime_status" true s);
      _ ← check_precondition (is_some (new_runtime_desired_status u))
            (should_be "new_deployment_runtime_desired_status" true s);
      Ok (new_deployment_location u, new_runtime_status u, new_runtime_status_details u,
          new_runtime_desired_status u)
  end.

Definition validate_config (config : option Value) : result () :=
  match config with
  | None => Ok ()
  | Some v => _ ← ok_or (InvalidDeploymentConfig v) (validate_deployment_config v); Ok ()
  end.

Definition final_deployment_initial (current : Row) (s : ResourcesStatus.t)
    : option RuntimeDesiredStatus.t :=
  match s with
  | ResourcesStatus.Stopped | ResourcesStatus.Stopping => None
  | ResourcesStatus.Provisioning | ResourcesStatus.Provisioned => deployment_initial current
  end.

Definition set_deployment_resources_status (now : Z) (txn : Db) (tenant_id : TenantId)
    (i : PipelineId) (version_guard : Version) (s : ResourcesStatus.t) (u : StatusUpdate)
    : result Db :=
  current ← get_pipeline_by_id txn tenant_id i;
  _ ← throw_if (negb (bool_decide (version current = version_guard)))
        (OutdatedPipelineVersion version_guard (version current));
  _ ← validate_resources_status_transition (storage_status current)
        (deployment_resources_status current) s;
  _ ← throw_if (requires_compiled_program (deployment_resources_status current) s
                && negb (bool_decide (program_status current = ProgramStatus.Success)))
        (TransitionRequiresCompiledProgram (deployment_resources_status current) s);
  '(final_error, final_suspend_info) ← stopping_information current s u;
  '(final_id, final_config) ← provisioning_information current s u;
  _ ← validate_config final_config;
  '(final_location, final_runtime_status, final_details, final_runtime_desired_status) ←
    provisioned_information s u;
  update_by_id txn tenant_id i (λ r, with_depl r
    {| deployment_error := final_error; deployment_config := final_config;
       deployment_location := final_location; suspend_info := final_suspend_info;
       deployment_id := final_id; deployment_initial := final_deployment_initial current s;
       bootstrap_policy := bootstrap_policy r;
       deployment_resources_status := s;
       deployment_resources_status_since :=
         since now (deployment_resources_status r) s (deployment_resources_status_since r);
       deployment_resources_desired_status := deployment_resources_desired_status r;
       deployment_resources_desired_status_since := deployment_resources_desired_status_since r;
       deployment_runtime_status := final_runtime_status;
       deployment_runtime_status_details := final_details;
       deployment_runtime_status_since :=
         since_opt now (deployment_runtime_status r) final_runtime_status
           (deployment_runtime_status_since r);
       deployment_runtime_desired_status := final_runtime_desired_status;
       deployment_runtime_desired_status_since :=
         since_opt now (deployment_runtime_desired_status r) final_runtime_desired_status
           (deployment_runtime_desired_status_since r) |}).

Definition set_storage_status (txn : Db) (tenant_id : TenantId) (i : PipelineId)
    (s : StorageStatus.t) : result Db :=
  current ← get_pipeline_by_id txn tenant_id i;
  _ ← validate_storage_status_transition (deployment_resources_status (depl current))
        (storage_status current) s;
  update_by_id txn tenant_id i (λ r, with_storage r s).

Definition increment_notify_counter (txn : Db) (tenant_id : TenantId) (pipeline_name : string)
    : result Db :=
  if forallb (λ r, negb (by_name tenant_id pipeline_name r) || in_range i64 (notify_counter r + 1)%Z)
       (pipelines txn)
  then
    let '(rows_affected, txn) :=
      execute_update txn (by_name tenant_id pipeline_name)
        (λ r, with_notify r (notify_counter r + 1)%Z) in
    if (0 <? rows_affected)%nat then Ok txn else Err (UnknownPipelineName pipeline_name)
  else Err PostgresError.



(** ** Assignment of pipelines to compiler workers *)

(** The first eight bytes of the identifier, as an unsigned integer in the manager and as
    the absolute value of a bigint in SQL; [None] is the SQL error for the least bigint. *)
Definition pipeline_uuid_to_u64 (i : PipelineId) : Z := Z.of_N (i / 2 ^ 64) mod 2 ^ 64.

Definition is_pipeline_assigned_to_worker (i : PipelineId) (worker_index total_workers : Z) : bool :=
  bool_decide (pipeline_uuid_to_u64 i mod total_workers = worker_index)%Z.

Definition sql_pipeline_hash (i : PipelineId) : option Z :=
  let x := wrap i64 (pipeline_uuid_to_u64 i) in
  if in_range i64 (Z.abs x) then Some (Z.abs x) else None.

Definition sql_assigned_to_worker (i : PipelineId) (worker_id total_workers : Z) : option bool :=
  h ← sql_pipeline_hash i;
  if bool_decide (total_workers = 0%Z) then None
  else Some (bool_decide (Z.rem h total_workers = worker_id)).

(** [ORDER BY p.program_status_since ASC, p.id ASC LIMIT 1] *)
Definition earlier (r1 r2 : Row) : bool :=
  ((program_status_since r1 <? program_status_since r2)
   || ((program_status_since r1 =? program_status_since r2) && (row_id r1 <=? row_id r2)%N))%Z.

Definition pick_first (rows : list Row) : option Row :=
  foldr (λ r best, match best with
                   | None => Some r
                   | Some b => Some (if earlier r b then r else b)
                   end) None rows.

(** The next pipeline to compile whose program has status [s]. *)
Definition get_next_compilation (s : ProgramStatus.t) (txn : Db) (pv : string)
    (worker_id total_workers : Z) : result (option Row) :=
  let candidates := filter (λ r,
    deployment_resources_status (depl r) = ResourcesStatus.Stopped
    ∧ program_status r = s ∧ platform_version r = pv) (pipelines txn) in
  if existsb (λ r, negb (is_some (sql_assigned_to_worker (row_id r) worker_id total_workers)))
       candidates
  then Err PostgresError
  else Ok (pick_first (filter (λ r,
    sql_assigned_to_worker (row_id r) worker_id total_workers = Some true) candidates)).

Definition get_next_sql_compilation := get_next_compilation ProgramStatus.Pending.
Definition get_next_rust_compilation := get_next_compilation ProgramStatus.SqlCompiled.

(** ** Transactions *)

(** The result of a request and the committed state: an error or a panic rolls back. *)
Definition commit {A} (d : Db) (r : result (A * Db)) : result A * Db :=
  match r with
  | Ok (a, d') => (Ok a, d')
  | Err e => (Err e, d)
  | Panic => (Panic, d)
  end.

Definition unit_of (r : result Db) : result (() * Db) := d ← r; Ok ((), d).

Inductive ExtendedPipelineDescrRunner :=
| Monitoring (r : Row)
| Complete (r : Row).

Definition only_monitoring (p : ExtendedPipelineDescrRunner) : Row :=
  match p with Monitoring r | Complete r => r end.

(** [is_supported_runtime]: every pipeline version is supported. *)
Definition is_supported_runtime (platform_version runtime_version : string) : bool := true.

Definition get_pipeline_by_id_for_runner (d : Db) (tenant_id : TenantId) (i : PipelineId)
    (pv : string) (provision_called : bool) : result ExtendedPipelineDescrRunner :=
  pipeline ← get_pipeline_by_id d tenant_id i;
  let is_ready_compiled :=
    bool_decide (program_status (prog pipeline) = ProgramStatus.Success)
    && is_supported_runtime pv (platform_version pipeline) in
  match deployment_resources_status pipeline, deployment_resources_desired_status pipeline,
        is_ready_compiled, provision_called with
  | ResourcesStatus.Stopped, ResourcesDesiredStatus.Provisioned, true, _
  | ResourcesStatus.Provisioning, ResourcesDesiredStatus.Provisioned, _, false =>
      p ← get_pipeline_by_id d tenant_id i; Ok (Complete p)
  | _, _, _, _ => Ok (Monitoring pipeline)
  end.

Definition storage_new_pipeline (now : Z) (d : Db) (tenant_id : TenantId) (new_id : N)
    (pv : string) (p : PipelineDescr) : result Row * Db :=
  commit d ('(_, txn) ← new_pipeline now d tenant_id new_id pv p;
            r ← get_pipeline txn tenant_id (pd_name p); Ok (r, txn)).

Definition update_of_descr (p : PipelineDescr) : Update :=
  {| up_name := Some (pd_name p); up_description := Some (pd_description p);
     up_runtime_config := Some (pd_runtime_config p); up_program_code := Some (pd_program_code p);
     up_udf_rust := Some (pd_udf_rust p); up_udf_toml := Some (pd_udf_toml p);
     up_program_config := Some (pd_program_config p) |}.

Definition new_or_update_pipeline (now : Z) (d : Db) (tenant_id : TenantId) (new_id : N)
    (original_name pv : string) (bump : bool) (p : PipelineDescr) : result (bool * Row) * Db :=
  commit d (
    '(is_new, txn) ←
      match get_pipeline d tenant_id original_name with
      | Ok _ =>
          '(_, txn) ← update_pipeline now d false tenant_id original_name (update_of_descr p) pv bump;
          Ok (false, txn)
      | Err (UnknownPipelineName _) =>
          _ ← throw_if (negb (bool_decide (original_name = pd_name p)))
                CannotRenameNonExistingPipeline;
          '(_, txn) ← new_pipeline now d tenant_id new_id pv p;
          Ok (true, txn)
      | Err e => Err e
      | Panic => Panic
      end;
    r ← get_pipeline txn tenant_id (pd_name p);
    Ok ((is_new, r), txn)).

Definition storage_update_pipeline (now : Z) (d : Db) (tenant_id : TenantId)
    (original_name : string) (u : Update) (pv : string) (bump : bool) : result Row * Db :=
  commit d ('(_, txn) ← update_pipeline now d false tenant_id original_name u pv bump;
            r ← get_pipeline txn tenant_id (default original_name (up_name u)); Ok (r, txn)).

Definition testing_force_update_platform_version (d : Db) (tenant_id : TenantId)
    (pipeline_name pv : string) : result () * Db :=
  commit d (
    current ← get_pipeline d tenant_id pipeline_name;
    _ ← throw_if (negb (bool_decide (deployment_resources_status (depl current)
                                     = ResourcesStatus.Stopped))) UpdateRestrictedToStopped;
    let '(rows_affected, txn) :=
      execute_update d (λ r, bool_decide (row_id r = row_id current)) (λ r, with_descr r
        {| name := name r; description := description r; platform_version := pv;
           runtime_config := runtime_config r; program_code := program_code r;
           udf_rust := udf_rust r; udf_toml := udf_toml r; program_config := program_config r;
           version := version r |}) in
    _ ← assert_ok (bool_decide (rows_affected = 1));
    Ok ((), txn)).


Definition storage_delete_pipeline (d : Db) (tenant_id : TenantId) (n : string)
    : result PipelineId * Db :=
  commit d (delete_pipeline d tenant_id n).

(** *** Program status, by the compiler *)

Definition transit_program_status (now : Z) (d : Db) (t : TenantId) (i : PipelineId) (guard : Version)
    (s : ProgramStatus.t) (u : ProgramUpdate) : result () * Db :=
  commit d (unit_of (set_program_status now d t i guard s u)).

Definition transit_program_status_to_compiling_sql now d t i guard :=
  transit_program_status now d t i guard ProgramStatus.CompilingSql no_program_update.

Definition transit_program_status_to_sql_compiled now d t i guard (sql : SqlCompilationInfo)
    (info : Value) :=
  transit_program_status now d t i guard ProgramStatus.SqlCompiled
    {| new_sql_compilation := Some sql; new_rust_compilation := None; new_system_error := None;
       new_program_info := Some info; new_source_checksum := None; new_integrity_checksum := None;
       new_info_checksum := None |}.

Definition transit_program_status_to_compiling_rust now d t i guard :=
  transit_program_status now d t i guard ProgramStatus.CompilingRust no_program_update.

Definition transit_program_status_to_success now d t i guard (rust : RustCompilationInfo)
    (source_checksum integrity_checksum info_checksum : string) :=
  transit_program_status now d t i guard ProgramStatus.Success
    {| new_sql_compilation := None; new_rust_compilation := Some rust; new_system_error := None;
       new_program_info := None; new_source_checksum := Some source_checksum;
       new_integrity_checksum := Some integrity_checksum;
       new_info_checksum := Some info_checksum |}.

Definition transit_program_status_to_sql_error now d t i guard (sql : SqlCompilationInfo) :=
  transit_program_status now d t i guard ProgramStatus.SqlError
    {| new_sql_compilation := Some sql; new_rust_compilation := None; new_system_error := None;
       new_program_info := None; new_source_checksum := None; new_integrity_checksum := None;
       new_info_checksum := None |}.

Definition transit_program_status_to_rust_error now d t i guard (rust : RustCompilationInfo) :=
  transit_program_status now d t i guard ProgramStatus.RustError
    {| new_sql_compilation := None; new_rust_compilation := Some rust; new_system_error := None;
       new_program_info := None; new_source_checksum := None; new_integrity_checksum := None;
       new_info_checksum := None |}.

Definition transit_program_status_to_system_error now d t i guard (error : string) :=
  transit_program_status now d t i guard ProgramStatus.SystemError
    {| new_sql_compilation := None; new_rust_compilation := None; new_system_error := Some error;
       new_program_info := None; new_source_checksum := None; new_integrity_checksum := None;
       new_info_checksum := None |}.

(** A loop over pipelines in one transaction. *)
Fixpoint for_each {A} (body : Db → A → result Db) (txn : Db) (l : list A) : result Db :=
  match l with
  | [] => Ok txn
  | a :: l => txn ← body txn a; for_each body txn l
  end.

Definition clear_sql_body (now : Z) (pv : string) (worker_id total_workers : Z) (txn : Db)
    (p : TenantId * Row) : result Db :=
  let '(tenant_id, pipeline) := p in
  if negb (is_pipeline_assigned_to_worker (row_id pipeline) worker_id total_workers) then Ok txn
  else if negb (bool_decide (deployment_resources_status pipeline = ResourcesStatus.Stopped))
  then Ok txn
  else if bool_decide (platform_version pipeline = pv) then
    if bool_decide (program_status pipeline = ProgramStatus.CompilingSql)
    then set_program_status now txn tenant_id (row_id pipeline) (program_version pipeline)
           ProgramStatus.Pending no_program_update
    else Ok txn
  else if bool_decide (program_status pipeline = ProgramStatus.Pending)
          || bool_decide (program_status pipeline = ProgramStatus.CompilingSql)
  then '(_, txn) ← update_pipeline now txn true tenant_id (name pipeline) no_update pv true; Ok txn
  else Ok txn.

Definition clear_ongoing_sql_compilation_for_worker (now : Z) (d : Db) (pv : string)
    (worker_id total_workers : Z) : result () * Db :=
  commit d (unit_of (for_each (clear_sql_body now pv worker_id total_workers) d
                       (list_pipelines_across_all_tenants_for_monitoring d))).

Definition expect {A} (o : option A) : result A := match o with Some a => Ok a | None => Panic end.

Definition clear_rust_body (now : Z) (pv : string) (worker_id total_workers : Z) (txn : Db)
    (p : TenantId * Row) : result Db :=
  let '(tenant_id, pipeline) := p in
  if negb (is_pipeline_assigned_to_worker (row_id pipeline) worker_id total_workers) then Ok txn
  else if negb (bool_decide (deployment_resources_status pipeline = ResourcesStatus.Stopped))
  then Ok txn
  else if bool_decide (platform_version pipeline = pv) then
    if bool_decide (program_status pipeline = ProgramStatus.CompilingRust) then
      complete ← get_pipeline_by_id txn tenant_id (row_id pipeline);
      sql ← expect (sql_compilation (program_error (prog complete)));
      info ← expect (program_info (prog complete));
      set_program_status now txn tenant_id (row_id pipeline) (program_version pipeline)
        ProgramStatus.SqlCompiled
        {| new_sql_compilation := Some sql; new_rust_compilation := None; new_system_error := None;
           new_program_info := Some info; new_source_checksum := None;
           new_integrity_checksum := None; new_info_checksum := None |}
    else Ok txn
  else if bool_decide (program_status pipeline = ProgramStatus.SqlCompiled)
          || bool_decide (program_status pipeline = ProgramStatus.CompilingRust)
  then '(_, txn) ← update_pipeline now txn true tenant_id (name pipeline) no_update pv true; Ok txn
  else Ok txn.

Definition clear_ongoing_rust_compilation_for_worker (now : Z) (d : Db) (pv : string)
    (worker_id total_workers : Z) : result () * Db :=
  commit d (unit_of (for_each (clear_rust_body now pv worker_id total_workers) d
                       (list_pipelines_across_all_tenants_for_monitoring d))).

(** *** Desired status and storage, by the user *)

Definition set_deployment_resources_desired_status_provisioned (now : Z) (d : Db) (t : TenantId)
    (n : string) (initial : RuntimeDesiredStatus.t) (policy : BootstrapPolicy.t)
    : result PipelineId * Db :=
  commit d (set_deployment_resources_desired_status now d t n ResourcesDesiredStatus.Provisioned
              (Some initial) (Some policy)).

Definition set_deployment_resources_desired_status_stopped (now : Z) (d : Db) (t : TenantId)
    (n : string) : result PipelineId * Db :=
  commit d (set_deployment_resources_desired_status now d t n ResourcesDesiredStatus.Stopped
              None None).

Definition set_deployment_resources_desired_status_stopped_if_not_provisioned (now : Z) (d : Db)
    (t : TenantId) (n : string) : result (bool * PipelineId) * Db :=
  commit d (
    pipeline ← get_pipeline d t n;
    if negb (bool_decide (deployment_resources_status (depl pipeline) = ResourcesStatus.Provisioned))
    then '(_, txn) ← set_deployment_resources_desired_status now d t n
                       ResourcesDesiredStatus.Stopped None None;
         Ok ((true, row_id pipeline), txn)
    else Ok ((false, row_id pipeline), d)).

Definition transit_storage_status_to_clearing_if_not_cleared (d : Db) (t : TenantId) (n : string)
    : result PipelineId * Db :=
  commit d (
    pipeline ← get_pipeline d t n;
    txn ← (if negb (bool_decide (storage_status pipeline = StorageStatus.Cleared))
           then set_storage_status d t (row_id pipeline) StorageStatus.Clearing else Ok d);
    Ok (row_id pipeline, txn)).

Definition storage_increment_notify_counter (d : Db) (t : TenantId) (n : string) : result () * Db :=
  commit d (unit_of (increment_notify_counter d t n)).

(** *** Deployment status, by the runner *)

Definition transit_deployment_resources_status_to_provisioning (now : Z) (d : Db) (t : TenantId)
    (i : PipelineId) (guard : Version) (new_id : N) (config : Value) : result () * Db :=
  commit d (
    txn ← set_storage_status d t i StorageStatus.InUse;
    unit_of (set_deployment_resources_status now txn t i guard ResourcesStatus.Provisioning
      {| new_runtime_status := None; new_runtime_status_details := None;
         new_runtime_desired_status := None; new_deployment_error := None;
         new_deployment_id := Some new_id; new_deployment_config := Some config;
         new_deployment_location := None; new_suspend_info := None |})).

(** The runtime status that a pipeline reports. *)
Record ExtendedRuntimeStatus := {
  runtime_status : RuntimeStatus.t;
  runtime_status_details : Value;
  runtime_desired_status : RuntimeDesiredStatus.t }.

Definition transit_deployment_resources_status_to_provisioned (now : Z) (d : Db) (t : TenantId)
    (i : PipelineId) (guard : Version) (location : string) (s : ExtendedRuntimeStatus)
    : result () * Db :=
  commit d (unit_of (
    set_deployment_resources_status now d t i guard ResourcesStatus.Provisioned
      {| new_runtime_status := Some (runtime_status s);
         new_runtime_status_details := Some (runtime_status_details s);
         new_runtime_desired_status := Some (runtime_desired_status s);
         new_deployment_error := None; new_deployment_id := None; new_deployment_config := None;
         new_deployment_location := Some location; new_suspend_info := None |})).

Definition transit_deployment_resources_status_to_stopping (now : Z) (d : Db) (t : TenantId)
    (i : PipelineId) (guard : Version) (error : option ErrorResponse) (suspend : option Value)
    : result () * Db :=
  commit d (
    pipeline ← get_pipeline_by_id d t i;
    '(_, txn) ← set_deployment_resources_desired_status now d t (name (descr pipeline))
                  ResourcesDesiredStatus.Stopped None None;
    unit_of (set_deployment_resources_status now txn t i guard ResourcesStatus.Stopping
      {| new_runtime_status := None; new_runtime_status_details := None;
         new_runtime_desired_status := None; new_deployment_error := error;
         new_deployment_id := None; new_deployment_config := None;
         new_deployment_location := None; new_suspend_info := suspend |})).

Definition transit_deployment_resources_status_to_stopped (now : Z) (d : Db) (t : TenantId)
    (i : PipelineId) (guard : Version) : result () * Db :=
  commit d (unit_of (
    set_deployment_resources_status now d t i guard ResourcesStatus.Stopped no_status_update)).

Definition transit_storage_status_to_cleared (d : Db) (t : TenantId) (i : PipelineId)
    : result () * Db :=
  commit d (unit_of (set_storage_status d t i StorageStatus.Cleared)).



(** ** The text of the status columns *)

(** The statuses of a row, decoded and as the table stores them. *)
Record Statuses := {
  st_program : ProgramStatus.t;
  st_storage : StorageStatus.t;
  st_resources : ResourcesStatus.t;
  st_resources_desired : ResourcesDesiredStatus.t;
  st_initial : option RuntimeDesiredStatus.t;
  st_runtime : option RuntimeStatus.t;
  st_runtime_desired : option RuntimeDesiredStatus.t;
  st_bootstrap : option BootstrapPolicy.t }.

Record StatusColumns := {
  col_program : string;
  col_storage : string;
  col_resources : string;
  col_resources_desired : string;
  col_initial : option string;
  col_runtime : option string;
  col_runtime_desired : option string;
  col_bootstrap : option string }.

(** The parameters of the statements that write the columns. *)
Definition encode_statuses (s : Statuses) : StatusColumns :=
  {| col_program := to_string (st_program s); col_storage := to_string (st_storage s);
     col_resources := to_string (st_resources s);
     col_resources_desired := to_string (st_resources_desired s);
     col_initial := to_string <$> st_initial s; col_runtime := to_string <$> st_runtime s;
     col_runtime_desired := to_string <$> st_runtime_desired s;
     col_bootstrap := to_string <$> st_bootstrap s |}.

(** The status columns of [row_to_extended_pipeline_descriptor]. *)
Definition decode_statuses (c : StatusColumns) : result Statuses :=
  initial ← on_some try_from (col_initial c);
  runtime ← on_some try_from (col_runtime c);
  runtime_desired ← on_some try_from (col_runtime_desired c);
  bootstrap ← on_some try_from (col_bootstrap c);
  program ← try_from (col_program c);
  storage ← try_from (col_storage c);
  resources ← try_from (col_resources c);
  resources_desired ← try_from (col_resources_desired c);
  Ok {| st_program := program; st_storage := storage; st_resources := resources;
        st_resources_desired := resources_desired; st_initial := initial; st_runtime := runtime;
        st_runtime_desired := runtime_desired; st_bootstrap := bootstrap |}.

End db.
