(* ===== verification/PipelineInvariant.v ===== *)
(** The state of the pipeline table over all interleavings of requests: a step relation with
    one case per request to the storage interface, and the invariant of every reachable
    state. *)
From stdpp Require Import strings sorting relations.
From S2P Require Import Prelude Machine PipelineTypes PipelineDb.

Section rows.
Context `{EX : Externals}.
Notation result := (result Value).
Implicit Types (d : Db) (r : Row).

(** ** Rows of the table *)

(** [d'] is [d] with the row [r] replaced by [r']. *)
Definition replaced d d' r r' : Prop :=
  tenants d' = tenants d ∧ ∃ l1 l2, pipelines d = l1 ++ r :: l2 ∧ pipelines d' = l1 ++ r' :: l2.

(** The constraints of the table. *)
Record table_ok d : Prop := {
  ids_unique : NoDup (row_id <$> pipelines d);
  names_unique : NoDup ((λ r, (row_tenant r, name r)) <$> pipelines d);
  tenants_exist : Forall (λ r, row_tenant r ∈ tenants d) (pipelines d) }.

(** A condition that identifies a row. *)
Definition selects d (c : Row → bool) r : Prop := filter (λ r, c r = true) (pipelines d) = [r].

Lemma query_opt_Some d c r : query_opt d c = Ok (Some r) ↔ selects d c r.
Proof.
  unfold query_opt, selects. destruct (filter _ _) as [|? [|? ?]]; naive_solver.
Qed.

Lemma selects_split d c r :
  selects d c r →
  ∃ l1 l2, pipelines d = l1 ++ r :: l2 ∧ c r = true
           ∧ Forall (λ s, c s = false) l1 ∧ Forall (λ s, c s = false) l2.
Proof.
  unfold selects. intros Hf.
  assert (Hr : r ∈ pipelines d ∧ c r = true).
  { assert (r ∈ filter (λ r, c r = true) (pipelines d)) as Hin by (rewrite Hf; set_solver).
    by apply list_elem_of_filter in Hin as [? ?]. }
  destruct Hr as [Hin Hc]. apply list_elem_of_split in Hin as (l1 & l2 & Hp).
  exists l1, l2. split_and!; [done | done | |].
  all: apply Forall_forall; intros s Hs; destruct (c s) eqn:Hcs; [exfalso|done].
  all: rewrite Hp, filter_app, filter_cons_True in Hf by done.
  all: apply (f_equal length) in Hf; rewrite length_app in Hf; cbn in Hf.
  all: assert (length (filter (λ r, c r = true) l1) = 0 ∧ length (filter (λ r, c r = true) l2) = 0)
    as [H1 H2] by lia; apply nil_length_inv in H1, H2.
  - assert (s ∈ filter (λ r, c r = true) l1) by (by apply list_elem_of_filter). rewrite H1 in *. set_solver.
  - assert (s ∈ filter (λ r, c r = true) l2) by (by apply list_elem_of_filter). rewrite H2 in *. set_solver.
Qed.

Lemma map_unselected (c : Row → bool) f l :
  Forall (λ s, c s = false) l → (λ r, if c r then f r else r) <$> l = l.
Proof. induction 1 as [|s l Hs _ IH]; [done|]. cbn. by rewrite Hs, IH. Qed.

Lemma execute_update_selected d c f r :
  selects d c r → ∃ d', execute_update d c f = (1, d') ∧ replaced d d' r (f r).
Proof.
  intros Hs. destruct (selects_split _ _ _ Hs) as (l1 & l2 & Hp & Hc & H1 & H2).
  eexists. unfold execute_update. rewrite Hs. split; [done|].
  split; [done|]. exists l1, l2. split; [done|]. cbn [pipelines].
  rewrite Hp, fmap_app, fmap_cons, Hc, !map_unselected; done.
Qed.

Lemma get_pipeline_Ok d t n r : get_pipeline d t n = Ok r ↔ selects d (by_name t n) r.
Proof.
  unfold get_pipeline. rewrite <- query_opt_Some. destruct (query_opt _ _) as [[]| |]; naive_solver.
Qed.

Lemma get_pipeline_by_id_Ok d t i r : get_pipeline_by_id d t i = Ok r ↔ selects d (by_id t i) r.
Proof.
  unfold get_pipeline_by_id. rewrite <- query_opt_Some. destruct (query_opt _ _) as [[]| |]; naive_solver.
Qed.

Lemma update_by_id_Ok d t i f r d' :
  selects d (by_id t i) r → update_by_id d t i f = Ok d' → replaced d d' r (f r).
Proof.
  intros (d'' & He & Hr)%(execute_update_selected _ _ f). unfold update_by_id. rewrite He. cbn.
  by intros [= <-].
Qed.

Lemma update_by_id_is_Ok d t i f r :
  selects d (by_id t i) r → ∃ d', update_by_id d t i f = Ok d' ∧ replaced d d' r (f r).
Proof.
  intros (d'' & He & Hr)%(execute_update_selected _ _ f). exists d''. unfold update_by_id. by rewrite He.
Qed.

Lemma filter_unique {A B} (key : A → B) (c : A → bool) (l : list A) (x : A) :
  NoDup (key <$> l) → x ∈ l → c x = true → (∀ y, c y = true → key y = key x) →
  filter (λ y, c y = true) l = [x].
Proof.
  intros Hnd Hin Hc Hk. apply list_elem_of_split in Hin as (l1 & l2 & ->).
  rewrite fmap_app, fmap_cons in Hnd. apply NoDup_app in Hnd as (_ & Hd & Hn).
  apply NoDup_cons in Hn as [Hx _].
  assert (∀ l, key x ∉ key <$> l → filter (λ y, c y = true) l = []) as Hempty.
  { induction l as [|y l IH]; [done|]. intros Hl. rewrite fmap_cons in Hl.
    rewrite filter_cons_False; [apply IH; set_solver|]. intros Hcy%Hk. set_solver. }
  rewrite filter_app, filter_cons_True by done. rewrite !Hempty; [done| done|].
  intros Hk1. apply (Hd _ Hk1). set_solver.
Qed.

Lemma selects_by_id d r :
  table_ok d → r ∈ pipelines d → selects d (by_id (row_tenant r) (row_id r)) r.
Proof.
  intros Hok Hin. apply (filter_unique row_id); [apply Hok | done | |].
  - unfold by_id. by rewrite !bool_decide_eq_true_2.
  - intros y. unfold by_id. intros. by bool_simpl.
Qed.

Lemma selects_by_name d r :
  table_ok d → r ∈ pipelines d → selects d (by_name (row_tenant r) (name r)) r.
Proof.
  intros Hok Hin. apply (filter_unique (λ r, (row_tenant r, name r))); [apply Hok | done | |].
  - unfold by_name. by rewrite !bool_decide_eq_true_2.
  - intros y. unfold by_name. intros. bool_simpl. by f_equal.
Qed.

Lemma selects_in d c r : selects d c r → r ∈ pipelines d ∧ c r = true.
Proof. intros (l1 & l2 & -> & Hc & _)%selects_split. set_solver. Qed.

Lemma replaced_in d d' r r' : replaced d d' r r' → r ∈ pipelines d ∧ r' ∈ pipelines d'.
Proof. intros (_ & l1 & l2 & -> & ->). set_solver. Qed.

Lemma replaced_other d d' r r' s :
  table_ok d → replaced d d' r r' → row_id r' = row_id r → row_id s ≠ row_id r →
  s ∈ pipelines d ↔ s ∈ pipelines d'.
Proof. intros _ (_ & l1 & l2 & -> & ->) Hid Hs. set_solver. Qed.

Lemma table_ok_replaced d d' r r' :
  table_ok d → replaced d d' r r' → row_id r' = row_id r → row_tenant r' = row_tenant r →
  (name r' = name r ∨ ∀ s, s ∈ pipelines d → (row_tenant s, name s) ≠ (row_tenant r, name r')) →
  table_ok d'.
Proof.
  intros [Hi Hn Ht] (Hten & l1 & l2 & Hp & Hp') Hid Htid Hname.
  rewrite Hp in *. constructor; rewrite ?Hp'.
  - by rewrite fmap_app, fmap_cons, Hid, <- fmap_cons, <- fmap_app.
  - rewrite fmap_app, fmap_cons in *. rewrite Htid. destruct Hname as [-> | Hfresh]; [done|].
    apply NoDup_app in Hn as (H1 & H2 & H3). apply NoDup_cons in H3 as [H4 H5].
    apply NoDup_app. split_and!; [done | |].
    + intros k Hk1 [-> | Hk2]%elem_of_cons.
      * apply list_elem_of_fmap in Hk1 as (s & Hs & Hin). apply (Hfresh s); set_solver.
      * apply (H2 _ Hk1), elem_of_cons. by right.
    + apply NoDup_cons. split; [|done]. intros (s & Hs & Hin)%list_elem_of_fmap.
      apply (Hfresh s); set_solver.
  - rewrite Hten. rewrite Forall_app, Forall_cons in *. by rewrite Htid.
Qed.

(** ** The invariant of a row *)

Definition is_deployed (s : ResourcesStatus.t) : bool :=
  match s with ResourcesStatus.Provisioning | ResourcesStatus.Provisioned => true | _ => false end.

Definition has_program_info (s : ProgramStatus.t) : bool :=
  match s with
  | ProgramStatus.SqlCompiled | ProgramStatus.CompilingRust | ProgramStatus.Success
  | ProgramStatus.RustError => true
  | _ => false
  end.

(** What the program columns hold in each program status. *)
Record program_inv (p : Program) : Prop := {
  info_valid : ∀ v, program_info p = Some v → is_ok (validate_info (Some v)) = true;
  info_present : has_program_info (program_status p) = true →
    is_some (program_info p) = true ∧ is_some (sql_compilation (program_error p)) = true;
  nothing_yet : program_status p = ProgramStatus.Pending ∨ program_status p = ProgramStatus.CompilingSql →
    program_info p = None ∧ program_error p = no_program_error;
  rust_present : program_status p = ProgramStatus.Success ∨ program_status p = ProgramStatus.RustError →
    is_some (rust_compilation (program_error p)) = true;
  system_error_present : program_status p = ProgramStatus.SystemError →
    is_some (system_error (program_error p)) = true;
  checksums : is_some (program_binary_source_checksum p)
                = bool_decide (program_status p = ProgramStatus.Success)
              ∧ is_some (program_binary_integrity_checksum p)
                = bool_decide (program_status p = ProgramStatus.Success);
  info_checksum : program_status p ≠ ProgramStatus.Pending →
    is_some (program_info_integrity_checksum p)
      = bool_decide (program_status p = ProgramStatus.Success) }.

(** What the deployment columns hold in each resources status. *)
Record deployment_inv (x : Deployment) : Prop := {
  provisioning_columns :
    is_some (deployment_id x) = is_deployed (deployment_resources_status x)
    ∧ is_some (deployment_config x) = is_deployed (deployment_resources_status x);
  config_valid : is_ok (validate_config (deployment_config x)) = true;
  provisioned_columns :
    let p := bool_decide (deployment_resources_status x = ResourcesStatus.Provisioned) in
    is_some (deployment_location x) = p ∧ is_some (deployment_runtime_status x) = p
    ∧ is_some (deployment_runtime_status_since x) = p
    ∧ is_some (deployment_runtime_desired_status x) = p
    ∧ is_some (deployment_runtime_desired_status_since x) = p;
  details_reset : deployment_resources_status x ≠ ResourcesStatus.Provisioned →
    deployment_runtime_status_details x = None;
  stopping_columns : is_deployed (deployment_resources_status x) = true →
    deployment_error x = None ∧ suspend_info x = None;
  initial_present :
    deployment_resources_desired_status x = ResourcesDesiredStatus.Provisioned →
    is_some (deployment_initial x) = true;
  initial_reset : deployment_resources_desired_status x = ResourcesDesiredStatus.Stopped →
    is_deployed (deployment_resources_status x) = false → deployment_initial x = None;
  stopping_desired : deployment_resources_status x = ResourcesStatus.Stopping →
    deployment_resources_desired_status x = ResourcesDesiredStatus.Stopped }.

(** How the groups of columns are related. *)
Record row_inv r : Prop := {
  row_program : program_inv (prog r);
  row_deployment : deployment_inv (depl r);
  deployed_program : is_deployed (deployment_resources_status r) = true →
    program_status r = ProgramStatus.Success;
  deployed_storage : is_deployed (deployment_resources_status r) = true →
    storage_status r = StorageStatus.InUse;
  clearing_stopped : storage_status r = StorageStatus.Clearing →
    deployment_resources_status r = ResourcesStatus.Stopped;
  versions_ordered : (1 ≤ program_version r ≤ version r ∧ version r ≤ refresh_version r ≤ MAX i64)%Z;
  name_valid : is_ok (validate_name (V := Value) (name r)) = true;
  standby_allowed : deployment_initial r = Some RuntimeDesiredStatus.Standby →
    is_file_backend (runtime_config r) && is_sync_configured (runtime_config r) = true }.

Definition db_inv d : Prop := table_ok d ∧ Forall row_inv (pipelines d).

Lemma db_inv_replaced d d' r r' :
  db_inv d → replaced d d' r r' → row_id r' = row_id r → row_tenant r' = row_tenant r →
  (name r' = name r ∨ ∀ s, s ∈ pipelines d → (row_tenant s, name s) ≠ (row_tenant r, name r')) →
  (row_inv r → row_inv r') → db_inv d'.
Proof.
  intros [Hok Hall] Hr Hid Ht Hn Himp. split; [by eapply table_ok_replaced|].
  destruct Hr as (_ & l1 & l2 & Hp & ->). rewrite Hp, Forall_app, Forall_cons in Hall.
  rewrite Forall_app, Forall_cons. naive_solver.
Qed.

Lemma db_inv_row d r : db_inv d → r ∈ pipelines d → row_inv r.
Proof. intros [_ Hall] Hin. rewrite Forall_forall in Hall. auto. Qed.

(** A group of columns can be replaced when it keeps its own invariant and the relations to
    the other groups. *)
Lemma row_inv_depl r x :
  row_inv r → deployment_inv x →
  (is_deployed (deployment_resources_status x) = true →
     program_status r = ProgramStatus.Success ∧ storage_status r = StorageStatus.InUse) →
  (storage_status r = StorageStatus.Clearing →
     deployment_resources_status x = ResourcesStatus.Stopped) →
  (deployment_initial x = Some RuntimeDesiredStatus.Standby →
     is_file_backend (runtime_config r) && is_sync_configured (runtime_config r) = true) →
  row_inv (with_depl r x).
Proof. intros [] Hx Hd Hc Hs. constructor; cbn; try done; naive_solver. Qed.

Lemma row_inv_prog r p v :
  row_inv r → program_inv p → is_deployed (deployment_resources_status r) = false →
  (1 ≤ program_version p ≤ version r)%Z → (version r ≤ v ≤ MAX i64)%Z →
  row_inv (with_refresh (with_prog r p) v).
Proof. intros [] Hp Hd Hv Hr. constructor; cbn; try done; try lia; congruence. Qed.

(** ** The operations keep the invariant *)

Lemma check_precondition_Ok c info u : check_precondition c info = Ok u ↔ c = true.
Proof. destruct u, c; cbn; naive_solver. Qed.

End rows.

(** Takes a successful operation apart: its steps, its guards and its preconditions. *)
Ltac op_simpl :=
  repeat (first
    [ match goal with
      | H : check_precondition _ _ = Ok _ |- _ => apply check_precondition_Ok in H
      | x : () |- _ => destruct x
      end
    | res_step ]; subst); bool_simpl.

(** Names the row that an operation retrieved by its identifier. *)
Ltac found_row r :=
  match goal with
  | H : get_pipeline_by_id _ _ _ = Ok ?x |- _ => apply get_pipeline_by_id_Ok in H; rename x into r
  | H : get_pipeline _ _ _ = Ok ?x |- _ => apply get_pipeline_Ok in H; rename x into r
  end.

(** The row that an UPDATE by identifier replaced. *)
Ltac updated_row :=
  match goal with
  | H : update_by_id ?d ?t ?i ?f = Ok ?d', Hs : selects ?d (by_id ?t ?i) ?r |- replaced ?d ?d' ?r _ =>
      exact (update_by_id_Ok d t i f r d' Hs H)
  end.

Section invariant.
Context `{EX : Externals}.
Notation result := (result Value).
Implicit Types (d : Db) (r : Row).

Lemma set_storage_status_Ok d t i s d' :
  set_storage_status d t i s = Ok d' →
  ∃ r, selects d (by_id t i) r ∧ deployment_resources_status r = ResourcesStatus.Stopped
       ∧ validate_storage_status_transition (V := Value) (deployment_resources_status r) (storage_status r) s = Ok ()
       ∧ replaced d d' r (with_storage r s).
Proof.
  unfold set_storage_status. intros H. op_simpl. found_row r. exists r.
  destruct (decide (deployment_resources_status r = ResourcesStatus.Stopped)) as [Hs|Hs];
    unfold validate_storage_status_transition in *; [|by rewrite bool_decide_eq_false_2 in *].
  split_and!; [done | done | done | updated_row].
Qed.

Lemma set_storage_status_inv d t i s d' :
  db_inv d → set_storage_status d t i s = Ok d' → db_inv d'.
Proof.
  intros Hinv (r & Hsel & Hst & Hval & Hrep)%set_storage_status_Ok.
  eapply db_inv_replaced; [done | done | done | done | by left |].
  intros []. constructor; cbn; try done; by rewrite Hst.
Qed.

Lemma set_program_status_Ok now d t i g s u d' :
  set_program_status now d t i g s u = Ok d' →
  ∃ r p v, selects d (by_id t i) r ∧ program_version r = g
    ∧ validate_program_status_transition (V := Value) (program_status r) s = Ok ()
    ∧ deployment_resources_status r = ResourcesStatus.Stopped
    ∧ present u = required_arguments s
    ∧ (let '(e, info, (c1, c2, c3), incr) := final_columns r s u in
       is_ok (validate_info info) = true
       ∧ p = {| program_version := program_version r; program_status := s;
                program_status_since := now; program_error := e; program_info := info;
                program_binary_source_checksum := c1; program_binary_integrity_checksum := c2;
                program_info_integrity_checksum := c3 |}
       ∧ (if (incr : bool) then checked i64 (refresh_version r + 1)%Z = Some v
          else v = refresh_version r))
    ∧ replaced d d' r (with_refresh (with_prog r p) v).
Proof.
  unfold set_program_status. intros H. op_simpl. found_row r. exists r.
  eexists _, _. rewrite Heqp. split_and!; try done; try updated_row.
  - by apply is_ok_Ok; eexists.
  - destruct b; [|by simplify_eq]. by case_match; simplify_eq.
Qed.

Lemma final_columns_inv r s u e info c1 c2 c3 incr now :
  program_inv (prog r) →
  validate_program_status_transition (V := Value) (program_status r) s = Ok () →
  present u = required_arguments s →
  final_columns r s u = (e, info, (c1, c2, c3), incr) → is_ok (validate_info info) = true →
  program_inv
    {| program_version := program_version r; program_status := s; program_status_since := now;
       program_error := e; program_info := info; program_binary_source_checksum := c1;
       program_binary_integrity_checksum := c2; program_info_integrity_checksum := c3 |}.
Proof.
  intros Hp Ht Hu Hf Hv.
  assert (s = ProgramStatus.CompilingRust ∨ s = ProgramStatus.Success ∨ s = ProgramStatus.RustError →
    is_some (program_info r) = true ∧ is_some (sql_compilation (program_error r)) = true) as Hinfo.
  { intros Hs. apply (info_present _ Hp). by destruct s, (program_status r); naive_solver. }
  unfold present in Hu. destruct s; cbn in Hu; injection Hu as H1 H2 H3 H4 H5 H6 H7;
    cbn in Hf; injection Hf as <- <- <- <- <- <-; (constructor; cbn;
      [intros v Hi; first [discriminate Hi | rewrite Hi in Hv; exact Hv] | naive_solver ..]).
Qed.

Lemma set_program_status_inv now d t i g s u d' :
  db_inv d → set_program_status now d t i g s u = Ok d' → db_inv d'.
Proof.
  intros Hinv (r & p & v & Hsel & <- & Ht & Hst & Hu & Hf & Hrep)%set_program_status_Ok.
  eapply db_inv_replaced; [done | done | done | done | by left |]. intros Hr.
  destruct (final_columns _ _ _) as [[[e info] [[c1 c2] c3]] incr] eqn:Hcols.
  destruct Hf as (Hval & -> & Hv).
  pose proof (versions_ordered _ Hr).
  apply row_inv_prog; [done | | by rewrite Hst | cbn; lia |].
  - by eapply final_columns_inv; [apply Hr | ..].
  - destruct incr; [|lia]. unfold checked in Hv. destruct (in_range i64 _) eqn:Hi; [|done].
    apply in_range_spec in Hi. simplify_eq. lia.
Qed.

(** The deployment columns after a change of the desired status. *)
Definition with_desired (now : Z) (x : Deployment) (s : ResourcesDesiredStatus.t)
    (initial : option RuntimeDesiredStatus.t) (policy : option BootstrapPolicy.t) : Deployment :=
  {| deployment_error := deployment_error x; deployment_config := deployment_config x;
     deployment_location := deployment_location x; suspend_info := suspend_info x;
     deployment_id := deployment_id x; deployment_initial := initial; bootstrap_policy := policy;
     deployment_resources_status := deployment_resources_status x;
     deployment_resources_status_since := deployment_resources_status_since x;
     deployment_resources_desired_status := s;
     deployment_resources_desired_status_since :=
       since now (deployment_resources_desired_status x) s
         (deployment_resources_desired_status_since x);
     deployment_runtime_status := deployment_runtime_status x;
     deployment_runtime_status_details := deployment_runtime_status_details x;
     deployment_runtime_status_since := deployment_runtime_status_since x;
     deployment_runtime_desired_status := deployment_runtime_desired_status x;
     deployment_runtime_desired_status_since := deployment_runtime_desired_status_since x |}.

Lemma set_desired_status_Ok now d t n s initial policy i d' :
  set_deployment_resources_desired_status now d t n s initial policy = Ok (i, d') →
  ∃ r initial' policy', selects d (by_name t n) r ∧ i = row_id r
    ∧ validate_resources_desired_status_transition (V := Value) (deployment_resources_status r)
        (deployment_resources_desired_status r) s = Ok ()
    ∧ match s with
      | ResourcesDesiredStatus.Stopped =>
          (initial', policy') =
            (if bool_decide (deployment_resources_status r = ResourcesStatus.Stopped)
             then (None, None) else (deployment_initial r, bootstrap_policy r))
      | ResourcesDesiredStatus.Provisioned =>
          is_some initial = true ∧ initial' = initial ∧ policy' = policy
      end
    ∧ (initial' = Some RuntimeDesiredStatus.Standby →
       is_file_backend (runtime_config r) && is_sync_configured (runtime_config r) = true)
    ∧ update_by_id d t (row_id r) (λ r, with_depl r (with_desired now r s initial' policy')) = Ok d'.
Proof.
  unfold set_deployment_resources_desired_status. intros H. op_simpl. found_row r.
  exists r, o, o0. split_and!; try done; [destruct s; op_simpl; done|].
  intros ->. match goal with H : bool_decide (Some _ = Some _) && _ = false |- _ =>
    rewrite bool_decide_eq_true_2 in H by done; cbn in H end.
  by destruct (is_file_backend _), (is_sync_configured _).
Qed.

Lemma set_desired_status_replaced now d t n s initial policy i d' :
  table_ok d → set_deployment_resources_desired_status now d t n s initial policy = Ok (i, d') →
  ∃ r initial' policy', selects d (by_name t n) r ∧ i = row_id r
    ∧ replaced d d' r (with_depl r (with_desired now r s initial' policy'))
    ∧ (initial' = Some RuntimeDesiredStatus.Standby →
       is_file_backend (runtime_config r) && is_sync_configured (runtime_config r) = true)
    ∧ (deployment_inv (depl r) → deployment_inv (with_desired now r s initial' policy')).
Proof.
  intros Hok (r & initial' & policy' & Hsel & -> & Hval & Hi & Hstandby & Hu)%set_desired_status_Ok.
  exists r, initial', policy'. split_and!; [done | done | | done |].
  - destruct (selects_in _ _ _ Hsel) as [Hin Hby]. unfold by_name in Hby. bool_simpl. subst t.
    pose proof (selects_by_id _ _ Hok Hin). updated_row.
  - intros []. destruct s; constructor; cbn; try done.
    + intros _ Hdep. clear provisioned_columns0. case_bool_decide as Hst; injection Hi as -> ->; [done|].
      apply initial_reset0; [|done]. apply stopping_desired0. by destruct (deployment_resources_status r).
    + intros _. destruct Hi as (Hs & -> & _). done.
    + intros Hst. specialize (stopping_desired0 Hst). cbn in Hval.
      by rewrite bool_decide_eq_true_2, bool_decide_eq_false_2 in Hval by (done || by rewrite Hst).
Qed.

Lemma set_desired_status_inv now d t n s initial policy i d' :
  db_inv d → set_deployment_resources_desired_status now d t n s initial policy = Ok (i, d') →
  db_inv d'.
Proof.
  intros Hinv Hset.
  destruct (set_desired_status_replaced _ _ _ _ _ _ _ _ _ (proj1 Hinv) Hset)
    as (r & initial' & policy' & Hsel & _ & Hrep & Hstandby & Himp).
  eapply db_inv_replaced; [done | done | done | done | by left |].
  intros Hr. pose proof Hr as []. apply row_inv_depl; [done | by apply Himp | cbn; auto ..].
Qed.

(** The deployment columns after a change of the resources status. *)
Definition with_status (now : Z) (x : Deployment) (s : ResourcesStatus.t)
    (stopping : option ErrorResponse * option Value) (provisioning : option N * option Value)
    (provisioned : option string * option RuntimeStatus.t * option Value
                   * option RuntimeDesiredStatus.t)
    (initial : option RuntimeDesiredStatus.t) : Deployment :=
  let '(location, rs, details, rds) := provisioned in
  {| deployment_error := stopping.1; deployment_config := provisioning.2;
     deployment_location := location; suspend_info := stopping.2;
     deployment_id := provisioning.1; deployment_initial := initial;
     bootstrap_policy := bootstrap_policy x;
     deployment_resources_status := s;
     deployment_resources_status_since :=
       since now (deployment_resources_status x) s (deployment_resources_status_since x);
     deployment_resources_desired_status := deployment_resources_desired_status x;
     deployment_resources_desired_status_since := deployment_resources_desired_status_since x;
     deployment_runtime_status := rs; deployment_runtime_status_details := details;
     deployment_runtime_status_since :=
       since_opt now (deployment_runtime_status x) rs (deployment_runtime_status_since x);
     deployment_runtime_desired_status := rds;
     deployment_runtime_desired_status_since :=
       since_opt now (deployment_runtime_desired_status x) rds
         (deployment_runtime_desired_status_since x) |}.

Lemma set_resources_status_Ok now d t i g s u d' :
  set_deployment_resources_status now d t i g s u = Ok d' →
  ∃ r a b c, selects d (by_id t i) r ∧ version r = g
    ∧ validate_resources_status_transition (V := Value) (storage_status r)
        (deployment_resources_status r) s = Ok ()
    ∧ (requires_compiled_program (deployment_resources_status r) s = true →
       program_status r = ProgramStatus.Success)
    ∧ stopping_information r s u = Ok a ∧ provisioning_information r s u = Ok b
    ∧ validate_config b.2 = Ok () ∧ provisioned_information s u = Ok c
    ∧ replaced d d' r (with_depl r (with_status now r s a b c (final_deployment_initial r s))).
Proof.
  unfold set_deployment_resources_status. intros H. op_simpl. found_row r.
  eexists r, (_, _), (_, _), (_, _, _, _). split_and!; try done; [|updated_row].
  intros Hreq. match goal with H : requires_compiled_program _ _ && _ = false |- _ =>
    rewrite Hreq in H; cbn in H end. by bool_simpl.
Qed.

Lemma since_opt_some `{EqDecision A} now (column value : option A) old :
  (is_some column = true → is_some old = true) →
  is_some (since_opt now column value old) = is_some value.
Proof.
  intros Hold. destruct value as [v|]; [|done]. cbn. case_bool_decide; [|done]. subst. auto.
Qed.

Lemma with_status_inv now r s u a b c :
  row_inv r →
  validate_resources_status_transition (V := Value) (storage_status r)
    (deployment_resources_status r) s = Ok () →
  stopping_information r s u = Ok a → provisioning_information r s u = Ok b →
  validate_config b.2 = Ok () → provisioned_information s u = Ok c →
  (s = ResourcesStatus.Stopping →
     deployment_resources_desired_status r = ResourcesDesiredStatus.Stopped) →
  deployment_inv (with_status now r s a b c (final_deployment_initial r s)).
Proof.
  intros Hr Ht Ha Hb Hcfg Hc Hstop. destruct (row_deployment _ Hr).
  destruct provisioned_columns0 as (Hloc & Hrs & Hrss & Hrds & Hrdss).
  assert (∀ v, is_some (since_opt now (deployment_runtime_status r) v
    (deployment_runtime_status_since r)) = is_some v) as Hs1 by (intros; apply since_opt_some; congruence).
  assert (∀ v, is_some (since_opt now (deployment_runtime_desired_status r) v
    (deployment_runtime_desired_status_since r)) = is_some v) as Hs2 by (intros; apply since_opt_some; congruence).
  assert (is_ok (validate_config b.2) = true) as Hcfg' by (by rewrite Hcfg).
  unfold stopping_information, provisioning_information, provisioned_information in *.
  destruct s; op_simpl; cbn in Hcfg'; (constructor; cbn; rewrite ?Hs1, ?Hs2; cbn); try done;
    try (split_and!; done).
  - intros Hd. rewrite stopping_desired0 in Hd; [done|].
    by destruct (storage_status r), (deployment_resources_status r).
  - rewrite !(proj1 provisioning_columns0), !(proj2 provisioning_columns0).
    by destruct (storage_status r), (deployment_resources_status r).
  - intros Hd. by rewrite Hstop in Hd.
Qed.

(** What the transactions establish before they change the resources status. *)
Definition prepared r (s : ResourcesStatus.t) : Prop :=
  match s with
  | ResourcesStatus.Stopping =>
      deployment_resources_desired_status r = ResourcesDesiredStatus.Stopped
  | ResourcesStatus.Provisioning => storage_status r = StorageStatus.InUse
  | _ => True
  end.

Lemma set_resources_status_inv now d t i g s u d' :
  db_inv d → set_deployment_resources_status now d t i g s u = Ok d' →
  (∀ r, selects d (by_id t i) r → prepared r s) → db_inv d'.
Proof.
  intros Hinv (r & a & b & c & Hsel & <- & Ht & Hprog & Ha & Hb & Hcfg & Hc & Hrep)%set_resources_status_Ok Hs.
  specialize (Hs r Hsel). unfold prepared in Hs.
  eapply db_inv_replaced; [done | done | done | done | by left |]. intros Hr.
  assert (deployment_resources_status (with_status now r s a b c (final_deployment_initial r s)) = s
    ∧ deployment_initial (with_status now r s a b c (final_deployment_initial r s))
      = final_deployment_initial r s) as [Hst Hini] by (by destruct c as [[[] ?] ?]).
  apply row_inv_depl; [done | eapply with_status_inv; eauto; by intros -> | | |]; rewrite ?Hst, ?Hini;
    [| |destruct s; cbn; try done; apply Hr].
  - intros Hdep. split; [apply Hprog|]; by destruct (storage_status r), (deployment_resources_status r), s.
  - intros Hst'. by destruct (storage_status r), (deployment_resources_status r), s.
Qed.

(** *** Edits *)

Lemma split_unique (l1 l2 l3 l4 : list Row) r :
  NoDup (row_id <$> l1 ++ r :: l2) → l1 ++ r :: l2 = l3 ++ r :: l4 → l1 = l3 ∧ l2 = l4.
Proof.
  revert l3. induction l1 as [|x l1 IH]; intros [|y l3] Hnd Heq; cbn in *; simplify_eq.
  - done.
  - exfalso. apply NoDup_cons in Hnd as [Hn _]. apply Hn. rewrite fmap_app. set_solver.
  - exfalso. apply NoDup_cons in Hnd as [Hn _]. apply Hn. rewrite fmap_app. set_solver.
  - apply NoDup_cons in Hnd as [_ Hnd]. by destruct (IH l3 Hnd) as [-> ->].
Qed.

Lemma replaced_trans d d1 d2 r r1 r2 :
  table_ok d1 → replaced d d1 r r1 → replaced d1 d2 r1 r2 → replaced d d2 r r2.
Proof.
  intros Hok (Ht1 & l1 & l2 & Hp & Hp1) (Ht2 & l3 & l4 & Hp1' & Hp2). split; [congruence|].
  exists l1, l2. split; [done|]. pose proof (ids_unique _ Hok) as Hnd. rewrite Hp1 in Hnd, Hp1'.
  by destruct (split_unique _ _ _ _ _ Hnd Hp1') as [-> ->].
Qed.

Lemma existsb_by_name t n l :
  existsb (by_name t n) l = false → ∀ s, s ∈ l → (row_tenant s, name s) ≠ (t, n).
Proof.
  intros He s Hin Heq. simplify_eq. enough (existsb (by_name (row_tenant s) (name s)) l = true) by congruence.
  apply existsb_exists. exists s. split; [by apply list_elem_of_In|].
  unfold by_name. by rewrite !bool_decide_eq_true_2.
Qed.

Lemma execute_update_description_Ok d t n u pv k d' r :
  table_ok d → selects d (by_name t n) r → execute_update_description d t n u pv = Ok (k, d') →
  k = 1 ∧ replaced d d' r (update_description u pv r) ∧ table_ok d'
  ∧ in_range i64 (version r + 1)%Z = true ∧ in_range i64 (refresh_version r + 1)%Z = true
  ∧ (name (update_description u pv r) = name r
     ∨ ∀ s, s ∈ pipelines d → (row_tenant s, name s) ≠ (row_tenant r, name (update_description u pv r))).
Proof.
  intros Hok Hsel Hex. destruct (execute_update_selected _ _ (update_description u pv) _ Hsel) as (d1 & He & Hrep).
  destruct (selects_in _ _ _ Hsel) as [Hin Hby]. pose proof Hby as Hby'. unfold by_name in Hby'. bool_simpl. subst t n.
  unfold execute_update_description in Hex. destruct (negb _ && _) eqn:Hdup; [done|].
  destruct (forallb _ _) eqn:Hrange; [|done]. rewrite He in Hex. simplify_eq.
  rewrite forallb_forall in Hrange. specialize (Hrange r). rewrite Hby in Hrange. cbn in Hrange.
  destruct (andb_prop _ _ (Hrange ltac:(by apply list_elem_of_In))) as [Hv Hrv].
  assert (name (update_description u pv r) = name r
     ∨ ∀ s, s ∈ pipelines d → (row_tenant s, name s) ≠ (row_tenant r, name (update_description u pv r))) as Hname.
  { cbn. destruct (decide (default (name r) (up_name u) = name r)) as [->|Hne]; [by left|right].
    rewrite bool_decide_eq_false_2 in Hdup by done. cbn in Hdup. by apply existsb_by_name. }
  split_and!; try done. by eapply table_ok_replaced.
Qed.

Lemma execute_reset_program_Ok now d t n k d' r :
  selects d (by_name t n) r → execute_reset_program now d t n = Ok (k, d') →
  k = 1 ∧ replaced d d' r (reset_program now r).
Proof.
  intros Hsel. destruct (execute_update_selected _ _ (reset_program now) _ Hsel) as (d1 & He & Hrep).
  unfold execute_reset_program. destruct (forallb _ _); [|done]. rewrite He. intros. by simplify_eq.
Qed.

Lemma changed_false `{EqDecision A} (new : option A) cur : changed new cur = false → default cur new = cur.
Proof. destruct new; cbn; [|done]. intros. by bool_simpl. Qed.

(** What a successful update does to the row: nothing, new description columns, or these
    and a reset of the program. *)
Lemma update_pipeline_Ok now d c t n u pv bump v d' :
  table_ok d → update_pipeline now d c t n u pv bump = Ok (v, d') →
  ∃ r, selects d (by_name t n) r ∧ update_allowed c r = true
    ∧ (d' = d ∧ v = version r
       ∨ ∃ u' pv' (reset : bool),
           let r1 := update_description u' pv' r in
           let r2 := if reset then reset_program now r1 else r1 in
           replaced d d' r r2 ∧ v = (version r + 1)%Z ∧ up_name u' = up_name u
           ∧ (c = true → is_no_update u' = true)
           ∧ (reset = false →
              program_code r1 = program_code r ∧ udf_rust r1 = udf_rust r
              ∧ udf_toml r1 = udf_toml r ∧ program_config r1 = program_config r)
           ∧ in_range i64 (version r + 1)%Z = true ∧ in_range i64 (refresh_version r + 1)%Z = true
           ∧ (name r2 = name r
              ∨ ∀ s, s ∈ pipelines d → (row_tenant s, name s) ≠ (row_tenant r, name r2))).
Proof.
  intros Hok Hu. unfold update_pipeline in Hu. op_simpl. found_row r. exists r.
  split_and!; [done | done |].
  match goal with H : (if ?b then _ else _) = Ok _ |- _ => destruct b end; op_simpl; [by left|].
  right. match goal with H : execute_update_description _ _ _ ?u' ?pv' = Ok _ |- _ =>
    destruct (execute_update_description_Ok _ _ _ _ _ _ _ _ Hok ltac:(eassumption) H)
      as (-> & Hrep & Hok' & Hv & Hrv & Hname); exists u', pv' end.
  match goal with H : negb c || _ = true |- _ => rename H into Hc end.
  destruct (program_changes _ _ _ _) eqn:Hpc; op_simpl; [exists true | exists false];
    (split_and!; try done; try (intros ->; cbn in Hc; by bool_simpl)).
  2:{ intros _. unfold program_changes in Hpc. bool_simpl. cbn.
      split_and!; apply changed_false; done. }
  match goal with H : execute_reset_program _ _ _ _ = Ok _ |- _ => revert H end.
  destruct (selects_in _ _ _ ltac:(eassumption)) as [Hin Hby]. unfold by_name in Hby. bool_simpl. subst t n.
  pose proof (proj2 (replaced_in _ _ _ _ Hrep)) as Hin1.
  intros [_ Hrep2]%(execute_reset_program_Ok _ _ _ _ _ _ _ (selects_by_name _ _ Hok' Hin1)).
  by eapply replaced_trans.
Qed.

Lemma reset_program_inv now p : program_inv (prog (reset_program now p)).
Proof. by constructor; cbn; naive_solver. Qed.

Lemma update_description_inv u pv r :
  row_inv r → deployment_initial r = None ∨ up_runtime_config u = None →
  is_ok (on_some (validate_name (V := Value)) (up_name u)) = true →
  in_range i64 (version r + 1)%Z = true → in_range i64 (refresh_version r + 1)%Z = true →
  row_inv (update_description u pv r).
Proof.
  intros [] Hi Hn _ Hr. apply in_range_spec in Hr.
  constructor; cbn -[MAX validate_name]; try done; [lia| |by destruct Hi as [-> | ->]].
  destruct (up_name u) as [n|]; [|done]. cbn -[validate_name] in *. by destruct (validate_name n).
Qed.

Lemma update_pipeline_inv now d c t n u pv bump v d' :
  db_inv d → update_pipeline now d c t n u pv bump = Ok (v, d') → db_inv d'.
Proof.
  intros Hinv Hu.
  assert (is_ok (on_some (validate_name (V := Value)) (up_name u)) = true) as Hname.
  { unfold update_pipeline in Hu. apply bind_Ok in Hu as (? & -> & _). done. }
  destruct (update_pipeline_Ok _ _ _ _ _ _ _ _ _ _ (proj1 Hinv) Hu)
    as (r & Hsel & Hall & [[-> _]|(u' & pv' & reset & Hrep & _ & Hun & Hc & _ & Hv & Hrv & Hn)]); [done|].
  assert (deployment_resources_status r = ResourcesStatus.Stopped) as Hst.
  { unfold update_allowed in Hall. by destruct c, (deployment_resources_status r). }
  eapply db_inv_replaced; [done | done | by destruct reset | by destruct reset | done |].
  intros Hr. assert (row_inv (update_description u' pv' r)) as Hr1.
  { apply update_description_inv; [done | | by rewrite Hun | done | done].
    destruct c; [right; specialize (Hc eq_refl); unfold is_no_update in Hc; by bool_simpl | left].
    apply (initial_reset _ (row_deployment _ Hr)); [|by rewrite Hst].
    unfold update_allowed in Hall. by rewrite Hst in Hall; destruct (deployment_resources_desired_status r). }
  destruct reset; [|done].
  apply (row_inv_prog _ (prog (reset_program now (update_description u' pv' r))) (refresh_version r + 1)) in Hr1.
  - exact Hr1.
  - apply reset_program_inv.
  - cbn. by rewrite Hst.
  - destruct (versions_ordered _ Hr). cbn. lia.
  - apply in_range_spec in Hrv. destruct (versions_ordered _ Hr). cbn -[MAX]. lia.
Qed.

(** *** Creation, deletion and the small updates *)

Lemma insert_row_Ok d r d' :
  table_ok d → insert_row d r = Ok d' →
  table_ok d' ∧ tenants d' = tenants d ∧ pipelines d' = pipelines d ++ [r].
Proof.
  intros [Hi Hn Ht]. unfold insert_row. destruct (existsb _ _) eqn:Hid; [done|].
  destruct (existsb _ _) eqn:Hname in |- *; [done|].
  destruct (negb (existsb _ _)) eqn:Hten; [done|]. intros [= <-]. split; [|done].
  apply negb_false_iff, existsb_exists in Hten as (t & Hin%list_elem_of_In & Hteq). bool_simpl. subst t.
  constructor; cbn; rewrite ?fmap_app; cbn.
  - apply NoDup_app. split_and!; [done | | apply NoDup_singleton].
    intros k (s & -> & Hs)%list_elem_of_fmap Hk%list_elem_of_singleton.
    enough (existsb (λ s, bool_decide (row_id s = row_id r)) (pipelines d) = true) by congruence.
    apply existsb_exists. exists s. split; [by apply list_elem_of_In | by apply bool_decide_eq_true].
  - apply NoDup_app. split_and!; [done | | apply NoDup_singleton].
    intros k (s & -> & Hs)%list_elem_of_fmap Hk%list_elem_of_singleton.
    by apply (existsb_by_name _ _ _ Hname s Hs).
  - rewrite Forall_app, Forall_singleton. done.
Qed.

Lemma new_row_inv now t i pv p rc pc :
  is_ok (validate_name (V := Value) (pd_name p)) = true → row_inv (new_row now t i pv p rc pc).
Proof.
  intros Hn. constructor; cbn -[MAX validate_name]; try done; by constructor; cbn; naive_solver.
Qed.

Lemma new_pipeline_inv now d t i pv p a d' :
  db_inv d → new_pipeline now d t i pv p = Ok (a, d') → db_inv d'.
Proof.
  intros [Hok Hall] Hnew. unfold new_pipeline in Hnew. op_simpl.
  match goal with H : insert_row _ _ = Ok _ |- _ =>
    apply (insert_row_Ok _ _ _ Hok) in H as (Hok' & _ & Hp) end.
  split; [done|]. rewrite Hp, Forall_app, Forall_singleton. split; [done|].
  apply new_row_inv. by match goal with H : validate_name _ = Ok _ |- _ => rewrite H end.
Qed.

Lemma delete_pipeline_inv d t n i d' :
  db_inv d → delete_pipeline d t n = Ok (i, d') → db_inv d'.
Proof.
  intros [[Hi Hn Ht] Hall] Hdel. unfold delete_pipeline in Hdel. op_simpl.
  match goal with H : (if ?b then _ else _) = Ok _ |- _ => destruct b end; [|done]. op_simpl.
  assert (∀ P, Forall P (pipelines d) →
    Forall P (filter (λ r, by_name t n r = false) (pipelines d))) as Hsub.
  { intros P HP. rewrite Forall_forall in *. intros r [_ Hr]%list_elem_of_filter. auto. }
  split; [constructor|]; cbn; [| |by apply Hsub ..].
  all: eapply sublist_NoDup; [|apply fmap_sublist, sublist_filter]; done.
Qed.

Lemma increment_notify_counter_inv d t n d' :
  db_inv d → increment_notify_counter d t n = Ok d' → db_inv d'.
Proof.
  intros [[Hi Hn Ht] Hall] Hinc. unfold increment_notify_counter in Hinc.
  destruct (forallb _ _); [|done]. op_simpl.
  match goal with H : (if ?b then _ else _) = Ok _ |- _ => destruct b end; [|done]. op_simpl.
  unfold execute_update in *. simplify_eq. split; [constructor|]; cbn.
  - rewrite <- list_fmap_compose. erewrite list_fmap_ext; [exact Hi|].
    intros ? r ?. cbn. by destruct (by_name t n r).
  - rewrite <- list_fmap_compose. erewrite list_fmap_ext; [exact Hn|].
    intros ? r ?. cbn. by destruct (by_name t n r).
  - rewrite Forall_fmap. eapply Forall_impl; [exact Ht|]. intros r Hr. cbn. by destruct (by_name t n r).
  - rewrite Forall_fmap. eapply Forall_impl; [exact Hall|]. intros r Hr. cbn.
    destruct (by_name t n r); [|done]. by destruct Hr; constructor.
Qed.

Lemma force_platform_version_inv d t n pv a d' :
  db_inv d → testing_force_update_platform_version d t n pv = (a, d') → db_inv d'.
Proof.
  intros Hinv. unfold testing_force_update_platform_version, commit.
  destruct (_ ≫= _) as [[[] d1]| |] eqn:Hu; intros [= _ <-]; [|done|done].
  op_simpl. found_row r. destruct (selects_in _ _ _ H) as [Hin Hby].
  match goal with H : execute_update ?d ?c ?f = _ |- _ =>
    assert (selects d c r) as Hsel; [|destruct (execute_update_selected d c f r Hsel) as (d2 & He & Hrep);
      rewrite He in H; simplify_eq] end.
  { apply (filter_unique row_id); [apply Hinv | done | by apply bool_decide_eq_true | by intros; bool_simpl]. }
  eapply db_inv_replaced; [done | done | done | done | by left |]. intros []. by constructor.
Qed.

(** ** Requests *)

(** The requests to the storage interface that change the table, by who issues them. *)
Inductive UserRequest :=
| NewPipeline (t : TenantId) (new_id : N) (pv : string) (p : PipelineDescr)
| NewOrUpdatePipeline (t : TenantId) (new_id : N) (n pv : string) (bump : bool) (p : PipelineDescr)
| UpdatePipeline (t : TenantId) (n : string) (u : Update) (pv : string) (bump : bool)
| ForcePlatformVersion (t : TenantId) (n pv : string)
| DeletePipeline (t : TenantId) (n : string)
| Start (t : TenantId) (n : string) (initial : RuntimeDesiredStatus.t) (policy : BootstrapPolicy.t)
| Stop (t : TenantId) (n : string)
| StopIfNotProvisioned (t : TenantId) (n : string)
| ClearStorage (t : TenantId) (n : string)
| IncrementNotifyCounter (t : TenantId) (n : string).

Inductive CompilerRequest :=
| ClearOngoingSql (pv : string) (worker_id total_workers : Z)
| ClearOngoingRust (pv : string) (worker_id total_workers : Z)
| ToCompilingSql (t : TenantId) (i : PipelineId) (guard : Version)
| ToSqlCompiled (t : TenantId) (i : PipelineId) (guard : Version) (sql : SqlCompilationInfo) (info : Value)
| ToCompilingRust (t : TenantId) (i : PipelineId) (guard : Version)
| ToSuccess (t : TenantId) (i : PipelineId) (guard : Version) (rust : RustCompilationInfo) (c1 c2 c3 : string)
| ToSqlError (t : TenantId) (i : PipelineId) (guard : Version) (sql : SqlCompilationInfo)
| ToRustError (t : TenantId) (i : PipelineId) (guard : Version) (rust : RustCompilationInfo)
| ToSystemError (t : TenantId) (i : PipelineId) (guard : Version) (error : string).

Inductive RunnerRequest :=
| ToProvisioning (t : TenantId) (i : PipelineId) (guard : Version) (new_id : N) (config : Value)
| ToProvisioned (t : TenantId) (i : PipelineId) (guard : Version) (location : string) (s : ExtendedRuntimeStatus)
| ToStopping (t : TenantId) (i : PipelineId) (guard : Version) (error : option ErrorResponse) (suspend : option Value)
| ToStopped (t : TenantId) (i : PipelineId) (guard : Version)
| ToCleared (t : TenantId) (i : PipelineId).

(** The committed state after a request. *)
Definition exec_user (now : Z) d (q : UserRequest) : Db :=
  match q with
  | NewPipeline t new_id pv p => (storage_new_pipeline now d t new_id pv p).2
  | NewOrUpdatePipeline t new_id n pv bump p => (new_or_update_pipeline now d t new_id n pv bump p).2
  | UpdatePipeline t n u pv bump => (storage_update_pipeline now d t n u pv bump).2
  | ForcePlatformVersion t n pv => (testing_force_update_platform_version d t n pv).2
  | DeletePipeline t n => (storage_delete_pipeline d t n).2
  | Start t n initial policy =>
      (set_deployment_resources_desired_status_provisioned now d t n initial policy).2
  | Stop t n => (set_deployment_resources_desired_status_stopped now d t n).2
  | StopIfNotProvisioned t n =>
      (set_deployment_resources_desired_status_stopped_if_not_provisioned now d t n).2
  | ClearStorage t n => (transit_storage_status_to_clearing_if_not_cleared d t n).2
  | IncrementNotifyCounter t n => (storage_increment_notify_counter d t n).2
  end.

Definition exec_compiler (now : Z) d (q : CompilerRequest) : Db :=
  match q with
  | ClearOngoingSql pv w n => (clear_ongoing_sql_compilation_for_worker now d pv w n).2
  | ClearOngoingRust pv w n => (clear_ongoing_rust_compilation_for_worker now d pv w n).2
  | ToCompilingSql t i g => (transit_program_status_to_compiling_sql now d t i g).2
  | ToSqlCompiled t i g sql info => (transit_program_status_to_sql_compiled now d t i g sql info).2
  | ToCompilingRust t i g => (transit_program_status_to_compiling_rust now d t i g).2
  | ToSuccess t i g rust c1 c2 c3 => (transit_program_status_to_success now d t i g rust c1 c2 c3).2
  | ToSqlError t i g sql => (transit_program_status_to_sql_error now d t i g sql).2
  | ToRustError t i g rust => (transit_program_status_to_rust_error now d t i g rust).2
  | ToSystemError t i g e => (transit_program_status_to_system_error now d t i g e).2
  end.

Definition exec_runner (now : Z) d (q : RunnerRequest) : Db :=
  match q with
  | ToProvisioning t i g new_id config =>
      (transit_deployment_resources_status_to_provisioning now d t i g new_id config).2
  | ToProvisioned t i g location s =>
      (transit_deployment_resources_status_to_provisioned now d t i g location s).2
  | ToStopping t i g e suspend =>
      (transit_deployment_resources_status_to_stopping now d t i g e suspend).2
  | ToStopped t i g => (transit_deployment_resources_status_to_stopped now d t i g).2
  | ToCleared t i => (transit_storage_status_to_cleared d t i).2
  end.

(** Requests of all parties interleave in any order. *)
Inductive step : Db → Db → Prop :=
| step_user now d q : step d (exec_user now d q)
| step_compiler now d q : step d (exec_compiler now d q)
| step_runner now d q : step d (exec_runner now d q).

Definition initial_db (ts : list TenantId) : Db := {| tenants := ts; pipelines := [] |}.

Definition reachable d : Prop := ∃ ts, rtc step (initial_db ts) d.

(** *** Every request keeps the invariant *)

Lemma commit_inv {A} d (r : result (A * Db)) :
  db_inv d → (∀ a d', r = Ok (a, d') → db_inv d') → db_inv (commit d r).2.
Proof. intros Hd Hr. destruct r as [[a d']| |]; cbn; eauto. Qed.

Lemma commit_unit_inv d (r : result Db) :
  db_inv d → (∀ d', r = Ok d' → db_inv d') → db_inv (commit d (unit_of r)).2.
Proof.
  intros Hd Hr. apply commit_inv; [done|]. intros [] d'. unfold unit_of. intros. op_simpl. eauto.
Qed.

Lemma for_each_inv {A} (body : Db → A → result Db) l d d' :
  (∀ d a d', db_inv d → body d a = Ok d' → db_inv d') →
  db_inv d → for_each body d l = Ok d' → db_inv d'.
Proof.
  intros Hb. revert d. induction l as [|a l IH]; intros d Hd; cbn; intros; op_simpl; [done|]. eauto.
Qed.

Lemma selects_det d c r1 r2 : selects d c r1 → selects d c r2 → r1 = r2.
Proof. unfold selects. congruence. Qed.

Lemma selects_replaced d d' r r' t i :
  table_ok d' → replaced d d' r r' → row_id r' = row_id r → row_tenant r' = row_tenant r →
  selects d (by_id t i) r → selects d' (by_id t i) r'.
Proof.
  intros Hok Hrep Hid Ht [_ Hby]%selects_in. unfold by_id in Hby. bool_simpl. subst t i.
  rewrite <- Hid, <- Ht. apply selects_by_id; [done|]. by apply replaced_in in Hrep as [_ ?].
Qed.

#[local] Create HintDb pm.
#[local] Hint Resolve set_storage_status_inv set_program_status_inv set_desired_status_inv
  update_pipeline_inv new_pipeline_inv delete_pipeline_inv increment_notify_counter_inv : pm.

Lemma clear_sql_body_inv now pv w n d p d' :
  db_inv d → clear_sql_body now pv w n d p = Ok d' → db_inv d'.
Proof.
  intros Hd. destruct p as [t r]. unfold clear_sql_body. repeat case_match; intros; op_simpl; eauto with pm.
Qed.

Lemma clear_rust_body_inv now pv w n d p d' :
  db_inv d → clear_rust_body now pv w n d p = Ok d' → db_inv d'.
Proof.
  intros Hd. destruct p as [t r]. unfold clear_rust_body. repeat case_match; intros; op_simpl; eauto with pm.
Qed.

Lemma exec_compiler_inv now d q : db_inv d → db_inv (exec_compiler now d q).
Proof.
  intros Hd. destruct q; apply commit_unit_inv; try done; eauto with pm; intros d'.
  - apply for_each_inv; [|done]. apply clear_sql_body_inv.
  - apply for_each_inv; [|done]. apply clear_rust_body_inv.
Qed.

Lemma exec_user_inv now d q : db_inv d → db_inv (exec_user now d q).
Proof.
  intros Hd. destruct q; cbn [exec_user];
    try (apply commit_inv; [done|]; intros; op_simpl; eauto with pm; fail).
  - apply commit_inv; [done|]. intros [b r] d' H. op_simpl. repeat case_match; op_simpl; eauto with pm.
  - destruct (testing_force_update_platform_version d t n pv) eqn:He.
    by eapply force_platform_version_inv.
  - apply commit_inv; [done|]. intros [b i] d' H. op_simpl. repeat case_match; op_simpl; eauto with pm.
  - apply commit_inv; [done|]. intros i d' H. op_simpl. repeat case_match; op_simpl; eauto with pm.
  - apply commit_unit_inv; eauto with pm.
Qed.

Lemma to_provisioning_inv now d t i g new_id config :
  db_inv d → db_inv (exec_runner now d (ToProvisioning t i g new_id config)).
Proof.
  intros Hd. apply commit_inv; [done|]. unfold unit_of. intros [] d' H. op_simpl. rename x into d1.
  assert (db_inv d1) as Hd1 by eauto with pm.
  match goal with H : set_storage_status _ _ _ _ = Ok _ |- _ =>
    apply set_storage_status_Ok in H as (r & Hsel & _ & _ & Hrep) end.
  eapply set_resources_status_inv; [exact Hd1 | done |]. intros r2 Hsel2.
  by rewrite (selects_det _ _ _ _ Hsel2 (selects_replaced _ _ _ _ _ _ (proj1 Hd1) Hrep eq_refl eq_refl Hsel)).
Qed.

Lemma to_stopping_inv now d t i g e suspend :
  db_inv d → db_inv (exec_runner now d (ToStopping t i g e suspend)).
Proof.
  intros Hd. apply commit_inv; [done|]. unfold unit_of. intros [] d' H. op_simpl. found_row r. rename d0 into d1.
  match goal with H : set_deployment_resources_desired_status _ _ _ _ _ _ _ = Ok _ |- _ =>
    assert (db_inv d1) as Hd1 by eauto with pm;
    apply (set_desired_status_replaced _ _ _ _ _ _ _ _ _ (proj1 Hd)) in H
      as (r1 & ? & ? & Hsel1 & _ & Hrep & _ & _) end.
  match goal with H : selects d (by_id t i) r |- _ => rename H into Hsel end.
  destruct (selects_in _ _ _ Hsel) as [Hin Hby]. unfold by_id in Hby. bool_simpl. subst t i.
  assert (r1 = r) as -> by exact (selects_det _ _ _ _ Hsel1 (selects_by_name _ _ (proj1 Hd) Hin)).
  pose proof (selects_replaced _ _ _ _ _ _ (proj1 Hd1) Hrep eq_refl eq_refl Hsel) as Hsel2.
  eapply set_resources_status_inv; [exact Hd1 | done |]. intros r2 Hr2.
  by rewrite (selects_det _ _ _ _ Hr2 Hsel2).
Qed.

Lemma exec_runner_inv now d q : db_inv d → db_inv (exec_runner now d q).
Proof.
  intros Hd. destruct q; [by apply to_provisioning_inv| |by apply to_stopping_inv|..]; cbn [exec_runner].
  - apply commit_unit_inv; [done|]. intros. by eapply set_resources_status_inv.
  - apply commit_unit_inv; [done|]. intros. by eapply set_resources_status_inv.
  - apply commit_unit_inv; eauto with pm.
Qed.

Lemma initial_db_inv ts : db_inv (initial_db ts).
Proof. split; [constructor|]; cbn; constructor. Qed.

Lemma step_inv d d' : step d d' → db_inv d → db_inv d'.
Proof. intros []; [apply exec_user_inv | apply exec_compiler_inv | apply exec_runner_inv]. Qed.

Lemma reachable_inv d : reachable d → db_inv d.
Proof.
  intros (ts & Hsteps). assert (db_inv (initial_db ts)) as Hinit by apply initial_db_inv.
  induction Hsteps; [done|]. eauto using step_inv.
Qed.
End invariant.
