(* ===== verification/PipelineFrame.v ===== *)
(** What the requests of users and of the compiler leave alone: a pipeline that is
    not stopped keeps its description, program, storage and deployment; only the desired status
    can change, and not from stopped back to provisioned. *)
From stdpp Require Import strings relations.
From S2P Require Import Prelude Machine PipelineTypes PipelineDb PipelineInvariant.

Section frame.
Context `{EX : Externals}.
Notation result := (result Value).
Implicit Types (d : Db) (r : Row).

(** Everything but the desired status, its parameters and the notification counter. *)
Record frozen r r' : Prop := {
  frozen_id : row_id r' = row_id r;
  frozen_tenant : row_tenant r' = row_tenant r;
  frozen_descr : descr r' = descr r;
  frozen_prog : prog r' = prog r;
  frozen_storage : storage_status r' = storage_status r;
  frozen_status : deployment_resources_status r' = deployment_resources_status r;
  frozen_since : deployment_resources_status_since r' = deployment_resources_status_since r;
  frozen_deployment_id : deployment_id r' = deployment_id r;
  frozen_config : deployment_config r' = deployment_config r;
  frozen_location : deployment_location r' = deployment_location r;
  frozen_runtime : deployment_runtime_status r' = deployment_runtime_status r
                   ∧ deployment_runtime_desired_status r' = deployment_runtime_desired_status r;
  frozen_error : deployment_error r' = deployment_error r ∧ suspend_info r' = suspend_info r;
  frozen_desired : deployment_resources_desired_status r = ResourcesDesiredStatus.Stopped →
    deployment_resources_desired_status r' = ResourcesDesiredStatus.Stopped }.

Lemma frozen_refl r : frozen r r.
Proof. by constructor. Qed.

Lemma frozen_trans r1 r2 r3 : frozen r1 r2 → frozen r2 r3 → frozen r1 r3.
Proof.
  intros [] []. constructor; try (split; by intuition congruence); try congruence. auto.
Qed.

(** A step of a user or of the compiler. *)
Inductive env_step : Db → Db → Prop :=
| env_user now d q : env_step d (exec_user now d q)
| env_compiler now d q : env_step d (exec_compiler now d q).

Lemma env_step_step d d' : env_step d d' → step d d'.
Proof. intros []; constructor. Qed.

Lemma env_steps_inv d d' : rtc env_step d d' → db_inv d → db_inv d'.
Proof. induction 1; eauto using step_inv, env_step_step. Qed.

(** The active row [r] is still there in [d'], frozen. *)
Definition keeps d' r : Prop := ∃ r', r' ∈ pipelines d' ∧ frozen r r'.
Definition active r : Prop := deployment_resources_status r ≠ ResourcesStatus.Stopped.

Lemma keeps_refl d r : r ∈ pipelines d → keeps d r.
Proof. exists r. split; [done | apply frozen_refl]. Qed.

Lemma keeps_replaced d d' r s s' :
  replaced d d' s s' → r ∈ pipelines d → active r →
  (deployment_resources_status s = ResourcesStatus.Stopped ∨ frozen s s') → keeps d' r.
Proof.
  intros (_ & l1 & l2 & Hp & Hp') Hin Hact Hs. rewrite Hp in Hin. unfold keeps. rewrite Hp'.
  apply elem_of_app in Hin as [Hr|[->|Hr]%elem_of_cons].
  - exists r. split; [set_solver | apply frozen_refl].
  - destruct Hs as [Hs|Hs]; [done|]. exists s'. set_solver.
  - exists r. split; [set_solver | apply frozen_refl].
Qed.

Lemma keeps_commit {A} d (x : result (A * Db)) r :
  r ∈ pipelines d → (∀ a d', x = Ok (a, d') → keeps d' r) → keeps (commit d x).2 r.
Proof. intros Hin Hx. destruct x as [[a d']| |]; cbn; eauto using keeps_refl. Qed.

Lemma keeps_commit_unit d (x : result Db) r :
  r ∈ pipelines d → (∀ d', x = Ok d' → keeps d' r) → keeps (commit d (unit_of x)).2 r.
Proof.
  intros Hin Hx. apply keeps_commit; [done|]. unfold unit_of. intros. op_simpl. eauto.
Qed.

(** ** The operations *)

Lemma set_storage_status_keeps d t i s d' r :
  set_storage_status d t i s = Ok d' → r ∈ pipelines d → active r → keeps d' r.
Proof. intros (x & _ & Hst & _ & Hrep)%set_storage_status_Ok. eauto using keeps_replaced. Qed.

Lemma set_program_status_keeps now d t i g s u d' r :
  set_program_status now d t i g s u = Ok d' → r ∈ pipelines d → active r → keeps d' r.
Proof.
  intros (x & p & v & _ & _ & _ & Hst & _ & _ & Hrep)%set_program_status_Ok. eauto using keeps_replaced.
Qed.

Lemma set_desired_status_keeps now d t n s initial policy i d' r :
  table_ok d → set_deployment_resources_desired_status now d t n s initial policy = Ok (i, d') →
  r ∈ pipelines d → active r → keeps d' r.
Proof.
  intros Hok Hset Hin Hact.
  destruct (set_desired_status_Ok _ _ _ _ _ _ _ _ _ Hset) as (x & ini & pol & Hsel & _ & Hval & _ & _ & Hu).
  destruct (selects_in _ _ _ Hsel) as [Hx Hby]. unfold by_name in Hby. bool_simpl. subst t.
  pose proof (update_by_id_Ok _ _ _ _ _ _ (selects_by_id _ _ Hok Hx) Hu) as Hrep. cbn in Hrep.
  apply (keeps_replaced _ _ _ _ _ Hrep Hin Hact).
  destruct (decide (deployment_resources_status x = ResourcesStatus.Stopped)) as [|Hne]; [by left|right].
  constructor; cbn; try done. intros Hd. destruct s; [done|]. exfalso. cbn in Hval.
  by rewrite Hd, bool_decide_eq_true_2, bool_decide_eq_false_2 in Hval.
Qed.

Lemma update_pipeline_keeps now d c t n u pv bump v d' r :
  table_ok d → update_pipeline now d c t n u pv bump = Ok (v, d') →
  r ∈ pipelines d → active r → keeps d' r.
Proof.
  intros Hok Hu Hin Hact.
  destruct (update_pipeline_Ok _ _ _ _ _ _ _ _ _ _ Hok Hu)
    as (x & Hsel & Hall & [[-> _]|(u' & pv' & reset & Hrep & _)]); [by apply keeps_refl|].
  apply (keeps_replaced _ _ _ _ _ Hrep Hin Hact). left.
  unfold update_allowed in Hall. by destruct c, (deployment_resources_status x).
Qed.

Lemma new_pipeline_keeps now d t i pv p a d' r :
  table_ok d → new_pipeline now d t i pv p = Ok (a, d') → r ∈ pipelines d → keeps d' r.
Proof.
  intros Hok Hnew Hin. unfold new_pipeline in Hnew. op_simpl.
  match goal with H : insert_row _ _ = Ok _ |- _ =>
    apply (insert_row_Ok _ _ _ Hok) in H as (_ & _ & Hp) end.
  apply keeps_refl. rewrite Hp. set_solver.
Qed.

Lemma delete_pipeline_keeps d t n i d' r :
  delete_pipeline d t n = Ok (i, d') → r ∈ pipelines d → active r → keeps d' r.
Proof.
  intros Hdel Hin Hact. unfold delete_pipeline in Hdel. op_simpl. found_row x.
  match goal with H : (if ?b then _ else _) = Ok _ |- _ => destruct b end; [|done]. op_simpl.
  apply keeps_refl. cbn. apply list_elem_of_filter. split; [|done].
  destruct (by_name t n r) eqn:Hby; [|done]. exfalso.
  match goal with H : selects d _ x |- _ => rename H into Hsel end.
  assert (r ∈ filter (λ r, by_name t n r = true) (pipelines d)) as Hr by (by apply list_elem_of_filter).
  rewrite Hsel in Hr. apply list_elem_of_singleton in Hr as ->. by apply Hact.
Qed.

Lemma increment_notify_counter_keeps d t n d' r :
  increment_notify_counter d t n = Ok d' → r ∈ pipelines d → keeps d' r.
Proof.
  intros Hinc Hin. unfold increment_notify_counter in Hinc. destruct (forallb _ _); [|done]. op_simpl.
  match goal with H : (if ?b then _ else _) = Ok _ |- _ => destruct b end; [|done]. op_simpl.
  unfold execute_update in *. simplify_eq.
  eexists. split; [apply list_elem_of_fmap_2, Hin|]. cbn. by destruct (by_name t n r).
Qed.

Lemma force_platform_version_keeps d t n pv r :
  db_inv d → r ∈ pipelines d → active r → keeps (testing_force_update_platform_version d t n pv).2 r.
Proof.
  intros Hinv Hin Hact. unfold testing_force_update_platform_version. apply keeps_commit; [done|].
  intros [] d' H. op_simpl. found_row x.
  match goal with H : selects d _ x |- _ => destruct (selects_in _ _ _ H) as [Hx _] end.
  match goal with H : execute_update ?d ?c ?f = _ |- _ =>
    assert (selects d c x) as Hsel; [|destruct (execute_update_selected d c f x Hsel) as (d2 & He & Hrep);
      rewrite He in H; simplify_eq] end.
  { apply (filter_unique row_id); [apply Hinv | done | by apply bool_decide_eq_true | by intros; bool_simpl]. }
  eauto using keeps_replaced.
Qed.

#[local] Create HintDb keeps.
#[local] Hint Resolve keeps_refl set_storage_status_keeps set_program_status_keeps
  set_desired_status_keeps update_pipeline_keeps new_pipeline_keeps delete_pipeline_keeps
  increment_notify_counter_keeps force_platform_version_keeps : keeps.

(** ** Requests *)

Lemma for_each_keeps {A} (body : Db → A → result Db) l d d' r :
  (∀ d a d', db_inv d → body d a = Ok d' → db_inv d') →
  (∀ d a d' r, db_inv d → body d a = Ok d' → r ∈ pipelines d → active r → keeps d' r) →
  db_inv d → for_each body d l = Ok d' → r ∈ pipelines d → active r → keeps d' r.
Proof.
  intros Hinv Hb. revert d r. induction l as [|a l IH]; intros d r Hd; cbn; intros; op_simpl.
  - by apply keeps_refl.
  - rename x into d1. destruct (Hb d a d1 r) as (r1 & Hin1 & Hf1); [done..|].
    destruct (IH d1 r1) as (r2 & Hin2 & Hf2); [by eapply Hinv | done | done | |].
    { unfold active. by rewrite (frozen_status _ _ Hf1). }
    exists r2. eauto using frozen_trans.
Qed.

Lemma clear_sql_body_keeps now pv w n d p d' r :
  db_inv d → clear_sql_body now pv w n d p = Ok d' → r ∈ pipelines d → active r → keeps d' r.
Proof.
  intros [Hok _]. destruct p as [t x]. unfold clear_sql_body.
  repeat case_match; intros; op_simpl; eauto with keeps.
Qed.

Lemma clear_rust_body_keeps now pv w n d p d' r :
  db_inv d → clear_rust_body now pv w n d p = Ok d' → r ∈ pipelines d → active r → keeps d' r.
Proof.
  intros [Hok _]. destruct p as [t x]. unfold clear_rust_body.
  repeat case_match; intros; op_simpl; eauto with keeps.
Qed.

Lemma exec_compiler_keeps now d q r :
  db_inv d → r ∈ pipelines d → active r → keeps (exec_compiler now d q) r.
Proof.
  intros Hd Hin Hact. destruct q; apply keeps_commit_unit; try done; eauto with keeps; intros d' Hx.
  - eapply for_each_keeps; [apply clear_sql_body_inv | apply clear_sql_body_keeps | done ..].
  - eapply for_each_keeps; [apply clear_rust_body_inv | apply clear_rust_body_keeps | done ..].
Qed.

Lemma exec_user_keeps now d q r :
  db_inv d → r ∈ pipelines d → active r → keeps (exec_user now d q) r.
Proof.
  intros Hd Hin Hact. pose proof (proj1 Hd) as Hok. destruct q; cbn [exec_user];
    try (apply keeps_commit; [done|]; intros; op_simpl; eauto with keeps; fail); [| |..].
  - apply keeps_commit; [done|]. intros [b x] d' H. op_simpl. repeat case_match; op_simpl; eauto with keeps.
  - by apply force_platform_version_keeps.
  - apply keeps_commit; [done|]. intros [b i] d' H. op_simpl. repeat case_match; op_simpl; eauto with keeps.
  - apply keeps_commit; [done|]. intros i d' H. op_simpl. repeat case_match; op_simpl; eauto with keeps.
  - apply keeps_commit_unit; eauto with keeps.
Qed.

Lemma env_steps_keeps d d' r :
  rtc env_step d d' → db_inv d → r ∈ pipelines d → active r → keeps d' r.
Proof.
  intros Hsteps. revert r. induction Hsteps as [d|d1 d2 d3 Hstep _ IH]; intros r Hd Hin Hact.
  - by apply keeps_refl.
  - assert (keeps d2 r) as (r2 & Hin2 & Hf2)
      by (destruct Hstep; [by apply exec_user_keeps | by apply exec_compiler_keeps]).
    destruct (IH r2) as (r3 & Hin3 & Hf3); [by eapply step_inv; [apply env_step_step|] | done | |].
    { unfold active. by rewrite (frozen_status _ _ Hf2). }
    exists r3. eauto using frozen_trans.
Qed.
End frame.
