(* ===== verification/PipelineAutomaton.v ===== *)
(** The pipeline automaton of the runner (pipeline-manager/src/runner/pipeline_automata.rs):
    one cycle reads the pipeline, decides on a transition with the help of the executor
    of pipelines, and stores it.  Requests of users and of the compiler may be committed
    between reading and storing. *)
From stdpp Require Import strings pretty relations.
From S2P Require Import Prelude Machine PipelineTypes PipelineDb PipelineInvariant.

(** ** What the automaton uses from other code

    Deserialisers and printers of the messages it exchanges, and version numbers. *)
Inductive InternalRequestError :=
| Timeout (timeout_ms : Z) (error : string)
| Unreachable (error : string)
| InvalidResponseBody (error : string).

Class RunnerExternals `{Externals} := {
  extended_runtime_status_from_value : Value → string + ExtendedRuntimeStatus;
  error_code_from_value : Value → string + string;
  provisioning_timeout_secs : PipelineConfig → option Z;
  semver_at_least : string → string → option bool;
  uuid_to_string : N → string;
  json_pretty : Value → string;
  error_response_debug : Value → string;
  display_request_error : InternalRequestError → string }.

Section automaton.
Context `{EX : Externals} {RX : RunnerExternals}.
#[local] Open Scope string_scope.
Notation result := (result Value).

(** ** Data *)

Inductive State :=
| TransitionToProvisioning (new_id : N) (config : Value)
| TransitionToProvisioned (location : string) (s : ExtendedRuntimeStatus) (is_initial : bool)
| TransitionToStopping (error : option ErrorResponse) (suspend : option Value)
| TransitionToStopped
| StorageTransitionToCleared
| Unchanged.

Record CommonConfig := {
  enable_https : bool;
  compiler_host : string;
  compiler_port : N;
  common_platform_version : string }.

(** The part of the automaton that changes: the provisioning timeout in seconds once
    [provision()] was called, and the start of the grace period, in milliseconds. *)
Record Automaton := {
  provision_called : option Z;
  provisioned_grace_period_start : option Z }.

Definition new_automaton : Automaton :=
  {| provision_called := None; provisioned_grace_period_start := None |}.

(** The arguments of the executor's [provision()]. *)
Record ProvisionArgs := {
  pa_initial : RuntimeDesiredStatus.t;
  pa_bootstrap_policy : option BootstrapPolicy.t;
  pa_deployment_id : N;
  pa_deployment_config : PipelineConfig;
  pa_program_info : Value;
  pa_program_binary_url : string;
  pa_program_info_url : option string;
  pa_program_version : Version;
  pa_suspend_info : option Value }.

(** What the outside world answers in one cycle: the executor, the pipeline's status
    endpoint, the clocks and the generated values. *)
Record World := {
  w_provision : ProvisionArgs → ManagerError + ();
  w_is_provisioned : ManagerError + option string;
  w_check : ManagerError + ();
  w_stop : ManagerError + ();
  w_clear : ManagerError + ();
  w_status : InternalRequestError + (Z * Value);
  w_deployment_config : RuntimeConfig → option ProgramInfo → PipelineConfig;
  w_new_id : N;
  w_utc_now : Z;
  w_instant : Z }.

(** The calls that a cycle makes to the executor. *)
Inductive ExecutorCall :=
| CallProvision (a : ProvisionArgs)
| CallIsProvisioned
| CallCheck
| CallStop
| CallClear.

Section cycle.
Context (cfg : CommonConfig) (default_provisioning_timeout_secs : Z) (w : World).

Definition POLL_PERIOD_STOPPED : Z := 2500.
Definition POLL_PERIOD_PROVISIONING : Z := 1000.
Definition POLL_PERIOD_PROVISIONED : Z := 2500.
Definition POLL_PERIOD_STOPPING : Z := 1000.
Definition PROVISIONED_GRACE_PERIOD : Z := 20000.

Definition stop_with (e : ErrorResponse) : State := TransitionToStopping (Some e) None.
Definition stop_runner (e : RunnerError) : State := stop_with (of_runner_error e).

(** ** From Stopped *)

Definition failed_compilation (what : string) : State :=
  stop_with (of_db_error (StartFailedDueToFailedCompilation
    (what ++ " error occurred (see `program_error` for more information)"))).

Definition transit_stopped_towards_provisioned_early_start (pipeline : Row) : option State :=
  let supported := is_supported_runtime (common_platform_version cfg) (platform_version pipeline) in
  let success := bool_decide (program_status pipeline = ProgramStatus.Success) in
  assert! (negb success || negb supported) in
  Some (match program_status pipeline with
        | ProgramStatus.SqlError => failed_compilation "SQL"
        | ProgramStatus.RustError => failed_compilation "Rust"
        | ProgramStatus.SystemError => failed_compilation "System"
        | _ =>
            if negb supported && success
            then stop_runner (AutomatonCannotProvisionUnsupportedPlatformVersion
                   (common_platform_version cfg) (platform_version pipeline))
            else Unchanged
        end).

Definition transit_stopped_towards_provisioned_phase_ready (pipeline : Row) : option State :=
  assert! (bool_decide (program_status pipeline = ProgramStatus.Success)) in
  assert! (is_supported_runtime (common_platform_version cfg) (platform_version pipeline)) in
  Some (match validate_runtime_config (runtime_config pipeline) with
        | inl e => stop_runner (AutomatonInvalidRuntimeConfig (runtime_config pipeline) e)
        | inr rc =>
            match program_info pipeline with
            | None => stop_runner AutomatonMissingProgramInfo
            | Some info =>
                match validate_program_info info with
                | inl e => stop_runner (AutomatonInvalidProgramInfo info e)
                | inr program_info =>
                    let config :=
                      w_deployment_config w rc
                        (match program_info_integrity_checksum pipeline with
                         | None => Some program_info
                         | Some _ => None
                         end) in
                    match deployment_config_to_value config with
                    | inl e => stop_runner (AutomatonFailedToSerializeDeploymentConfig e)
                    | inr v => TransitionToProvisioning (w_new_id w) v
                    end
                end
            end
        end).

Definition transit_stopped_towards_provisioned (p : ExtendedPipelineDescrRunner) : option State :=
  let pipeline := only_monitoring p in
  if bool_decide (program_status pipeline = ProgramStatus.Success)
     && is_supported_runtime (common_platform_version cfg) (platform_version pipeline)
  then match p with
       | Complete pipeline => transit_stopped_towards_provisioned_phase_ready pipeline
       | Monitoring _ => None
       end
  else transit_stopped_towards_provisioned_early_start pipeline.

(** ** From Provisioning *)

Definition platform_version_requires_bootstrap_policy (pv : string) : bool :=
  match semver_at_least pv "0.164.0" with
  | None => true
  | Some b => b
  end.

Definition compiler_url (kind : string) (pipeline : Row) (source_checksum checksum : string) : string :=
  (if enable_https cfg then "https" else "http") ++ "://" ++ compiler_host cfg ++ ":"
  ++ pretty (compiler_port cfg) ++ "/" ++ kind ++ "/" ++ uuid_to_string (row_id pipeline) ++ "/"
  ++ pretty (program_version pipeline) ++ "/" ++ source_checksum ++ "/" ++ checksum.

(** Collects what [provision()] needs, or the error that stops the pipeline. *)
Definition provision_args (pipeline : Row) : RunnerError + ProvisionArgs :=
  if negb (is_supported_runtime (common_platform_version cfg) (platform_version pipeline))
  then inl (AutomatonCannotProvisionUnsupportedPlatformVersion
         (common_platform_version cfg) (platform_version pipeline))
  else
  match deployment_initial pipeline with
  | None => inl AutomatonMissingDeploymentInitial
  | Some initial =>
  match deployment_id pipeline with
  | None => inl AutomatonMissingDeploymentId
  | Some id =>
  match deployment_config pipeline with
  | None => inl AutomatonMissingDeploymentConfig
  | Some value =>
  match validate_deployment_config value with
  | inl e => inl (AutomatonInvalidDeploymentConfig value e)
  | inr config =>
  match program_binary_source_checksum pipeline with
  | None => inl (AutomatonCannotConstructProgramBinaryUrl "source checksum is missing")
  | Some source_checksum =>
  match program_binary_integrity_checksum pipeline with
  | None => inl (AutomatonCannotConstructProgramBinaryUrl "integrity checksum is missing")
  | Some integrity_checksum =>
  match program_info pipeline with
  | None => inl AutomatonMissingProgramInfo
  | Some info => inr
      {| pa_initial := initial;
         pa_bootstrap_policy :=
           if platform_version_requires_bootstrap_policy (platform_version pipeline)
           then Some (default BootstrapPolicy.default (bootstrap_policy pipeline)) else None;
         pa_deployment_id := id; pa_deployment_config := config; pa_program_info := info;
         pa_program_binary_url :=
           compiler_url "binary" pipeline source_checksum integrity_checksum;
         pa_program_info_url :=
           compiler_url "program_info" pipeline source_checksum
             <$> program_info_integrity_checksum pipeline;
         pa_program_version := program_version pipeline;
         pa_suspend_info := suspend_info pipeline |}
  end end end end end end end.

Definition transit_provisioning_towards_provisioned_phase_call (a : Automaton) (pipeline : Row)
    : option (State * Automaton * list ExecutorCall) :=
  assert! (negb (is_some (provision_called a))) in
  Some (match provision_args pipeline with
        | inl e => (stop_runner e, a, [])
        | inr args =>
            match w_provision w args with
            | inr _ =>
                (Unchanged,
                 {| provision_called := Some (default default_provisioning_timeout_secs
                      (provisioning_timeout_secs (pa_deployment_config args)));
                    provisioned_grace_period_start := provisioned_grace_period_start a |},
                 [CallProvision args])
            | inl e => (stop_with (of_manager_error e), a, [CallProvision args])
            end
        end).

Definition transit_provisioning_towards_provisioned_phase_await (a : Automaton) (pipeline : Row)
    : option (State * list ExecutorCall) :=
  provisioning_timeout ← provision_called a;
  match deployment_initial pipeline with
  | None => Some (stop_runner AutomatonMissingDeploymentInitial, [])
  | Some initial =>
      Some (match w_is_provisioned w with
            | inr (Some location) =>
                TransitionToProvisioned location
                  {| runtime_status := RuntimeStatus.Initializing;
                     runtime_status_details := json_string "";
                     runtime_desired_status := initial |} true
            | inr None =>
                if (provisioning_timeout * 1000
                    <? w_utc_now w - deployment_resources_status_since pipeline)%Z
                then stop_runner (AutomatonProvisioningTimeout provisioning_timeout)
                else Unchanged
            | inl e => stop_with (of_manager_error e)
            end, [CallIsProvisioned])
  end.

Definition transit_provisioning_towards_provisioned (a : Automaton)
    (p : ExtendedPipelineDescrRunner) : option (State * Automaton * list ExecutorCall) :=
  match provision_called a with
  | None =>
      match p with
      | Complete pipeline => transit_provisioning_towards_provisioned_phase_call a pipeline
      | Monitoring _ => None
      end
  | Some _ =>
      '(s, calls) ← transit_provisioning_towards_provisioned_phase_await a (only_monitoring p);
      Some (s, a, calls)
  end.

(** ** From Provisioned *)

Definition runtime_report (s : RuntimeStatus.t) (details : string) (ds : RuntimeDesiredStatus.t)
    : ErrorResponse + ExtendedRuntimeStatus :=
  inr {| runtime_status := s; runtime_status_details := json_string details;
         runtime_desired_status := ds |}.

Definition unavailable (details : string) : ErrorResponse + ExtendedRuntimeStatus :=
  runtime_report RuntimeStatus.Unavailable details RuntimeDesiredStatus.Unavailable.

(** 200 OK *)
Definition parse_ok_body (body : Value) : ErrorResponse + ExtendedRuntimeStatus :=
  match json_as_str body with
  | Some s =>
      if bool_decide (s = "Paused")
      then runtime_report RuntimeStatus.Paused "" RuntimeDesiredStatus.Paused
      else if bool_decide (s = "Running")
      then runtime_report RuntimeStatus.Running "" RuntimeDesiredStatus.Running
      else if bool_decide (s = "Initializing")
      then runtime_report RuntimeStatus.Initializing "" RuntimeDesiredStatus.Paused
      else if bool_decide (s = "Terminated")
      then inl (of_runner_error
             (PipelineInteractionInvalidResponse "Pipeline responded that it is Terminated"))
      else unavailable
        ("Pipeline status response (200 OK) is an unexpected JSON string: '" ++ s ++ "'")
  | None =>
      if json_is_object body then
        match extended_runtime_status_from_value body with
        | inr response => inr response
        | inl e => unavailable
            ("Pipeline status response (200 OK) cannot be deserialized due to: " ++ e)
        end
      else unavailable
        ("Pipeline status response (200 OK) is not a string or an object:
" ++ json_pretty body)
  end.

(** 503 Service Unavailable *)
Definition parse_unavailable_body (body : Value) : ErrorResponse + ExtendedRuntimeStatus :=
  match error_code_from_value body with
  | inr code =>
      if bool_decide (code = "Initializing")
      then runtime_report RuntimeStatus.Initializing "" RuntimeDesiredStatus.Paused
      else if bool_decide (code = "Suspended")
      then runtime_report RuntimeStatus.Suspended "" RuntimeDesiredStatus.Suspended
      else unavailable
        ("Pipeline status response (503 Service Unavailable) is an error:
" ++ error_response_debug body)
  | inl e => unavailable
      ("Pipeline status response (503 Service Unavailable) cannot be deserialized due to: "
       ++ e ++ ". Response was:
" ++ json_pretty body)
  end.

Definition parse_status_result (a : Automaton) (initial : RuntimeDesiredStatus.t)
    (r : InternalRequestError + (Z * Value)) : ErrorResponse + ExtendedRuntimeStatus :=
  match r with
  | inr (status_code, body) =>
      if (status_code =? 200)%Z then parse_ok_body body
      else if (status_code =? 503)%Z then parse_unavailable_body body
      else inl (match error_code_from_value body with
                | inr _ => of_body body
                | inl e => of_runner_error (PipelineInteractionInvalidResponse
                    ("Error response cannot be deserialized due to: " ++ e ++ ". Response was:
" ++ json_pretty body))
                end)
  | inl e =>
      if match provisioned_grace_period_start a with
         | Some t => (w_instant w - t <=? PROVISIONED_GRACE_PERIOD)%Z
         | None => false
         end
      then runtime_report RuntimeStatus.Initializing
        ("Still in the grace period for initializing. Pipeline status endpoint cannot yet be reached due to: "
         ++ display_request_error e) initial
      else unavailable
        ("Pipeline status endpoint could not be reached due to: " ++ display_request_error e)
  end.

Definition observe_provisioned_pipeline_and_enforce_runtime_status (a : Automaton) (pipeline : Row)
    : State :=
  match w_check w with
  | inl e => stop_with (of_manager_error e)
  | inr _ =>
      match deployment_location pipeline with
      | None => stop_runner AutomatonMissingDeploymentLocation
      | Some location =>
          match deployment_initial pipeline with
          | None => stop_runner AutomatonMissingDeploymentInitial
          | Some initial =>
              match parse_status_result a initial (w_status w) with
              | inl e => stop_with e
              | inr s =>
                  if bool_decide (deployment_runtime_status pipeline = Some (runtime_status s))
                     && bool_decide (deployment_runtime_desired_status pipeline
                                     = Some (runtime_desired_status s))
                  then Unchanged
                  else if bool_decide (runtime_status s = RuntimeStatus.Suspended)
                  then TransitionToStopping None (Some json_empty_object)
                  else TransitionToProvisioned location s false
              end
          end
      end
  end.

(** ** From Stopping, and clearing of storage *)

Definition transit_stopping_towards_stopped (a : Automaton) : State * Automaton :=
  match w_stop w with
  | inl _ => (Unchanged, a)
  | inr _ =>
      (TransitionToStopped,
       {| provision_called := None;
          provisioned_grace_period_start := provisioned_grace_period_start a |})
  end.

Definition transit_storage_clearing_to_cleared : State :=
  match w_clear w with
  | inl _ => Unchanged
  | inr _ => StorageTransitionToCleared
  end.

(** ** A cycle *)

(** The transition for what was read; [None] is a panic. *)
Definition determine_transition (a : Automaton) (p : ExtendedPipelineDescrRunner)
    : option (State * Automaton * list ExecutorCall) :=
  let pipeline := only_monitoring p in
  match storage_status pipeline, deployment_resources_status pipeline,
        deployment_resources_desired_status pipeline with
  | (StorageStatus.Cleared | StorageStatus.InUse), ResourcesStatus.Stopped,
      ResourcesDesiredStatus.Stopped => Some (Unchanged, a, [])
  | StorageStatus.Clearing, ResourcesStatus.Stopped, ResourcesDesiredStatus.Stopped =>
      Some (transit_storage_clearing_to_cleared, a, [CallClear])
  | (StorageStatus.Cleared | StorageStatus.InUse), ResourcesStatus.Stopped,
      ResourcesDesiredStatus.Provisioned =>
      s ← transit_stopped_towards_provisioned p; Some (s, a, [])
  | StorageStatus.InUse, ResourcesStatus.Provisioning, ResourcesDesiredStatus.Provisioned =>
      transit_provisioning_towards_provisioned a p
  | StorageStatus.InUse, ResourcesStatus.Provisioned, ResourcesDesiredStatus.Provisioned =>
      Some (observe_provisioned_pipeline_and_enforce_runtime_status a pipeline, a, [CallCheck])
  | _, ResourcesStatus.Stopping, _ =>
      let '(s, a) := transit_stopping_towards_stopped a in Some (s, a, [CallStop])
  | StorageStatus.InUse, (ResourcesStatus.Provisioning | ResourcesStatus.Provisioned),
      ResourcesDesiredStatus.Stopped => Some (TransitionToStopping None None, a, [])
  | StorageStatus.Clearing, ResourcesStatus.Stopped, ResourcesDesiredStatus.Provisioned
  | (StorageStatus.Cleared | StorageStatus.Clearing), ResourcesStatus.Provisioning, _
  | (StorageStatus.Cleared | StorageStatus.Clearing), ResourcesStatus.Provisioned, _ =>
      Some (stop_runner (AutomatonImpossibleDesiredStatus (deployment_resources_status pipeline)
              (deployment_resources_desired_status pipeline)), a, [])
  end.

(** Stores the transition; returns the resources status it leads to. *)
Definition store_transition (now : Z) (d : Db) (pipeline : Row) (transition : State) (a : Automaton)
    : result ResourcesStatus.t * Db * Automaton :=
  let t := row_tenant pipeline in
  let i := row_id pipeline in
  let version_guard := version pipeline in
  match transition with
  | TransitionToProvisioning new_id config =>
      match transit_deployment_resources_status_to_provisioning now d t i version_guard new_id config
      with
      | (Ok _, d') => (Ok ResourcesStatus.Provisioning, d', a)
      | (Err (OutdatedPipelineVersion _ _), d') => (Ok ResourcesStatus.Stopped, d', a)
      | (Err e, d') => (Err e, d', a)
      | (Panic, d') => (Panic, d', a)
      end
  | TransitionToProvisioned location s is_initial =>
      match transit_deployment_resources_status_to_provisioned now d t i version_guard location s with
      | (Ok _, d') =>
          (Ok ResourcesStatus.Provisioned, d',
           {| provision_called := provision_called a;
              provisioned_grace_period_start := if is_initial then Some (w_instant w) else None |})
      | (Err e, d') => (Err e, d', a)
      | (Panic, d') => (Panic, d', a)
      end
  | TransitionToStopping error suspend =>
      match transit_deployment_resources_status_to_stopping now d t i version_guard error suspend with
      | (Ok _, d') => (Ok ResourcesStatus.Stopping, d', a)
      | (Err e, d') => (Err e, d', a)
      | (Panic, d') => (Panic, d', a)
      end
  | TransitionToStopped =>
      match transit_deployment_resources_status_to_stopped now d t i version_guard with
      | (Ok _, d') => (Ok ResourcesStatus.Stopped, d', a)
      | (Err e, d') => (Err e, d', a)
      | (Panic, d') => (Panic, d', a)
      end
  | StorageTransitionToCleared =>
      match transit_storage_status_to_cleared d t i with
      | (Ok _, d') => (Ok (deployment_resources_status pipeline), d', a)
      | (Err e, d') => (Err e, d', a)
      | (Panic, d') => (Panic, d', a)
      end
  | Unchanged => (Ok (deployment_resources_status pipeline), d, a)
  end.

Definition poll_timeout (s : ResourcesStatus.t) : Z :=
  match s with
  | ResourcesStatus.Stopped => POLL_PERIOD_STOPPED
  | ResourcesStatus.Provisioning => POLL_PERIOD_PROVISIONING
  | ResourcesStatus.Provisioned => POLL_PERIOD_PROVISIONED
  | ResourcesStatus.Stopping => POLL_PERIOD_STOPPING
  end.

(** The read of a cycle: the descriptor, and the decision made from it. *)
Definition observe (d : Db) (t : TenantId) (i : PipelineId) (a : Automaton)
    : result (Row * State * Automaton * list ExecutorCall) :=
  p ← get_pipeline_by_id_for_runner d t i (common_platform_version cfg) (is_some (provision_called a));
  match determine_transition a p with
  | Some (s, a, calls) => Ok (only_monitoring p, s, a, calls)
  | None => Panic
  end.

(** A whole cycle: [interfere] is what others commit between reading and storing. *)
Definition do_run (now : Z) (interfere : Db → Db) (d : Db) (t : TenantId) (i : PipelineId)
    (a : Automaton) : result Z * Db * Automaton * list ExecutorCall :=
  match observe d t i a with
  | Ok (pipeline, transition, a, calls) =>
      let '(r, d, a) := store_transition now (interfere d) pipeline transition a in
      (poll_timeout <$> r, d, a, calls)
  | Err e => (Err e, interfere d, a, [])
  | Panic => (Panic, interfere d, a, [])
  end.

(** The time to wait before the next cycle, in seconds after errors. *)
Definition backoff_timeout (database_error_counter : Z) : Z :=
  (if database_error_counter =? 0 then 5
   else if database_error_counter <=? 5 then 10
   else if database_error_counter <=? 10 then 30
   else if database_error_counter <=? 15 then 60
   else if database_error_counter <=? 20 then 120
   else if database_error_counter <=? 25 then 300
   else if database_error_counter <=? 30 then 600
   else 1200)%Z.

(** The loop: the next poll timeout in milliseconds and the error counter, or the end of
    the automaton when the pipeline is gone. *)
Definition after_cycle (r : result Z) (database_error_counter : Z) : option (Z * Z) :=
  match r with
  | Ok timeout => Some (timeout, 0%Z)
  | Err (UnknownPipeline _) => None
  | Err _ => Some (backoff_timeout database_error_counter * 1000, database_error_counter + 1)%Z
  | Panic => None
  end.
End cycle.
End automaton.
