(* ===== verification/PipelineRunner.v ===== *)
(** Correctness of the pipeline automaton against the pipeline table: its decisions never
    run into missing columns, its transitions can be stored whatever users and the
    compiler do in the meantime, stopping and starting make progress. *)
From stdpp Require Import strings relations.
From S2P Require Import Prelude Machine PipelineTypes PipelineDb PipelineInvariant PipelineFrame.
From S2P Require Import PipelineAutomaton.

(** ** When the operations succeed *)

Section success.
Context `{EX : Externals}.
Notation result := (result Value).
Implicit Types (d : Db) (r : Row).

Lemma set_resources_status_is_Ok now d t i s u r a b c :
  selects d (by_id t i) r →
  validate_resources_status_transition (V := Value) (storage_status r)
    (deployment_resources_status r) s = Ok () →
  (requires_compiled_program (deployment_resources_status r) s = true →
     program_status r = ProgramStatus.Success) →
  stopping_information r s u = Ok a → provisioning_information r s u = Ok b →
  validate_config b.2 = Ok () → provisioned_information s u = Ok c →
  ∃ d', set_deployment_resources_status now d t i (version r) s u = Ok d'
        ∧ replaced d d' r (with_depl r (with_status now r s a b c (final_deployment_initial r s))).
Proof.
  intros Hsel Hval Hprog Ha Hb Hcfg Hc. unfold set_deployment_resources_status.
  rewrite (proj2 (get_pipeline_by_id_Ok _ _ _ _) Hsel). cbn [mbind result_bind].
  rewrite (bool_decide_eq_true_2 (version r = version r)) by done. cbn [throw_if negb]. rewrite Hval. cbn [mbind result_bind].
  assert (requires_compiled_program (deployment_resources_status r) s
          && negb (bool_decide (program_status r = ProgramStatus.Success)) = false) as ->.
  { destruct (requires_compiled_program _ _); [|done]. by rewrite bool_decide_eq_true_2 by auto. }
  cbn [throw_if]. rewrite Ha. destruct a as [a1 a2]. cbn [mbind result_bind]. rewrite Hb.
  destruct b as [b1 b2]. cbn [mbind result_bind] in *. cbn [snd] in Hcfg. rewrite Hcfg. cbn [mbind result_bind].
  rewrite Hc. destruct c as [[[c1 c2] c3] c4]. cbn [mbind result_bind].
  match goal with |- ∃ d', update_by_id _ _ _ ?f = _ ∧ _ =>
    destruct (update_by_id_is_Ok _ _ _ f _ Hsel) as (d' & -> & Hrep) end.
  by exists d'.
Qed.

Lemma set_desired_stopped_is_Ok now d r :
  db_inv d → r ∈ pipelines d →
  ∃ d' ini pol,
    set_deployment_resources_desired_status now d (row_tenant r) (name r)
      ResourcesDesiredStatus.Stopped None None = Ok (row_id r, d')
    ∧ replaced d d' r (with_depl r (with_desired now r ResourcesDesiredStatus.Stopped ini pol)).
Proof.
  intros Hinv Hin. unfold set_deployment_resources_desired_status.
  rewrite (proj2 (get_pipeline_Ok _ _ _ _) (selects_by_name _ _ (proj1 Hinv) Hin)). cbn [mbind result_bind].
  cbn [validate_resources_desired_status_transition mbind result_bind check_precondition negb is_some].
  pose proof (standby_allowed _ (db_inv_row _ _ Hinv Hin)) as Hstandby.
  destruct (if bool_decide (deployment_resources_status r = ResourcesStatus.Stopped)
    then (None, None) else (deployment_initial r, bootstrap_policy r)) as [ini pol] eqn:Hif.
  assert (match deployment_initial r, ini with
          | Some cur, Some new => negb (bool_decide ((cur, bootstrap_policy r) = (new, pol)))
          | _, _ => false end = false) as Hsame.
  { case_bool_decide; simplify_eq; destruct (deployment_initial r); try done.
    by rewrite bool_decide_eq_true_2. }
  assert (bool_decide (ini = Some RuntimeDesiredStatus.Standby)
    && (negb (is_file_backend (runtime_config r)) || negb (is_sync_configured (runtime_config r))) = false) as Hsb.
  { case_bool_decide; injection Hif as <- <-; [done|]. case_bool_decide as Hi; [|done].
    by destruct (andb_prop _ _ (Hstandby Hi)) as [-> ->]. }
  rewrite Hsame. cbn [throw_if mbind result_bind]. rewrite Hsb. cbn [throw_if mbind result_bind].
  match goal with |- ∃ d' ini pol, (update_by_id _ _ _ ?f ≫= _) = _ ∧ _ =>
    destruct (update_by_id_is_Ok _ _ _ f _ (selects_by_id _ _ (proj1 Hinv) Hin)) as (d' & -> & Hrep) end.
  by exists d', ini, pol.
Qed.
End success.

Section runner.
Context `{EX : Externals}.
Notation result := (result Value).
Implicit Types (d : Db) (r : Row).

(** The row [r'] of [d'] is [r] with another deployment. *)
Record redeployed d' r r' : Prop := {
  re_in : r' ∈ pipelines d';
  re_id : row_id r' = row_id r;
  re_tenant : row_tenant r' = row_tenant r;
  re_descr : descr r' = descr r;
  re_prog : prog r' = prog r }.

Lemma redeployed_depl d d' r x : replaced d d' r (with_depl r x) → redeployed d' r (with_depl r x).
Proof. intros Hrep. apply replaced_in in Hrep as [_ Hin]. by constructor. Qed.

Lemma to_stopping_is_Ok now d r e suspend :
  db_inv d → r ∈ pipelines d → deployment_resources_status r ≠ ResourcesStatus.Stopping →
  storage_status r ≠ StorageStatus.Clearing →
  ∃ d' r', transit_deployment_resources_status_to_stopping now d (row_tenant r) (row_id r)
             (version r) e suspend = (Ok (), d')
    ∧ redeployed d' r r' ∧ deployment_resources_status r' = ResourcesStatus.Stopping
    ∧ deployment_resources_desired_status r' = ResourcesDesiredStatus.Stopped
    ∧ deployment_error r' = e ∧ suspend_info r' = suspend ∧ storage_status r' = storage_status r.
Proof.
  intros Hinv Hin Hns Hnc. unfold transit_deployment_resources_status_to_stopping.
  rewrite (proj2 (get_pipeline_by_id_Ok _ _ _ _) (selects_by_id _ _ (proj1 Hinv) Hin)). cbn [mbind result_bind].
  destruct (set_desired_stopped_is_Ok now _ _ Hinv Hin) as (d1 & ini & pol & Hset & Hrep).
  rewrite Hset. cbn [mbind result_bind]. pose proof (set_desired_status_inv _ _ _ _ _ _ _ _ _ Hinv Hset) as Hinv1.
  set (r1 := with_depl r _) in Hrep.
  pose proof (selects_replaced _ _ _ _ _ _ (proj1 Hinv1) Hrep eq_refl eq_refl
    (selects_by_id _ _ (proj1 Hinv) Hin)) as Hsel1.
  pose proof (db_inv_row _ _ Hinv Hin) as Hr.
  pose proof (deployed_program _ Hr) as Hp. pose proof (deployed_storage _ Hr) as Hs.
  match goal with |- ∃ d' r', commit d (unit_of (set_deployment_resources_status _ _ _ _ _ _ ?u)) = _ ∧ _ =>
    destruct (set_resources_status_is_Ok now d1 (row_tenant r) (row_id r) ResourcesStatus.Stopping u r1
      (e, suspend) (None, None) (None, None, None, None)) as (d2 & Hok & Hrep2); try done end.
  - cbn. destruct (deployment_resources_status r); try done; [|by rewrite Hs..].
    by destruct (storage_status r).
  - cbn. destruct (deployment_resources_status r); try done; by rewrite Hp.
  - eexists d2, _. change (version r) with (version r1). rewrite Hok. split; [done|]. split.
    + apply (redeployed_depl _ _ _ _ (replaced_trans _ _ _ _ _ _ (proj1 Hinv1) Hrep Hrep2)).
    + by split_and!.
Qed.

Lemma to_stopped_is_Ok now d r :
  db_inv d → r ∈ pipelines d → deployment_resources_status r = ResourcesStatus.Stopping →
  ∃ d' r', transit_deployment_resources_status_to_stopped now d (row_tenant r) (row_id r)
             (version r) = (Ok (), d')
    ∧ redeployed d' r r' ∧ deployment_resources_status r' = ResourcesStatus.Stopped
    ∧ deployment_resources_desired_status r' = ResourcesDesiredStatus.Stopped
    ∧ deployment_error r' = deployment_error r ∧ suspend_info r' = suspend_info r.
Proof.
  intros Hinv Hin Hst. pose proof (db_inv_row _ _ Hinv Hin) as Hr.
  unfold transit_deployment_resources_status_to_stopped.
  destruct (set_resources_status_is_Ok now d (row_tenant r) (row_id r) ResourcesStatus.Stopped no_status_update r
    (deployment_error r, suspend_info r) (None, None) (None, None, None, None)) as (d2 & -> & Hrep); try done.
  - by apply selects_by_id; [apply Hinv|].
  - rewrite Hst. pose proof (clearing_stopped _ Hr) as Hc. destruct (storage_status r); try done.
    by rewrite Hst in Hc; specialize (Hc eq_refl).
  - by rewrite Hst.
  - eexists d2, _. split; [done|]. split; [exact (redeployed_depl _ _ _ _ Hrep)|].
    split_and!; try done. by apply (stopping_desired _ (row_deployment _ Hr)).
Qed.

Lemma to_provisioned_is_Ok now d r location s :
  db_inv d → r ∈ pipelines d → is_deployed (deployment_resources_status r) = true →
  ∃ d' r', transit_deployment_resources_status_to_provisioned now d (row_tenant r) (row_id r)
             (version r) location s = (Ok (), d')
    ∧ redeployed d' r r' ∧ deployment_resources_status r' = ResourcesStatus.Provisioned
    ∧ deployment_location r' = Some location
    ∧ deployment_runtime_status r' = Some (runtime_status s)
    ∧ deployment_runtime_desired_status r' = Some (runtime_desired_status s)
    ∧ deployment_resources_desired_status r' = deployment_resources_desired_status r.
Proof.
  intros Hinv Hin Hdep. pose proof (db_inv_row _ _ Hinv Hin) as Hr.
  unfold transit_deployment_resources_status_to_provisioned.
  match goal with |- ∃ d' r', commit d (unit_of (set_deployment_resources_status _ _ _ _ _ _ ?u)) = _ ∧ _ =>
    destruct (set_resources_status_is_Ok now d (row_tenant r) (row_id r) ResourcesStatus.Provisioned u r
      (None, None) (deployment_id r, deployment_config r)
      (Some location, Some (runtime_status s), Some (runtime_status_details s), Some (runtime_desired_status s)))
      as (d2 & -> & Hrep); try done end.
  - by apply selects_by_id; [apply Hinv|].
  - rewrite (deployed_storage _ Hr Hdep). by destruct (deployment_resources_status r).
  - intros _. by apply deployed_program.
  - pose proof (config_valid _ (row_deployment _ Hr)) as Hv. cbn [snd].
    apply is_ok_Ok in Hv as [[] Hv]. exact Hv.
  - eexists d2, _. split; [done|]. split; [exact (redeployed_depl _ _ _ _ Hrep)|]. by split_and!.
Qed.

Lemma to_cleared_is_Ok d r :
  db_inv d → r ∈ pipelines d → storage_status r = StorageStatus.Clearing →
  ∃ d', transit_storage_status_to_cleared d (row_tenant r) (row_id r) = (Ok (), d')
        ∧ replaced d d' r (with_storage r StorageStatus.Cleared).
Proof.
  intros Hinv Hin Hcl. pose proof (selects_by_id _ _ (proj1 Hinv) Hin) as Hsel.
  unfold transit_storage_status_to_cleared, set_storage_status.
  rewrite (proj2 (get_pipeline_by_id_Ok _ _ _ _) Hsel). cbn [mbind result_bind].
  unfold validate_storage_status_transition. rewrite (clearing_stopped _ (db_inv_row _ _ Hinv Hin) Hcl), Hcl.
  rewrite bool_decide_eq_true_2 by done. cbn [negb mbind result_bind].
  destruct (update_by_id_is_Ok _ _ _ (λ r, with_storage r StorageStatus.Cleared) _ Hsel) as (d' & -> & Hrep).
  by exists d'.
Qed.

Lemma to_provisioning_is_Ok now d r new_id config :
  db_inv d → r ∈ pipelines d → deployment_resources_status r = ResourcesStatus.Stopped →
  storage_status r ≠ StorageStatus.Clearing → program_status r = ProgramStatus.Success →
  validate_config (Some config) = Ok () →
  ∃ d' r', transit_deployment_resources_status_to_provisioning now d (row_tenant r) (row_id r)
             (version r) new_id config = (Ok (), d')
    ∧ redeployed d' r r' ∧ deployment_resources_status r' = ResourcesStatus.Provisioning
    ∧ deployment_id r' = Some new_id ∧ deployment_config r' = Some config
    ∧ deployment_resources_desired_status r' = deployment_resources_desired_status r
    ∧ deployment_initial r' = deployment_initial r.
Proof.
  intros Hinv Hin Hst Hnc Hprog Hcfg. pose proof (selects_by_id _ _ (proj1 Hinv) Hin) as Hsel.
  assert (∃ d1, set_storage_status d (row_tenant r) (row_id r) StorageStatus.InUse = Ok d1
    ∧ replaced d d1 r (with_storage r StorageStatus.InUse)) as (d1 & Hset & Hrep).
  { unfold set_storage_status. rewrite (proj2 (get_pipeline_by_id_Ok _ _ _ _) Hsel). cbn [mbind result_bind].
    unfold validate_storage_status_transition. rewrite Hst.
    destruct (update_by_id_is_Ok _ _ _ (λ r, with_storage r StorageStatus.InUse) _ Hsel) as (d' & Hu & Hrep).
    exists d'. by destruct (storage_status r). }
  unfold transit_deployment_resources_status_to_provisioning. rewrite Hset. cbn [mbind result_bind].
  pose proof (set_storage_status_inv _ _ _ _ _ Hinv Hset) as Hinv1.
  pose proof (selects_replaced _ _ _ _ _ _ (proj1 Hinv1) Hrep eq_refl eq_refl Hsel) as Hsel1.
  match goal with |- ∃ d' r', commit d (unit_of (set_deployment_resources_status _ _ _ _ _ _ ?u)) = _ ∧ _ =>
    destruct (set_resources_status_is_Ok now d1 (row_tenant r) (row_id r) ResourcesStatus.Provisioning u
      (with_storage r StorageStatus.InUse) (None, None) (Some new_id, Some config)
      (None, None, None, None)) as (d2 & Hok & Hrep2); try done end.
  - cbn. by rewrite Hst.
  - eexists d2, _. change (version r) with (version (with_storage r StorageStatus.InUse)). rewrite Hok.
    pose proof (replaced_trans _ _ _ _ _ _ (proj1 Hinv1) Hrep Hrep2) as [_ Hi]%replaced_in.
    split; [done|]. split; [constructor; [exact Hi | done ..]|]. by split_and!.
Qed.
End runner.

(** ** Decisions *)

Section decisions.
Context `{EX : Externals} {RX : RunnerExternals}.
Context (cfg : CommonConfig) (timeout_secs : Z).
Implicit Types (d : Db) (r : Row) (a : Automaton) (w : World).

(** Which descriptor the automaton retrieves. *)
Definition descriptor (called : bool) r : ExtendedPipelineDescrRunner :=
  match deployment_resources_status r, deployment_resources_desired_status r,
        bool_decide (program_status r = ProgramStatus.Success), called with
  | ResourcesStatus.Stopped, ResourcesDesiredStatus.Provisioned, true, _
  | ResourcesStatus.Provisioning, ResourcesDesiredStatus.Provisioned, _, false => Complete r
  | _, _, _, _ => Monitoring r
  end.

Lemma only_monitoring_descriptor called r : only_monitoring (descriptor called r) = r.
Proof. unfold descriptor. by repeat case_match. Qed.

Lemma observe_row w d r a :
  db_inv d → r ∈ pipelines d →
  observe cfg timeout_secs w d (row_tenant r) (row_id r) a =
    match determine_transition cfg timeout_secs w a (descriptor (is_some (provision_called a)) r) with
    | Some (s, a, calls) => Ok (r, s, a, calls)
    | None => Panic
    end.
Proof.
  intros Hinv Hin. pose proof (selects_by_id _ _ (proj1 Hinv) Hin) as Hsel.
  assert (get_pipeline_by_id_for_runner d (row_tenant r) (row_id r) (common_platform_version cfg)
    (is_some (provision_called a)) = Ok (descriptor (is_some (provision_called a)) r)) as Hget.
  { unfold get_pipeline_by_id_for_runner, descriptor.
    rewrite (proj2 (get_pipeline_by_id_Ok _ _ _ _) Hsel). cbn [mbind result_bind].
    rewrite andb_true_r. by repeat case_match. }
  unfold observe. rewrite Hget. cbn [mbind result_bind]. by rewrite only_monitoring_descriptor.
Qed.

(** The errors with which the automaton may stop a pipeline. *)
Definition expected_error r (e : RunnerError) : Prop :=
  match e with
  | AutomatonInvalidRuntimeConfig _ _ | AutomatonFailedToSerializeDeploymentConfig _ =>
      deployment_resources_status r = ResourcesStatus.Stopped
  | AutomatonProvisioningTimeout _ => deployment_resources_status r = ResourcesStatus.Provisioning
  | PipelineInteractionInvalidResponse _ =>
      deployment_resources_status r = ResourcesStatus.Provisioned
  | AutomatonImpossibleDesiredStatus _ _ =>
      storage_status r = StorageStatus.Clearing
      ∧ deployment_resources_desired_status r = ResourcesDesiredStatus.Provisioned
  | _ => False
  end.

(** When the automaton may make a call to the executor. *)
Definition expected_call r a (c : ExecutorCall) : Prop :=
  match c with
  | CallProvision args =>
      deployment_resources_status r = ResourcesStatus.Provisioning
      ∧ deployment_resources_desired_status r = ResourcesDesiredStatus.Provisioned
      ∧ provision_called a = None ∧ deployment_initial r = Some (pa_initial args)
      ∧ deployment_id r = Some (pa_deployment_id args)
      ∧ program_info r = Some (pa_program_info args)
  | CallIsProvisioned =>
      deployment_resources_status r = ResourcesStatus.Provisioning
      ∧ deployment_resources_desired_status r = ResourcesDesiredStatus.Provisioned
      ∧ is_some (provision_called a) = true
  | CallCheck => deployment_resources_status r = ResourcesStatus.Provisioned
  | CallStop => deployment_resources_status r = ResourcesStatus.Stopping
  | CallClear =>
      storage_status r = StorageStatus.Clearing
      ∧ deployment_resources_status r = ResourcesStatus.Stopped
  end.

Definition decision_ok r a (s : State) (calls : list ExecutorCall) : Prop :=
  (∀ e suspend, s = TransitionToStopping (Some (of_runner_error e)) suspend → expected_error r e)
  ∧ Forall (expected_call r a) calls.

Lemma provision_args_present r :
  row_inv r → deployment_resources_status r = ResourcesStatus.Provisioning →
  deployment_resources_desired_status r = ResourcesDesiredStatus.Provisioned →
  ∃ args, provision_args cfg r = inr args ∧ deployment_initial r = Some (pa_initial args)
    ∧ deployment_id r = Some (pa_deployment_id args) ∧ program_info r = Some (pa_program_info args).
Proof.
  intros Hr Hst Hd. destruct (row_deployment _ Hr) as [[Hid Hcfg] Hv _ _ _ Hi _ _].
  assert (program_status r = ProgramStatus.Success) as Hs by (apply (deployed_program _ Hr); by rewrite Hst).
  destruct (info_present _ (row_program _ Hr)) as [Hinfo _]; [by rewrite Hs|].
  destruct (checksums _ (row_program _ Hr)) as [Hc1 Hc2].
  rewrite Hst in Hid, Hcfg. rewrite Hs in Hc1, Hc2. specialize (Hi Hd). cbn in *.
  unfold provision_args. cbn [is_supported_runtime negb].
  destruct (deployment_initial r) as [ini|]; [|done]. destruct (deployment_id r) as [id|]; [|done].
  destruct (deployment_config r) as [config|]; [|done].
  destruct (validate_deployment_config config) as [e|pc] eqn:Hval; [by cbn in Hv; rewrite Hval in Hv|].
  destruct (program_binary_source_checksum r) as [c1|]; [|done].
  destruct (program_binary_integrity_checksum r) as [c2|]; [|done].
  destruct (program_info r) as [info|]; [|done]. by eexists.
Qed.

Lemma decide_stopped w r a :
  row_inv r → deployment_resources_status r = ResourcesStatus.Stopped →
  deployment_resources_desired_status r = ResourcesDesiredStatus.Provisioned →
  ∃ s, transit_stopped_towards_provisioned cfg w (descriptor (is_some (provision_called a)) r) = Some s
       ∧ decision_ok r a s [].
Proof.
  intros Hr Hst Hd. unfold transit_stopped_towards_provisioned. rewrite only_monitoring_descriptor.
  unfold descriptor. rewrite Hst, Hd. cbn [is_supported_runtime]. rewrite andb_true_r.
  case_bool_decide as Hs.
  - unfold transit_stopped_towards_provisioned_phase_ready. rewrite bool_decide_eq_true_2 by done.
    eexists. split; [done|]. split; [|constructor]. intros e suspend.
    destruct (validate_runtime_config _) as [ve|rc]; [by intros [= <- _]|].
    destruct (info_present _ (row_program _ Hr)) as [Hinfo _]; [by rewrite Hs|].
    pose proof (info_valid _ (row_program _ Hr)) as Hv.
    destruct (program_info r) as [info|]; [|done]. specialize (Hv info eq_refl). cbn in Hv.
    destruct (validate_program_info info) as [ve|pi]; [done|].
    destruct (deployment_config_to_value _); [by intros [= <- _] | done].
  - unfold transit_stopped_towards_provisioned_early_start. cbn [is_supported_runtime negb orb].
    rewrite bool_decide_eq_false_2 by done. cbn [negb orb andb].
    eexists. split; [done|]. split; [|constructor]. intros e suspend. by destruct (program_status r).
Qed.

Lemma decide_provisioning w r a :
  row_inv r → deployment_resources_status r = ResourcesStatus.Provisioning →
  deployment_resources_desired_status r = ResourcesDesiredStatus.Provisioned →
  ∃ s a' calls, transit_provisioning_towards_provisioned cfg timeout_secs w a
      (descriptor (is_some (provision_called a)) r) = Some (s, a', calls) ∧ decision_ok r a s calls.
Proof.
  intros Hr Hst Hd. unfold transit_provisioning_towards_provisioned.
  rewrite only_monitoring_descriptor. unfold descriptor. rewrite Hst, Hd.
  destruct (provision_called a) as [timeout|] eqn:Hcalled; cbn [is_some].
  - unfold transit_provisioning_towards_provisioned_phase_await. rewrite Hcalled. cbn [mbind option_bind].
    pose proof (initial_present _ (row_deployment _ Hr) Hd) as Hi.
    destruct (deployment_initial r) as [ini|]; [|done]. eexists _, _, _. split; [done|].
    split; [|by repeat constructor; rewrite ?Hcalled]. intros e suspend.
    repeat case_match; by intros [= <- _].
  - destruct (provision_args_present r Hr Hst Hd) as (args & Hargs & Hini & Hid & Hinfo).
    unfold transit_provisioning_towards_provisioned_phase_call. rewrite Hcalled, Hargs. cbn [is_some negb].
    destruct (w_provision w args); eexists _, _, _; (split; [done|]);
      (split; [by intros e suspend [=] | by repeat constructor]).
Qed.

Lemma parse_status_result_error w a ini res e :
  parse_status_result w a ini res = inl (of_runner_error e) →
  ∃ msg, e = PipelineInteractionInvalidResponse msg.
Proof.
  unfold parse_status_result, parse_ok_body, parse_unavailable_body, unavailable, runtime_report.
  intros H. repeat case_match; simplify_eq; eauto.
Qed.

Lemma decide_provisioned w r a :
  row_inv r → deployment_resources_status r = ResourcesStatus.Provisioned →
  deployment_resources_desired_status r = ResourcesDesiredStatus.Provisioned →
  decision_ok r a (observe_provisioned_pipeline_and_enforce_runtime_status w a r) [CallCheck].
Proof.
  intros Hr Hst Hd. split; [|by repeat constructor]. intros e suspend.
  unfold observe_provisioned_pipeline_and_enforce_runtime_status.
  destruct (provisioned_columns _ (row_deployment _ Hr)) as [Hloc _]. rewrite Hst in Hloc. cbn in Hloc.
  pose proof (initial_present _ (row_deployment _ Hr) Hd) as Hi.
  destruct (w_check w); [by intros [=]|]. destruct (deployment_location r); [|done].
  destruct (deployment_initial r); [|done].
  destruct (parse_status_result _ _ _ _) as [e'|s'] eqn:Hp.
  - intros [= -> _]. by apply parse_status_result_error in Hp as [msg ->].
  - by repeat case_match.
Qed.

Lemma observe_decides w d r a :
  db_inv d → r ∈ pipelines d →
  ∃ s a' calls, observe cfg timeout_secs w d (row_tenant r) (row_id r) a = Ok (r, s, a', calls)
                ∧ decision_ok r a s calls.
Proof.
  intros Hinv Hin. rewrite observe_row by done. pose proof (db_inv_row _ _ Hinv Hin) as Hr.
  unfold determine_transition. rewrite only_monitoring_descriptor.
  pose proof (deployed_storage _ Hr) as Hds. pose proof (clearing_stopped _ Hr) as Hcs.
  destruct (deployment_resources_status r) eqn:Hst; cbn in Hds.
  - destruct (deployment_resources_desired_status r) eqn:Hd.
    + destruct (storage_status r) eqn:Hsto; eexists _, _, _; (split; [done|]); (split; [|by repeat constructor]);
        try done. by unfold transit_storage_clearing_to_cleared; case_match.
    + destruct (decide_stopped w r a Hr Hst Hd) as (s & Hs & Hok).
      destruct (storage_status r) eqn:Hsto; rewrite ?Hs; cbn [mbind option_bind]; eexists _, _, _;
        (split; [done|]); try exact Hok. split; [|constructor]. by intros e suspend [= <- _].
  - rewrite Hds by done. destruct (deployment_resources_desired_status r) eqn:Hd.
    + eexists _, _, _. split; [done|]. split; [done | constructor].
    + destruct (decide_provisioning w r a Hr Hst Hd) as (s & a' & calls & Hs & Hok). rewrite Hs.
      by eexists _, _, _.
  - rewrite Hds by done. destruct (deployment_resources_desired_status r) eqn:Hd.
    + eexists _, _, _. split; [done|]. split; [done | constructor].
    + eexists _, _, _. split; [done|]. by apply decide_provisioned.
  - assert (∃ s a', transit_stopping_towards_stopped w a = (s, a')
      ∧ ∀ e suspend, s ≠ TransitionToStopping e suspend) as (s & a' & Hs & Hne).
    { unfold transit_stopping_towards_stopped. case_match; by eexists _, _. }
    exists s, a', [CallStop]. split; [by destruct (storage_status r); rewrite Hs|].
    split; [by intros e suspend ->; destruct (Hne _ _ eq_refl) | by repeat constructor].
Qed.

(** ** Storing transitions *)

(** The transitions that a decision about [r] leads to. *)
Definition storable r (s : State) : Prop :=
  match s with
  | TransitionToProvisioning _ _ => deployment_resources_status r = ResourcesStatus.Stopped
  | TransitionToProvisioned _ _ _ => is_deployed (deployment_resources_status r) = true
  | TransitionToStopping _ _ => deployment_resources_status r ≠ ResourcesStatus.Stopping
  | TransitionToStopped => deployment_resources_status r = ResourcesStatus.Stopping
  | StorageTransitionToCleared => storage_status r = StorageStatus.Clearing
  | Unchanged => True
  end.

Lemma determine_storable w r a p s a' calls :
  row_inv r → only_monitoring p = r →
  determine_transition cfg timeout_secs w a p = Some (s, a', calls) → storable r s.
Proof.
  intros Hr Hp. unfold determine_transition. rewrite Hp.
  pose proof (deployed_storage _ Hr) as Hds.
  unfold transit_storage_clearing_to_cleared, transit_stopped_towards_provisioned,
    transit_stopped_towards_provisioned_phase_ready, transit_stopped_towards_provisioned_early_start,
    transit_provisioning_towards_provisioned, transit_provisioning_towards_provisioned_phase_call,
    transit_provisioning_towards_provisioned_phase_await, transit_stopping_towards_stopped,
    observe_provisioned_pipeline_and_enforce_runtime_status, stop_runner, stop_with, failed_compilation.
  destruct (storage_status r) eqn:Hsto, (deployment_resources_status r) eqn:Hst,
    (deployment_resources_desired_status r) eqn:Hd; intros Ht;
    simplify_option_eq; repeat (case_match; simplify_option_eq); cbn; by rewrite ?Hst, ?Hsto.
Qed.

(** The resources status after a transition. *)
Definition next_status r (s : State) : ResourcesStatus.t :=
  match s with
  | TransitionToProvisioning _ _ => ResourcesStatus.Provisioning
  | TransitionToProvisioned _ _ _ => ResourcesStatus.Provisioned
  | TransitionToStopping _ _ => ResourcesStatus.Stopping
  | TransitionToStopped => ResourcesStatus.Stopped
  | StorageTransitionToCleared | Unchanged => deployment_resources_status r
  end.

(** The row with the identifier of [r] has resources status [st] in [d]; a pipeline that was
    to be stopped still is. *)
Definition row_at d r (st : ResourcesStatus.t) : Prop :=
  ∃ r', r' ∈ pipelines d ∧ row_id r' = row_id r ∧ row_tenant r' = row_tenant r
        ∧ deployment_resources_status r' = st
        ∧ (deployment_resources_desired_status r = ResourcesDesiredStatus.Stopped →
           deployment_resources_desired_status r' = ResourcesDesiredStatus.Stopped).

Lemma row_at_redeployed d' r r' r'' st :
  frozen r r' → redeployed d' r' r'' → deployment_resources_status r'' = st →
  (deployment_resources_desired_status r' = ResourcesDesiredStatus.Stopped →
   deployment_resources_desired_status r'' = ResourcesDesiredStatus.Stopped) → row_at d' r st.
Proof.
  intros Hf Hre Hst Hd. exists r''. split_and!; [apply Hre | | | done |].
  - rewrite (re_id _ _ _ Hre). apply Hf.
  - rewrite (re_tenant _ _ _ Hre). apply Hf.
  - intros Hs. by apply Hd, (frozen_desired _ _ Hf).
Qed.

Lemma store_active w now d r r' s a :
  db_inv d → r' ∈ pipelines d → frozen r r' → active r → storable r s →
  ∃ d' a', store_transition w now d r s a = (Ok (next_status r s), d', a')
           ∧ db_inv d' ∧ row_at d' r (next_status r s).
Proof.
  intros Hinv Hin Hf Hact Hs. unfold active in Hact. pose proof (db_inv_row _ _ Hinv Hin) as Hr.
  assert (version r = version r') as Hv by (by rewrite (frozen_descr _ _ Hf)).
  assert (storage_status r' ≠ StorageStatus.Clearing) as Hnc.
  { intros Hc%(clearing_stopped _ Hr). apply Hact. by rewrite <- (frozen_status _ _ Hf). }
  unfold store_transition. rewrite Hv, <- (frozen_id _ _ Hf), <- (frozen_tenant _ _ Hf).
  destruct s as [new_id config|location rs is_initial|e suspend| | |]; cbn in Hs |- *.
  - done.
  - rewrite <- (frozen_status _ _ Hf) in Hs.
    destruct (to_provisioned_is_Ok now d r' location rs Hinv Hin Hs) as (d' & r'' & Heq & Hre & Hst & _ & _ & _ & Hd).
    rewrite Heq. eexists _, _. split; [done|]. split.
    + pose proof (exec_runner_inv now d (ToProvisioned (row_tenant r') (row_id r') (version r') location rs) Hinv) as Hi.
      cbn in Hi. by rewrite Heq in Hi.
    + eapply row_at_redeployed; [done.. | by rewrite Hd].
  - rewrite <- (frozen_status _ _ Hf) in Hs.
    destruct (to_stopping_is_Ok now d r' e suspend Hinv Hin Hs Hnc) as (d' & r'' & Heq & Hre & Hst & Hd & _).
    rewrite Heq. eexists _, _. split; [done|]. split; [|by eapply row_at_redeployed].
    pose proof (exec_runner_inv now d (ToStopping (row_tenant r') (row_id r') (version r') e suspend) Hinv) as Hi.
    cbn in Hi. by rewrite Heq in Hi.
  - rewrite <- (frozen_status _ _ Hf) in Hs.
    destruct (to_stopped_is_Ok now d r' Hinv Hin Hs) as (d' & r'' & Heq & Hre & Hst & Hd & _).
    rewrite Heq. eexists _, _. split; [done|]. split; [|by eapply row_at_redeployed].
    pose proof (exec_runner_inv now d (ToStopped (row_tenant r') (row_id r') (version r')) Hinv) as Hi.
    cbn in Hi. by rewrite Heq in Hi.
  - destruct Hnc. by rewrite (frozen_storage _ _ Hf).
  - eexists _, _. split; [done|]. split; [done|]. exists r'. split_and!; apply Hf || done.
Qed.

(** ** Cycles *)

Lemma do_run_active w now f d r a :
  db_inv d → r ∈ pipelines d → active r → rtc env_step d (f d) →
  ∃ s a1 calls d' a',
    determine_transition cfg timeout_secs w a (descriptor (is_some (provision_called a)) r)
      = Some (s, a1, calls)
    ∧ do_run cfg timeout_secs w now f d (row_tenant r) (row_id r) a
      = (Ok (poll_timeout (next_status r s)), d', a', calls)
    ∧ db_inv d' ∧ row_at d' r (next_status r s).
Proof.
  intros Hinv Hin Hact Hf. unfold do_run.
  destruct (observe_decides w d r a Hinv Hin) as (s & a1 & calls & Hobs & _). rewrite Hobs.
  rewrite observe_row in Hobs by done.
  destruct (determine_transition _ _ _ _ _) as [[[s' a1'] calls']|] eqn:Hdet; simplify_eq.
  assert (storable r s) as Hs.
  { eapply determine_storable; [by eapply db_inv_row | apply only_monitoring_descriptor | exact Hdet]. }
  destruct (env_steps_keeps _ _ _ Hf Hinv Hin Hact) as (r' & Hin' & Hfr).
  destruct (store_active w now (f d) r r' s a1) as (d' & a' & Hst & Hd' & Hrow);
    [by eapply env_steps_inv | done ..|].
  rewrite Hst. by eexists _, _, _, _, _.
Qed.

(** A pipeline that is to be stopped moves on in every cycle. *)
Lemma stopping_progress w a r s a' calls :
  row_inv r → active r →
  deployment_resources_desired_status r = ResourcesDesiredStatus.Stopped → w_stop w = inr () →
  determine_transition cfg timeout_secs w a (descriptor (is_some (provision_called a)) r)
    = Some (s, a', calls) →
  next_status r s = match deployment_resources_status r with
                    | ResourcesStatus.Stopping => ResourcesStatus.Stopped
                    | _ => ResourcesStatus.Stopping
                    end.
Proof.
  intros Hr Hact Hd Hw. unfold determine_transition. rewrite only_monitoring_descriptor, Hd.
  pose proof (deployed_storage _ Hr) as Hds. unfold active in Hact.
  unfold transit_stopping_towards_stopped. rewrite Hw.
  destruct (deployment_resources_status r); try done; cbn in Hds; rewrite ?Hds by done;
    try (intros; by simplify_eq). destruct (storage_status r); intros; by simplify_eq.
Qed.

Lemma row_at_same d r1 r st :
  row_at d r1 st → row_id r1 = row_id r → row_tenant r1 = row_tenant r →
  (deployment_resources_desired_status r = ResourcesDesiredStatus.Stopped →
   deployment_resources_desired_status r1 = ResourcesDesiredStatus.Stopped) → row_at d r st.
Proof.
  intros (r' & Hin & Hid & Ht & Hst & Hd) Hid1 Ht1 Hd1. exists r'. split_and!; [done | congruence..| auto].
Qed.

Lemma stopped_after_stopping w now g f d r a :
  db_inv d → row_at d r ResourcesStatus.Stopping →
  deployment_resources_desired_status r = ResourcesDesiredStatus.Stopped → w_stop w = inr () →
  (∀ d, rtc env_step d (g d)) → (∀ d, rtc env_step d (f d)) →
  ∃ p d' a' calls,
    do_run cfg timeout_secs w now f (g d) (row_tenant r) (row_id r) a = (Ok p, d', a', calls)
    ∧ row_at d' r ResourcesStatus.Stopped.
Proof.
  intros Hinv (r1 & Hin1 & Hid1 & Ht1 & Hst1 & Hd1) Hd Hw Hg Hf. specialize (Hd1 Hd).
  destruct (env_steps_keeps _ _ r1 (Hg d) Hinv Hin1 ltac:(unfold active; by rewrite Hst1)) as (r2 & Hin2 & Hfr).
  assert (db_inv (g d)) as Hinv2 by exact (env_steps_inv _ _ (Hg d) Hinv).
  assert (deployment_resources_status r2 = ResourcesStatus.Stopping) as Hst2 by (by rewrite (frozen_status _ _ Hfr)).
  assert (active r2) as Hact2 by (unfold active; by rewrite Hst2).
  pose proof (frozen_desired _ _ Hfr Hd1) as Hd2.
  destruct (do_run_active w now f (g d) r2 a Hinv2 Hin2 Hact2 (Hf _))
    as (s2 & a1 & calls2 & d2 & a2 & Hdet2 & Hrun & _ & Hrow2).
  rewrite (stopping_progress _ _ _ _ _ _ (db_inv_row _ _ Hinv2 Hin2) Hact2 Hd2 Hw Hdet2), Hst2 in *.
  pose proof (frozen_id _ _ Hfr) as Hid2. pose proof (frozen_tenant _ _ Hfr) as Ht2.
  rewrite <- Ht1, <- Hid1, <- Ht2, <- Hid2, Hrun. eexists _, _, _, _. split; [done|].
  eapply row_at_same; [exact Hrow2 | congruence.. | done].
Qed.

Lemma stops_in_two_cycles w1 w2 now1 now2 f1 g f2 d r a :
  db_inv d → r ∈ pipelines d → active r →
  deployment_resources_desired_status r = ResourcesDesiredStatus.Stopped →
  w_stop w1 = inr () → w_stop w2 = inr () →
  (∀ d, rtc env_step d (f1 d)) → (∀ d, rtc env_step d (g d)) → (∀ d, rtc env_step d (f2 d)) →
  ∃ p1 d1 a1 calls1,
    do_run cfg timeout_secs w1 now1 f1 d (row_tenant r) (row_id r) a = (Ok p1, d1, a1, calls1)
    ∧ (row_at d1 r ResourcesStatus.Stopped
       ∨ ∃ p2 d2 a2 calls2,
           do_run cfg timeout_secs w2 now2 f2 (g d1) (row_tenant r) (row_id r) a1
             = (Ok p2, d2, a2, calls2)
           ∧ row_at d2 r ResourcesStatus.Stopped).
Proof.
  intros Hinv Hin Hact Hd Hw1 Hw2 Hf1 Hg Hf2. pose proof (db_inv_row _ _ Hinv Hin) as Hr.
  destruct (do_run_active w1 now1 f1 d r a Hinv Hin Hact (Hf1 d)) as (s & ? & calls & d1 & a1 & Hdet & -> & Hinv1 & Hrow).
  rewrite (stopping_progress _ _ _ _ _ _ Hr Hact Hd Hw1 Hdet) in *. eexists _, _, _, _. split; [done|].
  destruct (deployment_resources_status r) eqn:Hst; [done| | |by left]; right.
  all: by apply (stopped_after_stopping w2 now2 g f2 d1 r a1).
Qed.

(** ** Starting *)

Lemma do_run_undisturbed w now d r a s a1 calls :
  db_inv d → r ∈ pipelines d →
  determine_transition cfg timeout_secs w a (descriptor (is_some (provision_called a)) r)
    = Some (s, a1, calls) →
  do_run cfg timeout_secs w now id d (row_tenant r) (row_id r) a
  = let '(x, d', a') := store_transition w now d r s a1 in (poll_timeout <$> x, d', a', calls).
Proof. intros Hinv Hin Hdet. unfold do_run. by rewrite observe_row, Hdet by done. Qed.

(** What the start of a stopped pipeline needs: valid configurations. *)
Definition startable w r (config : Value) : Prop :=
  ∃ rc info pi,
    validate_runtime_config (runtime_config r) = inr rc
    ∧ program_info r = Some info ∧ validate_program_info info = inr pi
    ∧ deployment_config_to_value
        (w_deployment_config w rc
           match program_info_integrity_checksum r with None => Some pi | Some _ => None end)
      = inr config
    ∧ validate_config (Some config) = Ok ().

Lemma starts_provisioning w now d r a config :
  db_inv d → r ∈ pipelines d → deployment_resources_status r = ResourcesStatus.Stopped →
  deployment_resources_desired_status r = ResourcesDesiredStatus.Provisioned →
  storage_status r ≠ StorageStatus.Clearing → program_status r = ProgramStatus.Success →
  startable w r config →
  ∃ d' r', do_run cfg timeout_secs w now id d (row_tenant r) (row_id r) a
             = (Ok POLL_PERIOD_PROVISIONING, d', a, [])
    ∧ db_inv d' ∧ redeployed d' r r' ∧ deployment_resources_status r' = ResourcesStatus.Provisioning
    ∧ deployment_resources_desired_status r' = ResourcesDesiredStatus.Provisioned
    ∧ deployment_initial r' = deployment_initial r ∧ deployment_config r' = Some config.
Proof.
  intros Hinv Hin Hst Hd Hnc Hs (rc & info & pi & Hrc & Hinfo & Hpi & Hcfg & Hval).
  destruct (to_provisioning_is_Ok now d r (w_new_id w) config) as (d' & r' & Heq & Hre & Hst' & _ & Hc & Hd' & Hini);
    [done..|]. exists d', r'.
  erewrite (do_run_undisturbed w now d r a (TransitionToProvisioning (w_new_id w) config) a []); [|done|done|].
  - unfold store_transition. rewrite Heq. split_and!; try done; [|by rewrite Hd'].
    pose proof (exec_runner_inv now d (ToProvisioning (row_tenant r) (row_id r) (version r) (w_new_id w) config) Hinv) as Hi.
    cbn in Hi. by rewrite Heq in Hi.
  - unfold determine_transition. rewrite only_monitoring_descriptor, Hst, Hd.
    assert (transit_stopped_towards_provisioned cfg w (descriptor (is_some (provision_called a)) r)
            = Some (TransitionToProvisioning (w_new_id w) config)) as ->;
      [|by destruct (storage_status r)].
    unfold transit_stopped_towards_provisioned. rewrite only_monitoring_descriptor.
    unfold descriptor. rewrite Hst, Hd, bool_decide_eq_true_2 by done. cbn [is_supported_runtime andb].
    unfold transit_stopped_towards_provisioned_phase_ready. rewrite bool_decide_eq_true_2 by done.
    cbn [is_supported_runtime]. by rewrite Hrc, Hinfo, Hpi, Hcfg.
Qed.

Lemma provision_is_called w now d r a args :
  db_inv d → r ∈ pipelines d → deployment_resources_status r = ResourcesStatus.Provisioning →
  deployment_resources_desired_status r = ResourcesDesiredStatus.Provisioned →
  provision_called a = None → provision_args cfg r = inr args → w_provision w args = inr () →
  ∃ a', do_run cfg timeout_secs w now id d (row_tenant r) (row_id r) a
          = (Ok POLL_PERIOD_PROVISIONING, d, a', [CallProvision args])
        ∧ is_some (provision_called a') = true.
Proof.
  intros Hinv Hin Hst Hd Ha Hargs Hw.
  set (a1 := {| provision_called := Some (default timeout_secs
                  (provisioning_timeout_secs (pa_deployment_config args)));
                provisioned_grace_period_start := provisioned_grace_period_start a |}).
  exists a1. rewrite (do_run_undisturbed w now d r a Unchanged a1 [CallProvision args]); [|done|done|].
  - unfold store_transition. by rewrite Hst.
  - unfold determine_transition. rewrite only_monitoring_descriptor, Hst, Hd,
      (deployed_storage _ (db_inv_row _ _ Hinv Hin)) by (by rewrite Hst).
    unfold transit_provisioning_towards_provisioned. rewrite Ha. unfold descriptor. rewrite Hst, Hd. cbn [is_some].
    unfold transit_provisioning_towards_provisioned_phase_call. by rewrite Ha, Hargs, Hw.
Qed.

Lemma becomes_provisioned w now d r a location initial :
  db_inv d → r ∈ pipelines d → deployment_resources_status r = ResourcesStatus.Provisioning →
  deployment_resources_desired_status r = ResourcesDesiredStatus.Provisioned →
  is_some (provision_called a) = true → deployment_initial r = Some initial →
  w_is_provisioned w = inr (Some location) →
  ∃ d' r' a', do_run cfg timeout_secs w now id d (row_tenant r) (row_id r) a
      = (Ok POLL_PERIOD_PROVISIONED, d', a', [CallIsProvisioned])
    ∧ redeployed d' r r' ∧ deployment_resources_status r' = ResourcesStatus.Provisioned
    ∧ deployment_location r' = Some location
    ∧ deployment_runtime_status r' = Some RuntimeStatus.Initializing
    ∧ deployment_runtime_desired_status r' = Some initial
    ∧ provisioned_grace_period_start a' = Some (w_instant w).
Proof.
  intros Hinv Hin Hst Hd Ha Hini Hw.
  set (s := {| runtime_status := RuntimeStatus.Initializing; runtime_status_details := json_string EmptyString;
    runtime_desired_status := initial |}).
  destruct (to_provisioned_is_Ok now d r location s Hinv Hin) as (d' & r' & Heq & Hre & Hst' & Hl & Hrs & Hrd & _);
    [by rewrite Hst|]. eexists d', r', _.
  erewrite (do_run_undisturbed w now d r a (TransitionToProvisioned location s true) a [CallIsProvisioned]); [|done|done|].
  - unfold store_transition. rewrite Heq. by split_and!.
  - unfold determine_transition. rewrite only_monitoring_descriptor, Hst, Hd,
      (deployed_storage _ (db_inv_row _ _ Hinv Hin)) by (by rewrite Hst).
    unfold transit_provisioning_towards_provisioned. rewrite only_monitoring_descriptor.
    destruct (provision_called a) eqn:Hc; [|done].
    unfold transit_provisioning_towards_provisioned_phase_await. rewrite Hc, Hini, Hw. done.
Qed.

(** ** A start while storage is being cleared *)

Lemma start_while_clearing w now d r a :
  db_inv d → r ∈ pipelines d → storage_status r = StorageStatus.Clearing →
  deployment_resources_desired_status r = ResourcesDesiredStatus.Provisioned →
  do_run cfg timeout_secs w now id d (row_tenant r) (row_id r) a
  = (Err (InvalidResourcesStatusTransition StorageStatus.Clearing ResourcesStatus.Stopped
            ResourcesStatus.Stopping), d, a, []).
Proof.
  intros Hinv Hin Hc Hd. pose proof (clearing_stopped _ (db_inv_row _ _ Hinv Hin) Hc) as Hst.
  erewrite do_run_undisturbed; [|done|done|].
  2:{ unfold determine_transition. by rewrite only_monitoring_descriptor, Hst, Hd, Hc. }
  unfold stop_runner, stop_with, store_transition, transit_deployment_resources_status_to_stopping.
  rewrite (proj2 (get_pipeline_by_id_Ok _ _ _ _) (selects_by_id _ _ (proj1 Hinv) Hin)). cbn [mbind result_bind].
  destruct (set_desired_stopped_is_Ok now _ _ Hinv Hin) as (d1 & ini & pol & Hset & Hrep).
  rewrite Hset. cbn [mbind result_bind]. pose proof (set_desired_status_inv _ _ _ _ _ _ _ _ _ Hinv Hset) as Hinv1.
  pose proof (selects_replaced _ _ _ _ _ _ (proj1 Hinv1) Hrep eq_refl eq_refl
    (selects_by_id _ _ (proj1 Hinv) Hin)) as Hsel1.
  unfold set_deployment_resources_status. rewrite (proj2 (get_pipeline_by_id_Ok _ _ _ _) Hsel1).
  cbn [mbind result_bind]. rewrite (bool_decide_eq_true_2 (version _ = version r)) by done.
  cbn [throw_if negb mbind result_bind]. cbn -[bool_decide]. by rewrite Hc, Hst.
Qed.
End decisions.
