(* ===== verification/PipelineCompiler.v ===== *)
(** The compiler's side of the pipeline table: version guards, the assignment of pipelines
    to workers, and the recovery of interrupted compilations. *)
From stdpp Require Import strings sorting relations.
From S2P Require Import Prelude Machine PipelineTypes PipelineDb PipelineInvariant PipelineFrame.

(** ** Versions

    A result is stored only if the version it was made for is still the current one.  This
    is sound because equal versions mean equal texts. *)
Section versions.
Context `{EX : Externals}.
Notation result := (result Value).
Implicit Types (d : Db) (r : Row).

(** The inputs of compilation. *)
Definition same_program r r' : Prop :=
  program_code r' = program_code r ∧ udf_rust r' = udf_rust r ∧ udf_toml r' = udf_toml r
  ∧ program_config r' = program_config r.

(** The fields that a user edits. *)
Definition same_description r r' : Prop :=
  same_program r r' ∧ name r' = name r ∧ description r' = description r
  ∧ runtime_config r' = runtime_config r.

(** How a row may evolve. *)
Definition evolves r r' : Prop :=
  (program_version r ≤ program_version r')%Z ∧ (version r ≤ version r')%Z
  ∧ (program_version r' = program_version r → same_program r r')
  ∧ (version r' = version r → same_description r r').

Lemma evolves_refl r : evolves r r.
Proof. by unfold evolves, same_description, same_program. Qed.

Lemma evolves_same r r' : descr r' = descr r → program_version r' = program_version r → evolves r r'.
Proof.
  intros Hd Hp. unfold evolves, same_description, same_program. rewrite Hd, Hp. split_and!; done || lia.
Qed.

Lemma evolves_trans r1 r2 r3 : evolves r1 r2 → evolves r2 r3 → evolves r1 r3.
Proof.
  unfold evolves, same_description, same_program. intros (H1 & H2 & H3 & H4) (H5 & H6 & H7 & H8).
  split_and!; [lia | lia | |]; intros Hv.
  - destruct H3 as (? & ? & ? & ?); [lia|]. destruct H7 as (? & ? & ? & ?); [lia|].
    split_and!; congruence.
  - destruct H4 as ((? & ? & ? & ?) & ? & ? & ?); [lia|].
    destruct H8 as ((? & ? & ? & ?) & ? & ? & ?); [lia|]. split_and!; congruence.
Qed.

(** Every row of [d] that is still in [d'] has evolved. *)
Definition evolution d d' : Prop :=
  ∀ r r', r ∈ pipelines d → r' ∈ pipelines d' → row_id r' = row_id r → evolves r r'.

Lemma same_row d r r' :
  table_ok d → r ∈ pipelines d → r' ∈ pipelines d → row_id r' = row_id r → r' = r.
Proof.
  intros Hok Hr Hr' Hid. pose proof (selects_by_id _ _ Hok Hr) as Hs.
  assert (filter (λ s, bool_decide (row_id s = row_id r) = true) (pipelines d) = [r]) as Hf.
  { apply (filter_unique row_id); [apply Hok | done | by apply bool_decide_eq_true | by intros; bool_simpl]. }
  assert (r' ∈ filter (λ s, bool_decide (row_id s = row_id r) = true) (pipelines d)) as Hin.
  { apply list_elem_of_filter. split; [by apply bool_decide_eq_true | done]. }
  rewrite Hf in Hin. by apply list_elem_of_singleton in Hin.
Qed.

Lemma evolution_refl d : table_ok d → evolution d d.
Proof. intros Hok r r' Hr Hr' Hid. rewrite (same_row d r r') by done. apply evolves_refl. Qed.

Lemma evolution_replaced d d' s s' :
  table_ok d → table_ok d' → replaced d d' s s' → row_id s' = row_id s → evolves s s' → evolution d d'.
Proof.
  intros Hok Hok' Hrep Hid Hev r r' Hr Hr' Hids.
  destruct (decide (row_id r = row_id s)) as [Heq|Hne].
  - destruct (replaced_in _ _ _ _ Hrep) as [Hs Hs'].
    rewrite (same_row d s r) by done. rewrite (same_row d' s' r') by (done || congruence). done.
  - assert (r ∈ pipelines d') by (by apply (replaced_other _ _ _ _ _ Hok Hrep Hid Hne)).
    rewrite (same_row d' r r') by done. apply evolves_refl.
Qed.

(** The same rows, evolved, in a state that satisfies the invariant. *)
Record updated d d' : Prop := {
  up_inv : db_inv d';
  up_ids : row_id <$> pipelines d' = row_id <$> pipelines d;
  up_evolution : evolution d d' }.

Lemma updated_refl d : db_inv d → updated d d.
Proof. intros Hd. constructor; [done | done | apply evolution_refl, Hd]. Qed.

Lemma updated_trans d1 d2 d3 : updated d1 d2 → updated d2 d3 → updated d1 d3.
Proof.
  intros [H1 H2 H3] [H4 H5 H6]. constructor; [done | congruence |]. intros r r' Hr Hr' Hid.
  assert (row_id r ∈ row_id <$> pipelines d2) as (r2 & Heq & Hr2)%list_elem_of_fmap.
  { rewrite H2. by apply list_elem_of_fmap_2. }
  apply (evolves_trans _ r2); [by apply H3 | apply H6; [done..|congruence]].
Qed.

Lemma updated_replaced d d' s s' :
  db_inv d → db_inv d' → replaced d d' s s' → row_id s' = row_id s → evolves s s' → updated d d'.
Proof.
  intros Hd Hd' Hrep Hid Hev. constructor; [done | |].
  - destruct Hrep as (_ & l1 & l2 & -> & ->). by rewrite !fmap_app, !fmap_cons, Hid.
  - by eapply evolution_replaced; [apply Hd | apply Hd' | ..].
Qed.

Lemma set_storage_status_updated d t i s d' :
  db_inv d → set_storage_status d t i s = Ok d' → updated d d'.
Proof.
  intros Hd Hset. pose proof (set_storage_status_inv _ _ _ _ _ Hd Hset) as Hd'.
  apply set_storage_status_Ok in Hset as (r & _ & _ & _ & Hrep).
  eapply updated_replaced; [done.. | by apply evolves_same].
Qed.

Lemma set_program_status_updated now d t i g s u d' :
  db_inv d → set_program_status now d t i g s u = Ok d' → updated d d'.
Proof.
  intros Hd Hset. pose proof (set_program_status_inv _ _ _ _ _ _ _ _ Hd Hset) as Hd'.
  apply set_program_status_Ok in Hset as (r & p & v & _ & _ & _ & _ & _ & Hf & Hrep).
  eapply updated_replaced; [done.. |].
  destruct (final_columns _ _ _) as [[[e info] [[c1 c2] c3]] incr]. destruct Hf as (_ & -> & _).
  by apply evolves_same.
Qed.

Lemma set_desired_status_updated now d t n s initial policy i d' :
  db_inv d → set_deployment_resources_desired_status now d t n s initial policy = Ok (i, d') →
  updated d d'.
Proof.
  intros Hd Hset. pose proof (set_desired_status_inv _ _ _ _ _ _ _ _ _ Hd Hset) as Hd'.
  apply (set_desired_status_replaced _ _ _ _ _ _ _ _ _ (proj1 Hd)) in Hset as (r & ? & ? & _ & _ & Hrep & _).
  eapply updated_replaced; [done.. | by apply evolves_same].
Qed.

Lemma set_resources_status_updated now d t i g s u d' :
  db_inv d → db_inv d' → set_deployment_resources_status now d t i g s u = Ok d' → updated d d'.
Proof.
  intros Hd Hd' (r & a & b & c & _ & _ & _ & _ & _ & _ & _ & _ & Hrep)%set_resources_status_Ok.
  eapply updated_replaced; [done.. | by apply evolves_same].
Qed.

Lemma update_pipeline_updated now d c t n u pv bump v d' :
  db_inv d → update_pipeline now d c t n u pv bump = Ok (v, d') → updated d d'.
Proof.
  intros Hd Hu. pose proof (update_pipeline_inv _ _ _ _ _ _ _ _ _ _ Hd Hu) as Hd'.
  destruct (update_pipeline_Ok _ _ _ _ _ _ _ _ _ _ (proj1 Hd) Hu)
    as (r & _ & _ & [[-> _]|(u' & pv' & reset & Hrep & _ & _ & _ & Hsame & _)]); [by apply updated_refl|].
  eapply updated_replaced; [done | done | done | by destruct reset|].
  destruct reset; unfold evolves, same_description, same_program; cbn in *; split_and!; try lia.
  intros _. by apply Hsame.
Qed.

Lemma evolution_incl d d' :
  table_ok d' → (∀ r, r ∈ pipelines d → r ∈ pipelines d') → evolution d d'.
Proof. intros Hok Hsub r r' Hr Hr' Hid. rewrite (same_row d' r r') by auto. apply evolves_refl. Qed.

Lemma evolution_excl d d' :
  table_ok d → (∀ r, r ∈ pipelines d' → r ∈ pipelines d) → evolution d d'.
Proof. intros Hok Hsub r r' Hr Hr' Hid. rewrite (same_row d r r') by auto. apply evolves_refl. Qed.

Lemma evolution_new now d t i pv p a d' :
  db_inv d → new_pipeline now d t i pv p = Ok (a, d') → evolution d d'.
Proof.
  intros Hd Hnew. pose proof (new_pipeline_inv _ _ _ _ _ _ _ _ Hd Hnew) as [Hok' _].
  apply evolution_incl; [done|]. intros r Hr. unfold new_pipeline in Hnew. op_simpl.
  match goal with H : insert_row _ _ = Ok _ |- _ =>
    apply (insert_row_Ok _ _ _ (proj1 Hd)) in H as (_ & _ & ->) end. set_solver.
Qed.

Lemma evolution_delete d t n i d' :
  db_inv d → delete_pipeline d t n = Ok (i, d') → evolution d d'.
Proof.
  intros Hd Hdel. apply evolution_excl; [apply Hd|]. unfold delete_pipeline in Hdel. op_simpl.
  match goal with H : (if ?b then _ else _) = Ok _ |- _ => destruct b end; [|done]. op_simpl.
  intros r. cbn. by intros [_ ?]%list_elem_of_filter.
Qed.

Lemma evolution_notify d t n d' :
  db_inv d → increment_notify_counter d t n = Ok d' → evolution d d'.
Proof.
  intros Hd Hinc r r' Hr Hr' Hid. unfold increment_notify_counter in Hinc. destruct (forallb _ _); [|done]. op_simpl.
  match goal with H : (if ?b then _ else _) = Ok _ |- _ => destruct b end; [|done]. op_simpl.
  unfold execute_update in *. simplify_eq. cbn in Hr'. apply list_elem_of_fmap in Hr' as (s & -> & Hs).
  assert (row_id s = row_id r) as Hids by (by destruct (by_name t n s)).
  rewrite (same_row d r s) by (done || apply Hd). by destruct (by_name t n r); apply evolves_same.
Qed.

Lemma evolution_platform_version d t n pv :
  db_inv d → evolution d (testing_force_update_platform_version d t n pv).2.
Proof.
  intros Hd. destruct (testing_force_update_platform_version d t n pv) as [x d'] eqn:He.
  pose proof (force_platform_version_inv _ _ _ _ _ _ Hd He) as Hd'. revert He.
  unfold testing_force_update_platform_version, commit. cbn [snd].
  destruct (_ ≫= _) as [[[] d1]| |] eqn:Hu; intros [= _ <-]; [|by apply evolution_refl, Hd ..].
  op_simpl. found_row r. match goal with H : selects d _ r |- _ => destruct (selects_in _ _ _ H) as [Hx _] end.
  match goal with H : execute_update ?d ?c ?f = _ |- _ =>
    assert (selects d c r) as Hsel; [|destruct (execute_update_selected d c f r Hsel) as (d2 & He & Hrep);
      rewrite He in H; simplify_eq] end.
  { apply (filter_unique row_id); [apply Hd | done | by apply bool_decide_eq_true | by intros; bool_simpl]. }
  eapply evolution_replaced; [apply Hd | apply Hd' | exact Hrep | done |].
  unfold evolves, same_description, same_program. cbn. split_and!; done || lia.
Qed.

Lemma evolution_commit {A} d (x : result (A * Db)) :
  db_inv d → (∀ a d', x = Ok (a, d') → evolution d d') → evolution d (commit d x).2.
Proof. intros Hd Hx. destruct x as [[a d']| |]; cbn; eauto; apply evolution_refl, Hd. Qed.

Lemma evolution_commit_unit d (x : result Db) :
  db_inv d → (∀ d', x = Ok d' → evolution d d') → evolution d (commit d (unit_of x)).2.
Proof. intros Hd Hx. apply evolution_commit; [done|]. unfold unit_of. intros. op_simpl. eauto. Qed.

Lemma for_each_updated {A} (body : Db → A → result Db) l d d' :
  (∀ d a d', db_inv d → body d a = Ok d' → updated d d') →
  db_inv d → for_each body d l = Ok d' → updated d d'.
Proof.
  intros Hb. revert d. induction l as [|a l IH]; intros d Hd; cbn; intros; op_simpl; [by apply updated_refl|].
  rename x into d1. assert (updated d d1) as H1 by eauto. eapply updated_trans; [exact H1|].
  apply IH; [apply H1 | done].
Qed.

#[local] Create HintDb evo.
#[local] Hint Resolve up_evolution set_storage_status_updated set_program_status_updated
  set_desired_status_updated update_pipeline_updated updated_refl evolution_new evolution_delete
  evolution_notify evolution_platform_version : evo.

Lemma exec_compiler_evolution now d q : db_inv d → evolution d (exec_compiler now d q).
Proof.
  intros Hd. destruct q; apply evolution_commit_unit; try done; intros d' Hx; eauto with evo.
  all: apply up_evolution; eapply for_each_updated; [|done|exact Hx]; clear; intros d [t r] d' Hd;
    unfold clear_sql_body, clear_rust_body; repeat case_match; intros; op_simpl; eauto with evo.
Qed.

Lemma exec_user_evolution now d q : db_inv d → evolution d (exec_user now d q).
Proof.
  intros Hd. destruct q; cbn [exec_user];
    try (apply evolution_commit; [done|]; intros; op_simpl; eauto with evo; fail).
  - apply evolution_commit; [done|]. intros [b x] d' H. op_simpl. repeat case_match; op_simpl; eauto with evo.
  - by apply evolution_platform_version.
  - apply evolution_commit; [done|]. intros [b x] d' H. op_simpl. repeat case_match; op_simpl; eauto with evo.
  - apply evolution_commit; [done|]. intros x d' H. op_simpl. repeat case_match; op_simpl; eauto with evo.
  - apply evolution_commit_unit; eauto with evo.
Qed.

Lemma exec_runner_evolution now d q : db_inv d → evolution d (exec_runner now d q).
Proof.
  intros Hd. pose proof (exec_runner_inv now d q Hd) as Hd'.
  destruct q; cbn [exec_runner] in *; apply evolution_commit; try done; intros [] d' Hx;
    unfold transit_deployment_resources_status_to_provisioning,
      transit_deployment_resources_status_to_provisioned, transit_deployment_resources_status_to_stopping,
      transit_deployment_resources_status_to_stopped, transit_storage_status_to_cleared in Hd';
    rewrite Hx in Hd'; cbn [commit snd] in Hd'; unfold unit_of in Hx; op_simpl; apply up_evolution.
  - rename x into d1. assert (updated d d1) as Hu by eauto with evo. eapply updated_trans; [exact Hu|].
    eapply set_resources_status_updated; [apply Hu | done..].
  - by eapply set_resources_status_updated.
  - rename d0 into d1. assert (updated d d1) as Hu by eauto with evo. eapply updated_trans; [exact Hu|].
    eapply set_resources_status_updated; [apply Hu | done..].
  - by eapply set_resources_status_updated.
  - eauto with evo.
Qed.

Lemma step_evolution d d' : db_inv d → step d d' → evolution d d'.
Proof.
  intros Hd Hs. revert Hd.
  destruct Hs; [apply exec_user_evolution | apply exec_compiler_evolution | apply exec_runner_evolution].
Qed.

(** A row followed through steps in which it is present. *)
Definition row_step (x y : Db * Row) : Prop :=
  step x.1 y.1 ∧ x.2 ∈ pipelines x.1 ∧ y.2 ∈ pipelines y.1 ∧ row_id y.2 = row_id x.2.

Lemma row_steps_evolve x y : rtc row_step x y → db_inv x.1 → evolves x.2 y.2.
Proof.
  induction 1 as [x|x y z (Hs & Hx & Hy & Hid) _ IH]; intros Hd; [apply evolves_refl|].
  apply (evolves_trans _ y.2); [by apply (step_evolution _ _ Hd Hs)|]. apply IH. by eapply step_inv.
Qed.
End versions.

(** ** Workers *)

Section workers.
Local Open Scope Z_scope.

Lemma uuid_u64_range i : 0 ≤ pipeline_uuid_to_u64 i < 2 ^ 64.
Proof. apply Z.mod_pos_bound. lia. Qed.

Lemma sql_hash_low i : pipeline_uuid_to_u64 i < 2 ^ 63 → sql_pipeline_hash i = Some (pipeline_uuid_to_u64 i).
Proof.
  intros Hlt. pose proof (uuid_u64_range i). unfold sql_pipeline_hash.
  assert (in_range i64 (pipeline_uuid_to_u64 i) = true) as Hr
    by (apply in_range_spec; unfold MIN, MAX; cbn; lia).
  by rewrite (wrap_id i64), Z.abs_eq, Hr by (done || lia).
Qed.

Lemma sql_hash_high i :
  2 ^ 63 ≤ pipeline_uuid_to_u64 i →
  sql_pipeline_hash i = if pipeline_uuid_to_u64 i =? 2 ^ 63 then None
                        else Some (2 ^ 64 - pipeline_uuid_to_u64 i).
Proof.
  intros Hge. pose proof (uuid_u64_range i) as Hr. unfold sql_pipeline_hash.
  assert (wrap i64 (pipeline_uuid_to_u64 i) = pipeline_uuid_to_u64 i - 2 ^ 64) as ->.
  { unfold wrap. cbn [signed bits i64]. change (64 - 1) with 63.
    rewrite <- (Z.mod_unique_pos (pipeline_uuid_to_u64 i + 2 ^ 63) (2 ^ 64) 1
      (pipeline_uuid_to_u64 i - 2 ^ 63)); lia. }
  rewrite Z.abs_neq by lia. replace (- (pipeline_uuid_to_u64 i - 2 ^ 64))
    with (2 ^ 64 - pipeline_uuid_to_u64 i) by lia.
  unfold in_range, MIN, MAX. cbn [signed bits i64]. change (64 - 1) with 63.
  destruct (Z.eqb_spec (pipeline_uuid_to_u64 i) (2 ^ 63)).
  - by rewrite (proj2 (Z.leb_gt _ (2 ^ 63 - 1))), andb_false_r by lia.
  - by rewrite !(proj2 (Z.leb_le _ _)) by lia.
Qed.

(** Every pipeline is assigned to exactly one worker. *)
Lemma one_worker i n :
  0 < n → ∃ w, 0 ≤ w < n ∧ ∀ w', is_pipeline_assigned_to_worker i w' n = true ↔ w' = w.
Proof.
  intros Hn. exists (pipeline_uuid_to_u64 i mod n). split; [by apply Z.mod_pos_bound|].
  intros w'. unfold is_pipeline_assigned_to_worker. rewrite bool_decide_eq_true. naive_solver.
Qed.

Lemma sql_assigned_eq i w n h :
  0 < n → sql_pipeline_hash i = Some h → 0 ≤ h →
  sql_assigned_to_worker i w n = Some (bool_decide (h mod n = w)).
Proof.
  intros Hn Hh Hpos. unfold sql_assigned_to_worker. rewrite Hh. cbn [mbind option_bind].
  rewrite bool_decide_eq_false_2 by lia. by rewrite Z.rem_mod_nonneg by lia.
Qed.
End workers.

(** ** Recovery

    A compiler worker that starts again first resets the pipelines it may have left
    behind: those in a compiling status, and those of another platform version. *)
Section recovery.
Context `{EX : Externals}.
Notation result := (result Value).
Implicit Types (d : Db) (r : Row).

Lemma set_program_status_is_Ok now d t i s u r e info c1 c2 c3 incr :
  selects d (by_id t i) r →
  validate_program_status_transition (V := Value) (program_status r) s = Ok () →
  deployment_resources_status r = ResourcesStatus.Stopped → present u = required_arguments s →
  final_columns r s u = (e, info, (c1, c2, c3), incr) → validate_info info = Ok () →
  (refresh_version r < MAX i64)%Z → (1 ≤ refresh_version r)%Z →
  ∃ d', set_program_status now d t i (program_version r) s u = Ok d'
    ∧ replaced d d' r (with_refresh (with_prog r
        {| program_version := program_version r; program_status := s; program_status_since := now;
           program_error := e; program_info := info; program_binary_source_checksum := c1;
           program_binary_integrity_checksum := c2; program_info_integrity_checksum := c3 |})
        (if incr : bool then refresh_version r + 1 else refresh_version r)%Z).
Proof.
  intros Hsel Ht Hst Hp Hf Hv Hmax Hmin. unfold set_program_status.
  rewrite (proj2 (get_pipeline_by_id_Ok _ _ _ _) Hsel). cbn [mbind result_bind].
  rewrite (bool_decide_eq_true_2 (program_version r = program_version r)) by done. cbn [throw_if negb mbind result_bind].
  rewrite Ht. cbn [mbind result_bind]. rewrite Hst. cbn [throw_if negb mbind result_bind bool_decide].
  rewrite (bool_decide_eq_true_2 (ResourcesStatus.Stopped = _)) by done. cbn [throw_if negb mbind result_bind].
  rewrite bool_decide_eq_true_2 by done. cbn [assert_ok mbind result_bind].
  rewrite Hf, Hv. cbn [mbind result_bind].
  assert (checked i64 (refresh_version r + 1) = Some (refresh_version r + 1)%Z) as ->.
  { unfold checked. rewrite (proj2 (in_range_spec i64 _)); [done|].
    change (MIN i64) with (-9223372036854775808)%Z. lia. }
  destruct incr; cbn [mbind result_bind];
    match goal with |- ∃ d', update_by_id _ _ _ ?f = _ ∧ _ =>
      destruct (update_by_id_is_Ok _ _ _ f _ Hsel) as (d' & -> & Hrep) end; by exists d'.
Qed.

Lemma forallb_selected d c (P : Row → bool) r :
  selects d c r → P r = true → forallb (λ s, negb (c s) || P s) (pipelines d) = true.
Proof.
  intros Hsel HP. apply forallb_forall. intros s Hs%list_elem_of_In.
  destruct (c s) eqn:Hc; [|done]. cbn.
  assert (s ∈ filter (λ r, c r = true) (pipelines d)) as Hf by (by apply list_elem_of_filter).
  rewrite Hsel in Hf. by apply list_elem_of_singleton in Hf as ->.
Qed.

Lemma next_in_range v : (1 ≤ v < MAX i64)%Z → in_range i64 (v + 1)%Z = true.
Proof. intros Hv. apply in_range_spec. change (MIN i64) with (-9223372036854775808)%Z. lia. Qed.

Lemma execute_update_description_is_Ok d r u pv :
  selects d (by_name (row_tenant r) (name r)) r → up_name u = None →
  in_range i64 (version r + 1)%Z = true → in_range i64 (refresh_version r + 1)%Z = true →
  ∃ d', execute_update_description d (row_tenant r) (name r) u pv = Ok (1, d')
        ∧ replaced d d' r (update_description u pv r).
Proof.
  intros Hsel Hu Hv Hrv. destruct (execute_update_selected _ _ (update_description u pv) _ Hsel) as (d' & He & Hrep).
  exists d'. split; [|done]. unfold execute_update_description. rewrite Hu. cbn [default from_option].
  rewrite (bool_decide_eq_true_2 (name r = name r)) by done. cbn [negb andb].
  rewrite (forallb_selected _ _ (λ r, in_range i64 (version r + 1)%Z && in_range i64 (refresh_version r + 1)%Z) _ Hsel).
  - exact (f_equal Ok He).
  - by rewrite Hv, Hrv.
Qed.

Lemma execute_reset_program_is_Ok now d t n r :
  selects d (by_name t n) r → in_range i64 (program_version r + 1)%Z = true →
  ∃ d', execute_reset_program now d t n = Ok (1, d') ∧ replaced d d' r (reset_program now r).
Proof.
  intros Hsel Hv. destruct (execute_update_selected _ _ (reset_program now) _ Hsel) as (d' & He & Hrep).
  exists d'. split; [|done]. unfold execute_reset_program.
  rewrite (forallb_selected _ _ (λ r, in_range i64 (program_version r + 1)%Z) _ Hsel); [exact (f_equal Ok He) | done].
Qed.

(** The update by which the compiler moves a stopped pipeline to its platform version. *)
Lemma compiler_update_is_Ok now d r pv :
  db_inv d → r ∈ pipelines d → deployment_resources_status r = ResourcesStatus.Stopped →
  platform_version r ≠ pv → (refresh_version r < MAX i64)%Z →
  ∃ d', update_pipeline now d true (row_tenant r) (name r) no_update pv true
          = Ok ((version r + 1)%Z, d')
    ∧ replaced d d' r (reset_program now (update_description no_update (Some pv) r)).
Proof.
  intros Hinv Hin Hst Hpv Hmax. pose proof (selects_by_name _ _ (proj1 Hinv) Hin) as Hsel.
  destruct (versions_ordered _ (db_inv_row _ _ Hinv Hin)) as [Hv1 Hv2].
  destruct (execute_update_description_is_Ok d r no_update (Some pv) Hsel eq_refl) as (d1 & He1 & Hrep1);
    [apply next_in_range; lia ..|].
  assert (table_ok d1) as Hok1 by (eapply table_ok_replaced; [apply Hinv | exact Hrep1 | done | done | by left]).
  pose proof (selects_by_name _ _ Hok1 (proj2 (replaced_in _ _ _ _ Hrep1))) as Hsel1.
  destruct (execute_reset_program_is_Ok now d1 (row_tenant r) (name r) _ Hsel1) as (d2 & He2 & Hrep2);
    [apply next_in_range; cbn -[MAX]; lia|].
  exists d2. split; [|exact (replaced_trans _ _ _ _ _ _ Hok1 Hrep1 Hrep2)].
  unfold update_pipeline. cbn [up_name up_runtime_config up_program_config up_description up_program_code
    up_udf_rust up_udf_toml no_update on_some mbind result_bind].
  rewrite (proj2 (get_pipeline_Ok _ _ _ _) Hsel). cbn [mbind result_bind].
  fold no_update. unfold update_allowed. rewrite Hst.
  assert (nothing_changes r no_update true pv = false) as Hn.
  { unfold nothing_changes. rewrite (bool_decide_eq_false_2 (pv = platform_version r)) by done.
    by rewrite !andb_false_r. }
  assert (program_changes r no_update true pv = true) as Hpc.
  { unfold program_changes. by rewrite (bool_decide_eq_false_2 (pv = platform_version r)) by done. }
  assert (throw_if (negb match deployment_resources_desired_status r with
    | ResourcesDesiredStatus.Stopped | ResourcesDesiredStatus.Provisioned => true end)
    UpdateRestrictedToStopped = Ok ()) as -> by (by destruct (deployment_resources_desired_status r)).
  assert (is_no_update no_update = true) as Hnu by done.
  cbn [negb orb andb mbind result_bind]. rewrite Hnu. cbn [assert_ok mbind result_bind].
  rewrite Hn, Hpc. change (edits_not_allowed r no_update) with (@nil string).
  cbn [orb]. rewrite (bool_decide_eq_true_2 ([] = [])), andb_false_r by done. cbn [throw_if mbind result_bind].
  rewrite He1. cbn [mbind result_bind]. rewrite (bool_decide_eq_true_2 (1 = 1)) by done.
  cbn [assert_ok mbind result_bind up_name no_update default from_option]. rewrite He2. done.
Qed.

(** *** The loop over the pipelines *)

Lemma replaced_map d d' r r' :
  table_ok d → replaced d d' r r' →
  pipelines d' = (λ s, if decide (row_id s = row_id r) then r' else s) <$> pipelines d.
Proof.
  intros Hok (_ & l1 & l2 & Hp & ->). pose proof (ids_unique _ Hok) as Hnd. rewrite Hp in *.
  rewrite fmap_app, fmap_cons in Hnd. apply NoDup_app in Hnd as (_ & Hd & [Hn _]%NoDup_cons).
  assert (∀ l : list Row, row_id r ∉ row_id <$> l →
    (λ s, if decide (row_id s = row_id r) then r' else s) <$> l = l) as Hsame.
  { induction l as [|s l IH]; [done|]. rewrite !fmap_cons. intros Hni.
    rewrite IH by set_solver. by rewrite decide_False by set_solver. }
  rewrite fmap_app, fmap_cons, decide_True by done. rewrite !Hsame; [done | done |].
  intros Hin. apply (Hd _ Hin). set_solver.
Qed.

(** A loop whose body replaces the row it visits. *)
Lemma for_each_map (body : Db → TenantId * Row → result Db) (P : Row → Prop) (f : Row → Row) l d :
  (∀ d r, db_inv d → r ∈ pipelines d → P r →
     ∃ d', body d (row_tenant r, r) = Ok d' ∧ replaced d d' r (f r) ∧ db_inv d') →
  (∀ r, row_id (f r) = row_id r) →
  db_inv d → NoDup (row_id <$> l) → Forall (λ r, r ∈ pipelines d ∧ P r) l →
  ∃ d', for_each body d ((λ r, (row_tenant r, r)) <$> l) = Ok d'
    ∧ pipelines d' = (λ r, if decide (row_id r ∈ row_id <$> l) then f r else r) <$> pipelines d.
Proof.
  intros Hb Hid. revert d. induction l as [|r l IH]; intros d Hd Hnd Hl.
  - exists d. split; [done|]. erewrite list_fmap_ext; [symmetry; apply list_fmap_id|].
    intros i x Hx. cbn. by rewrite decide_False by set_solver.
  - apply NoDup_cons in Hnd as [Hr Hnd]. apply Forall_cons in Hl as [[Hin HP] Hl].
    destruct (Hb d r Hd Hin HP) as (d1 & Hb1 & Hrep & Hd1).
    pose proof (replaced_map _ _ _ _ (proj1 Hd) Hrep) as Hmap.
    destruct (IH d1 Hd1 Hnd) as (d2 & Hf2 & Hp2).
    { apply Forall_forall. intros s Hs. rewrite Forall_forall in Hl. destruct (Hl s Hs) as [Hsd HPs].
      split; [|done]. eapply (replaced_other _ _ _ _ _ (proj1 Hd) Hrep (Hid r)); [|done].
      intros Heq. apply Hr. rewrite <- Heq. by apply list_elem_of_fmap_2. }
    exists d2. rewrite fmap_cons. cbn [for_each]. rewrite Hb1. cbn [mbind result_bind]. split; [exact Hf2|].
    rewrite Hp2, Hmap, <- list_fmap_compose. apply list_fmap_ext. intros i s Hs. cbn.
    apply list_elem_of_lookup_2 in Hs.
    destruct (decide (row_id s = row_id r)) as [Heq|Hne].
    + rewrite (same_row d r s) by (done || apply Hd). rewrite Hid.
      rewrite decide_False by done. by rewrite decide_True by set_solver.
    + destruct (decide (row_id s ∈ row_id <$> l)); [rewrite decide_True by set_solver; done|].
      by rewrite decide_False by set_solver.
Qed.

Lemma for_each_all (body : Db → TenantId * Row → result Db) (P : Row → Prop) (f : Row → Row) d :
  (∀ d r, db_inv d → r ∈ pipelines d → P r →
     ∃ d', body d (row_tenant r, r) = Ok d' ∧ replaced d d' r (f r) ∧ db_inv d') →
  (∀ r, row_id (f r) = row_id r) → db_inv d → Forall P (pipelines d) →
  ∃ d', for_each body d (list_pipelines_across_all_tenants_for_monitoring d) = Ok d'
        ∧ pipelines d' = f <$> pipelines d.
Proof.
  intros Hb Hid Hd HP. pose proof (merge_sort_Permutation id_le (pipelines d)) as Hperm.
  destruct (for_each_map body P f (merge_sort id_le (pipelines d)) d Hb Hid Hd) as (d' & Hf & Hp).
  - rewrite Hperm. apply Hd.
  - rewrite Hperm. apply Forall_forall. intros r Hr. rewrite Forall_forall in HP. auto.
  - exists d'. split; [exact Hf|]. rewrite Hp. apply list_fmap_ext. intros i r Hr.
    apply list_elem_of_lookup_2 in Hr. rewrite decide_True; [done|].
    apply list_elem_of_fmap_2. by rewrite Hperm.
Qed.

(** *** What recovery does to each pipeline *)

Definition mine (w n : Z) r : bool :=
  is_pipeline_assigned_to_worker (row_id r) w n
  && bool_decide (deployment_resources_status r = ResourcesStatus.Stopped).

(** Back to an earlier program status, with the given compilation output. *)
Definition back_to (now : Z) (s : ProgramStatus.t) (e : ProgramError) (info : option Value) r : Row :=
  with_refresh (with_prog r
    {| program_version := program_version r; program_status := s; program_status_since := now;
       program_error := e; program_info := info; program_binary_source_checksum := None;
       program_binary_integrity_checksum := None; program_info_integrity_checksum := None |})
    (refresh_version r + 1)%Z.

Definition recover_sql (now : Z) (pv : string) (w n : Z) r : Row :=
  if negb (mine w n r) then r
  else if bool_decide (platform_version r = pv) then
    if bool_decide (program_status r = ProgramStatus.CompilingSql)
    then back_to now ProgramStatus.Pending no_program_error None r else r
  else if bool_decide (program_status r = ProgramStatus.Pending)
          || bool_decide (program_status r = ProgramStatus.CompilingSql)
  then reset_program now (update_description no_update (Some pv) r) else r.

Definition recover_rust (now : Z) (pv : string) (w n : Z) r : Row :=
  if negb (mine w n r) then r
  else if bool_decide (platform_version r = pv) then
    if bool_decide (program_status r = ProgramStatus.CompilingRust)
    then back_to now ProgramStatus.SqlCompiled
           {| sql_compilation := sql_compilation (program_error r); rust_compilation := None;
              system_error := None |} (program_info r) r
    else r
  else if bool_decide (program_status r = ProgramStatus.SqlCompiled)
          || bool_decide (program_status r = ProgramStatus.CompilingRust)
  then reset_program now (update_description no_update (Some pv) r) else r.

Definition version_room r : Prop := (refresh_version r < MAX i64)%Z.

Lemma replaced_refl d r : r ∈ pipelines d → replaced d d r r.
Proof. intros (l1 & l2 & Hp)%list_elem_of_split. split; [done|]. by exists l1, l2. Qed.

Lemma clear_sql_body_spec now pv w n d r :
  db_inv d → r ∈ pipelines d → version_room r →
  ∃ d', clear_sql_body now pv w n d (row_tenant r, r) = Ok d'
        ∧ replaced d d' r (recover_sql now pv w n r) ∧ db_inv d'.
Proof.
  intros Hd Hin Hroom. pose proof (replaced_refl d r Hin) as Hrefl.
  destruct (versions_ordered _ (db_inv_row _ _ Hd Hin)) as [Hv1 Hv2].
  enough (∃ d', clear_sql_body now pv w n d (row_tenant r, r) = Ok d'
        ∧ replaced d d' r (recover_sql now pv w n r)) as (d' & Hb & Hrep)
    by (exists d'; eauto using clear_sql_body_inv).
  unfold clear_sql_body, recover_sql, mine.
  destruct (is_pipeline_assigned_to_worker _ _ _); [|by exists d]. cbn [negb andb].
  case_bool_decide as Hst; [|by exists d]. cbn [negb]. case_bool_decide as Hpv.
  - case_bool_decide as Hps; [|by exists d].
    apply (set_program_status_is_Ok now d (row_tenant r) (row_id r) ProgramStatus.Pending no_program_update r
      no_program_error None None None None true); try done;
      [apply selects_by_id; [apply Hd | done] | by rewrite Hps | lia].
  - destruct (_ || _); [|by exists d].
    destruct (compiler_update_is_Ok now d r pv Hd Hin Hst Hpv Hroom) as (d' & -> & Hrep). by exists d'.
Qed.

Lemma clear_rust_body_spec now pv w n d r :
  db_inv d → r ∈ pipelines d → version_room r →
  ∃ d', clear_rust_body now pv w n d (row_tenant r, r) = Ok d'
        ∧ replaced d d' r (recover_rust now pv w n r) ∧ db_inv d'.
Proof.
  intros Hd Hin Hroom. pose proof (replaced_refl d r Hin) as Hrefl. pose proof (db_inv_row _ _ Hd Hin) as Hr.
  destruct (versions_ordered _ Hr) as [Hv1 Hv2].
  enough (∃ d', clear_rust_body now pv w n d (row_tenant r, r) = Ok d'
        ∧ replaced d d' r (recover_rust now pv w n r)) as (d' & Hb & Hrep)
    by (exists d'; eauto using clear_rust_body_inv).
  unfold clear_rust_body, recover_rust, mine.
  destruct (is_pipeline_assigned_to_worker _ _ _); [|by exists d]. cbn [negb andb].
  case_bool_decide as Hst; [|by exists d]. cbn [negb]. case_bool_decide as Hpv.
  - case_bool_decide as Hps; [|by exists d]. pose proof (selects_by_id _ _ (proj1 Hd) Hin) as Hsel.
    rewrite (proj2 (get_pipeline_by_id_Ok _ _ _ _) Hsel). cbn [mbind result_bind].
    destruct (info_present _ (row_program _ Hr)) as [Hi Hq]; [by rewrite Hps|].
    pose proof (info_valid _ (row_program _ Hr)) as Hval.
    destruct (sql_compilation (program_error r)) as [sql|] eqn:Esql; [|done].
    destruct (program_info r) as [info|] eqn:Einfo; [|done].
    destruct (proj1 (is_ok_Ok _) (Hval info eq_refl)) as [[] Hvi]. cbn [expect mbind result_bind].
    match goal with |- ∃ d', set_program_status _ _ _ _ _ _ ?u = _ ∧ _ =>
      apply (set_program_status_is_Ok now d (row_tenant r) (row_id r) ProgramStatus.SqlCompiled u r
        {| sql_compilation := Some sql; rust_compilation := None; system_error := None |}
        (Some info) None None None true) end; try done; [by rewrite Hps | lia].
  - destruct (_ || _); [|by exists d].
    destruct (compiler_update_is_Ok now d r pv Hd Hin Hst Hpv Hroom) as (d' & -> & Hrep). by exists d'.
Qed.

Lemma recover_id now pv w n r :
  row_id (recover_sql now pv w n r) = row_id r ∧ row_id (recover_rust now pv w n r) = row_id r.
Proof. unfold recover_sql, recover_rust. split; by repeat case_match. Qed.

Lemma clear_ongoing_ok now d pv w n :
  db_inv d → Forall version_room (pipelines d) →
  (∃ d', clear_ongoing_sql_compilation_for_worker now d pv w n = (Ok (), d')
         ∧ pipelines d' = recover_sql now pv w n <$> pipelines d)
  ∧ (∃ d', clear_ongoing_rust_compilation_for_worker now d pv w n = (Ok (), d')
           ∧ pipelines d' = recover_rust now pv w n <$> pipelines d).
Proof.
  intros Hd Hroom. split.
  - destruct (for_each_all (clear_sql_body now pv w n) version_room (recover_sql now pv w n) d) as (d' & Hf & Hp);
      [intros; by apply clear_sql_body_spec | intros; apply recover_id | done | done |].
    exists d'. split; [|done]. unfold clear_ongoing_sql_compilation_for_worker. by rewrite Hf.
  - destruct (for_each_all (clear_rust_body now pv w n) version_room (recover_rust now pv w n) d) as (d' & Hf & Hp);
      [intros; by apply clear_rust_body_spec | intros; apply recover_id | done | done |].
    exists d'. split; [|done]. unfold clear_ongoing_rust_compilation_for_worker. by rewrite Hf.
Qed.
End recovery.
