(* ===== verification/PipelineErrors.v ===== *)
(** Which errors the API server reports to users: with a weakest precondition for fallible
    operations in which every error is one of the client, the requests of users are shown to
    fail only for reasons that lie with the request. *)
From stdpp Require Import strings relations.
From S2P Require Import Prelude Machine PipelineTypes PipelineDb PipelineInvariant PipelineCompiler.

(** ** Weakest preconditions *)

Section wp.
Context {V : Type}.

(** [x] does not panic, fails only with errors of the client, and otherwise satisfies [Q]. *)
Definition wp {A} (x : result V A) (Q : A → Prop) : Prop :=
  match x with
  | Ok a => Q a
  | Err e => (status_code e < 500)%Z
  | Panic => False
  end.

Lemma wp_bind {A B} (x : result V A) (f : A → result V B) Q :
  wp x (λ a, wp (f a) Q) → wp (x ≫= f) Q.
Proof. by destruct x. Qed.

Lemma wp_mono {A} (x : result V A) (P Q : A → Prop) :
  wp x P → (∀ a, x = Ok a → P a → Q a) → wp x Q.
Proof. destruct x; cbn; auto. Qed.

Lemma wp_throw_if c e (Q : () → Prop) :
  (status_code e < 500)%Z → (c = false → Q ()) → wp (throw_if (V := V) c e) Q.
Proof. destruct c; cbn; auto. Qed.

Lemma wp_assert_ok c (Q : () → Prop) : c = true → Q () → wp (assert_ok (V := V) c) Q.
Proof. by intros ->. Qed.
End wp.

(** One step of an operation. *)
Ltac wp_step :=
  match goal with
  | |- wp (throw_if _ _ ≫= _) _ => apply wp_bind, wp_throw_if; [cbn; lia | intros ?]
  | |- wp (_ ≫= _) _ => apply wp_bind
  | |- wp (Ok _) _ => cbn [wp]
  end.

Section errors.
Context `{EX : Externals}.
Implicit Types (d : Db) (r : Row).

(** Configurations that were read can be written. *)
Hypothesis serialize_runtime_config : ∀ c, is_Some (maybe inr (runtime_config_to_value c)).
Hypothesis serialize_program_config : ∀ c, is_Some (maybe inr (program_config_to_value c)).

Lemma wp_get_pipeline d t n Q :
  table_ok d → (∀ r, selects d (by_name t n) r → Q r) → wp (get_pipeline d t n) Q.
Proof.
  intros Hok HQ. unfold get_pipeline, query_opt. destruct (filter _ _) as [|r l] eqn:Hf; [done|].
  assert (r ∈ filter (λ r, by_name t n r = true) (pipelines d)) as Hin by (rewrite Hf; left).
  apply list_elem_of_filter in Hin as [Hby Hin]. pose proof (selects_by_name d r Hok Hin) as Hs.
  unfold by_name in Hby. bool_simpl. subst t n. unfold selects in Hs. rewrite Hs in Hf. simplify_eq. by apply HQ.
Qed.

Lemma wp_get_pipeline_by_id d t i Q :
  table_ok d → (∀ r, selects d (by_id t i) r → Q r) → wp (get_pipeline_by_id d t i) Q.
Proof.
  intros Hok HQ. unfold get_pipeline_by_id, query_opt. destruct (filter _ _) as [|r l] eqn:Hf; [done|].
  assert (r ∈ filter (λ r, by_id t i r = true) (pipelines d)) as Hin by (rewrite Hf; left).
  apply list_elem_of_filter in Hin as [Hby Hin]. pose proof (selects_by_id d r Hok Hin) as Hs.
  unfold by_id in Hby. bool_simpl. subst t i. unfold selects in Hs. rewrite Hs in Hf. simplify_eq. by apply HQ.
Qed.

Lemma wp_update_by_id d t i f r (Q : Db → Prop) :
  selects d (by_id t i) r → (∀ d', replaced d d' r (f r) → Q d') → wp (update_by_id d t i f) Q.
Proof. intros Hs HQ. destruct (update_by_id_is_Ok d t i f r Hs) as (d' & -> & Hrep). by apply HQ. Qed.

Lemma wp_validate_name n (Q : () → Prop) : Q () → wp (validate_name (V := Value) n) Q.
Proof.
  intros HQ. unfold validate_name. repeat case_match; cbn; (done || lia).
Qed.

Lemma wp_normalize_runtime_config v (Q : Value → Prop) : (∀ v', Q v') → wp (normalize_runtime_config v) Q.
Proof.
  intros HQ. unfold normalize_runtime_config. destruct (validate_runtime_config v) as [e|rc]; cbn; [lia|].
  destruct (serialize_runtime_config rc) as [v' Hv]. destruct (runtime_config_to_value rc); [done|]. apply HQ.
Qed.

Lemma wp_normalize_program_config v (Q : Value → Prop) : (∀ v', Q v') → wp (normalize_program_config v) Q.
Proof.
  intros HQ. unfold normalize_program_config. destruct (validate_program_config v) as [e|pc]; cbn; [lia|].
  destruct (serialize_program_config pc) as [v' Hv]. destruct (program_config_to_value pc); [done|]. apply HQ.
Qed.

Lemma wp_on_some {A B} (f : A → result Value B) o (Q : option B → Prop) :
  (∀ a Q', (∀ b, Q' b) → wp (f a) Q') → (∀ x, Q x) → wp (on_some f o) Q.
Proof. intros Hf HQ. destruct o as [a|]; cbn; [|auto]. wp_step. by apply Hf; intros; cbn. Qed.

(** ** The operations *)

Lemma wp_new_pipeline now d t new_id pv p :
  db_inv d → (∀ r, r ∈ pipelines d → row_id r ≠ new_id) →
  wp (new_pipeline now d t new_id pv p) (λ _, True).
Proof.
  intros Hinv Hnew. unfold new_pipeline. wp_step. apply wp_validate_name. wp_step.
  apply wp_normalize_runtime_config. intros rc. wp_step. apply wp_normalize_program_config. intros pc.
  wp_step. unfold insert_row. destruct (existsb _ (pipelines d)) eqn:Hex.
  { apply existsb_exists in Hex as (r & Hin & Hid). bool_simpl. by destruct (Hnew r); [apply list_elem_of_In|]. }
  do 2 (case_match; [cbn; lia|]). done.
Qed.

Lemma wp_execute_update_description d t n u pv r (Q : nat * Db → Prop) :
  db_inv d → selects d (by_name t n) r → version_room r →
  (∀ d', replaced d d' r (update_description u pv r) → table_ok d' → Q (1, d')) →
  wp (execute_update_description d t n u pv) Q.
Proof.
  intros Hinv Hsel Hroom HQ. destruct (execute_update_description d t n u pv) as [[k d']|e|] eqn:He.
  - destruct (execute_update_description_Ok _ _ _ _ _ _ _ _ (proj1 Hinv) Hsel He) as (-> & Hrep & Hok & _). by apply HQ.
  - unfold execute_update_description in He. destruct (negb _ && _); [by simplify_eq|].
    destruct (forallb _ _) eqn:Hf; [done|]. exfalso. revert Hf. apply not_false_iff_true, forallb_forall.
    intros s Hs%list_elem_of_In. destruct (by_name t n s) eqn:Hby; [|done].
    assert (s = r) as -> by (assert (s ∈ filter (λ r, by_name t n r = true) (pipelines d)) as Hf
      by (by apply list_elem_of_filter); rewrite Hsel in Hf; set_solver).
    pose proof (versions_ordered _ (db_inv_row _ _ Hinv (proj1 (selects_in _ _ _ Hsel)))) as [Hv1 Hv2].
    unfold version_room in Hroom. cbn [negb orb]. apply andb_true_iff.
    split; apply in_range_spec; change (MIN i64) with (- 2 ^ 63)%Z; lia.
  - unfold execute_update_description in He. by repeat case_match.
Qed.

Lemma wp_execute_reset_program now d t n r (Q : nat * Db → Prop) :
  selects d (by_name t n) r → in_range i64 (program_version r + 1)%Z = true →
  (∀ d', Q (1, d')) → wp (execute_reset_program now d t n) Q.
Proof.
  intros Hsel Hr HQ. destruct (execute_reset_program_is_Ok now d t n r Hsel Hr) as (d' & -> & _). apply HQ.
Qed.

Lemma wp_update_pipeline now d t n u pv bump :
  db_inv d → Forall version_room (pipelines d) →
  wp (update_pipeline now d false t n u pv bump) (λ _, True).
Proof.
  intros Hinv Hroom. unfold update_pipeline. wp_step. apply wp_on_some; [by intros; apply wp_validate_name|]. intros _.
  wp_step. apply wp_on_some; [by intros; apply wp_normalize_runtime_config|]. intros rc.
  wp_step. apply wp_on_some; [by intros; apply wp_normalize_program_config|]. intros pc.
  wp_step. apply wp_get_pipeline; [apply Hinv|]. intros r Hsel. wp_step. wp_step. apply wp_assert_ok; [done|].
  destruct (selects_in _ _ _ Hsel) as [Hin Hby]. rewrite Forall_forall in Hroom.
  pose proof (versions_ordered _ (db_inv_row _ _ Hinv Hin)) as [Hv1 Hv2]. specialize (Hroom _ Hin). unfold version_room in Hroom.
  destruct (nothing_changes _ _ _ _); [done|]. wp_step. wp_step.
  eapply wp_execute_update_description; [done | done | done |]. intros d1 Hrep Hok1.
  wp_step. apply wp_assert_ok; [done|]. wp_step. destruct (program_changes _ _ _ _); [|done].
  unfold by_name in Hby. bool_simpl. subst t n. pose proof (proj2 (replaced_in _ _ _ _ Hrep)) as Hin1. wp_step.
  eapply wp_execute_reset_program; [exact (selects_by_name _ _ Hok1 Hin1) | | done].
  apply in_range_spec. change (MIN i64) with (- 2 ^ 63)%Z. cbn -[MAX]. lia.
Qed.

Lemma wp_delete_pipeline d t n : db_inv d → wp (delete_pipeline d t n) (λ _, True).
Proof.
  intros Hinv. unfold delete_pipeline. wp_step. apply wp_get_pipeline; [apply Hinv|]. intros r Hsel.
  wp_step. wp_step. by case_match.
Qed.

Lemma wp_set_desired_status now d t n s ini pol :
  db_inv d → is_some ini = bool_decide (s = ResourcesDesiredStatus.Provisioned) →
  wp (set_deployment_resources_desired_status now d t n s ini pol) (λ _, True).
Proof.
  intros Hinv Hini. unfold set_deployment_resources_desired_status. wp_step.
  apply wp_get_pipeline; [apply Hinv|]. intros r Hsel.
  wp_step. unfold validate_resources_desired_status_transition.
  eapply (wp_mono _ (λ _, True)); [repeat case_match; cbn; (done || lia)|]. intros _ _ _.
  wp_step. eapply (wp_mono _ (λ _, True)).
  { destruct s; rewrite Hini; done. }
  intros [fi fb] _ _. wp_step. wp_step. wp_step.
  destruct (selects_in _ _ _ Hsel) as [Hin Hby]. unfold by_name in Hby. bool_simpl. subst t n.
  eapply wp_update_by_id; [exact (selects_by_id _ _ (proj1 Hinv) Hin) | done].
Qed.

Lemma wp_set_storage_status d t i s : db_inv d → wp (set_storage_status d t i s) (λ _, True).
Proof.
  intros Hinv. unfold set_storage_status. wp_step. apply wp_get_pipeline_by_id; [apply Hinv|]. intros r Hsel.
  wp_step. eapply (wp_mono _ (λ _, True)).
  { unfold validate_storage_status_transition. repeat case_match; cbn; (done || lia). }
  intros _ _ _. by eapply wp_update_by_id.
Qed.

(** What a user request may need: a generated identifier that is not in use, and counters that do
    not overflow. *)
Definition fresh_id d (new_id : N) : Prop := ∀ r, r ∈ pipelines d → row_id r ≠ new_id.
Definition counters_room d : Prop :=
  Forall (λ r, version_room r ∧ in_range i64 (notify_counter r + 1)%Z = true) (pipelines d).

Lemma counters_room_version d : counters_room d → Forall version_room (pipelines d).
Proof. intros H. eapply Forall_impl; [exact H|]. by intros r []. Qed.

Lemma wp_commit {A} d (x : result Value (A * Db)) (Q : A → Prop) : wp x (λ y, Q y.1) → wp (commit d x).1 Q.
Proof. destruct x as [[]| |]; cbn; auto. Qed.

(** The response to a user request, without its body. *)
Definition respond (now : Z) d (q : UserRequest) : result Value () :=
  let unit {A} (x : result Value A * Db) : result Value () := (λ _, ()) <$> x.1 in
  match q with
  | NewPipeline t new_id pv p => unit (storage_new_pipeline now d t new_id pv p)
  | NewOrUpdatePipeline t new_id n pv bump p => unit (new_or_update_pipeline now d t new_id n pv bump p)
  | UpdatePipeline t n u pv bump => unit (storage_update_pipeline now d t n u pv bump)
  | ForcePlatformVersion t n pv => unit (testing_force_update_platform_version d t n pv)
  | DeletePipeline t n => unit (storage_delete_pipeline d t n)
  | Start t n initial policy =>
      unit (set_deployment_resources_desired_status_provisioned now d t n initial policy)
  | Stop t n => unit (set_deployment_resources_desired_status_stopped now d t n)
  | StopIfNotProvisioned t n =>
      unit (set_deployment_resources_desired_status_stopped_if_not_provisioned now d t n)
  | ClearStorage t n => unit (transit_storage_status_to_clearing_if_not_cleared d t n)
  | IncrementNotifyCounter t n => unit (storage_increment_notify_counter d t n)
  end.

Definition request_id (q : UserRequest) : option N :=
  match q with
  | NewPipeline _ new_id _ _ | NewOrUpdatePipeline _ new_id _ _ _ _ => Some new_id
  | _ => None
  end.

Lemma wp_fmap {A B} (f : A → B) (x : result Value A) (Q : B → Prop) :
  wp x (λ a, Q (f a)) → wp (f <$> x) Q.
Proof. by destruct x. Qed.

(** Reading a pipeline back after an operation that keeps the invariant. *)
Lemma wp_read_back {A} (x : result Value (A * Db)) n t :
  wp x (λ _, True) → (∀ a d', x = Ok (a, d') → db_inv d') →
  wp ('(a, txn) ← x; r ← get_pipeline txn t n; Ok (r, txn)) (λ _, True).
Proof.
  intros Hx Hinv. wp_step. eapply wp_mono; [exact Hx|]. intros [a d'] Heq _. wp_step.
  apply wp_get_pipeline; [by eapply Hinv | done].
Qed.

Lemma wp_increment_notify_counter d t n :
  counters_room d → wp (increment_notify_counter d t n) (λ _, True).
Proof.
  intros Hroom. unfold increment_notify_counter. destruct (forallb _ _) eqn:Hf; [destruct (execute_update _ _ _); by case_match|].
  exfalso. revert Hf. apply not_false_iff_true, forallb_forall. intros r Hin%list_elem_of_In.
  unfold counters_room in Hroom. rewrite Forall_forall in Hroom. destruct (Hroom r Hin) as [_ ->]. apply orb_true_r.
Qed.

Lemma respond_wp now d q :
  db_inv d → counters_room d → (∀ i, request_id q = Some i → fresh_id d i) →
  wp (respond now d q) (λ _, True).
Proof.
  intros Hinv Hcount Hid. pose proof (counters_room_version _ Hcount) as Hroom. destruct q; cbn [respond request_id] in *; apply wp_fmap, wp_commit.
  - apply wp_read_back; [apply wp_new_pipeline; auto; by apply Hid|]. intros a d'. by apply new_pipeline_inv.
  - wp_step. eapply (wp_mono _ (λ y, db_inv y.2)).
    + destruct (get_pipeline d t n) as [r|[]|] eqn:Hg; try (pose proof (wp_get_pipeline d t n (λ _, True)
        (proj1 Hinv) ltac:(done)) as Hw; rewrite Hg in Hw; by cbn in *).
      * wp_step. eapply wp_mono; [apply wp_update_pipeline; done|].
        intros [v d'] Heq _. by eapply update_pipeline_inv.
      * wp_step. wp_step. eapply wp_mono; [apply wp_new_pipeline; auto; by apply Hid|].
        intros [a d'] Heq _. by eapply new_pipeline_inv.
    + intros [] _ Hi. wp_step. by apply wp_get_pipeline; [apply Hi|].
  - apply wp_read_back; [by apply wp_update_pipeline|]. intros v d'. by apply update_pipeline_inv.
  - wp_step. apply wp_get_pipeline; [apply Hinv|]. intros r Hsel. wp_step.
    destruct (selects_in _ _ _ Hsel) as [Hin _]. unfold execute_update. cbv beta iota.
    wp_step. apply wp_assert_ok; [|done].
    rewrite (filter_unique row_id _ (pipelines d) r (ids_unique _ (proj1 Hinv)) Hin); [done| |].
    + by apply bool_decide_eq_true_2.
    + intros y. apply bool_decide_eq_true_1.
  - by apply wp_delete_pipeline.
  - by apply wp_set_desired_status.
  - by apply wp_set_desired_status.
  - wp_step. apply wp_get_pipeline; [apply Hinv|]. intros r Hsel. case_match; [|done].
    wp_step. eapply wp_mono; [by apply wp_set_desired_status|]. by intros [].
  - wp_step. apply wp_get_pipeline; [apply Hinv|]. intros r Hsel. wp_step. eapply wp_mono; [|done].
    case_match; [by apply wp_set_storage_status | done].
  - unfold unit_of. wp_step. eapply wp_mono; [|done]. by apply wp_increment_notify_counter.
Qed.
End errors.
