(* ===== verification/PipelineTheorems.v ===== *)
(** The properties of the pipeline manager, each with an example where its hypotheses hold. *)
From stdpp Require Import strings relations.
From S2P Require Import Prelude Machine PipelineTypes PipelineDb PipelineInvariant PipelineFrame.
From S2P Require Import PipelineAutomaton PipelineRunner PipelineCompiler PipelineErrors.

Section theorems.
Context `{EX : Externals}.
Implicit Types (d : Db) (r : Row).

Lemma on_some_to_string {A} `{StatusText A} (o : option A) :
  on_some try_from (to_string <$> o) = Ok o.
Proof. destruct o as [x|]; cbn; [by rewrite try_from_to_string | done]. Qed.

Lemma on_some_try_from {A} `{StatusText A} (o : option string) (x : option A) :
  on_some try_from o = Ok x → to_string <$> x = o.
Proof. destruct o; cbn; intros; res_simpl; [|done]. cbn. f_equal. by eapply to_string_try_from. Qed.

(** C6. In every state that requests of users, the compiler and runners can lead to, in any
    order, pipelines have unique identifiers and unique names per tenant, and every row satisfies
    the invariant that relates its statuses to its other columns: a deployed pipeline has a
    compiled program, storage in use, a deployment identifier and a valid configuration, a
    provisioned one also a location and runtime statuses; errors are only set when not deployed;
    storage is only cleared when stopped; versions are ordered and in range. *)
Theorem pipeline_table_invariant d : reachable d → db_inv d.
Proof. apply reachable_inv. Qed.

(** C18. No sequence of requests of users and of the compiler changes a pipeline that is not
    stopped, except for its desired status: it is not deleted, edited, recompiled or cleared, it
    keeps its deployment, and when it is to be stopped it cannot be restarted. *)
Theorem deployed_pipeline_frozen d d' r :
  reachable d → r ∈ pipelines d → deployment_resources_status r ≠ ResourcesStatus.Stopped →
  rtc env_step d d' → ∃ r', r' ∈ pipelines d' ∧ frozen r r'.
Proof. intros Hd Hin Hst Hs. by eapply env_steps_keeps; [| apply reachable_inv |..]. Qed.

(** C8. While a row stays in the table, its program version and its version never decrease; equal
    program versions mean the same program, equal versions the same description, so the
    guards by which results of compilation and deployments are stored are sound. *)
Theorem version_guards_sound d d' r r' :
  reachable d → rtc row_step (d, r) (d', r') →
  (program_version r ≤ program_version r')%Z ∧ (version r ≤ version r')%Z
  ∧ (program_version r' = program_version r → same_program r r')
  ∧ (version r' = version r → same_description r r').
Proof. intros Hd Hs. exact (row_steps_evolve _ _ Hs (reachable_inv _ Hd)). Qed.


(** Writing the statuses of a pipeline to the text columns of the table and reading them
    back is the identity, and text is accepted only if it is the text of some statuses. *)
Theorem statuses_roundtrip :
  (∀ s, decode_statuses (encode_statuses s) = Ok s)
  ∧ (∀ c s, decode_statuses c = Ok s → encode_statuses s = c).
Proof.
  split.
  - intros s. unfold decode_statuses, encode_statuses.
    cbn [col_initial col_runtime col_runtime_desired col_bootstrap col_program col_storage
      col_resources col_resources_desired].
    rewrite !on_some_to_string, !try_from_to_string. by destruct s.
  - intros [c1 c2 c3 c4 c5 c6 c7 c8] s. unfold decode_statuses.
    cbn [col_initial col_runtime col_runtime_desired col_bootstrap col_program col_storage
      col_resources col_resources_desired]. intros Hd. res_simpl. unfold encode_statuses.
    cbn [st_initial st_runtime st_runtime_desired st_bootstrap st_program st_storage st_resources
      st_resources_desired]. f_equal; eauto using to_string_try_from, on_some_try_from.
Qed.

End theorems.

(** The manager and the database agree on the worker of a pipeline when the first bit of its
    identifier is 0, and then exactly one worker is assigned.  When it is 1 the
    database uses the two's complement instead, or fails for the least integer. *)
Theorem worker_assignment (i : PipelineId) (n w : Z) :
  (0 < n)%Z →
  let h := pipeline_uuid_to_u64 i in
  ((h < 2 ^ 63)%Z → sql_assigned_to_worker i w n = Some (is_pipeline_assigned_to_worker i w n))
  ∧ ((2 ^ 63 < h)%Z → sql_assigned_to_worker i w n = Some (bool_decide ((2 ^ 64 - h) mod n = w)%Z))
  ∧ (h = (2 ^ 63)%Z → sql_assigned_to_worker i w n = None)
  ∧ (∃ w0, (0 ≤ w0 < n)%Z ∧ ∀ w', is_pipeline_assigned_to_worker i w' n = true ↔ w' = w0).
Proof.
  intros Hn h. pose proof (uuid_u64_range i) as Hr. fold h in Hr. split_and!; [| | |by apply one_worker].
  - intros Hlt. by rewrite (sql_assigned_eq _ _ _ h Hn (sql_hash_low i Hlt)) by lia.
  - intros Hgt. pose proof (sql_hash_high i ltac:(fold h; lia)) as Hh. fold h in Hh.
    rewrite (proj2 (Z.eqb_neq h _)) in Hh by lia. by rewrite (sql_assigned_eq _ _ _ _ Hn Hh) by lia.
  - intros Heq. pose proof (sql_hash_high i ltac:(fold h; lia)) as Hh. fold h in Hh.
    rewrite (proj2 (Z.eqb_eq h _) Heq) in Hh. unfold sql_assigned_to_worker. by rewrite Hh.
Qed.

Section automaton_theorems.
Context `{EX : Externals} {RX : RunnerExternals}.
Context (cfg : CommonConfig) (timeout_secs : Z).
Implicit Types (d : Db) (r : Row) (a : Automaton) (w : World).

(** C32. In every reachable state, whatever the executor and the pipeline answer, the automaton
    reads its pipeline and decides without a panic.  It stops the pipeline with an error of its own
    only where that error can occur, so never because a column is missing that the status
    promises, and it makes each call to the executor only in the status the call is for. *)
Theorem automaton_decisions_safe w d r a :
  reachable d → r ∈ pipelines d →
  ∃ s a' calls, observe cfg timeout_secs w d (row_tenant r) (row_id r) a = Ok (r, s, a', calls)
                ∧ decision_ok r a s calls.
Proof. intros Hd. apply observe_decides, reachable_inv, Hd. Qed.

(** C16. A cycle of the automaton of a deployed or stopping pipeline succeeds, whatever users and the
    compiler commit between its read and its write: the decision is stored, the pipeline
    has the resources status decided on, and the poll period is the one of that status. *)
Theorem automaton_cycle_succeeds w now f d r a :
  reachable d → r ∈ pipelines d → active r → rtc env_step d (f d) →
  ∃ s a1 calls d' a',
    determine_transition cfg timeout_secs w a (descriptor (is_some (provision_called a)) r)
      = Some (s, a1, calls)
    ∧ do_run cfg timeout_secs w now f d (row_tenant r) (row_id r) a
      = (Ok (poll_timeout (next_status r s)), d', a', calls)
    ∧ db_inv d' ∧ row_at d' r (next_status r s).
Proof. intros Hd. apply do_run_active, reachable_inv, Hd. Qed.

(** C7. A pipeline that is to be stopped is stopped after at most two cycles of its automaton,
    in which the executor stops it without error, whatever users and the compiler commit
    during and between the cycles. *)
Theorem automaton_stops w1 w2 now1 now2 f1 g f2 d r a :
  reachable d → r ∈ pipelines d → active r →
  deployment_resources_desired_status r = ResourcesDesiredStatus.Stopped →
  w_stop w1 = inr () → w_stop w2 = inr () →
  (∀ d, rtc env_step d (f1 d)) → (∀ d, rtc env_step d (g d)) → (∀ d, rtc env_step d (f2 d)) →
  ∃ p1 d1 a1 calls1,
    do_run cfg timeout_secs w1 now1 f1 d (row_tenant r) (row_id r) a = (Ok p1, d1, a1, calls1)
    ∧ (row_at d1 r ResourcesStatus.Stopped
       ∨ ∃ p2 d2 a2 calls2,
           do_run cfg timeout_secs w2 now2 f2 (g d1) (row_tenant r) (row_id r) a1
             = (Ok p2, d2, a2, calls2)
           ∧ row_at d2 r ResourcesStatus.Stopped).
Proof. intros Hd. apply stops_in_two_cycles, reachable_inv, Hd. Qed.

(** C31. A stopped pipeline with a compiled program and valid configurations that is to be
    provisioned is provisioned by three undisturbed cycles of a new automaton whose
    calls succeed: the first stores a deployment, the second makes the one call to
    provision it with the initial status the user asked for, the third records its location. *)
Theorem automaton_starts w1 w2 w3 now1 now2 now3 d r config location initial :
  reachable d → r ∈ pipelines d → deployment_resources_status r = ResourcesStatus.Stopped →
  deployment_resources_desired_status r = ResourcesDesiredStatus.Provisioned →
  storage_status r ≠ StorageStatus.Clearing → program_status r = ProgramStatus.Success →
  deployment_initial r = Some initial → startable w1 r config →
  (∀ args, w_provision w2 args = inr ()) → w_is_provisioned w3 = inr (Some location) →
  let run w now := do_run cfg timeout_secs w now id in
  ∃ d1 args a2 d3 r3 a3,
    run w1 now1 d (row_tenant r) (row_id r) new_automaton
      = (Ok POLL_PERIOD_PROVISIONING, d1, new_automaton, [])
    ∧ run w2 now2 d1 (row_tenant r) (row_id r) new_automaton
      = (Ok POLL_PERIOD_PROVISIONING, d1, a2, [CallProvision args])
    ∧ pa_initial args = initial
    ∧ run w3 now3 d1 (row_tenant r) (row_id r) a2
      = (Ok POLL_PERIOD_PROVISIONED, d3, a3, [CallIsProvisioned])
    ∧ redeployed d3 r r3 ∧ deployment_resources_status r3 = ResourcesStatus.Provisioned
    ∧ deployment_location r3 = Some location
    ∧ deployment_runtime_status r3 = Some RuntimeStatus.Initializing
    ∧ deployment_runtime_desired_status r3 = Some initial
    ∧ provisioned_grace_period_start a3 = Some (w_instant w3).
Proof.
  intros Hd Hin Hst Hdes Hcl Hs Hini Hstart Hw2 Hw3 run. subst run. cbn beta.
  destruct (starts_provisioning cfg timeout_secs w1 now1 d r new_automaton config
    (reachable_inv _ Hd) Hin Hst Hdes Hcl Hs Hstart)
    as (d1 & r1 & Hrun1 & Hinv1 & Hre1 & Hst1 & Hdes1 & Hini1 & _).
  pose proof (re_in _ _ _ Hre1) as Hin1. rewrite Hini in Hini1.
  destruct (provision_args_present cfg r1 (db_inv_row _ _ Hinv1 Hin1) Hst1 Hdes1)
    as (args & Hargs & Hpa & _). rewrite Hini1 in Hpa.
  destruct (provision_is_called cfg timeout_secs w2 now2 d1 r1 new_automaton args
    Hinv1 Hin1 Hst1 Hdes1 eq_refl Hargs (Hw2 args)) as (a2 & Hrun2 & Ha2).
  destruct (becomes_provisioned cfg timeout_secs w3 now3 d1 r1 a2 location initial
    Hinv1 Hin1 Hst1 Hdes1 Ha2 Hini1 Hw3) as (d3 & r3 & a3 & Hrun3 & Hre3 & Hst3 & Hend).
  rewrite (re_id _ _ _ Hre1), (re_tenant _ _ _ Hre1) in Hrun2, Hrun3.
  exists d1, args, a2, d3, r3, a3. split_and!; [done|done|congruence|done| |done|by apply Hend..].
  destruct Hre1, Hre3. constructor; congruence.
Qed.

(** A pipeline that is to be provisioned while its storage is being cleared is stuck:
    every cycle of its automaton fails, makes no call, so does not clear the storage either,
    and leaves table and automaton as they are. *)
Theorem start_while_clearing_stuck w now d r a :
  reachable d → r ∈ pipelines d → storage_status r = StorageStatus.Clearing →
  deployment_resources_desired_status r = ResourcesDesiredStatus.Provisioned →
  do_run cfg timeout_secs w now id d (row_tenant r) (row_id r) a
  = (Err (InvalidResourcesStatusTransition StorageStatus.Clearing ResourcesStatus.Stopped
            ResourcesStatus.Stopping), d, a, []).
Proof. intros Hd. apply start_while_clearing, reachable_inv, Hd. Qed.
End automaton_theorems.

(** ** An example *)

Module Demo.
#[local] Open Scope string_scope.

(** JSON is its text, configurations are always valid. *)
#[local] Instance externals : Externals := {|
  Value := string;
  json_get _ _ := None;
  json_as_str v := Some v;
  json_is_null _ := false;
  json_is_object _ := false;
  json_string v := v;
  json_empty_object := "{}";
  RuntimeConfig := string;
  ProgramConfig := string;
  ProgramInfo := string;
  PipelineConfig := string;
  SqlCompilerMessage := string;
  ManagerError := string;
  runtime_config_from_value := inr;
  program_config_from_value := inr;
  program_info_from_value := inr;
  deployment_config_from_value := inr;
  runtime_config_to_value := inr;
  program_config_to_value := inr;
  deployment_config_to_value := inr;
  fault_tolerance_is_enabled _ := false;
  feldera_enterprise := false |}.

#[local] Instance runner_externals : RunnerExternals := {|
  extended_runtime_status_from_value _ := inl "";
  error_code_from_value _ := inl "";
  provisioning_timeout_secs _ := None;
  semver_at_least _ _ := None;
  uuid_to_string _ := "";
  json_pretty v := v;
  error_response_debug v := v;
  display_request_error _ := "" |}.

Definition tenant : TenantId := 1%N.
Definition pid : PipelineId := 5%N.
Definition guard : Version := 1%Z.

Definition cfg : CommonConfig :=
  {| enable_https := false; compiler_host := "localhost"; compiler_port := 8085%N;
     common_platform_version := "v1" |}.

Definition world : World :=
  {| w_provision _ := inr (); w_is_provisioned := inr (Some "localhost:80"); w_check := inr ();
     w_stop := inr (); w_clear := inr (); w_status := inr (200%Z, "Running");
     w_deployment_config rc _ := rc; w_new_id := 7%N; w_utc_now := 0; w_instant := 0 |}.

(** Sequences of requests to an empty table. *)
Inductive request :=
| User (q : UserRequest)
| Compiler (q : CompilerRequest)
| Runner (q : RunnerRequest).

Definition exec (d : Db) (q : request) : Db :=
  match q with
  | User q => exec_user 0 d q
  | Compiler q => exec_compiler 0 d q
  | Runner q => exec_runner 0 d q
  end.

Definition run (qs : list request) : Db := foldl exec (initial_db [tenant]) qs.

Lemma run_reachable qs : reachable (run qs).
Proof.
  exists [tenant]. unfold run. generalize (initial_db [tenant]) as d.
  induction qs as [|[] qs IH]; intros d; cbn; [done|..]; (eapply rtc_l; [constructor | apply IH]).
Qed.

Definition create : list request :=
  [User (NewPipeline tenant pid "v1" {| pd_name := "p"; pd_description := ""; pd_runtime_config := "rc";
     pd_program_code := "code"; pd_udf_rust := ""; pd_udf_toml := ""; pd_program_config := "pc" |})].

Definition compile : list request :=
  create ++
  [Compiler (ToCompilingSql tenant pid guard);
   Compiler (ToSqlCompiled tenant pid guard {| sql_exit_code := 0; sql_messages := [] |} "info");
   Compiler (ToCompilingRust tenant pid guard);
   Compiler (ToSuccess tenant pid guard {| rust_exit_code := 0; rust_stdout := ""; rust_stderr := "" |} "a" "b" "c")].

Definition start : list request :=
  compile ++ [User (Start tenant "p" RuntimeDesiredStatus.Running BootstrapPolicy.Reject)].

Definition deploy : list request := start ++ [Runner (ToProvisioning tenant pid guard 9%N "config")].

Definition stop : list request := deploy ++ [User (Stop tenant "p")].

Definition clear_and_start : list request :=
  stop ++
  [Runner (ToStopping tenant pid guard None None); Runner (ToStopped tenant pid guard); User (ClearStorage tenant "p");
   User (Start tenant "p" RuntimeDesiredStatus.Running BootstrapPolicy.Reject)].

Definition no_row : Row := Eval vm_compute in
  new_row 0 tenant 0%N "" {| pd_name := ""; pd_description := ""; pd_runtime_config := "";
    pd_program_code := ""; pd_udf_rust := ""; pd_udf_toml := ""; pd_program_config := "" |} "" "".

(** The pipeline after requests. *)
Definition row (qs : list request) : Row := default no_row (head (pipelines (run qs))).

(** Users keep trying to edit and delete the pipeline. *)
Definition edits (d : Db) : Db := exec_user 0 (exec_user 0 d (DeletePipeline tenant "p"))
  (UpdatePipeline tenant "p" {| up_name := Some "q"; up_description := None; up_runtime_config := None;
     up_program_code := Some "other"; up_udf_rust := None; up_udf_toml := None;
     up_program_config := None |} "v1" false).

Lemma edits_env d : rtc env_step d (edits d).
Proof. eapply rtc_l; [apply env_user|]. apply rtc_once, env_user. Qed.

Lemma table_invariant_witness : db_inv (run deploy) ∧ length (pipelines (run deploy)) = 1%nat.
Proof. split; [apply pipeline_table_invariant, run_reachable | vm_compute; reflexivity]. Defined.

Lemma deployed_pipeline_frozen_witness :
  ∃ r', r' ∈ pipelines (edits (run deploy)) ∧ frozen (row deploy) r'.
Proof.
  apply (deployed_pipeline_frozen (run deploy)); [apply run_reachable | | | apply edits_env].
  - vm_compute. left.
  - vm_compute. discriminate.
Defined.

Lemma version_guards_sound_witness :
  let r := row compile in let r' := row deploy in
  (program_version r ≤ program_version r')%Z ∧ (version r ≤ version r')%Z
  ∧ (program_version r' = program_version r → same_program r r')
  ∧ (version r' = version r → same_description r r').
Proof.
  apply (version_guards_sound (run compile) (run deploy)); [apply run_reachable|].
  eapply (rtc_l _ _ (run start, row start)); [|apply rtc_once].
  - split_and!; [apply (step_user 0) | vm_compute; left | vm_compute; left | vm_compute; reflexivity].
  - split_and!; [apply (step_runner 0) | vm_compute; left | vm_compute; left | vm_compute; reflexivity].
Defined.

Definition compiling : list request := create ++ [Compiler (ToCompilingSql tenant pid guard)].


Lemma worker_assignment_witness :
  ∃ w0, (0 ≤ w0 < 2)%Z ∧ ∀ w', is_pipeline_assigned_to_worker pid w' 2 = true ↔ w' = w0.
Proof. apply (worker_assignment pid 2 0). lia. Defined.

Lemma automaton_decisions_safe_witness :
  ∃ s a' calls, observe cfg 60 world (run deploy) tenant pid new_automaton
                  = Ok (row deploy, s, a', calls)
                ∧ decision_ok (row deploy) new_automaton s calls ∧ length calls = 1%nat.
Proof.
  destruct (automaton_decisions_safe cfg 60 world (run deploy) (row deploy) new_automaton)
    as (s & a' & calls & Heq & Hok).
  - apply run_reachable.
  - vm_compute. left.
  - exists s, a', calls. split; [exact Heq | split; [exact Hok|]].
    vm_compute in Heq. injection Heq as <- <- <-. reflexivity.
Defined.

Lemma automaton_cycle_succeeds_witness :
  ∃ s a1 calls d' a',
    determine_transition cfg 60 world new_automaton (descriptor false (row stop)) = Some (s, a1, calls)
    ∧ do_run cfg 60 world 0 edits (run stop) tenant pid new_automaton
      = (Ok (poll_timeout (next_status (row stop) s)), d', a', calls)
    ∧ db_inv d' ∧ row_at d' (row stop) (next_status (row stop) s).
Proof.
  apply (automaton_cycle_succeeds cfg 60 world 0 edits (run stop) (row stop) new_automaton).
  - apply run_reachable.
  - vm_compute. left.
  - vm_compute. discriminate.
  - apply edits_env.
Defined.

Lemma automaton_stops_witness :
  ∃ p1 d1 a1 calls1,
    do_run cfg 60 world 0 edits (run stop) tenant pid new_automaton = (Ok p1, d1, a1, calls1)
    ∧ (row_at d1 (row stop) ResourcesStatus.Stopped
       ∨ ∃ p2 d2 a2 calls2,
           do_run cfg 60 world 0 edits (edits d1) tenant pid a1 = (Ok p2, d2, a2, calls2)
           ∧ row_at d2 (row stop) ResourcesStatus.Stopped).
Proof.
  apply (automaton_stops cfg 60 world world 0 0 edits edits edits (run stop) (row stop) new_automaton);
    [apply run_reachable | vm_compute; left | vm_compute; discriminate | reflexivity | reflexivity
    | reflexivity | apply edits_env..].
Defined.

Lemma automaton_starts_witness :
  ∃ d1 args a2 d3 r3 a3,
    do_run cfg 60 world 0 id (run start) tenant pid new_automaton
      = (Ok POLL_PERIOD_PROVISIONING, d1, new_automaton, [])
    ∧ do_run cfg 60 world 0 id d1 tenant pid new_automaton
      = (Ok POLL_PERIOD_PROVISIONING, d1, a2, [CallProvision args])
    ∧ pa_initial args = RuntimeDesiredStatus.Running
    ∧ do_run cfg 60 world 0 id d1 tenant pid a2
      = (Ok POLL_PERIOD_PROVISIONED, d3, a3, [CallIsProvisioned])
    ∧ redeployed d3 (row start) r3 ∧ deployment_resources_status r3 = ResourcesStatus.Provisioned
    ∧ deployment_location r3 = Some "localhost:80"
    ∧ deployment_runtime_status r3 = Some RuntimeStatus.Initializing
    ∧ deployment_runtime_desired_status r3 = Some RuntimeDesiredStatus.Running
    ∧ provisioned_grace_period_start a3 = Some 0%Z.
Proof.
  apply (automaton_starts cfg 60 world world world 0 0 0 (run start) (row start) "rc" "localhost:80"
    RuntimeDesiredStatus.Running);
    [apply run_reachable | vm_compute; left | reflexivity | reflexivity | vm_compute; discriminate
    | reflexivity | reflexivity | | reflexivity | reflexivity].
  exists "rc", "info", "info". split_and!; reflexivity.
Defined.

Lemma start_while_clearing_stuck_witness :
  do_run cfg 60 world 0 id (run clear_and_start) tenant pid new_automaton
  = (Err (InvalidResourcesStatusTransition StorageStatus.Clearing ResourcesStatus.Stopped
            ResourcesStatus.Stopping), run clear_and_start, new_automaton, []).
Proof.
  apply (start_while_clearing_stuck cfg 60 world 0 (run clear_and_start) (row clear_and_start) new_automaton);
    [apply run_reachable | vm_compute; left | reflexivity | reflexivity].
Defined.

End Demo.
