(* ===== verification/Fxp.v ===== *)
(** Decimal arithmetic on 128-bit integers (crates/fxp/src/lib.rs): powers of ten, rounding and
    division.  The functions that use Rust's plain operators take the flag [oc] that says whether
    the build checks for overflow; [None] is a panic, so that a function that returns an [Option]
    has two levels of [option]. *)
From S2P Require Import Prelude Machine.
#[local] Open Scope Z_scope.

(** ** Powers of ten *)

(** [10i128.checked_pow(exponent)] *)
Definition checked_pow10 (exponent : Z) : option Z :=
  if exponent <=? 38 then Some (10 ^ exponent) else None.

(** Panics above 38. *)
Definition pow10 (exponent : Z) : option Z := checked_pow10 exponent.

(** ** Rounding *)

Inductive Halfway := AwayFromZero | Even.

Definition saturating_sub (t : int_ty) (x y : Z) : Z := Z.max (MIN t) (Z.min (MAX t) (x - y)).

(** Whether a quotient toward zero is to be moved away from zero, given its remainder. *)
Definition round_away_from_zero (quotient remainder divisor : Z) (halfway : Halfway) : bool :=
  match Z.abs remainder ?= Z.quot divisor 2 with
  | Lt => false
  | Eq => match halfway with AwayFromZero => true | Even => negb (Z.rem quotient 2 =? 0) end
  | Gt => true
  end.

Section ops.
Context (oc : bool).

Definition round_inner (value scale n : Z) (halfway : Halfway) : option (option Z) :=
  let position := saturating_sub i32 scale n in
  if position <=? 0 then Some (Some value)
  else
    a ← arith oc i128 (Z.abs value);
    p ← pow10 (position - 1);
    half ← arith oc i128 (5 * p);
    if a <? half then Some (Some 0)
    else
      divisor ← pow10 position;
      let quotient := Z.quot value divisor in
      let remainder := Z.rem value divisor in
      rounded_quotient ←
        (if round_away_from_zero quotient remainder divisor halfway
         then arith oc i128 (quotient + Z.sgn value) else Some quotient);
      Some (checked i128 (divisor * rounded_quotient)).

(** [x ^ y >> (i128::BITS - 1)]: all ones if the signs differ, else zero. *)
Definition sign_mask (x y : Z) : Z := Z.shiftr (Z.lxor x y) 127.

Definition div_floor (x y : Z) : option Z :=
  assert! (negb (y =? 0)) in
  d ← arith true i128 (Z.quot x y);
  let r := Z.rem x y in
  if negb (r =? 0) then arith oc i128 (d + sign_mask x y) else Some d.

Definition div_ceil (x y : Z) : option Z :=
  assert! (negb (y =? 0)) in
  d ← arith true i128 (Z.quot x y);
  let r := Z.rem x y in
  let correction := 1 + sign_mask x y in
  if negb (r =? 0) then arith oc i128 (d + correction) else Some d.

Definition i128_mul_pow10_round_even (value exponent : Z) : option (option Z) :=
  match exponent ?= 0 with
  | Lt =>
      match checked_pow10 (Z.abs exponent) with
      | Some divisor =>
          let quotient := Z.quot value divisor in
          let remainder := Z.rem value divisor in
          if round_away_from_zero quotient remainder divisor Even
          then Some <$> arith oc i128 (quotient + Z.sgn quotient)
          else Some (Some quotient)
      | None => Some (Some 0)
      end
  | Eq => Some (Some value)
  | Gt => Some (m ← checked_pow10 exponent; checked i128 (value * m))
  end.
End ops.

(** ** Correctness *)

Lemma i128_range : MIN i128 = - 2 ^ 127 ∧ MAX i128 = 2 ^ 127 - 1.
Proof. done. Qed.

(** [10 ^ 38] is the largest power of ten below [2 ^ 127]. *)
Lemma pow10_bound e : 0 ≤ e ≤ 38 → 1 ≤ 10 ^ e ≤ 10 ^ 38.
Proof.
  intros He. split; [pose proof (Z.pow_pos_nonneg 10 e); lia|]. apply Z.pow_le_mono_r; lia.
Qed.

Lemma pow10_in_range e : 0 ≤ e → in_range i128 (10 ^ e) = (e <=? 38).
Proof.
  intros He. destruct (Z.leb_spec e 38) as [Hle|Hgt].
  - apply in_range_spec. destruct i128_range as [-> ->]. pose proof (pow10_bound e ltac:(lia)). lia.
  - unfold in_range. apply andb_false_iff. right. apply Z.leb_gt. destruct i128_range as [_ ->].
    apply Z.lt_le_trans with (10 ^ 39); [lia | apply Z.pow_le_mono_r; lia].
Qed.

Lemma checked_pow10_spec e : 0 ≤ e → checked_pow10 e = checked i128 (10 ^ e).
Proof. intros He. unfold checked_pow10, checked. by rewrite pow10_in_range. Qed.

Lemma pow10_Some e : 0 ≤ e ≤ 38 → pow10 e = Some (10 ^ e).
Proof. intros He. unfold pow10, checked_pow10. by rewrite (proj2 (Z.leb_le e 38)) by lia. Qed.
