(* ===== verification/FxpU256.v ===== *)
(** 256-bit integers as pairs of 128-bit integers (crates/fxp/src/u256.rs), and that their operations
    compute products, quotients, square roots, sums and comparisons of integers. *)
From S2P Require Import Prelude Machine Fxp.
#[local] Open Scope Z_scope.

(** ** Unsigned *)

(** [U256(hi, lo)] *)
Record U256 := MkU256 { u_hi : Z; u_lo : Z }.

(** The methods of u128 that are used. *)
Definition lo (x : Z) : Z := Z.land x (2 ^ 64 - 1).
Definition hi (x : Z) : Z := Z.shiftr x 64.
Definition hi_lo (x : Z) : Z * Z := (hi x, lo x).
Definition overflowing_add (x y : Z) : Z * Z :=
  (wrap u128 (x + y), if in_range u128 (x + y) then 0 else 1).
Definition overflowing_sub (x y : Z) : Z * Z :=
  (wrap u128 (x - y), if in_range u128 (x - y) then 0 else 1).
Definition shl (x n : Z) : Z := wrap u128 (Z.shiftl x n).
Definition unbounded_shl (x n : Z) : Z := if n <? 128 then shl x n else 0.
Definition unbounded_shr (x n : Z) : Z := if n <? 128 then Z.shiftr x n else 0.
Definition leading_zeros (x : Z) : Z := if x =? 0 then 128 else 127 - Z.log2 x.

Fixpoint ilog10_from (fuel : nat) (x : Z) : Z :=
  match fuel with
  | O => 0
  | S fuel => if x <? 10 then 0 else 1 + ilog10_from fuel (x / 10)
  end.

(** [u128::ilog10] of a positive integer. *)
Definition ilog10 (x : Z) : Z := ilog10_from 39 x.

Definition BASE : Z := 2 ^ 64.

Module U256.
Definition ZERO : U256 := MkU256 0 0.

Definition from_product (x y : Z) : U256 :=
  let '(a, b) := hi_lo x in
  let '(c, d) := hi_lo y in
  let ad := wrap u128 (a * d) in
  let bd := wrap u128 (b * d) in
  let ac := wrap u128 (a * c) in
  let bc := wrap u128 (b * c) in
  let '(sum0, carry0) := overflowing_add bd (shl ad 64) in
  let '(sum0, carry1) := overflowing_add sum0 (shl bc 64) in
  let sum1 := wrap u128 (wrap u128 (wrap u128 (wrap u128 (ac + hi ad) + hi bc) + carry0) + carry1) in
  MkU256 sum1 sum0.

(** The derived lexicographic order. *)
Definition cmp (x y : U256) : comparison :=
  match u_hi x ?= u_hi y with
  | Eq => u_lo x ?= u_lo y
  | c => c
  end.

Definition add (x y : U256) : U256 :=
  let '(sum0, carry) := overflowing_add (u_lo x) (u_lo y) in
  MkU256 (wrap u128 (wrap u128 (u_hi x + u_hi y) + carry)) sum0.

Definition sub (x y : U256) : U256 :=
  let '(diff0, borrow) := overflowing_sub (u_lo x) (u_lo y) in
  MkU256 (wrap u128 (wrap u128 (u_hi x - u_hi y) - borrow)) diff0.

Definition shr (x : U256) (n : Z) : U256 :=
  MkU256 (unbounded_shr (u_hi x) n)
    (Z.lor (Z.lor (unbounded_shr (u_lo x) n) (unbounded_shl (u_hi x) (wrap u32 (128 - n))))
           (unbounded_shr (u_hi x) (wrap u32 (n - 128)))).

Definition from (value : Z) : U256 := MkU256 0 value.

Section ops.
Context (oc : bool).

(** The recursion shortens the number by two bits until it fits in a u128. *)
Fixpoint isqrt_from (fuel : nat) (self : U256) : option Z :=
  match fuel with
  | O => None
  | S fuel =>
      if u_hi self =? 0 then Some (Z.sqrt (u_lo self))
      else
        root ← isqrt_from fuel (shr self 2);
        let small_candidate := shl root 1 in
        large_candidate ← arith oc u128 (small_candidate + 1);
        let product := from_product large_candidate large_candidate in
        Some (match cmp product self with Gt => small_candidate | _ => large_candidate end)
  end.

Definition isqrt (self : U256) : option Z := isqrt_from 65 self.

(** The condition of the loop below. *)
Definition digit_too_large (vn0 un q rhat : Z) : option bool :=
  if BASE <=? q then Some true
  else
    x ← arith oc u128 (q * vn0);
    y ← arith oc u128 (BASE * rhat);
    z ← arith oc u128 (y + un);
    Some (z <? x).

(** The loop that corrects the estimate of a digit of the quotient. *)
Fixpoint correct_digit (fuel : nat) (vn1 vn0 un q rhat : Z) : option (Z * Z) :=
  match fuel with
  | O => None
  | S fuel =>
      too_large ← digit_too_large vn0 un q rhat;
      if (too_large : bool) then
        q ← arith oc u128 (q - 1);
        rhat ← arith oc u128 (rhat + vn1);
        if BASE <=? rhat then Some (q, rhat) else correct_digit fuel vn1 vn0 un q rhat
      else Some (q, rhat)
  end.

(** One digit of the quotient of [un32 * BASE + un] by [vn1 * BASE + vn0]. *)
Definition quotient_digit (vn1 vn0 un32 un : Z) : option Z :=
  assert! (negb (vn1 =? 0)) in
  let q := un32 / vn1 in
  x ← arith oc u128 (q * vn1);
  rhat ← arith oc u128 (un32 - x);
  fst <$> correct_digit 3 vn1 vn0 un q rhat.

Definition narrowing_div (self : U256) (v : Z) : option (option Z) :=
  let u1 := u_hi self in
  let u0 := u_lo self in
  if v =? 0 then Some None
  else if u1 =? 0 then Some (Some (u0 / v))
  else if v <=? u1 then Some None
  else
    let s := leading_zeros v in
    let v := shl v s in
    let '(vn1, vn0) := hi_lo v in
    let un32 := Z.lor (shl u1 s) (unbounded_shr u0 (128 - s)) in
    let '(un1, un0) := hi_lo (shl u0 s) in
    q1 ← quotient_digit vn1 vn0 un32 un1;
    let un21 :=
      wrap u128 (wrap u128 (wrap u128 (un32 * BASE) + un1) - wrap u128 (q1 * v)) in
    q0 ← quotient_digit vn1 vn0 un21 un0;
    x ← arith oc u128 (q1 * BASE);
    q ← arith oc u128 (x + q0);
    Some (Some q).

Definition reduce_to_u128 (self : U256) : option (Z * Z) :=
  if 0 <? u_hi self then
    let shift := ilog10 (u_hi self) + 1 in
    p ← pow10 shift;
    q ← narrowing_div self p;
    q ← q;
    Some (q, shift)
  else Some (u_lo self, 0).
End ops.
End U256.

(** ** Signed *)

Record I256 := MkI256 { i_value : U256; i_negative : bool }.

Module I256.
Definition from_product (x y : Z) : I256 :=
  MkI256 (U256.from_product (Z.abs x) (Z.abs y)) (xorb (x <? 0) (y <? 0)).

Definition is_negative (self : I256) : bool :=
  i_negative self && negb (match U256.cmp (i_value self) U256.ZERO with Eq => true | _ => false end).

Definition add (x y : I256) : I256 :=
  if Bool.eqb (i_negative x) (i_negative y)
  then MkI256 (U256.add (i_value x) (i_value y)) (i_negative x)
  else match U256.cmp (i_value y) (i_value x) with
       | Gt => MkI256 (U256.sub (i_value y) (i_value x)) (i_negative y)
       | _ => MkI256 (U256.sub (i_value x) (i_value y)) (i_negative x)
       end.

Definition from (value : Z) : I256 := MkI256 (U256.from (Z.abs value)) (value <? 0).

Definition eq (x y : I256) : bool :=
  (match U256.cmp (i_value x) (i_value y) with Eq => true | _ => false end)
  && Bool.eqb (is_negative x) (is_negative y).

Definition cmp (x y : I256) : comparison :=
  match is_negative x, is_negative y with
  | false, false => U256.cmp (i_value x) (i_value y)
  | true, true => U256.cmp (i_value y) (i_value x)
  | true, false => Lt
  | false, true => Gt
  end.

Section ops.
Context (oc : bool).

Definition narrowing_div (self : I256) (v : Z) : option (option Z) :=
  q ← U256.narrowing_div oc (i_value self) (Z.abs v);
  match q ≫= checked i128 with
  | None => Some None
  | Some result =>
      if xorb (i_negative self) (v <? 0)
      then Some <$> arith oc i128 (- result) else Some (Some result)
  end.

Definition checked_isqrt (self : I256) : option (option Z) :=
  if is_negative self then Some None
  else r ← U256.isqrt oc (i_value self); Some (checked i128 r).

Definition reduce_to_i128 (self : I256) : option (Z * Z) :=
  '(value, shift) ← U256.reduce_to_u128 oc (i_value self);
  let '(value, shift) :=
    if value <=? MAX i128 then (wrap i128 value, shift) else (wrap i128 (value / 10), shift + 1) in
  if i_negative self then v ← arith oc i128 (- value); Some (v, shift) else Some (value, shift).
End ops.
End I256.

(** ** Correctness *)

Definition word (x : Z) : Prop := 0 ≤ x < 2 ^ 128.
Definition half_word (x : Z) : Prop := 0 ≤ x < 2 ^ 64.

(** The integer that a pair represents. *)
Definition uval (x : U256) : Z := u_hi x * 2 ^ 128 + u_lo x.
Definition u_ok (x : U256) : Prop := word (u_hi x) ∧ word (u_lo x).

Lemma wrap_u128 x : wrap u128 x = x mod 2 ^ 128.
Proof. done. Qed.

Lemma word_in_range x : in_range u128 x = true ↔ word x.
Proof. rewrite in_range_spec. change (MIN u128) with 0. change (MAX u128) with (2 ^ 128 - 1). unfold word. lia. Qed.

Lemma wrap_word x : word x → wrap u128 x = x.
Proof. intros Hx. rewrite wrap_u128. by apply Z.mod_small. Qed.

Lemma wrap_is_word x : word (wrap u128 x).
Proof. rewrite wrap_u128. apply Z.mod_pos_bound. lia. Qed.

Lemma arith_word oc x : word x → arith oc u128 x = Some x.
Proof. intros Hx. apply arith_ok. by apply word_in_range. Qed.

Lemma hi_lo_spec x : word x → x = hi x * 2 ^ 64 + lo x ∧ half_word (hi x) ∧ half_word (lo x).
Proof.
  intros Hx. unfold hi, lo, word, half_word in *. change (2 ^ 64 - 1) with (Z.ones 64).
  rewrite Z.land_ones, Z.shiftr_div_pow2 by lia.
  pose proof (Z.div_mod x (2 ^ 64)). pose proof (Z.mod_pos_bound x (2 ^ 64)).
  split_and!; lia.
Qed.

Lemma shl_spec x n : 0 ≤ n → shl x n = (x * 2 ^ n) mod 2 ^ 128.
Proof. intros Hn. unfold shl. by rewrite wrap_u128, Z.shiftl_mul_pow2. Qed.

Lemma shl_64 x : word x → shl x 64 = lo x * 2 ^ 64.
Proof.
  intros Hx. rewrite shl_spec by lia. destruct (hi_lo_spec x Hx) as (Heq & Hh & Hl). unfold half_word in *.
  rewrite Heq at 1. symmetry. apply (Z.mod_unique _ _ (hi x)); lia.
Qed.

Lemma overflowing_add_spec x y :
  word x → word y → ∃ s c, overflowing_add x y = (s, c) ∧ word s ∧ 0 ≤ c ≤ 1 ∧ x + y = s + c * 2 ^ 128.
Proof.
  intros Hx Hy. unfold overflowing_add. eexists _, _. split; [done|]. split; [apply wrap_is_word|].
  destruct (in_range u128 (x + y)) eqn:Hr.
  - apply word_in_range in Hr. rewrite wrap_word by done. lia.
  - apply not_true_iff_false in Hr. rewrite word_in_range in Hr. unfold word in *. rewrite wrap_u128.
    rewrite <- (Z.mod_unique (x + y) (2 ^ 128) 1 (x + y - 2 ^ 128)); lia.
Qed.

Lemma overflowing_sub_spec x y :
  word x → word y → ∃ s c, overflowing_sub x y = (s, c) ∧ word s ∧ 0 ≤ c ≤ 1 ∧ x - y = s - c * 2 ^ 128.
Proof.
  intros Hx Hy. unfold overflowing_sub. eexists _, _. split; [done|]. split; [apply wrap_is_word|].
  destruct (in_range u128 (x - y)) eqn:Hr.
  - apply word_in_range in Hr. rewrite wrap_word by done. lia.
  - apply not_true_iff_false in Hr. rewrite word_in_range in Hr. unfold word in *. rewrite wrap_u128.
    rewrite <- (Z.mod_unique (x - y) (2 ^ 128) (-1) (x - y + 2 ^ 128)); lia.
Qed.

Lemma half_product x y : half_word x → half_word y → word (x * y).
Proof. unfold half_word, word. intros. change (2 ^ 128) with (2 ^ 64 * 2 ^ 64). nia. Qed.

Lemma from_product_spec x y :
  word x → word y → uval (U256.from_product x y) = x * y ∧ u_ok (U256.from_product x y).
Proof.
  intros Hx Hy. unfold U256.from_product, hi_lo.
  destruct (hi_lo_spec x Hx) as (Hxe & Ha & Hb). destruct (hi_lo_spec y Hy) as (Hye & Hc & Hd).
  set (a := hi x) in *. set (b := lo x) in *. set (c := hi y) in *. set (d := lo y) in *. clearbody a b c d.
  rewrite !(wrap_word (_ * _)) by (by apply half_product).
  pose proof (half_product a d Ha Hd) as Had. pose proof (half_product b d Hb Hd) as Hbd.
  pose proof (half_product a c Ha Hc) as Hac. pose proof (half_product b c Hb Hc) as Hbc.
  rewrite !shl_64 by done.
  destruct (hi_lo_spec _ Had) as (Hade & Hadh & Hadl). destruct (hi_lo_spec _ Hbc) as (Hbce & Hbch & Hbcl).
  destruct (overflowing_add_spec (b * d) (lo (a * d) * 2 ^ 64)) as (s0 & c0 & -> & Hs0 & Hc0 & Hs0e);
    [done | unfold word, half_word in *; lia|].
  destruct (overflowing_add_spec s0 (lo (b * c) * 2 ^ 64)) as (s1 & c1 & -> & Hs1 & Hc1 & Hs1e);
    [done | unfold word, half_word in *; lia|].
  assert (x * y = (a * c + hi (a * d) + hi (b * c) + c0 + c1) * 2 ^ 128 + s1) as Heq
    by (rewrite Hxe, Hye; change (2 ^ 128) with (2 ^ 64 * 2 ^ 64) in *; lia).
  assert (word (a * c + hi (a * d) + hi (b * c) + c0 + c1)) as Hsum.
  { unfold word, half_word in *. assert (0 ≤ x * y < 2 ^ 128 * 2 ^ 128) by nia. lia. }
  rewrite (wrap_word (a * c + hi (a * d))), (wrap_word (_ + hi (b * c))), (wrap_word (_ + c0)),
    (wrap_word (_ + c1)) by (unfold word, half_word in *; lia).
  unfold uval, u_ok. cbn [u_hi u_lo]. split; [lia | done].
Qed.

Lemma u256_cmp_spec x y : u_ok x → u_ok y → U256.cmp x y = (uval x ?= uval y).
Proof.
  unfold u_ok, word, U256.cmp, uval. intros [Hx1 Hx0] [Hy1 Hy0].
  destruct (Z.compare_spec (u_hi x) (u_hi y)) as [He| |];
    [destruct (Z.compare_spec (u_lo x) (u_lo y)); symmetry|symmetry..];
    first [apply Z.compare_eq_iff | apply Z.compare_lt_iff | apply Z.compare_gt_iff]; lia.
Qed.

Lemma uval_range x : u_ok x → 0 ≤ uval x < 2 ^ 256.
Proof. unfold u_ok, word, uval. intros [H1 H2]. change (2 ^ 256) with (2 ^ 128 * 2 ^ 128). lia. Qed.

Lemma uval_inj x y : u_ok x → u_ok y → uval x = uval y → x = y.
Proof. unfold u_ok, word, uval. destruct x as [x1 x0], y as [y1 y0]. cbn [u_hi u_lo]. intros. f_equal; lia. Qed.

Lemma u256_add_spec x y :
  u_ok x → u_ok y → uval x + uval y < 2 ^ 256 →
  uval (U256.add x y) = uval x + uval y ∧ u_ok (U256.add x y).
Proof.
  intros [Hx1 Hx0] [Hy1 Hy0] Hlt. unfold U256.add.
  destruct (overflowing_add_spec _ _ Hx0 Hy0) as (s & c & -> & Hs & Hc & Heq).
  unfold uval, u_ok, word in *. cbn [u_hi u_lo]. change (2 ^ 256) with (2 ^ 128 * 2 ^ 128) in Hlt.
  rewrite !wrap_word by (unfold word; rewrite ?wrap_word by (unfold word; lia); lia). lia.
Qed.

Lemma u256_sub_spec x y :
  u_ok x → u_ok y → uval y ≤ uval x →
  uval (U256.sub x y) = uval x - uval y ∧ u_ok (U256.sub x y).
Proof.
  intros [Hx1 Hx0] [Hy1 Hy0] Hle. unfold U256.sub.
  destruct (overflowing_sub_spec _ _ Hx0 Hy0) as (s & c & -> & Hs & Hc & Heq).
  unfold uval, u_ok, word in *. cbn [u_hi u_lo].
  rewrite !wrap_word by (unfold word; rewrite ?wrap_word by (unfold word; lia); lia). lia.
Qed.

Lemma lor_add n a k : 0 ≤ n → 0 ≤ a < 2 ^ n → Z.lor a (k * 2 ^ n) = a + k * 2 ^ n.
Proof.
  intros Hn Ha. symmetry. apply Z.add_nocarry_lor. apply Z.bits_inj'. intros i Hi.
  rewrite Z.land_spec, Z.bits_0. destruct (Z.lt_ge_cases i n).
  - by rewrite Z.mul_pow2_bits_low, andb_false_r.
  - rewrite (proj1 (Z.bounded_iff_bits_nonneg' n a Hn ltac:(lia)) Ha i) by lia. done.
Qed.

Lemma pow2_split n m : 0 ≤ n → 0 ≤ m - n → 2 ^ m = 2 ^ (m - n) * 2 ^ n ∧ 0 < 2 ^ n.
Proof.
  intros Hn Hm. split; [|lia]. rewrite <- Z.pow_add_r by lia. by replace (m - n + n) with m by lia.
Qed.

Lemma unbounded_shr_spec x n : word x → 0 ≤ n → unbounded_shr x n = x / 2 ^ n.
Proof.
  intros Hx Hn. unfold unbounded_shr. destruct (Z.ltb_spec n 128); [by apply Z.shiftr_div_pow2|].
  symmetry. apply Z.div_small. unfold word in Hx. split; [lia|].
  apply Z.lt_le_trans with (2 ^ 128); [lia | apply Z.pow_le_mono_r; lia].
Qed.

(** The part of [x * 2 ^ n] below [2 ^ 128]. *)
Lemma unbounded_shl_spec x n :
  word x → 0 ≤ n ≤ 128 → unbounded_shl x n = (x mod 2 ^ (128 - n)) * 2 ^ n.
Proof.
  intros Hx Hn. destruct (pow2_split n 128) as [Hp Hpos]; [lia..|]. unfold unbounded_shl.
  destruct (Z.ltb_spec n 128).
  - rewrite shl_spec, Hp by lia. by rewrite Z.mul_mod_distr_r by lia.
  - replace n with 128 by lia. rewrite Z.sub_diag, Z.pow_0_r, Z.mod_1_r. lia.
Qed.

Lemma wrap_u32 x : wrap u32 x = x mod 2 ^ 32.
Proof. done. Qed.

Lemma u256_shr_spec x n :
  u_ok x → 0 ≤ n < 2 ^ 32 → uval (U256.shr x n) = uval x / 2 ^ n ∧ u_ok (U256.shr x n).
Proof.
  intros [Hx1 Hx0] Hn.
  enough (uval (U256.shr x n) = uval x / 2 ^ n ∧ word (u_lo (U256.shr x n))) as [Hv Hl].
  { split; [done|]. split; [|done]. unfold U256.shr. cbn [u_hi]. rewrite unbounded_shr_spec by (done || lia).
    unfold word in *. pose proof (Z.pow_pos_nonneg 2 n). split; [by apply Z.div_pos; lia|].
    apply Z.le_lt_trans with (u_hi x); [apply Z.div_le_upper_bound; nia | lia]. }
  unfold U256.shr, uval. cbn [u_hi u_lo]. rewrite !wrap_u32, !(unbounded_shr_spec _ n) by (done || lia).
  destruct (Z.lt_trichotomy n 128) as [Hlt|[->|Hgt]].
  - destruct (pow2_split n 128) as [Hp Hpos]; [lia..|].
    rewrite (Z.mod_small (128 - n)) by lia. rewrite unbounded_shl_spec by (done || lia).
    replace (128 - (128 - n)) with n by lia.
    assert ((n - 128) mod 2 ^ 32 = n - 128 + 2 ^ 32) as -> by (symmetry; apply (Z.mod_unique _ _ (-1)); lia).
    unfold unbounded_shr. rewrite (proj2 (Z.ltb_ge _ 128)), Z.lor_0_r by lia. unfold word in *.
    assert (0 ≤ u_lo x / 2 ^ n < 2 ^ (128 - n)) as Hlo
      by (split; [apply Z.div_pos; lia | apply Z.div_lt_upper_bound; lia]).
    pose proof (Z.mod_pos_bound (u_hi x) (2 ^ n) Hpos) as Hm. rewrite lor_add by lia.
    pose proof (Z.div_mod (u_hi x) (2 ^ n) ltac:(lia)) as Hd.
    replace (u_hi x * 2 ^ 128 + u_lo x) with (u_lo x + (u_hi x * 2 ^ (128 - n)) * 2 ^ n) by (rewrite Hp; ring).
    rewrite Z.div_add by lia. split; [rewrite Hp; rewrite Hd at 3; ring | nia].
  - change ((128 - 128) mod 2 ^ 32) with 0. rewrite unbounded_shl_spec, unbounded_shr_spec by (done || lia).
    unfold word in *. rewrite Z.sub_0_r, Z.pow_0_r, Z.mul_1_r, Z.div_1_r, Z.mod_small by lia.
    rewrite !(Z.div_small _ (2 ^ 128)), Z.lor_0_l, Z.lor_diag by lia.
    rewrite Z.div_add_l, Z.div_small by lia. lia.
  - assert ((128 - n) mod 2 ^ 32 = 128 - n + 2 ^ 32) as -> by (symmetry; apply (Z.mod_unique _ _ (-1)); lia).
    rewrite (Z.mod_small (n - 128)) by lia. unfold unbounded_shl. rewrite (proj2 (Z.ltb_ge _ 128)) by lia.
    rewrite (unbounded_shr_spec _ (n - 128)) by (done || lia). destruct (pow2_split 128 n) as [Hp _]; [lia..|].
    unfold word in *. assert (2 ^ 128 ≤ 2 ^ n) by (apply Z.pow_le_mono_r; lia).
    assert ((u_hi x * 2 ^ 128 + u_lo x) / 2 ^ n = u_hi x / 2 ^ (n - 128)) as ->.
    { rewrite Hp, (Z.mul_comm (2 ^ (n - 128))), <- Z.div_div by lia.
      by rewrite Z.div_add_l, (Z.div_small (u_lo x)), Z.add_0_r by lia. }
    rewrite !(Z.div_small _ (2 ^ n)), !Z.lor_0_l by lia. split; [lia|]. split; [apply Z.div_pos; lia|].
    apply Z.le_lt_trans with (u_hi x); [apply Z.div_le_upper_bound; nia | lia].
Qed.

Lemma isqrt_from_spec oc fuel x :
  u_ok x → u_hi x < 4 ^ (Z.of_nat fuel - 1) → (0 < fuel)%nat →
  U256.isqrt_from oc fuel x = Some (Z.sqrt (uval x)).
Proof.
  revert x. induction fuel as [|fuel IH]; intros x Hok Hhi Hf; [lia|]. cbn [U256.isqrt_from].
  destruct (Z.eqb_spec (u_hi x) 0) as [H0|H0].
  { unfold uval. by rewrite H0. }
  destruct (u256_shr_spec x 2 Hok) as [Hv Hok']; [lia|]. change (2 ^ 2) with 4 in Hv.
  pose proof (uval_range x Hok) as Hr. destruct fuel as [|fuel].
  { destruct Hok as [[]]. change (4 ^ (Z.of_nat 1 - 1)) with 1 in Hhi. lia. }
  rewrite IH; [|done| |lia].
  2:{ replace (Z.of_nat (S (S fuel)) - 1) with (Z.succ (Z.of_nat (S fuel) - 1)) in Hhi by lia.
      rewrite Z.pow_succ_r in Hhi by lia. unfold U256.shr. cbn [u_hi].
      rewrite unbounded_shr_spec by (apply Hok || lia). change (2 ^ 2) with 4. apply Z.div_lt_upper_bound; lia. }
  rewrite Hv. cbn [mbind option_bind]. set (root := Z.sqrt (uval x / 4)).
  pose proof (Z.div_mod (uval x) 4 ltac:(lia)) as Hdiv. pose proof (Z.mod_pos_bound (uval x) 4 ltac:(lia)) as Hmod.
  destruct (Z.sqrt_spec (uval x / 4)) as [Hs1 Hs2]; [lia|]. fold root in Hs1, Hs2.
  assert (0 ≤ root) as Hr0 by apply Z.sqrt_nonneg.
  assert (root < 2 ^ 127) as Hr1 by (change (2 ^ 256) with (4 * (2 ^ 127 * 2 ^ 127)) in Hr; nia).
  rewrite shl_spec, Z.mod_small by lia. rewrite arith_word by (unfold word; lia). cbn [mbind option_bind].
  destruct (from_product_spec (root * 2 ^ 1 + 1) (root * 2 ^ 1 + 1)) as [Hp Hpok]; [unfold word; lia..|].
  rewrite u256_cmp_spec, Hp by done. f_equal. change (2 ^ 1) with 2.
  destruct (Z.compare_spec ((root * 2 + 1) * (root * 2 + 1)) (uval x)); symmetry; apply Z.sqrt_unique; nia.
Qed.

Lemma isqrt_spec oc x : u_ok x → U256.isqrt oc x = Some (Z.sqrt (uval x)).
Proof.
  intros Hok. apply isqrt_from_spec; [done| |lia]. destruct Hok as [[] _].
  change (4 ^ (Z.of_nat 65 - 1)) with (2 ^ 128). done.
Qed.

(** *** Division *)

(** The estimate of a digit of the quotient is at most two too large, and is corrected. *)
Section digit.
Context (vn1 vn0 un32 un : Z).
Let v := vn1 * BASE + vn0.
Let q := (un32 * BASE + un) / v.
Let Hv : v = vn1 * BASE + vn0 := eq_refl.
Hypothesis Hvn1 : BASE ≤ 2 * vn1.
Hypothesis Hvn1' : half_word vn1.
Hypothesis Hvn0 : half_word vn0.
Hypothesis Hun32 : 0 ≤ un32 < v.
Hypothesis Hun : half_word un.

Lemma digit_bound : 0 ≤ q < BASE ∧ v * q ≤ un32 * BASE + un < v * q + v.
Proof.
  unfold half_word in *. change (2 ^ 64) with BASE in *. assert (0 < BASE) by done. assert (0 < v) by lia.
  pose proof (Z.div_mod (un32 * BASE + un) v ltac:(lia)) as Hd.
  pose proof (Z.mod_pos_bound (un32 * BASE + un) v ltac:(lia)) as Hm. fold q in Hd.
  split; [|lia]. split; [apply Z.div_pos; nia | apply Z.div_lt_upper_bound; nia].
Qed.

(** The estimate [q'] with its remainder [r]. *)
Definition estimate (q' r : Z) : Prop :=
  un32 = q' * vn1 + r ∧ q ≤ q' ≤ BASE + 1 ∧ 0 ≤ r < BASE.

Lemma digit_too_large_spec oc q' r :
  estimate q' r →
  ∃ b, U256.digit_too_large oc vn0 un q' r = Some b ∧ if b : bool then q < q' else q' = q.
Proof.
  intros (He & Hq & Hr). destruct digit_bound as [Hqb Hqv]. unfold U256.digit_too_large.
  unfold half_word in *. change (2 ^ 64) with BASE in *.
  destruct (Z.leb_spec BASE q'); [exists true; split; [done | lia]|].
  assert (word (q' * vn0) ∧ word (BASE * r) ∧ word (BASE * r + un)) as (Hw1 & Hw2 & Hw3)
    by (unfold word; change (2 ^ 128) with (BASE * BASE); nia).
  rewrite !arith_word by done. cbn [mbind option_bind]. rewrite arith_word by done. cbn [mbind option_bind].
  eexists. split; [done|].
  assert (q' * v = un32 * BASE + un + (q' * vn0 - (BASE * r + un))) as Hqv' by nia.
  destruct (Z.ltb_spec (BASE * r + un) (q' * vn0)); nia.
Qed.

Lemma correct_digit_spec oc fuel q' r :
  estimate q' r → (2 * BASE ≤ r + (Z.of_nat fuel) * vn1 + vn1) → (0 < fuel)%nat →
  ∃ r', U256.correct_digit oc fuel vn1 vn0 un q' r = Some (q, r').
Proof.
  revert q' r. induction fuel as [|fuel IH]; intros q' r Hest Hf Hpos; [lia|]. cbn [U256.correct_digit].
  destruct (digit_too_large_spec oc q' r Hest) as ([] & -> & Hq); cbn [mbind option_bind]; [|subst q'; by eexists].
  destruct digit_bound as [Hqb Hqv]. destruct Hest as (He & Hqq & Hr).
  unfold half_word in *. change (2 ^ 64) with BASE in *. assert (0 < BASE) by done.
  rewrite !arith_word by (unfold word; change (2 ^ 128) with (BASE * BASE); change BASE with (2 ^ 64) in *; lia).
  cbn [mbind option_bind]. destruct (Z.leb_spec BASE (r + vn1)).
  - exists (r + vn1). do 2 f_equal. assert ((q' - 1) * v ≤ un32 * BASE + un) by nia. nia.
  - apply IH; [|lia|lia]. unfold estimate. lia.
Qed.

Lemma quotient_digit_spec oc : U256.quotient_digit oc vn1 vn0 un32 un = Some q.
Proof.
  destruct digit_bound as [Hqb Hqv]. unfold U256.quotient_digit.
  unfold half_word in *. change (2 ^ 64) with BASE in *. assert (0 < BASE) by done.
  rewrite (proj2 (Z.eqb_neq vn1 0)) by lia. cbn [negb].
  pose proof (Z.div_mod un32 vn1 ltac:(lia)) as Hd. pose proof (Z.mod_pos_bound un32 vn1 ltac:(lia)) as Hm.
  assert (0 ≤ un32 / vn1) by (apply Z.div_pos; lia).
  rewrite arith_word by (unfold word; change (2 ^ 128) with (BASE * BASE); nia). cbn [mbind option_bind].
  rewrite arith_word by (unfold word; change (2 ^ 128) with (BASE * BASE); nia). cbn [mbind option_bind].
  destruct (correct_digit_spec oc 3 (un32 / vn1) (un32 - un32 / vn1 * vn1)) as [r' ->]; [|lia|lia|done].
  assert (q ≤ un32 / vn1).
  { apply Z.div_le_lower_bound; [lia|]. assert (q * v ≤ un32 * BASE + un) by lia. nia. }
  assert (un32 / vn1 < BASE + 2) by (apply Z.div_lt_upper_bound; lia).
  unfold estimate. lia.
Qed.
End digit.

(** A word shifted left until its top bit is set. *)
Lemma leading_zeros_spec v :
  0 < v < 2 ^ 128 → 0 ≤ leading_zeros v ≤ 127 ∧ 2 ^ 127 ≤ v * 2 ^ leading_zeros v < 2 ^ 128.
Proof.
  intros Hv. unfold leading_zeros. rewrite (proj2 (Z.eqb_neq v 0)) by lia.
  destruct (Z.log2_spec v ltac:(lia)) as [H1 H2]. pose proof (Z.log2_nonneg v) as H0.
  assert (Z.log2 v ≤ 127) by (apply Z.lt_succ_r, Z.log2_lt_pow2; lia).
  split; [lia|]. rewrite Z.pow_succ_r in H2 by lia.
  destruct (pow2_split (Z.log2 v) 127) as [Hp Hpos]; [lia..|].
  assert (0 < 2 ^ (127 - Z.log2 v)) by lia. change (2 ^ 128) with (2 * 2 ^ 127). nia.
Qed.

(** The words of [x * 2 ^ s] when it stays below [v * 2 ^ 128]. *)
Lemma shifted_words x v s :
  u_ok x → u_hi x < v → 0 ≤ s ≤ 127 → v * 2 ^ s < 2 ^ 128 →
  let un32 := Z.lor (shl (u_hi x) s) (unbounded_shr (u_lo x) (128 - s)) in
  let un10 := shl (u_lo x) s in
  uval x * 2 ^ s = un32 * 2 ^ 128 + un10 ∧ 0 ≤ un32 < v * 2 ^ s ∧ word un10.
Proof.
  intros [Hx1 Hx0] Hlt Hs Hv un32 un10. subst un32 un10.
  destruct (pow2_split s 128) as [Hp Hpos]; [lia..|]. unfold uval.
  rewrite unbounded_shr_spec by (done || lia).
  assert (shl (u_lo x) s = (u_lo x mod 2 ^ (128 - s)) * 2 ^ s) as ->.
  { rewrite <- unbounded_shl_spec by (done || lia). unfold unbounded_shl. by rewrite (proj2 (Z.ltb_lt s 128)) by lia. }
  unfold word in *. rewrite (shl_spec (u_hi x)), (Z.mod_small (u_hi x * 2 ^ s)) by nia.
  assert (0 < 2 ^ (128 - s)) as Hpos' by lia.
  pose proof (Z.div_mod (u_lo x) (2 ^ (128 - s)) ltac:(lia)) as Hd.
  pose proof (Z.mod_pos_bound (u_lo x) (2 ^ (128 - s)) Hpos') as Hm.
  assert (0 ≤ u_lo x / 2 ^ (128 - s) < 2 ^ s) as Hq
    by (split; [apply Z.div_pos; lia | apply Z.div_lt_upper_bound; lia]).
  rewrite Z.lor_comm, lor_add by lia. split; [rewrite Hp; rewrite Hd at 1; ring|]. nia.
Qed.

(** Long division by one digit after the other. *)
Lemma two_digits b v un32 un1 un0 :
  0 < v → 0 < b →
  let q1 := (un32 * b + un1) / v in
  let un21 := un32 * b + un1 - q1 * v in
  0 ≤ un21 < v ∧ q1 * b + (un21 * b + un0) / v = (un32 * (b * b) + (un1 * b + un0)) / v.
Proof.
  intros Hv Hb q1 un21. pose proof (Z.div_mod (un32 * b + un1) v ltac:(lia)) as Hd.
  pose proof (Z.mod_pos_bound (un32 * b + un1) v Hv) as Hm. fold q1 in Hd.
  assert (0 ≤ un21 < v) as Hun by (subst un21; lia). split; [done|].
  rewrite Z.add_comm, <- Z.div_add by lia. f_equal. subst un21. ring.
Qed.

Lemma u256_narrowing_div_spec oc x v :
  u_ok x → word v →
  U256.narrowing_div oc x v = Some (if v =? 0 then None else checked u128 (uval x / v)).
Proof.
  intros Hok Hv. pose proof Hok as [Hx1 Hx0]. unfold U256.narrowing_div, checked.
  destruct (Z.eqb_spec v 0) as [|Hv0]; [done|].
  destruct (Z.eqb_spec (u_hi x) 0) as [H0|H0].
  { unfold uval. rewrite H0, Z.mul_0_l, Z.add_0_l, (proj2 (word_in_range _)); [done|].
    unfold word in *. split; [apply Z.div_pos; lia|]. apply Z.le_lt_trans with (u_lo x); [apply Z.div_le_upper_bound; nia | lia]. }
  destruct (Z.leb_spec v (u_hi x)) as [Hge|Hlt].
  { destruct (in_range u128 (uval x / v)) eqn:Hr; [|done]. exfalso. apply word_in_range in Hr. unfold word, uval in *.
    enough (2 ^ 128 ≤ (u_hi x * 2 ^ 128 + u_lo x) / v) by lia. apply Z.div_le_lower_bound; nia. }
  destruct (leading_zeros_spec v) as [Hs Hn]; [unfold word in Hv; lia|].
  destruct (shifted_words x v (leading_zeros v) Hok Hlt Hs ltac:(lia)) as (Hu & Hun32 & Hun10).
  set (s := leading_zeros v) in *. assert (shl v s = v * 2 ^ s) as -> by (rewrite shl_spec, Z.mod_small; lia).
  set (v' := v * 2 ^ s) in *. set (un32 := Z.lor _ _) in *. set (un10 := shl (u_lo x) s) in *. unfold hi_lo.
  destruct (hi_lo_spec v') as (Hve & Hvn1 & Hvn0); [unfold word; lia|].
  destruct (hi_lo_spec un10 Hun10) as (Hune & Hun1 & Hun0). change (2 ^ 64) with BASE in *.
  assert (BASE ≤ 2 * hi v') as Hnorm by (unfold half_word in *; change BASE with (2 ^ 64) in *; lia).
  rewrite (quotient_digit_spec _ _ _ _ Hnorm Hvn1 Hvn0) by (done || (rewrite <- Hve; lia)).
  cbn [mbind option_bind]. rewrite <- Hve.
  destruct (two_digits BASE v' un32 (hi un10) (lo un10)) as [Hun21 Hq]; [lia | done|].
  destruct (digit_bound _ _ un32 _ Hnorm Hvn1 Hvn0 ltac:(rewrite <- Hve; lia) Hun1) as [Hq1 _]. rewrite <- Hve in Hq1.
  set (q1 := (un32 * BASE + hi un10) / v') in *.
  assert (wrap u128 (wrap u128 (wrap u128 (un32 * BASE) + hi un10) - wrap u128 (q1 * v'))
          = un32 * BASE + hi un10 - q1 * v') as ->.
  { rewrite (wrap_add_l u128) by done. rewrite !wrap_u128, <- Zminus_mod, Z.mod_small by lia. done. }
  rewrite (quotient_digit_spec _ _ _ _ Hnorm Hvn1 Hvn0) by (done || (rewrite <- Hve; lia)).
  cbn [mbind option_bind]. rewrite <- Hve.
  destruct (digit_bound _ _ (un32 * BASE + hi un10 - q1 * v') _ Hnorm Hvn1 Hvn0
    ltac:(rewrite <- Hve; exact Hun21) Hun0) as [Hq0 _]. rewrite <- Hve in Hq0.
  set (q0 := (_ * BASE + lo un10) / v') in *. unfold word in *. change (2 ^ 128) with (BASE * BASE) in *.
  rewrite arith_word by (unfold word; change (2 ^ 128) with (BASE * BASE); nia). cbn [mbind option_bind].
  rewrite arith_word by (unfold word; change (2 ^ 128) with (BASE * BASE); nia). cbn [mbind option_bind].
  assert (q1 * BASE + q0 = uval x / v) as Heq.
  { rewrite Hq, <- Hune, <- Hu. unfold v'. apply Z.div_mul_cancel_r; lia. }
  rewrite Heq in *. rewrite (proj2 (word_in_range _)); [done|]. unfold word. change (2 ^ 128) with (BASE * BASE). nia.
Qed.

Lemma ilog10_spec x : 0 < x < 10 ^ 39 → 0 ≤ ilog10 x ≤ 38 ∧ 10 ^ ilog10 x ≤ x < 10 ^ (ilog10 x + 1).
Proof.
  intros Hx. unfold ilog10.
  enough (∀ fuel x, 0 < x < 10 ^ Z.of_nat fuel →
    0 ≤ ilog10_from fuel x < Z.of_nat fuel
    ∧ 10 ^ ilog10_from fuel x ≤ x < 10 ^ (ilog10_from fuel x + 1)) as Hgen
    by (destruct (Hgen 39%nat x Hx); lia).
  clear x Hx. induction fuel as [|fuel IH]; intros x Hx; [cbn in Hx; lia|]. cbn [ilog10_from].
  destruct (Z.ltb_spec x 10); [cbn -[Z.of_nat]; lia|].
  rewrite Nat2Z.inj_succ, Z.pow_succ_r in Hx by lia.
  pose proof (Z.div_mod x 10 ltac:(lia)) as Hd. pose proof (Z.mod_pos_bound x 10 ltac:(lia)) as Hm.
  destruct (IH (x / 10)) as [Hl [H1 H2]]; [lia|]. split; [lia|].
  rewrite (Z.add_comm 1), !Z.pow_add_r in * by lia. change (10 ^ 1) with 10 in *. lia.
Qed.

(** [x] shifted right by [k] digits. *)
Lemma reduce_to_u128_spec oc x :
  u_ok x → u_hi x < 10 ^ 38 →
  ∃ k, U256.reduce_to_u128 oc x = Some (uval x / 10 ^ k, k)
       ∧ 0 ≤ k ≤ 38 ∧ word (uval x / 10 ^ k) ∧ (0 < k → 2 ^ 128 ≤ uval x / 10 ^ (k - 1)).
Proof.
  intros Hok Hhi. pose proof Hok as [Hx1 Hx0]. unfold U256.reduce_to_u128, uval, word in *.
  destruct (Z.ltb_spec 0 (u_hi x)) as [Hpos|Hz].
  - destruct (ilog10_spec (u_hi x)) as [Hl [H1 H2]]; [lia|].
    assert (ilog10 (u_hi x) < 38) as Hk by (apply (Z.pow_lt_mono_r_iff 10); lia).
    set (k := ilog10 (u_hi x) + 1) in *. exists k. pose proof (pow10_bound k ltac:(lia)) as Hp.
    rewrite pow10_Some by lia. cbn [mbind option_bind].
    rewrite u256_narrowing_div_spec by (done || (unfold word; lia)).
    rewrite (proj2 (Z.eqb_neq _ 0)) by lia. cbn [mbind option_bind]. unfold uval, checked.
    assert (word ((u_hi x * 2 ^ 128 + u_lo x) / 10 ^ k)) as Hw
      by (unfold word; split; [apply Z.div_pos; lia | apply Z.div_lt_upper_bound; nia]).
    rewrite (proj2 (word_in_range _) Hw). cbn [mbind option_bind]. split_and!; [done | lia | lia | apply Hw | apply Hw |].
    intros _. replace (k - 1) with (ilog10 (u_hi x)) by lia.
    apply Z.div_le_lower_bound; [apply Z.pow_pos_nonneg; lia | nia].
  - exists 0. replace (u_hi x) with 0 by lia. rewrite Z.mul_0_l, Z.add_0_l, Z.pow_0_r, Z.div_1_r.
    split_and!; [done | lia..].
Qed.

(** *** Signed *)

Definition ival (x : I256) : Z := if i_negative x then - uval (i_value x) else uval (i_value x).
Definition i_ok (x : I256) : Prop := u_ok (i_value x).
Definition sword (x : Z) : Prop := - 2 ^ 127 ≤ x < 2 ^ 127.

Lemma sword_in_range x : in_range i128 x = true ↔ sword x.
Proof. rewrite in_range_spec. destruct i128_range as [-> ->]. unfold sword. lia. Qed.

Lemma arith_sword oc x : sword x → arith oc i128 x = Some x.
Proof. intros Hx. apply arith_ok. by apply sword_in_range. Qed.

Lemma abs_word x : sword x → word (Z.abs x).
Proof. unfold sword, word. lia. Qed.

Lemma i256_from_product_spec x y :
  sword x → sword y →
  ival (I256.from_product x y) = x * y ∧ i_ok (I256.from_product x y).
Proof.
  intros Hx Hy. destruct (from_product_spec (Z.abs x) (Z.abs y)) as [Hv Hok]; [by apply abs_word..|].
  split; [|done]. unfold ival, I256.from_product. cbn [i_value i_negative]. rewrite Hv, <- Z.abs_mul.
  destruct (Z.ltb_spec x 0), (Z.ltb_spec y 0); cbn [xorb]; nia.
Qed.

Lemma i256_from_spec x : sword x → ival (I256.from x) = x ∧ i_ok (I256.from x).
Proof.
  intros Hx. unfold ival, I256.from, i_ok, U256.from, uval, u_ok. cbn [i_value i_negative u_hi u_lo].
  unfold sword, word in *. destruct (Z.ltb_spec x 0); lia.
Qed.

Lemma i256_is_negative_spec x : i_ok x → I256.is_negative x = (ival x <? 0).
Proof.
  intros Hok. unfold I256.is_negative, ival. pose proof (uval_range _ Hok) as Hr.
  rewrite u256_cmp_spec by (done || (split; unfold word; cbn; lia)). change (uval U256.ZERO) with 0.
  destruct (i_negative x), (Z.compare_spec (uval (i_value x)) 0); cbn; symmetry; first [apply Z.ltb_lt | apply Z.ltb_ge]; lia.
Qed.

Lemma i256_cmp_spec x y : i_ok x → i_ok y → I256.cmp x y = (ival x ?= ival y).
Proof.
  intros Hx Hy. unfold I256.cmp. rewrite !i256_is_negative_spec, !u256_cmp_spec by done.
  pose proof (uval_range _ Hx). pose proof (uval_range _ Hy). unfold ival.
  destruct (i_negative x), (i_negative y);
    repeat match goal with |- context [?a <? 0] => destruct (Z.ltb_spec a 0) end;
    repeat match goal with |- context [?a ?= ?b] => destruct (Z.compare_spec a b) end; done || lia.
Qed.

Lemma i256_eq_spec x y : i_ok x → i_ok y → I256.eq x y = (ival x =? ival y).
Proof.
  intros Hx Hy. unfold I256.eq. rewrite !i256_is_negative_spec, !u256_cmp_spec by done.
  pose proof (uval_range _ Hx). pose proof (uval_range _ Hy). unfold ival.
  destruct (i_negative x), (i_negative y);
    repeat match goal with |- context [?a <? 0] => destruct (Z.ltb_spec a 0) end;
    match goal with |- context [?a ?= ?b] => destruct (Z.compare_spec a b) end; cbn;
    match goal with |- context [?a =? ?b] => destruct (Z.eqb_spec a b) end; done || lia.
Qed.

Lemma i256_add_spec x y :
  i_ok x → i_ok y → uval (i_value x) + uval (i_value y) < 2 ^ 256 →
  ival (I256.add x y) = ival x + ival y ∧ i_ok (I256.add x y).
Proof.
  intros Hx Hy Hlt. unfold I256.add. destruct (Bool.eqb_spec (i_negative x) (i_negative y)) as [He|Hne].
  - destruct (u256_add_spec _ _ Hx Hy Hlt) as [Hv Hok]. unfold ival. cbn [i_value i_negative]. rewrite Hv, <- He.
    split; [destruct (i_negative x); lia | done].
  - rewrite u256_cmp_spec by done. destruct (Z.compare_spec (uval (i_value y)) (uval (i_value x))).
    1,2: destruct (u256_sub_spec _ _ Hx Hy) as [Hv Hok]; [lia|].
    3: destruct (u256_sub_spec _ _ Hy Hx) as [Hv Hok]; [lia|].
    all: unfold ival; cbn [i_value i_negative]; rewrite Hv; split; [|done];
      destruct (i_negative x), (i_negative y); done || lia.
Qed.

(** The quotient toward zero from the quotient of the absolute values. *)
Lemma quot_sign n u (v : Z) :
  0 ≤ u → v ≠ 0 →
  Z.quot (if n : bool then - u else u) v
  = if xorb n (v <? 0) then - (u / Z.abs v) else u / Z.abs v.
Proof.
  intros Hu Hv. assert (u / Z.abs v = Z.quot u (Z.abs v)) as -> by (symmetry; apply Z.quot_div_nonneg; lia).
  destruct (Z.ltb_spec v 0), n; cbn [xorb];
    rewrite ?(Z.abs_neq v), ?(Z.abs_eq v), ?Z.quot_opp_l, ?Z.quot_opp_r by lia; lia.
Qed.

Lemma i256_narrowing_div_spec oc x v :
  i_ok x → sword v →
  I256.narrowing_div oc x v
  = Some (if v =? 0 then None
          else if Z.abs (Z.quot (ival x) v) <=? MAX i128 then Some (Z.quot (ival x) v) else None).
Proof.
  intros Hok Hv. unfold I256.narrowing_div. rewrite u256_narrowing_div_spec by (done || by apply abs_word).
  cbn [mbind option_bind]. destruct (Z.eqb_spec v 0) as [->|Hv0]; [done|].
  rewrite (proj2 (Z.eqb_neq (Z.abs v) 0)) by lia. pose proof (uval_range _ Hok) as Hr.
  unfold ival. rewrite quot_sign by lia. set (q := uval (i_value x) / Z.abs v).
  assert (0 ≤ q) as Hq by (apply Z.div_pos; lia).
  assert (Z.abs (if xorb (i_negative x) (v <? 0) then - q else q) = q) as -> by (destruct (xorb _ _); lia).
  destruct i128_range as [_ Hmax]. rewrite Hmax. destruct (Z.leb_spec q (2 ^ 127 - 1)) as [Hle|Hgt].
  - unfold checked. rewrite (proj2 (word_in_range q)) by (unfold word; lia). cbn [mbind option_bind].
    rewrite (proj2 (sword_in_range q)) by (unfold sword; lia).
    destruct (xorb _ _); [|done]. by rewrite arith_sword by (unfold sword; lia).
  - assert (checked u128 q ≫= checked i128 = None) as ->; [|done]. unfold checked.
    destruct (in_range u128 q); [|done]. cbn [mbind option_bind].
    destruct (in_range i128 q) eqn:Hi; [|done]. apply sword_in_range in Hi. unfold sword in Hi. lia.
Qed.

Lemma i256_checked_isqrt_spec oc x :
  i_ok x →
  I256.checked_isqrt oc x = Some (if ival x <? 0 then None else checked i128 (Z.sqrt (ival x))).
Proof.
  intros Hok. unfold I256.checked_isqrt. rewrite i256_is_negative_spec, isqrt_spec by done.
  destruct (Z.ltb_spec (ival x) 0) as [|Hge]; [done|]. cbn [mbind option_bind]. do 2 f_equal.
  unfold ival in *. pose proof (uval_range _ Hok). destruct (i_negative x); [|done].
  by replace (uval (i_value x)) with 0 by lia.
Qed.

Lemma reduce_to_i128_spec oc x :
  i_ok x → u_hi (i_value x) < 10 ^ 38 →
  ∃ k, I256.reduce_to_i128 oc x = Some (Z.quot (ival x) (10 ^ k), k)
       ∧ 0 ≤ k ≤ 39 ∧ Z.abs (Z.quot (ival x) (10 ^ k)) ≤ MAX i128
       ∧ (0 < k → MAX i128 < Z.abs (Z.quot (ival x) (10 ^ (k - 1)))).
Proof.
  intros Hok Hhi. unfold I256.reduce_to_i128.
  destruct (reduce_to_u128_spec oc _ Hok Hhi) as (k & -> & Hk & Hw & Hmin). cbn [mbind option_bind].
  pose proof (uval_range _ Hok) as Hr. destruct i128_range as [_ Hmax]. rewrite Hmax.
  assert (∀ j, 0 ≤ j → Z.quot (ival x) (10 ^ j)
    = if i_negative x then - (uval (i_value x) / 10 ^ j) else uval (i_value x) / 10 ^ j) as Hquot.
  { intros j Hj. pose proof (Z.pow_pos_nonneg 10 j). unfold ival. rewrite quot_sign by lia.
    rewrite (proj2 (Z.ltb_ge _ 0)), Z.abs_eq by lia. by destruct (i_negative x). }
  assert (∀ j, 0 ≤ j → Z.abs (Z.quot (ival x) (10 ^ j)) = uval (i_value x) / 10 ^ j) as Habs.
  { intros j Hj. rewrite Hquot by done. assert (0 ≤ uval (i_value x) / 10 ^ j) by (apply Z.div_pos; lia).
    destruct (i_negative x); lia. }
  unfold word in Hw. destruct (Z.leb_spec (uval (i_value x) / 10 ^ k) (2 ^ 127 - 1)) as [Hle|Hgt].
  - exists k. rewrite wrap_id by (done || (apply sword_in_range; unfold sword; lia)).
    rewrite Habs, Hquot by lia. split_and!; try lia.
    + destruct (i_negative x); [|done]. by rewrite arith_sword by (unfold sword; lia).
    + intros Hpos. rewrite Habs by lia. specialize (Hmin Hpos). lia.
  - exists (k + 1). assert (uval (i_value x) / 10 ^ k / 10 = uval (i_value x) / 10 ^ (k + 1)) as Hd.
    { rewrite Z.pow_add_r by lia. change (10 ^ 1) with 10. apply Z.div_div; lia. }
    assert (0 ≤ uval (i_value x) / 10 ^ (k + 1) < 2 ^ 127) as Hb
      by (rewrite <- Hd; split; [apply Z.div_pos | apply Z.div_lt_upper_bound]; lia).
    rewrite Hd, wrap_id by (done || (apply sword_in_range; unfold sword; lia)).
    rewrite Habs, Hquot by lia. split_and!; try lia.
    + destruct (i_negative x); [|done]. by rewrite arith_sword by (unfold sword; lia).
    + intros _. replace (k + 1 - 1) with k by lia. rewrite Habs by lia. lia.
Qed.

Example narrowing_div_runs :
  U256.narrowing_div true (U256.from_product (10 ^ 37 + 3) (7 * 10 ^ 30 + 1)) (7 * 10 ^ 30 + 1)
  = Some (Some (10 ^ 37 + 3)).
Proof. vm_compute. done. Qed.

Example isqrt_runs :
  U256.isqrt true (U256.from_product (2 ^ 127 + 5) (2 ^ 127 + 5)) = Some (2 ^ 127 + 5).
Proof. vm_compute. done. Qed.
