(* ===== verification/FxpFixed.v ===== *)
(** Decimal numbers with fixed precision and scale (crates/fxp/src/fixed.rs): construction, comparison,
    arithmetic, rounding and conversions. *)
From S2P Require Import Prelude Machine Fxp FxpU256.
#[local] Open Scope Z_scope.

(** ** Data *)

(** [Fixed<P, S>]: the number [f_val / 10 ^ S]. *)
Record Fixed (P S : Z) := MkFixed { f_val : Z }.
#[global] Arguments MkFixed {P S}.
#[global] Arguments f_val {P S}.

(** The largest value; the smallest is its negation. *)
Definition fixed_MAX (P : Z) : Z := 10 ^ P - 1.

(** [S.cmp(&S1)] with subtraction at usize: [saturating_sub]. *)
Definition usub (x y : Z) : Z := Z.max 0 (x - y).

Section fixed.
Context {P S : Z}.
Notation Self := (Fixed P S).

Definition scale : option Z := pow10 S.

Definition try_new (value : Z) : option Self :=
  if (- fixed_MAX P <=? value) && (value <=? fixed_MAX P) then Some (MkFixed value) else None.

(** [value * 10 ** exponent], rounding toward zero. *)
Definition mul_pow10 (value exponent : Z) : option Z :=
  match exponent ?= 0 with
  | Lt =>
      match checked_pow10 (Z.abs exponent) with
      | Some divisor => Some (Z.quot value divisor)
      | None => Some 0
      end
  | Eq => Some value
  | Gt => m ← checked_pow10 exponent; checked i128 (value * m)
  end.

Definition try_new_with_exponent (value exponent : Z) : option Self :=
  mul_pow10 value exponent ≫= try_new.

Definition new (value scale : Z) : option Self :=
  try_new_with_exponent value (saturating_sub i32 S scale).

(** Exact, as values are within the range of the type. *)
Definition abs (self : Self) : Self := MkFixed (Z.abs (f_val self)).
Definition is_negative (self : Self) : bool := f_val self <? 0.
Definition neg (self : Self) : Self := MkFixed (- f_val self).
Definition checked_div_integer (self other : Self) : option Z :=
  if f_val other =? 0 then None else checked i128 (Z.quot (f_val self) (f_val other)).

(** [PartialEq] with an integer. *)
Definition eq_int (self : Self) (other : Z) : option bool :=
  s ← scale; Some ((Z.rem (f_val self) s =? 0) && (Z.quot (f_val self) s =? other)).

Definition next_up (self : Self) : option Self :=
  if f_val self <? fixed_MAX P then Some (MkFixed (f_val self + 1)) else None.
Definition next_down (self : Self) : option Self :=
  if - fixed_MAX P <? f_val self then Some (MkFixed (f_val self - 1)) else None.

(** *** Conversions to integers *)

Definition max_i128 : Z := if S <? P then 10 ^ (P - S) - 1 else 0.

Definition to_i128 (self : Self) : option Z := s ← scale; Some (Z.quot (f_val self) s).

(** [TryFrom<Fixed<P, S>>] for an integer type. *)
Definition try_to_int (t : int_ty) (self : Self) : option (option Z) :=
  v ← to_i128 self; Some (checked t v).

(** *** Unsigned encoding *)

Definition UNSIGNED_ZERO : Z := 10 ^ P - 1.
Definition UNSIGNED_MAX : Z := 10 ^ P * 2 - 2.

Definition to_unsigned_encoding (self : Self) : option Z := checked u128 (UNSIGNED_ZERO + f_val self).

Definition from_unsigned_encoding (encoding : Z) : option Self :=
  if encoding <? UNSIGNED_ZERO then Some (MkFixed (- (UNSIGNED_ZERO - encoding)))
  else if encoding <=? UNSIGNED_MAX then Some (MkFixed (encoding - UNSIGNED_ZERO))
  else None.

(** *** Operations with plain arithmetic *)

Section ops.
Context (oc : bool).

Definition try_from_i128 (value : Z) : option (option Self) :=
  if Z.abs value <=? max_i128 then s ← scale; v ← arith oc i128 (value * s); Some (Some (MkFixed v)) else Some None.

(** [for_i64] and its variants: [digits] is the bound the type is checked against. *)
Definition for_int (digits value : Z) : option Self :=
  assert! (digits <=? usub P S) in
  s ← scale; v ← arith oc i128 (value * s); Some (MkFixed v).
Definition for_i64 : Z → option Self := for_int 19.
Definition for_u64 : Z → option Self := for_int 19.
Definition for_i32 : Z → option Self := for_int 10.
Definition for_u32 : Z → option Self := for_int 10.
Definition for_i16 : Z → option Self := for_int 5.
Definition for_u16 : Z → option Self := for_int 5.
Definition for_i8 : Z → option Self := for_int 3.
Definition for_u8 : Z → option Self := for_int 3.

Definition try_new_with_exponent_round_even (value exponent : Z) : option (option Self) :=
  r ← i128_mul_pow10_round_even oc value exponent; Some (r ≫= try_new).

Definition new_round_even (value scale : Z) : option (option Self) :=
  try_new_with_exponent_round_even value (saturating_sub i32 S scale).

Definition checked_round (self : Self) (n : Z) : option (option Self) :=
  r ← round_inner oc (f_val self) S n AwayFromZero; Some (r ≫= try_new).

Definition checked_round_ties_even (self : Self) (n : Z) : option (option Self) :=
  r ← round_inner oc (f_val self) S n Even; Some (r ≫= try_new).

Definition checked_floor (self : Self) : option (option Self) :=
  if 0 <? S then
    s ← scale; d ← div_floor oc (f_val self) s; v ← arith oc i128 (d * s); Some (try_new v)
  else Some (Some self).

Definition checked_ceil (self : Self) : option (option Self) :=
  if 0 <? S then
    s ← scale; d ← div_ceil oc (f_val self) s; v ← arith oc i128 (d * s); Some (try_new v)
  else Some (Some self).

Definition trunc (self : Self) : option Self :=
  s ← scale; v ← arith oc i128 (Z.quot (f_val self) s * s); Some (MkFixed v).

Definition trunc_digits (self : Self) (digits : Z) : option Self :=
  let exponent := saturating_sub i32 S digits in
  if exponent <=? 0 then Some self
  else match checked_pow10 exponent with
       | Some divisor => v ← arith oc i128 (Z.quot (f_val self) divisor * divisor); Some (MkFixed v)
       | None => Some (MkFixed 0)
       end.

Definition checked_sqrt (self : Self) : option (option Self) :=
  s ← scale;
  r ← I256.checked_isqrt oc (I256.from_product (f_val self) s);
  Some (option_map MkFixed r).
End ops.
End fixed.

(** [int_floor] and [int_ceil]: the result has scale 0. *)
Definition int_floor {P S} (oc : bool) (self : Fixed P S) : option (Fixed P 0) :=
  if 0 <? S then
    s ← scale (S := S); d ← div_floor oc (f_val self) s; new d 0
  else new (f_val self) S.

Definition int_ceil {P S} (oc : bool) (self : Fixed P S) : option (Fixed P 0) :=
  if 0 <? S then
    s ← scale (S := S); d ← div_ceil oc (f_val self) s; new d 0
  else new (f_val self) S.

(** ** Operations on two types *)

Section two.
Context {P0 S0 P1 S1 : Z}.

Definition eq (self : Fixed P0 S0) (other : Fixed P1 S1) : option bool :=
  match S0 ?= S1 with
  | Lt => m ← pow10 (S1 - S0);
          Some (I256.eq (I256.from_product (f_val self) m) (I256.from (f_val other)))
  | Eq => Some (f_val self =? f_val other)
  | Gt => m ← pow10 (S0 - S1);
          Some (I256.eq (I256.from (f_val self)) (I256.from_product (f_val other) m))
  end.

Definition partial_cmp (self : Fixed P0 S0) (other : Fixed P1 S1) : option comparison :=
  match S0 ?= S1 with
  | Lt => m ← pow10 (S1 - S0);
          Some (I256.cmp (I256.from_product (f_val self) m) (I256.from (f_val other)))
  | Eq => Some (f_val self ?= f_val other)
  | Gt => m ← pow10 (S0 - S1);
          Some (I256.cmp (I256.from (f_val self)) (I256.from_product (f_val other) m))
  end.

Definition convert (self : Fixed P0 S0) : option (Fixed P1 S1) :=
  try_new_with_exponent (f_val self) (S1 - S0).

Definition convert_round_even (oc : bool) (self : Fixed P0 S0) : option (option (Fixed P1 S1)) :=
  try_new_with_exponent_round_even oc (f_val self) (S1 - S0).

Definition checked_sign_generic (self : Fixed P0 S0) : option (option (Fixed P1 S1)) :=
  one ← scale (S := S1);
  Some (match f_val self ?= 0 with
        | Eq => Some (MkFixed 0)
        | Lt => if S1 <? P1 then Some (MkFixed (- one)) else None
        | Gt => if S1 <? P1 then Some (MkFixed one) else None
        end).
End two.

Section three.
Context (oc : bool) {P0 S0 P1 S1 P2 S2 : Z}.

(** The addition of [small], at the smaller scale [s], to [large], at the scale [l]. *)
Definition add_scaled (small s large l : Z) : option (option (Fixed P2 S2)) :=
  factor ← pow10 (l - s);
  if small <=? Z.quot (Z.quot (MAX i128) factor) 10 then
    x ← arith oc i128 (small * factor);
    Some (sum ← checked i128 (large + x); try_new_with_exponent sum (S2 - l))
  else
    p ← pow10 (usub S2 l);
    r ← I256.narrowing_div oc (I256.add (I256.from_product small factor) (I256.from large)) p;
    Some (result ← r; try_new_with_exponent result (usub l S2)).

Definition checked_add_generic (self : Fixed P0 S0) (other : Fixed P1 S1)
    : option (option (Fixed P2 S2)) :=
  match S0 ?= S1 with
  | Lt => add_scaled (f_val self) S0 (f_val other) S1
  | Eq => Some (sum ← checked i128 (f_val self + f_val other); try_new_with_exponent sum (S2 - S0))
  | Gt => add_scaled (f_val other) S1 (f_val self) S0
  end.

Definition checked_mul_generic (self : Fixed P0 S0) (other : Fixed P1 S1)
    : option (option (Fixed P2 S2)) :=
  p ← pow10 (usub (S0 + S1) S2);
  r ← I256.narrowing_div oc (I256.from_product (f_val self) (f_val other)) p;
  Some (result ← r; try_new_with_exponent result (usub S2 (S0 + S1))).

Definition checked_div_generic (self : Fixed P0 S0) (other : Fixed P1 S1)
    : option (option (Fixed P2 S2)) :=
  zero ← eq_int other 0;
  if (zero : bool) then Some None
  else
    let shift_left := usub (S1 + S2) S0 in
    if 38 <? shift_left then Some None
    else
      m ← pow10 shift_left;
      r ← I256.narrowing_div oc (I256.from_product (f_val self) m) (f_val other);
      Some (result ← r; try_new_with_exponent result (usub S0 (S1 + S2))).
End three.

Definition checked_sub_generic (oc : bool) {P0 S0 P1 S1 P2 S2} (self : Fixed P0 S0) (other : Fixed P1 S1)
    : option (option (Fixed P2 S2)) :=
  checked_add_generic oc self (neg other).

(** The operators of one type. *)
Definition checked_add (oc : bool) {P S} (self other : Fixed P S) : option (option (Fixed P S)) :=
  checked_add_generic oc self other.
Definition checked_sub (oc : bool) {P S} (self other : Fixed P S) : option (option (Fixed P S)) :=
  checked_sub_generic oc self other.
Definition checked_mul (oc : bool) {P S} (self other : Fixed P S) : option (option (Fixed P S)) :=
  checked_mul_generic oc self other.
Definition checked_div (oc : bool) {P S} (self other : Fixed P S) : option (option (Fixed P S)) :=
  checked_div_generic oc self other.

Definition checked_recip (oc : bool) {P S} (self : Fixed P S) : option (option (Fixed P S)) :=
  if S <? P then s ← scale (S := S); checked_div oc (MkFixed s) self else Some None.

(** [None] inside is [?]. *)
Definition checked_rem (oc : bool) {P S P0 S0 P1 S1} (self : Fixed P S) (other : Fixed P0 S0)
    : option (option (Fixed P1 S1)) :=
  let left := abs self in
  let right := abs other in
  div ← (checked_div_generic oc left right : option (option (Fixed P S)));
  match div with
  | None => Some None
  | Some div =>
      t ← trunc oc div;
      mul ← (checked_mul_generic oc right t : option (option (Fixed P S)));
      match mul with
      | None => Some None
      | Some mul =>
          rem ← (checked_sub_generic oc left mul : option (option (Fixed P1 S1)));
          Some (option_map (λ r, if is_negative self then neg r else r) rem)
      end
  end.

(** ** Powers *)

Section powers.
Context (oc : bool) {P S : Z}.
Notation Self := (Fixed P S).

(** The loop of [checked_powi] for a positive exponent: [exp] is halved in every round, so that 32
    rounds are enough. *)
Fixpoint powi_pos (fuel : nat) (exp base base_scale : Z) (acc : option (Z * Z)) : option (option Self) :=
  match fuel with
  | O => None
  | Datatypes.S fuel =>
      acc ← (if negb (Z.land exp 1 =? 1) then Some acc
             else match acc with
                  | Some (acc, acc_scale) =>
                      '(acc, shift) ← I256.reduce_to_i128 oc (I256.from_product acc base);
                      sum ← arith oc i32 (acc_scale + base_scale);
                      acc_scale ← arith oc i32 (sum - shift);
                      Some (Some (acc, acc_scale))
                  | None => Some (Some (base, base_scale))
                  end);
      let exp := exp / 2 in
      if exp =? 0 then
        '(acc, acc_scale) ← acc;
        e ← arith oc i32 (S - acc_scale);
        Some (try_new_with_exponent acc e)
      else
        '(next_base, shift) ← I256.reduce_to_i128 oc (I256.from_product base base);
        double ← arith oc i32 (base_scale * 2);
        base_scale ← arith oc i32 (double - shift);
        powi_pos fuel exp next_base base_scale acc
  end.

(** The loop for a negative exponent; [base *= base] panics when the square is out of range. *)
Fixpoint powi_neg (fuel : nat) (exp : Z) (base : Self) (acc : option Self) : option (option Self) :=
  match fuel with
  | O => None
  | Datatypes.S fuel =>
      let round acc :=
        let exp := exp / 2 in
        if exp =? 0 then Some acc
        else sq ← checked_mul oc base base; sq ← sq; powi_neg fuel exp sq acc in
      if Z.land exp 1 =? 1 then
        next ← (match acc with Some acc => checked_div oc acc base | None => checked_recip oc base end);
        match next with None => Some None | Some next => round (Some next) end
      else round acc
  end.

Definition checked_powi (self : Self) (exp : Z) : option (option Self) :=
  if f_val self =? 0 then Some (if 0 <? exp then Some (MkFixed 0) else None)
  else if exp =? 0 then if S <? P then s ← scale (S := S); Some (Some (MkFixed s)) else Some None
  else if 0 <? exp then powi_pos 32 exp (f_val self) S None
  else powi_neg 32 (Z.abs exp) self None.
End powers.
