(* ===== verification/FxpSpec.v ===== *)
(** Correctness of the decimal arithmetic: rounding to the nearest, exact arithmetic and comparisons,
    and where the code departs from its documentation. *)
From S2P Require Import Prelude Machine Fxp FxpU256 FxpFixed.
#[local] Open Scope Z_scope.

(** ** Rounding *)

(** [k * d] is a multiple of [d] nearest to [v], the one chosen by [h] when two are. *)
Definition nearest (h : Halfway) (d v k : Z) : Prop :=
  2 * Z.abs (v - k * d) ≤ d
  ∧ (2 * Z.abs (v - k * d) = d →
     match h with AwayFromZero => Z.abs v ≤ Z.abs (k * d) | Even => Z.even k = true end).

Lemma quot_rem_spec v d :
  0 < d →
  v = d * Z.quot v d + Z.rem v d ∧ Z.abs (Z.rem v d) < d
  ∧ (0 ≤ v → 0 ≤ Z.rem v d ∧ 0 ≤ Z.quot v d) ∧ (v ≤ 0 → Z.rem v d ≤ 0 ∧ Z.quot v d ≤ 0).
Proof.
  intros Hd. pose proof (Z.quot_rem v d ltac:(lia)) as Hqr. split; [done|].
  pose proof (Z.rem_bound_abs v d ltac:(lia)). split; [lia|]. split; intros Hv.
  - split; [by apply Z.rem_nonneg; lia | apply Z.quot_pos; lia].
  - split; [apply Z.rem_nonpos; lia|]. nia.
Qed.

Lemma rem_2_even q : (Z.rem q 2 =? 0) = Z.even q.
Proof.
  destruct (Z.eqb_spec (Z.rem q 2) 0) as [H|H]; symmetry.
  - apply Z.even_spec. exists (Z.quot q 2). pose proof (Z.quot_rem q 2). lia.
  - apply not_true_iff_false. rewrite Z.even_spec. intros [k ->]. by rewrite Z.mul_comm, Z.rem_mul in H by lia.
Qed.

Lemma round_away_nearest h d v :
  0 < d → Z.even d = true →
  nearest h d v (if round_away_from_zero (Z.quot v d) (Z.rem v d) d h
                 then Z.quot v d + Z.sgn v else Z.quot v d).
Proof.
  intros Hd [d2 ->]%Z.even_spec. destruct (quot_rem_spec v (2 * d2) Hd) as (Heq & Habs & Hp & Hn).
  set (q := Z.quot v (2 * d2)) in *. set (r := Z.rem v (2 * d2)) in *. clearbody q r.
  unfold round_away_from_zero, nearest. rewrite (Z.mul_comm 2 d2), Z.quot_mul, rem_2_even by lia.
  destruct (Z.compare_spec (Z.abs r) d2) as [Hc|Hc|Hc]; [destruct h|..].
  - destruct (Z.lt_trichotomy v 0) as [Hs|[Hs|Hs]];
      [rewrite Z.sgn_neg by lia | rewrite Hs in * | rewrite Z.sgn_pos by lia]; lia.
  - destruct (Z.even q) eqn:He; cbn [negb]; [split; [lia | done]|].
    assert (Z.even (q + Z.sgn v) = true ∨ v = 0) as [Hev|Hv].
    { destruct (Z.lt_trichotomy v 0) as [Hs|[Hs|Hs]]; [|by right|]; left;
        [rewrite Z.sgn_neg by lia | rewrite Z.sgn_pos by lia]; by rewrite Z.even_add, He. }
    + split; [|done]. destruct (Z.lt_trichotomy v 0) as [Hs|[Hs|Hs]];
        [rewrite Z.sgn_neg by lia | rewrite Hs in * | rewrite Z.sgn_pos by lia]; lia.
    + rewrite Hv in *. lia.
  - split; lia.
  - destruct (Z.lt_trichotomy v 0) as [Hs|[Hs|Hs]];
      [rewrite Z.sgn_neg by lia | rewrite Hs in * | rewrite Z.sgn_pos by lia]; split; lia.
Qed.

Lemma pow10_even e : 0 < e → Z.even (10 ^ e) = true.
Proof. intros He. rewrite Z.even_pow by done. done. Qed.

Lemma saturating_sub_i32 s n : 0 ≤ s ≤ 38 → - 2 ^ 31 ≤ n < 2 ^ 31 → s - n ≤ 38 → saturating_sub i32 s n = s - n.
Proof.
  intros Hs Hn Hp. unfold saturating_sub. change (MIN i32) with (- 2 ^ 31). change (MAX i32) with (2 ^ 31 - 1). lia.
Qed.

Lemma round_inner_spec oc v s n h :
  Z.abs v < 2 ^ 127 → 0 ≤ s ≤ 38 → - 2 ^ 31 ≤ n < 2 ^ 31 → s - n ≤ 38 →
  (s ≤ n → round_inner oc v s n h = Some (Some v))
  ∧ (n < s → ∃ k, round_inner oc v s n h = Some (checked i128 (k * 10 ^ (s - n)))
                  ∧ nearest h (10 ^ (s - n)) v k).
Proof.
  intros Hv Hs Hn Hp. unfold round_inner. rewrite saturating_sub_i32 by done.
  split; intros Hns; [by rewrite (proj2 (Z.leb_le _ 0)) by lia|].
  rewrite (proj2 (Z.leb_gt _ 0)) by lia. assert (1 ≤ s - n) as Hp1 by lia. set (p := s - n) in *. clearbody p. clear s n Hs Hn Hns.
  assert (10 ^ p = 10 * 10 ^ (p - 1)) as Hpow by (rewrite <- Z.pow_succ_r by lia; by rewrite Z.sub_1_r, Z.succ_pred).
  pose proof (pow10_bound (p - 1) ltac:(lia)) as Hb. pose proof (pow10_bound p ltac:(lia)) as Hb'.
  rewrite !pow10_Some by lia. rewrite (arith_sword _ (Z.abs v)) by (unfold sword; lia). cbn [mbind option_bind].
  rewrite (arith_sword _ (5 * _)) by (unfold sword; lia). cbn [mbind option_bind].
  destruct (Z.ltb_spec (Z.abs v) (5 * 10 ^ (p - 1))) as [Hlt|Hge].
  { exists 0. split; [done|]. unfold nearest. lia. }
  pose proof (round_away_nearest h (10 ^ p) v ltac:(lia) (pow10_even p ltac:(lia))) as Hnear.
  destruct (round_away_from_zero _ _ _ _); eexists; (split; [|exact Hnear]).
  - rewrite arith_sword; [cbn [mbind option_bind]; by rewrite Z.mul_comm|].
    pose proof (quot_rem_spec v (10 ^ p) ltac:(lia)) as (Heq & Habs & _).
    unfold sword. assert (Z.abs (Z.quot v (10 ^ p)) < 2 ^ 126) by nia. lia.
  - cbn [mbind option_bind]. by rewrite Z.mul_comm.
Qed.

(** Scaling by a power of ten, rounding ties to even, is correct unless the quotient toward zero is 0. *)
Lemma mul_pow10_round_even_spec oc v e :
  Z.abs v < 2 ^ 127 → - 38 ≤ e < 0 → 10 ^ (- e) ≤ Z.abs v →
  ∃ k, i128_mul_pow10_round_even oc v e = Some (Some k) ∧ nearest Even (10 ^ (- e)) v k.
Proof.
  intros Hv He Hbig. unfold i128_mul_pow10_round_even. rewrite (proj2 (Z.compare_lt_iff e 0)) by lia.
  rewrite Z.abs_neq by lia. change (checked_pow10 (- e)) with (pow10 (- e)).
  pose proof (pow10_bound (- e) ltac:(lia)) as Hb. rewrite pow10_Some by lia.
  pose proof (round_away_nearest Even (10 ^ (- e)) v ltac:(lia) (pow10_even (- e) ltac:(lia))) as Hnear.
  destruct (quot_rem_spec v (10 ^ (- e)) ltac:(lia)) as (Heq & Habs & Hpos & Hneg).
  destruct (round_away_from_zero _ _ _ _); eexists; (split; [|exact Hnear]); [|done].
  assert (Z.sgn (Z.quot v (10 ^ (- e))) = Z.sgn v) as ->.
  { destruct (Z.lt_trichotomy v 0) as [Hs|[->|Hs]]; [|done|].
    - rewrite !Z.sgn_neg; nia.
    - rewrite !Z.sgn_pos; nia. }
  rewrite arith_sword; [done|]. unfold sword.
  assert (2 ≤ 10 ^ (- e)) by (apply Z.le_trans with (10 ^ 1); [done | apply Z.pow_le_mono_r; lia]).
  assert (Z.abs (Z.quot v (10 ^ (- e))) < 2 ^ 126) by nia. lia.
Qed.

(** Below that it is always 0. *)
Lemma mul_pow10_round_even_small oc v e :
  - 38 ≤ e < 0 → Z.abs v < 10 ^ (- e) → i128_mul_pow10_round_even oc v e = Some (Some 0).
Proof.
  intros He Hv. unfold i128_mul_pow10_round_even. rewrite (proj2 (Z.compare_lt_iff e 0)) by lia.
  rewrite Z.abs_neq by lia. change (checked_pow10 (- e)) with (pow10 (- e)). rewrite pow10_Some by lia.
  assert (Z.quot v (10 ^ (- e)) = 0) as -> by (apply Z.quot_small_iff; lia).
  destruct (round_away_from_zero _ _ _ _); [|done]. by rewrite arith_sword by (unfold sword; cbn; lia).
Qed.

(** ** Values of a type *)

Definition fixed_ty (P S : Z) : Prop := 1 ≤ P ≤ 38 ∧ 0 ≤ S ≤ P.
Definition f_ok {P S} (x : Fixed P S) : Prop := Z.abs (f_val x) ≤ fixed_MAX P.

Lemma f_ok_bound {P S} (x : Fixed P S) : fixed_ty P S → f_ok x → Z.abs (f_val x) < 10 ^ 38.
Proof. intros [HP HS] Hx. unfold f_ok, fixed_MAX in Hx. pose proof (pow10_bound P ltac:(lia)). lia. Qed.

Lemma f_ok_sword {P S} (x : Fixed P S) : fixed_ty P S → f_ok x → sword (f_val x).
Proof. intros Ht Hx. pose proof (f_ok_bound x Ht Hx). unfold sword. lia. Qed.

Lemma try_new_spec {P S} v :
  try_new (P := P) (S := S) v = if Z.abs v <=? fixed_MAX P then Some (MkFixed v) else None.
Proof.
  unfold try_new. destruct (Z.leb_spec (- fixed_MAX P) v), (Z.leb_spec v (fixed_MAX P)),
    (Z.leb_spec (Z.abs v) (fixed_MAX P)); done || lia.
Qed.

Lemma try_new_ok {P S} v (x : Fixed P S) : try_new v = Some x → f_val x = v ∧ f_ok x.
Proof.
  rewrite try_new_spec. destruct (Z.leb_spec (Z.abs v) (fixed_MAX P)); [|done]. intros [= <-]. done.
Qed.

Lemma checked_try_new {P S} v : fixed_ty P S → checked i128 v ≫= try_new (P := P) (S := S) = try_new v.
Proof.
  intros [HP HS]. unfold checked. destruct (in_range i128 v) eqn:Hr; [done|]. cbn [mbind option_bind].
  rewrite try_new_spec. destruct (Z.leb_spec (Z.abs v) (fixed_MAX P)) as [Hle|]; [|done].
  apply not_true_iff_false in Hr. destruct Hr. apply sword_in_range. pose proof (pow10_bound P ltac:(lia)).
  unfold sword, fixed_MAX in *. lia.
Qed.

(** A product in the range of i128 is not shifted. *)
Lemma reduce_fits oc x m :
  sword x → sword m → Z.abs (x * m) ≤ MAX i128 →
  I256.reduce_to_i128 oc (I256.from_product x m) = Some (x * m, 0).
Proof.
  intros Hx Hm Hb. destruct (i256_from_product_spec x m Hx Hm) as [Hv Hok].
  destruct (reduce_to_i128_spec oc _ Hok) as (k & Hr & Hk & _ & Hmin).
  - unfold ival, i_ok, u_ok, uval, word in *. destruct i128_range as [_ Hmax]. rewrite Hmax in Hb.
    destruct (i_negative _); lia.
  - rewrite Hr. rewrite Hv in *. assert (k = 0) as ->; [|by rewrite Z.quot_1_r].
    destruct (Z.eq_dec k 0) as [|Hne]; [done|]. specialize (Hmin ltac:(lia)).
    pose proof (Z.pow_pos_nonneg 10 (k - 1) ltac:(lia) ltac:(lia)).
    destruct (quot_rem_spec (x * m) (10 ^ (k - 1)) ltac:(lia)) as (Heq & _ & Hp & Hn).
    set (q := Z.quot _ _) in *. set (r := Z.rem _ _) in *. set (p := x * m) in *. clearbody q r p. nia.
Qed.

(** [v * 10 ^ e], rounded toward zero. *)
Definition rescale (v e : Z) : Z := if e <? 0 then Z.quot v (10 ^ (- e)) else v * 10 ^ e.

Lemma try_new_with_exponent_spec {P S} v e :
  P ≤ 38 → 0 ≤ P → sword v → e ≤ 38 →
  try_new_with_exponent (P := P) (S := S) v e = try_new (rescale v e).
Proof.
  intros HP HP0 Hv He. unfold try_new_with_exponent, mul_pow10, rescale.
  destruct (Z.compare_spec e 0) as [->|Hlt|Hgt].
  - cbn [mbind option_bind]. cbn. by rewrite Z.mul_1_r.
  - rewrite (proj2 (Z.ltb_lt e 0)), Z.abs_neq by lia. unfold checked_pow10.
    destruct (Z.leb_spec (- e) 38); [done|]. cbn [mbind option_bind]. f_equal. symmetry.
    apply Z.quot_small_iff; [apply Z.pow_nonzero; lia|]. unfold sword in Hv.
    rewrite (Z.abs_eq (10 ^ _)) by (apply Z.pow_nonneg; lia).
    apply Z.lt_le_trans with (10 ^ 39); [lia | apply Z.pow_le_mono_r; lia].
  - rewrite (proj2 (Z.ltb_ge e 0)) by lia. unfold checked_pow10. rewrite (proj2 (Z.leb_le e 38)) by lia.
    cbn [mbind option_bind]. unfold checked. destruct (in_range i128 (v * 10 ^ e)) eqn:Hr; [done|].
    cbn [mbind option_bind]. rewrite try_new_spec. pose proof (pow10_bound P ltac:(lia)).
    destruct (Z.leb_spec (Z.abs (v * 10 ^ e)) (fixed_MAX P)) as [Hle|]; [|done].
    apply not_true_iff_false in Hr. destruct Hr. apply sword_in_range. unfold sword, fixed_MAX in *. lia.
Qed.

(** ** Arithmetic *)

Lemma product_ok x m :
  Z.abs x < 10 ^ 38 → Z.abs m ≤ 10 ^ 38 → ival (I256.from_product x m) = x * m ∧ i_ok (I256.from_product x m).
Proof. intros Hx Hm. apply i256_from_product_spec; unfold sword; lia. Qed.

(** A result outside of the range of i128 is outside of the range of the type. *)
Lemma narrowed_try_new {P S} q e :
  fixed_ty P S → 0 ≤ e ≤ 38 →
  ((if Z.abs q <=? MAX i128 then Some q else None) ≫= λ r, try_new_with_exponent (P := P) (S := S) r e)
  = try_new (q * 10 ^ e).
Proof.
  intros [HP HS] He. destruct i128_range as [_ ->]. pose proof (pow10_bound e He). pose proof (pow10_bound P ltac:(lia)).
  destruct (Z.leb_spec (Z.abs q) (2 ^ 127 - 1)) as [Hle|Hgt]; cbn [mbind option_bind].
  - rewrite try_new_with_exponent_spec by (unfold sword; lia). unfold rescale.
    by rewrite (proj2 (Z.ltb_ge e 0)) by lia.
  - rewrite try_new_spec. destruct (Z.leb_spec (Z.abs (q * 10 ^ e)) (fixed_MAX P)); [|done].
    unfold fixed_MAX in *. nia.
Qed.

Section arithmetic.
Context {P0 S0 P1 S1 P2 S2 : Z}.
Context (Ht0 : fixed_ty P0 S0) (Ht1 : fixed_ty P1 S1) (Ht2 : fixed_ty P2 S2).
Implicit Types (x : Fixed P0 S0) (y : Fixed P1 S1).

Lemma checked_mul_generic_spec oc x y :
  f_ok x → f_ok y → S0 + S1 - S2 ≤ 38 →
  checked_mul_generic (P2 := P2) (S2 := S2) oc x y
  = Some (try_new (rescale (f_val x * f_val y) (S2 - (S0 + S1)))).
Proof.
  intros Hx%f_ok_bound Hy%f_ok_bound Hs; [|done..]. unfold checked_mul_generic, usub.
  destruct Ht0 as [_ Hs0], Ht1 as [_ Hs1], Ht2 as [HP2 Hs2].
  rewrite pow10_Some by lia. cbn [mbind option_bind].
  destruct (product_ok (f_val x) (f_val y)) as [Hv Hok]; [lia..|].
  pose proof (pow10_bound (Z.max 0 (S0 + S1 - S2)) ltac:(lia)) as Hp.
  rewrite i256_narrowing_div_spec, Hv by (done || (unfold sword; lia)). cbn [mbind option_bind].
  rewrite (proj2 (Z.eqb_neq _ 0)) by lia. rewrite narrowed_try_new by (done || lia). do 2 f_equal. unfold rescale.
  destruct (Z.ltb_spec (S2 - (S0 + S1)) 0).
  - rewrite (Z.max_r 0 (S0 + S1 - S2)), (Z.max_l 0 (S2 - (S0 + S1))), Z.pow_0_r, Z.mul_1_r by lia.
    do 2 f_equal. lia.
  - rewrite (Z.max_l 0 (S0 + S1 - S2)), (Z.max_r 0 (S2 - (S0 + S1))), Z.pow_0_r, Z.quot_1_r by lia. done.
Qed.

Lemma eq_int_zero y : f_ok y → eq_int y 0 = Some (f_val y =? 0).
Proof.
  intros Hy. destruct Ht1 as [HP1 Hs1]. unfold eq_int, scale. rewrite pow10_Some by lia. cbn [mbind option_bind]. f_equal.
  pose proof (pow10_bound S1 ltac:(lia)). destruct (quot_rem_spec (f_val y) (10 ^ S1) ltac:(lia)) as (Heq & _).
  destruct (Z.eqb_spec (Z.rem (f_val y) (10 ^ S1)) 0) as [Hr|Hr],
    (Z.eqb_spec (Z.quot (f_val y) (10 ^ S1)) 0) as [Hq|Hq], (Z.eqb_spec (f_val y) 0) as [Hz|Hz]; cbn; try done.
  - rewrite Hr, Hq in Heq. lia.
  - rewrite Hz, Z.quot_0_l in Hq by lia. done.
  - rewrite Hz, Z.rem_0_l in Hr by lia. done.
  - rewrite Hz, Z.rem_0_l in Hr by lia. done.
Qed.

Lemma checked_div_generic_spec oc x y :
  f_ok x → f_ok y → S0 ≤ S1 + S2 ≤ S0 + 38 →
  checked_div_generic (P2 := P2) (S2 := S2) oc x y
  = Some (if f_val y =? 0 then None
          else try_new (Z.quot (f_val x * 10 ^ (S1 + S2 - S0)) (f_val y))).
Proof.
  intros Hx Hy Hs. unfold checked_div_generic, usub. rewrite eq_int_zero by done. cbn [mbind option_bind].
  apply f_ok_bound in Hx; [|done]. apply f_ok_bound in Hy; [|done].
  destruct Ht0 as [_ Hs0], Ht1 as [_ Hs1], Ht2 as [HP2 Hs2].
  destruct (Z.eqb_spec (f_val y) 0) as [|Hy0]; [done|].
  rewrite (proj2 (Z.ltb_ge 38 _)), (Z.max_r 0 (S1 + S2 - S0)), pow10_Some by lia. cbn [mbind option_bind].
  pose proof (pow10_bound (S1 + S2 - S0) ltac:(lia)) as Hp.
  destruct (product_ok (f_val x) (10 ^ (S1 + S2 - S0))) as [Hv Hok]; [lia..|].
  rewrite i256_narrowing_div_spec, Hv by (done || (unfold sword; lia)). cbn [mbind option_bind].
  rewrite (proj2 (Z.eqb_neq _ 0)) by lia. rewrite narrowed_try_new by (done || lia).
  by rewrite (Z.max_l 0 (S0 - (S1 + S2))), Z.pow_0_r, Z.mul_1_r by lia.
Qed.

Lemma checked_sum_try_new v :
  (sum ← checked i128 v; try_new_with_exponent (P := P2) (S := S2) sum 0) = try_new v.
Proof.
  destruct Ht2 as [HP2 Hs2]. pose proof (pow10_bound P2 ltac:(lia)). unfold checked.
  destruct (in_range i128 v) eqn:Hr; cbn [mbind option_bind].
  - apply sword_in_range in Hr. rewrite try_new_with_exponent_spec by (done || lia). unfold rescale. cbn.
    by rewrite Z.mul_1_r.
  - rewrite try_new_spec. destruct (Z.leb_spec (Z.abs v) (fixed_MAX P2)); [|done].
    apply not_true_iff_false in Hr. destruct Hr. apply sword_in_range. unfold sword, fixed_MAX in *. lia.
Qed.

Lemma add_scaled_spec oc small s large l :
  l = S2 → 0 ≤ S2 - s ≤ 38 → Z.abs small < 10 ^ 38 → Z.abs large < 10 ^ 38 →
  - 2 ^ 127 ≤ small * 10 ^ (S2 - s) →
  add_scaled (P2 := P2) (S2 := S2) oc small s large l = Some (try_new (small * 10 ^ (S2 - s) + large)).
Proof.
  intros -> Hs Hsm Hla Hlow. unfold add_scaled, usub. rewrite (pow10_Some (S2 - s)) by lia. cbn [mbind option_bind].
  pose proof (pow10_bound (S2 - s) Hs) as Hf. rewrite Z.sub_diag. destruct i128_range as [_ Hmax].
  destruct (Z.leb_spec small (Z.quot (Z.quot (MAX i128) (10 ^ (S2 - s))) 10)) as [Hle|Hgt].
  - rewrite arith_sword; [cbn [mbind option_bind]; by rewrite checked_sum_try_new, Z.add_comm|].
    rewrite !Z.quot_div_nonneg in Hle by (rewrite ?Hmax, ?Z.quot_div_nonneg by lia; try apply Z.div_pos; lia).
    split; [done|]. rewrite Hmax in Hle. pose proof (Z.mul_div_le (2 ^ 127 - 1) (10 ^ (S2 - s)) ltac:(lia)) as Hd.
    pose proof (Z.mul_div_le ((2 ^ 127 - 1) / 10 ^ (S2 - s)) 10 ltac:(lia)) as Hd'.
    pose proof (Z.div_pos (2 ^ 127 - 1) (10 ^ (S2 - s)) ltac:(lia) ltac:(lia)) as Hp. nia.
  - change (Z.max 0 0) with 0. rewrite pow10_Some by lia. cbn [mbind option_bind].
    destruct (product_ok small (10 ^ (S2 - s))) as [Hv Hok]; [lia..|].
    destruct (i256_from_spec large) as [Hv' Hok']; [unfold sword; lia|].
    assert (uval (i_value (I256.from_product small (10 ^ (S2 - s)))) + uval (i_value (I256.from large)) < 2 ^ 256) as Hlt.
    { pose proof (uval_range _ Hok). pose proof (uval_range _ Hok'). unfold ival in Hv, Hv'.
      destruct (i_negative _), (i_negative _); nia. }
    destruct (i256_add_spec _ _ Hok Hok' Hlt) as [Hsum Hoks]. rewrite Hv, Hv' in Hsum.
    rewrite i256_narrowing_div_spec, Hsum by (done || (unfold sword; cbn; lia)). cbn [mbind option_bind].
    change (10 ^ 0 =? 0) with false. cbn iota. rewrite Z.pow_0_r, Z.quot_1_r.
    by rewrite narrowed_try_new, Z.pow_0_r, Z.mul_1_r by (done || lia).
Qed.

Lemma checked_add_generic_spec oc x y :
  S2 = Z.max S0 S1 → f_ok x → f_ok y →
  - 2 ^ 127 ≤ f_val x * 10 ^ (S2 - S0) → - 2 ^ 127 ≤ f_val y * 10 ^ (S2 - S1) →
  checked_add_generic (P2 := P2) (S2 := S2) oc x y
  = Some (try_new (f_val x * 10 ^ (S2 - S0) + f_val y * 10 ^ (S2 - S1))).
Proof.
  intros Hmax Hx%f_ok_bound Hy%f_ok_bound Hlx Hly; [|done..]. unfold checked_add_generic.
  destruct Ht0 as [HP0 Hs0], Ht1 as [HP1 Hs1], Ht2 as [HP2 Hs2].
  destruct (Z.compare_spec S0 S1) as [He|Hlt|Hgt].
  - replace (S2 - S0) with 0 by lia. replace (S2 - S1) with 0 by lia. rewrite checked_sum_try_new.
    by rewrite Z.pow_0_r, !Z.mul_1_r.
  - rewrite add_scaled_spec by (done || lia). replace (S2 - S1) with 0 by lia. by rewrite Z.pow_0_r, Z.mul_1_r.
  - rewrite add_scaled_spec by (done || lia). replace (S2 - S0) with 0 by lia.
    by rewrite Z.pow_0_r, Z.mul_1_r, Z.add_comm.
Qed.

(** *** Comparison *)

Lemma compare_scaled a b s t :
  0 ≤ s → 0 ≤ t → (a * 10 ^ s ?= b * 10 ^ t)
  = if s <? t then (a ?= b * 10 ^ (t - s)) else (a * 10 ^ (s - t) ?= b).
Proof.
  intros Hs Ht. destruct (Z.ltb_spec s t).
  - replace t with (t - s + s) at 1 by lia. rewrite Z.pow_add_r, Z.mul_assoc by lia.
    symmetry. apply Zmult_compare_compat_r. lia.
  - replace s with (s - t + t) at 1 by lia. rewrite Z.pow_add_r, Z.mul_assoc by lia.
    symmetry. apply Zmult_compare_compat_r. lia.
Qed.

Lemma partial_cmp_spec x y :
  f_ok x → f_ok y → partial_cmp x y = Some (f_val x * 10 ^ S1 ?= f_val y * 10 ^ S0).
Proof.
  intros Hx%f_ok_bound Hy%f_ok_bound; [|done..]. destruct Ht0 as [HP0 Hs0], Ht1 as [HP1 Hs1].
  unfold partial_cmp. rewrite compare_scaled by lia. destruct (Z.compare_spec S0 S1) as [He|Hlt|Hgt].
  - rewrite (proj2 (Z.ltb_ge S1 S0)) by lia. replace (S1 - S0) with 0 by lia. by rewrite Z.pow_0_r, Z.mul_1_r.
  - rewrite (proj2 (Z.ltb_ge S1 S0)), pow10_Some by lia. cbn [mbind option_bind]. f_equal.
    pose proof (pow10_bound (S1 - S0) ltac:(lia)).
    destruct (product_ok (f_val x) (10 ^ (S1 - S0))) as [Hv Hok]; [lia..|].
    destruct (i256_from_spec (f_val y)) as [Hv' Hok']; [unfold sword; lia|].
    by rewrite i256_cmp_spec, Hv, Hv'.
  - rewrite (proj2 (Z.ltb_lt S1 S0)), pow10_Some by lia. cbn [mbind option_bind]. f_equal.
    pose proof (pow10_bound (S0 - S1) ltac:(lia)).
    destruct (product_ok (f_val y) (10 ^ (S0 - S1))) as [Hv Hok]; [lia..|].
    destruct (i256_from_spec (f_val x)) as [Hv' Hok']; [unfold sword; lia|].
    by rewrite i256_cmp_spec, Hv, Hv'.
Qed.

Lemma eq_spec x y :
  f_ok x → f_ok y → eq x y = Some (f_val x * 10 ^ S1 =? f_val y * 10 ^ S0).
Proof.
  intros Hx Hy. rewrite Z.eqb_compare. pose proof (partial_cmp_spec x y Hx Hy) as Hc.
  apply f_ok_bound in Hx; [|done]. apply f_ok_bound in Hy; [|done].
  destruct Ht0 as [HP0 Hs0], Ht1 as [HP1 Hs1]. revert Hc. unfold partial_cmp, eq.
  destruct (Z.compare_spec S0 S1) as [He|Hlt|Hgt].
  - intros [= <-]. by rewrite Z.eqb_compare.
  - rewrite pow10_Some by lia. cbn [mbind option_bind]. pose proof (pow10_bound (S1 - S0) ltac:(lia)).
    destruct (product_ok (f_val x) (10 ^ (S1 - S0))) as [Hv Hok]; [lia..|].
    destruct (i256_from_spec (f_val y)) as [Hv' Hok']; [unfold sword; lia|].
    rewrite i256_cmp_spec, i256_eq_spec by done. intros [= <-]. by rewrite Z.eqb_compare.
  - rewrite pow10_Some by lia. cbn [mbind option_bind]. pose proof (pow10_bound (S0 - S1) ltac:(lia)).
    destruct (product_ok (f_val y) (10 ^ (S0 - S1))) as [Hv Hok]; [lia..|].
    destruct (i256_from_spec (f_val x)) as [Hv' Hok']; [unfold sword; lia|].
    rewrite i256_cmp_spec, i256_eq_spec by done. intros [= <-]. by rewrite Z.eqb_compare.
Qed.
End arithmetic.

(** ** Floor, ceiling, truncation and square root *)

Lemma shiftr_sign x : sword x → Z.shiftr x 127 = if x <? 0 then -1 else 0.
Proof.
  unfold sword. intros Hx. rewrite Z.shiftr_div_pow2 by lia. destruct (Z.ltb_spec x 0).
  - symmetry. apply (Z.div_unique _ _ _ (x + 2 ^ 127)); lia.
  - apply Z.div_small. lia.
Qed.

Lemma sign_mask_spec x y : sword x → sword y → sign_mask x y = if xorb (x <? 0) (y <? 0) then -1 else 0.
Proof.
  intros Hx Hy. unfold sign_mask. rewrite Z.shiftr_lxor, !shiftr_sign by done. by destruct (x <? 0), (y <? 0).
Qed.

Lemma div_floor_spec oc x y : sword x → sword y → 0 < y → div_floor oc x y = Some (x / y).
Proof.
  intros Hx Hy Hpos. unfold div_floor. rewrite (proj2 (Z.eqb_neq y 0)) by lia. cbn [negb].
  destruct (quot_rem_spec x y Hpos) as (Heq & Habs & Hp & Hn). unfold sword in Hx.
  rewrite arith_sword by (unfold sword; nia). cbn [mbind option_bind].
  rewrite sign_mask_spec, (proj2 (Z.ltb_ge y 0)), xorb_false_r by (done || lia).
  destruct (Z.eqb_spec (Z.rem x y) 0) as [Hr|Hr]; cbn [negb].
  - f_equal. apply (Z.div_unique_pos _ _ _ 0); lia.
  - destruct (Z.ltb_spec x 0).
    + rewrite arith_sword by (unfold sword; nia). f_equal. apply (Z.div_unique_pos _ _ _ (Z.rem x y + y)); lia.
    + rewrite arith_sword by (unfold sword; nia). f_equal. apply (Z.div_unique_pos _ _ _ (Z.rem x y)); lia.
Qed.

Lemma div_ceil_spec oc x y : sword x → sword y → 0 < y → div_ceil oc x y = Some (- (- x / y)).
Proof.
  intros Hx Hy Hpos. unfold div_ceil. rewrite (proj2 (Z.eqb_neq y 0)) by lia. cbn [negb].
  destruct (quot_rem_spec x y Hpos) as (Heq & Habs & Hp & Hn). unfold sword in Hx.
  rewrite arith_sword by (unfold sword; nia). cbn [mbind option_bind].
  rewrite sign_mask_spec, (proj2 (Z.ltb_ge y 0)), xorb_false_r by (done || lia).
  destruct (Z.eqb_spec (Z.rem x y) 0) as [Hr|Hr]; cbn [negb].
  - f_equal. rewrite <- (Z.div_unique_pos (- x) y (- Z.quot x y) 0) by lia. lia.
  - assert (2 ≤ y) by (destruct (Z.eq_dec y 1) as [->|]; [by rewrite Z.rem_1_r in Hr | lia]).
    destruct (Z.ltb_spec x 0); rewrite arith_sword by (unfold sword; nia); f_equal.
    + rewrite <- (Z.div_unique_pos (- x) y (- Z.quot x y) (- Z.rem x y)) by lia. lia.
    + rewrite <- (Z.div_unique_pos (- x) y (- Z.quot x y - 1) (y - Z.rem x y)) by lia. lia.
Qed.

(** The multiple of [10 ^ S] below or above a value fits in 128 bits. *)
Lemma multiple_bound P S v k :
  fixed_ty P S → Z.abs v < 10 ^ P → Z.abs (v - k * 10 ^ S) < 10 ^ S → Z.abs (k * 10 ^ S) ≤ 10 ^ P.
Proof.
  intros [HP HS] Hv Hk. assert (10 ^ P = 10 ^ (P - S) * 10 ^ S) as Hp
    by (rewrite <- Z.pow_add_r by lia; by replace (P - S + S) with P by lia).
  assert (0 < 10 ^ S) by lia. assert (0 < 10 ^ (P - S)) by (apply Z.pow_pos_nonneg; lia).
  assert (Z.abs k < 10 ^ (P - S) + 1) by nia. nia.
Qed.

Section unary.
Context {P S : Z} (Ht : fixed_ty P S) (oc : bool).
Implicit Types x : Fixed P S.

Lemma scale_spec : scale (S := S) = Some (10 ^ S).
Proof. destruct Ht. apply pow10_Some. lia. Qed.

Lemma checked_floor_spec x : f_ok x → checked_floor oc x = Some (try_new (f_val x / 10 ^ S * 10 ^ S)).
Proof.
  intros Hx. unfold checked_floor. pose proof Ht as [HP HS]. pose proof (pow10_bound S ltac:(lia)) as Hs.
  destruct (Z.ltb_spec 0 S).
  - rewrite scale_spec. cbn [mbind option_bind]. pose proof (f_ok_sword x Ht Hx) as Hw.
    rewrite div_floor_spec by (done || (unfold sword; lia)). cbn [mbind option_bind].
    rewrite arith_sword; [done|]. pose proof (pow10_bound P ltac:(lia)).
    pose proof (multiple_bound P S (f_val x) (f_val x / 10 ^ S) Ht) as Hb. unfold f_ok, fixed_MAX in Hx.
    pose proof (Z.mod_pos_bound (f_val x) (10 ^ S) ltac:(lia)). pose proof (Z.div_mod (f_val x) (10 ^ S) ltac:(lia)).
    unfold sword. lia.
  - assert (10 ^ S = 1) as -> by (by replace S with 0 by lia). rewrite Z.div_1_r, Z.mul_1_r, try_new_spec.
    unfold f_ok in Hx. rewrite (proj2 (Z.leb_le _ _)) by done. by destruct x.
Qed.

Lemma checked_ceil_spec x : f_ok x → checked_ceil oc x = Some (try_new (- (- f_val x / 10 ^ S) * 10 ^ S)).
Proof.
  intros Hx. unfold checked_ceil. pose proof Ht as [HP HS]. pose proof (pow10_bound S ltac:(lia)) as Hs.
  destruct (Z.ltb_spec 0 S).
  - rewrite scale_spec. cbn [mbind option_bind]. pose proof (f_ok_sword x Ht Hx) as Hw.
    rewrite div_ceil_spec by (done || (unfold sword; lia)). cbn [mbind option_bind].
    rewrite arith_sword; [done|]. pose proof (pow10_bound P ltac:(lia)).
    pose proof (multiple_bound P S (f_val x) (- (- f_val x / 10 ^ S)) Ht) as Hb. unfold f_ok, fixed_MAX in Hx.
    pose proof (Z.mod_pos_bound (- f_val x) (10 ^ S) ltac:(lia)). pose proof (Z.div_mod (- f_val x) (10 ^ S) ltac:(lia)).
    unfold sword. lia.
  - assert (10 ^ S = 1) as -> by (by replace S with 0 by lia). rewrite Z.div_1_r, Z.mul_1_r, Z.opp_involutive, try_new_spec.
    unfold f_ok in Hx. rewrite (proj2 (Z.leb_le _ _)) by done. by destruct x.
Qed.

Lemma trunc_spec x : f_ok x → trunc oc x = Some (MkFixed (Z.quot (f_val x) (10 ^ S) * 10 ^ S)).
Proof.
  intros Hx. unfold trunc. rewrite scale_spec. cbn [mbind option_bind]. pose proof Ht as [HP HS].
  pose proof (pow10_bound S ltac:(lia)). rewrite arith_sword; [done|].
  pose proof (f_ok_sword x Ht Hx) as Hw. destruct (quot_rem_spec (f_val x) (10 ^ S) ltac:(lia)) as (Heq & Habs & Hp & Hn).
  unfold sword in *. lia.
Qed.

Lemma checked_sqrt_spec x :
  f_ok x →
  checked_sqrt oc x
  = Some (if f_val x <? 0 then None else Some (MkFixed (Z.sqrt (f_val x * 10 ^ S))))
  ∧ (0 ≤ f_val x → f_ok (MkFixed (P := P) (S := S) (Z.sqrt (f_val x * 10 ^ S)))).
Proof.
  intros Hx. pose proof Ht as [HP HS]. pose proof (pow10_bound S ltac:(lia)) as Hs. pose proof (f_ok_bound x Ht Hx) as Hb.
  assert (0 ≤ f_val x → Z.sqrt (f_val x * 10 ^ S) ≤ fixed_MAX P) as Hmax.
  { intros Hpos. unfold f_ok, fixed_MAX in *. assert (10 ^ S ≤ 10 ^ P) by (apply Z.pow_le_mono_r; lia).
    enough (Z.sqrt (f_val x * 10 ^ S) < 10 ^ P) by lia. apply Z.sqrt_lt_square; nia. }
  split; [|intros Hpos; unfold f_ok; cbn [f_val]; rewrite Z.abs_eq by apply Z.sqrt_nonneg; auto].
  unfold checked_sqrt. rewrite scale_spec. cbn [mbind option_bind].
  destruct (product_ok (f_val x) (10 ^ S)) as [Hv Hok]; [lia..|].
  rewrite i256_checked_isqrt_spec, Hv by done. cbn [mbind option_bind]. do 2 f_equal.
  destruct (Z.ltb_spec (f_val x) 0); [by rewrite (proj2 (Z.ltb_lt _ 0)) by nia|].
  rewrite (proj2 (Z.ltb_ge _ 0)) by nia. unfold checked. rewrite (proj2 (sword_in_range _)); [done|].
  pose proof (Z.sqrt_nonneg (f_val x * 10 ^ S)). pose proof (pow10_bound P ltac:(lia)). unfold sword, fixed_MAX in *. lia.
Qed.

(** *** Encoding *)

Lemma to_unsigned_encoding_spec x : f_ok x → to_unsigned_encoding x = Some (fixed_MAX P + f_val x).
Proof.
  intros Hx. unfold to_unsigned_encoding, UNSIGNED_ZERO, checked. pose proof Ht as [HP HS].
  pose proof (pow10_bound P ltac:(lia)). unfold f_ok, fixed_MAX in *.
  rewrite (proj2 (word_in_range _)); [done|]. unfold word. lia.
Qed.

Lemma from_unsigned_encoding_spec e :
  0 ≤ e →
  from_unsigned_encoding (P := P) (S := S) e
  = if e <=? 2 * fixed_MAX P then Some (MkFixed (e - fixed_MAX P)) else None.
Proof.
  intros He. unfold from_unsigned_encoding, UNSIGNED_ZERO, UNSIGNED_MAX, fixed_MAX.
  pose proof Ht as [HP HS]. pose proof (pow10_bound P ltac:(lia)).
  destruct (Z.ltb_spec e (10 ^ P - 1)), (Z.leb_spec e (10 ^ P * 2 - 2)), (Z.leb_spec e (2 * (10 ^ P - 1)));
    try lia; do 2 f_equal; lia.
Qed.
End unary.

(** ** Powers *)

Section powers.
Context {P S : Z} (Ht : fixed_ty P S) (oc : bool).

Lemma power_le v a n : v ≠ 0 → 0 ≤ a ≤ n → Z.abs (v ^ a) ≤ Z.abs (v ^ n).
Proof. intros Hv Ha. rewrite !Z.abs_pow by lia. apply Z.pow_le_mono_r; lia. Qed.

Lemma power_product v a b n :
  v ≠ 0 → 0 ≤ a → 0 ≤ b → a + b ≤ n → Z.abs (v ^ n) ≤ MAX i128 →
  I256.reduce_to_i128 oc (I256.from_product (v ^ a) (v ^ b)) = Some (v ^ (a + b), 0).
Proof.
  intros Hv Ha Hb Hab Hn. destruct i128_range as [_ Hmax].
  pose proof (power_le v a n Hv ltac:(lia)). pose proof (power_le v b n Hv ltac:(lia)).
  pose proof (power_le v (a + b) n Hv ltac:(lia)).
  rewrite reduce_fits; rewrite <- ?Z.pow_add_r by lia; [done|unfold sword; lia|unfold sword; lia|lia].
Qed.

(** The invariant of the loop: what is accumulated and the powers still to come make up [v ^ n]. *)
Lemma powi_pos_spec v n fuel exp b acc :
  v ≠ 0 → Z.abs (v ^ n) ≤ MAX i128 → 0 < n → S * n < 2 ^ 31 →
  0 < exp < 2 ^ Z.of_nat fuel → 0 < b →
  match acc with
  | None => b * exp = n
  | Some (w, s) => ∃ a, 0 < a ∧ w = v ^ a ∧ s = S * a ∧ a + b * exp = n
  end →
  powi_pos (P := P) (S := S) oc fuel exp (v ^ b) (S * b) acc = Some (try_new_with_exponent (v ^ n) (S - S * n)).
Proof.
  intros Hv Hn Hn0 Hs. revert exp b acc. induction fuel as [|fuel IH]; intros exp b acc He Hb Hacc; [cbn in He; lia|].
  pose proof Ht as [HP HS]. assert (∀ x, 0 ≤ x ≤ S * n → arith oc i32 x = Some x) as Har
    by (intros x Hx; apply arith_ok, in_range_spec; cbn; lia).
  cbn [powi_pos]. change 1 with (Z.ones 1) at 1. rewrite Z.land_ones by lia. change (2 ^ 1) with 2.
  rewrite Nat2Z.inj_succ, Z.pow_succ_r in He by lia. pose proof (Z.div_mod exp 2 ltac:(lia)) as Hdm.
  pose proof (Z.mod_pos_bound exp 2 ltac:(lia)) as Hm.
  set (acc' := if exp mod 2 =? 1 then Some (match acc with Some (w, s) => (w * v ^ b, s + S * b) | None => (v ^ b, S * b) end) else acc).
  assert (match acc' with
          | None => b * 2 * (exp / 2) = n
          | Some (w, s) => ∃ a, 0 < a ∧ w = v ^ a ∧ s = S * a ∧ a + b * 2 * (exp / 2) = n
          end) as Hacc'.
  { unfold acc'. destruct (Z.eqb_spec (exp mod 2) 1) as [H1|H1].
    - destruct acc as [[w s]|]; [destruct Hacc as (a & Ha & -> & -> & Hsum); exists (a + b)|exists b]; split_and!;
        rewrite ?Z.pow_add_r by lia; nia || lia || done.
    - destruct acc as [[w s]|]; [destruct Hacc as (a & Ha & -> & -> & Hsum); exists a; split_and!; nia || done|nia]. }
  match goal with |- (mbind _ ?e) = _ => assert (e = Some acc') as -> end.
  { unfold acc'. destruct (Z.eqb_spec (exp mod 2) 1) as [H1|H1]; cbn [negb]; [|done]. destruct acc as [[w s]|]; [|done].
    destruct Hacc as (a & Ha & -> & -> & Hsum). rewrite (power_product v a b n) by (done || nia). cbn [mbind option_bind].
    rewrite (Har (S * a + S * b)) by nia. cbn [mbind option_bind]. rewrite Z.sub_0_r, Har by nia. cbn [mbind option_bind].
    by rewrite Z.pow_add_r by lia. }
  clearbody acc'. cbn [mbind option_bind]. destruct (Z.eqb_spec (exp / 2) 0) as [H0|H0].
  - rewrite H0 in Hacc'. destruct acc' as [[w s]|]; [|lia]. destruct Hacc' as (a & Ha & -> & -> & Hsum).
    replace a with n in * by lia. cbn [mbind option_bind]. rewrite arith_ok by (apply in_range_spec; cbn; nia). done.
  - assert (0 < exp / 2) by (pose proof (Z.div_pos exp 2); lia). assert (b + b ≤ n) as Hbb by (destruct acc' as [[w s]|]; [destruct Hacc' as (a & ? & _ & _ & ?)|]; nia).
    rewrite (power_product v b b n) by (done || lia). cbn [mbind option_bind].
    rewrite (Har (S * b * 2)) by nia. cbn [mbind option_bind]. rewrite Z.sub_0_r, Har by nia. cbn [mbind option_bind].
    replace (b + b) with (b * 2) by lia. replace (S * b * 2) with (S * (b * 2)) by lia. apply IH; [lia|lia|done].
Qed.

(** Powers with a positive exponent are exact as long as the power of the integer fits i128. *)
Lemma checked_powi_spec (x : Fixed P S) n :
  0 < n < 2 ^ 31 → S * n < 2 ^ 31 → Z.abs (f_val x ^ n) ≤ MAX i128 →
  checked_powi oc x n = Some (try_new (rescale (f_val x ^ n) (S - S * n))).
Proof.
  intros Hn Hs Hb. pose proof Ht as [HP HS]. destruct i128_range as [_ Hmax]. rewrite Hmax in Hb. unfold checked_powi.
  destruct (Z.eqb_spec (f_val x) 0) as [H0|H0].
  - rewrite H0, Z.pow_0_l, (proj2 (Z.ltb_lt 0 n)) by lia. unfold rescale.
    rewrite Z.quot_0_l by (pose proof (Z.pow_pos_nonneg 10 (- (S - S * n))); nia).
    replace (if S - S * n <? 0 then 0 else 0 * 10 ^ (S - S * n)) with 0 by (destruct (_ <? _); lia).
    rewrite try_new_spec, (proj2 (Z.leb_le _ _)); [done|]. unfold fixed_MAX. pose proof (pow10_bound P ltac:(lia)). cbn; lia.
  - rewrite (proj2 (Z.eqb_neq n 0)), (proj2 (Z.ltb_lt 0 n)) by lia.
    pose proof (powi_pos_spec (f_val x) n 32 n 1 None) as Hp. rewrite Z.pow_1_r, Z.mul_1_r in Hp.
    rewrite Hp by (done || lia). f_equal. apply try_new_with_exponent_spec; [lia|lia|unfold sword; lia|nia].
Qed.
End powers.
