(* ===== verification/FxpText.v ===== *)
(** Decimal numbers as text (crates/fxp/src/lib.rs, FromStr of fixed.rs): printing, parsing, and that
    parsing inverts printing.  A character is its code point.  Debug assertions are left out. *)
From S2P Require Import Prelude Machine Fxp FxpU256 FxpFixed FxpSpec.
#[local] Open Scope Z_scope.

(** ** Characters *)

Definition char_0 : Z := 48.
Definition char_plus : Z := 43.
Definition char_minus : Z := 45.
Definition char_dot : Z := 46.
Definition char_e : Z := 101.
Definition char_E : Z := 69.
Definition is_digit (c : Z) : bool := (48 <=? c) && (c <=? 57).

(** ** Printing *)

(** The decimal digits of a natural number, the last first. *)
Fixpoint rev_digits (fuel : nat) (n : Z) : list Z :=
  match fuel with
  | O => []
  | S fuel => (char_0 + n mod 10) :: (if n <? 10 then [] else rev_digits fuel (n / 10))
  end.

(** [{:0width$}] of a u128. *)
Definition format_padded (n width : Z) : list Z :=
  let digits := reverse (rev_digits 39 n) in
  replicate (Z.to_nat width - length digits)%nat char_0 ++ digits.

(** [while buf.len() > d && buf.ends_with(b"0") { buf.pop(); }] on the reversed fraction. *)
Fixpoint strip_zeros (l : list Z) : list Z :=
  match l with
  | c :: l' => if c =? char_0 then strip_zeros l' else l
  | [] => []
  end.

(** [debug_decimal], the text it writes. *)
Definition debug_decimal (value s : Z) : list Z :=
  let buf := format_padded (Z.abs value) (s + 1) in
  let d := (length buf - Z.to_nat s)%nat in
  let integer := take d buf in
  let fraction := reverse (strip_zeros (reverse (drop d buf))) in
  (if value <? 0 then [char_minus] else []) ++ integer
  ++ (match fraction with [] => [] | _ => char_dot :: fraction end).

(** [{:0width$}] of an i128: the sign counts towards the width. *)
Definition format_int (n width : Z) : list Z :=
  if n <? 0 then char_minus :: format_padded (- n) (width - 1) else format_padded n width.

Inductive Rounding := Up | Down | EvenDigit.

(** The rounding that the discarded digits call for. *)
Definition rounding_of (discard : list Z) : option Rounding :=
  match discard with
  | c :: rest =>
      if (48 <=? c) && (c <=? 52) then Some Down
      else if c =? 53 then Some (if forallb (λ d, d =? char_0) rest then EvenDigit else Up)
      else if (54 <=? c) && (c <=? 57) then Some Up
      else None
  | [] => None
  end.

(** One more in the last place, on the reversed buffer: nines become zeros. *)
Fixpoint carry (l : list Z) : list Z :=
  match l with
  | c :: l => if c =? 57 then char_0 :: carry l else c + 1 :: l
  | [] => [char_0 + 1]
  end.

(** [Rounding::round] *)
Definition round_buf (r : Rounding) (buf : list Z) : option (list Z) :=
  round_up ← (match r with
              | Down => Some false
              | Up => Some true
              | EvenDigit => c ← last buf; Some (c mod 2 =? 1)
              end);
  Some (if round_up : bool then reverse (carry (reverse buf)) else buf).

(** [while decimals > 0 && buf.ends_with(b"0")] on the reversed buffer *)
Fixpoint strip_decimals (decimals : nat) (l : list Z) : nat * list Z :=
  match decimals, l with
  | S n, c :: l' => if c =? char_0 then strip_decimals n l' else (decimals, l)
  | _, _ => (decimals, l)
  end.

(** [display_decimal] without a width: the text it writes for the precision of the formatter. *)
Definition display_decimal (oc : bool) (value s : Z) (precision : option Z) : option (list Z) :=
  a ← arith oc i128 (Z.abs value);
  let buf := format_int a (s + 1) in
  '(decimals, buf) ←
    (match precision with
     | Some precision =>
         match precision ?= s with
         | Lt =>
             let new_len := (length buf - Z.to_nat (s - precision))%nat in
             r ← rounding_of (drop new_len buf);
             buf ← round_buf r (take new_len buf);
             Some (Z.to_nat precision, buf)
         | Eq => Some (Z.to_nat precision, buf)
         | Gt => Some (Z.to_nat precision, buf ++ replicate (Z.to_nat (precision - s)) char_0)
         end
     | None =>
         let '(decimals, rev) := strip_decimals (Z.to_nat s) (reverse buf) in Some (decimals, reverse rev)
     end);
  let n := (length buf - decimals)%nat in
  let text := if (0 <? decimals)%nat then take n buf ++ char_dot :: drop n buf else buf in
  Some ((if value <? 0 then [char_minus] else []) ++ text).

(** ** Parsing *)

Inductive ParseDecimalError := SyntaxError | OutOfRange.

Inductive IntErrorKind := Empty | InvalidDigit | PosOverflow | NegOverflow.

(** The digits of [i32::from_str], added or subtracted one by one. *)
Fixpoint parse_digits (negative : bool) (result : Z) (l : list Z) : IntErrorKind + Z :=
  let overflow := if negative then NegOverflow else PosOverflow in
  match l with
  | [] => inr result
  | c :: l =>
      if negb (is_digit c) then inl InvalidDigit
      else
        let r := result * 10 in
        if negb (in_range i32 r) then inl overflow
        else
          let r := if negative then r - (c - char_0) else r + (c - char_0) in
          if in_range i32 r then parse_digits negative r l else inl overflow
  end.

Definition parse_i32 (l : list Z) : IntErrorKind + Z :=
  match l with
  | [] => inl Empty
  | [c] => if (c =? char_plus) || (c =? char_minus) then inl InvalidDigit else parse_digits false 0 l
  | c :: l' =>
      if c =? char_plus then parse_digits false 0 l'
      else if c =? char_minus then parse_digits true 0 l'
      else parse_digits false 0 l
  end.

Inductive Sign := Positive | Negative.

Record ParseState := MkParseState {
  ps_value : Z;
  ps_exponent : Z;
  ps_saw_dot : bool;
  ps_saw_digit : bool;
  ps_sign : option Sign }.

(** What a step of the loop leads to. *)
Inductive ParseStep :=
| Continue (st : ParseState)
| Return (r : ParseDecimalError + Z * Z)
| Break (st : ParseState).

Definition finish (st : ParseState) : ParseDecimalError + Z * Z :=
  if negb (ps_saw_digit st) then inl SyntaxError
  else inr (match ps_sign st with Some Negative => - ps_value st | _ => ps_value st end, ps_exponent st).

Section parse.
Context (oc : bool).

Definition parse_char (st : ParseState) (c : Z) (rest : list Z) : option ParseStep :=
  let '(MkParseState value exponent saw_dot saw_digit sign) := st in
  if ((c =? char_minus) || (c =? char_plus)) && bool_decide (sign ≠ None)
  then Some (Return (inl SyntaxError))
  else if c =? char_minus
  then Some (Continue (MkParseState value exponent saw_dot saw_digit (Some Negative)))
  else if c =? char_plus
  then Some (Continue (MkParseState value exponent saw_dot saw_digit (Some Positive)))
  else if is_digit c then
    if value <? Z.quot (MAX i128) 10 then
      v ← arith oc i128 (value * 10); v ← arith oc i128 (v + (c - char_0));
      e ← (if saw_dot then arith oc i32 (exponent - 1) else Some exponent);
      Some (Continue (MkParseState v e saw_dot true sign))
    else if negb saw_dot then
      match checked i32 (exponent + 1) with
      | Some e => Some (Continue (MkParseState value e saw_dot true sign))
      | None => Some (Return (inl OutOfRange))
      end
    else Some (Continue (MkParseState value exponent saw_dot true sign))
  else if c =? char_dot then
    if saw_dot then Some (Return (inl SyntaxError))
    else Some (Continue (MkParseState value exponent true saw_digit sign))
  else if (c =? char_e) || (c =? char_E) then
    if negb saw_digit then Some (Return (inl SyntaxError))
    else match parse_i32 rest with
         | inr e =>
             match checked i32 (exponent + e) with
             | Some e => Some (Break (MkParseState value e saw_dot saw_digit sign))
             | None => Some (Return (if 0 <? e then inl OutOfRange else inr (0, 0)))
             end
         | inl PosOverflow => Some (Return (if negb (value =? 0) then inl OutOfRange else inr (0, 0)))
         | inl NegOverflow => Some (Return (inr (0, 0)))
         | inl _ => Some (Return (inl SyntaxError))
         end
  else Some (Return (inl SyntaxError)).

Fixpoint parse_chars (st : ParseState) (l : list Z) : option (ParseDecimalError + Z * Z) :=
  match l with
  | [] => Some (finish st)
  | c :: rest =>
      step ← parse_char st c rest;
      match step with
      | Continue st => parse_chars st rest
      | Return r => Some r
      | Break st => Some (finish st)
      end
  end.

Definition parse_decimal (l : list Z) (scale : Z) : option (ParseDecimalError + Z * Z) :=
  parse_chars (MkParseState 0 scale false false None) l.

(** [FromStr] for [Fixed<P, S>] *)
Definition from_str {P S} (l : list Z) : option (ParseDecimalError + Fixed P S) :=
  r ← parse_decimal l S;
  match r with
  | inl e => Some (inl e)
  | inr (value, exponent) =>
      x ← try_new_with_exponent_round_even oc value exponent;
      Some (match x with Some x => inr x | None => inl OutOfRange end)
  end.
End parse.

Example debug_example : debug_decimal (-1682501) 6 = [45; 49; 46; 54; 56; 50; 53; 48; 49].
Proof. vm_compute. done. Qed.

Example display_example :
  display_decimal true (-19995) 4 (Some 3) = Some [45; 50; 46; 48; 48; 48]
  ∧ display_decimal true 19985 4 (Some 3) = Some [49; 46; 57; 57; 56]
  ∧ display_decimal true 1500 4 (Some 5) = Some [48; 46; 49; 53; 48; 48; 48].
Proof. vm_compute. done. Qed.

Example parse_example : from_str (P := 10) (S := 2) true [45; 49; 46; 50; 51; 53; 101; 49] = Some (inr (MkFixed (-1235))).
Proof. vm_compute. done. Qed.

(** ** Parsing inverts printing *)

(** The number that digits denote. *)
Fixpoint number (acc : Z) (l : list Z) : Z :=
  match l with
  | [] => acc
  | c :: l => number (acc * 10 + (c - char_0)) l
  end.

Definition digits (l : list Z) : Prop := Forall (λ c, is_digit c = true) l.

Lemma is_digit_spec c : is_digit c = true ↔ 0 ≤ c - char_0 < 10.
Proof. unfold is_digit, char_0. rewrite andb_true_iff, !Z.leb_le. lia. Qed.

Lemma number_app acc l k : number acc (l ++ k) = number (number acc l) k.
Proof. revert acc. induction l as [|c l IH]; intros acc; [done|]. apply IH. Qed.

Lemma number_zeros acc k : number acc (replicate k char_0) = acc * 10 ^ Z.of_nat k.
Proof.
  revert acc. induction k as [|k IH]; intros acc; [cbn; lia|]. cbn [replicate number].
  rewrite IH, Nat2Z.inj_succ, Z.pow_succ_r by lia. unfold char_0. lia.
Qed.

Lemma number_mono acc l : digits l → 0 ≤ acc → acc ≤ number acc l.
Proof.
  intros Hl. revert acc. induction Hl as [|c l Hc%is_digit_spec Hl IH]; intros acc Hacc; [done|]. cbn [number].
  specialize (IH (acc * 10 + (c - char_0)) ltac:(lia)). lia.
Qed.

Lemma rev_digits_spec fuel n :
  0 ≤ n < 10 ^ Z.of_nat fuel → (0 < fuel)%nat →
  number 0 (reverse (rev_digits fuel n)) = n ∧ digits (rev_digits fuel n)
  ∧ (0 < length (rev_digits fuel n) ≤ fuel)%nat.
Proof.
  revert n. induction fuel as [|fuel IH]; intros n Hn Hf; [lia|]. cbn [rev_digits].
  rewrite reverse_cons, number_app. unfold digits. cbn [number length].
  pose proof (Z.mod_pos_bound n 10 ltac:(lia)). pose proof (Z.div_mod n 10 ltac:(lia)).
  assert (is_digit (char_0 + n mod 10) = true) by (apply is_digit_spec; lia).
  destruct (Z.ltb_spec n 10) as [Hlt|Hge].
  - rewrite (Z.mod_small n 10) in * by lia. cbn. split_and!; [lia| |lia..]. constructor; [done|]. constructor.
  - rewrite Nat2Z.inj_succ, Z.pow_succ_r in Hn by lia.
    assert (0 < fuel)%nat as Hf' by (destruct fuel; [cbn in Hn; lia|lia]).
    destruct (IH (n / 10)) as (IHn & IHd & IHl); [|done|].
    { split; [apply Z.div_pos; lia|]. apply Z.div_lt_upper_bound; lia. }
    rewrite IHn. split_and!; [lia|by constructor|lia..].
Qed.

Lemma format_padded_spec n width :
  0 ≤ n < 10 ^ 39 → 0 ≤ width →
  number 0 (format_padded n width) = n ∧ digits (format_padded n width)
  ∧ (Z.to_nat width ≤ length (format_padded n width) ≤ Z.to_nat width `max` 39)%nat.
Proof.
  intros Hn Hw. unfold format_padded. destruct (rev_digits_spec 39 n) as (Hnum & Hdig & Hlen); [lia|lia|].
  rewrite number_app, number_zeros, Z.mul_0_l, Hnum. split_and!; [done| |rewrite length_app, length_replicate, length_reverse; lia..].
  apply Forall_app. split; [by apply Forall_replicate|by apply Forall_reverse].
Qed.

Lemma strip_zeros_spec l : ∃ k, l = replicate k char_0 ++ strip_zeros l.
Proof.
  induction l as [|c l [k IH]]; [by exists 0%nat|]. cbn [strip_zeros]. destruct (Z.eqb_spec c char_0) as [->|]; [|by exists 0%nat].
  exists (S k). cbn. by f_equal.
Qed.

(** The fraction without its trailing zeros. *)
Lemma stripped_spec l : ∃ k, l = reverse (strip_zeros (reverse l)) ++ replicate k char_0.
Proof.
  destruct (strip_zeros_spec (reverse l)) as [k Hk]. exists k. apply (f_equal reverse) in Hk.
  by rewrite reverse_involutive, reverse_app, reverse_replicate in Hk.
Qed.

(** Numbers below this bound are parsed digit by digit; above it, digits are dropped. *)
Definition parse_limit : Z := Z.quot (MAX i128) 10 * 10.

Lemma parse_limit_val : parse_limit = 170141183460469231731687303715884105720.
Proof. done. Qed.

Lemma parse_run oc l rest v e dot saw sign :
  digits l → 0 ≤ v → number v l < parse_limit → - 1000 ≤ e - Z.of_nat (length l) → e ≤ 1000 →
  parse_chars oc (MkParseState v e dot saw sign) (l ++ rest)
  = parse_chars oc (MkParseState (number v l) (if dot then e - Z.of_nat (length l) else e) dot
                      (saw || negb (bool_decide (l = []))) sign) rest.
Proof.
  rewrite parse_limit_val. intros Hl. revert v e saw. induction Hl as [|c l Hc Hl IH]; intros v e saw Hv Hn Helo Hehi.
  - cbn. rewrite orb_false_r, Z.sub_0_r. by destruct dot.
  - cbn [app parse_chars number length] in *. unfold parse_char. rewrite Hc. apply is_digit_spec in Hc.
    pose proof (number_mono (v * 10 + (c - char_0)) l Hl ltac:(lia)) as Hm. unfold char_0 in *.
    rewrite (proj2 (Z.eqb_neq c char_minus)), (proj2 (Z.eqb_neq c char_plus)) by (unfold char_minus, char_plus; lia).
    cbn [orb andb]. rewrite (proj2 (Z.ltb_lt v _)) by (change (Z.quot (MAX i128) 10) with 17014118346046923173168730371588410572; lia).
    rewrite (arith_sword oc (v * 10)) by (unfold sword; lia). cbn [mbind option_bind].
    rewrite (arith_sword oc (v * 10 + _)) by (unfold sword; lia). cbn [mbind option_bind].
    destruct dot.
    + rewrite arith_ok by (apply in_range_spec; cbn; lia). cbn [mbind option_bind].
      rewrite IH by lia. f_equal. f_equal; [lia|]. by destruct saw.
    + cbn [mbind option_bind]. rewrite IH by lia. f_equal. f_equal. by destruct saw.
Qed.

Lemma parse_dot oc v e saw sign l :
  parse_chars oc (MkParseState v e false saw sign) (char_dot :: l) = parse_chars oc (MkParseState v e true saw sign) l.
Proof. done. Qed.

(** An integer part and a fraction, in front of which a sign may have been read. *)
Lemma parse_unsigned oc int fr sc sign :
  digits int → digits fr → int ≠ [] → number 0 (int ++ fr) < parse_limit →
  0 ≤ sc ≤ 255 → (length int ≤ 256)%nat → (length fr ≤ 256)%nat →
  parse_chars oc (MkParseState 0 sc false false sign) (int ++ match fr with [] => [] | _ => char_dot :: fr end)
  = Some (inr (match sign with Some Negative => - number 0 (int ++ fr) | _ => number 0 (int ++ fr) end,
               sc - Z.of_nat (length fr))).
Proof.
  intros Hdi Hdf Hint Hn Hsc Hli Hlf. rewrite number_app in *. pose proof (number_mono 0 int Hdi ltac:(lia)) as Hni.
  pose proof (number_mono _ fr Hdf Hni) as Hnf. rewrite parse_run by (done || lia).
  rewrite (bool_decide_eq_false_2 _ Hint). destruct fr as [|c fr]; [cbn; by rewrite Z.sub_0_r|].
  rewrite parse_dot. pose proof (parse_run oc (c :: fr) [] (number 0 int) sc true true sign Hdf Hni) as Hrun.
  rewrite app_nil_r in Hrun. cbn [orb negb] in *. rewrite Hrun by (done || lia). by destruct sign as [[]|].
Qed.

(** Reading back the text of a number gives a value and an exponent that denote it. *)
Lemma parse_printed oc value s sc :
  Z.abs value < parse_limit → 0 ≤ s ≤ 255 → 0 ≤ sc ≤ 255 →
  ∃ v f, parse_decimal oc (debug_decimal value s) sc = Some (inr (v, sc - f))
         ∧ 0 ≤ f ≤ s ∧ value = v * 10 ^ (s - f).
Proof.
  intros Hv Hs Hsc. pose proof parse_limit_val as Hlim.
  destruct (format_padded_spec (Z.abs value) (s + 1)) as (Hnum & Hdig & Hlen); [lia..|].
  unfold debug_decimal, parse_decimal. set (buf := format_padded _ _) in *. clearbody buf.
  set (d := (length buf - Z.to_nat s)%nat). set (int := take d buf). set (frac := drop d buf).
  assert (buf = int ++ frac) as Hbuf by (symmetry; apply take_drop).
  assert (length frac = Z.to_nat s) as Hlf by (unfold frac; rewrite length_drop; lia).
  assert (length int = d) as Hli by (unfold int; rewrite length_take; lia).
  assert (int ≠ []) as Hint by (intros ->; cbn in Hli; lia).
  assert (length int ≤ 256)%nat as Hli' by lia.
  clearbody int frac d. destruct (stripped_spec frac) as [k Hk]. set (fr := reverse (strip_zeros (reverse frac))) in *.
  clearbody fr. subst buf. rewrite Hk in Hdig, Hnum, Hlf. clear Hlen Hk frac.
  apply Forall_app in Hdig as [Hdi [Hdf _]%Forall_app]. rewrite app_assoc, number_app, number_zeros in Hnum.
  rewrite length_app, length_replicate in Hlf. set (n := number 0 (int ++ fr)) in *.
  assert (0 ≤ n) as Hn0 by (apply number_mono; [by apply Forall_app|done]).
  assert (n ≤ Z.abs value) as Hn by (pose proof (Z.pow_pos_nonneg 10 (Z.of_nat k)); nia).
  pose proof (parse_unsigned oc int fr sc) as Hrun. fold n in Hrun.
  exists (if value <? 0 then - n else n), (Z.of_nat (length fr)). split; [|split; [lia|]].
  - destruct (Z.ltb_spec value 0); [|by rewrite app_nil_l, (Hrun None) by (done || lia)].
    specialize (Hrun (Some Negative) Hdi Hdf Hint ltac:(lia) Hsc Hli' ltac:(lia)). exact Hrun.
  - replace (s - Z.of_nat (length fr)) with (Z.of_nat k) by lia. destruct (Z.ltb_spec value 0); lia.
Qed.

(** [v * 10 ^ e] in range, for a nonnegative exponent. *)
Lemma mul_pow10_round_even_nonneg oc v e :
  0 ≤ e ≤ 38 → sword (v * 10 ^ e) → i128_mul_pow10_round_even oc v e = Some (Some (v * 10 ^ e)).
Proof.
  intros He Hw. unfold i128_mul_pow10_round_even. destruct (Z.compare_spec e 0) as [->|Hlt|Hgt]; [|lia|].
  - cbn. by rewrite Z.mul_1_r.
  - change (checked_pow10 e) with (pow10 e). rewrite pow10_Some by lia. cbn [mbind option_bind].
    unfold checked. by rewrite (proj2 (sword_in_range _) Hw).
Qed.

Lemma from_str_printed oc {P S} (x : Fixed P S) :
  fixed_ty P S → f_ok x → from_str oc (debug_decimal (f_val x) S) = Some (inr x).
Proof.
  intros Ht Hx. pose proof (f_ok_bound x Ht Hx) as Hb. pose proof (f_ok_sword x Ht Hx) as Hw. pose proof Ht as [HP HS].
  destruct (parse_printed oc (f_val x) S S) as (v & f & Hp & Hf & Hval); [rewrite parse_limit_val; lia|lia..|].
  unfold from_str. rewrite Hp. cbn [mbind option_bind]. unfold try_new_with_exponent_round_even.
  rewrite mul_pow10_round_even_nonneg by (lia || by rewrite <- Hval). cbn [mbind option_bind]. rewrite <- Hval, try_new_spec.
  unfold f_ok in Hx. rewrite (proj2 (Z.leb_le _ _)) by done. by destruct x.
Qed.

(** ** Display *)

Lemma strip_decimals_spec n l :
  (n ≤ length l)%nat →
  strip_decimals n l = (length (strip_zeros (take n l)), strip_zeros (take n l) ++ drop n l).
Proof.
  revert l. induction n as [|n IH]; intros [|c l] Hn; cbn in *; [done..|lia|].
  destruct (Z.eqb_spec c char_0); [apply IH; lia|]. cbn. by rewrite take_drop, length_take, Nat.min_l by lia.
Qed.

(** Without a precision, what is displayed is what is printed for debugging. *)
Lemma display_is_debug oc value s :
  Z.abs value < 2 ^ 127 → 0 ≤ s → display_decimal oc value s None = Some (debug_decimal value s).
Proof.
  intros Hv Hs. unfold display_decimal, debug_decimal. rewrite arith_sword by (unfold sword; lia). cbn [mbind option_bind].
  unfold format_int. rewrite (proj2 (Z.ltb_ge (Z.abs value) 0)) by lia.
  destruct (format_padded_spec (Z.abs value) (s + 1)) as (_ & _ & Hlen); [lia..|]. set (buf := format_padded _ _) in *. clearbody buf.
  rewrite strip_decimals_spec by (rewrite length_reverse; lia). cbn [mbind option_bind]. rewrite take_reverse, drop_reverse.
  set (d := (length buf - Z.to_nat s)%nat) in *. set (fr := strip_zeros (reverse (drop d buf))).
  rewrite reverse_app, reverse_involutive. rewrite length_app, length_reverse, Nat.add_sub.
  rewrite take_app_length, drop_app_length. f_equal. f_equal.
  destruct fr as [|c fr]; [done|]. rewrite reverse_cons. cbn [length Nat.ltb Nat.leb].
  by destruct (reverse fr ++ [c]) eqn:E; [apply app_eq_nil in E as [_ [=]]|].
Qed.

Lemma carry_spec l : digits l → number 0 (reverse (carry l)) = number 0 (reverse l) + 1.
Proof.
  intros Hl. induction Hl as [|c l Hc Hl IH]; [done|]. cbn [carry]. destruct (Z.eqb_spec c 57) as [->|].
  - rewrite !reverse_cons, !number_app, IH. cbn [number]. unfold char_0. lia.
  - rewrite !reverse_cons, !number_app. cbn [number]. lia.
Qed.

Lemma number_acc acc l : number acc l = acc * 10 ^ Z.of_nat (length l) + number 0 l.
Proof.
  revert acc. induction l as [|c l IH]; intros acc; cbn [number length]; [cbn; lia|].
  rewrite IH, (IH (0 * 10 + _)), Nat2Z.inj_succ, Z.pow_succ_r by lia. lia.
Qed.

Lemma number_range l : digits l → 0 ≤ number 0 l < 10 ^ Z.of_nat (length l).
Proof.
  intros Hl. induction Hl as [|c l Hc%is_digit_spec Hl IH]; cbn [number length]; [cbn; lia|].
  rewrite number_acc, Nat2Z.inj_succ, Z.pow_succ_r by lia. nia.
Qed.

Lemma number_zero_iff l : digits l → forallb (λ d, d =? char_0) l = (number 0 l =? 0).
Proof.
  intros Hl. induction Hl as [|c l Hc%is_digit_spec Hl IH]; [done|]. cbn [forallb number]. rewrite IH, (number_acc (0 * 10 + _)).
  pose proof (number_range l Hl). assert (0 < 10 ^ Z.of_nat (length l)) by (apply Z.pow_pos_nonneg; lia).
  destruct (Z.eqb_spec c char_0) as [->|]; destruct (Z.eqb_spec (number 0 l) 0); symmetry; cbn [andb];
    first [apply Z.eqb_eq | apply Z.eqb_neq]; nia.
Qed.

(** The rounding compares the discarded number with half of the unit in the last place kept. *)
Lemma rounding_of_spec l :
  digits l → l ≠ [] →
  rounding_of l = Some (match 2 * number 0 l ?= 10 ^ Z.of_nat (length l) with
                        | Lt => Down | Eq => EvenDigit | Gt => Up end).
Proof.
  intros Hl Hne. destruct Hl as [|c l Hc Hl]; [done|]. apply is_digit_spec in Hc as Hd. unfold char_0 in Hd.
  cbn [rounding_of number length]. rewrite number_zero_iff, (number_acc (0 * 10 + _)), Nat2Z.inj_succ, Z.pow_succ_r by (done || lia).
  pose proof (number_range l Hl) as Hr. set (n := number 0 l) in *. set (p := 10 ^ _) in *. clearbody n p. unfold char_0.
  destruct (Z.leb_spec 48 c), (Z.leb_spec c 52), (Z.eqb_spec c 53), (Z.leb_spec 54 c), (Z.leb_spec c 57),
    (Z.eqb_spec n 0), (Z.compare_spec (2 * ((0 * 10 + (c - 48)) * p + n)) (10 * p)); cbn [andb]; done || nia.
Qed.

Lemma carry_digits l : digits l → digits (carry l) ∧ (length l ≤ length (carry l))%nat.
Proof.
  unfold digits. intros Hl. induction Hl as [|c l Hc Hl [IHd IHl]]; cbn [carry].
  - split; [by repeat constructor|cbn; lia].
  - destruct (Z.eqb_spec c 57) as [->|Hne]; cbn [length]; split; [by constructor|lia| |lia].
    constructor; [|done]. apply is_digit_spec. apply is_digit_spec in Hc. unfold char_0 in *. lia.
Qed.

Lemma last_digit_parity l c : last l = Some c → c mod 2 = (number 0 l) mod 2.
Proof.
  intros [l' ->]%last_Some. rewrite number_app. cbn [number]. unfold char_0.
  replace (number 0 l' * 10 + (c - 48)) with (c + (number 0 l' * 5 - 24) * 2) by lia. by rewrite Z_mod_plus_full.
Qed.

Lemma round_buf_spec r buf :
  digits buf → buf ≠ [] →
  ∃ buf', round_buf r buf = Some buf' ∧ digits buf' ∧ (length buf ≤ length buf')%nat
          ∧ number 0 buf' = number 0 buf + match r with
                                           | Up => 1 | Down => 0
                                           | EvenDigit => if Z.even (number 0 buf) then 0 else 1 end.
Proof.
  intros Hd Hne. pose proof (carry_digits (reverse buf) (proj2 (Forall_reverse _ _) Hd)) as [Hcd Hcl].
  pose proof (carry_spec (reverse buf) (proj2 (Forall_reverse _ _) Hd)) as Hcs. rewrite reverse_involutive in Hcs.
  rewrite length_reverse in Hcl. unfold round_buf.
  assert (digits (reverse (carry (reverse buf)))) as Hcd' by by apply Forall_reverse.
  destruct r; cbn [mbind option_bind].
  - exists (reverse (carry (reverse buf))). rewrite length_reverse. by rewrite Hcs.
  - exists buf. by rewrite Z.add_0_r.
  - destruct (last buf) as [c|] eqn:Hlast; [|by apply last_None in Hlast]. cbn [mbind option_bind].
    rewrite (last_digit_parity _ _ Hlast), Zmod_even. destruct (Z.even (number 0 buf)); cbn.
    + exists buf. by rewrite Z.add_0_r.
    + exists (reverse (carry (reverse buf))). rewrite length_reverse. by rewrite Hcs.
Qed.

Lemma nearest_even k d e :
  0 ≤ e < d →
  nearest Even d (k * d + e) (k + match 2 * e ?= d with Lt => 0 | Eq => if Z.even k then 0 else 1 | Gt => 1 end).
Proof.
  intros He. unfold nearest. rewrite Z.mul_add_distr_r.
  destruct (Z.compare_spec (2 * e) d); [destruct (Z.even k) eqn:Hk|..]; (split; [lia|intros Htie]); try lia.
  - by rewrite Z.add_0_r.
  - by rewrite Z.even_add, Hk.
Qed.

(** With a smaller precision, the digits displayed are those of the nearest number with that many
    decimals, ties to even. *)
Lemma display_precision oc value s p :
  Z.abs value < 2 ^ 127 → 0 ≤ p < s →
  ∃ int fr, display_decimal oc value s (Some p)
            = Some ((if value <? 0 then [char_minus] else []) ++ int ++ (if p =? 0 then [] else char_dot :: fr))
            ∧ digits (int ++ fr) ∧ int ≠ [] ∧ length fr = Z.to_nat p
            ∧ nearest Even (10 ^ (s - p)) (Z.abs value) (number 0 (int ++ fr)).
Proof.
  intros Hv Hp. unfold display_decimal. rewrite arith_sword by (unfold sword; lia). cbn [mbind option_bind].
  unfold format_int. rewrite (proj2 (Z.ltb_ge (Z.abs value) 0)), (proj2 (Z.compare_lt_iff p s)) by lia.
  destruct (format_padded_spec (Z.abs value) (s + 1)) as (Hnum & Hdig & Hlen); [lia..|].
  set (buf := format_padded _ _) in *. clearbody buf. set (n := (length buf - Z.to_nat (s - p))%nat).
  rewrite <- (take_drop n buf) in Hnum, Hdig. apply Forall_app in Hdig as [Hdk Hdd].
  assert (length (take n buf) = n) as Hlk by (rewrite length_take; lia).
  assert (length (drop n buf) = Z.to_nat (s - p)) as Hld by (rewrite length_drop; lia).
  set (kept := take n buf) in *. set (disc := drop n buf) in *. clearbody kept disc.
  rewrite rounding_of_spec; [|done|intros ->; cbn in Hld; lia]. cbn [mbind option_bind].
  destruct (round_buf_spec (match 2 * number 0 disc ?= 10 ^ Z.of_nat (length disc) with Lt => Down | Eq => EvenDigit | Gt => Up end)
    kept Hdk) as (buf' & -> & Hd' & Hl' & Hn'); [intros ->; cbn in Hlk; lia|]. cbn [mbind option_bind].
  set (m := (length buf' - Z.to_nat p)%nat). exists (take m buf'), (drop m buf'). rewrite take_drop. split_and!.
  - do 2 f_equal. destruct (Nat.ltb_spec 0 (Z.to_nat p)), (Z.eqb_spec p 0); try lia; [done|].
    rewrite app_nil_r, take_ge; [done|lia].
  - done.
  - intros Hnil%(f_equal length). rewrite length_take in Hnil. cbn in Hnil. lia.
  - rewrite length_drop. lia.
  - pose proof (number_range disc Hdd) as Hr. rewrite number_app, number_acc, Hld, Z2Nat.id in Hnum by lia.
    rewrite Hld, Z2Nat.id in Hr, Hn' by lia. rewrite Hn', <- Hnum.
    assert (∀ c, match match c with Lt => Down | Eq => EvenDigit | Gt => Up end with
                 | Up => 1 | Down => 0 | EvenDigit => if Z.even (number 0 kept) then 0 else 1 end
                 = match c with Lt => 0 | Eq => if Z.even (number 0 kept) then 0 else 1 | Gt => 1 end) as Hc by by intros [].
    rewrite Hc. by apply nearest_even.
Qed.
