(* ===== verification/FxpDynamic.v ===== *)
(** Decimal numbers with a scale of their own (crates/fxp/src/dynamic.rs), kept in a canonical form:
    construction, comparison, arithmetic and conversions, and what makes the form canonical. *)
From S2P Require Import Prelude Machine Fxp FxpU256 FxpFixed FxpSpec FxpText.
#[local] Open Scope Z_scope.

(** The number [sig / 10 ^ exponent]; the exponent is a u8. *)
Record DynamicDecimal := MkDynamic { sig : Z; exponent : Z }.

#[global] Instance DynamicDecimal_eq_dec : EqDecision DynamicDecimal.
Proof. solve_decision. Defined.

(** ** Construction *)

(** [reduce::<D>]: divides by [10 ^ D] as often as no nonzero digit is lost.  Each round lowers the
    exponent by [D], so that [exponent + 1] rounds are enough. *)
Fixpoint reduce_from (fuel : nat) (D s e : Z) : Z * Z :=
  match fuel with
  | O => (s, e)
  | S fuel =>
      if (D <=? e) && (10 ^ D <=? Z.abs s) && (Z.land s (Z.shiftl 1 D - 1) =? 0) && (Z.rem s (10 ^ D) =? 0)
      then reduce_from fuel D (Z.quot s (10 ^ D)) (e - D)
      else (s, e)
  end.

Definition reduce (D s e : Z) : Z * Z := reduce_from (S (Z.to_nat e)) D s e.

Module Dynamic.
Definition new (s e : Z) : DynamicDecimal :=
  if e =? 0 then MkDynamic s e
  else if s =? 0 then MkDynamic s 0
  else
    let '(s, e) := reduce 8 s e in
    let '(s, e) := reduce 4 s e in
    let '(s, e) := reduce 1 s e in
    MkDynamic s e.

Definition ZERO : DynamicDecimal := new 0 0.
Definition ONE : DynamicDecimal := new 1 0.
Definition MAX : DynamicDecimal := new (Machine.MAX i128) 0.
Definition MIN : DynamicDecimal := new (Machine.MIN i128) 0.

Definition is_negative (self : DynamicDecimal) : bool := sig self <? 0.

Definition trunc (self : DynamicDecimal) : option DynamicDecimal :=
  p ← pow10 (exponent self); Some (new (Z.quot (sig self) p) 0).

Definition trunc_digits (self : DynamicDecimal) (digits : Z) : option DynamicDecimal :=
  if exponent self <=? digits then Some self
  else if 38 <? exponent self - digits then Some ZERO
  else divisor ← pow10 (exponent self - digits); Some (new (Z.quot (sig self) divisor) digits).

(** *** Conversions *)

(** [From<Fixed<P, S>>] *)
Definition from_fixed {P S} (value : Fixed P S) : DynamicDecimal := new (f_val value) (wrap u8 S).

(** [TryFrom<DynamicDecimal>] for [Fixed<P, S>] *)
Definition to_fixed {P S} (value : DynamicDecimal) : option (Fixed P S) :=
  try_new_with_exponent (sig value) (S - exponent value).

(** [From] for the integer types; [TryFrom<u128>] *)
Definition from_int (value : Z) : DynamicDecimal := new value 0.
Definition try_from_u128 (value : Z) : option DynamicDecimal := v ← checked i128 value; Some (new v 0).

Definition to_i128 (value : DynamicDecimal) : Z :=
  match checked_pow10 (exponent value) with
  | Some divisor => Z.quot (sig value) divisor
  | None => 0
  end.

(** [TryFrom<DynamicDecimal>] for the integer type [t] *)
Definition try_to_int (t : int_ty) (value : DynamicDecimal) : option Z :=
  match checked_pow10 (exponent value) with
  | Some divisor => checked t (Z.quot (sig value) divisor)
  | None => Some 0
  end.

(** ** Order *)

Definition cmp (self other : DynamicDecimal) : comparison :=
  match exponent self ?= exponent other with
  | Lt =>
      match checked_pow10 (exponent other - exponent self) with
      | Some multiplier => I256.cmp (I256.from_product (sig self) multiplier) (I256.from (sig other))
      | None => match sig self ?= 0 with Eq => 0 ?= sig other | ordering => ordering end
      end
  | Eq => sig self ?= sig other
  | Gt =>
      match checked_pow10 (exponent self - exponent other) with
      | Some multiplier => I256.cmp (I256.from (sig self)) (I256.from_product (sig other) multiplier)
      | None => match sig other ?= 0 with Eq => sig self ?= 0 | ordering => CompOpp ordering end
      end
  end.

(** ** Arithmetic *)

Section ops.
Context (oc : bool).

Definition abs (self : DynamicDecimal) : option DynamicDecimal :=
  a ← arith oc i128 (Z.abs (sig self)); Some (new a (exponent self)).

Definition neg (self : DynamicDecimal) : option DynamicDecimal :=
  n ← arith oc i128 (- sig self); Some (new n (exponent self)).

(** The sum of [small], with the smaller exponent, and [large]. *)
Definition add_scaled (small large : DynamicDecimal) : option DynamicDecimal :=
  factor ← pow10 (exponent large - exponent small);
  if sig small <=? Z.quot (Z.quot (Machine.MAX i128) factor) 10 then
    x ← arith oc i128 (sig small * factor);
    sum ← checked i128 (sig large + x);
    Some (new sum (exponent large))
  else
    '(result, shift) ←
      I256.reduce_to_i128 oc (I256.add (I256.from_product (sig small) factor) (I256.from (sig large)));
    Some (new result (wrap u8 shift)).

Definition add (self other : DynamicDecimal) : option DynamicDecimal :=
  match exponent self ?= exponent other with
  | Lt => add_scaled self other
  | Eq => sum ← checked i128 (sig self + sig other); Some (new sum (exponent self))
  | Gt => add_scaled other self
  end.

Definition sub (self other : DynamicDecimal) : option DynamicDecimal := n ← neg other; add self n.

Definition mul (self other : DynamicDecimal) : option DynamicDecimal :=
  '(result, shift) ← I256.reduce_to_i128 oc (I256.from_product (sig self) (sig other));
  e ← arith oc u8 (wrap u8 shift + exponent self);
  e ← arith oc u8 (e + exponent other);
  Some (new result e).

Definition MIN_DIGITS : Z := 6.

Definition div (self other : DynamicDecimal) : option DynamicDecimal :=
  assert! (negb (sig other =? 0)) in
  let digits := Z.max (Z.max MIN_DIGITS (exponent self)) (exponent other) in
  e ← arith oc u8 (exponent other + digits);
  let shift_left := usub e (exponent self) in
  assert! (shift_left <=? 38) in
  m ← pow10 shift_left;
  d ← I256.narrowing_div oc (I256.from_product (sig self) m) (sig other);
  d ← d;
  e ← arith oc u8 (exponent other + digits);
  p ← pow10 (usub (exponent self) e);
  adjust ← arith oc i128 (d * p);
  Some (new adjust digits).

Definition rem (self other : DynamicDecimal) : option DynamicDecimal :=
  left ← abs self;
  right ← abs other;
  d ← div left right;
  t ← trunc d;
  m ← mul right t;
  r ← sub left m;
  if is_negative self then neg r else Some r.

Definition floor (self : DynamicDecimal) : option DynamicDecimal :=
  t ← trunc self;
  if is_negative self then if bool_decide (t ≠ self) then sub t (new 1 0) else Some self
  else Some t.

(** ** Text *)

Definition from_str (l : list Z) : option (ParseDecimalError + DynamicDecimal) :=
  r ← parse_decimal oc l 0;
  match r with
  | inl e => Some (inl e)
  | inr (s, e) =>
      if s =? 0 then Some (inr ZERO)
      else if 0 <? e then
        Some (match m ← checked_pow10 e; checked i128 (m * s) with
              | Some s => inr (new s 0)
              | None => inl OutOfRange
              end)
      else if e =? 0 then Some (inr (MkDynamic s 0))
      else if -255 <=? e then Some (inr (new s (- e)))
      else Some (inr ZERO)
  end.
End ops.
End Dynamic.

Example new_example : Dynamic.new 1230000000000 14 = MkDynamic 123 4.
Proof. vm_compute. done. Qed.

(** A sum that fits its type, computed by the wide path: the scale is lost. *)
Example add_wide_loses_scale :
  Dynamic.add true (MkDynamic (10 ^ 37) 0) (MkDynamic 1 1) = Some (MkDynamic (10 ^ 38 + 1) 0).
Proof. vm_compute. done. Qed.

Example mul_wide_wrong_scale :
  Dynamic.mul true (MkDynamic (10 ^ 20) 0) (MkDynamic (10 ^ 20) 0) = Some (MkDynamic (10 ^ 36) 0).
Proof. vm_compute. done. Qed.

(** ** The canonical form *)

Definition d_ok (x : DynamicDecimal) : Prop := sword (sig x) ∧ 0 ≤ exponent x ≤ 255.

(** The invariant of the type. *)
Definition canonical (x : DynamicDecimal) : Prop :=
  (sig x = 0 → exponent x = 0) ∧ (exponent x ≠ 0 → sig x mod 10 ≠ 0).

(** [x] is the number [s / 10 ^ e]. *)
Definition d_is (x : DynamicDecimal) (s e : Z) : Prop := sig x * 10 ^ e = s * 10 ^ exponent x.

(** The test on the low bits never rejects a multiple of [10 ^ D]. *)
Lemma low_bits_of_multiple D k : 0 ≤ D → Z.land (k * 10 ^ D) (Z.shiftl 1 D - 1) = 0.
Proof.
  intros HD. replace (Z.shiftl 1 D - 1) with (Z.ones D) by (unfold Z.ones; lia).
  rewrite Z.land_ones by done. change 10 with (5 * 2) at 1. rewrite Z.pow_mul_l, Z.mul_assoc. apply Z_mod_mult.
Qed.

Lemma reduce_from_spec fuel D s e :
  0 < D → 0 ≤ e → (Z.to_nat e < fuel)%nat → s ≠ 0 →
  let '(s', e') := reduce_from fuel D s e in
  s = s' * 10 ^ (e - e') ∧ 0 ≤ e' ≤ e ∧ (D ≤ e' → s' mod 10 ^ D ≠ 0).
Proof.
  intros HD. revert s e. induction fuel as [|fuel IH]; intros s e He Hf Hs; [lia|]. cbn [reduce_from].
  assert (0 < 10 ^ D) as Hp by (apply Z.pow_pos_nonneg; lia).
  destruct (Z.leb_spec D e) as [Hle|]; cbn [andb]; [|split_and!; [by rewrite Z.sub_diag, Z.mul_1_r|lia..]].
  destruct (Z.eqb_spec (Z.rem s (10 ^ D)) 0) as [Hr|Hr].
  - pose proof (Z.quot_rem s (10 ^ D) ltac:(lia)) as Hq. rewrite Hr, Z.add_0_r, Z.mul_comm in Hq.
    set (q := Z.quot s (10 ^ D)) in *. assert (q ≠ 0) as Hq0 by nia.
    rewrite (proj2 (Z.leb_le (10 ^ D) (Z.abs s))), (proj2 (Z.eqb_eq (Z.land _ _) 0)); [|rewrite Hq at 1; apply low_bits_of_multiple; lia|nia].
    cbn [andb]. specialize (IH q (e - D) ltac:(lia) ltac:(lia) Hq0).
    destruct (reduce_from fuel D q (e - D)) as [s' e']. destruct IH as (IHv & IHe & IHn). split_and!; [|lia..|done].
    rewrite Hq, IHv, <- Z.mul_assoc, <- Z.pow_add_r by lia. do 2 f_equal. lia.
  - rewrite andb_false_r. split_and!; [by rewrite Z.sub_diag, Z.mul_1_r|lia..|]. intros _ Hm. destruct Hr.
    apply Z.rem_divide; [lia|]. by apply Z.mod_divide; [lia|].
Qed.

Lemma reduce_spec D s e :
  0 < D → 0 ≤ e → s ≠ 0 →
  ∃ s' e', reduce D s e = (s', e') ∧ s = s' * 10 ^ (e - e') ∧ 0 ≤ e' ≤ e ∧ (D ≤ e' → s' mod 10 ^ D ≠ 0).
Proof.
  intros HD He Hs. pose proof (reduce_from_spec (S (Z.to_nat e)) D s e HD He ltac:(lia) Hs) as H.
  unfold reduce. destruct (reduce_from _ D s e) as [s' e']. eauto.
Qed.

(** What [new] builds: canonical, of the value asked for, and no larger in size. *)
Lemma new_spec s e :
  0 ≤ e → canonical (Dynamic.new s e) ∧ 0 ≤ exponent (Dynamic.new s e) ≤ e
          ∧ s = sig (Dynamic.new s e) * 10 ^ (e - exponent (Dynamic.new s e)).
Proof.
  intros He. unfold Dynamic.new, canonical. destruct (Z.eqb_spec e 0) as [->|He0]; [cbn; lia|].
  destruct (Z.eqb_spec s 0) as [->|Hs0]; [cbn; lia|].
  destruct (reduce_spec 8 s e) as (s1 & e1 & -> & H1 & He1 & _); [lia..|].
  assert (s1 ≠ 0) by (intros ->; lia).
  destruct (reduce_spec 4 s1 e1) as (s2 & e2 & -> & H2 & He2 & _); [lia..|].
  assert (s2 ≠ 0) by (intros ->; lia).
  destruct (reduce_spec 1 s2 e2) as (s3 & e3 & -> & H3 & He3 & Hm); [lia..|].
  assert (s3 ≠ 0) by (intros ->; lia). cbn [sig exponent].
  split_and!; [lia|intros Hne; apply Hm; lia|lia..|].
  rewrite H1, H2, H3, <- !Z.mul_assoc, <- !Z.pow_add_r by lia. do 2 f_equal. lia.
Qed.

Lemma new_ok s e : sword s → 0 ≤ e ≤ 255 → d_ok (Dynamic.new s e).
Proof.
  intros Hs He. destruct (new_spec s e ltac:(lia)) as (_ & Hb & Hv). split; [|lia].
  set (x := Dynamic.new s e) in *. clearbody x. assert (0 < 10 ^ (e - exponent x)) by (apply Z.pow_pos_nonneg; lia).
  unfold sword in *. rewrite Hv in Hs. nia.
Qed.

Lemma new_value s e : 0 ≤ e → d_is (Dynamic.new s e) s e.
Proof.
  intros He. destruct (new_spec s e He) as (_ & Hb & Hv). unfold d_is.
  set (x := Dynamic.new s e) in *. clearbody x. rewrite Hv, <- Z.mul_assoc, <- Z.pow_add_r by lia. do 2 f_equal. lia.
Qed.

(** Canonical numbers of the same value are the same. *)
Lemma decimal_unique x y :
  canonical x → canonical y → 0 ≤ exponent x → 0 ≤ exponent y → d_is x (sig y) (exponent y) → x = y.
Proof.
  unfold d_is. assert (∀ x y, canonical x → canonical y → 0 ≤ exponent x < exponent y →
    sig x * 10 ^ exponent y = sig y * 10 ^ exponent x → False) as Hlt.
  { intros x' y' _ [Hz Hm] Hlt Heq. apply Hm; [lia|].
    replace (exponent y') with (exponent y' - exponent x' - 1 + 1 + exponent x') in Heq by lia.
    rewrite !Z.pow_add_r, !Z.mul_assoc in Heq by lia. apply Z.mul_reg_r in Heq; [|lia].
    rewrite <- Heq. apply Z_mod_mult. }
  intros Hx Hy Hex Hey Heq. destruct (Z.lt_trichotomy (exponent x) (exponent y)) as [H|[H|H]].
  - destruct (Hlt x y); done || lia.
  - rewrite H in Heq. apply Z.mul_reg_r in Heq; [|pose proof (Z.pow_pos_nonneg 10 (exponent y)); lia].
    destruct x, y; cbn in *; congruence.
  - destruct (Hlt y x); done || lia.
Qed.

(** Two ways to write a number give the same decimal. *)
Lemma new_eq_iff s e s' e' :
  0 ≤ e → 0 ≤ e' → Dynamic.new s e = Dynamic.new s' e' ↔ s * 10 ^ e' = s' * 10 ^ e.
Proof.
  intros He He'. destruct (new_spec s e He) as (Hc & Hb & Hv), (new_spec s' e' He') as (Hc' & Hb' & Hv').
  split; intros Heq.
  - rewrite <- Heq in *. set (x := Dynamic.new s e) in *. rewrite Hv, Hv', <- !Z.mul_assoc, <- !Z.pow_add_r by lia.
    do 2 f_equal. lia.
  - apply decimal_unique; [done..|lia|lia|]. unfold d_is.
    set (x := Dynamic.new s e) in *. set (y := Dynamic.new s' e') in *. clearbody x y. rewrite Hv, Hv' in Heq.
    rewrite <- !Z.mul_assoc, <- !Z.pow_add_r in Heq by lia.
    set (k := e - exponent x + (e' - exponent y)).
    replace (e - exponent x + e') with (exponent y + k) in Heq by lia.
    replace (e' - exponent y + e) with (exponent x + k) in Heq by lia.
    rewrite !Z.pow_add_r, !Z.mul_assoc in Heq by lia.
    apply Z.mul_reg_r in Heq; [done|]. pose proof (Z.pow_pos_nonneg 10 k). lia.
Qed.

(** ** Order *)

(** A nonzero integer scaled by more than 38 digits exceeds the range of i128. *)
Lemma compare_far a b d :
  sword b → 38 < d → (a * 10 ^ d ?= b) = match a ?= 0 with Eq => 0 ?= b | ordering => ordering end.
Proof.
  intros Hb Hd. assert (10 ^ 39 ≤ 10 ^ d) by (apply Z.pow_le_mono_r; lia). unfold sword in Hb.
  destruct (Z.compare_spec a 0) as [->|Hlt|Hgt]; [by rewrite Z.mul_0_l|apply Z.compare_lt_iff; nia|apply Z.compare_gt_iff; nia].
Qed.

Lemma compare_wide a b d :
  sword a → sword b → 0 ≤ d ≤ 38 →
  I256.cmp (I256.from_product a (10 ^ d)) (I256.from b) = (a * 10 ^ d ?= b)
  ∧ I256.cmp (I256.from b) (I256.from_product a (10 ^ d)) = (b ?= a * 10 ^ d).
Proof.
  intros Ha Hb Hd. pose proof (pow10_bound d Hd).
  destruct (i256_from_product_spec a (10 ^ d)) as [Hp Hpo]; [done|unfold sword; lia|].
  destruct (i256_from_spec b Hb) as [Hf Hfo]. by rewrite !i256_cmp_spec, Hp, Hf.
Qed.

Lemma cmp_spec x y :
  d_ok x → d_ok y → Dynamic.cmp x y = (sig x * 10 ^ exponent y ?= sig y * 10 ^ exponent x).
Proof.
  intros [Hx Hex] [Hy Hey]. rewrite compare_scaled by lia. unfold Dynamic.cmp.
  destruct (Z.compare_spec (exponent x) (exponent y)) as [He|Hlt|Hgt].
  - rewrite He, Z.ltb_irrefl, Z.sub_diag. by rewrite Z.mul_1_r.
  - rewrite (proj2 (Z.ltb_ge _ _)) by lia. unfold checked_pow10. destruct (Z.leb_spec (exponent y - exponent x) 38).
    + apply compare_wide; done || lia.
    + by rewrite compare_far.
  - rewrite (proj2 (Z.ltb_lt _ _)) by lia. unfold checked_pow10. destruct (Z.leb_spec (exponent x - exponent y) 38).
    + apply compare_wide; done || lia.
    + rewrite (Z.compare_antisym (sig y * 10 ^ _) (sig x)), compare_far by done.
      destruct (Z.compare_spec (sig y) 0); cbn [CompOpp]; try done. apply Z.compare_antisym.
Qed.

(** On canonical numbers the order is total and its equality is equality. *)
Lemma cmp_eq_iff x y : d_ok x → d_ok y → canonical x → canonical y → Dynamic.cmp x y = Eq ↔ x = y.
Proof.
  intros Hx Hy Hcx Hcy. rewrite cmp_spec by done. rewrite Z.compare_eq_iff. split; [|by intros ->].
  apply decimal_unique; try done; [apply Hx|apply Hy].
Qed.

(** ** Conversions *)

Lemma fixed_roundtrip {P S} (x : Fixed P S) :
  fixed_ty P S → f_ok x → Dynamic.to_fixed (Dynamic.from_fixed x) = Some x.
Proof.
  intros Ht Hx. pose proof Ht as [HP HS]. unfold Dynamic.to_fixed, Dynamic.from_fixed.
  rewrite wrap_id by (done || (apply in_range_spec; cbn; lia)).
  pose proof (f_ok_sword x Ht Hx) as Hw. destruct (new_spec (f_val x) S ltac:(lia)) as (_ & Hb & Hv).
  pose proof (new_ok (f_val x) S Hw ltac:(lia)) as [Hs _].
  set (d := Dynamic.new (f_val x) S) in *. clearbody d. rewrite try_new_with_exponent_spec by (done || lia).
  unfold rescale. rewrite (proj2 (Z.ltb_ge _ 0)), <- Hv, try_new_spec, (proj2 (Z.leb_le _ _)) by (done || lia).
  by destruct x.
Qed.

(** Any other type: the value at the new scale, rounded toward zero. *)
Lemma to_fixed_spec {P S} x :
  fixed_ty P S → d_ok x → Dynamic.to_fixed (P := P) (S := S) x = try_new (rescale (sig x) (S - exponent x)).
Proof.
  intros [HP HS] [Hs He]. unfold Dynamic.to_fixed. apply try_new_with_exponent_spec; done || lia.
Qed.

Lemma to_i128_spec x : d_ok x → Dynamic.to_i128 x = Z.quot (sig x) (10 ^ exponent x).
Proof.
  intros [Hs He]. unfold Dynamic.to_i128, checked_pow10. destruct (Z.leb_spec (exponent x) 38); [done|].
  symmetry. assert (10 ^ 39 ≤ 10 ^ exponent x) by (apply Z.pow_le_mono_r; lia).
  apply Z.quot_small_iff; [|unfold sword in Hs]; lia.
Qed.

Lemma text_roundtrip oc x :
  d_ok x → canonical x → Z.abs (sig x) < parse_limit →
  Dynamic.from_str oc (debug_decimal (sig x) (exponent x)) = Some (inr x).
Proof.
  intros [Hs He] Hc Hlim. destruct (parse_printed oc (sig x) (exponent x) 0) as (v & f & Hp & Hf & Hv); [done|lia..|].
  unfold Dynamic.from_str. rewrite Hp. cbn [mbind option_bind].
  assert (Dynamic.new v f = x) as Hnew.
  { destruct (new_spec v f ltac:(lia)) as (Hcn & Hb & Hvn). apply decimal_unique; [done..|lia|lia|]. unfold d_is.
    set (y := Dynamic.new v f) in *. clearbody y. rewrite Hv, Hvn, <- !Z.mul_assoc, <- !Z.pow_add_r by lia. do 2 f_equal. lia. }
  destruct (Z.eqb_spec v 0) as [->|Hv0].
  { do 2 f_equal. rewrite <- Hnew. by destruct f. }
  rewrite (proj2 (Z.ltb_ge 0 _)) by lia. destruct (Z.eqb_spec (0 - f) 0) as [Hf0|Hf0].
  { rewrite <- Hnew. by replace f with 0 by lia. }
  rewrite (proj2 (Z.leb_le (-255) _)) by lia. replace (- (0 - f)) with f by lia. by rewrite Hnew.
Qed.

(** ** Arithmetic *)

(** The operand that is brought to the exponent [m] stays clear of the range of i128. *)
Definition room (x : DynamicDecimal) (m : Z) : Prop :=
  exponent x = m ∨ 10 * Z.abs (sig x * 10 ^ (m - exponent x)) ≤ MAX i128.

Lemma dynamic_add_scaled_spec oc x y :
  0 ≤ exponent y - exponent x ≤ 38 → 10 * Z.abs (sig x * 10 ^ (exponent y - exponent x)) ≤ MAX i128 →
  Dynamic.add_scaled oc x y
  = sum ← checked i128 (sig x * 10 ^ (exponent y - exponent x) + sig y); Some (Dynamic.new sum (exponent y)).
Proof.
  intros Hd Hb. unfold Dynamic.add_scaled. pose proof (pow10_bound _ Hd). rewrite pow10_Some by done. cbn [mbind option_bind].
  set (p := 10 ^ (exponent y - exponent x)) in *. clearbody p. destruct i128_range as [_ Hmax]. rewrite Hmax in Hb.
  rewrite (proj2 (Z.leb_le (sig x) _)).
  - rewrite arith_sword by (unfold sword; lia). cbn [mbind option_bind]. by rewrite Z.add_comm.
  - rewrite Z.quot_quot by lia. destruct (Z.le_gt_cases (sig x) 0) as [Hneg|Hpos].
    + transitivity 0; [done|]. apply Z.quot_pos; rewrite ?Hmax; lia.
    + rewrite Z.quot_div_nonneg by (rewrite ?Hmax; lia). apply Z.div_le_lower_bound; rewrite ?Hmax; nia.
Qed.

Lemma add_spec oc x y m :
  m = Z.max (exponent x) (exponent y) → Z.abs (exponent x - exponent y) ≤ 38 → room x m → room y m →
  Dynamic.add oc x y
  = sum ← checked i128 (sig x * 10 ^ (m - exponent x) + sig y * 10 ^ (m - exponent y)); Some (Dynamic.new sum m).
Proof.
  intros -> Hd Hx Hy. unfold Dynamic.add, room in *. destruct (Z.compare_spec (exponent x) (exponent y)) as [He|Hlt|Hgt].
  - by rewrite He, Z.max_id, Z.sub_diag, !Z.mul_1_r.
  - rewrite (Z.max_r (exponent x) (exponent y)) in * by lia. destruct Hx as [Hx|Hx]; [lia|].
    rewrite dynamic_add_scaled_spec, Z.sub_diag, Z.mul_1_r by (done || lia). done.
  - rewrite (Z.max_l (exponent x) (exponent y)) in * by lia. destruct Hy as [Hy|Hy]; [lia|].
    rewrite dynamic_add_scaled_spec, Z.sub_diag, Z.mul_1_r by (done || lia). by rewrite Z.add_comm.
Qed.

Lemma mul_spec oc x y :
  d_ok x → d_ok y → Z.abs (sig x * sig y) ≤ MAX i128 → exponent x + exponent y ≤ 255 →
  Dynamic.mul oc x y = Some (Dynamic.new (sig x * sig y) (exponent x + exponent y)).
Proof.
  intros [Hx Hex] [Hy Hey] Hb He. unfold Dynamic.mul. rewrite reduce_fits by done. cbn [mbind option_bind].
  change (wrap u8 0) with 0. rewrite Z.add_0_l, !arith_ok; cbn [mbind option_bind]; rewrite ?arith_ok;
    done || (apply in_range_spec; cbn; lia).
Qed.

Lemma dynamic_div_spec oc x y digits :
  d_ok x → d_ok y → sig y ≠ 0 → digits = Z.max (Z.max 6 (exponent x)) (exponent y) →
  exponent y + digits ≤ 255 → exponent y + digits - exponent x ≤ 38 →
  let q := Z.quot (sig x * 10 ^ (exponent y + digits - exponent x)) (sig y) in
  Dynamic.div oc x y = if Z.abs q <=? MAX i128 then Some (Dynamic.new q digits) else None.
Proof.
  intros [Hx Hex] [Hy Hey] Hy0 Hdig H8 Hs q. unfold Dynamic.div. rewrite (proj2 (Z.eqb_neq _ 0)) by done. cbn [negb].
  fold Dynamic.MIN_DIGITS in Hdig. rewrite <- Hdig. unfold Dynamic.MIN_DIGITS in Hdig.
  rewrite arith_ok by (apply in_range_spec; cbn; lia). cbn [mbind option_bind]. unfold usub.
  rewrite !(Z.max_r 0 (exponent y + digits - exponent x)), (Z.max_l 0 (exponent x - (exponent y + digits))) by lia.
  rewrite (proj2 (Z.leb_le _ 38)) by lia. pose proof (pow10_bound (exponent y + digits - exponent x) ltac:(lia)).
  rewrite (pow10_Some (exponent y + digits - exponent x)) by lia. cbn [mbind option_bind].
  destruct (i256_from_product_spec (sig x) (10 ^ (exponent y + digits - exponent x))) as [Hv Hok]; [done|unfold sword; lia|].
  rewrite i256_narrowing_div_spec, (proj2 (Z.eqb_neq _ 0)), Hv by done. fold q. cbn [mbind option_bind].
  destruct (Z.leb_spec (Z.abs q) (MAX i128)) as [Hle|]; [|done]. cbn [mbind option_bind]. change (pow10 0) with (Some 1).
  cbn [mbind option_bind]. destruct i128_range as [_ Hmax]. rewrite Hmax in Hle.
  by rewrite Z.mul_1_r, arith_sword by (unfold sword; lia).
Qed.

Lemma floor_spec oc x :
  d_ok x → canonical x → exponent x ≤ 38 →
  Dynamic.floor oc x = Some (Dynamic.new (sig x / 10 ^ exponent x) 0).
Proof.
  intros [Hs He] [_ Hc] Hle. unfold Dynamic.floor, Dynamic.trunc. pose proof (pow10_bound (exponent x) ltac:(lia)) as Hp.
  rewrite pow10_Some by lia. cbn [mbind option_bind].
  destruct (quot_rem_spec (sig x) (10 ^ exponent x) ltac:(lia)) as (Heq & Habs & Hpos & Hneg).
  unfold Dynamic.is_negative. destruct (Z.ltb_spec (sig x) 0) as [Hlt|Hge].
  2: by rewrite Z.quot_div_nonneg by lia.
  unfold Dynamic.new at 1. cbn [Z.eqb]. destruct (decide (exponent x = 0)) as [H0|H0].
  - rewrite bool_decide_eq_false_2; rewrite H0, ?Z.quot_1_r, ?Z.div_1_r; destruct x; cbn in *; subst; [done|naive_solver].
  - rewrite bool_decide_eq_true_2 by (intros Heqx; apply H0; by rewrite <- Heqx).
    assert (Z.divide 10 (10 ^ exponent x)) as Hdvd.
    { exists (10 ^ (exponent x - 1)). replace (exponent x) with (exponent x - 1 + 1) at 1 by lia. by rewrite Z.pow_add_r by lia. }
    assert (Z.rem (sig x) (10 ^ exponent x) ≠ 0) as Hr.
    { intros Hr. apply (Hc H0). apply Z.mod_divide; [lia|]. rewrite Hr, Z.add_0_r in Heq. rewrite Heq. by apply Z.divide_mul_l. }
    assert (sig x / 10 ^ exponent x = Z.quot (sig x) (10 ^ exponent x) - 1) as ->.
    { symmetry. apply (Z.div_unique _ _ _ (Z.rem (sig x) (10 ^ exponent x) + 10 ^ exponent x)); lia. }
    unfold Dynamic.sub. assert (Dynamic.neg oc (Dynamic.new 1 0) = Some (MkDynamic (-1) 0)) as -> by done.
    cbn [mbind option_bind]. unfold Dynamic.add. cbn. unfold checked.
    rewrite (proj2 (sword_in_range _)); [done|]. unfold sword in *. specialize (Hneg ltac:(lia)).
    set (q := Z.quot _ _) in *. set (r := Z.rem _ _) in *. set (p := 10 ^ exponent x) in *. clearbody q r p. nia.
Qed.
