(* ===== verification/FxpTheorems.v ===== *)
(** The theorems on decimal numbers (crates/fxp): exactness of the wide integers, of fixed-point
    arithmetic, rounding and order, the canonical form of dynamic decimals, the round trips through
    text, and where the code departs from its documentation. *)
From S2P Require Import Prelude Machine Fxp FxpU256 FxpFixed FxpSpec FxpText FxpDynamic.
#[local] Open Scope Z_scope.


(** The hypotheses on concrete numbers. *)
Ltac fxp_ok :=
  unfold sword, i_ok, u_ok, word, fixed_ty, f_ok, fixed_MAX, d_ok, canonical, room, parse_limit; cbn;
  repeat split; vm_compute; congruence.




(** Rounding: floor, ceiling and truncation give the multiples of one just below, just above and
    toward zero; the square root is the largest number of the type whose square is not above the
    operand; rounding to [n] digits gives a nearest multiple, ties away from zero or to even.  A
    result with more than [P] digits is refused. *)
Theorem fixed_rounding_exact oc P S (x : Fixed P S) n :
  fixed_ty P S → f_ok x → - 2 ^ 31 ≤ n < 2 ^ 31 → S - n ≤ 38 →
  checked_floor oc x = Some (try_new (f_val x / 10 ^ S * 10 ^ S))
  ∧ checked_ceil oc x = Some (try_new (- (- f_val x / 10 ^ S) * 10 ^ S))
  ∧ trunc oc x = Some (MkFixed (Z.quot (f_val x) (10 ^ S) * 10 ^ S))
  ∧ checked_sqrt oc x = Some (if f_val x <? 0 then None else Some (MkFixed (Z.sqrt (f_val x * 10 ^ S))))
  ∧ (S ≤ n → checked_round oc x n = Some (Some x) ∧ checked_round_ties_even oc x n = Some (Some x))
  ∧ (n < S → ∃ k k', checked_round oc x n = Some (try_new (k * 10 ^ (S - n)))
                     ∧ nearest AwayFromZero (10 ^ (S - n)) (f_val x) k
                     ∧ checked_round_ties_even oc x n = Some (try_new (k' * 10 ^ (S - n)))
                     ∧ nearest Even (10 ^ (S - n)) (f_val x) k').
Proof.
  intros Ht Hx Hn Hp. pose proof (f_ok_bound x Ht Hx) as Hb. pose proof Ht as [HP HS].
  split; [by apply checked_floor_spec|]. split; [by apply checked_ceil_spec|]. split; [by apply trunc_spec|].
  split; [by apply checked_sqrt_spec|]. unfold checked_round, checked_round_ties_even.
  destruct (round_inner_spec oc (f_val x) S n AwayFromZero) as [Ha1 Ha2]; [done || lia..|].
  destruct (round_inner_spec oc (f_val x) S n Even) as [He1 He2]; [done || lia..|]. split.
  - intros Hle. rewrite Ha1, He1 by done. cbn [mbind option_bind]. unfold f_ok in Hx.
    rewrite try_new_spec, (proj2 (Z.leb_le _ _)) by done. by destruct x.
  - intros Hlt. destruct (Ha2 Hlt) as (k & -> & Hk), (He2 Hlt) as (k' & -> & Hk'). exists k, k'. cbn [mbind option_bind].
    by rewrite !checked_try_new.
Qed.

Lemma fixed_rounding_exact_witness :
  checked_floor true (MkFixed (P := 10) (S := 2) (-105)) = Some (Some (MkFixed (-200)))
  ∧ checked_sqrt true (MkFixed (P := 10) (S := 2) 200) = Some (Some (MkFixed 141)).
Proof.
  split.
  - destruct (fixed_rounding_exact true 10 2 (MkFixed (-105)) 1) as (Hf & _); [fxp_ok..|]. rewrite Hf. vm_compute. reflexivity.
  - destruct (fixed_rounding_exact true 10 2 (MkFixed 200) 1) as (_ & _ & _ & Hs & _); [fxp_ok..|]. rewrite Hs. vm_compute. reflexivity.
Defined.

(** Comparison and equality of numbers of different scales are those of their values, and the
    unsigned encoding is an order-preserving bijection onto an initial range of the integers: decoding
    inverts encoding, every code in range is the encoding of its decoding, and codes compare as the
    numbers do. *)
Theorem fixed_order_and_encoding P0 S0 P1 S1 (x : Fixed P0 S0) (y : Fixed P1 S1) (z : Fixed P0 S0) e :
  fixed_ty P0 S0 → fixed_ty P1 S1 → f_ok x → f_ok y → f_ok z → 0 ≤ e →
  partial_cmp x y = Some (f_val x * 10 ^ S1 ?= f_val y * 10 ^ S0)
  ∧ eq x y = Some (f_val x * 10 ^ S1 =? f_val y * 10 ^ S0)
  ∧ (∃ c c', to_unsigned_encoding x = Some c ∧ to_unsigned_encoding z = Some c'
             ∧ from_unsigned_encoding c = Some x
             ∧ Some (c ?= c') = partial_cmp x z)
  ∧ match from_unsigned_encoding (P := P0) (S := S0) e with
    | Some w => f_ok w ∧ to_unsigned_encoding w = Some e
    | None => 2 * fixed_MAX P0 < e
    end.
Proof.
  intros Ht0 Ht1 Hx Hy Hz He. split; [by apply partial_cmp_spec|]. split; [by apply eq_spec|]. split.
  - exists (fixed_MAX P0 + f_val x), (fixed_MAX P0 + f_val z).
    split_and!; [by apply to_unsigned_encoding_spec..| |].
    + unfold f_ok in Hx. rewrite from_unsigned_encoding_spec, (proj2 (Z.leb_le _ _)) by (done || lia).
      destruct x; cbn in *. do 2 f_equal. lia.
    + rewrite partial_cmp_spec by done. f_equal. rewrite Z.add_compare_mono_l. destruct Ht0 as [HP HS].
      symmetry. rewrite <- (Zmult_compare_compat_r (f_val x) (f_val z) (10 ^ S0)); [done|]. pose proof (Z.pow_pos_nonneg 10 S0); lia.
  - rewrite from_unsigned_encoding_spec by done. destruct (Z.leb_spec e (2 * fixed_MAX P0)) as [Hle|]; [|done].
    assert (f_ok (MkFixed (P := P0) (S := S0) (e - fixed_MAX P0))) as Hok by (unfold f_ok; cbn; lia). split; [done|].
    rewrite to_unsigned_encoding_spec by done. f_equal. cbn. lia.
Qed.

Lemma fixed_order_and_encoding_witness :
  partial_cmp (MkFixed (P := 10) (S := 2) 125) (MkFixed (P := 38) (S := 3) 1249) = Some Gt.
Proof.
  destruct (fixed_order_and_encoding 10 2 38 3 (MkFixed 125) (MkFixed 1249) (MkFixed (-3)) 7) as (Hc & _); [fxp_ok..|].
  rewrite Hc. vm_compute. reflexivity.
Defined.



(** C29. Dynamic decimals are canonical: [new] establishes the documented invariant and keeps the value, so
    that structural equality is equality of values; the order is the order of the values, agreeing
    with equality; and a fixed-point number survives the passage through a dynamic decimal, any other
    target type getting the value rounded toward zero. *)
Theorem dynamic_canonical P S (x : Fixed P S) s e s' e' :
  fixed_ty P S → f_ok x → sword s → 0 ≤ e ≤ 255 → sword s' → 0 ≤ e' ≤ 255 →
  let d := Dynamic.new s e in
  let d' := Dynamic.new s' e' in
  d_ok d ∧ canonical d ∧ d_is d s e
  ∧ (d = d' ↔ s * 10 ^ e' = s' * 10 ^ e)
  ∧ Dynamic.cmp d d' = (sig d * 10 ^ exponent d' ?= sig d' * 10 ^ exponent d)
  ∧ (Dynamic.cmp d d' = Eq ↔ d = d')
  ∧ Dynamic.to_fixed (Dynamic.from_fixed x) = Some x
  ∧ Dynamic.to_fixed (P := P) (S := S) d = try_new (rescale (sig d) (S - exponent d))
  ∧ Dynamic.to_i128 d = Z.quot (sig d) (10 ^ exponent d).
Proof.
  intros Ht Hx Hs He Hs' He' d d'. pose proof (new_ok s e Hs He) as Hd. pose proof (new_ok s' e' Hs' He') as Hd'.
  destruct (new_spec s e ltac:(lia)) as [Hc _], (new_spec s' e' ltac:(lia)) as [Hc' _].
  split; [done|]. split; [done|]. split; [apply new_value; lia|]. split; [apply new_eq_iff; lia|].
  split; [by apply cmp_spec|]. split; [by apply cmp_eq_iff|]. split; [by apply fixed_roundtrip|].
  split; [by apply to_fixed_spec|by apply to_i128_spec].
Qed.

Lemma dynamic_canonical_witness : Dynamic.new 1230 3 = Dynamic.new 123 2.
Proof.
  destruct (dynamic_canonical 10 2 (MkFixed 5) 1230 3 123 2) as (_ & _ & _ & Heq & _); [fxp_ok..|].
  apply Heq. reflexivity.
Defined.



