(* ===== verification/Scheduler.v ===== *)
(** The dynamic scheduler of circuits (dbsp/src/circuit/schedule/dynamic_scheduler.rs,
    circuit/schedule.rs): preparing the tasks from the circuit graph, evaluating the nodes in one
    step as notifications and completed evaluations arrive, and committing transactions. *)
From stdpp Require Import gmap.
From S2P Require Import Prelude.
#[local] Open Scope nat_scope.

(** ** Data *)

Definition NodeId : Type := nat.
Definition StreamId : Type := nat.
(** The path of a node. *)
Definition GlobalNodeId : Type := list nat.
Record Position := MkPosition { total : nat; offset : nat }.

(** [OwnershipPreference], by its number. *)
Definition STRONGLY_PREFER_OWNED : nat := 100.

Record Edge := MkEdge {
  from : NodeId;
  to : NodeId;
  origin : GlobalNodeId;
  stream : option StreamId;
  ownership_preference : option nat }.

(** What the scheduler asks of a circuit when it is prepared. *)
Record Circuit := MkCircuit {
  global_id : GlobalNodeId;
  node_ids : list NodeId;
  edges : list Edge;
  is_async_node : NodeId → bool }.

Definition child_of (c : Circuit) (n : NodeId) : GlobalNodeId := global_id c ++ [n].

Inductive Error :=
| OwnershipConflict (origin : GlobalNodeId) (consumers : list GlobalNodeId)
| CyclicCircuit (node_id : GlobalNodeId)
| CommitWithoutTransaction
| StepWithoutTransaction
| Killed
| TokioError
| OperatorError.

Inductive FlushState :=
| UnflushedDependencies (n : nat)
| Started (p : option Position)
| Completed (p : option Position).

Record Task := MkTask {
  num_predecessors : nat;
  successors : list NodeId;
  is_async : bool;
  unsatisfied_dependencies : nat;
  is_ready : bool;
  scheduled : bool;
  flush_state : FlushState }.

Inductive TransactionPhase :=
| Idle
| TransactionStarted
| Committing (unflushed : nat)
| CommitComplete.

(** What happens on the circuit: calls of the scheduler, and evaluations that have ended, with whether
    the node's flush ended with them. *)
Inductive CircuitCall := FlushNode (n : NodeId) | EvalNode (n : NodeId) | Evaluated (n : NodeId) (flushed : bool) | Tick.

(** [notified] and [permit] are the notifications that have not been processed and whether the
    notifier has been signalled; [handles] are the nodes under evaluation; [calls] records what
    happened on the circuit, the latest first. *)
Record Inner := MkInner {
  tasks : gmap NodeId Task;
  notified : gset NodeId;
  permit : bool;
  handles : gset NodeId;
  waiting : bool;
  transaction_phase : TransactionPhase;
  calls : list CircuitCall }.

Definition set_tasks (f : gmap NodeId Task → gmap NodeId Task) (s : Inner) : Inner :=
  MkInner (f (tasks s)) (notified s) (permit s) (handles s) (waiting s) (transaction_phase s) (calls s).
Definition set_phase (p : TransactionPhase) (s : Inner) : Inner :=
  MkInner (tasks s) (notified s) (permit s) (handles s) (waiting s) p (calls s).
Definition set_waiting (w : bool) (s : Inner) : Inner :=
  MkInner (tasks s) (notified s) (permit s) (handles s) w (transaction_phase s) (calls s).
Definition set_handles (h : gset NodeId) (s : Inner) : Inner :=
  MkInner (tasks s) (notified s) (permit s) h (waiting s) (transaction_phase s) (calls s).
Definition set_notified (ns : gset NodeId) (p : bool) (s : Inner) : Inner :=
  MkInner (tasks s) ns p (handles s) (waiting s) (transaction_phase s) (calls s).
Definition call (c : CircuitCall) (s : Inner) : Inner :=
  MkInner (tasks s) (notified s) (permit s) (handles s) (waiting s) (transaction_phase s) (c :: calls s).

Definition set_ready (b : bool) (t : Task) : Task :=
  MkTask (num_predecessors t) (successors t) (is_async t) (unsatisfied_dependencies t) b (scheduled t) (flush_state t).
Definition set_scheduled (b : bool) (t : Task) : Task :=
  MkTask (num_predecessors t) (successors t) (is_async t) (unsatisfied_dependencies t) (is_ready t) b (flush_state t).
Definition set_unsatisfied (n : nat) (t : Task) : Task :=
  MkTask (num_predecessors t) (successors t) (is_async t) n (is_ready t) (scheduled t) (flush_state t).
Definition set_flush_state (f : FlushState) (t : Task) : Task :=
  MkTask (num_predecessors t) (successors t) (is_async t) (unsatisfied_dependencies t) (is_ready t) (scheduled t) f.

(** [n -= 1] on a usize: there is no result below 0. *)
Definition decrement (n : nat) : option nat := match n with O => None | S n => Some n end.

(** ** Preparing *)

(** The streams and their consumers, in the order of the edges; the code keeps them in a hash map. *)
Fixpoint add_consumer (key : GlobalNodeId * StreamId) (c : NodeId * option nat)
    (m : list ((GlobalNodeId * StreamId) * list (NodeId * option nat))) :=
  match m with
  | [] => [(key, [c])]
  | (key', cs) :: m => if decide (key = key') then (key', cs ++ [c]) :: m else (key', cs) :: add_consumer key c m
  end.

Definition stream_consumers (es : list Edge) : list ((GlobalNodeId * StreamId) * list (NodeId * option nat)) :=
  foldl (λ m e, match stream e with
                | Some s => add_consumer (origin e, s) (to e, ownership_preference e) m
                | None => m
                end) [] es.

Definition is_strong (c : NodeId * option nat) : bool :=
  match snd c with Some p => STRONGLY_PREFER_OWNED <=? p | None => false end.

(** The positions that satisfy a test. *)
Fixpoint positions {A} (f : A → bool) (i : nat) (l : list A) : list (nat * A) :=
  match l with
  | [] => []
  | x :: l => if f x then (i, x) :: positions f (S i) l else positions f (S i) l
  end.

(** The constraints for one stream: every other consumer goes before the strong one. *)
Definition stream_constraints (c : Circuit) (origin : GlobalNodeId) (succ : list (NodeId * option nat))
    : Error + list (NodeId * NodeId) :=
  match positions is_strong 0 succ with
  | [] => inr []
  | [(i, (strong, _))] =>
      inr ((λ p, (fst (snd p), strong))
             <$> filter (λ p, fst p ≠ i) (positions (λ s, bool_decide (snd s ≠ None)) 0 succ))
  | several => inl (OwnershipConflict origin ((λ p, child_of c (fst (snd p))) <$> several))
  end.

Fixpoint all_constraints (c : Circuit) (m : list ((GlobalNodeId * StreamId) * list (NodeId * option nat)))
    : Error + list (NodeId * NodeId) :=
  match m with
  | [] => inr []
  | ((origin, _), succ) :: m =>
      match stream_constraints c origin succ with
      | inl e => inl e
      | inr cs => match all_constraints c m with inl e => inl e | inr cs' => inr (cs ++ cs') end
      end
  end.

Definition ownership_constraints (c : Circuit) : Error + list (NodeId * NodeId) :=
  all_constraints c (stream_consumers (edges c)).

Definition circuit_graph (c : Circuit) : list NodeId * list (NodeId * NodeId) :=
  (node_ids c, (λ e, (from e, to e)) <$> edges c).

(** The pairs of [es] whose ends are both in [nodes]. *)
Definition within (nodes : gset NodeId) (es : list (NodeId * NodeId)) : list (NodeId * NodeId) :=
  filter (λ e, e.1 ∈ nodes ∧ e.2 ∈ nodes) es.

Definition successors_of (es : list (NodeId * NodeId)) (n : NodeId) : list NodeId := (filter (λ e, e.1 = n) es).*2.
Definition predecessors_of (es : list (NodeId * NodeId)) (n : NodeId) : list NodeId := (filter (λ e, e.2 = n) es).*1.

Definition new_task (c : Circuit) (es : list (NodeId * NodeId)) (n : NodeId) : Task :=
  let k := length (predecessors_of es n) in
  MkTask k (successors_of es n) (is_async_node c n) k (negb (is_async_node c n)) false (UnflushedDependencies k).

(** [Notifications::notify] *)
Definition notify (n : NodeId) (s : Inner) : Inner := set_notified ({[n]} ∪ notified s) true s.

(** The number of consumers registered for each stream. *)
Definition register_consumers (nodes : gset NodeId) (es : list Edge) : gmap StreamId nat :=
  foldl (λ m e, match stream e with
                | Some s => if decide (to e ∈ nodes ∧ from e ∈ nodes)
                            then <[s := default 0 (m !! s) + 1]> m
                            else <[s := default 0 (m !! s)]> m
                | None => m
                end) ∅ es.

Section prepare.
(** [petgraph::algo::toposort], which reports a node on a cycle if there is one, and whether an async
    node is ready when the scheduler is prepared. *)
Context (toposort : list NodeId * list (NodeId * NodeId) → NodeId + list NodeId).

Definition prepare (c : Circuit) (ready : NodeId → bool) (nodes : option (gset NodeId)) : Error + Inner :=
  let nodes := match nodes with Some nodes => nodes | None => list_to_set (node_ids c) end in
  match ownership_constraints c with
  | inl e => inl e
  | inr extra =>
      let '(ns, es) := circuit_graph c in
      match toposort (ns, es ++ extra) with
      | inl n => inl (CyclicCircuit (child_of c n))
      | inr _ =>
          let es := within nodes (es ++ extra) in
          let s := MkInner (set_to_map (λ n, (n, new_task c es n)) nodes) ∅ false ∅ false Idle [] in
          inr (foldl (λ s n, if is_async_node c n && ready n then notify n s else s) s (elements nodes))
      end
  end.
End prepare.

(** ** Evaluating *)

Definition spawn_task (n : NodeId) (s : Inner) : option Inner :=
  task ← tasks s !! n;
  let task := set_scheduled true task in
  let s := if bool_decide (handles s = ∅) && waiting s then set_waiting false s else s in
  let '(task, s) :=
    match transaction_phase s, flush_state task with
    | Committing _, UnflushedDependencies 0 => (set_flush_state (Started None) task, call (FlushNode n) s)
    | _, _ => (task, s)
    end in
  let s := set_tasks <[n := task]> s in
  Some (call (EvalNode n) (set_handles ({[n]} ∪ handles s) s)).

(** One successor of a node that has been evaluated. *)
Definition schedule_successor (flush_complete : bool) (s : Inner) (succ : NodeId) : option Inner :=
  t ← tasks s !! succ;
  u ← decrement (unsatisfied_dependencies t);
  f ← (if flush_complete then
         match flush_state t with
         | UnflushedDependencies n => n ← decrement n; Some (UnflushedDependencies n)
         | _ => None
         end
       else Some (flush_state t));
  let t := set_flush_state f (set_unsatisfied u t) in
  let s := set_tasks <[succ := t]> s in
  if (u =? 0) && is_ready t then spawn_task succ s else Some s.

Fixpoint foldM {A S} (f : S → A → option S) (s : S) (l : list A) : option S :=
  match l with
  | [] => Some s
  | x :: l => s ← f s x; foldM f s l
  end.

Definition schedule_successors (n : NodeId) (flush_complete : bool) (s : Inner) : option Inner :=
  t ← tasks s !! n; foldM (schedule_successor flush_complete) s (successors t).

(** [process_notifications]; [ready] is what the circuit says of the nodes. *)
Definition process_notification (ready : NodeId → bool) (s : Inner) (n : NodeId) : option Inner :=
  t ← tasks s !! n;
  if is_ready t then Some s
  else if ready n then
    let s := set_tasks <[n := set_ready true t]> s in
    if (unsatisfied_dependencies t =? 0) && negb (scheduled t) then spawn_task n s else Some s
  else Some s.

Definition process_notifications (ready : NodeId → bool) (s : Inner) : option Inner :=
  foldM (process_notification ready) (set_notified ∅ (permit s) s) (elements (notified s)).

(** The start of [do_step]. *)
Definition reset_task (t : Task) : Task := set_scheduled false (set_unsatisfied (num_predecessors t) t).

Definition runnable (t : Task) : bool := (unsatisfied_dependencies t =? 0) && is_ready t.

Definition begin_step (s : Inner) : option Inner :=
  let s := set_tasks (fmap reset_task) (set_waiting false s) in
  foldM (λ s n, spawn_task n s) s (filter (λ p, runnable p.2 = true) (map_to_list (tasks s))).*1.

(** How an evaluation ended. *)
Inductive JoinResult := JoinPanic | JoinError | EvalOk (progress : option Position) | EvalErr.

(** What the loop waits for: an evaluation that ends, with what [Runtime::kill_in_progress] and
    [is_flush_complete] say of it, a signal of the notifier, and meanwhile the callbacks of async nodes. *)
Inductive Event :=
| Join (n : NodeId) (r : JoinResult) (killed flushed : bool)
| Notified (ready : NodeId → bool)
| Callback (n : NodeId).

(** The state of the loop, or how [do_step] returned. *)
Inductive Loop :=
| Running (s : Inner) (completed_tasks : nat)
| Returned (s : Inner) (r : Error + ()).

(** [abort]: waits for all the evaluations. *)
Definition abort (s : Inner) : Inner := set_handles ∅ s.

(** The flush state after an evaluation, and whether the flush has been completed by it. *)
Definition after_eval (flushed : bool) (progress : option Position) (f : FlushState) (phase : TransactionPhase)
    : option (FlushState * TransactionPhase * bool) :=
  match f with
  | Started _ =>
      if flushed then
        match phase with
        | Committing u => u ← decrement u; Some (Completed progress, Committing u, true)
        | _ => None
        end
      else Some (Started progress, phase, false)
  | _ => Some (f, phase, false)
  end.

Definition on_join (s : Inner) (completed_tasks : nat) (n : NodeId) (r : JoinResult) (killed flushed : bool)
    : option Loop :=
  let s := set_handles (handles s ∖ {[n]}) s in
  let completed_tasks := completed_tasks + 1 in
  match r with
  | JoinPanic => None
  | JoinError => Some (Returned (abort s) (inl TokioError))
  | _ =>
      t ← tasks s !! n;
      let t := if is_async t then set_ready false t else t in
      let s := set_tasks <[n := t]> s in
      match r with
      | EvalOk progress =>
          if killed then Some (Returned (abort s) (inl Killed))
          else
            '(f, phase, flush_complete) ← after_eval flushed progress (flush_state t) (transaction_phase s);
            let s := call (Evaluated n flush_complete) (set_phase phase (set_tasks <[n := set_flush_state f t]> s)) in
            if completed_tasks =? size (tasks s) then Some (Returned s (inr ()))
            else
              s ← schedule_successors n flush_complete s;
              Some (Running (if bool_decide (handles s = ∅) then set_waiting true s else s) completed_tasks)
      | _ => Some (Returned (abort s) (inl OperatorError))
      end
  end.

(** One round of the loop; an event that cannot occur changes nothing. *)
Definition on_event (l : Loop) (e : Event) : option Loop :=
  match l with
  | Returned _ _ => Some l
  | Running s completed =>
      match e with
      | Join n r killed flushed =>
          if bool_decide (n ∈ handles s) then on_join s completed n r killed flushed else Some l
      | Notified ready =>
          if permit s then s ← process_notifications ready (set_notified (notified s) false s); Some (Running s completed)
          else Some l
      | Callback n => Some (Running (notify n s) completed)
      end
  end.

(** [do_step], for a sequence of events. *)
Definition begin_loop (s : Inner) : option Loop :=
  if bool_decide (tasks s = ∅) then Some (Returned (set_waiting false s) (inr ()))
  else s ← begin_step s; Some (Running s 0).

Definition do_step (s : Inner) (es : list Event) : option Loop :=
  l ← begin_loop s; foldM on_event l es.

(** ** Transactions *)

Definition commit_complete (s : Inner) : bool :=
  match transaction_phase s with CommitComplete => true | _ => false end.
Definition transaction_started (s : Inner) : bool :=
  match transaction_phase s with TransactionStarted => true | _ => false end.
Definition transaction_in_progress (s : Inner) : bool :=
  match transaction_phase s with TransactionStarted | Committing _ => true | _ => false end.

Definition start_transaction (s : Inner) : Inner :=
  set_phase TransactionStarted
    (set_tasks (fmap (λ t, set_flush_state (UnflushedDependencies (num_predecessors t)) t)) s).

Definition start_commit_transaction (s : Inner) : Error + Inner :=
  if transaction_started s then inr (set_phase (Committing (size (tasks s))) s) else inl CommitWithoutTransaction.

(** The end of [step]; [consensus] is the answer of [Consensus::check] to this worker's vote. *)
Definition after_step (consensus : bool → Error + bool) (s : Inner) (result : Error + ()) : Inner * (Error + ()) :=
  match transaction_phase s with
  | Committing u =>
      match consensus (u =? 0) with
      | inl e => (s, inl e)
      | inr complete =>
          let s := if complete then set_phase CommitComplete s else s in
          (if commit_complete s then call Tick s else s, result)
      end
  | _ => (if commit_complete s then call Tick s else s, result)
  end.

(** [step]: the outer option is a panic; the step is still under way if the events do not end it. *)
Definition step (consensus : bool → Error + bool) (s : Inner) (es : list Event) : option (option (Inner * (Error + ()))) :=
  if transaction_in_progress s then
    l ← do_step s es;
    Some (match l with
          | Returned s r => Some (after_step consensus s r)
          | Running _ _ => None
          end)
  else Some (Some (s, inl StepWithoutTransaction)).

(** [CommitProgress] *)
Record CommitProgress := MkCommitProgress {
  completed : gmap NodeId (option Position);
  in_progress : gmap NodeId (option Position);
  remaining : gset NodeId }.

Definition add_progress (n : NodeId) (t : Task) (p : CommitProgress) : CommitProgress :=
  match flush_state t with
  | UnflushedDependencies _ => MkCommitProgress (completed p) (in_progress p) ({[n]} ∪ remaining p)
  | Completed q => MkCommitProgress (<[n := q]> (completed p)) (in_progress p) (remaining p)
  | Started q => MkCommitProgress (completed p) (<[n := q]> (in_progress p)) (remaining p)
  end.

Definition commit_progress (s : Inner) : CommitProgress :=
  map_fold add_progress (MkCommitProgress ∅ ∅ ∅) (tasks s).

(** [CommitProgressSummary] *)
Record CommitProgressSummary := MkSummary {
  sum_completed : nat;
  sum_in_progress : nat;
  sum_remaining : nat;
  in_progress_processed_records : nat;
  in_progress_total_records : nat }.

Definition sum_positions (f : Position → nat) (m : gmap NodeId (option Position)) : nat :=
  map_fold (λ _ p acc, match p with Some p => f p | None => 0 end + acc) 0 m.

Definition summary (p : CommitProgress) : CommitProgressSummary :=
  MkSummary (size (completed p)) (size (in_progress p)) (size (remaining p))
    (sum_positions offset (in_progress p)) (sum_positions total (in_progress p)).

Definition merge_summary (a b : CommitProgressSummary) : CommitProgressSummary :=
  MkSummary (sum_completed a + sum_completed b) (sum_in_progress a + sum_in_progress b) (sum_remaining a + sum_remaining b)
    (in_progress_processed_records a + in_progress_processed_records b)
    (in_progress_total_records a + in_progress_total_records b).

(** [Scheduler::transaction]; the events of each step are given, and the transaction is still under way
    when they run out. *)
Fixpoint commit_loop (consensus : bool → Error + bool) (s : Inner) (ess : list (list Event))
    : option (option (Inner * (Error + ()))) :=
  if commit_complete s then Some (Some (s, inr ()))
  else
    match ess with
    | [] => Some None
    | es :: ess =>
        r ← step consensus s es;
        match r with
        | None => Some None
        | Some (s, inl e) => Some (Some (s, inl e))
        | Some (s, inr _) => commit_loop consensus s ess
        end
    end.

Definition transaction (consensus : bool → Error + bool) (s : Inner) (ess : list (list Event))
    : option (option (Inner * (Error + ()))) :=
  let s := start_transaction s in
  match start_commit_transaction s with
  | inl e => Some (Some (s, inl e))
  | inr s => commit_loop consensus s ess
  end.
