(* ===== verification/SchedulerSpec.v ===== *)
(** What the dynamic scheduler guarantees: nodes are evaluated once per step and after their
    predecessors, steps and transactions make progress, and flushing follows the graph. *)
From stdpp Require Import gmap.
From S2P Require Import Prelude Scheduler.
#[local] Open Scope nat_scope.

Lemma foldM_app {A S} (f : S → A → option S) s l1 l2 : foldM f s (l1 ++ l2) = s ← foldM f s l1; foldM f s l2.
Proof. revert s. induction l1 as [|x l1 IH]; intros s; cbn; [done|]. destruct (f s x); cbn; [apply IH|done]. Qed.

(** ** Counting edges *)

(** How often [n] occurs. *)
Definition occ (n : NodeId) (l : list NodeId) : nat := length (filter (λ m, m = n) l).

Lemma occ_cons n m l : occ n (m :: l) = (if decide (m = n) then 1 else 0) + occ n l.
Proof. unfold occ. rewrite filter_cons. by case_decide. Qed.

Lemma occ_pos n l : n ∈ l → 0 < occ n l.
Proof.
  intros Hn. unfold occ. destruct (filter (λ m, m = n) l) eqn:Hf; [|cbn; lia].
  assert (n ∈ filter (λ m, m = n) l) as H by (by apply list_elem_of_filter). rewrite Hf in H. by apply elem_of_nil in H.
Qed.

Section graph.
Context (E : list (NodeId * NodeId)).

(** The edges into [n] from outside of [D]. *)
Definition cnt (D : gset NodeId) (n : NodeId) : nat := length (filter (λ e, e.2 = n ∧ e.1 ∉ D) E).

Lemma cnt_add D m n : m ∉ D → cnt D n = cnt ({[m]} ∪ D) n + occ n (successors_of E m).
Proof.
  intros Hm. unfold cnt, occ, successors_of. induction E as [|[a b] l IH]; [done|].
  rewrite !filter_cons. cbn [fst snd].
  destruct (decide (a = m)) as [->|Ham]; rewrite ?fmap_cons, ?filter_cons; cbn [snd];
    repeat case_decide; cbn [length]; try (rewrite IH; lia); set_solver.
Qed.

Lemma cnt_zero D n : cnt D n = 0 ↔ ∀ p, (p, n) ∈ E → p ∈ D.
Proof.
  unfold cnt. rewrite length_zero_iff_nil. split.
  - intros Hf p Hp. destruct (decide (p ∈ D)); [done|].
    assert ((p, n) ∈ filter (λ e, e.2 = n ∧ e.1 ∉ D) E) as H by (by apply list_elem_of_filter). rewrite Hf in H. by apply elem_of_nil in H.
  - intros Hall. destruct (filter _ E) as [|[a b] l] eqn:Hf; [done|].
    assert ((a, b) ∈ filter (λ e, e.2 = n ∧ e.1 ∉ D) E) as H by (rewrite Hf; by left).
    apply list_elem_of_filter in H as [[Hb Ha] Hin]. cbn in *. subst. by destruct (Ha (Hall _ Hin)).
Qed.

Lemma cnt_mono D D' n : D ⊆ D' → cnt D n = 0 → cnt D' n = 0.
Proof. rewrite !cnt_zero. set_solver. Qed.

Lemma elem_successors m n : n ∈ successors_of E m ↔ (m, n) ∈ E.
Proof.
  unfold successors_of. rewrite list_elem_of_fmap. split.
  - intros [[a b] [-> H]]. apply list_elem_of_filter in H as [Hab H]. cbn in *. by subst.
  - intros H. exists (m, n). split; [done|]. by apply list_elem_of_filter.
Qed.
End graph.

(** ** The invariant of a step *)

Definition committing_phase (p : TransactionPhase) : bool := match p with Committing _ => true | _ => false end.
Definition committing (s : Inner) : bool := committing_phase (transaction_phase s).

(** The nodes that have been called for evaluation. *)
Definition evals (l : list CircuitCall) : list NodeId :=
  omap (λ c, match c with EvalNode n => Some n | _ => None end) l.

Section invariant.
Context (E : list (NodeId * NodeId)) (N : gset NodeId) (asy : NodeId → bool).

(** Every evaluation comes after those of the predecessors, and ends once, after it has been started (the
    latest call is first). *)
Fixpoint log_ordered (l : list CircuitCall) : Prop :=
  match l with
  | [] => True
  | c :: l =>
      log_ordered l
      ∧ match c with
        | EvalNode n => ∀ p, (p, n) ∈ E → ∃ b, Evaluated p b ∈ l
        | Evaluated n _ => EvalNode n ∈ l ∧ ∀ b, Evaluated n b ∉ l
        | _ => True
        end
  end.

(** The flush state of a node when the flushes of [F] are complete and decrements for [owed] are due. *)
Definition flush_ok (F : gset NodeId) (owed : list NodeId) (c : bool) (n : NodeId) (f : FlushState) : Prop :=
  match f with
  | UnflushedDependencies k => n ∉ F ∧ k = cnt E F n + occ n owed
  | Started _ => n ∉ F ∧ cnt E F n = 0 ∧ occ n owed = 0 ∧ c = true
  | Completed _ => n ∈ F ∧ cnt E F n = 0 ∧ occ n owed = 0 ∧ c = true
  end.

(** The count of the nodes that have not been flushed. *)
Definition phase_ok (F : gset NodeId) (p : TransactionPhase) : Prop :=
  match p with Committing u => u = size (N ∖ F) | _ => F = ∅ end.

(** A task when [D] have been evaluated, [H] are under evaluation, decrements are due for [owed], and
    [X] may be runnable without having been spawned yet. *)
Record task_ok (D H F X : gset NodeId) (owed fowed : list NodeId) (c : bool) (n : NodeId) (t : Task) : Prop := {
  ok_succ : successors t = successors_of E n;
  ok_pred : num_predecessors t = cnt E ∅ n;
  ok_async : is_async t = asy n;
  ok_sync : asy n = false → is_ready t = true;
  ok_unsat : unsatisfied_dependencies t = cnt E D n + occ n owed;
  ok_sched : scheduled t = true ↔ n ∈ D ∪ H;
  ok_before : n ∈ D ∪ H → unsatisfied_dependencies t = 0;
  ok_spawned : n ∉ D ∪ H → n ∉ X → unsatisfied_dependencies t = 0 → is_ready t = false;
  ok_flush : flush_ok F fowed c n (flush_state t);
  ok_frontier : c = true → n ∈ D ∪ H → flush_state t ≠ UnflushedDependencies 0 }.

Record inv (D F X : gset NodeId) (owed fowed : list NodeId) (base new : list CircuitCall) (s : Inner) : Prop := {
  inv_dom : dom (tasks s) = N;
  inv_tasks : ∀ n t, tasks s !! n = Some t → task_ok D (handles s) F X owed fowed (committing s) n t;
  inv_disjoint : D ## handles s;
  inv_nodes : D ∪ handles s ∪ F ⊆ N;
  inv_phase : phase_ok F (transaction_phase s);
  inv_notified : ∀ n, n ∈ notified s → n ∈ N ∧ asy n = true;
  inv_calls : calls s = new ++ base;
  inv_evals : ∀ n, n ∈ D ∪ handles s ↔ EvalNode n ∈ new;
  inv_done : ∀ n, n ∈ D ↔ ∃ b, Evaluated n b ∈ new;
  inv_once : NoDup (evals new);
  inv_ordered : log_ordered new }.

Lemma evals_elem n l : n ∈ evals l ↔ EvalNode n ∈ l.
Proof.
  unfold evals. rewrite list_elem_of_omap. split.
  - intros ([] & Hin & [= ->]). done.
  - intros Hin. by exists (EvalNode n).
Qed.

(** ** Spawning *)

Lemma elem_add (m n : NodeId) (D H : gset NodeId) : m ∈ D ∪ ({[n]} ∪ H) ↔ m = n ∨ m ∈ D ∪ H.
Proof. set_solver. Qed.

Lemma task_ok_other D H F X owed fowed c n m t :
  task_ok D H F X owed fowed c m t → m ≠ n → task_ok D ({[n]} ∪ H) F (X ∖ {[n]}) owed fowed c m t.
Proof.
  intros [] Hne.
  assert (m ∈ D ∪ ({[n]} ∪ H) ↔ m ∈ D ∪ H) as Heq by (rewrite elem_add; tauto).
  split; rewrite ?Heq; try done.
  intros H1 H2. apply ok_spawned0; [done|]. intros Hx. apply H2. by apply elem_of_difference; rewrite elem_of_singleton.
Qed.

Lemma task_ok_spawned D H F X owed fowed c n t :
  task_ok D H F X owed fowed c n t → unsatisfied_dependencies t = 0 →
  (c = true → flush_state t ≠ UnflushedDependencies 0) →
  task_ok D ({[n]} ∪ H) F (X ∖ {[n]}) owed fowed c n (set_scheduled true t).
Proof.
  intros [] H0 Hc. assert (n ∈ D ∪ ({[n]} ∪ H)) as Hin by (rewrite elem_add; by left).
  split; try done. intros; by apply Hc.
Qed.

Lemma task_ok_flush D H F X owed fowed n t :
  task_ok D H F X owed fowed true n t → unsatisfied_dependencies t = 0 → flush_state t = UnflushedDependencies 0 →
  task_ok D ({[n]} ∪ H) F (X ∖ {[n]}) owed fowed true n (set_flush_state (Started None) (set_scheduled true t)).
Proof.
  intros [] H0 Hc. assert (n ∈ D ∪ ({[n]} ∪ H)) as Hin by (rewrite elem_add; by left).
  rewrite Hc in ok_flush0. destruct ok_flush0 as [HF Hk].
  split; try done. cbn. split_and!; done || lia.
Qed.

Lemma evals_skip pre new : (∀ n, EvalNode n ∉ pre) → evals (pre ++ new) = evals new.
Proof.
  induction pre as [|c pre IH]; [done|]. intros Hpre. cbn. destruct c; try by (apply IH; intros m Hm; apply (Hpre m); right).
  destruct (Hpre n). by left.
Qed.

Lemma log_ordered_skip n pre new : (∀ c, c ∈ pre → c = FlushNode n) → log_ordered new → log_ordered (pre ++ new).
Proof.
  induction pre as [|c pre IH]; [done|]. intros Hpre Hnew. cbn. split.
  - apply IH; [|done]. intros m Hm. apply (Hpre m). by right.
  - by rewrite (Hpre c) by by left.
Qed.

(** Adding the spawned task to the state. *)
Lemma inv_spawned D F X owed fowed base new s s2 n t pre :
  inv D F X owed fowed base new s → n ∈ N → n ∉ D ∪ handles s → (∀ p, (p, n) ∈ E → p ∈ D) →
  tasks s2 = tasks s → handles s2 = handles s → notified s2 = notified s →
  transaction_phase s2 = transaction_phase s → calls s2 = pre ++ calls s → (∀ c, c ∈ pre → c = FlushNode n) →
  task_ok D ({[n]} ∪ handles s) F (X ∖ {[n]}) owed fowed (committing s) n t →
  inv D F (X ∖ {[n]}) owed fowed base (EvalNode n :: pre ++ new)
    (call (EvalNode n) (set_handles ({[n]} ∪ handles s2) (set_tasks <[n := t]> s2))).
Proof.
  intros Hinv HnN Hn Hpreds R1 R2 R3 R5 R6 Hpre Hok'. destruct Hinv.
  assert (∀ m, EvalNode m ∉ pre) as Hne by (by intros m Hm%Hpre).
  split; cbn.
  - rewrite R1, dom_insert_L, inv_dom0. set_solver.
  - intros m tm. rewrite R1, R2. intros Hm. unfold committing in *. cbn. rewrite R5.
    destruct (decide (m = n)) as [->|Hmn].
    + rewrite lookup_insert_eq in Hm. by injection Hm as <-.
    + rewrite lookup_insert_ne in Hm by done. by apply task_ok_other; [apply inv_tasks0|].
  - rewrite R2. set_solver.
  - rewrite R2. set_solver.
  - by rewrite R5.
  - by rewrite R3.
  - by rewrite R6, inv_calls0, app_assoc.
  - intros m. rewrite R2, elem_add, elem_of_cons, elem_of_app, inv_evals0. split.
    + intros [->|Hm]; [by left|by right; right].
    + intros [[= ->]|[Hm|Hm]]; [by left|by destruct (Hne m)|by right].
  - intros m. rewrite inv_done0. split; intros [b Hb]; exists b; [right; apply elem_of_app; by right|].
    apply elem_of_cons in Hb as [[=]|[Hb|Hb]%elem_of_app]; [by apply Hpre in Hb|done].
  - apply NoDup_cons. fold (evals (pre ++ new)). rewrite evals_skip by done. split; [|done]. by rewrite evals_elem, <- inv_evals0.
  - split; [by eapply log_ordered_skip|]. intros p Hp.
    destruct (proj1 (inv_done0 p) (Hpreds p Hp)) as [b Hb]. exists b. apply elem_of_app. by right.
Qed.

(** [s'] has only spawned tasks since [s]. *)
Definition grown (s s' : Inner) : Prop :=
  handles s ⊆ handles s' ∧ notified s' = notified s ∧ permit s' = permit s ∧ transaction_phase s' = transaction_phase s.

Lemma grown_refl s : grown s s.
Proof. done. Qed.
Lemma grown_trans s1 s2 s3 : grown s1 s2 → grown s2 s3 → grown s1 s3.
Proof. intros (?&?&?&?) (?&?&?&?). unfold grown. split_and!; try congruence. by etrans. Qed.

Lemma spawn_task_inv D F X owed fowed base new s n t :
  inv D F X owed fowed base new s → tasks s !! n = Some t → n ∉ D ∪ handles s →
  unsatisfied_dependencies t = 0 →
  ∃ s' new', spawn_task n s = Some s' ∧ inv D F (X ∖ {[n]}) owed fowed base new' s'
             ∧ handles s' = {[n]} ∪ handles s ∧ grown s s'.
Proof.
  intros Hinv Ht Hn H0. pose proof (inv_tasks _ _ _ _ _ _ _ _ Hinv n t Ht) as Hok.
  assert (n ∈ N) as HnN by (rewrite <- (inv_dom _ _ _ _ _ _ _ _ Hinv); by apply elem_of_dom_2 in Ht).
  assert (∀ p, (p, n) ∈ E → p ∈ D) as Hpreds.
  { apply cnt_zero. pose proof (ok_unsat _ _ _ _ _ _ _ _ _ Hok). lia. }
  unfold spawn_task. rewrite Ht. cbn [mbind option_bind].
  set (s1 := if bool_decide (handles s = ∅) && waiting s then set_waiting false s else s).
  assert (tasks s1 = tasks s ∧ handles s1 = handles s ∧ notified s1 = notified s ∧ permit s1 = permit s
          ∧ transaction_phase s1 = transaction_phase s ∧ calls s1 = calls s) as (E1 & E2 & E3 & E4 & E5 & E6)
    by (unfold s1; by destruct (_ && _)).
  clearbody s1.
  assert (∀ (s2 : Inner) t2 pre, tasks s2 = tasks s → handles s2 = handles s → notified s2 = notified s →
    permit s2 = permit s → transaction_phase s2 = transaction_phase s → calls s2 = pre ++ calls s →
    (∀ c, c ∈ pre → c = FlushNode n) → task_ok D ({[n]} ∪ handles s) F (X ∖ {[n]}) owed fowed (committing s) n t2 →
    ∃ s' new', Some (call (EvalNode n) (set_handles ({[n]} ∪ handles s2) (set_tasks <[n := t2]> s2))) = Some s'
      ∧ inv D F (X ∖ {[n]}) owed fowed base new' s' ∧ handles s' = {[n]} ∪ handles s ∧ grown s s') as Hend.
  { intros s2 t2 pre R1 R2 R3 R4 R5 R6 Hpre Hok'. eexists _, (EvalNode n :: pre ++ new). split; [done|]. split_and!.
    - by eapply inv_spawned.
    - cbn. by rewrite R2.
    - unfold grown. cbn. rewrite R2, R3, R4, R5. split_and!; done || set_solver. }
  assert ((committing s = true → flush_state t ≠ UnflushedDependencies 0) →
          task_ok D ({[n]} ∪ handles s) F (X ∖ {[n]}) owed fowed (committing s) n (set_scheduled true t)) as Hplain
    by (intros; by apply task_ok_spawned).
  assert (∀ c : CircuitCall, c ∈ [] → c = FlushNode n) as Hnil by (intros c Hc; by apply elem_of_nil in Hc).
  unfold committing in *. rewrite E5. cbn [flush_state set_scheduled].
  destruct (transaction_phase s) eqn:Hph; [| |destruct (flush_state t) as [[|k]| |] eqn:Hfl|];
    try (apply (Hend s1 (set_scheduled true t) []); [done..|by apply Hplain]).
  apply (Hend (call (FlushNode n) s1) (set_flush_state (Started None) (set_scheduled true t)) [FlushNode n]); try done; cbn.
  - by rewrite E6.
  - intros c Hc. by apply list_elem_of_singleton in Hc.
  - by apply task_ok_flush.
Qed.
(** ** The successors of an evaluated node *)

Lemma task_lookup D F X owed fowed base new s n :
  inv D F X owed fowed base new s → n ∈ N → ∃ t, tasks s !! n = Some t.
Proof. intros Hinv Hn. rewrite <- (inv_dom _ _ _ _ _ _ _ _ Hinv) in Hn. by apply elem_of_dom in Hn. Qed.

Lemma task_ok_skip D H F X owed fc c x m t :
  task_ok D H F X (x :: owed) (if fc : bool then x :: owed else []) c m t → m ≠ x →
  task_ok D H F ({[x]} ∪ X) owed (if fc then owed else []) c m t.
Proof.
  intros [] Hne.
  assert (occ m (x :: owed) = occ m owed) as Ho by (rewrite occ_cons, decide_False; done).
  assert (occ m (if fc then x :: owed else []) = occ m (if fc then owed else [])) as Hf by (by destruct fc).
  split; try done.
  - by rewrite ok_unsat0, Ho.
  - intros. apply ok_spawned0; set_solver.
  - unfold flush_ok in *. destruct (flush_state t); by rewrite <- Hf.
Qed.

Lemma inv_weaken_X D F X X' owed fowed base new s :
  inv D F X owed fowed base new s →
  (∀ n t, n ∈ X → n ∉ X' → n ∉ D ∪ handles s → tasks s !! n = Some t → unsatisfied_dependencies t = 0 → is_ready t = false) →
  inv D F X' owed fowed base new s.
Proof.
  intros [] Hx. split; try done. intros n t Ht. destruct (inv_tasks0 n t Ht). split; try done.
  intros H1 H2 H3. destruct (decide (n ∈ X)); eauto.
Qed.

(** What remains of the flush state of a successor. *)
Lemma flush_decrement F owed fc c x f :
  flush_ok F (if fc : bool then x :: owed else []) c x f →
  ∃ f', (if fc then match f with UnflushedDependencies n => n ← decrement n; Some (UnflushedDependencies n) | _ => None end
         else Some f) = Some f' ∧ flush_ok F (if fc then owed else []) c x f'.
Proof.
  destruct fc; [|by exists f]. assert (occ x (x :: owed) = S (occ x owed)) as Ho by (rewrite occ_cons, decide_True; done).
  destruct f as [k| |]; cbn [flush_ok]; rewrite Ho.
  - intros [HF ->]. rewrite Nat.add_succ_r. cbn. eexists. by split.
  - by intros (? & ? & ? & ?).
  - by intros (? & ? & ? & ?).
Qed.

Lemma schedule_successor_inv fc D F owed base new s x :
  inv D F ∅ (x :: owed) (if fc : bool then x :: owed else []) base new s → x ∈ N →
  ∃ s' new', schedule_successor fc s x = Some s' ∧ inv D F ∅ owed (if fc then owed else []) base new' s' ∧ grown s s'.
Proof.
  intros Hinv Hx. destruct (task_lookup _ _ _ _ _ _ _ _ _ Hinv Hx) as [t Ht].
  pose proof (inv_tasks _ _ _ _ _ _ _ _ Hinv x t Ht) as Hok. destruct Hok.
  rewrite occ_cons, decide_True in ok_unsat0 by done.
  assert (x ∉ D ∪ handles s) as HxD by (intros HxD; specialize (ok_before0 HxD); lia).
  destruct (flush_decrement _ _ _ _ _ _ ok_flush0) as (f' & Hf' & Hfl').
  unfold schedule_successor. rewrite Ht. cbn [mbind option_bind]. rewrite ok_unsat0.
  replace (cnt E D x + (1 + occ x owed)) with (S (cnt E D x + occ x owed)) by lia. cbn [decrement mbind option_bind].
  cbn [mbind option_bind] in Hf'. rewrite Hf'. cbn [mbind option_bind].
  set (u := cnt E D x + occ x owed). set (t' := set_flush_state f' (set_unsatisfied u t)).
  assert (inv D F {[x]} owed (if fc then owed else []) base new (set_tasks <[x := t']> s)) as Hinv'.
  { destruct Hinv. split; try done.
    - cbn. rewrite dom_insert_L, inv_dom0. set_solver.
    - intros m tm Hm. cbn in Hm. destruct (decide (m = x)) as [->|Hne].
      + rewrite lookup_insert_eq in Hm. injection Hm as <-. split; try done.
        intros _ Hx1. set_solver.
      + rewrite lookup_insert_ne in Hm by done.
        pose proof (task_ok_skip _ _ _ _ _ _ _ _ _ _ (inv_tasks0 m tm Hm) Hne) as Hok.
        destruct Hok. split; try done. intros. apply ok_spawned1; set_solver. }
  assert (tasks (set_tasks <[x := t']> s) !! x = Some t') as Ht' by (cbn; by rewrite lookup_insert_eq).
  destruct ((u =? 0) && is_ready t') eqn:Hrun.
  - apply andb_true_iff in Hrun as [Hu Hr]. apply Nat.eqb_eq in Hu.
    destruct (spawn_task_inv _ _ _ _ _ _ _ _ _ _ Hinv' Ht') as (s' & new' & Hs & Hi & _ & Hg); [done|done|].
    exists s', new'. split_and!; [done| |done].
    eapply inv_weaken_X; [done|]. intros m tm Hm. set_solver.
  - exists (set_tasks <[x := t']> s), new. split_and!; try done.
    eapply inv_weaken_X; [done|]. intros m tm Hm _ _ Htm Hu. apply elem_of_singleton in Hm as ->.
    rewrite Ht' in Htm. injection Htm as <-. cbn in Hu. rewrite Hu in Hrun. by cbn in Hrun.
Qed.

Lemma schedule_successors_inv fc D F base owed new s :
  inv D F ∅ owed (if fc : bool then owed else []) base new s → (∀ x, x ∈ owed → x ∈ N) →
  ∃ s' new', foldM (schedule_successor fc) s owed = Some s' ∧ inv D F ∅ [] [] base new' s' ∧ grown s s'.
Proof.
  revert new s. induction owed as [|x owed IH]; intros new s Hinv HN; cbn [foldM].
  - exists s, new. split_and!; [done|by destruct fc|apply grown_refl].
  - destruct (schedule_successor_inv fc D F owed base new s x) as (s1 & new1 & -> & H1 & Hg1); [done|apply HN; by left|].
    cbn [mbind option_bind]. destruct (IH new1 s1 H1) as (s2 & new2 & -> & H2 & Hg2); [intros y Hy; apply HN; by right|].
    exists s2, new2. split_and!; [done..|by eapply grown_trans].
Qed.
(** ** The end of an evaluation *)

Context (HE : ∀ a b, (a, b) ∈ E → a ∈ N ∧ b ∈ N).

Lemma flush_ok_other F c n m f :
  flush_ok F [] c m f → n ∉ F → m ≠ n → flush_ok ({[n]} ∪ F) (successors_of E n) c m f.
Proof.
  intros Hf Hn Hne. pose proof (cnt_add E F n m Hn) as Hc.
  destruct f as [k|p|p]; cbn [flush_ok occ filter length] in *.
  - destruct Hf as [HF ->]. split; [set_solver|]. cbn. lia.
  - destruct Hf as (HF & H0 & _ & ->). split_and!; [set_solver|lia|lia|done].
  - destruct Hf as (HF & H0 & _ & ->). split_and!; [set_solver|lia|lia|done].
Qed.

Lemma after_eval_ok F n f phase flushed progress :
  flush_ok F [] (committing_phase phase) n f → phase_ok F phase → n ∈ N →
  ∃ f' phase' (fc : bool),
    after_eval flushed progress f phase = Some (f', phase', fc) ∧
    (let F' := if fc then {[n]} ∪ F else F in
     flush_ok F' (if fc then successors_of E n else []) (committing_phase phase) n f' ∧ phase_ok F' phase'
     ∧ committing_phase phase' = committing_phase phase ∧ (fc = true → n ∉ F)
     ∧ (flushed = true → cnt E F n = 0 → f ≠ UnflushedDependencies 0 → n ∈ F')
     ∧ (f ≠ UnflushedDependencies 0 → f' ≠ UnflushedDependencies 0)).
Proof.
  intros Hf Hp Hn. destruct f as [k|p|p]; cbn [after_eval].
  - exists (UnflushedDependencies k), phase, false. split_and!; try done.
    destruct Hf as [_ ->]. intros _ -> Hk. by destruct Hk.
  - destruct flushed.
    + cbn [flush_ok] in Hf. destruct Hf as (HF & H0 & _ & Hc). destruct phase as [| |u|]; try done. cbn in Hp.
      assert (N ∖ F = {[n]} ∪ N ∖ ({[n]} ∪ F)) as Heq.
      { apply set_eq. intros x. destruct (decide (x = n)); set_solver. }
      assert (u = S (size (N ∖ ({[n]} ∪ F)))) as Hu.
      { rewrite Hp, Heq, size_union by set_solver. by rewrite size_singleton. }
      rewrite Hu. cbn. pose proof (cnt_add E F n n HF) as Hcnt. eexists _, _, true. split; [done|].
      cbn zeta. split_and!; try done; [cbn [flush_ok]; split_and!; [set_solver|lia|lia|done]|set_solver].
    + exists (Started progress), phase, false. by split_and!.
  - exists (Completed p), phase, false. split_and!; try done. intros _ _ _. apply Hf.
Qed.

Lemma evaluated_inv D F base new s s' n t f fc :
  inv D F ∅ [] [] base new s → n ∈ handles s → tasks s !! n = Some t →
  let F' := if fc : bool then {[n]} ∪ F else F in
  let t' := set_flush_state f (if is_async t then set_ready false t else t) in
  flush_ok F' (if fc then successors_of E n else []) (committing s) n f → phase_ok F' (transaction_phase s') →
  committing s' = committing s → (fc = true → n ∉ F) →
  (flush_state t ≠ UnflushedDependencies 0 → f ≠ UnflushedDependencies 0) →
  tasks s' = <[n := t']> (tasks s) → handles s' = handles s ∖ {[n]} → notified s' = notified s →
  calls s' = Evaluated n fc :: calls s →
  inv ({[n]} ∪ D) F' ∅ (successors_of E n) (if fc then successors_of E n else []) base (Evaluated n fc :: new) s'.
Proof.
  intros Hinv Hn Ht F' t' Hf Hp Hc HnF Hf0 R1 R2 R3 R4.
  assert (n ∈ N) as HnN by (pose proof (inv_nodes _ _ _ _ _ _ _ _ Hinv); set_solver).
  assert (n ∉ D) as HnD by (pose proof (inv_disjoint _ _ _ _ _ _ _ _ Hinv); set_solver).
  assert (∀ m, m ∈ {[n]} ∪ D ∪ handles s ∖ {[n]} ↔ m ∈ D ∪ handles s) as Hset.
  { intros m. destruct (decide (m = n)) as [->|]; set_solver. }
  destruct Hinv. split.
  - rewrite R1, dom_insert_L, inv_dom0. set_solver.
  - intros m tm. rewrite R1, R2, Hc. intros Hm.
    pose proof (cnt_add E D n m HnD) as Hcnt.
    destruct (decide (m = n)) as [->|Hne].
    + rewrite lookup_insert_eq in Hm. injection Hm as <-. destruct (inv_tasks0 n t Ht).
      unfold t'. destruct (is_async t) eqn:Has;
        (split; cbn [flush_state set_flush_state set_ready successors num_predecessors is_async is_ready
                     unsatisfied_dependencies scheduled]; rewrite ?Hset; auto; try congruence).
      all: cbn in *; lia.
    + rewrite lookup_insert_ne in Hm by done. destruct (inv_tasks0 m tm Hm).
      split; rewrite ?Hset; try done; [cbn in *; lia|].
      unfold F'. destruct fc; [|done]. apply flush_ok_other; auto.
  - rewrite R2. set_solver.
  - rewrite R2. unfold F'. destruct fc; set_solver.
  - done.
  - by rewrite R3.
  - by rewrite R4, inv_calls0.
  - intros m. rewrite R2, Hset, inv_evals0, elem_of_cons. naive_solver.
  - intros m. rewrite elem_of_union, elem_of_singleton, inv_done0. setoid_rewrite elem_of_cons. naive_solver.
  - done.
  - split; [done|]. split; [apply inv_evals0; set_solver|]. intros b Hb. apply HnD, inv_done0. by exists b.
Qed.
Lemma inv_set_waiting D F X owed fowed base new s w :
  inv D F X owed fowed base new s → inv D F X owed fowed base new (set_waiting w s).
Proof. by intros []. Qed.

Lemma inv_set_notified D F X owed fowed base new s ns b :
  inv D F X owed fowed base new s → (∀ n, n ∈ ns → n ∈ N ∧ asy n = true) →
  inv D F X owed fowed base new (set_notified ns b s).
Proof. intros [] Hns. by split. Qed.

(** The last node has no successors. *)
Lemma last_no_successors D F X base new s n :
  inv D F X [] [] base new s → n ∈ handles s → {[n]} ∪ D = N → successors_of E n = [].
Proof.
  intros Hinv Hn HD. destruct (successors_of E n) as [|m l] eqn:Hs; [done|]. exfalso.
  assert ((n, m) ∈ E) as He by (apply elem_successors; rewrite Hs; by left).
  destruct (HE _ _ He) as [_ Hm]. destruct (task_lookup _ _ _ _ _ _ _ _ _ Hinv Hm) as [t Ht].
  destruct Hinv. destruct (inv_tasks0 m t Ht). assert (m ∈ D ∪ handles s) as HmD by (clear - Hm HD Hn; set_solver).
  specialize (ok_before0 HmD). assert (cnt E D m = 0) as Hc by (cbn in *; lia).
  rewrite cnt_zero in Hc. specialize (Hc n He). set_solver.
Qed.

(** What holds of the loop: the step under way, ended, or given up. *)
Definition rest_task (F : gset NodeId) (c : bool) (n : NodeId) (t : Task) : Prop :=
  successors t = successors_of E n ∧ num_predecessors t = cnt E ∅ n ∧ is_async t = asy n
  ∧ (asy n = false → is_ready t = true) ∧ flush_ok F [] c n (flush_state t).

(** The state between two steps, where the flushes of [F] are complete. *)
Record rest (F : gset NodeId) (s : Inner) : Prop := {
  rest_dom : dom (tasks s) = N;
  rest_tasks : ∀ n t, tasks s !! n = Some t → rest_task F (committing s) n t;
  rest_handles : handles s = ∅;
  rest_flushed : F ⊆ N;
  rest_phase : phase_ok F (transaction_phase s);
  rest_notified : ∀ n, n ∈ notified s → n ∈ N ∧ asy n = true }.

(** [c] tells whether a commit is under way, and [all] whether every evaluation completes its flush. *)
Definition flushed_ok (all c : bool) (D F : gset NodeId) : Prop := all = true → c = true → D ⊆ F.

Definition loop_ok (base : list CircuitCall) (all c : bool) (l : Loop) : Prop :=
  match l with
  | Running s k =>
      ∃ D F new, inv D F ∅ [] [] base new s ∧ k = size D ∧ k < size N ∧ committing s = c ∧ flushed_ok all c D F
  | Returned s (inr _) => ∃ F new, inv N F ∅ [] [] base new s ∧ committing s = c ∧ flushed_ok all c N F
  | Returned s (inl _) =>
      handles s = ∅ ∧ ∃ new, calls s = new ++ base ∧ NoDup (evals new) ∧ log_ordered new ∧ ∀ n, EvalNode n ∈ new → n ∈ N
  end.

Lemma size_add (D : gset NodeId) n : n ∉ D → size ({[n]} ∪ D) = size D + 1.
Proof. intros. rewrite size_union by set_solver. rewrite size_singleton. lia. Qed.

Lemma aborted_ok D F X owed fowed base new s s' all c e :
  inv D F X owed fowed base new s → calls s' = calls s → handles s' = ∅ → loop_ok base all c (Returned s' (inl e)).
Proof.
  intros [] Hc Hh. split; [done|]. exists new. split_and!; try done; [by rewrite Hc|].
  intros n Hn%inv_evals0. apply inv_nodes0, elem_of_union. by left.
Qed.

Lemma on_join_ok D F base new s n r killed flushed all :
  inv D F ∅ [] [] base new s → n ∈ handles s → r ≠ JoinPanic →
  flushed_ok all (committing s) D F → (all = true → flushed = true) →
  ∃ l, on_join s (size D) n r killed flushed = Some l ∧ loop_ok base all (committing s) l.
Proof.
  intros Hinv Hn Hr Hfo Hall.
  assert (n ∈ N) as HnN by (pose proof (inv_nodes _ _ _ _ _ _ _ _ Hinv); set_solver).
  assert (n ∉ D) as HnD by (pose proof (inv_disjoint _ _ _ _ _ _ _ _ Hinv); set_solver).
  destruct (task_lookup _ _ _ _ _ _ _ _ _ Hinv HnN) as [t Ht].
  pose proof (inv_tasks _ _ _ _ _ _ _ _ Hinv n t Ht) as Hok.
  destruct r as [| |progress|]; [done| | |]; unfold on_join.
  { eexists. split; [done|]. by eapply aborted_ok. }
  2: { cbn [tasks set_handles]. rewrite Ht. cbn [mbind option_bind]. eexists. split; [done|]. by eapply aborted_ok. }
  cbn [tasks set_handles]. rewrite Ht. cbn [mbind option_bind].
  destruct killed; [eexists; split; [done|]; by eapply aborted_ok|].
  set (t1 := if is_async t then set_ready false t else t).
  assert (flush_state t1 = flush_state t) as Hft by (unfold t1; by destruct (is_async t)).
  destruct (after_eval_ok F n (flush_state t) (transaction_phase s) flushed progress) as
    (f & ph & fc & Hae & Hf & Hph & Hcm & HnF & HnF' & Hf0);
    [apply Hok|apply Hinv|done|].
  rewrite Hft. cbn [transaction_phase set_tasks set_handles]. rewrite Hae. cbn [mbind option_bind].
  set (s' := call (Evaluated n fc) _).
  assert (tasks s' = <[n := set_flush_state f t1]> (tasks s)) as Htk by (cbn; by rewrite insert_insert_eq).
  assert (inv ({[n]} ∪ D) (if fc then {[n]} ∪ F else F) ∅ (successors_of E n) (if fc then successors_of E n else [])
            base (Evaluated n fc :: new) s') as Hinv'.
  { by eapply evaluated_inv. }
  assert (flushed_ok all (committing s) ({[n]} ∪ D) (if fc then {[n]} ∪ F else F)) as Hfo'.
  { intros Ha Hc. specialize (Hfo Ha Hc). destruct Hok. apply union_subseteq. split.
    - apply singleton_subseteq_l, HnF'; [auto| |apply ok_frontier0; set_solver].
      apply (cnt_mono E D); [done|]. rewrite <- (Nat.add_0_r (cnt E D n)). change 0 with (occ n []) at 1.
      rewrite <- ok_unsat0. apply ok_before0. set_solver.
    - destruct fc; set_solver. }
  assert (dom (tasks s') = N) as Hdom by apply Hinv'.
  assert (size (tasks s') = size N) as Hsize by (by rewrite <- Hdom, size_dom).
  rewrite Hsize, <- (size_add D n HnD).
  assert (committing s' = committing s) as Hcomm by done. clearbody s'.
  assert ({[n]} ∪ D ⊆ N) as Hsub by (pose proof (inv_nodes _ _ _ _ _ _ _ _ Hinv); set_solver).
  destruct (Nat.eqb_spec (size ({[n]} ∪ D)) (size N)) as [Heq|Hneq].
  - assert ({[n]} ∪ D = N) as HDN by (apply set_subseteq_size_eq; [done|lia]).
    eexists. split; [done|]. exists (if fc then {[n]} ∪ F else F), (Evaluated n fc :: new). rewrite HDN in Hfo'. split_and!; [|done..].
    rewrite (last_no_successors _ _ _ _ _ _ _ Hinv Hn HDN), HDN in Hinv'. by destruct fc.
  - destruct (schedule_successors_inv _ _ _ _ _ _ _ Hinv') as (s2 & new2 & Hs2 & Hinv2 & Hg).
    { intros x Hx. by apply elem_successors, HE in Hx as [_ ?]. }
    unfold schedule_successors. rewrite Htk, lookup_insert_eq. cbn [mbind option_bind].
    assert (successors (set_flush_state f t1) = successors_of E n) as ->.
    { unfold t1. destruct (is_async t); apply Hok. }
    rewrite Hs2. cbn [mbind option_bind]. eexists. split; [done|].
    eexists _, _, new2. split_and!; [destruct (bool_decide _); [by apply inv_set_waiting|]; done|done| | |done].
    + pose proof (subseteq_size _ _ Hsub). lia.
    + destruct Hg as (_ & _ & _ & Hph2). destruct (bool_decide _); unfold committing in *; cbn; by rewrite Hph2.
Qed.

(** ** Notifications *)

Lemma process_notification_ok ready D F base new s n :
  inv D F ∅ [] [] base new s → n ∈ N → asy n = true →
  ∃ s' new', process_notification ready s n = Some s' ∧ inv D F ∅ [] [] base new' s' ∧ grown s s'.
Proof.
  intros Hinv Hn Ha. destruct (task_lookup _ _ _ _ _ _ _ _ _ Hinv Hn) as [t Ht].
  pose proof (inv_tasks _ _ _ _ _ _ _ _ Hinv n t Ht) as Hok.
  unfold process_notification. rewrite Ht. cbn [mbind option_bind].
  destruct (is_ready t) eqn:Hr; [by exists s, new|]. destruct (ready n); [|by exists s, new].
  set (t' := set_ready true t).
  assert (inv D F {[n]} [] [] base new (set_tasks <[n := t']> s)) as Hinv'.
  { destruct Hinv. split; try done.
    - cbn. rewrite dom_insert_L, inv_dom0. set_solver.
    - intros m tm Hm. cbn in Hm. destruct (decide (m = n)) as [->|Hne].
      + rewrite lookup_insert_eq in Hm. injection Hm as <-. destruct Hok. split; try done.
        intros _ Hx. set_solver.
      + rewrite lookup_insert_ne in Hm by done. destruct (inv_tasks0 m tm Hm). split; try done. intros. apply ok_spawned0; set_solver. }
  assert (tasks (set_tasks <[n := t']> s) !! n = Some t') as Ht' by (cbn; by rewrite lookup_insert_eq).
  assert (scheduled t = true ↔ n ∈ D ∪ handles s) as Hsch by apply Hok.
  destruct ((unsatisfied_dependencies t =? 0) && negb (scheduled t)) eqn:Hrun.
  - apply andb_true_iff in Hrun as [Hu Hs]. apply Nat.eqb_eq in Hu. apply negb_true_iff in Hs.
    assert (n ∉ D ∪ handles s) as HnD by (intros H%Hsch; congruence).
    destruct (spawn_task_inv _ _ _ _ _ _ _ _ _ _ Hinv' Ht' HnD Hu) as (s' & new' & Hs' & Hi & _ & Hg).
    exists s', new'. split_and!; [done| |done]. eapply inv_weaken_X; [done|]. set_solver.
  - exists (set_tasks <[n := t']> s), new. split_and!; try done.
    eapply inv_weaken_X; [done|]. intros m tm Hm _ HmD Htm Hu. apply elem_of_singleton in Hm as ->.
    rewrite Ht' in Htm. injection Htm as <-. cbn in Hu, HmD. rewrite Hu in Hrun. cbn in Hrun.
    apply negb_false_iff, Hsch in Hrun. done.
Qed.

Lemma process_list_ok ready D F base l new s :
  inv D F ∅ [] [] base new s → (∀ n, n ∈ l → n ∈ N ∧ asy n = true) →
  ∃ s' new', foldM (process_notification ready) s l = Some s' ∧ inv D F ∅ [] [] base new' s' ∧ grown s s'.
Proof.
  revert new s. induction l as [|n l IH]; intros new s Hinv Hl; cbn [foldM]; [by exists s, new|].
  destruct (Hl n) as [Hn Ha]; [by left|].
  destruct (process_notification_ok ready D F base new s n) as (s1 & new1 & -> & H1 & Hg1); [done..|]. cbn [mbind option_bind].
  destruct (IH new1 s1 H1) as (s2 & new2 & -> & H2 & Hg2); [intros m Hm; apply Hl; by right|].
  exists s2, new2. split_and!; [done..|by eapply grown_trans].
Qed.

(** ** Events *)

(** No evaluation panics, and only async nodes of the circuit have callbacks. *)
Definition event_ok (all : bool) (e : Event) : Prop :=
  match e with
  | Join _ r _ flushed => r ≠ JoinPanic ∧ (all = true → flushed = true)
  | Callback n => n ∈ N ∧ asy n = true
  | _ => True
  end.

Lemma on_event_ok base all c l e :
  loop_ok base all c l → event_ok all e → ∃ l', on_event l e = Some l' ∧ loop_ok base all c l'.
Proof.
  intros Hl He. destruct l as [s k|s r]; [|by exists (Returned s r)].
  destruct Hl as (D & F & new & Hinv & -> & Hk & <- & Hfo).
  destruct e as [n r killed flushed|ready|n]; cbn [on_event].
  - case_bool_decide as Hn.
    + destruct He. by apply (on_join_ok D F base new).
    + eexists. split; [done|]. by exists D, F, new.
  - destruct (permit s); [|eexists; split; [done|]; by exists D, F, new].
    unfold process_notifications.
    destruct (process_list_ok ready D F base (elements (notified s)) new
                (set_notified ∅ false (set_notified (notified s) false s))) as (s' & new' & Hp & Hinv' & Hg).
    { apply inv_set_notified; [|set_solver]. apply inv_set_notified; [done|]. apply Hinv. }
    { intros n Hn. apply elem_of_elements in Hn. by apply Hinv. }
    cbn [notified set_notified permit] in *. rewrite Hp. cbn [mbind option_bind]. eexists. split; [done|].
    exists D, F, new'. split_and!; try done. destruct Hg as (_ & _ & _ & Hph). unfold committing. by rewrite Hph.
  - eexists. split; [done|]. exists D, F, new. split_and!; try done.
    apply inv_set_notified; [done|]. intros m Hm. destruct Hinv. set_solver.
Qed.

Lemma events_ok base all c es l :
  loop_ok base all c l → Forall (event_ok all) es → ∃ l', foldM on_event l es = Some l' ∧ loop_ok base all c l'.
Proof.
  revert l. induction es as [|e es IH]; intros l Hl Hes; cbn [foldM]; [by exists l|].
  apply Forall_cons in Hes as [He Hes]. destruct (on_event_ok base all c l e Hl He) as (l1 & -> & H1). cbn [mbind option_bind].
  by apply IH.
Qed.

(** ** The start of a step *)

Lemma spawn_list_ok F base l new s :
  inv ∅ F (list_to_set l) [] [] base new s → NoDup l → (∀ n, n ∈ l → n ∈ N ∧ cnt E ∅ n = 0 ∧ n ∉ handles s) →
  ∃ s' new', foldM (λ s n, spawn_task n s) s l = Some s' ∧ inv ∅ F ∅ [] [] base new' s' ∧ grown s s'.
Proof.
  revert new s. induction l as [|n l IH]; intros new s Hinv Hnd Hl; cbn [foldM]; [by exists s, new|].
  apply NoDup_cons in Hnd as [Hnl Hnd]. destruct (Hl n) as (Hn & Hc & Hh); [by left|].
  destruct (task_lookup _ _ _ _ _ _ _ _ _ Hinv Hn) as [t Ht].
  assert (unsatisfied_dependencies t = 0) as Hu.
  { destruct Hinv. destruct (inv_tasks0 n t Ht). cbn in *. lia. }
  destruct (spawn_task_inv _ _ _ _ _ _ _ _ _ _ Hinv Ht) as (s1 & new1 & -> & H1 & Hh1 & Hg1); [set_solver|done|]. cbn [mbind option_bind].
  destruct (IH new1 s1) as (s2 & new2 & -> & H2 & Hg2).
  - replace (list_to_set l : gset NodeId) with ((list_to_set (n :: l) : gset NodeId) ∖ {[n]}); [done|].
    cbn. apply set_eq. intros x. destruct (decide (x = n)) as [->|]; set_solver.
  - done.
  - intros m Hm. destruct (Hl m) as (Hm1 & Hm2 & Hm3); [by right|]. split_and!; try done. rewrite Hh1. set_solver.
  - exists s2, new2. split_and!; [done..|by eapply grown_trans].
Qed.
Lemma begin_loop_ok all F s :
  rest F s → ∃ l, begin_loop s = Some l ∧ loop_ok (calls s) all (committing s) l.
Proof.
  intros Hrest. unfold begin_loop. case_bool_decide as Hemp.
  { eexists. split; [done|]. destruct Hrest. rewrite Hemp, dom_empty_L in rest_dom0.
    assert (∀ n, n ∉ N) as HN by (rewrite <- rest_dom0; intros n; apply not_elem_of_empty).
    exists F, []. split_and!; [|done|by intros _ _ n Hn%HN]. split; cbn; rewrite ?rest_handles0; try done.
    - by rewrite Hemp, dom_empty_L.
    - intros n t. rewrite Hemp, lookup_empty. done.
    - intros n. rewrite elem_of_union. intros [[Hn%HN|Hn%not_elem_of_empty]%elem_of_union|Hn]; [done|done|by apply rest_flushed0].
    - intros n. rewrite elem_of_union. split; [intros [Hn%HN|Hn%not_elem_of_empty]; done|by intros Hn%elem_of_nil].
    - intros n. split; [by intros Hn%HN|by intros [b Hb%elem_of_nil]].
    - apply NoDup_nil_2. }
  unfold begin_step. set (s0 := set_tasks _ _). set (l := (filter _ _).*1).
  assert (∀ n, n ∈ l ↔ ∃ t, tasks s0 !! n = Some t ∧ runnable t = true) as Hl.
  { intros n. unfold l. rewrite list_elem_of_fmap. split.
    - intros [[m t] [-> Hin]]. apply list_elem_of_filter in Hin as [Hr Hin]. apply elem_of_map_to_list in Hin. by exists t.
    - intros (t & Ht & Hr). exists (n, t). split; [done|]. apply list_elem_of_filter. split; [done|]. by apply elem_of_map_to_list. }
  assert (NoDup l) as Hnd.
  { unfold l. eapply sublist_NoDup; [apply (NoDup_fst_map_to_list (tasks s0))|]. apply fmap_sublist, sublist_filter. }
  assert (inv ∅ F (list_to_set l) [] [] (calls s) [] s0) as Hinv.
  { destruct Hrest. split; cbn; try done; rewrite ?rest_handles0.
    - by rewrite dom_fmap_L.
    - intros n t Ht. pose proof Ht as Htn. rewrite lookup_fmap_Some in Ht. destruct Ht as (t0 & <- & Ht0).
      destruct (rest_tasks0 n t0 Ht0) as (R1 & R2 & R3 & R4 & R5).
      assert (n ∉ (∅ ∪ ∅ : gset NodeId)) as Hno by set_solver.
      split; cbn; try done; [lia|].
      + intros _ Hx Hu. apply not_true_iff_false. intros Hr. apply Hx, elem_of_list_to_set, Hl.
        exists (reset_task t0). split; [done|]. unfold runnable. cbn. by rewrite Hu, Hr.
    - intros n. rewrite !elem_of_union. intros [[Hn%not_elem_of_empty|Hn%not_elem_of_empty]|Hn]; [done|done|by apply rest_flushed0].
    - intros n. rewrite elem_of_union. split; [intros [Hn%not_elem_of_empty|Hn%not_elem_of_empty]; done|by intros Hn%elem_of_nil].
    - intros n. split; [by intros Hn%not_elem_of_empty|by intros [b Hb%elem_of_nil]].
    - apply NoDup_nil_2. }
  destruct (spawn_list_ok F (calls s) l [] s0 Hinv Hnd) as (s' & new & Hs' & Hinv' & Hg).
  { intros n (t & Ht & Hr)%Hl. destruct Hinv. unfold runnable in Hr. apply andb_true_iff in Hr as [Hu _].
    apply Nat.eqb_eq in Hu. destruct (inv_tasks0 n t Ht). split_and!.
    - rewrite <- inv_dom0. by apply elem_of_dom_2 in Ht.
    - cbn in *. lia.
    - destruct Hrest. cbn. rewrite rest_handles0. set_solver. }
  rewrite Hs'. cbn [mbind option_bind]. eexists. split; [done|]. exists ∅, F, new. split_and!; try done.
  - assert (N ≠ ∅) as HN. { destruct Hrest. rewrite <- rest_dom0. by rewrite dom_empty_iff_L. }
    assert (size N ≠ 0) by (by intros ?%size_empty_inv%leibniz_equiv). lia.
  - destruct Hg as (_ & _ & _ & Hph). unfold committing. by rewrite Hph.
Qed.

Lemma do_step_ok all F s es :
  rest F s → Forall (event_ok all) es → ∃ l, do_step s es = Some l ∧ loop_ok (calls s) all (committing s) l.
Proof.
  intros Hrest Hes. destruct (begin_loop_ok all F s Hrest) as (l & Hl & Hok). unfold do_step. rewrite Hl. cbn [mbind option_bind].
  by apply events_ok.
Qed.
End invariant.
