(* ===== verification/SchedulerTheorems.v ===== *)
(** Theorems on the dynamic scheduler: the safety and the termination of a step, the progress of a
    commit, and what preparing the scheduler establishes. *)
From stdpp Require Import gmap.
From S2P Require Import Prelude Scheduler SchedulerSpec.
#[local] Open Scope nat_scope.

Section theorems.
Context (E : list (NodeId * NodeId)) (N : gset NodeId) (asy : NodeId → bool).

(** ** Readiness is kept while notifications are processed *)

Definition ready_kept (s s' : Inner) : Prop :=
  ∀ n t, tasks s !! n = Some t → is_ready t = true → ∃ t', tasks s' !! n = Some t' ∧ is_ready t' = true.

Lemma ready_kept_trans s1 s2 s3 : ready_kept s1 s2 → ready_kept s2 s3 → ready_kept s1 s3.
Proof. intros H1 H2 n t Ht Hr. destruct (H1 n t Ht Hr) as (t' & Ht' & Hr'). by eapply H2. Qed.

Lemma ready_kept_insert s s' n t t' :
  tasks s !! n = Some t → (is_ready t = true → is_ready t' = true) → tasks s' = <[n := t']> (tasks s) → ready_kept s s'.
Proof.
  intros Ht Himp Heq m tm Hm Hr. rewrite Heq. destruct (decide (m = n)) as [->|Hne].
  - exists t'. rewrite lookup_insert_eq. split; [done|]. apply Himp. congruence.
  - exists tm. by rewrite lookup_insert_ne.
Qed.

Lemma spawn_task_ready s s' n : spawn_task n s = Some s' → ready_kept s s'.
Proof.
  unfold spawn_task. destruct (tasks s !! n) as [t|] eqn:Ht; [|done]. cbn [mbind option_bind].
  set (s1 := if bool_decide (handles s = ∅) && waiting s then set_waiting false s else s).
  assert (tasks s1 = tasks s) as H1 by (unfold s1; by destruct (_ && _)). clearbody s1.
  destruct (transaction_phase s1); [| |destruct (flush_state _) as [[|k]| |]|]; intros [= <-];
    (eapply (ready_kept_insert s _ n t); [done| |cbn; by rewrite H1]); done.
Qed.

Lemma process_notification_ready ready s s' n : process_notification ready s n = Some s' → ready_kept s s'.
Proof.
  unfold process_notification. destruct (tasks s !! n) as [t|] eqn:Ht; [|done]. cbn [mbind option_bind].
  assert (ready_kept s s) as Hrefl by (by intros m tm Hm Hr; exists tm).
  destruct (is_ready t); [by intros [= <-]|]. destruct (ready n); [|by intros [= <-]].
  assert (ready_kept s (set_tasks <[n := set_ready true t]> s)) as Hk by (by eapply (ready_kept_insert s _ n t (set_ready true t))).
  destruct (_ && _); [|by intros [= <-]]. intros Hs. eapply ready_kept_trans; [done|]. by eapply spawn_task_ready.
Qed.

(** A node that has been notified and says that it is ready, is ready. *)
Lemma process_list_ready ready s s' l n :
  foldM (process_notification ready) s l = Some s' → n ∈ l → ready n = true →
  ∃ t, tasks s' !! n = Some t ∧ is_ready t = true.
Proof.
  intros Hf Hn Hready.
  assert (∀ l s s', foldM (process_notification ready) s l = Some s' → ready_kept s s') as Hfold.
  { clear. induction l as [|m l IH]; intros s s'; cbn [foldM].
    - intros [= <-] n t Ht Hr. by exists t.
    - destruct (process_notification ready s m) as [s1|] eqn:H1; [|done]. cbn [mbind option_bind]. intros H2.
      eapply ready_kept_trans; [by eapply process_notification_ready|by apply IH]. }
  revert s Hf. induction l as [|m l IH]; intros s; [by apply elem_of_nil in Hn|]. cbn [foldM].
  destruct (process_notification ready s m) as [s1|] eqn:H1; [|done]. cbn [mbind option_bind]. intros H2.
  apply elem_of_cons in Hn as [->|Hn]; [|by eapply IH].
  assert (∃ t, tasks s1 !! m = Some t ∧ is_ready t = true) as (t & Ht & Hr); [|by eapply (Hfold _ _ _ H2)].
  unfold process_notification in H1. destruct (tasks s !! m) as [t|] eqn:Ht; [|done]. cbn [mbind option_bind] in H1.
  destruct (is_ready t) eqn:Hr; [injection H1 as <-; by exists t|]. rewrite Hready in H1.
  destruct (_ && _).
  - eapply (spawn_task_ready _ _ _ H1); [cbn; by rewrite lookup_insert_eq|done].
  - injection H1 as <-. exists (set_ready true t). cbn. by rewrite lookup_insert_eq.
Qed.

Context (HE : ∀ a b, (a, b) ∈ E → a ∈ N ∧ b ∈ N).
Context (rank : NodeId → nat) (Hrank : ∀ a b, (a, b) ∈ E → rank a < rank b).

(** ** Some node can always proceed *)

(** A node outside of [D] with all its predecessors in [D]. *)
Lemma minimal_node D : D ⊆ N → D ≠ N → ∃ n, n ∈ N ∖ D ∧ cnt E D n = 0.
Proof.
  intros HD Hne.
  assert (N ∖ D ≢ ∅) as Hemp by (intros H; apply Hne, set_eq; intros x; destruct (decide (x ∈ D)); set_solver).
  assert (Transitive (λ a b, rank a ≤ rank b)) by (intros a b c; cbn; lia).
  assert (∀ a b, Decision ((λ a b, rank a ≤ rank b) a b)) by (intros a b; apply le_dec).
  destruct (minimal_exists_elem_of (λ a b, rank a ≤ rank b) (N ∖ D) Hemp) as (n & Hn & Hmin).
  exists n. split; [done|]. apply cnt_zero. intros p Hp. destruct (decide (p ∈ D)) as [|Hp']; [done|]. exfalso.
  pose proof (Hrank _ _ Hp). destruct (HE _ _ Hp) as [HpN _]. specialize (Hmin p). cbn in Hmin.
  assert (rank n ≤ rank p) by (apply Hmin; [set_solver|lia]). lia.
Qed.

(** If nothing is under evaluation, an async node waits to become ready. *)
Lemma waiting_node D F base new s :
  inv E N asy D F ∅ [] [] base new s → size D < size N → handles s = ∅ →
  ∃ n, n ∈ N ∖ D ∧ asy n = true ∧ cnt E D n = 0.
Proof.
  intros Hinv Hlt Hh. destruct (minimal_node D) as (n & Hn & Hc).
  { pose proof (inv_nodes _ _ _ _ _ _ _ _ _ _ _ Hinv). set_solver. }
  { intros ->. lia. }
  apply elem_of_difference in Hn as [HnN HnD].
  exists n. split_and!; [set_solver| |done]. destruct (task_lookup _ _ _ _ _ _ _ _ _ _ _ _ Hinv HnN) as [t Ht].
  destruct Hinv. destruct (inv_tasks n t Ht). destruct (asy n) eqn:Ha; [done|].
  rewrite ok_spawned in ok_sync; [by apply ok_sync| | |]; [rewrite Hh; set_solver|set_solver|]. cbn in *. lia.
Qed.
(** ** Driving a step to its end *)

Lemma on_join_counts s k n progress flushed l :
  on_join s k n (EvalOk progress) false flushed = Some l →
  (∃ s', l = Returned s' (inr ())) ∨ (∃ s', l = Running s' (k + 1)).
Proof.
  unfold on_join. destruct (tasks _ !! n) as [t|]; [|done]. cbn [mbind option_bind].
  destruct (after_eval _ _ _ _) as [[[f ph] fc]|]; [|done]. cbn [mbind option_bind].
  destruct (_ =? _); [intros [= <-]; by left; eexists|].
  destruct (schedule_successors _ _ _); [|done]. cbn [mbind option_bind]. intros [= <-]. right. by eexists.
Qed.

(** An evaluation that ends normally advances the step by one node. *)
Lemma join_advances base all c s k n :
  loop_ok E N asy base all c (Running s k) → n ∈ handles s →
  ∃ l, on_event (Running s k) (Join n (EvalOk None) false true) = Some l ∧ loop_ok E N asy base all c l
       ∧ ((∃ s', l = Returned s' (inr ())) ∨ (∃ s', l = Running s' (k + 1))).
Proof.
  intros Hl Hn. destruct (on_event_ok E N asy HE base all c (Running s k) (Join n (EvalOk None) false true) Hl) as (l & Hev & Hok).
  { by split. }
  exists l. split_and!; [done..|]. cbn [on_event] in Hev. rewrite bool_decide_true in Hev by done. by eapply on_join_counts.
Qed.

(** A callback of the waiting node and its notification start an evaluation. *)
Lemma notification_advances base all c s k :
  loop_ok E N asy base all c (Running s k) → handles s = ∅ →
  ∃ n s', n ∈ N ∧ asy n = true ∧ foldM on_event (Running s k) [Callback n; Notified (λ _, true)] = Some (Running s' k)
          ∧ loop_ok E N asy base all c (Running s' k) ∧ handles s' ≠ ∅.
Proof.
  intros Hl Hh. pose proof Hl as (D & F & new & Hinv & Hk & Hlt & Hc & Hfo).
  destruct (waiting_node D F base new s Hinv) as (n & Hn & Ha & Hcnt); [lia|done|].
  apply elem_of_difference in Hn as [HnN HnD].
  set (s1 := set_notified ∅ false (notify n s)).
  assert (inv E N asy D F ∅ [] [] base new s1) as Hinv1.
  { apply inv_set_notified; [|set_solver]. apply inv_set_notified; [done|]. intros m. destruct Hinv. set_solver. }
  destruct (process_list_ok E N asy HE (λ _, true) D F base (elements (notified (notify n s))) new s1 Hinv1) as (s' & new' & Hp & Hinv' & Hg).
  { intros m Hm%elem_of_elements. destruct Hinv. cbn in Hm. set_solver. }
  destruct (process_list_ready (λ _, true) s1 s' _ n Hp) as (t & Ht & Hr); [apply elem_of_elements; cbn; set_solver|done|].
  exists n, s'. split_and!; [done|done| | |].
  - transitivity (s0 ← foldM (process_notification (λ _, true)) s1 (elements (notified (notify n s))); Some (Running s0 k));
      [|by rewrite Hp].
    cbn [foldM on_event mbind option_bind]. change (permit (notify n s)) with true. cbn iota. unfold process_notifications.
    change (set_notified ∅ _ _) with s1. cbn [notified set_notified]. by destruct (foldM _ _ _).
  - exists D, F, new'. split_and!; try done. destruct Hg as (_ & _ & _ & Hph). unfold committing. by rewrite Hph.
  - intros Hemp. destruct Hinv'. destruct (inv_tasks n t Ht). rewrite ok_spawned in Hr; [done| | |].
    + rewrite Hemp. set_solver.
    + set_solver.
    + cbn in *. lia.
Qed.

(** From every state of the loop there are events that end the step, at most three for each node. *)
Lemma drive base all c d : ∀ s k,
  loop_ok E N asy base all c (Running s k) → size N - k = d →
  ∃ es s', Forall (event_ok N asy all) es ∧ length es ≤ 3 * d ∧ foldM on_event (Running s k) es = Some (Returned s' (inr ())).
Proof.
  induction d as [|d IH]; intros s k Hl Hd.
  { destruct Hl as (D & F & new & _ & _ & Hlt & _). lia. }
  assert (∀ s, loop_ok E N asy base all c (Running s k) → handles s ≠ ∅ →
    ∃ es s', Forall (event_ok N asy all) es ∧ length es ≤ 1 + 3 * d ∧ foldM on_event (Running s k) es = Some (Returned s' (inr ()))) as Hjoin.
  { clear s Hl. intros s Hl Hh. apply set_choose_L in Hh as [n Hn].
    destruct (join_advances base all c s k n Hl Hn) as (l & Hev & Hok & [[s' ->]|[s' ->]]).
    - exists [Join n (EvalOk None) false true], s'. split_and!; [by repeat constructor|cbn; lia|]. cbn [foldM]. by rewrite Hev.
    - destruct (IH s' (k + 1) Hok) as (es & s'' & Hes & Hlen & Hf); [lia|].
      exists (Join n (EvalOk None) false true :: es), s''. split_and!; [by repeat constructor|cbn [length]; lia|].
      cbn [foldM]. rewrite Hev. done. }
  destruct (decide (handles s = ∅)) as [Hh|Hh].
  - destruct (notification_advances base all c s k Hl Hh) as (n & s1 & Hn & Ha & Hf & Hl1 & Hh1).
    destruct (Hjoin s1 Hl1 Hh1) as (es & s' & Hes & Hlen & Hf').
    exists ([Callback n; Notified (λ _, true)] ++ es), s'. split_and!.
    + apply Forall_app. split; [|done]. by repeat constructor.
    + rewrite length_app. cbn [length]. lia.
    + rewrite foldM_app, Hf. done.
  - destruct (Hjoin s Hl Hh) as (es & s' & Hes & Hlen & Hf). exists es, s'. split_and!; try done. lia.
Qed.
(** ** Steps *)

Definition loop_state (l : Loop) : Inner := match l with Running s _ | Returned s _ => s end.

Lemma inv_rest F base new s : inv E N asy N F ∅ [] [] base new s → rest E N asy F s.
Proof. clear HE rank Hrank.
  intros []. split; try done.
  - intros n t Ht. destruct (inv_tasks n t Ht). by split_and!.
  - apply set_eq. set_solver.
  - set_solver.
Qed.



(** ** Commits *)

(** C20. A step of a commit that ends leaves no node waiting to be flushed although its predecessors have
    been flushed, so that as long as the commit is not complete some node is being flushed; only nodes whose
    predecessors have all been flushed are, and the number of unflushed nodes is the one the phase records. *)
Theorem scheduler_commit_progress F s es s' :
  rest E N asy F s → committing s = true → Forall (event_ok N asy false) es →
  do_step s es = Some (Returned s' (inr ())) →
  ∃ F', rest E N asy F' s' ∧ transaction_phase s' = Committing (size (N ∖ F'))
    ∧ (∀ n t, tasks s' !! n = Some t → flush_state t ≠ UnflushedDependencies 0)
    ∧ (∀ n t, tasks s' !! n = Some t → n ∈ F' ↔ ∃ p, flush_state t = Completed p)
    ∧ (∀ n t p q, tasks s' !! n = Some t → flush_state t = Started p ∨ flush_state t = Completed p → (q, n) ∈ E → q ∈ F')
    ∧ (F' ≠ N → ∃ n t p, tasks s' !! n = Some t ∧ flush_state t = Started p).
Proof.
  intros Hrest Hc Hes Hdo. destruct (do_step_ok E N asy HE false F s es Hrest Hes) as (l & Hl & Hok).
  rewrite Hl in Hdo. injection Hdo as ->. destruct Hok as (F' & new & Hinv & Hc' & _). rewrite Hc in Hc'.
  exists F'. pose proof (inv_rest _ _ _ _ Hinv) as Hr. split_and!; [done| | | | |].
  - destruct Hr. unfold committing in Hc'. destruct (transaction_phase s'); try done. by f_equal.
  - intros n t Ht. destruct Hinv. apply (inv_tasks n t Ht); [done|]. apply elem_of_union_l. rewrite <- inv_dom. by apply elem_of_dom_2 in Ht.
  - intros n t Ht. destruct Hinv. destruct (inv_tasks n t Ht). destruct (flush_state t) as [k|p|p]; cbn in ok_flush; naive_solver.
  - intros n t p q Ht Hf. apply cnt_zero. destruct Hinv. destruct (inv_tasks n t Ht).
    destruct Hf as [Hf|Hf]; rewrite Hf in ok_flush; apply ok_flush.
  - intros Hne. destruct (minimal_node F') as (n & Hn & Hcnt); [by destruct Hr|done|]. apply elem_of_difference in Hn as [HnN HnF].
    destruct (task_lookup _ _ _ _ _ _ _ _ _ _ _ _ Hinv HnN) as [t Ht]. destruct Hinv. destruct (inv_tasks n t Ht).
    exists n, t. destruct (flush_state t) as [k|p|p] eqn:Hf; cbn in ok_flush; [|by exists p|naive_solver].
    destruct ok_flush as [_ ->]. rewrite Hcnt in ok_frontier. destruct ok_frontier; [done|set_solver|done].
Qed.
(** The state outside of transactions: nothing is required of the flush states. *)
Record structured (s : Inner) : Prop := {
  str_dom : dom (tasks s) = N;
  str_tasks : ∀ n t, tasks s !! n = Some t →
    successors t = successors_of E n ∧ num_predecessors t = cnt E ∅ n ∧ is_async t = asy n ∧ (asy n = false → is_ready t = true);
  str_handles : handles s = ∅;
  str_notified : ∀ n, n ∈ notified s → n ∈ N ∧ asy n = true }.

Lemma rest_structured F s : rest E N asy F s → structured s.
Proof. clear HE rank Hrank. intros []. split; try done. intros n t Ht. destruct (rest_tasks n t Ht) as (? & ? & ? & ? & ?). by split_and!. Qed.

Lemma structured_phase p s : structured s → structured (set_phase p s).
Proof. clear HE rank Hrank. by intros []. Qed.

Lemma structured_call c s : structured s → structured (call c s).
Proof. clear HE rank Hrank. by intros []. Qed.

Lemma start_transaction_rest s : structured s → rest E N asy ∅ (start_transaction s).
Proof. clear HE rank Hrank.
  intros []. split; cbn; try done; [by rewrite dom_fmap_L| ].
  intros n t Ht. rewrite lookup_fmap_Some in Ht. destruct Ht as (t0 & <- & Ht0).
  destruct (str_tasks0 n t0 Ht0) as (R1 & R2 & R3 & R4). split_and!; try done. cbn [flush_ok flush_state set_flush_state]. split; [set_solver|]. rewrite R2. cbn. lia.
Qed.

Lemma start_commit_rest s :
  rest E N asy ∅ s → transaction_started s = true →
  start_commit_transaction s = inr (set_phase (Committing (size (tasks s))) s)
  ∧ rest E N asy ∅ (set_phase (Committing (size (tasks s))) s).
Proof. clear HE rank Hrank.
  intros Hr Hs. unfold start_commit_transaction. rewrite Hs. split; [done|].
  assert (committing s = false) as Hc by (unfold transaction_started in Hs; unfold committing; by destruct (transaction_phase s)).
  destruct Hr. split; try done; cbn.
  - intros n t Ht. destruct (rest_tasks n t Ht) as (? & ? & ? & ? & Hf). split_and!; try done.
    rewrite Hc in Hf. destruct (flush_state t); cbn in Hf; [done|naive_solver..].
  - rewrite <- size_dom, rest_dom. f_equal. set_solver.
Qed.

(** What a transaction does when each of its evaluations completes the flush of its node. *)
Lemma commit_step s es s' :
  rest E N asy ∅ s → committing s = true → Forall (event_ok N asy true) es →
  do_step s es = Some (Returned s' (inr ())) →
  step inr s es = Some (Some (call Tick (set_phase CommitComplete s'), inr ()))
  ∧ structured (call Tick (set_phase CommitComplete s')).
Proof.
  intros Hrest Hc Hes Hdo. destruct (do_step_ok E N asy HE true ∅ s es Hrest Hes) as (l & Hl & Hok).
  rewrite Hl in Hdo. injection Hdo as ->. destruct Hok as (F & new & Hinv & Hc' & Hfo).
  pose proof (inv_rest _ _ _ _ Hinv) as Hr. split.
  - unfold step. assert (transaction_in_progress s = true) as -> by (unfold committing in Hc; unfold transaction_in_progress; by destruct (transaction_phase s)).
    rewrite Hl. cbn [mbind option_bind]. unfold after_step. rewrite Hc in *. unfold committing in Hc'.
    destruct Hr. assert (F = N) as -> by (apply set_eq; specialize (Hfo eq_refl eq_refl); set_solver).
    destruct (transaction_phase s') as [| |u|] eqn:Hph; try done. cbn in rest_phase. rewrite difference_diag_L, size_empty in rest_phase.
    rewrite rest_phase. done.
  - apply structured_call, structured_phase. by eapply rest_structured.
Qed.

End theorems.
