(* ===== verification/SchedulerPrepare.v ===== *)
(** What preparing the dynamic scheduler establishes: the tasks follow the graph of the circuit, the graph is
    acyclic, and the consumer with a strong claim on a stream comes after the other consumers. *)
From stdpp Require Import gmap.
From S2P Require Import Prelude Scheduler SchedulerSpec SchedulerTheorems.
#[local] Open Scope nat_scope.

(** ** The consumers of a stream *)

Definition consumer (key : GlobalNodeId * StreamId) (e : Edge) : option (NodeId * option nat) :=
  match stream e with
  | Some s => if decide ((origin e, s) = key) then Some (to e, ownership_preference e) else None
  | None => None
  end.

Definition consumers (key : GlobalNodeId * StreamId) (es : list Edge) : list (NodeId * option nat) := omap (consumer key) es.

Fixpoint get (key : GlobalNodeId * StreamId) (m : list ((GlobalNodeId * StreamId) * list (NodeId * option nat))) :=
  match m with
  | [] => []
  | (key', cs) :: m => if decide (key = key') then cs else get key m
  end.

Lemma get_add key key' c m : get key (add_consumer key' c m) = if decide (key = key') then get key m ++ [c] else get key m.
Proof.
  induction m as [|[k cs] m IH]; cbn [add_consumer get].
  - by case_decide.
  - destruct (decide (key' = k)) as [->|Hne]; cbn [get].
    + by repeat case_decide.
    + rewrite IH. repeat case_decide; try done; congruence.
Qed.

Lemma get_stream_consumers key es : get key (stream_consumers es) = consumers key es.
Proof.
  unfold stream_consumers. induction es as [|e es IH] using rev_ind; [done|].
  rewrite foldl_app. unfold consumers in *. rewrite omap_app. cbn [foldl omap list_omap].
  unfold consumer at 2. destruct (stream e) as [st|]; [|by rewrite IH, app_nil_r].
  rewrite get_add, IH. repeat case_decide; try congruence. by rewrite app_nil_r.
Qed.

Lemma get_elem key m : get key m ≠ [] → (key, get key m) ∈ m.
Proof.
  induction m as [|[k cs] m IH]; cbn [get]; [done|]. case_decide as Hk; [intros _; subst; by left|]. intros H. right. by apply IH.
Qed.

Lemma omap_two {A B} (f : A → option B) (l : list A) i j x y a b :
  i < j → l !! i = Some x → l !! j = Some y → f x = Some a → f y = Some b →
  ∃ p q, p < q ∧ omap f l !! p = Some a ∧ omap f l !! q = Some b.
Proof.
  revert i j. induction l as [|z l IH]; intros i j Hij Hi Hj Hx Hy; [done|].
  destruct j as [|j]; [lia|]. cbn in Hj. destruct i as [|i]; cbn in Hi.
  - injection Hi as ->. cbn. rewrite Hx.
    assert (b ∈ omap f l) as [q Hq]%list_elem_of_lookup_1.
    { apply list_elem_of_omap. exists y. split; [by eapply list_elem_of_lookup_2|done]. }
    exists 0, (S q). split_and!; [lia|done|done].
  - destruct (IH i j) as (p & q & Hpq & Hp & Hq); [lia|done..|]. cbn. destruct (f z); [exists (S p), (S q)|exists p, q]; split_and!; done || lia.
Qed.

(** ** Constraints *)

Lemma elem_positions {A} (f : A → bool) i l k x :
  (k, x) ∈ positions f i l ↔ ∃ j, k = i + j ∧ l !! j = Some x ∧ f x = true.
Proof.
  revert i. induction l as [|y l IH]; intros i; cbn [positions].
  - split; [by intros ?%elem_of_nil|]. by intros (j & _ & ? & _).
  - split.
    + intros Hin. assert ((k, x) = (i, y) ∧ f y = true ∨ (k, x) ∈ positions f (S i) l) as [[[= -> ->] Hf]|Hin'].
      { destruct (f y); [|by right]. apply elem_of_cons in Hin as [?|?]; [by left|by right]. }
      * exists 0. split_and!; [lia|done|done].
      * apply IH in Hin' as (j & -> & Hj & Hf). exists (S j). split_and!; [lia|done|done].
    + intros (j & -> & Hj & Hf). destruct j as [|j]; cbn in Hj.
      * injection Hj as ->. rewrite Hf. apply elem_of_cons. left. f_equal. lia.
      * assert ((i + S j, x) ∈ positions f (S i) l) by (apply IH; exists j; split_and!; [lia|done|done]).
        destruct (f y); [by right|done].
Qed.

Lemma stream_constraints_strong c o succ cs p q a b :
  stream_constraints c o succ = inr cs → succ !! p = Some a → succ !! q = Some b → is_strong a = true →
  (snd b ≠ None → p ≠ q → (fst b, fst a) ∈ cs) ∧ (is_strong b = true → p = q).
Proof.
  unfold stream_constraints. intros Hcs Hp Hq Ha.
  assert ((p, a) ∈ positions is_strong 0 succ) as Hin by (apply elem_positions; by exists p).
  assert (is_strong b = true → (q, b) ∈ positions is_strong 0 succ) as Hin' by (intros; apply elem_positions; by exists q).
  destruct (positions is_strong 0 succ) as [|[i [strong pr]] [|z l]]; [by apply elem_of_nil in Hin| |done].
  injection Hcs as <-. apply list_elem_of_singleton in Hin as [= <- ->]. split.
  - intros Hb Hne. apply list_elem_of_fmap. exists (q, b). split; [done|]. apply list_elem_of_filter. split; [cbn; congruence|].
    apply elem_positions. exists q. split_and!; try done. by apply bool_decide_true.
  - intros Hb. specialize (Hin' Hb). apply list_elem_of_singleton in Hin'. congruence.
Qed.

Lemma all_constraints_elem c m cs key succ :
  all_constraints c m = inr cs → (key, succ) ∈ m → ∃ cs', stream_constraints c (fst key) succ = inr cs' ∧ cs' ⊆ cs.
Proof.
  revert cs. induction m as [|[[o st] s] m IH]; intros cs; cbn [all_constraints]; [by intros _ ?%elem_of_nil|].
  destruct (stream_constraints c o s) as [|c1] eqn:H1; [done|]. destruct (all_constraints c m) as [|c2]; [done|].
  intros [= <-] [[= -> ->]|Hin]%elem_of_cons.
  - exists c1. split; [done|]. set_solver.
  - destruct (IH c2 eq_refl Hin) as (cs' & H & Hsub). exists cs'. split; [done|]. set_solver.
Qed.

(** Two consumers of one stream. *)
Lemma ownership_two c cs i j e1 e2 st :
  ownership_constraints c = inr cs → edges c !! i = Some e1 → edges c !! j = Some e2 → i ≠ j →
  origin e1 = origin e2 → stream e1 = Some st → stream e2 = Some st → is_strong (to e1, ownership_preference e1) = true →
  (ownership_preference e2 ≠ None → (to e2, to e1) ∈ cs) ∧ is_strong (to e2, ownership_preference e2) = false.
Proof.
  intros Hcs Hi Hj Hne Ho H1 H2 Hs. set (key := (origin e1, st)).
  assert (consumer key e1 = Some (to e1, ownership_preference e1)) as Hc1 by (unfold consumer; rewrite H1, decide_True; done).
  assert (consumer key e2 = Some (to e2, ownership_preference e2)) as Hc2 by (unfold consumer; rewrite H2, <- Ho, decide_True; done).
  assert (∃ p q, p ≠ q ∧ consumers key (edges c) !! p = Some (to e1, ownership_preference e1)
                 ∧ consumers key (edges c) !! q = Some (to e2, ownership_preference e2)) as (p & q & Hpq & Hp & Hq).
  { destruct (decide (i < j)).
    - destruct (omap_two (consumer key) (edges c) i j e1 e2 _ _ l Hi Hj Hc1 Hc2) as (p & q & ? & ? & ?). exists p, q. split_and!; [lia|done|done].
    - destruct (omap_two (consumer key) (edges c) j i e2 e1 _ _ ltac:(lia) Hj Hi Hc2 Hc1) as (q & p & ? & ? & ?). exists p, q. split_and!; [lia|done|done]. }
  assert ((key, consumers key (edges c)) ∈ stream_consumers (edges c)) as Hin.
  { rewrite <- get_stream_consumers. apply get_elem. rewrite get_stream_consumers. intros Hnil. by rewrite Hnil in Hp. }
  destruct (all_constraints_elem c _ cs key _ Hcs Hin) as (cs' & Hst & Hsub).
  destruct (stream_constraints_strong _ _ _ _ _ _ _ _ Hst Hp Hq Hs) as [Hb Hb']. split.
  - intros Hpref. by apply Hsub, Hb.
  - apply not_true_iff_false. intros Hb2. by apply Hpq, Hb'.
Qed.

(** ** Preparing *)

(** A topological order lists every node once, and the source of every edge before its target. *)
Definition topological_order (es : list (NodeId * NodeId)) (l : list NodeId) : Prop :=
  NoDup l ∧ ∀ a b, (a, b) ∈ es → ∃ i j, l !! i = Some a ∧ l !! j = Some b ∧ i < j.

(** The position of a node in the order. *)
Definition rank_in (l : list NodeId) (n : NodeId) : nat :=
  match list_find (λ m, m = n) l with Some (i, _) => i | None => 0 end.

Lemma rank_in_lookup l i n : NoDup l → l !! i = Some n → rank_in l n = i.
Proof.
  intros Hnd Hi. unfold rank_in. destruct (list_find (λ m, m = n) l) as [[k m]|] eqn:Hf.
  - apply list_find_Some in Hf as (Hk & -> & _). by eapply NoDup_lookup.
  - apply list_find_None in Hf. rewrite Forall_lookup in Hf. by destruct (Hf i n Hi).
Qed.

Lemma rank_in_lt es l a b : topological_order es l → (a, b) ∈ es → rank_in l a < rank_in l b.
Proof.
  intros [Hnd Hord] Hab. destruct (Hord a b Hab) as (i & j & Hi & Hj & Hij).
  by rewrite (rank_in_lookup l i a), (rank_in_lookup l j b).
Qed.

Lemma elem_within nodes es a b : (a, b) ∈ within nodes es ↔ (a, b) ∈ es ∧ a ∈ nodes ∧ b ∈ nodes.
Proof. unfold within. rewrite list_elem_of_filter. cbn. tauto. Qed.

Lemma cnt_empty E n : length (predecessors_of E n) = cnt E ∅ n.
Proof.
  unfold predecessors_of, cnt. rewrite length_fmap. f_equal. apply list_filter_iff. intros e. set_solver.
Qed.

Lemma lookup_new_tasks c E (nodes : gset NodeId) n t :
  (set_to_map (λ n, (n, new_task c E n)) nodes : gmap NodeId Task) !! n = Some t ↔ n ∈ nodes ∧ t = new_task c E n.
Proof. rewrite lookup_set_to_map by done. naive_solver. Qed.

Lemma notify_all_fields c ready l s :
  let s' := foldl (λ s n, if is_async_node c n && ready n then notify n s else s) s l in
  tasks s' = tasks s ∧ handles s' = handles s ∧ transaction_phase s' = transaction_phase s ∧ calls s' = calls s
  ∧ ∀ n, n ∈ notified s' → n ∈ notified s ∨ (n ∈ l ∧ is_async_node c n = true).
Proof.
  revert s. induction l as [|m l IH]; intros s; cbn [foldl]; [split_and!; try done; by left|].
  destruct (is_async_node c m && ready m) eqn:Hm.
  - apply andb_true_iff in Hm as [Ha _]. destruct (IH (notify m s)) as (-> & -> & -> & -> & Hn). split_and!; try done.
    intros n [Hin|[Hin Han]]%Hn; [|right; split; [by right|done]]. cbn in Hin. apply elem_of_union in Hin as [->%elem_of_singleton|Hin]; [right|by left].
    split; [by left|done].
  - destruct (IH s) as (-> & -> & -> & -> & Hn). split_and!; try done. intros n [Hin|[Hin Han]]%Hn; [by left|right; split; [by right|done]].
Qed.

Section prepare.
Context (toposort : list NodeId * list (NodeId * NodeId) → NodeId + list NodeId).
Context (Htoposort : ∀ ns es l, toposort (ns, es) = inr l → topological_order es l).

Definition scheduled_nodes (c : Circuit) (nodes : option (gset NodeId)) : gset NodeId :=
  match nodes with Some nodes => nodes | None => list_to_set (node_ids c) end.

(** The edges the prepared tasks follow. *)
Definition scheduled_edges (c : Circuit) (nodes : option (gset NodeId)) (extra : list (NodeId * NodeId)) : list (NodeId * NodeId) :=
  within (scheduled_nodes c nodes) (snd (circuit_graph c) ++ extra).

Lemma prepare_structured c ready nodes s extra :
  ownership_constraints c = inr extra → prepare toposort c ready nodes = inr s →
  structured (scheduled_edges c nodes extra) (scheduled_nodes c nodes) (is_async_node c) s
  ∧ transaction_phase s = Idle ∧ calls s = [].
Proof.
  intros Hown Hprep. unfold prepare in Hprep. fold (scheduled_nodes c nodes) in Hprep. unfold scheduled_edges.
  set (N := scheduled_nodes c nodes) in *. rewrite Hown in Hprep. cbn [circuit_graph] in Hprep. cbn [circuit_graph snd].
  set (es := ((λ e, (from e, to e)) <$> edges c) ++ extra) in *.
  destruct (toposort _) as [|l] eqn:Htop; [done|]. injection Hprep as <-.
  match goal with |- context [foldl ?f ?s0 ?l0] => pose proof (notify_all_fields c ready l0 s0) as (Ht & Hh & Hp & Hc & Hn) end.
  split_and!; [|by rewrite Hp|by rewrite Hc]. split.
  - rewrite Ht. cbn [tasks]. apply set_eq. intros n. rewrite elem_of_dom. split.
    + by intros [t [Hn' _]%lookup_new_tasks].
    + intros HnN. eexists. by apply lookup_new_tasks.
  - intros n t. rewrite Ht. cbn [tasks]. intros [Hn' ->]%lookup_new_tasks. unfold new_task.
    cbn. rewrite cnt_empty. split_and!; try done. by intros ->.
  - by rewrite Hh.
  - intros n [Hin|[Hin Ha]]%Hn; [by apply not_elem_of_empty in Hin|]. by apply elem_of_elements in Hin.
Qed.

(** C14. A scheduler that has been prepared is in the state the steps and transactions start from, over the
    edges between the chosen nodes: the graph has no cycle, has every edge of the circuit, and an edge from
    every other consumer of a stream to the one with a strong claim on it, of which there is at most one;
    by the order of evaluations, that consumer is evaluated last and may take the value. *)
Theorem scheduler_prepare_sound c ready nodes s :
  prepare toposort c ready nodes = inr s →
  let N := scheduled_nodes c nodes in
  ∃ E rank, structured E N (is_async_node c) s ∧ transaction_phase s = Idle ∧ calls s = []
    ∧ (∀ a b, (a, b) ∈ E → a ∈ N ∧ b ∈ N ∧ rank a < rank b)
    ∧ (∀ e, e ∈ edges c → from e ∈ N → to e ∈ N → (from e, to e) ∈ E)
    ∧ (∀ i j e1 e2 st, edges c !! i = Some e1 → edges c !! j = Some e2 → i ≠ j → origin e1 = origin e2 →
         stream e1 = Some st → stream e2 = Some st → is_strong (to e1, ownership_preference e1) = true →
         is_strong (to e2, ownership_preference e2) = false
         ∧ (ownership_preference e2 ≠ None → to e1 ∈ N → to e2 ∈ N → (to e2, to e1) ∈ E)).
Proof.
  intros Hprep N. assert (∃ extra, ownership_constraints c = inr extra) as [extra Hown].
  { unfold prepare in Hprep. destruct (ownership_constraints c) as [|extra]; [done|by exists extra]. }
  destruct (prepare_structured c ready nodes s extra Hown Hprep) as (Hstr & Hp & Hc).
  assert (∃ l, topological_order (snd (circuit_graph c) ++ extra) l) as [l Htop].
  { unfold prepare in Hprep. rewrite Hown in Hprep. cbn [circuit_graph] in Hprep. destruct (toposort _) as [|l] eqn:Htop; [done|].
    apply Htoposort in Htop. by exists l. }
  exists (scheduled_edges c nodes extra), (rank_in l). split_and!; [done..| | |].
  - intros a b (Hab & Ha & Hb)%elem_within. split_and!; try done. by eapply rank_in_lt.
  - intros e He Hf Hto. apply elem_within. split_and!; try done. apply elem_of_app. left.
    apply list_elem_of_fmap. by exists e.
  - intros i j e1 e2 st Hi Hj Hne Ho H1 H2 Hs.
    destruct (ownership_two _ _ _ _ _ _ _ Hown Hi Hj Hne Ho H1 H2 Hs) as [Hin Hns]. split; [done|].
    intros Hpref Hn1 Hn2. apply elem_within. split_and!; try done. apply elem_of_app. right. by apply Hin.
Qed.
End prepare.

(** ** An example *)

(** A topological sort for the graphs whose nodes are numbered in order. *)
Definition sort_numbered (g : list NodeId * list (NodeId * NodeId)) : NodeId + list NodeId :=
  if decide (fst g = seq 0 (length (fst g)) ∧ Forall (λ e, fst e < snd e ∧ snd e < length (fst g)) (snd g)) then inr (fst g) else inl 0.

Lemma sort_numbered_spec ns es l : sort_numbered (ns, es) = inr l → topological_order es l.
Proof.
  unfold sort_numbered. cbn [fst snd]. case_decide as H; [|done]. intros [= <-]. destruct H as [-> Hes]. rewrite length_seq in Hes. split; [apply NoDup_seq|].
  intros a b Hab. rewrite Forall_forall in Hes. destruct (Hes _ Hab) as [Hlt Hb]. cbn in *. exists a, b.
  rewrite !lookup_seq_lt by lia. by split_and!.
Qed.

(** Node 0 is an async source; nodes 1 and 2 consume its stream, 2 with a strong claim; node 3 needs both. *)
Definition example_circuit : Circuit :=
  MkCircuit [0] [0; 1; 2; 3]
    [MkEdge 0 1 [0; 0] (Some 7) (Some 20); MkEdge 0 2 [0; 0] (Some 7) (Some 100);
     MkEdge 1 3 [0; 1] (Some 8) (Some 20); MkEdge 2 3 [0; 2] (Some 9) (Some 20)]
    (λ n, n =? 0).
Definition example_edges : list (NodeId * NodeId) := [(0, 1); (0, 2); (1, 3); (2, 3); (1, 2)].
Definition example_nodes : gset NodeId := {[0; 1; 2; 3]}.
Definition example_state : Inner :=
  match prepare sort_numbered example_circuit (λ _, true) None with inr s => s | inl _ => MkInner ∅ ∅ false ∅ false Idle [] end.

Lemma example_structured : structured example_edges example_nodes (λ n, n =? 0) example_state.
Proof.
  change example_edges with (scheduled_edges example_circuit None [(1, 2)]).
  replace example_nodes with (scheduled_nodes example_circuit None) by (vm_compute; reflexivity).
  apply (prepare_structured sort_numbered example_circuit (λ _, true) None); vm_compute; reflexivity.
Qed.

Lemma example_wf a b : (a, b) ∈ example_edges → a ∈ example_nodes ∧ b ∈ example_nodes.
Proof.
  unfold example_edges, example_nodes. rewrite !elem_of_cons, elem_of_nil. intros H. destruct_or? H; simplify_eq; set_solver.
Qed.

Lemma example_rank a b : (a, b) ∈ example_edges → a < b.
Proof. unfold example_edges. rewrite !elem_of_cons, elem_of_nil. intros H. destruct_or? H; simplify_eq; lia. Qed.

Definition all_ready : Event := Notified (λ _, true).
Definition ok (n : NodeId) : Event := Join n (EvalOk None) false false.
Definition flushed (n : NodeId) : Event := Join n (EvalOk None) false true.
Definition started_state : Inner := start_transaction example_state.
Definition committing_state : Inner := set_phase (Committing 4) started_state.

Lemma started_rest : rest example_edges example_nodes (λ n, n =? 0) ∅ started_state.
Proof. apply start_transaction_rest, example_structured. Qed.

Lemma committing_rest : rest example_edges example_nodes (λ n, n =? 0) ∅ committing_state.
Proof. apply (start_commit_rest _ _ _ started_state); [apply started_rest|reflexivity]. Qed.

Ltac events_fine := repeat (apply Forall_cons; split; [first [done | by split]|]); apply Forall_nil; exact I.



(** The first node is flushed by the step, and the others are not. *)
Lemma scheduler_commit_progress_witness :
  ∃ s', do_step committing_state [all_ready; flushed 0; ok 1; ok 2; ok 3] = Some (Returned s' (inr ())) ∧
  ∃ F', rest example_edges example_nodes (λ n, n =? 0) F' s' ∧ transaction_phase s' = Committing (size (example_nodes ∖ F'))
    ∧ (∀ n t, tasks s' !! n = Some t → flush_state t ≠ UnflushedDependencies 0)
    ∧ (∀ n t, tasks s' !! n = Some t → n ∈ F' ↔ ∃ p, flush_state t = Completed p)
    ∧ (∀ n t p q, tasks s' !! n = Some t → flush_state t = Started p ∨ flush_state t = Completed p → (q, n) ∈ example_edges → q ∈ F')
    ∧ (F' ≠ example_nodes → ∃ n t p, tasks s' !! n = Some t ∧ flush_state t = Started p).
Proof.
  pose (l := do_step committing_state [all_ready; flushed 0; ok 1; ok 2; ok 3]).
  exists (match l with Some (Returned s _) => s | _ => started_state end). split; [vm_compute; reflexivity|].
  apply (scheduler_commit_progress example_edges example_nodes (λ n, n =? 0) example_wf (λ n, n) example_rank ∅ committing_state
           [all_ready; flushed 0; ok 1; ok 2; ok 3]).
  - apply committing_rest.
  - reflexivity.
  - events_fine.
  - vm_compute. reflexivity.
Defined.


Lemma scheduler_prepare_sound_witness :
  ∃ E rank, structured E (scheduled_nodes example_circuit None) (is_async_node example_circuit) example_state
    ∧ transaction_phase example_state = Idle ∧ calls example_state = []
    ∧ (∀ a b, (a, b) ∈ E → a ∈ scheduled_nodes example_circuit None ∧ b ∈ scheduled_nodes example_circuit None ∧ rank a < rank b)
    ∧ (2, 1) ∉ E ∧ (1, 2) ∈ E.
Proof.
  destruct (scheduler_prepare_sound sort_numbered sort_numbered_spec example_circuit (λ _, true) None example_state)
    as (E & rank & H1 & H2 & H3 & H4 & H5 & H6); [vm_compute; reflexivity|].
  assert ((1, 2) ∈ E) as Hin.
  { apply (H6 1 0 (MkEdge 0 2 [0; 0] (Some 7) (Some 100)) (MkEdge 0 1 [0; 0] (Some 7) (Some 20)) 7); try reflexivity; try discriminate;
      apply elem_of_list_to_set; cbn; set_solver. }
  exists E, rank. split_and!; try done. intros Hin2. destruct (H4 _ _ Hin) as (_ & _ & Ha). destruct (H4 _ _ Hin2) as (_ & _ & Hb). lia.
Defined.

(** ** A notification that is lost *)

Definition one_node : Circuit := MkCircuit [0] [0] [] (λ _, true).
Definition one_state : Inner :=
  match prepare sort_numbered one_node (λ _, false) None with inr s => start_transaction s | inl _ => MkInner ∅ ∅ false ∅ false Idle [] end.
(** The node becomes ready, is evaluated, and becomes ready again before its evaluation has been joined. *)
Definition lost_events : list Event := [Callback 0; all_ready; Callback 0; all_ready; ok 0].
Definition after_lost : Inner :=
  match do_step one_state lost_events with Some (Returned s _) => s | _ => one_state end.

Definition is_callback (e : Event) : bool := match e with Callback _ => true | _ => false end.

Lemma nothing_to_do s k es :
  handles s = ∅ → permit s = false → Forall (λ e, is_callback e = false) es → foldM on_event (Running s k) es = Some (Running s k).
Proof.
  intros Hh Hp. induction es as [|e es IH]; intros Hes; [done|]. apply Forall_cons in Hes as [He Hes].
  cbn [foldM]. destruct e as [n r killed fl|ready|n]; [| |done]; cbn [on_event].
  - rewrite Hh, bool_decide_false by apply not_elem_of_empty. by apply IH.
  - rewrite Hp. by apply IH.
Qed.

