(* ===== verification/CircuitBuilder.v ===== *)
(** Circuits (dbsp/src/circuit/circuit_builder.rs): building the graph of operators and streams, the values
    of streams with the tokens of their consumers, and the evaluation of nodes, which may overlap. *)
From stdpp Require Import gmap.
From S2P Require Import Prelude Scheduler.
#[local] Open Scope nat_scope.

(** ** Operators *)

(** An input of an operator, by value or by reference. *)
Inductive Arg (V : Type) := Owned (v : V) | Borrowed (v : V).
Arguments Owned {V}. Arguments Borrowed {V}.

Definition arg_value {V} (a : Arg V) : V := match a with Owned v | Borrowed v => v end.

(** The operator traits, for data [V] and operators [S]: a source is evaluated without inputs, and a strict
    operator yields its output before it is fed its input. *)
Class Operator (V S : Type) := {
  input_preference : S → list nat;
  op_is_async : S → bool;
  eval : S → list (Arg V) → S * V;
  eval_sink : S → list (Arg V) → S;
  get_output : S → S * V;
  eval_strict : S → Arg V → S }.

(** Operators compute the same from inputs by value and by reference. *)
Class OperatorLaws (V S : Type) `{Operator V S} : Prop := {
  eval_by_ref s args : eval s args = eval s (Borrowed ∘ arg_value <$> args);
  eval_sink_by_ref s args : eval_sink s args = eval_sink s (Borrowed ∘ arg_value <$> args);
  eval_strict_by_ref s a : eval_strict s a = eval_strict s (Borrowed (arg_value a)) }.

(** ** The value of a stream *)

Module StreamValue.
(** [borrows] is the number of references that the [RefCell] has handed out. *)
Record StreamValue (V : Type) := MkStreamValue {
  val : option V;
  consumers : nat;
  tokens : nat;
  borrows : nat }.
Arguments MkStreamValue {V}. Arguments val {V}. Arguments consumers {V}. Arguments tokens {V}. Arguments borrows {V}.

Section stream_value.
Context {V : Type}.

Definition empty : StreamValue V := MkStreamValue None 0 0 0.

Definition clear_consumer_count (s : StreamValue V) : StreamValue V := MkStreamValue (val s) 0 (tokens s) (borrows s).
Definition register_consumer (s : StreamValue V) : StreamValue V :=
  MkStreamValue (val s) (consumers s + 1) (tokens s) (borrows s).

(** [None] is a failed assertion, an [unwrap] of nothing, or a mutable borrow while there are references. *)
Definition put (s : StreamValue V) (v : V) : option (StreamValue V) :=
  if borrows s =? 0 then
    match val s with
    | Some _ => None
    | None => Some (if 0 <? consumers s then MkStreamValue (Some v) (consumers s) (consumers s) (borrows s) else s)
    end
  else None.

Definition peek (s : StreamValue V) : option V := if tokens s =? 0 then None else val s.

Definition take (s : StreamValue V) : option (option V * StreamValue V) :=
  match tokens s with
  | O => None
  | 1 => if borrows s =? 0 then
           v ← val s; Some (Some v, MkStreamValue None (consumers s) (tokens s) (borrows s))
         else None
  | _ => Some (None, s)
  end.

Definition consume_token (s : StreamValue V) : option (StreamValue V) :=
  match tokens s with
  | O => None
  | 1 => if borrows s =? 0 then Some (MkStreamValue None (consumers s) 0 (borrows s)) else None
  | S t => Some (MkStreamValue (val s) (consumers s) t (borrows s))
  end.

(** [Stream::get], and the end of the reference. *)
Definition get (s : StreamValue V) : StreamValue V := MkStreamValue (val s) (consumers s) (tokens s) (borrows s + 1).
Definition release (s : StreamValue V) : option (StreamValue V) :=
  b ← decrement (borrows s); Some (MkStreamValue (val s) (consumers s) (tokens s) b).
End stream_value.
End StreamValue.
Export StreamValue.

(** ** The graph *)

Record Stream := MkStream {
  stream_id : StreamId;
  local_node_id : NodeId;
  origin_node_id : GlobalNodeId }.

(** [Stream::ptr_eq] *)
Definition ptr_eq (a b : Stream) : bool := bool_decide (stream_id a = stream_id b).

(** The nodes, with a reference [op] to their operator; the halves of a feedback share theirs. *)
Inductive Node :=
| SourceNode (op : nat) (output : Stream)
| UnaryNode (op : nat) (input output : Stream)
| SinkNode (op : nat) (input : Stream)
| BinarySinkNode (op : nat) (input1 input2 : Stream) (is_alias : bool)
| BinaryNode (op : nat) (input1 input2 output : Stream) (is_alias : bool)
| TernaryNode (op : nat) (input1 input2 input3 output : Stream)
| QuaternaryNode (op : nat) (input1 input2 input3 input4 output : Stream)
| NaryNode (op : nat) (inputs : list Stream) (output : Stream)
| FeedbackOutputNode (op : nat) (output : Stream)
| FeedbackInputNode (op : nat) (input : Stream).

(** The constructors that record whether the inputs are the same stream. *)
Definition new_binary_sink_node (op : nat) (i1 i2 : Stream) : Node := BinarySinkNode op i1 i2 (ptr_eq i1 i2).
Definition new_binary_node (op : nat) (i1 i2 output : Stream) : Node := BinaryNode op i1 i2 output (ptr_eq i1 i2).

Section builder.
Context {V S : Type} `{Operator V S}.

(** The edges are kept in the order of insertion.  [Edges] groups them by source, which keeps
    this order among the edges of a node, and so of a stream. *)
Record ChildCircuit := MkChildCircuit {
  global_node_id : GlobalNodeId;
  nodes : list Node;
  operators : list S;
  circuit_edges : list Edge;
  last_stream_id : StreamId }.

Definition new_circuit (id : GlobalNodeId) : ChildCircuit := MkChildCircuit id [] [] [] 0.

Definition push_node (n : Node) (c : ChildCircuit) : ChildCircuit :=
  MkChildCircuit (global_node_id c) (nodes c ++ [n]) (operators c) (circuit_edges c) (last_stream_id c).
Definition add_edge (e : Edge) (c : ChildCircuit) : ChildCircuit :=
  MkChildCircuit (global_node_id c) (nodes c) (operators c) (circuit_edges c ++ [e]) (last_stream_id c).
(** The allocation of an operator, with a reference to it. *)
Definition new_operator (s : S) (c : ChildCircuit) : ChildCircuit * nat :=
  (MkChildCircuit (global_node_id c) (nodes c) (operators c ++ [s]) (circuit_edges c) (last_stream_id c), length (operators c)).

Definition allocate_stream_id (c : ChildCircuit) : ChildCircuit * StreamId :=
  (MkChildCircuit (global_node_id c) (nodes c) (operators c) (circuit_edges c) (last_stream_id c + 1), last_stream_id c + 1).

(** [Stream::new] *)
Definition new_stream (id : NodeId) (c : ChildCircuit) : ChildCircuit * Stream :=
  let '(c, sid) := allocate_stream_id c in (c, MkStream sid id (global_node_id c ++ [id])).

Definition connect_stream (s : Stream) (to : NodeId) (preference : nat) (c : ChildCircuit) : ChildCircuit :=
  add_edge (MkEdge (local_node_id s) to (origin_node_id s) (Some (stream_id s)) (Some preference)) c.

Definition add_dependency (from to : NodeId) (c : ChildCircuit) : ChildCircuit :=
  add_edge (MkEdge from to (global_node_id c ++ [from]) None None) c.

(** [add_node] with a function that may change the circuit, as the code's closures do. *)
Definition add_node {A} (f : NodeId → ChildCircuit → ChildCircuit * (Node * A)) (c : ChildCircuit) : ChildCircuit * A :=
  let '(c, (n, res)) := f (length (nodes c)) c in (push_node n c, res).

Definition preference (i : nat) (s : S) : nat := nth i (input_preference s) 0.

Definition add_source (s : S) : ChildCircuit → ChildCircuit * Stream := add_node (λ id c,
  let '(c, op) := new_operator s c in
  let '(c, output) := new_stream id c in
  (c, (SourceNode op output, output))).

Definition add_sink_with_preference (s : S) (input : Stream) (p : nat) : ChildCircuit → ChildCircuit * GlobalNodeId :=
  add_node (λ id c,
  let c := connect_stream input id p c in
  let '(c, op) := new_operator s c in
  (c, (SinkNode op input, global_node_id c ++ [id]))).
Definition add_sink (s : S) (input : Stream) := add_sink_with_preference s input (preference 0 s).

(** [sender] and [receiver] are the halves of an exchange between workers. *)
Definition add_exchange_with_preference (sender receiver : S) (input : Stream) (p : nat) (c : ChildCircuit)
    : ChildCircuit * Stream :=
  let '(c, sender_id) := add_node (λ id c,
    let '(c, op) := new_operator sender c in
    (connect_stream input id p c, (SinkNode op input, id))) c in
  let '(c, output) := add_node (λ id c,
    let '(c, op) := new_operator receiver c in
    let '(c, output) := new_stream id c in
    (c, (SourceNode op output, output))) c in
  (add_dependency sender_id (local_node_id output) c, output).
Definition add_exchange (sender receiver : S) (input : Stream) :=
  add_exchange_with_preference sender receiver input (preference 0 sender).

Definition add_binary_sink_with_preference (s : S) (i1 : Stream * nat) (i2 : Stream * nat)
    : ChildCircuit → ChildCircuit * () := add_node (λ id c,
  let '(c, op) := new_operator s c in
  let c := connect_stream (fst i1) id (snd i1) c in
  let c := connect_stream (fst i2) id (snd i2) c in
  (c, (new_binary_sink_node op (fst i1) (fst i2), ()))).
Definition add_binary_sink (s : S) (i1 i2 : Stream) :=
  add_binary_sink_with_preference s (i1, preference 0 s) (i2, preference 1 s).

Definition add_unary_operator_with_preference (s : S) (input : Stream) (p : nat)
    : ChildCircuit → ChildCircuit * Stream := add_node (λ id c,
  let '(c, op) := new_operator s c in
  let '(c, output) := new_stream id c in
  (connect_stream input id p c, (UnaryNode op input output, output))).
Definition add_unary_operator (s : S) (input : Stream) := add_unary_operator_with_preference s input (preference 0 s).

Definition add_binary_operator_with_preference (s : S) (i1 : Stream * nat) (i2 : Stream * nat)
    : ChildCircuit → ChildCircuit * Stream := add_node (λ id c,
  let '(c, op) := new_operator s c in
  let '(c, output) := new_stream id c in
  let c := connect_stream (fst i1) id (snd i1) c in
  let c := connect_stream (fst i2) id (snd i2) c in
  (c, (new_binary_node op (fst i1) (fst i2) output, output))).
Definition add_binary_operator (s : S) (i1 i2 : Stream) :=
  add_binary_operator_with_preference s (i1, preference 0 s) (i2, preference 1 s).

Definition add_ternary_operator_with_preference (s : S) (i1 i2 i3 : Stream * nat)
    : ChildCircuit → ChildCircuit * Stream := add_node (λ id c,
  let '(c, op) := new_operator s c in
  let '(c, output) := new_stream id c in
  let c := connect_stream (fst i1) id (snd i1) c in
  let c := connect_stream (fst i2) id (snd i2) c in
  let c := connect_stream (fst i3) id (snd i3) c in
  (c, (TernaryNode op (fst i1) (fst i2) (fst i3) output, output))).
Definition add_ternary_operator (s : S) (i1 i2 i3 : Stream) :=
  add_ternary_operator_with_preference s (i1, preference 0 s) (i2, preference 1 s) (i3, preference 2 s).

Definition add_quaternary_operator_with_preference (s : S) (i1 i2 i3 i4 : Stream * nat)
    : ChildCircuit → ChildCircuit * Stream := add_node (λ id c,
  let '(c, op) := new_operator s c in
  let '(c, output) := new_stream id c in
  let c := connect_stream (fst i1) id (snd i1) c in
  let c := connect_stream (fst i2) id (snd i2) c in
  let c := connect_stream (fst i3) id (snd i3) c in
  let c := connect_stream (fst i4) id (snd i4) c in
  (c, (QuaternaryNode op (fst i1) (fst i2) (fst i3) (fst i4) output, output))).
Definition add_quaternary_operator (s : S) (i1 i2 i3 i4 : Stream) :=
  add_quaternary_operator_with_preference s (i1, preference 0 s) (i2, preference 1 s) (i3, preference 2 s) (i4, preference 3 s).

Definition add_nary_operator_with_preference (s : S) (inputs : list Stream) (p : nat)
    : ChildCircuit → ChildCircuit * Stream := add_node (λ id c,
  let '(c, op) := new_operator s c in
  let '(c, output) := new_stream id c in
  (foldl (λ c input, connect_stream input id p c) c inputs, (NaryNode op inputs output, output))).
Definition add_nary_operator (s : S) (inputs : list Stream) := add_nary_operator_with_preference s inputs (preference 0 s).

(** [FeedbackConnector] *)
Record FeedbackConnector := MkConnector { output_node_id : NodeId; connector_operator : nat }.

Definition add_feedback (s : S) : ChildCircuit → ChildCircuit * (Stream * FeedbackConnector) := add_node (λ id c,
  let '(c, op) := new_operator s c in
  let '(c, output) := new_stream id c in
  (c, (FeedbackOutputNode op output, (output, MkConnector id op)))).

Definition connect_feedback_with_preference (k : FeedbackConnector) (input : Stream) (p : nat)
    : ChildCircuit → ChildCircuit * () := add_node (λ id c,
  let c := connect_stream input id p c in
  let c := add_dependency (output_node_id k) id c in
  (c, (FeedbackInputNode (connector_operator k) input, ()))).

(** [FeedbackConnector::connect] *)
Definition connect_with_preference (k : FeedbackConnector) (input : Stream) (p : nat) : ChildCircuit → ChildCircuit * () :=
  connect_feedback_with_preference k input p.
Definition connect (k : FeedbackConnector) (input : Stream) : ChildCircuit → ChildCircuit * () :=
  connect_with_preference k input 0.

(** What the scheduler sees. *)
Definition node_op (n : Node) : nat :=
  match n with
  | SourceNode op _ | UnaryNode op _ _ | SinkNode op _ | BinarySinkNode op _ _ _ | BinaryNode op _ _ _ _
  | TernaryNode op _ _ _ _ | QuaternaryNode op _ _ _ _ _ | NaryNode op _ _ | FeedbackOutputNode op _
  | FeedbackInputNode op _ => op
  end.

Definition is_async_of (c : ChildCircuit) (n : NodeId) : bool :=
  match nodes c !! n with
  | Some node => match operators c !! node_op node with Some s => op_is_async s | None => false end
  | None => false
  end.

Definition as_circuit (c : ChildCircuit) : Circuit :=
  MkCircuit (global_node_id c) (seq 0 (length (nodes c))) (circuit_edges c) (is_async_of c).
End builder.
Arguments ChildCircuit : clear implicits.

(** ** Evaluating nodes *)

Section eval.
Context {V S : Type} `{Operator V S}.

(** The operators, the values of the streams, and the inputs of the nodes under evaluation. *)
Record State := MkState {
  ops : list S;
  values : gmap StreamId (StreamValue V);
  running : gmap NodeId (list (StreamId * Arg V)) }.

Notation Values := (gmap StreamId (StreamValue V)).

Definition update (f : StreamValue V → option (StreamValue V)) (x : StreamId) (vs : Values) : option Values :=
  sv ← vs !! x; sv ← f sv; Some (<[x := sv]> vs).

(** [StreamValue::take] of some streams in turn. *)
Fixpoint take_all (xs : list StreamId) (vs : Values) : option (list (StreamId * option V) * Values) :=
  match xs with
  | [] => Some ([], vs)
  | x :: xs =>
      sv ← vs !! x;
      '(o, sv) ← take sv;
      '(l, vs) ← take_all xs (<[x := sv]> vs);
      Some ((x, o) :: l, vs)
  end.

(** The values that were not taken are read by reference. *)
Fixpoint peek_rest (l : list (StreamId * option V)) (vs : Values) : option (list (StreamId * Arg V) * Values) :=
  match l with
  | [] => Some ([], vs)
  | (x, Some v) :: l => '(args, vs) ← peek_rest l vs; Some ((x, Owned v) :: args, vs)
  | (x, None) :: l =>
      sv ← vs !! x;
      v ← peek sv;
      '(args, vs) ← peek_rest l (<[x := get sv]> vs);
      Some ((x, Borrowed v) :: args, vs)
  end.

Definition take_or_peek (xs : list StreamId) (vs : Values) : option (list (StreamId * Arg V) * Values) :=
  '(l, vs) ← take_all xs vs; peek_rest l vs.
Definition peek_all (xs : list StreamId) (vs : Values) : option (list (StreamId * Arg V) * Values) :=
  peek_rest ((λ x, (x, None)) <$> xs) vs.

(** Each [Node::eval] reads the inputs, up to the call of the operator, and calls it. *)
Definition source_read (vs : Values) := Some ([] : list (StreamId * Arg V), vs).
Definition source_call (s : S) (args : list (Arg V)) : S * V := eval s args.

Definition unary_read (input : Stream) (vs : Values) := take_or_peek [stream_id input] vs.
Definition unary_call (s : S) (args : list (Arg V)) : S * V := eval s args.

Definition sink_read (input : Stream) (vs : Values) := take_or_peek [stream_id input] vs.
Definition sink_call (s : S) (args : list (Arg V)) : S := eval_sink s args.

Definition binary_sink_read (i1 i2 : Stream) (is_alias : bool) (vs : Values) :=
  if is_alias then peek_all [stream_id i1; stream_id i2] vs else take_or_peek [stream_id i1; stream_id i2] vs.
Definition binary_sink_call (s : S) (args : list (Arg V)) : S := eval_sink s args.

Definition binary_read (i1 i2 : Stream) (is_alias : bool) (vs : Values) :=
  if is_alias then peek_all [stream_id i1; stream_id i2] vs else take_or_peek [stream_id i1; stream_id i2] vs.
Definition binary_call (s : S) (args : list (Arg V)) : S * V := eval s args.

Definition ternary_read (i1 i2 i3 : Stream) (vs : Values) := peek_all [stream_id i1; stream_id i2; stream_id i3] vs.
Definition ternary_call (s : S) (args : list (Arg V)) : S * V := eval s args.

Definition quaternary_read (i1 i2 i3 i4 : Stream) (vs : Values) :=
  peek_all [stream_id i1; stream_id i2; stream_id i3; stream_id i4] vs.
Definition quaternary_call (s : S) (args : list (Arg V)) : S * V := eval s args.

Definition nary_read (inputs : list Stream) (vs : Values) := peek_all (stream_id <$> inputs) vs.
Definition nary_call (s : S) (args : list (Arg V)) : S * V := eval s args.

Definition feedback_output_read (vs : Values) := Some ([] : list (StreamId * Arg V), vs).
Definition feedback_output_call (s : S) : S * V := get_output s.

Definition feedback_input_read (input : Stream) (vs : Values) := take_or_peek [stream_id input] vs.
Definition feedback_input_call (s : S) (args : list (Arg V)) : option S :=
  match args with [a] => Some (eval_strict s a) | _ => None end.

Definition read_inputs (n : Node) (vs : Values) : option (list (StreamId * Arg V) * Values) :=
  match n with
  | SourceNode _ _ => source_read vs
  | UnaryNode _ i _ => unary_read i vs
  | SinkNode _ i => sink_read i vs
  | BinarySinkNode _ i1 i2 alias => binary_sink_read i1 i2 alias vs
  | BinaryNode _ i1 i2 _ alias => binary_read i1 i2 alias vs
  | TernaryNode _ i1 i2 i3 _ => ternary_read i1 i2 i3 vs
  | QuaternaryNode _ i1 i2 i3 i4 _ => quaternary_read i1 i2 i3 i4 vs
  | NaryNode _ inputs _ => nary_read inputs vs
  | FeedbackOutputNode _ _ => feedback_output_read vs
  | FeedbackInputNode _ i => feedback_input_read i vs
  end.

(** The operator with the output for a stream, if any. *)
Definition with_output (o : Stream) (r : S * V) : S * option (StreamId * V) := (fst r, Some (stream_id o, snd r)).

Definition call_operator (n : Node) (s : S) (args : list (Arg V)) : option (S * option (StreamId * V)) :=
  match n with
  | SourceNode _ o => Some (with_output o (source_call s args))
  | UnaryNode _ _ o => Some (with_output o (unary_call s args))
  | SinkNode _ _ => Some (sink_call s args, None)
  | BinarySinkNode _ _ _ _ => Some (binary_sink_call s args, None)
  | BinaryNode _ _ _ o _ => Some (with_output o (binary_call s args))
  | TernaryNode _ _ _ _ o => Some (with_output o (ternary_call s args))
  | QuaternaryNode _ _ _ _ _ o => Some (with_output o (quaternary_call s args))
  | NaryNode _ _ o => Some (with_output o (nary_call s args))
  | FeedbackOutputNode _ o => Some (with_output o (feedback_output_call s))
  | FeedbackInputNode _ _ => s ← feedback_input_call s args; Some (s, None)
  end.

(** The references to the inputs end, and the tokens are consumed. *)
Definition release_arg (vs : Values) (a : StreamId * Arg V) : option Values :=
  match snd a with Owned _ => Some vs | Borrowed _ => update release (fst a) vs end.
Definition release_all (args : list (StreamId * Arg V)) (vs : Values) : option Values := foldM release_arg vs args.
Definition consume_all (xs : list StreamId) (vs : Values) : option Values :=
  foldM (λ vs x, update consume_token x vs) vs xs.

Definition put_output (o : option (StreamId * V)) (vs : Values) : option Values :=
  match o with Some (x, v) => update (λ sv, put sv v) x vs | None => Some vs end.

(** The evaluation of a node is under way between its start and its end. *)
Inductive Action := Begin (n : NodeId) | Finish (n : NodeId).

Definition begin_eval (ns : list Node) (n : NodeId) (st : State) : option State :=
  node ← ns !! n;
  '(args, vs) ← read_inputs node (values st);
  Some (MkState (ops st) vs (<[n := args]> (running st))).

Definition finish_eval (ns : list Node) (n : NodeId) (st : State) : option State :=
  node ← ns !! n;
  args ← running st !! n;
  s ← ops st !! node_op node;
  '(s, out) ← call_operator node s (snd <$> args);
  vs ← put_output out (values st);
  vs ← release_all args vs;
  vs ← consume_all (fst <$> args) vs;
  Some (MkState (<[node_op node := s]> (ops st)) vs (delete n (running st))).

Definition act (ns : list Node) (st : State) (a : Action) : option State :=
  match a with Begin n => begin_eval ns n st | Finish n => finish_eval ns n st end.

Definition run (ns : list Node) (st : State) (l : list Action) : option State := foldM (act ns) st l.

(** The state in which every node of [N] is about to be evaluated: the scheduler has registered the
    consumers of the streams. *)
Definition init_values (es : list Edge) (N : gset NodeId) (xs : list StreamId) : Values :=
  let counts := register_consumers N es in
  list_to_map ((λ x, (x, MkStreamValue None (default 0 (counts !! x)) 0 0)) <$> xs).
End eval.
Arguments State : clear implicits.

(** Unfolds the evaluation of a node to the calls of the operator. *)
Create HintDb node_eval.
#[export] Hint Unfold read_inputs source_read unary_read sink_read binary_sink_read binary_read ternary_read
  quaternary_read nary_read feedback_output_read feedback_input_read call_operator source_call unary_call sink_call
  binary_sink_call binary_call ternary_call quaternary_call nary_call feedback_output_call feedback_input_call
  with_output : node_eval.
