(* ===== verification/CircuitSpec.v ===== *)
(** Evaluating a circuit: whatever overlap of evaluations respects the graph, no evaluation fails, and the
    operators end in the states of evaluating the nodes one after the other, from values alone. *)
From stdpp Require Import gmap.
From S2P Require Import Prelude Scheduler SchedulerSpec CircuitBuilder.
#[local] Open Scope nat_scope.

Lemma occ_zero n l : n ∉ l → occ n l = 0.
Proof.
  induction l as [|m l IH]; [done|]. intros Hn. rewrite occ_cons, decide_False, IH; [done|..].
  - intros Hin. apply Hn. by right.
  - intros ->. apply Hn. by left.
Qed.

(** ** Sums over nodes *)

Fixpoint sumf (f : NodeId → nat) (l : list NodeId) : nat := match l with [] => 0 | n :: l => f n + sumf f l end.

Lemma sumf_ext f g l : (∀ n, n ∈ l → f n = g n) → sumf f l = sumf g l.
Proof.
  induction l as [|n l IH]; intros Heq; [done|]. cbn. rewrite (Heq n) by by left. f_equal. apply IH. intros m Hm. apply Heq. by right.
Qed.

Lemma sumf_update f g l n : NoDup l → n ∈ l → (∀ m, m ≠ n → f m = g m) → sumf f l + g n = sumf g l + f n.
Proof.
  induction l as [|m l IH]; intros Hnd Hn Heq; [by apply elem_of_nil in Hn|]. apply NoDup_cons in Hnd as [Hm Hnd]. cbn.
  destruct (decide (n = m)) as [->|Hne].
  - rewrite (sumf_ext f g l); [lia|]. intros k Hk. apply Heq. by intros ->.
  - apply elem_of_cons in Hn as [?|Hn]; [done|]. specialize (IH Hnd Hn Heq). rewrite (Heq m) by done. lia.
Qed.

Lemma sumf_ge f l n : n ∈ l → f n ≤ sumf f l.
Proof. induction l as [|m l IH]; intros Hn; [by apply elem_of_nil in Hn|]. cbn. apply elem_of_cons in Hn as [->|Hn]; [lia|]. specialize (IH Hn). lia. Qed.

Lemma sumf_two f l n m : NoDup l → n ∈ l → m ∈ l → n ≠ m → f n + f m ≤ sumf f l.
Proof.
  intros Hnd Hn Hm Hne.
  pose proof (sumf_update f (λ k, if decide (k = n) then 0 else f k) l n Hnd Hn) as Hu. cbn in Hu. rewrite decide_True in Hu by done.
  pose proof (sumf_ge (λ k, if decide (k = n) then 0 else f k) l m Hm) as Hg. cbn in Hg. rewrite decide_False in Hg by done.
  rewrite <- Nat.add_0_r, Hu; [lia|]. intros k Hk. by rewrite decide_False.
Qed.

Lemma sumf_zero f l n : sumf f l = 0 → n ∈ l → f n = 0.
Proof. intros H Hn. pose proof (sumf_ge f l n Hn). lia. Qed.

(** ** The effect of an evaluation on the values *)

Section values.
Context {V : Type}.
Notation Values := (gmap StreamId (StreamValue V)).
Notation Args := (list (StreamId * Arg V)).

Definition is_borrowed (a : Arg V) : bool := match a with Borrowed _ => true | Owned _ => false end.

(** How often a stream is read by reference, and by value. *)
Fixpoint refs (x : StreamId) (args : Args) : nat :=
  match args with
  | [] => 0
  | (y, a) :: args => (if decide (y = x) then if is_borrowed a then 1 else 0 else 0) + refs x args
  end.
Fixpoint owns (x : StreamId) (args : Args) : nat :=
  match args with
  | [] => 0
  | (y, a) :: args => (if decide (y = x) then if is_borrowed a then 0 else 1 else 0) + owns x args
  end.

Lemma refs_owns x args : refs x args + owns x args = occ x (fst <$> args).
Proof.
  induction args as [|[y a] args IH]; [done|]. rewrite fmap_cons, occ_cons. cbn [refs owns fst]. repeat case_decide; destruct a; cbn [is_borrowed]; lia.
Qed.

Lemma owns_pos x args : 0 < owns x args ↔ ∃ v, (x, Owned v) ∈ args.
Proof.
  induction args as [|[y a] args IH]; cbn; [split; [lia|]; by intros [v ?%elem_of_nil]|].
  split.
  - intros Hpos. destruct (decide (y = x)) as [->|]; [destruct a as [v|v]; [exists v; by left|]|];
      (destruct (proj1 IH) as [w Hw]; [cbn in Hpos; lia|]; exists w; by right).
  - intros [v [[= -> <-]|Hin]%elem_of_cons]; [rewrite decide_True by done; cbn; lia|].
    assert (0 < owns x args) by (apply IH; by exists v). lia.
Qed.

(** [sv] with another number of references, without its value, or with fewer tokens. *)
Definition with_borrows (b : nat) (sv : StreamValue V) : StreamValue V := MkStreamValue (val sv) (consumers sv) (tokens sv) b.
Definition without_val (sv : StreamValue V) : StreamValue V := MkStreamValue None (consumers sv) (tokens sv) (borrows sv).
Definition with_tokens (t : nat) (sv : StreamValue V) : StreamValue V :=
  MkStreamValue (if t =? 0 then None else val sv) (consumers sv) t (borrows sv).

(** The values after reading: the owned ones are gone, the others have more references. *)
Definition after_read (args : Args) (x : StreamId) (sv : StreamValue V) : StreamValue V :=
  let sv := if 0 <? owns x args then without_val sv else sv in with_borrows (borrows sv + refs x args) sv.

Context (env : StreamId → option V).

Lemma peek_rest_spec l : ∀ vs : Values,
  (∀ x o, (x, o) ∈ l → env x ≠ None ∧ match o with
                        | Some v => env x = Some v
                        | None => ∃ sv, vs !! x = Some sv ∧ tokens sv ≠ 0 ∧ val sv = env x
                        end) →
  ∃ args vs', peek_rest l vs = Some (args, vs') ∧ fst <$> args = fst <$> l
    ∧ (∀ x a, (x, a) ∈ args → env x = Some (arg_value a))
    ∧ (∀ x v, (x, Owned v) ∈ args ↔ (x, Some v) ∈ l)
    ∧ ∀ x, vs' !! x = (λ sv, with_borrows (borrows sv + refs x args) sv) <$> vs !! x.
Proof.
  assert (∀ (vs : Values) x, vs !! x = (λ sv, with_borrows (borrows sv + 0) sv) <$> vs !! x) as Hid.
  { intros vs x. destruct (vs !! x) as [[]|]; [|done]. cbn. unfold with_borrows. cbn. do 2 f_equal. lia. }
  induction l as [|[x [v|]] l IH]; intros vs Hl.
  - exists [], vs. split_and!; try done.
    + intros x a Hx. by apply elem_of_nil in Hx.
    + intros x v. by rewrite !elem_of_nil.
  - destruct (IH vs) as (args & vs' & Hp & Hf & Hv & Ho & Hvs); [intros y o Hy; apply Hl; by right|].
    exists ((x, Owned v) :: args), vs'. cbn [peek_rest]. rewrite Hp. split_and!.
    + done.
    + cbn. by rewrite Hf.
    + intros y a [[= -> ->]|Hy]%elem_of_cons; [|by apply Hv]. destruct (Hl x (Some v)) as [_ H]; [by left|done].
    + intros y w. rewrite !elem_of_cons, Ho. naive_solver.
    + intros y. rewrite Hvs. cbn. by case_decide.
  - destruct (Hl x None) as [Hx (sv & Hsv & Ht & Hval)]; [by left|]. destruct (env x) as [v|] eqn:Hev; [|done].
    destruct (IH (<[x := get sv]> vs)) as (args & vs' & Hp & Hf & Hv & Ho & Hvs).
    { intros y o Hy. destruct (Hl y o) as [Hne H]; [by right|]. split; [done|]. destruct o; [done|].
      destruct H as (sv' & Hsv' & Ht' & Hval'). destruct (decide (y = x)) as [->|Hyx].
      - rewrite Hsv in Hsv'. injection Hsv' as <-. exists (get sv). by rewrite lookup_insert_eq.
      - exists sv'. by rewrite lookup_insert_ne. }
    exists ((x, Borrowed v) :: args), vs'. cbn [peek_rest]. rewrite Hsv. cbn [mbind option_bind]. unfold peek.
    destruct (Nat.eqb_spec (tokens sv) 0); [done|]. rewrite Hval. cbn [mbind option_bind]. rewrite Hp. split_and!.
    + done.
    + cbn. by rewrite Hf.
    + intros y a [[= -> ->]|Hy]%elem_of_cons; [done|by apply Hv].
    + intros y w. rewrite !elem_of_cons, Ho. naive_solver.
    + intros y. rewrite Hvs. cbn. destruct (decide (x = y)) as [->|Hne].
      * rewrite lookup_insert_eq, Hsv. cbn. unfold with_borrows, get. cbn. do 2 f_equal. lia.
      * by rewrite lookup_insert_ne.
Qed.

Lemma take_all_spec xs : ∀ vs : Values, NoDup xs →
  (∀ x, x ∈ xs → env x ≠ None ∧ ∃ sv, vs !! x = Some sv ∧ tokens sv ≠ 0 ∧ val sv = env x ∧ (tokens sv = 1 → borrows sv = 0)) →
  ∃ l vs', take_all xs vs = Some (l, vs') ∧ fst <$> l = xs
    ∧ (∀ x o, (x, o) ∈ l → ∃ sv, vs !! x = Some sv ∧ o = if tokens sv =? 1 then env x else None)
    ∧ (∀ x, vs' !! x = (λ sv, if decide (x ∈ xs ∧ tokens sv = 1) then without_val sv else sv) <$> vs !! x).
Proof.
  induction xs as [|x xs IH]; intros vs Hnd Hxs.
  - exists [], vs. split_and!; try done; [intros x o H; by apply elem_of_nil in H|]. intros x. destruct (vs !! x); [|done].
    cbn. rewrite decide_False; [done|]. by intros [H%elem_of_nil _].
  - apply NoDup_cons in Hnd as [Hx Hnd]. destruct (Hxs x) as (Hev & sv & Hsv & Ht & Hval & Hb); [by left|].
    set (sv' := if tokens sv =? 1 then without_val sv else sv).
    assert (take sv = Some (if tokens sv =? 1 then env x else None, sv')) as Htake.
    { unfold take, sv'. destruct (tokens sv) as [|[|t]] eqn:Htk; [done| |done]. rewrite (Hb eq_refl), Hval. cbn [Nat.eqb].
      destruct (env x); [|done]. cbn [mbind option_bind]. unfold without_val. by rewrite Htk, (Hb eq_refl). }
    destruct (IH (<[x := sv']> vs) Hnd) as (l & vs' & Htl & Hf & Hl & Hvs).
    { intros y Hy. destruct (Hxs y) as (Hey & svy & Hsvy & ?); [by right|]. split; [done|]. exists svy.
      rewrite lookup_insert_ne; [done|]. by intros ->. }
    exists ((x, if tokens sv =? 1 then env x else None) :: l), vs'. cbn [take_all]. rewrite Hsv. cbn [mbind option_bind].
    rewrite Htake. cbn [mbind option_bind]. rewrite Htl. split_and!.
    + done.
    + cbn. by rewrite Hf.
    + intros y o [[= -> ->]|Hy]%elem_of_cons; [by exists sv|]. destruct (Hl y o Hy) as (svy & Hsvy & ->).
      assert (y ≠ x) as Hne. { intros ->. apply Hx. rewrite <- Hf. apply list_elem_of_fmap. by eexists (_, _). }
      rewrite lookup_insert_ne in Hsvy by done. by exists svy.
    + intros y. rewrite Hvs. destruct (decide (y = x)) as [->|Hne].
      * rewrite lookup_insert_eq, Hsv. cbn. rewrite decide_False by (by intros [? _]). f_equal. unfold sv'.
        destruct (Nat.eqb_spec (tokens sv) 1); [rewrite decide_True|rewrite decide_False]; try done; [split; [by left|done]|by intros [_ ?]].
      * rewrite lookup_insert_ne by done. destruct (vs !! y); [|done]. cbn. f_equal.
        apply decide_ext. rewrite elem_of_cons. naive_solver.
Qed.

(** What is required of a stream to be read: it has been produced, and the last reader is alone. *)
Definition readable (vs : Values) (x : StreamId) : Prop :=
  env x ≠ None ∧ ∃ sv, vs !! x = Some sv ∧ tokens sv ≠ 0 ∧ val sv = env x ∧ (tokens sv = 1 → borrows sv = 0).

Definition read_ok (xs : list StreamId) (vs : Values) (r : option (Args * Values)) : Prop :=
  ∃ args vs', r = Some (args, vs') ∧ fst <$> args = xs
    ∧ (∀ x a, (x, a) ∈ args → env x = Some (arg_value a))
    ∧ (∀ x v, (x, Owned v) ∈ args → ∃ sv, vs !! x = Some sv ∧ tokens sv = 1)
    ∧ ∀ x, vs' !! x = after_read args x <$> vs !! x.

Lemma peek_all_ok xs vs : (∀ x, x ∈ xs → readable vs x) → read_ok xs vs (peek_all xs vs).
Proof.
  intros Hxs. destruct (peek_rest_spec ((λ x, (x, None)) <$> xs) vs) as (args & vs' & Hp & Hf & Hv & Ho & Hvs).
  { intros x o Hin. apply list_elem_of_fmap in Hin as (y & [= -> ->] & Hy). destruct (Hxs y Hy) as (Hne & sv & ? & ? & ? & _).
    split; [done|]. by exists sv. }
  assert (∀ x v, (x, Owned v) ∉ args) as Hno. { intros x v Hin%Ho. by apply list_elem_of_fmap in Hin as (y & [=] & _). }
  exists args, vs'. split_and!; try done.
  - rewrite Hf, <- list_fmap_compose. cbn. by rewrite list_fmap_id.
  - by intros x v Hin%Hno.
  - intros x. rewrite Hvs. destruct (vs !! x) as [sv|]; [|done]. cbn. unfold after_read.
    destruct (Nat.ltb_spec 0 (owns x args)) as [Hpos|_]; [|done]. apply owns_pos in Hpos as [v Hin]. by apply Hno in Hin.
Qed.

Lemma take_or_peek_ok xs vs : NoDup xs → (∀ x, x ∈ xs → readable vs x) →
  read_ok xs vs (take_or_peek xs vs)
  ∧ ∀ args vs' x sv, take_or_peek xs vs = Some (args, vs') → x ∈ xs → vs !! x = Some sv → tokens sv = 1 → ∃ v, (x, Owned v) ∈ args.
Proof.
  intros Hnd Hxs. destruct (take_all_spec xs vs Hnd Hxs) as (l & vs1 & Ht & Hf1 & Hl & Hvs1).
  destruct (peek_rest_spec l vs1) as (args & vs' & Hp & Hf & Hv & Ho & Hvs).
  { intros x o Hin. assert (x ∈ xs) as Hx by (rewrite <- Hf1; apply list_elem_of_fmap; by eexists (_, _)).
    destruct (Hxs x Hx) as (Hne & sv & Hsv & Htk & Hval & _). split; [done|].
    destruct (Hl x o Hin) as (sv' & Hsv' & ->). rewrite Hsv in Hsv'. injection Hsv' as <-.
    destruct (Nat.eqb_spec (tokens sv) 1) as [H1|H1]; [by destruct (env x)|].
    exists sv. rewrite Hvs1, Hsv. cbn. by rewrite decide_False by (by intros [_ ?]). }
  assert (∀ x sv, x ∈ xs → vs !! x = Some sv → tokens sv = 1 → ∃ v, (x, Owned v) ∈ args) as Hown.
  { intros x sv Hx Hsv H1. rewrite <- Hf1 in Hx. apply list_elem_of_fmap in Hx as ([y o] & -> & Hin). cbn in *.
    destruct (Hl y o Hin) as (sv' & Hsv' & ->). rewrite Hsv in Hsv'. injection Hsv' as <-. rewrite H1 in Hin. cbn in Hin.
    destruct (Hxs y) as [Hne _]; [rewrite <- Hf1; apply list_elem_of_fmap; by eexists (_, _)|].
    destruct (env y) as [v|]; [|done]. exists v. by apply Ho. }
  split.
  - exists args, vs'. unfold take_or_peek. rewrite Ht. cbn [mbind option_bind]. split_and!; try done; [by rewrite Hf| |].
    + intros x v Hin%Ho. destruct (Hl x (Some v) Hin) as (sv & Hsv & Heq). exists sv. split; [done|].
      by destruct (Nat.eqb_spec (tokens sv) 1).
    + intros x. rewrite Hvs, Hvs1. destruct (vs !! x) as [sv|] eqn:Hsv; [|done]. cbn. f_equal. unfold after_read.
      destruct (Nat.ltb_spec 0 (owns x args)) as [Hpos|Hz].
      * apply owns_pos in Hpos as [v Hin%Ho]. destruct (Hl x (Some v) Hin) as (sv' & Hsv' & Heq).
        rewrite Hsv in Hsv'. injection Hsv' as <-. rewrite decide_True; [done|]. split.
        -- rewrite <- Hf1. apply list_elem_of_fmap. by eexists (_, _).
        -- by destruct (Nat.eqb_spec (tokens sv) 1).
      * rewrite decide_False; [done|]. intros [Hx H1]. destruct (Hown x sv Hx Hsv H1) as [v Hin].
        assert (0 < owns x args) by (apply owns_pos; by exists v). lia.
  - intros args' vs2 x sv Heq. unfold take_or_peek in Heq. rewrite Ht in Heq. cbn [mbind option_bind] in Heq. rewrite Hp in Heq.
    injection Heq as <- <-. apply Hown.
Qed.

(** Ending the references and consuming the tokens. *)
Lemma release_all_spec args : ∀ vs : Values,
  (∀ x, 0 < refs x args → ∃ sv, vs !! x = Some sv ∧ refs x args ≤ borrows sv) →
  ∃ vs', release_all args vs = Some vs' ∧ ∀ x, vs' !! x = (λ sv, with_borrows (borrows sv - refs x args) sv) <$> vs !! x.
Proof.
  induction args as [|[y a] args IH]; intros vs Hvs.
  - exists vs. split; [done|]. intros x. destruct (vs !! x) as [[]|]; [|done]. cbn. unfold with_borrows. cbn. do 2 f_equal. lia.
  - unfold release_all. cbn [foldM]. destruct a as [v|v].
    + cbn [release_arg snd mbind option_bind]. destruct (IH vs) as (vs' & Hr & Hvs').
      { intros x Hx. specialize (Hvs x). cbn in Hvs. case_decide; apply Hvs; cbn; lia. }
      exists vs'. split; [done|]. intros x. rewrite Hvs'. cbn. by case_decide.
    + destruct (Hvs y) as (sv & Hsv & Hb); [cbn; rewrite decide_True by done; cbn; lia|]. cbn in Hb. rewrite decide_True in Hb by done. cbn in Hb.
      cbn [release_arg snd fst]. unfold update. rewrite Hsv. cbn [mbind option_bind]. unfold release.
      destruct (borrows sv) as [|b] eqn:Hbs; [lia|]. cbn [decrement mbind option_bind].
      destruct (IH (<[y := MkStreamValue (val sv) (consumers sv) (tokens sv) b]> vs)) as (vs' & Hr & Hvs').
      { intros x Hx. destruct (decide (y = x)) as [->|Hne].
        - rewrite lookup_insert_eq. eexists. split; [done|]. cbn. lia.
        - rewrite lookup_insert_ne by done. specialize (Hvs x). cbn in Hvs. rewrite decide_False in Hvs by done. by apply Hvs. }
      exists vs'. split; [done|]. intros x. rewrite Hvs'. cbn. destruct (decide (y = x)) as [->|Hne].
      * rewrite lookup_insert_eq, Hsv. cbn. unfold with_borrows. cbn. by rewrite Hbs.
      * by rewrite lookup_insert_ne.
Qed.

Lemma consume_all_spec (xs : list StreamId) : ∀ vs : Values,
  (∀ x : StreamId, x ∈ xs → ∃ sv, vs !! x = Some sv ∧ occ x xs ≤ tokens sv ∧ (occ x xs = tokens sv → borrows sv = 0)) →
  ∃ vs', consume_all xs vs = Some vs'
    ∧ ∀ x : StreamId, vs' !! x = (λ sv, if decide (x ∈ xs) then with_tokens (tokens sv - occ x xs) sv else sv) <$> vs !! x.
Proof.
  clear env.
  induction xs as [|y xs IH]; intros vs Hvs.
  - exists vs. split; [done|]. intros x. destruct (vs !! x); [|done]. cbn. rewrite decide_False; [done|]. apply not_elem_of_nil.
  - destruct (Hvs y) as (sv & Hsv & Hle & Hb); [by left|]. rewrite occ_cons, decide_True in Hle, Hb by done.
    destruct (tokens sv) as [|t] eqn:Ht; [lia|].
    assert (consume_token sv = Some (with_tokens t sv)) as Hc.
    { unfold consume_token, with_tokens. rewrite Ht. destruct t as [|t]; [|done]. cbn.
      assert (occ y xs = 0) as H0 by lia. rewrite Hb by lia. done. }
    destruct (IH (<[y := with_tokens t sv]> vs)) as (vs' & Hr & Hvs').
    { intros x Hx. destruct (decide (y = x)) as [->|Hne].
      - rewrite lookup_insert_eq. eexists. split; [done|]. cbn. split; [lia|]. intros. apply Hb. lia.
      - rewrite lookup_insert_ne by done. destruct (Hvs x) as (svx & Hsvx & H1 & H2); [by right|].
        rewrite occ_cons, decide_False in H1, H2 by done. by exists svx. }
    exists vs'. unfold consume_all in *. cbn [foldM].
    assert (update consume_token y vs = Some (<[y := with_tokens t sv]> vs)) as -> by (unfold update; by rewrite Hsv; cbn; rewrite Hc).
    split; [done|]. intros x. rewrite Hvs'. destruct (decide (y = x)) as [->|Hne].
    + rewrite lookup_insert_eq, Hsv. cbn [fmap option_fmap option_map]. rewrite occ_cons, (decide_True _ _ (eq_refl x)), Ht.
      rewrite (decide_True (P := x ∈ x :: xs)) by by left. f_equal. destruct (decide (x ∈ xs)) as [Hin|Hin].
      * unfold with_tokens. cbn. replace (t - occ x xs) with (S t - (1 + occ x xs)) by lia.
        destruct (Nat.eqb_spec (S t - (1 + occ x xs)) 0); [done|]. destruct (Nat.eqb_spec t 0); [lia|done].
      * rewrite (occ_zero x xs Hin). f_equal. lia.
    + rewrite lookup_insert_ne by done. destruct (vs !! x); [|done]. cbn [fmap option_fmap option_map].
      rewrite occ_cons, (decide_False (P := y = x)) by done. f_equal. apply decide_ext. rewrite elem_of_cons. naive_solver.
Qed.
End values.

(** ** Nodes *)

Definition node_inputs (n : Node) : list StreamId :=
  match n with
  | SourceNode _ _ | FeedbackOutputNode _ _ => []
  | UnaryNode _ i _ | SinkNode _ i | FeedbackInputNode _ i => [stream_id i]
  | BinarySinkNode _ i1 i2 _ | BinaryNode _ i1 i2 _ _ => [stream_id i1; stream_id i2]
  | TernaryNode _ i1 i2 i3 _ => [stream_id i1; stream_id i2; stream_id i3]
  | QuaternaryNode _ i1 i2 i3 i4 _ => [stream_id i1; stream_id i2; stream_id i3; stream_id i4]
  | NaryNode _ l _ => stream_id <$> l
  end.

Definition node_output (n : Node) : option StreamId :=
  match n with
  | SourceNode _ o | UnaryNode _ _ o | BinaryNode _ _ _ o _ | TernaryNode _ _ _ _ o | QuaternaryNode _ _ _ _ _ o
  | NaryNode _ _ o | FeedbackOutputNode _ o => Some (stream_id o)
  | SinkNode _ _ | BinarySinkNode _ _ _ _ | FeedbackInputNode _ _ => None
  end.

(** The inputs of a node that is not marked as an alias differ. *)
Definition node_wf (n : Node) : Prop :=
  match n with
  | BinarySinkNode _ i1 i2 alias | BinaryNode _ i1 i2 _ alias => alias = false → stream_id i1 ≠ stream_id i2
  | _ => True
  end.

Lemma read_inputs_ok {V} (env : StreamId → option V) n vs :
  node_wf n → (∀ x, x ∈ node_inputs n → readable env vs x) → read_ok env (node_inputs n) vs (read_inputs n vs).
Proof.
  assert (∀ x : StreamId, NoDup [x]) as H1 by apply NoDup_singleton.
  assert (∀ x y : StreamId, x ≠ y → NoDup [x; y]) as H2.
  { intros x y Hne. apply NoDup_cons. split; [|done]. by intros ->%list_elem_of_singleton. }
  assert (read_ok env [] vs (Some ([], vs))) as H0 by (apply (peek_all_ok env []); intros x Hx; by apply elem_of_nil in Hx).
  destruct n as [| | |? ? ? []|? ? ? ? []| | | | |]; cbn [node_wf node_inputs]; autounfold with node_eval; intros Hwf Hr;
    first [done | apply peek_all_ok; done | apply take_or_peek_ok; auto].
Qed.

Section graph.
Context {V S : Type} `{OperatorLaws V S}.
Context (ns : list Node).

Definition inputs (n : NodeId) : list StreamId := match ns !! n with Some node => node_inputs node | None => [] end.
Definition output (n : NodeId) : option StreamId := node ← ns !! n; node_output node.
Definition op_of (n : NodeId) : option nat := node_op <$> ns !! n.

(** ** The reference: evaluating nodes one after the other, from values *)

(** What a node does with the operators and with the values of the streams. *)
Definition pure_result (st : list S * gmap StreamId V) (n : NodeId) : option (nat * S * option (StreamId * V)) :=
  node ← ns !! n;
  args ← mapM (λ x, snd st !! x) (node_inputs node);
  s ← fst st !! node_op node;
  '(s, out) ← call_operator node s (Borrowed <$> args);
  Some (node_op node, s, out).

Definition apply_result (st : list S * gmap StreamId V) (r : nat * S * option (StreamId * V)) : list S * gmap StreamId V :=
  let '(o, s, out) := r in
  (<[o := s]> (fst st), match out with Some (x, v) => <[x := v]> (snd st) | None => snd st end).

Definition pure_step (st : list S * gmap StreamId V) (n : NodeId) : option (list S * gmap StreamId V) :=
  r ← pure_result st n; Some (apply_result st r).

Definition pure_run (st : list S * gmap StreamId V) (l : list NodeId) : option (list S * gmap StreamId V) :=
  foldM pure_step st l.

Lemma call_operator_output n s args s' out : call_operator n s args = Some (s', out) → fst <$> out = node_output n.
Proof.
  destruct n; autounfold with node_eval; intros Hc; repeat case_match; simplify_eq/=; done.
Qed.

Lemma call_operator_by_ref n s args :
  call_operator n s args = call_operator n s (Borrowed ∘ arg_value <$> args).
Proof.
  destruct n; autounfold with node_eval; try (by rewrite eval_by_ref); try (by rewrite eval_sink_by_ref); try done.
  destruct args as [|a [|b args]]; try done. cbn. by rewrite eval_strict_by_ref.
Qed.

Lemma pure_result_fields st n o s out :
  pure_result st n = Some (o, s, out) → op_of n = Some o ∧ fst <$> out = output n.
Proof.
  unfold pure_result, op_of, output. destruct (ns !! n) as [node|]; [|done]. cbn.
  destruct (mapM _ _); [|done]. cbn. destruct (_ !! _); [|done]. cbn. destruct (call_operator node _ _) as [[s' out']|] eqn:Hc; [|done].
  cbn. intros [= <- <- <-]. split; [done|]. by eapply call_operator_output.
Qed.

(** A node that shares nothing with [n] does not change what [n] does. *)
Lemma pure_result_frame st n r :
  op_of n ≠ Some (fst (fst r)) → (∀ x v, snd r = Some (x, v) → x ∉ inputs n) →
  pure_result (apply_result st r) n = pure_result st n.
Proof.
  destruct r as [[o s] out]. cbn. unfold pure_result, op_of, inputs. destruct (ns !! n) as [node|]; [|done]. cbn. intros Ho Hx.
  assert (mapM (λ x, match out with Some (x, v) => <[x := v]> (snd st) | None => snd st end !! x) (node_inputs node)
          = mapM (λ x, snd st !! x) (node_inputs node)) as ->.
  { destruct out as [[x v]|]; [|done]. specialize (Hx x v eq_refl). revert Hx. induction (node_inputs node) as [|y l IH]; [done|].
    intros Hy. cbn. rewrite lookup_insert_ne by (intros ->; apply Hy; by left). rewrite IH; [done|]. intros Hin. apply Hy. by right. }
  destruct (mapM _ _); [|done]. cbn. rewrite list_lookup_insert_ne; [done|]. by intros ->.
Qed.

Lemma apply_result_commute st r1 r2 :
  fst (fst r1) ≠ fst (fst r2) → (∀ x v w, snd r1 = Some (x, v) → snd r2 = Some (x, w) → False) →
  apply_result (apply_result st r1) r2 = apply_result (apply_result st r2) r1.
Proof.
  destruct r1 as [[o1 s1] out1], r2 as [[o2 s2] out2]. cbn. intros Ho Hx. unfold apply_result. cbn. f_equal.
  - by rewrite list_insert_insert_ne.
  - destruct out1 as [[x v]|], out2 as [[y w]|]; try done. apply insert_insert_ne. intros ->. by eapply Hx.
Qed.

Context (E : list (NodeId * NodeId)) (N : gset NodeId).

(** The circuit is well-formed: streams have one producer, which comes before their consumers, and nodes
    that share an operator are ordered. *)
Record circuit_wf (k : nat) : Prop := {
  wf_node : ∀ n, n ∈ N → ∃ node, ns !! n = Some node ∧ node_wf node ∧ node_op node < k;
  wf_output : ∀ n m x, n ∈ N → m ∈ N → output n = Some x → output m = Some x → n = m;
  wf_producer : ∀ n x, n ∈ N → x ∈ inputs n → ∃ p, p ∈ N ∧ output p = Some x ∧ (p, n) ∈ E;
  wf_op : ∀ n m, n ∈ N → m ∈ N → n ≠ m → op_of n = op_of m → (n, m) ∈ E ∨ (m, n) ∈ E }.

Context (k : nat) (Hwf : circuit_wf k).

Lemma output_not_input n m x : n ∈ N → m ∈ N → output n = Some x → (n, m) ∉ E → x ∉ inputs m.
Proof.
  intros Hn Hm Hx HnE Hin. destruct (wf_producer _ Hwf m x Hm Hin) as (p & Hp & Hpx & HpE).
  by rewrite (wf_output _ Hwf p n x Hp Hn Hpx Hx) in HpE.
Qed.

(** Two nodes without an edge between them commute. *)
Lemma pure_step_commute st n m :
  n ∈ N → m ∈ N → n ≠ m → (n, m) ∉ E → (m, n) ∉ E →
  (st ← pure_step st n; pure_step st m) = (st ← pure_step st m; pure_step st n).
Proof.
  intros Hn Hm Hne H1 H2.
  assert (op_of n ≠ op_of m) as Hop. { intros Heq. destruct (wf_op _ Hwf n m Hn Hm Hne Heq); done. }
  assert (∀ a b r st, a ∈ N → b ∈ N → op_of a ≠ op_of b → (a, b) ∉ E → pure_result st a = Some r →
            pure_result (apply_result st r) b = pure_result st b) as Hframe.
  { clear -Hwf. intros a b [[o s] out] st Ha Hb Hab HE Hr. apply pure_result_fields in Hr as [Ho Hout].
    apply pure_result_frame; cbn; [congruence|]. intros x v ->. cbn in Hout. by apply (output_not_input a b x). }
  unfold pure_step. destruct (pure_result st n) as [rn|] eqn:Hrn; cbn.
  - rewrite (Hframe n m rn st) by done. destruct (pure_result st m) as [rm|] eqn:Hrm; [|done]. cbn.
    rewrite (Hframe m n rm st) by done. rewrite Hrn. cbn. f_equal.
    destruct rn as [[on sn] outn], rm as [[om sm] outm].
    apply pure_result_fields in Hrn as [Hon Houtn], Hrm as [Hom Houtm].
    apply apply_result_commute; cbn; [congruence|]. intros x v w -> ->. cbn in *. apply Hne. by eapply (wf_output _ Hwf).
  - destruct (pure_result st m) as [rm|] eqn:Hrm; [|done]. cbn. by rewrite (Hframe m n rm st), Hrn by done.
Qed.

(** The nodes of [l] are in an order of the graph. *)
Definition ordered (l : list NodeId) : Prop := ∀ l1 n l2, l = l1 ++ n :: l2 → ∀ m, m ∈ l2 → (m, n) ∉ E.

Lemma ordered_cons n l : ordered (n :: l) → ordered l ∧ ∀ m, m ∈ l → (m, n) ∉ E.
Proof. intros Ho. split; [intros l1 m l2 ->; apply (Ho (n :: l1)); done|]. by apply (Ho []). Qed.

Lemma ordered_remove l1 n l2 : ordered (l1 ++ n :: l2) → ordered (l1 ++ l2) ∧ ∀ m, m ∈ l1 → (n, m) ∉ E.
Proof.
  induction l1 as [|a l1 IH]; cbn [app]; intros Ho; apply ordered_cons in Ho as [Ho Ha].
  - split; [done|]. intros m Hm. by apply elem_of_nil in Hm.
  - destruct (IH Ho) as [Hr Hn]. split.
    + intros l3 m l4. destruct l3 as [|b l3]; cbn; intros [= -> Heq]; [subst l4|by eapply Hr].
      intros q Hq. apply Ha. rewrite elem_of_app, elem_of_cons. apply elem_of_app in Hq. tauto.
    + intros m [->|Hm]%elem_of_cons; [|by apply Hn]. apply Ha, elem_of_app. right. by left.
Qed.

(** A node without edges from the nodes before it can be evaluated first. *)
Lemma pure_run_front st n l1 l2 :
  n ∈ N → n ∉ l1 → (∀ m, m ∈ l1 → m ∈ N ∧ (m, n) ∉ E ∧ (n, m) ∉ E) → pure_run st (l1 ++ n :: l2) = pure_run st (n :: l1 ++ l2).
Proof.
  intros Hn. revert st. induction l1 as [|a l1 IH]; intros st Hnl Hl1; [done|].
  destruct (Hl1 a) as (Ha & H1 & H2); [by left|]. cbn [app].
  assert (pure_run st (a :: l1 ++ n :: l2) = (st ← pure_step st a; pure_run st (n :: l1 ++ l2))) as ->.
  { unfold pure_run. cbn [app foldM]. destruct (pure_step st a) as [st1|]; [|done]. cbn. apply IH.
    - intros Hin. apply Hnl. by right.
    - intros m Hm. apply Hl1. by right. }
  unfold pure_run. cbn [app foldM].
  assert (n ≠ a) as Hna by (intros ->; apply Hnl; by left).
  pose proof (pure_step_commute st n a Hn Ha Hna H2 H1) as Hc.
  destruct (pure_step st a) as [sa|], (pure_step st n) as [sn|]; cbn in *; [by rewrite Hc|by rewrite <- Hc|by rewrite Hc|done].
Qed.

(** Every order of the same nodes gives the same result. *)
Lemma pure_run_ordered l l' st :
  l ≡ₚ l' → NoDup l → (∀ n, n ∈ l → n ∈ N) → ordered l → ordered l' → pure_run st l = pure_run st l'.
Proof.
  revert l' st. induction l as [|n l IH]; intros l' st Hp Hnd HN Ho Ho'; [by apply Permutation_nil_l in Hp as ->|].
  apply NoDup_cons in Hnd as [Hnl Hnd]. apply ordered_cons in Ho as [Ho Hn].
  destruct (Permutation_cons_inv_l l l' n Hp) as (l1 & l2 & -> & Hp'). apply ordered_remove in Ho' as [Ho' Hn'].
  assert (∀ m, m ∈ l1 → m ∈ l) as Hl1. { intros m Hm. rewrite Hp'. apply elem_of_app. by left. }
  rewrite pure_run_front.
  - unfold pure_run. cbn [foldM]. destruct (pure_step st n) as [st'|]; [|done]. cbn. apply IH; try done. intros m Hm. apply HN. by right.
  - apply HN. by left.
  - intros Hin%Hl1. done.
  - intros m Hm. split_and!; [apply HN; right; by apply Hl1|apply Hn; by apply Hl1|by apply Hn'].
Qed.
End graph.
