(* ===== verification/CircuitRun.v ===== *)
(** Overlapping evaluations of the nodes of a circuit: an invariant that relates the values and tokens of the
    streams to the nodes that have been evaluated, and the simulation by one evaluation after the other. *)
From stdpp Require Import gmap.
From S2P Require Import Prelude Scheduler SchedulerSpec CircuitBuilder CircuitSpec.
#[local] Open Scope nat_scope.

Lemma sumf_pos f l : 0 < sumf f l → ∃ n, n ∈ l ∧ 0 < f n.
Proof.
  induction l as [|m l IH]; cbn; [lia|]. intros Hpos. destruct (f m) as [|j] eqn:Hm.
  - destruct IH as (n & Hn & Hf); [lia|]. exists n. split; [by right|done].
  - exists m. split; [by left|lia].
Qed.

Section run.
Context {V S : Type} `{OperatorLaws V S}.
Context (ns : list Node) (E : list (NodeId * NodeId)) (N : gset NodeId) (ops0 : list S).
Context (Hwf : circuit_wf ns E N (length ops0)).

Notation inputs := (inputs ns).
Notation output := (output ns).
Notation pure_run := (pure_run ns).

(** The inputs a node has read and not released yet. *)
Definition args_of (r : gmap NodeId (list (StreamId * Arg V))) (n : NodeId) : list (StreamId * Arg V) := default [] (r !! n).

(** The reads of a stream that are due after the evaluation of [dl], the references to it, and whether it
    has been taken. *)
Definition rem (dl : list NodeId) (x : StreamId) : nat :=
  sumf (λ n, if decide (n ∈ dl) then 0 else occ x (inputs n)) (elements N).
Definition ref_count (r : gmap NodeId (list (StreamId * Arg V))) (x : StreamId) : nat :=
  sumf (λ n, refs x (args_of r n)) (elements N).
Definition own_count (r : gmap NodeId (list (StreamId * Arg V))) (x : StreamId) : nat :=
  sumf (λ n, owns x (args_of r n)) (elements N).

Lemma rem_snoc dl n x : n ∈ N → n ∉ dl → rem dl x = rem (dl ++ [n]) x + occ x (inputs n).
Proof.
  intros Hn Hnd. unfold rem.
  pose proof (sumf_update (λ m, if decide (m ∈ dl) then 0 else occ x (inputs m))
                (λ m, if decide (m ∈ dl ++ [n]) then 0 else occ x (inputs m)) (elements N) n) as Hu. cbv beta in Hu.
  rewrite (decide_False (P := n ∈ dl)), (decide_True (P := n ∈ dl ++ [n])) in Hu by (done || (apply elem_of_app; right; by left)).
  rewrite <- Hu; [lia|apply NoDup_elements|by apply elem_of_elements|].
  intros m Hm. apply decide_ext. rewrite elem_of_app, list_elem_of_singleton. naive_solver.
Qed.

Lemma rem_ge dl n x : n ∈ N → n ∉ dl → occ x (inputs n) ≤ rem dl x.
Proof. intros Hn Hnd. rewrite (rem_snoc dl n x Hn Hnd). lia. Qed.

Lemma rem_two dl n m x : n ∈ N → m ∈ N → n ≠ m → n ∉ dl → m ∉ dl → occ x (inputs n) + occ x (inputs m) ≤ rem dl x.
Proof.
  intros Hn Hm Hne Hnd Hmd. unfold rem.
  pose proof (sumf_two (λ n, if decide (n ∈ dl) then 0 else occ x (inputs n)) (elements N) n m) as Ht. cbv beta in Ht.
  rewrite !decide_False in Ht by done. apply Ht; [apply NoDup_elements|by apply elem_of_elements|by apply elem_of_elements|done].
Qed.

(** Every node comes after its predecessors. *)
Definition topo (l : list NodeId) : Prop := ∀ l1 n l2, l = l1 ++ n :: l2 → ∀ p, (p, n) ∈ E → p ∈ l1.

Lemma topo_snoc l n : topo l → (∀ p, (p, n) ∈ E → p ∈ l) → topo (l ++ [n]).
Proof.
  intros Ht Hn l1 m l2 Heq. destruct l2 as [|z l2 _] using rev_ind.
  - apply app_inj_tail in Heq as [-> ->]. done.
  - rewrite app_comm_cons, app_assoc in Heq. apply app_inj_tail in Heq as [-> _]. by eapply Ht.
Qed.

Lemma topo_ordered l : NoDup l → topo l → ordered E l.
Proof.
  intros Hnd Ht l1 n l2 -> m Hm HE. specialize (Ht l1 n l2 eq_refl m HE).
  apply NoDup_app in Hnd as (_ & Hd & _). apply (Hd m Ht). by right.
Qed.

(** [e] are the values that have been produced. *)
Definition value_ok (dl : list NodeId) (e : gmap StreamId V) (r : gmap NodeId (list (StreamId * Arg V)))
    (p : NodeId) (x : StreamId) (sv : StreamValue V) : Prop :=
  consumers sv = rem [] x
  ∧ tokens sv = (if decide (p ∈ dl) then rem dl x else 0)
  ∧ borrows sv = ref_count r x
  ∧ val sv = (if (rem dl x =? 0) || (0 <? own_count r x) then None else e !! x).

Record sim (B : gset NodeId) (dl : list NodeId) (e : gmap StreamId V) (st : State V S) : Prop := {
  sim_pure : pure_run (ops0, ∅) dl = Some (ops st, e);
  sim_length : length (ops st) = length ops0;
  sim_env : ∀ x, e !! x ≠ None ↔ ∃ n, n ∈ dl ∧ output n = Some x;
  sim_nodup : NoDup dl;
  sim_topo : topo dl;
  sim_nodes : ∀ n, n ∈ B ∨ n ∈ dl → n ∈ N;
  sim_disjoint : ∀ n, n ∈ B → n ∉ dl;
  sim_closed : ∀ n p, n ∈ B ∨ n ∈ dl → (p, n) ∈ E → p ∈ dl;
  sim_dom : dom (running st) = B;
  sim_running : ∀ n args, running st !! n = Some args →
    fst <$> args = inputs n ∧ (∀ x a, (x, a) ∈ args → e !! x = Some (arg_value a))
    ∧ (∀ x v, (x, Owned v) ∈ args → rem dl x = 1);
  sim_values : ∀ x p, p ∈ N → output p = Some x → ∃ sv, values st !! x = Some sv ∧ value_ok dl e (running st) p x sv }.

(** A node under evaluation reads only what has been produced and is not read up. *)
Lemma args_reader B dl e st n x :
  sim B dl e st → 0 < refs x (args_of (running st) n) + owns x (args_of (running st) n) →
  n ∈ B ∧ n ∈ N ∧ n ∉ dl ∧ 0 < occ x (inputs n).
Proof.
  intros Hsim Hpos. unfold args_of in *. destruct (running st !! n) as [args|] eqn:Hr; [|cbn in Hpos; lia]. cbn in Hpos.
  assert (n ∈ B) as Hn by (rewrite <- (sim_dom _ _ _ _ Hsim); by eapply elem_of_dom_2). destruct Hsim.
  destruct (sim_running0 n args Hr) as (Hf & _). rewrite refs_owns, Hf in Hpos. split_and!; auto.
Qed.

Lemma other_readers B dl e st n x :
  sim B dl e st → n ∈ N → n ∉ dl → n ∉ B → 0 < occ x (inputs n) → own_count (running st) x = 0
  ∧ (rem dl x = 1 → ref_count (running st) x = 0).
Proof.
  intros Hsim Hn Hnd HnB Hocc.
  assert (∀ m, 0 < refs x (args_of (running st) m) + owns x (args_of (running st) m) → 2 ≤ rem dl x) as Htwo.
  { intros m Hm. destruct (args_reader B dl e st m x Hsim Hm) as (HmB & HmN & Hmd & Hmo).
    assert (m ≠ n) as Hne by (by intros ->). pose proof (rem_two dl n m x Hn HmN (not_eq_sym Hne) Hnd Hmd). lia. }
  split.
  - destruct (own_count (running st) x) as [|j] eqn:Ho; [done|]. exfalso.
    destruct (sumf_pos (λ n, owns x (args_of (running st) n)) (elements N)) as (m & Hm & Hpos); [unfold own_count in Ho; lia|].
    assert (2 ≤ rem dl x) as H2 by (apply (Htwo m); lia).
    unfold args_of in Hpos. destruct (running st !! m) as [args|] eqn:Hr; [|cbn in Hpos; lia]. cbn in Hpos.
    apply owns_pos in Hpos as [v Hv]. destruct (sim_running _ _ _ _ Hsim m args Hr) as (_ & _ & H1). rewrite (H1 x v Hv) in H2. lia.
  - intros Hr1. destruct (ref_count (running st) x) as [|j] eqn:Ho; [done|]. exfalso.
    destruct (sumf_pos (λ n, refs x (args_of (running st) n)) (elements N)) as (m & Hm & Hpos); [unfold ref_count in Ho; lia|].
    assert (2 ≤ rem dl x) as H2 by (apply (Htwo m); lia). lia.
Qed.

Lemma count_update (f : StreamId → list (StreamId * Arg V) → nat) r n args x :
  f x [] = 0 → n ∈ N → r !! n = None →
  sumf (λ m, f x (args_of (<[n := args]> r) m)) (elements N) = sumf (λ m, f x (args_of r m)) (elements N) + f x args.
Proof.
  intros Hnil Hn Hr.
  pose proof (sumf_update (λ m, f x (args_of (<[n := args]> r) m)) (λ m, f x (args_of r m)) (elements N) n) as Hu.
  unfold args_of in *. rewrite lookup_insert_eq, Hr in Hu. cbn in Hu. rewrite Hnil in Hu.
  rewrite Nat.add_0_r in Hu. apply Hu; [apply NoDup_elements|by apply elem_of_elements|].
  intros m Hm. by rewrite lookup_insert_ne.
Qed.

(** ** The start of an evaluation *)

Lemma begin_sim B dl e st n :
  sim B dl e st → n ∈ N → n ∉ B → n ∉ dl → (∀ p, (p, n) ∈ E → p ∈ dl) →
  ∃ st', begin_eval ns n st = Some st' ∧ sim ({[n]} ∪ B) dl e st'.
Proof.
  intros Hsim Hn HnB Hnd Hpred. destruct (wf_node _ _ _ _ Hwf n Hn) as (node & Hnode & Hnw & Hop).
  assert (inputs n = node_inputs node) as Hin by (unfold CircuitSpec.inputs; by rewrite Hnode).
  assert (running st !! n = None) as Hrn by (apply not_elem_of_dom; by rewrite (sim_dom _ _ _ _ Hsim)).
  assert (∀ x, x ∈ node_inputs node → readable (λ x, e !! x) (values st) x) as Hread.
  { intros x Hx. rewrite <- Hin in Hx. destruct (wf_producer _ _ _ _ Hwf n x Hn Hx) as (p & Hp & Hpx & HpE).
    pose proof (Hpred p HpE) as Hpd. pose proof (occ_pos x (inputs n) Hx) as Hocc. pose proof (rem_ge dl n x Hn Hnd) as Hrem.
    destruct (other_readers B dl e st n x Hsim Hn Hnd HnB Hocc) as [Ho Hr].
    destruct (sim_values _ _ _ _ Hsim x p Hp Hpx) as (sv & Hsv & Hc & Ht & Hb & Hv). rewrite decide_True in Ht by done.
    split; [apply (sim_env _ _ _ _ Hsim); by exists p|]. exists sv. rewrite Ht, Hb, Hv, Ho. split_and!; [done|lia| |done].
    destruct (Nat.eqb_spec (rem dl x) 0); [lia|done]. }
  destruct (read_inputs_ok (λ x, e !! x) node (values st) Hnw Hread) as (args & vs & Hri & Hf & Hv & Ho & Hvs).
  exists (MkState (ops st) vs (<[n := args]> (running st))). split; [unfold begin_eval; by rewrite Hnode; cbn; rewrite Hri|].
  assert (∀ x v, (x, Owned v) ∈ args → rem dl x = 1) as Hown.
  { intros x v Hx. destruct (Ho x v Hx) as (sv & Hsv & Ht1).
    assert (x ∈ inputs n) as Hxi by (rewrite Hin, <- Hf; apply list_elem_of_fmap; by eexists (_, _)).
    destruct (wf_producer _ _ _ _ Hwf n x Hn Hxi) as (p & Hp & Hpx & HpE).
    destruct (sim_values _ _ _ _ Hsim x p Hp Hpx) as (sv' & Hsv' & _ & Ht & _). rewrite Hsv in Hsv'. injection Hsv' as <-.
    rewrite decide_True in Ht by auto. lia. }
  destruct Hsim. split; cbn; try done.
  - intros m [[->%elem_of_singleton|Hm]%elem_of_union|Hm]; auto.
  - intros m [->%elem_of_singleton|Hm]%elem_of_union; auto.
  - intros m p [[->%elem_of_singleton|Hm]%elem_of_union|Hm]; eauto.
  - by rewrite dom_insert_L, sim_dom0.
  - intros m args' Hm. destruct (decide (m = n)) as [->|Hne].
    + rewrite lookup_insert_eq in Hm. injection Hm as <-. rewrite Hin. done.
    + rewrite lookup_insert_ne in Hm by done. by apply sim_running0.
  - intros x p Hp Hpx. destruct (sim_values0 x p Hp Hpx) as (sv & Hsv & Hc & Ht & Hb & Hvl).
    exists (after_read args x sv). split; [by rewrite Hvs, Hsv|]. unfold value_ok, ref_count, own_count.
    rewrite (count_update refs), (count_update owns) by done. fold (ref_count (running st) x) (own_count (running st) x).
    unfold after_read. destruct (Nat.ltb_spec 0 (owns x args)) as [Hpos|Hz]; cbn [val consumers tokens borrows without_val with_borrows]; (split_and!; [done|done|congruence|]).
    + destruct (Nat.ltb_spec 0 (own_count (running st) x + owns x args)); [|lia]. by rewrite orb_true_r.
    + rewrite Hvl. by replace (own_count (running st) x + owns x args) with (own_count (running st) x) by lia.
Qed.

(** ** The end of an evaluation *)

Lemma call_operator_total n (s : S) (args : list (Arg V)) :
  length args = length (node_inputs n) → ∃ s' out, call_operator n s args = Some (s', out).
Proof.
  destruct n; autounfold with node_eval; cbn; intros Hlen; repeat case_match; simplify_eq/=; eauto.
Qed.

Lemma mapM_values (e : gmap StreamId V) (args : list (StreamId * Arg V)) :
  (∀ x a, (x, a) ∈ args → e !! x = Some (arg_value a)) → mapM (λ x, e !! x) (fst <$> args) = Some (arg_value ∘ snd <$> args).
Proof.
  induction args as [|[x a] args IH]; intros Hargs; [done|]. cbn. rewrite (Hargs x a) by by left. cbn.
  rewrite IH; [done|]. intros y b Hy. apply Hargs. by right.
Qed.

Lemma finish_call B dl e st n node args :
  sim B dl e st → n ∈ N → ns !! n = Some node → running st !! n = Some args →
  ∃ s s' out, ops st !! node_op node = Some s ∧ call_operator node s (snd <$> args) = Some (s', out)
    ∧ pure_result ns (ops st, e) n = Some (node_op node, s', out) ∧ fst <$> out = output n.
Proof.
  intros Hsim Hn Hnode Hargs. destruct (sim_running _ _ _ _ Hsim n args Hargs) as (Hf & Hv & _).
  assert (inputs n = node_inputs node) as Hin by (unfold CircuitSpec.inputs; by rewrite Hnode).
  destruct (wf_node _ _ _ _ Hwf n Hn) as (node' & Hnode' & _ & Hop). rewrite Hnode in Hnode'. injection Hnode' as <-.
  rewrite <- (sim_length _ _ _ _ Hsim) in Hop. apply lookup_lt_is_Some in Hop as [s Hs].
  destruct (call_operator_total node s (snd <$> args)) as (s' & out & Hc).
  { by rewrite length_fmap, <- Hin, <- Hf, length_fmap. }
  exists s, s', out. split_and!; [done..| |].
  - unfold pure_result. rewrite Hnode. cbn [mbind option_bind fst snd]. rewrite <- Hin, <- Hf, (mapM_values e args Hv). cbn [mbind option_bind].
    rewrite Hs. cbn [mbind option_bind]. rewrite call_operator_by_ref, <- list_fmap_compose in Hc.
    rewrite <- list_fmap_compose. unfold compose in *. by rewrite Hc.
  - unfold CircuitSpec.output. rewrite Hnode. cbn. by eapply call_operator_output.
Qed.

(** Nobody has read, or reads, what has not been produced. *)
Lemma unproduced B dl e st n x :
  sim B dl e st → n ∈ N → n ∉ dl → output n = Some x →
  e !! x = None ∧ ref_count (running st) x = 0 ∧ own_count (running st) x = 0 ∧ rem dl x = rem [] x
  ∧ (n ∈ B → occ x (inputs n) = 0).
Proof.
  intros Hsim Hn Hnd Hx.
  assert (∀ m, m ∈ B ∨ m ∈ dl → occ x (inputs m) = 0) as Hno.
  { intros m Hm. apply occ_zero. intros Hin.
    assert (m ∈ N) as HmN by (by apply (sim_nodes _ _ _ _ Hsim)).
    destruct (wf_producer _ _ _ _ Hwf m x HmN Hin) as (p & Hp & Hpx & HpE).
    rewrite (wf_output _ _ _ _ Hwf p n x Hp Hn Hpx Hx) in HpE. by apply Hnd, (sim_closed _ _ _ _ Hsim m). }
  assert (∀ m, refs x (args_of (running st) m) + owns x (args_of (running st) m) = 0) as Hz.
  { intros m. destruct (refs x (args_of (running st) m) + owns x (args_of (running st) m)) as [|j] eqn:Hj; [done|]. exfalso.
    destruct (args_reader B dl e st m x Hsim) as (HmB & _ & _ & Hpos); [lia|]. rewrite Hno in Hpos by (by left). lia. }
  split_and!.
  - destruct (e !! x) as [v|] eqn:He; [|done]. exfalso. destruct (proj1 (sim_env _ _ _ _ Hsim x)) as (m & Hm & Hmx); [congruence|].
    assert (m ∈ N) as HmN by (apply (sim_nodes _ _ _ _ Hsim); by right).
    rewrite (wf_output _ _ _ _ Hwf m n x HmN Hn Hmx Hx) in Hm. done.
  - unfold ref_count. destruct (sumf _ _) as [|j] eqn:Hj; [done|]. exfalso.
    destruct (sumf_pos (λ n, refs x (args_of (running st) n)) (elements N)) as (m & _ & Hpos); [lia|]. specialize (Hz m). lia.
  - unfold own_count. destruct (sumf _ _) as [|j] eqn:Hj; [done|]. exfalso.
    destruct (sumf_pos (λ n, owns x (args_of (running st) n)) (elements N)) as (m & _ & Hpos); [lia|]. specialize (Hz m). lia.
  - unfold rem. apply sumf_ext. intros m Hm. rewrite (decide_False (P := m ∈ [])) by apply not_elem_of_nil.
    case_decide; [|done]. symmetry. apply Hno. by right.
  - intros HnB. apply Hno. by left.
Qed.

Lemma put_output_ok B dl e st n out :
  sim B dl e st → n ∈ N → n ∉ dl → fst <$> out = output n →
  ∃ vs, put_output out (values st) = Some vs
    ∧ ∀ y, vs !! y = match out with
                     | Some (x, v) => if decide (y = x) then Some (MkStreamValue (if 0 <? rem [] x then Some v else None) (rem [] x) (rem [] x) 0)
                                      else values st !! y
                     | None => values st !! y
                     end.
Proof.
  intros Hsim Hn Hnd Hout. destruct out as [[x v]|]; [|by exists (values st)]. cbn in Hout.
  destruct (unproduced B dl e st n x Hsim Hn Hnd (eq_sym Hout)) as (He & Hr & Ho & _).
  destruct (sim_values _ _ _ _ Hsim x n Hn (eq_sym Hout)) as (sv & Hsv & Hc & Ht & Hb & Hv). rewrite decide_False in Ht by done.
  rewrite He in Hv. rewrite Hr in Hb. assert (val sv = None) as Hvn by (by destruct (_ || _)).
  cbn [put_output]. unfold update. rewrite Hsv. cbn [mbind option_bind]. unfold put. rewrite Hb, Hvn, Hc. cbn [Nat.eqb mbind option_bind].
  eexists. split; [done|]. intros y. destruct (decide (y = x)) as [->|Hne]; [|by rewrite lookup_insert_ne].
  rewrite lookup_insert_eq. f_equal. destruct (Nat.ltb_spec 0 (rem [] x)); [done|].
  destruct sv; cbn in *. f_equal; lia || done.
Qed.

Lemma count_delete (f : StreamId → list (StreamId * Arg V) → nat) r n args x :
  f x [] = 0 → n ∈ N → r !! n = Some args →
  sumf (λ m, f x (args_of r m)) (elements N) = sumf (λ m, f x (args_of (delete n r) m)) (elements N) + f x args.
Proof.
  intros Hnil Hn Hr. rewrite <- (count_update f (delete n r) n args x Hnil Hn) by apply lookup_delete_eq.
  by rewrite insert_delete_id.
Qed.

(** What becomes of a stream the node reads, or does not touch. *)
Lemma finish_value B dl e e' st n args p y sv :
  sim B dl e st → n ∈ N → n ∉ dl → running st !! n = Some args → p ≠ n → e' !! y = e !! y →
  (y ∈ inputs n → p ∈ dl) → value_ok dl e (running st) p y sv →
  value_ok (dl ++ [n]) e' (delete n (running st)) p y
    (let sv := with_borrows (borrows sv - refs y args) sv in
     if decide (y ∈ inputs n) then with_tokens (tokens sv - occ y (inputs n)) sv else sv).
Proof.
  intros Hsim Hn Hnd Hargs Hpn He Hin (Hc & Ht & Hb & Hv).
  destruct (sim_running _ _ _ _ Hsim n args Hargs) as (Hf & _ & Hown).
  pose proof (count_delete refs _ n args y eq_refl Hn Hargs) as Hrefs. fold (ref_count (running st) y) (ref_count (delete n (running st)) y) in Hrefs.
  pose proof (count_delete owns _ n args y eq_refl Hn Hargs) as Howns. fold (own_count (running st) y) (own_count (delete n (running st)) y) in Howns.
  pose proof (refs_owns y args) as Hro. rewrite Hf in Hro. pose proof (rem_snoc dl n y Hn Hnd) as Hrem.
  assert ((if decide (p ∈ dl ++ [n]) then rem (dl ++ [n]) y else 0) = (if decide (p ∈ dl) then rem (dl ++ [n]) y else 0)) as Hdec.
  { apply decide_ext. rewrite elem_of_app, list_elem_of_singleton. naive_solver. }
  unfold value_ok. rewrite Hdec, He. cbn zeta. destruct (decide (y ∈ inputs n)) as [Hy|Hy];
    cbn [consumers tokens borrows val with_borrows with_tokens].
  - pose proof (Hin Hy) as Hp. rewrite (decide_True (P := p ∈ dl)) in * by done. split_and!; [done|lia|lia|].
    rewrite Ht. replace (rem dl y - occ y (inputs n)) with (rem (dl ++ [n]) y) by lia.
    destruct (Nat.eqb_spec (rem (dl ++ [n]) y) 0) as [Hz|Hz]; [done|]. cbn [orb].
    assert (owns y args = 0) as Ho0.
    { destruct (owns y args) as [|j] eqn:Hj; [done|]. exfalso. destruct (proj1 (owns_pos y args)) as [v Hvv]; [lia|].
      specialize (Hown y v Hvv). pose proof (occ_pos y (inputs n) Hy). lia. }
    rewrite Hv, Howns, Ho0, Nat.add_0_r. destruct (Nat.eqb_spec (rem dl y) 0); [lia|]. done.
  - rewrite (occ_zero y (inputs n) Hy) in *. split_and!; [done|by rewrite Ht, Hrem, Nat.add_0_r|lia|].
    rewrite Hv, Howns. replace (owns y args) with 0 by lia. by rewrite Hrem, !Nat.add_0_r.
Qed.

Lemma produced_input B dl e st n y :
  sim B dl e st → n ∈ B → y ∈ inputs n →
  ∃ p sv, p ∈ N ∧ output p = Some y ∧ p ≠ n ∧ p ∈ dl ∧ values st !! y = Some sv ∧ value_ok dl e (running st) p y sv.
Proof.
  intros Hsim HnB Hy. assert (n ∈ N) as Hn by (apply (sim_nodes _ _ _ _ Hsim); by left).
  destruct (wf_producer _ _ _ _ Hwf n y Hn Hy) as (p & Hp & Hpy & HpE).
  assert (p ∈ dl) as Hpd by (apply (sim_closed _ _ _ _ Hsim n); [by left|done]).
  destruct (sim_values _ _ _ _ Hsim y p Hp Hpy) as (sv & Hsv & Hok). exists p, sv. split_and!; try done.
  intros ->. by apply (sim_disjoint _ _ _ _ Hsim n).
Qed.

(** The last reader of a stream is alone. *)
Lemma last_reader B dl e st n y :
  sim B dl e st → n ∈ B → rem dl y = occ y (inputs n) → ref_count (delete n (running st)) y = 0.
Proof.
  intros Hsim HnB Heq. assert (n ∈ N) as Hn by (apply (sim_nodes _ _ _ _ Hsim); by left).
  unfold ref_count. destruct (sumf _ _) as [|j] eqn:Hj; [done|]. exfalso.
  destruct (sumf_pos (λ m, refs y (args_of (delete n (running st)) m)) (elements N)) as (m & Hm & Hpos); [lia|].
  unfold args_of in Hpos. destruct (decide (m = n)) as [->|Hmn]; [rewrite lookup_delete_eq in Hpos; cbn in Hpos; lia|].
  rewrite lookup_delete_ne in Hpos by done.
  destruct (args_reader B dl e st m y Hsim) as (HmB & HmN & Hmd & Hmo); [unfold args_of; lia|].
  pose proof (rem_two dl n m y Hn HmN (not_eq_sym Hmn) (sim_disjoint _ _ _ _ Hsim n HnB) Hmd). lia.
Qed.

(** The values a node leaves behind: a stream of its own, and those of other nodes. *)
Definition fresh_value (x : StreamId) (v : V) : StreamValue V :=
  MkStreamValue (if 0 <? rem [] x then Some v else None) (rem [] x) (rem [] x) 0.
Definition used_value (n : NodeId) (args : list (StreamId * Arg V)) (y : StreamId) (sv : StreamValue V) : StreamValue V :=
  let sv := with_borrows (borrows sv - refs y args) sv in
  if decide (y ∈ inputs n) then with_tokens (tokens sv - occ y (inputs n)) sv else sv.

Lemma finish_values B dl e st n args out :
  sim B dl e st → n ∈ B → running st !! n = Some args → fst <$> out = output n →
  ∃ vs1 vs2 vs3, put_output out (values st) = Some vs1 ∧ release_all args vs1 = Some vs2 ∧ consume_all (fst <$> args) vs2 = Some vs3
    ∧ (∀ x v, out = Some (x, v) → vs3 !! x = Some (fresh_value x v))
    ∧ (∀ y p, p ∈ N → p ≠ n → output p = Some y → vs3 !! y = used_value n args y <$> values st !! y).
Proof.
  intros Hsim HnB Hargs Hout. assert (n ∈ N) as Hn by (apply (sim_nodes _ _ _ _ Hsim); by left).
  pose proof (sim_disjoint _ _ _ _ Hsim n HnB) as Hnd.
  destruct (sim_running _ _ _ _ Hsim n args Hargs) as (Hf & _ & _).
  destruct (put_output_ok B dl e st n out Hsim Hn Hnd Hout) as (vs1 & Hput & Hvs1).
  assert (∀ y p, p ∈ N → output p = Some y → p ≠ n → vs1 !! y = values st !! y) as Hsame.
  { intros y p Hp Hpy Hpn. rewrite Hvs1. destruct out as [[x v]|]; [|done]. cbn in Hout.
    rewrite decide_False; [done|]. intros ->. by apply Hpn, (wf_output _ _ _ _ Hwf p n x). }
  assert (∀ y, y ∉ inputs n → refs y args = 0) as Hr0.
  { intros y Hy%occ_zero. pose proof (refs_owns y args) as Hro. rewrite Hf in Hro. lia. }
  destruct (release_all_spec args vs1) as (vs2 & Hrel & Hvs2).
  { intros y Hpos. destruct (decide (y ∈ inputs n)) as [Hy|Hy]; [|rewrite Hr0 in Hpos by done; lia].
    destruct (produced_input B dl e st n y Hsim HnB Hy) as (p & sv & Hp & Hpy & Hpn & Hpd & Hsv & Hok).
    exists sv. rewrite (Hsame y p Hp Hpy Hpn). split; [done|]. destruct Hok as (_ & _ & -> & _). unfold ref_count.
    rewrite (count_delete refs _ n args y eq_refl Hn Hargs). lia. }
  destruct (consume_all_spec (fst <$> args) vs2) as (vs3 & Hcon & Hvs3).
  { rewrite Hf. intros y Hy. destruct (produced_input B dl e st n y Hsim HnB Hy) as (p & sv & Hp & Hpy & Hpn & Hpd & Hsv & Hok).
    rewrite Hvs2, (Hsame y p Hp Hpy Hpn), Hsv. eexists. split; [done|]. cbn.
    destruct Hok as (_ & Ht & Hb & _). rewrite decide_True in Ht by done. rewrite Ht, Hb. split; [by apply rem_ge|].
    intros Heq. unfold ref_count. rewrite (count_delete refs _ n args y eq_refl Hn Hargs).
    fold (ref_count (delete n (running st)) y). rewrite (last_reader B dl e st n y) by done. lia. }
  exists vs1, vs2, vs3. split_and!; [done..| |].
  - intros x v ->. cbn in Hout. destruct (unproduced B dl e st n x Hsim Hn Hnd (eq_sym Hout)) as (_ & _ & _ & _ & Hocc).
    assert (x ∉ inputs n) as Hxi. { intros Hin%occ_pos. rewrite Hocc in Hin by done. lia. }
    rewrite Hvs3, Hf, Hvs2, Hvs1, decide_True by done. cbn. by rewrite decide_False, Hr0.
  - intros y p Hp Hpn Hpy. rewrite Hvs3, Hf, Hvs2, (Hsame y p Hp Hpy Hpn). by destruct (values st !! y).
Qed.

Lemma fresh_ok B dl e e' st n x v :
  sim B dl e st → n ∈ B → running st !! n ≠ None → output n = Some x → e' !! x = Some v →
  value_ok (dl ++ [n]) e' (delete n (running st)) n x (fresh_value x v).
Proof.
  intros Hsim HnB Hr Hx He. assert (n ∈ N) as Hn by (apply (sim_nodes _ _ _ _ Hsim); by left).
  pose proof (sim_disjoint _ _ _ _ Hsim n HnB) as Hnd.
  destruct (unproduced B dl e st n x Hsim Hn Hnd Hx) as (_ & Hrc & Hoc & Hrem & Hocc).
  destruct (running st !! n) as [args|] eqn:Hargs; [|done].
  pose proof (count_delete refs _ n args x eq_refl Hn Hargs) as Hrefs. fold (ref_count (running st) x) (ref_count (delete n (running st)) x) in Hrefs.
  pose proof (count_delete owns _ n args x eq_refl Hn Hargs) as Howns. fold (own_count (running st) x) (own_count (delete n (running st)) x) in Howns.
  pose proof (rem_snoc dl n x Hn Hnd) as Hs. rewrite (Hocc HnB), Nat.add_0_r in Hs. unfold value_ok, fresh_value.
  rewrite decide_True by (apply elem_of_app; right; by left). cbn [consumers tokens borrows val]. rewrite <- Hs, Hrem.
  split_and!; [done|done|lia|]. replace (own_count (delete n (running st)) x) with 0 by lia. rewrite orb_false_r.
  destruct (rem [] x); [done|]. by rewrite He.
Qed.

Lemma finish_sim B dl e st n :
  sim B dl e st → n ∈ B → ∃ e' st', finish_eval ns n st = Some st' ∧ sim (B ∖ {[n]}) (dl ++ [n]) e' st'.
Proof.
  intros Hsim HnB. assert (n ∈ N) as Hn by (apply (sim_nodes _ _ _ _ Hsim); by left).
  pose proof (sim_disjoint _ _ _ _ Hsim n HnB) as Hnd.
  destruct (wf_node _ _ _ _ Hwf n Hn) as (node & Hnode & _ & _).
  assert (∃ args, running st !! n = Some args) as [args Hargs] by (apply elem_of_dom; by rewrite (sim_dom _ _ _ _ Hsim)).
  destruct (finish_call B dl e st n node args Hsim Hn Hnode Hargs) as (s & s' & out & Hs & Hc & Hpr & Hout).
  destruct (finish_values B dl e st n args out Hsim HnB Hargs Hout) as (vs1 & vs2 & vs3 & Hput & Hrel & Hcon & Hfresh & Hused).
  set (e' := match out with Some (x, v) => <[x := v]> e | None => e end).
  assert (∀ x, output n = Some x → e !! x = None) as Hen by (intros x Hx; by destruct (unproduced B dl e st n x Hsim Hn Hnd Hx)).
  assert (∀ y, output n ≠ Some y → e' !! y = e !! y) as He'.
  { intros y Hy. unfold e'. destruct out as [[x v]|]; [|done]. cbn in Hout. rewrite lookup_insert_ne; congruence. }
  exists e', (MkState (<[node_op node := s']> (ops st)) vs3 (delete n (running st))). split.
  { unfold finish_eval. rewrite Hnode. cbn [mbind option_bind]. rewrite Hargs. cbn [mbind option_bind]. rewrite Hs. cbn [mbind option_bind].
    rewrite Hc. cbn [mbind option_bind]. rewrite Hput. cbn [mbind option_bind]. rewrite Hrel. cbn [mbind option_bind]. by rewrite Hcon. }
  pose proof Hsim as Hsim'. destruct Hsim. split; cbn [ops values running].
  - unfold CircuitSpec.pure_run in *. rewrite foldM_app, sim_pure0. cbn [mbind option_bind foldM]. unfold pure_step. by rewrite Hpr.
  - by rewrite length_insert.
  - intros y. setoid_rewrite elem_of_app. setoid_rewrite list_elem_of_singleton. destruct (decide (output n = Some y)) as [Hy|Hy].
    + split; [intros _; exists n; by split; [right|]|]. intros _. unfold e'. destruct out as [[x v]|]; cbn in Hout; [|congruence].
      assert (x = y) as -> by congruence. by rewrite lookup_insert_eq.
    + rewrite He', sim_env0 by done. naive_solver.
  - apply NoDup_app. split_and!; [done| |apply NoDup_singleton]. intros m Hm Hmn. apply list_elem_of_singleton in Hmn. by subst.
  - apply topo_snoc; [done|]. intros p. apply (sim_closed0 n p). by left.
  - intros m [[Hm _]%elem_of_difference|[Hm| ->%list_elem_of_singleton]%elem_of_app]; auto.
  - intros m [Hm Hmn]%elem_of_difference. rewrite elem_of_app, list_elem_of_singleton. intros [Hd| ->]; [by eapply sim_disjoint0|set_solver].
  - intros m p Hm HpE. apply elem_of_app. left. apply (sim_closed0 m); [|done].
    destruct Hm as [[Hm _]%elem_of_difference|[Hm| ->%list_elem_of_singleton]%elem_of_app]; auto.
  - by rewrite dom_delete_L, sim_dom0.
  - intros m args' Hm. destruct (decide (m = n)) as [->|Hmn]; [by rewrite lookup_delete_eq in Hm|].
    rewrite lookup_delete_ne in Hm by done. destruct (sim_running0 m args' Hm) as (Hf & Hv & Ho). split_and!; [done| |].
    + intros y a Hy. rewrite He'; [by apply Hv|]. intros Hyn. specialize (Hv y a Hy). by rewrite (Hen y Hyn) in Hv.
    + intros y v Hy. pose proof (Ho y v Hy) as H1.
      assert (0 < owns y (args_of (running st) m)) as Hpos by (unfold args_of; rewrite Hm; cbn; apply owns_pos; by exists v).
      destruct (args_reader B dl e st m y Hsim') as (HmB & HmN & Hmd & Hmo); [lia|].
      pose proof (rem_two dl n m y Hn HmN (not_eq_sym Hmn) Hnd Hmd). pose proof (rem_snoc dl n y Hn Hnd). lia.
  - intros y p Hp Hpy. destruct (decide (p = n)) as [->|Hpn].
    + destruct out as [[x v]|]; cbn in Hout; [|congruence]. assert (x = y) as -> by congruence. exists (fresh_value y v).
      split; [by apply Hfresh|]. apply (fresh_ok B dl e); try done; [by rewrite Hargs|]. unfold e'. by rewrite lookup_insert_eq.
    + destruct (sim_values0 y p Hp Hpy) as (sv & Hsv & Hok). exists (used_value n args y sv). split; [by rewrite (Hused y p), Hsv|].
      apply (finish_value B dl e); try done.
      * apply He'. intros Hy. by apply Hpn, (wf_output _ _ _ _ Hwf p n y).
      * intros Hy. destruct (produced_input B dl e st n y Hsim' HnB Hy) as (q & _ & Hq & Hqy & _ & Hqd & _).
        by rewrite (wf_output _ _ _ _ Hwf p q y).
Qed.

(** ** Runs *)

(** Between steps: nothing is under evaluation, and the streams are empty and know their consumers. *)
Definition clean (st : State V S) : Prop :=
  running st = ∅ ∧ ∀ x p, p ∈ N → output p = Some x → values st !! x = Some (MkStreamValue None (rem [] x) 0 0).

(** The evaluations respect the graph: [B] are under way and [D] are over. *)
Fixpoint legal (B D : gset NodeId) (l : list Action) : Prop :=
  match l with
  | [] => True
  | Begin n :: l => n ∈ N ∧ n ∉ B ∧ n ∉ D ∧ (∀ p, (p, n) ∈ E → p ∈ D) ∧ legal ({[n]} ∪ B) D l
  | Finish n :: l => n ∈ B ∧ legal (B ∖ {[n]}) ({[n]} ∪ D) l
  end.

Definition finished (l : list Action) : list NodeId := omap (λ a, match a with Finish n => Some n | Begin _ => None end) l.

Lemma clean_sim st : ops st = ops0 → clean st → sim ∅ [] ∅ st.
Proof.
  intros Ho [Hr Hv].
  assert (∀ x, ref_count (running st) x = 0 ∧ own_count (running st) x = 0) as Hcnt.
  { intros x. unfold ref_count, own_count, args_of. rewrite Hr. split; induction (elements N) as [|m l IH]; done. }
  split.
  - cbn. by rewrite Ho.
  - by rewrite Ho.
  - intros x. rewrite lookup_empty. split; [done|]. by intros (n & Hn%elem_of_nil & _).
  - apply NoDup_nil_2.
  - intros l1 n l2 Heq. by destruct l1.
  - intros n [Hn%not_elem_of_empty|Hn%elem_of_nil]; done.
  - intros n Hn%not_elem_of_empty. done.
  - intros n p [Hn%not_elem_of_empty|Hn%elem_of_nil]; done.
  - by rewrite Hr, dom_empty_L.
  - intros n args. by rewrite Hr, lookup_empty.
  - intros x p Hp Hx. eexists. split; [by apply (Hv x p)|]. destruct (Hcnt x) as [H1 H2]. unfold value_ok. cbn [consumers tokens borrows val].
    rewrite H1, H2, lookup_empty, (decide_False (P := p ∈ [])) by apply not_elem_of_nil. split_and!; try done. by destruct (_ || _).
Qed.

Lemma run_sim acts : ∀ B D dl e st,
  sim B dl e st → (∀ n, n ∈ D ↔ n ∈ dl) → legal B D acts →
  ∃ B' e' st', run ns st acts = Some st' ∧ sim B' (dl ++ finished acts) e' st'.
Proof.
  induction acts as [|[n|n] acts IH]; intros B D dl e st Hsim HD Hl; unfold run; cbn [foldM act legal] in *.
  - exists B, e, st. by rewrite app_nil_r.
  - destruct Hl as (Hn & HnB & HnD & Hp & Hl).
    destruct (begin_sim B dl e st n Hsim Hn HnB) as (st1 & Hst1 & Hsim1); [by rewrite <- HD|intros p HpE; by apply HD, Hp|].
    rewrite Hst1. cbn [mbind option_bind]. exact (IH ({[n]} ∪ B) D dl e st1 Hsim1 HD Hl).
  - destruct Hl as (HnB & Hl). destruct (finish_sim B dl e st n Hsim HnB) as (e1 & st1 & Hst1 & Hsim1).
    rewrite Hst1. cbn [mbind option_bind]. destruct (IH _ ({[n]} ∪ D) (dl ++ [n]) e1 st1 Hsim1) as (B' & e' & st' & Hrun & Hs).
    + intros m. rewrite elem_of_union, elem_of_singleton, elem_of_app, list_elem_of_singleton, HD. tauto.
    + done.
    + exists B', e', st'. split; [done|]. cbn [finished omap list_omap]. by rewrite <- app_assoc in Hs.
Qed.

(** At the end the streams are empty again. *)
Lemma sim_clean B dl e st : sim B dl e st → dl ≡ₚ elements N → clean st.
Proof.
  intros Hsim Hp. assert (∀ n, n ∈ N → n ∈ dl) as Hall by (intros n Hn; by rewrite Hp, elem_of_elements).
  assert (running st = ∅) as Hr.
  { apply map_empty. intros n. destruct (running st !! n) as [args|] eqn:Hr; [|done]. exfalso.
    assert (n ∈ B) as HnB by (rewrite <- (sim_dom _ _ _ _ Hsim); by eapply elem_of_dom_2).
    apply (sim_disjoint _ _ _ _ Hsim n HnB), Hall, (sim_nodes _ _ _ _ Hsim). by left. }
  assert (∀ x, rem dl x = 0) as Hrem.
  { intros x. unfold rem. rewrite (sumf_ext _ (λ _, 0)); [clear; by induction (elements N)|].
    intros n Hn%elem_of_elements. by rewrite decide_True by auto. }
  assert (∀ x, ref_count (running st) x = 0) as Href.
  { intros x. unfold ref_count, args_of. rewrite Hr. clear. by induction (elements N). }
  split; [done|]. intros x p HpN Hx. destruct (sim_values _ _ _ _ Hsim x p HpN Hx) as (sv & Hsv & Hc & Ht & Hb & Hv).
  rewrite decide_True, Hrem in Ht by auto. rewrite Hrem in Hv. rewrite Href in Hb. rewrite Hsv. destruct sv. cbn in *. by subst.
Qed.

(** One evaluation after the other. *)
Definition one_by_one (l : list NodeId) : list Action := mjoin ((λ n, [Begin n; Finish n]) <$> l).

Lemma finished_one_by_one l : finished (one_by_one l) = l.
Proof. induction l as [|n l IH]; [done|]. cbn. f_equal. apply IH. Qed.

Lemma legal_one_by_one D l1 l2 :
  topo (l1 ++ l2) → NoDup (l1 ++ l2) → (∀ n, n ∈ l2 → n ∈ N) → (∀ n, n ∈ D ↔ n ∈ l1) → legal ∅ D (one_by_one l2).
Proof.
  clear Hwf ops0 ns.
  revert l1 D. induction l2 as [|n l2 IH]; intros l1 D Ht Hnd HN HD; [done|]. cbn [one_by_one fmap list_fmap mjoin list_join app legal].
  assert (n ∉ l1) as Hnl by (apply NoDup_app in Hnd as (_ & Hd & _); intros Hin; apply (Hd n Hin); by left).
  split_and!.
  - apply HN. by left.
  - apply not_elem_of_empty.
  - by rewrite HD.
  - intros p HpE. apply HD. by eapply Ht.
  - set_solver.
  - replace (({[n]} ∪ ∅) ∖ {[n]} : gset NodeId) with (∅ : gset NodeId) by set_solver.
    apply (IH (l1 ++ [n])); rewrite <- ?app_assoc; try done; [intros m Hm; apply HN; by right|].
    intros m. rewrite elem_of_union, elem_of_singleton, elem_of_app, list_elem_of_singleton, HD. tauto.
Qed.

Lemma circuit_eval_deterministic_core st0 order :
  ops st0 = ops0 → clean st0 → order ≡ₚ elements N → topo order →
  ∃ opsT e, pure_run (ops0, ∅) order = Some (opsT, e)
    ∧ ∀ acts, legal ∅ ∅ acts → ∃ st', run ns st0 acts = Some st' ∧ (finished acts ≡ₚ elements N → ops st' = opsT ∧ clean st').
Proof.
  intros Ho Hc Hp Ht. pose proof (clean_sim st0 Ho Hc) as Hsim.
  assert (NoDup order) as Hnd by (rewrite Hp; apply NoDup_elements).
  assert (∀ n : NodeId, n ∈ (∅ : gset NodeId) ↔ n ∈ []) as Hnil by (intros n; set_solver).
  assert (∀ n, n ∈ order → n ∈ N) as HN by (intros n; by rewrite Hp, elem_of_elements).
  destruct (run_sim (one_by_one order) ∅ ∅ [] ∅ st0 Hsim Hnil) as (B & e & stT & Hrun & HsimT); [by apply (legal_one_by_one ∅ [])|].
  rewrite finished_one_by_one in HsimT. cbn [app] in HsimT. exists (ops stT), e. split; [apply HsimT|].
  intros acts Hl. destruct (run_sim acts ∅ ∅ [] ∅ st0 Hsim Hnil Hl) as (B' & e' & st' & Hrun' & Hsim'). cbn [app] in Hsim'.
  exists st'. split; [done|]. intros Hp'. split; [|by eapply sim_clean].
  assert (pure_run (ops0, ∅) order = pure_run (ops0, ∅) (finished acts)) as Heq.
  { apply (pure_run_ordered ns E N _ Hwf); [by rewrite Hp, Hp'|done|done|by apply topo_ordered|]. apply topo_ordered; apply Hsim'. }
  rewrite (sim_pure _ _ _ _ HsimT), (sim_pure _ _ _ _ Hsim') in Heq. congruence.
Qed.

(** C12. Whatever overlap of evaluations respects the graph of a well-formed circuit, every evaluation finds
    its inputs, borrows and counts consistently and never panics, and when all nodes have been evaluated the
    operators are in the states of evaluating the nodes one after the other in any order of the graph, and
    the streams are empty again: the result of a step does not depend on its schedule. *)
Theorem circuit_eval_deterministic st0 order :
  ops st0 = ops0 → clean st0 → order ≡ₚ elements N → topo order →
  ∃ opsT e, pure_run (ops0, ∅) order = Some (opsT, e)
    ∧ ∀ acts, legal ∅ ∅ acts → ∃ st', run ns st0 acts = Some st' ∧ (finished acts ≡ₚ elements N → ops st' = opsT ∧ clean st').
Proof. apply circuit_eval_deterministic_core. Qed.

(** ** Ownership *)

Lemma legal_prefix acts n : ∀ B D dl e st,
  sim B dl e st → (∀ m, m ∈ D ↔ m ∈ dl) → legal B D (acts ++ [Begin n]) →
  ∃ B' dl' e' st', run ns st acts = Some st' ∧ sim B' dl' e' st' ∧ n ∈ N ∧ n ∉ B' ∧ n ∉ dl' ∧ (∀ p, (p, n) ∈ E → p ∈ dl').
Proof.
  induction acts as [|[m|m] acts IH]; intros B D dl e st Hsim HD Hl; unfold run; cbn [foldM act legal app] in *.
  - destruct Hl as (Hn & HnB & HnD & Hp & _). exists B, dl, e, st. rewrite <- HD. split_and!; try done. intros p HpE. by apply HD, Hp.
  - destruct Hl as (Hm & HmB & HmD & Hp & Hl).
    destruct (begin_sim B dl e st m Hsim Hm HmB) as (st1 & Hst1 & Hsim1); [by rewrite <- HD|intros p HpE; by apply HD, Hp|].
    rewrite Hst1. cbn [mbind option_bind]. exact (IH ({[m]} ∪ B) D dl e st1 Hsim1 HD Hl).
  - destruct Hl as (HmB & Hl). destruct (finish_sim B dl e st m Hsim HmB) as (e1 & st1 & Hst1 & Hsim1).
    rewrite Hst1. cbn [mbind option_bind]. apply (IH _ ({[m]} ∪ D) (dl ++ [m]) e1 st1 Hsim1); [|done].
    intros q. rewrite elem_of_union, elem_of_singleton, elem_of_app, list_elem_of_singleton, HD. tauto.
Qed.

Lemma last_rem dl n x : n ∈ N → n ∉ dl → (∀ m, m ∈ N → m ≠ n → x ∈ inputs m → m ∈ dl) → rem dl x = occ x (inputs n).
Proof.
  intros Hn Hnd Hothers. rewrite (rem_snoc dl n x Hn Hnd).
  assert (rem (dl ++ [n]) x = 0) as ->; [|done].
  unfold rem. rewrite (sumf_ext _ (λ _, 0)); [clear; by induction (elements N)|].
  intros m Hm%elem_of_elements. case_decide as Hd; [done|]. rewrite elem_of_app, list_elem_of_singleton in Hd.
  apply occ_zero. intros Hx. apply Hd. destruct (decide (m = n)); [by right|left; by apply Hothers].
Qed.

(** The single inputs of a node that reads by value when it can. *)
Definition single_input (n : Node) : option StreamId :=
  match n with UnaryNode _ i _ | SinkNode _ i | FeedbackInputNode _ i => Some (stream_id i) | _ => None end.

(** C21. Whatever overlap of evaluations respects the graph, a node with one input that all other readers of
    the stream precede, as the scheduler arranges for the consumer with a strong preference, gets the value
    of the stream and not a reference to it. *)
Theorem circuit_strong_owner st0 acts n node x :
  ops st0 = ops0 → clean st0 → legal ∅ ∅ (acts ++ [Begin n]) →
  ns !! n = Some node → single_input node = Some x → (∀ m, m ∈ N → m ≠ n → x ∈ inputs m → (m, n) ∈ E) →
  ∃ st' v, run ns st0 (acts ++ [Begin n]) = Some st' ∧ running st' !! n = Some [(x, Owned v)].
Proof.
  intros Ho Hc Hl Hnode Hx Hothers.
  assert (∀ n : NodeId, n ∈ (∅ : gset NodeId) ↔ n ∈ []) as Hnil by (intros m; set_solver).
  destruct (legal_prefix acts n ∅ ∅ [] ∅ st0 (clean_sim st0 Ho Hc) Hnil Hl) as (B & dl & e & st & Hrun & Hsim & Hn & HnB & Hnd & Hp).
  destruct (begin_sim B dl e st n Hsim Hn HnB Hnd Hp) as (st' & Hst' & Hsim').
  assert (inputs n = [x] ∧ read_inputs node (values st) = take_or_peek [x] (values st)) as [Hin Hread].
  { unfold CircuitSpec.inputs. rewrite Hnode. destruct node; simplify_eq/=; done. }
  assert (x ∈ inputs n) as Hxi by (rewrite Hin; by left).
  destruct (wf_producer _ _ _ _ Hwf n x Hn Hxi) as (p & HpN & Hpx & HpE).
  destruct (sim_values _ _ _ _ Hsim x p HpN Hpx) as (sv & Hsv & Hval). pose proof Hval as (_ & Ht & _).
  rewrite decide_True, (last_rem dl n x Hn Hnd), Hin, occ_cons, decide_True in Ht by (auto || (intros m Hm Hne Hmx; by apply Hp, Hothers)).
  assert (∃ v, running st' !! n = Some [(x, Owned v)]) as [v Hv].
  { unfold begin_eval in Hst'. rewrite Hnode in Hst'. cbn [mbind option_bind] in Hst'. rewrite Hread in Hst'.
    unfold take_or_peek in Hst'. cbn [take_all] in Hst'. rewrite Hsv in Hst'. cbn [mbind option_bind] in Hst'. unfold take in Hst'. rewrite Ht in Hst'.
    destruct (borrows sv =? 0); [|done]. destruct (val sv) as [v|]; [|done]. cbn in Hst'. injection Hst' as <-.
    exists v. cbn. by rewrite lookup_insert_eq. }
  exists st', v. split; [|done]. unfold run in *. rewrite foldM_app, Hrun. cbn [mbind option_bind foldM act]. by rewrite Hst'.
Qed.
End run.
