(* ===== verification/CircuitTheorems.v ===== *)
(** Circuits that are built are well-formed, and a step of the scheduler evaluates them: the composition of
    the builder, the evaluation of nodes and the dynamic scheduler. *)
From stdpp Require Import gmap.
From S2P Require Import Prelude Scheduler SchedulerSpec SchedulerTheorems SchedulerPrepare CircuitBuilder CircuitSpec CircuitRun.
#[local] Open Scope nat_scope.

(** ** Built circuits *)

Section built.
Context {V S : Type} `{Operator V S}.

Definition node_stream (n : Node) : option Stream :=
  match n with
  | SourceNode _ o | UnaryNode _ _ o | BinaryNode _ _ _ o _ | TernaryNode _ _ _ _ o | QuaternaryNode _ _ _ _ _ o
  | NaryNode _ _ o | FeedbackOutputNode _ o => Some o
  | SinkNode _ _ | BinarySinkNode _ _ _ _ | FeedbackInputNode _ _ => None
  end.

(** The stream is the output of a node of the circuit. *)
Definition in_circuit (c : ChildCircuit S) (i : Stream) : Prop :=
  ∃ node, nodes c !! local_node_id i = Some node ∧ node_stream node = Some i.

(** The feedback has an output and no input yet. *)
Definition open_feedback (c : ChildCircuit S) (k : FeedbackConnector) : Prop :=
  (∃ o, nodes c !! output_node_id k = Some (FeedbackOutputNode (connector_operator k) o))
  ∧ ∀ (n : NodeId) node, nodes c !! n = Some node → node_op node = connector_operator k → n = output_node_id k.

(** The circuits one can build, with the streams of the circuit as inputs and each feedback connected once. *)
Inductive built : ChildCircuit S → Prop :=
| built_new id : built (new_circuit id)
| built_source c s : built c → built (fst (add_source s c))
| built_sink c s i p : built c → in_circuit c i → built (fst (add_sink_with_preference s i p c))
| built_exchange c s r i p : built c → in_circuit c i → built (fst (add_exchange_with_preference s r i p c))
| built_binary_sink c s i1 i2 : built c → in_circuit c (fst i1) → in_circuit c (fst i2) →
    built (fst (add_binary_sink_with_preference s i1 i2 c))
| built_unary c s i p : built c → in_circuit c i → built (fst (add_unary_operator_with_preference s i p c))
| built_binary c s i1 i2 : built c → in_circuit c (fst i1) → in_circuit c (fst i2) →
    built (fst (add_binary_operator_with_preference s i1 i2 c))
| built_ternary c s i1 i2 i3 : built c → in_circuit c (fst i1) → in_circuit c (fst i2) → in_circuit c (fst i3) →
    built (fst (add_ternary_operator_with_preference s i1 i2 i3 c))
| built_quaternary c s i1 i2 i3 i4 : built c → in_circuit c (fst i1) → in_circuit c (fst i2) → in_circuit c (fst i3) →
    in_circuit c (fst i4) → built (fst (add_quaternary_operator_with_preference s i1 i2 i3 i4 c))
| built_nary c s l p : built c → (∀ i, i ∈ l → in_circuit c i) → built (fst (add_nary_operator_with_preference s l p c))
| built_feedback c s : built c → built (fst (add_feedback s c))
| built_connect c k i p : built c → in_circuit c i → open_feedback c k →
    built (fst (connect_feedback_with_preference k i p c)).

(** The edges into node [n] that carry stream [x]. *)
Definition edge_count (es : list Edge) (x : StreamId) (n : NodeId) : nat :=
  length (filter (λ e, stream e = Some x ∧ to e = n) es).

Record built_ok (c : ChildCircuit S) : Prop := {
  bo_node : ∀ (n : NodeId) node, nodes c !! n = Some node → node_wf node ∧ node_op node < length (operators c)
    ∧ (∀ o, node_stream node = Some o → local_node_id o = n ∧ stream_id o ≤ last_stream_id c)
    ∧ (∀ x, x ∈ node_inputs node → ∃ (p : NodeId) pnode, nodes c !! p = Some pnode ∧ node_output pnode = Some x
                                             ∧ ∃ e, e ∈ circuit_edges c ∧ from e = p ∧ to e = n);
  bo_output : ∀ n m x, output (nodes c) n = Some x → output (nodes c) m = Some x → n = m;
  bo_op : ∀ n m, n < length (nodes c) → n ≠ m → op_of (nodes c) n = op_of (nodes c) m →
    ∃ e, e ∈ circuit_edges c ∧ ((from e = n ∧ to e = m) ∨ (from e = m ∧ to e = n));
  bo_edge : ∀ e, e ∈ circuit_edges c → from e < to e ∧ to e < length (nodes c);
  bo_count : ∀ n x, edge_count (circuit_edges c) x n = occ x (inputs (nodes c) n) }.

Lemma node_output_stream n : node_output n = stream_id <$> node_stream n.
Proof. by destruct n. Qed.

(** The edges that a new node with the given inputs and dependencies brings. *)
Definition stream_edges (n : NodeId) (ins : list (Stream * nat)) : list Edge :=
  (λ i, MkEdge (local_node_id (fst i)) n (origin_node_id (fst i)) (Some (stream_id (fst i))) (Some (snd i))) <$> ins.
Definition dependency_edges (c : ChildCircuit S) (n : NodeId) (deps : list NodeId) : list Edge :=
  (λ d, MkEdge d n (global_node_id c ++ [d]) None None) <$> deps.

Lemma edge_count_app l1 l2 x n : edge_count (l1 ++ l2) x n = edge_count l1 x n + edge_count l2 x n.
Proof. unfold edge_count. by rewrite filter_app, length_app. Qed.

Lemma edge_count_zero es x n : (∀ e, e ∈ es → to e ≠ n ∨ stream e = None) → edge_count es x n = 0.
Proof.
  intros Hes. unfold edge_count. apply length_zero_iff_nil. induction es as [|e es IH]; [done|]. rewrite filter_cons.
  rewrite decide_False; [apply IH; intros e' He'; apply Hes; by right|]. destruct (Hes e) as [|He]; [by left|naive_solver|]. intros []. congruence.
Qed.

Lemma edge_count_inputs n ins x : edge_count (stream_edges n ins) x n = occ x (stream_id ∘ fst <$> ins).
Proof.
  unfold edge_count, stream_edges. induction ins as [|i ins IH]; [done|]. rewrite !fmap_cons, occ_cons, filter_cons. cbn [stream to].
  change ((stream_id ∘ fst) i) with (stream_id (fst i)). rewrite <- IH. repeat case_decide; cbn [length]; naive_solver.
Qed.

Lemma lookup_snoc_cases {A} (l : list A) x n y : (l ++ [x]) !! n = Some y → l !! n = Some y ∨ (n = length l ∧ y = x).
Proof.
  intros Hn. destruct (decide (n < length l)) as [Hlt|Hge]; [left; by rewrite lookup_app_l in Hn|right].
  rewrite lookup_app_r in Hn by lia. destruct (n - length l) as [|j] eqn:Hj; [|by destruct j]. cbn in Hn. split; [lia|congruence].
Qed.

Lemma inputs_old l x n : n < length l → inputs (l ++ [x]) n = inputs l n.
Proof. intros Hn. unfold inputs. by rewrite lookup_app_l. Qed.

Lemma inputs_new l x : inputs (l ++ [x]) (length l) = node_inputs x.
Proof. unfold inputs. by rewrite lookup_app_r, Nat.sub_diag by lia. Qed.

Lemma inputs_beyond l n : length l ≤ n → inputs l n = [].
Proof. intros Hn. unfold inputs. by rewrite lookup_ge_None_2. Qed.

(** Adding a node with its edges keeps a circuit well-formed. *)
Section extend.
Context (c c' : ChildCircuit S) (node : Node) (ins : list (Stream * nat)) (deps : list NodeId).
Let n := length (nodes c).
Context (Hok : built_ok c) (Hnodes : nodes c' = nodes c ++ [node]).
Context (Hedges : circuit_edges c' = circuit_edges c ++ stream_edges n ins ++ dependency_edges c n deps).
Context (Hins : node_inputs node = stream_id ∘ fst <$> ins) (Hnw : node_wf node).
Context (Hin : ∀ i, i ∈ ins → in_circuit c (fst i)) (Hdeps : ∀ d, d ∈ deps → d < n).
Context (Hops : length (operators c) ≤ length (operators c')) (Hop : node_op node < length (operators c')).
Context (Hshare : ∀ (m : NodeId) mnode, nodes c !! m = Some mnode → node_op mnode = node_op node → m ∈ deps).
Context (Hlast : last_stream_id c ≤ last_stream_id c').
Context (Hout : ∀ o, node_stream node = Some o → local_node_id o = n ∧ last_stream_id c < stream_id o ∧ stream_id o ≤ last_stream_id c').

Lemma new_edges e :
  e ∈ stream_edges n ins ++ dependency_edges c n deps → to e = n ∧ from e < n.
Proof.
  rewrite elem_of_app. intros [He|He]; apply list_elem_of_fmap in He as (i & -> & Hi); cbn.
  - split; [done|]. destruct (Hin i Hi) as (pnode & Hp & _). by apply lookup_lt_Some in Hp.
  - auto.
Qed.

Lemma old_or_new (m : NodeId) mnode : nodes c' !! m = Some mnode → nodes c !! m = Some mnode ∨ (m = n ∧ mnode = node).
Proof. rewrite Hnodes. apply lookup_snoc_cases. Qed.

Lemma output_cases m x :
  output (nodes c') m = Some x →
  (output (nodes c) m = Some x ∧ x ≤ last_stream_id c) ∨ (m = n ∧ last_stream_id c < x).
Proof.
  unfold output at 1. destruct (nodes c' !! m) as [mnode|] eqn:Hm; [|done]. cbn [mbind option_bind]. rewrite node_output_stream.
  intros Hx. destruct (node_stream mnode) as [o|] eqn:Ho; [|done]. cbn in Hx. injection Hx as <-.
  destruct (old_or_new m mnode Hm) as [Hm'|[-> ->]].
  - left. unfold output. rewrite Hm'. cbn [mbind option_bind]. rewrite node_output_stream, Ho. split; [done|].
    destruct (bo_node c Hok m mnode Hm') as (_ & _ & Hs & _). by destruct (Hs o Ho).
  - right. split; [done|]. by destruct (Hout o Ho) as (_ & ? & _).
Qed.

Lemma extend_node (m : NodeId) mnode :
  nodes c' !! m = Some mnode → node_wf mnode ∧ node_op mnode < length (operators c')
    ∧ (∀ o, node_stream mnode = Some o → local_node_id o = m ∧ stream_id o ≤ last_stream_id c')
    ∧ (∀ x, x ∈ node_inputs mnode → ∃ (p : NodeId) pnode, nodes c' !! p = Some pnode ∧ node_output pnode = Some x
                                             ∧ ∃ e, e ∈ circuit_edges c' ∧ from e = p ∧ to e = m).
Proof.
  intros Hm. destruct (old_or_new m mnode Hm) as [Hm'|[-> ->]].
  - destruct (bo_node c Hok m mnode Hm') as (H1 & H2 & H3 & H4). split_and!; [done|lia| |].
    + intros o Ho. destruct (H3 o Ho). split; [done|lia].
    + intros x Hx. destruct (H4 x Hx) as (p & pnode & Hp & Hpx & e & He & Hfe & Hte). exists p, pnode.
      rewrite Hnodes, Hedges. split_and!; [by apply lookup_app_l_Some|done|]. exists e. split_and!; try done. apply elem_of_app. by left.
  - split_and!; [done|done| |].
    + intros o Ho. by destruct (Hout o Ho) as (? & _ & ?).
    + intros x Hx. rewrite Hins in Hx. apply list_elem_of_fmap in Hx as (i & -> & Hi). destruct (Hin i Hi) as (pnode & Hp & Hps).
      exists (local_node_id (fst i)), pnode. rewrite Hnodes, Hedges, node_output_stream, Hps.
      split_and!; [by apply lookup_app_l_Some|done|].
      exists (MkEdge (local_node_id (fst i)) n (origin_node_id (fst i)) (Some (stream_id (fst i))) (Some (snd i))). split_and!; [|done|done].
      apply elem_of_app. right. apply elem_of_app. left. apply list_elem_of_fmap. by exists i.
Qed.

Lemma extend_op (m1 m2 : NodeId) :
  m1 < length (nodes c') → m1 ≠ m2 → op_of (nodes c') m1 = op_of (nodes c') m2 →
  ∃ e, e ∈ circuit_edges c' ∧ ((from e = m1 ∧ to e = m2) ∨ (from e = m2 ∧ to e = m1)).
Proof.
  intros Hm1 Hne Hop'. unfold op_of in Hop'.
  destruct (nodes c' !! m1) as [n1|] eqn:Hn1; [|apply lookup_ge_None in Hn1; lia].
  destruct (nodes c' !! m2) as [n2|] eqn:Hn2; [|done]. cbn in Hop'. injection Hop' as Hop'.
  assert (∀ (m : NodeId) mnode, nodes c !! m = Some mnode → node_op mnode = node_op node → ∃ e, e ∈ circuit_edges c' ∧ from e = m ∧ to e = n) as Hdep.
  { intros m mnode Hm Heq. pose proof (Hshare m mnode Hm Heq) as Hd. exists (MkEdge m n (global_node_id c ++ [m]) None None). split_and!; [|done|done].
    rewrite Hedges. apply elem_of_app. right. apply elem_of_app. right. apply list_elem_of_fmap. by exists m. }
  destruct (old_or_new m1 n1 Hn1) as [Ho1|[-> ->]], (old_or_new m2 n2 Hn2) as [Ho2|[-> ->]]; [| | |done].
  - destruct (bo_op c Hok m1 m2) as (e & He & Hc); [by eapply lookup_lt_Some|done|unfold op_of; by rewrite Ho1, Ho2; cbn; congruence|].
    exists e. split; [|done]. rewrite Hedges. apply elem_of_app. by left.
  - destruct (Hdep m1 n1 Ho1 Hop') as (e & He & ? & ?). exists e. naive_solver.
  - destruct (Hdep m2 n2 Ho2 (eq_sym Hop')) as (e & He & ? & ?). exists e. naive_solver.
Qed.

Lemma extend_count m x : edge_count (circuit_edges c') x m = occ x (inputs (nodes c') m).
Proof.
  rewrite Hedges, edge_count_app.
  assert (∀ y, edge_count (circuit_edges c) y n = 0) as Hold.
  { intros y. apply edge_count_zero. intros e He. left. destruct (bo_edge c Hok e He). unfold n. lia. }
  destruct (decide (m = n)) as [->|Hne].
  - rewrite Hold, edge_count_app, edge_count_inputs, Hnodes. unfold n at 2. rewrite inputs_new, Hins.
    rewrite (edge_count_zero (dependency_edges c n deps)); [lia|]. intros e He. right. by apply list_elem_of_fmap in He as (d & -> & _).
  - rewrite (edge_count_zero (stream_edges n ins ++ dependency_edges c n deps)), Nat.add_0_r.
    2: { intros e He%new_edges. left. lia. }
    rewrite (bo_count c Hok). destruct (decide (m < n)) as [Hlt|Hge].
    + by rewrite Hnodes, inputs_old.
    + unfold n in *. rewrite !inputs_beyond; [done| |lia]. rewrite Hnodes, length_app. cbn. lia.
Qed.

Lemma extend_ok : built_ok c'.
Proof.
  split.
  - apply extend_node.
  - intros m1 m2 x H1 H2. destruct (output_cases m1 x H1) as [[Ho1 Hx1]|[-> Hx1]], (output_cases m2 x H2) as [[Ho2 Hx2]|[-> Hx2]];
      [by eapply (bo_output c Hok)|lia|lia|done].
  - apply extend_op.
  - intros e. rewrite Hedges, Hnodes, length_app, elem_of_app. cbn [length]. intros [He|He%new_edges].
    + destruct (bo_edge c Hok e He). lia.
    + unfold n in He. lia.
  - intros m x. apply extend_count.
Qed.
End extend.

Lemma fresh_operator (c : ChildCircuit S) (m : NodeId) mnode (deps : list NodeId) :
  built_ok c → nodes c !! m = Some mnode → node_op mnode = length (operators c) → m ∈ deps.
Proof. intros Hok Hm Heq. destruct (bo_node c Hok m mnode Hm) as (_ & Hlt & _). lia. Qed.

Lemma connect_all l n p (c : ChildCircuit S) :
  let c' := foldl (λ c i, connect_stream i n p c) c l in
  nodes c' = nodes c ∧ operators c' = operators c ∧ last_stream_id c' = last_stream_id c ∧ global_node_id c' = global_node_id c
  ∧ circuit_edges c' = circuit_edges c ++ stream_edges n ((λ i, (i, p)) <$> l).
Proof.
  revert c. induction l as [|i l IH]; intros c; cbn [foldl]; [by rewrite app_nil_r|].
  destruct (IH (connect_stream i n p c)) as (-> & -> & -> & -> & ->). split_and!; try done. cbn. by rewrite <- app_assoc.
Qed.

Lemma ptr_eq_distinct i1 i2 : ptr_eq i1 i2 = false → stream_id i1 ≠ stream_id i2.
Proof. unfold ptr_eq. by intros ?%bool_decide_eq_false. Qed.

(** Closes what [extend_ok] asks of an operation: its fields, the streams it reads, a fresh operator and a
    fresh stream. *)
Ltac extend_fields :=
  match goal with
  | |- circuit_edges _ = _ => cbn; rewrite ?app_nil_r, <- ?app_assoc; reflexivity
  | |- ∀ i, i ∈ _ → in_circuit _ _ => let i := fresh in intros i; rewrite ?elem_of_cons, ?elem_of_nil; naive_solver
  | |- ∀ d, d ∈ [] → _ => by intros ? ?%elem_of_nil
  | |- ∀ m mnode, _ → node_op mnode = _ → _ => intros m mnode Hm Heq; by eapply fresh_operator
  | |- ∀ o, node_stream _ = Some o → _ => intros o [=]; subst; cbn; split_and!; (done || lia)
  | |- node_wf _ => cbn; first [done | apply ptr_eq_distinct]
  | |- (_ ≤ _)%nat => cbn; rewrite ?length_app; cbn; lia
  | |- (_ < _)%nat => cbn; rewrite ?length_app; cbn; lia
  | _ => try done
  end.

(** The stream a new node writes to. *)
Definition next_stream (c : ChildCircuit S) : Stream :=
  MkStream (last_stream_id c + 1) (length (nodes c)) (global_node_id c ++ [length (nodes c)]).

Lemma exchange_ok c s r i p : built_ok c → in_circuit c i → built_ok (fst (add_exchange_with_preference s r i p c)).
Proof.
  intros Hok Hi.
  set (c1 := push_node (SinkNode (length (operators c)) i) (connect_stream i (length (nodes c)) p (fst (new_operator s c)))).
  assert (built_ok c1) as Hok1 by (apply (extend_ok c c1 (SinkNode (length (operators c)) i) [(i, p)] []); extend_fields).
  apply (extend_ok c1 _ (SourceNode (length (operators c1)) (next_stream c1)) [] [length (nodes c)]); extend_fields.
  intros d ->%list_elem_of_singleton. cbn. rewrite length_app. cbn. lia.
Qed.

Lemma nary_ok c s l p :
  built_ok c → (∀ i, i ∈ l → in_circuit c i) → built_ok (fst (add_nary_operator_with_preference s l p c)).
Proof.
  intros Hok Hl. set (c1 := fst (new_stream (length (nodes c)) (fst (new_operator s c)))).
  set (c2 := foldl (λ c i, connect_stream i (length (nodes c1)) p c) c1 l).
  destruct (connect_all l (length (nodes c1)) p c1) as (En & Eo & El & Eg & Ee). fold c2 in En, Eo, El, Eg, Ee.
  change (fst _) with (push_node (NaryNode (length (operators c)) l (next_stream c)) c2). clearbody c2.
  apply (extend_ok c _ (NaryNode (length (operators c)) l (next_stream c)) ((λ i, (i, p)) <$> l) []);
    cbn [push_node nodes operators circuit_edges last_stream_id]; rewrite ?En, ?Eo, ?El, ?Ee; extend_fields.
  - cbn [dependency_edges fmap list_fmap]. by rewrite app_nil_r.
  - by rewrite <- list_fmap_compose.
  - intros j Hj. apply list_elem_of_fmap in Hj as (i & -> & Hi). by apply Hl.
Qed.

Lemma built_is_ok c : built c → built_ok c.
Proof.
  induction 1 as [id|c s _ Hok|c s i p _ Hok Hi|c s r i p _ Hok Hi|c s i1 i2 _ Hok H1 H2|c s i p _ Hok Hi|c s i1 i2 _ Hok H1 H2
                 |c s i1 i2 i3 _ Hok H1 H2 H3|c s i1 i2 i3 i4 _ Hok H1 H2 H3 H4|c s l p _ Hok Hl|c s _ Hok|c k i p _ Hok Hi Hk].
  - split; cbn; try done.
    + intros n m Hlt. lia.
    + intros e He. by apply elem_of_nil in He.
  - apply (extend_ok c _ (SourceNode (length (operators c)) (next_stream c)) [] []);
      extend_fields.
  - apply (extend_ok c _ (SinkNode (length (operators c)) i) [(i, p)] []); extend_fields.
  - by apply exchange_ok.
  - apply (extend_ok c _ (BinarySinkNode (length (operators c)) (fst i1) (fst i2) (ptr_eq (fst i1) (fst i2))) [i1; i2] []); extend_fields.
  - apply (extend_ok c _ (UnaryNode (length (operators c)) i (next_stream c)) [(i, p)] []);
      extend_fields.
  - apply (extend_ok c _ (BinaryNode (length (operators c)) (fst i1) (fst i2) (next_stream c) (ptr_eq (fst i1) (fst i2))) [i1; i2] []); extend_fields.
  - apply (extend_ok c _ (TernaryNode (length (operators c)) (fst i1) (fst i2) (fst i3) (next_stream c)) [i1; i2; i3] []); extend_fields.
  - apply (extend_ok c _ (QuaternaryNode (length (operators c)) (fst i1) (fst i2) (fst i3) (fst i4) (next_stream c)) [i1; i2; i3; i4] []); extend_fields.
  - by apply nary_ok.
  - apply (extend_ok c _ (FeedbackOutputNode (length (operators c)) (next_stream c)) [] []); extend_fields.
  - destruct Hk as [(o & Ho) Honly]. destruct (bo_node c Hok _ _ Ho) as (_ & Hlt & _). cbn in Hlt.
    apply (extend_ok c _ (FeedbackInputNode (connector_operator k) i) [(i, p)] [output_node_id k]); extend_fields.
    + intros d ->%list_elem_of_singleton. by eapply lookup_lt_Some.
    + intros m mnode Hm Heq. apply list_elem_of_singleton. by eapply Honly.
Qed.

(** ** The consumers the scheduler registers *)

Lemma register_count (N : gset NodeId) es (x : StreamId) :
  default 0 (register_consumers N es !! x) = length (filter (λ e, stream e = Some x ∧ to e ∈ N ∧ from e ∈ N) es).
Proof.
  unfold register_consumers. induction es as [|e es IH] using rev_ind; [done|]. rewrite foldl_app, filter_app, length_app, <- IH. cbn [foldl].
  set (m := foldl _ _ _). clearbody m. clear IH es.
  replace (filter (λ e, stream e = Some x ∧ to e ∈ N ∧ from e ∈ N) [e])
    with (if decide (stream e = Some x ∧ to e ∈ N ∧ from e ∈ N) then [e] else []) by (rewrite filter_cons; by case_decide).
  destruct (stream e) as [y|] eqn:Hst; [|rewrite decide_False by (by intros [? _]); cbn; lia].
  destruct (decide (y = x)) as [->|Hne].
  - repeat case_decide; rewrite lookup_insert_eq; cbn; try lia; naive_solver.
  - rewrite (decide_False (P := Some y = Some x ∧ _)) by (intros [[=] _]; done). cbn.
    case_decide; rewrite lookup_insert_ne by done; lia.
Qed.

Lemma count_by_target (N : gset NodeId) es x :
  (∀ e, e ∈ es → to e ∈ N) → length (filter (λ e, stream e = Some x) es) = sumf (edge_count es x) (elements N).
Proof.
  induction es as [|e es IH]; intros Hes.
  - cbn. symmetry. unfold edge_count. cbn. by induction (elements N).
  - rewrite filter_cons. specialize (IH (λ e' He', Hes e' (proj2 (elem_of_cons _ _ _) (or_intror He')))).
    assert (∀ n, edge_count (e :: es) x n = (if decide (stream e = Some x ∧ to e = n) then 1 else 0) + edge_count es x n) as Hc.
    { intros n. unfold edge_count. rewrite filter_cons. by case_decide. }
    pose proof (sumf_update (edge_count (e :: es) x) (edge_count es x) (elements N) (to e)) as Hu.
    rewrite Hc in Hu. destruct (decide (stream e = Some x)) as [Hst|Hst].
    + rewrite decide_True in Hu by done. cbn [length]. rewrite IH.
      assert (sumf (edge_count (e :: es) x) (elements N) + edge_count es x (to e) = sumf (edge_count es x) (elements N) + (1 + edge_count es x (to e))); [|lia].
      apply Hu; [apply NoDup_elements|apply elem_of_elements, Hes; by left|]. intros m Hm. rewrite Hc, decide_False; [done|]. naive_solver.
    + rewrite IH. apply sumf_ext. intros n _. rewrite Hc, decide_False; [done|]. naive_solver.
Qed.

Definition all_nodes (c : ChildCircuit S) : gset NodeId := list_to_set (seq 0 (length (nodes c))).

Lemma elem_all_nodes c n : n ∈ all_nodes c ↔ n < length (nodes c).
Proof. unfold all_nodes. rewrite elem_of_list_to_set, elem_of_seq. lia. Qed.

(** The operators and the empty streams of a circuit that has been built and prepared. *)
Definition initial_state (c : ChildCircuit S) : State V S :=
  MkState (operators c) (init_values (circuit_edges c) (all_nodes c) (omap node_output (nodes c))) ∅.

Lemma registered_reads c x : built_ok c → default 0 (register_consumers (all_nodes c) (circuit_edges c) !! x) = rem (nodes c) (all_nodes c) [] x.
Proof.
  intros Hok. rewrite register_count.
  assert (filter (λ e, stream e = Some x ∧ to e ∈ all_nodes c ∧ from e ∈ all_nodes c) (circuit_edges c) = filter (λ e, stream e = Some x) (circuit_edges c)) as ->.
  { assert (∀ e, e ∈ circuit_edges c → to e ∈ all_nodes c ∧ from e ∈ all_nodes c) as He.
    { intros e He. rewrite !elem_all_nodes. destruct (bo_edge c Hok e He). lia. }
    revert He. generalize (circuit_edges c). induction l as [|e l IH]; intros He; [done|]. rewrite !filter_cons.
    destruct (He e) as [H1 H2]; [by left|]. rewrite IH by (intros e' He'; apply He; by right). repeat case_decide; naive_solver. }
  rewrite (count_by_target (all_nodes c)).
  - unfold rem. apply sumf_ext. intros n _. rewrite decide_False by apply not_elem_of_nil. apply (bo_count c Hok).
  - intros e He. rewrite elem_all_nodes. by destruct (bo_edge c Hok e He).
Qed.

Lemma initial_clean c : built_ok c → clean (nodes c) (all_nodes c) (initial_state c).
Proof.
  intros Hok. split; [done|]. intros x p Hp Hx. cbn [values initial_state]. unfold init_values.
  rewrite <- registered_reads by done. apply elem_of_list_to_map_1'.
  - intros sv Hsv. apply list_elem_of_fmap in Hsv as (y & [= <- ->] & _). done.
  - apply list_elem_of_fmap. exists x. split; [done|]. unfold output in Hx. apply list_elem_of_omap.
    destruct (nodes c !! p) as [pnode|] eqn:Hpn; [|done]. exists pnode. split; [by eapply list_elem_of_lookup_2|done].
Qed.

Lemma built_circuit_ok c :
  built c →
  circuit_wf (nodes c) ((λ e, (from e, to e)) <$> circuit_edges c) (all_nodes c) (length (operators c))
  ∧ (∀ e, e ∈ circuit_edges c → from e < to e ∧ to e < length (nodes c))
  ∧ clean (nodes c) (all_nodes c) (initial_state c).
Proof.
  intros Hok%built_is_ok. split_and!; [|by apply bo_edge|by apply initial_clean].
  assert (∀ e n m, e ∈ circuit_edges c → from e = n → to e = m → (n, m) ∈ (λ e, (from e, to e)) <$> circuit_edges c) as Hin.
  { intros e n m He <- <-. apply list_elem_of_fmap. by exists e. }
  split.
  - intros n Hn%elem_all_nodes. destruct (nodes c !! n) as [node|] eqn:Hnode; [|apply lookup_ge_None in Hnode; lia].
    exists node. destruct (bo_node c Hok n node Hnode) as (? & ? & _). done.
  - intros n m x _ _. apply (bo_output c Hok).
  - intros n x _ Hx. unfold inputs in Hx. destruct (nodes c !! n) as [node|] eqn:Hnode; [|by apply elem_of_nil in Hx].
    destruct (bo_node c Hok n node Hnode) as (_ & _ & _ & Hi). destruct (Hi x Hx) as (p & pnode & Hp & Hpx & e & He & Hf & Ht).
    exists p. split_and!; [apply elem_all_nodes; by eapply lookup_lt_Some|unfold output; by rewrite Hp|by eapply Hin].
  - intros n m Hn%elem_all_nodes _ Hne Hop. destruct (bo_op c Hok n m Hn Hne Hop) as (e & He & [[? ?]|[? ?]]); [left|right]; by eapply Hin.
Qed.

End built.

(** ** A step of the scheduler evaluates the circuit *)

(** What the scheduler asks of the circuit, in the order in which it happens. *)
Definition actions (l : list CircuitCall) : list Action :=
  omap (λ c, match c with EvalNode n => Some (Begin n) | Evaluated n _ => Some (Finish n) | _ => None end) (reverse l).

(** The nodes under evaluation and those evaluated after some actions. *)
Fixpoint after (B D : gset NodeId) (l : list Action) : gset NodeId * gset NodeId :=
  match l with
  | [] => (B, D)
  | Begin n :: l => after ({[n]} ∪ B) D l
  | Finish n :: l => after (B ∖ {[n]}) ({[n]} ∪ D) l
  end.

Lemma after_app l1 l2 B D : after B D (l1 ++ l2) = after (fst (after B D l1)) (snd (after B D l1)) l2.
Proof. revert B D. induction l1 as [|[n|n] l1 IH]; intros B D; cbn; [done|apply IH..]. Qed.

Lemma legal_app E N l1 l2 : ∀ B D,
  legal E N B D (l1 ++ l2) ↔ legal E N B D l1 ∧ legal E N (fst (after B D l1)) (snd (after B D l1)) l2.
Proof. induction l1 as [|[n|n] l1 IH]; intros B D; cbn; [tauto|rewrite IH; tauto|rewrite IH; tauto]. Qed.

Lemma actions_cons c l :
  actions (c :: l) = actions l ++ match c with EvalNode n => [Begin n] | Evaluated n _ => [Finish n] | _ => [] end.
Proof. unfold actions. rewrite reverse_cons, omap_app. by destruct c. Qed.

Lemma log_legal E N l :
  log_ordered E l → NoDup (evals l) → (∀ n, EvalNode n ∈ l → n ∈ N) →
  legal E N ∅ ∅ (actions l)
  ∧ (∀ n, n ∈ snd (after ∅ ∅ (actions l)) ↔ ∃ b, Evaluated n b ∈ l)
  ∧ (∀ n, n ∈ fst (after ∅ ∅ (actions l)) ↔ EvalNode n ∈ l ∧ ∀ b, Evaluated n b ∉ l).
Proof.
  induction l as [|c l IH]; intros Hlog Hnd HN.
  { split_and!; [done| |]; intros n; cbn; rewrite elem_of_empty; [naive_solver (by eapply elem_of_nil)|].
    split; [done|]. by intros [?%elem_of_nil _]. }
  destruct Hlog as [Hlog Hc].
  assert (NoDup (evals l)) as Hnd' by (destruct c; [done|by apply NoDup_cons in Hnd as [_ ?]|done|done]).
  destruct (IH Hlog Hnd') as (Hl & HD & HB); [intros n Hn; apply HN; by right|]. rewrite actions_cons, legal_app, after_app.
  set (B := fst (after ∅ ∅ (actions l))) in *. set (D := snd (after ∅ ∅ (actions l))) in *.
  destruct c as [n|n|n b|]; cbn [legal after fst snd].
  - split_and!; [done|done| |]; intros m; setoid_rewrite elem_of_cons; [rewrite HD|rewrite HB]; naive_solver.
  - apply NoDup_cons in Hnd as [Hnin _]. fold (evals l) in Hnin. rewrite evals_elem in Hnin.
    assert (∀ b, Evaluated n b ∉ l) as HnE.
    { clear -Hlog Hnin. induction l as [|c l IH]; intros b Hb; [by apply elem_of_nil in Hb|]. destruct Hlog as [Hlog Hc].
      apply elem_of_cons in Hb as [<-|Hb]; [apply Hnin; right; by apply Hc|]. eapply IH; [done| |done]. intros ?. apply Hnin. by right. }
    split_and!; try done.
    + apply HN. by left.
    + rewrite HB. tauto.
    + rewrite HD. naive_solver.
    + intros p Hp. apply HD. by apply Hc.
    + intros m. rewrite HD. setoid_rewrite elem_of_cons. naive_solver.
    + intros m. rewrite elem_of_union, elem_of_singleton, HB, elem_of_cons. setoid_rewrite elem_of_cons. naive_solver.
  - destruct Hc as [Hin Hnot]. split_and!; try done.
    + apply HB. by split.
    + intros m. rewrite elem_of_union, elem_of_singleton, HD. setoid_rewrite elem_of_cons. naive_solver.
    + intros m. rewrite elem_of_difference, elem_of_singleton, HB, elem_of_cons. setoid_rewrite elem_of_cons. naive_solver.
  - split_and!; [done|done| |]; intros m; setoid_rewrite elem_of_cons; [rewrite HD|rewrite HB]; naive_solver.
Qed.

Lemma finished_log E l :
  log_ordered E l → NoDup (finished (actions l)) ∧ ∀ n, n ∈ finished (actions l) ↔ ∃ b, Evaluated n b ∈ l.
Proof.
  induction l as [|c l IH]; intros Hlog.
  { split; [apply NoDup_nil_2|]. intros n. cbn. split; [by intros ?%elem_of_nil|]. by intros [b ?%elem_of_nil]. }
  destruct Hlog as [Hlog Hc]. destruct (IH Hlog) as [Hnd Hin]. rewrite actions_cons. unfold finished in *. rewrite omap_app.
  destruct c as [n|n|n b|]; cbn [omap list_omap]; rewrite ?app_nil_r.
  - split; [done|]. intros m. rewrite Hin. setoid_rewrite elem_of_cons. naive_solver.
  - split; [done|]. intros m. rewrite Hin. setoid_rewrite elem_of_cons. naive_solver.
  - destruct Hc as [_ Hnot]. split.
    + apply NoDup_app. split_and!; [done| |apply NoDup_singleton]. intros m Hm ->%list_elem_of_singleton.
      apply Hin in Hm as [b' Hb']. by apply (Hnot b').
    + intros m. rewrite elem_of_app, list_elem_of_singleton, Hin. setoid_rewrite elem_of_cons. naive_solver.
  - split; [done|]. intros m. rewrite Hin. setoid_rewrite elem_of_cons. naive_solver.
Qed.

(** The log of a step, whichever state it has reached. *)
Lemma step_log E N asy (HE : ∀ a b, (a, b) ∈ E → a ∈ N ∧ b ∈ N) base c l :
  loop_ok E N asy base false c l →
  ∃ new, calls (loop_state l) = new ++ base ∧ NoDup (evals new) ∧ log_ordered E new ∧ (∀ n, EvalNode n ∈ new → n ∈ N)
    ∧ ∀ s', l = Returned s' (inr ()) → ∀ n, n ∈ N ↔ ∃ b, Evaluated n b ∈ new.
Proof.
  assert (∀ D F new s, inv E N asy D F ∅ [] [] base new s → ∀ n, EvalNode n ∈ new → n ∈ N) as HN.
  { intros D F new s [] n Hn%inv_evals. apply inv_nodes, elem_of_union. by left. }
  destruct l as [s k|s [e|u]]; cbn [loop_ok loop_state].
  - intros (D & F & new & Hinv & _). exists new. pose proof (HN _ _ _ _ Hinv). destruct Hinv. by split_and!.
  - intros (_ & new & Hcalls & Hnd & Hlog & Hin). exists new. by split_and!.
  - intros (F & new & Hinv & _). exists new. pose proof (HN _ _ _ _ Hinv). destruct Hinv. by split_and!.
Qed.

Section step.
Context {V S : Type} `{OperatorLaws V S}.

Lemma circuit_wf_mono ns E E' N k : circuit_wf ns E N k → (∀ e, e ∈ E → e.1 ∈ N → e.2 ∈ N → e ∈ E') → circuit_wf ns E' N k.
Proof.
  intros [] HE. split; try done.
  - intros n x Hn Hx. destruct (wf_producer n x Hn Hx) as (p & Hp & Hpx & He). exists p. split_and!; auto.
  - intros n m Hn Hm Hne Hop. destruct (wf_op n m Hn Hm Hne Hop); [left|right]; auto.
Qed.

Lemma scheduled_wf (c : ChildCircuit S) extra :
  built c → circuit_wf (nodes c) (scheduled_edges (as_circuit c) None extra) (all_nodes c) (length (operators c)).
Proof.
  intros Hb. destruct (built_circuit_ok (V := V) c Hb) as [Hwf _]. eapply circuit_wf_mono; [done|]. intros [a b] He Ha Hb'. cbn in *.
  apply elem_within. split_and!; [|done|done]. apply elem_of_app. by left.
Qed.

End step.

(** ** An example *)

(** The result of a topological sort is an order of evaluation. *)
Lemma topological_topo E l : topological_order E l → topo E l.
Proof.
  intros [Hnd Hord] l1 n l2 -> p HpE. destruct (Hord p n HpE) as (i & j & Hi & Hj & Hij).
  assert (j = length l1) as ->. { eapply NoDup_lookup; [done|done|]. by rewrite list_lookup_middle. }
  rewrite lookup_app_l in Hi by done. by eapply list_elem_of_lookup_2.
Qed.

Lemma topological_check E l :
  NoDup l → Forall (λ e, l !! rank_in l (fst e) = Some (fst e) ∧ l !! rank_in l (snd e) = Some (snd e) ∧ rank_in l (fst e) < rank_in l (snd e)) E →
  topological_order E l.
Proof.
  intros Hnd HE. split; [done|]. intros a b Hab. rewrite Forall_forall in HE. destruct (HE _ Hab) as (H1 & H2 & H3). by exists (rank_in l a), (rank_in l b).
Qed.

(** Operators on numbers: a source counts, the others add their inputs, and a feedback delays its input. *)
#[local] Instance nat_operator : Operator nat nat := {
  input_preference := λ _, [];
  op_is_async := λ _, false;
  eval := λ s args, match args with [] => (s + 1, s) | _ => (s, sum_list (arg_value <$> args)) end;
  eval_sink := λ s args, s + sum_list (arg_value <$> args);
  get_output := λ s, (0, s);
  eval_strict := λ _ a, arg_value a }.

#[local] Instance nat_operator_laws : OperatorLaws nat nat.
Proof.
  split; [| |done]; intros s args; cbn.
  - destruct args as [|a args]; [done|]. by rewrite <- list_fmap_compose.
  - by rewrite <- list_fmap_compose.
Qed.

(** The sums of what the source yields: the feedback has a strong claim on the sum, which a sink reads too. *)
Definition sum_stream : Stream := MkStream 3 2 [0; 2].
Definition sums1 : ChildCircuit nat := Eval vm_compute in fst (add_feedback 0 (fst (add_source 5 (new_circuit [0])))).
Definition sums2 : ChildCircuit nat := Eval vm_compute in
  fst (add_binary_operator_with_preference 0 (MkStream 1 0 [0; 0], 0) (MkStream 2 1 [0; 1], 0) sums1).
Definition sums3 : ChildCircuit nat := Eval vm_compute in
  fst (connect_feedback_with_preference (MkConnector 1 1) sum_stream 100 sums2).
Definition sums : ChildCircuit nat := Eval vm_compute in fst (add_sink_with_preference 0 sum_stream 0 sums3).

Definition sums_edges : list (NodeId * NodeId) := scheduled_edges (as_circuit sums) None [(4, 3)].
Definition sums_order : list NodeId := [0; 1; 2; 4; 3].

Lemma sums_built : built sums.
Proof.
  change (built (fst (add_sink_with_preference 0 sum_stream 0 sums3))). apply built_sink; [|by eexists].
  change (built (fst (connect_feedback_with_preference (MkConnector 1 1) sum_stream 100 sums2))). apply built_connect; [|by eexists|].
  - change (built (fst (add_binary_operator_with_preference 0 (MkStream 1 0 [0; 0], 0) (MkStream 2 1 [0; 1], 0) sums1))).
    apply built_binary; [|by eexists..]. change (built (fst (add_feedback 0 (fst (add_source 5 (new_circuit [0])))))).
    apply built_feedback, built_source, built_new.
  - split; [by eexists|]. intros [|[|[|n]]] node; cbn; intros Hn Hop; simplify_eq; done.
Qed.

Lemma sums_wf : circuit_wf (nodes sums) sums_edges (all_nodes sums) (length (operators sums)).
Proof. apply scheduled_wf, sums_built. Qed.

Lemma sums_clean : clean (nodes sums) (all_nodes sums) (initial_state (V := nat) sums).
Proof. apply initial_clean, built_is_ok, sums_built. Qed.

Lemma sums_topological : topological_order sums_edges sums_order.
Proof.
  apply topological_check; [apply (bool_decide_unpack _); vm_compute; done|]. apply (bool_decide_unpack _). vm_compute. done.
Qed.

Lemma sums_perm : sums_order ≡ₚ elements (all_nodes sums).
Proof.
  apply NoDup_Permutation; [apply (bool_decide_unpack _); vm_compute; done|apply NoDup_elements|].
  intros n. rewrite elem_of_elements, elem_all_nodes. cbn. unfold sums_order. rewrite !elem_of_cons, elem_of_nil. lia.
Qed.

Lemma sums_legal : legal sums_edges (all_nodes sums) ∅ ∅ (one_by_one [0; 1; 2; 4] ++ [Begin 3]).
Proof.
  assert (legal sums_edges (all_nodes sums) ∅ ∅ ((one_by_one [0; 1; 2; 4] ++ [Begin 3]) ++ [Finish 3])) as Hl.
  { apply (legal_one_by_one sums_edges (all_nodes sums) ∅ [] sums_order).
    - apply topological_topo, sums_topological.
    - apply (bool_decide_unpack _). vm_compute. done.
    - intros n Hn. by rewrite <- elem_of_elements, <- sums_perm.
    - set_solver. }
  by apply legal_app in Hl as [Hl _].
Qed.

Lemma circuit_eval_deterministic_witness :
  ∃ opsT e, pure_run (nodes sums) (operators sums, ∅) sums_order = Some (opsT, e) ∧ opsT = [6; 5; 0; 5]
    ∧ ∀ acts, legal sums_edges (all_nodes sums) ∅ ∅ acts →
        ∃ st', run (nodes sums) (initial_state sums) acts = Some st'
          ∧ (finished acts ≡ₚ elements (all_nodes sums) → ops st' = opsT ∧ clean (nodes sums) (all_nodes sums) st').
Proof.
  destruct (circuit_eval_deterministic (nodes sums) sums_edges (all_nodes sums) (operators sums) sums_wf (initial_state sums) sums_order)
    as (opsT & e & Hp & Hr); [reflexivity|apply sums_clean|apply sums_perm|apply topological_topo, sums_topological|].
  exists opsT, e. split_and!; [exact Hp| |exact Hr]. vm_compute in Hp. by injection Hp as <- _.
Defined.

(** The feedback, node 3, gets the sum itself. *)
Lemma circuit_strong_owner_witness :
  ∃ st' v, run (nodes sums) (initial_state sums) (one_by_one [0; 1; 2; 4] ++ [Begin 3]) = Some st' ∧ running st' !! 3 = Some [(3, Owned v)].
Proof.
  apply (circuit_strong_owner (nodes sums) sums_edges (all_nodes sums) (operators sums) sums_wf (initial_state sums)
           (one_by_one [0; 1; 2; 4]) 3 (FeedbackInputNode 1 (MkStream 3 2 [0; 2])) 3).
  - reflexivity.
  - apply sums_clean.
  - apply sums_legal.
  - reflexivity.
  - reflexivity.
  - intros m Hm%elem_all_nodes Hne Hx. cbn in Hm. apply (bool_decide_eq_true_2 _) in Hx.
    destruct m as [|[|[|[|[|m]]]]]; [by vm_compute in Hx..|done| |lia]. apply (bool_decide_unpack _). vm_compute. done.
Defined.


Definition sums_prepared : Inner :=
  match prepare (λ g, inr (fst g)) (as_circuit sums) (λ _, true) None with
  | inr s => s
  | inl _ => MkInner ∅ ∅ false ∅ false Idle []
  end.
Definition sums_scheduler : Inner := start_transaction sums_prepared.

Lemma prepared_rest (c : ChildCircuit nat) toposort ready s extra :
  ownership_constraints (as_circuit c) = inr extra → prepare toposort (as_circuit c) ready None = inr s →
  rest (scheduled_edges (as_circuit c) None extra) (all_nodes c) (is_async_of c) ∅ (start_transaction s).
Proof.
  intros Ho Hp. apply start_transaction_rest. by apply (prepare_structured toposort (as_circuit c) ready None s extra).
Qed.

Lemma sums_rest : rest sums_edges (all_nodes sums) (is_async_of sums) ∅ sums_scheduler.
Proof.
  apply (prepared_rest sums (λ g, inr (fst g)) (λ _, true)); vm_compute; reflexivity.
Qed.

(** The source is joined after the feedback, and the sink before it. *)
Definition sums_events : list Event := [ok 1; ok 0; ok 2; ok 4; ok 3].

