(* ===== verification/IndexSet.v ===== *)
(** Sets of small indexes as the bits of a word (crates/dbsp/src/trace/spine_async/index_set.rs).

    The merger of batches keeps the set of its cursors that are at the smallest key in one [u64].
    A set denotes the ascending list of its bits ([elems]), and every operation is the one on lists
    that its name says. *)
From Stdlib Require Import Sorting.Sorted.
From S2P Require Import Prelude Machine.
#[local] Open Scope Z_scope.

(** The intrinsics of [u64]. *)
Fixpoint ctz (p : positive) : nat := match p with xO p => S (ctz p) | _ => 0%nat end.
Fixpoint popcount (p : positive) : nat :=
  match p with xH => 1%nat | xO p => popcount p | xI p => S (popcount p) end.
Definition trailing_zeros (x : Z) : nat := match x with Zpos p => ctz p | _ => 64%nat end.
Definition count_ones (x : Z) : nat := match x with Zpos p => popcount p | _ => 0%nat end.
(** [1 << index]: a shift by the width or more overflows. *)
Definition bit (index : nat) : option Z := if (index <? 64)%nat then Some (Z.shiftl 1 (Z.of_nat index)) else None.

Module IndexSet.
Definition IndexSet := Z.

Definition for_index (index : nat) : option IndexSet := bit index.
Definition empty : IndexSet := 0.
Definition is_empty (self : IndexSet) : bool := self =? 0.
Definition is_singleton (self : IndexSet) : bool := (count_ones self =? 1)%nat.
Definition without_first (self : IndexSet) : IndexSet := Z.land self (wrap u64 (self - 1)).
Definition is_short (self : IndexSet) : bool := is_empty (without_first self).
Definition is_long (self : IndexSet) : bool := negb (is_short self).
Definition len (self : IndexSet) : nat := count_ones self.
Definition first (self : IndexSet) : option nat := if self =? 0 then None else Some (trailing_zeros self).
Definition add (self : IndexSet) (index : nat) : option IndexSet := b ← bit index; Some (Z.lor self b).
Definition remove (self : IndexSet) (index : nat) : option IndexSet := b ← bit index; Some (Z.ldiff self b).
Definition bitor (self rhs : IndexSet) : IndexSet := Z.lor self rhs.

(** [FromIterator::from_iter] *)
Fixpoint extend (set : IndexSet) (iter : list nat) : option IndexSet :=
  match iter with
  | [] => Some set
  | index :: iter => b ← for_index index; extend (bitor set b) iter
  end.
Definition from_iter (iter : list nat) : option IndexSet := extend empty iter.

(** [IndexSetIter::next], and all the items it yields; at most 64 bits are set. *)
Definition next (self : IndexSet) : option nat * IndexSet :=
  match first self with
  | Some i => (Some i, without_first self)
  | None => (None, self)
  end.
Fixpoint items (n : nat) (self : IndexSet) : list nat :=
  match n with
  | O => []
  | S n => match next self with (Some i, self) => i :: items n self | (None, _) => [] end
  end.
Definition into_iter (self : IndexSet) : list nat := items 64 self.
End IndexSet.
Import IndexSet.

(** ** What a set denotes *)
Definition in_set (s : Z) (i : nat) : bool := Z.testbit s (Z.of_nat i).
Definition elems (s : Z) : list nat := List.filter (in_set s) (seq 0 64).
#[global] Arguments elems _ : simpl never.
Definition set_ok (s : Z) : Prop := 0 ≤ s < 2 ^ 64.

Lemma set_pos s : set_ok s → s ≠ 0 → 0 < s.
Proof. intros [H _] Hne. lia. Qed.

Lemma set_ok_bits s i : set_ok s → in_set s i = true → (i < 64)%nat.
Proof.
  intros [H0 H1] Hi. destruct (decide (i < 64)%nat) as [|Hge]; [done|]. exfalso.
  unfold in_set in Hi. destruct (decide (s = 0)) as [->|Hne]; [by rewrite Z.bits_0 in Hi|].
  rewrite Z.bits_above_log2 in Hi; [done|done|].
  apply Z.log2_lt_pow2 in H1; lia.
Qed.

Lemma set_ok_of_bits s : 0 ≤ s → (∀ i, in_set s i = true → (i < 64)%nat) → set_ok s.
Proof.
  intros H0 Hb. split; [done|]. destruct (decide (s = 0)) as [->|Hne]; [done|].
  apply Z.log2_lt_pow2; [lia|]. specialize (Hb (Z.to_nat (Z.log2 s))). unfold in_set in Hb.
  pose proof (Z.log2_nonneg s). rewrite Z2Nat.id, Z.bit_log2 in Hb by lia. specialize (Hb eq_refl). lia.
Qed.

Lemma elem_elems s i : set_ok s → i ∈ elems s ↔ in_set s i = true.
Proof.
  intros Hs. unfold elems. rewrite list_elem_of_In, filter_In, <- list_elem_of_In, elem_of_seq.
  split; [tauto|]. intros Hi. split; [|done]. apply set_ok_bits in Hi; [lia|done].
Qed.

Lemma filter_sorted {A} (R : A → A → Prop) (f : A → bool) l : StronglySorted R l → StronglySorted R (List.filter f l).
Proof.
  induction 1 as [|x l Hs IH Hf]; cbn; [constructor|]. destruct (f x); [|done]. constructor; [done|].
  rewrite Forall_forall in *. intros y. rewrite list_elem_of_In, filter_In, <- list_elem_of_In. intros [? _]. by apply Hf.
Qed.

Lemma seq_sorted a n : StronglySorted lt (seq a n).
Proof.
  revert a. induction n as [|n IH]; intros a; cbn; constructor; [done|].
  apply Forall_forall. intros x Hx%elem_of_seq. lia.
Qed.

Lemma elems_sorted s : StronglySorted lt (elems s).
Proof. apply filter_sorted, seq_sorted. Qed.

(** Ascending lists with the same members are equal. *)
Lemma sorted_lt_unique (l1 l2 : list nat) :
  StronglySorted lt l1 → StronglySorted lt l2 → (∀ i, i ∈ l1 ↔ i ∈ l2) → l1 = l2.
Proof.
  intros Hs1. revert l2. induction Hs1 as [|x l1 Hs1 IH Hx]; intros l2 Hs2 Heq.
  - destruct l2 as [|y l2]; [done|]. assert (y ∈ []) as []%elem_of_nil by (apply Heq; left).
  - destruct Hs2 as [|y l2 Hs2 Hy]; [assert (x ∈ []) as []%elem_of_nil by (apply Heq; left)|].
    rewrite Forall_forall in Hx, Hy.
    assert (x = y) as <-.
    { destruct (decide (x = y)) as [|Hne]; [done|].
      assert (x ∈ l2) as H1 by (destruct (proj1 (elem_of_cons l2 x y) (proj1 (Heq x) ltac:(left))); done).
      assert (y ∈ l1) as H2 by (destruct (proj1 (elem_of_cons l1 y x) (proj2 (Heq y) ltac:(left))); [congruence|done]).
      specialize (Hx _ H2). specialize (Hy _ H1). lia. }
    f_equal. apply IH; [done|]. intros i. split; intros Hi.
    + destruct (proj1 (elem_of_cons l2 i x) (proj1 (Heq i) ltac:(by right))) as [->|]; [|done].
      specialize (Hx _ Hi). lia.
    + destruct (proj1 (elem_of_cons l1 i x) (proj2 (Heq i) ltac:(by right))) as [->|]; [|done].
      specialize (Hy _ Hi). lia.
Qed.

(** The sets of two words are the same when their lists are. *)
Lemma elems_ext s l : set_ok s → StronglySorted lt l → (∀ i, in_set s i = true ↔ i ∈ l) → elems s = l.
Proof.
  intros Hs Hl Heq. apply sorted_lt_unique; [apply elems_sorted|done|].
  intros i. by rewrite elem_elems.
Qed.

(** ** The lowest bit *)
Lemma land_pred p i : Z.testbit (Z.land (Zpos p) (Zpos p - 1)) (Z.of_nat i)
  = Z.testbit (Zpos p) (Z.of_nat i) && negb (i =? ctz p)%nat.
Proof.
  revert i. induction p as [p IH|p IH|]; intros i.
  - replace (Zpos p~1 - 1) with (2 * Zpos p) by lia.
    destruct i as [|i]; cbn [ctz].
    + rewrite Z.land_spec. change (Z.of_nat 0) with 0. rewrite Z.testbit_even_0. by destruct (Z.testbit _ _).
    + rewrite Z.land_spec, Nat2Z.inj_succ, Z.testbit_even_succ by lia.
      replace (Zpos p~1) with (2 * Zpos p + 1) by lia. rewrite Z.testbit_odd_succ by lia.
      cbn. by destruct (Z.testbit _ _).
  - replace (Zpos p~0 - 1) with (2 * (Zpos p - 1) + 1) by lia. replace (Zpos p~0) with (2 * Zpos p) by lia.
    destruct i as [|i]; cbn [ctz].
    + rewrite Z.land_spec. change (Z.of_nat 0) with 0. by rewrite Z.testbit_even_0.
    + rewrite Z.land_spec, Nat2Z.inj_succ, Z.testbit_even_succ, Z.testbit_odd_succ by lia.
      rewrite <- Z.land_spec, IH. done.
  - cbn. destruct i; [done|]. rewrite Z.bits_0. by destruct i.
Qed.

Lemma ctz_bit p : Z.testbit (Zpos p) (Z.of_nat (ctz p)) = true.
Proof.
  induction p as [p IH|p IH|]; cbn [ctz]; [done| |done].
  replace (Zpos p~0) with (2 * Zpos p) by lia. by rewrite Nat2Z.inj_succ, Z.testbit_even_succ by lia.
Qed.

Lemma ctz_least p i : Z.testbit (Zpos p) (Z.of_nat i) = true → (ctz p ≤ i)%nat.
Proof.
  revert i. induction p as [p IH|p IH|]; intros i; cbn [ctz]; [lia| |lia].
  replace (Zpos p~0) with (2 * Zpos p) by lia. destruct i as [|i]; [by rewrite Z.testbit_even_0|].
  rewrite Nat2Z.inj_succ, Z.testbit_even_succ by lia. intros ?%IH. lia.
Qed.

Lemma without_first_bits s i : set_ok s → 0 < s →
  in_set (without_first s) i = in_set s i && negb (i =? trailing_zeros s)%nat.
Proof.
  intros [_ Hs] Hpos. unfold without_first, in_set. rewrite wrap_id by (done || (apply in_range_spec; cbn in *; lia)).
  destruct s as [|p|p]; [lia| |lia]. apply land_pred.
Qed.

Lemma without_first_ok s : set_ok s → set_ok (without_first s).
Proof.
  intros Hs. unfold without_first. apply set_ok_of_bits; [apply Z.land_nonneg; left; apply Hs|].
  intros i. unfold in_set. rewrite Z.land_spec, andb_true_iff. intros [Hi _]. by apply (set_ok_bits s).
Qed.

Lemma elems_0 : elems 0 = [].
Proof. vm_compute. reflexivity. Qed.

Lemma elems_length s : (length (elems s) ≤ 64)%nat.
Proof. unfold elems. etrans; [apply List.filter_length_le|]. by rewrite length_seq. Qed.

Lemma first_nil s : set_ok s → elems s = [] ↔ s = 0.
Proof.
  intros Hs. split; [|intros ->; apply elems_0]. intros He. destruct s as [|p|p]; [done| |unfold set_ok in Hs; lia].
  exfalso. assert (ctz p ∈ elems (Zpos p)) as Hin by (apply elem_elems; [done|apply ctz_bit]).
  rewrite He in Hin. by apply elem_of_nil in Hin.
Qed.

Lemma elems_cons s : set_ok s → 0 < s → elems s = trailing_zeros s :: elems (without_first s).
Proof.
  intros Hs Hpos. apply elems_ext; [done| |].
  - constructor; [apply elems_sorted|]. apply Forall_forall. intros i Hi.
    apply elem_elems in Hi; [|by apply without_first_ok]. rewrite without_first_bits in Hi by done.
    bool_simpl. apply Nat.eqb_neq in H0. destruct s as [|p|p]; try lia. unfold in_set in H. apply ctz_least in H.
    cbn in *. lia.
  - intros i. rewrite elem_of_cons, elem_elems by (by apply without_first_ok). rewrite without_first_bits, andb_true_iff by done.
    rewrite negb_true_iff, Nat.eqb_neq. destruct (decide (i = trailing_zeros s)) as [->|]; [|tauto].
    split; [by left|]. intros _. destruct s as [|p|p]; try lia. apply ctz_bit.
Qed.

Lemma elems_NoDup s : NoDup (elems s).
Proof. unfold elems. apply NoDup_ListNoDup, List.NoDup_filter, NoDup_ListNoDup, NoDup_seq. Qed.

Lemma elems_lt s i : set_ok s → i ∈ elems s → (i < 64)%nat.
Proof. intros Hs Hi. apply elem_elems in Hi; [|done]. by apply (set_ok_bits s). Qed.

#[global] Opaque elems.

(** ** The operations on lists *)
Lemma elems_lt_all s : set_ok s → Forall (λ i, i < 64)%nat (elems s).
Proof. intros Hs. apply Forall_forall. intros i. by apply elems_lt. Qed.

Lemma into_iter_elems s : set_ok s → into_iter s = elems s.
Proof.
  intros Hs. unfold into_iter.
  assert (∀ n s, set_ok s → (length (elems s) ≤ n)%nat → items n s = elems s) as Hitems.
  { clear. induction n as [|n IH]; intros s Hs Hlen.
    - by destruct (elems s); [|cbn in Hlen; lia].
    - cbn [items]. unfold next, first. destruct (Z.eqb_spec s 0) as [->|Hne]; [by rewrite elems_0|].
      pose proof (set_pos s Hs Hne) as Hpos. rewrite (elems_cons s Hs Hpos) in *. f_equal.
      apply IH; [by apply without_first_ok|cbn in Hlen; lia]. }
  apply Hitems; [done|]. apply elems_length.
Qed.

Lemma first_elems s : set_ok s → first s = head (elems s).
Proof.
  intros Hs. unfold first. destruct (Z.eqb_spec s 0) as [->|Hne]; [by rewrite elems_0|].
  rewrite (elems_cons s Hs (set_pos s Hs Hne)). reflexivity.
Qed.

Lemma without_first_elems s : set_ok s → elems (without_first s) = tail (elems s).
Proof.
  intros Hs. destruct (decide (s = 0)) as [->|Hne]; [change (without_first 0) with 0; by rewrite elems_0|].
  rewrite (elems_cons s Hs (set_pos s Hs Hne)). reflexivity.
Qed.

Lemma is_empty_elems s : set_ok s → is_empty s = (length (elems s) =? 0)%nat.
Proof.
  intros Hs. unfold is_empty. destruct (Z.eqb_spec s 0) as [->|Hne]; [by rewrite elems_0|].
  rewrite (elems_cons s Hs (set_pos s Hs Hne)). reflexivity.
Qed.

Lemma is_short_elems s : set_ok s → is_short s = (length (elems s) <=? 1)%nat.
Proof.
  intros Hs. unfold is_short. rewrite is_empty_elems by (by apply without_first_ok).
  rewrite without_first_elems by done. destruct (elems s) as [|? []]; done.
Qed.

Lemma is_long_elems s : set_ok s → is_long s = (1 <? length (elems s))%nat.
Proof.
  intros Hs. unfold is_long. rewrite is_short_elems by done. destruct (length (elems s)) as [|[]]; done.
Qed.

Lemma bit_some i : (i < 64)%nat → bit i = Some (2 ^ Z.of_nat i).
Proof. intros Hi. unfold bit. apply Nat.ltb_lt in Hi as ->. by rewrite Z.shiftl_1_l. Qed.

Lemma pow_ok i : (i < 64)%nat → set_ok (2 ^ Z.of_nat i).
Proof. intros Hi. split; [by apply Z.pow_nonneg|]. apply Z.pow_lt_mono_r; lia. Qed.

Lemma pow_bits i j : in_set (2 ^ Z.of_nat i) j = (i =? j)%nat.
Proof. unfold in_set. rewrite Z.pow2_bits_eqb by lia. destruct (Nat.eqb_spec i j) as [->|]; [apply Z.eqb_refl|]. apply Z.eqb_neq. lia. Qed.

Lemma lor_ok s t : set_ok s → set_ok t → set_ok (Z.lor s t).
Proof.
  intros Hs Ht. apply set_ok_of_bits; [apply Z.lor_nonneg; split; [apply Hs|apply Ht]|].
  intros i. unfold in_set. rewrite Z.lor_spec, orb_true_iff. intros [Hi|Hi]; [by apply (set_ok_bits s)|by apply (set_ok_bits t)].
Qed.

Lemma for_index_spec i : (i < 64)%nat → ∃ s, for_index i = Some s ∧ set_ok s ∧ elems s = [i].
Proof.
  intros Hi. exists (2 ^ Z.of_nat i). unfold for_index. rewrite bit_some by done. split_and!; [done|by apply pow_ok|].
  apply elems_ext; [by apply pow_ok|repeat constructor|]. intros j. rewrite pow_bits, list_elem_of_singleton, Nat.eqb_eq. done.
Qed.

Lemma bitor_spec s t : set_ok s → set_ok t →
  set_ok (bitor s t) ∧ ∀ i, i ∈ elems (bitor s t) ↔ i ∈ elems s ∨ i ∈ elems t.
Proof.
  intros Hs Ht. pose proof (lor_ok s t Hs Ht) as Ho. split; [done|]. intros i. rewrite !elem_elems by done.
  unfold bitor, in_set. rewrite Z.lor_spec, orb_true_iff. done.
Qed.

Lemma set_add_spec s i : set_ok s → (i < 64)%nat →
  ∃ s', add s i = Some s' ∧ set_ok s' ∧ ∀ j, j ∈ elems s' ↔ j = i ∨ j ∈ elems s.
Proof.
  intros Hs Hi. unfold add. rewrite bit_some by done. eexists. split; [done|].
  pose proof (lor_ok _ _ Hs (pow_ok i Hi)) as Ho. split; [done|]. intros j. rewrite !elem_elems by done.
  unfold in_set. rewrite Z.lor_spec, orb_true_iff. fold (in_set s j) (in_set (2 ^ Z.of_nat i) j).
  rewrite pow_bits, Nat.eqb_eq. naive_solver.
Qed.

(** An index above all others is appended. *)
Lemma add_last s i : set_ok s → (i < 64)%nat → Forall (λ j, j < i)%nat (elems s) →
  ∃ s', add s i = Some s' ∧ set_ok s' ∧ elems s' = elems s ++ [i].
Proof.
  intros Hs Hi Hlt. destruct (set_add_spec s i Hs Hi) as (s' & Hadd & Hok & Hel). exists s'. split_and!; [done..|].
  rewrite Forall_forall in Hlt. apply sorted_lt_unique; [apply elems_sorted| |].
  - apply StronglySorted_app. split_and!; [apply elems_sorted|repeat constructor|].
    intros x y Hx ->%list_elem_of_singleton. by apply Hlt.
  - intros j. rewrite Hel, elem_of_app, list_elem_of_singleton. tauto.
Qed.

Lemma remove_spec s i : set_ok s → (i < 64)%nat →
  ∃ s', remove s i = Some s' ∧ set_ok s' ∧ elems s' = List.filter (λ j, negb (j =? i)%nat) (elems s).
Proof.
  intros Hs Hi. unfold remove. rewrite bit_some by done. eexists. split; [done|].
  assert (set_ok (Z.ldiff s (2 ^ Z.of_nat i))) as Ho.
  { apply set_ok_of_bits; [apply Z.ldiff_nonneg; left; apply Hs|]. intros j. unfold in_set.
    rewrite Z.ldiff_spec, andb_true_iff. intros [Hj _]. by apply (set_ok_bits s). }
  split; [done|]. apply elems_ext; [done|apply filter_sorted, elems_sorted|]. intros j.
  rewrite list_elem_of_In, filter_In, <- list_elem_of_In, elem_elems by done. unfold in_set. rewrite Z.ldiff_spec, andb_true_iff.
  fold (in_set (2 ^ Z.of_nat i) j). rewrite pow_bits, !negb_true_iff, !Nat.eqb_neq. naive_solver.
Qed.

Lemma set_extend_spec l : ∀ s, set_ok s → Forall (λ i, i < 64)%nat l →
  ∃ s', extend s l = Some s' ∧ set_ok s' ∧ ∀ i, i ∈ elems s' ↔ i ∈ elems s ∨ i ∈ l.
Proof.
  induction l as [|j l IH]; intros s Hs Hl; cbn [extend].
  - exists s. split_and!; [done..|]. intros i. rewrite elem_of_nil. tauto.
  - apply Forall_cons in Hl as [Hj Hl]. destruct (for_index_spec j Hj) as (b & -> & Hb & Hbe). cbn [mbind option_bind].
    destruct (bitor_spec s b Hs Hb) as [Ho Hor]. destruct (IH _ Ho Hl) as (s' & Hs' & Hok & Hel).
    exists s'. split_and!; [done..|]. intros i. rewrite Hel, Hor, Hbe, list_elem_of_singleton, elem_of_cons. tauto.
Qed.

Lemma from_iter_spec l : Forall (λ i, i < 64)%nat l → StronglySorted lt l →
  ∃ s, from_iter l = Some s ∧ set_ok s ∧ elems s = l.
Proof.
  intros Hl Hsort. destruct (set_extend_spec l 0 ltac:(done) Hl) as (s & Hs & Hok & Hel). exists s. split_and!; [done..|].
  apply sorted_lt_unique; [apply elems_sorted|done|]. intros i. rewrite Hel, elems_0, elem_of_nil. tauto.
Qed.

Lemma land_double x y : Z.land (2 * x) (2 * y + 1) = 2 * Z.land x y.
Proof.
  apply Z.bits_inj'. intros n Hn. rewrite Z.land_spec. destruct (decide (n = 0)) as [->|Hne].
  - by rewrite !Z.testbit_even_0.
  - replace n with (Z.succ (n - 1)) by lia.
    rewrite !Z.testbit_even_succ, Z.testbit_odd_succ, Z.land_spec by lia. done.
Qed.

Lemma land_odd x : Z.land (2 * x + 1) (2 * x) = 2 * x.
Proof.
  apply Z.bits_inj'. intros n Hn. rewrite Z.land_spec. destruct (decide (n = 0)) as [->|Hne].
  - rewrite !Z.testbit_even_0. by rewrite andb_false_r.
  - replace n with (Z.succ (n - 1)) by lia.
    rewrite !Z.testbit_even_succ, Z.testbit_odd_succ by lia. by destruct (Z.testbit _ _).
Qed.

Lemma count_ones_double x : count_ones (2 * x) = count_ones x.
Proof. by destruct x. Qed.

Lemma popcount_pred p : popcount p = S (count_ones (Z.land (Zpos p) (Zpos p - 1))).
Proof.
  induction p as [p IH|p IH|]; [| |done].
  - replace (Zpos p~1 - 1) with (2 * Zpos p) by lia. replace (Zpos p~1) with (2 * Zpos p + 1) by lia.
    by rewrite land_odd, count_ones_double.
  - replace (Zpos p~0 - 1) with (2 * (Zpos p - 1) + 1) by lia. replace (Zpos p~0) with (2 * Zpos p) by lia.
    by rewrite land_double, count_ones_double.
Qed.

Lemma len_elems s : set_ok s → len s = length (elems s).
Proof.
  intros Hs. remember (length (elems s)) as n eqn:Hn. revert s Hs Hn.
  induction n as [|n IH]; intros s Hs Hn.
  - symmetry in Hn. apply nil_length_inv, first_nil in Hn as ->; done.
  - destruct (decide (s = 0)) as [->|Hne]; [by rewrite elems_0 in Hn|]. pose proof (set_pos s Hs Hne) as Hpos.
    rewrite (elems_cons s Hs Hpos) in Hn. injection Hn as Hn. specialize (IH _ (without_first_ok s Hs) Hn).
    rewrite <- IH. unfold len, without_first. destruct Hs. rewrite wrap_id by (done || (apply in_range_spec; cbn in *; lia)).
    destruct s as [|p|p]; try lia. cbn [count_ones]. apply popcount_pred.
Qed.

Lemma is_singleton_elems s : set_ok s → is_singleton s = (length (elems s) =? 1)%nat.
Proof. intros Hs. unfold is_singleton. by rewrite <- len_elems. Qed.
