(* ===== verification/MergeCursor.v ===== *)
(** The interfaces between a batch, its merger and its builder
    (traits [MergeCursor], [Builder] and struct [FilteredMergeCursor] of
    crates/dbsp/src/trace/cursor.rs and crates/dbsp/src/trace.rs).

    A batch is a sequence of keys, each with a sequence of values, each with its pairs of time and
    weight ([Data]).  [MergeCursor] reads such a sequence from its start, [Builder] writes one from the
    inside out: the pairs of a value, the value, and after its last value the key.
    [MergeCursorSpec] and [BuilderSpec] state what the merger relies on. *)
From Stdlib Require Import Sorting.Sorted.
From S2P Require Import Prelude Sort Trie LayerSpec.
#[local] Open Scope nat_scope.

Abbreviation Times T R := (list (T * R)).
Abbreviation Vals V T R := (list (V * list (T * R))).
Abbreviation Data K V T R := (list (K * list (V * list (T * R)))).

(** ** The traits *)

(** [map_times] may move the cursor within the times; it returns the pairs it passes to the closure.
    [key_mut] is a mutable reference: reading it, and what is left behind when it is moved out. *)
Class MergeCursor (C K V T R : Type) := {
  key_valid : C → bool;
  val_valid : C → bool;
  key : C → option K;
  val : C → option V;
  map_times : C → option (C * Times T R);
  step_key : C → option C;
  step_val : C → option C;
  has_mut : C → bool;
  key_mut : C → option K;
  set_key : C → K → option C;
  val_mut : C → option V;
  set_val : C → V → option C }.

(** The provided methods: no mutable access. *)
Definition no_mut {C A : Type} (_ : C) : option A := None.
Definition no_set {C A : Type} (_ : C) (_ : A) : option C := None.

(** The [_mut] methods return what they leave in the reference. *)
Class Builder (B O K V T R : Type) := {
  new_builder : B;
  push_time_diff : B → T → R → option B;
  push_time_diff_mut : B → T → R → option B;
  push_val : B → V → option B;
  push_val_mut : B → V → option (B * V);
  push_key : B → K → option B;
  push_key_mut : B → K → option (B * K);
  done : B → option O }.

(** ** Sequences that are in order *)
Section data.
Context `{Ord K} `{Ord V} `{Ord T} `{MonoidValue R}.
Implicit Types (ts : Times T R) (vs : Vals V T R) (d : Data K V T R).

Definition times_ok ts : Prop := canonical ts ∧ ts ≠ [].
Definition vals_ok vs : Prop := keys_sorted vs ∧ Forall times_ok vs.*2.
Definition entry_ok vs : Prop := vals_ok vs ∧ vs ≠ [].
Definition data_ok d : Prop := keys_sorted d ∧ Forall entry_ok d.*2.
(** What is left of such a sequence: the values of the first key may be used up. *)
Definition rest_ok d : Prop := keys_sorted d ∧ Forall vals_ok d.*2 ∧ Forall entry_ok (tail d).*2.

(** The tuples of a sequence. *)
Definition val_tups vs : list ((V * T) * R) := vs ≫= λ '(v, ts), prefix v ts.
Definition tuples d : list ((K * (V * T)) * R) := d ≫= λ '(k, vs), prefix k (val_tups vs).

Lemma data_ok_rest d : data_ok d → rest_ok d.
Proof.
  intros [Hs Hf]. split_and!; [done| |].
  - eapply Forall_impl; [done|]. by intros vs [].
  - destruct d; [done|]. by apply Forall_cons in Hf as [_ ?].
Qed.

Lemma val_tups_app vs1 vs2 : val_tups (vs1 ++ vs2) = val_tups vs1 ++ val_tups vs2.
Proof. apply bind_app. Qed.

Lemma tuples_app d1 d2 : tuples (d1 ++ d2) = tuples d1 ++ tuples d2.
Proof. apply bind_app. Qed.

Lemma tuples_cons k vs d : tuples ((k, vs) :: d) = prefix k (val_tups vs) ++ tuples d.
Proof. done. Qed.

Lemma prefix_app {A B : Type} (k : A) (l1 l2 : list (B * R)) : prefix k (l1 ++ l2) = prefix k l1 ++ prefix k l2.
Proof. apply fmap_app. Qed.

Lemma val_tups_keys vs i : i ∈ (val_tups vs).*1 → i.1 ∈ vs.*1.
Proof.
  induction vs as [|[v ts] vs IH]; cbn; [by intros ?%elem_of_nil|]. rewrite fmap_app, elem_of_app.
  intros [(t&->&_)%prefix_keys|Hi]; [left|right; auto].
Qed.

Lemma tuples_keys d i : i ∈ (tuples d).*1 → i.1 ∈ d.*1.
Proof.
  induction d as [|[k vs] d IH]; cbn; [by intros ?%elem_of_nil|]. rewrite fmap_app, elem_of_app.
  intros [(t&->&_)%prefix_keys|Hi]; [left|right; auto].
Qed.

Lemma val_tups_canonical vs : vals_ok vs → canonical (val_tups vs).
Proof.
  induction vs as [|[v ts] vs IH]; [intros _; apply canonical_nil|].
  intros [[Hs Hv]%keys_sorted_cons [[Ht _] Hts]%Forall_cons]. cbn. apply canonical_app. split_and!.
  - by apply canonical_prefix.
  - by apply IH.
  - intros i [v' t'] (t&->&_)%prefix_keys Hi%val_tups_keys. apply klt_pair. left. by apply Hv.
Qed.

(** A sequence in order is determined by the weights of its tuples. *)
Lemma tuples_canonical d : data_ok d → canonical (tuples d).
Proof.
  induction d as [|[k vs] d IH]; [intros _; apply canonical_nil|].
  intros [[Hs Hk]%keys_sorted_cons [[Hv _] Hd]%Forall_cons]. cbn. apply canonical_app. split_and!.
  - by apply canonical_prefix, val_tups_canonical.
  - by apply IH.
  - intros i [k' j'] (j&->&_)%prefix_keys Hi%tuples_keys. apply klt_pair. left. by apply Hk.
Qed.

(** The steps a cursor can take. *)
Definition remaining d : nat := sum_list ((λ p : K * Vals V T R, 1 + length p.2) <$> d).

Lemma remaining_cons k vs d : remaining ((k, vs) :: d) = 1 + length vs + remaining d.
Proof. done. Qed.
End data.

(** ** What the traits promise *)

(** [mc_rep m c d]: the cursor [c] is at the start of [d], and [m] says whether it gives mutable access. *)
Class MergeCursorSpec (C K V T R : Type) `{MergeCursor C K V T R} := {
  mc_rep : bool → C → Data K V T R → Prop;
  mc_has_mut : ∀ m c d, mc_rep m c d → has_mut c = m;
  mc_end : ∀ m c, mc_rep m c [] → key_valid c = false;
  mc_key : ∀ m c k vs d, mc_rep m c ((k, vs) :: d) → key_valid c = true ∧ key c = Some k;
  mc_val_valid : ∀ m c k vs d, mc_rep m c ((k, vs) :: d) → val_valid c = negb (bool_decide (vs = []));
  mc_val : ∀ m c k v ts vs d, mc_rep m c ((k, (v, ts) :: vs) :: d) → val c = Some v;
  mc_times : ∀ m c k v ts vs d, mc_rep m c ((k, (v, ts) :: vs) :: d) →
    ∃ c', map_times c = Some (c', ts) ∧ mc_rep m c' ((k, (v, ts) :: vs) :: d);
  mc_step_key : ∀ m c k vs d, mc_rep m c ((k, vs) :: d) → ∃ c', step_key c = Some c' ∧ mc_rep m c' d;
  mc_step_val : ∀ m c k v ts vs d, mc_rep m c ((k, (v, ts) :: vs) :: d) →
    ∃ c', step_val c = Some c' ∧ mc_rep m c' ((k, vs) :: d);
  mc_key_mut : ∀ c k vs d, mc_rep true c ((k, vs) :: d) →
    key_mut c = Some k ∧ ∀ k', ∃ c', set_key c k' = Some c' ∧ mc_rep true c' ((k', vs) :: d);
  mc_val_mut : ∀ c k v ts vs d, mc_rep true c ((k, (v, ts) :: vs) :: d) →
    val_mut c = Some v ∧ ∀ v', ∃ c', set_val c v' = Some c' ∧ mc_rep true c' ((k, (v', ts) :: vs) :: d) }.

(** [b_rep b d vs ts]: [b] has been given the keys [d], then the values [vs] of the next key, then the
    pairs [ts] of its next value; a pair is given for some value [v] that can follow [vs]. *)
Class BuilderSpec (B O K V T R : Type) `{Builder B O K V T R} `{Ord K} `{Ord V} `{Ord T} `{MonoidValue R} := {
  b_rep : B → Data K V T R → Vals V T R → Times T R → Prop;
  o_rep : O → Data K V T R → Prop;
  b_new : b_rep new_builder [] [] [];
  b_time : ∀ b d vs ts t r v, b_rep b d vs ts → vals_ok (vs ++ [(v, ts ++ [(t, r)])]) →
    ∃ b', push_time_diff b t r = Some b' ∧ b_rep b' d vs (ts ++ [(t, r)]);
  b_time_mut : ∀ b d vs ts t r v, b_rep b d vs ts → vals_ok (vs ++ [(v, ts ++ [(t, r)])]) →
    ∃ b', push_time_diff_mut b t r = Some b' ∧ b_rep b' d vs (ts ++ [(t, r)]);
  b_val : ∀ b d vs ts v, b_rep b d vs ts → vals_ok (vs ++ [(v, ts)]) →
    ∃ b', push_val b v = Some b' ∧ b_rep b' d (vs ++ [(v, ts)]) [];
  b_val_mut : ∀ b d vs ts v, b_rep b d vs ts → vals_ok (vs ++ [(v, ts)]) →
    ∃ b' v', push_val_mut b v = Some (b', v') ∧ b_rep b' d (vs ++ [(v, ts)]) [];
  b_key : ∀ b d vs k, b_rep b d vs [] → data_ok (d ++ [(k, vs)]) →
    ∃ b', push_key b k = Some b' ∧ b_rep b' (d ++ [(k, vs)]) [] [];
  b_key_mut : ∀ b d vs k, b_rep b d vs [] → data_ok (d ++ [(k, vs)]) →
    ∃ b' k', push_key_mut b k = Some (b', k') ∧ b_rep b' (d ++ [(k, vs)]) [] [];
  b_done : ∀ b d, b_rep b d [] [] → data_ok d → ∃ o, done b = Some o ∧ o_rep o d }.

(** ** Filters *)

(** [Filter::include] *)
Definition include {A} (filter : option (A → bool)) (x : A) : bool :=
  match filter with Some f => f x | None => true end.

Module Filtered.
Section filtered.
Context `{MergeCursor C K V T R}.

(** [loop_bound] bounds the iterations of the loops that skip; the code has no such field. *)
Record FilteredMergeCursor := mk {
  cursor : C; key_filter : option (K → bool); value_filter : option (V → bool); loop_bound : nat }.

Fixpoint skip_filtered_values (n : nat) (c : C) (value_filter : option (V → bool)) : option (C * bool) :=
  match n with
  | O => None
  | S n =>
    if val_valid c then
      v ← val c;
      if include value_filter v then Some (c, true)
      else c ← step_val c; skip_filtered_values n c value_filter
    else Some (c, false)
  end.

Fixpoint skip_filtered_keys (n : nat) (c : C) (key_filter : option (K → bool)) (value_filter : option (V → bool)) : option C :=
  match n with
  | O => None
  | S n' =>
    if key_valid c then
      k ← key c;
      '(c, found) ← (if include key_filter k then skip_filtered_values n c value_filter else Some (c, false));
      if (found : bool) then Some c
      else c ← step_key c; skip_filtered_keys n' c key_filter value_filter
    else Some c
  end.

Definition new (n : nat) (c : C) (key_filter : option (K → bool)) (value_filter : option (V → bool)) : option FilteredMergeCursor :=
  c ← skip_filtered_keys n c key_filter value_filter; Some (mk c key_filter value_filter n).

Definition with_cursor (self : FilteredMergeCursor) (c : C) : FilteredMergeCursor :=
  mk c (key_filter self) (value_filter self) (loop_bound self).

Definition f_map_times (self : FilteredMergeCursor) : option (FilteredMergeCursor * Times T R) :=
  '(c, ts) ← map_times (cursor self); Some (with_cursor self c, ts).
Definition f_step_key (self : FilteredMergeCursor) : option FilteredMergeCursor :=
  c ← step_key (cursor self);
  c ← skip_filtered_keys (loop_bound self) c (key_filter self) (value_filter self);
  Some (with_cursor self c).
Definition f_step_val (self : FilteredMergeCursor) : option FilteredMergeCursor :=
  c ← step_val (cursor self);
  '(c, _) ← skip_filtered_values (loop_bound self) c (value_filter self);
  Some (with_cursor self c).

#[export] Instance filtered_cursor : MergeCursor FilteredMergeCursor K V T R := {|
  key_valid := λ self, key_valid (cursor self);
  val_valid := λ self, val_valid (cursor self);
  key := λ self, key (cursor self);
  val := λ self, val (cursor self);
  map_times := f_map_times; step_key := f_step_key; step_val := f_step_val;
  has_mut := λ _, false;
  key_mut := no_mut; set_key := no_set; val_mut := no_mut; set_val := no_set |}.
End filtered.
#[global] Arguments FilteredMergeCursor : clear implicits.
End Filtered.

(** What is left of a sequence by filters: keys that lose all their values go too. *)
Section filter_data.
Context {K V T R : Type} (kf : option (K → bool)) (vf : option (V → bool)).
Implicit Types (vs : Vals V T R) (d : Data K V T R).

Definition filter_vals vs : Vals V T R := List.filter (λ p, include vf p.1) vs.
Definition filter_entry (k : K) (vs : Vals V T R) : Data K V T R :=
  if include kf k then emit k (nonempty (filter_vals vs)) else [].
Definition filter_data d : Data K V T R := d ≫= λ '(k, vs), filter_entry k vs.

Lemma filter_data_cons k vs d : filter_data ((k, vs) :: d) = filter_entry k vs ++ filter_data d.
Proof. done. Qed.

Lemma filter_vals_cons v ts vs : filter_vals ((v, ts) :: vs) = if include vf v then (v, ts) :: filter_vals vs else filter_vals vs.
Proof. done. Qed.

Lemma filter_prefix {A B : Type} (f : (A * B) * R → bool) (a : A) (l : list (B * R)) :
  List.filter f (prefix a l) = prefix a (List.filter (λ p, f ((a, p.1), p.2)) l).
Proof.
  induction l as [|[b r] l IH]; [done|]. cbn [prefix fmap list_fmap List.filter fst snd].
  destruct (f (a, b, r)); cbn; [f_equal|]; exact IH.
Qed.

Lemma filter_const {A} (b : bool) (l : list A) : List.filter (λ _, b) l = if b then l else [].
Proof. induction l as [|x l IH]; cbn; [by destruct b|]. rewrite IH. by destruct b. Qed.

Lemma filter_val_tups vs : List.filter (λ p, include vf p.1.1) (val_tups vs) = val_tups (filter_vals vs).
Proof.
  induction vs as [|[v ts] vs IH]; [done|]. rewrite filter_vals_cons.
  change (val_tups ((v, ts) :: vs)) with (prefix v ts ++ val_tups vs).
  rewrite List.filter_app, filter_prefix, IH. cbn [fst snd]. rewrite filter_const. by destruct (include vf v).
Qed.

(** The tuples that stay. *)
Lemma filter_data_tuples d :
  tuples (filter_data d) = List.filter (λ p, include kf p.1.1 && include vf p.1.2.1) (tuples d).
Proof.
  induction d as [|[k vs] d IH]; [done|].
  rewrite filter_data_cons, tuples_app, tuples_cons, List.filter_app, IH, filter_prefix. f_equal. cbn [fst snd].
  unfold filter_entry. destruct (include kf k); cbn [andb]; [|by rewrite filter_const].
  rewrite filter_val_tups. destruct (filter_vals vs) as [|p vs']; [done|].
  cbn [nonempty emit tuples mbind list_bind]. apply app_nil_r.
Qed.

Lemma filter_data_keys d k : k ∈ (filter_data d).*1 → k ∈ d.*1.
Proof.
  induction d as [|[k' vs] d IH]; [done|]. rewrite filter_data_cons, fmap_app, elem_of_app. unfold filter_entry.
  intros [Hk|Hk]; [|right; auto]. destruct (include kf k'); [|by apply elem_of_nil in Hk].
  apply emit_keys in Hk as ->. left.
Qed.
End filter_data.

Section filter_ok.
Context `{Ord K} `{Ord V} `{Ord T} `{MonoidValue R} (kf : option (K → bool)) (vf : option (V → bool)).
Implicit Types (vs : Vals V T R) (d : Data K V T R).

Lemma filter_vals_ok vs : vals_ok vs → vals_ok (filter_vals vf vs).
Proof.
  induction vs as [|[v ts] vs IH]; [done|]. intros [[Hs Hv]%keys_sorted_cons [Ht Hts]%Forall_cons].
  rewrite filter_vals_cons. destruct (IH (conj Hs Hts)) as [IH1 IH2]. destruct (include vf v); [|done].
  split; [|by constructor]. apply keys_sorted_cons. split; [done|].
  intros v' (p&->&Hp)%list_elem_of_fmap. unfold filter_vals in Hp. rewrite list_elem_of_In, filter_In, <- list_elem_of_In in Hp.
  apply Hv, list_elem_of_fmap. exists p. tauto.
Qed.

Lemma filter_data_ok d : data_ok d → data_ok (filter_data kf vf d).
Proof.
  induction d as [|[k vs] d IH]; [done|]. intros [[Hs Hk]%keys_sorted_cons [Hv Hd]%Forall_cons].
  rewrite filter_data_cons. destruct (IH (conj Hs Hd)) as [IH1 IH2]. unfold filter_entry.
  destruct (include kf k); [|done]. split.
  - apply keys_sorted_emit; [done|]. intros k' Hk'%filter_data_keys. by apply Hk.
  - apply (emit_valid entry_ok); [|done]. intros vs' Hvs'.
    destruct (filter_vals vf vs) eqn:E; simplify_eq/=. split; [|done]. rewrite <- E. by apply filter_vals_ok, Hv.
Qed.
End filter_ok.

(** ** The filtered cursor keeps the promise of the trait *)
Section filtered_spec.
Context `{MS : MergeCursorSpec C K V T R}.
Implicit Types (c : C) (vs : Vals V T R) (d : Data K V T R).
Import Filtered.

Lemma skip_values_spec vf m k d n : ∀ c vs, mc_rep m c ((k, vs) :: d) → length vs < n →
  ∃ c' vs' b, skip_filtered_values n c vf = Some (c', b) ∧ mc_rep m c' ((k, vs') :: d)
    ∧ filter_vals vf vs' = filter_vals vf vs ∧ length vs' ≤ length vs
    ∧ match vs' with [] => b = false | (v, _) :: _ => b = true ∧ include vf v = true end.
Proof.
  induction n as [|n IH]; intros c vs Hc Hn; [lia|]. cbn [skip_filtered_values].
  rewrite (mc_val_valid _ _ _ _ _ Hc). destruct vs as [|[v ts] vs]; cbn [bool_decide negb].
  { exists c, [], false. rewrite bool_decide_eq_true_2 by done. done. }
  rewrite bool_decide_eq_false_2 by done. cbn [negb]. rewrite (mc_val _ _ _ _ _ _ _ Hc). cbn [mbind option_bind].
  destruct (include vf v) eqn:Ev; [by exists c, ((v, ts) :: vs), true|].
  destruct (mc_step_val _ _ _ _ _ _ _ Hc) as (c1 & -> & Hc1). cbn [mbind option_bind]. cbn in Hn.
  destruct (IH c1 vs Hc1 ltac:(lia)) as (c' & vs' & b & Hskip & Hc' & Hf & Hlen & Hend).
  exists c', vs', b. split_and!; [done..| |cbn; lia|done]. by rewrite filter_vals_cons, Ev.
Qed.

(** The cursor is at a value that stays. *)
Definition settled kf vf d : Prop :=
  match d with
  | [] => True
  | (k, vs) :: _ => include kf k = true ∧ match vs with [] => False | (v, _) :: _ => include vf v = true end
  end.

Lemma skip_keys_spec kf vf m n : ∀ c d, mc_rep m c d → remaining d < n →
  ∃ c' d', skip_filtered_keys n c kf vf = Some c' ∧ mc_rep m c' d' ∧ filter_data kf vf d' = filter_data kf vf d
    ∧ remaining d' ≤ remaining d ∧ settled kf vf d'.
Proof.
  induction n as [|n IH]; intros c d Hc Hn; [lia|]. destruct d as [|[k vs] d].
  { cbn [skip_filtered_keys]. rewrite (mc_end _ _ Hc). by exists c, []. }
  cbn [skip_filtered_keys]. destruct (mc_key _ _ _ _ _ Hc) as [-> ->]. cbn [mbind option_bind].
  rewrite remaining_cons in Hn |- *.
  assert (∃ c' vs' b, (if include kf k then skip_filtered_values (S n) c vf else Some (c, false)) = Some (c', b)
    ∧ mc_rep m c' ((k, vs') :: d) ∧ length vs' ≤ length vs
    ∧ (if b then include kf k = true ∧ filter_vals vf vs' = filter_vals vf vs ∧ settled kf vf ((k, vs') :: d)
       else filter_entry kf vf k vs = [])) as (c1 & vs1 & b & -> & Hc1 & Hlen & Hb).
  { unfold filter_entry. destruct (include kf k) eqn:Ek; [|by exists c, vs, false].
    destruct (skip_values_spec vf m k d (S n) c vs Hc ltac:(lia)) as (c' & vs' & b & Hskip & Hc' & Hf & Hlen & Hend).
    exists c', vs', b. split_and!; [done..|]. destruct vs' as [|[v ts] vs'].
    - subst b. by rewrite <- Hf.
    - destruct Hend as [-> Hv]. split_and!; [done..|]. split; done. }
  cbn [mbind option_bind]. destruct b.
  - destruct Hb as (Hk & Hf & Hset). exists c1, ((k, vs1) :: d). split_and!; [done..| | |done].
    + rewrite !filter_data_cons. unfold filter_entry. by rewrite Hf.
    + rewrite remaining_cons. lia.
  - destruct (mc_step_key _ _ _ _ _ Hc1) as (c2 & -> & Hc2). cbn [mbind option_bind].
    destruct (IH c2 d Hc2 ltac:(lia)) as (c' & d' & Hskip & Hc' & Hf & Hrem & Hset).
    exists c', d'. split_and!; [done..| |lia|done]. rewrite filter_data_cons, Hb. done.
Qed.

(** What is left for the filtered cursor: its current key, even without values. *)
Definition filtered_rest kf vf d : Data K V T R :=
  match d with [] => [] | (k, vs) :: d => (k, filter_vals vf vs) :: filter_data kf vf d end.

Definition filtered_rep (m : bool) (self : FilteredMergeCursor C K V) (d' : Data K V T R) : Prop :=
  m = false ∧ ∃ m' d, mc_rep m' (cursor self) d ∧ remaining d < loop_bound self
    ∧ d' = filtered_rest (key_filter self) (value_filter self) d
    ∧ match d with (_, (v, _) :: _) :: _ => include (value_filter self) v = true | _ => True end.

Lemma settled_rest kf vf d : settled kf vf d → filtered_rest kf vf d = filter_data kf vf d.
Proof.
  destruct d as [|[k [|[v ts] vs]] d]; [done|by intros []|]. intros [Hk Hv]. cbn [filtered_rest].
  rewrite filter_data_cons. unfold filter_entry. by rewrite Hk, filter_vals_cons, Hv.
Qed.

Lemma filtered_new kf vf m n c d : mc_rep m c d → remaining d < n →
  ∃ self, new n c kf vf = Some self ∧ filtered_rep false self (filter_data kf vf d).
Proof.
  intros Hc Hn. destruct (skip_keys_spec kf vf m n c d Hc Hn) as (c' & d' & Hs & Hc' & Hf & Hrem & Hset).
  unfold new. rewrite Hs. eexists. split; [done|]. split; [done|]. exists m, d'. cbn.
  split_and!; [done|lia|by rewrite settled_rest|]. by destruct d' as [|[k [|[v ts] vs]] d']; [| |destruct Hset].
Qed.

Lemma filtered_inv self k vs d' : filtered_rep false self ((k, vs) :: d') →
  ∃ m vs0 d, mc_rep m (cursor self) ((k, vs0) :: d) ∧ remaining ((k, vs0) :: d) < loop_bound self
    ∧ vs = filter_vals (value_filter self) vs0 ∧ d' = filter_data (key_filter self) (value_filter self) d
    ∧ match vs with
      | [] => vs0 = []
      | (v, ts) :: vs => ∃ vs1, vs0 = (v, ts) :: vs1 ∧ vs = filter_vals (value_filter self) vs1
      end.
Proof.
  intros (_ & m & [|[k0 vs0] d] & Hc & Hn & Heq & Hv); [done|]. cbn [filtered_rest] in Heq. injection Heq as <- -> ->.
  exists m, vs0, d. split_and!; [done..|]. destruct vs0 as [|[v ts] vs1]; [done|].
  rewrite filter_vals_cons, Hv. by exists vs1.
Qed.

#[export] Program Instance filtered_spec : MergeCursorSpec (FilteredMergeCursor C K V) K V T R := {| mc_rep := filtered_rep |}.
Next Obligation. by intros m c d [-> _]. Qed.
Next Obligation. intros m c (_ & m' & [|[] d] & Hc & _ & Heq & _); [|done]. cbn. by eapply mc_end. Qed.
Next Obligation.
  intros m c k vs d Hr. pose proof Hr as [-> _]. apply filtered_inv in Hr as (m & vs0 & d0 & Hc & _). cbn. by eapply mc_key.
Qed.
Next Obligation.
  intros m c k vs d Hr. pose proof Hr as [-> _]. apply filtered_inv in Hr as (m & vs0 & d0 & Hc & _ & _ & _ & Hv). cbn.
  rewrite (mc_val_valid _ _ _ _ _ Hc). f_equal. apply bool_decide_ext. destruct vs as [|[v ts] vs]; [by subst|].
  by destruct Hv as (? & -> & _).
Qed.
Next Obligation.
  intros m c k v ts vs d Hr. pose proof Hr as [-> _]. apply filtered_inv in Hr as (m & vs0 & d0 & Hc & _ & _ & _ & ? & -> & _).
  cbn. by eapply mc_val.
Qed.
Next Obligation.
  intros m c k v ts vs d Hr. pose proof Hr as [-> _].
  apply filtered_inv in Hr as (m & vs0 & d0 & Hc & Hn & Hvs & Hd & vs1 & -> & Hvs1).
  destruct (mc_times _ _ _ _ _ _ _ Hc) as (c' & Ht & Hc'). cbn. unfold f_map_times. rewrite Ht. eexists. split; [done|].
  split; [done|]. exists m, ((k, (v, ts) :: vs1) :: d0). cbn [with_cursor cursor loop_bound key_filter value_filter filtered_rest].
  split_and!; [done..|by rewrite <- Hvs, <- Hd|]. destruct (include _ v) eqn:E; [done|].
  rewrite filter_vals_cons, E in Hvs. exfalso. apply (f_equal length) in Hvs. cbn in Hvs.
  pose proof (List.filter_length_le (λ p, include (value_filter c) p.1) vs1). unfold filter_vals in *. subst vs. lia.
Qed.
Next Obligation.
  intros m c k vs d Hr. pose proof Hr as [-> _]. apply filtered_inv in Hr as (m & vs0 & d0 & Hc & Hn & _ & -> & _).
  destruct (mc_step_key _ _ _ _ _ Hc) as (c1 & Hs & Hc1). cbn. unfold f_step_key. rewrite Hs. cbn [mbind option_bind].
  rewrite remaining_cons in Hn.
  destruct (skip_keys_spec (key_filter c) (value_filter c) m (loop_bound c) c1 d0 Hc1 ltac:(lia)) as (c' & d' & -> & Hc' & Hf & Hrem & Hset).
  eexists. split; [done|]. split; [done|]. exists m, d'. cbn [with_cursor cursor loop_bound key_filter value_filter].
  split_and!; [done|lia|by rewrite settled_rest|]. by destruct d' as [|[k' [|[v ts] vs']] d']; [| |destruct Hset].
Qed.
Next Obligation.
  intros m c k v ts vs d Hr. pose proof Hr as [-> _].
  apply filtered_inv in Hr as (m & vs0 & d0 & Hc & Hn & _ & -> & vs1 & -> & ->).
  destruct (mc_step_val _ _ _ _ _ _ _ Hc) as (c1 & Hs & Hc1). cbn. unfold f_step_val. rewrite Hs. cbn [mbind option_bind].
  rewrite remaining_cons, length_cons in Hn.
  destruct (skip_values_spec (value_filter c) m k d0 (loop_bound c) c1 vs1 Hc1 ltac:(lia)) as (c' & vs' & b & -> & Hc' & Hf & Hlen & Hend).
  eexists. split; [done|]. split; [done|]. exists m, ((k, vs') :: d0). cbn [with_cursor cursor loop_bound key_filter value_filter filtered_rest].
  split_and!; [done| |by rewrite Hf|by destruct vs' as [|[] ?]; [|destruct Hend]].
  rewrite remaining_cons. lia.
Qed.
Next Obligation. by intros c k vs d [? _]. Qed.
Next Obligation. by intros c k v ts vs d [? _]. Qed.
End filtered_spec.
