(* ===== verification/ListMerger.v ===== *)
(** Merging up to 64 batches at a time, in steps bounded by fuel
    (crates/dbsp/src/trace/spine_async/list_merger.rs).

    The merger holds a cursor for every batch.  It looks for the cursors at the smallest key, among
    these for the ones at the smallest value, consolidates their times and weights and gives the
    result to a builder; when fuel runs out it returns, and the next call goes on where it stopped. *)
From S2P Require Import Prelude Machine Order Timestamp Sort Quicksort Search LeanVec Consolidation Trie LayerSpec IndexSet MergeCursor Scheduler.
#[local] Open Scope nat_scope.
Import IndexSet.

(** [find_min_indexes]: the indexes with the smallest items. *)
Fixpoint find_min_from `{Ord A} (iterator : list (nat * A)) (min_value : A) (min_indexes : IndexSet) : option IndexSet :=
  match iterator with
  | [] => Some min_indexes
  | (index, value) :: iterator =>
    match cmp value min_value with
    | Lt => s ← for_index index; find_min_from iterator value s
    | Eq => s ← add min_indexes index; find_min_from iterator min_value s
    | Gt => find_min_from iterator min_value min_indexes
    end
  end.
Definition find_min_indexes `{Ord A} (iterator : list (nat * A)) : option IndexSet :=
  match iterator with
  | [] => None
  | (min_index, min_value) :: iterator => s ← for_index min_index; find_min_from iterator min_value s
  end.

Module ListMerger.
Section merger.
Context `{Ord K} `{Ord V} `{Ord T} `{MonoidValue R} `{MC : MergeCursor C K V T R} `{BU : Builder B Out K V T R}.
(** The size of a pair of time and weight, and the default time. *)
Context (size : nat) (default_time : T).

(** [time_diffs] says whether there is a buffer of times, that is, whether the batches are timed;
    the buffers themselves hold nothing between calls. *)
Record ListMerger := mk {
  cursors : list C; any_values : bool; has_mut : list bool; time_diffs : bool }.

Definition new (timed : bool) (cursors : list C) : option ListMerger :=
  assert! (length cursors <=? 64) in
  Some (mk cursors false (MergeCursor.has_mut <$> cursors) timed).

Definition with_cursor (self : ListMerger) (i : nat) (c : C) : ListMerger :=
  mk (<[i := c]> (cursors self)) (any_values self) (has_mut self) (time_diffs self).
Definition with_any (self : ListMerger) (b : bool) : ListMerger :=
  mk (cursors self) b (has_mut self) (time_diffs self).
Definition with_cursors (self : ListMerger) (cs : list C) : ListMerger :=
  mk cs (any_values self) (has_mut self) (time_diffs self).

(** The pairs of the current values of the cursors [indexes], through [map_times]. *)
Fixpoint gather (cs : list C) (indexes : list nat) : option (list C * Times T R) :=
  match indexes with
  | [] => Some (cs, [])
  | i :: indexes =>
    c ← cs !! i;
    '(c, ts) ← map_times c;
    '(cs, ts') ← gather (<[i := c]> cs) indexes;
    Some (cs, ts ++ ts')
  end.

Definition push_times (b : B) (ts : Times T R) : option B :=
  foldM (λ b '(t, r), push_time_diff b t r) b ts.
Definition advance_times (map_func : T → T) (ts : Times T R) : Times T R := (λ '(t, r), (map_func t, r)) <$> ts.
Definition total_weight (ts : Times T R) : R := foldl (λ w '(_, r), w ⊕ r) mzero ts.

(** The builder with the times of the value, or nothing if they cancel. *)
Definition push_consolidated (b : B) (ts : Times T R) : option (option B) :=
  ts ← consolidate_from size ts 0;
  match ts with [] => Some None | _ => b ← push_times b ts; Some (Some b) end.

Definition copy_value (self : ListMerger) (b : B) (index : nat) : option (ListMerger * B) :=
  m ← has_mut self !! index;
  c ← cursors self !! index;
  if (m : bool) then
    v ← val_mut c;
    '(b, v) ← push_val_mut b v;
    c ← set_val c v;
    Some (with_cursor self index c, b)
  else
    v ← val c;
    b ← push_val b v;
    Some (self, b).

Definition copy_key (self : ListMerger) (b : B) (index : nat) : option (ListMerger * B) :=
  m ← has_mut self !! index;
  c ← cursors self !! index;
  if (m : bool) then
    k ← key_mut c;
    '(b, k) ← push_key_mut b k;
    c ← set_key c k;
    Some (with_cursor self index c, b)
  else
    k ← key c;
    b ← push_key b k;
    Some (self, b).

Definition copy_times (self : ListMerger) (b : B) (map_func : option (T → T)) (indexes : IndexSet) (fuel : Z) :
    option (ListMerger * B * Z * bool) :=
  '(cs, ts) ← gather (cursors self) (into_iter indexes);
  let self := with_cursors self cs in
  pushed ← (if time_diffs self then
      match map_func with
      | Some f => push_consolidated b (advance_times f ts)
      | None =>
        if is_long indexes then push_consolidated b ts
        else assert! (len indexes =? 1) in b ← push_times b ts; Some (Some b)
      end
    else
      let w := total_weight ts in
      if is_zero w then Some None else b ← push_time_diff_mut b default_time w; Some (Some b));
  match pushed with
  | None => Some (self, b, fuel, false)
  | Some b =>
    index ← first indexes;
    '(self, b) ← copy_value self b index;
    Some (self, b, (fuel - 1)%Z, true)
  end.

(** [self.any_values = self.copy_times(...) || self.any_values] *)
Definition copy_any (self : ListMerger) (b : B) (map_func : option (T → T)) (indexes : IndexSet) (fuel : Z) :
    option (ListMerger * B * Z) :=
  '(self, b, fuel, copied) ← copy_times self b map_func indexes fuel;
  Some (with_any self (copied || any_values self), b, fuel).

Definition cursor_step_val (self : ListMerger) (index : nat) : option (ListMerger * bool) :=
  c ← cursors self !! index;
  c ← step_val c;
  Some (with_cursor self index c, val_valid c).
Definition cursor_step_key (self : ListMerger) (index : nat) : option (ListMerger * bool) :=
  c ← cursors self !! index;
  c ← step_key c;
  Some (with_cursor self index c, key_valid c).

(** Steps the cursors [indexes] and removes the ones that are used up from [set]. *)
Fixpoint step_all (step : ListMerger → nat → option (ListMerger * bool)) (self : ListMerger) (set : IndexSet)
    (indexes : list nat) : option (ListMerger * IndexSet) :=
  match indexes with
  | [] => Some (self, set)
  | index :: indexes =>
    '(self, valid) ← step self index;
    set ← (if (valid : bool) then Some set else remove set index);
    step_all step self set indexes
  end.

Fixpoint current {A} (f : C → option A) (self : ListMerger) (indexes : list nat) : option (list (nat * A)) :=
  match indexes with
  | [] => Some []
  | index :: indexes =>
    c ← cursors self !! index;
    x ← f c;
    l ← current f self indexes;
    Some ((index, x) :: l)
  end.

(** The loop over the values while more than one cursor has the key; [true] is an early return. *)
Fixpoint merge_values (n : nat) (self : ListMerger) (b : B) (map_func : option (T → T)) (min_keys : IndexSet) (fuel : Z) :
    option (bool * ListMerger * B * IndexSet * Z) :=
  if is_long min_keys then
    match n with
    | O => None
    | S n =>
      items ← current val self (into_iter min_keys);
      min_vals ← find_min_indexes items;
      '(self, b, fuel) ← copy_any self b map_func min_vals fuel;
      '(self, min_keys) ← step_all cursor_step_val self min_keys (into_iter min_vals);
      if (fuel <=? 0)%Z then Some (true, self, b, min_keys, fuel)
      else merge_values n self b map_func min_keys fuel
    end
  else Some (false, self, b, min_keys, fuel).

(** The loop over the values of the last cursor with the key. *)
Fixpoint copy_values (n : nat) (self : ListMerger) (b : B) (map_func : option (T → T)) (min_keys : IndexSet) (index : nat) (fuel : Z) :
    option (bool * ListMerger * B * Z) :=
  match n with
  | O => None
  | S n =>
    '(self, b, fuel) ← copy_any self b map_func min_keys fuel;
    '(self, valid) ← cursor_step_val self index;
    if (fuel <=? 0)%Z then Some (true, self, b, fuel)
    else if (valid : bool) then copy_values n self b map_func min_keys index fuel
    else Some (false, self, b, fuel)
  end.

Definition filter_valid (self : ListMerger) (indexes : list nat) : option (list nat) :=
  foldM (λ l index, c ← cursors self !! index; Some (if val_valid c then l ++ [index] else l)) [] indexes.

(** The key, if any of its values were written. *)
Definition finish_key (self : ListMerger) (b : B) (index : option nat) : option (ListMerger * B) :=
  if any_values self then
    index ← index;
    '(self, b) ← copy_key self b index;
    Some (with_any self false, b)
  else Some (self, b).

(** The loop over the keys while there is more than one cursor. *)
Fixpoint merge_keys (n : nat) (self : ListMerger) (b : B) (map_func : option (T → T)) (remaining_cursors : IndexSet) (fuel : Z) :
    option (bool * ListMerger * B * IndexSet * Z) :=
  if is_long remaining_cursors && (0 <? fuel)%Z then
    match n with
    | O => None
    | S n' =>
      items ← current key self (into_iter remaining_cursors);
      orig_min_keys ← find_min_indexes items;
      min_keys ← (if any_values self
                  then l ← filter_valid self (into_iter orig_min_keys); from_iter l
                  else Some orig_min_keys);
      '(returned, self, b, min_keys, fuel) ← merge_values n self b map_func min_keys fuel;
      if (returned : bool) then Some (true, self, b, remaining_cursors, fuel)
      else
      '(returned, self, b, fuel) ← (match first min_keys with
        | Some index => copy_values n self b map_func min_keys index fuel
        | None => Some (false, self, b, fuel)
        end);
      if (returned : bool) then Some (true, self, b, remaining_cursors, fuel)
      else
      '(self, b) ← finish_key self b (first orig_min_keys);
      '(self, remaining_cursors) ← step_all cursor_step_key self remaining_cursors (into_iter orig_min_keys);
      merge_keys n' self b map_func remaining_cursors fuel
    end
  else Some (false, self, b, remaining_cursors, fuel).

(** The values of the last cursor's current key. *)
Fixpoint copy_last_values (n : nat) (self : ListMerger) (b : B) (map_func : option (T → T)) (remaining_cursors : IndexSet)
    (index : nat) (fuel : Z) : option (bool * ListMerger * B * Z) :=
  match n with
  | O => None
  | S n =>
    '(self, b, fuel) ← copy_any self b map_func remaining_cursors fuel;
    '(self, valid) ← cursor_step_val self index;
    if negb valid then Some (false, self, b, fuel)
    else if (fuel <=? 0)%Z then Some (true, self, b, fuel)
    else copy_last_values n self b map_func remaining_cursors index fuel
  end.

Fixpoint copy_last (n : nat) (self : ListMerger) (b : B) (map_func : option (T → T)) (remaining_cursors : IndexSet) (index : nat) (fuel : Z) :
    option (ListMerger * B * Z) :=
  if (0 <? fuel)%Z then
    match n with
    | O => None
    | S n' =>
      '(returned, self, b, fuel) ← copy_last_values n self b map_func remaining_cursors index fuel;
      if (returned : bool) then Some (self, b, fuel)
      else
      assert! (bool_decide (is_Some map_func) || any_values self) in
      '(self, b) ← finish_key self b (Some index);
      '(self, valid) ← cursor_step_key self index;
      if (valid : bool) then copy_last n' self b map_func remaining_cursors index fuel
      else Some (self, b, fuel)
    end
  else Some (self, b, fuel).

Definition valid_cursors (self : ListMerger) : list nat :=
  omap (λ '(i, c), if key_valid c then Some i else None) (zip (seq 0 (length (cursors self))) (cursors self)).

(** [work], with the function that advances times; [n] bounds the iterations of its loops. *)
Definition work_with (n : nat) (self : ListMerger) (b : B) (time_map_func : option (T → T)) (fuel : Z) :
    option (ListMerger * B * Z) :=
  assert! (length (cursors self) <=? 64) in
  remaining_cursors ← from_iter (valid_cursors self);
  if is_empty remaining_cursors then Some (self, b, fuel)
  else
  '(returned, self, b, remaining_cursors, fuel) ← merge_keys n self b time_map_func remaining_cursors fuel;
  if (returned : bool) then Some (self, b, fuel)
  else match first remaining_cursors with
       | Some index => copy_last n self b time_map_func remaining_cursors index fuel
       | None => Some (self, b, fuel)
       end.
End merger.
#[global] Arguments ListMerger : clear implicits.

(** [ListMerger::work]; times below the frontier are advanced to it. *)
Definition time_map_func `{Timestamp T} (frontier : T) : option (T → T) :=
  if eqb frontier minimum then None else Some (λ t, join_assign t frontier).

Section work.
Context `{Ord K} `{Ord V} `{Ord T} `{MonoidValue R} `{MC : MergeCursor C K V T R} `{BU : Builder B Out K V T R} `{TS : Timestamp T}.
Context (size : nat) (default_time : T).

Definition work (n : nat) (self : ListMerger C) (b : B) (frontier : T) (fuel : Z) : option (ListMerger C * B * Z) :=
  work_with (MC := MC) (BU := BU) size default_time n self b (time_map_func frontier) fuel.

(** [ListMerger::merge], with fuel [isize::MAX]. *)
Definition ISIZE_MAX : Z := (2 ^ 63 - 1)%Z.
Definition merge (n : nat) (timed : bool) (builder : B) (cursors : list C) : option Out :=
  merger ← new (MC := MC) timed cursors;
  '(merger, builder, fuel) ← work n merger builder default_time ISIZE_MAX;
  assert! (0 <? fuel)%Z in
  MergeCursor.done (Builder := BU) builder.
End work.
End ListMerger.
