(* ===== verification/ListMergerSpec.v ===== *)
(** Correctness of the fuel-bounded merger of batches.

    This file has the facts on weights, sequences of tuples and smallest elements that the proofs
    share; ListMergerStep is about one value, ListMergerLoops and ListMergerKeys follow the loops, and
    ListMergerWork has the invariant of the whole function, with what its fuel buys. *)
From Stdlib Require Import Sorting.Sorted.
From S2P Require Import Prelude Machine Sort Consolidation Trie LayerSpec IndexSet MergeCursor Scheduler SchedulerSpec ListMerger.
#[local] Open Scope nat_scope.
Import ListMerger.

(** ** Weights of mapped keys *)
Section remap.
Context `{Ord J} `{MonoidValue R}.
Implicit Types (l : list (J * R)).

(** The sum of [f] over a list of keys. *)
Fixpoint sum_over (f : J → R) (ks : list J) : R :=
  match ks with [] => mzero | k :: ks => f k ⊕ sum_over f ks end.

Lemma sum_over_zero (f : J → R) ks : (∀ k, k ∈ ks → f k = mzero) → sum_over f ks = mzero.
Proof.
  induction ks as [|k ks IH]; [done|]. intros Hz. cbn. rewrite Hz by left.
  rewrite IH; [apply madd_0_l|]. intros k' Hk'. apply Hz. by right.
Qed.

Lemma sum_over_add (f1 f2 : J → R) ks : sum_over (λ k, f1 k ⊕ f2 k) ks = sum_over f1 ks ⊕ sum_over f2 ks.
Proof.
  induction ks as [|k ks IH]; cbn; [by rewrite madd_0_l|]. rewrite IH, <- !madd_assoc. f_equal. apply madd_swap.
Qed.

Lemma sum_over_ext (f1 f2 : J → R) ks : (∀ k, k ∈ ks → f1 k = f2 k) → sum_over f1 ks = sum_over f2 ks.
Proof.
  induction ks as [|k ks IH]; [done|]. intros He. cbn. f_equal; [apply He; left|]. apply IH. intros k' ?. apply He. by right.
Qed.

Lemma sum_over_single (f : J → R) k ks : NoDup ks → k ∈ ks → (∀ k', k' ≠ k → f k' = mzero) → sum_over f ks = f k.
Proof.
  induction 1 as [|k0 ks Hni Hnd IH]; intros Hk Hz; [by apply elem_of_nil in Hk|]. cbn.
  apply elem_of_cons in Hk as [<-|Hk].
  - rewrite sum_over_zero, madd_0_r; [done|]. intros k' Hk'. apply Hz. by intros ->.
  - rewrite (Hz k0), madd_0_l by (by intros ->). auto.
Qed.

(** The weight of a mapped key is the sum of the weights of the keys that are mapped to it. *)
Lemma wt_remap_sum (g : J → J) l ks i : NoDup ks → (∀ k, k ∈ l.*1 → k ∈ ks) →
  wt (remap g l) i = sum_over (λ k, if decide (g k = i) then wt l k else mzero) ks.
Proof.
  intros Hnd. induction l as [|[k r] l IH]; intros Hin.
  - cbn. symmetry. apply sum_over_zero. intros k _. by case_decide.
  - change (remap g ((k, r) :: l)) with ((g k, r) :: remap g l). cbn [wt].
    rewrite IH by (intros k' Hk'; apply Hin; by right). symmetry.
    rewrite (sum_over_ext _ (λ k', (if decide (k' = k) then if decide (g k = i) then r else mzero else mzero)
      ⊕ (if decide (g k' = i) then wt l k' else mzero))).
    2: { intros k' _. destruct (decide (k' = k)) as [->|Hne].
         - rewrite !(decide_True (P := k = k)) by done. case_decide; [done|by rewrite madd_0_l].
         - rewrite (decide_False (P := k = k')) by congruence. by rewrite madd_0_l. }
    rewrite sum_over_add, (sum_over_single _ k ks Hnd); [|apply Hin; left|].
    2: { intros k' Hne. by rewrite decide_False. }
    rewrite (decide_True (P := k = k)) by done. case_decide; [done|by rewrite madd_0_l].
Qed.

Lemma wt_remap_ext (g : J → J) l1 l2 : (∀ k, wt l1 k = wt l2 k) → ∀ i, wt (remap g l1) i = wt (remap g l2) i.
Proof.
  intros He i. set (ks := remove_dups (l1.*1 ++ l2.*1)).
  assert (NoDup ks) as Hnd by apply NoDup_remove_dups.
  rewrite !(wt_remap_sum g _ ks) by (done || (intros k Hk; apply elem_of_remove_dups, elem_of_app; tauto)).
  apply sum_over_ext. intros k _. by rewrite He.
Qed.

Lemma remap_compose (f g : J → J) l : remap g (remap f l) = remap (λ j, g (f j)) l.
Proof. unfold remap. rewrite <- list_fmap_compose. by apply list_fmap_ext; intros ? [j r] _. Qed.

Lemma remap_ext (f g : J → J) l : (∀ j, f j = g j) → remap f l = remap g l.
Proof. intros He. apply list_fmap_ext. intros ? [j r] _. by rewrite He. Qed.
End remap.

(** ** The smallest items *)
Section find_min.
Context `{Ord A}.
Implicit Types (l : list (nat * A)) (x y : A).

(** [s] is the set of the indexes of [x] in [l], and nothing in [l] is smaller. *)
Definition min_set l x (s : Z) : Prop :=
  set_ok s ∧ x ∈ l.*2 ∧ (∀ y, y ∈ l.*2 → ¬ y ≺ x) ∧ (∀ i, i ∈ elems s ↔ (i, x) ∈ l).

Lemma find_min_from_spec l2 : ∀ l1 x s, Forall (λ p, p.1 < 64) l2 → min_set l1 x s →
  ∃ s' y, find_min_from l2 x s = Some s' ∧ min_set (l1 ++ l2) y s'.
Proof.
  induction l2 as [|[i y] l2 IH]; intros l1 x s Hl Hm; cbn [find_min_from].
  { exists s, x. by rewrite app_nil_r. }
  apply Forall_cons in Hl as [Hi Hl]. cbn in Hi. destruct Hm as (Hs & Hx & Hmin & Hel).
  assert (∀ z s', min_set (l1 ++ [(i, y)]) z s' → ∃ s'' y', find_min_from l2 z s' = Some s'' ∧ min_set (l1 ++ (i, y) :: l2) y' s'') as Hnext.
  { intros z s' Hm. replace (l1 ++ (i, y) :: l2) with ((l1 ++ [(i, y)]) ++ l2) by by rewrite <- app_assoc. by apply IH. }
  assert (∀ z, z ∈ (l1 ++ [(i, y)]).*2 ↔ z ∈ l1.*2 ∨ z = y) as Hin.
  { intros z. rewrite fmap_app, elem_of_app. cbn. by rewrite list_elem_of_singleton. }
  assert (∀ j z, (j, z) ∈ l1 ++ [(i, y)] ↔ (j, z) ∈ l1 ∨ (j = i ∧ z = y)) as Hin'.
  { intros j z. rewrite elem_of_app, list_elem_of_singleton. by rewrite pair_equal_spec. }
  destruct (cmp y x) eqn:E.
  - apply cmp_eq in E as ->. destruct (set_add_spec s i Hs Hi) as (s' & -> & Hs' & Hel'). cbn [mbind option_bind].
    apply Hnext. split_and!; [done|apply Hin; by left| |].
    + intros z [Hz| ->]%Hin; [auto|apply klt_irrefl].
    + intros j. rewrite Hel', Hel, Hin'. tauto.
  - destruct (for_index_spec i Hi) as (s' & -> & Hs' & Hel'). cbn [mbind option_bind].
    apply Hnext. split_and!; [done|apply Hin; by right| |].
    + intros z [Hz| ->]%Hin; [|apply klt_irrefl]. intros Hlt. apply (Hmin z Hz). by transitivity y.
    + intros j. rewrite Hel', list_elem_of_singleton, Hin'. split; [by right|]. intros [Hj|[-> _]]; [|done].
      exfalso. apply (Hmin y); [|done]. apply list_elem_of_fmap. by exists (j, y).
  - apply Hnext. split_and!; [done|apply Hin; by left| |].
    + intros z [Hz| ->]%Hin; [auto|]. intros Hlt. unfold klt in Hlt. congruence.
    + intros j. rewrite Hel, Hin'. split; [by left|]. intros [|[-> ->]]; [done|]. by rewrite cmp_refl in E.
Qed.

Lemma find_min_spec l : Forall (λ p, p.1 < 64) l → l ≠ [] → ∃ s x, find_min_indexes l = Some s ∧ min_set l x s.
Proof.
  destruct l as [|[i x] l]; [done|]. intros [Hi Hl]%Forall_cons _. cbn in Hi. cbn [find_min_indexes].
  destruct (for_index_spec i Hi) as (s & -> & Hs & Hel). cbn [mbind option_bind].
  apply (find_min_from_spec l [(i, x)] x s Hl). split_and!; [done|by left| |].
  - intros y ->%list_elem_of_singleton. apply klt_irrefl.
  - intros j. rewrite Hel, !list_elem_of_singleton, pair_equal_spec. tauto.
Qed.

Lemma not_klt x y : ¬ y ≺ x → x = y ∨ x ≺ y.
Proof. intros Hn. destruct (klt_trichotomy x y) as [|[|]]; tauto. Qed.
End find_min.
