(* ===== verification/ListMergerStep.v ===== *)
(** One value through the merger: gathering its times, consolidating and writing them, and moving on.
    [heads] says that some of the cursors have a value, [copy_times] writes the sum of its times. *)
From Stdlib Require Import Sorting.Sorted.
From S2P Require Import Prelude Machine Sort Consolidation Trie LayerSpec IndexSet MergeCursor Scheduler SchedulerSpec ListMerger ListMergerSpec.
#[local] Open Scope nat_scope.
Import IndexSet ListMerger.

(** [f] applied at the positions [idx]. *)
Definition popped {A} (f : A → A) (idx : list nat) (l : list A) : list A :=
  list_monad.list.imap (λ i x, if decide (i ∈ idx) then f x else x) l.

Lemma popped_lookup {A} (f : A → A) idx (l : list A) i :
  popped f idx l !! i = (λ x, if decide (i ∈ idx) then f x else x) <$> l !! i.
Proof. unfold popped. by rewrite list_lookup_imap. Qed.

Lemma popped_nil {A} (f : A → A) (l : list A) : popped f [] l = l.
Proof.
  apply list_eq. intros i. rewrite popped_lookup. destruct (l !! i) as [x|]; [|done]. cbn.
  by rewrite decide_False by apply not_elem_of_nil.
Qed.

Lemma popped_cons {A} (f : A → A) i idx (l : list A) x : l !! i = Some x → i ∉ idx →
  popped f (i :: idx) l = popped f idx (<[i := f x]> l).
Proof.
  intros Hx Hni. apply list_eq. intros j. rewrite !popped_lookup.
  destruct (decide (i = j)) as [<-|Hne].
  - rewrite list_lookup_insert_eq by (by eapply lookup_lt_Some). rewrite Hx. cbn.
    by rewrite decide_True, decide_False by (done || left).
  - rewrite list_lookup_insert_ne by done. destruct (l !! j); [|done]. cbn. f_equal.
    apply decide_ext. rewrite elem_of_cons. naive_solver.
Qed.

Section step.
Context `{OK : Ord K} `{OV : Ord V} `{OT : Ord T} `{MR : MonoidValue R}.
Context `{MC : MergeCursor C K V T R} {MS : MergeCursorSpec C K V T R}.
Context `{BU : Builder B Out K V T R} {BS : BuilderSpec B Out K V T R}.
Context (size : nat) (Hsize : zst_ok (T * R) size) (default_time : T).
(** How the merger maps times, and a function on times that does not see the difference. *)
Context (timed : bool) (Htimed : timed = false → ∀ t t' : T, t = t') (m : option (T → T)) (g : T → T)
  (Hg : ∀ t, g (match m with Some f => f t | None => t end) = g t).
Implicit Types (rests : list (Data K V T R)) (self : ListMerger C) (b : B) (ts : Times T R)
  (vs pv : Vals V T R) (d dk : Data K V T R) (fuel : Z).

Definition reps self rests : Prop :=
  length (cursors self) = length rests ∧
  ∀ i d, rests !! i = Some d → ∃ mu c, has_mut self !! i = Some mu ∧ cursors self !! i = Some c ∧ mc_rep mu c d.

Lemma reps_set self rests i mu c d :
  reps self rests → i < length rests → has_mut self !! i = Some mu → mc_rep mu c d →
  reps (with_cursor self i c) (<[i := d]> rests).
Proof.
  intros [Hlen Hr] Hi Hmu Hc. split; [cbn; by rewrite !length_insert|]. intros j d' Hj. cbn.
  destruct (decide (i = j)) as [<-|Hne].
  - rewrite list_lookup_insert_eq in Hj by done. injection Hj as <-. exists mu, c.
    by rewrite list_lookup_insert_eq by lia.
  - rewrite list_lookup_insert_ne in Hj by done. rewrite list_lookup_insert_ne by done. by apply Hr.
Qed.

Lemma reps_any self rests x : reps self rests → reps (with_any self x) rests.
Proof. done. Qed.

(** The times of the current values of the cursors [idx]. *)
Definition head_times d : Times T R := match d with (_, (_, ts) :: _) :: _ => ts | _ => [] end.
Definition times_at rests (idx : list nat) : Times T R := idx ≫= λ i, from_option head_times [] (rests !! i).

(** The cursors [idx] are all at the value [v] of the key [k]. *)
Definition heads rests (idx : list nat) (k : K) (v : V) : Prop :=
  ∀ i, i ∈ idx → ∃ ts vs d, rests !! i = Some ((k, (v, ts) :: vs) :: d).

Lemma with_cursors_same self : with_cursors self (cursors self) = self.
Proof. by destruct self. Qed.

Lemma gather_spec k v idx : ∀ self rests, reps self rests → heads rests idx k v →
  ∃ cs, gather (cursors self) idx = Some (cs, times_at rests idx) ∧ reps (with_cursors self cs) rests.
Proof.
  induction idx as [|i idx IH]; intros self rests Hr Hh; cbn [gather].
  { exists (cursors self). by rewrite with_cursors_same. }
  destruct (Hh i) as (ts & vs & d & Hi); [left|]. destruct (proj2 Hr i _ Hi) as (mu & c & Hmu & Hc & Hrep).
  rewrite Hc. cbn [mbind option_bind]. destruct (mc_times _ _ _ _ _ _ _ Hrep) as (c' & -> & Hc'). cbn [mbind option_bind].
  assert (reps (with_cursor self i c') rests) as Hr'.
  { rewrite <- (list_insert_id rests i ((k, (v, ts) :: vs) :: d)) by done.
    eapply reps_set; [done|by eapply lookup_lt_Some|done|done]. }
  destruct (IH (with_cursor self i c') rests Hr') as (cs & Hg' & Hr''); [intros j Hj; apply Hh; by right|].
  cbn in Hg'. rewrite Hg'. cbn [mbind option_bind]. exists cs. split; [|done].
  cbn [times_at mbind list_bind]. by rewrite Hi.
Qed.

Lemma vals_ok_snoc pv v ts : vals_ok pv → (∀ v', v' ∈ pv.*1 → v' ≺ v) → times_ok ts → vals_ok (pv ++ [(v, ts)]).
Proof.
  intros [Hs Hf] Hv Ht. split.
  - apply keys_sorted_app. split_and!; [done|repeat constructor|]. intros v1 v2 Hv1 Hv2. cbn in Hv2.
    apply list_elem_of_singleton in Hv2 as ->. by apply Hv.
  - rewrite fmap_app. apply Forall_app. split; [done|]. by constructor.
Qed.

(** The value [v] can follow the values [pv]. *)
Definition follows pv v : Prop := vals_ok pv ∧ ∀ v', v' ∈ pv.*1 → v' ≺ v.

Lemma push_times_spec dk pv v ts : follows pv v → ∀ b ts0, b_rep b dk pv ts0 → canonical (ts0 ++ ts) →
  ∃ b', push_times b ts = Some b' ∧ b_rep b' dk pv (ts0 ++ ts).
Proof.
  intros [Hpv Hv]. induction ts as [|[t r] ts IH]; intros b ts0 Hb Hc; unfold push_times; cbn [foldM].
  { exists b. by rewrite app_nil_r. }
  rewrite cons_middle, app_assoc in Hc. destruct (b_time _ _ _ _ t r v Hb) as (b' & -> & Hb').
  { apply vals_ok_snoc; [done..|]. apply canonical_app in Hc as (? & _). split; [done|]. by destruct ts0. }
  cbn [mbind option_bind]. destruct (IH _ _ Hb' Hc) as (b'' & Hp & Hb''). exists b''. split; [exact Hp|].
  by rewrite <- app_assoc in Hb''.
Qed.

Lemma times_ok_canonical ts : canonical ts → ts ≠ [] → times_ok ts.
Proof. done. Qed.

Lemma push_consolidated_spec b dk pv v ts : follows pv v → b_rep b dk pv [] →
  ∃ o ts', push_consolidated size b ts = Some o ∧ (∀ t, wt ts' t = wt ts t)
    ∧ match o with
      | Some b' => times_ok ts' ∧ b_rep b' dk pv ts'
      | None => ts' = []
      end.
Proof.
  intros Hfol Hb. unfold push_consolidated.
  destruct (consolidate_from_sorts size ts 0 Hsize ltac:(lia)) as (w & -> & [Hw Hwt]).
  change (take 0 ts ++ w) with w. cbn [mbind option_bind].
  rewrite drop_0 in Hwt. destruct w as [|p w]; [by exists None, []|].
  destruct (push_times_spec dk pv v (p :: w) Hfol b [] Hb Hw) as (b' & -> & Hb'). cbn [mbind option_bind].
  by exists (Some b'), (p :: w).
Qed.

Lemma total_weight_spec ts : (∀ t t' : T, t = t') → ∀ t, total_weight ts = wt ts t.
Proof.
  intros Ht t. unfold total_weight. rewrite <- (madd_0_l (wt ts t)). generalize (mzero : R).
  induction ts as [|[t' r] ts IH]; intros w; cbn; [by rewrite madd_0_r|].
  rewrite (Ht t' t), IH, decide_True by done. symmetry. apply madd_assoc.
Qed.

(** Times that [g] does not tell apart. *)
Definition same_times ts ts' : Prop := ∀ t, wt (remap g ts) t = wt (remap g ts') t.

(** What [copy_times] writes, before the value: nothing if the times cancel. *)
Definition write_times b (ts : Times T R) (indexes : Z) : option (option B) :=
  if timed then
    match m with
    | Some f => push_consolidated size b (advance_times f ts)
    | None => if is_long indexes then push_consolidated size b ts
              else assert! (len indexes =? 1) in b ← push_times b ts; Some (Some b)
    end
  else
    let w := total_weight ts in
    if is_zero w then Some None else b ← push_time_diff_mut b default_time w; Some (Some b).

Lemma write_times_spec b dk pv v ts s : follows pv v → b_rep b dk pv [] → set_ok s → elems s ≠ [] →
  (length (elems s) = 1 → times_ok ts) →
  ∃ o ts', write_times b ts s = Some o ∧ same_times ts' ts
    ∧ (m = None → length (elems s) = 1 → is_Some o)
    ∧ match o with
      | Some b' => times_ok ts' ∧ b_rep b' dk pv ts'
      | None => ts' = []
      end.
Proof.
  intros Hfol Hb Hs Hne Hts. unfold write_times. destruct timed.
  - assert (∀ ts, ∃ o ts', push_consolidated size b ts = Some o ∧ same_times ts' ts
        ∧ match o with Some b' => times_ok ts' ∧ b_rep b' dk pv ts' | None => ts' = [] end) as Hcons.
    { intros ts1. destruct (push_consolidated_spec b dk pv v ts1 Hfol Hb) as (o & ts' & Hp & Hwt & Ho).
      exists o, ts'. split_and!; [done| |done]. intros t. by apply wt_remap_ext. }
    destruct m as [f|].
    + destruct (Hcons (advance_times f ts)) as (o & ts' & Hp & Hsame & Ho). exists o, ts'. split_and!; [done| |done|done].
      intros t. rewrite Hsame. change (advance_times f ts) with (remap f ts). rewrite remap_compose. f_equal.
      by apply remap_ext.
    + rewrite is_long_elems, len_elems by done. destruct (Nat.ltb_spec 1 (length (elems s))) as [Hl|Hl].
      * destruct (Hcons ts) as (o & ts' & Hp & Hsame & Ho). exists o, ts'. split_and!; try done. lia.
      * assert (length (elems s) = 1) as Hone by (destruct (elems s); cbn in *; [done|lia]).
        rewrite Hone. cbn [Nat.eqb]. destruct (Hts Hone) as [Hc Hne'].
        destruct (push_times_spec dk pv v ts Hfol b [] Hb Hc) as (b' & -> & Hb'). cbn [mbind option_bind].
        by exists (Some b'), ts.
  - specialize (Htimed eq_refl). rewrite (total_weight_spec ts Htimed default_time).
    assert (same_times [(default_time, wt ts default_time)] ts) as Hsame.
    { intros t. apply wt_remap_ext. intros t'. rewrite (Htimed t' default_time), wt_singleton. by rewrite decide_True. }
    destruct (is_zero _) eqn:Ez.
    + apply is_zero_true in Ez. exists None, []. split_and!; [done| | |done].
      * intros t. rewrite <- Hsame, Ez. cbn. by case_decide; [rewrite madd_0_l|].
      * intros _ Hone. destruct (Hts Hone) as [Hc Hne']. destruct ts as [|[t r] ts]; [done|].
        exfalso. apply (proj1 (canonical_elem _ default_time Hc)); [|done]. rewrite (Htimed default_time t). left.
    + apply is_zero_false in Ez.
      assert (canonical [(default_time, wt ts default_time)]) as Hc.
      { apply canonical_cons; [apply canonical_nil|done|]. by intros ? ?%elem_of_nil. }
      destruct (b_time_mut b dk pv [] default_time (wt ts default_time) v Hb) as (b' & -> & Hb'); [by apply vals_ok_snoc; [apply Hfol..|]|]. cbn [mbind option_bind].
      by exists (Some b'), [(default_time, wt ts default_time)].
Qed.

(** *** Writing a value *)
Definition tail_val d : Data K V T R := match d with (k, _ :: vs) :: d => (k, vs) :: d | _ => d end.
Definition has_vals d : bool := match d with (_, _ :: _) :: _ => true | _ => false end.
Definition nonempty_data d : bool := match d with [] => false | _ => true end.

(** The sequences [rests] but for the first values of [idx], which may have been moved out. *)
Definition upto (idx : list nat) rests rests1 : Prop :=
  popped tail_val idx rests1 = popped tail_val idx rests
  ∧ ∀ i, i ∈ idx → ∃ d, rests1 !! i = Some d ∧ has_vals d = true.

Lemma heads_upto idx rests k v : heads rests idx k v → upto idx rests rests.
Proof. intros Hh. split; [done|]. intros i Hi. destruct (Hh i Hi) as (ts & vs & d & ->). eauto. Qed.

Lemma upto_insert idx rests i k v v' ts vs d :
  heads rests idx k v → i ∈ idx → rests !! i = Some ((k, (v, ts) :: vs) :: d) →
  upto idx rests (<[i := (k, (v', ts) :: vs) :: d]> rests).
Proof.
  intros Hh Hi Hd. split.
  - apply list_eq. intros j. rewrite !popped_lookup. destruct (decide (i = j)) as [<-|Hne].
    + rewrite list_lookup_insert_eq by (by eapply lookup_lt_Some). rewrite Hd. cbn. by rewrite !decide_True.
    + by rewrite list_lookup_insert_ne.
  - intros j Hj. destruct (decide (i = j)) as [<-|Hne].
    + rewrite list_lookup_insert_eq by (by eapply lookup_lt_Some). eauto.
    + rewrite list_lookup_insert_ne by done. destruct (Hh j Hj) as (? & ? & ? & ->). eauto.
Qed.

Definition same_flags self self' : Prop :=
  any_values self' = any_values self ∧ has_mut self' = has_mut self ∧ time_diffs self' = time_diffs self.

Lemma copy_value_spec self b rests dk pv ts' i k v ts vs d :
  reps self rests → b_rep b dk pv ts' → vals_ok (pv ++ [(v, ts')]) → rests !! i = Some ((k, (v, ts) :: vs) :: d) →
  ∃ self' b' v', copy_value self b i = Some (self', b') ∧ same_flags self self'
    ∧ b_rep b' dk (pv ++ [(v, ts')]) [] ∧ reps self' (<[i := (k, (v', ts) :: vs) :: d]> rests).
Proof.
  intros Hr Hb Hok Hi. destruct (proj2 Hr i _ Hi) as (mu & c & Hmu & Hc & Hrep).
  unfold copy_value. rewrite Hmu, Hc. cbn [mbind option_bind]. destruct mu.
  - destruct (mc_val_mut _ _ _ _ _ _ Hrep) as [-> Hset]. cbn [mbind option_bind].
    destruct (b_val_mut _ _ _ _ _ Hb Hok) as (b' & v' & -> & Hb'). cbn [mbind option_bind].
    destruct (Hset v') as (c' & -> & Hc'). cbn [mbind option_bind]. eexists _, b', v'. split_and!; try done.
    eapply reps_set; [done|by eapply lookup_lt_Some|done|done].
  - rewrite (mc_val _ _ _ _ _ _ _ Hrep). cbn [mbind option_bind].
    destruct (b_val _ _ _ _ _ Hb Hok) as (b' & -> & Hb'). cbn [mbind option_bind]. exists self, b', v.
    split_and!; try done. by rewrite list_insert_id.
Qed.

(** The function on tuples that applies [g] to their times. *)
Definition G (j : K * (V * T)) : K * (V * T) := (j.1, (j.2.1, g j.2.2)).

Lemma remap_G_prefix k v ts : remap G (prefix k (prefix v ts)) = prefix k (prefix v (remap g ts)).
Proof. unfold remap, prefix. rewrite <- !list_fmap_compose. by apply list_fmap_ext; intros ? [t r] _. Qed.

Lemma same_times_G ts ts' k v : same_times ts ts' →
  ∀ j, wt (remap G (prefix k (prefix v ts))) j = wt (remap G (prefix k (prefix v ts'))) j.
Proof.
  intros Hs [k' [v' t]]. rewrite !remap_G_prefix, !wt_prefix. case_decide; [|done].
  case_decide; [|done]. apply Hs.
Qed.

(** What one call of [copy_times] writes: at most the value, with times that [g] does not tell from its own. *)
Record copied (rests : list (Data K V T R)) (idx : list nat) k v (out : Vals V T R) : Prop := {
  cp_val : out = [] ∨ ∃ ts, out = [(v, ts)];
  cp_wt : ∀ j, wt (remap G (prefix k (val_tups out))) j = wt (remap G (prefix k (prefix v (times_at rests idx)))) j;
  cp_single : m = None → length idx = 1 → out ≠ [] }.

Lemma copy_any_spec self b rests dk pv s fuel k v :
  reps self rests → time_diffs self = timed → b_rep b dk pv [] → vals_ok pv → (∀ v', v' ∈ pv.*1 → v' ≺ v) →
  set_ok s → elems s ≠ [] → heads rests (elems s) k v → (∀ i d, i ∈ elems s → rests !! i = Some d → times_ok (head_times d)) →
  ∃ self1 b' out rests1, copy_any size default_time self b m s fuel = Some (self1, b', (fuel - Z.of_nat (length out))%Z)
    ∧ copied rests (elems s) k v out ∧ upto (elems s) rests rests1 ∧ reps self1 rests1
    ∧ b_rep b' dk (pv ++ out) [] ∧ vals_ok (pv ++ out)
    ∧ any_values self1 = negb (bool_decide (out = [])) || any_values self
    ∧ has_mut self1 = has_mut self ∧ time_diffs self1 = time_diffs self.
Proof.
  intros Hr Htd Hb Hpv Hv Hs Hne Hh Hts.
  destruct (gather_spec k v (elems s) self rests Hr Hh) as (cs & Hgather & Hr1).
  assert (length (elems s) = 1 → times_ok (times_at rests (elems s))) as Hone.
  { destruct (elems s) as [|i [|]] eqn:E; [done| |done]. intros _. destruct (Hh i) as (ts & vs & d & Hi); [left|].
    unfold times_at. cbn. rewrite Hi, app_nil_r. cbn. apply (Hts i _ ltac:(left) Hi). }
  destruct (write_times_spec b dk pv v (times_at rests (elems s)) s (conj Hpv Hv) Hb Hs Hne Hone) as (o & ts' & Hw & Hsame & Hsingle & Ho).
  unfold copy_any, copy_times. rewrite into_iter_elems, Hgather by done. cbn [mbind option_bind].
  unfold write_times in Hw. cbn [time_diffs with_cursors]. rewrite Htd, Hw. cbn [mbind option_bind]. destruct o as [b1|].
  - destruct Ho as [Hts' Hb1]. rewrite first_elems by done. destruct (elems s) as [|i idx] eqn:E; [done|].
    destruct (Hh i) as (ts & vs & d & Hi); [left|]. cbn [head mbind option_bind].
    destruct (copy_value_spec (with_cursors self cs) b1 rests dk pv ts' i k v ts vs d Hr1 Hb1) as (self' & b' & v' & -> & Hfl & Hb' & Hr'); [by apply vals_ok_snoc|done|].
    cbn [mbind option_bind]. eexists (with_any self' _), b', [(v, ts')], _. destruct Hfl as (Ha & Hm & Ht).
    split_and!; [done| | |exact Hr'|done|by apply vals_ok_snoc|by rewrite bool_decide_eq_false_2|by cbn; rewrite Hm|by cbn; rewrite Ht].
    + constructor; [by right; exists ts'| |done]. intros j. rewrite <- (same_times_G ts' _ k v Hsame). cbn. by rewrite app_nil_r.
    + rewrite <- E in *. apply (upto_insert _ _ _ _ v); [done|rewrite E; left|done].
  - subst ts'. eexists (with_any (with_cursors self cs) _), b, [], rests.
    split_and!; [by rewrite Z.sub_0_r| |by eapply heads_upto|done|by rewrite app_nil_r..|done|done|done].
    constructor; [by left| |].
    + intros j. rewrite <- (same_times_G [] _ k v Hsame). done.
    + intros Hm Hl. by destruct (Hsingle Hm Hl).
Qed.

(** *** Stepping *)
Lemma step_all_spec (step : ListMerger C → nat → option (ListMerger C * bool)) (f : Data K V T R → Data K V T R) (valid pre : Data K V T R → bool) idx :
  (∀ self rests i d, reps self rests → rests !! i = Some d → pre d = true →
     ∃ self', step self i = Some (self', valid (f d)) ∧ reps self' (<[i := f d]> rests) ∧ same_flags self self') →
  ∀ self rests s, reps self rests → set_ok s → NoDup idx → Forall (λ i, i < 64) idx →
  (∀ i, i ∈ idx → ∃ d, rests !! i = Some d ∧ pre d = true) →
  ∃ self' s', step_all step self s idx = Some (self', s') ∧ reps self' (popped f idx rests) ∧ same_flags self self' ∧ set_ok s'
    ∧ ∀ j, j ∈ elems s' ↔ j ∈ elems s ∧ (j ∈ idx → ∃ d, rests !! j = Some d ∧ valid (f d) = true).
Proof.
  intros Hstep. induction idx as [|i idx IH]; intros self rests s Hr Hs Hnd Hlt Hpre; cbn [step_all].
  { exists self, s. rewrite popped_nil. split_and!; try done. intros j. split; [|tauto]. intros Hj. split; [done|]. by intros ?%elem_of_nil. }
  apply NoDup_cons in Hnd as [Hni Hnd]. apply Forall_cons in Hlt as [Hi64 Hlt].
  destruct (Hpre i) as (d & Hd & Hp); [left|]. destruct (Hstep self rests i d Hr Hd Hp) as (self1 & -> & Hr1 & Hfl1). cbn [mbind option_bind].
  assert (∃ s1 : IndexSet, (if valid (f d) then @Some IndexSet s else remove s i) = Some s1 ∧ set_ok s1
    ∧ ∀ j, j ∈ elems s1 ↔ j ∈ elems s ∧ (j = i → valid (f d) = true)) as (s1 & -> & Hs1 & Hel1).
  { destruct (valid (f d)); [exists s; naive_solver|]. destruct (remove_spec s i Hs Hi64) as (s1 & -> & Hs1 & Hel).
    exists s1. split_and!; [done..|]. intros j. rewrite Hel, list_elem_of_In, filter_In, <- list_elem_of_In, negb_true_iff, Nat.eqb_neq. naive_solver. }
  cbn [mbind option_bind].
  destruct (IH self1 (<[i := f d]> rests) s1 Hr1 Hs1 Hnd Hlt) as (self' & s' & Hall & Hr' & Hfl & Hs' & Hel).
  { intros j Hj. rewrite list_lookup_insert_ne by (by intros ->). apply Hpre. by right. }
  exists self', s'. rewrite (popped_cons f i idx rests d Hd Hni). split_and!; [done..| |done|].
  - destruct Hfl1 as (?&?&?), Hfl as (?&?&?). split_and!; congruence.
  - intros j. rewrite Hel, Hel1, elem_of_cons. destruct (decide (j = i)) as [->|Hne].
    + split; [|naive_solver]. intros [[? Hv] _]. split; [done|]. intros _. exists d. auto.
    + rewrite list_lookup_insert_ne by done. naive_solver.
Qed.

Lemma step_val_ok self rests i d : reps self rests → rests !! i = Some d → has_vals d = true →
  ∃ self', cursor_step_val self i = Some (self', has_vals (tail_val d)) ∧ reps self' (<[i := tail_val d]> rests) ∧ same_flags self self'.
Proof.
  intros Hr Hi Hv. destruct d as [|[k [|[v ts] vs]] d]; try done. destruct (proj2 Hr i _ Hi) as (mu & c & Hmu & Hc & Hrep).
  unfold cursor_step_val. rewrite Hc. cbn [mbind option_bind]. destruct (mc_step_val _ _ _ _ _ _ _ Hrep) as (c' & -> & Hc').
  cbn [mbind option_bind]. eexists. rewrite (mc_val_valid _ _ _ _ _ Hc'). split_and!; [|by eapply reps_set, Hc'; eauto using lookup_lt_Some|done..].
  by destruct vs.
Qed.

Lemma step_key_ok self rests i d : reps self rests → rests !! i = Some d → nonempty_data d = true →
  ∃ self', cursor_step_key self i = Some (self', nonempty_data (tail d)) ∧ reps self' (<[i := tail d]> rests) ∧ same_flags self self'.
Proof.
  intros Hr Hi Hv. destruct d as [|[k vs] d]; [done|]. destruct (proj2 Hr i _ Hi) as (mu & c & Hmu & Hc & Hrep).
  unfold cursor_step_key. rewrite Hc. cbn [mbind option_bind]. destruct (mc_step_key _ _ _ _ _ Hrep) as (c' & -> & Hc').
  cbn [mbind option_bind tail]. eexists. split_and!; [|by eapply reps_set, Hc'; eauto using lookup_lt_Some|done..].
  destruct d as [|[k' vs'] d]; [by rewrite (mc_end _ _ Hc')|]. by rewrite (proj1 (mc_key _ _ _ _ _ Hc')).
Qed.

(** *** The tuples that are taken from the cursors *)
Lemma bind_insert_perm {X} (f : Data K V T R → list X) rests i d d' x :
  rests !! i = Some d → f d ≡ₚ x ++ f d' → rests ≫= f ≡ₚ x ++ (<[i := d']> rests ≫= f).
Proof.
  intros Hi Hp. rewrite insert_take_drop by (by eapply lookup_lt_Some). rewrite <- (take_drop_middle rests i d Hi) at 1.
  rewrite !bind_app. cbn [mbind list_bind]. rewrite Hp. solve_Permutation.
Qed.

Lemma popped_perm idx k v : ∀ rests, NoDup idx → heads rests idx k v →
  rests ≫= tuples ≡ₚ prefix k (prefix v (times_at rests idx)) ++ (popped tail_val idx rests ≫= tuples).
Proof.
  induction idx as [|i idx IH]; intros rests Hnd Hh.
  { by rewrite popped_nil. }
  apply NoDup_cons in Hnd as [Hni Hnd]. destruct (Hh i) as (ts & vs & d & Hi); [left|].
  rewrite (popped_cons _ i idx rests _ Hi Hni). cbn [tail_val].
  rewrite (bind_insert_perm tuples rests i _ ((k, vs) :: d) (prefix k (prefix v ts)) Hi).
  2: { rewrite !tuples_cons. change (val_tups ((v, ts) :: vs)) with (prefix v ts ++ val_tups vs).
       by rewrite prefix_app, <- app_assoc. }
  rewrite (IH (<[i := (k, vs) :: d]> rests) Hnd).
  2: { intros j Hj. rewrite list_lookup_insert_ne by (by intros ->). apply Hh. by right. }
  assert (times_at (<[i := (k, vs) :: d]> rests) idx = times_at rests idx) as ->.
  { unfold times_at. clear -Hni. induction idx as [|j idx IH]; [done|]. apply not_elem_of_cons in Hni as [Hne Hni].
    cbn [mbind list_bind]. rewrite list_lookup_insert_ne by done. f_equal. by apply IH. }
  change (times_at rests (i :: idx)) with (from_option head_times [] (rests !! i) ++ times_at rests idx).
  rewrite Hi. cbn [from_option head_times]. by rewrite !prefix_app, <- app_assoc.
Qed.

Lemma popped_wt idx k v rests j : NoDup idx → heads rests idx k v →
  wt (remap G (rests ≫= tuples)) j
  = wt (remap G (prefix k (prefix v (times_at rests idx)))) j ⊕ wt (remap G (popped tail_val idx rests ≫= tuples)) j.
Proof.
  intros Hnd Hh. rewrite <- wt_app, <- remap_app. apply wt_perm; [|done]. unfold remap.
  apply Permutation_map. by apply popped_perm.
Qed.
End step.
