(* ===== verification/ListMergerLoops.v ===== *)
(** The loops of the merger over the values of a key. *)
From Stdlib Require Import Sorting.Sorted.
From S2P Require Import Prelude Machine Sort Consolidation Trie LayerSpec IndexSet MergeCursor Scheduler SchedulerSpec ListMerger ListMergerSpec ListMergerStep.
#[local] Open Scope nat_scope.
Import IndexSet ListMerger.

Section loops.
Context `{OK : Ord K} `{OV : Ord V} `{OT : Ord T} `{MR : MonoidValue R}.
Context `{MC : MergeCursor C K V T R} {MS : MergeCursorSpec C K V T R}.
Context `{BU : Builder B Out K V T R} {BS : BuilderSpec B Out K V T R}.
Context (size : nat) (Hsize : zst_ok (T * R) size) (default_time : T).
Context (timed : bool) (Htimed : timed = false → ∀ t t' : T, t = t') (m : option (T → T)) (g : T → T)
  (Hg : ∀ t, g (match m with Some f => f t | None => t end) = g t).
(** The weights of all the tuples, written or not. *)
Context (total : K * (V * T) → R).
Implicit Types (rests : list (Data K V T R)) (self : ListMerger C) (b : B) (ts : Times T R)
  (vs pv : Vals V T R) (d dk : Data K V T R) (fuel : Z) (k : K) (v : V).

(** What is left of a sequence while the key [k] is merged and its values [pv] have been written. *)
Definition beyond k pv d : Prop :=
  match d with
  | [] => True
  | (k', vs) :: _ => (k ≺ k' ∧ vs ≠ []) ∨ (k' = k ∧ ∀ v v', v ∈ pv.*1 → v' ∈ vs.*1 → v ≺ v')
  end.

Record merging k self b rests dk pv : Prop := {
  mg_reps : reps self rests;
  mg_timed : time_diffs self = timed;
  mg_b : b_rep b dk pv [];
  mg_any : any_values self = negb (bool_decide (pv = []));
  mg_dk : data_ok dk;
  mg_before : ∀ k', k' ∈ dk.*1 → k' ≺ k;
  mg_pv : vals_ok pv;
  mg_rests : ∀ i d, rests !! i = Some d → rest_ok d ∧ beyond k pv d;
  mg_wt : ∀ j, wt (remap (G g) (tuples dk ++ prefix k (val_tups pv) ++ (rests ≫= tuples))) j = total j }.

(** The key [k] has values left in [d]. *)
Definition active k d : Prop := ∃ v ts vs r, d = (k, (v, ts) :: vs) :: r.

Lemma rest_ok_head k v ts vs d : rest_ok ((k, (v, ts) :: vs) :: d) →
  times_ok ts ∧ (∀ v', v' ∈ vs.*1 → v ≺ v') ∧ rest_ok ((k, vs) :: d).
Proof.
  intros (Hs & Hf & Ht). apply Forall_cons in Hf as [[[Hvs Hv]%keys_sorted_cons [Hts Hf']%Forall_cons] Hf].
  split_and!; [done..|]. split_and!; [done| |done]. constructor; [|done]. by split.
Qed.

Lemma copy_step k self b rests dk pv s fuel v :
  merging k self b rests dk pv → set_ok s → elems s ≠ [] → heads rests (elems s) k v →
  (∀ v', v' ∈ pv.*1 → v' ≺ v) →
  (∀ i vs r, rests !! i = Some ((k, vs) :: r) → ∀ v', v' ∈ vs.*1 → v ≺ v' ∨ (v' = v ∧ i ∈ elems s)) →
  ∃ self1 b' out rests1, copy_any size default_time self b m s fuel = Some (self1, b', (fuel - Z.of_nat (length out))%Z)
    ∧ reps self1 rests1 ∧ upto (elems s) rests rests1 ∧ length out ≤ 1 ∧ (m = None → length (elems s) = 1 → out ≠ [])
    ∧ ∀ self2, reps self2 (popped tail_val (elems s) rests) → same_flags self1 self2 →
        merging k self2 b' (popped tail_val (elems s) rests) dk (pv ++ out).
Proof.
  intros [Hr Ht Hb Ha Hdk Hbef Hpv Hrests Hwt] Hs Hne Hh Hlt Hmin.
  destruct (copy_any_spec size Hsize default_time timed Htimed m g Hg self b rests dk pv s fuel k v Hr Ht Hb Hpv Hlt Hs Hne Hh)
    as (self1 & b' & out & rests1 & Hcopy & [Hout Hcwt Hsingle] & Hup & Hr1 & Hb' & Hpv' & Hany & _ & Htd).
  { intros i d Hi Hd. destruct (Hh i Hi) as (ts & vs & r & Hi'). rewrite Hi' in Hd. injection Hd as <-.
    destruct (Hrests i _ Hi') as [Hok _]. by apply rest_ok_head in Hok as (? & _). }
  exists self1, b', out, rests1. split_and!; [done..|by destruct Hout as [->|[? ->]]; cbn; lia|done|].
  intros self2 Hr2 (Hany2 & _ & Htd2). split; [done|congruence|done| |done..| |].
  - rewrite Hany2, Hany, Ha. destruct out; [by rewrite app_nil_r|]. cbn. rewrite (bool_decide_eq_false_2 (pv ++ _ = [])); [done|].
    by destruct pv.
  - intros i d Hd. rewrite popped_lookup in Hd. apply fmap_Some in Hd as (d0 & Hi & ->).
    destruct (Hrests i d0 Hi) as [Hok Hbey].
    assert (∀ v', v' ∈ (pv ++ out).*1 → v' ∈ pv.*1 ∨ v' = v) as Hin.
    { intros v'. rewrite fmap_app, elem_of_app. intros [|Hv']; [by left|right].
      destruct Hout as [->|[? ->]]; [by apply elem_of_nil in Hv'|]. cbn in Hv'. by apply list_elem_of_singleton in Hv'. }
    destruct (decide (i ∈ elems s)) as [His|His].
    + destruct (Hh i His) as (ts & vs & r & Hi'). rewrite Hi in Hi'. injection Hi' as ->. cbn [tail_val].
      apply rest_ok_head in Hok as (_ & Hvs & Hok'). split; [done|]. right. split; [done|].
      intros v1 v2 [Hv1| ->]%Hin Hv2; [|auto]. transitivity v; auto.
    + split; [done|]. destruct d0 as [|[k' vs] r]; [done|]. destruct Hbey as [|[-> Hvs]]; [by left|]. right. split; [done|].
      intros v1 v2 [Hv1| ->]%Hin Hv2; [auto|]. destruct (Hmin i vs r Hi v2 Hv2) as [|[_ ?]]; done.
  - intros j. rewrite <- (Hwt j), !remap_app, !wt_app, val_tups_app, prefix_app, remap_app, wt_app.
    rewrite (popped_wt _ (elems s) k v rests j (elems_NoDup s) Hh), Hcwt. by rewrite !madd_assoc.
Qed.

(** ** Counting *)
Definition all_vals d : Vals V T R := d ≫= snd.
(** The values and the keys that are left. *)
Definition nvals rests : nat := length (rests ≫= all_vals).
Definition keys_of d : list K := d.*1.
Definition nkeys rests : nat := length (rests ≫= keys_of).

Lemma popped_nvals idx k v : ∀ rests, NoDup idx → heads rests idx k v →
  nvals rests = length idx + nvals (popped tail_val idx rests).
Proof.
  induction idx as [|i idx IH]; intros rests Hnd Hh; [by rewrite popped_nil|].
  apply NoDup_cons in Hnd as [Hni Hnd]. destruct (Hh i) as (ts & vs & d & Hi); [left|].
  rewrite (popped_cons _ i idx rests _ Hi Hni). cbn [tail_val length].
  assert (nvals rests = S (nvals (<[i := (k, vs) :: d]> rests))) as ->.
  { unfold nvals. by rewrite (bind_insert_perm all_vals rests i _ ((k, vs) :: d) [(v, ts)] Hi). }
  rewrite (IH (<[i := (k, vs) :: d]> rests) Hnd); [lia|].
  intros j Hj. rewrite list_lookup_insert_ne by (by intros ->). apply Hh. by right.
Qed.

(** The sequences with the same keys. *)
Definition same_keys rests rests' : Prop := keys_of <$> rests' = keys_of <$> rests.

Lemma same_keys_popped idx rests : same_keys rests (popped tail_val idx rests).
Proof.
  apply list_eq. intros i. rewrite !list_lookup_fmap, popped_lookup. destruct (rests !! i) as [d|]; [|done].
  cbn [fmap option_fmap option_map]. f_equal. destruct (decide _); [|done]. by destruct d as [|[k [|p vs]] d].
Qed.

Lemma same_keys_trans r1 r2 r3 : same_keys r1 r2 → same_keys r2 r3 → same_keys r1 r3.
Proof. unfold same_keys. congruence. Qed.

Lemma same_keys_nkeys rests rests' : same_keys rests rests' → nkeys rests' = nkeys rests.
Proof.
  unfold nkeys, same_keys. intros He.
  assert (∀ rests, rests ≫= keys_of = concat (keys_of <$> rests)) as Hc.
  { clear. induction rests as [|d rests IH]; [done|]. cbn. by rewrite IH. }
  by rewrite !Hc, He.
Qed.

(** The first key of a sequence. *)
Definition at_key k d : Prop := head (keys_of d) = Some k.

Lemma same_keys_lookup rests rests' i d' : same_keys rests rests' → rests' !! i = Some d' →
  ∃ d, rests !! i = Some d ∧ keys_of d = keys_of d'.
Proof.
  intros He Hi. assert ((keys_of <$> rests) !! i = Some (keys_of d')) as Hl by (rewrite <- He, list_lookup_fmap, Hi; done).
  rewrite list_lookup_fmap in Hl. apply fmap_Some in Hl as (d & ? & ?). eauto.
Qed.

Lemma same_keys_sym rests rests' : same_keys rests rests' → same_keys rests' rests.
Proof. done. Qed.

(** The set of the cursors that have values of the key left. *)
Definition active_set k rests (s : IndexSet) : Prop :=
  set_ok s ∧ ∀ i, i ∈ elems s ↔ ∃ d, rests !! i = Some d ∧ active k d.

Lemma active_has_vals k d : at_key k d → has_vals d = true → active k d.
Proof. unfold at_key. destruct d as [|[k' [|[v ts] vs]] d]; try done. intros [= ->] _. by exists v, ts, vs, d. Qed.

(** Reading the current items of some cursors. *)
Lemma current_spec {A} (f : C → option A) self (P : nat → A → Prop) idx :
  (∀ i, i ∈ idx → ∃ c x, cursors self !! i = Some c ∧ f c = Some x ∧ P i x) →
  ∃ items, current f self idx = Some items ∧ items.*1 = idx ∧ ∀ i x, (i, x) ∈ items → P i x.
Proof.
  induction idx as [|i idx IH]; intros Hidx; cbn [current].
  { exists []. split_and!; try done. by intros i x ?%elem_of_nil. }
  destruct (Hidx i) as (c & x & -> & Hx & HP); [left|]. cbn [mbind option_bind]. rewrite Hx. cbn [mbind option_bind].
  destruct IH as (items & -> & Hitems & HPs); [intros j Hj; apply Hidx; by right|]. cbn [mbind option_bind].
  exists ((i, x) :: items). split_and!; [done|cbn; by rewrite Hitems|]. intros j y [[= -> ->]|]%elem_of_cons; auto.
Qed.

Definition min_value k rests (s : IndexSet) v : Prop :=
  set_ok s ∧ elems s ≠ [] ∧ heads rests (elems s) k v
  ∧ ∀ i vs r, rests !! i = Some ((k, vs) :: r) → ∀ v', v' ∈ vs.*1 → v ≺ v' ∨ (v' = v ∧ i ∈ elems s).

(** The cursors at the smallest value. *)
Lemma min_vals_spec k self b rests dk pv s : merging k self b rests dk pv → active_set k rests s → elems s ≠ [] →
  ∃ items min_vals v, current val self (into_iter s) = Some items ∧ find_min_indexes items = Some min_vals
    ∧ min_value k rests min_vals v ∧ (∀ i, i ∈ elems min_vals → i ∈ elems s).
Proof.
  intros Hm [Hs Hact] Hne. rewrite into_iter_elems by done.
  destruct (current_spec val self (λ i v, ∃ ts vs d, rests !! i = Some ((k, (v, ts) :: vs) :: d)) (elems s)) as (items & Hcur & Hit & HP).
  { intros i (d & Hd & v & ts & vs & r & ->)%Hact. destruct (proj2 (mg_reps _ _ _ _ _ _ Hm) i _ Hd) as (mu & c & _ & Hc & Hrep).
    exists c, v. split_and!; [done|by eapply mc_val|eauto]. }
  destruct (find_min_spec items) as (mv & v & Hfind & Hok & Hv & Hleast & Hel).
  { apply Forall_forall. intros [i x] Hi. apply (elems_lt s); [done|]. rewrite <- Hit. apply list_elem_of_fmap. by exists (i, x). }
  { intros ->. by rewrite <- Hit in Hne. }
  exists items, mv, v. split_and!; [done..| |].
  - apply list_elem_of_fmap in Hv as ([i v'] & -> & Hv). cbn in *. split_and!; [done| | |].
    + intros He. apply Hel in Hv. rewrite He in Hv. by apply elem_of_nil in Hv.
    + intros j Hj%Hel. by apply HP.
    + intros j vs r Hj v1 Hv1. destruct vs as [|[v2 ts] vs]; [by apply elem_of_nil in Hv1|].
      assert (j ∈ elems s) as Hjs by (apply Hact; eexists; split; [done|]; by exists v2, ts, vs, r).
      rewrite <- Hit in Hjs. apply list_elem_of_fmap in Hjs as ([j' v3] & -> & Hj3). cbn in *.
      destruct (HP _ _ Hj3) as (ts' & vs' & r' & Hj'). rewrite Hj in Hj'. injection Hj' as <- <- <- <-.
      destruct (mg_rests _ _ _ _ _ _ Hm _ _ Hj) as [Hrok _]. apply rest_ok_head in Hrok as (_ & Hvs & _).
      apply elem_of_cons in Hv1 as [->|Hv1]; cbn [fst] in *.
      * destruct (not_klt v' v2) as [Heq|Hlt]; [|right|by left].
        { apply Hleast. apply list_elem_of_fmap. by exists (j', v2). }
        split; [done|]. apply Hel. by rewrite Heq.
      * left. destruct (not_klt v' v2) as [->|Hlt]; [|by apply Hvs|transitivity v2; [done|by apply Hvs]].
        apply Hleast. apply list_elem_of_fmap. by exists (j', v2).
  - intros i Hi%Hel. rewrite <- Hit. apply list_elem_of_fmap. by exists (i, v).
Qed.

(** Every cursor without values of the key left has no more of them after a step. *)
Lemma active_popped k rests s mv s1 v : active_set k rests s → heads rests (elems mv) k v → set_ok s1 →
  (∀ i, i ∈ elems mv → i ∈ elems s) →
  (∀ j, j ∈ elems s1 ↔ j ∈ elems s ∧ (j ∈ elems mv → ∃ d, rests !! j = Some d ∧ has_vals (tail_val d) = true)) →
  active_set k (popped tail_val (elems mv) rests) s1.
Proof.
  intros [Hs Hact] Hh Hs1 Hsub Hel. split; [done|]. intros i. rewrite Hel, Hact, popped_lookup. split.
  - intros [(d & Hd & Ha) Hmv]. rewrite Hd. eexists. split; [done|]. destruct (decide (i ∈ elems mv)) as [Hi|]; [|done].
    destruct (Hmv Hi) as (d' & Hd' & Hv). rewrite Hd in Hd'. injection Hd' as <-.
    destruct Ha as (v1 & ts & vs & r & ->). by apply active_has_vals.
  - intros (d' & Hd & Ha). apply fmap_Some in Hd as (d & Hd & ->). destruct (decide (i ∈ elems mv)) as [Hi|Hi].
    + split; [by apply Hact, Hsub|]. intros _. exists d. split; [done|]. by destruct Ha as (? & ? & ? & ? & ->).
    + split; [by eauto|done].
Qed.

Lemma min_value_before k self b rests dk pv s v : merging k self b rests dk pv → min_value k rests s v → ∀ v', v' ∈ pv.*1 → v' ≺ v.
Proof.
  intros Hm (_ & Hne & Hh & _) v' Hv'. destruct (elems s) as [|i idx]; [done|].
  destruct (Hh i) as (ts & vs & r & Hi); [left|].
  destruct (mg_rests _ _ _ _ _ _ Hm i _ Hi) as [_ [[Hlt _]|[_ Hv]]]; [by apply klt_irrefl in Hlt|]. apply Hv; [done|left].
Qed.

(** The values that one run of a loop writes, what it leaves, and the fuel it uses. *)
Record progress k self b rests dk pv fuel self' b' rests' pv' fuel' : Prop := {
  pr_merging : merging k self' b' rests' dk pv';
  pr_keys : same_keys rests rests';
  pr_out : ∃ out, pv' = pv ++ out ∧ fuel' = (fuel - Z.of_nat (length out))%Z ∧ nvals rests' + length out ≤ nvals rests;
  pr_fuel : (0 ≤ fuel')%Z }.

Lemma progress_trans k self b rests dk pv fuel self1 b1 rests1 pv1 fuel1 self2 b2 rests2 pv2 fuel2 :
  progress k self b rests dk pv fuel self1 b1 rests1 pv1 fuel1 → progress k self1 b1 rests1 dk pv1 fuel1 self2 b2 rests2 pv2 fuel2 →
  progress k self b rests dk pv fuel self2 b2 rests2 pv2 fuel2.
Proof.
  intros [_ Hk1 (o1 & -> & -> & Hn1) _] [Hm Hk2 (o2 & -> & -> & Hn2) Hf]. split; [done|by eapply same_keys_trans| |done].
  exists (o1 ++ o2). rewrite app_assoc, length_app. split_and!; [done|lia..].
Qed.

Lemma progress_refl k self b rests dk pv fuel : merging k self b rests dk pv → (0 ≤ fuel)%Z →
  progress k self b rests dk pv fuel self b rests pv fuel.
Proof.
  intros Hm Hf. split; [done..| |done]. exists []. rewrite app_nil_r. cbn. split_and!; [done|lia..].
Qed.

(** One value: copied, and its cursors moved on. *)
Lemma one_value k self b rests dk pv fuel mv v : merging k self b rests dk pv → min_value k rests mv v → (0 < fuel)%Z →
  ∃ self1 b' fuel' pv' rests1, copy_any size default_time self b m mv fuel = Some (self1, b', fuel')
    ∧ reps self1 rests1 ∧ upto (elems mv) rests rests1 ∧ nvals (popped tail_val (elems mv) rests) < nvals rests
    ∧ (fuel' = 0 → pv' ≠ [])%Z ∧ (m = None → length (elems mv) = 1 → pv' ≠ [])
    ∧ ∀ self2, reps self2 (popped tail_val (elems mv) rests) → same_flags self1 self2 →
        progress k self b rests dk pv fuel self2 b' (popped tail_val (elems mv) rests) pv' fuel'.
Proof.
  intros Hm Hmin Hf. pose proof (min_value_before _ _ _ _ _ _ _ _ Hm Hmin) as Hbef. destruct Hmin as (Hs & Hne & Hh & Hleast).
  destruct (copy_step k self b rests dk pv mv fuel v Hm Hs Hne Hh Hbef Hleast) as (self1 & b' & out & rests1 & Hcopy & Hr & Hup & Hlen & Hsing & Hdone).
  pose proof (popped_nvals (elems mv) k v rests (elems_NoDup mv) Hh) as Hn.
  assert (0 < length (elems mv)) as Hpos by (destruct (elems mv); [done|cbn; lia]).
  eexists self1, b', _, (pv ++ out), rests1. split_and!; [done..|lia| | |].
  - intros Hz. destruct out; [cbn in *; lia|]. by destruct pv.
  - intros Hm0 Hl. specialize (Hsing Hm0 Hl). destruct out; [done|]. by destruct pv.
  - intros self2 Hr2 Hfl. split; [by apply Hdone|apply same_keys_popped| |lia]. exists out. split_and!; [done..|lia].
Qed.

Definition values_merged k self b rests dk pv fuel (r : option (bool * ListMerger C * B * IndexSet * Z)) : Prop :=
  ∃ returned self' b' s' fuel' rests' pv', r = Some (returned, self', b', s', fuel')
    ∧ progress k self b rests dk pv fuel self' b' rests' pv' fuel' ∧ active_set k rests' s'
    ∧ if returned : bool then fuel' = 0%Z ∧ pv' ≠ [] else (0 < fuel')%Z ∧ length (elems s') ≤ 1.

Lemma merge_values_stop k self b rests dk pv fuel s : merging k self b rests dk pv → active_set k rests s → (0 < fuel)%Z →
  is_long s = false → values_merged k self b rests dk pv fuel (Some (false, self, b, s, fuel)).
Proof.
  intros Hm Ha Hf Hl. exists false, self, b, s, fuel, rests, pv.
  rewrite is_long_elems in Hl by apply Ha. apply Nat.ltb_ge in Hl.
  split_and!; [done|apply progress_refl; [done|lia]|done..].
Qed.

(** The set of cursors with values left, after the ones at the smallest value have moved on. *)
Lemma active_step k self rests rests1 s mv v : active_set k rests s → min_value k rests mv v → upto (elems mv) rests rests1 →
  (∀ i, i ∈ elems mv → i ∈ elems s) → reps self rests1 →
  ∃ self2 s2, step_all cursor_step_val self s (into_iter mv) = Some (self2, s2)
    ∧ reps self2 (popped tail_val (elems mv) rests) ∧ same_flags self self2 ∧ active_set k (popped tail_val (elems mv) rests) s2.
Proof.
  intros Ha (Hmv & Hmne & Hh & Hleast) [Hpop Hval] Hsub Hr1.
  destruct (step_all_spec cursor_step_val tail_val has_vals has_vals (elems mv) step_val_ok self rests1 s Hr1 (proj1 Ha) (elems_NoDup mv))
    as (self2 & s2 & Hstep & Hr2 & Hfl & Hs2 & Hel); [by apply Forall_forall; intros i; apply elems_lt|done|].
  rewrite into_iter_elems by done. exists self2, s2. rewrite Hpop in Hr2. split_and!; [done..|].
  apply (active_popped k rests s mv s2 v Ha Hh Hs2 Hsub). intros j. rewrite Hel.
  assert (j ∈ elems mv → (∃ d, rests1 !! j = Some d ∧ has_vals (tail_val d) = true) ↔ (∃ d, rests !! j = Some d ∧ has_vals (tail_val d) = true)) as Heq; [|naive_solver].
  intros Hj. assert (popped tail_val (elems mv) rests1 !! j = popped tail_val (elems mv) rests !! j) as He by by rewrite Hpop.
  rewrite !popped_lookup in He. split; intros (d & Hd & Hv); rewrite Hd in He; cbn [fmap option_fmap option_map] in He; [symmetry in He|];
    apply fmap_Some in He as (d' & Hd' & He); rewrite !decide_True in He by done; exists d'; by rewrite <- He.
Qed.

Lemma merge_values_spec k n : ∀ self b rests dk pv fuel s, merging k self b rests dk pv → active_set k rests s →
  (0 < fuel)%Z → nvals rests ≤ n →
  values_merged k self b rests dk pv fuel (merge_values size default_time n self b m s fuel).
Proof.
  induction n as [|n IH]; intros self b rests dk pv fuel s Hm Ha Hf Hn; cbn [merge_values];
    (destruct (is_long s) eqn:El; [|by apply merge_values_stop]);
    (assert (elems s ≠ []) as Hne by (rewrite is_long_elems in El by apply Ha; by destruct (elems s)));
    destruct (min_vals_spec k self b rests dk pv s Hm Ha Hne) as (items & mv & v & Hcur & Hfind & Hmin & Hsub);
    destruct (one_value k self b rests dk pv fuel mv v Hm Hmin Hf) as (self1 & b1 & fuel1 & pv1 & rests1 & Hcopy & Hr1 & Hup & Hlt & Hz & _ & Hpr); [lia|].
  rewrite Hcur. cbn [mbind option_bind]. rewrite Hfind. cbn [mbind option_bind]. rewrite Hcopy. cbn [mbind option_bind].
  destruct (active_step k self1 rests rests1 s mv v Ha Hmin Hup Hsub Hr1) as (self2 & s2 & -> & Hr2 & Hfl & Ha2).
  cbn [mbind option_bind]. specialize (Hpr self2 Hr2 Hfl).
  pose proof (pr_fuel _ _ _ _ _ _ _ _ _ _ _ _ Hpr) as Hf1. destruct (Z.leb_spec fuel1 0).
  - assert (fuel1 = 0)%Z as -> by lia. exists true, self2, b1, s2, 0%Z, (popped tail_val (elems mv) rests), pv1.
    split_and!; auto.
  - destruct (IH self2 b1 (popped tail_val (elems mv) rests) dk pv1 fuel1 s2 (pr_merging _ _ _ _ _ _ _ _ _ _ _ _ Hpr) Ha2 ltac:(lia) ltac:(lia))
      as (ret & self' & b' & s' & fuel' & rests' & pv' & -> & Hpr' & Ha' & Hret).
    exists ret, self', b', s', fuel', rests', pv'. split_and!; [done|by eapply progress_trans|done..].
Qed.

(** A cursor that is the only one with values of the key left. *)
Definition only k rests (index : nat) : Prop := ∀ i, (∃ d, rests !! i = Some d ∧ active k d) ↔ i = index.

Lemma only_value k self b rests dk pv s index : merging k self b rests dk pv → set_ok s → elems s = [index] → only k rests index →
  ∃ v, min_value k rests s v.
Proof.
  intros Hm Hs Hel Honly. destruct (proj2 (Honly index) eq_refl) as (d & Hd & v & ts & vs & r & ->).
  exists v. unfold min_value. rewrite Hel. split_and!; [done|done| |].
  - intros i ->%list_elem_of_singleton. eauto.
  - intros i vs' r' Hi v' Hv'. destruct vs' as [|[v2 ts2] vs']; [by apply elem_of_nil in Hv'|].
    assert (i = index) as -> by (apply Honly; eexists; split; [done|by exists v2, ts2, vs', r']).
    rewrite Hd in Hi. injection Hi as <- <- <- <-. destruct (mg_rests _ _ _ _ _ _ Hm _ _ Hd) as [Hrok _].
    apply rest_ok_head in Hrok as (_ & Hvs & _). apply elem_of_cons in Hv' as [->|Hv']; [right|left; by apply Hvs].
    split; [done|by left].
Qed.

Lemma only_step k rests index : only k rests index →
  ∃ d, rests !! index = Some d
    ∧ if has_vals (tail_val d) then only k (popped tail_val [index] rests) index
      else ∀ i d, popped tail_val [index] rests !! i = Some d → ¬ active k d.
Proof.
  intros Honly. destruct (proj2 (Honly index) eq_refl) as (d & Hd & Ha). exists d. split; [done|].
  assert (∀ i d', popped tail_val [index] rests !! i = Some d' → active k d' → i = index ∧ d' = tail_val d) as Hone.
  { intros i d' Hi Ha'. rewrite popped_lookup in Hi. apply fmap_Some in Hi as (d0 & Hi & ->).
    destruct (decide (i ∈ [index])) as [->%list_elem_of_singleton|Hni].
    - rewrite Hd in Hi. by injection Hi as <-.
    - exfalso. apply Hni, list_elem_of_singleton, Honly. eauto. }
  destruct (has_vals (tail_val d)) eqn:Hv.
  - intros i. split; [intros (d' & Hd' & Ha'); by eapply Hone|]. intros ->. exists (tail_val d).
    rewrite popped_lookup, Hd. cbn [fmap option_fmap option_map]. rewrite decide_True by by left. split; [done|].
    destruct Ha as (v1 & ts & vs & r & ->). by apply active_has_vals.
  - intros i d' Hd' Ha'. destruct (Hone i d' Hd' Ha') as [_ ->]. by destruct Ha' as (? & ? & ? & ? & Heq); rewrite Heq in Hv.
Qed.

(** One round of a loop over the values of one cursor. *)
Lemma only_round k self b rests dk pv fuel s index : merging k self b rests dk pv → set_ok s → elems s = [index] →
  only k rests index → (0 < fuel)%Z →
  ∃ self1 b1 fuel1 self2 valid rests2 pv2, copy_any size default_time self b m s fuel = Some (self1, b1, fuel1)
    ∧ cursor_step_val self1 index = Some (self2, valid)
    ∧ progress k self b rests dk pv fuel self2 b1 rests2 pv2 fuel1 ∧ nvals rests2 < nvals rests
    ∧ (fuel1 = 0%Z → pv2 ≠ []) ∧ (m = None → pv2 ≠ [])
    ∧ if valid : bool then only k rests2 index else ∀ i d, rests2 !! i = Some d → ¬ active k d.
Proof.
  intros Hm Hs Hel Honly Hf. destruct (only_value k self b rests dk pv s index Hm Hs Hel Honly) as (v & Hmin).
  destruct (one_value k self b rests dk pv fuel s v Hm Hmin Hf) as (self1 & b1 & fuel1 & pv1 & rests1 & Hcopy & Hr1 & Hup & Hlt & Hz & Hsing & Hpr).
  rewrite Hel in *. destruct (proj2 Hup index) as (d1 & Hd1 & Hv1); [by left|].
  destruct (step_val_ok self1 rests1 index d1 Hr1 Hd1 Hv1) as (self2 & Hstep & Hr2 & Hfl).
  destruct (only_step k rests index Honly) as (d & Hd & Hnext).
  assert (popped tail_val [index] rests1 = <[index := tail_val d1]> rests1) as Hp1.
  { rewrite (popped_cons _ _ _ _ _ Hd1) by apply not_elem_of_nil. by rewrite popped_nil. }
  destruct Hup as [Hpop _]. rewrite <- Hp1, Hpop in Hr2.
  assert (tail_val d1 = tail_val d) as He.
  { assert (popped tail_val [index] rests1 !! index = popped tail_val [index] rests !! index) as He by by rewrite Hpop.
    rewrite !popped_lookup, Hd, Hd1 in He. cbn [fmap option_fmap option_map] in He. rewrite !decide_True in He by by left. by injection He. }
  eexists self1, b1, fuel1, self2, _, (popped tail_val [index] rests), pv1. split_and!; [done..|by apply Hpr|done|done|by intros ?; apply Hsing|].
  by rewrite He.
Qed.

Definition values_copied k self b rests dk pv fuel (last : bool) (r : option (bool * ListMerger C * B * Z)) : Prop :=
  ∃ returned self' b' fuel' rests' pv', r = Some (returned, self', b', fuel')
    ∧ progress k self b rests dk pv fuel self' b' rests' pv' fuel'
    ∧ if returned : bool then fuel' = 0%Z ∧ pv' ≠ [] ∧ (last = true → ∃ i d, rests' !! i = Some d ∧ active k d)
      else (last = false → (0 < fuel')%Z) ∧ (last = true → (m = None ∨ fuel' = 0%Z) → pv' ≠ []) ∧ ∀ i d, rests' !! i = Some d → ¬ active k d.

Lemma values_copied_trans k self b rests dk pv fuel last self1 b1 rests1 pv1 fuel1 r :
  progress k self b rests dk pv fuel self1 b1 rests1 pv1 fuel1 → values_copied k self1 b1 rests1 dk pv1 fuel1 last r →
  values_copied k self b rests dk pv fuel last r.
Proof.
  intros Hpr (ret & self' & b' & fuel' & rests' & pv' & -> & Hpr' & Hend).
  exists ret, self', b', fuel', rests', pv'. split_and!; [done|by eapply progress_trans|done].
Qed.

Lemma copy_values_spec k s index n : ∀ self b rests dk pv fuel, merging k self b rests dk pv → set_ok s → elems s = [index] →
  only k rests index → (0 < fuel)%Z → nvals rests < n →
  values_copied k self b rests dk pv fuel false (copy_values size default_time n self b m s index fuel).
Proof.
  induction n as [|n IH]; intros self b rests dk pv fuel Hm Hs Hel Honly Hf Hn; [lia|]. cbn [copy_values].
  destruct (only_round k self b rests dk pv fuel s index Hm Hs Hel Honly Hf) as (self1 & b1 & fuel1 & self2 & valid & rests2 & pv2 & -> & Hstep & Hpr & Hlt & Hz & _ & Hnext).
  cbn [mbind option_bind]. rewrite Hstep. cbn [mbind option_bind]. pose proof (pr_fuel _ _ _ _ _ _ _ _ _ _ _ _ Hpr) as Hf1. destruct (Z.leb_spec fuel1 0).
  - assert (fuel1 = 0)%Z as -> by lia. exists true, self2, b1, 0%Z, rests2, pv2. split_and!; auto. done.
  - destruct valid.
    + eapply values_copied_trans; [done|]. apply IH; [by eapply pr_merging|done..|lia].
    + exists false, self2, b1, fuel1, rests2, pv2. split_and!; try done.
Qed.

Lemma copy_last_values_spec k s index n : ∀ self b rests dk pv fuel, merging k self b rests dk pv → set_ok s → elems s = [index] →
  only k rests index → (0 < fuel)%Z → nvals rests < n →
  values_copied k self b rests dk pv fuel true (copy_last_values size default_time n self b m s index fuel).
Proof.
  induction n as [|n IH]; intros self b rests dk pv fuel Hm Hs Hel Honly Hf Hn; [lia|]. cbn [copy_last_values].
  destruct (only_round k self b rests dk pv fuel s index Hm Hs Hel Honly Hf) as (self1 & b1 & fuel1 & self2 & valid & rests2 & pv2 & -> & Hstep & Hpr & Hlt & Hz & Hsing & Hnext).
  cbn [mbind option_bind]. rewrite Hstep. cbn [mbind option_bind]. pose proof (pr_fuel _ _ _ _ _ _ _ _ _ _ _ _ Hpr) as Hf1.
  destruct valid; cbn [negb].
  - destruct (Z.leb_spec fuel1 0).
    + assert (fuel1 = 0)%Z as -> by lia. exists true, self2, b1, 0%Z, rests2, pv2. split_and!; auto.
      intros _. destruct (proj2 (Hnext index) eq_refl) as (d & ? & ?). eauto.
    + eapply values_copied_trans; [done|]. apply IH; [by eapply pr_merging|done..|lia].
  - exists false, self2, b1, fuel1, rests2, pv2. split_and!; try done. intros _ [?| ->]; auto.
Qed.
End loops.
