(* ===== verification/ListMergerKeys.v ===== *)
(** The loops of the merger over the keys, and the whole of [work]. *)
From Stdlib Require Import Sorting.Sorted.
From S2P Require Import Prelude Machine Sort Consolidation Trie LayerSpec IndexSet MergeCursor Scheduler SchedulerSpec ListMerger ListMergerSpec ListMergerStep ListMergerLoops.
#[local] Open Scope nat_scope.
Import IndexSet ListMerger.

Section keys.
Context `{OK : Ord K} `{OV : Ord V} `{OT : Ord T} `{MR : MonoidValue R}.
Context `{MC : MergeCursor C K V T R} {MS : MergeCursorSpec C K V T R}.
Context `{BU : Builder B Out K V T R} {BS : BuilderSpec B Out K V T R}.
Context (size : nat) (Hsize : zst_ok (T * R) size) (default_time : T).
Context (timed : bool) (Htimed : timed = false → ∀ t t' : T, t = t') (m : option (T → T)) (g : T → T)
  (Hg : ∀ t, g (match m with Some f => f t | None => t end) = g t).
Context (total : K * (V * T) → R).
Implicit Types (rests : list (Data K V T R)) (self : ListMerger C) (b : B) (ts : Times T R)
  (vs pv : Vals V T R) (d dk : Data K V T R) (fuel : Z) (k : K) (v : V).
#[local] Abbreviation merging := (merging timed g total).

(** Between two keys. *)
Record idle self b rests dk : Prop := {
  id_reps : reps self rests;
  id_timed : time_diffs self = timed;
  id_b : b_rep b dk [] [];
  id_any : any_values self = false;
  id_dk : data_ok dk;
  id_rests : ∀ i d, rests !! i = Some d → data_ok d ∧ ∀ k k', k ∈ dk.*1 → k' ∈ d.*1 → k ≺ k';
  id_wt : ∀ j, wt (remap (G g) (tuples dk ++ (rests ≫= tuples))) j = total j }.

(** Stopped within the key [k]: some of its values are written, and the loops find it again. *)
Definition stopped k self b rests dk pv : Prop :=
  pv ≠ [] ∧ merging k self b rests dk pv ∧ (∃ i d, rests !! i = Some d ∧ at_key k d)
  ∧ ((∃ i d, rests !! i = Some d ∧ active k d)
     ∨ ∃ i1 i2 d1 d2, i1 ≠ i2 ∧ rests !! i1 = Some d1 ∧ rests !! i2 = Some d2 ∧ d1 ≠ [] ∧ d2 ≠ []).

(** The invariant of [work]: the keys [dk] and the values [pv] of the next one are written. *)
Definition inv self b rests dk pv : Prop := (pv = [] ∧ idle self b rests dk) ∨ ∃ k, stopped k self b rests dk pv.

Lemma inv_reps self b rests dk pv : inv self b rests dk pv → reps self rests.
Proof. intros [[_ Hi]|(k & _ & Hm & _)]; [apply Hi|apply Hm]. Qed.

(** The cursors that are not exhausted. *)
Definition remaining_set rests (s : IndexSet) : Prop := set_ok s ∧ ∀ i, i ∈ elems s ↔ ∃ d, rests !! i = Some d ∧ d ≠ [].
(** The cursors at the key [k], which is the smallest. *)
Definition key_set k rests (s : IndexSet) : Prop :=
  set_ok s ∧ elems s ≠ [] ∧ ∀ i, i ∈ elems s ↔ ∃ d, rests !! i = Some d ∧ at_key k d.
Definition least k rests : Prop := ∀ i d k', rests !! i = Some d → at_key k' d → k = k' ∨ k ≺ k'.

Lemma at_key_cons k d : at_key k d → ∃ vs r, d = (k, vs) :: r.
Proof. unfold at_key. destruct d as [|[k' vs] r]; [done|]. intros [= ->]. eauto. Qed.

Lemma min_keys_spec self rests s : reps self rests → remaining_set rests s → elems s ≠ [] →
  ∃ items mk k, current key self (into_iter s) = Some items ∧ find_min_indexes items = Some mk
    ∧ key_set k rests mk ∧ least k rests ∧ ∀ i, i ∈ elems mk → i ∈ elems s.
Proof.
  intros Hr [Hs Hrem] Hne. rewrite into_iter_elems by done.
  destruct (current_spec key self (λ i k, ∃ d, rests !! i = Some d ∧ at_key k d) (elems s)) as (items & Hcur & Hit & HP).
  { intros i (d & Hd & Hne')%Hrem. destruct (proj2 Hr i d Hd) as (mu & c & _ & Hc & Hrep).
    destruct d as [|[k vs] d]; [done|]. exists c, k. split_and!; [done|by eapply mc_key|by exists ((k, vs) :: d)]. }
  destruct (find_min_spec items) as (mk & k & Hfind & Hok & Hk & Hleast & Hel).
  { apply Forall_forall. intros [i x] Hi. apply (elems_lt s); [done|]. rewrite <- Hit. apply list_elem_of_fmap. by exists (i, x). }
  { intros ->. by rewrite <- Hit in Hne. }
  assert (∀ i d k', rests !! i = Some d → at_key k' d → (i, k') ∈ items) as Hin.
  { intros i d k' Hd Hk'. assert (i ∈ elems s) as Hi.
    { apply Hrem. exists d. split; [done|]. by intros ->. }
    rewrite <- Hit in Hi. apply list_elem_of_fmap in Hi as ([i' k2] & -> & Hi). cbn in *.
    destruct (HP _ _ Hi) as (d' & Hd' & Hk2). rewrite Hd in Hd'. injection Hd' as <-.
    unfold at_key in *. rewrite Hk' in Hk2. by injection Hk2 as <-. }
  exists items, mk, k. split_and!; [done..| | |].
  - split_and!; [done| |].
    + apply list_elem_of_fmap in Hk as ([i k'] & -> & Hk%Hel). intros He. rewrite He in Hk. by apply elem_of_nil in Hk.
    + intros i. rewrite Hel. split; [by intros ?%HP|]. intros (d & Hd & Ha). by eapply Hin.
  - intros i d k' Hd Hk'. apply not_klt, Hleast, list_elem_of_fmap. exists (i, k'). split; [done|]. by eapply Hin.
  - intros i Hi%Hel. rewrite <- Hit. apply list_elem_of_fmap. by exists (i, k).
Qed.

Lemma inv_merging self b rests dk pv k s : inv self b rests dk pv → key_set k rests s → least k rests →
  merging k self b rests dk pv
  ∧ (any_values self = false → ∀ i d, rests !! i = Some d → at_key k d → active k d).
Proof.
  intros Hinv (Hs & Hne & Hel) Hleast. destruct Hinv as [[-> [Hr Ht Hb Ha Hdk Hrests Hwt]]|(k' & Hne' & Hm & (i & d & Hd & Hk') & _)].
  - assert (∃ i d, rests !! i = Some d ∧ at_key k d) as (i0 & d0 & Hd0 & Hk0).
    { destruct (elems s) as [|i idx] eqn:E; [done|]. destruct (proj1 (Hel i)) as (d & ? & ?); [left|]. eauto. }
    split.
    + split; [done..|by rewrite Ha| done| |by split; [constructor|]| |].
      * intros k' Hk'. apply at_key_cons in Hk0 as (vs & r & ->). apply (proj2 (Hrests _ _ Hd0) k'); [done|left].
      * intros i d Hd. destruct (Hrests i d Hd) as [Hok _]. split; [by apply data_ok_rest|].
        destruct d as [|[k' vs] r]; [done|]. destruct (Hleast i _ k' Hd eq_refl) as [->|Hlt].
        { right. split; [done|]. by intros v v' ?%elem_of_nil. }
        left. split; [done|]. destruct Hok as [_ [[_ ?] _]%Forall_cons]. done.
      * exact Hwt.
    + intros _ i d Hd Hk. destruct (Hrests i d Hd) as [[_ Hok] _]. apply at_key_cons in Hk as (vs & r & ->).
      apply Forall_cons in Hok as [[_ Hvs] _]. destruct vs as [|[v ts] vs]; [done|]. by exists v, ts, vs, r.
  - assert (k' = k) as ->.
    { destruct (Hleast i d k' Hd Hk') as [|Hlt]; [done|]. exfalso.
      destruct (elems s) as [|i0 idx] eqn:E; [done|]. destruct (proj1 (Hel i0)) as (d0 & Hd0 & Hk0); [left|].
      apply at_key_cons in Hk0 as (vs & r & ->). destruct (mg_rests _ _ _ _ _ _ _ _ _ Hm _ _ Hd0) as [_ [[Hlt' _]|[-> _]]].
      - by destruct (klt_asym _ _ Hlt Hlt'). - by apply klt_irrefl in Hlt. }
    split; [done|]. intros Ha. exfalso. rewrite (mg_any _ _ _ _ _ _ _ _ _ Hm) in Ha. by rewrite bool_decide_eq_false_2 in Ha.
Qed.

(** The cursors at the key that have values left. *)
Lemma active_keys self rests k s : reps self rests → key_set k rests s →
  (any_values self = false → ∀ i d, rests !! i = Some d → at_key k d → active k d) →
  ∃ s', (if any_values self then l ← filter_valid self (into_iter s); from_iter l else Some s) = Some s'
    ∧ active_set k rests s'.
Proof.
  intros Hr (Hs & Hne & Hel) Hact. destruct (any_values self).
  - rewrite into_iter_elems by done.
    assert (∀ idx l, (∀ i, i ∈ idx → i ∈ elems s) → foldM (λ l index, c ← cursors self !! index; Some (if val_valid c then l ++ [index] else l)) l idx
      = Some (l ++ List.filter (λ i, from_option has_vals false (rests !! i)) idx)) as Hf.
    { induction idx as [|i idx IH]; intros l Hsub; cbn [foldM List.filter]; [by rewrite app_nil_r|].
      destruct (proj1 (Hel i)) as (d & Hd & Hk); [apply Hsub; left|]. destruct (proj2 Hr i d Hd) as (mu & c & _ & -> & Hrep).
      cbn [mbind option_bind]. rewrite IH by (intros j ?; apply Hsub; by right). apply at_key_cons in Hk as (vs & r & ->).
      rewrite (mc_val_valid _ _ _ _ _ Hrep), Hd. cbn [from_option]. destruct vs as [|p vs]; [done|].
      rewrite bool_decide_eq_false_2 by done. cbn. by rewrite <- app_assoc. }
    unfold filter_valid. rewrite Hf by done. cbn [mbind option_bind app].
    destruct (from_iter_spec (List.filter (λ i, from_option has_vals false (rests !! i)) (elems s))) as (s' & -> & Hs' & Hel').
    { apply Forall_forall. intros i Hi. rewrite list_elem_of_In, filter_In, <- list_elem_of_In in Hi. apply (elems_lt s); [done|]. by destruct Hi. }
    { apply filter_sorted, elems_sorted. }
    exists s'. split; [done|]. split; [done|]. intros i. rewrite Hel', list_elem_of_In, filter_In, <- list_elem_of_In, Hel. split.
    + intros [(d & Hd & Hk) Hv]. exists d. split; [done|]. rewrite Hd in Hv. by apply active_has_vals.
    + intros (d & Hd & v & ts & vs & r & ->). rewrite Hd. split; [|done]. eexists. by split.
  - exists s. split; [done|]. split; [done|]. intros i. rewrite Hel. split; intros (d & Hd & Hk); exists d; (split; [done|]); [by eapply Hact|].
    by destruct Hk as (v & ts & vs & r & ->).
Qed.
End keys.
