(* ===== verification/ListMergerWork.v ===== *)
(** The end of a key, the loops over the keys, and the whole of [work]. *)
From Stdlib Require Import Sorting.Sorted.
From S2P Require Import Prelude Machine Sort Consolidation Trie LayerSpec IndexSet MergeCursor Scheduler SchedulerSpec ListMerger ListMergerSpec ListMergerStep ListMergerLoops ListMergerKeys.
#[local] Open Scope nat_scope.
Import IndexSet ListMerger.

Lemma some_bind {A B} (f : A → option B) x : Some x ≫= f = f x.
Proof. done. Qed.

Lemma bind_fmap_ext {A B} (f : A → list B) l1 l2 : f <$> l1 = f <$> l2 → l1 ≫= f = l2 ≫= f.
Proof.
  assert (∀ l, l ≫= f = concat (f <$> l)) as Hc by (induction l as [|x l IH]; [done|cbn; by rewrite IH]).
  intros He. by rewrite !Hc, He.
Qed.

Section work.
Context `{OK : Ord K} `{OV : Ord V} `{OT : Ord T} `{MR : MonoidValue R}.
Context `{MC : MergeCursor C K V T R} {MS : MergeCursorSpec C K V T R}.
Context `{BU : Builder B Out K V T R} {BS : BuilderSpec B Out K V T R}.
Context (size : nat) (Hsize : zst_ok (T * R) size) (default_time : T).
Context (timed : bool) (Htimed : timed = false → ∀ t t' : T, t = t') (m : option (T → T)) (g : T → T)
  (Hg : ∀ t, g (match m with Some f => f t | None => t end) = g t).
Context (total : K * (V * T) → R).
Implicit Types (rests : list (Data K V T R)) (self : ListMerger C) (b : B) (ts : Times T R)
  (vs pv : Vals V T R) (d dk : Data K V T R) (fuel : Z) (k : K) (v : V).
#[local] Abbreviation merging := (merging timed g total).
#[local] Abbreviation idle := (idle timed g total).
#[local] Abbreviation stopped := (stopped timed g total).
#[local] Abbreviation inv := (inv timed g total).

(** ** The end of a key *)
Definition no_active k rests : Prop := ∀ i d, rests !! i = Some d → ¬ active k d.
Definition at_key_idx k rests (idx : list nat) : Prop := ∀ i, i ∈ idx ↔ ∃ d, rests !! i = Some d ∧ at_key k d.

Lemma spent_head k d : at_key k d → ¬ active k d → ∃ r, d = (k, []) :: r.
Proof.
  intros (vs & r & ->)%at_key_cons Hn. destruct vs as [|[v ts] vs]; [eauto|]. destruct Hn. by exists v, ts, vs, r.
Qed.

Lemma popped_tail_same {X} (f : Data K V T R → list X) k rests idx :
  (∀ k r, f ((k, []) :: r) = f r) → at_key_idx k rests idx → no_active k rests →
  popped tail idx rests ≫= f = rests ≫= f.
Proof.
  intros Hf Hidx Hna. apply bind_fmap_ext, list_eq. intros i. rewrite !list_lookup_fmap, popped_lookup.
  destruct (rests !! i) as [d|] eqn:Hd; [|done]. cbn [fmap option_fmap option_map]. f_equal.
  destruct (decide (i ∈ idx)) as [Hi|]; [|done]. apply Hidx in Hi as (d' & Hd' & Hk). rewrite Hd in Hd'. injection Hd' as <-.
  destruct (spent_head k d Hk (Hna i d Hd)) as (r & ->). by rewrite Hf.
Qed.

Lemma popped_nkeys idx : ∀ rests, NoDup idx → (∀ i, i ∈ idx → ∃ d, rests !! i = Some d ∧ nonempty_data d = true) →
  nkeys rests = length idx + nkeys (popped tail idx rests).
Proof.
  induction idx as [|i idx IH]; intros rests Hnd Hh; [by rewrite popped_nil|].
  apply NoDup_cons in Hnd as [Hni Hnd]. destruct (Hh i) as ([|[k vs] d] & Hi & Hne); [left|done|].
  rewrite (popped_cons _ i idx rests _ Hi Hni). cbn [tail length].
  assert (nkeys rests = S (nkeys (<[i := d]> rests))) as ->.
  { unfold nkeys. by rewrite (bind_insert_perm keys_of rests i _ d [k] Hi). }
  rewrite (IH (<[i := d]> rests) Hnd); [lia|].
  intros j Hj. rewrite list_lookup_insert_ne by (by intros ->). apply Hh. by right.
Qed.

(** The keys that are written once [k] is done. *)
Definition with_key dk k pv : Data K V T R := dk ++ emit k (nonempty pv).

Lemma with_key_tuples dk k pv : tuples (with_key dk k pv) = tuples dk ++ prefix k (val_tups pv).
Proof. unfold with_key. rewrite tuples_app. destruct pv; [done|]. cbn [nonempty emit]. by rewrite tuples_cons, app_nil_r. Qed.

Lemma with_key_ok dk k pv : data_ok dk → (∀ k', k' ∈ dk.*1 → k' ≺ k) → vals_ok pv → data_ok (with_key dk k pv).
Proof.
  intros [Hs Hf] Hlt Hpv. unfold with_key. destruct pv as [|p pv]; [by rewrite app_nil_r|]. cbn [nonempty emit]. split.
  - apply keys_sorted_app. split_and!; [done|repeat constructor|]. intros k1 k2 Hk1 Hk2. cbn in Hk2.
    apply list_elem_of_singleton in Hk2 as ->. by apply Hlt.
  - rewrite fmap_app. apply Forall_app. split; [done|]. constructor; [|done]. by split.
Qed.

Lemma with_key_keys dk k pv k' : k' ∈ (with_key dk k pv).*1 → k' ∈ dk.*1 ∨ k' = k.
Proof. unfold with_key. rewrite fmap_app, elem_of_app. intros [|Hk]; [by left|right]. by apply emit_keys in Hk. Qed.

(** What is left behind a finished key. *)
Lemma after_key k dk pv idx rests i d : at_key_idx k rests idx → no_active k rests → (∀ k', k' ∈ dk.*1 → k' ≺ k) →
  rest_ok d → beyond k pv d → rests !! i = Some d →
  data_ok (if decide (i ∈ idx) then tail d else d)
  ∧ ∀ k1 k2, k1 ∈ (with_key dk k pv).*1 → k2 ∈ (if decide (i ∈ idx) then tail d else d).*1 → k1 ≺ k2.
Proof.
  intros Hidx Hna Hlt (Hs & Hv & He) Hbey Hd.
  assert (∀ d', data_ok d' → (∀ k2, k2 ∈ d'.*1 → k ≺ k2) →
    data_ok d' ∧ ∀ k1 k2, k1 ∈ (with_key dk k pv).*1 → k2 ∈ d'.*1 → k1 ≺ k2) as Hall.
  { intros d' Hok Hk. split; [done|]. intros k1 k2 [Hk1| ->]%with_key_keys Hk2; [|auto]. transitivity k; auto. }
  destruct (decide (i ∈ idx)) as [Hi|Hi].
  - apply Hidx in Hi as (d' & Hd' & Hk). rewrite Hd in Hd'. injection Hd' as <-.
    destruct (spent_head k d Hk (Hna i d Hd)) as (r & ->). apply keys_sorted_cons in Hs as [Hs Hk2]. apply Hall; [|done]. by split.
  - destruct d as [|[k' vs] r]; [by apply Hall; [split; constructor|intros ? ?%elem_of_nil]|].
    destruct Hbey as [[Hk Hne]|[-> _]].
    + apply Hall; [split; [done|]; constructor; [|done]; split; [by apply Forall_cons in Hv as [? _]|done]|].
      apply keys_sorted_cons in Hs as [_ Hr]. intros k2 [->|Hk2]%elem_of_cons; [done|]. transitivity k'; [done|by apply Hr].
    + destruct Hi. apply Hidx. by eexists.
Qed.

Lemma copy_key_spec self b rests dk k pv i r : reps self rests → b_rep b dk pv [] → data_ok (dk ++ [(k, pv)]) →
  rests !! i = Some ((k, []) :: r) →
  ∃ self' b' k', copy_key self b i = Some (self', b') ∧ same_flags self self'
    ∧ b_rep b' (dk ++ [(k, pv)]) [] [] ∧ reps self' (<[i := (k', []) :: r]> rests).
Proof.
  intros Hr Hb Hok Hi. destruct (proj2 Hr i _ Hi) as (mu & c & Hmu & Hc & Hrep).
  unfold copy_key. rewrite Hmu, Hc. cbn [mbind option_bind]. destruct mu.
  - destruct (mc_key_mut _ _ _ _ Hrep) as [-> Hset]. cbn [mbind option_bind].
    destruct (b_key_mut _ _ _ _ Hb Hok) as (b' & k' & -> & Hb'). cbn [mbind option_bind].
    destruct (Hset k') as (c' & -> & Hc'). cbn [mbind option_bind]. eexists _, b', k'. split_and!; try done.
    eapply reps_set; [done|by eapply lookup_lt_Some|done|done].
  - rewrite (proj2 (mc_key _ _ _ _ _ Hrep)). cbn [mbind option_bind].
    destruct (b_key _ _ _ _ Hb Hok) as (b' & -> & Hb'). cbn [mbind option_bind]. exists self, b', k.
    split_and!; try done. by rewrite list_insert_id.
Qed.

(** The key is written, if it has values, and its cursors move on. *)
Lemma finish_key_spec k self b rests dk pv idx i0 : merging k self b rests dk pv → at_key_idx k rests idx → i0 ∈ idx →
  no_active k rests →
  ∃ self1 b1 rests1, finish_key self b (Some i0) = Some (self1, b1) ∧ reps self1 rests1
    ∧ popped tail idx rests1 = popped tail idx rests
    ∧ (∀ i, i ∈ idx → ∃ d, rests1 !! i = Some d ∧ nonempty_data d = true)
    ∧ ∀ self2, reps self2 (popped tail idx rests) → same_flags self1 self2 →
        idle self2 b1 (popped tail idx rests) (with_key dk k pv).
Proof.
  intros Hm Hidx Hi0 Hna. destruct Hm as [Hr Ht Hb Ha Hdk Hbef Hpv Hrests Hwt].
  pose proof (with_key_ok dk k pv Hdk Hbef Hpv) as Hok.
  assert (∀ i, i ∈ idx → ∃ d, rests !! i = Some d ∧ nonempty_data d = true) as Hnonempty.
  { intros i (d & Hd & Hk)%Hidx. exists d. split; [done|]. by apply at_key_cons in Hk as (vs & r & ->). }
  assert (∀ self1 b1 self2, b_rep b1 (with_key dk k pv) [] [] → any_values self1 = false → time_diffs self1 = timed →
    reps self2 (popped tail idx rests) → same_flags self1 self2 → idle self2 b1 (popped tail idx rests) (with_key dk k pv)) as Hidle.
  { intros self1 b1 self2 Hb1 Ha1 Ht1 Hr2 (Ha2 & _ & Ht2). split; [done|congruence|done|congruence|done| |].
    - intros i d Hd. rewrite popped_lookup in Hd. apply fmap_Some in Hd as (d0 & Hd & ->).
      destruct (Hrests i d0 Hd). by eapply after_key.
    - intros j. rewrite <- (Hwt j), (popped_tail_same tuples k), with_key_tuples, <- app_assoc; done. }
  unfold finish_key. rewrite Ha. destruct pv as [|p pv].
  - rewrite bool_decide_eq_true_2 in * by done. cbn [negb] in *. exists self, b, rests. split_and!; try done.
    intros self2 Hr2 Hfl. apply (Hidle self); [unfold with_key; by rewrite app_nil_r|done..].
  - rewrite bool_decide_eq_false_2 by done. cbn [negb mbind option_bind].
    apply Hidx in Hi0 as Hd0. destruct Hd0 as (d0 & Hd0 & Hk0). destruct (spent_head k d0 Hk0 (Hna i0 d0 Hd0)) as (r & ->).
    destruct (copy_key_spec self b rests dk k (p :: pv) i0 r Hr Hb Hok Hd0) as (self' & b' & k' & -> & (Ha' & Hm' & Ht') & Hb' & Hr').
    cbn [mbind option_bind]. eexists (with_any self' false), b', (<[i0 := (k', []) :: r]> rests). split_and!; [done|done| | |].
    + apply list_eq. intros i. rewrite !popped_lookup. destruct (decide (i0 = i)) as [<-|Hne]; [|by rewrite list_lookup_insert_ne].
      rewrite list_lookup_insert_eq by (by eapply lookup_lt_Some). rewrite Hd0. cbn [fmap option_fmap option_map]. by rewrite !decide_True.
    + intros i Hi. destruct (decide (i0 = i)) as [<-|Hne]; [|rewrite list_lookup_insert_ne by done; auto].
      eexists. by rewrite list_lookup_insert_eq by (by eapply lookup_lt_Some).
    + intros self2 Hr2 Hfl. apply (Hidle (with_any self' false)); [done|done|cbn; congruence|done|done].
Qed.

(** ** What a call does: the values it writes, the fuel it uses, what it leaves *)
Definition written dk pv : nat := length (all_vals dk) + length pv.

Record spent rests dk pv fuel rests' dk' pv' fuel' : Prop := {
  sp_fuel : (fuel' + Z.of_nat (written dk' pv') = fuel + Z.of_nat (written dk pv))%Z;
  sp_vals : nvals rests' + written dk' pv' ≤ nvals rests + written dk pv;
  sp_more : nvals rests' ≤ nvals rests;
  sp_keys : nkeys rests' ≤ nkeys rests;
  sp_len : length rests' = length rests;
  sp_pos : (0 ≤ fuel → 0 ≤ fuel')%Z }.

Lemma spent_refl rests dk pv fuel : spent rests dk pv fuel rests dk pv fuel.
Proof. by split. Qed.

Lemma spent_trans rests dk pv fuel rests1 dk1 pv1 fuel1 rests2 dk2 pv2 fuel2 :
  spent rests dk pv fuel rests1 dk1 pv1 fuel1 → spent rests1 dk1 pv1 fuel1 rests2 dk2 pv2 fuel2 →
  spent rests dk pv fuel rests2 dk2 pv2 fuel2.
Proof. intros [????? ?] [????? ?]. split; try lia. Qed.

Lemma same_keys_length rests rests' : same_keys rests rests' → length rests' = length rests.
Proof. intros He. apply (f_equal length) in He. by rewrite !length_fmap in He. Qed.

Lemma progress_spent k self b rests dk pv fuel self' b' rests' pv' fuel' :
  progress timed g total k self b rests dk pv fuel self' b' rests' pv' fuel' → spent rests dk pv fuel rests' dk pv' fuel'.
Proof.
  intros [_ Hk (out & -> & -> & Hn) Hf].
  split; unfold written; rewrite ?length_app; [lia..|by rewrite (same_keys_nkeys _ _ Hk)|by apply same_keys_length|done].
Qed.

Lemma with_key_written dk k pv : written (with_key dk k pv) [] = written dk pv.
Proof.
  assert (∀ d1 d2, all_vals (d1 ++ d2) = all_vals d1 ++ all_vals d2) as Happ by (intros; apply bind_app).
  unfold written, with_key. rewrite Happ, length_app. destruct pv as [|p pv]; [done|].
  cbn [nonempty emit all_vals mbind list_bind snd]. rewrite app_nil_r. cbn. lia.
Qed.

(** The end of a key for all its cursors. *)
Lemma key_end_all k self b rests dk pv idx i0 s fuel : merging k self b rests dk pv → at_key_idx k rests idx → i0 ∈ idx →
  no_active k rests → NoDup idx → Forall (λ i, i < 64) idx → remaining_set rests s →
  ∃ self1 b1 self2 s2, finish_key self b (Some i0) = Some (self1, b1)
    ∧ step_all cursor_step_key self1 s idx = Some (self2, s2)
    ∧ idle self2 b1 (popped tail idx rests) (with_key dk k pv) ∧ remaining_set (popped tail idx rests) s2
    ∧ spent rests dk pv fuel (popped tail idx rests) (with_key dk k pv) [] fuel
    ∧ nkeys (popped tail idx rests) < nkeys rests.
Proof.
  intros Hm Hidx Hi0 Hna Hnd Hlt [Hs Hrem].
  destruct (finish_key_spec k self b rests dk pv idx i0 Hm Hidx Hi0 Hna) as (self1 & b1 & rests1 & Hfin & Hr1 & Hpop & Hne1 & Hidle).
  destruct (step_all_spec cursor_step_key tail nonempty_data nonempty_data idx step_key_ok self1 rests1 s Hr1 Hs Hnd Hlt Hne1)
    as (self2 & s2 & Hstep & Hr2 & Hfl & Hs2 & Hel). rewrite Hpop in Hr2.
  assert (∀ i, i ∈ idx → ∃ d, rests !! i = Some d ∧ nonempty_data d = true) as Hne.
  { intros i (d & Hd & Hk)%Hidx. exists d. split; [done|]. by apply at_key_cons in Hk as (vs & r & ->). }
  pose proof (popped_nkeys idx rests Hnd Hne) as Hnk. assert (0 < length idx) as Hpos by (destruct idx; [by apply elem_of_nil in Hi0|cbn; lia]).
  exists self1, b1, self2, s2. split_and!; [done..|by apply Hidle| | |lia].
  - split; [done|]. intros j. rewrite Hel, Hrem.
    assert (popped tail idx rests1 !! j = popped tail idx rests !! j) as He by by rewrite Hpop.
    split.
    + intros [(d & Hd & Hdne) Himp]. rewrite popped_lookup, Hd. eexists. split; [done|].
      destruct (decide (j ∈ idx)) as [Hj|]; [|done]. destruct (Himp Hj) as (d1 & Hd1 & Hv).
      rewrite !popped_lookup, Hd, Hd1 in He. cbn [fmap option_fmap option_map] in He. rewrite !decide_True in He by done.
      injection He as He. rewrite <- He. by destruct (tail d1).
    + intros (d' & Hd' & Hdne). pose proof Hd' as Hd1. rewrite <- He in Hd1. rewrite popped_lookup in Hd', Hd1.
      apply fmap_Some in Hd' as (d & Hd & ->). apply fmap_Some in Hd1 as (d1 & Hd1 & Heq).
      split; [exists d; split; [done|]; destruct (decide (j ∈ idx)); [by destruct d|done]|].
      intros Hj. exists d1. split; [done|]. rewrite Heq in Hdne.
      destruct (decide (j ∈ idx)); [by destruct (tail d1)|done].
  - assert (nvals (popped tail idx rests) = nvals rests) as Hnv by by (unfold nvals; rewrite (popped_tail_same all_vals k)).
    split; rewrite ?with_key_written, ?Hnv; [lia..|unfold popped; by rewrite length_imap|done].
Qed.

(** ** The loops over the keys *)
#[local] Abbreviation values_copied := (values_copied timed m g total).

Lemma values_spec k n self b rests dk pv fuel s : merging k self b rests dk pv → active_set k rests s →
  (0 < fuel)%Z → nvals rests < n →
  values_copied k self b rests dk pv fuel false
    ('(returned, self, b, s, fuel) ← merge_values size default_time n self b m s fuel;
     if (returned : bool) then Some (true, self, b, fuel)
     else match first s with
          | Some index => copy_values size default_time n self b m s index fuel
          | None => Some (false, self, b, fuel)
          end).
Proof.
  intros Hm Ha Hf Hn.
  destruct (merge_values_spec size Hsize default_time timed Htimed m g Hg total k n self b rests dk pv fuel s Hm Ha Hf ltac:(lia))
    as (ret & self1 & b1 & s1 & fuel1 & rests1 & pv1 & -> & Hpr & Ha1 & Hret). cbn [mbind option_bind].
  destruct ret; [exists true, self1, b1, fuel1, rests1, pv1; split_and!; [done|done|by destruct Hret..|done]|].
  destruct Hret as [Hf1 Hl]. destruct Ha1 as [Hs1 Hel1]. rewrite first_elems by done.
  assert (nvals rests1 ≤ nvals rests) as Hnv by apply (progress_spent _ _ _ _ _ _ _ _ _ _ _ _ Hpr).
  destruct (elems s1) as [|index [|]] eqn:E; [| |cbn in Hl; lia]; cbn [head].
  - exists false, self1, b1, fuel1, rests1, pv1. split_and!; [done..|]. intros i d Hd Had.
    assert (i ∈ []) as Hi by (apply Hel1; eauto). by apply elem_of_nil in Hi.
  - eapply values_copied_trans; [done|].
    apply (copy_values_spec size Hsize default_time timed Htimed m g Hg total); [apply Hpr|done|done| |done|lia].
    intros i. by rewrite <- Hel1, list_elem_of_singleton.
Qed.

Lemma two_remaining rests s : remaining_set rests s → is_long s = true →
  ∃ i1 i2 d1 d2, i1 ≠ i2 ∧ rests !! i1 = Some d1 ∧ rests !! i2 = Some d2 ∧ d1 ≠ [] ∧ d2 ≠ [].
Proof.
  intros [Hs Hrem] Hl. rewrite is_long_elems in Hl by done. apply Nat.ltb_lt in Hl. pose proof (elems_NoDup s) as Hnd.
  destruct (elems s) as [|i1 [|i2 idx]] eqn:E; cbn in Hl; [lia..|].
  destruct (proj1 (Hrem i1)) as (d1 & ? & ?); [left|]. destruct (proj1 (Hrem i2)) as (d2 & ? & ?); [right; left|].
  exists i1, i2, d1, d2. split_and!; try done. intros ->. apply NoDup_cons in Hnd as [Hni _]. apply Hni. left.
Qed.

Lemma same_keys_at rests rests' i d : same_keys rests rests' → rests !! i = Some d →
  ∃ d', rests' !! i = Some d' ∧ keys_of d' = keys_of d.
Proof. intros He%same_keys_sym. by apply same_keys_lookup. Qed.

Lemma same_keys_remaining rests rests' s : same_keys rests rests' → remaining_set rests s → remaining_set rests' s.
Proof.
  assert (∀ d d' : Data K V T R, keys_of d' = keys_of d → d ≠ [] → d' ≠ []) as Hne by by intros [] [].
  intros He [Hs Hrem]. split; [done|]. intros i. rewrite Hrem. split.
  - intros (d & Hd & Hd0). destruct (same_keys_at _ _ _ _ He Hd) as (d' & Hd' & Hk). eauto.
  - intros (d' & Hd' & Hd0). destruct (same_keys_lookup _ _ _ _ He Hd') as (d & Hd & Hk). eauto.
Qed.

Lemma key_set_idx k rests rests' s : key_set k rests s → same_keys rests rests' → at_key_idx k rests' (elems s).
Proof.
  intros (_ & _ & Hel) He i. rewrite Hel. unfold at_key. split.
  - intros (d & Hd & Hk). destruct (same_keys_at _ _ _ _ He Hd) as (d' & Hd' & Hkeys). exists d'. by rewrite Hkeys.
  - intros (d' & Hd' & Hk). destruct (same_keys_lookup _ _ _ _ He Hd') as (d & Hd & Hkeys). exists d. by rewrite Hkeys.
Qed.

Lemma merge_keys_spec n : ∀ self b rests dk pv fuel s, inv self b rests dk pv → remaining_set rests s →
  nvals rests + nkeys rests < n →
  ∃ ret self' b' s' fuel' rests' dk' pv',
    merge_keys (K := K) (V := V) size default_time n self b m s fuel = Some (ret, self', b', s', fuel')
    ∧ inv self' b' rests' dk' pv' ∧ spent rests dk pv fuel rests' dk' pv' fuel'
    ∧ if ret : bool then fuel' = 0%Z else remaining_set rests' s' ∧ ((fuel' ≤ 0)%Z ∨ length (elems s') ≤ 1).
Proof.
  induction n as [|n IH]; intros self b rests dk pv fuel s Hinv Hrem Hn; [lia|]. cbn [merge_keys].
  destruct (is_long s && (0 <? fuel)%Z) eqn:E.
  2: { exists false, self, b, s, fuel, rests, dk, pv. split_and!; [done|done|apply spent_refl|done|].
       apply andb_false_iff in E as [El|Ef%Z.ltb_ge]; [right|by left].
       rewrite is_long_elems in El by apply Hrem. apply Nat.ltb_ge in El. lia. }
  apply andb_true_iff in E as [El Ef%Z.ltb_lt].
  destruct (two_remaining rests s Hrem El) as (i1 & i2 & d1 & d2 & Hi12 & Hd1 & Hd2 & Hne1 & Hne2).
  assert (elems s ≠ []) as Hne.
  { assert (i1 ∈ elems s) as Hi1 by (apply (proj2 Hrem); eauto). intros He. rewrite He in Hi1. by apply elem_of_nil in Hi1. }
  destruct (min_keys_spec self rests s (inv_reps _ _ _ _ _ _ _ _ Hinv) Hrem Hne) as (items & mk & k & -> & Hfind & Hks & Hleast & _).
  cbn [mbind option_bind]. rewrite Hfind. cbn [mbind option_bind].
  destruct (inv_merging timed g total self b rests dk pv k mk Hinv Hks Hleast) as [Hm Hact].
  destruct (active_keys self rests k mk (inv_reps _ _ _ _ _ _ _ _ Hinv) Hks Hact) as (s1 & -> & Hs1). cbn [mbind option_bind].
  destruct (values_spec k (S n) self b rests dk pv fuel s1 Hm Hs1 Ef ltac:(lia)) as (ret & self1 & b1 & fuel1 & rests1 & pv1 & Heq & Hpr & Hret).
  destruct (merge_values size default_time (S n) self b m s1 fuel) as [[[[[ret0 self0] b0] s0] fuel0]|]; cbn [mbind option_bind] in *; [|done].
  pose proof (progress_spent _ _ _ _ _ _ _ _ _ _ _ _ Hpr) as Hsp. destruct Hpr as [Hm1 Hsame _ _].
  assert (fuel1 = 0%Z → pv1 ≠ [] → inv self1 b1 rests1 dk pv1) as Hstop.
  { intros _ Hpv1. right. exists k. split_and!; [done|done| |right].
    - destruct Hks as (_ & Hmk & Hel). destruct (elems mk) as [|i0 idx]; [done|].
      destruct (proj1 (Hel i0)) as (d & Hd & Hk); [left|]. destruct (same_keys_at _ _ _ _ Hsame Hd) as (d' & Hd' & Hkeys).
      exists i0, d'. unfold at_key. by rewrite Hkeys.
    - apply (two_remaining rests1 s); [by eapply same_keys_remaining|done]. }
  assert (ret = true → inv self1 b1 rests1 dk pv1 ∧ fuel1 = 0%Z) as Hret1.
  { intros ->. destruct Hret as (-> & Hpv1 & _). auto. }
  destruct ret0.
  { injection Heq as <- -> -> ->. destruct (Hret1 eq_refl) as [Hinv1 ->].
    exists true, self1, b1, s, 0%Z, rests1, dk, pv1. by split_and!. }
  rewrite Heq. cbn [mbind option_bind]. destruct ret.
  { destruct (Hret1 eq_refl) as [Hinv1 ->]. exists true, self1, b1, s, 0%Z, rests1, dk, pv1. by split_and!. }
  destruct Hret as (Hf1 & _ & Hna). pose proof Hks as (Hmk & Hmkne & _). rewrite first_elems, into_iter_elems by done.
  destruct (elems mk) as [|i0 idx] eqn:Emk; [done|]. cbn [head]. rewrite <- Emk.
  destruct (key_end_all k self1 b1 rests1 dk pv1 (elems mk) i0 s fuel1 Hm1) as (self2 & b2 & self3 & s3 & -> & Hstep & Hidle & Hrem3 & Hsp3 & Hlt).
  { exact (key_set_idx k rests rests1 mk Hks Hsame). } { rewrite Emk. left. } { done. } { apply elems_NoDup. }
  { by apply elems_lt_all. } { exact (same_keys_remaining rests rests1 s Hsame Hrem). }
  rewrite some_bind. cbv beta iota. rewrite Hstep, some_bind. cbv beta iota.
  destruct (IH self3 b2 (popped tail (elems mk) rests1) (with_key dk k pv1) [] fuel1 s3) as (ret & self' & b' & s' & fuel' & rests' & dk' & pv' & -> & Hinv' & Hsp' & Hend).
  { by left. } { done. } { destruct Hsp, Hsp3. lia. }
  exists ret, self', b', s', fuel', rests', dk', pv'. split_and!; [done|done| |done].
  eapply spent_trans; [done|]. by eapply spent_trans.
Qed.

(** ** The last cursor *)
Definition finished rests dk pv : Prop := pv = [] ∧ Forall (λ d, d = []) rests.

Lemma remaining_only rests s index : remaining_set rests s → elems s = [index] →
  ∀ i d, rests !! i = Some d → d ≠ [] → i = index.
Proof.
  intros [_ Hrem] He i d Hd Hne. assert (i ∈ elems s) as Hi by (apply Hrem; eauto).
  rewrite He in Hi. by apply list_elem_of_singleton in Hi.
Qed.

Lemma exhausted_finished self b rests dk pv : inv self b rests dk pv → (∀ i d, rests !! i = Some d → d = []) → finished rests dk pv.
Proof.
  intros Hinv Hall. split; [|by apply Forall_lookup].
  destruct Hinv as [[-> _]|(k & _ & _ & (i & d & Hd & Hk) & _)]; [done|].
  rewrite (Hall i d Hd) in Hk. done.
Qed.

(** The last cursor is at a key with values left. *)
Lemma last_only self b rests dk pv s index : inv self b rests dk pv → remaining_set rests s → elems s = [index] →
  ∃ k, merging k self b rests dk pv ∧ only k rests index ∧ at_key_idx k rests [index].
Proof.
  intros Hinv Hrem Hel. pose proof (remaining_only rests s index Hrem Hel) as Hone.
  assert (elems s ≠ []) as Hne by by rewrite Hel.
  destruct (min_keys_spec self rests s (inv_reps _ _ _ _ _ _ _ _ Hinv) Hrem Hne) as (items & mk & k & _ & _ & Hks & Hleast & _).
  destruct (inv_merging timed g total self b rests dk pv k mk Hinv Hks Hleast) as [Hm Hact].
  assert (∀ d, at_key k d → d ≠ []) as Hkne by by intros [].
  assert (∃ d, rests !! index = Some d ∧ at_key k d) as (d0 & Hd0 & Hk0).
  { destruct Hks as (_ & Hmk & Hel'). destruct (elems mk) as [|i0 idx]; [done|].
    destruct (proj1 (Hel' i0)) as (d & Hd & Hk); [left|]. rewrite <- (Hone i0 d Hd (Hkne d Hk)). eauto. }
  exists k. split_and!; [done| |].
  - intros i. split.
    { intros (d & Hd & v & ts & vs & r & ->). by eapply Hone. }
    intros ->. destruct Hinv as [[_ Hidle]|(k' & Hpv & Hm' & (i1 & d1 & Hd1 & Hk1) & Hst)].
    + exists d0. split; [done|]. apply (Hact (id_any _ _ _ _ _ _ _ Hidle) index); done.
    + assert (k' = k) as ->.
      { rewrite (Hone i1 d1 Hd1) in Hd1 by (intros ->; done). rewrite Hd0 in Hd1. injection Hd1 as <-.
        unfold at_key in Hk0, Hk1. congruence. }
      destruct Hst as [(i & d & Hd & Had)|(i & j & d & d' & Hij & Hd & Hd' & Hn1 & Hn2)].
      * exists d. split; [|done]. rewrite <- (Hone i d Hd); [done|]. by destruct Had as (? & ? & ? & ? & ->).
      * destruct Hij. rewrite (Hone i d Hd Hn1). by rewrite (Hone j d' Hd' Hn2).
  - intros i. rewrite list_elem_of_singleton. split; [intros ->; eauto|]. intros (d & Hd & Hk). by eapply Hone; [done|apply Hkne].
Qed.

(** The end of a key of the last cursor. *)
Lemma key_end_last k self b rests dk pv index s fuel : merging k self b rests dk pv → at_key_idx k rests [index] →
  no_active k rests → remaining_set rests s → elems s = [index] →
  ∃ self1 b1 self2 valid, finish_key self b (Some index) = Some (self1, b1)
    ∧ cursor_step_key self1 index = Some (self2, valid)
    ∧ idle self2 b1 (popped tail [index] rests) (with_key dk k pv)
    ∧ spent rests dk pv fuel (popped tail [index] rests) (with_key dk k pv) [] fuel
    ∧ nkeys (popped tail [index] rests) < nkeys rests
    ∧ if valid : bool then remaining_set (popped tail [index] rests) s else ∀ i d, popped tail [index] rests !! i = Some d → d = [].
Proof.
  intros Hm Hidx Hna Hrem Hel. assert (index < 64) as Hlt by (apply (elems_lt s); [apply Hrem|rewrite Hel; by left]).
  destruct (key_end_all k self b rests dk pv [index] index s fuel Hm Hidx) as (self1 & b1 & self2 & s2 & Hfin & Hstep & Hidle & Hrem2 & Hsp & Hnk).
  { by left. } { done. } { apply NoDup_singleton. } { by constructor. } { done. }
  cbn [step_all] in Hstep. destruct (cursor_step_key self1 index) as [[self3 valid]|] eqn:E; [|done].
  rewrite some_bind in Hstep. cbv beta iota in Hstep. exists self1, b1, self3, valid. destruct valid.
  - rewrite some_bind in Hstep. injection Hstep as -> ->. by split_and!.
  - destruct (remove s index) as [s3|] eqn:Er; [|done]. rewrite some_bind in Hstep. injection Hstep as -> ->. split_and!; [done..|].
    intros i d Hd. destruct d as [|p d]; [done|]. exfalso. destruct Hrem as [Hs _].
    destruct (remove_spec s index Hs Hlt) as (s4 & Hr & _ & Hel4). rewrite Er in Hr. injection Hr as <-.
    assert (i ∈ elems s2) as Hi by (apply Hrem2; eauto). rewrite Hel4, list_elem_of_In, filter_In, <- list_elem_of_In, Hel in Hi.
    destruct Hi as [->%list_elem_of_singleton Hi]. by rewrite Nat.eqb_refl in Hi.
Qed.

(** What [work] gives: the invariant again, and with fuel left everything is merged. *)
Definition worked self b rests dk pv fuel (r : option (ListMerger C * B * Z)) : Prop :=
  ∃ self' b' fuel' rests' dk' pv', r = Some (self', b', fuel') ∧ inv self' b' rests' dk' pv'
    ∧ spent rests dk pv fuel rests' dk' pv' fuel'
    ∧ ((0 < fuel')%Z → finished rests' dk' pv').

Lemma worked_trans self b rests dk pv fuel self1 b1 rests1 dk1 pv1 fuel1 r :
  spent rests dk pv fuel rests1 dk1 pv1 fuel1 → worked self1 b1 rests1 dk1 pv1 fuel1 r → worked self b rests dk pv fuel r.
Proof.
  intros Hsp (self' & b' & fuel' & rests' & dk' & pv' & -> & Hinv & Hsp' & Hend).
  exists self', b', fuel', rests', dk', pv'. split_and!; [done|done|by eapply spent_trans|done].
Qed.

Lemma worked_now self b rests dk pv fuel : inv self b rests dk pv → ((0 < fuel)%Z → ∀ i d, rests !! i = Some d → d = []) →
  worked self b rests dk pv fuel (Some (self, b, fuel)).
Proof.
  intros Hinv Hend. exists self, b, fuel, rests, dk, pv. split_and!; [done|done|apply spent_refl|].
  intros Hf. by eapply exhausted_finished, Hend.
Qed.

(** The assertion of the code: without advancing times, a key of the last cursor has values. *)
Lemma last_assert self pv : any_values self = negb (bool_decide (pv = [])) → (m = None → pv ≠ []) →
  bool_decide (is_Some m) || any_values self = true.
Proof.
  intros -> Hm. destruct m; [done|]. rewrite (bool_decide_eq_false_2 (pv = [])) by auto. done.
Qed.

Lemma copy_last_spec n : ∀ self b rests dk pv fuel s index, inv self b rests dk pv → remaining_set rests s →
  ((0 < fuel)%Z → elems s = [index]) → nvals rests + nkeys rests < n →
  worked self b rests dk pv fuel (copy_last (K := K) (V := V) size default_time n self b m s index fuel).
Proof.
  induction n as [|n IH]; intros self b rests dk pv fuel s index Hinv Hrem Hel Hn; [lia|]. cbn [copy_last].
  destruct (Z.ltb_spec 0 fuel) as [Hf|Hf]; [|apply worked_now; [done|lia]]. specialize (Hel Hf).
  destruct (last_only self b rests dk pv s index Hinv Hrem Hel) as (k & Hm & Honly & Hidx).
  destruct (copy_last_values_spec size Hsize default_time timed Htimed m g Hg total k s index (S n) self b rests dk pv fuel Hm (proj1 Hrem) Hel Honly Hf ltac:(lia))
    as (ret & self1 & b1 & fuel1 & rests1 & pv1 & -> & Hpr & Hret).
  rewrite some_bind. cbv beta iota. pose proof (progress_spent _ _ _ _ _ _ _ _ _ _ _ _ Hpr) as Hsp. destruct Hpr as [Hm1 Hsame _ Hf1].
  eapply worked_trans; [exact Hsp|]. destruct ret.
  { destruct Hret as (-> & Hpv1 & Hact1). apply worked_now; [|lia]. right. exists k. destruct (Hact1 eq_refl) as (i & d & Hd & Had).
    split_and!; [done|done| |left; by exists i, d]. exists i, d. split; [done|]. by destruct Had as (? & ? & ? & ? & ->). }
  destruct Hret as (_ & Hpv1 & Hna1). rewrite (last_assert self1 pv1) by (auto || apply Hm1).
  assert (at_key_idx k rests1 [index]) as Hidx1.
  { intros i. rewrite (Hidx i). unfold at_key. split; intros (d & Hd & Hk).
    - destruct (same_keys_at _ _ _ _ Hsame Hd) as (d' & Hd' & Hkeys). exists d'. by rewrite Hkeys.
    - destruct (same_keys_lookup _ _ _ _ Hsame Hd) as (d' & Hd' & Hkeys). exists d'. by rewrite Hkeys. }
  pose proof (same_keys_remaining rests rests1 s Hsame Hrem) as Hrem1.
  destruct (key_end_last k self1 b1 rests1 dk pv1 index s fuel1 Hm1 Hidx1 Hna1 Hrem1 Hel) as (self2 & b2 & self3 & valid & -> & Hstep & Hidle & Hsp3 & Hlt & Hval).
  rewrite some_bind. cbv beta iota. rewrite Hstep, some_bind. cbv beta iota. eapply worked_trans; [exact Hsp3|].
  assert (inv self3 b2 (popped tail [index] rests1) (with_key dk k pv1) []) as Hinv3 by by left.
  destruct valid; [|by apply worked_now]. apply IH; [done|done|done|]. destruct Hsp, Hsp3. lia.
Qed.

Lemma valid_cursors_spec self rests : reps self rests → length rests ≤ 64 →
  ∃ s, from_iter (valid_cursors self) = Some s ∧ remaining_set rests s.
Proof.
  intros [Hlen Hr] H64.
  assert (∀ cs rs j, length cs = length rs → (∀ i d, rs !! i = Some d → ∃ c, cs !! i = Some c ∧ key_valid c = nonempty_data d) →
    omap (λ '(i, c), if key_valid c then Some i else None) (zip (seq j (length cs)) cs)
    = List.filter (λ i, from_option nonempty_data false (rs !! (i - j))) (seq j (length rs))) as Hfil.
  { induction cs as [|c cs IH]; intros [|d rs] j Hl Hv; try done. cbn in Hl |- *. destruct (Hv 0 d eq_refl) as (c' & [= <-] & Hc).
    rewrite Hc, Nat.sub_diag. cbn [lookup list_lookup from_option].
    rewrite (IH rs (S j)) by (try lia; intros i d' Hd'; by apply (Hv (S i))).
    assert (List.filter (λ i, from_option nonempty_data false (rs !! (i - S j))) (seq (S j) (length rs))
      = List.filter (λ i, from_option nonempty_data false ((d :: rs) !! (i - j))) (seq (S j) (length rs))) as ->; [|by destruct (nonempty_data d)].
    apply List.filter_ext_in. intros i [Hi _]%in_seq. by replace (i - j) with (S (i - S j)) by lia. }
  unfold valid_cursors. rewrite (Hfil (cursors self) rests 0 Hlen).
  2: { intros i d Hd. destruct (Hr i d Hd) as (mu & c & _ & Hc & Hrep). exists c. split; [done|].
       destruct d as [|[k vs] d]; [by apply (mc_end mu)|]. by apply (mc_key mu c k vs d). }
  destruct (from_iter_spec (List.filter (λ i, from_option nonempty_data false (rests !! (i - 0))) (seq 0 (length rests)))) as (s & -> & Hs & Hel).
  { apply Forall_forall. intros i Hi. rewrite list_elem_of_In, filter_In, in_seq in Hi. lia. }
  { apply filter_sorted, seq_sorted. }
  exists s. split; [done|]. split; [done|]. intros i. rewrite Hel, list_elem_of_In, filter_In, in_seq, Nat.sub_0_r.
  destruct (rests !! i) as [d|] eqn:Hd; cbn [from_option].
  - pose proof (lookup_lt_Some _ _ _ Hd). split.
    + intros [_ Hne]. exists d. split; [done|]. by destruct d.
    + intros (d' & [= <-] & Hne). split; [lia|]. by destruct d.
  - split; [by intros [_ ?]|by intros (? & ? & _)].
Qed.

Lemma work_with_spec n self b rests dk pv fuel : inv self b rests dk pv → length rests ≤ 64 → nvals rests + nkeys rests < n →
  worked self b rests dk pv fuel (work_with (K := K) (V := V) size default_time n self b m fuel).
Proof.
  intros Hinv H64 Hn. pose proof (inv_reps _ _ _ _ _ _ _ _ Hinv) as Hr. unfold work_with.
  rewrite (proj2 (Nat.leb_le (length (cursors self)) 64)) by (rewrite (proj1 Hr); done).
  destruct (valid_cursors_spec self rests Hr H64) as (s & -> & Hrem). rewrite some_bind.
  rewrite is_empty_elems by apply Hrem. destruct (Nat.eqb_spec (length (elems s)) 0) as [He|_].
  { apply worked_now; [done|]. intros _ i d Hd. destruct d as [|p d]; [done|]. exfalso.
    assert (i ∈ elems s) as Hi by (apply Hrem; eauto). apply nil_length_inv in He. rewrite He in Hi. by apply elem_of_nil in Hi. }
  destruct (merge_keys_spec n self b rests dk pv fuel s Hinv Hrem Hn) as (ret & self1 & b1 & s1 & fuel1 & rests1 & dk1 & pv1 & -> & Hinv1 & Hsp & Hret).
  rewrite some_bind. cbv beta iota. eapply worked_trans; [exact Hsp|]. destruct ret; [by apply worked_now; [|lia]|].
  destruct Hret as [Hrem1 Hlen1]. rewrite first_elems by apply Hrem1.
  destruct (elems s1) as [|index idx] eqn:E; cbn [head].
  - apply worked_now; [done|]. intros _ i d Hd. destruct d as [|p d]; [done|]. exfalso.
    assert (i ∈ elems s1) as Hi by (apply Hrem1; eauto). rewrite E in Hi. by apply elem_of_nil in Hi.
  - apply copy_last_spec; [done|done| |destruct Hsp; lia]. rewrite E. intros Hf. destruct idx; [done|]. cbn in Hlen1. lia.
Qed.
End work.
