(* ===== verification/ListMergerTheorems.v ===== *)
(** What the merger promises to the trace: [ListMerger::merge], and a merge in the background, which
    is a sequence of calls of [ListMerger::work] with their own fuel and frontiers. *)
From Stdlib Require Import Sorting.Sorted.
From S2P Require Import Prelude Machine Order Timestamp Sort Consolidation Trie LayerSpec IndexSet MergeCursor Scheduler SchedulerSpec ListMerger ListMergerSpec ListMergerStep ListMergerLoops ListMergerKeys ListMergerWork.
#[local] Open Scope nat_scope.
Import ListMerger.

Section lattice.
Context `{LL : LatticeLaws T}.

Lemma join_mono (x y z : T) : less_equal x y = true → less_equal (join x z) (join y z) = true.
Proof. intros Hxy. apply join_least; [eapply less_equal_trans; [exact Hxy|]; apply join_ub_l|apply join_ub_r]. Qed.

(** Advancing to a frontier does not matter to one that is beyond it. *)
Lemma join_absorb (t f F : T) : less_equal f F = true → join (join t f) F = join t F.
Proof.
  intros Hf. apply less_equal_antisym.
  - apply join_least; [apply join_least|apply join_ub_r]; [apply join_ub_l|].
    eapply less_equal_trans; [exact Hf|]. apply join_ub_r.
  - apply join_mono, join_ub_l.
Qed.
End lattice.

Section theorems.
Context `{OK : Ord K} `{OV : Ord V} `{OT : Ord T} `{MR : MonoidValue R} `{TS : Timestamp T}.
Context `{MC : MergeCursor C K V T R} {MS : MergeCursorSpec C K V T R}.
Context `{BU : Builder B Out K V T R} {BS : BuilderSpec B Out K V T R}.
Context (size : nat) (default_time : T).
Implicit Types (ds rests : list (Data K V T R)) (self : ListMerger C) (b : B) (dk : Data K V T R) (pv : Vals V T R).

(** The cursors [cs] are at the start of the batches [ds]. *)
Definition cursors_of (cs : list C) ds : Prop := Forall2 (λ c d, (∃ mu, mc_rep mu c d) ∧ data_ok d) cs ds.

(** The times after they have been advanced to [F]. *)
Definition weights_at (F : T → T) (d : list ((K * (V * T)) * R)) (j : K * (V * T)) : R := wt (remap (G F) d) j.

(** The builder holds the sum of the batches [ds], up to advancing times by [F]. *)
Definition built (F : T → T) b ds : Prop :=
  ∃ out d, MergeCursor.done (Builder := BU) b = Some out ∧ o_rep out d ∧ data_ok d
    ∧ ∀ j, weights_at F (tuples d) j = weights_at F (ds ≫= tuples) j.

Lemma cursors_reps timed (F : T → T) cs ds : cursors_of cs ds → length cs ≤ 64 →
  ∃ self, new (MC := MC) timed cs = Some self
    ∧ inv timed F (weights_at F (ds ≫= tuples)) self new_builder ds [] [] ∧ length ds ≤ 64.
Proof.
  intros Hcs H64. pose proof (Forall2_length _ _ _ Hcs) as Hlen. unfold new. rewrite (proj2 (Nat.leb_le _ _) H64).
  eexists. split; [done|]. split; [|lia]. left. split; [done|]. split; [| | |done|by split; constructor| |done].
  - split; [done|]. intros i d Hd. destruct (Forall2_lookup_r _ _ _ _ _ Hcs Hd) as (c & Hc & (mu & Hrep) & _).
    exists mu, c. cbn. rewrite list_lookup_fmap, Hc. cbn. by rewrite (mc_has_mut _ _ _ Hrep).
  - done.
  - apply b_new.
  - intros i d Hd. destruct (Forall2_lookup_r _ _ _ _ _ Hcs Hd) as (c & Hc & _ & Hok). split; [done|]. by intros k k' ?%elem_of_nil.
Qed.

Lemma finished_built timed (F : T → T) self b ds rests dk pv : inv timed F (weights_at F (ds ≫= tuples)) self b rests dk pv →
  finished rests dk pv →
  ∃ out, MergeCursor.done (Builder := BU) b = Some out ∧ o_rep out dk ∧ data_ok dk
    ∧ ∀ j, weights_at F (tuples dk) j = weights_at F (ds ≫= tuples) j.
Proof.
  intros Hinv [-> Hall]. destruct Hinv as [[_ Hidle]|(k & ? & _)]; [|done]. destruct Hidle as [_ _ Hb _ Hdk _ Hwt].
  destruct (b_done _ _ Hb Hdk) as (out & Hout & Ho). exists out. split_and!; [done..|]. intros j. unfold weights_at at 1.
  rewrite <- (Hwt j). assert (rests ≫= tuples = []) as ->; [|by rewrite app_nil_r].
  clear -Hall. induction Hall as [|d rests -> _ IH]; [done|]. exact IH.
Qed.

(** A merge in the background: [work] is called again and again. *)
Fixpoint work_calls (n : nat) self b (calls : list (T * Z)) : option (ListMerger C * B * list Z) :=
  match calls with
  | [] => Some (self, b, [])
  | (frontier, fuel) :: calls =>
    '(self, b, fuel) ← work (K := K) (V := V) (BU := BU) size default_time n self b frontier fuel;
    '(self, b, fuels) ← work_calls n self b calls;
    Some (self, b, fuel :: fuels)
  end.

Definition fuel_of (calls : list (T * Z)) : Z := foldr Z.add 0%Z calls.*2.

Section calls.
Context (Hsize : zst_ok (T * R) size) (timed : bool) (Htimed : timed = false → ∀ t t' : T, t = t').
Context (F : T → T) (total : K * (V * T) → R) (n : nat).
#[local] Abbreviation inv := (inv timed F total).

(** Advancing to a frontier that [F] does not see. *)
Definition below (frontier : T) : Prop := ∀ t, F (join t frontier) = F t.

Lemma work_spec self b rests dk pv frontier fuel : inv self b rests dk pv → below frontier → length rests ≤ 64 →
  nvals rests + nkeys rests < n →
  worked timed F total self b rests dk pv fuel (work (K := K) (V := V) (BU := BU) size default_time n self b frontier fuel).
Proof.
  intros Hinv Hbel H64 Hn. apply work_with_spec; [done..| |done|done|done].
  intros t. unfold time_map_func. by destruct (eqb frontier minimum).
Qed.

Lemma finished_nvals rests dk pv : finished rests dk pv → nvals rests = 0.
Proof. intros [_ Hall]. unfold nvals. induction Hall as [|d rests -> _ IH]; [done|]. exact IH. Qed.

Lemma fuel_of_pos calls : Forall (λ p : T * Z, below p.1 ∧ (0 < p.2)%Z) calls → calls ≠ [] → (0 < fuel_of calls)%Z.
Proof.
  unfold fuel_of. destruct calls as [|p calls]; [done|]. intros [[_ Hp] Hall]%Forall_cons _. cbn [fmap list_fmap foldr].
  assert (0 ≤ foldr Z.add 0 calls.*2)%Z; [|lia]. clear -Hall. induction Hall as [|q calls [_ Hq] _ IH]; [done|].
  cbn [fmap list_fmap foldr]. lia.
Qed.

(** What the fuels of a sequence of calls have bought. *)
Definition bought calls (fuels : list Z) rests dk pv rests' dk' pv' : Prop :=
  match last fuels with
  | None => calls = [] ∧ rests' = rests ∧ dk' = dk ∧ pv' = pv
  | Some f => calls ≠ [] ∧ (0 ≤ f)%Z ∧ ((0 < f)%Z → finished rests' dk' pv')
              ∧ (f = 0 → Z.of_nat (written dk' pv') = Z.of_nat (written dk pv) + fuel_of calls)%Z
  end.

Lemma work_calls_spec calls : ∀ self b rests dk pv, inv self b rests dk pv → length rests ≤ 64 → nvals rests + nkeys rests < n →
  Forall (λ p, below p.1 ∧ (0 < p.2)%Z) calls →
  ∃ self' b' fuels rests' dk' pv', work_calls n self b calls = Some (self', b', fuels) ∧ inv self' b' rests' dk' pv'
    ∧ nvals rests' + written dk' pv' ≤ nvals rests + written dk pv ∧ bought calls fuels rests dk pv rests' dk' pv'.
Proof.
  induction calls as [|[frontier fuel] calls IH]; intros self b rests dk pv Hinv H64 Hn Hcalls; cbn [work_calls].
  { exists self, b, [], rests, dk, pv. by split_and!. }
  apply Forall_cons in Hcalls as [[Hbel Hf] Hcalls]. cbn [fst snd] in *.
  destruct (work_spec self b rests dk pv frontier fuel Hinv Hbel H64 Hn) as (self1 & b1 & fuel1 & rests1 & dk1 & pv1 & -> & Hinv1 & Hsp & Hfin).
  rewrite some_bind. cbv beta iota. destruct Hsp as [Hs1 Hs2 Hs3 Hs4 Hs5 Hs6].
  destruct (IH self1 b1 rests1 dk1 pv1 Hinv1 ltac:(lia) ltac:(lia) Hcalls) as (self' & b' & fuels & rests' & dk' & pv' & -> & Hinv' & Hle & Hlast).
  rewrite some_bind. cbv beta iota. exists self', b', (fuel1 :: fuels), rests', dk', pv'. split_and!; [done|done|lia|].
  assert (fuel_of ((frontier, fuel) :: calls) = fuel + fuel_of calls)%Z as Hsum by done.
  specialize (Hs6 ltac:(lia)). unfold bought in *. rewrite last_cons, Hsum. destruct (last fuels) as [f|].
  - destruct Hlast as (Hne & Hf0 & Hfin' & Hz). split_and!; [done..|]. intros ->. specialize (Hz eq_refl).
    pose proof (fuel_of_pos calls Hcalls Hne). destruct (decide (0 < fuel1)%Z) as [Hpos|]; [|lia].
    pose proof (finished_nvals _ _ _ (Hfin Hpos)). lia.
  - destruct Hlast as (-> & -> & -> & ->). split_and!; [done..|]. intros ->. cbn. lia.
Qed.
End calls.

Section claims.
Context (Hsize : zst_ok (T * R) size) (timed : bool) (Htimed : timed = false → ∀ t t' : T, t = t').

(** C3. A merge in the background.  However a merge of up to 64 batches is cut into calls of [work], each
    with its own fuel and with a frontier that is not beyond [F]: every call returns, when the last one
    leaves fuel the builder's batch is in order and has, for every key, value and time advanced to [F], the
    sum of the weights in the batches; and the merge is over as soon as the calls have been given more
    fuel than there are values. *)
Theorem list_merger_calls `{LL : !LatticeLaws T} n cs ds calls (F : T) :
  cursors_of cs ds → length cs ≤ 64 → nvals ds + nkeys ds < n →
  Forall (λ p, less_equal p.1 F = true ∧ (0 < p.2)%Z) calls →
  ∃ merger self b fuels, new (MC := MC) timed cs = Some merger
    ∧ work_calls n merger new_builder calls = Some (self, b, fuels)
    ∧ (∀ f, last fuels = Some f → (0 < f)%Z → built (λ t, join t F) b ds)
    ∧ ((Z.of_nat (nvals ds) < fuel_of calls)%Z → ∃ f, last fuels = Some f ∧ (0 < f)%Z).
Proof.
  intros Hcs H64 Hn Hcalls. destruct (cursors_reps timed (λ t, join t F) cs ds Hcs H64) as (merger & Hnew & Hinv & Hds).
  destruct (work_calls_spec Hsize timed Htimed _ _ n calls merger new_builder ds [] [] Hinv Hds Hn) as (self & b & fuels & rests & dk & pv & Hw & Hinv' & Hle & Hb).
  { eapply Forall_impl; [exact Hcalls|]. intros [f x] [Hf Hx]. split; [|done]. intros t. by apply join_absorb. }
  exists merger, self, b, fuels. split_and!; [done..| |].
  - intros f Hf Hpos. unfold bought in Hb. rewrite Hf in Hb.
    destruct (finished_built _ _ _ _ _ _ _ _ Hinv' (proj1 (proj2 (proj2 Hb)) Hpos)) as (out & ?). by exists out, dk.
  - intros Hlt. unfold bought in Hb. destruct (last fuels) as [f|]; [|destruct Hb as [-> _]; cbn in Hlt; lia].
    exists f. split; [done|]. destruct Hb as (_ & Hf & _ & Hz). destruct (decide (f = 0)%Z) as [->|]; [|lia].
    specialize (Hz eq_refl). cbn in Hle, Hz. lia.
Qed.

Lemma merge_correct `{PL : !PartialOrderLaws T} n cs ds :
  default_time = minimum → cursors_of cs ds → length cs ≤ 64 → nvals ds + nkeys ds < n → (Z.of_nat (nvals ds) < ISIZE_MAX)%Z →
  ∃ out d, merge (K := K) (V := V) (BU := BU) size default_time n timed new_builder cs = Some out ∧ o_rep out d ∧ data_ok d
    ∧ (∀ j, wt (tuples d) j = wt (ds ≫= tuples) j) ∧ length (all_vals d) ≤ nvals ds.
Proof.
  intros Hdef Hcs H64 Hn Hmax. destruct (cursors_reps timed id cs ds Hcs H64) as (merger & Hnew & Hinv & Hds).
  assert (∀ t, id (match time_map_func default_time with Some f => f t | None => t end) = id t) as Hid.
  { intros t. unfold time_map_func. rewrite Hdef, (proj2 (eqb_eq minimum minimum)) by done. done. }
  destruct (work_with_spec size Hsize default_time timed Htimed (time_map_func default_time) id Hid _ n merger new_builder ds [] [] ISIZE_MAX Hinv Hds Hn)
    as (self & b & fuel & rests & dk & pv & Hw & Hinv' & [Hs1 Hs2 _ _ _ _] & Hfin).
  unfold merge, work. rewrite Hnew, some_bind, Hw, some_bind. cbv beta iota. cbn in Hs1, Hs2.
  rewrite (proj2 (Z.ltb_lt 0 fuel)) by lia. destruct (finished_built timed id self b ds rests dk pv Hinv' (Hfin ltac:(lia))) as (out & Hout & Ho & Hok & Hwt).
  exists out, dk. split_and!; [done..| |unfold written in Hs2; lia]. intros j. specialize (Hwt j). unfold weights_at in Hwt.
  assert (∀ l : list ((K * (V * T)) * R), remap (G id) l = l) as Hg; [|by rewrite !Hg in Hwt].
  induction l as [|[[k [v t]] r] l IH]; [done|]. cbn. by f_equal.
Qed.

(** Merging at once.  [ListMerger::merge] of up to 64 batches with fewer than [isize::MAX] values
    returns, its final assertion holds, and the batch it builds is in order and has, for every key, value
    and time, exactly the sum of the weights in the batches. *)
Theorem list_merger_merge `{PL : !PartialOrderLaws T} n cs ds :
  default_time = minimum → cursors_of cs ds → length cs ≤ 64 → nvals ds + nkeys ds < n → (Z.of_nat (nvals ds) < ISIZE_MAX)%Z →
  ∃ out d, merge (K := K) (V := V) (BU := BU) size default_time n timed new_builder cs = Some out ∧ o_rep out d ∧ data_ok d
    ∧ ∀ j, wt (tuples d) j = wt (ds ≫= tuples) j.
Proof.
  intros Hdef Hcs H64 Hn Hmax. destruct (merge_correct n cs ds Hdef Hcs H64 Hn Hmax) as (out & d & ? & ? & ? & ? & _). eauto 6.
Qed.
End claims.
End theorems.
