(* ===== verification/Batch.v ===== *)
(** Batches: the traits [Cursor], [BatchReader] and [Batch], merging whole batches, and building one
    from tuples (crates/dbsp/src/trace.rs, crates/dbsp/src/trace/cursor.rs).

    [Cursor] is what a batch gives to read it, [UnfilteredMergeCursor] makes a merge cursor of one, and
    [BoxCursor] is the [Box<dyn MergeCursor>] that [merge_cursor] and [consuming_cursor] return.
    [BatchSpec] states what a batch promises, and the theorems about [merge_batches] and the others
    hold for every batch that keeps it. *)
From S2P Require Import Prelude Machine Order Timestamp Sort Consolidation Trie LayerSpec MergeCursor ListMerger.
#[local] Open Scope nat_scope.

(** ** trait [Cursor]: the methods the generic code below calls *)
Module Cursor.
Class Cursor (C K V T R : Type) := {
  key_valid : C → bool;
  val_valid : C → bool;
  key : C → option K;
  val : C → option V;
  map_times : C → option (C * Times T R);
  weight : C → option R;
  step_key : C → option C;
  step_val : C → option C }.
End Cursor.
Export Cursor (Cursor).

(** A cursor [c] is at the start of [d]. *)
Class CursorSpec (C K V T R : Type) `{Cursor C K V T R} := {
  c_rep : C → Data K V T R → Prop;
  cr_end : ∀ c, c_rep c [] → Cursor.key_valid c = false;
  cr_key : ∀ c k vs d, c_rep c ((k, vs) :: d) → Cursor.key_valid c = true ∧ Cursor.key c = Some k;
  cr_val_valid : ∀ c k vs d, c_rep c ((k, vs) :: d) → Cursor.val_valid c = negb (bool_decide (vs = []));
  cr_val : ∀ c k v ts vs d, c_rep c ((k, (v, ts) :: vs) :: d) → Cursor.val c = Some v;
  cr_times : ∀ c k v ts vs d, c_rep c ((k, (v, ts) :: vs) :: d) →
    ∃ c', Cursor.map_times c = Some (c', ts) ∧ c_rep c' ((k, (v, ts) :: vs) :: d);
  cr_step_key : ∀ c k vs d, c_rep c ((k, vs) :: d) → ∃ c', Cursor.step_key c = Some c' ∧ c_rep c' d;
  cr_step_val : ∀ c k v ts vs d, c_rep c ((k, (v, ts) :: vs) :: d) →
    ∃ c', Cursor.step_val c = Some c' ∧ c_rep c' ((k, vs) :: d) }.

(** [weight], which only cursors without times have. *)
Class WeightSpec (C K V T R : Type) `{CU : Cursor C K V T R} {CS : CursorSpec C K V T R} : Prop := {
  cr_weight : ∀ c k v t r vs d, c_rep c ((k, (v, [(t, r)]) :: vs) :: d) → Cursor.weight c = Some r }.

(** ** [UnfilteredMergeCursor] *)
Module Unfiltered.
Record UnfilteredMergeCursor (C : Type) := new { cursor : C }.
Arguments new {C}.
Arguments cursor {C}.

Section unfiltered.
Context `{Cursor C K V T R}.
Implicit Types self : UnfilteredMergeCursor C.

Definition u_map_times self : option (UnfilteredMergeCursor C * Times T R) :=
  '(c, ts) ← Cursor.map_times (cursor self); Some (new c, ts).
Definition u_step_key self : option (UnfilteredMergeCursor C) := c ← Cursor.step_key (cursor self); Some (new c).
Definition u_step_val self : option (UnfilteredMergeCursor C) := c ← Cursor.step_val (cursor self); Some (new c).

#[export] Instance unfiltered_cursor : MergeCursor (UnfilteredMergeCursor C) K V T R := {|
  key_valid := λ self, Cursor.key_valid (cursor self);
  val_valid := λ self, Cursor.val_valid (cursor self);
  key := λ self, Cursor.key (cursor self);
  val := λ self, Cursor.val (cursor self);
  map_times := u_map_times; step_key := u_step_key; step_val := u_step_val;
  has_mut := λ _, false;
  key_mut := no_mut; set_key := no_set; val_mut := no_mut; set_val := no_set |}.
End unfiltered.
End Unfiltered.

Section unfiltered_spec.
Context `{CS : CursorSpec C K V T R}.
Import Unfiltered.

Definition unfiltered_rep (m : bool) (self : UnfilteredMergeCursor C) (d : Data K V T R) : Prop := m = false ∧ c_rep (cursor self) d.

#[export] Program Instance unfiltered_spec : MergeCursorSpec (UnfilteredMergeCursor C) K V T R := {| mc_rep := unfiltered_rep |}.
Next Obligation. by intros m c d [-> _]. Qed.
Next Obligation. intros m c [_ Hc]. by apply cr_end. Qed.
Next Obligation. intros m c k vs d [_ Hc]. by apply (cr_key _ k vs d). Qed.
Next Obligation. intros m c k vs d [_ Hc]. by eapply cr_val_valid. Qed.
Next Obligation. intros m c k v ts vs d [_ Hc]. by eapply cr_val. Qed.
Next Obligation.
  intros m c k v ts vs d [-> Hc]. destruct (cr_times _ _ _ _ _ _ Hc) as (c' & Ht & Hc'). cbn. unfold u_map_times. rewrite Ht. by eexists.
Qed.
Next Obligation.
  intros m c k vs d [-> Hc]. destruct (cr_step_key _ _ _ _ Hc) as (c' & Ht & Hc'). cbn. unfold u_step_key. rewrite Ht. by eexists.
Qed.
Next Obligation.
  intros m c k v ts vs d [-> Hc]. destruct (cr_step_val _ _ _ _ _ _ Hc) as (c' & Ht & Hc'). cbn. unfold u_step_val. rewrite Ht. by eexists.
Qed.
Next Obligation. by intros c k vs d [? _]. Qed.
Next Obligation. by intros c k v ts vs d [? _]. Qed.
End unfiltered_spec.

#[export] Existing Instance Filtered.filtered_cursor.
#[export] Existing Instance Unfiltered.unfiltered_cursor.

(** ** [Box<dyn MergeCursor>] *)
Inductive BoxCursor (C CC K V : Type) :=
  | BoxUnfiltered (c : Unfiltered.UnfilteredMergeCursor C)
  | BoxFiltered (c : Filtered.FilteredMergeCursor (Unfiltered.UnfilteredMergeCursor C) K V)
  | BoxConsuming (c : CC).
Arguments BoxUnfiltered {C CC K V}.
Arguments BoxFiltered {C CC K V}.
Arguments BoxConsuming {C CC K V}.

Section box.
Context `{Cursor C K V T R} `{CCC : MergeCursor CC K V T R}.
Implicit Types self : BoxCursor C CC K V.

Definition box_get {A} (f1 : Unfiltered.UnfilteredMergeCursor C → A)
    (f2 : Filtered.FilteredMergeCursor (Unfiltered.UnfilteredMergeCursor C) K V → A) (f3 : CC → A) self : A :=
  match self with BoxUnfiltered c => f1 c | BoxFiltered c => f2 c | BoxConsuming c => f3 c end.
Definition box_step (f1 : Unfiltered.UnfilteredMergeCursor C → option (Unfiltered.UnfilteredMergeCursor C))
    (f2 : Filtered.FilteredMergeCursor (Unfiltered.UnfilteredMergeCursor C) K V → option (Filtered.FilteredMergeCursor (Unfiltered.UnfilteredMergeCursor C) K V))
    (f3 : CC → option CC) self : option (BoxCursor C CC K V) :=
  match self with
  | BoxUnfiltered c => c ← f1 c; Some (BoxUnfiltered c)
  | BoxFiltered c => c ← f2 c; Some (BoxFiltered c)
  | BoxConsuming c => c ← f3 c; Some (BoxConsuming c)
  end.
Definition box_map_times self : option (BoxCursor C CC K V * Times T R) :=
  match self with
  | BoxUnfiltered c => '(c, ts) ← MergeCursor.map_times c; Some (BoxUnfiltered c, ts)
  | BoxFiltered c => '(c, ts) ← MergeCursor.map_times c; Some (BoxFiltered c, ts)
  | BoxConsuming c => '(c, ts) ← MergeCursor.map_times c; Some (BoxConsuming c, ts)
  end.

#[export] Instance box_cursor : MergeCursor (BoxCursor C CC K V) K V T R := {|
  key_valid := box_get key_valid key_valid key_valid;
  val_valid := box_get val_valid val_valid val_valid;
  key := box_get key key key;
  val := box_get val val val;
  map_times := box_map_times;
  step_key := box_step step_key step_key step_key;
  step_val := box_step step_val step_val step_val;
  has_mut := box_get has_mut has_mut has_mut;
  key_mut := box_get key_mut key_mut key_mut;
  set_key := λ self k, box_step (λ c, set_key c k) (λ c, set_key c k) (λ c, set_key c k) self;
  val_mut := box_get val_mut val_mut val_mut;
  set_val := λ self v, box_step (λ c, set_val c v) (λ c, set_val c v) (λ c, set_val c v) self |}.
End box.

(** A step of the boxed cursor is a step of the cursor in the box. *)
Ltac boxed c' Ht Hc' := first
  [refine (ex_intro _ (BoxUnfiltered c') (conj (f_equal (λ o, o ≫= λ c, Some (BoxUnfiltered c)) Ht) Hc'))
  |refine (ex_intro _ (BoxFiltered c') (conj (f_equal (λ o, o ≫= λ c, Some (BoxFiltered c)) Ht) Hc'))
  |refine (ex_intro _ (BoxConsuming c') (conj (f_equal (λ o, o ≫= λ c, Some (BoxConsuming c)) Ht) Hc'))].
Ltac boxed_times c' Ht Hc' := first
  [refine (ex_intro _ (BoxUnfiltered c') (conj (f_equal (λ o, o ≫= λ '(c, ts), Some (BoxUnfiltered c, ts)) Ht) Hc'))
  |refine (ex_intro _ (BoxFiltered c') (conj (f_equal (λ o, o ≫= λ '(c, ts), Some (BoxFiltered c, ts)) Ht) Hc'))
  |refine (ex_intro _ (BoxConsuming c') (conj (f_equal (λ o, o ≫= λ '(c, ts), Some (BoxConsuming c, ts)) Ht) Hc'))].

Section box_spec.
Context `{CS : CursorSpec C K V T R} `{CCS : MergeCursorSpec CC K V T R}.

Definition box_rep (m : bool) (self : BoxCursor C CC K V) (d : Data K V T R) : Prop := box_get (λ c, mc_rep m c d) (λ c, mc_rep m c d) (λ c, mc_rep m c d) self.

#[export] Program Instance box_spec : MergeCursorSpec (BoxCursor C CC K V) K V T R := {| mc_rep := box_rep |}.
Next Obligation. intros m [c|c|c] d Hc; by apply (mc_has_mut _ _ _ Hc). Qed.
Next Obligation. intros m [c|c|c] Hc; by apply (mc_end _ _ Hc). Qed.
Next Obligation. intros m [c|c|c] k vs d Hc; by apply (mc_key _ _ _ _ _ Hc). Qed.
Next Obligation. intros m [c|c|c] k vs d Hc; by apply (mc_val_valid _ _ _ _ _ Hc). Qed.
Next Obligation. intros m [c|c|c] k v ts vs d Hc; by apply (mc_val _ _ _ _ _ _ _ Hc). Qed.
Next Obligation. intros m [c|c|c] k v ts vs d Hc; destruct (mc_times _ _ _ _ _ _ _ Hc) as (c' & Ht & Hc'); boxed_times c' Ht Hc'. Qed.
Next Obligation. intros m [c|c|c] k vs d Hc; destruct (mc_step_key _ _ _ _ _ Hc) as (c' & Ht & Hc'); boxed c' Ht Hc'. Qed.
Next Obligation. intros m [c|c|c] k v ts vs d Hc; destruct (mc_step_val _ _ _ _ _ _ _ Hc) as (c' & Ht & Hc'); boxed c' Ht Hc'. Qed.
Next Obligation.
  intros [c|c|c] k vs d Hc; destruct (mc_key_mut _ _ _ _ Hc) as [Hk Hset]; (split; [done|]); intros k'; destruct (Hset k') as (c' & Ht & Hc'); boxed c' Ht Hc'.
Qed.
Next Obligation.
  intros [c|c|c] k v ts vs d Hc; destruct (mc_val_mut _ _ _ _ _ _ Hc) as [Hk Hset]; (split; [done|]); intros k'; destruct (Hset k') as (c' & Ht & Hc'); boxed c' Ht Hc'.
Qed.
End box_spec.

(** ** Batches *)

(** trait [BatchReader]: the sizes of a batch and its cursor. *)
Class BatchReader (Bt C K V T R : Type) `{Cursor C K V T R} := {
  key_count : Bt → nat;
  len : Bt → nat;
  cursor : Bt → option C }.

Section reader.
Context `{BatchReader Bt C K V T R} {CC : Type}.
Implicit Types self : Bt.

Definition is_empty self : bool := len self =? 0.

(** The iterations a filter can need to skip keys and values of the batch. *)
Definition steps self : nat := S (key_count self + len self).

Definition merge_cursor self (key_filter : option (K → bool)) (value_filter : option (V → bool)) : option (BoxCursor C CC K V) :=
  match key_filter, value_filter with
  | None, None => c ← cursor self; Some (BoxUnfiltered (Unfiltered.new c))
  | _, _ => c ← cursor self;
            f ← Filtered.new (steps self) (Unfiltered.new c) key_filter value_filter;
            Some (BoxFiltered f)
  end.
End reader.

(** trait [Batch]: its builder, and the cursor that may take what it reads. *)
Class Batch (Bt B C CC K V T R : Type) `{BatchReader Bt C K V T R} `{MergeCursor CC K V T R} `{Builder B Bt K V T R} := {
  consuming_cursor : Bt → option (K → bool) → option (V → bool) → option (BoxCursor C CC K V) }.

(** [split_off(len.saturating_sub(64))] *)
Definition split_last {A} (l : list A) : list A * list A := (take (length l - 64) l, drop (length l - 64) l).

Section merge.
Context `{Ord K} `{Ord V} `{Ord T} `{MonoidValue R} `{TS : Timestamp T}.
Context `{CU : Cursor C K V T R} `{BR : !BatchReader Bt C K V T R} `{MC : MergeCursor CC K V T R} `{BU : Builder B Bt K V T R} {BT : Batch Bt B C CC K V T R}.
(** The size of a pair of time and weight, the default time, and whether the batches are timed. *)
Context (size : nat) (default_time : T) (timed : bool).
Context (key_filter : option (K → bool)) (value_filter : option (V → bool)).

(** [Batch::dyn_empty] *)
Definition dyn_empty : option Bt := MergeCursor.done (Builder := BU) new_builder.

Definition merge_bound (inputs : list Bt) : nat := S (sum_list (steps <$> inputs)).

(** [ListMerger::merge] of [inputs], with a builder from [Builder::for_merge]. *)
Definition merge_inputs (inputs : list Bt) (cursors : list (BoxCursor C CC K V)) : option Bt :=
  ListMerger.merge (BU := BU) size default_time (merge_bound inputs) timed new_builder cursors.

(** The loop of [merge_batches], with a bound on its iterations. *)
Fixpoint merge_loop (n : nat) (batches : list Bt) : option (list Bt) :=
  if 1 <? length batches then
    match n with
    | O => None
    | S n =>
      let '(batches, inputs) := split_last batches in
      cursors ← mapM (λ b, consuming_cursor b key_filter value_filter) inputs;
      result ← merge_inputs inputs cursors;
      merge_loop n (if is_empty result then batches else batches ++ [result])
    end
  else Some batches.

Definition merge_batches (batches : list Bt) : option Bt :=
  let batches := List.filter (λ b, negb (is_empty b)) batches in
  batches ← merge_loop (length batches) batches;
  match last batches with
  | Some batch => Some batch
  | None => dyn_empty
  end.

(** The loop of [merge_batches_by_reference]. *)
Fixpoint reference_loop (n : nat) (batches outputs : list Bt) : option (list Bt) :=
  match batches with
  | [] => Some outputs
  | _ =>
    match n with
    | O => None
    | S n =>
      let '(batches, inputs) := split_last batches in
      cursors ← mapM (λ b, merge_cursor b key_filter value_filter) inputs;
      result ← merge_inputs inputs cursors;
      reference_loop n batches (if is_empty result then outputs else outputs ++ [result])
    end
  end.

Definition merge_batches_by_reference (batches : list Bt) : option Bt :=
  let batches := List.filter (λ b, negb (is_empty b)) batches in
  outputs ← reference_loop (length batches) batches [];
  merge_batches outputs.
End merge.
