(* ===== verification/BatchSpec.v ===== *)
(** What a batch promises, and that merging whole batches adds up their weights. *)
From Stdlib Require Import Sorting.Sorted.
From S2P Require Import Prelude Machine Order Timestamp Sort Consolidation Trie LayerSpec MergeCursor ListMerger ListMergerSpec ListMergerStep ListMergerLoops ListMergerWork ListMergerTheorems Batch.
#[local] Open Scope nat_scope.

(** [o_rep b d]: the batch [b] holds the sequence [d]. *)
Class BatchSpec (Bt B C CC K V T R : Type) `{BT : Batch Bt B C CC K V T R} `{Ord K} `{Ord V} `{Ord T} `{MonoidValue R}
    {CS : CursorSpec C K V T R} {MS : MergeCursorSpec CC K V T R} {BS : BuilderSpec B Bt K V T R} := {
  bt_ok : ∀ b d, o_rep b d → data_ok d;
  bt_keys : ∀ b d, o_rep b d → key_count b = length d;
  bt_len : ∀ b d, o_rep b d → len b = length (tuples d);
  bt_cursor : ∀ b d, o_rep b d → ∃ c, Batch.cursor b = Some c ∧ c_rep c d;
  bt_consuming : ∀ b d kf vf, o_rep b d →
    ∃ c m, consuming_cursor b kf vf = Some c ∧ mc_rep m c (filter_data kf vf d) }.

(** ** Counting *)
Section counting.
Context `{Ord K} `{Ord V} `{Ord T} `{MonoidValue R}.
Implicit Types (vs : Vals V T R) (d : Data K V T R) (ds : list (Data K V T R)).

Lemma val_tups_length vs : vals_ok vs → length vs ≤ length (val_tups vs).
Proof.
  induction vs as [|[v ts] vs IH]; [done|]. intros [[Hs _]%keys_sorted_cons [[_ Hne] Hts]%Forall_cons].
  change (val_tups ((v, ts) :: vs)) with (prefix v ts ++ val_tups vs). rewrite length_app, length_cons.
  unfold prefix at 1. rewrite length_fmap. specialize (IH (conj Hs Hts)). cbn [snd] in Hne. destruct ts; [done|]. rewrite length_cons. lia.
Qed.

Lemma tuples_length d : data_ok d → length (all_vals d) ≤ length (tuples d).
Proof.
  induction d as [|[k vs] d IH]; [done|]. intros [[Hs _]%keys_sorted_cons [[Hv _] Hd]%Forall_cons].
  rewrite tuples_cons, length_app. change (all_vals ((k, vs) :: d)) with (vs ++ all_vals d). rewrite length_app.
  unfold prefix at 1. rewrite length_fmap. pose proof (val_tups_length vs Hv). specialize (IH (conj Hs Hd)). lia.
Qed.

Lemma keys_length d : data_ok d → length d ≤ length (all_vals d).
Proof.
  induction d as [|[k vs] d IH]; [done|]. intros [[Hs _]%keys_sorted_cons [[_ Hne] Hd]%Forall_cons].
  change (all_vals ((k, vs) :: d)) with (vs ++ all_vals d). rewrite length_app. specialize (IH (conj Hs Hd)).
  destruct vs; [done|cbn; lia].
Qed.

Lemma tuples_nil d : data_ok d → length (tuples d) = 0 ↔ d = [].
Proof.
  intros Hok. pose proof (tuples_length d Hok). pose proof (keys_length d Hok). split; [|by intros ->].
  intros He. apply nil_length_inv. lia.
Qed.

Lemma filter_data_vals kf vf d : length (all_vals (filter_data kf vf d)) ≤ length (all_vals d) ∧ length (filter_data kf vf d) ≤ length d.
Proof.
  induction d as [|[k vs] d [IH1 IH2]]; [done|]. rewrite filter_data_cons.
  assert (∀ d1 d2 : Data K V T R, all_vals (d1 ++ d2) = all_vals d1 ++ all_vals d2) as Happ by (intros; apply bind_app).
  rewrite Happ, !length_app. change (all_vals ((k, vs) :: d)) with (vs ++ all_vals d). rewrite length_app, length_cons.
  assert (length (all_vals (filter_entry kf vf k vs)) ≤ length vs ∧ length (filter_entry kf vf k vs) ≤ 1) as [? ?]; [|lia].
  unfold filter_entry. destruct (include kf k); [|cbn; lia].
  pose proof (List.filter_length_le (λ p : V * Times T R, include vf p.1) vs) as Hl. unfold filter_vals.
  destruct (List.filter _ vs) as [|p l] eqn:E; cbn in *; [lia|]. rewrite app_nil_r. cbn. lia.
Qed.

Lemma filter_data_none d : data_ok d → filter_data None None d = d.
Proof.
  induction d as [|[k vs] d IH]; [done|]. intros [[Hs _]%keys_sorted_cons [[_ Hne] Hd]%Forall_cons].
  rewrite filter_data_cons, IH by done. unfold filter_entry, filter_vals. cbn [include].
  rewrite filter_const. by destruct vs.
Qed.

Lemma remaining_length d : remaining d = length d + length (all_vals d).
Proof.
  induction d as [|[k vs] d IH]; [done|]. change (all_vals ((k, vs) :: d)) with (vs ++ all_vals d).
  rewrite remaining_cons, length_app, length_cons. lia.
Qed.

Lemma nvals_cons d ds : nvals (d :: ds) = length (all_vals d) + nvals ds.
Proof. unfold nvals. cbn. by rewrite length_app. Qed.
Lemma nkeys_cons d ds : nkeys (d :: ds) = length d + nkeys ds.
Proof. unfold nkeys. cbn. rewrite length_app. unfold keys_of. by rewrite length_fmap. Qed.
Lemma nvals_app ds1 ds2 : nvals (ds1 ++ ds2) = nvals ds1 + nvals ds2.
Proof. unfold nvals. by rewrite bind_app, length_app. Qed.

(** The tuples that the filters keep. *)
Definition kept (kf : option (K → bool)) (vf : option (V → bool)) (j : K * (V * T)) : bool := include kf j.1 && include vf j.2.1.

Lemma wt_filter {J : Type} `{Ord J} (f : J → bool) (l : list (J * R)) j : wt (List.filter (λ p, f p.1) l) j = if f j then wt l j else mzero.
Proof.
  induction l as [|[i r] l IH]; [by destruct (f j)|]. cbn [List.filter fst wt]. destruct (f i) eqn:Ef; cbn [wt]; rewrite IH.
  - destruct (decide (i = j)) as [->|]; [by rewrite Ef|done].
  - destruct (decide (i = j)) as [->|]; [by rewrite Ef|done].
Qed.

Lemma filter_data_wt kf vf d j : wt (tuples (filter_data kf vf d)) j = if kept kf vf j then wt (tuples d) j else mzero.
Proof. rewrite filter_data_tuples. apply (wt_filter (kept kf vf)). Qed.

Lemma bind_wt_ext (f1 f2 : Data K V T R → list ((K * (V * T)) * R)) ds1 ds2 j :
  Forall2 (λ d1 d2, wt (f1 d1) j = wt (f2 d2) j) ds1 ds2 → wt (ds1 ≫= f1) j = wt (ds2 ≫= f2) j.
Proof. induction 1 as [|d1 d2 ds1 ds2 Hd _ IH]; [done|]. cbn. by rewrite !wt_app, Hd, IH. Qed.
End counting.

(** ** The cursors that [merge_cursor] gives *)
Section merge_cursor.
Context `{OK : Ord K} `{OV : Ord V} `{OT : Ord T} `{MR : MonoidValue R}.
Context `{CU : Cursor C K V T R} {CS : CursorSpec C K V T R} `{BR : !BatchReader Bt C K V T R} `{MC : MergeCursor CC K V T R} {MS : MergeCursorSpec CC K V T R}.
Context (kf : option (K → bool)) (vf : option (V → bool)).

Lemma merge_cursor_rep (b : Bt) (d : Data K V T R) : data_ok d → key_count b = length d → len b = length (tuples d) →
  (∃ c, Batch.cursor b = Some c ∧ c_rep c d) →
  ∃ c m, merge_cursor (CC := CC) b kf vf = Some c ∧ mc_rep m c (filter_data kf vf d).
Proof.
  intros Hok Hkeys Hlen (c & Hc & Hr).
  assert (∃ f, Filtered.new (steps b) (Unfiltered.new c) kf vf = Some f ∧ mc_rep false f (filter_data kf vf d)) as (f & Hf & Hrf).
  { apply (filtered_new kf vf false); [by split|]. unfold steps. rewrite remaining_length, Hkeys, Hlen.
    pose proof (tuples_length d Hok). lia. }
  unfold merge_cursor. rewrite Hc. destruct kf as [kf'|], vf as [vf'|]; cbn [mbind option_bind];
    try (rewrite Hf; cbn [mbind option_bind]; by eexists (BoxFiltered f), false).
  exists (BoxUnfiltered (Unfiltered.new c)), false. split; [done|]. rewrite filter_data_none by done. by split.
Qed.
End merge_cursor.

(** ** Merging *)
Section merging.
Context `{OK : Ord K} `{OV : Ord V} `{OT : Ord T} `{MR : MonoidValue R} `{TS : Timestamp T} {PL : PartialOrderLaws T}.
Context `{CU : Cursor C K V T R} `{BR : !BatchReader Bt C K V T R} `{MC : MergeCursor CC K V T R} `{BU : Builder B Bt K V T R}
  {BT : Batch Bt B C CC K V T R} {CS : CursorSpec C K V T R} {MS : MergeCursorSpec CC K V T R} {BS : BuilderSpec B Bt K V T R}
  {SP : BatchSpec Bt B C CC K V T R}.
Context (size : nat) (Hsize : zst_ok (T * R) size) (default_time : T) (Hdefault : default_time = minimum).
Context (timed : bool) (Htimed : timed = false → ∀ t t' : T, t = t').
Context (kf : option (K → bool)) (vf : option (V → bool)).
Implicit Types (b : Bt) (d : Data K V T R) (ds : list (Data K V T R)) (j : K * (V * T)).
#[local] Abbreviation merge_inputs := (merge_inputs (CC := CC) (BU := BU) size default_time timed).

(** The batches [bs] hold the sequences [ds]. *)
Definition holds (bs : list Bt) ds : Prop := Forall2 o_rep bs ds.

Lemma merge_cursor_ok b d : o_rep b d →
  ∃ c m, merge_cursor (CC := CC) b kf vf = Some c ∧ mc_rep m c (filter_data kf vf d).
Proof. intros Hb. apply merge_cursor_rep; [by eapply bt_ok|by apply bt_keys|by apply bt_len|by apply bt_cursor]. Qed.

Lemma inputs_bound bs ds : holds bs ds →
  nvals (filter_data kf vf <$> ds) + nkeys (filter_data kf vf <$> ds) < merge_bound bs ∧ nvals (filter_data kf vf <$> ds) ≤ nvals ds.
Proof.
  unfold merge_bound. induction 1 as [|b d bs ds Hb _ [IH1 IH2]]; [cbn; lia|]. cbn [fmap list_fmap].
  rewrite !nvals_cons, nkeys_cons. destruct (filter_data_vals kf vf d) as [? ?].
  pose proof (tuples_length d (bt_ok _ _ Hb)). cbn [sum_list foldr]. unfold steps at 1.
  rewrite (bt_keys _ _ Hb), (bt_len _ _ Hb). change (foldr Nat.add 0 (steps <$> bs)) with (sum_list (steps <$> bs)).
  split; [|lia]. cbn in IH1 |- *. lia.
Qed.

Lemma cursors_ok (f : Bt → option (BoxCursor C CC K V)) bs ds :
  (∀ b d, o_rep b d → ∃ c m, f b = Some c ∧ mc_rep m c (filter_data kf vf d)) → holds bs ds →
  ∃ cs, mapM f bs = Some cs ∧ cursors_of cs (filter_data kf vf <$> ds) ∧ length cs = length bs.
Proof.
  intros Hf. induction 1 as [|b d bs ds Hb _ (cs & Hcs & IH & Hl)]; [by exists []; repeat constructor|].
  destruct (Hf b d Hb) as (c & m & Hc & Hr). exists (c :: cs). cbn [mapM]. rewrite Hc. cbn [mbind option_bind].
  rewrite Hcs. cbn [mbind option_bind]. split_and!; [done| |cbn; by rewrite Hl].
  constructor; [|done]. split; [by exists m|]. apply filter_data_ok. by eapply bt_ok.
Qed.

(** One merge of up to 64 batches. *)
Lemma merge_inputs_ok (f : Bt → option (BoxCursor C CC K V)) bs ds :
  (∀ b d, o_rep b d → ∃ c m, f b = Some c ∧ mc_rep m c (filter_data kf vf d)) → holds bs ds → length bs ≤ 64 → (Z.of_nat (nvals ds) < ListMerger.ISIZE_MAX)%Z →
  ∃ cs result d, mapM f bs = Some cs ∧ merge_inputs bs cs = Some result ∧ o_rep result d ∧ length (all_vals d) ≤ nvals ds
    ∧ ∀ j, wt (tuples d) j = if kept kf vf j then wt (ds ≫= tuples) j else mzero.
Proof.
  intros Hf Hbs H64 Hmax. destruct (cursors_ok f bs ds Hf Hbs) as (cs & Hcs & Hof & Hl). destruct (inputs_bound bs ds Hbs) as [Hn Hle].
  destruct (merge_correct size default_time Hsize timed Htimed (merge_bound bs) cs (filter_data kf vf <$> ds) Hdefault Hof ltac:(lia) Hn ltac:(lia))
    as (result & d & Hmerge & Hr & Hok & Hwt & Hlen).
  exists cs, result, d. split_and!; [done..|lia|]. intros j. rewrite Hwt. clear.
  induction ds as [|d ds IH]; [by destruct (kept kf vf j)|]. cbn. rewrite !wt_app, IH, filter_data_wt. destruct (kept kf vf j); [done|]. by rewrite madd_0_l.
Qed.

Lemma is_empty_spec b d : o_rep b d → is_empty b = bool_decide (d = []).
Proof.
  intros Hb. pose proof (tuples_nil d (bt_ok _ _ Hb)) as Ht. unfold is_empty. rewrite (bt_len _ _ Hb).
  destruct (Nat.eqb_spec (length (tuples d)) 0) as [He|He]; symmetry; [apply bool_decide_eq_true|apply bool_decide_eq_false]; tauto.
Qed.

(** What a merge may change: the kept tuples keep their sums, and no others appear. *)
Definition sums_to ds ds' : Prop :=
  (∀ j, kept kf vf j = true → wt (ds' ≫= tuples) j = wt (ds ≫= tuples) j)
  ∧ (∀ j, kept kf vf j = false → j ∈ (ds' ≫= tuples).*1 → j ∈ (ds ≫= tuples).*1)
  ∧ nvals ds' ≤ nvals ds.

Lemma sums_to_refl ds : sums_to ds ds.
Proof. by split_and!. Qed.

Lemma sums_to_trans ds1 ds2 ds3 : sums_to ds1 ds2 → sums_to ds2 ds3 → sums_to ds1 ds3.
Proof.
  intros (Ha1 & Hb1 & Hc1) (Ha2 & Hb2 & Hc2). split_and!; [|auto|lia]. intros j Hj. by rewrite Ha2, Ha1.
Qed.

(** A group of batches replaced by one that sums it up, unless that is empty. *)
Definition replaced ds d : list (Data K V T R) := if bool_decide (d = []) then ds else ds ++ [d].

Lemma sums_to_replace ds1 ds2 d : data_ok d → (∀ j, wt (tuples d) j = if kept kf vf j then wt (ds2 ≫= tuples) j else mzero) →
  length (all_vals d) ≤ nvals ds2 → sums_to (ds1 ++ ds2) (replaced ds1 d).
Proof.
  intros Hok Hwt Hlen. assert (replaced ds1 d ≫= tuples = (ds1 ≫= tuples) ++ tuples d) as Hb.
  { unfold replaced. case_bool_decide as Hd; [by rewrite Hd, app_nil_r|]. rewrite bind_app. cbn. by rewrite app_nil_r. }
  split_and!.
  - intros j Hj. by rewrite Hb, bind_app, !wt_app, Hwt, Hj.
  - intros j Hj. rewrite Hb, bind_app, !fmap_app, !elem_of_app. intros [|Hin]; [by left|]. exfalso.
    apply (canonical_elem _ _ (tuples_canonical d Hok)) in Hin. by rewrite Hwt, Hj in Hin.
  - unfold replaced. rewrite nvals_app. case_bool_decide; [lia|]. rewrite nvals_app, nvals_cons. cbn. lia.
Qed.

Lemma holds_replaced bs ds result d : holds bs ds → o_rep result d → holds (if is_empty result then bs else bs ++ [result]) (replaced ds d).
Proof.
  intros Hbs Hr. unfold replaced. rewrite (is_empty_spec _ _ Hr). case_bool_decide; [done|]. by apply Forall2_app; [|repeat constructor].
Qed.

Lemma holds_split bs ds : holds bs ds →
  holds (take (length bs - 64) bs) (take (length bs - 64) ds) ∧ holds (drop (length bs - 64) bs) (drop (length bs - 64) ds).
Proof. intros Hbs. split; [by apply Forall2_take|by apply Forall2_drop]. Qed.

Lemma consuming_ok b d : o_rep b d → ∃ c m, consuming_cursor b kf vf = Some c ∧ mc_rep m c (filter_data kf vf d).
Proof. apply bt_consuming. Qed.

Lemma merge_loop_sums n : ∀ bs ds, holds bs ds → length bs ≤ S n → (Z.of_nat (nvals ds) < ListMerger.ISIZE_MAX)%Z →
  ∃ bs' ds', merge_loop (BU := BU) size default_time timed kf vf n bs = Some bs' ∧ holds bs' ds' ∧ length bs' ≤ 1 ∧ sums_to ds ds'.
Proof.
  induction n as [|n IH]; intros bs ds Hbs Hn Hmax; cbn [merge_loop]; destruct (Nat.ltb_spec 1 (length bs)) as [Hl|Hl];
    try (by exists bs, ds; split_and!; [| |lia|apply sums_to_refl]); [lia|].
  unfold split_last. destruct (holds_split bs ds Hbs) as [Ht Hd]. set (m := length bs - 64) in *.
  assert (nvals ds = nvals (take m ds) + nvals (drop m ds)) as Hnv by by rewrite <- nvals_app, take_drop.
  destruct (merge_inputs_ok (λ b, consuming_cursor b kf vf) (drop m bs) (drop m ds) consuming_ok Hd) as (cs & result & d & -> & Hmerge & Hr & Hlen & Hwt).
  { rewrite length_drop. lia. } { lia. }
  cbn [mbind option_bind]. rewrite Hmerge. cbn [mbind option_bind].
  pose proof (sums_to_replace (take m ds) (drop m ds) d (bt_ok _ _ Hr) Hwt Hlen) as Hsum. rewrite take_drop in Hsum.
  destruct (IH _ _ (holds_replaced _ _ _ _ Ht Hr)) as (bs' & ds' & -> & Hbs' & Hl' & Hsum').
  { assert (length (take m bs) ≤ m) by (rewrite length_take; lia). destruct (is_empty result); [lia|]. rewrite length_app. cbn. lia. }
  { destruct Hsum as (_ & _ & ?). lia. }
  exists bs', ds'. split_and!; [done..|]. by eapply sums_to_trans.
Qed.

Lemma holds_filter bs ds : holds bs ds →
  ∃ ds', holds (List.filter (λ b, negb (is_empty b)) bs) ds' ∧ sums_to ds ds' ∧ ds' ≫= tuples = ds ≫= tuples ∧ nvals ds' = nvals ds.
Proof.
  induction 1 as [|b d bs ds Hb _ (ds' & Hbs & Hsum & Ht & Hn)]; [by exists []; repeat constructor|]. cbn [List.filter].
  rewrite (is_empty_spec _ _ Hb). case_bool_decide as Hd; cbn [negb].
  - subst d. exists ds'. by split_and!.
  - exists (d :: ds'). assert ((d :: ds') ≫= tuples = (d :: ds) ≫= tuples) as He by (cbn; by rewrite Ht).
    rewrite !nvals_cons, Hn. split_and!; [by constructor| |done|done]. unfold sums_to. rewrite He, !nvals_cons, Hn. by split_and!.
Qed.

Lemma dyn_empty_ok : ∃ b, dyn_empty (BU := BU) = Some b ∧ o_rep b [].
Proof. apply b_done; [apply b_new|]. split; constructor. Qed.

Lemma merge_batches_sums bs ds : holds bs ds → (Z.of_nat (nvals ds) < ListMerger.ISIZE_MAX)%Z →
  ∃ out d, merge_batches (BU := BU) size default_time timed kf vf bs = Some out ∧ o_rep out d ∧ sums_to ds [d].
Proof.
  intros Hbs Hmax. unfold merge_batches. destruct (holds_filter bs ds Hbs) as (ds1 & Hbs1 & Hsum1 & _ & Hn1).
  destruct (merge_loop_sums _ _ ds1 Hbs1 (Nat.le_succ_diag_r _) ltac:(lia)) as (bs2 & ds2 & -> & Hbs2 & Hl2 & Hsum2).
  cbn [mbind option_bind]. pose proof (sums_to_trans _ _ _ Hsum1 Hsum2) as Hsum.
  destruct Hbs2 as [|b d bs2 ds2 Hb [|]]; cbn in Hl2; [| |lia]; cbn [last].
  - destruct dyn_empty_ok as (b & -> & Hb). by exists b, [].
  - by exists b, d.
Qed.
(** A sequence without tuples that the filters drop. *)
Definition all_kept d : Prop := ∀ j, j ∈ (tuples d).*1 → kept kf vf j = true.

Lemma all_kept_bind ds j : Forall all_kept ds → j ∈ (ds ≫= tuples).*1 → kept kf vf j = true.
Proof.
  induction 1 as [|d ds Hd _ IH]; [by intros ?%elem_of_nil|]. cbn. rewrite fmap_app, elem_of_app. intros [|]; auto.
Qed.

Lemma replaced_bind ds d : replaced ds d ≫= tuples = (ds ≫= tuples) ++ tuples d.
Proof. unfold replaced. case_bool_decide as Hd; [by rewrite Hd, app_nil_r|]. rewrite bind_app. cbn. by rewrite app_nil_r. Qed.

Lemma reference_loop_ok n : ∀ bs ds outs dos, holds bs ds → holds outs dos → length bs ≤ n → Forall all_kept dos →
  (Z.of_nat (nvals ds) < ListMerger.ISIZE_MAX)%Z →
  ∃ outs' dos', reference_loop (BU := BU) size default_time timed kf vf n bs outs = Some outs' ∧ holds outs' dos' ∧ Forall all_kept dos'
    ∧ nvals dos' ≤ nvals dos + nvals ds
    ∧ ∀ j, kept kf vf j = true → wt (dos' ≫= tuples) j = wt (dos ≫= tuples) j ⊕ wt (ds ≫= tuples) j.
Proof.
  induction n as [|n IH]; intros bs ds outs dos Hbs Houts Hn Hall Hmax.
  { destruct Hbs; [|cbn in Hn; lia]. exists outs, dos. cbn. split_and!; [done..|lia|]. intros j _. by rewrite madd_0_r. }
  destruct (decide (bs = [])) as [->|Hne].
  { inversion Hbs; subst. exists outs, dos. cbn. split_and!; [done..|lia|]. intros j _. by rewrite madd_0_r. }
  assert (0 < length bs) as Hpos by (destruct bs; [done|cbn; lia]).
  assert (reference_loop (BU := BU) size default_time timed kf vf (S n) bs outs =
    (cursors ← mapM (λ b, merge_cursor b kf vf) (drop (length bs - 64) bs); result ← merge_inputs (drop (length bs - 64) bs) cursors;
     reference_loop (BU := BU) size default_time timed kf vf n (take (length bs - 64) bs) (if is_empty result then outs else outs ++ [result]))) as ->
    by by destruct bs.
  destruct (holds_split bs ds Hbs) as [Ht Hd]. set (m := length bs - 64) in *.
  assert (nvals ds = nvals (take m ds) + nvals (drop m ds)) as Hnv by by rewrite <- nvals_app, take_drop.
  destruct (merge_inputs_ok (λ b, merge_cursor b kf vf) (drop m bs) (drop m ds) merge_cursor_ok Hd) as (cs & result & d & -> & Hmerge & Hr & Hlen & Hwt).
  { rewrite length_drop. lia. } { lia. }
  cbn [mbind option_bind]. rewrite Hmerge. cbn [mbind option_bind].
  destruct (IH _ _ _ _ Ht (holds_replaced _ _ _ _ Houts Hr)) as (outs' & dos' & -> & Houts' & Hall' & Hnv' & Hwt').
  { rewrite length_take. lia. }
  { unfold replaced. case_bool_decide; [done|]. apply Forall_app. split; [done|]. constructor; [|done]. intros j Hj.
    apply (canonical_elem _ _ (tuples_canonical d (bt_ok _ _ Hr))) in Hj. rewrite Hwt in Hj. by destruct (kept kf vf j). }
  { lia. }
  exists outs', dos'. split_and!; [done..| |].
  - assert (nvals (replaced dos d) ≤ nvals dos + length (all_vals d)); [|lia].
    unfold replaced. case_bool_decide; [lia|]. rewrite nvals_app, nvals_cons. cbn. lia.
  - intros j Hj. rewrite Hwt', replaced_bind, wt_app, Hwt, Hj by done. rewrite <- madd_assoc. f_equal.
    rewrite <- (take_drop m ds) at 3. rewrite bind_app, wt_app. apply madd_comm.
Qed.

Lemma by_reference_sums bs ds : holds bs ds → (Z.of_nat (nvals ds) < ListMerger.ISIZE_MAX)%Z →
  ∃ out d, merge_batches_by_reference (BU := BU) size default_time timed kf vf bs = Some out ∧ o_rep out d
    ∧ ∀ j, wt (tuples d) j = if kept kf vf j then wt (ds ≫= tuples) j else mzero.
Proof.
  intros Hbs Hmax. unfold merge_batches_by_reference. destruct (holds_filter bs ds Hbs) as (ds1 & Hbs1 & _ & Ht1 & Hn1).
  destruct (reference_loop_ok _ _ ds1 [] [] Hbs1 ltac:(constructor) (le_n _) ltac:(constructor) ltac:(lia)) as (outs & dos & -> & Houts & Hall & Hnv & Hwt).
  cbn [mbind option_bind]. cbn in Hnv. destruct (merge_batches_sums outs dos Houts ltac:(lia)) as (out & d & Hout & Hr & Hkept & Hkeys & _).
  exists out, d. split_and!; [done..|]. intros j. cbn in Hkept, Hkeys. destruct (kept kf vf j) eqn:Ej.
  - specialize (Hkept j Ej). rewrite app_nil_r in Hkept. rewrite Hkept, Hwt, Ht1 by done. cbn. apply madd_0_l.
  - apply wt_notin. intros Hin. specialize (Hkeys j Ej). rewrite app_nil_r in Hkeys. specialize (Hkeys Hin).
    apply (all_kept_bind dos) in Hkeys; [|done]. by rewrite Ej in Hkeys.
Qed.
End merging.
