(* ===== verification/BatchBuild.v ===== *)
(** Building batches: from tuples in order ([TupleBuilder]), from a cursor ([Batch::from_cursor],
    [Batch::filter]), and comparing two batches ([eq_batch]) (crates/dbsp/src/trace.rs). *)
From Stdlib Require Import Sorting.Sorted.
From S2P Require Import Prelude Sort Trie LayerSpec Scheduler MergeCursor Batch.
#[local] Open Scope nat_scope.

(** ** [TupleBuilder] *)
Module TupleBuilder.
Section ops.
Context `{Ord K} `{Ord V} `{Ord T} `{MonoidValue R} `{BU : Builder B Out K V T R}.
(** The key and the value of a new box, and the default time. *)
Context (default_kv : K * V) (default_time : T).

Record TupleBuilder := mk { builder : B; kv : K * V; has_kv : bool }.
Implicit Types self : TupleBuilder.

Definition new (builder : B) : TupleBuilder := mk builder default_kv false.

(** The value that is being built, and its key, end before those of the next tuple; a value that is
    pushed is moved out of the box. *)
Definition turn self (key : K) (val : V) : option TupleBuilder :=
  if has_kv self then
    let '(k, v) := kv self in
    if negb (bool_decide (k = key)) then
      '(b, _) ← push_val_mut (builder self) v;
      '(b, _) ← push_key_mut b k;
      Some (mk b (key, val) true)
    else if negb (bool_decide (v = val)) then
      '(b, _) ← push_val_mut (builder self) v;
      Some (mk b (k, val) true)
    else Some self
  else Some (mk (builder self) (key, val) true).

Definition push_refs self (key : K) (val : V) (time : T) (weight : R) : option TupleBuilder :=
  self ← turn self key val;
  b ← push_time_diff (builder self) time weight;
  Some (mk b (kv self) (has_kv self)).
Definition push_vals self (key : K) (val : V) (time : T) (weight : R) : option TupleBuilder :=
  self ← turn self key val;
  b ← push_time_diff_mut (builder self) time weight;
  Some (mk b (kv self) (has_kv self)).
Definition push self (element : (K * V) * R) : option TupleBuilder :=
  push_vals self element.1.1 element.1.2 default_time element.2.
Fixpoint extend self (iter : list ((K * V) * R)) : option TupleBuilder :=
  match iter with
  | [] => Some self
  | (k, v, w) :: iter => self ← push_vals self k v default_time w; extend self iter
  end.
Definition done self : option Out :=
  b ← (if has_kv self then
         let '(k, v) := kv self in
         '(b, _) ← push_val_mut (builder self) v;
         '(b, _) ← push_key_mut b k;
         Some b
       else Some (builder self));
  MergeCursor.done (Builder := BU) b.
End ops.
#[global] Arguments TupleBuilder : clear implicits.
End TupleBuilder.

Section tuple_builder.
Context `{OK : Ord K} `{OV : Ord V} `{OT : Ord T} `{MR : MonoidValue R} `{BU : Builder B Out K V T R} {BS : BuilderSpec B Out K V T R}.
Context (default_kv : K * V) (default_time : T).
Implicit Types (self : TupleBuilder.TupleBuilder K V B) (l : list ((K * (V * T)) * R)) (dk : Data K V T R) (pv : Vals V T R) (ts : Times T R).
Import TupleBuilder.

(** The builder has been given the tuples [l]. *)
Definition tb_rep self l : Prop :=
  if has_kv self then
    ∃ dk pv ts, b_rep (builder self) dk pv ts ∧ data_ok (dk ++ [((kv self).1, pv ++ [((kv self).2, ts)])])
      ∧ l = tuples (dk ++ [((kv self).1, pv ++ [((kv self).2, ts)])])
  else b_rep (builder self) [] [] [] ∧ l = [].

Lemma data_ok_snoc dk k pv : data_ok (dk ++ [(k, pv)]) ↔ data_ok dk ∧ entry_ok pv ∧ ∀ k', k' ∈ dk.*1 → k' ≺ k.
Proof.
  unfold data_ok. rewrite keys_sorted_app, fmap_app, Forall_app. split.
  - intros [(Hs & _ & Hk) [Hf [Hpv _]%Forall_cons]]. split_and!; [done..|]. intros k' Hk'. apply Hk; [done|]. cbn. by left.
  - intros ([Hs Hf] & Hpv & Hk). split_and!; [done|repeat constructor| |done|by constructor].
    intros k1 k2 Hk1 Hk2. cbn in Hk2. apply list_elem_of_singleton in Hk2 as ->. auto.
Qed.

Lemma vals_ok_last pv v ts : vals_ok (pv ++ [(v, ts)]) ↔ vals_ok pv ∧ times_ok ts ∧ ∀ v', v' ∈ pv.*1 → v' ≺ v.
Proof.
  unfold vals_ok. rewrite keys_sorted_app, fmap_app, Forall_app. split.
  - intros [(Hs & _ & Hk) [Hf [Hpv _]%Forall_cons]]. split_and!; [done..|]. intros k' Hk'. apply Hk; [done|]. cbn. by left.
  - intros ([Hs Hf] & Hpv & Hk). split_and!; [done|repeat constructor| |done|by constructor].
    intros k1 k2 Hk1 Hk2. cbn in Hk2. apply list_elem_of_singleton in Hk2 as ->. auto.
Qed.

Lemma tuples_last dk k pv v ts : tuples (dk ++ [(k, pv ++ [(v, ts)])]) = tuples (dk ++ [(k, pv)]) ++ prefix k (prefix v ts).
Proof.
  rewrite !tuples_app, !tuples_cons, val_tups_app, prefix_app. cbn. rewrite !app_nil_r. by rewrite <- app_assoc.
Qed.

Lemma times_ok_one (t : T) (r : R) : r ≠ mzero → times_ok [(t, r)].
Proof. intros Hr. split; [|done]. apply canonical_cons; [apply canonical_nil|done|]. by intros ? ?%elem_of_nil. Qed.

(** The next tuple is after the last one. *)
Lemma next_after dk k pv v ts k' v' t' r' : data_ok (dk ++ [(k, pv ++ [(v, ts)])]) →
  canonical (tuples (dk ++ [(k, pv ++ [(v, ts)])]) ++ [((k', (v', t')), r')]) →
  r' ≠ mzero ∧ (k ≺ k' ∨ k = k' ∧ (v ≺ v' ∨ v = v' ∧ times_ok (ts ++ [(t', r')]))).
Proof.
  intros (_ & [Hvs _] & _)%data_ok_snoc (_ & Hc & Hlt)%canonical_app. apply vals_ok_last in Hvs as (_ & [Hts Hne] & _).
  apply canonical_cons_inv in Hc as (_ & Hr & _). split; [done|].
  assert (∀ t, t ∈ ts.*1 → (k, (v, t)) ≺ (k', (v', t'))) as Hlast.
  { intros t Ht. apply Hlt; [|cbn; by left]. rewrite tuples_last, fmap_app, elem_of_app. right.
    apply list_elem_of_fmap in Ht as ([t0 r0] & -> & Ht). apply list_elem_of_fmap. exists ((k, (v, t0)), r0). split; [done|].
    unfold prefix. rewrite <- list_fmap_compose. apply list_elem_of_fmap. by exists (t0, r0). }
  destruct ts as [|[t0 r0] ts0] eqn:E; [done|]. rewrite <- E in *.
  assert (t0 ∈ ts.*1) as Ht0 by (rewrite E; left). specialize (Hlast t0 Ht0) as Hl0. apply klt_pair in Hl0 as [|[-> Hl0]]; [by left|right].
  split; [done|]. apply klt_pair in Hl0 as [|[-> _]]; [by left|right]. split; [done|]. split; [|by destruct ts].
  apply canonical_app. split_and!; [done|apply canonical_cons; [apply canonical_nil|done|by intros ? ?%elem_of_nil]|].
  intros t1 t2 Ht1 Ht2. cbn in Ht2. apply list_elem_of_singleton in Ht2 as ->. specialize (Hlast t1 Ht1).
  apply klt_pair in Hlast as [Hk|[_ Hl]]; [by apply klt_irrefl in Hk|]. apply klt_pair in Hl as [Hv|[_ ?]]; [by apply klt_irrefl in Hv|done].
Qed.

(** The state in which the builder takes the time and the weight of the next tuple. *)
Lemma turn_spec self l k v t r : tb_rep self l → canonical (l ++ [((k, (v, t)), r)]) →
  ∃ self' dk pv ts, turn self k v = Some self' ∧ has_kv self' = true ∧ kv self' = (k, v) ∧ b_rep (builder self') dk pv ts
    ∧ data_ok (dk ++ [(k, pv ++ [(v, ts ++ [(t, r)])])])
    ∧ l ++ [((k, (v, t)), r)] = tuples (dk ++ [(k, pv ++ [(v, ts ++ [(t, r)])])]).
Proof.
  unfold tb_rep, turn. destruct (has_kv self) eqn:Eh.
  2: { intros [Hb ->] Hc. cbn in Hc. apply canonical_cons_inv in Hc as (_ & Hr & _). exists (mk (builder self) (k, v) true), [], [], [].
       split_and!; try done. cbn. apply (data_ok_snoc [] k [(v, [(t, r)])]). split_and!; [by split; constructor| |by intros ? ?%elem_of_nil].
       split; [|done]. apply (vals_ok_last [] v). split_and!; [by split; constructor|by apply times_ok_one|by intros ? ?%elem_of_nil]. }
  destruct (kv self) as [k0 v0] eqn:Ekv. cbn [fst snd]. intros (dk & pv & ts & Hb & Hok & ->) Hc.
  destruct (next_after dk k0 pv v0 ts k v t r Hok Hc) as [Hr Hcase].
  pose proof (proj1 (data_ok_snoc _ _ _) Hok) as (Hdk & [Hpv _] & Hbef). pose proof (proj1 (vals_ok_last _ _ _) Hpv) as (Hpv0 & Hts & Hvb).
  destruct Hcase as [Hlt|[-> [Hlt|[-> Hts']]]].
  - rewrite bool_decide_eq_false_2 by (intros ->; by apply klt_irrefl in Hlt). cbn [negb].
    destruct (b_val_mut _ _ _ _ _ Hb Hpv) as (b1 & v' & -> & Hb1). cbn [mbind option_bind].
    destruct (b_key_mut _ _ _ _ Hb1 Hok) as (b2 & k' & -> & Hb2). cbn [mbind option_bind].
    exists (mk b2 (k, v) true), (dk ++ [(k0, pv ++ [(v0, ts)])]), [], []. split_and!; [done..| |].
    + apply data_ok_snoc. split_and!; [done| |].
      * split; [|done]. apply vals_ok_last. split_and!; [by split; constructor|by apply times_ok_one|by intros ? ?%elem_of_nil].
      * intros k1. rewrite fmap_app, elem_of_app. cbn. rewrite list_elem_of_singleton. intros [Hk1| ->]; [|done]. transitivity k0; auto.
    + by rewrite (tuples_app (dk ++ _)).
  - rewrite bool_decide_eq_true_2 by done. rewrite bool_decide_eq_false_2 by (intros ->; by apply klt_irrefl in Hlt). cbn [negb].
    destruct (b_val_mut _ _ _ _ _ Hb Hpv) as (b1 & v' & -> & Hb1). cbn [mbind option_bind].
    exists (mk b1 (k, v) true), dk, (pv ++ [(v0, ts)]), []. split_and!; [done..| |].
    + apply data_ok_snoc. split_and!; [done| |done]. split; [|by destruct pv]. apply vals_ok_last. split_and!; [done|by apply times_ok_one|].
      intros v1. rewrite fmap_app, elem_of_app. cbn. rewrite list_elem_of_singleton. intros [Hv1| ->]; [|done]. transitivity v0; auto.
    + by rewrite (tuples_last dk k (pv ++ _)).
  - rewrite !bool_decide_eq_true_2 by done. cbn [negb]. exists self, dk, pv, ts. split_and!; [done..| |].
    + apply data_ok_snoc. split_and!; [done| |done]. split; [|by destruct pv]. apply vals_ok_last. by split_and!.
    + rewrite !tuples_last, <- app_assoc. f_equal. by rewrite !prefix_app.
Qed.

Lemma pushed_rep self b l k v t r : has_kv self = true → kv self = (k, v) →
  (∃ dk pv ts, b_rep b dk pv (ts ++ [(t, r)]) ∧ data_ok (dk ++ [(k, pv ++ [(v, ts ++ [(t, r)])])])
    ∧ l = tuples (dk ++ [(k, pv ++ [(v, ts ++ [(t, r)])])])) → tb_rep (mk b (kv self) (has_kv self)) l.
Proof. unfold tb_rep. cbn. intros -> -> (dk & pv & ts & Hb & Hok & ->). by exists dk, pv, (ts ++ [(t, r)]). Qed.

Lemma data_ok_vals dk k pv : data_ok (dk ++ [(k, pv)]) → vals_ok pv.
Proof. by intros (_ & [? _] & _)%data_ok_snoc. Qed.

Lemma push_vals_spec self l k v t r : tb_rep self l → canonical (l ++ [((k, (v, t)), r)]) →
  ∃ self', push_vals self k v t r = Some self' ∧ tb_rep self' (l ++ [((k, (v, t)), r)]).
Proof.
  intros Hs Hc. destruct (turn_spec self l k v t r Hs Hc) as (self' & dk & pv & ts & Ht & Hh & Hkv & Hb & Hok & Hl).
  unfold push_vals. rewrite Ht. cbn [mbind option_bind].
  destruct (b_time_mut _ _ _ _ t r v Hb (data_ok_vals _ _ _ Hok)) as (b' & -> & Hb'). cbn [mbind option_bind].
  eexists. split; [done|]. apply (pushed_rep self' b' _ k v t r Hh Hkv). by exists dk, pv, ts.
Qed.

Lemma push_refs_spec self l k v t r : tb_rep self l → canonical (l ++ [((k, (v, t)), r)]) →
  ∃ self', push_refs self k v t r = Some self' ∧ tb_rep self' (l ++ [((k, (v, t)), r)]).
Proof.
  intros Hs Hc. destruct (turn_spec self l k v t r Hs Hc) as (self' & dk & pv & ts & Ht & Hh & Hkv & Hb & Hok & Hl).
  unfold push_refs. rewrite Ht. cbn [mbind option_bind].
  destruct (b_time _ _ _ _ t r v Hb (data_ok_vals _ _ _ Hok)) as (b' & -> & Hb'). cbn [mbind option_bind].
  eexists. split; [done|]. apply (pushed_rep self' b' _ k v t r Hh Hkv). by exists dk, pv, ts.
Qed.

Lemma tb_done_spec self l : tb_rep self l → ∃ out d, done self = Some out ∧ o_rep out d ∧ data_ok d ∧ tuples d = l.
Proof.
  unfold tb_rep, done. destruct (has_kv self).
  - destruct (kv self) as [k v]. cbn [fst snd]. intros (dk & pv & ts & Hb & Hok & ->).
    pose proof (proj1 (data_ok_snoc _ _ _) Hok) as (_ & [Hpv _] & _).
    destruct (b_val_mut _ _ _ _ _ Hb Hpv) as (b1 & v' & -> & Hb1). cbn [mbind option_bind].
    destruct (b_key_mut _ _ _ _ Hb1 Hok) as (b2 & k' & -> & Hb2). cbn [mbind option_bind].
    destruct (b_done _ _ Hb2 Hok) as (out & Hout & Ho). by eexists out, _.
  - intros [Hb ->]. cbn [mbind option_bind]. destruct (b_done _ _ Hb) as (out & Hout & Ho); [by split; constructor|].
    exists out, []. split_and!; [done|done|by split; constructor|done].
Qed.

(** The tuples one after the other. *)
Definition push_all (self : TupleBuilder.TupleBuilder K V B) (l : list ((K * (V * T)) * R)) : option (TupleBuilder.TupleBuilder K V B) :=
  foldM (λ self '((k, (v, t)), r), push_vals self k v t r) self l.

Lemma push_all_spec l2 : ∀ self l1, tb_rep self l1 → canonical (l1 ++ l2) → ∃ self', push_all self l2 = Some self' ∧ tb_rep self' (l1 ++ l2).
Proof.
  induction l2 as [|[[k [v t]] r] l2 IH]; intros self l1 Hs Hc; unfold push_all; cbn [foldM].
  { exists self. by rewrite app_nil_r. }
  rewrite cons_middle, app_assoc in Hc. pose proof (proj1 (canonical_app _ _) Hc) as (Hc1 & _).
  destruct (push_vals_spec self l1 k v t r Hs Hc1) as (self1 & -> & Hs1). cbn [mbind option_bind].
  destruct (IH self1 _ Hs1 Hc) as (self' & Hp & Hs'). exists self'. split; [exact Hp|]. by rewrite <- app_assoc in Hs'.
Qed.

Lemma new_rep : tb_rep (new default_kv new_builder) [].
Proof. split; [apply b_new|done]. Qed.
End tuple_builder.

(** ** Copying what a cursor reads *)
Section copy.
Context {K V T1 T R : Type} `{MonoidValue R} `{Cursor C K V T1 R} `{BU : Builder B Out K V T R}.
(** Whether weights are checked, the tuples to copy, and the time they get. *)
Context (check : bool) (predicate : option (K → V → bool)) (timestamp : T).

Definition selected (c : C) : option bool :=
  match predicate with None => Some true | Some p => k ← Cursor.key c; v ← Cursor.val c; Some (p k v) end.

Fixpoint copy_vals (n : nat) (c : C) (b : B) (any_values : bool) : option (C * B * bool) :=
  if Cursor.val_valid c then
    match n with
    | O => None
    | S n =>
      p ← selected c;
      '(b, any_values) ← (if (p : bool) then
          weight ← Cursor.weight c;
          assert! (negb check || negb (is_zero weight)) in
          b ← push_time_diff b timestamp weight;
          v ← Cursor.val c;
          b ← push_val b v;
          Some (b, true)
        else Some (b, any_values));
      c ← Cursor.step_val c;
      copy_vals n c b any_values
    end
  else Some (c, b, any_values).

Fixpoint copy_keys (n : nat) (c : C) (b : B) : option B :=
  if Cursor.key_valid c then
    match n with
    | O => None
    | S n' =>
      '(c, b, any_values) ← copy_vals n c b false;
      b ← (if (any_values : bool) then k ← Cursor.key c; push_key b k else Some b);
      c ← Cursor.step_key c;
      copy_keys n' c b
    end
  else Some b.
End copy.

Section batch.
Context {K V T1 T R : Type} `{MonoidValue R} `{Cursor C K V T1 R} `{BU : Builder B Out K V T R}.

(** [Batch::from_cursor], with a bound on its iterations. *)
Definition from_cursor (n : nat) (c : C) (timestamp : T) : option Out :=
  b ← copy_keys true None timestamp n c new_builder; MergeCursor.done (Builder := BU) b.
(** [Batch::filter]. *)
Definition filter_batch `{BatchReader Bt C K V T1 R} (default_time : T) (self : Bt) (predicate : K → V → bool) : option Out :=
  c ← Batch.cursor self;
  b ← copy_keys false (Some predicate) default_time (steps self) c new_builder;
  MergeCursor.done (Builder := BU) b.
End batch.

(** ** Comparing batches *)
Section eq_batch.
Context `{Ord K} `{Ord V} `{MonoidValue R} {T1 T2 : Type} `{Cursor C1 K V T1 R} `{Cursor C2 K V T2 R}.

(** The loop over the values; [None] is [return false]. *)
Fixpoint eq_vals (n : nat) (c1 : C1) (c2 : C2) : option (option (C1 * C2)) :=
  if Cursor.val_valid c1 && Cursor.val_valid c2 then
    match n with
    | O => None
    | S n =>
      v1 ← Cursor.val c1;
      v2 ← Cursor.val c2;
      if negb (bool_decide (v1 = v2)) then Some None
      else
      w1 ← Cursor.weight c1;
      w2 ← Cursor.weight c2;
      if negb (bool_decide (w1 = w2)) then Some None
      else
      c1 ← Cursor.step_val c1;
      c2 ← Cursor.step_val c2;
      eq_vals n c1 c2
    end
  else if Cursor.val_valid c1 || Cursor.val_valid c2 then Some None
  else Some (Some (c1, c2)).

Fixpoint eq_keys (n : nat) (c1 : C1) (c2 : C2) : option bool :=
  if Cursor.key_valid c1 && Cursor.key_valid c2 then
    match n with
    | O => None
    | S n' =>
      k1 ← Cursor.key c1;
      k2 ← Cursor.key c2;
      if negb (bool_decide (k1 = k2)) then Some false
      else
      r ← eq_vals n c1 c2;
      match r with
      | None => Some false
      | Some (c1, c2) =>
        c1 ← Cursor.step_key c1;
        c2 ← Cursor.step_key c2;
        eq_keys n' c1 c2
      end
    end
  else Some (negb (Cursor.key_valid c1) && negb (Cursor.key_valid c2)).

Definition eq_batch `{!BatchReader A1 C1 K V T1 R} `{!BatchReader A2 C2 K V T2 R} (a : A1) (b : A2) : option bool :=
  c1 ← Batch.cursor a;
  c2 ← Batch.cursor b;
  eq_keys (steps a) c1 c2.
End eq_batch.

(** ** Correctness of the copies *)
Section copy_spec.
Context `{OK : Ord K} `{OV : Ord V} `{OT1 : Ord T1} `{OT : Ord T} `{MR : MonoidValue R}.
Context `{CS : CursorSpec C K V T1 R} {WS : WeightSpec C K V T1 R} `{BU : Builder B Out K V T R} {BS : BuilderSpec B Out K V T R}.
(** The batch that is read is not timed. *)
Context (Hunit : ∀ t t' : T1, t = t').
Context (check : bool) (predicate : option (K → V → bool)) (timestamp : T).
Implicit Types (c : C) (b : B) (vs : Vals V T1 R) (d : Data K V T1 R) (dk : Data K V T R) (pv : Vals V T R).

Definition holds_for (k : K) (v : V) : bool := match predicate with None => true | Some p => p k v end.
Definition stamp (ts : Times T1 R) : Times T R := (λ '(_, r), (timestamp, r)) <$> ts.
Definition stamped_vals (k : K) vs : Vals V T R := (λ '(v, ts), (v, stamp ts)) <$> List.filter (λ p, holds_for k p.1) vs.
(** The tuples that are copied, with their new time. *)
Definition stamped d : Data K V T R := d ≫= λ '(k, vs), emit k (nonempty (stamped_vals k vs)).

Lemma one_time (ts : Times T1 R) : times_ok ts → ∃ t r, ts = [(t, r)] ∧ r ≠ mzero.
Proof.
  intros [Hc Hne]. destruct ts as [|[t r] [|[t' r'] ts]]; [done| |].
  - exists t, r. split; [done|]. by apply canonical_cons_inv in Hc as (_ & ? & _).
  - exfalso. apply canonical_cons_inv in Hc as (_ & _ & Hlt). apply (klt_irrefl t). rewrite (Hunit t t') at 2. apply Hlt. left.
Qed.

Lemma stamped_vals_cons k v t r vs : stamped_vals k ((v, [(t, r)]) :: vs)
  = if holds_for k v then (v, [(timestamp, r)]) :: stamped_vals k vs else stamped_vals k vs.
Proof. unfold stamped_vals. cbn [List.filter fst]. by destruct (holds_for k v). Qed.

Lemma stamped_vals_keys k vs v : v ∈ (stamped_vals k vs).*1 → v ∈ vs.*1.
Proof.
  unfold stamped_vals. intros Hv. apply list_elem_of_fmap in Hv as ([v' ts'] & -> & Hv). apply list_elem_of_fmap in Hv as ([v1 ts] & [= -> ->] & Hv).
  rewrite list_elem_of_In, filter_In, <- list_elem_of_In in Hv. apply list_elem_of_fmap. exists (v1, ts). by destruct Hv.
Qed.

Lemma stamped_vals_ok k vs : vals_ok vs → vals_ok (stamped_vals k vs).
Proof.
  induction vs as [|[v ts] vs IH]; [intros _; by split; constructor|]. intros [[Hs Hv]%keys_sorted_cons [Ht Hts]%Forall_cons].
  destruct (one_time ts Ht) as (t & r & -> & Hr). rewrite stamped_vals_cons. destruct (IH (conj Hs Hts)) as [IH1 IH2].
  destruct (holds_for k v); [|done]. split.
  - apply keys_sorted_cons. split; [done|]. intros v' Hv'%stamped_vals_keys. by apply Hv.
  - constructor; [|done]. by apply times_ok_one.
Qed.

Lemma selected_spec c k v ts vs d : c_rep c ((k, (v, ts) :: vs) :: d) → selected predicate c = Some (holds_for k v).
Proof.
  intros Hc. unfold selected, holds_for. destruct predicate; [|done]. rewrite (proj2 (cr_key _ _ _ _ Hc)), (cr_val _ _ _ _ _ _ Hc). done.
Qed.

Lemma vals_ok_prefix pv1 pv2 : vals_ok (pv1 ++ pv2) → vals_ok pv1.
Proof. intros [(? & _)%keys_sorted_app Hf]. rewrite fmap_app in Hf. apply Forall_app in Hf as [? _]. done. Qed.

Lemma copy_vals_spec k d n : ∀ c b vs dk pv any, c_rep c ((k, vs) :: d) → vals_ok vs → b_rep b dk pv [] → vals_ok (pv ++ stamped_vals k vs) →
  any = negb (bool_decide (pv = [])) → length vs < n →
  ∃ c' b', copy_vals check predicate timestamp n c b any = Some (c', b', negb (bool_decide (pv ++ stamped_vals k vs = [])))
    ∧ c_rep c' ((k, []) :: d) ∧ b_rep b' dk (pv ++ stamped_vals k vs) [].
Proof.
  induction n as [|n IH]; intros c b vs dk pv any Hc Hvs Hb Hpv Hany Hn; [lia|]. cbn [copy_vals]. rewrite (cr_val_valid _ _ _ _ Hc).
  destruct vs as [|[v ts] vs]; [rewrite bool_decide_eq_true_2 by done|rewrite bool_decide_eq_false_2 by done]; cbn [negb].
  { exists c, b. change (stamped_vals k []) with ([] : Vals V T R). rewrite app_nil_r. by subst any. }
  destruct Hvs as [[Hs Hv]%keys_sorted_cons [Ht Hts]%Forall_cons]. destruct (one_time ts Ht) as (t & r & -> & Hr).
  rewrite (selected_spec _ _ _ _ _ _ Hc). cbn [mbind option_bind]. rewrite stamped_vals_cons in Hpv |- *.
  destruct (cr_step_val _ _ _ _ _ _ Hc) as (c1 & Hstep & Hc1). cbn [length] in Hn. destruct (holds_for k v).
  - rewrite (cr_weight _ _ _ _ _ _ _ Hc). cbn [mbind option_bind]. rewrite (proj2 (is_zero_false r) Hr), orb_true_r.
    rewrite cons_middle, app_assoc in Hpv |- *.
    destruct (b_time _ _ _ _ timestamp r v Hb) as (b1 & -> & Hb1); [by eapply vals_ok_prefix|]. cbn [mbind option_bind app].
    rewrite (cr_val _ _ _ _ _ _ Hc). cbn [mbind option_bind].
    destruct (b_val _ _ _ _ v Hb1) as (b2 & -> & Hb2); [by eapply vals_ok_prefix|]. cbn [mbind option_bind]. rewrite Hstep. cbn [mbind option_bind].
    apply IH; [done|done|done|done| |lia]. rewrite bool_decide_eq_false_2; [done|]. by destruct pv.
  - cbn [mbind option_bind]. rewrite Hstep. cbn [mbind option_bind]. by apply IH; [| | | | |lia].
Qed.

Lemma stamped_cons k vs d : stamped ((k, vs) :: d) = emit k (nonempty (stamped_vals k vs)) ++ stamped d.
Proof. done. Qed.

Lemma stamped_keys d k : k ∈ (stamped d).*1 → k ∈ d.*1.
Proof.
  induction d as [|[k' vs] d IH]; [done|]. rewrite stamped_cons, fmap_app, elem_of_app. intros [->%emit_keys|Hk]; [left|right; auto].
Qed.

Lemma stamped_ok d : data_ok d → data_ok (stamped d).
Proof.
  induction d as [|[k vs] d IH]; [intros _; by split; constructor|]. intros [[Hs Hk]%keys_sorted_cons [[Hv _] Hd]%Forall_cons]. rewrite stamped_cons.
  destruct (IH (conj Hs Hd)) as [IH1 IH2]. split.
  - apply keys_sorted_emit; [done|]. intros k' Hk'%stamped_keys. by apply Hk.
  - apply (emit_valid entry_ok); [|done]. intros vs' Hvs'. destruct (stamped_vals k vs) eqn:E; simplify_eq/=. split; [|done].
    rewrite <- E. by apply stamped_vals_ok.
Qed.

Lemma data_ok_prefix dk1 dk2 : data_ok (dk1 ++ dk2) → data_ok dk1.
Proof. intros [(? & _)%keys_sorted_app Hf]. rewrite fmap_app in Hf. apply Forall_app in Hf as [? _]. done. Qed.

Lemma copy_stamped_spec n : ∀ c b d dk, c_rep c d → data_ok d → b_rep b dk [] [] → data_ok (dk ++ stamped d) → MergeCursor.remaining d < n →
  ∃ b', copy_keys check predicate timestamp n c b = Some b' ∧ b_rep b' (dk ++ stamped d) [] [].
Proof.
  induction n as [|n IH]; intros c b d dk Hc Hd Hb Hok Hn; [lia|]. cbn [copy_keys]. destruct d as [|[k vs] d].
  { rewrite (cr_end _ Hc). exists b. by rewrite app_nil_r. }
  destruct (cr_key _ _ _ _ Hc) as [-> _]. rewrite stamped_cons in Hok |- *. rewrite remaining_cons in Hn.
  destruct Hd as [[Hs Hk]%keys_sorted_cons [[Hv Hne] Hd]%Forall_cons].
  destruct (copy_vals_spec k d (S n) c b vs dk [] false Hc Hv Hb (stamped_vals_ok k vs Hv) eq_refl ltac:(lia)) as (c1 & b1 & -> & Hc1 & Hb1).
  cbn [mbind option_bind app] in *. destruct (cr_key _ _ _ _ Hc1) as [_ Hkey]. destruct (cr_step_key _ _ _ _ Hc1) as (c2 & Hstep & Hc2).
  destruct (stamped_vals k vs) as [|p pv] eqn:E; cbn [nonempty emit app] in *.
  - rewrite bool_decide_eq_true_2 by done. cbn [negb mbind option_bind]. rewrite Hstep. cbn [mbind option_bind]. apply IH; [done..|lia].
  - rewrite bool_decide_eq_false_2 by done. cbn [negb]. rewrite Hkey. cbn [mbind option_bind]. rewrite cons_middle, app_assoc in Hok |- *.
    destruct (b_key _ _ _ k Hb1) as (b2 & -> & Hb2); [by eapply data_ok_prefix|]. cbn [mbind option_bind]. rewrite Hstep. cbn [mbind option_bind].
    apply IH; [done..|lia].
Qed.

Lemma copied_done n c d : c_rep c d → data_ok d → MergeCursor.remaining d < n →
  ∃ b out, copy_keys check predicate timestamp n c new_builder = Some b ∧ MergeCursor.done (Builder := BU) b = Some out
    ∧ o_rep out (stamped d) ∧ data_ok (stamped d).
Proof.
  intros Hc Hd Hn. destruct (copy_stamped_spec n c new_builder d [] Hc Hd b_new (stamped_ok d Hd) Hn) as (b & Hb & Hrep).
  destruct (b_done _ _ Hrep (stamped_ok d Hd)) as (out & Hout & Ho). exists b, out. split_and!; [done..|]. by apply stamped_ok.
Qed.
End copy_spec.

(** ** Correctness of the comparison *)
Section eq_spec.
Context `{OK : Ord K} `{OV : Ord V} `{OT : Ord T} `{MR : MonoidValue R}.
Context `{CU1 : Cursor C1 K V T R} {CS1 : CursorSpec C1 K V T R} {WS1 : WeightSpec C1 K V T R} `{CU2 : Cursor C2 K V T R} {CS2 : CursorSpec C2 K V T R} {WS2 : WeightSpec C2 K V T R}.
Context (Hunit : ∀ t t' : T, t = t').
Implicit Types (vs : Vals V T R) (d : Data K V T R).

Lemma eq_vals_spec k d1 d2 n : ∀ (c1 : C1) (c2 : C2) vs1 vs2, c_rep c1 ((k, vs1) :: d1) → c_rep c2 ((k, vs2) :: d2) →
  vals_ok vs1 → vals_ok vs2 → length vs1 < n →
  ∃ r, eq_vals (K := K) (V := V) n c1 c2 = Some r
    ∧ match r with
      | None => vs1 ≠ vs2
      | Some (c1, c2) => vs1 = vs2 ∧ c_rep c1 ((k, []) :: d1) ∧ c_rep c2 ((k, []) :: d2)
      end.
Proof.
  induction n as [|n IH]; intros c1 c2 vs1 vs2 Hc1 Hc2 Hv1 Hv2 Hn; [lia|]. cbn [eq_vals].
  rewrite (cr_val_valid _ _ _ _ Hc1), (cr_val_valid _ _ _ _ Hc2).
  destruct vs1 as [|[v1 ts1] vs1]; [rewrite (bool_decide_eq_true_2 ([] = [])) by done|rewrite (bool_decide_eq_false_2 (_ :: _ = [])) by done];
    (destruct vs2 as [|[v2 ts2] vs2]; [|rewrite (bool_decide_eq_false_2 (_ :: _ = [])) by done]); cbn [negb andb orb].
  - rewrite bool_decide_eq_true_2 by done. cbn [negb]. by exists (Some (c1, c2)).
  - by exists None.
  - rewrite bool_decide_eq_true_2 by done. cbn [negb]. by exists None.
  - destruct Hv1 as [[Hs1 _]%keys_sorted_cons [Ht1 Hts1]%Forall_cons]. destruct Hv2 as [[Hs2 _]%keys_sorted_cons [Ht2 Hts2]%Forall_cons].
    destruct (one_time Hunit ts1 Ht1) as (t1 & r1 & -> & _). destruct (one_time Hunit ts2 Ht2) as (t2 & r2 & -> & _).
    rewrite (cr_val _ _ _ _ _ _ Hc1), (cr_val _ _ _ _ _ _ Hc2). cbn [mbind option_bind].
    case_bool_decide as Hv; cbn [negb]; [|by exists None; split; [|congruence]].
    rewrite (cr_weight _ _ _ _ _ _ _ Hc1), (cr_weight _ _ _ _ _ _ _ Hc2). cbn [mbind option_bind].
    case_bool_decide as Hr; cbn [negb]; [|by exists None; split; [|congruence]].
    destruct (cr_step_val _ _ _ _ _ _ Hc1) as (c1' & -> & Hc1'). destruct (cr_step_val _ _ _ _ _ _ Hc2) as (c2' & -> & Hc2'). cbn [mbind option_bind].
    cbn [length] in Hn. destruct (IH c1' c2' vs1 vs2 Hc1' Hc2' (conj Hs1 Hts1) (conj Hs2 Hts2) ltac:(lia)) as (r & -> & Hend).
    exists r. split; [done|]. destruct r as [[c1'' c2'']|]; [|congruence]. destruct Hend as (-> & ? & ?). subst v2 r2. by rewrite (Hunit t1 t2).
Qed.

Lemma eq_keys_spec n : ∀ (c1 : C1) (c2 : C2) d1 d2, c_rep c1 d1 → c_rep c2 d2 → data_ok d1 → data_ok d2 → MergeCursor.remaining d1 < n →
  ∃ r, eq_keys (K := K) (V := V) n c1 c2 = Some r ∧ (r = true ↔ d1 = d2).
Proof.
  induction n as [|n IH]; intros c1 c2 d1 d2 Hc1 Hc2 Hd1 Hd2 Hn; [lia|]. cbn [eq_keys].
  destruct d1 as [|[k1 vs1] d1]; [rewrite (cr_end _ Hc1)|destruct (cr_key _ _ _ _ Hc1) as [-> Hk1]];
    (destruct d2 as [|[k2 vs2] d2]; [rewrite (cr_end _ Hc2)|destruct (cr_key _ _ _ _ Hc2) as [-> Hk2]]); cbn [andb negb];
    try (by eexists; split; [done|]).
  rewrite Hk1, Hk2. cbn [mbind option_bind]. case_bool_decide as Hk; cbn [negb]; [subst k2|by exists false; split; [|split; [done|congruence]]].
  destruct Hd1 as [[Hs1 _]%keys_sorted_cons [[Hv1 _] Hd1]%Forall_cons]. destruct Hd2 as [[Hs2 _]%keys_sorted_cons [[Hv2 _] Hd2]%Forall_cons].
  rewrite remaining_cons in Hn. destruct (eq_vals_spec k1 d1 d2 (S n) c1 c2 vs1 vs2 Hc1 Hc2 Hv1 Hv2 ltac:(lia)) as (r & -> & Hend). cbn [mbind option_bind].
  destruct r as [[c1' c2']|]; [|by exists false; split; [|split; [done|congruence]]]. destruct Hend as (-> & Hc1' & Hc2').
  destruct (cr_step_key _ _ _ _ Hc1') as (c1'' & -> & Hc1''). destruct (cr_step_key _ _ _ _ Hc2') as (c2'' & -> & Hc2''). cbn [mbind option_bind].
  destruct (IH c1'' c2'' d1 d2 Hc1'' Hc2'' (conj Hs1 Hd1) (conj Hs2 Hd2) ltac:(lia)) as (r & -> & Hr). exists r. split; [done|]. rewrite Hr.
  split; [by intros ->|congruence].
Qed.
End eq_spec.
