(* ===== verification/VecLayers.v ===== *)
(** What the in-memory batches share: the parts of a layer, the positions of the cursors of layers and
    leaves, and the loop over the times of a value
    (crates/dbsp/src/trace/layers/leaf.rs, layer.rs and crates/dbsp/src/trace/ord/vec). *)
From Stdlib Require Import Sorting.Sorted.
From S2P Require Import Prelude Sort Quicksort Search LeanVec Consolidation Trie Leaf Layer LayerSpec Cursors MergeCursor.
#[local] Open Scope nat_scope.

(** The values and the times of an untimed set. *)
#[global] Instance Ord_unit : Ord unit.
Proof. refine {| cmp := λ _ _, Eq |}; [by intros [] []|done|done]. Defined.

(** Batches without a consuming cursor of their own: [consuming_cursor] is [merge_cursor]. *)
Inductive NoCursor : Type := .
Definition unreachable {A} (c : NoCursor) : A := match c with end.
#[global] Instance no_cursor {K V T R} : MergeCursor NoCursor K V T R := {|
  key_valid := unreachable; val_valid := unreachable; key := unreachable; val := unreachable; map_times := unreachable;
  step_key := unreachable; step_val := unreachable; has_mut := unreachable; key_mut := unreachable; set_key := unreachable;
  val_mut := unreachable; set_val := unreachable |}.
#[global] Program Instance no_cursor_spec {K V T R} : MergeCursorSpec NoCursor K V T R := {| mc_rep := λ _ c _, unreachable c |}.
Solve Obligations with (intros; match goal with c : NoCursor |- _ => destruct c end).

(** [cursor::Position] *)
Record Position := mkPosition { pos_total : nat; pos_offset : Z }.

(** The debug assertion that the last of the pushed keys is after the one before. *)
Definition last_increasing `{Ord K} (keys : list K) : option bool :=
  let n := length keys in
  if n =? 1 then Some true
  else a ← keys !! (n - 2); b ← keys !! (n - 1); Some (kltb a b).

(** [Leaf::from_parts] and [Layer::from_parts] *)
Definition leaf_from_parts {K R} (keys : list K) (diffs : list R) : option (Leaf K R) :=
  assert! (length keys =? length diffs) in Some (mkLeaf keys diffs).
Definition layer_from_parts {K L} (t_keys : L → nat) (keys : list K) (offs : list nat) (vals : L) : option (Layer K L) :=
  assert! (length keys + 1 =? length offs) in
  last_off ← last offs;
  assert! (last_off =? t_keys vals) in
  Some (mkLayer keys offs vals).

(** [LeafCursor::current_key] and [LeafCursor::current_diff] *)
Definition current_key {K R} (self : LeafCursor K R) : option K :=
  assert! (0 <=? lc_pos self)%Z in leaf_keys (lc_storage self) !! Z.to_nat (lc_pos self).
Definition current_diff {K R} (self : LeafCursor K R) : option R :=
  assert! (0 <=? lc_pos self)%Z in leaf_diffs (lc_storage self) !! Z.to_nat (lc_pos self).

(** The loops of [map_times] and [map_times_through] over the times of a value, from where the cursor is;
    [n] bounds the iterations. *)
Fixpoint times_loop {T R} (n : nat) (select : T → bool) (c : LeafCursor T R) : option (LeafCursor T R * Times T R) :=
  if LeafCursor.valid c then
    match n with
    | O => None
    | S n =>
      t ← current_key c;
      r ← current_diff c;
      '(c, ts) ← times_loop n select (LeafCursor.step c);
      Some (c, if select t then (t, r) :: ts else ts)
    end
  else Some (c, []).
(** [child.rewind()], then the loop. *)
Definition all_times {T R} (select : T → bool) (c : LeafCursor T R) : option (LeafCursor T R * Times T R) :=
  times_loop (LeafCursor.keys c) select (LeafCursor.rewind c).

Lemma last_increasing_snoc `{Ord K} (ks : list K) k : (∀ k', k' ∈ ks → k' ≺ k) → last_increasing (ks ++ [k]) = Some true.
Proof.
  intros Hlt. unfold last_increasing. rewrite length_app. cbn [length]. destruct (Nat.eqb_spec (length ks + 1) 1) as [|Hne]; [done|].
  destruct (lookup_lt_is_Some_2 ks (length ks - 1)) as [a Ha]; [lia|].
  replace (length ks + 1 - 2) with (length ks - 1) by lia. rewrite (lookup_app_l _ _ (length ks - 1)) by lia. rewrite Ha. cbn [mbind option_bind].
  replace (length ks + 1 - 1) with (length ks) by lia. rewrite list_lookup_middle by done. cbn [mbind option_bind].
  f_equal. apply kltb_spec, Hlt. by eapply list_elem_of_lookup_2.
Qed.

(** ** Leaf cursors *)
Section leaf.
Context {T R : Type}.
Implicit Types (l : Leaf T R) (c : LeafCursor T R).

(** The cursor is over the entries from [lo] to [hi], at the entry [i] or at the end. *)
Record leaf_at l (lo hi i : nat) c : Prop := {
  la_wf : leaf_wf l;
  la_storage : lc_storage c = l;
  la_bounds : lc_bounds c = (lo, hi);
  la_pos : lc_pos c = Z.of_nat i;
  la_range : lo ≤ i ≤ hi ∧ hi ≤ length (leaf_ents l) }.

Lemma leaf_at_valid l lo hi i c : leaf_at l lo hi i c → LeafCursor.valid c = (i <? hi).
Proof.
  intros [_ _ Hb Hp Hr]. unfold LeafCursor.valid. rewrite Hb, Hp. cbn [fst snd].
  destruct (Nat.ltb_spec i hi); [apply andb_true_iff|apply andb_false_iff]; lia.
Qed.

Lemma leaf_at_item l lo hi i c k r : leaf_at l lo hi i c → leaf_ents l !! i = Some (k, r) → current_key c = Some k ∧ current_diff c = Some r.
Proof.
  intros [_ Hs _ Hp _] Hi. unfold current_key, current_diff. rewrite Hs, Hp, Nat2Z.id. rewrite (proj2 (Z.leb_le 0 _)) by lia.
  unfold leaf_ents in Hi. rewrite lookup_zip_with in Hi.
  destruct (leaf_keys l !! i) eqn:Ek; [|done]. cbn in Hi. destruct (leaf_diffs l !! i); [|done]. cbn in Hi. by injection Hi as -> ->.
Qed.

Lemma leaf_at_step l lo hi i c : leaf_at l lo hi i c → i < hi → leaf_at l lo hi (S i) (LeafCursor.step c).
Proof.
  intros [Hw Hs Hb Hp Hr] Hi. unfold LeafCursor.step, LeafCursor.valid, LeafCursor.at_pos. cbn [lc_bounds lc_pos lc_storage].
  rewrite Hb, Hp. cbn [fst snd]. destruct (negb _) eqn:E; split; cbn [lc_bounds lc_pos lc_storage]; try done; try lia.
Qed.

Lemma leaf_at_move l lo hi i j c : leaf_at l lo hi i c → lo ≤ j ≤ hi → leaf_at l lo hi j (LeafCursor.at_pos c (Z.of_nat j)).
Proof. intros [Hw Hs Hb Hp Hr] Hj. split; cbn; try done. lia. Qed.

Lemma times_loop_spec l lo hi select n : ∀ i c, leaf_at l lo hi i c → hi - i ≤ n →
  ∃ c', times_loop n select c = Some (c', List.filter (λ p, select p.1) (sub (leaf_ents l) i hi)) ∧ leaf_at l lo hi hi c'.
Proof.
  induction n as [|n IH]; intros i c Hc Hn; cbn [times_loop]; rewrite (leaf_at_valid _ _ _ _ _ Hc);
    destruct (Nat.ltb_spec i hi) as [Hi|Hi]; [lia|..];
    try (assert (i = hi) as -> by (destruct Hc; lia); exists c; by rewrite sub_nil).
  destruct (lookup_lt_is_Some_2 (leaf_ents l) i) as [[t r] Hr]; [destruct Hc; lia|].
  destruct (leaf_at_item _ _ _ _ _ _ _ Hc Hr) as [-> ->]. cbn [mbind option_bind].
  destruct (IH (S i) _ (leaf_at_step _ _ _ _ _ Hc Hi) ltac:(lia)) as (c' & -> & Hc'). cbn [mbind option_bind].
  exists c'. split; [|done]. rewrite (sub_cons _ _ _ _ Hr Hi). cbn [List.filter fst]. by destruct (select t).
Qed.

Lemma all_times_spec l lo hi i select c : leaf_at l lo hi i c →
  ∃ c', all_times select c = Some (c', List.filter (λ p, select p.1) (sub (leaf_ents l) lo hi)) ∧ leaf_at l lo hi hi c'.
Proof.
  intros Hc. unfold all_times. apply times_loop_spec.
  - unfold LeafCursor.rewind. pose proof (leaf_at_move _ _ _ _ lo _ Hc) as Hm. destruct Hc as [Hw Hs Hb Hp Hr]. rewrite Hb. cbn [fst]. apply Hm. lia.
  - unfold LeafCursor.keys. destruct Hc as [_ _ -> _ _]. cbn. lia.
Qed.

Lemma leaf_at_new l lo hi : leaf_wf l → lo ≤ hi → hi ≤ length (leaf_ents l) → leaf_at l lo hi lo (LeafCursor.new lo l (lo, hi)).
Proof. intros Hw Hl Hh. split; cbn; try done. Qed.
End leaf.

(** ** Layer cursors *)
Section layer.
Context `{OK : Ord K} `{SP : TrieSpec L B C V LK E J R}.
Implicit Types (l : Layer K L) (c : LayerCursor K L C) (es : list (K * list E)).

(** The cursor is over the keys from [lo] to [hi], at the key [i] or at the end. *)
Record layer_at es l (lo hi i : nat) c : Prop := {
  ya_repr : lrepr es l;
  ya_storage : ly_storage c = l;
  ya_bounds : ly_bounds c = (lo, hi);
  ya_pos : ly_pos c = Z.of_nat i;
  ya_range : lo ≤ i ≤ hi ∧ hi ≤ length es;
  ya_child : c_of (ly_child c) (l_vals l) }.

(** The range of the entries below the key [i]. *)
Definition range_of es (i : nat) : nat * nat := (total (take i es.*2), total (take (i + 1) es.*2)).
Definition child_at es l (i : nat) (child : C) : Prop :=
  Trie.cursor_from (l_vals l) (range_of es i).1 (range_of es i).2 = Some child.

Lemma layer_at_valid es l lo hi i c : layer_at es l lo hi i c → LayerCursor.valid c = (i <? hi).
Proof.
  intros [_ _ Hb Hp Hr _]. unfold LayerCursor.valid. rewrite Hb, Hp. cbn [fst snd].
  destruct (Nat.ltb_spec i hi); [apply andb_true_iff|apply andb_false_iff]; lia.
Qed.

Lemma at_index_nat {A} (xs : list A) (i : nat) : LayerCursor.at_index xs (Z.of_nat i) = xs !! i.
Proof. unfold LayerCursor.at_index. rewrite (proj2 (Z.ltb_ge _ _)) by lia. by rewrite Nat2Z.id. Qed.

Lemma layer_at_item es l lo hi i c k p : layer_at es l lo hi i c → es !! i = Some (k, p) → LayerCursor.item c = Some k.
Proof.
  intros [[_ Hr] Hs _ Hp _ _] Hi. unfold LayerCursor.item. rewrite Hp, Hs, at_index_nat. by eapply repr_key.
Qed.

(** The child of a cursor that arrives at the key [i]. *)
Lemma layer_at_arrive es l lo hi i c c' k p : layer_at es l lo hi i c → i < hi → es !! i = Some (k, p) →
  LayerCursor.child_reposition c = Some c' → layer_at es l lo hi i c' ∧ child_at es l i (ly_child c').
Proof.
  intros [[Hw Hr] Hs Hb Hp Hrange Hof] Hi He Hrep. destruct (repr_payload _ _ _ _ _ _ _ Hr He) as (Hlo & Hhi & Hlt & Hle & _).
  unfold LayerCursor.child_reposition in Hrep. rewrite Hs, Hp, at_index_nat, Hlo in Hrep. cbn [mbind option_bind] in Hrep.
  replace (Z.of_nat i + 1)%Z with (Z.of_nat (i + 1)) in Hrep by lia. rewrite at_index_nat, Hhi in Hrep. cbn [mbind option_bind] in Hrep.
  rewrite (reposition_ok (l_vals l)) in Hrep by done.
  destruct (Trie.cursor_from (l_vals l) _ _) as [child|] eqn:Ec; [|done]. injection Hrep as <-.
  split; [split; cbn; try done; by eapply cursor_of|done].
Qed.

Lemma child_reposition_some es l lo hi i c k p : layer_at es l lo hi i c → es !! i = Some (k, p) → is_Some (LayerCursor.child_reposition c).
Proof.
  intros [[Hw Hr] Hs Hb Hp Hrange Hof] He. destruct (repr_payload _ _ _ _ _ _ _ Hr He) as (Hlo & Hhi & Hlt & Hle & _).
  unfold LayerCursor.child_reposition. rewrite Hs, Hp, at_index_nat, Hlo. cbn [mbind option_bind].
  replace (Z.of_nat i + 1)%Z with (Z.of_nat (i + 1)) by lia. rewrite at_index_nat, Hhi. cbn [mbind option_bind].
  rewrite (reposition_ok (l_vals l)) by done. destruct (cursor_ok (l_vals l) _ _ Hw (Nat.lt_le_incl _ _ Hlt) Hle) as [child ->]. by eexists.
Qed.

Lemma layer_at_pos es l lo hi i j c : layer_at es l lo hi i c → lo ≤ j ≤ hi → layer_at es l lo hi j (LayerCursor.at_pos c (Z.of_nat j)).
Proof. intros [Hr Hs Hb Hp Hrange Hof] Hj. split; cbn; try done. lia. Qed.

Lemma layer_at_step es l lo hi i c : layer_at es l lo hi i c → i < hi →
  ∃ c', LayerCursor.step c = Some c' ∧ layer_at es l lo hi (S i) c' ∧ (S i < hi → child_at es l (S i) (ly_child c')).
Proof.
  intros Hc Hi. pose proof Hc as [_ _ Hb Hp Hrange _]. pose proof (layer_at_pos _ _ _ _ _ (S i) _ Hc ltac:(lia)) as Hc1.
  unfold LayerCursor.step. rewrite Hp. replace (Z.of_nat i + 1)%Z with (Z.of_nat (S i)) by lia. cbn [LayerCursor.at_pos ly_pos ly_bounds]. rewrite Hb. cbn [snd].
  destruct (Z.ltb_spec (Z.of_nat (S i)) (Z.of_nat hi)) as [Hlt|Hge].
  - destruct (lookup_lt_is_Some_2 es (S i)) as [[k p] He]; [lia|].
    destruct (child_reposition_some _ _ _ _ _ _ _ _ Hc1 He) as [c' Hr]. destruct (layer_at_arrive _ _ _ _ _ _ _ _ _ Hc1 ltac:(lia) He Hr).
    by exists c'.
  - assert (S i = hi) as Hhi by lia. eexists. split; [done|]. split; [|lia]. rewrite Hhi in Hc1 |- *. exact Hc1.
Qed.

(** A new cursor over some keys. *)
Lemma layer_at_new es l lo hi : lrepr es l → lo < hi → hi ≤ length es →
  ∃ c, Layer.cursor_from l lo hi = Some c ∧ layer_at es l lo hi lo c ∧ child_at es l lo (ly_child c).
Proof.
  intros [Hw Hr] Hlt Hhi. destruct (lookup_lt_is_Some_2 es lo) as [[k p] He]; [lia|].
  destruct (repr_payload _ _ _ _ _ _ _ Hr He) as (Hlo & Hhi' & Hlt' & Hle & _). unfold Layer.cursor_from. rewrite (proj2 (Nat.ltb_lt _ _) Hlt), Hlo.
  cbn [mbind option_bind]. rewrite Hhi'. cbn [mbind option_bind]. destruct (cursor_ok (l_vals l) _ _ Hw (Nat.lt_le_incl _ _ Hlt') Hle) as [child Hc].
  rewrite Hc. cbn [mbind option_bind]. eexists. split; [done|]. split; [|done]. split; cbn; try done; [lia|by eapply cursor_of].
Qed.

Lemma layer_at_empty l : lrepr [] l → ∃ c, Layer.cursor_from l 0 0 = Some c ∧ layer_at [] l 0 0 0 c.
Proof.
  intros [Hw Hr]. unfold Layer.cursor_from. cbn [Nat.ltb Nat.leb]. destruct (cursor_ok (l_vals l) 0 0 Hw) as [child Hc]; [lia..|].
  rewrite Hc. cbn [mbind option_bind]. eexists. split; [done|]. split; cbn; try done. by eapply cursor_of.
Qed.

(** The cursor over a whole layer. *)
Lemma layer_at_all es l : lrepr es l →
  ∃ c, Layer.cursor_from l 0 (Layer.keys l) = Some c ∧ layer_at es l 0 (length es) 0 c ∧ (0 < length es → child_at es l 0 (ly_child c)).
Proof.
  intros Hr. assert (Layer.keys l = length es) as -> by (destruct Hr as [_ (Hk & _)]; unfold Layer.keys; by rewrite Hk, length_fmap).
  destruct es as [|e es].
  - destruct (layer_at_empty l Hr) as (c & ? & ?). exists c. split_and!; try done. cbn. lia.
  - destruct (layer_at_new (e :: es) l 0 (length (e :: es)) Hr) as (c & ? & ? & ?); [cbn; lia|done|]. by exists c.
Qed.

(** The range of a key. *)
Lemma range_payload es l i k p : lrepr es l → es !! i = Some (k, p) →
  (range_of es i).1 < (range_of es i).2 ∧ (range_of es i).2 ≤ length (ents (l_vals l))
  ∧ sub (ents (l_vals l)) (range_of es i).1 (range_of es i).2 = p ∧ p ≠ [].
Proof. intros [_ Hr] He. by destruct (repr_payload _ _ _ _ _ _ _ Hr He) as (_ & _ & ? & ? & ? & ?). Qed.
End layer.

(** ** Values of the one time *)
Section untimed.
Context {V R : Type}.
Definition val_entry (p : V * R) : V * Times unit R := (p.1, [((), p.2)]).
(** The values and weights [p] as values with their times. *)
Definition untimed (p : list (V * R)) : Vals V unit R := val_entry <$> p.

Lemma untimed_inj (p q : list (V * R)) : untimed p = untimed q → p = q.
Proof. apply list_fmap_eq_inj. intros [v r] [v' r'] [= -> ->]. done. Qed.
Lemma untimed_keys (p : list (V * R)) : (untimed p).*1 = p.*1.
Proof. unfold untimed. by rewrite <- list_fmap_compose. Qed.
Lemma untimed_nil (p : list (V * R)) : untimed p = [] ↔ p = [].
Proof. by destruct p. Qed.
End untimed.

Lemma unit_times `{MonoidValue R} (ts : Times unit R) : times_ok ts → ∃ r, ts = [((), r)] ∧ r ≠ mzero.
Proof.
  intros [Hc Hne]. destruct ts as [|[[] r] [|[[] r'] ts]]; [done| |].
  - exists r. split; [done|]. by apply canonical_cons_inv in Hc as (_ & ? & _).
  - exfalso. apply canonical_cons_inv in Hc as (_ & _ & Hlt). apply (klt_irrefl ()). apply Hlt. left.
Qed.

(** ** Chunks *)
Lemma sorted_lt_lookup (l : list nat) : ∀ i j x y, StronglySorted lt l → l !! i = Some x → l !! j = Some y → i < j → x < y.
Proof.
  induction l as [|a l IH]; intros [|i] [|j] x y Hs Hx Hy Hij; try done; try lia; inversion Hs as [|?? Hs' Hf]; subst.
  - cbn in Hx, Hy. injection Hx as ->. rewrite Forall_forall in Hf. apply Hf. by eapply list_elem_of_lookup_2.
  - eapply (IH i j); [done..|lia].
Qed.

Lemma chunks_lookup {E} (es : list E) : ∀ offs n a b, offs !! n = Some a → offs !! (S n) = Some b → chunks offs es !! n = Some (sub es a b).
Proof.
  induction offs as [|o [|o' offs] IH]; intros [|n] a b Ha Hb; try done.
  - cbn in Ha, Hb. by injection Ha as ->; injection Hb as ->.
  - change (chunks (o :: o' :: offs) es) with (sub es o o' :: chunks (o' :: offs) es). cbn [lookup list_lookup]. by apply IH.
Qed.

Lemma sub_insert {A} (l : list A) j x a b : j < a → sub (<[j := x]> l) a b = sub l a b.
Proof. intros Hj. unfold sub. f_equal. by apply drop_insert_lt. Qed.

Lemma chunks_insert {E} (es : list E) offs i j x : StronglySorted lt offs → (∀ o, offs !! i = Some o → j < o) →
  drop i (chunks offs (<[j := x]> es)) = drop i (chunks offs es).
Proof.
  revert i. induction offs as [|o [|o' offs] IH]; intros i Hs Hj; [done..|].
  change (chunks (o :: o' :: offs) (<[j := x]> es)) with (sub (<[j := x]> es) o o' :: chunks (o' :: offs) (<[j := x]> es)).
  change (chunks (o :: o' :: offs) es) with (sub es o o' :: chunks (o' :: offs) es).
  inversion Hs as [|?? Hs' Hf]; subst. destruct i as [|i]; cbn [drop].
  - rewrite sub_insert by (by apply Hj). f_equal. apply (IH 0 Hs'). intros o1 [= ->]. apply Forall_cons in Hf as [Hlt _].
    specialize (Hj o eq_refl). lia.
  - apply IH; [done|]. intros o1 Ho. by apply Hj.
Qed.

Lemma select_all {A} (l : list A) : List.filter (λ _, true) l = l.
Proof. induction l as [|x l IH]; [done|]. cbn. by f_equal. Qed.

(** The last of the pairs of a value. *)
Lemma last_time_ok `{Ord V} `{Ord T} `{MonoidValue R} (vs : Vals V T R) v ts t r : vals_ok (vs ++ [(v, ts ++ [(t, r)])]) → r ≠ mzero.
Proof.
  intros [_ Hf]. rewrite fmap_app in Hf. apply Forall_app in Hf as [_ [[Hc _] _]%Forall_cons]. cbn [snd] in Hc.
  apply canonical_app in Hc as (_ & Hc & _). by apply canonical_cons_inv in Hc as (_ & ? & _).
Qed.

(** The constructions from vectors succeed. *)
Lemma leaf_from_parts_ok {K R} (es : list (K * R)) :
  leaf_from_parts es.*1 es.*2 = Some (mkLeaf es.*1 es.*2) ∧ leaf_wf (mkLeaf es.*1 es.*2) ∧ leaf_ents (mkLeaf es.*1 es.*2) = es.
Proof.
  unfold leaf_from_parts, leaf_wf, leaf_ents. cbn [leaf_keys leaf_diffs]. rewrite !length_fmap, Nat.eqb_refl. split_and!; [done..|apply zip_fst_snd].
Qed.

Lemma layer_from_parts_ok {K L E} (t_keys : L → nat) (es : list (K * list E)) keys offs (ents : list E) (vals : L) :
  repr es keys offs ents → t_keys vals = length ents → layer_from_parts t_keys keys offs vals = Some (mkLayer keys offs vals).
Proof.
  intros Hr Ht. destruct (repr_offs_ok _ _ _ _ Hr) as (Hlen & _ & _ & Hlast). unfold layer_from_parts.
  rewrite Hlen, Nat.add_1_r, Nat.eqb_refl, Hlast. cbn [mbind option_bind]. by rewrite Ht, Nat.eqb_refl.
Qed.
