(* ===== verification/VecWSet.v ===== *)
(** Weighted sets in memory: keys with a weight (crates/dbsp/src/trace/ord/vec/wset_batch.rs).

    The batch is a leaf of keys and weights; every key has the one value [()] at the one time [()]. *)
From Stdlib Require Import Sorting.Sorted.
From S2P Require Import Prelude Sort Quicksort Search LeanVec Consolidation Trie Leaf LayerSpec Cursors MergeCursor Batch BatchSpec VecLayers.
#[local] Open Scope nat_scope.

Module VecWSet.
Section ops.
Context `{Ord K} `{MonoidValue R}.
(** The sizes of keys, for the search, and the default key, which is left behind where one is moved out. *)
Context (sk : nat) (default_key : K).

Record VecWSet := mk { layer : Leaf K R }.
Implicit Types (self : VecWSet).

Definition w_len self : nat := Leaf.len (layer self).
Definition w_is_empty self : bool := Leaf.is_empty (layer self).
Definition w_key_count self : nat := Leaf.len (layer self).
Definition neg_by_ref (neg : R → R) self : VecWSet := mk (Leaf.neg_by_ref neg (layer self)).

(** *** The cursor *)
Record VecWSetCursor := mkCursor { valid : bool; leaf_cursor : LeafCursor K R }.
Implicit Types (c : VecWSetCursor).

Definition w_cursor self : option VecWSetCursor :=
  Some (mkCursor true (LeafCursor.new 0 (layer self) (0, Leaf.len (layer self)))).

Definition key_valid c : bool := LeafCursor.valid (leaf_cursor c).
Definition val_valid c : bool := valid c.
Definition key c : option K := current_key (leaf_cursor c).
Definition val (_ : VecWSetCursor) : option unit := Some ().
Definition map_times c : option (VecWSetCursor * Times unit R) :=
  if LeafCursor.valid (leaf_cursor c) then r ← current_diff (leaf_cursor c); Some (c, [((), r)]) else Some (c, []).
Definition map_times_through c (_ : unit) : option (VecWSetCursor * Times unit R) := map_times c.
Definition weight c : option R := assert! (LeafCursor.valid (leaf_cursor c)) in current_diff (leaf_cursor c).
Definition map_values c : option (list (unit * R)) :=
  if val_valid c then r ← current_diff (leaf_cursor c); Some [((), r)] else Some [].
Definition step_key c : option VecWSetCursor := Some (mkCursor true (LeafCursor.step (leaf_cursor c))).
Definition step_key_reverse c : option VecWSetCursor := Some (mkCursor true (LeafCursor.step_reverse (leaf_cursor c))).
Definition seek_key c (k : K) : option VecWSetCursor := lc ← LeafCursor.seek sk (leaf_cursor c) k; Some (mkCursor true lc).
Definition seek_key_exact c (k : K) : option (VecWSetCursor * bool) :=
  c ← seek_key c k;
  if key_valid c then k' ← key c; Some (c, bool_decide (k' = k)) else Some (c, false).
Definition seek_key_with c (p : K → bool) : option VecWSetCursor :=
  lc ← LeafCursor.seek_key_with sk (leaf_cursor c) p; Some (mkCursor true lc).
Definition seek_key_with_reverse c (p : K → bool) : option VecWSetCursor :=
  lc ← LeafCursor.seek_key_with_reverse sk (leaf_cursor c) p; Some (mkCursor true lc).
Definition seek_key_reverse c (k : K) : option VecWSetCursor :=
  lc ← LeafCursor.seek_reverse sk (leaf_cursor c) k; Some (mkCursor true lc).
Definition step_val c : option VecWSetCursor := Some (mkCursor false (leaf_cursor c)).
Definition seek_val c (_ : unit) : VecWSetCursor := c.
Definition seek_val_with c (p : unit → bool) : VecWSetCursor := if negb (p ()) then mkCursor false (leaf_cursor c) else c.
Definition rewind_keys c : VecWSetCursor := mkCursor true (LeafCursor.rewind (leaf_cursor c)).
Definition fast_forward_keys c : VecWSetCursor := mkCursor true (LeafCursor.fast_forward (leaf_cursor c)).
Definition rewind_vals c : VecWSetCursor := mkCursor true (leaf_cursor c).
Definition step_val_reverse c : VecWSetCursor := mkCursor false (leaf_cursor c).
Definition seek_val_reverse c (_ : unit) : VecWSetCursor := c.
Definition seek_val_with_reverse c (p : unit → bool) : VecWSetCursor := if negb (p ()) then mkCursor false (leaf_cursor c) else c.
Definition fast_forward_vals c : VecWSetCursor := mkCursor true (leaf_cursor c).
Definition position c : Position := mkPosition (LeafCursor.keys (leaf_cursor c)) (LeafCursor.position (leaf_cursor c)).

(** *** The builder *)
Record VecWSetBuilder := mkBuilder { keys : list K; b_val : bool; diffs : list R }.
Implicit Types (b : VecWSetBuilder).

Definition with_capacity : VecWSetBuilder := mkBuilder [] false [].
Definition pushed_key b : option VecWSetBuilder :=
  assert! (b_val b) in
  assert! (length (keys b) =? length (diffs b)) in
  let b := mkBuilder (keys b) false (diffs b) in
  increasing ← last_increasing (keys b);
  assert! increasing in Some b.
Definition pushed_diff b : option VecWSetBuilder :=
  assert! (negb (b_val b)) in
  assert! (length (keys b) + 1 =? length (diffs b)) in Some b.
Definition push_key b (k : K) : option VecWSetBuilder := pushed_key (mkBuilder (keys b ++ [k]) (b_val b) (diffs b)).
Definition push_key_mut b (k : K) : option (VecWSetBuilder * K) :=
  b ← pushed_key (mkBuilder (keys b ++ [k]) (b_val b) (diffs b)); Some (b, default_key).
Definition push_val b (_ : unit) : option VecWSetBuilder :=
  assert! (negb (b_val b)) in
  assert! (length (diffs b) =? length (keys b) + 1) in
  Some (mkBuilder (keys b) true (diffs b)).
Definition push_val_mut b (v : unit) : option (VecWSetBuilder * unit) := b ← push_val b v; Some (b, v).
Definition push_time_diff b (_ : unit) (w : R) : option VecWSetBuilder :=
  assert! (negb (is_zero w)) in
  pushed_diff (mkBuilder (keys b) (b_val b) (diffs b ++ [w])).
Definition push_time_diff_mut b (t : unit) (w : R) : option VecWSetBuilder := push_time_diff b t w.
Definition done b : option VecWSet :=
  assert! (length (keys b) =? length (diffs b)) in
  l ← leaf_from_parts (keys b) (diffs b); Some (mk l).
Definition num_keys b : nat := length (keys b).
Definition num_tuples b : nat := length (diffs b).

(** *** The consuming cursor *)
Record VecWSetConsumingCursor := mkConsuming { wset : VecWSet; index : nat; cc_val_valid : bool; value : unit }.
Implicit Types (cc : VecWSetConsumingCursor).

Definition consuming_new (wset : VecWSet) : VecWSetConsumingCursor := mkConsuming wset 0 (negb (w_is_empty wset)) ().
Definition cc_key_valid cc : bool := index cc <? length (leaf_keys (layer (wset cc))).
Definition cc_key cc : option K := leaf_keys (layer (wset cc)) !! index cc.
Definition cc_val (_ : VecWSetConsumingCursor) : option unit := Some ().
Definition cc_weight cc : option R := leaf_diffs (layer (wset cc)) !! index cc.
Definition cc_map_times cc : option (VecWSetConsumingCursor * Times unit R) := r ← cc_weight cc; Some (cc, [((), r)]).
(** Writing through [key_mut] and [val_mut]. *)
Definition cc_set_key cc (k : K) : option VecWSetConsumingCursor :=
  assert! (index cc <? length (leaf_keys (layer (wset cc)))) in
  Some (mkConsuming (mk (mkLeaf (<[index cc := k]> (leaf_keys (layer (wset cc)))) (leaf_diffs (layer (wset cc))))) (index cc) (cc_val_valid cc) (value cc)).
Definition cc_val_mut cc : option unit := Some (value cc).
Definition cc_set_val cc (v : unit) : option VecWSetConsumingCursor := Some (mkConsuming (wset cc) (index cc) (cc_val_valid cc) v).
Definition cc_step_key cc : option VecWSetConsumingCursor :=
  let cc := mkConsuming (wset cc) (index cc + 1) (cc_val_valid cc) (value cc) in
  Some (mkConsuming (wset cc) (index cc) (cc_key_valid cc) (value cc)).
Definition cc_step_val cc : option VecWSetConsumingCursor := Some (mkConsuming (wset cc) (index cc) false (value cc)).
End ops.
#[global] Arguments VecWSet : clear implicits.
#[global] Arguments VecWSetCursor : clear implicits.
#[global] Arguments VecWSetBuilder : clear implicits.
#[global] Arguments VecWSetConsumingCursor : clear implicits.

(** *** The traits *)
Section traits.
Context `{OK : Ord K} `{MR : MonoidValue R} (default_key : K).

#[export] Instance wset_cursor : Cursor (VecWSetCursor K R) K unit unit R := {|
  Cursor.key_valid := key_valid; Cursor.val_valid := val_valid; Cursor.key := key; Cursor.val := val;
  Cursor.map_times := map_times; Cursor.weight := weight; Cursor.step_key := step_key; Cursor.step_val := step_val |}.
#[export] Instance wset_reader : BatchReader (VecWSet K R) (VecWSetCursor K R) K unit unit R := {|
  key_count := w_key_count; len := w_len; Batch.cursor := w_cursor |}.
#[export] Instance wset_builder : Builder (VecWSetBuilder K R) (VecWSet K R) K unit unit R := {|
  new_builder := with_capacity;
  MergeCursor.push_time_diff := push_time_diff; MergeCursor.push_time_diff_mut := push_time_diff_mut;
  MergeCursor.push_val := push_val; MergeCursor.push_val_mut := push_val_mut;
  MergeCursor.push_key := push_key; MergeCursor.push_key_mut := push_key_mut default_key;
  MergeCursor.done := done |}.
#[export] Instance wset_consuming : MergeCursor (VecWSetConsumingCursor K R) K unit unit R := {|
  MergeCursor.key_valid := cc_key_valid; MergeCursor.val_valid := cc_val_valid; MergeCursor.key := cc_key; MergeCursor.val := cc_val;
  MergeCursor.map_times := cc_map_times; MergeCursor.step_key := cc_step_key; MergeCursor.step_val := cc_step_val;
  MergeCursor.has_mut := λ _, true; MergeCursor.key_mut := cc_key; MergeCursor.set_key := cc_set_key;
  MergeCursor.val_mut := cc_val_mut; MergeCursor.set_val := cc_set_val |}.

Definition w_consuming_cursor (self : VecWSet K R) (key_filter : option (K → bool)) (value_filter : option (unit → bool)) :
    option (BoxCursor (VecWSetCursor K R) (VecWSetConsumingCursor K R) K unit) :=
  match key_filter, value_filter with
  | None, None => Some (BoxConsuming (consuming_new self))
  | _, _ => merge_cursor self key_filter value_filter
  end.
#[export] Instance wset_batch : Batch (VecWSet K R) (VecWSetBuilder K R) (VecWSetCursor K R) (VecWSetConsumingCursor K R) K unit unit R := {|
  consuming_cursor := w_consuming_cursor |}.
End traits.
End VecWSet.

(** ** The set keeps the promises of the traits *)
#[export] Existing Instance VecWSet.wset_cursor.
#[export] Existing Instance VecWSet.wset_reader.
#[export] Existing Instance VecWSet.wset_consuming.

Section wset_spec.
Context `{OK : Ord K} `{MR : MonoidValue R} (default_key : K).
Implicit Types (es : list (K * R)) (d : Data K unit unit R).
Import VecWSet.
#[local] Existing Instance wset_builder.
#[local] Existing Instance wset_batch.

Definition wset_entry (p : K * R) : K * Vals unit unit R := (p.1, [((), [((), p.2)])]).
(** The keys and weights [es] as a sequence. *)
Definition wset_data es : Data K unit unit R := wset_entry <$> es.

(** What is left for a cursor at [es] whose value may have been passed. *)
Definition wset_rest (valid : bool) es : Data K unit unit R :=
  match es with
  | [] => []
  | (k, r) :: es => (k, if valid then [((), [((), r)])] else []) :: wset_data es
  end.

Lemma wset_rest_valid es : wset_rest true es = wset_data es.
Proof. by destruct es as [|[]]. Qed.

Definition wset_cursor_rep (c : VecWSetCursor K R) d : Prop :=
  ∃ l i, leaf_at l 0 (length (leaf_ents l)) i (leaf_cursor c) ∧ d = wset_rest (valid c) (drop i (leaf_ents l)).

Lemma wset_cursor_inv c k vs d : wset_cursor_rep c ((k, vs) :: d) →
  ∃ l i r, leaf_at l 0 (length (leaf_ents l)) i (leaf_cursor c) ∧ leaf_ents l !! i = Some (k, r)
    ∧ vs = (if valid c then [((), [((), r)])] else []) ∧ d = wset_data (drop (S i) (leaf_ents l)).
Proof.
  intros (l & i & Hat & Hd). destruct (leaf_ents l !! i) as [[k' r]|] eqn:Hi.
  - rewrite (drop_S _ _ _ Hi) in Hd. cbn in Hd. injection Hd as -> -> ->. by exists l, i, r.
  - apply lookup_ge_None in Hi. by rewrite drop_ge in Hd.
Qed.

#[export] Program Instance wset_cursor_spec : CursorSpec (VecWSetCursor K R) K unit unit R := {| c_rep := wset_cursor_rep |}.
Next Obligation.
  intros c (l & i & Hat & Hd). cbn. unfold key_valid. rewrite (leaf_at_valid _ _ _ _ _ Hat). apply Nat.ltb_ge.
  destruct (drop i (leaf_ents l)) as [|[]] eqn:E; [|done]. apply (f_equal length) in E. rewrite length_drop in E. cbn in E. lia.
Qed.
Next Obligation.
  intros c k vs d (l & i & r & Hat & Hi & _)%wset_cursor_inv. cbn. unfold key_valid, key. rewrite (leaf_at_valid _ _ _ _ _ Hat).
  split; [by apply Nat.ltb_lt, (lookup_lt_Some _ _ _ Hi)|]. by apply (leaf_at_item _ _ _ _ _ _ _ Hat Hi).
Qed.
Next Obligation. intros c k vs d (l & i & r & _ & _ & -> & _)%wset_cursor_inv. cbn. unfold val_valid. by destruct (valid c). Qed.
Next Obligation. by intros c k [] ts vs d _. Qed.
Next Obligation.
  intros c k v ts vs d Hc. pose proof Hc as (l & i & r & Hat & Hi & Hvs & _)%wset_cursor_inv. cbn. unfold map_times.
  rewrite (leaf_at_valid _ _ _ _ _ Hat), (proj2 (Nat.ltb_lt _ _) (lookup_lt_Some _ _ _ Hi)), (proj2 (leaf_at_item _ _ _ _ _ _ _ Hat Hi)).
  cbn [mbind option_bind]. destruct (valid c); [|done]. injection Hvs as -> -> ->. by exists c.
Qed.
Next Obligation.
  intros c k vs d (l & i & r & Hat & Hi & _ & ->)%wset_cursor_inv. eexists. split; [done|]. exists l, (S i). cbn.
  rewrite wset_rest_valid. split; [|done]. apply leaf_at_step; [done|by eapply lookup_lt_Some].
Qed.
Next Obligation.
  intros c k v ts vs d (l & i & r & Hat & Hi & Hvs & ->)%wset_cursor_inv. eexists. split; [done|]. exists l, i. cbn.
  split; [done|]. rewrite (drop_S _ _ _ Hi). cbn. destruct (valid c); [|done]. by injection Hvs as _ _ ->.
Qed.

#[export] Instance wset_weight_spec : WeightSpec (VecWSetCursor K R) K unit unit R.
Proof.
  constructor. intros c k v [] r vs d (l & i & r' & Hat & Hi & Hvs & _)%wset_cursor_inv. cbn. unfold weight.
  rewrite (leaf_at_valid _ _ _ _ _ Hat), (proj2 (Nat.ltb_lt _ _) (lookup_lt_Some _ _ _ Hi)), (proj2 (leaf_at_item _ _ _ _ _ _ _ Hat Hi)).
  destruct (valid c); [|done]. by injection Hvs as -> -> ->.
Qed.

(** *** The builder *)
(** The weight of the key that is being built. *)
Definition wset_pending (b : VecWSetBuilder K R) (vs : Vals unit unit R) (ts : Times unit R) : option (list R) :=
  match vs, ts with
  | [], [] => if b_val b then None else Some []
  | [], [(_, r)] => if b_val b then None else Some [r]
  | [(_, [(_, r)])], [] => if b_val b then Some [r] else None
  | _, _ => None
  end.
Definition wset_builder_rep (b : VecWSetBuilder K R) d vs ts : Prop :=
  ∃ es rs, d = wset_data es ∧ keys b = es.*1 ∧ diffs b = es.*2 ++ rs ∧ wset_pending b vs ts = Some rs.
Definition wset_rep (b : VecWSet K R) d : Prop := leaf_wf (layer b) ∧ d = wset_data (leaf_ents (layer b)) ∧ data_ok d.

Lemma unit_vals_one (vs : Vals unit unit R) v ts : vals_ok (vs ++ [(v, ts)]) → vs = [].
Proof.
  intros [(_ & _ & Hlt)%keys_sorted_app _]. destruct vs as [|[[] ts'] vs]; [done|]. exfalso.
  apply (klt_irrefl ()). apply Hlt; cbn; [by left|destruct v; by left].
Qed.

Lemma wset_push_time b d vs ts t r v : wset_builder_rep b d vs ts → vals_ok (vs ++ [(v, ts ++ [(t, r)])]) →
  ∃ b', push_time_diff b t r = Some b' ∧ wset_builder_rep b' d vs (ts ++ [(t, r)]).
Proof.
  intros (es & rs & -> & Hk & Hd & Hp) Hok. pose proof (unit_vals_one _ _ _ Hok) as ->.
  destruct Hok as [_ [Ht _]%Forall_cons]. destruct (unit_times _ Ht) as (r' & Heq & Hr).
  destruct ts as [|[t0 r0] ts]; [|by destruct ts]. injection Heq as -> ->. cbn in Hp. destruct (b_val b) eqn:Eb; [done|]. injection Hp as <-.
  unfold push_time_diff. rewrite (proj2 (is_zero_false r') Hr). cbn [negb]. unfold pushed_diff. cbn [b_val keys diffs]. rewrite Eb, Hk, Hd, app_nil_r. cbn [negb].
  rewrite length_app, !length_fmap, Nat.eqb_refl. eexists. split; [done|]. exists es, [r']. by split_and!.
Qed.

Lemma wset_push_val b d vs ts v : wset_builder_rep b d vs ts → vals_ok (vs ++ [(v, ts)]) →
  ∃ b', push_val b v = Some b' ∧ wset_builder_rep b' d (vs ++ [(v, ts)]) [].
Proof.
  intros (es & rs & -> & Hk & Hd & Hp) Hok. pose proof (unit_vals_one _ _ _ Hok) as ->. destruct Hok as [_ [Ht _]%Forall_cons].
  cbn [snd] in Ht. destruct (unit_times _ Ht) as (r & -> & _). cbn in Hp. destruct (b_val b) eqn:Eb; [done|]. injection Hp as <-.
  unfold push_val. rewrite Eb, Hk, Hd. cbn [negb]. rewrite length_app, !length_fmap. cbn [length]. rewrite Nat.eqb_refl. eexists. split; [done|].
  exists es, [r]. by split_and!.
Qed.

Lemma wset_push_key b d vs k : wset_builder_rep b d vs [] → data_ok (d ++ [(k, vs)]) →
  ∃ b', push_key b k = Some b' ∧ wset_builder_rep b' (d ++ [(k, vs)]) [] [].
Proof.
  intros (es & rs & -> & Hk & Hd & Hp) [(_ & _ & Hlt)%keys_sorted_app Hf]. rewrite fmap_app in Hf. apply Forall_app in Hf as [_ [[Hvs Hne] _]%Forall_cons].
  destruct vs as [|[[] ts] [|[[] ts'] vs]]; [done| |exfalso; destruct Hvs as [[_ Hv]%keys_sorted_cons _]; by apply (klt_irrefl ()), Hv; left].
  destruct Hvs as [_ [Ht _]%Forall_cons]. cbn [snd] in Ht. destruct (unit_times _ Ht) as (r & -> & _). cbn in Hp. destruct (b_val b) eqn:Eb; [|done]. injection Hp as <-.
  unfold push_key, pushed_key. cbn [b_val keys diffs]. rewrite Eb, Hk, Hd, !length_app, !length_fmap. cbn [length]. rewrite Nat.eqb_refl.
  rewrite last_increasing_snoc.
  - cbn [mbind option_bind]. eexists. split; [done|]. exists (es ++ [(k, r)]), []. cbn. rewrite !fmap_app, app_nil_r. split_and!; try done.
    unfold wset_data. by rewrite fmap_app.
  - intros k' Hk'. apply Hlt; [|cbn; by left]. unfold wset_data. rewrite <- list_fmap_compose. exact Hk'.
Qed.

#[export] Program Instance wset_builder_spec : BuilderSpec (VecWSetBuilder K R) (VecWSet K R) K unit unit R (H := wset_builder default_key) :=
  {| b_rep := wset_builder_rep; o_rep := wset_rep |}.
Next Obligation. by exists [], []. Qed.
Next Obligation. intros b d vs ts t r v. apply wset_push_time. Qed.
Next Obligation. intros b d vs ts t r v. apply wset_push_time. Qed.
Next Obligation. intros b d vs ts v. apply wset_push_val. Qed.
Next Obligation.
  intros b d vs ts v Hb Hok. destruct (wset_push_val b d vs ts v Hb Hok) as (b' & Hp & Hb'). cbn. unfold push_val_mut. rewrite Hp. by exists b', v.
Qed.
Next Obligation. intros b d vs k. apply wset_push_key. Qed.
Next Obligation.
  intros b d vs k Hb Hok. destruct (wset_push_key b d vs k Hb Hok) as (b' & Hp & Hb'). cbn. unfold push_key_mut. unfold push_key in Hp. rewrite Hp. by exists b', default_key.
Qed.
Next Obligation.
  intros b d (es & rs & -> & Hk & Hd & Hp) Hok. cbn in Hp. destruct (b_val b); [done|]. injection Hp as <-. rewrite app_nil_r in Hd.
  cbn. unfold done, leaf_from_parts. rewrite Hk, Hd, !length_fmap, Nat.eqb_refl. cbn [mbind option_bind]. eexists. split; [done|].
  split_and!; cbn; [unfold leaf_wf; cbn; by rewrite !length_fmap| |done]. unfold leaf_ents. cbn. by rewrite zip_fst_snd.
Qed.

(** *** The consuming cursor *)
Definition wset_consuming_rep (m : bool) (cc : VecWSetConsumingCursor K R) d : Prop :=
  m = true ∧ leaf_wf (layer (wset cc))
  ∧ d = wset_rest (cc_val_valid cc) (drop (index cc) (leaf_ents (layer (wset cc)))).

Lemma wset_consuming_inv m cc k vs d : wset_consuming_rep m cc ((k, vs) :: d) →
  leaf_wf (layer (wset cc)) ∧ ∃ r, leaf_keys (layer (wset cc)) !! index cc = Some k ∧ leaf_diffs (layer (wset cc)) !! index cc = Some r
    ∧ leaf_ents (layer (wset cc)) !! index cc = Some (k, r)
    ∧ vs = (if cc_val_valid cc then [((), [((), r)])] else []) ∧ d = wset_data (drop (S (index cc)) (leaf_ents (layer (wset cc)))).
Proof.
  intros (_ & Hw & Hd). split; [done|]. destruct (leaf_ents (layer (wset cc)) !! index cc) as [[k' r]|] eqn:Hi.
  - rewrite (drop_S _ _ _ Hi) in Hd. cbn in Hd. injection Hd as -> -> ->. exists r.
    destruct (leaf_lookup_some (layer (wset cc)) (index cc) Hw) as (k1 & r1 & Hk & Hr & He).
    { rewrite <- leaf_ents_length by done. by eapply lookup_lt_Some. }
    rewrite Hi in He. injection He as <- <-. by split_and!.
  - apply lookup_ge_None in Hi. by rewrite drop_ge in Hd.
Qed.

Lemma zip_insert_drop {A B} (l : list A) (l' : list B) i x y : l' !! i = Some y → i < length l →
  drop i (zip (<[i := x]> l) l') = (x, y) :: drop (S i) (zip l l').
Proof.
  intros Hy Hi. assert (zip (<[i := x]> l) l' !! i = Some (x, y)) as Hl.
  { rewrite lookup_zip_with, list_lookup_insert_eq by done. cbn. by rewrite Hy. }
  rewrite (drop_S _ _ _ Hl). f_equal. apply list_eq. intros j. rewrite !lookup_drop, !lookup_zip_with.
  by rewrite list_lookup_insert_ne by lia.
Qed.

#[export] Program Instance wset_consuming_spec : MergeCursorSpec (VecWSetConsumingCursor K R) K unit unit R := {| mc_rep := wset_consuming_rep |}.
Next Obligation. by intros m c d [-> _]. Qed.
Next Obligation.
  intros m cc (_ & Hw & Hd). cbn. unfold cc_key_valid. apply Nat.ltb_ge.
  destruct (drop (index cc) (leaf_ents (layer (wset cc)))) as [|[]] eqn:E; [|done]. apply (f_equal length) in E.
  rewrite length_drop, leaf_ents_length in E by done. unfold Leaf.len in E. cbn in E. lia.
Qed.
Next Obligation.
  intros m cc k vs d (Hw & r & Hk & _)%wset_consuming_inv. cbn. unfold cc_key_valid, cc_key. split; [|done].
  apply Nat.ltb_lt. by eapply lookup_lt_Some.
Qed.
Next Obligation. intros m cc k vs d (_ & r & _ & _ & _ & -> & _)%wset_consuming_inv. cbn. by destruct (cc_val_valid cc). Qed.
Next Obligation. by intros m c k [] ts vs d _. Qed.
Next Obligation.
  intros m cc k v ts vs d Hc. pose proof Hc as (_ & r & _ & Hr & _ & Hvs & _)%wset_consuming_inv. cbn. unfold cc_map_times, cc_weight. rewrite Hr.
  destruct (cc_val_valid cc); [|done]. injection Hvs as -> -> ->. by exists cc.
Qed.
Next Obligation.
  intros m cc k vs d Hc. pose proof Hc as [-> _]. apply wset_consuming_inv in Hc as (Hw & r & Hk & _ & _ & _ & ->). eexists. split; [done|].
  split_and!; [done..|]. unfold cc_key_valid. cbn [cc_val_valid index wset]. rewrite Nat.add_1_r.
  destruct (drop (S (index cc)) (leaf_ents (layer (wset cc)))) as [|[k' r'] es] eqn:E; [done|]. cbn [wset_rest wset_data fmap list_fmap].
  rewrite (proj2 (Nat.ltb_lt _ _)); [done|]. apply (f_equal length) in E. rewrite length_drop, leaf_ents_length in E by done. unfold Leaf.len in E. cbn in E. lia.
Qed.
Next Obligation.
  intros m cc k v ts vs d Hc. pose proof Hc as [-> _]. apply wset_consuming_inv in Hc as (Hw & r & Hk & _ & Hi & Hvs & ->). eexists. split; [done|].
  split_and!; [done..|]. cbn. rewrite (drop_S _ _ _ Hi). cbn. destruct (cc_val_valid cc); [|done]. by injection Hvs as _ _ ->.
Qed.
Next Obligation.
  intros cc k vs d (Hw & r & Hk & Hr & Hi & -> & ->)%wset_consuming_inv. cbn. unfold cc_key. split; [done|]. intros k'. unfold cc_set_key.
  rewrite (proj2 (Nat.ltb_lt _ _)) by (by eapply lookup_lt_Some). eexists. split; [done|]. split_and!; [done|unfold leaf_wf in *; cbn; by rewrite length_insert|].
  cbn. unfold leaf_ents. cbn. rewrite (zip_insert_drop _ _ _ _ r) by (done || by eapply lookup_lt_Some). done.
Qed.
Next Obligation.
  intros cc k [] ts vs d Hc. cbn. unfold cc_val_mut. destruct (value cc) eqn:Ev. split; [done|]. intros []. eexists. split; [done|].
  by destruct Hc as (_ & Hw & Hd).
Qed.

Lemma wset_data_tuples es : tuples (wset_data es) = (λ '(k, r), ((k, ((), ())), r)) <$> es.
Proof. induction es as [|[k r] es IH]; [done|]. cbn. f_equal. exact IH. Qed.

Lemma wset_cursor_new b : leaf_wf (layer b) → ∃ c, Batch.cursor b = Some c ∧ c_rep c (wset_data (leaf_ents (layer b))).
Proof.
  intros Hw. eexists. split; [done|]. exists (layer b), 0. cbn. rewrite wset_rest_valid. split; [|done].
  rewrite <- leaf_ents_length by done. apply leaf_at_new; [done|lia|done].
Qed.

#[export] Program Instance wset_batch_spec : BatchSpec (VecWSet K R) (VecWSetBuilder K R) (VecWSetCursor K R) (VecWSetConsumingCursor K R) K unit unit R
  (BT := wset_batch default_key).
Next Obligation. by intros b d (_ & _ & ?). Qed.
Next Obligation. intros b d (Hw & -> & _). cbn. unfold w_key_count, wset_data. by rewrite length_fmap, leaf_ents_length. Qed.
Next Obligation. intros b d (Hw & -> & _). cbn. unfold w_len. by rewrite wset_data_tuples, length_fmap, leaf_ents_length. Qed.
Next Obligation. intros b d (Hw & -> & _). by apply wset_cursor_new. Qed.
Next Obligation.
  intros b d kf vf Hb. assert (∃ c m, merge_cursor (CC := VecWSetConsumingCursor K R) b kf vf = Some c ∧ mc_rep m c (filter_data kf vf d)) as (c & m & Hc & Hr).
  { destruct Hb as (Hw & -> & Hok). apply merge_cursor_rep; [done|..].
    - cbn. unfold w_key_count, wset_data. by rewrite length_fmap, leaf_ents_length.
    - cbn. unfold w_len. by rewrite wset_data_tuples, length_fmap, leaf_ents_length.
    - by apply wset_cursor_new. }
  cbn. unfold w_consuming_cursor. destruct kf, vf; try by exists c, m.
  eexists (BoxConsuming _), true. split; [done|]. destruct Hb as (Hw & -> & Hok). rewrite filter_data_none by done. split_and!; [done..|]. cbn.
  unfold w_is_empty, Leaf.is_empty. destruct (leaf_ents (layer b)) as [|[k r] es] eqn:E; [done|]. cbn.
  apply (f_equal length) in E. rewrite leaf_ents_length in E by done. rewrite (proj2 (Nat.eqb_neq _ _)); [done|]. rewrite E. done.
Qed.
End wset_spec.
