(* ===== verification/VecIndexedWSet.v ===== *)
(** Indexed weighted sets in memory: keys with values that have a weight
    (crates/dbsp/src/trace/ord/vec/indexed_wset_batch.rs).

    The batch is a layer of keys over a leaf of values and weights; every value has the one time [()]. *)
From Stdlib Require Import Sorting.Sorted.
From S2P Require Import Prelude Sort Quicksort Search LeanVec Consolidation Trie Leaf Layer LayerSpec Cursors MergeCursor Batch BatchSpec VecLayers.
#[local] Open Scope nat_scope.

Module VecIndexedWSet.
Section ops.
Context `{Ord K} `{Ord V} `{MonoidValue R}.
(** The sizes of keys, values and weights, and the values left behind where one is moved out. *)
Context (sk sv sr : nat) (default_key : K) (default_val : V).
#[local] Instance vals_ops : TrieOps (Leaf V R) (LeafBuilder V R) (LeafCursor V R) V V := leaf_ops sv sr.

Record VecIndexedWSet := mk { layer : Layer K (Leaf V R) }.
Implicit Types (self : VecIndexedWSet).

Definition from_parts (keys : list K) (offs : list nat) (vals : list V) (diffs : list R) : option VecIndexedWSet :=
  l ← leaf_from_parts vals diffs;
  l ← layer_from_parts Leaf.len keys offs l;
  Some (mk l).
Definition w_key_count self : nat := Layer.keys (layer self).
Definition w_len self : nat := Layer.tuples (layer self).
Definition neg_by_ref (neg : R → R) self : VecIndexedWSet := mk (Layer.neg_by_ref (Leaf.neg_by_ref neg) (layer self)).

(** *** The cursor *)
Record VecIndexedWSetCursor := mkCursor { layer_cursor : LayerCursor K (Leaf V R) (LeafCursor V R) }.
Implicit Types (c : VecIndexedWSetCursor).

Definition w_cursor self : option VecIndexedWSetCursor :=
  lc ← Layer.cursor_from (layer self) 0 (Layer.keys (layer self)); Some (mkCursor lc).
Definition new_from self (lower_bound : nat) : option VecIndexedWSetCursor :=
  lc ← Layer.cursor_from (layer self) lower_bound (Layer.keys (layer self)); Some (mkCursor lc).

(** The cursor with its child changed. *)
Definition with_child c (child : LeafCursor V R) : VecIndexedWSetCursor :=
  let lc := layer_cursor c in mkCursor (mkLayerCursor (ly_storage lc) (ly_pos lc) (ly_bounds lc) child).
Definition child c : LeafCursor V R := ly_child (layer_cursor c).

Definition key_valid c : bool := LayerCursor.valid (layer_cursor c).
Definition val_valid c : bool := LeafCursor.valid (child c).
Definition key c : option K := LayerCursor.item (layer_cursor c).
Definition val c : option V := current_key (child c).
Definition map_times c : option (VecIndexedWSetCursor * Times unit R) :=
  if LeafCursor.valid (child c) then r ← current_diff (child c); Some (c, [((), r)]) else Some (c, []).
Definition map_times_through c (_ : unit) : option (VecIndexedWSetCursor * Times unit R) := map_times c.
Definition weight c : option R := assert! (LayerCursor.valid (layer_cursor c)) in current_diff (child c).
Definition step_val c : option VecIndexedWSetCursor := Some (with_child c (LeafCursor.step (child c))).
(** [map_values]; [n] bounds the iterations. *)
Fixpoint values_loop (n : nat) c : option (VecIndexedWSetCursor * list (V * R)) :=
  if val_valid c then
    match n with
    | O => None
    | S n =>
      v ← val c;
      r ← current_diff (child c);
      c ← step_val c;
      '(c, l) ← values_loop n c;
      Some (c, (v, r) :: l)
    end
  else Some (c, []).
Definition map_values c : option (VecIndexedWSetCursor * list (V * R)) := values_loop (LeafCursor.keys (child c)) c.
Definition step_key c : option VecIndexedWSetCursor := lc ← LayerCursor.step (layer_cursor c); Some (mkCursor lc).
Definition step_key_reverse c : option VecIndexedWSetCursor := lc ← LayerCursor.step_reverse (layer_cursor c); Some (mkCursor lc).
Definition seek_key c (k : K) : option VecIndexedWSetCursor := lc ← LayerCursor.seek sk (layer_cursor c) k; Some (mkCursor lc).
Definition seek_key_exact c (k : K) : option (VecIndexedWSetCursor * bool) :=
  c ← seek_key c k;
  if key_valid c then k' ← key c; Some (c, bool_decide (k' = k)) else Some (c, false).
Definition seek_key_with c (p : K → bool) : option VecIndexedWSetCursor := lc ← LayerCursor.seek_with sk (layer_cursor c) p; Some (mkCursor lc).
Definition seek_key_reverse c (k : K) : option VecIndexedWSetCursor := lc ← LayerCursor.seek_reverse sk (layer_cursor c) k; Some (mkCursor lc).
Definition seek_key_with_reverse c (p : K → bool) : option VecIndexedWSetCursor :=
  lc ← LayerCursor.seek_with_reverse sk (layer_cursor c) p; Some (mkCursor lc).
Definition seek_val c (v : V) : option VecIndexedWSetCursor := lc ← LeafCursor.seek sv (child c) v; Some (with_child c lc).
Definition seek_val_with c (p : V → bool) : option VecIndexedWSetCursor := lc ← LeafCursor.seek_key_with sv (child c) p; Some (with_child c lc).
Definition rewind_keys c : option VecIndexedWSetCursor := lc ← LayerCursor.rewind (layer_cursor c); Some (mkCursor lc).
Definition fast_forward_keys c : option VecIndexedWSetCursor := lc ← LayerCursor.fast_forward (layer_cursor c); Some (mkCursor lc).
Definition rewind_vals c : VecIndexedWSetCursor := with_child c (LeafCursor.rewind (child c)).
Definition step_val_reverse c : VecIndexedWSetCursor := with_child c (LeafCursor.step_reverse (child c)).
Definition seek_val_reverse c (v : V) : option VecIndexedWSetCursor := lc ← LeafCursor.seek_reverse sv (child c) v; Some (with_child c lc).
Definition seek_val_with_reverse c (p : V → bool) : option VecIndexedWSetCursor :=
  lc ← LeafCursor.seek_key_with_reverse sv (child c) p; Some (with_child c lc).
Definition fast_forward_vals c : VecIndexedWSetCursor := with_child c (LeafCursor.fast_forward (child c)).
Definition position c : Position := mkPosition (LayerCursor.keys (layer_cursor c)) (LayerCursor.position (layer_cursor c)).

(** *** The builder *)
Record VecIndexedWSetBuilder := mkBuilder { keys : list K; offs : list nat; vals : list V; diffs : list R }.
Implicit Types (b : VecIndexedWSetBuilder).

Definition with_capacity : VecIndexedWSetBuilder := mkBuilder [] [0] [] [].
Definition pushed_key b : option VecIndexedWSetBuilder :=
  let offs := offs b ++ [length (vals b)] in
  o1 ← offs !! (length offs - 1);
  o2 ← offs !! (length offs - 2);
  assert! (o2 <? o1) in
  increasing ← last_increasing (keys b);
  assert! increasing in Some (mkBuilder (keys b) offs (vals b) (diffs b)).
Definition pushed_val b : option VecIndexedWSetBuilder :=
  assert! (length (vals b) =? length (diffs b)) in
  let n := length (vals b) in
  last_n ← last (offs b);
  increasing ← (if n - last_n <? 2 then Some true
                else v2 ← vals b !! (n - 2); v1 ← vals b !! (n - 1); Some (kltb v2 v1));
  assert! increasing in Some b.
Definition pushed_diff b : option VecIndexedWSetBuilder := assert! (length (vals b) + 1 =? length (diffs b)) in Some b.
Definition push_key b (k : K) : option VecIndexedWSetBuilder := pushed_key (mkBuilder (keys b ++ [k]) (offs b) (vals b) (diffs b)).
Definition push_key_mut b (k : K) : option (VecIndexedWSetBuilder * K) := b ← push_key b k; Some (b, default_key).
Definition push_val b (v : V) : option VecIndexedWSetBuilder := pushed_val (mkBuilder (keys b) (offs b) (vals b ++ [v]) (diffs b)).
Definition push_val_mut b (v : V) : option (VecIndexedWSetBuilder * V) := b ← push_val b v; Some (b, default_val).
Definition push_time_diff b (_ : unit) (w : R) : option VecIndexedWSetBuilder :=
  assert! (negb (is_zero w)) in pushed_diff (mkBuilder (keys b) (offs b) (vals b) (diffs b ++ [w])).
Definition push_time_diff_mut b (t : unit) (w : R) : option VecIndexedWSetBuilder := push_time_diff b t w.
Definition push_val_diff b (v : V) (w : R) : option VecIndexedWSetBuilder :=
  assert! (negb (is_zero w)) in pushed_val (mkBuilder (keys b) (offs b) (vals b ++ [v]) (diffs b ++ [w])).
Definition push_val_diff_mut b (v : V) (w : R) : option (VecIndexedWSetBuilder * V) := b ← push_val_diff b v w; Some (b, default_val).
Definition done b : option VecIndexedWSet := from_parts (keys b) (offs b) (vals b) (diffs b).
Definition num_keys b : nat := length (keys b).
Definition num_tuples b : nat := length (diffs b).

(** *** The consuming cursor *)
Record VecIndexedWSetConsumingCursor := mkConsuming { wset : VecIndexedWSet; key_index : nat; val_index : nat; val_max : nat }.
Implicit Types (cc : VecIndexedWSetConsumingCursor).

Definition consuming_new (wset : VecIndexedWSet) : VecIndexedWSetConsumingCursor :=
  mkConsuming wset 0 0 (default 0 (l_offs (layer wset) !! 1)).
Definition cc_key_valid cc : bool := key_index cc <? length (l_keys (layer (wset cc))).
Definition cc_val_valid cc : bool := val_index cc <? val_max cc.
Definition cc_key cc : option K := l_keys (layer (wset cc)) !! key_index cc.
Definition cc_val cc : option V := assert! (cc_val_valid cc) in leaf_keys (l_vals (layer (wset cc))) !! val_index cc.
Definition cc_weight cc : option R := leaf_diffs (l_vals (layer (wset cc))) !! val_index cc.
Definition cc_map_times cc : option (VecIndexedWSetConsumingCursor * Times unit R) := r ← cc_weight cc; Some (cc, [((), r)]).
Definition cc_val_mut cc : option V := leaf_keys (l_vals (layer (wset cc))) !! val_index cc.
(** Writing through [key_mut] and [val_mut]. *)
Definition cc_set_key cc (k : K) : option VecIndexedWSetConsumingCursor :=
  let l := layer (wset cc) in
  assert! (key_index cc <? length (l_keys l)) in
  Some (mkConsuming (mk (mkLayer (<[key_index cc := k]> (l_keys l)) (l_offs l) (l_vals l))) (key_index cc) (val_index cc) (val_max cc)).
Definition cc_set_val cc (v : V) : option VecIndexedWSetConsumingCursor :=
  let l := layer (wset cc) in
  assert! (val_index cc <? length (leaf_keys (l_vals l))) in
  Some (mkConsuming (mk (mkLayer (l_keys l) (l_offs l) (mkLeaf (<[val_index cc := v]> (leaf_keys (l_vals l))) (leaf_diffs (l_vals l)))))
          (key_index cc) (val_index cc) (val_max cc)).
Definition cc_step_key cc : option VecIndexedWSetConsumingCursor :=
  let cc := mkConsuming (wset cc) (key_index cc + 1) (val_index cc) (val_max cc) in
  if cc_key_valid cc then
    lo ← l_offs (layer (wset cc)) !! key_index cc;
    hi ← l_offs (layer (wset cc)) !! (key_index cc + 1);
    Some (mkConsuming (wset cc) (key_index cc) lo hi)
  else Some (mkConsuming (wset cc) (key_index cc) 0 0).
Definition cc_step_val cc : option VecIndexedWSetConsumingCursor := Some (mkConsuming (wset cc) (key_index cc) (val_index cc + 1) (val_max cc)).
End ops.
#[global] Arguments VecIndexedWSet : clear implicits.
#[global] Arguments VecIndexedWSetCursor : clear implicits.
#[global] Arguments VecIndexedWSetBuilder : clear implicits.
#[global] Arguments VecIndexedWSetConsumingCursor : clear implicits.

(** *** The traits *)
Section traits.
Context `{OK : Ord K} `{OV : Ord V} `{MR : MonoidValue R} (sv sr : nat) (default_key : K) (default_val : V).

#[export] Instance indexed_cursor : Cursor (VecIndexedWSetCursor K V R) K V unit R := {|
  Cursor.key_valid := key_valid; Cursor.val_valid := val_valid; Cursor.key := key; Cursor.val := val;
  Cursor.map_times := map_times; Cursor.weight := weight; Cursor.step_key := step_key sv sr; Cursor.step_val := step_val |}.
#[export] Instance indexed_reader : BatchReader (VecIndexedWSet K V R) (VecIndexedWSetCursor K V R) K V unit R := {|
  key_count := w_key_count; len := w_len sv sr; Batch.cursor := w_cursor sv sr |}.
#[export] Instance indexed_builder : Builder (VecIndexedWSetBuilder K V R) (VecIndexedWSet K V R) K V unit R := {|
  new_builder := with_capacity;
  MergeCursor.push_time_diff := push_time_diff; MergeCursor.push_time_diff_mut := push_time_diff_mut;
  MergeCursor.push_val := push_val; MergeCursor.push_val_mut := push_val_mut default_val;
  MergeCursor.push_key := push_key; MergeCursor.push_key_mut := push_key_mut default_key;
  MergeCursor.done := done |}.
#[export] Instance indexed_consuming : MergeCursor (VecIndexedWSetConsumingCursor K V R) K V unit R := {|
  MergeCursor.key_valid := cc_key_valid; MergeCursor.val_valid := cc_val_valid; MergeCursor.key := cc_key; MergeCursor.val := cc_val;
  MergeCursor.map_times := cc_map_times; MergeCursor.step_key := cc_step_key; MergeCursor.step_val := cc_step_val;
  MergeCursor.has_mut := λ _, true; MergeCursor.key_mut := cc_key; MergeCursor.set_key := cc_set_key;
  MergeCursor.val_mut := cc_val_mut; MergeCursor.set_val := cc_set_val |}.

Definition w_consuming_cursor (self : VecIndexedWSet K V R) (key_filter : option (K → bool)) (value_filter : option (V → bool)) :
    option (BoxCursor (VecIndexedWSetCursor K V R) (VecIndexedWSetConsumingCursor K V R) K V) :=
  match key_filter, value_filter with
  | None, None => Some (BoxConsuming (consuming_new self))
  | _, _ => merge_cursor self key_filter value_filter
  end.
#[export] Instance indexed_batch :
    Batch (VecIndexedWSet K V R) (VecIndexedWSetBuilder K V R) (VecIndexedWSetCursor K V R) (VecIndexedWSetConsumingCursor K V R) K V unit R := {|
  consuming_cursor := w_consuming_cursor |}.
End traits.
End VecIndexedWSet.

(** ** The set keeps the promises of the traits *)
#[export] Existing Instance VecIndexedWSet.indexed_consuming.

Section indexed_spec.
Context `{OK : Ord K} `{OV : Ord V} `{MR : MonoidValue R} (sv sr : nat) (Hsv : zst_ok V sv) (Hsr : zst_ok R sr) (default_key : K) (default_val : V).
Implicit Types (es : list (K * list (V * R))) (p : list (V * R)) (l : Layer K (Leaf V R)) (d : Data K V unit R).
Import VecIndexedWSet.
#[local] Existing Instance indexed_builder.
#[local] Instance the_cursor : Cursor (VecIndexedWSetCursor K V R) K V unit R := indexed_cursor sv sr.
#[local] Instance the_reader : BatchReader (VecIndexedWSet K V R) (VecIndexedWSetCursor K V R) K V unit R := indexed_reader sv sr.
#[local] Instance the_vals : TrieSpec (Leaf V R) (LeafBuilder V R) (LeafCursor V R) V V (V * R) V R (OPS := leaf_ops sv sr) := leaf_spec sv sr Hsv Hsr.

#[local] Abbreviation layer_at := (layer_at (K := K) (SP := the_vals)).
#[local] Abbreviation child_at := (child_at (K := K) (OPS := leaf_ops sv sr)).

Definition indexed_entry (e : K * list (V * R)) : K * Vals V unit R := (e.1, untimed e.2).
(** The entries of a layer as a sequence. *)
Definition indexed_data es : Data K V unit R := indexed_entry <$> es.

Lemma indexed_data_drop es i k p : es !! i = Some (k, p) → indexed_data (drop i es) = (k, untimed p) :: indexed_data (drop (S i) es).
Proof. intros Hi. by rewrite (drop_S _ _ _ Hi). Qed.

Lemma indexed_data_ok es : keys_sorted es → Forall (λ e, keys_sorted e.2 ∧ Forall (λ q, q.2 ≠ mzero) e.2 ∧ e.2 ≠ []) es → data_ok (indexed_data es).
Proof.
  intros Hs Hf. unfold data_ok, keys_sorted, indexed_data in *. rewrite <- !list_fmap_compose. split; [exact Hs|]. rewrite Forall_fmap.
  eapply Forall_impl; [exact Hf|]. intros [k q] (Hp & Hr & Hne). cbn in *. split; [|by destruct q]. unfold vals_ok, keys_sorted, untimed in *. rewrite <- !list_fmap_compose. split; [exact Hp|].
  rewrite Forall_fmap. eapply Forall_impl; [exact Hr|]. intros [v r] Hz. cbn in *. split; [|done]. apply canonical_cons; [apply canonical_nil|done|]. by intros ? ?%elem_of_nil.
Qed.

(** *** The cursor *)
Definition indexed_cursor_rep (c : VecIndexedWSetCursor K V R) d : Prop :=
  ∃ es l i, layer_at es l 0 (length es) i (layer_cursor c)
    ∧ ((i = length es ∧ d = [])
       ∨ ∃ k p lo hi j, es !! i = Some (k, p) ∧ leaf_at (l_vals l) lo hi j (child c)
           ∧ d = (k, untimed (sub (leaf_ents (l_vals l)) j hi)) :: indexed_data (drop (S i) es)).

Lemma indexed_cursor_inv c k vs d : indexed_cursor_rep c ((k, vs) :: d) →
  ∃ es l i p lo hi j, layer_at es l 0 (length es) i (layer_cursor c) ∧ es !! i = Some (k, p) ∧ leaf_at (l_vals l) lo hi j (child c)
    ∧ vs = untimed (sub (leaf_ents (l_vals l)) j hi) ∧ d = indexed_data (drop (S i) es).
Proof.
  intros (es & l & i & Hc & [[_ ?]|(k' & p & lo & hi & j & Hi & Hl & Heq)]); [done|]. injection Heq as -> -> ->. by exists es, l, i, p, lo, hi, j.
Qed.

Lemma indexed_val_inv c k v ts vs d : indexed_cursor_rep c ((k, (v, ts) :: vs) :: d) →
  ∃ es l i p lo hi j r, layer_at es l 0 (length es) i (layer_cursor c) ∧ es !! i = Some (k, p) ∧ leaf_at (l_vals l) lo hi j (child c)
    ∧ j < hi ∧ leaf_ents (l_vals l) !! j = Some (v, r) ∧ ts = [((), r)] ∧ vs = untimed (sub (leaf_ents (l_vals l)) (S j) hi)
    ∧ d = indexed_data (drop (S i) es).
Proof.
  intros (es & l & i & p & lo & hi & j & Hc & Hi & Hl & Hvs & ->)%indexed_cursor_inv.
  assert (j < hi) as Hj. { destruct (decide (j < hi)); [done|]. pose proof (la_range _ _ _ _ _ Hl). assert (j = hi) as -> by lia. by rewrite sub_nil in Hvs. }
  destruct (lookup_lt_is_Some_2 (leaf_ents (l_vals l)) j) as [[v' r] Hr]; [pose proof (la_range _ _ _ _ _ Hl); lia|].
  rewrite (sub_cons _ _ _ _ Hr Hj) in Hvs. injection Hvs as -> -> ->. exists es, l, i, p, lo, hi, j, r. by split_and!.
Qed.

(** The cursor arrives at the key [i]. *)
Lemma indexed_at es l i (lc : LayerCursor K (Leaf V R) (LeafCursor V R)) : layer_at es l 0 (length es) i lc → (i < length es → child_at es l i (ly_child lc)) →
  indexed_cursor_rep (mkCursor lc) (indexed_data (drop i es)).
Proof.
  intros Hc Hch. exists es, l, i. split; [done|]. destruct (decide (i < length es)) as [Hi|].
  - right. destruct (lookup_lt_is_Some_2 es i Hi) as [[k p] He]. destruct (range_payload _ _ _ _ _ (ya_repr _ _ _ _ _ _ Hc) He) as (Hlt & Hle & Hp & _).
    specialize (Hch Hi). unfold child_at in Hch. destruct (range_of es i) as [lo hi]. cbn [fst snd] in *. injection Hch as Hch.
    exists k, p, lo, hi, lo. split_and!; [done| |by rewrite (indexed_data_drop _ _ _ _ He); cbn in Hp; rewrite Hp].
    unfold child. cbn [layer_cursor]. rewrite <- Hch. apply leaf_at_new; [apply (ya_repr _ _ _ _ _ _ Hc)|lia|done].
  - left. pose proof (ya_range _ _ _ _ _ _ Hc). split; [lia|]. by rewrite drop_ge by lia.
Qed.

#[export] Program Instance indexed_cursor_spec : CursorSpec (VecIndexedWSetCursor K V R) K V unit R (H := the_cursor) := {| c_rep := indexed_cursor_rep |}.
Next Obligation.
  intros c (es & l & i & Hc & [[-> _]|(k' & p & lo & hi & j & _ & _ & ?)]); [|done]. cbn. unfold key_valid. rewrite (layer_at_valid _ _ _ _ _ _ Hc). by apply Nat.ltb_irrefl.
Qed.
Next Obligation.
  intros c k vs d (es & l & i & p & lo & hi & j & Hc & Hi & _)%indexed_cursor_inv. cbn. unfold key_valid, key. rewrite (layer_at_valid _ _ _ _ _ _ Hc).
  split; [by apply Nat.ltb_lt, (lookup_lt_Some _ _ _ Hi)|]. by eapply layer_at_item.
Qed.
Next Obligation.
  intros c k vs d (es & l & i & p & lo & hi & j & Hc & Hi & Hl & -> & _)%indexed_cursor_inv. cbn. unfold val_valid. rewrite (leaf_at_valid _ _ _ _ _ Hl).
  pose proof (la_range _ _ _ _ _ Hl). destruct (Nat.ltb_spec j hi) as [Hj|Hj].
  - rewrite bool_decide_eq_false_2; [done|]. rewrite untimed_nil. intros He. apply (f_equal length) in He. rewrite sub_length in He by lia. cbn in He. lia.
  - assert (j = hi) as -> by lia. by rewrite sub_nil.
Qed.
Next Obligation.
  intros c k v ts vs d (es & l & i & p & lo & hi & j & r & _ & _ & Hl & _ & Hr & _)%indexed_val_inv. cbn. unfold val. by apply (leaf_at_item _ _ _ _ _ _ _ Hl Hr).
Qed.
Next Obligation.
  intros c k v ts vs d Hc. pose proof Hc as (es & l & i & p & lo & hi & j & r & _ & _ & Hl & Hj & Hr & -> & _)%indexed_val_inv. cbn. unfold map_times.
  rewrite (leaf_at_valid _ _ _ _ _ Hl), (proj2 (Nat.ltb_lt _ _) Hj), (proj2 (leaf_at_item _ _ _ _ _ _ _ Hl Hr)). by exists c.
Qed.
Next Obligation.
  intros c k vs d (es & l & i & p & lo & hi & j & Hc & Hi & _ & _ & ->)%indexed_cursor_inv.
  destruct (layer_at_step _ _ _ _ _ _ Hc (lookup_lt_Some _ _ _ Hi)) as (lc & Hs & Hc' & Hch). cbn. unfold step_key. unfold vals_ops. rewrite Hs. cbn [mbind option_bind].
  eexists. split; [done|]. by apply (indexed_at es l).
Qed.
Next Obligation.
  intros c k v ts vs d (es & l & i & p & lo & hi & j & r & Hc & Hi & Hl & Hj & _ & _ & -> & ->)%indexed_val_inv. eexists. split; [done|].
  pose proof (leaf_at_step _ _ _ _ _ Hl Hj) as Hl'. exists es, l, i. split.
  - destruct Hc as [H1 H2 H3 H4 H5 H6]. split; try done. by apply (la_storage _ _ _ _ _ Hl').
  - right. by exists k, p, lo, hi, (S j).
Qed.

#[export] Instance indexed_weight_spec : WeightSpec (VecIndexedWSetCursor K V R) K V unit R (CU := the_cursor).
Proof.
  constructor. intros c k v t r vs d (es & l & i & p & lo & hi & j & r' & Hc & Hi & Hl & _ & Hr & Hts & _)%indexed_val_inv. injection Hts as -> ->. cbn. unfold weight.
  rewrite (layer_at_valid _ _ _ _ _ _ Hc), (proj2 (Nat.ltb_lt _ _) (lookup_lt_Some _ _ _ Hi)). by apply (leaf_at_item _ _ _ _ _ _ _ Hl Hr).
Qed.

(** *** The builder *)
(** The weights of the value that is being built. *)
Definition indexed_pending (ts : Times unit R) (rs : list R) : Prop := ts = (λ r, ((), r)) <$> rs ∧ length rs ≤ 1.
Definition indexed_builder_rep (b : VecIndexedWSetBuilder K V R) d (vs : Vals V unit R) ts : Prop :=
  ∃ es p rs, d = indexed_data es ∧ vs = untimed p ∧ indexed_pending ts rs
    ∧ repr es (keys b) (offs b) (concat es.*2)
    ∧ vals b = (concat es.*2 ++ p).*1 ∧ diffs b = (concat es.*2 ++ p).*2 ++ rs.
Definition indexed_rep (b : VecIndexedWSet K V R) d : Prop := ∃ es, lrepr (SP := the_vals) es (layer b) ∧ d = indexed_data es ∧ data_ok d.

Lemma indexed_push_time b d vs ts t r v : indexed_builder_rep b d vs ts → vals_ok (vs ++ [(v, ts ++ [(t, r)])]) →
  ∃ b', push_time_diff b t r = Some b' ∧ indexed_builder_rep b' d vs (ts ++ [(t, r)]).
Proof.
  intros (es & p & rs & -> & -> & [-> Hl] & Hr & Hv & Hd) [_ Hf]. rewrite fmap_app in Hf. apply Forall_app in Hf as [_ [Ht _]%Forall_cons].
  cbn [snd] in Ht. destruct (unit_times _ Ht) as (r' & Heq & Hr'). destruct rs as [|r0 rs]; [|by destruct rs]. injection Heq as -> ->.
  unfold push_time_diff. rewrite (proj2 (is_zero_false r') Hr'). cbn [negb]. unfold pushed_diff. cbn [vals diffs].
  rewrite Hv, Hd, app_nil_r, length_app, !length_fmap. cbn [length]. rewrite Nat.eqb_refl. eexists. split; [done|].
  exists es, p, [r']. cbn. split_and!; try done.
Qed.

Lemma sub_untimed_ok p v ts : vals_ok (untimed p ++ [(v, ts)]) → ∀ v', v' ∈ p.*1 → v' ≺ v.
Proof. intros [(_ & _ & Hlt)%keys_sorted_app _] v' Hv'. apply Hlt; [by rewrite untimed_keys|cbn; by left]. Qed.

Lemma indexed_push_val b d vs ts v : indexed_builder_rep b d vs ts → vals_ok (vs ++ [(v, ts)]) →
  ∃ b', push_val b v = Some b' ∧ indexed_builder_rep b' d (vs ++ [(v, ts)]) [].
Proof.
  intros (es & p & rs & -> & -> & [-> Hl] & Hr & Hv & Hd) Hok. pose proof (sub_untimed_ok _ _ _ Hok) as Hlt.
  destruct Hok as [_ Hf]. rewrite fmap_app in Hf. apply Forall_app in Hf as [_ [Ht _]%Forall_cons]. cbn [snd] in Ht.
  destruct (unit_times _ Ht) as (r & Heq & _). destruct rs as [|r0 [|]]; [done| |cbn in Hl; lia]. injection Heq as ->.
  unfold push_val, pushed_val. cbn [vals diffs offs]. rewrite Hv, Hd, !length_app, !length_fmap. cbn [length]. rewrite Nat.eqb_refl.
  assert (last (offs b) = Some (length (concat es.*2))) as -> by (destruct Hr as (_ & -> & _ & _); by rewrite offsets_last).
  cbn [mbind option_bind].
  assert ((if length (concat es.*2 ++ p) + 1 - length (concat es.*2) <? 2 then Some true
    else v2 ← ((concat es.*2 ++ p).*1 ++ [v]) !! (length (concat es.*2 ++ p) + 1 - 2); v1 ← ((concat es.*2 ++ p).*1 ++ [v]) !! (length (concat es.*2 ++ p) + 1 - 1); Some (kltb v2 v1)) = Some true) as ->.
  { rewrite length_app. destruct (Nat.ltb_spec (length (concat es.*2) + length p + 1 - length (concat es.*2)) 2) as [|Hp]; [done|].
    destruct (lookup_lt_is_Some_2 p (length p - 1)) as [[a ra] Ha]; [lia|].
    rewrite (lookup_app_l _ _ (length (concat es.*2) + length p + 1 - 2)) by (rewrite length_fmap, length_app; lia).
    rewrite fmap_app, (lookup_app_r (concat es.*2).*1) by (rewrite length_fmap; lia). rewrite length_fmap.
    replace (length (concat es.*2) + length p + 1 - 2 - length (concat es.*2)) with (length p - 1) by lia.
    rewrite list_lookup_fmap, Ha. cbn [fmap option_fmap option_map mbind option_bind fst].
    rewrite list_lookup_middle by (rewrite length_app, !length_fmap; lia). cbn [mbind option_bind]. f_equal. apply kltb_spec, Hlt.
    apply list_elem_of_fmap. exists (a, ra). split; [done|]. by eapply list_elem_of_lookup_2. }
  cbn [mbind option_bind]. eexists. split; [done|]. exists es, (p ++ [(v, r)]), []. cbn [keys offs vals diffs]. unfold untimed. rewrite fmap_app.
  split_and!; try done; [split; [done|cbn; lia]|..].
  all: rewrite ?app_nil_r, app_assoc, (fmap_app _ (concat es.*2 ++ p)); done.
Qed.

Lemma indexed_push_key b d vs k : indexed_builder_rep b d vs [] → data_ok (d ++ [(k, vs)]) →
  ∃ b', push_key b k = Some b' ∧ indexed_builder_rep b' (d ++ [(k, vs)]) [] [].
Proof.
  intros (es & p & rs & -> & -> & [Hrs Hl] & Hr & Hv & Hd) [(_ & _ & Hlt)%keys_sorted_app Hf]. rewrite fmap_app in Hf.
  apply Forall_app in Hf as [_ [[_ Hne] _]%Forall_cons]. cbn [snd] in Hne. rewrite untimed_nil in Hne. destruct rs; [|done]. rewrite app_nil_r in Hd.
  pose proof (repr_snoc _ _ _ _ k p Hr Hne) as Hr'. unfold push_key, pushed_key. cbn [vals diffs offs keys].
  assert (last (offs b) = Some (length (concat es.*2))) as Hlast by (destruct Hr as (_ & -> & _ & _); by rewrite offsets_last).
  assert (length (vals b) = length (concat es.*2 ++ p)) as -> by by rewrite Hv, length_fmap.
  rewrite last_lookup in Hlast. pose proof (lookup_lt_Some _ _ _ Hlast) as Hlen. rewrite !length_app. cbn [length].
  replace (length (offs b) + 1 - 1) with (length (offs b)) by lia. rewrite (list_lookup_middle (offs b) [] _ (length (offs b))) by done. cbn [mbind option_bind].
  rewrite (lookup_app_l _ _ (length (offs b) + 1 - 2)) by lia. replace (length (offs b) + 1 - 2) with (pred (length (offs b))) by lia. rewrite Hlast. cbn [mbind option_bind].
  rewrite (proj2 (Nat.ltb_lt _ _)) by (destruct p; [done|cbn; lia]). rewrite last_increasing_snoc.
  - cbn [mbind option_bind]. eexists. split; [done|]. exists (es ++ [(k, p)]), [], []. cbn [keys offs vals diffs].
    assert (concat (es ++ [(k, p)]).*2 = concat es.*2 ++ p) as Hcat by (rewrite fmap_app, concat_app; cbn; by rewrite app_nil_r).
    rewrite Hcat, !app_nil_r. rewrite length_app in Hr'. split_and!; try done. unfold indexed_data. by rewrite fmap_app.
  - destruct Hr as (-> & _). intros k' Hk'. apply Hlt; [|cbn; by left]. unfold indexed_data. rewrite <- list_fmap_compose. exact Hk'.
Qed.

#[export] Program Instance indexed_builder_spec :
  BuilderSpec (VecIndexedWSetBuilder K V R) (VecIndexedWSet K V R) K V unit R (H := indexed_builder default_key default_val) :=
  {| b_rep := indexed_builder_rep; o_rep := indexed_rep |}.
Next Obligation. exists [], [], []. cbn. split_and!; try done; [split; [done|cbn; lia]|]. split_and!; try done. constructor. Qed.
Next Obligation. intros b d vs ts t r v. apply indexed_push_time. Qed.
Next Obligation. intros b d vs ts t r v. apply indexed_push_time. Qed.
Next Obligation. intros b d vs ts v. apply indexed_push_val. Qed.
Next Obligation.
  intros b d vs ts v Hb Hok. destruct (indexed_push_val b d vs ts v Hb Hok) as (b' & Hp & Hb'). cbn. unfold push_val_mut. rewrite Hp. by exists b', default_val.
Qed.
Next Obligation. intros b d vs k. apply indexed_push_key. Qed.
Next Obligation.
  intros b d vs k Hb Hok. destruct (indexed_push_key b d vs k Hb Hok) as (b' & Hp & Hb'). cbn. unfold push_key_mut. rewrite Hp. by exists b', default_key.
Qed.
Next Obligation.
  intros b d (es & p & rs & -> & Hp & [Hrs _] & Hr & Hv & Hd) Hok. symmetry in Hp. apply untimed_nil in Hp as ->. destruct rs; [|done].
  rewrite !app_nil_r in *. change (∃ o, done b = Some o ∧ indexed_rep o (indexed_data es)). destruct (leaf_from_parts_ok (concat es.*2)) as (Hleaf & Hw & He).
  unfold done, from_parts. rewrite Hv, Hd, Hleaf. cbn [mbind option_bind]. rewrite (layer_from_parts_ok _ _ _ _ _ _ Hr) by (unfold Leaf.len; cbn [leaf_keys]; by rewrite length_fmap).
  cbn [mbind option_bind]. eexists. split; [done|]. exists es. split_and!; [|done|done]. split; [exact Hw|]. cbn [layer l_vals l_keys l_offs].
  change (ents ?l) with (leaf_ents l). by rewrite He.
Qed.

(** *** The consuming cursor *)
Definition indexed_consuming_rep (m : bool) (cc : VecIndexedWSetConsumingCursor K V R) d : Prop :=
  let l := layer (wset cc) in
  m = true ∧ layer_wf (SP := the_vals) l
  ∧ ((length (l_keys l) ≤ key_index cc ∧ d = [])
     ∨ ∃ k lo, l_keys l !! key_index cc = Some k ∧ l_offs l !! key_index cc = Some lo ∧ l_offs l !! S (key_index cc) = Some (val_max cc)
         ∧ lo ≤ val_index cc ≤ val_max cc
         ∧ d = (k, untimed (sub (leaf_ents (l_vals l)) (val_index cc) (val_max cc))) :: indexed_data (drop (S (key_index cc)) (layer_ents (SP := the_vals) l))).

Lemma offs_le l i o : layer_wf (SP := the_vals) l → l_offs l !! i = Some o → o ≤ length (leaf_ents (l_vals l)).
Proof.
  intros [_ (Hlen & _ & Hs & Hlast)] Ho. rewrite last_lookup in Hlast. pose proof (lookup_lt_Some _ _ _ Ho) as Hi.
  destruct (decide (i = pred (length (l_offs l)))) as [->|Hne]; [rewrite Ho in Hlast; by injection Hlast as ->|].
  apply Nat.lt_le_incl. eapply (sorted_lt_lookup (l_offs l) i); [exact Hs|exact Ho|exact Hlast|lia].
Qed.

(** The consuming cursor at the start of the key [i]. *)
Lemma indexed_consuming_at w i lo hi : layer_wf (SP := the_vals) (layer w) →
  (i < length (l_keys (layer w)) → l_offs (layer w) !! i = Some lo ∧ l_offs (layer w) !! S i = Some hi) →
  indexed_consuming_rep true (mkConsuming w i lo hi) (indexed_data (drop i (layer_ents (SP := the_vals) (layer w)))).
Proof.
  intros Hw Hoffs. split_and!; [done..|]. cbn [wset key_index val_index val_max]. pose proof (layer_ents_length _ Hw) as Hlen.
  destruct (decide (i < length (l_keys (layer w)))) as [Hi|].
  - right. destruct (Hoffs Hi) as [Hlo Hhi]. destruct (lookup_lt_is_Some_2 (l_keys (layer w)) i Hi) as [k Hk].
    assert (lo < hi) as Hlt by (eapply (sorted_lt_lookup (l_offs (layer w)) i (S i)); [apply Hw|done|done|lia]).
    exists k, lo. split_and!; try done; [lia|]. rewrite (indexed_data_drop _ _ k (sub (leaf_ents (l_vals (layer w))) lo hi)); [done|].
    unfold layer_ents. rewrite lookup_zip_with, Hk. cbn [mbind option_bind]. by rewrite (chunks_lookup _ _ _ _ _ Hlo Hhi).
  - left. split; [lia|]. rewrite drop_ge; [done|]. unfold Layer.keys in Hlen. lia.
Qed.

Lemma indexed_consuming_key m cc k vs d : indexed_consuming_rep m cc ((k, vs) :: d) →
  m = true ∧ layer_wf (SP := the_vals) (layer (wset cc)) ∧ l_keys (layer (wset cc)) !! key_index cc = Some k.
Proof. by intros (-> & Hw & [[_ ?]|(k' & lo & Hk & _ & _ & _ & [= -> -> ->])]). Qed.

Lemma indexed_consuming_val m cc k v ts vs d : indexed_consuming_rep m cc ((k, (v, ts) :: vs) :: d) →
  m = true ∧ layer_wf (SP := the_vals) (layer (wset cc))
  ∧ ∃ lo r, l_keys (layer (wset cc)) !! key_index cc = Some k ∧ l_offs (layer (wset cc)) !! key_index cc = Some lo
    ∧ l_offs (layer (wset cc)) !! S (key_index cc) = Some (val_max cc) ∧ lo ≤ val_index cc < val_max cc
    ∧ leaf_keys (l_vals (layer (wset cc))) !! val_index cc = Some v ∧ leaf_diffs (l_vals (layer (wset cc))) !! val_index cc = Some r
    ∧ ts = [((), r)] ∧ vs = untimed (sub (leaf_ents (l_vals (layer (wset cc)))) (S (val_index cc)) (val_max cc))
    ∧ d = indexed_data (drop (S (key_index cc)) (layer_ents (SP := the_vals) (layer (wset cc)))).
Proof.
  intros (-> & Hw & [[_ ?]|(k' & lo & Hk & Hlo & Hhi & Hrange & Heq)]); [done|]. injection Heq as <- Hvs ->. split_and!; [done..|].
  assert (val_index cc < val_max cc) as Hlt.
  { destruct (decide (val_index cc < val_max cc)); [done|]. assert (val_index cc = val_max cc) as Heq by lia. rewrite Heq, sub_nil in Hvs. done. }
  pose proof (offs_le _ _ _ Hw Hhi) as Hle. destruct Hw as [Hlw _]. cbn in Hlw.
  destruct (leaf_lookup_some (l_vals (layer (wset cc))) (val_index cc) Hlw) as (v' & r & Hv & Hr & He).
  { rewrite <- leaf_ents_length by done. lia. }
  rewrite (sub_cons _ _ _ _ He Hlt) in Hvs. injection Hvs as -> -> ->. exists lo, r. split_and!; try done; lia.
Qed.

Lemma zip_insert_l {A B} (n : nat) (ks : list A) (ds : list B) (v : A) (r : B) : ds !! n = Some r → zip (<[n := v]> ks) ds = <[n := (v, r)]> (zip ks ds).
Proof.
  revert n ds. induction ks as [|k ks IH]; intros n [|d ds]; [done..|]. destruct n; cbn; [by intros [= ->]|]. intros Hr. by rewrite IH.
Qed.

#[export] Program Instance indexed_consuming_spec : MergeCursorSpec (VecIndexedWSetConsumingCursor K V R) K V unit R := {| mc_rep := indexed_consuming_rep |}.
Next Obligation. by intros m c d [-> _]. Qed.
Next Obligation.
  intros m cc (_ & Hw & [[Hle _]|(? & ? & _ & _ & _ & _ & ?)]); [|done]. cbn. unfold cc_key_valid. by apply Nat.ltb_ge.
Qed.
Next Obligation.
  intros m cc k vs d (_ & _ & Hk)%indexed_consuming_key. cbn. unfold cc_key_valid, cc_key. split; [|done]. apply Nat.ltb_lt. by eapply lookup_lt_Some.
Qed.
Next Obligation.
  intros m cc k vs d (_ & Hw & [[_ ?]|(k' & lo & _ & _ & Hhi & Hrange & [= -> -> ->])]); [done|]. transitivity (val_index cc <? val_max cc); [done|].
  pose proof (offs_le _ _ _ Hw Hhi). destruct (Nat.ltb_spec (val_index cc) (val_max cc)) as [Hlt|Hge].
  - rewrite bool_decide_eq_false_2; [done|]. rewrite untimed_nil. intros He. apply (f_equal length) in He. rewrite sub_length in He by lia. cbn in He. lia.
  - assert (val_index cc = val_max cc) as -> by lia. by rewrite sub_nil.
Qed.
Next Obligation.
  intros m cc k v ts vs d (_ & _ & lo & r & _ & _ & _ & Hrange & Hv & _)%indexed_consuming_val. cbn. unfold cc_val, cc_val_valid.
  by rewrite (proj2 (Nat.ltb_lt _ _)) by lia.
Qed.
Next Obligation.
  intros m cc k v ts vs d Hc. pose proof Hc as (_ & _ & lo & r & _ & _ & _ & _ & _ & Hr & -> & _)%indexed_consuming_val. cbn. unfold cc_map_times, cc_weight.
  rewrite Hr. by exists cc.
Qed.
Next Obligation.
  intros m cc k vs d Hc. pose proof (indexed_consuming_key _ _ _ _ _ Hc) as (-> & Hw & Hk).
  assert (d = indexed_data (drop (S (key_index cc)) (layer_ents (SP := the_vals) (layer (wset cc))))) as ->.
  { by destruct Hc as (_ & _ & [[_ ?]|(? & ? & _ & _ & _ & _ & [= -> -> ->])]). }
  cbn. unfold cc_step_key, cc_key_valid. cbn [key_index wset]. rewrite Nat.add_1_r.
  destruct (Nat.ltb_spec (S (key_index cc)) (length (l_keys (layer (wset cc))))) as [Hlt|Hge].
  - destruct Hw as [Hlw (Hlen & Hrest)]. destruct (lookup_lt_is_Some_2 (l_offs (layer (wset cc))) (S (key_index cc))) as [lo Hlo]; [lia|].
    destruct (lookup_lt_is_Some_2 (l_offs (layer (wset cc))) (S (S (key_index cc)))) as [hi Hhi]; [lia|].
    rewrite Hlo. cbn [mbind option_bind]. rewrite Nat.add_1_r, Hhi. cbn [mbind option_bind]. eexists. split; [done|]. by apply indexed_consuming_at.
  - eexists. split; [done|]. apply indexed_consuming_at; [done|lia].
Qed.
Next Obligation.
  intros m cc k v ts vs d (-> & Hw & lo & r & Hk & Hlo & Hhi & Hrange & _ & _ & _ & -> & ->)%indexed_consuming_val. eexists. split; [done|].
  split_and!; [done..|]. cbn [wset key_index val_index val_max]. rewrite Nat.add_1_r. right. exists k, lo. split_and!; try done; lia.
Qed.
Next Obligation.
  intros cc k vs d Hc. pose proof (indexed_consuming_key _ _ _ _ _ Hc) as (_ & Hw & Hk).
  destruct Hc as (_ & _ & [[_ ?]|(k0 & lo & _ & Hlo & Hhi & Hrange & [= <- -> ->])]); [done|]. cbn. unfold cc_key. split; [done|]. intros k'. unfold cc_set_key.
  rewrite (proj2 (Nat.ltb_lt _ _)) by (by eapply lookup_lt_Some). eexists. split; [done|]. split_and!; [done| |].
  - destruct Hw as [Hlw Ho]. split; [done|]. unfold offs_ok in *. cbn. by rewrite length_insert.
  - right. exists k', lo. cbn. rewrite list_lookup_insert_eq by (by eapply lookup_lt_Some). split_and!; try done; [lia..|]. f_equal. f_equal.
    unfold layer_ents. cbn. rewrite !zip_with_drop. by rewrite drop_insert_lt by lia.
Qed.
Next Obligation.
  intros cc k v ts vs d (_ & Hw & lo & r & Hk & Hlo & Hhi & Hrange & Hv & Hr & -> & -> & ->)%indexed_consuming_val. cbn. unfold cc_val_mut. split; [done|].
  intros v'. unfold cc_set_val. rewrite (proj2 (Nat.ltb_lt _ _)) by (by eapply lookup_lt_Some). eexists. split; [done|].
  pose proof (lookup_lt_Some _ _ _ Hv) as Hlen. pose proof (offs_le _ _ _ Hw Hhi) as Hmax.
  assert (leaf_ents (mkLeaf (<[val_index cc := v']> (leaf_keys (l_vals (layer (wset cc))))) (leaf_diffs (l_vals (layer (wset cc)))))
    = <[val_index cc := (v', r)]> (leaf_ents (l_vals (layer (wset cc))))) as Hents.
  { unfold leaf_ents. cbn [leaf_keys leaf_diffs]. by rewrite (zip_insert_l _ _ _ _ r). }
  destruct Hw as [Hlw Ho]. split_and!; [done| |].
  - split; [unfold wf_trie, the_vals, leaf_spec, leaf_wf in *; cbn; by rewrite length_insert|]. cbn in Ho |- *. rewrite (zip_insert_l _ _ _ _ r) by done. by rewrite length_insert.
  - right. exists k, lo. cbn [wset layer l_keys l_offs l_vals key_index val_index val_max]. rewrite Hents. split_and!; try done; [lia..|]. f_equal.
    + f_equal. rewrite (sub_cons (<[val_index cc := (v', r)]> (leaf_ents (l_vals (layer (wset cc))))) (val_index cc) (val_max cc) (v', r)); [|apply list_lookup_insert_eq; lia|lia].
      by rewrite sub_insert by lia.
    + f_equal. unfold layer_ents. cbn [l_keys l_offs l_vals]. rewrite !zip_with_drop. f_equal. unfold ents, the_vals, leaf_spec. rewrite Hents.
      rewrite chunks_insert; [done|apply Ho|]. intros o Heq. rewrite Hhi in Heq. injection Heq as <-. lia.
Qed.

(** *** The batch *)
Lemma indexed_len es l : lrepr (SP := the_vals) es l → Layer.tuples (H0 := leaf_ops sv sr) l = length (tuples (indexed_data es)).
Proof.
  intros [Hw (_ & _ & Hc & _)]. assert (length (tuples (indexed_data es)) = length (concat es.*2)) as ->.
  { clear. induction es as [|[k p] es IH]; [done|]. change (indexed_data ((k, p) :: es)) with ((k, untimed p) :: indexed_data es). rewrite tuples_cons, length_app, IH. cbn [fmap list_fmap concat snd].
    rewrite length_app. f_equal. unfold prefix. rewrite length_fmap. clear. induction p as [|[v r] p IH]; [done|]. cbn. by f_equal. }
  rewrite <- Hc. cbn. by rewrite leaf_ents_length.
Qed.

Lemma indexed_count es l : lrepr (SP := the_vals) es l → Layer.keys l = length (indexed_data es).
Proof. intros [_ (Hk & _)]. unfold Layer.keys, indexed_data. by rewrite Hk, !length_fmap. Qed.

Lemma indexed_cursor_new b es : lrepr (SP := the_vals) es (layer b) → ∃ c, Batch.cursor b = Some c ∧ c_rep c (indexed_data es).
Proof.
  intros Hr. destruct (layer_at_all es (layer b) Hr) as (c & Hc & Hat & Hch). exists (mkCursor c). split.
  - exact (f_equal (λ o, lc ← o; Some (mkCursor lc)) Hc).
  - by apply (indexed_at es (layer b) 0).
Qed.

#[export] Program Instance indexed_batch_spec :
  BatchSpec (VecIndexedWSet K V R) (VecIndexedWSetBuilder K V R) (VecIndexedWSetCursor K V R) (VecIndexedWSetConsumingCursor K V R) K V unit R
  (BT := indexed_batch sv sr default_key default_val).
Next Obligation. by intros b d (es & _ & _ & ?). Qed.
Next Obligation. intros b d (es & Hr & -> & _). by apply indexed_count. Qed.
Next Obligation. intros b d (es & Hr & -> & _). by apply indexed_len. Qed.
Next Obligation. intros b d (es & Hr & -> & _). by apply indexed_cursor_new. Qed.
Next Obligation.
  intros b d kf vf (es & Hr & -> & Hok).
  assert (∃ c m, merge_cursor (CC := VecIndexedWSetConsumingCursor K V R) b kf vf = Some c ∧ mc_rep m c (filter_data kf vf (indexed_data es))) as (c & m & Hc & Hm).
  { apply merge_cursor_rep; [done|by apply indexed_count|by apply indexed_len|by apply indexed_cursor_new]. }
  change (∃ c m, w_consuming_cursor sv sr b kf vf = Some c ∧ mc_rep m c (filter_data kf vf (indexed_data es))).
  unfold w_consuming_cursor. destruct kf, vf; try by exists c, m.
  eexists (BoxConsuming _), true. split; [done|]. rewrite filter_data_none by done. apply lrepr_wf in Hr as [Hw He].
  pose proof (indexed_consuming_at b 0 0 (default 0 (l_offs (layer b) !! 1)) Hw) as Hat. rewrite He, drop_0 in Hat. apply Hat. intros Hlen.
  destruct Hw as [_ (Hl & H0 & _)]. destruct (lookup_lt_is_Some_2 (l_offs (layer b)) 1) as [hi ->]; [lia|]. split; [|done].
  exact H0.
Qed.
End indexed_spec.
