(* ===== verification/VecKeyBatch.v ===== *)
(** Batches of keys with times in memory (crates/dbsp/src/trace/ord/vec/key_batch.rs).

    The batch is a layer of keys over a leaf of times and weights; every key has the one value [()]. *)
From Stdlib Require Import Sorting.Sorted.
From S2P Require Import Prelude Order Sort Quicksort Search LeanVec Consolidation Trie Leaf Layer LayerSpec Cursors MergeCursor Batch BatchSpec VecLayers.
#[local] Open Scope nat_scope.

Module VecKeyBatch.
Section ops.
Context `{Ord K} `{Ord T} `{PartialOrder T} `{MonoidValue R}.
(** The sizes of keys, times and weights, and the key left behind where one is moved out. *)
Context (sk st sr : nat) (default_key : K).
#[local] Instance times_ops : TrieOps (Leaf T R) (LeafBuilder T R) (LeafCursor T R) T T := leaf_ops st sr.

Record VecKeyBatch := mk { layer : Layer K (Leaf T R) }.
Implicit Types (self : VecKeyBatch).

Definition w_key_count self : nat := Layer.keys (layer self).
Definition w_len self : nat := Layer.tuples (layer self).

(** *** The cursor *)
Record ValKeyCursor := mkCursor { valid : bool; cursor : LayerCursor K (Leaf T R) (LeafCursor T R) }.
Implicit Types (c : ValKeyCursor).

Definition w_cursor self : option ValKeyCursor :=
  lc ← Layer.cursor_from (layer self) 0 (Layer.keys (layer self)); Some (mkCursor true lc).

Definition child c : LeafCursor T R := ly_child (cursor c).
Definition with_child c (child : LeafCursor T R) : ValKeyCursor :=
  let lc := cursor c in mkCursor (valid c) (mkLayerCursor (ly_storage lc) (ly_pos lc) (ly_bounds lc) child).
(** A movement of the cursor over the keys. *)
Definition moved (lc : option (LayerCursor K (Leaf T R) (LeafCursor T R))) : option ValKeyCursor := lc ← lc; Some (mkCursor true lc).

Definition key c : option K := LayerCursor.item (cursor c).
Definition val (_ : ValKeyCursor) : option unit := Some ().
Definition map_times c : option (ValKeyCursor * Times T R) :=
  '(lc, ts) ← all_times (λ _, true) (child c); Some (with_child c lc, ts).
Definition map_times_through c (upper : T) : option (ValKeyCursor * Times T R) :=
  '(lc, ts) ← all_times (λ t, less_equal t upper) (child c); Some (with_child c lc, ts).
Definition weight c : option R := assert! (LeafCursor.valid (child c)) in current_diff (child c).
Definition key_valid c : bool := LayerCursor.valid (cursor c).
Definition val_valid c : bool := valid c.
Definition map_values c : option (list (unit * R)) :=
  if val_valid c then r ← current_diff (child c); Some [((), r)] else Some [].
Definition step_key c : option ValKeyCursor := moved (LayerCursor.step (cursor c)).
Definition step_key_reverse c : option ValKeyCursor := moved (LayerCursor.step_reverse (cursor c)).
Definition seek_key c (k : K) : option ValKeyCursor := moved (LayerCursor.seek sk (cursor c) k).
Definition seek_key_exact c (k : K) : option (ValKeyCursor * bool) :=
  c ← seek_key c k;
  if key_valid c then k' ← key c; Some (c, bool_decide (k' = k)) else Some (c, false).
Definition seek_key_with c (p : K → bool) : option ValKeyCursor := moved (LayerCursor.seek_with sk (cursor c) p).
Definition seek_key_with_reverse c (p : K → bool) : option ValKeyCursor := moved (LayerCursor.seek_with_reverse sk (cursor c) p).
Definition seek_key_reverse c (k : K) : option ValKeyCursor := moved (LayerCursor.seek_reverse sk (cursor c) k).
Definition step_val c : option ValKeyCursor := Some (mkCursor false (cursor c)).
Definition seek_val c (_ : unit) : ValKeyCursor := c.
Definition seek_val_with c (p : unit → bool) : ValKeyCursor := if negb (p ()) then mkCursor false (cursor c) else c.
Definition rewind_keys c : option ValKeyCursor := moved (LayerCursor.rewind (cursor c)).
Definition fast_forward_keys c : option ValKeyCursor := moved (LayerCursor.fast_forward (cursor c)).
Definition rewind_vals c : ValKeyCursor := mkCursor true (cursor c).
Definition step_val_reverse c : ValKeyCursor := mkCursor false (cursor c).
Definition seek_val_reverse c (_ : unit) : ValKeyCursor := c.
Definition seek_val_with_reverse c (p : unit → bool) : ValKeyCursor := if negb (p ()) then mkCursor false (cursor c) else c.
Definition fast_forward_vals c : ValKeyCursor := mkCursor true (cursor c).
Definition position c : Position := mkPosition (LayerCursor.keys (cursor c)) (LayerCursor.position (cursor c)).

(** *** The builder *)
Record VecKeyBuilder := mkBuilder { keys : list K; offs : list nat; times : list T; diffs : list R }.
Implicit Types (b : VecKeyBuilder).

Definition with_capacity : VecKeyBuilder := mkBuilder [] [0] [] [].
Definition pushed_key b : option VecKeyBuilder :=
  let off := length (times b) in
  last_off ← last (offs b);
  assert! (last_off <? off) in Some (mkBuilder (keys b) (offs b ++ [off]) (times b) (diffs b)).
Definition push_key b (k : K) : option VecKeyBuilder := pushed_key (mkBuilder (keys b ++ [k]) (offs b) (times b) (diffs b)).
Definition push_key_mut b (k : K) : option (VecKeyBuilder * K) := b ← push_key b k; Some (b, default_key).
Definition push_val b (_ : unit) : option VecKeyBuilder := Some b.
Definition push_val_mut b (v : unit) : option (VecKeyBuilder * unit) := b ← push_val b v; Some (b, v).
Definition push_time_diff b (t : T) (w : R) : option VecKeyBuilder :=
  assert! (negb (is_zero w)) in Some (mkBuilder (keys b) (offs b) (times b ++ [t]) (diffs b ++ [w])).
Definition push_time_diff_mut b (t : T) (w : R) : option VecKeyBuilder := push_time_diff b t w.
Definition done b : option VecKeyBatch :=
  l ← leaf_from_parts (times b) (diffs b);
  l ← layer_from_parts Leaf.len (keys b) (offs b) l;
  Some (mk l).
Definition num_keys b : nat := length (keys b).
Definition num_tuples b : nat := length (diffs b).
End ops.
#[global] Arguments VecKeyBatch : clear implicits.
#[global] Arguments ValKeyCursor : clear implicits.
#[global] Arguments VecKeyBuilder : clear implicits.

(** *** The traits *)
Section traits.
Context `{OK : Ord K} `{OT : Ord T} `{PT : PartialOrder T} `{MR : MonoidValue R} (st sr : nat) (default_key : K).

#[export] Instance key_cursor : Cursor (ValKeyCursor K T R) K unit T R := {|
  Cursor.key_valid := key_valid; Cursor.val_valid := val_valid; Cursor.key := key; Cursor.val := val;
  Cursor.map_times := map_times; Cursor.weight := weight; Cursor.step_key := step_key st sr; Cursor.step_val := step_val |}.
#[export] Instance key_reader : BatchReader (VecKeyBatch K T R) (ValKeyCursor K T R) K unit T R := {|
  key_count := w_key_count; len := w_len st sr; Batch.cursor := w_cursor st sr |}.
#[export] Instance key_builder : Builder (VecKeyBuilder K T R) (VecKeyBatch K T R) K unit T R := {|
  new_builder := with_capacity;
  MergeCursor.push_time_diff := push_time_diff; MergeCursor.push_time_diff_mut := push_time_diff_mut;
  MergeCursor.push_val := push_val; MergeCursor.push_val_mut := push_val_mut;
  MergeCursor.push_key := push_key; MergeCursor.push_key_mut := push_key_mut default_key;
  MergeCursor.done := done |}.
#[export] Instance key_batch : Batch (VecKeyBatch K T R) (VecKeyBuilder K T R) (ValKeyCursor K T R) NoCursor K unit T R := {|
  consuming_cursor := merge_cursor |}.
End traits.
End VecKeyBatch.

(** ** The batch keeps the promises of the traits *)
Section key_spec.
Context `{OK : Ord K} `{OT : Ord T} `{PT : PartialOrder T} `{MR : MonoidValue R} (st sr : nat) (Hst : zst_ok T st) (Hsr : zst_ok R sr) (default_key : K).
Implicit Types (es : list (K * Times T R)) (p ts : Times T R) (l : Layer K (Leaf T R)) (d : Data K unit T R) (vs : Vals unit T R).
Import VecKeyBatch.
#[local] Instance the_cursor : Cursor (ValKeyCursor K T R) K unit T R := key_cursor st sr.
#[local] Instance the_reader : BatchReader (VecKeyBatch K T R) (ValKeyCursor K T R) K unit T R := key_reader st sr.
#[local] Instance the_times : TrieSpec (Leaf T R) (LeafBuilder T R) (LeafCursor T R) T T (T * R) T R (OPS := leaf_ops st sr) := leaf_spec st sr Hst Hsr.

#[local] Abbreviation layer_at := (layer_at (K := K) (SP := the_times)).
#[local] Abbreviation child_at := (child_at (K := K) (OPS := leaf_ops st sr)).

(** The entries of a layer as a sequence. *)
Definition key_data es : Data K unit T R := (λ '(k, p), (k, [((), p)])) <$> es.

Lemma key_data_drop es i k p : es !! i = Some (k, p) → key_data (drop i es) = (k, [((), p)]) :: key_data (drop (S i) es).
Proof. intros Hi. by rewrite (drop_S _ _ _ Hi). Qed.

Lemma key_data_keys es : (key_data es).*1 = es.*1.
Proof. unfold key_data. rewrite <- list_fmap_compose. by apply list_fmap_ext; intros ? []. Qed.

(** *** The cursor *)
Definition key_cursor_rep (c : ValKeyCursor K T R) d : Prop :=
  ∃ es l i, layer_at es l 0 (length es) i (cursor c)
    ∧ ((i = length es ∧ d = [])
       ∨ ∃ k p lo hi j, es !! i = Some (k, p) ∧ leaf_at (l_vals l) lo hi j (child c) ∧ sub (leaf_ents (l_vals l)) lo hi = p
           ∧ d = (k, if valid c then [((), p)] else []) :: key_data (drop (S i) es)).

Lemma key_cursor_inv c k vs d : key_cursor_rep c ((k, vs) :: d) →
  ∃ es l i p lo hi j, layer_at es l 0 (length es) i (cursor c) ∧ es !! i = Some (k, p) ∧ leaf_at (l_vals l) lo hi j (child c)
    ∧ sub (leaf_ents (l_vals l)) lo hi = p ∧ vs = (if valid c then [((), p)] else []) ∧ d = key_data (drop (S i) es).
Proof.
  intros (es & l & i & Hc & [[_ ?]|(k' & p & lo & hi & j & Hi & Hl & Hp & Heq)]); [done|]. injection Heq as -> -> ->. by exists es, l, i, p, lo, hi, j.
Qed.

(** The cursor arrives at the key [i]. *)
Lemma key_at es l i (lc : LayerCursor K (Leaf T R) (LeafCursor T R)) : layer_at es l 0 (length es) i lc → (i < length es → child_at es l i (ly_child lc)) →
  key_cursor_rep (mkCursor true lc) (key_data (drop i es)).
Proof.
  intros Hc Hch. exists es, l, i. split; [done|]. destruct (decide (i < length es)) as [Hi|].
  - right. destruct (lookup_lt_is_Some_2 es i Hi) as [[k p] He]. destruct (range_payload _ _ _ _ _ (ya_repr _ _ _ _ _ _ Hc) He) as (Hlt & Hle & Hp & _).
    specialize (Hch Hi). unfold child_at in Hch. destruct (range_of es i) as [lo hi]. cbn [fst snd] in *. injection Hch as Hch.
    exists k, p, lo, hi, lo. split_and!; [done| |exact Hp|by rewrite (key_data_drop _ _ _ _ He)].
    unfold child. cbn [cursor]. rewrite <- Hch. apply leaf_at_new; [apply (ya_repr _ _ _ _ _ _ Hc)|lia|done].
  - left. pose proof (ya_range _ _ _ _ _ _ Hc). split; [lia|]. by rewrite drop_ge by lia.
Qed.

Lemma child_moved es l i lc (child : LeafCursor T R) : layer_at es l 0 (length es) i lc → lc_storage child = l_vals l →
  layer_at es l 0 (length es) i (mkLayerCursor (ly_storage lc) (ly_pos lc) (ly_bounds lc) child).
Proof. intros [H1 H2 H3 H4 H5 H6] Hs. split; try done. Qed.

#[export] Program Instance key_cursor_spec : CursorSpec (ValKeyCursor K T R) K unit T R (H := the_cursor) := {| c_rep := key_cursor_rep |}.
Next Obligation.
  intros c (es & l & i & Hc & [[-> _]|(k' & p & lo & hi & j & _ & _ & _ & ?)]); [|done]. cbn. unfold key_valid. rewrite (layer_at_valid _ _ _ _ _ _ Hc). by apply Nat.ltb_irrefl.
Qed.
Next Obligation.
  intros c k vs d (es & l & i & p & lo & hi & j & Hc & Hi & _)%key_cursor_inv. cbn. unfold key_valid, key. rewrite (layer_at_valid _ _ _ _ _ _ Hc).
  split; [by apply Nat.ltb_lt, (lookup_lt_Some _ _ _ Hi)|]. by eapply layer_at_item.
Qed.
Next Obligation. intros c k vs d (es & l & i & p & lo & hi & j & _ & _ & _ & _ & -> & _)%key_cursor_inv. cbn. unfold val_valid. by destruct (valid c). Qed.
Next Obligation. by intros c k [] ts vs d _. Qed.
Next Obligation.
  intros c k v ts vs d (es & l & i & p & lo & hi & j & Hc & Hi & Hl & Hp & Hvs & ->)%key_cursor_inv. destruct (valid c) eqn:Hv; [|done]. injection Hvs as -> -> ->.
  destruct (all_times_spec _ _ _ _ (λ _, true) _ Hl) as (lc & Ha & Hl'). cbn. unfold map_times. rewrite Ha. cbn [mbind option_bind].
  rewrite select_all, Hp. eexists. split; [done|]. exists es, l, i. split.
  - unfold with_child. cbn. apply child_moved; [done|]. apply Hl'.
  - right. exists k, p, lo, hi, hi. split_and!; [done|done|done|]. cbn. by rewrite Hv.
Qed.
Next Obligation.
  intros c k vs d (es & l & i & p & lo & hi & j & Hc & Hi & _ & _ & _ & ->)%key_cursor_inv.
  destruct (layer_at_step _ _ _ _ _ _ Hc (lookup_lt_Some _ _ _ Hi)) as (lc & Hs & Hc' & Hch). exists (mkCursor true lc). split.
  - exact (f_equal moved Hs).
  - by apply (key_at es l).
Qed.
Next Obligation.
  intros c k v ts vs d (es & l & i & p & lo & hi & j & Hc & Hi & Hl & Hp & Hvs & ->)%key_cursor_inv. eexists. split; [done|].
  exists es, l, i. split; [done|]. right. exists k, p, lo, hi, j. split_and!; [done..|]. destruct (valid c); [|done]. by injection Hvs as _ _ ->.
Qed.
(** *** The builder *)
(** The times of the key that is being built: its value has been pushed or not. *)
Definition key_pending vs ts p : Prop := vs = [] ∧ p = ts ∨ vs = [((), p)] ∧ ts = [].
Definition key_builder_rep (b : VecKeyBuilder K T R) d vs ts : Prop :=
  ∃ es p, d = key_data es ∧ key_pending vs ts p ∧ repr es (keys b) (offs b) (concat es.*2)
    ∧ times b = (concat es.*2 ++ p).*1 ∧ diffs b = (concat es.*2 ++ p).*2.
Definition key_rep (b : VecKeyBatch K T R) d : Prop := ∃ es, lrepr (SP := the_times) es (layer b) ∧ d = key_data es ∧ data_ok d.

Lemma one_unit_val vs v ts : vals_ok (vs ++ [(v, ts)]) → vs = [].
Proof.
  intros [(_ & _ & Hlt)%keys_sorted_app _]. destruct vs as [|[[] ts'] vs]; [done|]. exfalso.
  apply (klt_irrefl ()). apply Hlt; cbn; [by left|destruct v; by left].
Qed.

Lemma key_push_time b d vs ts t r v : key_builder_rep b d vs ts → vals_ok (vs ++ [(v, ts ++ [(t, r)])]) →
  ∃ b', push_time_diff b t r = Some b' ∧ key_builder_rep b' d vs (ts ++ [(t, r)]).
Proof.
  intros (es & p & -> & Hp & Hr & Ht & Hd) Hok. pose proof (one_unit_val _ _ _ Hok) as ->. destruct Hp as [[_ ->]|[? _]]; [|done].
  unfold push_time_diff. rewrite (proj2 (is_zero_false r) (last_time_ok _ _ _ _ _ Hok)). cbn [negb]. eexists. split; [done|].
  exists es, (ts ++ [(t, r)]). cbn. rewrite app_assoc, !(fmap_app _ (concat es.*2 ++ ts)), Ht, Hd. split_and!; try done. by left.
Qed.

Lemma key_push_val b d vs ts v : key_builder_rep b d vs ts → vals_ok (vs ++ [(v, ts)]) → key_builder_rep b d (vs ++ [(v, ts)]) [].
Proof.
  intros (es & p & -> & Hp & Hr & Ht & Hd) Hok. pose proof (one_unit_val _ _ _ Hok) as ->. destruct v. destruct Hp as [[_ ->]|[? _]]; [|done].
  exists es, ts. split_and!; try done. by right.
Qed.

Lemma key_push_key b d vs k : key_builder_rep b d vs [] → data_ok (d ++ [(k, vs)]) →
  ∃ b', push_key b k = Some b' ∧ key_builder_rep b' (d ++ [(k, vs)]) [] [].
Proof.
  intros (es & p & -> & Hp & Hr & Ht & Hd) [_ Hf]. rewrite fmap_app in Hf. apply Forall_app in Hf as [_ [[[_ Hv] Hne] _]%Forall_cons]. cbn [snd] in Hne, Hv.
  destruct Hp as [[-> _]|[-> _]]; [done|]. apply Forall_cons in Hv as [[_ Hpne] _]. cbn [snd] in Hpne.
  pose proof (repr_snoc _ _ _ _ k p Hr Hpne) as Hr'. unfold push_key, pushed_key. cbn [times offs keys diffs].
  assert (last (offs b) = Some (length (concat es.*2))) as -> by (destruct Hr as (_ & -> & _ & _); by rewrite offsets_last).
  cbn [mbind option_bind]. assert (length (times b) = length (concat es.*2 ++ p)) as -> by by rewrite Ht, length_fmap.
  rewrite (proj2 (Nat.ltb_lt _ _)) by (rewrite length_app; destruct p; [done|cbn; lia]). eexists. split; [done|].
  exists (es ++ [(k, p)]), []. cbn [keys offs times diffs].
  assert (concat (es ++ [(k, p)]).*2 = concat es.*2 ++ p) as Hcat by (rewrite fmap_app, concat_app; cbn; by rewrite app_nil_r).
  rewrite Hcat, app_nil_r. split_and!; try done; [|by left]. unfold key_data. by rewrite fmap_app.
Qed.

#[export] Program Instance key_builder_spec :
  BuilderSpec (VecKeyBuilder K T R) (VecKeyBatch K T R) K unit T R (H := key_builder default_key) := {| b_rep := key_builder_rep; o_rep := key_rep |}.
Next Obligation. exists [], []. split_and!; try done; [by left|]. cbn. split_and!; try done. constructor. Qed.
Next Obligation. intros b d vs ts t r v. apply key_push_time. Qed.
Next Obligation. intros b d vs ts t r v. apply key_push_time. Qed.
Next Obligation. intros b d vs ts v Hb Hok. exists b. split; [done|]. by apply key_push_val. Qed.
Next Obligation. intros b d vs ts v Hb Hok. exists b, v. split; [done|]. by apply key_push_val. Qed.
Next Obligation. intros b d vs k. apply key_push_key. Qed.
Next Obligation.
  intros b d vs k Hb Hok. destruct (key_push_key b d vs k Hb Hok) as (b' & Hp & Hb'). exists b', default_key. split; [|done].
  exact (f_equal (λ o, b ← o; Some (b, default_key)) Hp).
Qed.
Next Obligation.
  intros b d (es & p & -> & Hp & Hr & Ht & Hd) Hok. destruct Hp as [[_ ->]|[? _]]; [|done]. rewrite !app_nil_r in *.
  change (∃ o, done b = Some o ∧ key_rep o (key_data es)). destruct (leaf_from_parts_ok (concat es.*2)) as (Hleaf & Hw & He).
  unfold done. rewrite Ht, Hd, Hleaf. cbn [mbind option_bind]. rewrite (layer_from_parts_ok _ _ _ _ _ _ Hr) by (unfold Leaf.len; cbn [leaf_keys]; by rewrite length_fmap).
  cbn [mbind option_bind]. eexists. split; [done|]. exists es. split_and!; [|done|done]. split; [exact Hw|]. cbn [layer l_vals l_keys l_offs].
  change (ents ?l) with (leaf_ents l). by rewrite He.
Qed.

(** *** The batch *)
Lemma key_len es l : lrepr (SP := the_times) es l → Layer.tuples (H0 := leaf_ops st sr) l = length (tuples (key_data es)).
Proof.
  intros [Hw (_ & _ & Hc & _)]. assert (length (tuples (key_data es)) = length (concat es.*2)) as ->.
  { clear. induction es as [|[k p] es IH]; [done|]. change (key_data ((k, p) :: es)) with ((k, [((), p)]) :: key_data es).
    rewrite tuples_cons, length_app, IH. cbn [fmap list_fmap concat snd]. rewrite length_app. f_equal. cbn. unfold prefix. by rewrite app_nil_r, !length_fmap. }
  rewrite <- Hc. cbn. by rewrite leaf_ents_length.
Qed.

Lemma key_count_data es l : lrepr (SP := the_times) es l → Layer.keys l = length (key_data es).
Proof. intros [_ (Hk & _)]. unfold Layer.keys, key_data. by rewrite Hk, !length_fmap. Qed.

Lemma key_cursor_new b es : lrepr (SP := the_times) es (layer b) → ∃ c, Batch.cursor b = Some c ∧ c_rep c (key_data es).
Proof.
  intros Hr. destruct (layer_at_all es (layer b) Hr) as (c & Hc & Hat & Hch). exists (mkCursor true c). split.
  - exact (f_equal (λ o, lc ← o; Some (mkCursor true lc)) Hc).
  - by apply (key_at es (layer b) 0).
Qed.

#[export] Program Instance key_batch_spec :
  BatchSpec (VecKeyBatch K T R) (VecKeyBuilder K T R) (ValKeyCursor K T R) NoCursor K unit T R (BT := key_batch st sr default_key).
Next Obligation. by intros b d (es & _ & _ & ?). Qed.
Next Obligation. intros b d (es & Hr & -> & _). by apply key_count_data. Qed.
Next Obligation. intros b d (es & Hr & -> & _). by apply key_len. Qed.
Next Obligation. intros b d (es & Hr & -> & _). by apply key_cursor_new. Qed.
Next Obligation.
  intros b d kf vf (es & Hr & -> & Hok). apply merge_cursor_rep; [done|by apply key_count_data|by apply key_len|by apply key_cursor_new].
Qed.
End key_spec.
