(* ===== verification/VecValBatch.v ===== *)
(** Batches of keys and values with times in memory (crates/dbsp/src/trace/ord/vec/val_batch.rs).

    The batch is a layer of keys over a layer of values over a leaf of times and weights. *)
From Stdlib Require Import Sorting.Sorted.
From S2P Require Import Prelude Order Sort Quicksort Search LeanVec Consolidation Trie Leaf Layer LayerSpec Cursors MergeCursor Batch BatchSpec VecLayers.
#[local] Open Scope nat_scope.

Module VecValBatch.
Section ops.
Context `{Ord K} `{Ord V} `{Ord T} `{PartialOrder T} `{MonoidValue R}.
(** The sizes of keys, values, times and weights, and what is left behind where a key or a value is moved out. *)
Context (sk sv st sr : nat) (default_key : K) (default_val : V).
#[local] Instance times_ops : TrieOps (Leaf T R) (LeafBuilder T R) (LeafCursor T R) T T := leaf_ops st sr.
#[local] Instance vals_ops :
  TrieOps (Layer V (Leaf T R)) (LayerBuilder V (LeafBuilder T R)) (LayerCursor V (Leaf T R) (LeafCursor T R)) V T := layer_ops sv.

Record VecValBatch := mk { layer : Layer K (Layer V (Leaf T R)) }.
Implicit Types (self : VecValBatch).

Definition w_key_count self : nat := Layer.keys (layer self).
Definition w_len self : nat := Layer.tuples (layer self).

(** *** The cursor *)
#[local] Abbreviation ValsCursor := (LayerCursor V (Leaf T R) (LeafCursor T R)).
#[local] Abbreviation KeysCursor := (LayerCursor K (Layer V (Leaf T R)) ValsCursor).
Record VecValCursor := mkCursor { cursor : KeysCursor }.
Implicit Types (c : VecValCursor).

Definition w_cursor self : option VecValCursor :=
  lc ← Layer.cursor_from (layer self) 0 (Layer.keys (layer self)); Some (mkCursor lc).

Definition child c : ValsCursor := ly_child (cursor c).
Definition times c : LeafCursor T R := ly_child (child c).
(** The cursor with its child, or the child of its child, changed. *)
Definition with_child c (child : ValsCursor) : VecValCursor :=
  let lc := cursor c in mkCursor (mkLayerCursor (ly_storage lc) (ly_pos lc) (ly_bounds lc) child).
Definition with_times c (ts : LeafCursor T R) : VecValCursor :=
  let vc := child c in with_child c (mkLayerCursor (ly_storage vc) (ly_pos vc) (ly_bounds vc) ts).
(** A movement over the keys, or over the values. *)
Definition moved (lc : option KeysCursor) : option VecValCursor := lc ← lc; Some (mkCursor lc).
Definition moved_val c (vc : option ValsCursor) : option VecValCursor := vc ← vc; Some (with_child c vc).

Definition key c : option K := LayerCursor.item (cursor c).
Definition val c : option V := LayerCursor.item (child c).
Definition map_times c : option (VecValCursor * Times T R) :=
  '(lc, ts) ← all_times (λ _, true) (times c); Some (with_times c lc, ts).
Definition map_times_through c (upper : T) : option (VecValCursor * Times T R) :=
  '(lc, ts) ← all_times (λ t, less_equal t upper) (times c); Some (with_times c lc, ts).
Definition weight c : option R := assert! (LayerCursor.valid (cursor c)) in current_diff (times c).
Definition key_valid c : bool := LayerCursor.valid (cursor c).
Definition val_valid c : bool := LayerCursor.valid (child c).
Definition step_key c : option VecValCursor := moved (LayerCursor.step (cursor c)).
Definition step_key_reverse c : option VecValCursor := moved (LayerCursor.step_reverse (cursor c)).
Definition seek_key c (k : K) : option VecValCursor := moved (LayerCursor.seek sk (cursor c) k).
Definition seek_key_exact c (k : K) : option (VecValCursor * bool) :=
  c ← seek_key c k;
  if key_valid c then k' ← key c; Some (c, bool_decide (k' = k)) else Some (c, false).
Definition seek_key_with c (p : K → bool) : option VecValCursor := moved (LayerCursor.seek_with sk (cursor c) p).
Definition seek_key_with_reverse c (p : K → bool) : option VecValCursor := moved (LayerCursor.seek_with_reverse sk (cursor c) p).
Definition seek_key_reverse c (k : K) : option VecValCursor := moved (LayerCursor.seek_reverse sk (cursor c) k).
Definition step_val c : option VecValCursor := moved_val c (LayerCursor.step (child c)).
Definition seek_val c (v : V) : option VecValCursor := moved_val c (LayerCursor.seek sv (child c) v).
Definition seek_val_with c (p : V → bool) : option VecValCursor := moved_val c (LayerCursor.seek_with sv (child c) p).
Definition rewind_keys c : option VecValCursor := moved (LayerCursor.rewind (cursor c)).
Definition fast_forward_keys c : option VecValCursor := moved (LayerCursor.fast_forward (cursor c)).
Definition rewind_vals c : option VecValCursor := moved_val c (LayerCursor.rewind (child c)).
Definition step_val_reverse c : option VecValCursor := moved_val c (LayerCursor.step_reverse (child c)).
Definition seek_val_reverse c (v : V) : option VecValCursor := moved_val c (LayerCursor.seek_reverse sv (child c) v).
Definition seek_val_with_reverse c (p : V → bool) : option VecValCursor := moved_val c (LayerCursor.seek_with_reverse sv (child c) p).
Definition fast_forward_vals c : option VecValCursor := moved_val c (LayerCursor.fast_forward (child c)).
(** [map_values]; [n] bounds the iterations. *)
Fixpoint values_loop (n : nat) c : option (VecValCursor * list (V * R)) :=
  if val_valid c then
    match n with
    | O => None
    | S n =>
      v ← val c;
      r ← current_diff (times c);
      c ← step_val c;
      '(c, l) ← values_loop n c;
      Some (c, (v, r) :: l)
    end
  else Some (c, []).
Definition map_values c : option (VecValCursor * list (V * R)) := values_loop (LayerCursor.keys (child c)) c.
Definition position c : Position := mkPosition (LayerCursor.keys (cursor c)) (LayerCursor.position (cursor c)).

(** *** The builder *)
Record VecValBuilder := mkBuilder {
  keys : list K; offs : list nat; vals : list V; val_offs : list nat; b_times : list T; diffs : list R }.
Implicit Types (b : VecValBuilder).

Definition with_capacity : VecValBuilder := mkBuilder [] [0] [] [0] [] [].
Definition pushed_key b : option VecValBuilder :=
  let off := length (vals b) in
  last_off ← last (offs b);
  assert! (last_off <? off) in Some (mkBuilder (keys b) (offs b ++ [off]) (vals b) (val_offs b) (b_times b) (diffs b)).
Definition pushed_val b : option VecValBuilder :=
  let val_off := length (b_times b) in
  last_off ← last (val_offs b);
  assert! (last_off <? val_off) in Some (mkBuilder (keys b) (offs b) (vals b) (val_offs b ++ [val_off]) (b_times b) (diffs b)).
Definition push_key b (k : K) : option VecValBuilder := pushed_key (mkBuilder (keys b ++ [k]) (offs b) (vals b) (val_offs b) (b_times b) (diffs b)).
Definition push_key_mut b (k : K) : option (VecValBuilder * K) := b ← push_key b k; Some (b, default_key).
Definition push_val b (v : V) : option VecValBuilder := pushed_val (mkBuilder (keys b) (offs b) (vals b ++ [v]) (val_offs b) (b_times b) (diffs b)).
Definition push_val_mut b (v : V) : option (VecValBuilder * V) := b ← push_val b v; Some (b, default_val).
Definition push_time_diff b (t : T) (w : R) : option VecValBuilder :=
  assert! (negb (is_zero w)) in Some (mkBuilder (keys b) (offs b) (vals b) (val_offs b) (b_times b ++ [t]) (diffs b ++ [w])).
Definition push_time_diff_mut b (t : T) (w : R) : option VecValBuilder := push_time_diff b t w.
Definition done b : option VecValBatch :=
  l ← leaf_from_parts (b_times b) (diffs b);
  l ← layer_from_parts Leaf.len (vals b) (val_offs b) l;
  l ← layer_from_parts Layer.keys (keys b) (offs b) l;
  Some (mk l).
Definition num_keys b : nat := length (keys b).
Definition num_tuples b : nat := length (diffs b).
End ops.
#[global] Arguments VecValBatch : clear implicits.
#[global] Arguments VecValCursor : clear implicits.
#[global] Arguments VecValBuilder : clear implicits.

(** *** The traits *)
Section traits.
Context `{OK : Ord K} `{OV : Ord V} `{OT : Ord T} `{PT : PartialOrder T} `{MR : MonoidValue R} (sv st sr : nat) (default_key : K) (default_val : V).

#[export] Instance val_cursor : Cursor (VecValCursor K V T R) K V T R := {|
  Cursor.key_valid := key_valid; Cursor.val_valid := val_valid; Cursor.key := key; Cursor.val := val;
  Cursor.map_times := map_times; Cursor.weight := weight; Cursor.step_key := step_key sv st sr; Cursor.step_val := step_val st sr |}.
#[export] Instance val_reader : BatchReader (VecValBatch K V T R) (VecValCursor K V T R) K V T R := {|
  key_count := w_key_count; len := w_len sv st sr; Batch.cursor := w_cursor sv st sr |}.
#[export] Instance val_builder : Builder (VecValBuilder K V T R) (VecValBatch K V T R) K V T R := {|
  new_builder := with_capacity;
  MergeCursor.push_time_diff := push_time_diff; MergeCursor.push_time_diff_mut := push_time_diff_mut;
  MergeCursor.push_val := push_val; MergeCursor.push_val_mut := push_val_mut default_val;
  MergeCursor.push_key := push_key; MergeCursor.push_key_mut := push_key_mut default_key;
  MergeCursor.done := done |}.
#[export] Instance val_batch : Batch (VecValBatch K V T R) (VecValBuilder K V T R) (VecValCursor K V T R) NoCursor K V T R := {|
  consuming_cursor := merge_cursor |}.
End traits.
End VecValBatch.

(** ** The batch keeps the promises of the traits *)
Section val_spec.
Context `{OK : Ord K} `{OV : Ord V} `{OT : Ord T} `{PT : PartialOrder T} `{MR : MonoidValue R}.
Context (sv st sr : nat) (Hsv : zst_ok V sv) (Hst : zst_ok T st) (Hsr : zst_ok R sr) (default_key : K) (default_val : V).
Implicit Types (ts : Times T R) (vs p : Vals V T R) (d es : Data K V T R) (li : Layer V (Leaf T R)) (l : Layer K (Layer V (Leaf T R))).
Import VecValBatch.
#[local] Instance the_cursor : Cursor (VecValCursor K V T R) K V T R := val_cursor sv st sr.
#[local] Instance the_reader : BatchReader (VecValBatch K V T R) (VecValCursor K V T R) K V T R := val_reader sv st sr.
#[local] Instance the_times_ops : TrieOps (Leaf T R) (LeafBuilder T R) (LeafCursor T R) T T := leaf_ops st sr.
#[local] Instance the_times : TrieSpec (Leaf T R) (LeafBuilder T R) (LeafCursor T R) T T (T * R) T R (OPS := leaf_ops st sr) := leaf_spec st sr Hst Hsr.
#[local] Instance the_vals_ops :
  TrieOps (Layer V (Leaf T R)) (LayerBuilder V (LeafBuilder T R)) (LayerCursor V (Leaf T R) (LeafCursor T R)) V T := layer_ops sv.
#[local] Instance the_vals :
  TrieSpec (Layer V (Leaf T R)) (LayerBuilder V (LeafBuilder T R)) (LayerCursor V (Leaf T R) (LeafCursor T R)) V T (V * list (T * R)) (V * T) R (OPS := the_vals_ops)
  := layer_spec (SP := the_times) sv Hsv.

#[local] Abbreviation key_at := (layer_at (K := K) (SP := the_vals)).
#[local] Abbreviation key_child_at := (child_at (K := K) (OPS := the_vals_ops)).
#[local] Abbreviation layer_at_vals := (layer_at (K := V) (SP := the_times)).
#[local] Abbreviation val_child_at := (child_at (K := V) (OPS := leaf_ops st sr)).
#[local] Abbreviation val_ents := (layer_ents (SP := the_times)).

(** *** The cursor *)
(** The cursor over the values is at the value [j], and its child is on the times of that value. *)
Definition val_at li (lo hi j : nat) (vc : LayerCursor V (Leaf T R) (LeafCursor T R)) : Prop :=
  layer_at_vals (val_ents li) li lo hi j vc
  ∧ (j < hi → ∃ v q a b i, val_ents li !! j = Some (v, q) ∧ leaf_at (l_vals li) a b i (ly_child vc) ∧ sub (leaf_ents (l_vals li)) a b = q).

Lemma val_arrives li lo hi j vc : layer_at_vals (val_ents li) li lo hi j vc → (j < hi → val_child_at (val_ents li) li j (ly_child vc)) → val_at li lo hi j vc.
Proof.
  intros Hc Hch. split; [done|]. intros Hj. specialize (Hch Hj). pose proof (ya_range _ _ _ _ _ _ Hc).
  destruct (lookup_lt_is_Some_2 (val_ents li) j) as [[v q] He]; [lia|]. destruct (range_payload _ _ _ _ _ (ya_repr _ _ _ _ _ _ Hc) He) as (Hlt & Hle & Hp & _).
  unfold child_at in Hch. destruct (range_of (val_ents li) j) as [a b]. cbn [fst snd] in *. injection Hch as Hch.
  exists v, q, a, b, a. split_and!; [done| |exact Hp]. rewrite <- Hch. apply leaf_at_new; [apply (ya_repr _ _ _ _ _ _ Hc)|lia|done].
Qed.

Lemma val_at_new li lo hi vc : layer_wf (SP := the_times) li → lo < hi → hi ≤ length (val_ents li) → Layer.cursor_from li lo hi = Some vc → val_at li lo hi lo vc.
Proof.
  intros Hw%layer_wf_repr Hlt Hhi Hc. destruct (layer_at_new _ _ _ _ Hw Hlt Hhi) as (vc' & Hc' & Hat & Hch).
  assert (vc = vc') as -> by (assert (Some vc = Some vc') as [= ?] by (rewrite <- Hc, <- Hc'; done); done). by apply val_arrives.
Qed.

Definition val_cursor_rep (c : VecValCursor K V T R) d : Prop :=
  ∃ es l i, key_at es l 0 (length es) i (cursor c)
    ∧ ((i = length es ∧ d = [])
       ∨ ∃ k p lo hi j, es !! i = Some (k, p) ∧ val_at (l_vals l) lo hi j (child c)
           ∧ d = (k, sub (val_ents (l_vals l)) j hi) :: drop (S i) es).

Lemma val_cursor_inv c k vs d : val_cursor_rep c ((k, vs) :: d) →
  ∃ es l i p lo hi j, key_at es l 0 (length es) i (cursor c) ∧ es !! i = Some (k, p) ∧ val_at (l_vals l) lo hi j (child c)
    ∧ vs = sub (val_ents (l_vals l)) j hi ∧ d = drop (S i) es.
Proof.
  intros (es & l & i & Hc & [[_ ?]|(k' & p & lo & hi & j & Hi & Hl & Heq)]); [done|]. injection Heq as -> -> ->. by exists es, l, i, p, lo, hi, j.
Qed.

Lemma val_at_range li lo hi j vc : val_at li lo hi j vc → lo ≤ j ≤ hi ∧ hi ≤ length (val_ents li).
Proof. intros [Hc _]. apply (ya_range _ _ _ _ _ _ Hc). Qed.

Lemma val_value_inv c k v ts vs d : val_cursor_rep c ((k, (v, ts) :: vs) :: d) →
  ∃ es l i p lo hi j, key_at es l 0 (length es) i (cursor c) ∧ es !! i = Some (k, p) ∧ val_at (l_vals l) lo hi j (child c)
    ∧ j < hi ∧ val_ents (l_vals l) !! j = Some (v, ts) ∧ vs = sub (val_ents (l_vals l)) (S j) hi ∧ d = drop (S i) es.
Proof.
  intros (es & l & i & p & lo & hi & j & Hc & Hi & Hl & Hvs & ->)%val_cursor_inv. pose proof (val_at_range _ _ _ _ _ Hl) as Hrange.
  assert (j < hi) as Hj. { destruct (decide (j < hi)); [done|]. assert (j = hi) as -> by lia. by rewrite sub_nil in Hvs. }
  destruct (lookup_lt_is_Some_2 (val_ents (l_vals l)) j) as [[v' ts'] Hr]; [lia|].
  rewrite (sub_cons _ _ _ _ Hr Hj) in Hvs. injection Hvs as -> -> ->. exists es, l, i, p, lo, hi, j. by split_and!.
Qed.

(** The cursor arrives at the key [i]. *)
Lemma val_key_at es l i lc : key_at es l 0 (length es) i lc → (i < length es → key_child_at es l i (ly_child lc)) →
  val_cursor_rep (mkCursor lc) (drop i es).
Proof.
  intros Hc Hch. exists es, l, i. split; [done|]. destruct (decide (i < length es)) as [Hi|].
  - right. destruct (lookup_lt_is_Some_2 es i Hi) as [[k p] He]. destruct (range_payload _ _ _ _ _ (ya_repr _ _ _ _ _ _ Hc) He) as (Hlt & Hle & Hp & _).
    specialize (Hch Hi). unfold child_at in Hch. destruct (range_of es i) as [lo hi]. cbn [fst snd] in *.
    exists k, p, lo, hi, lo. split_and!; [done| |]; [|rewrite (drop_S _ _ _ He); f_equal; f_equal; exact (eq_sym Hp)].
    apply val_at_new; [apply (ya_repr _ _ _ _ _ _ Hc)|done|exact Hle|exact Hch].
  - left. pose proof (ya_range _ _ _ _ _ _ Hc). split; [lia|]. by rewrite drop_ge by lia.
Qed.

Lemma key_child_moved es l i lc lo hi j vc : key_at es l 0 (length es) i lc → val_at (l_vals l) lo hi j vc →
  key_at es l 0 (length es) i (mkLayerCursor (ly_storage lc) (ly_pos lc) (ly_bounds lc) vc).
Proof. intros [H1 H2 H3 H4 H5 H6] [[? ? ? ? ? ?] _]. split; try done. Qed.

#[export] Program Instance val_cursor_spec : CursorSpec (VecValCursor K V T R) K V T R (H := the_cursor) := {| c_rep := val_cursor_rep |}.
Next Obligation.
  intros c (es & l & i & Hc & [[-> _]|(k' & p & lo & hi & j & _ & _ & ?)]); [|done]. cbn. unfold key_valid. rewrite (layer_at_valid _ _ _ _ _ _ Hc). by apply Nat.ltb_irrefl.
Qed.
Next Obligation.
  intros c k vs d (es & l & i & p & lo & hi & j & Hc & Hi & _)%val_cursor_inv. cbn. unfold key_valid, key. rewrite (layer_at_valid _ _ _ _ _ _ Hc).
  split; [by apply Nat.ltb_lt, (lookup_lt_Some _ _ _ Hi)|]. exact (layer_at_item es l 0 _ i _ k p Hc Hi).
Qed.
Next Obligation.
  intros c k vs d (es & l & i & p & lo & hi & j & Hc & Hi & Hl & -> & _)%val_cursor_inv. pose proof (val_at_range _ _ _ _ _ Hl). destruct Hl as [Hl _].
  cbn. unfold val_valid. rewrite (layer_at_valid _ _ _ _ _ _ Hl). destruct (Nat.ltb_spec j hi) as [Hj|Hj].
  - rewrite bool_decide_eq_false_2; [done|]. intros He. apply (f_equal length) in He. rewrite sub_length in He by lia. cbn in He. lia.
  - assert (j = hi) as -> by lia. by rewrite sub_nil.
Qed.
Next Obligation.
  intros c k v ts vs d (es & l & i & p & lo & hi & j & _ & _ & [Hl _] & _ & Hr & _)%val_value_inv. cbn. unfold val. exact (layer_at_item _ _ lo hi j _ v ts Hl Hr).
Qed.
Next Obligation.
  intros c k v ts vs d (es & l & i & p & lo & hi & j & Hc & Hi & Hl & Hj & Hr & -> & ->)%val_value_inv.
  pose proof Hl as [Hvc Ht]. destruct (Ht Hj) as (v' & q & a & b & m & Hr' & Hleaf & Hq). rewrite Hr in Hr'. injection Hr' as <- <-.
  destruct (all_times_spec _ _ _ _ (λ _, true) _ Hleaf) as (lc & Ha & Hleaf'). cbn. unfold map_times, times. rewrite Ha. cbn [mbind option_bind].
  rewrite select_all, Hq. eexists. split; [done|]. assert (val_at (l_vals l) lo hi j (mkLayerCursor (ly_storage (child c)) (ly_pos (child c)) (ly_bounds (child c)) lc)) as Hl'.
  { split; [|intros _; by exists v, ts, a, b, b]. destruct Hvc as [H1 H2 H3 H4 H5 H6]. split; try done. apply Hleaf'. }
  exists es, l, i. split; [by apply (key_child_moved _ _ _ _ lo hi j)|]. right. exists k, p, lo, hi, j. split_and!; [done|done|]. by rewrite (sub_cons _ _ _ _ Hr Hj).
Qed.
Next Obligation.
  intros c k vs d (es & l & i & p & lo & hi & j & Hc & Hi & _ & _ & ->)%val_cursor_inv.
  destruct (layer_at_step _ _ _ _ _ _ Hc (lookup_lt_Some _ _ _ Hi)) as (lc & Hs & Hc' & Hch). exists (mkCursor lc). split.
  - exact (f_equal moved Hs).
  - by apply (val_key_at es l).
Qed.
Next Obligation.
  intros c k v ts vs d (es & l & i & p & lo & hi & j & Hc & Hi & Hl & Hj & Hr & -> & ->)%val_value_inv.
  destruct (layer_at_step _ _ _ _ _ _ (proj1 Hl) Hj) as (vc & Hs & Hvc & Hch). pose proof (val_arrives _ _ _ _ _ Hvc Hch) as Hl'.
  exists (with_child c vc). split; [exact (f_equal (moved_val c) Hs)|].
  exists es, l, i. split; [by apply (key_child_moved _ _ _ _ lo hi (S j))|]. right. by exists k, p, lo, hi, (S j).
Qed.

(** *** The builder *)
(** The values of the finished keys [es], then those of the key that is being built, then the times of the
    value that is being built. *)
Definition all_of es p : Vals V T R := concat es.*2 ++ p.
Definition val_builder_rep (b : VecValBuilder K V T R) d vs ts : Prop :=
  repr d (keys b) (offs b) (concat d.*2) ∧ repr (all_of d vs) (vals b) (val_offs b) (concat (all_of d vs).*2)
  ∧ b_times b = (concat (all_of d vs).*2 ++ ts).*1 ∧ diffs b = (concat (all_of d vs).*2 ++ ts).*2.
Definition val_rep (b : VecValBatch K V T R) d : Prop := lrepr (SP := the_vals) d (layer b) ∧ data_ok d.

Lemma last_offs {A E} (es : list (A * list E)) (ks : list A) os : repr es ks os (concat es.*2) → last os = Some (length (concat es.*2)).
Proof. intros (_ & -> & _ & _). by rewrite offsets_last. Qed.

Lemma val_push_time b d vs ts t r v : val_builder_rep b d vs ts → vals_ok (vs ++ [(v, ts ++ [(t, r)])]) →
  ∃ b', push_time_diff b t r = Some b' ∧ val_builder_rep b' d vs (ts ++ [(t, r)]).
Proof.
  intros (Hk & Hv & Ht & Hd) Hok. unfold push_time_diff. rewrite (proj2 (is_zero_false r) (last_time_ok _ _ _ _ _ Hok)). cbn [negb]. eexists. split; [done|].
  split_and!; try done; cbn [b_times diffs]; by rewrite ?Ht, ?Hd, app_assoc, (fmap_app _ (_ ++ ts)).
Qed.

Lemma val_push_val b d vs ts v : val_builder_rep b d vs ts → vals_ok (vs ++ [(v, ts)]) →
  ∃ b', push_val b v = Some b' ∧ val_builder_rep b' d (vs ++ [(v, ts)]) [].
Proof.
  intros (Hk & Hv & Ht & Hd) [_ Hf]. rewrite fmap_app in Hf. apply Forall_app in Hf as [_ [[_ Hne] _]%Forall_cons]. cbn [snd] in Hne.
  pose proof (repr_snoc _ _ _ _ v ts Hv Hne) as Hv'. unfold push_val, pushed_val. cbn [vals val_offs b_times keys offs diffs]. rewrite (last_offs _ _ _ Hv). cbn [mbind option_bind].
  assert (length (b_times b) = length (concat (all_of d vs).*2 ++ ts)) as -> by by rewrite Ht, length_fmap.
  rewrite (proj2 (Nat.ltb_lt _ _)) by (rewrite length_app; destruct ts; [done|cbn; lia]). eexists. split; [done|].
  assert (all_of d (vs ++ [(v, ts)]) = all_of d vs ++ [(v, ts)]) as Hall by apply app_assoc.
  assert (concat (all_of d vs ++ [(v, ts)]).*2 = concat (all_of d vs).*2 ++ ts) as Hcat by (rewrite fmap_app, concat_app; cbn; by rewrite app_nil_r).
  unfold val_builder_rep. cbn [keys offs vals val_offs b_times diffs]. rewrite Hall, Hcat, app_nil_r. by split_and!.
Qed.

Lemma val_push_key b d vs k : val_builder_rep b d vs [] → data_ok (d ++ [(k, vs)]) →
  ∃ b', push_key b k = Some b' ∧ val_builder_rep b' (d ++ [(k, vs)]) [] [].
Proof.
  intros (Hk & Hv & Ht & Hd) [_ Hf]. rewrite fmap_app in Hf. apply Forall_app in Hf as [_ [[_ Hne] _]%Forall_cons]. cbn [snd] in Hne.
  pose proof (repr_snoc _ _ _ _ k vs Hk Hne) as Hk'. unfold push_key, pushed_key. cbn [vals val_offs b_times keys offs diffs]. rewrite (last_offs _ _ _ Hk). cbn [mbind option_bind].
  assert (length (vals b) = length (concat d.*2 ++ vs)) as -> by (destruct Hv as (-> & _); by rewrite length_fmap).
  rewrite (proj2 (Nat.ltb_lt _ _)) by (rewrite length_app; destruct vs; [done|cbn; lia]). eexists. split; [done|].
  assert (concat (d ++ [(k, vs)]).*2 = concat d.*2 ++ vs) as Hcat by (rewrite fmap_app, concat_app; cbn; by rewrite app_nil_r).
  unfold val_builder_rep, all_of in *. cbn [keys offs vals val_offs b_times diffs]. rewrite Hcat, !app_nil_r in *. by split_and!.
Qed.

Lemma val_done b d : val_builder_rep b d [] [] → data_ok d → ∃ o, done b = Some o ∧ val_rep o d.
Proof.
  intros (Hk & Hv & Ht & Hd) Hok. unfold all_of in *. rewrite !app_nil_r in *. destruct (leaf_from_parts_ok (concat (concat d.*2).*2)) as (Hleaf & Hw & He).
  unfold done. rewrite Ht, Hd, Hleaf. cbn [mbind option_bind]. rewrite (layer_from_parts_ok _ _ _ _ _ _ Hv) by (unfold Leaf.len; cbn [leaf_keys]; by rewrite length_fmap).
  cbn [mbind option_bind]. rewrite (layer_from_parts_ok _ _ _ _ _ _ Hk) by (unfold Layer.keys; cbn [l_keys]; destruct Hv as (-> & _); by rewrite length_fmap).
  cbn [mbind option_bind]. eexists. split; [done|]. split; [|done].
  assert (lrepr (SP := the_times) (concat d.*2) (mkLayer (vals b) (val_offs b) (mkLeaf (concat (concat d.*2).*2).*1 (concat (concat d.*2).*2).*2))) as Hr.
  { split; [exact Hw|]. cbn [l_vals l_keys l_offs]. change (ents ?l) with (leaf_ents l). by rewrite He. }
  apply lrepr_wf in Hr as [Hlw Hents]. split; [exact Hlw|]. cbn [layer l_vals l_keys l_offs]. change (ents ?l) with (val_ents l). by rewrite Hents.
Qed.

#[export] Program Instance val_builder_spec :
  BuilderSpec (VecValBuilder K V T R) (VecValBatch K V T R) K V T R (H := val_builder default_key default_val) := {| b_rep := val_builder_rep; o_rep := val_rep |}.
Next Obligation. repeat split; constructor. Qed.
Next Obligation. intros b d vs ts t r v. apply val_push_time. Qed.
Next Obligation. intros b d vs ts t r v. apply val_push_time. Qed.
Next Obligation. intros b d vs ts v. apply val_push_val. Qed.
Next Obligation.
  intros b d vs ts v Hb Hok. destruct (val_push_val b d vs ts v Hb Hok) as (b' & Hp & Hb'). exists b', default_val. split; [|done].
  exact (f_equal (λ o, b ← o; Some (b, default_val)) Hp).
Qed.
Next Obligation. intros b d vs k. apply val_push_key. Qed.
Next Obligation.
  intros b d vs k Hb Hok. destruct (val_push_key b d vs k Hb Hok) as (b' & Hp & Hb'). exists b', default_key. split; [|done].
  exact (f_equal (λ o, b ← o; Some (b, default_key)) Hp).
Qed.
Next Obligation. intros b d. apply val_done. Qed.

(** *** The batch *)
Lemma val_tuples_count d : length (tuples d) = length (concat (concat d.*2).*2).
Proof.
  induction d as [|[k vs] d IH]; [done|]. rewrite tuples_cons. cbn [fmap list_fmap snd concat]. rewrite length_app, IH, fmap_app, concat_app, length_app. f_equal.
  unfold prefix. rewrite length_fmap. clear. induction vs as [|[v ts] vs IH]; [done|]. change (val_tups ((v, ts) :: vs)) with (prefix v ts ++ val_tups vs).
  cbn [fmap list_fmap snd concat]. rewrite !length_app, IH. unfold prefix. by rewrite length_fmap.
Qed.

Lemma val_len d l : lrepr (SP := the_vals) d l → Layer.tuples (H0 := the_vals_ops) l = length (tuples d).
Proof.
  intros [Hw (_ & _ & Hc & _)]. rewrite val_tuples_count, <- Hc. pose proof (layer_wf_repr (SP := the_times) _ Hw) as [Hlw (_ & _ & Hcl & _)].
  change (ents (l_vals l)) with (val_ents (l_vals l)). rewrite <- Hcl. cbn. by rewrite leaf_ents_length.
Qed.

Lemma val_count d l : lrepr (SP := the_vals) d l → Layer.keys l = length d.
Proof. intros [_ (Hk & _)]. unfold Layer.keys. by rewrite Hk, !length_fmap. Qed.

Lemma val_cursor_new b d : lrepr (SP := the_vals) d (layer b) → ∃ c, Batch.cursor b = Some c ∧ c_rep c d.
Proof.
  intros Hr. destruct (layer_at_all d (layer b) Hr) as (c & Hc & Hat & Hch). exists (mkCursor c). split.
  - exact (f_equal (λ o, lc ← o; Some (mkCursor lc)) Hc).
  - by apply (val_key_at d (layer b) 0).
Qed.

#[export] Program Instance val_batch_spec :
  BatchSpec (VecValBatch K V T R) (VecValBuilder K V T R) (VecValCursor K V T R) NoCursor K V T R (BT := val_batch sv st sr default_key default_val).
Next Obligation. by intros b d [_ ?]. Qed.
Next Obligation. intros b d [Hr _]. by apply val_count. Qed.
Next Obligation. intros b d [Hr _]. by apply val_len. Qed.
Next Obligation. intros b d [Hr _]. by apply val_cursor_new. Qed.
Next Obligation.
  intros b d kf vf [Hr Hok]. apply merge_cursor_rep; [done|by apply val_count|by apply val_len|by apply val_cursor_new].
Qed.
End val_spec.
