(* ===== verification/CursorList.v ===== *)
(** A cursor over the contents of several cursors (crates/dbsp/src/trace/cursor/cursor_list.rs).

    [CursorList] keeps the indexes of the cursors at the least key and, among these, of those at the least
    value.  Its weights are the sums of the cursors' weights; it does not stop at values whose weights
    cancel. *)
From S2P Require Import Prelude Sort Trie LayerSpec Scheduler MergeCursor Batch.
#[local] Open Scope nat_scope.

(** ** trait [Cursor]: the other movements *)
Module CursorMoves.
Class CursorMoves (C K V T R : Type) := {
  map_times_through : C → T → option (C * Times T R);
  step_key_reverse : C → option C;
  seek_key : C → K → option C;
  seek_key_exact : C → K → option Z → option (C * bool);
  seek_key_with : C → (K → bool) → option C;
  seek_key_with_reverse : C → (K → bool) → option C;
  seek_key_reverse : C → K → option C;
  step_val_reverse : C → option C;
  seek_val : C → V → option C;
  seek_val_reverse : C → V → option C;
  seek_val_with : C → (V → bool) → option C;
  seek_val_with_reverse : C → (V → bool) → option C;
  rewind_keys : C → option C;
  fast_forward_keys : C → option C;
  rewind_vals : C → option C;
  fast_forward_vals : C → option C;
  position : C → option (nat * Z) }.
End CursorMoves.
Export CursorMoves (CursorMoves).

Inductive Direction := Forward | Backward.
#[global] Instance direction_eq_dec : EqDecision Direction.
Proof. solve_decision. Defined.

Module CursorList.
Record CursorList (C R : Type) := mk { cursors : list C; current_key : list nat; current_val : list nat; val_direction : Direction; list_weight : R }.
Arguments mk {C R}.
Arguments cursors {C R}.
Arguments current_key {C R}.
Arguments current_val {C R}.
Arguments val_direction {C R}.
Arguments list_weight {C R}.

Section ops.
Context `{Ord K} `{Ord V} {T : Type} `{MonoidValue R} `{CU : Cursor C K V T R}.
(** Whether the time is the type [()], and a bound on the iterations of the loops that skip weights of zero. *)
Context (unit_time : bool) (bound : nat).
Implicit Types (self : CursorList C R) (cs : list C).

Definition with_cursors self cs : CursorList C R := mk cs (current_key self) (current_val self) (val_direction self) (list_weight self).
Definition with_weight self (w : R) : CursorList C R := mk (cursors self) (current_key self) (current_val self) (val_direction self) w.
Definition set_val_direction self (direction : Direction) : CursorList C R :=
  mk (cursors self) (current_key self) (current_val self) direction (list_weight self).
Definition assert_val_direction self (direction : Direction) : bool := bool_decide (val_direction self = direction).

Definition key_valid self : bool := negb (length (current_key self) =? 0).
Definition val_valid self : bool := negb (length (current_val self) =? 0).

(** [get_key] and [get_val] *)
Definition get_key (c : C) : option (option K) := if Cursor.key_valid c then k ← Cursor.key c; Some (Some k) else Some None.
Definition get_val (c : C) : option (option V) := if Cursor.val_valid c then v ← Cursor.val c; Some (Some v) else Some None.

(** An operation on the cursors with the indexes [l]. *)
Definition update_at (f : C → option C) cs (index : nat) : option (list C) := c ← cs !! index; c ← f c; Some (<[index := c]> cs).
Definition for_each (l : list nat) (f : C → option C) self : option (CursorList C R) := cs ← foldM (update_at f) (cursors self) l; Some (with_cursors self cs).

(** The loops that look for the least or the greatest: [best] is the best one yet, at the cursors [current]. *)
Fixpoint select_loop `{Ord A} (better : comparison) (get : C → option (option A)) cs (l : list nat) (best : option A) (current : list nat) : option (list nat) :=
  match l with
  | [] => Some current
  | index :: l =>
    c ← cs !! index;
    g ← get c;
    match g, best with
    | None, _ => select_loop better get cs l best current
    | Some x, None => select_loop better get cs l (Some x) (current ++ [index])
    | Some x, Some b =>
      if bool_decide (cmp x b = better) then select_loop better get cs l (Some x) [index]
      else if bool_decide (cmp x b = Eq) then select_loop better get cs l best (current ++ [index])
      else select_loop better get cs l best current
    end
  end.

Definition minimize_vals self : option (CursorList C R) :=
  assert! (assert_val_direction self Forward) in
  current_val ← select_loop Lt get_val (cursors self) (current_key self) None [];
  Some (mk (cursors self) (current_key self) current_val (val_direction self) (list_weight self)).
Definition maximize_vals self : option (CursorList C R) :=
  assert! (assert_val_direction self Backward) in
  current_val ← select_loop Gt get_val (cursors self) (current_key self) None [];
  Some (mk (cursors self) (current_key self) current_val (val_direction self) (list_weight self)).
Definition minimize_keys self : option (CursorList C R) :=
  assert! (assert_val_direction self Forward) in
  current_key ← select_loop Lt get_key (cursors self) (seq 0 (length (cursors self))) None [];
  minimize_vals (mk (cursors self) current_key (current_val self) (val_direction self) (list_weight self)).
Definition maximize_keys self : option (CursorList C R) :=
  current_key ← select_loop Gt get_key (cursors self) (seq 0 (length (cursors self))) None [];
  minimize_vals (mk (cursors self) current_key (current_val self) (val_direction self) (list_weight self)).

(** The cursor at the first index of a list. *)
Definition first self (l : list nat) : option C := index ← head l; cursors self !! index.
Definition first_val_valid self : option bool := c ← first self (current_val self); Some (Cursor.val_valid c).

(** The weights that [map_times] of one cursor adds. *)
Definition add_times (w : R) (ts : Times T R) : R := foldl (λ w p, w ⊕ p.2) w ts.
Definition add_weight self (index : nat) : option (CursorList C R) :=
  c ← cursors self !! index;
  '(c, ts) ← Cursor.map_times c;
  Some (with_weight (with_cursors self (<[index := c]> (cursors self))) (add_times (list_weight self) ts)).
Definition is_zero_weight self : option (CursorList C R * bool) :=
  if unit_time then
    assert! (key_valid self) in
    assert! (val_valid self) in
    valid ← first_val_valid self;
    assert! valid in
    self ← foldM add_weight (with_weight self mzero) (current_val self);
    Some (self, is_zero (list_weight self))
  else Some (self, false).

(** The loops over values, with a bound on their iterations. *)
Fixpoint skip_vals (step : C → option C) (next : CursorList C R → option (CursorList C R)) (n : nat) self : option (CursorList C R) :=
  '(self, skip) ← (if val_valid self then is_zero_weight self else Some (self, false));
  if (skip : bool) then
    match n with
    | O => None
    | S n => self ← for_each (current_val self) step self; self ← next self; skip_vals step next n self
    end
  else Some self.
Definition skip_zero_weight_vals_forward self : option (CursorList C R) :=
  assert! (assert_val_direction self Forward) in skip_vals Cursor.step_val minimize_vals bound self.

(** The loops over keys. *)
Fixpoint skip_keys (step : C → option C) (next : CursorList C R → option (CursorList C R)) (n : nat) self : option (CursorList C R) :=
  if key_valid self then
    self ← skip_zero_weight_vals_forward self;
    if val_valid self then Some self
    else
      match n with
      | O => None
      | S n =>
        self ← for_each (current_key self) step self;
        self ← next (set_val_direction self Forward);
        skip_keys step next n self
      end
  else Some self.
Definition skip_zero_weight_keys_forward self : option (CursorList C R) := skip_keys Cursor.step_key minimize_keys bound self.

Definition new (cursors : list C) : option (CursorList C R) :=
  self ← minimize_keys (mk cursors [] [] Forward mzero); skip_zero_weight_keys_forward self.

(** *** The trait [Cursor] *)
Definition key self : option K :=
  assert! (key_valid self) in
  c ← first self (current_key self);
  assert! (Cursor.key_valid c) in Cursor.key c.
Definition val self : option V :=
  assert! (key_valid self) in
  assert! (val_valid self) in
  c ← first self (current_val self);
  assert! (Cursor.val_valid c) in Cursor.val c.

(** [map_times] and [map_times_through] call [logic] with the pairs of one cursor after the other. *)
Definition times_at (map_times : C → option (C * Times T R)) (s : list C * Times T R) (index : nat) : option (list C * Times T R) :=
  c ← s.1 !! index; '(c, ts) ← map_times c; Some (<[index := c]> s.1, s.2 ++ ts).
Definition all_times (map_times : C → option (C * Times T R)) self : option (CursorList C R * Times T R) :=
  '(cs, ts) ← foldM (times_at map_times) (cursors self, []) (current_val self); Some (with_cursors self cs, ts).
Definition map_times self : option (CursorList C R * Times T R) := all_times Cursor.map_times self.
Definition weight self : option R :=
  assert! (key_valid self) in
  assert! (val_valid self) in
  valid ← first_val_valid self;
  assert! valid in
  assert! (negb (is_zero (list_weight self))) in Some (list_weight self).

Definition step_key self : option (CursorList C R) :=
  self ← for_each (current_key self) Cursor.step_key self;
  self ← minimize_keys (set_val_direction self Forward);
  skip_zero_weight_keys_forward self.
Definition step_val self : option (CursorList C R) :=
  assert! (assert_val_direction self Forward) in
  self ← for_each (current_val self) Cursor.step_val self;
  self ← minimize_vals self;
  skip_zero_weight_vals_forward self.
(** [map_values]; [n] bounds the iterations. *)
Fixpoint values_loop (n : nat) self : option (CursorList C R * list (V * R)) :=
  if val_valid self then
    match n with
    | O => None
    | S n =>
      v ← val self;
      let w := list_weight self in
      self ← step_val self;
      '(self, l) ← values_loop n self;
      Some (self, (v, w) :: l)
    end
  else Some (self, []).
Definition map_values self : option (CursorList C R * list (V * R)) := values_loop bound self.
End ops.

(** *** Seeking and moving backward *)
Section moves.
Context `{Ord K} `{Ord V} {T : Type} `{MonoidValue R} `{CU : Cursor C K V T R} `{CM : !CursorMoves C K V T R}.
Context (unit_time : bool) (bound : nat) (default_hash : K → Z).
Implicit Types (self : CursorList C R).

#[local] Abbreviation minimize_vals := (minimize_vals (K := K) (V := V) (T := T)).
#[local] Abbreviation maximize_vals := (maximize_vals (K := K) (V := V) (T := T)).
#[local] Abbreviation minimize_keys := (minimize_keys (K := K) (V := V) (T := T)).
#[local] Abbreviation maximize_keys := (maximize_keys (K := K) (V := V) (T := T)).
#[local] Abbreviation skip_zero_weight_vals_forward := (skip_zero_weight_vals_forward (K := K) (V := V) (T := T)).
#[local] Abbreviation skip_zero_weight_keys_forward := (skip_zero_weight_keys_forward (K := K) (V := V) (T := T)).

Definition skip_zero_weight_vals_reverse self : option (CursorList C R) :=
  assert! (assert_val_direction self Backward) in
  skip_vals unit_time CursorMoves.step_val_reverse maximize_vals bound self.
Definition skip_zero_weight_keys_reverse self : option (CursorList C R) :=
  skip_keys unit_time bound CursorMoves.step_key_reverse maximize_keys bound self.

(** What follows a movement of all the cursors, or of those at the current key. *)
Definition all_forward (f : C → option C) self : option (CursorList C R) :=
  self ← for_each (seq 0 (length (cursors self))) f self;
  self ← minimize_keys (set_val_direction self Forward);
  skip_zero_weight_keys_forward unit_time bound self.
Definition all_reverse (f : C → option C) self : option (CursorList C R) :=
  self ← for_each (seq 0 (length (cursors self))) f self;
  self ← maximize_keys (set_val_direction self Forward);
  skip_zero_weight_keys_reverse self.
Definition vals_forward (f : C → option C) self : option (CursorList C R) :=
  self ← for_each (current_key self) f self;
  self ← minimize_vals self;
  skip_zero_weight_vals_forward unit_time bound self.
Definition vals_reverse (f : C → option C) self : option (CursorList C R) :=
  self ← for_each (current_key self) f self;
  self ← maximize_vals self;
  skip_zero_weight_vals_reverse self.

Definition map_times_through self (upper : T) : option (CursorList C R * Times T R) :=
  all_times (λ c, CursorMoves.map_times_through c upper) self.
Definition step_key_reverse self : option (CursorList C R) :=
  self ← for_each (current_key self) CursorMoves.step_key_reverse self;
  self ← maximize_keys (set_val_direction self Forward);
  skip_zero_weight_keys_reverse self.
Definition seek_key self (key : K) : option (CursorList C R) := all_forward (λ c, CursorMoves.seek_key c key) self.
(** The loop of [seek_key_exact]: the cursors that have the key. *)
Fixpoint exact_loop (key : K) (hash : Z) (index : nat) (cs : list C) : option (list C * list nat) :=
  match cs with
  | [] => Some ([], [])
  | c :: cs =>
    '(c, found) ← CursorMoves.seek_key_exact c key (Some hash);
    '(cs, l) ← exact_loop key hash (index + 1) cs;
    Some (c :: cs, if (found : bool) then index :: l else l)
  end.
Definition seek_key_exact self (key : K) (hash : option Z) : option (CursorList C R * bool) :=
  let hash := match hash with Some h => h | None => default_hash key end in
  '(cs, found) ← exact_loop key hash 0 (cursors self);
  let self := mk cs found (current_val self) Forward (list_weight self) in
  self ← minimize_vals self;
  if negb (length found =? 0) then
    self ← skip_zero_weight_vals_forward unit_time bound self; Some (self, val_valid self)
  else Some (self, false).
Definition seek_key_with self (predicate : K → bool) : option (CursorList C R) := all_forward (λ c, CursorMoves.seek_key_with c predicate) self.
Definition seek_key_with_reverse self (predicate : K → bool) : option (CursorList C R) :=
  all_reverse (λ c, CursorMoves.seek_key_with_reverse c predicate) self.
Definition seek_key_reverse self (key : K) : option (CursorList C R) := all_reverse (λ c, CursorMoves.seek_key_reverse c key) self.
Definition seek_val self (v : V) : option (CursorList C R) :=
  assert! (assert_val_direction self Forward) in vals_forward (λ c, CursorMoves.seek_val c v) self.
Definition seek_val_with self (predicate : V → bool) : option (CursorList C R) :=
  assert! (assert_val_direction self Forward) in vals_forward (λ c, CursorMoves.seek_val_with c predicate) self.
Definition rewind_keys self : option (CursorList C R) := all_forward CursorMoves.rewind_keys self.
Definition fast_forward_keys self : option (CursorList C R) := all_reverse CursorMoves.fast_forward_keys self.
Definition rewind_vals self : option (CursorList C R) :=
  self ← for_each (current_key self) CursorMoves.rewind_vals self;
  self ← minimize_vals (set_val_direction self Forward);
  skip_zero_weight_vals_forward unit_time bound self.
Definition step_val_reverse self : option (CursorList C R) :=
  assert! (assert_val_direction self Backward) in
  self ← for_each (current_val self) CursorMoves.step_val_reverse self;
  self ← maximize_vals self;
  skip_zero_weight_vals_reverse self.
Definition seek_val_reverse self (v : V) : option (CursorList C R) :=
  assert! (assert_val_direction self Backward) in vals_reverse (λ c, CursorMoves.seek_val_reverse c v) self.
Definition seek_val_with_reverse self (predicate : V → bool) : option (CursorList C R) :=
  assert! (assert_val_direction self Backward) in vals_reverse (λ c, CursorMoves.seek_val_with_reverse c predicate) self.
Definition fast_forward_vals self : option (CursorList C R) :=
  self ← for_each (current_key self) CursorMoves.fast_forward_vals self;
  self ← maximize_vals (set_val_direction self Backward);
  skip_zero_weight_vals_reverse self.

(** The sums of the totals and of the offsets. *)
Fixpoint positions (cs : list C) : option (nat * Z) :=
  match cs with
  | [] => Some (0, 0%Z)
  | c :: cs => '(total, offset) ← CursorMoves.position c; '(num_keys, current_key) ← positions cs; Some (total + num_keys, (offset + current_key)%Z)
  end.
Definition position self : option (nat * Z) := positions (cursors self).
End moves.
End CursorList.
