(* ===== verification/CursorListSpec.v ===== *)
(** The cursor over several cursors reads the merge of what they read.

    [Merged] is the merge of sequences of keys: at each key, in order, what the sequences that have it hold.
    It is used twice, for the keys of the cursors and for the values of a key.  [list_rep] says that a
    [CursorList] is at the start of such a merge, without the values whose weights cancel; its movements
    keep it, so that a [CursorList] is a cursor. *)
From Stdlib Require Import Sorting.Sorted.
From S2P Require Import Prelude Sort Trie LayerSpec Scheduler MergeCursor Batch CursorList.
#[local] Open Scope nat_scope.

(** ** Merging sequences *)
Section merged.
Context `{OA : Ord A} {X : Type}.
Implicit Types (d : list (A * X)) (ds : list (list (A * X))) (m : list (A * list X)).

Definition first_key {Y} (d : list (A * Y)) : option A := fst <$> head d.
(** The payloads of the sequences whose first key is [k], and the sequences without them. *)
Definition payload (k : A) d : option X := match d with (k', x) :: _ => if decide (k' = k) then Some x else None | [] => None end.
Definition behind (k : A) d : list (A * X) := match d with (k', _) :: d' => if decide (k' = k) then d' else d | [] => [] end.
Definition here (k : A) ds : list X := omap (payload k) ds.
Definition tails (k : A) ds : list (list (A * X)) := behind k <$> ds.

Definition least {Y} (k : A) (ds : list (list (A * Y))) : Prop := Some k ∈ first_key <$> ds ∧ ∀ k', Some k' ∈ first_key <$> ds → ¬ k' ≺ k.

Inductive Merged : list (list (A * X)) → list (A * list X) → Prop :=
  | merged_end ds : Forall (eq []) ds → Merged ds []
  | merged_key ds k m : least k ds → Merged (tails k ds) m → Merged ds ((k, here k ds) :: m).

Lemma least_unique k1 k2 ds : least k1 ds → least k2 ds → k1 = k2.
Proof. intros [H1 L1] [H2 L2]. destruct (klt_trichotomy k1 k2) as [Hlt|[|Hlt]]; [by apply L2 in Hlt|done|by apply L1 in Hlt]. Qed.

Lemma least_not_nil k ds : least k ds → ¬ Forall (eq []) ds.
Proof. intros [(d & Hk & Hd)%list_elem_of_fmap _] Hf. rewrite Forall_forall in Hf. by rewrite <- (Hf d Hd) in Hk. Qed.

Lemma merged_nil_inv ds m : Merged ds m → Forall (eq []) ds → m = [].
Proof. intros Hm Hnil. inversion Hm as [|? k m' Hk _]; subst; [done|]. by apply least_not_nil in Hk. Qed.

Lemma merged_key_inv k ds m : least k ds → Merged ds m → ∃ m', m = (k, here k ds) :: m' ∧ Merged (tails k ds) m'.
Proof.
  intros Hk Hm. inversion Hm as [? Hnil|? k' m' Hk' Hm']; subst; [by apply least_not_nil in Hk|]. rewrite (least_unique k k' ds) by done. by exists m'.
Qed.

(** Every sequence starts with one of its keys or is empty. *)
Lemma least_exists ds : Forall (eq []) ds ∨ ∃ k, least k ds.
Proof.
  unfold least. induction ds as [|[|[k x] d] ds [IH|[k' [Hk' Hl]]]]; [by left|left; by constructor| | |].
  - right. exists k'. cbn. split; [by right|]. intros k1 [Hk1|Hk1]%elem_of_cons; [done|auto].
  - right. exists k. cbn. split; [by left|]. intros k1 [[= ->]|Hk1]%elem_of_cons; [apply klt_irrefl|].
    apply list_elem_of_fmap in Hk1 as (d1 & Hk1 & Hd1). rewrite Forall_forall in IH. by rewrite <- (IH d1 Hd1) in Hk1.
  - right. destruct (kltb k k') eqn:E; [apply kltb_spec in E|apply kltb_false in E].
    + exists k. cbn. split; [by left|]. intros k1 [[= ->]|Hk1]%elem_of_cons; [apply klt_irrefl|]. intros Hlt. apply (Hl k1 Hk1). by transitivity k.
    + exists k'. cbn. split; [by right|]. intros k1 [[= ->]|Hk1]%elem_of_cons; [done|auto].
Qed.

Definition sizes ds : nat := sum_list (length <$> ds).

Lemma tails_sizes k ds : sizes (tails k ds) ≤ sizes ds ∧ (least k ds → sizes (tails k ds) < sizes ds).
Proof.
  assert (sizes (tails k ds) ≤ sizes ds ∧ (Some k ∈ first_key <$> ds → sizes (tails k ds) < sizes ds)) as [H1 H2].
  { unfold sizes, tails. induction ds as [|[|[k' x] d] ds [IH1 IH2]]; cbn.
    - split; [done|by intros ?%elem_of_nil].
    - split; [done|]. intros [?|?]%elem_of_cons; [done|auto].
    - destruct (decide (k' = k)) as [->|Hne]; cbn; split; try lia. intros [[= ->]|Hk]%elem_of_cons; [done|]. specialize (IH2 Hk). lia. }
  split; [done|]. intros [Hk _]. auto.
Qed.

Lemma merged_exists ds : ∃ m, Merged ds m.
Proof.
  remember (sizes ds) as n eqn:Hn. revert ds Hn. induction n as [n IH] using lt_wf_ind. intros ds ->.
  destruct (least_exists ds) as [Hnil|[k Hk]]; [exists []; by constructor|].
  destruct (IH _ (proj2 (tails_sizes k ds) Hk) (tails k ds) eq_refl) as [m Hm]. eexists. by apply (merged_key _ k).
Qed.

Lemma merged_length ds m : Merged ds m → length m ≤ sizes ds.
Proof. induction 1 as [|ds k m Hk _ IH]; [cbn; lia|]. pose proof (proj2 (tails_sizes k ds) Hk). cbn. lia. Qed.

(** What is in the merge is what is in the sequences. *)
Lemma here_tails_perm {Y} (g : A → X → list Y) k ds :
  (ds ≫= λ d, d ≫= λ p, g p.1 p.2) ≡ₚ (here k ds ≫= g k) ++ (tails k ds ≫= λ d, d ≫= λ p, g p.1 p.2).
Proof.
  induction ds as [|[|[k' x] d] ds IH]; [done|exact IH|]. unfold here, tails in *. cbn [omap list_omap payload fmap list_fmap behind mbind list_bind] in *.
  destruct (decide (k' = k)) as [->|Hne]; cbn [mbind list_bind fst snd]; rewrite IH.
  - rewrite <- !app_assoc. by rewrite (Permutation_app_swap_app (here k ds ≫= g k) (d ≫= _)).
  - by rewrite Permutation_app_swap_app.
Qed.

Lemma merged_perm {Y} (g : A → X → list Y) ds m : Merged ds m → (ds ≫= λ d, d ≫= λ p, g p.1 p.2) ≡ₚ m ≫= λ p, p.2 ≫= g p.1.
Proof.
  induction 1 as [ds Hnil|ds k m Hk _ IH].
  - induction Hnil as [|d ds <- _ IH]; [done|]. exact IH.
  - rewrite (here_tails_perm g k). cbn. by rewrite IH.
Qed.

Lemma merged_payloads ds m k xs : Merged ds m → (k, xs) ∈ m → xs ≠ [] ∧ ∀ x, x ∈ xs → ∃ d, d ∈ ds ∧ (k, x) ∈ d.
Proof.
  induction 1 as [|ds k' m Hk _ IH]; [by intros ?%elem_of_nil|]. intros [[= -> ->]|Hin]%elem_of_cons.
  - split.
    + destruct Hk as [(d & Hd & Hin)%list_elem_of_fmap _]. intros Hnil. destruct d as [|[k x] d]; [done|]. injection Hd as ->.
      assert (x ∈ here k ds) as Hx; [|rewrite Hnil in Hx; by apply elem_of_nil in Hx]. apply list_elem_of_omap. exists ((k, x) :: d). split; [done|]. cbn. by rewrite decide_True.
    + intros x (d & Hd & Hp)%list_elem_of_omap. exists d. split; [done|]. destruct d as [|[k1 x1] d]; [done|]. cbn in Hp. destruct (decide _) as [->|]; [|done].
      injection Hp as ->. left.
  - destruct (IH Hin) as [Hne Hx]. split; [done|]. intros x Hx'. destruct (Hx x Hx') as (d & Hd & Hkx). unfold tails in Hd. apply list_elem_of_fmap in Hd as (d0 & -> & Hd).
    exists d0. split; [done|]. destruct d0 as [|[k1 x1] d0]; [done|]. cbn in Hkx. destruct (decide _); [by right|done].
Qed.

Lemma merged_sorted ds m : Merged ds m → Forall (λ d, keys_sorted d) ds → keys_sorted m.
Proof.
  induction 1 as [|ds k m [_ Hk] Hm IH]; intros Hs; [constructor|]. apply keys_sorted_cons. split.
  - apply IH. unfold tails. rewrite Forall_fmap. eapply Forall_impl; [exact Hs|]. intros [|[k1 x] d] Hd; cbn; [done|].
    destruct (decide _); [|done]. by apply keys_sorted_cons in Hd as [? _].
  - intros k' ((k1 & xs) & -> & Hin)%list_elem_of_fmap. destruct (merged_payloads _ _ _ _ Hm Hin) as [Hne Hx]. destruct xs as [|x xs]; [done|].
    destruct (Hx x) as (d & Hd & Hkx); [left|]. unfold tails in Hd. apply list_elem_of_fmap in Hd as (d0 & -> & Hd). rewrite Forall_forall in Hs. specialize (Hs d0 Hd).
    destruct d0 as [|[k2 x2] d0]; [by apply elem_of_nil in Hkx|]. apply keys_sorted_cons in Hs as [_ Hs].
    specialize (Hk k2 ltac:(apply list_elem_of_fmap; by exists ((k2, x2) :: d0))). cbn in Hkx |- *. destruct (decide (k2 = k)) as [->|Hne2].
    + apply Hs, list_elem_of_fmap. by exists (k1, x).
    + assert (k ≺ k2) as Hlt by (destruct (klt_trichotomy k2 k) as [|[|]]; done). apply elem_of_cons in Hkx as [[= -> ->]|Hkx]; [done|].
      transitivity k2; [done|]. apply Hs, list_elem_of_fmap. by exists (k1, x).
Qed.
End merged.

(** ** The positions of the sequences that satisfy a condition *)
Section positions.
Context {D : Type}.
Implicit Types (P : D → bool) (ds : list D).

Fixpoint idx P ds : list nat := match ds with [] => [] | d :: ds => (if P d then [0] else []) ++ (S <$> idx P ds) end.

Lemma idx_ext P Q ds : (∀ d, d ∈ ds → P d = Q d) → idx P ds = idx Q ds.
Proof.
  induction ds as [|d ds IH]; intros HPQ; [done|]. cbn. rewrite (HPQ d) by left. f_equal. f_equal. apply IH. intros d' Hd. apply HPQ. by right.
Qed.

Lemma idx_map (f : D → D) P ds : (∀ d, P (f d) = P d) → idx P (f <$> ds) = idx P ds.
Proof. intros Hf. induction ds as [|d ds IH]; [done|]. cbn. by rewrite Hf, <- IH. Qed.

Lemma idx_nil P ds : idx P ds = [] ↔ Forall (λ d, P d = false) ds.
Proof.
  induction ds as [|d ds IH]; [split; [constructor|done]|]. rewrite Forall_cons, <- IH. cbn. destruct (P d); [split; [done|by intros [? _]]|]. cbn.
  destruct (idx P ds); [by split|]. split; [done|by intros [_ ?]].
Qed.

Lemma idx_all ds : idx (λ _, true) ds = seq 0 (length ds).
Proof. induction ds as [|d ds IH]; [done|]. cbn. rewrite IH, <- fmap_S_seq. done. Qed.

Lemma idx_head P ds i : head (idx P ds) = Some i → ∃ d, ds !! i = Some d ∧ P d = true.
Proof.
  revert i. induction ds as [|d ds IH]; intros i; [done|]. cbn. destruct (P d) eqn:E; [intros [= <-]; by exists d|]. cbn. intros Hi.
  destruct (idx P ds) as [|j l] eqn:El; [done|]. injection Hi as <-. by apply IH.
Qed.

Lemma idx_nonempty P ds d : d ∈ ds → P d = true → ∃ i, head (idx P ds) = Some i.
Proof.
  intros Hd HP. destruct (idx P ds) as [|i l] eqn:E; [|by exists i]. apply idx_nil in E. rewrite Forall_forall in E. by rewrite (E d Hd) in HP.
Qed.
End positions.

(** ** The loops over the cursors *)
Section loops.
Context {C D : Type} (rel : C → D → Prop).
Implicit Types (cs : list C) (ds : list D) (P : D → bool).

Lemma update_shift (f : C → option C) c cs l :
  foldM (CursorList.update_at f) (c :: cs) (S <$> l) = cs ← foldM (CursorList.update_at f) cs l; Some (c :: cs).
Proof.
  revert cs. induction l as [|i l IH]; intros cs; [done|]. cbn [fmap list_fmap foldM].
  assert (CursorList.update_at f (c :: cs) (S i) = cs ← CursorList.update_at f cs i; Some (c :: cs)) as ->.
  { unfold CursorList.update_at. change ((c :: cs) !! S i) with (cs !! i). destruct (cs !! i) as [ci|]; [cbn; by destruct (f ci)|done]. }
  destruct (CursorList.update_at f cs i) as [cs1|]; [apply IH|done].
Qed.

(** An operation on the cursors whose sequences satisfy [P]. *)
Lemma update_idx (f : C → option C) P (g : D → D) cs ds : Forall2 rel cs ds → (∀ c d, rel c d → P d = true → ∃ c', f c = Some c' ∧ rel c' (g d)) →
  ∃ cs', foldM (CursorList.update_at f) cs (idx P ds) = Some cs' ∧ Forall2 rel cs' ((λ d, if P d then g d else d) <$> ds).
Proof.
  intros Hall Hf. induction Hall as [|c d cs ds Hc _ (cs' & Hcs & IH)]; [by exists []|]. cbn [idx fmap list_fmap]. destruct (P d) eqn:E; cbn [app].
  - cbn [foldM]. destruct (Hf c d Hc E) as (c' & Hfc & Hc').
    assert (CursorList.update_at f (c :: cs) 0 = Some (c' :: cs)) as -> by (unfold CursorList.update_at; cbn; by rewrite Hfc). cbn [mbind option_bind].
    rewrite update_shift, Hcs. eexists. split; [done|]. by constructor.
  - rewrite update_shift, Hcs. eexists. split; [done|]. by constructor.
Qed.

Lemma times_shift {T R} (f : C → option (C * Times T R)) c cs ts l :
  foldM (CursorList.times_at f) (c :: cs, ts) (S <$> l) = '(cs, ts) ← foldM (CursorList.times_at f) (cs, ts) l; Some (c :: cs, ts).
Proof.
  revert cs ts. induction l as [|i l IH]; intros cs ts; [done|]. cbn [fmap list_fmap foldM].
  assert (CursorList.times_at f (c :: cs, ts) (S i) = '(cs, ts) ← CursorList.times_at f (cs, ts) i; Some (c :: cs, ts)) as ->.
  { unfold CursorList.times_at. cbn [fst snd]. change ((c :: cs) !! S i) with (cs !! i). destruct (cs !! i) as [ci|]; [cbn; by destruct (f ci) as [[]|]|done]. }
  destruct (CursorList.times_at f (cs, ts) i) as [[cs1 ts1]|]; [apply IH|done].
Qed.

(** Reading the times of the cursors whose sequences satisfy [P]. *)
Lemma times_idx {T R} (f : C → option (C * Times T R)) P (g : D → Times T R) cs ds ts : Forall2 rel cs ds →
  (∀ c d, rel c d → P d = true → ∃ c', f c = Some (c', g d) ∧ rel c' d) →
  ∃ cs', foldM (CursorList.times_at f) (cs, ts) (idx P ds) = Some (cs', ts ++ (ds ≫= λ d, if P d then g d else [])) ∧ Forall2 rel cs' ds.
Proof.
  intros Hall Hf. revert ts. induction Hall as [|c d cs ds Hc _ IH]; intros ts; [exists []; cbn; by rewrite app_nil_r|]. cbn [idx mbind list_bind].
  destruct (P d) eqn:E; cbn [app].
  - cbn [foldM]. destruct (Hf c d Hc E) as (c' & Hfc & Hc').
    assert (CursorList.times_at f (c :: cs, ts) 0 = Some (c' :: cs, ts ++ g d)) as -> by (unfold CursorList.times_at; cbn; by rewrite Hfc). cbn [mbind option_bind]. rewrite times_shift. destruct (IH (ts ++ g d)) as (cs' & -> & Hcs). cbn [mbind option_bind]. eexists. split; [|by constructor].
    by rewrite <- app_assoc.
  - rewrite times_shift. destruct (IH ts) as (cs' & -> & Hcs). eexists. split; [done|by constructor].
Qed.
End loops.

(** ** Looking for the least *)
Section select.
Context `{OA : Ord A} {C : Type} (get : C → option (option A)) (cs : list C).
Implicit Types (l : list nat) (gs : list (option A)).

(** The indexes at which [m] is found. *)
Definition pick (m : A) l gs : list nat := omap (λ p, if decide (p.2 = Some m) then Some p.1 else None) (zip l gs).
Definition gets (i : nat) (g : option A) : Prop := ∃ c, cs !! i = Some c ∧ get c = Some g.

Lemma pick_cons m i l g gs : pick m (i :: l) (g :: gs) = (if decide (g = Some m) then [i] else []) ++ pick m l gs.
Proof. unfold pick. cbn. by destruct (decide _). Qed.

Lemma select_some l gs : Forall2 gets l gs → ∀ b current,
  ∃ m, CursorList.select_loop Lt get cs l (Some b) current = Some ((if decide (m = b) then current else []) ++ pick m l gs)
    ∧ (m = b ∨ Some m ∈ gs) ∧ ¬ b ≺ m ∧ ∀ m', Some m' ∈ gs → ¬ m' ≺ m.
Proof.
  induction 1 as [|i g l gs (c & Hc & Hg) _ IH]; intros b current; cbn [CursorList.select_loop].
  { exists b. rewrite decide_True, app_nil_r by done. split_and!; [done|by left|apply klt_irrefl|by intros ? ?%elem_of_nil]. }
  rewrite Hc. cbn [mbind option_bind]. rewrite Hg. cbn [mbind option_bind]. destruct g as [x|].
  2: { destruct (IH b current) as (m & -> & Hm & Hb & Hl). exists m. rewrite pick_cons, (decide_False (P := None = Some m)) by done. split_and!; [done| |done|].
       - destruct Hm; [by left|right; by right].
       - intros m' [?|?]%elem_of_cons; [done|auto]. }
  destruct (klt_trichotomy x b) as [Hlt|[->|Hgt]].
  - rewrite bool_decide_eq_true_2 by exact Hlt. destruct (IH x [i]) as (m & -> & Hm & Hx & Hl). exists m.
    assert (m ≺ b) as Hmb by (destruct (klt_trichotomy m x) as [|[->|]]; [by transitivity x|done|done]).
    rewrite pick_cons, (decide_False (P := m = b)) by (intros ->; by apply klt_irrefl in Hmb). split_and!.
    + f_equal. rewrite app_nil_l. f_equal. destruct (decide (m = x)) as [->|Hne]; [by rewrite decide_True|]. by rewrite decide_False by congruence.
    + right. destruct Hm as [->|]; [left|by right].
    + by apply klt_asym.
    + intros m' [[= ->]|?]%elem_of_cons; auto.
  - rewrite bool_decide_eq_false_2, bool_decide_eq_true_2 by (by rewrite cmp_refl). destruct (IH b (current ++ [i])) as (m & -> & Hm & Hx & Hl). exists m. rewrite pick_cons. split_and!.
    + f_equal. destruct (decide (m = b)) as [->|Hne]; [by rewrite decide_True, <- app_assoc|]. by rewrite decide_False by congruence.
    + destruct Hm; [by left|right; by right].
    + done.
    + intros m' [[= ->]|?]%elem_of_cons; auto.
  - rewrite !bool_decide_eq_false_2; [|by rewrite (proj2 (cmp_gt x b) Hgt)..]. destruct (IH b current) as (m & -> & Hm & Hx & Hl). exists m.
    assert (m ≺ x) as Hmx by (destruct (klt_trichotomy m b) as [|[->|]]; [by transitivity b|done|done]).
    rewrite pick_cons, (decide_False (P := Some x = Some m)) by (intros [= ->]; by apply klt_irrefl in Hmx). split_and!.
    + done.
    + destruct Hm; [by left|right; by right].
    + done.
    + intros m' [[= ->]|?]%elem_of_cons; [by apply klt_asym|auto].
Qed.

Lemma select_spec l gs : Forall2 gets l gs →
  (Forall (eq None) gs ∧ CursorList.select_loop Lt get cs l None [] = Some [])
  ∨ ∃ m, Some m ∈ gs ∧ (∀ m', Some m' ∈ gs → ¬ m' ≺ m) ∧ CursorList.select_loop Lt get cs l None [] = Some (pick m l gs).
Proof.
  induction 1 as [|i g l gs (c & Hc & Hg) Hall IH]; [by left|]. cbn [CursorList.select_loop]. rewrite Hc. cbn [mbind option_bind]. rewrite Hg. cbn [mbind option_bind].
  destruct g as [x|].
  - right. destruct (select_some l gs Hall x [i]) as (m & Hs & Hm & Hx & Hl). exists m. split_and!.
    + destruct Hm as [->|]; [left|by right].
    + intros m' [[= ->]|?]%elem_of_cons; auto.
    + cbn [app]. rewrite Hs, pick_cons. f_equal. f_equal. destruct (decide (m = x)) as [->|Hne]; [by rewrite decide_True|]. by rewrite decide_False by congruence.
  - destruct IH as [[Hn IH]|(m & Hm & Hl & IH)]; [left; split; [by constructor|done]|right]. exists m. split_and!; [by right| |].
    + intros m' [?|?]%elem_of_cons; [done|auto].
    + by rewrite IH, pick_cons, decide_False.
Qed.

Lemma pick_shift m l gs : pick m (S <$> l) gs = S <$> pick m l gs.
Proof.
  revert gs. induction l as [|i l IH]; intros [|g gs]; [done..|]. cbn [fmap list_fmap]. rewrite !pick_cons, IH. by destruct (decide _).
Qed.
End select.

(** ** What the cursors are at *)
Section at_cursors.
Context `{OK : Ord K} `{OV : Ord V} {T : Type} `{MR : MonoidValue R} `{CS : CursorSpec C K V T R}.
Implicit Types (c : C) (cs : list C) (d : Data K V T R) (ds : list (Data K V T R)) (vs : Vals V T R) (vss : list (Vals V T R)).
Import CursorList.

Definition at_key (k : K) d : bool := bool_decide (first_key d = Some k).
Definition at_val (k : K) (v : V) d : bool := match payload k d with Some vs => bool_decide (first_key vs = Some v) | None => false end.
(** The times of the value [v] of the key [k]. *)
Definition times_of (k : K) (v : V) d : Times T R := match payload k d with Some vs => default [] (payload v vs) | None => [] end.
Definition drop_val d : Data K V T R := match d with (k, _ :: vs) :: d' => (k, vs) :: d' | _ => d end.
(** The sequences after a step over the value [v] of [k]. *)
Definition step_vals (k : K) (v : V) ds : list (Data K V T R) := (λ d, if at_val k v d then drop_val d else d) <$> ds.

Lemma at_key_inv k d : at_key k d = true → ∃ vs d', d = (k, vs) :: d'.
Proof. intros Hk%bool_decide_eq_true. destruct d as [|[k' vs] d]; [done|]. injection Hk as ->. by eexists _, _. Qed.

Lemma at_val_inv k v d : at_val k v d = true → ∃ ts vs d', d = (k, (v, ts) :: vs) :: d'.
Proof.
  unfold at_val. destruct d as [|[k' vs] d]; [done|]. cbn. destruct (decide (k' = k)) as [->|]; [|done]. intros Hv%bool_decide_eq_true.
  destruct vs as [|[v' ts] vs]; [done|]. injection Hv as ->. by eexists _, _, _.
Qed.

Lemma times_of_at k v ts vs d : at_val k v ((k, (v, ts) :: vs) :: d) = true ∧ times_of k v ((k, (v, ts) :: vs) :: d) = ts.
Proof. unfold at_val, times_of. cbn. rewrite decide_True by done. cbn. by rewrite decide_True, bool_decide_eq_true_2. Qed.

(** *** Stepping *)
Lemma behind_at_key k ds : (λ d, if at_key k d then tail d else d) <$> ds = tails k ds.
Proof.
  apply list_fmap_ext. intros _ d _. unfold at_key. destruct d as [|[k' vs] d]; [by destruct (bool_decide _)|]. cbn.
  destruct (decide (k' = k)) as [->|Hne]; [by rewrite bool_decide_eq_true_2|]. by rewrite bool_decide_eq_false_2 by congruence.
Qed.

Lemma step_first_key k v d : first_key (if at_val k v d then drop_val d else d) = first_key d.
Proof. destruct (at_val k v d) eqn:E; [|done]. by apply at_val_inv in E as (ts & vs & d' & ->). Qed.

Lemma step_vals_here k v ds : here k (step_vals k v ds) = tails v (here k ds).
Proof.
  unfold here, tails, step_vals. induction ds as [|d ds IH]; [done|]. cbn [fmap list_fmap omap list_omap]. rewrite IH. unfold at_val.
  destruct d as [|[k' vs] d]; [done|]. cbn [payload]. destruct (decide (k' = k)) as [->|Hne]; [|cbn; by rewrite decide_False].
  destruct vs as [|[v' ts] vs]; cbn [first_key head fst fmap option_fmap option_map fmap list_fmap].
  - rewrite bool_decide_eq_false_2 by done. cbn. by rewrite decide_True.
  - destruct (decide (v' = v)) as [->|Hv].
    + rewrite bool_decide_eq_true_2 by done. cbn. by rewrite !decide_True.
    + rewrite bool_decide_eq_false_2 by (cbn; congruence). cbn. rewrite decide_True by done. by rewrite decide_False.
Qed.

Lemma step_vals_tails k v ds : tails k (step_vals k v ds) = tails k ds.
Proof.
  unfold tails, step_vals. rewrite <- list_fmap_compose. apply list_fmap_ext. intros _ d _. cbn. destruct (at_val k v d) eqn:E; [|done].
  apply at_val_inv in E as (ts & vs & d' & ->). cbn. by rewrite !decide_True.
Qed.

Lemma step_vals_least k v k' ds : least k' ds → least k' (step_vals k v ds).
Proof.
  unfold least, step_vals. rewrite <- list_fmap_compose. rewrite (list_fmap_ext (first_key ∘ _) first_key ds); [done|]. intros _ d _. apply step_first_key.
Qed.

Lemma step_vals_keys k v k' ds : idx (at_key k') (step_vals k v ds) = idx (at_key k') ds.
Proof. apply idx_map. intros d. unfold at_key. by rewrite step_first_key. Qed.

Lemma step_vals_sizes k v ds : sizes (step_vals k v ds) = sizes ds.
Proof.
  unfold sizes, step_vals. rewrite <- list_fmap_compose. f_equal. apply list_fmap_ext. intros _ d _. cbn. destruct (at_val k v d) eqn:E; [|done].
  by apply at_val_inv in E as (ts & vs & d' & ->).
Qed.

(** *** The number of values *)
Definition vsize ds : nat := length (ds ≫= λ d, d ≫= snd).

Lemma vsize_split k ds : vsize ds = sizes (here k ds) + vsize (tails k ds).
Proof.
  unfold vsize. pose proof (Permutation_length (here_tails_perm (λ _ vs, vs) k ds)) as Hp. rewrite length_app in Hp.
  assert (∀ l : list (Data K V T R), (l ≫= λ d, d ≫= λ p, p.2) = l ≫= λ d, d ≫= snd) as Heq by done. rewrite !Heq in Hp. rewrite Hp. f_equal.
  unfold sizes. generalize (here k ds) as l. induction l as [|x l IH]; [done|]. cbn. rewrite length_app. cbn in IH. by rewrite IH.
Qed.

Lemma step_vals_vsize k v ds : vsize (step_vals k v ds) ≤ vsize ds.
Proof.
  rewrite (vsize_split k (step_vals _ _ _)), (vsize_split k ds), step_vals_here, step_vals_tails.
  pose proof (proj1 (tails_sizes v (here k ds))). lia.
Qed.

(** *** Where the least is *)
Lemma pick_keys k ds : pick k (seq 0 (length ds)) (first_key <$> ds) = idx (at_key k) ds.
Proof.
  induction ds as [|d ds IH]; [done|]. cbn [length seq fmap list_fmap idx]. rewrite pick_cons, <- fmap_S_seq, pick_shift, IH. f_equal. unfold at_key.
  by destruct (decide _), (bool_decide_reflect (first_key d = Some k)).
Qed.

Lemma pick_vals k v ds : pick v (idx (at_key k) ds) (first_key <$> here k ds) = idx (at_val k v) ds.
Proof.
  unfold here. induction ds as [|d ds IH]; [done|]. cbn [omap list_omap idx]. unfold at_val at 1, at_key at 1. destruct d as [|[k' vs] d]; [cbn [payload]; rewrite bool_decide_eq_false_2 by done; cbn [app]; by rewrite pick_shift, IH|].
  cbn [payload first_key head fmap option_fmap option_map fst]. destruct (decide (k' = k)) as [->|Hne].
  - rewrite bool_decide_eq_true_2 by done. cbn [app fmap list_fmap]. rewrite pick_cons, pick_shift, IH. f_equal.
    by destruct (decide _), (bool_decide_reflect (first_key vs = Some v)).
  - rewrite bool_decide_eq_false_2 by congruence. cbn [app]. by rewrite pick_shift, IH.
Qed.

Lemma get_key_rep c d : c_rep c d → get_key c = Some (first_key d).
Proof.
  unfold get_key. destruct d as [|[k vs] d]; [by intros ->%cr_end|]. intros [Hv Hk]%cr_key. by rewrite Hv, Hk.
Qed.

Lemma get_val_rep c k vs d : c_rep c ((k, vs) :: d) → get_val c = Some (first_key vs).
Proof.
  unfold get_val. intros Hc. rewrite (cr_val_valid _ _ _ _ Hc). destruct vs as [|[v ts] vs]; [by rewrite bool_decide_eq_true_2|].
  rewrite bool_decide_eq_false_2 by done. cbn. by rewrite (cr_val _ _ _ _ _ _ Hc).
Qed.

Lemma gets_shift {A} (get : C → option (option A)) c cs l gs : Forall2 (gets get cs) l gs → Forall2 (gets get (c :: cs)) (S <$> l) gs.
Proof. intros Hall. rewrite Forall2_fmap_l. eapply Forall2_impl; [exact Hall|]. by intros i g (c' & ? & ?); exists c'. Qed.

Lemma gets_keys cs ds : Forall2 c_rep cs ds → Forall2 (gets get_key cs) (seq 0 (length cs)) (first_key <$> ds).
Proof.
  induction 1 as [|c d cs ds Hc _ IH]; [constructor|]. cbn [length seq fmap list_fmap]. constructor; [exists c; split; [done|by apply get_key_rep]|].
  rewrite <- fmap_S_seq. by apply gets_shift.
Qed.

Lemma gets_vals k cs ds : Forall2 c_rep cs ds → Forall2 (gets get_val cs) (idx (at_key k) ds) (first_key <$> here k ds).
Proof.
  unfold here. induction 1 as [|c d cs ds Hc _ IH]; [constructor|]. cbn [omap list_omap idx]. unfold at_key at 1. destruct d as [|[k' vs] d]; [cbn [payload]; rewrite bool_decide_eq_false_2 by done; by apply gets_shift|].
  cbn [payload first_key head fmap option_fmap option_map fst]. destruct (decide (k' = k)) as [->|Hne].
  - rewrite bool_decide_eq_true_2 by done. cbn [app fmap list_fmap]. constructor; [exists c; split; [done|by eapply get_val_rep]|]. by apply gets_shift.
  - rewrite bool_decide_eq_false_2 by congruence. cbn [app]. by apply gets_shift.
Qed.

Lemma none_nil {A X} (ds : list (list (A * X))) : Forall (eq None) (first_key <$> ds) → Forall (eq []) ds.
Proof. rewrite Forall_fmap. intros Hf. eapply Forall_impl; [exact Hf|]. by intros []. Qed.

(** The times of a value are those that its cursors have. *)
Lemma times_here k v ds : (ds ≫= λ d, if at_val k v d then times_of k v d else []) = concat (here v (here k ds)).
Proof.
  unfold here. induction ds as [|d ds IH]; [done|]. cbn [omap list_omap mbind list_bind]. rewrite IH. unfold at_val at 1, times_of at 1.
  destruct d as [|[k' vs] d]; [done|]. cbn [payload]. destruct (decide (k' = k)); [|done]. cbn [omap list_omap]. destruct vs as [|[v' ts] vs]; [done|].
  cbn. destruct (decide (v' = v)) as [->|Hne]; [by rewrite bool_decide_eq_true_2|]. by rewrite bool_decide_eq_false_2 by congruence.
Qed.
End at_cursors.
