(* ===== verification/CursorListMoves.v ===== *)
(** The operations of the cursor over several cursors: they move it along the merge of the cursors
    ([list_rep]), so that it keeps the promises of a cursor. *)
From S2P Require Import Prelude Sort Trie LayerSpec Scheduler MergeCursor Batch CursorList CursorListSpec.
#[local] Open Scope nat_scope.

Section moves.
Context `{OK : Ord K} `{OV : Ord V} {T : Type} `{MR : MonoidValue R} `{CS : CursorSpec C K V T R}.
Context (unit_time : bool) (bound : nat).
Implicit Types (c : C) (cs : list C) (d : Data K V T R) (ds : list (Data K V T R)) (vs : Vals V T R) (vss : list (Vals V T R)) (self : CursorList.CursorList C R).
Import CursorList.
#[local] Abbreviation minimize_vals := (minimize_vals (K := K) (V := V) (T := T)).
#[local] Abbreviation minimize_keys := (minimize_keys (K := K) (V := V) (T := T)).
#[local] Abbreviation is_zero_weight := (is_zero_weight (K := K) (V := V) (T := T) unit_time).
#[local] Abbreviation skip_zero_weight_vals_forward := (skip_zero_weight_vals_forward (K := K) (V := V) (T := T) unit_time bound).
#[local] Abbreviation skip_vals := (skip_vals (K := K) (V := V) (T := T) unit_time).
#[local] Abbreviation first_val_valid := (first_val_valid (K := K) (V := V) (T := T)).
#[local] Abbreviation key := (key (K := K) (V := V) (T := T)).
#[local] Abbreviation val := (val (K := K) (V := V) (T := T)).
#[local] Abbreviation weight := (weight (K := K) (V := V) (T := T)).
#[local] Abbreviation map_times := (map_times (K := K) (V := V) (T := T)).
#[local] Abbreviation step_key := (step_key (K := K) (V := V) (T := T) unit_time bound).
#[local] Abbreviation step_val := (step_val (K := K) (V := V) (T := T) unit_time bound).
#[local] Abbreviation new := (new (K := K) (V := V) (T := T) unit_time bound).
#[local] Abbreviation skip_keys := (skip_keys (K := K) (V := V) (T := T) unit_time bound).

(** ** The view of the cursors *)
(** A value is kept unless its weights cancel. *)
Definition kept_times (ts : Times T R) : bool := negb (unit_time && is_zero (add_times mzero ts)).
Definition seen_vals (m : list (V * list (Times T R))) : Vals V T R := List.filter (λ p, kept_times p.2) ((λ p, (p.1, concat p.2)) <$> m).
(** The values of a key, of which the cursors have [vss]. *)
Definition Seen vss vs : Prop := ∃ m, Merged vss m ∧ vs = seen_vals m.
Definition add_row (k : K) vs d : Data K V T R := match vs with [] => d | _ => (k, vs) :: d end.
Inductive Rows : list (K * list (Vals V T R)) → Data K V T R → Prop :=
  | rows_nil : Rows [] []
  | rows_cons k vss vs m d : Seen vss vs → Rows m d → Rows ((k, vss) :: m) (add_row k vs d).
(** The keys and values of the cursors together. *)
Definition View ds d : Prop := ∃ m, Merged ds m ∧ Rows m d.

Lemma seen_exists vss : ∃ vs, Seen vss vs.
Proof. destruct (merged_exists vss) as [m Hm]. by exists (seen_vals m), m. Qed.

Lemma view_exists ds : ∃ d, View ds d.
Proof.
  destruct (merged_exists ds) as [m Hm]. assert (∃ d, Rows m d) as [d Hd]; [|by exists d, m]. clear Hm.
  induction m as [|[k vss] m [d IH]]; [exists []; constructor|]. destruct (seen_exists vss) as [vs Hvs]. eexists. by constructor.
Qed.

Lemma seen_end vss vs : Seen vss vs → Forall (eq []) vss → vs = [].
Proof. intros (m & Hm & ->) Hnil. by rewrite (merged_nil_inv _ _ Hm Hnil). Qed.

Lemma seen_least v vss vs : Seen vss vs → least v vss →
  ∃ vs', Seen (tails v vss) vs' ∧ vs = if kept_times (concat (here v vss)) then (v, concat (here v vss)) :: vs' else vs'.
Proof.
  intros (m & Hm & ->) Hv. destruct (merged_key_inv v vss m Hv Hm) as (m' & -> & Hm'). exists (seen_vals m'). split; [by exists m'|done].
Qed.

Lemma view_end ds d : View ds d → Forall (eq []) ds → d = [].
Proof. intros (m & Hm & Hd) Hnil. rewrite (merged_nil_inv _ _ Hm Hnil) in Hd. by inversion Hd. Qed.

Lemma view_least k ds d : View ds d → least k ds → ∃ vs d', Seen (here k ds) vs ∧ View (tails k ds) d' ∧ d = add_row k vs d'.
Proof.
  intros (m & Hm & Hd) Hk. destruct (merged_key_inv k ds m Hk Hm) as (m' & -> & Hm'). inversion Hd; subst. eexists _, _. split_and!; [done| |done]. by exists m'.
Qed.

(** ** Positions *)
(** The current values. *)
Definition vals_at (k : K) ds (current : list nat) : Prop :=
  (Forall (eq []) (here k ds) ∧ current = []) ∨ ∃ v, least v (here k ds) ∧ current = idx (at_val k v) ds.
(** The cursors are at the key [k]. *)
Record on_key self ds (k : K) : Prop := {
  ok_cursors : Forall2 c_rep (cursors self) ds;
  ok_direction : val_direction self = Forward;
  ok_least : least k ds;
  ok_current : current_key self = idx (at_key k) ds }.
Definition on_keys self ds : Prop :=
  (Forall (eq []) ds ∧ current_key self = []) ∨ ∃ k, on_key self ds k ∧ vals_at k ds (current_val self).

Lemma minimize_vals_spec self ds k : Forall2 c_rep (cursors self) ds → val_direction self = Forward → current_key self = idx (at_key k) ds →
  ∃ current, minimize_vals self = Some (mk (cursors self) (current_key self) current Forward (list_weight self)) ∧ vals_at k ds current.
Proof.
  intros Hcs Hd Hk. unfold CursorList.minimize_vals, assert_val_direction. rewrite Hd, bool_decide_eq_true_2, Hk by done.
  destruct (select_spec get_val (cursors self) _ _ (gets_vals k _ _ Hcs)) as [[Hn ->]|(v & Hv & Hl & ->)]; cbn [mbind option_bind].
  - eexists. split; [done|]. left. split; [by apply none_nil|done].
  - eexists. split; [done|]. right. exists v. split; [by split|apply pick_vals].
Qed.

Lemma minimize_keys_spec self ds : Forall2 c_rep (cursors self) ds → val_direction self = Forward →
  ∃ self', minimize_keys self = Some self' ∧ on_keys self' ds.
Proof.
  intros Hcs Hd. unfold CursorList.minimize_keys, assert_val_direction. rewrite Hd, bool_decide_eq_true_2 by done.
  destruct (select_spec get_key (cursors self) _ _ (gets_keys _ _ Hcs)) as [[Hn ->]|(k & Hk & Hl & ->)]; cbn [mbind option_bind].
  - eexists. split; [done|]. left. split; [by apply none_nil|done].
  - rewrite (Forall2_length _ _ _ Hcs), pick_keys.
    destruct (minimize_vals_spec (mk (cursors self) (idx (at_key k) ds) (current_val self) Forward (list_weight self)) ds k) as (cv & -> & Hcv); [done..|].
    eexists. split; [done|]. right. exists k. split; [|done]. by split.
Qed.

Lemma current_some self ds k : on_key self ds k → ∃ i c vs d, head (current_key self) = Some i ∧ cursors self !! i = Some c ∧ c_rep c ((k, vs) :: d).
Proof.
  intros [Hcs _ [(d & Hk & Hd)%list_elem_of_fmap _] ->]. destruct (idx_nonempty (at_key k) ds d Hd) as [i Hi]; [by apply bool_decide_eq_true|].
  destruct (idx_head _ _ _ Hi) as (d' & Hd' & Hat). destruct (Forall2_lookup_r _ _ _ _ _ Hcs Hd') as (c & Hc & Hr).
  pose proof Hat as Heq%bool_decide_eq_true. destruct d' as [|[k' vs] d']; [done|]. injection Heq as ->. by exists i, c, vs, d'.
Qed.

Lemma least_here k v ds : least v (here k ds) → ∃ d, d ∈ ds ∧ at_val k v d = true.
Proof.
  intros [(vs & Hv & Hvs)%list_elem_of_fmap _]. apply list_elem_of_omap in Hvs as (d & Hd & Hp). exists d. split; [done|]. unfold at_val. rewrite Hp. by apply bool_decide_eq_true.
Qed.

Lemma current_val_some self ds k v : Forall2 c_rep (cursors self) ds → least v (here k ds) → current_val self = idx (at_val k v) ds →
  ∃ i c ts vs d, head (current_val self) = Some i ∧ cursors self !! i = Some c ∧ c_rep c ((k, (v, ts) :: vs) :: d).
Proof.
  intros Hcs (d & Hd & Hat)%least_here ->. destruct (idx_nonempty (at_val k v) ds d Hd Hat) as [i Hi]. destruct (idx_head _ _ _ Hi) as (d' & Hd' & Hat').
  destruct (Forall2_lookup_r _ _ _ _ _ Hcs Hd') as (c & Hc & Hr). exists i, c. unfold at_val in Hat'. destruct d' as [|[k' vs] d']; [done|]. cbn in Hat'.
  destruct (decide (k' = k)) as [->|]; [|done]. apply bool_decide_eq_true in Hat'. destruct vs as [|[v' ts] vs]; [done|]. injection Hat' as ->. by exists ts, vs, d'.
Qed.

(** ** Weights *)
Lemma add_times_app w (ts1 ts2 : Times T R) : add_times w (ts1 ++ ts2) = add_times (add_times w ts1) ts2.
Proof. apply foldl_app. Qed.

(** Adding the weights is reading the times. *)
Lemma add_weights ck cv dir (l : list nat) : ∀ cs (w : R) (ts : Times T R) cs' ts', foldM (times_at Cursor.map_times) (cs, ts) l = Some (cs', ts') →
  ∃ new, ts' = ts ++ new ∧ foldM (add_weight (K := K) (V := V) (T := T)) (mk cs ck cv dir w) l = Some (mk cs' ck cv dir (add_times w new)).
Proof.
  induction l as [|i l IH]; intros cs w ts cs' ts'; cbn [foldM]; [intros [= -> ->]; exists []; by rewrite app_nil_r|].
  assert (times_at Cursor.map_times (cs, ts) i = c ← cs !! i; '(c, ts1) ← Cursor.map_times c; Some (<[i := c]> cs, ts ++ ts1)) as -> by done.
  assert (add_weight (K := K) (V := V) (T := T) (mk cs ck cv dir w) i = c ← cs !! i; '(c, ts1) ← Cursor.map_times c; Some (mk (<[i := c]> cs) ck cv dir (add_times w ts1))) as -> by done.
  destruct (cs !! i) as [c|]; [|done]. cbn [mbind option_bind]. destruct (Cursor.map_times c) as [[c' ts1]|]; [|done]. cbn [mbind option_bind]. intros Hf. destruct (IH _ (add_times w ts1) _ _ _ Hf) as (new & -> & Hn).
  exists (ts1 ++ new). split; [by rewrite app_assoc|]. rewrite add_times_app. exact Hn.
Qed.

Lemma map_times_at k v cs ds (ts : Times T R) : Forall2 c_rep cs ds →
  ∃ cs', foldM (times_at Cursor.map_times) (cs, ts) (idx (at_val k v) ds) = Some (cs', ts ++ concat (here v (here k ds))) ∧ Forall2 c_rep cs' ds.
Proof.
  intros Hcs. rewrite <- times_here. apply (times_idx c_rep Cursor.map_times (at_val k v) (times_of k v)); [done|]. intros c d Hc Hat.
  unfold at_val, times_of in *. destruct d as [|[k' vs] d]; [done|]. cbn in *. destruct (decide (k' = k)) as [->|]; [|done]. apply bool_decide_eq_true in Hat.
  destruct vs as [|[v' ts'] vs]; [done|]. injection Hat as ->. cbn. rewrite decide_True by done. by apply cr_times.
Qed.

Lemma first_valid self ds k v : Forall2 c_rep (cursors self) ds → least v (here k ds) → current_val self = idx (at_val k v) ds →
  val_valid self = true ∧ first_val_valid self = Some true.
Proof.
  intros Hcs Hv Hcv. destruct (current_val_some self ds k v Hcs Hv Hcv) as (i & c & ts & vs & d & Hi & Hc & Hr). unfold val_valid, CursorList.first_val_valid, first. rewrite Hi.
  cbn [mbind option_bind]. rewrite Hc. cbn [mbind option_bind]. rewrite (cr_val_valid _ _ _ _ Hr), bool_decide_eq_false_2 by done. split; [|done].
  by destruct (current_val self).
Qed.

Lemma key_valid_on self ds k : on_key self ds k → key_valid self = true.
Proof. intros (i & c & vs & d & Hi & _)%current_some. unfold key_valid. by destruct (current_key self). Qed.

(** What [is_zero_weight] leaves. *)
Lemma is_zero_weight_spec self ds k v : on_key self ds k → least v (here k ds) → current_val self = idx (at_val k v) ds →
  ∃ self', is_zero_weight self = Some (self', negb (kept_times (concat (here v (here k ds))))) ∧ on_key self' ds k ∧ current_val self' = current_val self
    ∧ (unit_time = true → list_weight self' = add_times mzero (concat (here v (here k ds)))).
Proof.
  intros Hk Hv Hcv. unfold CursorList.is_zero_weight, kept_times. destruct unit_time eqn:Hu; cbn [andb negb]; [|by exists self].
  destruct Hk as [Hcs Hd Hl Hck]. rewrite (key_valid_on self ds k) by done. destruct (first_valid self ds k v Hcs Hv Hcv) as [-> ->]. cbn [mbind option_bind].
  destruct (map_times_at k v (cursors self) ds [] Hcs) as (cs' & Hf & Hcs'). rewrite <- Hcv in Hf.
  destruct (add_weights (current_key self) (current_val self) (val_direction self) _ _ mzero _ _ _ Hf) as (new & Hn & Ha). cbn [app] in Hn. subst new.
  unfold with_weight. rewrite Ha. cbn [mbind option_bind]. eexists. split; [by rewrite negb_involutive|]. by split_and!.
Qed.

(** ** Skipping values *)
(** The values that are left of the key are [vs], and the first one is kept. *)
Definition settled self ds (k : K) vs : Prop :=
  (vs = [] ∧ current_val self = [])
  ∨ ∃ v, least v (here k ds) ∧ current_val self = idx (at_val k v) ds ∧ vs ≠ [] ∧ kept_times (concat (here v (here k ds))) = true
    ∧ (unit_time = true → list_weight self = add_times mzero (concat (here v (here k ds)))).

Lemma step_vals_rep self ds k v : Forall2 c_rep (cursors self) ds → current_val self = idx (at_val k v) ds →
  ∃ self', for_each (current_val self) Cursor.step_val self = Some self' ∧ Forall2 c_rep (cursors self') (step_vals k v ds) ∧ current_key self' = current_key self
    ∧ val_direction self' = val_direction self.
Proof.
  intros Hcs Hcv. unfold for_each. rewrite Hcv. destruct (update_idx c_rep Cursor.step_val (at_val k v) drop_val (cursors self) ds Hcs) as (cs' & -> & Hcs').
  - intros c d Hc (ts & vs & d' & ->)%at_val_inv. by eapply cr_step_val.
  - cbn [mbind option_bind]. eexists. by split_and!.
Qed.

(** After a step over the values at [v]. *)
Lemma stepped_vals self ds k v : on_key self ds k → least v (here k ds) → current_val self = idx (at_val k v) ds →
  ∃ self', (self ← for_each (current_val self) Cursor.step_val self; minimize_vals self) = Some self' ∧ on_key self' (step_vals k v ds) k
    ∧ vals_at k (step_vals k v ds) (current_val self').
Proof.
  intros [Hcs Hd Hl Hck] Hv Hcv. destruct (step_vals_rep self ds k v Hcs Hcv) as (self1 & -> & Hcs1 & Hck1 & Hd1). cbn [mbind option_bind].
  destruct (minimize_vals_spec self1 (step_vals k v ds) k) as (cv & -> & Hcv'); [done|congruence|by rewrite step_vals_keys, Hck1|].
  eexists. split; [done|]. split; [|done]. split; cbn; [done|done|by apply step_vals_least|by rewrite step_vals_keys, Hck1].
Qed.

Lemma skip_vals_spec n : ∀ self ds k vs, on_key self ds k → vals_at k ds (current_val self) → Seen (here k ds) vs → sizes (here k ds) ≤ n →
  ∃ self' ds', skip_vals Cursor.step_val minimize_vals n self = Some self' ∧ on_key self' ds' k ∧ tails k ds' = tails k ds ∧ sizes ds' = sizes ds ∧ vsize ds' ≤ vsize ds
    ∧ Seen (here k ds') vs ∧ settled self' ds' k vs.
Proof.
  induction n as [|n IH]; intros self ds k vs Hk Hvals Hseen Hn; cbn [CursorList.skip_vals]; (destruct Hvals as [[Hnil Hcv]|(v & Hv & Hcv)];
    [unfold val_valid; rewrite Hcv; cbn; exists self, ds; split_and!; try done; left; split; [by eapply seen_end|done]|]).
  1: { pose proof (proj2 (tails_sizes v (here k ds)) Hv). lia. }
  rewrite (proj1 (first_valid self ds k v (ok_cursors _ _ _ Hk) Hv Hcv)).
  destruct (is_zero_weight_spec self ds k v Hk Hv Hcv) as (self1 & -> & Hk1 & Hcv1 & Hw). cbn [mbind option_bind].
  destruct (seen_least v _ _ Hseen Hv) as (vs' & Hseen' & Hvs). destruct (kept_times (concat (here v (here k ds)))) eqn:E; cbn [negb].
  - exists self1, ds. split_and!; try done. right. exists v. split_and!; try done; [congruence|by rewrite Hvs].
  - destruct (stepped_vals self1 ds k v Hk1 Hv) as (self2 & Hstep & Hk2 & Hvals2); [congruence|].
    destruct (for_each (current_val self1) Cursor.step_val self1) as [self1'|]; [|done]. cbn [mbind option_bind] in Hstep |- *. rewrite Hstep. cbn [mbind option_bind].
    rewrite Hvs. destruct (IH self2 (step_vals k v ds) k vs' Hk2 Hvals2) as (self' & ds' & -> & Hk' & Ht & Hs & Hv' & Hseen'' & Hset).
    + by rewrite step_vals_here.
    + rewrite step_vals_here. pose proof (proj2 (tails_sizes v (here k ds)) Hv). lia.
    + exists self', ds'. rewrite step_vals_tails in Ht. rewrite step_vals_sizes in Hs. pose proof (step_vals_vsize k v ds). split_and!; try done. lia.
Qed.

(** ** Skipping keys *)
(** The cursor is at the start of [d], which may be in the middle of a key. *)
Definition list_rep self d : Prop :=
  (current_key self = [] ∧ d = [])
  ∨ ∃ ds k vs d', on_key self ds k ∧ settled self ds k vs ∧ Seen (here k ds) vs ∧ View (tails k ds) d' ∧ d = (k, vs) :: d' ∧ sizes ds ≤ bound ∧ vsize ds ≤ bound.

Lemma skip_vals_forward self ds k vs : on_key self ds k → vals_at k ds (current_val self) → Seen (here k ds) vs → vsize ds ≤ bound →
  ∃ self' ds', skip_zero_weight_vals_forward self = Some self' ∧ on_key self' ds' k ∧ tails k ds' = tails k ds ∧ sizes ds' = sizes ds ∧ vsize ds' ≤ vsize ds
    ∧ Seen (here k ds') vs ∧ settled self' ds' k vs.
Proof.
  intros Hk Hvals Hseen Hb. unfold CursorList.skip_zero_weight_vals_forward, assert_val_direction. rewrite (ok_direction _ _ _ Hk), bool_decide_eq_true_2 by done.
  apply skip_vals_spec; [done..|]. rewrite (vsize_split k) in Hb. lia.
Qed.

Lemma step_keys_rep self ds k : on_key self ds k →
  ∃ self', (self ← for_each (current_key self) Cursor.step_key self; minimize_keys (set_val_direction self Forward)) = Some self' ∧ on_keys self' (tails k ds).
Proof.
  intros [Hcs Hd Hl Hck]. unfold for_each. rewrite Hck. destruct (update_idx c_rep Cursor.step_key (at_key k) tail (cursors self) ds Hcs) as (cs' & -> & Hcs').
  - intros c d Hc (vs & d' & ->)%at_key_inv. by eapply cr_step_key.
  - cbn [mbind option_bind]. rewrite behind_at_key in Hcs'. by apply minimize_keys_spec.
Qed.

Lemma settled_valid self ds k vs : on_key self ds k → settled self ds k vs → val_valid self = negb (bool_decide (vs = [])).
Proof.
  intros Hk [[-> Hcv]|(v & Hv & Hcv & Hne & _)]; [by unfold val_valid; rewrite Hcv|]. rewrite bool_decide_eq_false_2 by done.
  apply (first_valid self ds k v (ok_cursors _ _ _ Hk) Hv Hcv).
Qed.

Lemma list_skip_keys n : ∀ self ds d, on_keys self ds → View ds d → sizes ds ≤ n → sizes ds ≤ bound → vsize ds ≤ bound →
  ∃ self', skip_keys Cursor.step_key minimize_keys n self = Some self' ∧ list_rep self' d.
Proof.
  induction n as [|n IH]; intros self ds d Hon Hview Hn Hs Hv; cbn [CursorList.skip_keys]; (destruct Hon as [[Hnil Hck]|(k & Hk & Hvals)];
    [unfold key_valid; rewrite Hck; cbn; exists self; split; [done|]; left; split; [done|by eapply view_end]|]);
    pose proof (proj2 (tails_sizes k ds) (ok_least _ _ _ Hk)) as Hlt; [lia|].
  rewrite (key_valid_on self ds k Hk). destruct (view_least k ds d Hview (ok_least _ _ _ Hk)) as (vs & d' & Hseen & Hview' & ->).
  destruct (skip_vals_forward self ds k vs Hk Hvals Hseen Hv) as (self1 & ds1 & -> & Hk1 & Ht1 & Hs1 & Hv1 & Hseen1 & Hset1). cbn [mbind option_bind].
  rewrite (settled_valid _ _ _ _ Hk1 Hset1). destruct vs as [|p vs].
  - rewrite bool_decide_eq_true_2 by done. cbn [negb add_row]. destruct (step_keys_rep self1 ds1 k Hk1) as (self2 & Hstep & Hon2).
    destruct (for_each (current_key self1) Cursor.step_key self1) as [self1'|]; [|done]. cbn [mbind option_bind] in Hstep |- *. rewrite Hstep. cbn [mbind option_bind].
    rewrite Ht1 in Hon2. rewrite (vsize_split k) in Hv. apply (IH self2 (tails k ds)); [done|done|lia..].
  - rewrite bool_decide_eq_false_2 by done. cbn [negb add_row]. exists self1. split; [done|]. right. exists ds1, k, (p :: vs), d'. rewrite Ht1. split_and!; try done; lia.
Qed.

(** ** The cursor keeps the promises of a cursor *)
#[local] Instance list_cursor : Cursor (CursorList C R) K V T R := {|
  Cursor.key_valid := key_valid; Cursor.val_valid := val_valid; Cursor.key := key; Cursor.val := val; Cursor.map_times := map_times;
  Cursor.weight := weight; Cursor.step_key := step_key; Cursor.step_val := step_val |}.

Lemma list_rep_end self : list_rep self [] → key_valid self = false.
Proof. intros [[Hck _]|(ds & k & vs & d' & _ & _ & _ & _ & ? & _)]; [|done]. unfold key_valid. by rewrite Hck. Qed.

Lemma list_rep_key self k vs d : list_rep self ((k, vs) :: d) →
  ∃ ds, on_key self ds k ∧ settled self ds k vs ∧ Seen (here k ds) vs ∧ View (tails k ds) d ∧ sizes ds ≤ bound ∧ vsize ds ≤ bound.
Proof. intros [[_ ?]|(ds & k' & vs' & d' & Hk & Hset & Hseen & Hview & [= -> -> ->] & Hs & Hv)]; [done|]. by exists ds. Qed.

(** The first value. *)
Lemma list_rep_val self k v ts vs d : list_rep self ((k, (v, ts) :: vs) :: d) →
  ∃ ds, on_key self ds k ∧ least v (here k ds) ∧ current_val self = idx (at_val k v) ds ∧ ts = concat (here v (here k ds)) ∧ Seen (tails v (here k ds)) vs
    ∧ kept_times ts = true ∧ (unit_time = true → list_weight self = add_times mzero ts) ∧ View (tails k ds) d ∧ sizes ds ≤ bound ∧ vsize ds ≤ bound.
Proof.
  intros (ds & Hk & [[? _]|(v' & Hv' & Hcv & _ & Hkept & Hw)] & Hseen & Hview & Hs & Hvs)%list_rep_key; [done|].
  destruct (seen_least v' _ _ Hseen Hv') as (vs' & Hseen' & Heq). rewrite Hkept in Heq. injection Heq as <- -> ->. by exists ds.
Qed.

Lemma key_spec self k vs d : list_rep self ((k, vs) :: d) → key_valid self = true ∧ key self = Some k.
Proof.
  intros (ds & Hk & _)%list_rep_key. pose proof (key_valid_on _ _ _ Hk) as Hkv. split; [done|]. unfold CursorList.key. rewrite Hkv.
  destruct (current_some self ds k Hk) as (i & c & vs' & d' & Hi & Hc & Hr). unfold first. rewrite Hi. cbn [mbind option_bind]. rewrite Hc. cbn [mbind option_bind].
  by destruct (cr_key _ _ _ _ Hr) as [-> ->].
Qed.

Lemma val_spec self k v ts vs d : list_rep self ((k, (v, ts) :: vs) :: d) → val_valid self = true ∧ val self = Some v ∧ first_val_valid self = Some true.
Proof.
  intros Hself. pose proof (proj1 (key_spec _ _ _ _ Hself)) as Hkv. destruct (list_rep_val _ _ _ _ _ _ Hself) as (ds & Hk & Hv & Hcv & _).
  destruct (first_valid self ds k v (ok_cursors _ _ _ Hk) Hv Hcv) as [Hvv Hfv]. split_and!; [done| |done]. unfold CursorList.val. rewrite Hkv, Hvv.
  destruct (current_val_some self ds k v (ok_cursors _ _ _ Hk) Hv Hcv) as (i & c & ts' & vs' & d' & Hi & Hc & Hr). unfold first. rewrite Hi. cbn [mbind option_bind]. rewrite Hc.
  cbn [mbind option_bind]. rewrite (cr_val_valid _ _ _ _ Hr), bool_decide_eq_false_2 by done. cbn. by eapply cr_val.
Qed.

(** Without times, [weight] is the sum of the weights and not zero. *)
Lemma weight_spec self k v ts vs d : unit_time = true → list_rep self ((k, (v, ts) :: vs) :: d) → weight self = Some (add_times mzero ts) ∧ add_times mzero ts ≠ mzero.
Proof.
  intros Hu Hself. pose proof (proj1 (key_spec _ _ _ _ Hself)) as Hkv. destruct (val_spec _ _ _ _ _ _ Hself) as (Hvv & _ & Hfv).
  destruct (list_rep_val _ _ _ _ _ _ Hself) as (ds & _ & _ & _ & _ & _ & Hkept & Hw & _). unfold kept_times in Hkept. rewrite Hu in Hkept. cbn in Hkept. apply negb_true_iff in Hkept.
  unfold CursorList.weight. rewrite Hkv, Hvv, Hfv, (Hw Hu). cbn [mbind option_bind]. rewrite Hkept. split; [done|]. by apply is_zero_false.
Qed.

Lemma map_times_spec self k v ts vs d : list_rep self ((k, (v, ts) :: vs) :: d) →
  ∃ self', map_times self = Some (self', ts) ∧ list_rep self' ((k, (v, ts) :: vs) :: d).
Proof.
  intros Hself. pose proof Hself as [[_ ?]|(ds & k' & vs' & d' & [Hcs Hd Hl Hck] & Hset & Hseen & Hview & [= <- <- <-] & Hs & Hv)]; [done|].
  destruct Hset as [[? _]|(v' & Hv' & Hcv & Hne & Hkept & Hw)]; [done|]. destruct (seen_least v' _ _ Hseen Hv') as (vs' & Hseen' & Heq). rewrite Hkept in Heq. injection Heq as <- -> ->.
  unfold CursorList.map_times, all_times. destruct (map_times_at k v (cursors self) ds [] Hcs) as (cs' & Hf & Hcs'). rewrite Hcv, Hf. cbn [mbind option_bind app].
  eexists. split; [done|]. right. exists ds, k, ((v, concat (here v (here k ds))) :: vs'), d. split_and!; try done. right. by exists v.
Qed.

Lemma step_key_spec self k vs d : list_rep self ((k, vs) :: d) → ∃ self', step_key self = Some self' ∧ list_rep self' d.
Proof.
  intros (ds & Hk & _ & _ & Hview & Hs & Hv)%list_rep_key. unfold CursorList.step_key. destruct (step_keys_rep self ds k Hk) as (self1 & Hstep & Hon).
  destruct (for_each (current_key self) Cursor.step_key self) as [self'|]; [|done]. cbn [mbind option_bind] in Hstep |- *. rewrite Hstep. cbn [mbind option_bind].
  pose proof (proj1 (tails_sizes k ds)). rewrite (vsize_split k) in Hv. apply (list_skip_keys bound self1 (tails k ds)); [done|done|lia..].
Qed.

Lemma step_val_spec self k v ts vs d : list_rep self ((k, (v, ts) :: vs) :: d) → ∃ self', step_val self = Some self' ∧ list_rep self' ((k, vs) :: d).
Proof.
  intros (ds & Hk & Hv & Hcv & -> & Hseen & _ & _ & Hview & Hs & Hvs)%list_rep_val. unfold CursorList.step_val, assert_val_direction.
  rewrite (ok_direction _ _ _ Hk), bool_decide_eq_true_2 by done. destruct (stepped_vals self ds k v Hk Hv Hcv) as (self1 & Hstep & Hk1 & Hvals1).
  destruct (for_each (current_val self) Cursor.step_val self) as [self'|]; [|done]. cbn [mbind option_bind] in Hstep |- *. rewrite Hstep. cbn [mbind option_bind].
  pose proof (step_vals_vsize k v ds). destruct (skip_vals_forward self1 (step_vals k v ds) k vs Hk1 Hvals1) as (self2 & ds2 & -> & Hk2 & Ht2 & Hs2 & Hv2 & Hseen2 & Hset2).
  - by rewrite step_vals_here.
  - lia.
  - exists self2. split; [done|]. right. exists ds2, k, vs, d. rewrite Ht2, step_vals_tails. rewrite step_vals_sizes in Hs2. split_and!; try done; lia.
Qed.

#[local] Program Instance list_cursor_spec : CursorSpec (CursorList C R) K V T R := {| c_rep := list_rep |}.
Next Obligation. intros self Hself. by apply list_rep_end. Qed.
Next Obligation. intros self k vs d Hself. by eapply key_spec. Qed.
Next Obligation.
  intros self k vs d (ds & Hk & Hset & _)%list_rep_key. by apply (settled_valid self ds k).
Qed.
Next Obligation. intros self k v ts vs d Hself. by apply (val_spec _ _ _ _ _ _ Hself). Qed.
Next Obligation. intros self k v ts vs d Hself. by apply map_times_spec. Qed.
Next Obligation. intros self k vs d Hself. by eapply step_key_spec. Qed.
Next Obligation. intros self k v ts vs d Hself. by eapply step_val_spec. Qed.

(** A new cursor is at the start of the view of its cursors. *)
Lemma list_new_spec cs ds : Forall2 c_rep cs ds → sizes ds ≤ bound → vsize ds ≤ bound →
  ∃ self d, new cs = Some self ∧ list_rep self d ∧ View ds d.
Proof.
  intros Hcs Hs Hv. unfold CursorList.new. destruct (minimize_keys_spec (mk cs [] [] Forward mzero) ds) as (self1 & -> & Hon); [done..|]. cbn [mbind option_bind].
  destruct (view_exists ds) as [d Hview]. destruct (list_skip_keys bound self1 ds d Hon Hview Hs Hs Hv) as (self & Hself & Hrep). by exists self, d.
Qed.
End moves.
