(* ===== verification/CursorListTheorems.v ===== *)
(** Reading several batches through one cursor: every key and value once, in order, with the sum of its
    weights. *)
From Stdlib Require Import Sorting.Sorted.
From S2P Require Import Prelude Sort Consolidation Trie LayerSpec Scheduler MergeCursor Batch CursorList CursorListSpec CursorListMoves.
#[local] Open Scope nat_scope.

(** ** Reading a cursor to its end *)
(** The loop that the documentation of the trait [Cursor] gives as typical, with bounds on the iterations:
    for values that are read with their weight, and for values that are read with their times. *)
Section read.
Context {K V T R : Type} `{CU : Cursor C K V T R}.

Fixpoint read_vals {A} (read : C → option (C * A)) (n : nat) (c : C) : option (C * list (V * A)) :=
  if Cursor.val_valid c then
    match n with
    | O => None
    | S n =>
      v ← Cursor.val c;
      '(c, a) ← read c;
      c ← Cursor.step_val c;
      '(c, l) ← read_vals read n c;
      Some (c, (v, a) :: l)
    end
  else Some (c, []).
Fixpoint read_keys {A} (read : C → option (C * A)) (nv n : nat) (c : C) : option (list (K * list (V * A))) :=
  if Cursor.key_valid c then
    match n with
    | O => None
    | S n =>
      k ← Cursor.key c;
      '(c, vs) ← read_vals read nv c;
      c ← Cursor.step_key c;
      l ← read_keys read nv n c;
      Some ((k, vs) :: l)
    end
  else Some [].

Definition read_weight (c : C) : option (C * R) := w ← Cursor.weight c; Some (c, w).
End read.

Section read_spec.
Context {K V T R : Type} `{CS : CursorSpec C K V T R}.
Context {A : Type} (read : C → option (C * A)) (of_times : Times T R → A).
Context (Hread : ∀ c k v ts vs d, c_rep c ((k, (v, ts) :: vs) :: d) → ∃ c', read c = Some (c', of_times ts) ∧ c_rep c' ((k, (v, ts) :: vs) :: d)).
Implicit Types (d : Data K V T R) (vs : Vals V T R).

Definition vals_read vs : list (V * A) := (λ p, (p.1, of_times p.2)) <$> vs.
Definition data_read d : list (K * list (V * A)) := (λ p, (p.1, vals_read p.2)) <$> d.

Lemma read_vals_spec k d n : ∀ vs c, c_rep c ((k, vs) :: d) → length vs ≤ n → ∃ c', read_vals read n c = Some (c', vals_read vs) ∧ c_rep c' ((k, []) :: d).
Proof.
  induction n as [|n IH]; intros vs c Hc Hn; cbn [read_vals]; rewrite (cr_val_valid _ _ _ _ Hc); (destruct vs as [|[v ts] vs]; [by exists c|]); cbn in Hn; [lia|].
  rewrite bool_decide_eq_false_2 by done. cbn [negb]. rewrite (cr_val _ _ _ _ _ _ Hc). cbn [mbind option_bind]. destruct (Hread _ _ _ _ _ _ Hc) as (c1 & -> & Hc1). cbn [mbind option_bind].
  destruct (cr_step_val _ _ _ _ _ _ Hc1) as (c2 & -> & Hc2). cbn [mbind option_bind]. destruct (IH vs c2 Hc2) as (c' & -> & Hc'); [lia|]. by exists c'.
Qed.

Lemma read_keys_spec nv n : ∀ d c, c_rep c d → length d ≤ n → Forall (λ p, length p.2 ≤ nv) d → read_keys read nv n c = Some (data_read d).
Proof.
  induction n as [|n IH]; intros [|[k vs] d] c Hc Hn Hd; cbn [read_keys]; try (by rewrite (cr_end _ Hc)); cbn in Hn; [lia|].
  destruct (cr_key _ _ _ _ Hc) as [-> ->]. cbn [mbind option_bind]. apply Forall_cons in Hd as [Hvs Hd].
  destruct (read_vals_spec k d nv vs c Hc Hvs) as (c1 & -> & Hc1). cbn [mbind option_bind].
  destruct (cr_step_key _ _ _ _ Hc1) as (c2 & -> & Hc2). cbn [mbind option_bind]. rewrite (IH d c2 Hc2) by (done || lia). done.
Qed.
End read_spec.

(** ** What a view holds *)
Lemma perm_eq {A} (x y : list A) : x = y → x ≡ₚ y.
Proof. by intros ->. Qed.

Section views.
Context `{OK : Ord K} `{OV : Ord V} `{OT : Ord T} `{MR : MonoidValue R}.
Context (unit_time : bool).
Implicit Types (d : Data K V T R) (ds : list (Data K V T R)) (vs : Vals V T R) (vss : list (Vals V T R)).
#[local] Abbreviation Seen := (Seen (V := V) (T := T) unit_time).
#[local] Abbreviation Rows := (Rows (K := K) (V := V) (T := T) unit_time).
#[local] Abbreviation View := (View (K := K) (V := V) (T := T) unit_time).
#[local] Abbreviation seen_vals := (seen_vals (V := V) (T := T) unit_time).
#[local] Abbreviation kept_times := (kept_times (T := T) unit_time).
#[local] Abbreviation weigh := (CursorList.add_times (T := T) mzero).

Lemma seen_sorted vss vs : Seen vss vs → Forall (λ vs, keys_sorted vs) vss → keys_sorted vs ∧ Forall (λ p, kept_times p.2 = true) vs.
Proof.
  intros (m & Hm & ->) Hs. apply (merged_sorted vss m Hm) in Hs. split.
  - apply keys_sorted_filter. unfold keys_sorted in *. by rewrite <- list_fmap_compose.
  - apply Forall_forall. intros p Hp. apply list_elem_of_In, filter_In in Hp. apply Hp.
Qed.

(** A list of keys with a list of payloads for each. *)
Lemma payloads_of {X} (P : X → Prop) (ds : list (list (K * X))) m : Merged ds m → Forall (Forall (λ p, P p.2)) ds → Forall (λ p, Forall P p.2) m.
Proof.
  intros Hm Hds. apply Forall_forall. intros [k xs] Hin. destruct (merged_payloads _ _ _ _ Hm Hin) as [_ Hx]. apply Forall_forall. intros x Hxs.
  destruct (Hx x Hxs) as (d & Hd & Hkx). rewrite Forall_forall in Hds. specialize (Hds d Hd). rewrite Forall_forall in Hds. exact (Hds _ Hkx).
Qed.

(** A sequence in order of keys, each with values in order. *)
Definition ordered d : Prop := keys_sorted d ∧ Forall (λ p, keys_sorted p.2) d.

Lemma data_ok_ordered d : data_ok d → ordered d.
Proof. intros [Hs Hf]. split; [done|]. apply (Forall_fmap snd) in Hf. eapply Forall_impl; [exact Hf|]. by intros p [[? _] _]. Qed.

Lemma rows_keys m d k : Rows m d → k ∈ d.*1 → k ∈ m.*1.
Proof.
  induction 1 as [|k' vss vs m d _ _ IH]; [done|]. unfold add_row. destruct vs; cbn; [intros; right; auto|]. intros [->|]%elem_of_cons; [left|right; auto].
Qed.

Lemma rows_ordered m d : Rows m d → keys_sorted m → Forall (λ p, Forall (λ vs, keys_sorted vs) p.2) m →
  ordered d ∧ Forall (λ p, p.2 ≠ [] ∧ Forall (λ q, kept_times q.2 = true) p.2) d.
Proof.
  induction 1 as [|k vss vs m d Hseen Hrows IH]; intros Hs Hf; [repeat constructor|]. apply keys_sorted_cons in Hs as [Hs Hlt]. apply Forall_cons in Hf as [Hvss Hf].
  destruct (IH Hs Hf) as [[Hd1 Hd2] Hd3]. destruct (seen_sorted _ _ Hseen Hvss) as [Hvs Hk]. destruct vs as [|p vs]; [done|]. split; [split|].
  - apply keys_sorted_cons. split; [done|]. intros k' Hk'. apply Hlt. by eapply rows_keys.
  - by constructor.
  - by constructor.
Qed.

Lemma view_ordered ds d : View ds d → Forall ordered ds → ordered d ∧ Forall (λ p, p.2 ≠ [] ∧ Forall (λ q, kept_times q.2 = true) p.2) d.
Proof.
  intros (m & Hm & Hrows) Hds. apply (rows_ordered m d Hrows).
  - apply (merged_sorted ds m Hm). eapply Forall_impl; [exact Hds|]. by intros ? [? _].
  - apply (payloads_of (λ vs, keys_sorted vs) ds m Hm). eapply Forall_impl; [exact Hds|]. by intros ? [_ ?].
Qed.

(** *** Sizes *)
Lemma seen_length vss vs : Seen vss vs → length vs ≤ sizes vss.
Proof.
  intros (m & Hm & ->). pose proof (merged_length vss m Hm) as Hl. unfold CursorListMoves.seen_vals. rewrite List.filter_length_le, length_fmap. done.
Qed.

Lemma merged_sizes ds m : Merged ds m → Forall (λ p, sizes p.2 ≤ vsize ds) m.
Proof.
  induction 1 as [|ds k m _ _ IH]; [constructor|]. pose proof (vsize_split k ds) as Hv. constructor; [cbn [snd]; lia|]. eapply Forall_impl; [exact IH|]. intros p Hp. cbn beta in Hp. lia.
Qed.

Lemma rows_sizes m d n : Rows m d → Forall (λ p, sizes p.2 ≤ n) m → length d ≤ length m ∧ Forall (λ p, length p.2 ≤ n) d.
Proof.
  induction 1 as [|k vss vs m d Hseen _ IH]; intros Hf; [by split|]. apply Forall_cons in Hf as [Hvss Hf]. destruct (IH Hf) as [Hl Hd].
  pose proof (seen_length _ _ Hseen). cbn [snd] in Hvss. destruct vs as [|p vs]; cbn [add_row length] in *; split; try done; try lia. constructor; [cbn [snd length]; lia|done].
Qed.

Lemma view_sizes ds d : View ds d → length d ≤ sizes ds ∧ Forall (λ p, length p.2 ≤ vsize ds) d.
Proof.
  intros (m & Hm & Hrows). pose proof (merged_length ds m Hm). destruct (rows_sizes m d _ Hrows (merged_sizes ds m Hm)). split; [lia|done].
Qed.

(** *** Weights *)
Lemma add_times_sum (w : R) (ts : Times T R) : CursorList.add_times w ts = w ⊕ weigh ts.
Proof.
  revert w. induction ts as [|[t r] ts IH]; intros w; cbn; [by rewrite madd_0_r|]. unfold CursorList.add_times in *. cbn. rewrite IH, (IH (mzero ⊕ r)), madd_0_l. by rewrite madd_assoc.
Qed.

Definition weigh_vals vs : list (V * R) := (λ p, (p.1, weigh p.2)) <$> vs.
Definition weigh_data d : list ((K * V) * R) := d ≫= λ p, prefix p.1 (weigh_vals p.2).

Lemma weigh_read d : data_read weigh d ≫= (λ p, prefix p.1 p.2) = weigh_data d.
Proof. unfold weigh_data, data_read. induction d as [|p d IH]; [done|]. cbn [fmap list_fmap mbind list_bind fst snd]. by rewrite IH. Qed.

Lemma weigh_canonical d : ordered d → Forall (λ p, Forall (λ q, weigh q.2 ≠ mzero) p.2) d → canonical (weigh_data d).
Proof.
  intros [Hs Hf] Hw. induction d as [|[k vs] d IH]; [apply canonical_nil|]. apply keys_sorted_cons in Hs as [Hs Hlt]. apply Forall_cons in Hf as [Hvs Hf], Hw as [Hnz Hw].
  unfold weigh_data. cbn [mbind list_bind fst snd]. apply canonical_app. split_and!.
  - apply canonical_prefix. unfold weigh_vals. split; [unfold keys_sorted; by rewrite <- list_fmap_compose|]. by apply Forall_fmap.
  - by apply IH.
  - intros k1 [k2 v2] (j & -> & _)%prefix_keys ([[k3 v3] w] & [= -> ->] & Hp)%list_elem_of_fmap. apply klt_pair. left.
    apply list_elem_of_bind in Hp as ([k4 vs4] & Hp & Hin). unfold prefix in Hp. apply list_elem_of_fmap in Hp as ([v r] & [= -> -> ->] & _).
    apply Hlt, list_elem_of_fmap. by exists (k4, vs4).
Qed.

(** The times of a value as one weight, where there is one time. *)
Lemma weigh_prefix (v v' : V) (t : T) (ts : Times T R) : (∀ t t' : T, t = t') → wt (prefix v ts) (v', t) = if decide (v = v') then weigh ts else mzero.
Proof.
  intros Hunit. rewrite wt_prefix. destruct (decide _); [|done]. induction ts as [|[t' r] ts IH]; [done|]. rewrite (Hunit t' t), wt_cons_eq, IH.
  symmetry. etransitivity; [exact (add_times_sum (mzero ⊕ r) ts)|]. by rewrite madd_0_l.
Qed.

Lemma prefix_concat {A B : Type} (k : A) (l : list (list (B * R))) : (l ≫= prefix k) = prefix k (concat l).
Proof. induction l as [|x l IH]; [done|]. cbn [mbind list_bind concat]. rewrite IH. symmetry. apply prefix_app. Qed.

Lemma prefix_bind {A B X : Type} (k : A) (f : X → list (B * R)) (l : list X) : (l ≫= λ x, prefix k (f x)) = prefix k (l ≫= f).
Proof. induction l as [|x l IH]; [done|]. cbn [mbind list_bind]. rewrite IH. symmetry. apply prefix_app. Qed.

Lemma merged_vals vss m : Merged vss m → vss ≫= val_tups ≡ₚ m ≫= λ p, prefix p.1 (concat p.2).
Proof.
  intros Hm. transitivity (vss ≫= λ vs, vs ≫= λ p, prefix p.1 p.2); [apply perm_eq, list_bind_ext; [|done]; intros vs; apply list_bind_ext; [by intros []|done]|].
  rewrite (merged_perm (λ v ts, prefix v ts) vss m Hm). apply perm_eq, list_bind_ext; [|done]. intros p. apply prefix_concat.
Qed.

Lemma merged_data ds m : Merged ds m → ds ≫= tuples ≡ₚ m ≫= λ p, prefix p.1 (p.2 ≫= val_tups).
Proof.
  intros Hm. transitivity (ds ≫= λ d, d ≫= λ p, prefix p.1 (val_tups p.2)); [apply perm_eq, list_bind_ext; [|done]; intros d; apply list_bind_ext; [by intros []|done]|].
  rewrite (merged_perm (λ k vs, prefix k (val_tups vs)) ds m Hm). apply perm_eq, list_bind_ext; [|done]. intros p. apply prefix_bind.
Qed.

Lemma seen_weights vss vs (v : V) (t : T) : (∀ t t' : T, t = t') → Seen vss vs → wt (weigh_vals vs) v = wt (vss ≫= val_tups) (v, t).
Proof.
  intros Hunit (m & Hm & ->). rewrite (merged_vals vss m Hm).
  clear Hm. induction m as [|[v0 tss] m IH]; [done|]. cbn [mbind list_bind fst snd]. rewrite wt_app, <- IH, weigh_prefix by done.
  unfold CursorListMoves.seen_vals, weigh_vals. cbn [fmap list_fmap List.filter fst snd]. destruct (CursorListMoves.kept_times unit_time (concat tss)) eqn:E; cbn [fmap list_fmap fst snd].
  - cbn [wt]. destruct (decide (v0 = v)); [done|by rewrite madd_0_l].
  - unfold CursorListMoves.kept_times in E. apply negb_false_iff, andb_true_iff in E as [_ E]. apply is_zero_true in E. rewrite E. by destruct (decide _); rewrite madd_0_l.
Qed.

Lemma rows_weights m d (k : K) (v : V) (t : T) : (∀ t t' : T, t = t') → Rows m d → wt (weigh_data d) (k, v) = wt (m ≫= λ p, prefix p.1 (p.2 ≫= val_tups)) (k, (v, t)).
Proof.
  intros Hunit. induction 1 as [|k0 vss vs m d Hseen _ IH]; [done|]. cbn [mbind list_bind fst snd]. rewrite wt_app, <- IH, wt_prefix, <- (seen_weights vss vs v t Hunit Hseen).
  assert (weigh_data (add_row k0 vs d) = prefix k0 (weigh_vals vs) ++ weigh_data d) as -> by (by destruct vs). by rewrite wt_app, wt_prefix.
Qed.

(** The weights of a view are those of the sequences together. *)
Lemma view_weights ds d (k : K) (v : V) (t : T) : (∀ t t' : T, t = t') → View ds d → wt (weigh_data d) (k, v) = wt (ds ≫= tuples) (k, (v, t)).
Proof.
  intros Hunit (m & Hm & Hrows). by rewrite (rows_weights m d k v t Hunit Hrows), (merged_data ds m Hm).
Qed.
End views.

(** Where times are kept, the tuples of a view are those of the sequences together. *)
Section timed_views.
Context `{OK : Ord K} `{OV : Ord V} `{OT : Ord T} `{MR : MonoidValue R}.
Implicit Types (d : Data K V T R) (ds : list (Data K V T R)) (vs : Vals V T R) (vss : list (Vals V T R)).

Lemma seen_tuples vss vs : Seen (V := V) (T := T) false vss vs → vss ≫= val_tups ≡ₚ val_tups vs.
Proof.
  intros (m & Hm & ->). rewrite (merged_vals vss m Hm). apply perm_eq. clear Hm.
  unfold seen_vals, kept_times. cbn [andb negb]. rewrite List.filter_true. unfold val_tups. induction m as [|[v0 tss] m IH]; [done|].
  cbn [mbind list_bind fmap list_fmap fst snd]. by rewrite IH.
Qed.

Lemma view_tuples ds d : View (K := K) (V := V) (T := T) false ds d → ds ≫= tuples ≡ₚ tuples d.
Proof.
  intros (m & Hm & Hrows). rewrite (merged_data ds m Hm). clear Hm. induction Hrows as [|k vss vs m d Hseen _ IH]; [done|].
  assert (tuples (add_row k vs d) = prefix k (val_tups vs) ++ tuples d) as -> by (by destruct vs).
  cbn [mbind list_bind fst snd]. rewrite IH. apply Permutation_app_tail. unfold prefix. by rewrite (seen_tuples vss vs Hseen).
Qed.
End timed_views.

(** ** The theorems *)
Section theorems.
Context `{OK : Ord K} `{OV : Ord V} `{OT : Ord T} `{MR : MonoidValue R} `{CS : CursorSpec C K V T R}.
Context (bound : nat).
Implicit Types (cs : list C) (ds : list (Data K V T R)).

(** The cursors [cs] are at the start of [ds], which are in order, and [bound] is at least the number of
    their keys and of their values. *)
Definition starts cs ds : Prop := Forall2 c_rep cs ds ∧ Forall data_ok ds ∧ sizes ds ≤ bound ∧ vsize ds ≤ bound.

#[local] Instance summed_cursor : Cursor (CursorList.CursorList C R) K V T R := list_cursor true bound.
#[local] Instance timed_cursor : Cursor (CursorList.CursorList C R) K V T R := list_cursor false bound.

(** C23. Cursors over several batches without times.  A [CursorList] of cursors at the start of their
    batches that is read to its end, in the loop that the documentation of [Cursor] gives, returns every
    key and value once, in order, with the sum of its weights in the batches, and does not return those
    whose weights cancel.  No call fails an assertion and the loops that skip weights of zero end. *)
Theorem cursor_list_weights cs ds : (∀ t t' : T, t = t') → starts cs ds →
  ∃ (self : CursorList.CursorList C R) l, CursorList.new (K := K) (V := V) (T := T) (R := R) true bound cs = Some self
    ∧ read_keys (CU := summed_cursor) (read_weight (CU := summed_cursor)) bound bound self = Some l
    ∧ canonical (l ≫= λ p, prefix p.1 p.2)
    ∧ ∀ k v t, wt (l ≫= λ p, prefix p.1 p.2) (k, v) = wt (ds ≫= tuples) (k, (v, t)).
Proof.
  intros Hunit (Hcs & Hok & Hs & Hv). destruct (list_new_spec true bound cs ds Hcs Hs Hv) as (self & d & Hn & Hrep & Hview).
  destruct (view_ordered true ds d Hview) as [Hd Hkept]; [eapply Forall_impl; [exact Hok|apply data_ok_ordered]|]. destruct (view_sizes true ds d Hview) as [Hl Hlv].
  exists self, (data_read (CursorList.add_times mzero) d).
  rewrite weigh_read. split_and!; [done| | |].
  - apply (read_keys_spec (CS := list_cursor_spec true bound)); [|exact Hrep|lia|].
    + intros c k v ts vs d' Hc. exists c. split; [|exact Hc]. unfold read_weight. destruct (weight_spec true bound c k v ts vs d' eq_refl Hc) as [Hw _].
      exact (f_equal (λ o, w ← o; Some (c, w)) Hw).
    + eapply Forall_impl; [exact Hlv|]. intros p Hp. cbn beta in Hp. lia.
  - apply weigh_canonical; [done|]. eapply Forall_impl; [exact Hkept|]. intros p [_ Hp]. eapply Forall_impl; [exact Hp|]. intros q Hq. unfold kept_times in Hq.
    apply negb_true_iff in Hq. by apply is_zero_false.
  - intros k v t. by apply (view_weights true).
Qed.

(** C24. Cursors over several batches with times.  A [CursorList] of cursors at the start of their batches
    that is read to its end returns every key and value once, in order, and with it all its pairs of time
    and weight in the batches: together exactly the tuples of the batches. *)
Theorem cursor_list_times cs ds : starts cs ds →
  ∃ (self : CursorList.CursorList C R) l, CursorList.new (K := K) (V := V) (T := T) (R := R) false bound cs = Some self
    ∧ read_keys (CU := timed_cursor) (CursorList.map_times (K := K) (V := V)) bound bound self = Some l
    ∧ keys_sorted l ∧ Forall (λ p, keys_sorted p.2 ∧ p.2 ≠ []) l
    ∧ tuples l ≡ₚ ds ≫= tuples.
Proof.
  intros (Hcs & Hok & Hs & Hv). destruct (list_new_spec false bound cs ds Hcs Hs Hv) as (self & d & Hn & Hrep & Hview).
  destruct (view_ordered false ds d Hview) as [[Hd1 Hd2] Hkept]; [eapply Forall_impl; [exact Hok|apply data_ok_ordered]|]. destruct (view_sizes false ds d Hview) as [Hl Hlv].
  exists self, d. split_and!; [done| |done| |].
  - assert (data_read id d = d) as Hid.
    { unfold data_read, vals_read. clear. induction d as [|[k vs] d IH]; [done|]. cbn [fmap list_fmap fst snd]. rewrite IH. do 2 f_equal.
      clear. induction vs as [|[v ts] vs IH]; [done|]. cbn [fmap list_fmap fst snd]. by rewrite IH. }
    rewrite <- Hid at 1. apply (read_keys_spec (CS := list_cursor_spec false bound)); [|exact Hrep|lia|].
    + intros c k v ts vs d' Hc. by apply map_times_spec.
    + eapply Forall_impl; [exact Hlv|]. intros p Hp. cbn beta in Hp. lia.
  - apply Forall_forall. intros p Hp. rewrite Forall_forall in Hd2, Hkept. split; [by apply Hd2|apply (Hkept p Hp)].
  - symmetry. by apply view_tuples.
Qed.
End theorems.
