(* ===== verification/MergeSorter.v ===== *)
(** Sorting tuples that arrive in batches (crates/dbsp/src/trace/ord/merge_batcher/merge_sorter.rs).

    The sorter keeps a queue of runs, each a list of buffers whose tuples are consolidated and in order
    across the run, and merges neighbours in the queue.  Buffers have the capacity of the vectors of
    dynamic/lean_vec.rs: a full buffer is put out, an empty one of sufficient capacity is kept for reuse. *)
From S2P Require Import Prelude Sort Consolidation.
#[local] Open Scope nat_scope.

(** ** Vectors with their capacity *)
Module RawVec.
Section ops.
Context {A : Type}.
(** The size of an element. *)
Context (val_size : nat).
#[local] Open Scope Z_scope.

Definition USIZE_MAX : Z := 2 ^ 64 - 1.
Record RawVec := mk { items : list A; capacity : Z }.
Implicit Types self : RawVec.

Definition new : RawVec := mk [] (if (val_size =? 0)%nat then USIZE_MAX else 0).
Definition len self : Z := Z.of_nat (length (items self)).
Definition has_spare_capacity self : bool := 0 <? capacity self - len self.
Definition is_empty self : bool := (length (items self) =? 0)%nat.

Definition next_capacity (capacity : Z) : Z :=
  let size := Z.of_nat val_size in
  if capacity =? 0 then Z.max (128 / size) 1
  else if (4096 * 32) / size <? capacity then capacity * 2
  else (capacity * 3 + 1) / 2.
(** The loop of [reserve], with a bound on its iterations. *)
Fixpoint grow (n : nat) (required new_capacity : Z) : option Z :=
  if new_capacity <? required then
    match n with
    | O => None
    | S n => grow n required (next_capacity new_capacity)
    end
  else Some new_capacity.
Definition reserve self (additional : Z) : option RawVec :=
  let required := len self + additional in
  if required <=? capacity self then Some self
  else
    assert! (negb (required =? 0)) in
    (* [next_capacity] and [realloc] want elements of a size that is not 0. *)
    assert! (0 <? val_size)%nat in
    new_capacity ← grow (Z.to_nat required) required (next_capacity required);
    Some (mk (items self) new_capacity).

(** [push], when there is spare capacity. *)
Definition push self (x : A) : RawVec := mk (items self ++ [x]) (capacity self).
Definition clear self : RawVec := mk [] (capacity self).
End ops.
#[global] Arguments RawVec : clear implicits.
End RawVec.
Export RawVec (items, capacity).

(** [is_sorted_by] *)
Fixpoint is_sorted_by {A} (compare : A → A → comparison) (last : A) (l : list A) : bool :=
  match l with
  | [] => true
  | current :: l => match compare last current with Gt => false | _ => is_sorted_by compare current l end
  end.

(** [Vec::pop] *)
Definition pop {A} (l : list A) : option (A * list A) := match rev l with [] => None | x :: r => Some (x, rev r) end.

Module MergeSorter.
Section sorter.
Context `{Ord D} `{MonoidValue R}.
(** The size of a pair of data and weight. *)
Context (size : nat).
#[local] Abbreviation Pairs := (RawVec.RawVec (D * R)).

Record MergeSorter := mk { queue : list (list Pairs); stash : list Pairs; buffer_elements : Z }.
Implicit Types (self : MergeSorter) (batch : Pairs).

Definition BUFFER_BYTES : nat := 2 ^ 13.
Definition buffer_elements_of (element_size : nat) : Z :=
  if element_size =? 0 then RawVec.USIZE_MAX
  else if element_size <=? BUFFER_BYTES then Z.of_nat (BUFFER_BYTES / element_size)
  else 1%Z.
Definition new : MergeSorter := mk [] [] (buffer_elements_of size).

Definition with_stash self (stash : list Pairs) : MergeSorter := mk (queue self) stash (buffer_elements self).
Definition with_queue self (queue : list (list Pairs)) : MergeSorter := mk queue (stash self) (buffer_elements self).
Definition push_run self (run : list Pairs) : MergeSorter := with_queue self (queue self ++ [run]).

Definition sorted (l : list (D * R)) : bool :=
  match l with [] => true | x :: l => is_sorted_by (λ x y, cmp x.1 y.1) x l end.

Definition buffer self : option (MergeSorter * Pairs) :=
  '(self, empty) ← (match pop (stash self) with
    | Some (empty, stash) => Some (with_stash self stash, empty)
    | None => vec ← RawVec.reserve size (RawVec.new size) (buffer_elements self); Some (self, vec)
    end);
  assert! (RawVec.is_empty empty) in
  assert! (negb (capacity empty =? 0)%Z) in
  Some (self, empty).

(** A buffer that is no longer used: it is emptied and kept if it is large enough. *)
Definition recycle self batch : MergeSorter :=
  if (buffer_elements self <=? capacity batch)%Z then with_stash self (stash self ++ [RawVec.clear batch]) else self.

(** *** [merge_by] *)
(** The inner loop.  The code moves the pairs out of the batches, where they are not read again; the sum
    of two weights is in the first pair. *)
Fixpoint merge_inner (n : nat) (result batch1 : Pairs) (index1 : nat) (batch2 : Pairs) (index2 : nat) : option (Pairs * nat * nat) :=
  if RawVec.has_spare_capacity result && (index1 <? length (items batch1)) && (index2 <? length (items batch2)) then
    match n with
    | O => None
    | S n =>
      pair1 ← items batch1 !! index1;
      pair2 ← items batch2 !! index2;
      match cmp pair1.1 pair2.1 with
      | Lt => merge_inner n (RawVec.push result pair1) batch1 (index1 + 1) batch2 index2
      | Gt => merge_inner n (RawVec.push result pair2) batch1 index1 batch2 (index2 + 1)
      | Eq =>
        assert! (bool_decide (pair1.1 = pair2.1)) in
        let diff1 := pair1.2 ⊕ pair2.2 in
        let result := if negb (is_zero diff1) then RawVec.push result (pair1.1, diff1) else result in
        merge_inner n result batch1 (index1 + 1) batch2 (index2 + 1)
      end
    end
  else Some (result, index1, index2).

(** The next buffer of a list when one has been merged. *)
Definition refill self batch (index : nat) (list : list Pairs) : MergeSorter * Pairs * nat * Datatypes.list Pairs :=
  if index =? length (items batch) then
    let '(tmp_batch, list) := match list with [] => (RawVec.new size, []) | b :: list => (b, list) end in
    (recycle self batch, tmp_batch, 0, list)
  else (self, batch, index, list).

(** The outer loop, with a bound on its iterations. *)
Fixpoint merge_outer (n : nat) self (output : list Pairs) (result batch1 : Pairs) (index1 : nat) (list1 : list Pairs)
    (batch2 : Pairs) (index2 : nat) (list2 : list Pairs) :
    option (MergeSorter * list Pairs * Pairs * (Pairs * nat * list Pairs) * (Pairs * nat * list Pairs)) :=
  if (index1 <? length (items batch1)) && (index2 <? length (items batch2)) then
    match n with
    | O => None
    | S n =>
      assert! (sorted (items result)) in
      '(result, index1, index2) ← merge_inner (length (items batch1) + length (items batch2)) result batch1 index1 batch2 index2;
      assert! (sorted (items result)) in
      '(self, output, result) ← (if negb (RawVec.has_spare_capacity result) then '(self, b) ← buffer self; Some (self, output ++ [result], b)
                                 else Some (self, output, result));
      let '(self, batch1, index1, list1) := refill self batch1 index1 list1 in
      let '(self, batch2, index2, list2) := refill self batch2 index2 list2 in
      merge_outer n self output result batch1 index1 list1 batch2 index2 list2
    end
  else Some (self, output, result, (batch1, index1, list1), (batch2, index2, list2)).

(** What is left of one side: the rest of its buffer in a new one, then its other buffers. *)
Definition drain self (output : list Pairs) batch (index : nat) (list : list Pairs) : option (MergeSorter * Datatypes.list Pairs) :=
  '(self, output) ← (if index <? length (items batch) then
      v ← RawVec.reserve size (RawVec.new (A := D * R) size) (Z.of_nat (length (items batch) - index));
      let v := RawVec.mk (drop index (items batch)) (capacity v) in
      assert! (sorted (items v)) in Some (self, output ++ [v])
    else Some (recycle self batch, output));
  Some (self, output ++ list).

Definition pop_front (l : list Pairs) : Pairs * list Pairs := match l with [] => (RawVec.new size, []) | b :: l => (b, l) end.

Definition merge_by self (list1 list2 : list Pairs) : option (MergeSorter * list Pairs) :=
  let list1 := List.filter (λ batch, negb (RawVec.is_empty batch)) list1 in
  let list2 := List.filter (λ batch, negb (RawVec.is_empty batch)) list2 in
  assert! (forallb (λ batch, sorted (items batch)) (list1 ++ list2)) in
  let n := sum_list ((λ batch, length (items batch)) <$> list1 ++ list2) in
  '(self, result) ← buffer self;
  let '(batch1, list1) := pop_front list1 in
  let '(batch2, list2) := pop_front list2 in
  '(self, output, result, (batch1, index1, list1), (batch2, index2, list2)) ← merge_outer n self [] result batch1 0 list1 batch2 0 list2;
  '(self, output) ← (if negb (RawVec.is_empty result) then assert! (sorted (items result)) in Some (self, output ++ [result])
                     else Some (recycle self result, output));
  '(self, output) ← drain self output batch1 index1 list1;
  '(self, output) ← drain self output batch2 index2 list2;
  assert! (forallb (λ batch, negb (RawVec.is_empty batch)) output) in
  Some (self, output).

(** *** The queue *)
(** One merge of the last two runs: [queue.pop()] twice, [merge_by], [queue.push]. *)
Definition merge_last self : option MergeSorter :=
  '(left_, queue) ← pop (queue self);
  '(right_, queue) ← pop queue;
  '(self, merged) ← merge_by (with_queue self queue) left_ right_;
  Some (if length merged =? 0 then self else push_run self merged).

(** The loop after a push: while the last run is not much smaller than the one before. *)
Fixpoint compact (n : nat) self : option MergeSorter :=
  let len := length (queue self) in
  b ← (if 1 <? len then
         last_ ← queue self !! (len - 1);
         prev ← queue self !! (len - 2);
         Some (length prev / 2 <=? length last_)
       else Some false);
  if (b : bool) then
    match n with
    | O => None
    | S n => self ← merge_last self; compact n self
    end
  else Some self.

(** A stashed buffer, or a new one, for the caller's batch. *)
Definition swap_batch self batch : option (MergeSorter * Pairs) :=
  if 2 <? length (stash self) then
    '(stashed, stash) ← pop (stash self);
    Some (with_stash self stash, stashed)
  else Some (self, RawVec.new size).

(** The result has the caller's new batch. *)
Definition push_batch self batch : option (MergeSorter * Pairs) :=
  if negb (RawVec.is_empty batch) then
    '(self, given) ← swap_batch self batch;
    l ← consolidate_from size (items batch) 0;
    let batch := RawVec.mk l (capacity batch) in
    assert! (sorted (items batch)) in
    self ← (if negb (RawVec.is_empty batch) then
              compact (S (length (queue self))) (push_run self [batch])
            else Some self);
    Some (self, given)
  else Some (self, batch).

Definition push_consolidated_batch self batch : option (MergeSorter * Pairs) :=
  assert! (sorted (items batch)) in
  if negb (RawVec.is_empty batch) then
    '(self, given) ← swap_batch self batch;
    self ← (if negb (RawVec.is_empty batch) then
              compact (S (length (queue self))) (push_run self [batch])
            else Some self);
    Some (self, given)
  else Some (self, batch).

Fixpoint finish_loop (n : nat) self : option MergeSorter :=
  if 2 <=? length (queue self) then
    match n with
    | O => None
    | S n => self ← merge_last self; finish_loop n self
    end
  else Some self.
Definition finish_into self (target : list Pairs) : option (MergeSorter * list Pairs) :=
  self ← finish_loop (length (queue self)) self;
  let '(self, target) := match pop (queue self) with Some (last_, queue) => (with_queue self queue, last_) | None => (self, target) end in
  assert! (length (queue self) =? 0) in
  Some (self, target).

Definition len self : nat :=
  sum_list ((λ alloc, length (items alloc)) <$> concat (queue self)) + sum_list ((λ s, length (items s)) <$> stash self).
Definition is_empty self : bool := len self =? 0.
End sorter.
#[global] Arguments MergeSorter : clear implicits.
End MergeSorter.
