(* ===== verification/MergeSorterSpec.v ===== *)
(** The sorter of MergeSorter.v is correct: its queue holds, run by run, exactly the weights that were
    pushed, its loops end, and no assertion fails.

    [merging] is the state of a merge: what has been put out, and what is left of the two runs.  [queue_ok]
    is the invariant of the sorter between two calls. *)
From S2P Require Import Prelude Sort Consolidation MergeSorter.
#[local] Open Scope nat_scope.


Section capacities.
Context {A : Type} (size : nat).
Import RawVec.
#[local] Open Scope Z_scope.
Implicit Types v : RawVec A.

Lemma next_capacity_grows c : (0 < size)%nat → 0 < c → c < next_capacity size c.
Proof.
  intros Hs Hc. unfold next_capacity. rewrite (proj2 (Z.eqb_neq c 0)) by lia. destruct (_ <? c); [lia|].
  pose proof (Z.div_le_lower_bound (c * 3 + 1) 2 (c + 1)). lia.
Qed.

(** [reserve] makes room; a vector of elements of size 0 has room for every element already. *)
Lemma reserve_ok v a : 0 ≤ capacity v → 0 ≤ a → (size = 0%nat → len v + a ≤ capacity v) →
  ∃ v', reserve size v a = Some v' ∧ items v' = items v ∧ len v + a ≤ capacity v' ∧ capacity v ≤ capacity v'.
Proof.
  intros Hc Ha Hz. unfold reserve. destruct (Z.leb_spec (len v + a) (capacity v)) as [Hle|Hlt]; [by exists v|].
  rewrite (proj2 (Z.eqb_neq _ 0)) by (unfold len in *; lia). cbn [negb]. assert (0 < size)%nat as Hs by (destruct size; [by specialize (Hz eq_refl); lia|lia]).
  rewrite (proj2 (Nat.ltb_lt _ _) Hs).
  pose proof (next_capacity_grows (len v + a) Hs ltac:(lia)) as Hg.
  assert (grow size (Z.to_nat (len v + a)) (len v + a) (next_capacity size (len v + a)) = Some (next_capacity size (len v + a))) as ->.
  { destruct (Z.to_nat _); cbn [grow]; by rewrite (proj2 (Z.ltb_ge _ _)) by lia. }
  cbn [mbind option_bind]. eexists. split; [done|]. cbn. split_and!; [done|lia|lia].
Qed.

Lemma reserve_new a : 0 ≤ a → (size = 0%nat → a ≤ USIZE_MAX) →
  ∃ v' : RawVec A, reserve size (new size) a = Some v' ∧ items v' = [] ∧ a ≤ capacity v'.
Proof.
  intros Ha Hz. destruct (reserve_ok (new size) a) as (v' & Hv & Hi & Hc & _).
  - unfold new. cbn. destruct (size =? 0)%nat; [unfold USIZE_MAX|]; lia.
  - done.
  - intros Hs. unfold new, len. cbn. rewrite (proj2 (Nat.eqb_eq _ _) Hs). specialize (Hz Hs). lia.
  - exists v'. by split_and!.
Qed.

Lemma vec_is_empty v : is_empty v = bool_decide (items v = []).
Proof. unfold is_empty. destruct (items v); [done|]. by rewrite bool_decide_eq_false_2. Qed.
End capacities.

Lemma pop_snoc {A} (l : list A) x : pop (l ++ [x]) = Some (x, l).
Proof. unfold pop. rewrite rev_app_distr. cbn. by rewrite rev_involutive. Qed.
Lemma pop_cases {A} (l : list A) : (l = [] ∧ pop l = None) ∨ ∃ x l', l = l' ++ [x] ∧ pop l = Some (x, l').
Proof. induction l as [|x l _] using rev_ind; [by left|]. right. exists x, l. by rewrite pop_snoc. Qed.

(** ** Two sequences that are merged *)
Section merging.
Context `{OD : Ord D} `{MR : MonoidValue R}.
Implicit Types (l s : list (D * R)).

(** The pairs in [done] have been merged, those in [s1] and [s2] are left; together they have the weights
    [total]. *)
Definition merging (total : D → R) done s1 s2 : Prop :=
  canonical (done ++ s1) ∧ canonical (done ++ s2) ∧ ∀ k, wt (done ++ s1 ++ s2) k = total k.

Lemma merging_swap total done s1 s2 : merging total done s1 s2 → merging total done s2 s1.
Proof. intros (H1 & H2 & Hw). split_and!; [done..|]. intros k. by rewrite <- Hw, (Permutation_app_comm s2 s1). Qed.

Lemma merging_lt total done k1 x1 s1 k2 x2 s2 : merging total done ((k1, x1) :: s1) ((k2, x2) :: s2) → k1 ≺ k2 →
  merging total (done ++ [(k1, x1)]) s1 ((k2, x2) :: s2).
Proof.
  intros (H1 & H2 & Hw) Hlt. rewrite cons_middle, app_assoc in H1. split_and!; [done| |].
  - apply canonical_app in H1 as (H1 & _ & _). apply canonical_app in H2 as (_ & H2 & Hb). apply canonical_app. split_and!; [done..|].
    intros k k'. rewrite fmap_app, elem_of_app. cbn [fmap list_fmap fst]. rewrite list_elem_of_singleton. intros [Hk| ->] Hk'; [by apply Hb|].
    apply elem_of_cons in Hk' as [->|Hk']; [done|]. transitivity k2; [done|]. apply canonical_cons_inv in H2 as (_ & _ & H2). by apply H2.
  - intros k. rewrite <- Hw. by rewrite <- app_assoc.
Qed.

Lemma merging_eq total done k x1 s1 x2 s2 : merging total done ((k, x1) :: s1) ((k, x2) :: s2) →
  merging total (if is_zero (x1 ⊕ x2) then done else done ++ [(k, x1 ⊕ x2)]) s1 s2.
Proof.
  assert (∀ s x, canonical (done ++ (k, x) :: s) → canonical (if is_zero (x1 ⊕ x2) then done ++ s else (done ++ [(k, x1 ⊕ x2)]) ++ s)) as Hc.
  { intros s x (Hd & Hs & Hb)%canonical_app. apply canonical_cons_inv in Hs as (Hs & _ & Hk). destruct (is_zero (x1 ⊕ x2)) eqn:Hz.
    - apply canonical_app. split_and!; [done..|]. intros a b Ha Hb'. apply Hb; [done|]. cbn. by right.
    - apply is_zero_false in Hz. rewrite <- app_assoc. apply canonical_app. split_and!; [done|by apply canonical_cons|].
      intros a b Ha Hb'. by apply Hb. }
  intros (H1%Hc & H2%Hc & Hw). split; [by destruct (is_zero _)|]. split; [by destruct (is_zero _)|]. intros k'. rewrite <- Hw.
  assert (wt (done ++ ((k, x1) :: s1) ++ (k, x2) :: s2) k' = wt (done ++ [(k, x1 ⊕ x2)] ++ s1 ++ s2) k') as ->.
  { cbn [app]. rewrite !wt_app. f_equal. destruct (decide (k = k')) as [<-|Hne].
    - rewrite !wt_cons_eq, !wt_app, wt_cons_eq, <- !madd_assoc. f_equal. apply madd_swap.
    - rewrite !wt_cons_ne, !wt_app by done. by rewrite wt_cons_ne. }
  destruct (is_zero (x1 ⊕ x2)) eqn:Hz; [|by rewrite <- app_assoc]. apply is_zero_true in Hz.
  rewrite !wt_app, wt_singleton, Hz. destruct (decide _); by rewrite madd_0_l.
Qed.

Lemma merging_run total done s1 s2 : merging total done s1 s2 → s1 = [] ∨ s2 = [] → canonical (done ++ s1 ++ s2).
Proof. intros (H1 & H2 & _) [->| ->]; [done|]. by rewrite app_nil_r. Qed.

Lemma canonical_sorted l : canonical l → MergeSorter.sorted l = true.
Proof.
  destruct l as [|x l]; [done|]. revert x. cbn [MergeSorter.sorted]. induction l as [|y l IH]; intros [k r]; [done|]. intros (Hc & _ & Hlt)%canonical_cons_inv.
  cbn [is_sorted_by fst]. assert (cmp k y.1 = Lt) as -> by (apply Hlt; cbn; by left). by apply IH.
Qed.

(** Pairs of size 0 are all the same. *)
Lemma zst_length size l : zst_ok (D * R) size → size = 0 → canonical l → length l ≤ 1.
Proof.
  intros Hz Hs Hc. destruct l as [|[k1 r1] [|[k2 r2] l]]; [cbn; lia..|]. exfalso. apply canonical_cons_inv in Hc as (_ & _ & Hlt).
  apply (klt_irrefl k1). assert (k1 = k2) as Heq by (by assert ((k1, r1) = (k2, r2)) as [= -> ->] by apply (Hz Hs)). rewrite Heq at 2. apply Hlt. cbn. by left.
Qed.
End merging.

(** ** The loops of [merge_by] *)
Section merge_by.
Context `{OD : Ord D} `{MR : MonoidValue R} (size : nat) (Hsize : zst_ok (D * R) size).
Import MergeSorter.
#[local] Abbreviation Pairs := (RawVec.RawVec (D * R)).
Implicit Types (self : MergeSorter D R) (b result : Pairs) (bs output : list Pairs) (total : D → R).

Definition flat bs : list (D * R) := bs ≫= items.
Definition nonempties bs : Prop := Forall (λ b, items b ≠ []) bs.

(** The state of the sorter apart from its queue: the buffers kept for reuse are empty and large enough. *)
Definition sorter_ok self : Prop :=
  buffer_elements self = buffer_elements_of size ∧ Forall (λ b, items b = [] ∧ (buffer_elements self ≤ capacity b)%Z) (stash self).

Lemma flat_app bs1 bs2 : flat (bs1 ++ bs2) = flat bs1 ++ flat bs2.
Proof. apply bind_app. Qed.
Lemma flat_one b : flat [b] = items b.
Proof. apply app_nil_r. Qed.

Lemma buffer_elements_range : (1 ≤ buffer_elements_of size ≤ RawVec.USIZE_MAX)%Z.
Proof.
  unfold buffer_elements_of. destruct (Nat.eqb_spec size 0) as [|Hs]; [unfold RawVec.USIZE_MAX; lia|].
  assert (Z.of_nat BUFFER_BYTES = 8192)%Z as Hb by (by vm_compute). destruct (Nat.leb_spec size BUFFER_BYTES) as [Hle|]; [|unfold RawVec.USIZE_MAX; lia].
  pose proof (Nat.div_le_lower_bound BUFFER_BYTES size 1 Hs ltac:(lia)). pose proof (Nat.Div0.div_le_upper_bound BUFFER_BYTES size BUFFER_BYTES).
  assert (BUFFER_BYTES / size ≤ BUFFER_BYTES) by (apply Nat.Div0.div_le_upper_bound; nia). unfold RawVec.USIZE_MAX. lia.
Qed.

Lemma buffer_ok self : sorter_ok self →
  ∃ self' b, buffer size self = Some (self', b) ∧ items b = [] ∧ (0 < capacity b)%Z ∧ sorter_ok self' ∧ queue self' = queue self.
Proof.
  intros [Hb Hs]. pose proof buffer_elements_range as Hr. unfold buffer. destruct (pop_cases (stash self)) as [[Hst ->]|(b & st & Hst & ->)].
  - destruct (reserve_new (A := D * R) size (buffer_elements self)) as (v & -> & Hi & Hc); [lia|lia|]. cbn [mbind option_bind].
    rewrite vec_is_empty, bool_decide_eq_true_2, (proj2 (Z.eqb_neq _ 0)) by (done || lia). exists self, v. split_and!; [done..|lia|done|done].
  - rewrite Hst in Hs. apply Forall_app in Hs as [Hs [[Hi Hc] _]%Forall_cons]. cbn [mbind option_bind].
    rewrite vec_is_empty, bool_decide_eq_true_2, (proj2 (Z.eqb_neq _ 0)) by (done || lia). exists (with_stash self st), b. split_and!; [done..|lia| |done]. by split.
Qed.

Lemma recycle_ok self b : sorter_ok self → sorter_ok (recycle self b) ∧ queue (recycle self b) = queue self.
Proof.
  intros [Hb Hs]. unfold recycle. destruct (Z.leb_spec (buffer_elements self) (capacity b)); [|by split]. split; [|done]. split; [done|].
  cbn. apply Forall_app. split; [done|]. by repeat constructor.
Qed.

(** What the inner loop leaves. *)
Lemma merge_inner_spec total t1 t2 b1 b2 n : ∀ done result i1 i2,
  merging total (done ++ items result) (drop i1 (items b1) ++ t1) (drop i2 (items b2) ++ t2) → i1 ≤ length (items b1) → i2 ≤ length (items b2) →
  (length (items b1) - i1) + (length (items b2) - i2) ≤ n →
  ∃ result' i1' i2', merge_inner n result b1 i1 b2 i2 = Some (result', i1', i2')
    ∧ merging total (done ++ items result') (drop i1' (items b1) ++ t1) (drop i2' (items b2) ++ t2)
    ∧ capacity result' = capacity result ∧ i1 ≤ i1' ≤ length (items b1) ∧ i2 ≤ i2' ≤ length (items b2)
    ∧ (RawVec.has_spare_capacity result = true → i1 < length (items b1) → i2 < length (items b2) → i1 + i2 < i1' + i2').
Proof.
  induction n as [|n IH]; intros done result i1 i2 Hm H1 H2 Hn; cbn [merge_inner].
  { destruct (RawVec.has_spare_capacity result) eqn:Hsp; cbn [andb]; [|exists result, i1, i2; split_and!; done || lia].
    rewrite (proj2 (Nat.ltb_ge i1 _)) by lia. cbn [andb]. exists result, i1, i2. split_and!; done || lia. }
  destruct (RawVec.has_spare_capacity result) eqn:Hsp; cbn [andb]; [|exists result, i1, i2; split_and!; done || lia].
  destruct (Nat.ltb_spec i1 (length (items b1))) as [Hi1|]; cbn [andb]; [|exists result, i1, i2; split_and!; done || lia].
  destruct (Nat.ltb_spec i2 (length (items b2))) as [Hi2|]; cbn [andb]; [|exists result, i1, i2; split_and!; done || lia].
  destruct (lookup_lt_is_Some_2 (items b1) i1 Hi1) as [[k1 x1] Hp1]. destruct (lookup_lt_is_Some_2 (items b2) i2 Hi2) as [[k2 x2] Hp2].
  rewrite Hp1, Hp2. cbn [mbind option_bind fst snd]. rewrite (drop_S _ _ _ Hp1), (drop_S _ _ _ Hp2) in Hm. cbn [app] in Hm.
  destruct (cmp k1 k2) eqn:Hcmp.
  - apply cmp_eq in Hcmp as ->. rewrite bool_decide_eq_true_2 by done. apply merging_eq in Hm. rewrite !Nat.add_1_r.
    destruct (IH done (if negb (is_zero (x1 ⊕ x2)) then RawVec.push result (k2, x1 ⊕ x2) else result) (S i1) (S i2)) as (r & j1 & j2 & Heq & Hm' & Hc & ? & ? & _); [|lia..|].
    { destruct (is_zero (x1 ⊕ x2)); [exact Hm|]. cbn [negb RawVec.push items]. by rewrite app_assoc. }
    exists r, j1, j2. split_and!; [exact Heq|exact Hm'|rewrite Hc; by destruct (is_zero _)|lia..].
  - apply merging_lt in Hm; [|exact Hcmp]. rewrite !Nat.add_1_r.
    destruct (IH done (RawVec.push result (k1, x1)) (S i1) i2) as (r & j1 & j2 & Heq & Hm' & Hc & ? & ? & _); [|lia..|].
    { cbn [RawVec.push items]. rewrite app_assoc. rewrite (drop_S _ _ _ Hp2). exact Hm. }
    exists r, j1, j2. split_and!; [exact Heq|exact Hm'|by rewrite Hc|lia..].
  - apply cmp_gt in Hcmp. apply merging_swap, merging_lt, merging_swap in Hm; [|exact Hcmp]. rewrite !Nat.add_1_r.
    destruct (IH done (RawVec.push result (k2, x2)) i1 (S i2)) as (r & j1 & j2 & Heq & Hm' & Hc & ? & ? & _); [|lia..|].
    { cbn [RawVec.push items]. rewrite app_assoc. rewrite (drop_S _ _ _ Hp1). exact Hm. }
    exists r, j1, j2. split_and!; [exact Heq|exact Hm'|by rewrite Hc|lia..].
Qed.

(** One side of the merge: [b] from [i], then [bs]. *)
Definition side b (i : nat) bs : list (D * R) := drop i (items b) ++ flat bs.
(** Something is left of the buffer, or of nothing. *)
Definition live b (i : nat) bs : Prop := nonempties bs ∧ (i < length (items b) ∨ i = length (items b) ∧ bs = []).

Lemma live_le b i bs : live b i bs → i ≤ length (items b).
Proof. intros [_ [|[-> _]]]; lia. Qed.

Lemma pop_front_live bs : nonempties bs → let '(b, bs') := pop_front size bs in live b 0 bs' ∧ side b 0 bs' = flat bs.
Proof.
  intros Hbs. destruct bs as [|b bs]; cbn; [split; [|done]; split; [done|by right]|]. apply Forall_cons in Hbs as [Hb Hbs].
  split; [split; [done|left; by destruct (items b); [|cbn; lia]]|]. unfold side. by rewrite drop_0.
Qed.

Lemma refill_spec self b i bs : sorter_ok self → nonempties bs → i ≤ length (items b) →
  ∃ self' b' i' bs', refill size self b i bs = (self', b', i', bs') ∧ sorter_ok self' ∧ queue self' = queue self ∧ live b' i' bs' ∧ side b' i' bs' = side b i bs.
Proof.
  intros Hs Hbs Hi. unfold refill. destruct (Nat.eqb_spec i (length (items b))) as [->|Hne].
  - destruct (recycle_ok self b Hs) as [Hs' Hq]. unfold side at 2. rewrite drop_all.
    pose proof (pop_front_live bs Hbs) as Hp. unfold pop_front in Hp. destruct bs as [|b' bs]; destruct Hp as [Hl Hside]; do 4 eexists; by split_and!.
  - do 4 eexists. split_and!; try done. split; [done|left; lia].
Qed.

Lemma side_length b i bs : length (side b i bs) = (length (items b) - i) + length (flat bs).
Proof. unfold side. by rewrite length_app, length_drop. Qed.

Lemma merging_sorted total out result s1 s2 : merging total (out ++ items result) s1 s2 → sorted (items result) = true.
Proof. intros (((_ & Hc & _)%canonical_app & _ & _)%canonical_app & _). by apply canonical_sorted. Qed.

Lemma full_nonempty result : RawVec.has_spare_capacity result = false → (0 < capacity result)%Z → items result ≠ [].
Proof. unfold RawVec.has_spare_capacity, RawVec.len. intros Hs%Z.ltb_ge Hc Hi. rewrite Hi in Hs. cbn in Hs. lia. Qed.

(** A full buffer is put out. *)
Lemma put_out self output result total s1 s2 : sorter_ok self → nonempties output → (0 < capacity result)%Z → merging total (flat output ++ items result) s1 s2 →
  ∃ self' output' result', (if negb (RawVec.has_spare_capacity result) then '(self, b) ← buffer size self; Some (self, output ++ [result], b) else Some (self, output, result))
      = Some (self', output', result')
    ∧ sorter_ok self' ∧ queue self' = queue self ∧ nonempties output' ∧ RawVec.has_spare_capacity result' = true ∧ merging total (flat output' ++ items result') s1 s2.
Proof.
  intros Hs Ho Hc Hm. destruct (RawVec.has_spare_capacity result) eqn:Hsp; cbn [negb]; [by exists self, output, result|].
  destruct (buffer_ok self Hs) as (self' & b & -> & Hi & Hb & Hs' & Hq). cbn [mbind option_bind]. do 3 eexists. split; [done|]. split_and!; [done|done| | |].
  - apply Forall_app. split; [done|]. repeat constructor. by apply full_nonempty.
  - unfold RawVec.has_spare_capacity, RawVec.len. rewrite Hi. apply Z.ltb_lt. cbn. lia.
  - by rewrite Hi, app_nil_r, flat_app, flat_one.
Qed.

Lemma merge_outer_spec total n : ∀ self output result b1 i1 l1 b2 i2 l2, sorter_ok self → nonempties output → RawVec.has_spare_capacity result = true →
  merging total (flat output ++ items result) (side b1 i1 l1) (side b2 i2 l2) → live b1 i1 l1 → live b2 i2 l2 → length (side b1 i1 l1) + length (side b2 i2 l2) ≤ n →
  ∃ self' output' result' b1' i1' l1' b2' i2' l2', merge_outer size n self output result b1 i1 l1 b2 i2 l2 = Some (self', output', result', (b1', i1', l1'), (b2', i2', l2'))
    ∧ sorter_ok self' ∧ queue self' = queue self ∧ nonempties output' ∧ merging total (flat output' ++ items result') (side b1' i1' l1') (side b2' i2' l2')
    ∧ live b1' i1' l1' ∧ live b2' i2' l2' ∧ (side b1' i1' l1' = [] ∨ side b2' i2' l2' = []).
Proof.
  induction n as [|n IH]; intros self output result b1 i1 l1 b2 i2 l2 Hs Ho Hsp Hm Hl1 Hl2 Hn; cbn [merge_outer]; pose proof (live_le _ _ _ Hl1); pose proof (live_le _ _ _ Hl2);
    rewrite !side_length in Hn; destruct (Nat.ltb_spec i1 (length (items b1))) as [Hi1|Hi1]; destruct (Nat.ltb_spec i2 (length (items b2))) as [Hi2|Hi2]; try lia; cbn [andb].
  all: try (exists self, output, result, b1, i1, l1, b2, i2, l2; split_and!; try done; unfold side;
    first [left; destruct Hl1 as [_ [?|[-> ->]]]; [lia|by rewrite drop_all]|right; destruct Hl2 as [_ [?|[-> ->]]]; [lia|by rewrite drop_all]]).
  rewrite (merging_sorted _ _ _ _ _ Hm).
  destruct (merge_inner_spec total (flat l1) (flat l2) b1 b2 (length (items b1) + length (items b2)) (flat output) result i1 i2) as (r & j1 & j2 & -> & Hm' & Hc & Hj1 & Hj2 & Hprog);
    [exact Hm|lia..|]. cbn [mbind option_bind]. rewrite (merging_sorted _ _ _ _ _ Hm'). specialize (Hprog Hsp Hi1 Hi2).
  destruct (put_out self output r total (side b1 j1 l1) (side b2 j2 l2) Hs Ho) as (self1 & output1 & r1 & Hput & Hs1 & Hq1 & Ho1 & Hsp1 & Hm1); [|exact Hm'|].
  { rewrite Hc. apply Z.ltb_lt in Hsp. unfold RawVec.len in Hsp. lia. }
  rewrite Hput. cbn [mbind option_bind].
  destruct (refill_spec self1 b1 j1 l1 Hs1 (proj1 Hl1) (proj2 Hj1)) as (self2 & b1' & i1' & l1' & -> & Hs2 & Hq2 & Hl1' & Hside1). cbv beta iota.
  destruct (refill_spec self2 b2 j2 l2 Hs2 (proj1 Hl2) (proj2 Hj2)) as (self3 & b2' & i2' & l2' & -> & Hs3 & Hq3 & Hl2' & Hside2). cbv beta iota.
  change (merging total (flat output1 ++ items r1) (side b1 j1 l1) (side b2 j2 l2)) in Hm1. rewrite <- Hside1, <- Hside2 in Hm1.
  destruct (IH self3 output1 r1 b1' i1' l1' b2' i2' l2' Hs3 Ho1 Hsp1 Hm1 Hl1' Hl2') as (self' & output' & result' & c1 & k1 & m1 & c2 & k2 & m2 & Heq & Hs' & Hq' & Hrest).
  { rewrite Hside1, Hside2, !side_length. lia. }
  exists self', output', result', c1, k1, m1, c2, k2, m2. split_and!; [exact Heq|done|congruence|apply Hrest..].
Qed.

Lemma drain_spec self output b i bs : sorter_ok self → live b i bs → canonical (side b i bs) →
  ∃ self' output', drain size self output b i bs = Some (self', output') ∧ sorter_ok self' ∧ queue self' = queue self
    ∧ flat output' = flat output ++ side b i bs ∧ (nonempties output → nonempties output').
Proof.
  intros Hs [Hbs Hl] Hc. unfold drain. destruct (Nat.ltb_spec i (length (items b))) as [Hi|Hi].
  - apply canonical_app in Hc as (Hc & _ & _). destruct (reserve_new (A := D * R) size (Z.of_nat (length (items b) - i))) as (v & -> & _ & _); [lia| |].
    { intros Hz. pose proof (zst_length size _ Hsize Hz Hc) as Hle. rewrite length_drop in Hle. unfold RawVec.USIZE_MAX. lia. }
    cbn [mbind option_bind RawVec.items]. rewrite (canonical_sorted _ Hc). cbn [mbind option_bind]. do 2 eexists. split; [done|]. split_and!; [done|done| |].
    + rewrite !flat_app, flat_one, <- app_assoc. done.
    + intros Ho. apply Forall_app. split; [|done]. apply Forall_app. split; [done|]. repeat constructor. cbn.
      intros He. apply (f_equal length) in He. rewrite length_drop in He. cbn in He. lia.
  - destruct Hl as [|[-> ->]]; [lia|]. destruct (recycle_ok self b Hs) as [Hs' Hq]. cbn [mbind option_bind]. do 2 eexists. split; [done|].
    unfold side. rewrite drop_all, !app_nil_r. by split_and!.
Qed.

Lemma flat_filter bs : flat (List.filter (λ b, negb (RawVec.is_empty b)) bs) = flat bs ∧ nonempties (List.filter (λ b, negb (RawVec.is_empty b)) bs).
Proof.
  induction bs as [|b bs [IH1 IH2]]; [by split; constructor|]. cbn [List.filter]. rewrite vec_is_empty. case_bool_decide as Hb; cbn [negb].
  - split; [|done]. change (flat (b :: bs)) with (items b ++ flat bs). by rewrite Hb.
  - split; [|by constructor]. change (flat (b :: ?x)) with (items b ++ flat x). by rewrite IH1.
Qed.

Lemma runs_sorted bs : canonical (flat bs) → forallb (λ b, sorted (items b)) bs = true.
Proof.
  induction bs as [|b bs IH]; [done|]. change (flat (b :: bs)) with (items b ++ flat bs). intros (Hb & Hbs & _)%canonical_app. cbn. by rewrite canonical_sorted, IH.
Qed.

Lemma nonempties_check bs : nonempties bs → forallb (λ b, negb (RawVec.is_empty b)) bs = true.
Proof. intros Hbs. apply forallb_forall. intros b Hb%list_elem_of_In. eapply Forall_forall in Hbs; [|exact Hb]. by rewrite vec_is_empty, bool_decide_eq_false_2. Qed.

Lemma flat_length bs : sum_list ((λ b, length (items b)) <$> bs) = length (flat bs).
Proof. induction bs as [|b bs IH]; [done|]. change (flat (b :: bs)) with (items b ++ flat bs). rewrite length_app, <- IH. done. Qed.

(** Merging two runs. *)
Lemma merge_by_spec self l1 l2 : sorter_ok self → canonical (flat l1) → canonical (flat l2) →
  ∃ self' out, merge_by size self l1 l2 = Some (self', out) ∧ sorter_ok self' ∧ queue self' = queue self
    ∧ nonempties out ∧ canonical (flat out) ∧ ∀ k, wt (flat out) k = wt (flat l1) k ⊕ wt (flat l2) k.
Proof.
  intros Hs H1 H2. unfold merge_by. destruct (flat_filter l1) as [Hf1 Hn1]. destruct (flat_filter l2) as [Hf2 Hn2]. rewrite <- Hf1 in H1 |- *. rewrite <- Hf2 in H2 |- *. clear Hf1 Hf2.
  set (l1' := List.filter _ l1) in *. set (l2' := List.filter _ l2) in *. clearbody l1' l2'. rewrite forallb_app, !runs_sorted by done. cbn [andb].
  destruct (buffer_ok self Hs) as (self1 & r & -> & Hi & Hc & Hs1 & Hq1). cbn [mbind option_bind].
  pose proof (pop_front_live l1' Hn1) as Hp1. destruct (pop_front size l1') as [b1 t1]. destruct Hp1 as [Hl1 Hside1].
  pose proof (pop_front_live l2' Hn2) as Hp2. destruct (pop_front size l2') as [b2 t2]. destruct Hp2 as [Hl2 Hside2].
  destruct (merge_outer_spec (λ k, wt (flat l1') k ⊕ wt (flat l2') k) (sum_list ((λ b, length (items b)) <$> l1' ++ l2')) self1 [] r b1 0 t1 b2 0 t2)
    as (self2 & out & r' & c1 & k1 & m1 & c2 & k2 & m2 & -> & Hs2 & Hq2 & Ho & Hm & Hl1' & Hl2' & Hend); try done.
  { constructor. }
  { unfold RawVec.has_spare_capacity, RawVec.len. rewrite Hi. apply Z.ltb_lt. cbn. lia. }
  { rewrite Hi, Hside1, Hside2. split_and!; [exact H1|exact H2|]. intros k. cbn. by rewrite wt_app. }
  { by rewrite Hside1, Hside2, flat_length, flat_app, length_app. }
  cbn [mbind option_bind]. pose proof (merging_sorted _ _ _ _ _ Hm) as Hsort. pose proof (merging_run _ _ _ _ Hm Hend) as Hcan.
  destruct Hm as (Hc1 & Hc2 & Hw). apply canonical_app in Hc1 as (_ & Hc1 & _), Hc2 as (_ & Hc2 & _).
  assert (∃ self3 out3, (if negb (RawVec.is_empty r') then assert! (sorted (items r')) in Some (self2, out ++ [r']) else Some (recycle self2 r', out)) = Some (self3, out3)
    ∧ sorter_ok self3 ∧ queue self3 = queue self2 ∧ nonempties out3 ∧ flat out3 = flat out ++ items r') as (self3 & out3 & -> & Hs3 & Hq3 & Ho3 & Hfl3).
  { rewrite vec_is_empty. case_bool_decide as Hr; cbn [negb].
    - destruct (recycle_ok self2 r' Hs2). do 2 eexists. split; [done|]. rewrite Hr, app_nil_r. by split_and!.
    - rewrite Hsort. do 2 eexists. split; [done|]. rewrite flat_app, flat_one. split_and!; try done. apply Forall_app. split; [done|]. by repeat constructor. }
  cbn [mbind option_bind]. destruct (drain_spec self3 out3 c1 k1 m1 Hs3 Hl1' Hc1) as (self4 & out4 & -> & Hs4 & Hq4 & Hfl4 & Ho4). cbn [mbind option_bind].
  destruct (drain_spec self4 out4 c2 k2 m2 Hs4 Hl2' Hc2) as (self5 & out5 & -> & Hs5 & Hq5 & Hfl5 & Ho5). cbn [mbind option_bind].
  specialize (Ho5 (Ho4 Ho3)). rewrite nonempties_check by done. exists self5, out5. rewrite Hfl5, Hfl4, Hfl3, <- !app_assoc.
  split_and!; [done|done|congruence|done| |].
  - by rewrite <- app_assoc in Hcan.
  - intros k. specialize (Hw k). by rewrite <- app_assoc in Hw.
Qed.

(** ** The queue *)
Definition held self : list (D * R) := flat (concat (queue self)).
(** Every run in the queue is in order. *)
Definition queue_ok self : Prop := sorter_ok self ∧ Forall (λ run, canonical (flat run)) (queue self).

Lemma held_snoc bss run : flat (concat (bss ++ [run])) = flat (concat bss) ++ flat run.
Proof. by rewrite concat_app, flat_app, concat_cons, app_nil_r. Qed.

Lemma push_run_ok self run : queue_ok self → canonical (flat run) → queue_ok (push_run self run) ∧ held (push_run self run) = held self ++ flat run.
Proof.
  intros [Hs Hq] Hrun. split; [|apply held_snoc]. split; [done|]. cbn. apply Forall_app. split; [done|by apply Forall_singleton].
Qed.

Lemma merge_last_spec self : queue_ok self → 2 ≤ length (queue self) →
  ∃ self', merge_last size self = Some self' ∧ queue_ok self' ∧ length (queue self') < length (queue self) ∧ ∀ k, wt (held self') k = wt (held self) k.
Proof.
  intros [Hs Hq] Hlen. unfold merge_last. destruct (pop_cases (queue self)) as [[Hq0 _]|(left_ & q1 & Hq1 & ->)]; [by rewrite Hq0 in Hlen; cbn in Hlen; lia|].
  cbn [mbind option_bind]. destruct (pop_cases q1) as [[Hq0 _]|(right_ & q2 & Hq2 & ->)]; [rewrite Hq1, Hq0 in Hlen; cbn in Hlen; lia|].
  cbn [mbind option_bind]. unfold held. rewrite Hq1, Hq2 in *. clear Hq1 Hq2. apply Forall_app in Hq as [[Hq [Hr _]%Forall_cons]%Forall_app [Hl _]%Forall_cons].
  destruct (merge_by_spec (with_queue self q2) left_ right_) as (self' & out & -> & Hs' & Hq' & Ho & Hc & Hw); [done..|]. cbn [mbind option_bind]. cbn in Hq'.
  assert (∀ k, wt (flat (concat ((q2 ++ [right_]) ++ [left_]))) k = wt (flat (concat q2) ++ flat out) k) as Hwt.
  { intros k. rewrite !held_snoc, !wt_app, Hw, <- madd_assoc. f_equal. apply madd_comm. }
  eexists. split; [done|]. destruct (Nat.eqb_spec (length out) 0) as [Hout|_].
  - apply length_zero_iff_nil in Hout as ->. split_and!; [split; [done|by rewrite Hq']|rewrite Hq', !length_app; cbn; lia|].
    intros k. rewrite Hwt, Hq'. by rewrite app_nil_r.
  - destruct (push_run_ok self' out) as [Hok Hh]; [split; [done|by rewrite Hq']|done|]. split_and!; [done|cbn; rewrite Hq', !length_app; cbn; lia|].
    intros k. rewrite Hwt. change (wt (held (push_run self' out)) k = wt (flat (concat q2) ++ flat out) k). by rewrite Hh; unfold held; rewrite Hq'.
Qed.

Lemma compact_spec n : ∀ self, queue_ok self → length (queue self) ≤ S n →
  ∃ self', compact size n self = Some self' ∧ queue_ok self' ∧ ∀ k, wt (held self') k = wt (held self) k.
Proof.
  induction n as [|n IH]; intros self Hs Hn; cbn [compact]; destruct (Nat.ltb_spec 1 (length (queue self))) as [Hlen|Hlen]; cbn [mbind option_bind]; try lia; try by exists self.
  destruct (lookup_lt_is_Some_2 (queue self) (length (queue self) - 1)) as [last_ ->]; [lia|].
  destruct (lookup_lt_is_Some_2 (queue self) (length (queue self) - 2)) as [prev ->]; [lia|]. cbn [mbind option_bind].
  destruct (_ <=? _); [|by exists self]. destruct (merge_last_spec self Hs Hlen) as (self1 & -> & Hs1 & Hl & Hw). cbn [mbind option_bind].
  destruct (IH self1 Hs1) as (self' & -> & Hs' & Hw'); [lia|]. exists self'. split_and!; [done..|]. intros k. by rewrite Hw'.
Qed.

Lemma finish_loop_spec n : ∀ self, queue_ok self → length (queue self) ≤ S n →
  ∃ self', finish_loop size n self = Some self' ∧ queue_ok self' ∧ length (queue self') ≤ 1 ∧ ∀ k, wt (held self') k = wt (held self) k.
Proof.
  induction n as [|n IH]; intros self Hs Hn; cbn [finish_loop]; destruct (Nat.leb_spec 2 (length (queue self))) as [Hlen|Hlen];
    try lia; try (exists self; split_and!; done || lia).
  destruct (merge_last_spec self Hs Hlen) as (self1 & -> & Hs1 & Hl & Hw). cbn [mbind option_bind].
  destruct (IH self1 Hs1) as (self' & -> & Hs' & Hl' & Hw'); [lia|]. exists self'. split_and!; [done..|]. intros k. by rewrite Hw'.
Qed.

(** The run that is left is everything the sorter held. *)
Lemma finish_into_spec self : queue_ok self →
  ∃ self' target, finish_into size self [] = Some (self', target) ∧ canonical (flat target) ∧ ∀ k, wt (flat target) k = wt (held self) k.
Proof.
  intros Hs. unfold finish_into. destruct (finish_loop_spec (length (queue self)) self Hs) as (self1 & -> & [_ Hq] & Hl & Hw); [lia|]. cbn [mbind option_bind].
  unfold held in Hw. destruct (pop_cases (queue self1)) as [[Hq1 ->]|(run & q & Hq1 & ->)]; rewrite Hq1 in *.
  - do 2 eexists. split; [done|]. split; [apply canonical_nil|exact Hw].
  - rewrite length_app in Hl. cbn in Hl. assert (q = []) as -> by (apply length_zero_iff_nil; lia). do 2 eexists. split; [done|].
    apply Forall_cons in Hq as [Hrun _]. split; [done|]. intros k. rewrite <- Hw. cbn. by rewrite app_nil_r.
Qed.

Lemma swap_batch_ok self b : queue_ok self → ∃ self' given, swap_batch size self b = Some (self', given) ∧ queue_ok self' ∧ held self' = held self ∧ items given = [].
Proof.
  intros [[Hb Hs] Hq]. unfold swap_batch. destruct (Nat.ltb_spec 2 (length (stash self))) as [Hlen|_].
  - destruct (pop_cases (stash self)) as [[Hst _]|(st & stash' & Hst & ->)]; [rewrite Hst in Hlen; cbn in Hlen; lia|]. cbn [mbind option_bind].
    rewrite Hst in Hs. apply Forall_app in Hs as [Hs [[Hi _] _]%Forall_cons]. do 2 eexists. by split_and!.
  - do 2 eexists. by split_and!.
Qed.

(** A consolidated batch at the end of the queue. *)
Lemma push_sorted self b : queue_ok self → canonical (items b) →
  ∃ self', (if negb (RawVec.is_empty b) then compact size (S (length (queue self))) (push_run self [b]) else Some self) = Some self'
    ∧ queue_ok self' ∧ ∀ k, wt (held self') k = wt (held self) k ⊕ wt (items b) k.
Proof.
  intros Hs Hb. rewrite vec_is_empty. case_bool_decide as Hi; cbn [negb].
  - exists self. split_and!; [done..|]. intros k. rewrite Hi. symmetry. apply madd_0_r.
  - destruct (push_run_ok self [b] Hs) as [Hok Hh]; [by rewrite flat_one|]. destruct (compact_spec (S (length (queue self))) _ Hok) as (self' & -> & Hs' & Hw).
    { cbn. rewrite length_app. cbn. lia. }
    exists self'. split_and!; [done..|]. intros k. by rewrite Hw, Hh, wt_app, flat_one.
Qed.

Lemma push_batch_spec self b : queue_ok self →
  ∃ self' given, push_batch size self b = Some (self', given) ∧ queue_ok self' ∧ items given = [] ∧ ∀ k, wt (held self') k = wt (held self) k ⊕ wt (items b) k.
Proof.
  intros Hs. unfold push_batch. rewrite vec_is_empty. case_bool_decide as Hi; cbn [negb].
  { exists self, b. split_and!; [done..|]. intros k. rewrite Hi. symmetry. apply madd_0_r. }
  destruct (swap_batch_ok self b Hs) as (self1 & given & -> & Hs1 & Hh & Hg). cbn [mbind option_bind].
  destruct (consolidate_from_sorts size (items b) 0 Hsize ltac:(lia)) as (w & -> & [Hc Hw]). rewrite take_0, drop_0 in *. cbn [mbind option_bind app RawVec.items].
  rewrite canonical_sorted by done. destruct (push_sorted self1 (RawVec.mk w (capacity b)) Hs1 Hc) as (self' & Heq & Hs' & Hwt). rewrite Heq. cbn [mbind option_bind].
  exists self', given. split_and!; [done..|]. intros k. rewrite Hwt, Hh. cbn. by rewrite Hw.
Qed.

Lemma push_consolidated_batch_spec self b : queue_ok self → canonical (items b) →
  ∃ self' given, push_consolidated_batch size self b = Some (self', given) ∧ queue_ok self' ∧ items given = []
    ∧ ∀ k, wt (held self') k = wt (held self) k ⊕ wt (items b) k.
Proof.
  intros Hs Hc. unfold push_consolidated_batch. rewrite canonical_sorted by done. destruct (RawVec.is_empty b) eqn:Hi; cbn [negb].
  { rewrite vec_is_empty in Hi. apply bool_decide_eq_true in Hi. exists self, b. split_and!; [done..|]. intros k. rewrite Hi. symmetry. apply madd_0_r. }
  destruct (swap_batch_ok self b Hs) as (self1 & given & -> & Hs1 & Hh & Hg). cbn [mbind option_bind].
  destruct (push_sorted self1 b Hs1 Hc) as (self' & Heq & Hs' & Hwt). rewrite Hi in Heq. cbn [negb] in Heq. rewrite Heq. cbn [mbind option_bind].
  exists self', given. split_and!; [done..|]. intros k. by rewrite Hwt, Hh.
Qed.

Lemma new_queue_ok : queue_ok (new size).
Proof. split; [split; [done|constructor]|constructor]. Qed.

(** What the sorter counts. *)
Lemma len_held self : queue_ok self → len self = length (held self).
Proof.
  intros [[_ Hst] _]. unfold len, held. rewrite flat_length. assert (sum_list ((λ s, length (items s)) <$> stash self) = 0) as ->; [|lia].
  induction Hst as [|b bs [Hb _] _ IH]; [done|]. cbn. by rewrite Hb, IH.
Qed.
End merge_by.
