(* ===== verification/MergeBatcher.v ===== *)
(** Batchers: a batch built from tuples that arrive in any order
    (crates/dbsp/src/trace/ord/merge_batcher.rs, crates/dbsp/src/trace.rs).

    A batcher sorts what it is given with a [MergeSorter] and gives the tuples to a [TupleBuilder] when it
    is sealed.  It is generic over the batch, known by its builder. *)
From S2P Require Import Prelude Sort Consolidation Trie LayerSpec Scheduler MergeCursor Batch BatchBuild MergeSorter MergeSorterSpec.
#[local] Open Scope nat_scope.

Module MergeBatcher.
Section batcher.
Context `{Ord K} `{Ord V} `{Ord T} `{MonoidValue R} `{BU : Builder B Out K V T R}.
(** The size of a tuple, and the key and the value of a new box. *)
Context (size : nat) (default_kv : K * V).
#[local] Abbreviation Pairs := (RawVec.RawVec ((K * V) * R)).

Record MergeBatcher := mk { sorter : MergeSorter.MergeSorter (K * V) R; time : T }.
Implicit Types (self : MergeBatcher) (batch : Pairs).

Definition new_batcher (time : T) : MergeBatcher := mk (MergeSorter.new size) time.

(** The result has the caller's new batch. *)
Definition push_batch self batch : option (MergeBatcher * Pairs) :=
  '(sorter, batch) ← MergeSorter.push_batch size (sorter self) batch; Some (mk sorter (time self), batch).
Definition push_consolidated_batch self batch : option (MergeBatcher * Pairs) :=
  '(sorter, batch) ← MergeSorter.push_consolidated_batch size (sorter self) batch; Some (mk sorter (time self), batch).

Definition tuples self : nat := MergeSorter.len (sorter self).

(** One buffer of the sorted run. *)
Definition build_buffer self (builder : TupleBuilder.TupleBuilder K V B) (buffer : Pairs) : option (TupleBuilder.TupleBuilder K V B) :=
  foldM (λ builder '((k, v), w), TupleBuilder.push_vals builder k v (time self) w) builder (items buffer).
Definition seal self : option Out :=
  '(_, merged) ← MergeSorter.finish_into size (sorter self) [];
  let builder := TupleBuilder.new default_kv new_builder in
  builder ← foldM (build_buffer self) builder merged;
  TupleBuilder.done builder.
End batcher.
#[global] Arguments MergeBatcher : clear implicits.
End MergeBatcher.

(** A call that gives tuples to a batcher. *)
Inductive Push (D R : Type) :=
  | Unordered (batch : RawVec.RawVec (D * R))
  | Consolidated (batch : RawVec.RawVec (D * R)).
Arguments Unordered {D R}.
Arguments Consolidated {D R}.

Definition pushed {D R} (p : Push D R) : list (D * R) := match p with Unordered b | Consolidated b => items b end.
(** What [push_consolidated_batch] asks of its caller. *)
Definition push_ok `{Ord D} `{MonoidValue R} (p : Push D R) : Prop := match p with Unordered _ => True | Consolidated b => canonical (items b) end.

Section batcher_spec.
Context `{OK : Ord K} `{OV : Ord V} `{OT : Ord T} `{MR : MonoidValue R} `{BU : Builder B Out K V T R} {BS : BuilderSpec B Out K V T R}.
Context (size : nat) (Hsize : zst_ok ((K * V) * R) size) (default_kv : K * V).
Implicit Types (self : MergeBatcher.MergeBatcher K V T R) (l : list ((K * V) * R)).
Import MergeBatcher.

(** The calls one after the other; the batches that the caller gets back are dropped. *)
Definition push_one self (p : Push (K * V) R) : option (MergeBatcher K V T R) :=
  fst <$> match p with Unordered b => push_batch size self b | Consolidated b => push_consolidated_batch size self b end.
Definition push_ops self (ops : list (Push (K * V) R)) : option (MergeBatcher K V T R) := foldM push_one self ops.

(** The tuples at one time. *)
Definition timed_at (t : T) l : list ((K * (V * T)) * R) := (λ '((k, v), w), ((k, (v, t)), w)) <$> l.

Lemma timed_at_canonical t l : canonical l → canonical (timed_at t l).
Proof.
  induction l as [|[[k v] r] l IH]; [intros; apply canonical_nil|]. intros (Hl & Hr & Hlt)%canonical_cons_inv. apply canonical_cons; [by apply IH|done|].
  intros j ([j' w'] & -> & ([[k' v'] r'] & [= -> ->] & Hin)%list_elem_of_fmap)%list_elem_of_fmap. cbn.
  assert ((k, v) ≺ (k', v')) as Hkv by (apply Hlt, list_elem_of_fmap; by exists ((k', v'), r')). apply klt_pair in Hkv as [Hk|[-> Hv]]; apply klt_pair; [by left|right].
  split; [done|]. apply klt_pair. by left.
Qed.

Lemma timed_at_wt t l k v t' : wt (timed_at t l) (k, (v, t')) = if decide (t' = t) then wt l (k, v) else mzero.
Proof.
  induction l as [|[[k0 v0] r0] l IH]; [cbn; by destruct (decide _)|]. unfold timed_at in *. cbn [fmap list_fmap].
  destruct (decide ((k0, v0) = (k, v))) as [[= -> ->]|Hne].
  - destruct (decide (t' = t)) as [->|Ht]; [by rewrite !wt_cons_eq, IH|]. rewrite wt_cons_ne by congruence. exact IH.
  - rewrite wt_cons_ne by congruence. rewrite IH. destruct (decide _); [|done]. by rewrite wt_cons_ne.
Qed.

Lemma push_all_app (b : TupleBuilder.TupleBuilder K V B) (l1 l2 : list ((K * (V * T)) * R)) : push_all b (l1 ++ l2) = b ← push_all b l1; push_all b l2.
Proof.
  unfold push_all. revert b. induction l1 as [|[[k [v t]] r] l1 IH]; intros b; [done|]. cbn [app foldM].
  destruct (TupleBuilder.push_vals b k v t r); [apply IH|done].
Qed.

Lemma build_buffer_all self builder b : build_buffer self builder b = push_all builder (timed_at (time self) (items b)).
Proof.
  unfold build_buffer, push_all. generalize (items b) as l. intros l. revert builder.
  induction l as [|[[k v] r] l IH]; intros builder; [done|]. cbn. destruct (TupleBuilder.push_vals builder k v (time self) r); [apply IH|done].
Qed.

Lemma build_flat self builder merged : foldM (build_buffer self) builder merged = push_all builder (timed_at (time self) (flat merged)).
Proof.
  revert builder. induction merged as [|b bs IH]; intros builder; [done|]. cbn [foldM]. change (flat (b :: bs)) with (items b ++ flat bs).
  unfold timed_at. rewrite fmap_app, push_all_app, build_buffer_all. unfold timed_at. destruct (push_all builder _); [apply IH|done].
Qed.

Lemma push_one_spec self p : queue_ok size (sorter self) → push_ok p →
  ∃ self', push_one self p = Some self' ∧ time self' = time self ∧ queue_ok size (sorter self')
    ∧ ∀ k, wt (held (sorter self')) k = wt (held (sorter self)) k ⊕ wt (pushed p) k.
Proof.
  intros Hs Hp. unfold push_one. destruct p as [b|b].
  - unfold push_batch. destruct (push_batch_spec size Hsize _ b Hs) as (s & given & -> & Hs' & _ & Hw). by eexists.
  - unfold push_consolidated_batch. destruct (push_consolidated_batch_spec size Hsize _ b Hs Hp) as (s & given & -> & Hs' & _ & Hw). by eexists.
Qed.

Lemma push_ops_spec ops : ∀ self, queue_ok size (sorter self) → Forall push_ok ops →
  ∃ self', push_ops self ops = Some self' ∧ time self' = time self ∧ queue_ok size (sorter self')
    ∧ ∀ k, wt (held (sorter self')) k = wt (held (sorter self)) k ⊕ wt (ops ≫= pushed) k.
Proof.
  induction ops as [|p ops IH]; intros self Hs Hops; unfold push_ops; cbn [foldM].
  { exists self. split_and!; [done..|]. intros k. symmetry. apply madd_0_r. }
  apply Forall_cons in Hops as [Hp Hops]. destruct (push_one_spec self p Hs Hp) as (self1 & -> & Ht1 & Hs1 & Hw1). cbn [mbind option_bind].
  destruct (IH self1 Hs1 Hops) as (self' & Heq & Ht & Hs' & Hw). exists self'. split_and!; [exact Heq|congruence|done|].
  intros k. rewrite Hw, Hw1, <- madd_assoc. f_equal. symmetry. apply wt_app.
Qed.

Lemma seal_spec self : queue_ok size (sorter self) →
  ∃ out d, seal size default_kv self = Some out ∧ o_rep out d ∧ data_ok d
    ∧ ∀ k v t, wt (MergeCursor.tuples d) (k, (v, t)) = if decide (t = time self) then wt (held (sorter self)) (k, v) else mzero.
Proof.
  intros Hs. unfold seal. destruct (finish_into_spec size Hsize _ Hs) as (s & merged & -> & Hc & Hw). cbn [mbind option_bind]. rewrite build_flat.
  destruct (push_all_spec (timed_at (time self) (flat merged)) _ [] (new_rep default_kv)) as (tb & -> & Htb); [by apply timed_at_canonical|].
  cbn [mbind option_bind]. destruct (tb_done_spec tb _ Htb) as (out & d & Hout & Ho & Hd & Ht). exists out, d. split_and!; [done..|].
  intros k v t. rewrite Ht. cbn [app]. rewrite timed_at_wt, Hw. done.
Qed.
End batcher_spec.
