(* ===== verification/BatchTheorems.v ===== *)
(** What the batches promise to the rest of the engine: merging many batches, building one from tuples in
    order, copying what a predicate selects, and comparing two.  The theorems are about every batch that
    keeps the promises of the traits; weighted sets and indexed weighted sets are the examples. *)
From S2P Require Import Prelude Machine Order Timestamp Sort Consolidation Trie Leaf Layer LayerSpec IndexSet Scheduler MergeCursor ListMerger ListMergerSpec ListMergerLoops ListMergerTheorems.
From S2P Require Import Batch BatchSpec BatchBuild VecLayers VecWSet VecIndexedWSet VecKeyBatch VecValBatch MergeSorter MergeSorterSpec MergeBatcher CursorList CursorListSpec CursorListMoves CursorListTheorems.
#[local] Open Scope nat_scope.

(** ** A batch is known by its weights *)
Section unique.
Context {A B R : Type}.

Lemma prefix_split (a : A) (l1 l2 : list (B * R)) : ∀ r1 r2 : list ((A * B) * R), (∀ p, p ∈ r1 → p.1.1 ≠ a) → (∀ p, p ∈ r2 → p.1.1 ≠ a) →
  prefix a l1 ++ r1 = prefix a l2 ++ r2 → l1 = l2 ∧ r1 = r2.
Proof.
  revert l2. induction l1 as [|[b x] l1 IH]; intros [|[b' x'] l2] r1 r2 H1 H2 Heq; cbn in Heq.
  - done.
  - subst r1. by destruct (H1 ((a, b'), x') ltac:(left)).
  - subst r2. by destruct (H2 ((a, b), x) ltac:(left)).
  - injection Heq as -> -> Heq. by destruct (IH l2 r1 r2 H1 H2 Heq) as [-> ->].
Qed.

(** Groups with distinct keys that are not empty are known by what is in them. *)
Lemma groups_inj `{Ord A} (g1 g2 : list (A * list (B * R))) : keys_sorted g1 → keys_sorted g2 → Forall (λ p, p.2 ≠ []) g1 → Forall (λ p, p.2 ≠ []) g2 →
  (g1 ≫= λ '(a, l), prefix a l) = (g2 ≫= λ '(a, l), prefix a l) → g1 = g2.
Proof.
  assert (∀ (g : list (A * list (B * R))) a p, (∀ a', a' ∈ g.*1 → a ≺ a') → p ∈ (g ≫= λ '(a, l), prefix a l) → p.1.1 ≠ a) as Hin.
  { intros g a p Hg Hp Heq. apply list_elem_of_bind in Hp as ([a' l] & Hp & Hl). unfold prefix in Hp. apply list_elem_of_fmap in Hp as ([b x] & -> & _). cbn in Heq. subst a'.
    apply (klt_irrefl a), Hg. apply list_elem_of_fmap. by exists (a, l). }
  revert g2. induction g1 as [|[a1 l1] g1 IH]; intros [|[a2 l2] g2] H1 H2 Hn1 Hn2 Heq; [done|..];
    try (apply Forall_cons in Hn1 as [Ha1 Hn1]); try (apply Forall_cons in Hn2 as [Ha2 Hn2]); cbn in *.
  - by destruct l2 as [|[]].
  - by destruct l1 as [|[]].
  - apply keys_sorted_cons in H1 as [H1 Hlt1], H2 as [H2 Hlt2].
    assert (a1 = a2) as <- by (destruct l1 as [|[]], l2 as [|[]]; [done..|]; cbn in Heq; congruence).
    destruct (prefix_split a1 l1 l2 _ _ (λ p, Hin g1 a1 p Hlt1) (λ p, Hin g2 a1 p Hlt2) Heq) as [-> Hr]. f_equal. by apply IH.
Qed.
End unique.

Section unique_data.
Context `{OK : Ord K} `{OV : Ord V} `{OT : Ord T} `{MR : MonoidValue R}.
Implicit Types (d : Data K V T R) (vs : Vals V T R).

Lemma val_tups_inj vs1 vs2 : vals_ok vs1 → vals_ok vs2 → val_tups vs1 = val_tups vs2 → vs1 = vs2.
Proof.
  intros [H1 Hn1] [H2 Hn2]. apply groups_inj; [done..| |].
  - apply (Forall_fmap snd) in Hn1. eapply Forall_impl; [exact Hn1|]. by intros p [_ ?].
  - apply (Forall_fmap snd) in Hn2. eapply Forall_impl; [exact Hn2|]. by intros p [_ ?].
Qed.

Lemma val_tups_nil vs : entry_ok vs → val_tups vs ≠ [].
Proof. intros [[_ Hv] Hne]. destruct vs as [|[v [|[]]] vs]; [done| |done]. apply Forall_cons in Hv as [[_ ?] _]. done. Qed.

Definition flat d : list (K * list ((V * T) * R)) := (λ '(k, vs), (k, val_tups vs)) <$> d.

Lemma flat_tuples d : tuples d = flat d ≫= λ '(a, l), prefix a l.
Proof. induction d as [|[k vs] d IH]; [done|]. rewrite tuples_cons, IH. done. Qed.

Lemma flat_ok d : data_ok d → keys_sorted (flat d) ∧ Forall (λ p, p.2 ≠ []) (flat d).
Proof.
  intros [Hs Hf]. split.
  - unfold keys_sorted, flat in *. rewrite <- list_fmap_compose. erewrite list_fmap_ext; [exact Hs|]. by intros ? [].
  - unfold flat. rewrite Forall_fmap. apply (Forall_fmap snd) in Hf. eapply Forall_impl; [exact Hf|]. intros [k vs] Hvs. by apply val_tups_nil.
Qed.

Lemma tuples_inj d1 d2 : data_ok d1 → data_ok d2 → tuples d1 = tuples d2 → d1 = d2.
Proof.
  intros H1 H2. rewrite !flat_tuples. intros Heq. destruct (flat_ok d1 H1), (flat_ok d2 H2).
  apply groups_inj in Heq; [|done..]. destruct H1 as [_ H1], H2 as [_ H2]. clear - OK OV OT MR Heq H1 H2.
  revert d2 H2 Heq. induction d1 as [|[k1 vs1] d1 IH]; intros [|[k2 vs2] d2] H2 Heq; [done..|]. cbn in Heq. injection Heq as -> Hv Heq.
  apply Forall_cons in H1 as [[H1 _] Hf1], H2 as [[H2 _] Hf2]. cbn in H1, H2. by rewrite (val_tups_inj vs1 vs2), (IH Hf1 d2).
Qed.

(** Batches with the same weights are the same. *)
Lemma weights_inj d1 d2 : data_ok d1 → data_ok d2 → (∀ j, wt (tuples d1) j = wt (tuples d2) j) → d1 = d2.
Proof. intros H1 H2 Hw. apply tuples_inj; [done..|]. apply canonical_unique; [by apply tuples_canonical..|done]. Qed.
End unique_data.

(** ** Merging *)
Section merging.
Context `{OK : Ord K} `{OV : Ord V} `{OT : Ord T} `{MR : MonoidValue R} `{TS : Timestamp T} {PL : PartialOrderLaws T}.
Context `{CU : Cursor C K V T R} `{BR : !BatchReader Bt C K V T R} `{MC : MergeCursor CC K V T R} `{BU : Builder B Bt K V T R}
  {BT : Batch Bt B C CC K V T R} {CS : CursorSpec C K V T R} {MS : MergeCursorSpec CC K V T R} {BS : BuilderSpec B Bt K V T R}
  {SP : BatchSpec Bt B C CC K V T R}.
Context (size : nat) (Hsize : zst_ok (T * R) size) (default_time : T) (Hdefault : default_time = minimum).
Context (timed : bool) (Htimed : timed = false → ∀ t t' : T, t = t').
Context (kf : option (K → bool)) (vf : option (V → bool)).

(** C4. Merging batches.  [merge_batches] of any number of batches with fewer than [isize::MAX] values
    returns a batch in order in which every tuple that the filters keep has exactly the sum of its weights
    in the batches.  A tuple that the filters drop can only be in the result if it was in one of the
    batches: the filters are not applied to a batch that is not merged. *)
Theorem merge_batches_weights bs ds : holds bs ds → (Z.of_nat (nvals ds) < ListMerger.ISIZE_MAX)%Z →
  ∃ out d, merge_batches (BU := BU) size default_time timed kf vf bs = Some out ∧ o_rep out d ∧ data_ok d
    ∧ (∀ j, kept kf vf j = true → wt (tuples d) j = wt (ds ≫= tuples) j)
    ∧ (∀ j, kept kf vf j = false → j ∈ (tuples d).*1 → j ∈ (ds ≫= tuples).*1).
Proof.
  intros Hbs Hmax. destruct (merge_batches_sums size Hsize default_time Hdefault timed Htimed kf vf bs ds Hbs Hmax) as (out & d & Hout & Hr & Hk & Hin & _).
  exists out, d. cbn in Hk, Hin. rewrite app_nil_r in Hk, Hin. split_and!; [done|done|by eapply bt_ok|done|done].
Qed.

(** C25. Merging batches by reference.  [merge_batches_by_reference] returns a batch in order in which every
    tuple that the filters keep has exactly the sum of its weights in the batches, and no other tuple is:
    every tuple passes through the filters. *)
Theorem merge_by_reference_weights bs ds : holds bs ds → (Z.of_nat (nvals ds) < ListMerger.ISIZE_MAX)%Z →
  ∃ out d, merge_batches_by_reference (BU := BU) size default_time timed kf vf bs = Some out ∧ o_rep out d ∧ data_ok d
    ∧ (∀ j, wt (tuples d) j = if kept kf vf j then wt (ds ≫= tuples) j else mzero)
    ∧ (∀ j, j ∈ (tuples d).*1 → kept kf vf j = true).
Proof.
  intros Hbs Hmax. destruct (by_reference_sums size Hsize default_time Hdefault timed Htimed kf vf bs ds Hbs Hmax) as (out & d & Hout & Hr & Hwt).
  pose proof (bt_ok _ _ Hr) as Hok. exists out, d. split_and!; [done..|]. intros j Hj. apply (canonical_elem _ _ (tuples_canonical d Hok)) in Hj.
  rewrite Hwt in Hj. by destruct (kept kf vf j).
Qed.
End merging.

(** ** Building *)
Section building.
Context `{OK : Ord K} `{OV : Ord V} `{OT : Ord T} `{MR : MonoidValue R} `{BU : Builder B Out K V T R} {BS : BuilderSpec B Out K V T R}.
Context (default_kv : K * V).

(** Building from tuples.  A [TupleBuilder] that is given tuples in strictly increasing order with
    weights that are not zero, and is then done, returns a batch that holds exactly those tuples. *)
Theorem tuple_builder_tuples l : canonical l →
  ∃ self out d, push_all (TupleBuilder.new default_kv new_builder) l = Some self ∧ TupleBuilder.done self = Some out
    ∧ o_rep out d ∧ data_ok d ∧ tuples d = l.
Proof.
  intros Hl. destruct (push_all_spec l _ [] (new_rep default_kv) Hl) as (self & Hp & Hs).
  destruct (tb_done_spec self l Hs) as (out & d & ?). by exists self, out, d.
Qed.
End building.

Section batching.
Context `{OK : Ord K} `{OV : Ord V} `{OT : Ord T} `{MR : MonoidValue R} `{BU : Builder B Out K V T R} {BS : BuilderSpec B Out K V T R}.
Context (size : nat) (Hsize : zst_ok ((K * V) * R) size) (default_kv : K * V).

(** C22. Building from tuples in any order.  A batcher for a time that is given vectors of tuples, to be
    consolidated or consolidated already, and is then sealed, returns a batch in order in which the weight
    of a key and a value is the sum of their weights in all the vectors, at the time of the batcher, and
    zero at any other time.  Every call returns: the loops that merge runs end and no assertion fails. *)
Theorem merge_batcher_weights (time : T) (ops : list (Push (K * V) R)) : Forall push_ok ops →
  ∃ self out d, push_ops size (MergeBatcher.new_batcher size time) ops = Some self ∧ MergeBatcher.seal size default_kv self = Some out
    ∧ o_rep out d ∧ data_ok d
    ∧ ∀ k v t, wt (tuples d) (k, (v, t)) = if decide (t = time) then wt (ops ≫= pushed) (k, v) else mzero.
Proof.
  intros Hops. destruct (push_ops_spec size Hsize ops (MergeBatcher.new_batcher size time)) as (self & Hp & Ht & Hs & Hw); [apply new_queue_ok|done|].
  destruct (seal_spec size Hsize default_kv self Hs) as (out & d & Hout & Ho & Hd & Hwt). exists self, out, d. split_and!; [done..|].
  intros k v t. rewrite Hwt, Ht, Hw. cbn [MergeBatcher.time MergeBatcher.new_batcher]. destruct (decide _); [apply madd_0_l|done].
Qed.
End batching.

(** ** Selecting *)
Section selecting.
Context `{OK : Ord K} `{OV : Ord V} `{OT : Ord T} `{MR : MonoidValue R}.
Context `{CU : Cursor C K V T R} `{BR : !BatchReader Bt C K V T R} `{MC : MergeCursor CC K V T R} `{BU : Builder B Bt K V T R}
  {BT : Batch Bt B C CC K V T R} {CS : CursorSpec C K V T R} {MS : MergeCursorSpec CC K V T R} {BS : BuilderSpec B Bt K V T R}
  {SP : BatchSpec Bt B C CC K V T R} {WS : WeightSpec C K V T R}.
Context (Hunit : ∀ t t' : T, t = t') (default_time : T).

Lemma stamped_one (predicate : option (K → V → bool)) (ts : T) (d : Data K V T R) :
  tuples (stamped (T1 := T) predicate ts d) = List.filter (λ p, holds_for predicate p.1.1 p.1.2.1) (tuples d).
Proof.
  induction d as [|[k vs] d IH]; [done|]. rewrite stamped_cons, tuples_app, tuples_cons, IH, List.filter_app. f_equal.
  transitivity (prefix k (val_tups (stamped_vals (T1 := T) predicate ts k vs))).
  { destruct (stamped_vals _ _ _ _); [done|]. cbn. by rewrite app_nil_r. }
  clear IH. induction vs as [|[v l] vs IH]; [done|]. change (val_tups ((v, l) :: vs)) with (prefix v l ++ val_tups vs).
  rewrite prefix_app, List.filter_app, <- IH. unfold stamped_vals. cbn [List.filter fst].
  assert (stamp (T1 := T) ts l = l) as Hl. { clear -Hunit. induction l as [|[t r] l IH]; [done|]. cbn. rewrite (Hunit ts t) at 1. f_equal. exact IH. }
  destruct (holds_for predicate k v) eqn:E; cbn [fmap list_fmap]; rewrite ?Hl.
  - change (val_tups ((v, l) :: ?x)) with (prefix v l ++ val_tups x). rewrite prefix_app. f_equal. clear -E.
    induction l as [|[t r] l IH]; [done|]. cbn. rewrite E. by f_equal.
  - clear -E. induction l as [|[t r] l IH]; [done|]. cbn. by rewrite E.
Qed.

(** Filtering a batch.  [Batch::filter] of a batch that is not timed returns a batch that holds exactly
    the tuples whose key and value satisfy the predicate, in their order and with their weights. *)
Theorem filter_batch_tuples b d (predicate : K → V → bool) : o_rep b d →
  ∃ out d', filter_batch (BU := BU) default_time b predicate = Some out ∧ o_rep out d' ∧ data_ok d'
    ∧ tuples d' = List.filter (λ p, predicate p.1.1 p.1.2.1) (tuples d).
Proof.
  intros Hb. pose proof (bt_ok _ _ Hb) as Hok. destruct (bt_cursor _ _ Hb) as (c & Hc & Hr).
  destruct (copied_done Hunit false (Some predicate) default_time (steps b) c d Hr Hok) as (bl & out & Hbl & Hout & Ho & Hd).
  { unfold steps. rewrite remaining_length, (bt_keys _ _ Hb), (bt_len _ _ Hb). pose proof (tuples_length d Hok). lia. }
  exists out, (stamped (T1 := T) (Some predicate) default_time d). split_and!; [|done|done|apply stamped_one].
  unfold filter_batch. rewrite Hc. cbn [mbind option_bind]. by rewrite Hbl.
Qed.

(** C37. Comparing batches.  [eq_batch] returns, and it returns [true] exactly when every tuple has the same
    weight in the two batches. *)
Theorem eq_batch_tuples (a b : Bt) (da db : Data K V T R) : o_rep a da → o_rep b db →
  ∃ r, eq_batch (K := K) (V := V) (R := R) (T1 := T) (T2 := T) a b = Some r ∧ (r = true ↔ ∀ j, wt (tuples da) j = wt (tuples db) j).
Proof.
  intros Ha Hb. destruct (bt_cursor _ _ Ha) as (c1 & Hc1 & H1). destruct (bt_cursor _ _ Hb) as (c2 & Hc2 & H2).
  pose proof (bt_ok _ _ Ha) as Hda. pose proof (bt_ok _ _ Hb) as Hdb.
  destruct (eq_keys_spec Hunit (steps a) c1 c2 da db H1 H2 Hda Hdb) as (r & Hr & Heq).
  { unfold steps. rewrite remaining_length, (bt_keys _ _ Ha), (bt_len _ _ Ha). pose proof (tuples_length da Hda). lia. }
  exists r. split; [unfold eq_batch; by rewrite Hc1; cbn [mbind option_bind]; rewrite Hc2|]. rewrite Heq. split; [by intros ->|].
  by apply weights_inj.
Qed.
End selecting.

(** ** The movements of the cursor of an indexed weighted set, as a trait *)
Section indexed_moves.
Context `{OK : Ord K} `{OV : Ord V} `{MR : MonoidValue R} (sk sv sr : nat).
Import VecIndexedWSet.

Definition indexed_moves : CursorMoves (VecIndexedWSetCursor K V R) K V unit R := {|
  CursorMoves.map_times_through := map_times_through; CursorMoves.step_key_reverse := step_key_reverse sv sr;
  CursorMoves.seek_key := seek_key sk sv sr; CursorMoves.seek_key_exact := λ c k _, seek_key_exact sk sv sr c k;
  CursorMoves.seek_key_with := seek_key_with sk sv sr; CursorMoves.seek_key_with_reverse := seek_key_with_reverse sk sv sr;
  CursorMoves.seek_key_reverse := seek_key_reverse sk sv sr; CursorMoves.step_val_reverse := λ c, Some (step_val_reverse c);
  CursorMoves.seek_val := seek_val sv; CursorMoves.seek_val_reverse := seek_val_reverse sv;
  CursorMoves.seek_val_with := seek_val_with sv; CursorMoves.seek_val_with_reverse := seek_val_with_reverse sv;
  CursorMoves.rewind_keys := rewind_keys sv sr; CursorMoves.fast_forward_keys := fast_forward_keys sv sr;
  CursorMoves.rewind_vals := λ c, Some (rewind_vals c); CursorMoves.fast_forward_vals := λ c, Some (fast_forward_vals c);
  CursorMoves.position := λ c, Some (pos_total (position c), pos_offset (position c)) |}.
End indexed_moves.

(** ** Examples: indexed weighted sets with numbers as keys and values *)
Section examples.
Import VecIndexedWSet.
#[local] Open Scope Z_scope.
#[local] Abbreviation Set8 := (VecIndexedWSet nat nat Z).
Implicit Types es : list (nat * list (nat * Z)).

Lemma sized {A} : zst_ok A 8.
Proof. done. Qed.

#[local] Instance ex_cursor : Cursor (VecIndexedWSetCursor nat nat Z) nat nat unit Z := indexed_cursor 8 8.
#[local] Instance ex_reader : BatchReader Set8 (VecIndexedWSetCursor nat nat Z) nat nat unit Z := indexed_reader 8 8.
#[local] Instance ex_builder : Builder (VecIndexedWSetBuilder nat nat Z) Set8 nat nat unit Z := indexed_builder 0%nat 0%nat.
#[local] Instance ex_batch :
  Batch Set8 (VecIndexedWSetBuilder nat nat Z) (VecIndexedWSetCursor nat nat Z) (VecIndexedWSetConsumingCursor nat nat Z) nat nat unit Z := indexed_batch 8 8 0%nat 0%nat.
#[local] Instance ex_cursor_spec : CursorSpec (VecIndexedWSetCursor nat nat Z) nat nat unit Z := indexed_cursor_spec 8 8 sized sized.
#[local] Instance ex_weight_spec : WeightSpec (VecIndexedWSetCursor nat nat Z) nat nat unit Z := indexed_weight_spec 8 8 sized sized.
#[local] Instance ex_consuming_spec : MergeCursorSpec (VecIndexedWSetConsumingCursor nat nat Z) nat nat unit Z := indexed_consuming_spec 8 8 sized sized.
#[local] Instance ex_builder_spec : BuilderSpec (VecIndexedWSetBuilder nat nat Z) Set8 nat nat unit Z := indexed_builder_spec 8 8 sized sized 0%nat 0%nat.
#[local] Instance ex_batch_spec :
  BatchSpec Set8 (VecIndexedWSetBuilder nat nat Z) (VecIndexedWSetCursor nat nat Z) (VecIndexedWSetConsumingCursor nat nat Z) nat nat unit Z := indexed_batch_spec 8 8 sized sized 0%nat 0%nat.

(** Two batches: of the value 20 of the key 2 one has two, the other takes them back. *)
Definition entries1 : list (nat * list (nat * Z)) := [(1%nat, [(10%nat, 1)]); (2%nat, [(20%nat, 2); (21%nat, -1)])].
Definition batch1 : Set8 := mk (mkLayer [1; 2]%nat [0; 1; 3]%nat (mkLeaf [10; 20; 21]%nat [1; 2; -1])).
Definition entries2 : list (nat * list (nat * Z)) := [(2%nat, [(20%nat, -2)]); (3%nat, [(30%nat, 5)])].
Definition batch2 : Set8 := mk (mkLayer [2; 3]%nat [0; 1; 2]%nat (mkLeaf [20; 30]%nat [-2; 5])).

Lemma batch1_rep : o_rep batch1 (indexed_data entries1).
Proof.
  exists entries1. split_and!; [|done|apply indexed_data_ok; by repeat constructor]. split; [done|]. split_and!; [done..|]. by repeat constructor.
Qed.
Lemma batch2_rep : o_rep batch2 (indexed_data entries2).
Proof.
  exists entries2. split_and!; [|done|apply indexed_data_ok; by repeat constructor]. split; [done|]. split_and!; [done..|]. by repeat constructor.
Qed.

#[local] Instance ex_laws : PartialOrderLaws unit := _.

(** The batches as one list, and what they hold. *)
Lemma both_hold : holds [batch1; batch2] [indexed_data entries1; indexed_data entries2].
Proof. constructor; [apply batch1_rep|]. constructor; [apply batch2_rep|constructor]. Qed.

Lemma unit_unique (t t' : unit) : t = t'.
Proof. by destruct t, t'. Qed.

(** Keys below 3. *)
Definition small (k : nat) : bool := (k <? 3)%nat.

Lemma merge_batches_weights_witness :
  ∃ out d, merge_batches (BU := ex_builder) 8 () false None None [batch1; batch2] = Some out ∧ o_rep out d ∧ data_ok d
    ∧ wt (tuples d) (2%nat, (20%nat, ())) = 0 ∧ wt (tuples d) (3%nat, (30%nat, ())) = 5.
Proof.
  destruct (merge_batches_weights (BT := ex_batch) (TS := nil_timestamp) 8 sized () eq_refl false (λ _, unit_unique) None None _ _ both_hold)
    as (out & d & Hm & Ho & Hok & Hw & _); [by vm_compute|].
  exists out, d. split_and!; [done|done|done|by rewrite Hw|by rewrite Hw].
Defined.

Lemma merge_by_reference_weights_witness :
  ∃ out d, merge_batches_by_reference (BU := ex_builder) 8 () false (Some small) None [batch1; batch2] = Some out ∧ o_rep out d
    ∧ wt (tuples d) (2%nat, (21%nat, ())) = -1 ∧ wt (tuples d) (3%nat, (30%nat, ())) = 0.
Proof.
  destruct (merge_by_reference_weights (BT := ex_batch) (TS := nil_timestamp) 8 sized () eq_refl false (λ _, unit_unique) (Some small) None _ _ both_hold)
    as (out & d & Hm & Ho & Hok & Hw & _); [by vm_compute|].
  exists out, d. split_and!; [done|done|by rewrite Hw|by rewrite Hw].
Defined.

Lemma tuple_builder_tuples_witness :
  ∃ self out d, push_all (BU := ex_builder) (TupleBuilder.new (0%nat, 0%nat) new_builder) (tuples (indexed_data entries1)) = Some self
    ∧ TupleBuilder.done self = Some out ∧ o_rep out d ∧ tuples d = tuples (indexed_data entries1).
Proof.
  destruct (tuple_builder_tuples (BU := ex_builder) (0%nat, 0%nat) (tuples (indexed_data entries1))) as (self & out & d & Hp & Hd & Ho & _ & Ht).
  - apply tuples_canonical. apply indexed_data_ok; by repeat constructor.
  - by exists self, out, d.
Defined.

(** Three vectors: the weights of the value 20 of the key 2 cancel. *)
Definition weighted (k v : nat) (w : Z) : (nat * nat) * Z := ((k, v), w).
Definition pushes : list (Push (nat * nat) Z) :=
  [Unordered (RawVec.mk [weighted 2 20 1; weighted 1 10 3; weighted 2 20 1] 4); Consolidated (RawVec.mk [weighted 1 10 1; weighted 2 20 (-2)] 2);
   Unordered (RawVec.mk [weighted 3 30 5] 1)].

Lemma pushes_ok : Forall push_ok pushes.
Proof.
  repeat (apply Forall_cons; split); [done| |done|constructor]. apply canonical_cons; [apply canonical_cons; [apply canonical_nil|done|by intros ? ?%elem_of_nil]|done|].
  by intros k ->%list_elem_of_singleton.
Qed.

Lemma merge_batcher_weights_witness :
  ∃ self out d, push_ops 24 (MergeBatcher.new_batcher 24 ()) pushes = Some self ∧ MergeBatcher.seal (BU := ex_builder) 24 (0%nat, 0%nat) self = Some out
    ∧ o_rep out d ∧ wt (tuples d) (1%nat, (10%nat, ())) = 4 ∧ wt (tuples d) (2%nat, (20%nat, ())) = 0.
Proof.
  destruct (merge_batcher_weights (BU := ex_builder) 24 (λ H, match Nat.neq_succ_0 _ H with end) (0%nat, 0%nat) () pushes pushes_ok)
    as (self & out & d & Hp & Hd & Ho & _ & Hw).
  exists self, out, d. split_and!; [done..|by rewrite Hw|by rewrite Hw].
Defined.

Lemma filter_batch_tuples_witness :
  ∃ out d, filter_batch (BU := ex_builder) () batch1 (λ k v, v =? 21)%nat = Some out ∧ o_rep out d ∧ tuples d = [((2%nat, (21%nat, ())), -1)].
Proof.
  destruct (filter_batch_tuples (BT := ex_batch) unit_unique () batch1 _ (λ k v, v =? 21)%nat batch1_rep) as (out & d & Hm & Ho & _ & Ht). by exists out, d.
Defined.

(** The cursors of the two batches. *)
Lemma two_cursors : ∃ cs, mapM Batch.cursor [batch1; batch2] = Some cs ∧ starts 8 cs [indexed_data entries1; indexed_data entries2].
Proof.
  destruct (bt_cursor batch1 _ batch1_rep) as (c1 & Hc1 & H1). destruct (bt_cursor batch2 _ batch2_rep) as (c2 & Hc2 & H2).
  exists [c1; c2]. cbn [mapM]. rewrite Hc1. cbn [mbind option_bind]. rewrite Hc2. split; [done|]. split_and!; [by repeat constructor| |vm_compute; lia..].
  constructor; [apply (bt_ok batch1 _ batch1_rep)|]. constructor; [apply (bt_ok batch2 _ batch2_rep)|constructor].
Qed.

#[local] Abbreviation List8 := (CursorList.CursorList (VecIndexedWSetCursor nat nat Z) Z).
#[local] Instance ex_list : Cursor List8 nat nat unit Z := summed_cursor (C := VecIndexedWSetCursor nat nat Z) 8.

Lemma cursor_list_weights_witness :
  ∃ cs (self : List8) (l : list (nat * list (nat * Z))), mapM Batch.cursor [batch1; batch2] = Some cs ∧ CursorList.new (K := nat) (V := nat) (T := unit) true 8 cs = Some self
    ∧ read_keys (CU := ex_list) (read_weight (CU := ex_list)) 8 8 self = Some l
    ∧ wt (l ≫= λ p, prefix p.1 p.2) (2%nat, 20%nat) = 0 ∧ wt (l ≫= λ p, prefix p.1 p.2) (3%nat, 30%nat) = 5.
Proof.
  destruct two_cursors as (cs & Hcs & Hs). destruct (cursor_list_weights 8 cs _ unit_unique Hs) as (self & l & Hn & Hr & _ & Hw).
  exists cs, self, l. split_and!; [done..|by rewrite (Hw 2%nat 20%nat ())|by rewrite (Hw 3%nat 30%nat ())].
Defined.

(** Seeking, and moving backward from the end: of the key 2 only the value 21 is left. *)
#[local] Instance ex_moves : CursorMoves (VecIndexedWSetCursor nat nat Z) nat nat unit Z := indexed_moves 8 8 8.
Definition moves : option (list (nat * nat * Z)) :=
  let at_ (self : List8) := k ← CursorList.key (K := nat) (V := nat) (T := unit) self; v ← CursorList.val (K := nat) (V := nat) (T := unit) self;
    w ← CursorList.weight (K := nat) (V := nat) (T := unit) self; Some (k, v, w) in
  cs ← mapM Batch.cursor [batch1; batch2];
  l0 ← CursorList.new (K := nat) (V := nat) (T := unit) true 8 cs;
  l1 ← CursorList.seek_key (T := unit) (V := nat) true 8 l0 2%nat;
  l2 ← CursorList.fast_forward_keys (K := nat) (T := unit) (V := nat) true 8 l1;
  l3 ← CursorList.step_key_reverse (K := nat) (T := unit) (V := nat) true 8 l2;
  '(l4, found) ← CursorList.seek_key_exact (T := unit) (V := nat) true 8 Z.of_nat l0 3%nat None;
  assert! found in mapM at_ [l0; l1; l2; l3; l4].

Example moves_example : moves = Some [(1%nat, 10%nat, 1); (2%nat, 21%nat, -1); (3%nat, 30%nat, 5); (2%nat, 21%nat, -1); (3%nat, 30%nat, 5)].
Proof. by vm_compute. Qed.

Lemma eq_batch_tuples_witness : eq_batch (K := nat) (V := nat) (R := Z) (T1 := unit) (T2 := unit) batch1 batch2 = Some false.
Proof.
  destruct (eq_batch_tuples (BT := ex_batch) unit_unique batch1 batch2 _ _ batch1_rep batch2_rep) as (r & -> & Hr).
  destruct r; [|done]. by pose proof (proj1 Hr eq_refl (3%nat, (30%nat, ()))).
Defined.

(** ** The merger on the cursors of these batches *)
Definition cursors : list (BoxCursor (VecIndexedWSetCursor nat nat Z) (VecIndexedWSetConsumingCursor nat nat Z) nat nat) :=
  [BoxConsuming (consuming_new batch1); BoxConsuming (consuming_new batch2)].

Lemma cursor_of_batch (b : Set8) d : o_rep b d →
  ∃ m, mc_rep (C := BoxCursor (VecIndexedWSetCursor nat nat Z) (VecIndexedWSetConsumingCursor nat nat Z) nat nat) m (BoxConsuming (consuming_new b)) d.
Proof.
  intros Hb. destruct (bt_consuming b d None None Hb) as (c & m & [= <-] & Hr). exists m. by rewrite filter_data_none in Hr by by eapply bt_ok.
Qed.

Lemma cursors_start : cursors_of cursors [indexed_data entries1; indexed_data entries2].
Proof.
  constructor; [split; [apply (cursor_of_batch batch1), batch1_rep|apply (bt_ok batch1), batch1_rep]|].
  constructor; [split; [apply (cursor_of_batch batch2), batch2_rep|apply (bt_ok batch2), batch2_rep]|constructor].
Qed.

Lemma list_merger_merge_witness :
  ∃ out d, ListMerger.merge (K := nat) (V := nat) (BU := ex_builder) 8 () 12 false new_builder cursors = Some out ∧ o_rep out d
    ∧ wt (tuples d) (2%nat, (20%nat, ())) = 0 ∧ wt (tuples d) (3%nat, (30%nat, ())) = 5.
Proof.
  destruct (list_merger_merge (BU := ex_builder) (TS := nil_timestamp) 8 () sized false (λ _, unit_unique) 12 cursors _ eq_refl cursors_start)
    as (out & d & Hm & Ho & Hok & Hw); [cbn; lia|cbn; lia|by vm_compute|].
  exists out, d. split_and!; [done|done|by rewrite Hw|by rewrite Hw].
Defined.

End examples.

(** ** Example: a merge of timed batches in the background *)
#[local] Instance Ord_Z : Ord Z.
Proof. refine {| cmp := Z.compare; cmp_eq := Z.compare_eq_iff |}; [apply Z.compare_antisym|]. intros x y z. rewrite !Z.compare_lt_iff. lia. Defined.

Section timed.
Import VecValBatch.
#[local] Open Scope Z_scope.
#[local] Abbreviation Batch8 := (VecValBatch nat nat Z Z).
#[local] Abbreviation Cursor8 := (VecValCursor nat nat Z Z).
#[local] Abbreviation Builder8 := (VecValBuilder nat nat Z Z).

#[local] Instance tm_cursor : Cursor Cursor8 nat nat Z Z := val_cursor 8 8 8.
#[local] Instance tm_reader : BatchReader Batch8 Cursor8 nat nat Z Z := val_reader 8 8 8.
#[local] Instance tm_builder : Builder Builder8 Batch8 nat nat Z Z := val_builder 0%nat 0%nat.
#[local] Instance tm_batch : Batch Batch8 Builder8 Cursor8 NoCursor nat nat Z Z := val_batch 8 8 8 0%nat 0%nat.
#[local] Instance tm_cursor_spec : CursorSpec Cursor8 nat nat Z Z := val_cursor_spec 8 8 8 sized sized sized.
#[local] Instance tm_builder_spec : BuilderSpec Builder8 Batch8 nat nat Z Z := val_builder_spec 8 8 8 sized sized sized 0%nat 0%nat.
#[local] Instance tm_batch_spec : BatchSpec Batch8 Builder8 Cursor8 NoCursor nat nat Z Z := val_batch_spec 8 8 8 sized sized sized 0%nat 0%nat.

(** The value 10 of the key 1 has weight 1 at time 0 and 2 at time 3; the other batch takes one back at time 1. *)
Definition timed1 : Data nat nat Z Z := [(1%nat, [(10%nat, [(0, 1); (3, 2)])])].
Definition timed_batch1 : Batch8 := mk (mkLayer [1]%nat [0; 1]%nat (mkLayer [10]%nat [0; 2]%nat (mkLeaf [0; 3] [1; 2]))).
Definition timed2 : Data nat nat Z Z := [(1%nat, [(10%nat, [(1, -1)])])].
Definition timed_batch2 : Batch8 := mk (mkLayer [1]%nat [0; 1]%nat (mkLayer [10]%nat [0; 1]%nat (mkLeaf [1] [-1]))).

Lemma times2_ok (t1 t2 r1 r2 : Z) : t1 < t2 → r1 <> 0 → r2 <> 0 → times_ok [(t1, r1); (t2, r2)].
Proof.
  intros Ht H1 H2. split; [|done]. apply canonical_cons; [apply canonical_cons; [apply canonical_nil|done|by intros ? ?%elem_of_nil]|done|].
  intros t ->%list_elem_of_singleton. exact (proj2 (Z.compare_lt_iff _ _) Ht).
Qed.

Lemma one_value_ok (k v : nat) (ts : Times Z Z) : times_ok ts → data_ok [(k, [(v, ts)])].
Proof.
  intros Hts. split; [repeat constructor|]. constructor; [|constructor]. split; [|done]. split; [repeat constructor|]. constructor; [exact Hts|constructor].
Qed.

Lemma timed1_rep : o_rep timed_batch1 timed1.
Proof.
  split; [|by apply one_value_ok, times2_ok]. split; [|split_and!; [done..|by repeat constructor]].
  split; [done|]. split_and!; [done..| |done]. by repeat constructor.
Qed.
Lemma timed2_rep : o_rep timed_batch2 timed2.
Proof.
  split; [|by apply one_value_ok, times_ok_one]. split; [|split_and!; [done..|by repeat constructor]].
  split; [done|]. split_and!; [done..| |done]. by repeat constructor.
Qed.

Lemma timed_cursors : ∃ cs, mapM (λ b, consuming_cursor b None None) [timed_batch1; timed_batch2] = Some cs ∧ cursors_of cs [timed1; timed2] ∧ length cs = 2%nat.
Proof.
  destruct (bt_consuming timed_batch1 timed1 None None timed1_rep) as (c1 & m1 & Hc1 & Hr1).
  destruct (bt_consuming timed_batch2 timed2 None None timed2_rep) as (c2 & m2 & Hc2 & Hr2).
  pose proof (bt_ok _ _ timed1_rep) as Hok1. pose proof (bt_ok _ _ timed2_rep) as Hok2. rewrite filter_data_none in Hr1, Hr2 by done.
  exists [c1; c2]. cbn [mapM]. rewrite Hc1, Hc2. split_and!; [done| |done].
  constructor; [split; [by exists m1|done]|]. constructor; [split; [by exists m2|done]|constructor].
Qed.

(** Two calls with fuel for one value each; times before 2 are no longer distinguished, so the weights at
    0 and 1 cancel. *)
Lemma list_merger_calls_witness :
  ∃ cs merger self b fuels out d, mapM (λ b, consuming_cursor b None None) [timed_batch1; timed_batch2] = Some cs
    ∧ ListMerger.new true cs = Some merger
    ∧ work_calls (BU := tm_builder) (K := nat) (V := nat) 16 0 5 merger new_builder [(2, 1); (2, 1); (0, 1)] = Some (self, b, fuels)
    ∧ MergeCursor.done b = Some out ∧ o_rep out d
    ∧ weights_at (λ t, join t 2) (tuples d) (1%nat, (10%nat, 2)) = 0 ∧ weights_at (λ t, join t 2) (tuples d) (1%nat, (10%nat, 3)) = 2.
Proof.
  destruct timed_cursors as (cs & Hcs & Hof & Hlen).
  destruct (list_merger_calls (BU := tm_builder) (TS := u32_timestamp) 16 0 (λ H, match Nat.neq_succ_0 _ H with end) true (λ H, match Bool.diff_true_false H with end)
    5 cs _ [(2, 1); (2, 1); (0, 1)] 2 Hof) as (merger & self & b & fuels & Hn & Hw & Hb & Hf); [lia|cbn; lia|by repeat constructor|].
  destruct Hf as (f & Hl & Hf); [by vm_compute|]. destruct (Hb f Hl Hf) as (out & d & Hout & Ho & _ & Hwt).
  exists cs, merger, self, b, fuels, out, d. split_and!; [done..|by rewrite Hwt|by rewrite Hwt].
Defined.

#[local] Abbreviation TimedList8 := (CursorList.CursorList Cursor8 Z).
#[local] Instance tm_list : Cursor TimedList8 nat nat Z Z := timed_cursor (C := Cursor8) 8.

(** The cursors of the two batches: the value 10 of the key 1 is read once, with three times. *)
Lemma cursor_list_times_witness :
  ∃ cs (self : TimedList8) (l : Data nat nat Z Z), mapM Batch.cursor [timed_batch1; timed_batch2] = Some cs ∧ CursorList.new (K := nat) (V := nat) (T := Z) false 8 cs = Some self
    ∧ read_keys (CU := tm_list) (CursorList.map_times (K := nat) (V := nat) (T := Z)) 8 8 self = Some l
    ∧ length l = 1%nat ∧ wt (tuples l) (1%nat, (10%nat, 1)) = -1.
Proof.
  destruct (bt_cursor timed_batch1 _ timed1_rep) as (c1 & Hc1 & H1). destruct (bt_cursor timed_batch2 _ timed2_rep) as (c2 & Hc2 & H2).
  destruct (cursor_list_times 8 [c1; c2] [timed1; timed2]) as (self & l & Hn & Hr & Hs & _ & Hp).
  { split_and!; [by repeat constructor| |vm_compute; lia..]. constructor; [apply (bt_ok _ _ timed1_rep)|]. constructor; [apply (bt_ok _ _ timed2_rep)|constructor]. }
  exists [c1; c2], self, l. cbn [mapM]. rewrite Hc1. cbn [mbind option_bind]. rewrite Hc2. split_and!; [done..| |by rewrite Hp].
  vm_compute in Hc1, Hc2. injection Hc1 as <-. injection Hc2 as <-. vm_compute in Hn. injection Hn as <-. vm_compute in Hr. by injection Hr as <-.
Defined.
End timed.

(** Of a batch of this kind without times, [weight] is the weight of the current value until [map_times] has been
    called: that leaves the cursor over the times at their end, which is the next value's weight. *)
Definition untimed_batch : VecValBatch.VecValBatch nat nat unit Z :=
  VecValBatch.mk (mkLayer [1] [0; 2] (mkLayer [10; 11] [0; 1; 2] (mkLeaf [(); ()] [1%Z; 2%Z]))).

Lemma weight_after_map_times :
  ∃ c c', VecValBatch.w_cursor 8 8 8 untimed_batch = Some c ∧ VecValBatch.val c = Some 10 ∧ VecValBatch.weight c = Some 1%Z
    ∧ VecValBatch.map_times c = Some (c', [((), 1%Z)]) ∧ VecValBatch.val c' = Some 10 ∧ VecValBatch.weight c' = Some 2%Z.
Proof. do 2 eexists. split_and!; by vm_compute. Qed.
